(* ===== verification/_CoqProject ===== *)
-Q . S2P
Prelude.v
Serialized.v
Views.v
RaftTypes.v
Raft.v
RaftWire.v
RaftLog.v
RaftNode.v
RaftCommit.v
RaftSend.v
RaftElection.v
RaftNetwork.v
RaftVotes.v
RaftScenarios.v
RingBuffer.v
RingInvariant.v
RingSafety.v
RingSystem.v
RingRuns.v
RingProgress.v
SymmetricKey.v
ContiguousSets.v
ContiguousSetProps.v
Channels.v
ChannelManager.v
ChannelProps.v
ChannelHandshake.v
ChannelSafety.v
ChannelAgreement.v
ChannelScenarios.v
ChannelConsensus.v
KvMap.v
KvRoll.v
KvHooks.v
KvHandle.v
KvHandleProps.v
KvValidation.v
KvSerialise.v
KvStore.v
KvTx.v
LedgerSecrets.v
LedgerSecretsProps.v
ShareManager.v
ShareManagerProps.v
KvStoreProps.v
KvStoreHistory.v
KvSystem.v
KvRefinement.v
KvStoreSnapshot.v
KvSerialiseProps.v
KvReplica.v
ChampMap.v
ChampVector.v
ChampMapProps.v
ChampRefinement.v
KvSnapshotProps.v
Writers.v
WritersProps.v
OversizedProps.v
Messaging.v
MessagingProps.v
MessagingScenarios.v
Serializer.v
LedgerFile.v
Ledger.v
LedgerNames.v
LedgerFileProps.v
LedgerInvariant.v
LedgerUpdates.v
LedgerWrites.v
LedgerCommits.v
LedgerEnclave.v
LedgerSystem.v
LedgerRestart.v
NodeRecovery.v
NodeRecoveryProps.v
NodeScenarios.v
