(* ===== verification/Prelude.v ===== *)
(** * A verification of the Confidential Consortium Framework

    The sources under src/ are a replicated key-value service.  A node is an enclave that runs the service and a host
    process that owns the network and the disk; the two exchange messages over ring buffers.  A transaction runs on the
    primary's key-value store, is serialised, replicated by the consensus, written to the ledger by the host, and applied
    by the stores of the backups.  A node that restarts reads the ledger back.

    ** Conventions

    Definitions keep the names of the source where they can.  An object is a record, a member function a computation of
    the monad [ST S A := S -> S * outcome A] below, which threads the object and ends in a value or an exception;
    [UndefinedBehaviour] is one of the exceptions.  A [uint64_t] is a [Z] that [u64] wraps; a buffer is a list of bytes.  Functions
    that hold a lock for their whole body are one step.  Log lines are left out.  Calls to a component outside the file
    at hand are recorded in order, and their answers are arguments; the assumptions on code that is not part of the
    sources (ciphers, hashes, [std::sort], third-party libraries) are hypotheses or classes with named laws, each with an
    instance on which the theorems are evaluated.

    ** Parts

    Consensus (src/consensus/aft, src/kv/kv_types.h, src/node/hooks.h, src/node/node_to_node.h).
    [Views] is ViewHistory of impl/state.h; [RaftTypes] and [Raft] are raft_types.h and raft.h, one definition per member
    function; [RaftWire] is the object representation of messages.  [RaftLog] and [RaftNode] show that every run of a
    node implements an abstract log in which what is committed stays; [RaftCommit] that the commit index moves exactly
    to what a quorum of every configuration holds; [RaftSend] what is sent to followers; [RaftVotes], [RaftElection] and
    [RaftNetwork] when votes are given and that a term has one leader; [RaftScenarios] shows a run
    in which the code loses a committed entry, and that a leader whose removal is signed goes on leading terms it has not won.

    Ring buffer (src/ds/ring_buffer.h, ring_buffer_types.h).  [RingBuffer] has the reader and the writers as programs over
    shared memory, one access at a time (the memory is sequentially consistent, which is stronger than the orderings the
    atomics of the source ask for); [RingInvariant], [RingSafety], [RingSystem], [RingRuns] and [RingProgress] show for every
    interleaving of accesses that messages arrive once, whole and in order, that no thread touches bytes of another, and
    that buffers at rest can be emptied and written.

    Messaging (src/ds/messaging.h, oversized.h, non_blocking.h, serializer.h, serialized.h).  [Serialized] and [Serializer]
    read and write payloads; [Writers] has the contract of a writer, the queueing and the fragmenting one; [Messaging] the
    dispatcher and the reconstruction of fragments.  [WritersProps], [OversizedProps] and [MessagingProps] show that the
    contract is kept and that messages of any size and any number of writers are dispatched once and in order;
    [MessagingScenarios] where the host's combination of writers breaks it.

    Key-value store (src/kv, include/ccf/tx.h).  [KvMap] is a map with its roll of versions, [KvHandle] the view a
    transaction has of it, [KvSerialise] the format of entries, [KvStore] the store, [KvTx] transactions, [KvStoreSnapshot]
    snapshots.  [KvRoll], [KvHooks], [KvHandleProps] and [KvValidation] are about one map;
    [KvStoreProps], [KvStoreHistory], [KvSystem] and [KvRefinement] about the store with any number of open transactions,
    which implements a history of the contents of all maps; [KvSerialiseProps] and [KvReplica] show that a replica
    that applies the entry of a commit follows.

    Persistent map (src/ds/champ_map.h, map_serializers.h).  [ChampMap], [ChampVector], [ChampMapProps], [ChampRefinement]:
    the hash trie behind a state is a finite map for every hash function.  [KvSnapshotProps]: its snapshots.

    Ledger (src/host/ledger.h, src/consensus/ledger_enclave.h).  [LedgerFile] is a model of directories and inodes and the
    files on it, [Ledger] the chunks, requests and jobs, [LedgerEnclave] the messages.  [LedgerNames],
    [LedgerFileProps], [LedgerInvariant], [LedgerUpdates], [LedgerWrites], [LedgerCommits] and
    [LedgerSystem] show that the files implement a log, a refused entry included; [LedgerRestart] that a new process finds it
    again, torn entries cut off.

    Recovery (src/node/node_state.h, src/enclave/enclave.h).  [NodeRecovery], [NodeRecoveryProps] and [NodeScenarios]: the
    recovery of a node over the ledger of its host, [Ledger] itself with the log of [LedgerSystem] as its specification, up to
    the first entry that cannot be applied; what stops it early; and evaluations of the theorems about ledgers.

    Channels (src/node/channels.h, src/node/node_to_node_channel_manager.h, src/crypto/key_exchange.h, and the GCM header
    of src/crypto/symmetric_key.cpp).  [Channels] is the key exchange between two nodes with its messages byte by byte and
    the authenticated and encrypted messages sent under its keys, [ChannelManager] the table of channels.  [ChannelProps]
    states the laws of the cryptography; [ChannelHandshake] shows that an undisturbed exchange gives both sides the same
    keys and what is received then; [ChannelSafety] that nothing is accepted twice by one counter, whatever arrives; [ChannelAgreement]
    which secret an initiator shares with its peer under an attacker that owns the network; [ChannelScenarios] where the exchange
    gets stuck or forged input is acted on; [ChannelConsensus] carries the messages of [RaftWire] over a channel.

    Ledger secrets (src/node/ledger_secrets.h, ledger_secret.h, encryptor.h, share_manager.h, secret_share.h,
    secret_broadcast.h, src/kv/encryptor.h, and the hooks of src/node/node_state.h on their tables).  [SymmetricKey] is the
    layout of AES-GCM headers and ciphers; [LedgerSecrets] the map of secrets and the encryptor of entries, [ShareManager]
    recovery shares, rekeys and the broadcast of secrets.  [LedgerSecretsProps] shows that the cached search finds the
    right secret, that no IV is used twice, and that nodes read each other's entries, which is what [KvSerialise] asks of an
    encryptor; [ShareManagerProps] that enough members bring back every secret of a service.

    Sets of ranges (include/ccf/ds/contiguous_set.h).  [ContiguousSets], [ContiguousSetProps]: the
    vector of ranges is a finite set, and its iterators and searches are those of its elements in order.

    ** Bounds and fuel

    Retry loops of the ring buffer take fuel and wait for ever without; safety holds for every fuel, and the progress
    theorems give an amount that is enough.  The search loops of the consensus run on the length of the view history or of
    the log, the recursion of the hash trie on its seven levels, those of the ledger on the number of files or bytes.
    Recursive dispatch of messages takes fuel, and [MessagingScenarios] has a message for which no amount is enough.

    ** Not modelled

    Third-party libraries (OpenSSL, QuickJS, nlohmann JSON, libuv, llhttp, the Merkle tree) are only called.  The RPC
    frontends, their JSON schemas and endpoint registries, the JavaScript bindings, HTTP and TLS sessions, command line,
    attestation and the sample applications are glue between these libraries and the components above, without state of
    their own beyond the tables of the store.  The Merkle history and historical queries are built on hashes and receipts
    of libraries outside src/; joining, reconfiguration and retirement of
    node_state.h are driven by certificates and JSON. *)

From stdpp Require Export base list gmap strings sorting.
From Stdlib Require Export ZArith Lia.

Global Open Scope Z_scope.

(** * Machine integers

    Every [uint64_t] of the source ([Index], [Term], [View], [SeqNo],
    [Version], [size_t]) is a [Z] in [0, 2^64); arithmetic that can leave the
    range is wrapped with [u64] where the source performs it.  [int] values
    are [Z] in [-2^31, 2^31) and conversions to [int] use [i32]. *)

Definition u64_modulus : Z := 2 ^ 64.
Definition u64_max : Z := u64_modulus - 1.

Definition u64 (z : Z) : Z := z `mod` u64_modulus.

Definition u32 (z : Z) : Z := z `mod` 2 ^ 32.

Definition i32 (z : Z) : Z := (z + 2 ^ 31) `mod` 2 ^ 32 - 2 ^ 31.

Definition is_u64 (z : Z) : Prop := 0 <= z < u64_modulus.

Lemma u64_small (z : Z) : 0 <= z < u64_modulus -> u64 z = z.
Proof. apply Z.mod_small. Qed.

Lemma u32_small (z : Z) : 0 <= z < 2 ^ 32 -> u32 z = z.
Proof. apply Z.mod_small. Qed.

Lemma u64_range (z : Z) : 0 <= u64 z < u64_modulus.
Proof. apply Z.mod_pos_bound; reflexivity. Qed.

Lemma i32_small (z : Z) : - 2 ^ 31 <= z < 2 ^ 31 -> i32 z = z.
Proof. intros H. unfold i32. rewrite Z.mod_small; lia. Qed.

Lemma u64_modulus_eq : u64_modulus = 18446744073709551616.
Proof. reflexivity. Qed.

Lemma u64_add_l a b : u64 (u64 a + b) = u64 (a + b).
Proof. unfold u64. by rewrite Z.add_mod_idemp_l by (by rewrite u64_modulus_eq). Qed.

Lemma u64_sub_l a b : u64 (u64 a - b) = u64 (a - b).
Proof. unfold u64. by rewrite Zminus_mod_idemp_l. Qed.

Lemma u64_add_r a b : u64 (a + u64 b) = u64 (a + b).
Proof. unfold u64. by rewrite Z.add_mod_idemp_r by (by rewrite u64_modulus_eq). Qed.

(** [u64_lia] decides goals over wrapped integers once the side conditions
    that no wrap happens are available to [lia]. *)
Ltac u64_lia :=
  unfold is_u64, u64_max in *;
  rewrite ?u64_modulus_eq in *;
  repeat match goal with
  | |- context [u64 ?z] => rewrite (u64_small z) by (rewrite ?u64_modulus_eq; lia)
  | H : context [u64 ?z] |- _ =>
      rewrite (u64_small z) in H by (rewrite ?u64_modulus_eq; lia)
  end;
  lia.

(** * Record updates

    [Settable] instances give the eta-expansion of a record; the setter of a
    projection is then found by abstracting that projection in it. *)

Class Settable (T : Type) := eta_record : T -> T.
Class Setter {T E : Type} (p : T -> E) := update_field : (E -> E) -> T -> T.

Ltac build_setter :=
  lazymatch goal with
  | |- @Setter ?T ?E ?p =>
      let inst := constr:(ltac:(typeclasses eauto) : Settable T) in
      let body := eval hnf in inst in
      lazymatch eval pattern p in body with
      | ?g _ => exact (fun f => g (fun r => f (p r)))
      end
  end.

#[export] Hint Extern 0 (Setter _) => build_setter : typeclass_instances.

Definition set {T E : Type} (p : T -> E) `{!Setter p} (v : E) : T -> T :=
  update_field (fun _ => v).

Declare Scope record_scope.
Delimit Scope record_scope with rec.
Global Open Scope record_scope.
Notation "r <| p := v |>" := (set p v r)
  (at level 1, p at level 1, v at level 99, left associativity,
   format "r <| p  :=  v |>") : record_scope.

(** * The state and exception monad

    A C++ member function that may throw is a computation [ST S A]: it maps
    the object's state to the state it leaves behind and to the value it
    returns or the exception that escapes it.  State changes made before a
    [throw] persist, as they do in C++. [StdException] is a plain
    [std::exception]. Three outcomes are not exceptions of the
    source: [Aborted] is a failed [assert], [UndefinedBehaviour] an access the
    language leaves undefined, and [OutOfFuel] marks a loop of the model that
    used up its fuel; theorems show where they cannot happen. *)

Inductive exn : Type :=
| LogicError (what : string)
| OutOfRange
| BadOptionalAccess
| DroppedMessage
| StdException
| CompactedVersionConflict
| Aborted
| UndefinedBehaviour
| OutOfFuel.

(** What a [catch (const std::exception&)] handler catches. *)
Definition catchable (e : exn) : bool :=
  match e with CompactedVersionConflict | Aborted | UndefinedBehaviour | OutOfFuel => false | _ => true end.

Inductive outcome (A : Type) : Type :=
| Ret (a : A)
| Throw (e : exn).
Arguments Ret {A} a.
Arguments Throw {A} e.

Definition ST (S A : Type) : Type := S -> S * outcome A.

(** What code outside the model has returned or thrown. *)
Definition of_outcome {S A} (o : outcome A) : ST S A := fun s => (s, o).

#[export] Instance ST_ret {S} : MRet (ST S) := fun A a s => (s, Ret a).

#[export] Instance ST_bind {S} : MBind (ST S) := fun A B f m s =>
  match m s with
  | (s', Ret a) => f a s'
  | (s', Throw e) => (s', Throw e)
  end.

Definition throw {S A} (e : exn) : ST S A := fun s => (s, Throw e).
Definition get {S} : ST S S := fun s => (s, Ret s).
Definition gets {S A} (f : S -> A) : ST S A := fun s => (s, Ret (f s)).
Definition modify {S} (f : S -> S) : ST S unit := fun s => (f s, Ret tt).
Definition skip {S} : ST S unit := mret tt.

Definition assign {S E} (p : S -> E) `{!Setter p} (v : E) : ST S unit :=
  modify (set p v).

Notation "p <~ v" := (assign p v) (at level 70) : record_scope.

Definition catch {S A} (m : ST S A) (h : exn -> ST S A) : ST S A := fun s =>
  match m s with
  | (s', Ret a) => (s', Ret a)
  | (s', Throw e) => if catchable e then h e s' else (s', Throw e)
  end.

Fixpoint foreach {S A} (l : list A) (f : A -> ST S unit) : ST S unit :=
  match l with
  | [] => skip
  | x :: l => f x;; foreach l f
  end.

(** [zoom] runs a computation on one field of a larger record. *)
Definition zoom {S E A} (p : S -> E) `{!Setter p} (m : ST E A) : ST S A := fun s =>
  match m (p s) with
  | (e', o) => (set p e' s, o)
  end.

(** * Reasoning about computations

    [wp m Q E s]: from state [s], if [m] returns [a] then [Q a] holds of the
    state it leaves, and if it throws [e] then [E e] does. *)

Section wp.
Context {S : Type}.

Definition wp {A} (m : ST S A) (Q : A -> S -> Prop) (E : exn -> S -> Prop) (s : S) : Prop :=
  match m s with
  | (s', Ret a) => Q a s'
  | (s', Throw e) => E e s'
  end.

Lemma wp_ret {A} (a : A) Q E s : Q a s -> wp (mret a) Q E s.
Proof. done. Qed.

Lemma wp_bind {A B} (m : ST S A) (f : A -> ST S B) Q E s :
  wp m (fun a => wp (f a) Q E) E s -> wp (m ≫= f) Q E s.
Proof. unfold wp, mbind, ST_bind. destruct (m s) as [s' [a|e]]; done. Qed.

Lemma wp_mono {A} (m : ST S A) (Q Q' : A -> S -> Prop) (E E' : exn -> S -> Prop) s :
  wp m Q E s ->
  (forall a s', Q a s' -> Q' a s') -> (forall e s', E e s' -> E' e s') ->
  wp m Q' E' s.
Proof. unfold wp. destruct (m s) as [s' [a|e]]; auto. Qed.

Lemma wp_and {A} (m : ST S A) (Q Q' : A -> S -> Prop) (E E' : exn -> S -> Prop) s :
  wp m Q E s -> wp m Q' E' s ->
  wp m (fun a s' => Q a s' /\ Q' a s') (fun e s' => E e s' /\ E' e s') s.
Proof. unfold wp. destruct (m s) as [s' [a|e]]; auto. Qed.

Lemma wp_foreach {A} (l : list A) (f : A -> ST S unit) (I : list A -> S -> Prop) E s :
  (forall x rest s, x ∈ l -> I (x :: rest) s -> wp (f x) (fun _ => I rest) E s) ->
  I l s -> wp (foreach l f) (fun _ => I []) E s.
Proof.
  revert s. induction l as [|x l IH]; intros s Hstep HI; [done|].
  apply wp_bind. eapply wp_mono; [apply Hstep; [left|done]| |done].
  intros ? s' HI'. apply IH; [|done]. intros y rest s'' Hy. apply Hstep. by right.
Qed.

(** ** Computations that respect a preorder on states

    [respects R m]: whatever [m] does, returning or throwing, the state it
    leaves is related by [R] to the one it started from. *)

Context (R : S -> S -> Prop) `{!PreOrder R}.

Definition respects {A} (m : ST S A) : Prop := forall s, R s (fst (m s)).

Lemma respects_ret {A} (a : A) : respects (mret a).
Proof. intros s. cbn. reflexivity. Qed.

Lemma respects_throw {A} e : respects (throw (A:=A) e).
Proof. intros s. cbn. reflexivity. Qed.

Lemma respects_get : respects get.
Proof. intros s. cbn. reflexivity. Qed.

Lemma respects_gets {A} (f : S -> A) : respects (gets f).
Proof. intros s. cbn. reflexivity. Qed.

Lemma respects_modify f : (forall s, R s (f s)) -> respects (modify f).
Proof. intros H s. apply H. Qed.

Lemma respects_bind {A B} (m : ST S A) (f : A -> ST S B) :
  respects m -> (forall a, respects (f a)) -> respects (m ≫= f).
Proof.
  intros Hm Hf s. specialize (Hm s). unfold mbind, ST_bind.
  destruct (m s) as [s' [a|e]]; cbn in *; [|done].
  etransitivity; [exact Hm|apply Hf].
Qed.

(** The state read by [get] is the current one: its properties are available
    to the continuation. *)
Lemma respects_get_bind {B} (f : S -> ST S B) :
  (forall s, R s (fst (f s s))) -> respects (get ≫= f).
Proof. intros H s. apply H. Qed.

Lemma respects_foreach_in {A} (l : list A) (f : A -> ST S unit) :
  (forall x, x ∈ l -> respects (f x)) -> respects (foreach l f).
Proof.
  induction l as [|x l IH]; intros Hf; [apply respects_ret|].
  apply respects_bind; [apply Hf; left|intros _]. apply IH. intros y Hy. apply Hf. by right.
Qed.

Lemma respects_foreach {A} (l : list A) (f : A -> ST S unit) :
  (forall x, respects (f x)) -> respects (foreach l f).
Proof. intros Hf. by apply respects_foreach_in. Qed.

Lemma respects_catch {A} (m : ST S A) h :
  respects m -> (forall e, respects (h e)) -> respects (catch m h).
Proof.
  intros Hm Hh s. specialize (Hm s). unfold catch.
  destruct (m s) as [s' [a|e]]; cbn in *; [done|].
  destruct (catchable e); cbn; [etransitivity; [exact Hm|apply Hh]|done].
Qed.

Lemma respects_wp {A} (m : ST S A) s :
  respects m -> wp m (fun _ s' => R s s') (fun _ s' => R s s') s.
Proof. intros H. specialize (H s). unfold wp. destruct (m s) as [s' [a|e]]; done. Qed.

Lemma wp_respects {A} (m : ST S A) :
  (forall s, wp m (fun _ s' => R s s') (fun _ s' => R s s') s) -> respects m.
Proof. intros H s. specialize (H s). unfold wp in H. destruct (m s) as [s' [a|e]]; done. Qed.
End wp.

(** ** Running a computation step by step *)

Lemma run_bind {S A B} (m : ST S A) (f : A -> ST S B) s s' a : m s = (s', Ret a) -> (m ≫= f) s = f a s'.
Proof. unfold mbind, ST_bind. by intros ->. Qed.

Lemma run_bind_throw {S A B} (m : ST S A) (f : A -> ST S B) s s' e : m s = (s', Throw e) -> (m ≫= f) s = (s', Throw e).
Proof. unfold mbind, ST_bind. by intros ->. Qed.

Lemma run_zoom {S E A} (p : S -> E) `{!Setter p} (m : ST E A) s e o : m (p s) = (e, o) -> zoom p m s = (set p e s, o).
Proof. unfold zoom. by intros ->. Qed.

Lemma run_catch {S A} (m : ST S A) h s s' a : m s = (s', Ret a) -> catch m h s = (s', Ret a).
Proof. unfold catch. by intros ->. Qed.

(** ** Symbolic execution

    [wp_step] executes the next statement of a computation: the primitive
    ones directly, a call by the [respects] specification given for it. *)

Lemma wp_get_bind {S B} (f : S -> ST S B) Q E s : wp (f s) Q E s -> wp (get ≫= f) Q E s.
Proof. done. Qed.

Lemma wp_modify_bind {S B} (g : S -> S) (f : unit -> ST S B) Q E s :
  wp (f tt) Q E (g s) -> wp (modify g ≫= f) Q E s.
Proof. done. Qed.

Lemma wp_modify {S} (g : S -> S) (Q : unit -> S -> Prop) E s : Q tt (g s) -> wp (modify g) Q E s.
Proof. done. Qed.

Lemma wp_throw {S A} e (Q : A -> S -> Prop) E s : E e s -> wp (throw e) Q E s.
Proof. done. Qed.

Lemma wp_throw_bind {S A B} e (f : A -> ST S B) Q E s : E e s -> wp (throw e ≫= f) Q E s.
Proof. done. Qed.

Lemma wp_ret_bind {S A B} (a : A) (f : A -> ST S B) Q E s :
  wp (f a) Q E s -> wp (mret a ≫= f) Q E s.
Proof. done. Qed.

Lemma wp_assoc {S A B C} (m : ST S A) (f : A -> ST S B) (g : B -> ST S C) Q E s :
  wp (m ≫= (fun a => f a ≫= g)) Q E s -> wp ((m ≫= f) ≫= g) Q E s.
Proof. unfold wp, mbind, ST_bind. by destruct (m s) as [s' [a|e]]. Qed.

Lemma wp_call {S A} (R : S -> S -> Prop) (m : ST S A) (Q : A -> S -> Prop) E s :
  respects R m -> (forall a s', R s s' -> Q a s') -> (forall e s', R s s' -> E e s') ->
  wp m Q E s.
Proof. intros Hm HQ HE. specialize (Hm s). unfold wp. destruct (m s) as [s' [a|e]]; auto. Qed.

Lemma wp_call_bind {S A B} (R : S -> S -> Prop) (m : ST S A) (f : A -> ST S B) Q E s :
  respects R m -> (forall a s', R s s' -> wp (f a) Q E s') -> (forall e s', R s s' -> E e s') ->
  wp (m ≫= f) Q E s.
Proof. intros Hm HQ HE. apply wp_bind. by eapply wp_call. Qed.

Lemma wp_fst {S A} (m : ST S A) (P : S -> Prop) s :
  wp m (fun _ => P) (fun _ => P) s <-> P (fst (m s)).
Proof. unfold wp. by destruct (m s) as [s' [a|e]]. Qed.

Ltac wp_step :=
  lazymatch goal with
  | |- wp (mret _ ≫= _) _ _ _ => apply wp_ret_bind
  | |- wp (skip ≫= _) _ _ _ => apply wp_ret_bind
  | |- wp (get ≫= _) _ _ _ => apply wp_get_bind
  | |- wp (modify _ ≫= _) _ _ _ => apply wp_modify_bind
  | |- wp (assign _ _ ≫= _) _ _ _ => apply wp_modify_bind
  | |- wp (throw _ ≫= _) _ _ _ => apply wp_throw_bind
  | |- wp ((_ ≫= _) ≫= _) _ _ _ => apply wp_assoc
  | |- wp ((if ?b then _ else _) ≫= _) _ _ _ => destruct b eqn:?
  | |- wp ((match ?b with _ => _ end) ≫= _) _ _ _ => destruct b eqn:?
  | |- wp (mret _) _ _ _ => apply wp_ret
  | |- wp skip _ _ _ => apply wp_ret
  | |- wp (throw _) _ _ _ => apply wp_throw
  | |- wp (modify _) _ _ _ => apply wp_modify
  | |- wp (assign _ _) _ _ _ => apply wp_modify
  | |- wp (let _ := _ in _) _ _ _ => cbv zeta
  | |- wp (if ?b then _ else _) _ _ _ => destruct b eqn:?
  | |- wp (match ?b with _ => _ end) _ _ _ => destruct b eqn:?
  end; cbv beta.

(** [respects_auto] walks through a computation, applying the specifications
    of its calls from the [respects] database. *)
Create HintDb respects discriminated.

Ltac respects_step :=
  lazymatch goal with
  | |- PreOrder _ => typeclasses eauto
  | |- forall _, respects _ _ => intros ?
  | |- respects _ (mret _) => apply respects_ret
  | |- respects _ skip => apply respects_ret
  | |- respects _ (throw _) => apply respects_throw
  | |- respects _ get => apply respects_get
  | |- respects _ (gets _) => apply respects_gets
  | |- respects _ (_ ≫= _) => apply respects_bind
  | |- respects _ (foreach _ _) => apply respects_foreach
  | |- respects _ (catch _ _) => apply respects_catch
  | |- respects _ (match ?x with _ => _ end) => destruct x
  | |- respects _ (let _ := _ in _) => cbv zeta
  | |- respects _ (modify _) => apply respects_modify
  | |- respects _ (assign _ _) => apply respects_modify
  end.

Ltac respects_leaf := intros; repeat case_match; first [reflexivity | repeat split; reflexivity].

Ltac respects_auto :=
  repeat first [ solve [ eauto with respects ] | respects_step | solve [ respects_leaf ] ].

(** Execute a call, keeping only what the relation [R] says of it. *)
Tactic Notation "wp_call" uconstr(R) "as" simple_intropattern(s) simple_intropattern(H) :=
  lazymatch goal with
  | |- wp (_ ≫= _) _ _ _ =>
      eapply (wp_call_bind R); [solve [respects_auto]|intros ? s H|intros ? s H]
  | |- _ => eapply (wp_call R); [solve [respects_auto]|intros ? s H|intros ? s H]
  end.

(** * Lists *)

(** stdpp's [replicate], whose name the consensus model uses otherwise. *)
Abbreviation list_replicate := replicate.

(** [std::upper_bound] on a sorted range: the number of leading elements that
    do not exceed [x]. *)
Fixpoint upper_bound (l : list Z) (x : Z) : nat :=
  match l with
  | [] => 0%nat
  | y :: l => if x <? y then 0%nat else S (upper_bound l x)
  end.

(** Non-decreasing lists. *)
Definition ascending (l : list Z) : Prop :=
  forall (i j : nat) x y, (i <= j)%nat -> l !! i = Some x -> l !! j = Some y -> x <= y.

Definition all_le (l : list Z) (x : Z) : Prop := forall y, y ∈ l -> y <= x.
Definition all_ge (l : list Z) (x : Z) : Prop := forall y, y ∈ l -> x <= y.

Lemma upper_bound_le_length l x : (upper_bound l x <= length l)%nat.
Proof. induction l as [|y l IH]; cbn; [lia|]. destruct (x <? y); cbn; lia. Qed.

Lemma upper_bound_take l x : all_le (take (upper_bound l x) l) x.
Proof.
  induction l as [|y l IH]; cbn; [by intros ? ?%elem_of_nil|].
  destruct (x <? y) eqn:E; cbn; [by intros ? ?%elem_of_nil|].
  intros z [->|?]%elem_of_cons; [lia|auto].
Qed.

Lemma upper_bound_next l x y : l !! upper_bound l x = Some y -> x < y.
Proof.
  induction l as [|z l IH]; cbn; [done|].
  destruct (x <? z) eqn:E; cbn; [|done]. intros [= ->]. lia.
Qed.

Lemma ascending_nil : ascending [].
Proof. by intros ????? ?. Qed.

Lemma ascending_cons_inv y l : ascending (y :: l) -> ascending l /\ all_ge l y.
Proof.
  intros H. split.
  - intros i j a b ???. by apply (H (S i) (S j)); [lia|..].
  - intros z [i Hi]%list_elem_of_lookup. by apply (H 0%nat (S i)); [lia|..].
Qed.

Lemma ascending_take n l : ascending l -> ascending (take n l).
Proof.
  intros H i j x y Hij [Hx _]%lookup_take_Some [Hy _]%lookup_take_Some. exact (H i j x y Hij Hx Hy).
Qed.

Lemma ascending_app l1 l2 :
  ascending l1 -> ascending l2 -> (forall x y, x ∈ l1 -> y ∈ l2 -> x <= y) ->
  ascending (l1 ++ l2).
Proof.
  intros H1 H2 H12 i j x y Hij Hx Hy.
  apply lookup_app_Some in Hx as [Hx|[? Hx]], Hy as [Hy|[? Hy]].
  - by eapply H1.
  - apply H12; by eapply list_elem_of_lookup_2.
  - apply lookup_lt_Some in Hy. lia.
  - apply (H2 (i - length l1)%nat (j - length l1)%nat); [lia|done..].
Qed.

Lemma ascending_replicate n x : ascending (replicate n x).
Proof. intros i j a b ? [-> _]%lookup_replicate [-> _]%lookup_replicate. lia. Qed.

Lemma ascending_last_all_le l x : ascending l -> last l = Some x -> all_le l x.
Proof.
  intros H Hl y [i Hi]%list_elem_of_lookup. rewrite last_lookup in Hl.
  apply (H i (pred (length l)) y x); [|done..]. apply lookup_lt_Some in Hi. lia.
Qed.

Lemma upper_bound_all l x : all_le l x -> upper_bound l x = length l.
Proof.
  induction l as [|y l IH]; cbn; [done|]. intros H.
  pose proof (H y (list_elem_of_here _ _)). destruct (x <? y) eqn:E; [lia|].
  f_equal. apply IH. intros z ?. apply H. by right.
Qed.

(** On an ascending list, [upper_bound] separates the elements. *)
Lemma upper_bound_lookup l x i y :
  ascending l -> l !! i = Some y -> (i < upper_bound l x)%nat <-> y <= x.
Proof.
  intros Hs Hi. split; intros H.
  - apply (upper_bound_take l x). apply list_elem_of_lookup. exists i.
    by rewrite lookup_take_lt.
  - destruct (decide (i < upper_bound l x)%nat) as [|Hn]; [done|].
    destruct (l !! upper_bound l x) as [z|] eqn:Hz.
    + pose proof (upper_bound_next _ _ _ Hz).
      pose proof (Hs (upper_bound l x) i z y ltac:(lia) Hz Hi). lia.
    + apply lookup_ge_None in Hz. apply lookup_lt_Some in Hi. lia.
Qed.

Lemma upper_bound_unique l x n :
  ascending l -> (n <= length l)%nat ->
  (forall y, l !! pred n = Some y -> (0 < n)%nat -> y <= x) ->
  (forall y, l !! n = Some y -> x < y) ->
  upper_bound l x = n.
Proof.
  intros Hs Hn Hlo Hhi. pose proof (upper_bound_le_length l x).
  destruct (lt_eq_lt_dec (upper_bound l x) n) as [[Hlt| ->]|Hgt]; [|done|].
  - destruct (l !! pred n) as [y|] eqn:Hy; [|apply lookup_ge_None in Hy; lia].
    specialize (Hlo y eq_refl ltac:(lia)).
    apply (upper_bound_lookup l x _ y Hs Hy) in Hlo. lia.
  - destruct (l !! n) as [y|] eqn:Hy; [|apply lookup_ge_None in Hy; lia].
    specialize (Hhi y eq_refl).
    apply (upper_bound_lookup l x _ y Hs Hy) in Hgt. lia.
Qed.

Lemma filter_all {A} (P : A -> Prop) `{!forall x, Decision (P x)} (l : list A) :
  Forall P l -> filter P l = l.
Proof.
  induction 1 as [|x l Hx _ IH]; [done|]. by rewrite filter_cons_True, IH.
Qed.

Lemma filter_none {A} (P : A -> Prop) `{!forall x, Decision (P x)} (l : list A) :
  Forall (fun x => ~ P x) l -> filter P l = [].
Proof.
  induction 1 as [|x l Hx _ IH]; [done|]. by rewrite filter_cons_False.
Qed.

Lemma Forall_filter_in {A} (P Q : A -> Prop) `{!forall x, Decision (P x)} (l : list A) :
  Forall Q l -> Forall (fun x => P x /\ Q x) (filter P l).
Proof.
  rewrite !Forall_forall. intros Hl x [? ?]%list_elem_of_filter. auto.
Qed.

Lemma last_split {A} (l : list A) : l = [] \/ exists l' x, l = l' ++ [x].
Proof. destruct l as [|x l] using rev_ind; [by left|]. right. by exists l, x. Qed.

Lemma list_insert_middle {A} (l1 l2 : list A) x y : <[length l1 := y]> (l1 ++ x :: l2) = l1 ++ y :: l2.
Proof. rewrite insert_app_r_alt by lia. by rewrite Nat.sub_diag. Qed.

Create HintDb lists discriminated.
#[export] Hint Resolve ascending_nil ascending_take ascending_replicate : lists.
