(* ===== verification/Serialized.v ===== *)
(** Reading and writing of byte buffers: src/ds/serialized.h.

    A reader advances the pair [(data, size)]; its state is the list of the
    [size] bytes left.  A writer fills a buffer of fixed size; its state is the
    part already written and the number of bytes left.  Both are
    little-endian, as on the supported targets. *)

From S2P Require Import Prelude.

Abbreviation bytes := (list Z).

Definition is_byte (b : Z) : Prop := 0 <= b < 256.

(** [operator<] on byte vectors and strings. *)
Fixpoint key_ltb (a b : bytes) : bool :=
  match a, b with
  | _, [] => false
  | [], _ :: _ => true
  | x :: a, y :: b => if x <? y then true else if y <? x then false else key_ltb a b
  end.

(** [fmt::format] of an unsigned integer. *)
Definition digit (n : Z) : Ascii.ascii := Ascii.ascii_of_nat (48 + Z.to_nat n).

Fixpoint format_digits (fuel : nat) (n : Z) (acc : string) : string :=
  match fuel with
  | O => acc
  | S fuel =>
      let acc := String.String (digit (n `mod` 10)) acc in
      if n <? 10 then acc else format_digits fuel (n `div` 10) acc
  end.

Definition format_idx (n : Z) : string := format_digits 20 n EmptyString.

(** The object representation of an unsigned integer of [n] bytes. *)
Fixpoint le_encode (n : nat) (v : Z) : bytes :=
  match n with
  | O => []
  | S n => v `mod` 256 :: le_encode n (v `div` 256)
  end.

Fixpoint le_decode (data : bytes) : Z :=
  match data with
  | [] => 0
  | b :: data => b + 256 * le_decode data
  end.

Lemma le_encode_length n v : length (le_encode n v) = n.
Proof. revert v. induction n as [|n IH]; intros v; cbn; [done|]. by rewrite IH. Qed.

Lemma le_decode_encode n v : 0 <= v < 256 ^ Z.of_nat n -> le_decode (le_encode n v) = v.
Proof.
  revert v. induction n as [|n IH]; intros v Hv; cbn [le_encode le_decode].
  - change (256 ^ Z.of_nat 0) with 1 in Hv. lia.
  - rewrite Nat2Z.inj_succ, Z.pow_succ_r in Hv by lia.
    rewrite IH; [pose proof (Z.div_mod v 256); lia|].
    split; [apply Z.div_pos; lia|apply Z.div_lt_upper_bound; lia].
Qed.

Lemma le_decode_range data :
  Forall is_byte data -> 0 <= le_decode data < 256 ^ Z.of_nat (length data).
Proof.
  unfold is_byte. induction 1 as [|b data Hb _ IH]; [cbn; lia|].
  cbn [le_decode length]. rewrite Nat2Z.inj_succ, Z.pow_succ_r by lia. lia.
Qed.

Lemma le_encode_decode data :
  Forall is_byte data -> le_encode (length data) (le_decode data) = data.
Proof.
  unfold is_byte. induction 1 as [|b data Hb Hd IH]; cbn [le_decode length le_encode]; [done|].
  rewrite (Z.mul_comm 256), Z.mod_add, Z.div_add, Z.mod_small, Z.div_small by lia.
  by rewrite Z.add_0_l, IH.
Qed.

Lemma le_encode_bytes n v : Forall is_byte (le_encode n v).
Proof.
  revert v. induction n as [|n IH]; intros v; cbn; constructor; [|done].
  apply Z.mod_pos_bound. lia.
Qed.

(** ** Readers *)

Definition Reader : Type -> Type := ST bytes.

Definition insufficient_space : exn := LogicError "Insufficient space".

(** Take the next [n] bytes: the check, copy and advance the readers share. *)
Definition take_bytes (n : nat) : Reader bytes :=
  data ← get;
  if (length data <? n)%nat then throw insufficient_space
  else modify (drop n);; mret (take n data).

(** [peek<T>], for an unsigned integer of [n] bytes. *)
Definition peek (n : nat) : Reader Z :=
  data ← get;
  if (length data <? n)%nat then throw insufficient_space else mret (le_decode (take n data)).

(** [read<T>]. *)
Definition read (n : nat) : Reader Z := v ← take_bytes n; mret (le_decode v).

(** [read(data, size, block_size)]. *)
Definition read_block (block_size : Z) : Reader bytes :=
  data ← get;
  if Z.of_nat (length data) <? block_size then throw insufficient_space
  else take_bytes (Z.to_nat block_size).

(** [read<std::string>] copies [len] bytes without a check: reading past the
    end of the buffer is undefined. *)
Definition read_string : Reader bytes :=
  len ← read 8;
  data ← get;
  if Z.of_nat (length data) <? len then throw UndefinedBehaviour
  else take_bytes (Z.to_nat len).

Definition read_lpsv : Reader bytes :=
  len ← read 2;
  data ← get;
  if Z.of_nat (length data) <? len then throw insufficient_space
  else take_bytes (Z.to_nat len).

Definition skip_bytes (n : Z) : Reader unit :=
  data ← get;
  if Z.of_nat (length data) <? n then throw insufficient_space else modify (drop (Z.to_nat n)).

(** ** Writers *)

Record Buffer := MkBuffer { written : bytes; remaining : Z }.
#[export] Instance eta_Buffer : Settable Buffer := fun r => MkBuffer (written r) (remaining r).

Definition Writer : Type -> Type := ST Buffer.

Definition write_block (block : bytes) : Writer unit :=
  b ← get;
  if remaining b <? Z.of_nat (length block) then throw insufficient_space
  else modify (fun b => MkBuffer (written b ++ block) (remaining b - Z.of_nat (length block))).

(** [write<T>]. *)
Definition write (n : nat) (v : Z) : Writer unit := write_block (le_encode n v).

Definition write_string (v : bytes) : Writer unit :=
  b ← get;
  if remaining b <? 8 + Z.of_nat (length v) then throw insufficient_space
  else write 8 (Z.of_nat (length v));; write_block v.

(** [write<uint16_t>] truncates the length. *)
Definition write_lps (v : bytes) : Writer unit :=
  write 2 (Z.of_nat (length v) `mod` 2 ^ 16);; write_block v.

(** ** Round trips *)

(** [writes w r v]: if [w] succeeds, it appends some bytes, from which [r] reads
    [v] back, whatever follows them. *)
Definition round_trip {A} (w : Writer unit) (r : Reader A) (v : A) : Prop :=
  forall b, match w b with
  | (b', Ret _) => exists out,
      written b' = written b ++ out /\ remaining b' = remaining b - Z.of_nat (length out) /\
      forall rest, r (out ++ rest) = (rest, Ret v)
  | (b', Throw e) => e = insufficient_space
  end.

Lemma take_bytes_app out rest : take_bytes (length out) (out ++ rest) = (rest, Ret out).
Proof.
  unfold take_bytes, mbind, ST_bind, get, modify. rewrite length_app.
  destruct (Nat.ltb_spec (length out + length rest) (length out)); [lia|].
  by rewrite drop_app_length, take_app_length.
Qed.

Lemma read_app n v rest :
  0 <= v < 256 ^ Z.of_nat n -> read n (le_encode n v ++ rest) = (rest, Ret v).
Proof.
  intros Hv. unfold read. rewrite <- (le_encode_length n v) at 1.
  unfold mbind, ST_bind. rewrite take_bytes_app. by rewrite le_decode_encode.
Qed.

Lemma write_block_spec block b :
  write_block block b =
  if remaining b <? Z.of_nat (length block) then (b, Throw insufficient_space)
  else (MkBuffer (written b ++ block) (remaining b - Z.of_nat (length block)), Ret tt).
Proof. unfold write_block, mbind, ST_bind, get. by destruct (_ <? _). Qed.

Lemma write_read n v : 0 <= v < 256 ^ Z.of_nat n -> round_trip (write n v) (read n) v.
Proof.
  intros Hv b. unfold write. rewrite write_block_spec.
  destruct (_ <? _); [done|]. exists (le_encode n v).
  split; [done|]. split; [done|]. intros rest. by apply read_app.
Qed.

Lemma read_block_app n block rest : Z.of_nat (length block) = n -> read_block n (block ++ rest) = (rest, Ret block).
Proof.
  intros <-. unfold read_block, mbind, ST_bind, get. rewrite length_app.
  destruct (Z.ltb_spec (Z.of_nat (length block + length rest)) (Z.of_nat (length block))); [lia|].
  rewrite Nat2Z.id. apply take_bytes_app.
Qed.

Lemma write_read_block block :
  round_trip (write_block block) (read_block (Z.of_nat (length block))) block.
Proof.
  intros b. rewrite write_block_spec. destruct (_ <? _); [done|].
  exists block. split; [done|]. split; [done|]. intros rest. by apply read_block_app.
Qed.

(** Round trips compose: the second value is read after the first. *)
Lemma round_trip_bind {A B} (w1 w2 : Writer unit) (r1 : Reader A) (r2 : A -> Reader B) v1 v2 :
  round_trip w1 r1 v1 -> round_trip w2 (r2 v1) v2 ->
  round_trip (w1;; w2) (x ← r1; r2 x) v2.
Proof.
  intros H1 H2 b. specialize (H1 b). unfold mbind, ST_bind.
  destruct (w1 b) as [b1 [[]|e]]; [|done]. destruct H1 as (o1 & E1 & L1 & R1).
  specialize (H2 b1). destruct (w2 b1) as [b2 [[]|e]]; [|done].
  destruct H2 as (o2 & E2 & L2 & R2). exists (o1 ++ o2).
  rewrite E2, E1, L2, L1, length_app, app_assoc. split; [done|]. split; [lia|].
  intros rest. by rewrite <- app_assoc, R1, R2.
Qed.

Lemma round_trip_guard {A} (g : Buffer -> bool) (w : Writer unit) (r : Reader A) v :
  round_trip w r v ->
  round_trip (b ← get; if g b then throw insufficient_space else w) r v.
Proof. intros H b. unfold mbind, ST_bind, get. destruct (g b); [done|apply H]. Qed.

Lemma round_trip_ext {A} (w : Writer unit) (r r' : Reader A) v :
  (forall data, r data = r' data) -> round_trip w r v -> round_trip w r' v.
Proof.
  intros Hr H b. specialize (H b). destruct (w b) as [b' [[]|e]]; [|done].
  destruct H as (out & E & L & R). exists out. split; [done|]. split; [done|].
  intros rest. by rewrite <- Hr.
Qed.

(** A length-prefixed block. *)
Lemma write_read_prefixed n e block :
  Z.of_nat (length block) < 256 ^ Z.of_nat n ->
  round_trip (write n (Z.of_nat (length block));; write_block block)
    (len ← read n;
     data ← get;
     if Z.of_nat (length data) <? len then throw e else take_bytes (Z.to_nat len)) block.
Proof.
  intros Hlen. eapply round_trip_bind; [apply write_read; lia|].
  intros b. rewrite write_block_spec. destruct (_ <? _); [done|].
  exists block. split; [done|]. split; [done|]. intros rest.
  unfold mbind, ST_bind, get. rewrite length_app.
  destruct (Z.ltb_spec (Z.of_nat (length block + length rest)) (Z.of_nat (length block))); [lia|].
  rewrite Nat2Z.id. apply take_bytes_app.
Qed.

(** Every writer is undone by the reader of the same name: unless the
    buffer is too small, in which case the writer throws, the reader applied to
    the bytes written, followed by anything, returns the value that was written
    and leaves what follows.  [write_lps] stores the length in 16 bits, so it is
    only undone for strings shorter than 65536 bytes. *)
Theorem serialized_round_trip (n : nat) (v : Z) (block : bytes) :
  0 <= v < 256 ^ Z.of_nat n -> Z.of_nat (length block) < 2 ^ 64 ->
  round_trip (write n v) (read n) v /\
  round_trip (write_block block) (read_block (Z.of_nat (length block))) block /\
  round_trip (write_string block) read_string block /\
  (Z.of_nat (length block) < 2 ^ 16 -> round_trip (write_lps block) read_lpsv block).
Proof.
  intros Hv Hlen. split; [by apply write_read|]. split; [apply write_read_block|]. split.
  - apply (round_trip_guard (fun b => remaining b <? 8 + Z.of_nat (length block))).
    by apply (write_read_prefixed 8).
  - intros Hlps. unfold write_lps. rewrite Z.mod_small by lia. by apply (write_read_prefixed 2).
Qed.

Lemma serialized_round_trip_witness :
  0 <= 70000 < 256 ^ Z.of_nat 4 /\
  round_trip (write_string [104; 105]) read_string [104; 105].
Proof.
  split; [done|].
  refine (proj1 (proj2 (proj2 (serialized_round_trip 4 70000 [104; 105] _ _)))); done.
Defined.
