(* ===== verification/Views.v ===== *)
(** The view history of a node: [aft::ViewHistory] of
    src/consensus/aft/impl/state.h.

    [views] is the vector of the source: entry [i] holds the first version of
    view [i + 1].  The operations that mutate it are computations of
    [ST (list Z)]; the queries are functions of the vector.  The theorems
    characterise [view_at] by the boundaries the vector records, give the exact
    effect of [update] and [rollback] on it, and relate [start_of_view],
    [end_of_view], [get_history_until] and [initialise] to it. *)

From S2P Require Import Prelude.

(** [ccf::VIEW_UNKNOWN] and [kv::NoVersion]. *)
Definition VIEW_UNKNOWN : Z := 0.
Definition NoVersion : Z := 0.

Module ViewHistory.

Definition InvalidView : Z := VIEW_UNKNOWN.

Definition update (idx view : Z) : ST (list Z) unit :=
  views ← get;
  match last views with
  | Some current_latest_index =>
      if idx <? current_latest_index
      then throw (LogicError "version must not move backwards")
      else skip
  | None => skip
  end;;
  modify (fun views => views ++ replicate (Z.to_nat (view - Z.of_nat (length views))) idx).

Definition initialise (terms_ : list Z) : ST (list Z) unit :=
  modify (fun _ => []);;
  foreach (imap pair terms_) (fun '(i, term) => update term (Z.of_nat i + 1)).

Definition view_at (views : list Z) (idx : Z) : Z :=
  let it := upper_bound views idx in
  if (it =? 0)%nat then InvalidView else Z.of_nat it.

Definition start_of_view (views : list Z) (view : Z) : Z :=
  if (Z.of_nat (length views) <? view) || (view =? InvalidView) then NoVersion
  else
    let tentative := default 0 (views !! Z.to_nat (view - 1)) in
    if (view + 1 <=? Z.of_nat (length views))
       && (default 0 (views !! Z.to_nat view) =? tentative)
    then NoVersion
    else tentative.

Definition end_of_view (views : list Z) (view : Z) : Z :=
  if start_of_view views view =? NoVersion then NoVersion
  else if (Z.of_nat (length views) <=? view) || (view =? InvalidView) then NoVersion
  else default 0 (views !! Z.to_nat view) - 1.

Definition get_history_until (views : list Z) (idx : Z) : list Z :=
  take (upper_bound views idx) views.

Definition rollback (idx : Z) : ST (list Z) unit :=
  modify (fun views => take (upper_bound views idx) views).

(** ** The value of [view_at] *)

Lemma view_at_eq views idx : view_at views idx = Z.of_nat (upper_bound views idx).
Proof. unfold view_at, InvalidView, VIEW_UNKNOWN. case_match eqn:E; [|done]. by apply Nat.eqb_eq in E as ->. Qed.

Lemma view_at_bounds views idx : 0 <= view_at views idx <= Z.of_nat (length views).
Proof. rewrite view_at_eq. pose proof (upper_bound_le_length views idx). lia. Qed.

Lemma view_at_unique views idx v :
  ascending views -> 0 <= v <= Z.of_nat (length views) ->
  (forall y, 0 < v -> views !! Z.to_nat (v - 1) = Some y -> y <= idx) ->
  (forall y, views !! Z.to_nat v = Some y -> idx < y) ->
  view_at views idx = v.
Proof.
  intros Hs Hv Hlo Hhi. rewrite view_at_eq.
  rewrite (upper_bound_unique views idx (Z.to_nat v)); [lia|done|lia| |done].
  intros y Hy ?. apply (Hlo y); [lia|]. rewrite <- Hy. f_equal. lia.
Qed.

Lemma view_at_lower views idx y :
  0 < view_at views idx -> views !! Z.to_nat (view_at views idx - 1) = Some y -> y <= idx.
Proof.
  rewrite view_at_eq. intros Hpos Hy. apply (upper_bound_take views idx).
  apply list_elem_of_lookup. eexists. rewrite lookup_take_lt; [exact Hy|lia].
Qed.

Lemma view_at_upper views idx y :
  views !! Z.to_nat (view_at views idx) = Some y -> idx < y.
Proof. rewrite view_at_eq, Nat2Z.id. apply upper_bound_next. Qed.

Lemma view_at_all views idx : all_le views idx -> view_at views idx = Z.of_nat (length views).
Proof. intros H. by rewrite view_at_eq, upper_bound_all. Qed.

Lemma view_at_take views idx j :
  ascending views ->
  view_at (take (upper_bound views idx) views) j = view_at views (Z.min j idx).
Proof.
  intros Hs. apply view_at_unique; [by apply ascending_take| | |].
  - pose proof (view_at_bounds views (Z.min j idx)). rewrite length_take.
    split; [lia|]. rewrite view_at_eq.
    pose proof (upper_bound_le_length views idx).
    enough (upper_bound views (Z.min j idx) <= upper_bound views idx)%nat by lia.
    destruct (views !! pred (upper_bound views (Z.min j idx))) as [y|] eqn:Hy.
    + destruct (upper_bound views (Z.min j idx)) as [|n] eqn:E; [lia|].
      apply (proj2 (upper_bound_lookup views idx n y Hs Hy)).
      enough (y <= Z.min j idx) by lia.
      apply (upper_bound_lookup views _ n y Hs Hy). lia.
    + apply lookup_ge_None in Hy.
      pose proof (upper_bound_le_length views (Z.min j idx)). lia.
  - intros y Hpos [Hy _]%lookup_take_Some.
    pose proof (view_at_lower _ _ _ Hpos Hy). lia.
  - intros y [Hy Hlt]%lookup_take_Some.
    pose proof (view_at_upper _ _ _ Hy).
    apply (upper_bound_lookup views idx _ y Hs Hy) in Hlt. lia.
Qed.

(** ** The effect of [update], [rollback] and [initialise] *)

Lemma update_eq views idx view :
  update idx view views =
    if from_option (fun b => idx <? b) false (last views)
    then (views, Throw (LogicError "version must not move backwards"))
    else (views ++ replicate (Z.to_nat (view - Z.of_nat (length views))) idx, Ret tt).
Proof.
  unfold update, mbind, ST_bind, get. destruct (last views) as [b|]; cbn; [|done].
  by destruct (idx <? b).
Qed.

Lemma update_ok views idx view :
  all_le views idx ->
  update idx view views =
    (views ++ replicate (Z.to_nat (view - Z.of_nat (length views))) idx, Ret tt).
Proof.
  intros H. rewrite update_eq. destruct (last views) as [b|] eqn:Hb; cbn; [|done].
  destruct (idx <? b) eqn:E; [|done].
  apply last_Some in Hb as [l' ->]. specialize (H b ltac:(set_solver)). lia.
Qed.

Lemma update_ret_all_le views idx view views' :
  ascending views -> update idx view views = (views', Ret tt) -> all_le views idx.
Proof.
  intros Hs. rewrite update_eq. destruct (last views) as [b|] eqn:Hb; cbn.
  - destruct (idx <? b) eqn:E; [done|]. intros _ y Hy.
    pose proof (ascending_last_all_le _ _ Hs Hb y Hy). lia.
  - apply last_None in Hb as ->. intros _ y ?%elem_of_nil. done.
Qed.

Lemma ascending_update views idx n :
  ascending views -> all_le views idx -> ascending (views ++ replicate n idx).
Proof.
  intros Hs Hle. apply ascending_app; [done|apply ascending_replicate|].
  intros x y Hx [-> _]%elem_of_replicate. by apply Hle.
Qed.

Lemma all_le_app l1 l2 x : all_le (l1 ++ l2) x <-> all_le l1 x /\ all_le l2 x.
Proof.
  split; [intros H; split; intros y Hy; apply H, elem_of_app; auto|].
  intros [H1 H2] y [Hy|Hy]%elem_of_app; auto.
Qed.

Lemma all_le_mono l x y : x <= y -> all_le l x -> all_le l y.
Proof. intros Hxy H z Hz. specialize (H z Hz). lia. Qed.

Lemma all_le_replicate n x y : x <= y -> all_le (replicate n x) y.
Proof. intros H z [-> _]%elem_of_replicate. done. Qed.

Lemma view_at_snoc views idx n j :
  ascending views -> all_le views idx ->
  view_at (views ++ replicate n idx) j =
    if j <? idx then view_at views j else Z.of_nat (length views + n).
Proof.
  intros Hs Hle. destruct (j <? idx) eqn:Hj.
  - apply view_at_unique; [by apply ascending_update| | |].
    + pose proof (view_at_bounds views j). rewrite length_app. lia.
    + intros y Hpos Hy. pose proof (view_at_bounds views j).
      rewrite lookup_app_l in Hy by lia. by eapply view_at_lower.
    + intros y [Hy|[_ [-> _]%lookup_replicate]]%lookup_app_Some; [|lia].
      by eapply view_at_upper.
  - rewrite view_at_all; [by rewrite length_app, length_replicate|].
    apply all_le_app. split; [eapply all_le_mono; [|done]; lia|].
    apply all_le_replicate. lia.
Qed.

Lemma foreach_update_prefix p l :
  ascending (p ++ l) ->
  foreach (imap (fun i t => ((length p + i)%nat, t)) l)
    (fun '(i, term) => update term (Z.of_nat i + 1)) p = (p ++ l, Ret tt).
Proof.
  revert p. induction l as [|x l IH]; intros p Hs; [by rewrite app_nil_r|].
  cbn [imap foreach]. unfold mbind, ST_bind.
  rewrite update_ok; last first.
  { intros y [i Hi]%list_elem_of_lookup. apply (Hs i (length p) y x).
    - apply lookup_lt_Some in Hi. lia.
    - by apply lookup_app_l_Some.
    - by rewrite list_lookup_middle. }
  replace (Z.to_nat _) with 1%nat by lia. cbn [replicate].
  specialize (IH (p ++ [x])). rewrite <- app_assoc in IH. cbn in IH.
  rewrite <- IH by done. f_equal. apply imap_ext. intros i y _. cbn.
  rewrite length_app. cbn. f_equal. lia.
Qed.

Lemma initialise_ok terms_ views :
  ascending terms_ -> initialise terms_ views = (terms_, Ret tt).
Proof. intros Hs. apply (foreach_update_prefix [] terms_ Hs). Qed.
End ViewHistory.

Import ViewHistory.

(** [view_at] is the view whose recorded range contains the index: for a
    sorted history with positive versions, a view [v] has
    [start_of_view v <> NoVersion] exactly when it is non-empty, and the
    indices of [v] are those from [start_of_view v] up to [end_of_view v]
    (unbounded when the view is the latest one). *)
Theorem view_extent views v j :
  ascending views -> all_ge views 1 -> 1 <= v <= Z.of_nat (length views) ->
  view_at views j = v <->
    start_of_view views v <> NoVersion /\ start_of_view views v <= j /\
    (end_of_view views v = NoVersion \/ j <= end_of_view views v).
Proof.
  intros Hs Hge Hv.
  destruct (lookup_lt_is_Some_2 views (Z.to_nat (v - 1))) as [x Hx]; [lia|].
  pose proof (Hge x (list_elem_of_lookup_2 _ _ _ Hx)) as Hx1.
  assert (Hst : start_of_view views v =
    match views !! Z.to_nat v with Some y => if y =? x then NoVersion else x | None => x end).
  { unfold start_of_view, InvalidView, VIEW_UNKNOWN. rewrite Hx. cbn.
    destruct (Z.ltb_spec (Z.of_nat (length views)) v), (Z.eqb_spec v 0); try lia. cbn.
    destruct (views !! Z.to_nat v) as [y|] eqn:Hy; cbn.
    - apply lookup_lt_Some in Hy. destruct (Z.leb_spec (v + 1) (Z.of_nat (length views))); [done|lia].
    - apply lookup_ge_None in Hy. destruct (Z.leb_spec (v + 1) (Z.of_nat (length views))); [lia|done]. }
  assert (Hat : view_at views j = v <->
    x <= j /\ match views !! Z.to_nat v with Some y => j < y | None => True end).
  { split.
    - intros <-. split; [apply (view_at_lower views j x); [lia|exact Hx]|].
      destruct (views !! Z.to_nat (view_at views j)) eqn:E; [by eapply view_at_upper|done].
    - intros [H1 H2]. apply view_at_unique; [done|lia| |].
      + intros y _ Hy. rewrite Hx in Hy. by simplify_eq.
      + intros y Hy. by rewrite Hy in H2. }
  rewrite Hat. unfold end_of_view. rewrite Hst. unfold NoVersion, InvalidView, VIEW_UNKNOWN in *.
  destruct (views !! Z.to_nat v) as [y|] eqn:Hy.
  - pose proof (Hs (Z.to_nat (v - 1)) (Z.to_nat v) x y ltac:(lia) Hx Hy).
    apply lookup_lt_Some in Hy. cbn [default from_option].
    destruct (Z.eqb_spec y x), (Z.leb_spec (Z.of_nat (length views)) v), (Z.eqb_spec v 0),
      (Z.eqb_spec x 0); cbn; try lia.
  - apply lookup_ge_None in Hy.
    destruct (Z.leb_spec (Z.of_nat (length views)) v), (Z.eqb_spec x 0); cbn; lia.
Qed.

Lemma view_extent_witness :
  ascending [1; 5; 5] /\
  (view_at [1; 5; 5] 3 = 1 <->
     start_of_view [1; 5; 5] 1 <> NoVersion /\ start_of_view [1; 5; 5] 1 <= 3 /\
     (end_of_view [1; 5; 5] 1 = NoVersion \/ 3 <= end_of_view [1; 5; 5] 1)).
Proof.
  assert (Hs : ascending [1; 5; 5]).
  { intros [|[|[|i]]] [|[|[|j]]] x y; cbn; intros; simplify_eq; lia. }
  split; [exact Hs|]. apply (view_extent [1; 5; 5] 1 3); [exact Hs| |cbn; lia].
  intros y Hy. repeat (apply elem_of_cons in Hy as [->|Hy]; [lia|]). by apply elem_of_nil in Hy.
Defined.

(** [update idx view] on a sorted history either throws, leaving the
    history alone, because a recorded view starts after [idx], or keeps the
    history sorted, leaves the view of every earlier index unchanged and gives
    [idx] and everything after it the larger of [view] and the latest view
    known. *)
Theorem update_effect views idx view :
  ascending views ->
  match update idx view views with
  | (views', Ret _) =>
      all_le views idx /\ ascending views' /\
      forall j, view_at views' j =
        if j <? idx then view_at views j else Z.max (Z.of_nat (length views)) view
  | (views', Throw _) => views' = views /\ exists y, y ∈ views /\ idx < y
  end.
Proof.
  intros Hs. destruct (update idx view views) as [views' [[]|e]] eqn:E.
  - pose proof (update_ret_all_le _ _ _ _ Hs E) as Hle.
    rewrite update_ok in E by done. injection E as <-.
    split; [done|]. split; [by apply ascending_update|].
    intros j. rewrite view_at_snoc by done. destruct (j <? idx); [done|lia].
  - rewrite update_eq in E. destruct (last views) as [b|] eqn:Hb; cbn in E; [|done].
    destruct (idx <? b) eqn:Hlt; [|done]. injection E as <- _. split; [done|].
    exists b. split; [|lia]. apply last_Some in Hb as [l' ->]. set_solver.
Qed.

Lemma update_effect_witness :
  ascending [1; 3] /\ view_at (fst (update 6 4 [1; 3])) 6 = 4.
Proof.
  assert (Hs : ascending [1; 3]).
  { intros [|[|i]] [|[|j]] x y; cbn; intros; simplify_eq; lia. }
  split; [exact Hs|].
  pose proof (update_effect [1; 3] 6 4 Hs) as H. cbn in H.
  destruct H as (_ & _ & H). exact (H 6).
Defined.

(** Rolling back to [idx] freezes the history at [idx]: every later index
    takes the view of [idx] and every earlier one keeps its own, the history
    stays sorted, and re-initialising any history from the part exported by
    [get_history_until idx] gives exactly the rolled back history. *)
Theorem rollback_effect views idx other :
  ascending views ->
  ascending (fst (rollback idx views)) /\
  (forall j, view_at (fst (rollback idx views)) j = view_at views (Z.min j idx)) /\
  initialise (get_history_until views idx) other = rollback idx views.
Proof.
  intros Hs. split; [by apply ascending_take|]. split.
  - intros j. by apply view_at_take.
  - apply initialise_ok. by apply ascending_take.
Qed.

Lemma rollback_effect_witness :
  ascending [1; 4; 9] /\ view_at (fst (rollback 6 [1; 4; 9])) 20 = 2.
Proof.
  assert (Hs : ascending [1; 4; 9]).
  { intros [|[|[|i]]] [|[|[|j]]] x y; cbn; intros; simplify_eq; lia. }
  split; [exact Hs|]. rewrite (proj1 (proj2 (rollback_effect [1; 4; 9] 6 [] Hs)) 20).
  reflexivity.
Defined.
