(* ===== verification/RaftTypes.v ===== *)
(** Data of the consensus layer: the enumerations and structures of
    src/kv/kv_types.h and src/consensus/aft/raft_types.h, the calls a node
    makes to the components around it, and the interface ([AftEnv]) through
    which their answers reach it. *)

From S2P Require Import Prelude Serialized Views.

Abbreviation NodeId := string.

Inductive ConsensusType := CFT | BFT.
Inductive ReconfigurationType := ONE_TRANSACTION | TWO_TRANSACTION.
Inductive LeadershipState := Leader | Follower | Candidate.
Inductive MembershipState := Learner | Active | RetirementInitiated | Retired.
Inductive RetirementPhase := Committed | Ordered | Signed | Completed.

#[export] Instance ConsensusType_eq_dec : EqDecision ConsensusType.
Proof. solve_decision. Defined.
#[export] Instance ReconfigurationType_eq_dec : EqDecision ReconfigurationType.
Proof. solve_decision. Defined.
#[export] Instance LeadershipState_eq_dec : EqDecision LeadershipState.
Proof. solve_decision. Defined.
#[export] Instance MembershipState_eq_dec : EqDecision MembershipState.
Proof. solve_decision. Defined.
#[export] Instance RetirementPhase_eq_dec : EqDecision RetirementPhase.
Proof. solve_decision. Defined.

(** The enumerators' values, which the source compares. *)
Definition RetirementPhase_value (p : RetirementPhase) : Z :=
  match p with Committed => 0 | Ordered => 1 | Signed => 2 | Completed => 3 end.

(** [opt > v] and [opt >= v] on [std::optional]: an empty optional is below
    every value. *)
Definition phase_gt (o : option RetirementPhase) (p : RetirementPhase) : bool :=
  from_option (fun q => RetirementPhase_value p <? RetirementPhase_value q) false o.
Definition phase_ge (o : option RetirementPhase) (p : RetirementPhase) : bool :=
  from_option (fun q => RetirementPhase_value p <=? RetirementPhase_value q) false o.

(** [kv::TxID] and [ccf::TxID]. *)
Record TxID := MkTxID { tx_term : Z; tx_version : Z }.

Record NodeInfo := MkNodeInfo { hostname : string; port : string }.
#[export] Instance NodeInfo_eq_dec : EqDecision NodeInfo.
Proof. solve_decision. Defined.

(** [kv::Configuration]; [Configuration::Nodes] is a [std::map]. *)
Abbreviation Nodes := (gmap NodeId NodeInfo).
Record Configuration := MkConfiguration {
  conf_idx : Z;
  conf_nodes : Nodes;
  bft_offset : Z;
  rid : Z
}.

(** [Aft::NodeState]. *)
Record NodeState := MkNodeState {
  node_info : NodeInfo;
  sent_idx : Z;
  match_idx : Z;
  last_ack_timeout : Z
}.
#[export] Instance eta_NodeState : Settable NodeState := fun r =>
  MkNodeState (node_info r) (sent_idx r) (match_idx r) (last_ack_timeout r).

Inductive AppendEntriesResponseType := OK | FAIL | REQUIRE_EVIDENCE.
#[export] Instance AppendEntriesResponseType_eq_dec : EqDecision AppendEntriesResponseType.
Proof. solve_decision. Defined.

Record AppendEntries := MkAppendEntries {
  ae_idx : Z;
  ae_prev_idx : Z;
  ae_term : Z;
  ae_prev_term : Z;
  ae_leader_commit_idx : Z;
  ae_term_of_idx : Z;
  ae_contains_new_view : bool
}.

Record AppendEntriesResponse := MkAppendEntriesResponse {
  aer_term : Z;
  aer_last_log_idx : Z;
  aer_success : AppendEntriesResponseType
}.

Record RequestVote := MkRequestVote {
  rv_term : Z;
  rv_last_committable_idx : Z;
  rv_term_of_last_committable_idx : Z
}.

Record RequestVoteResponse := MkRequestVoteResponse {
  rvr_term : Z;
  rvr_vote_granted : bool
}.

(** The messages a node sends and handles, tagged by their [RaftMsgType]. *)
Inductive RaftMsg :=
| MsgAppendEntries (r : AppendEntries)
| MsgAppendEntriesResponse (r : AppendEntriesResponse)
| MsgRequestVote (r : RequestVote)
| MsgRequestVoteResponse (r : RequestVoteResponse).

(** [kv::ApplyResult]. *)
Inductive ApplyResult :=
| PASS | PASS_SIGNATURE | PASS_BACKUP_SIGNATURE | PASS_BACKUP_SIGNATURE_SEND_ACK
| PASS_NONCES | PASS_NEW_VIEW | PASS_SNAPSHOT_EVIDENCE
| PASS_ENCRYPTED_PAST_LEDGER_SECRET | PASS_APPLY | APPLY_FAIL.
#[export] Instance ApplyResult_eq_dec : EqDecision ApplyResult.
Proof. solve_decision. Defined.

Record ResharingResult := MkResharingResult {
  rr_seqno : Z;
  rr_reconfiguration_id : Z
}.

(** What a [kv::ConsensusHook] does to the consensus object: the mutating
    calls of [kv::ConfigurableConsensus] that its [call] makes. A
    configuration hook computes the new set of nodes from the latest one. *)
Inductive Hook :=
| HookConfiguration (version : Z) (cfg_delta : list (NodeId * option NodeInfo))
    (learners retired_nodes : gset NodeId)
| HookResharings (version : Z) (results : list (Z * ResharingResult)).

(** One element of [kv::BatchVector]. *)
Record BatchEntry := MkBatchEntry {
  be_index : Z;
  be_data : bytes;
  be_globally_committable : bool;
  be_hooks : list Hook
}.

(** What a [kv::AbstractExecutionWrapper] reports after [apply]. *)
Record Executed := MkExecuted {
  ex_result : ApplyResult;
  ex_hooks : list Hook;
  ex_entry : bytes;
  ex_term : Z;
  ex_index : Z
}.

(** Calls a node makes to its store, ledger, channels, resharing tracker,
    random engine and task queue, in order. *)
Inductive Effect :=
| StoreCompact (v : Z)
| StoreRollback (tx_id : TxID) (term_of_next_version : Z)
| StoreInitialiseTerm (t : Z)
| LedgerPutEntry (data : bytes) (globally_committable : bool) (term index : Z)
| LedgerTruncate (idx : Z)
| LedgerCommit (idx : Z)
| LedgerInit (idx recovery_start_idx : Z)
| StoreApplied (index : Z)
| SendAuthenticated (to : NodeId) (msg : RaftMsg)
| AssociateNodeAddress (id : NodeId) (host port : string)
| TrackerAddNetworkConfiguration (c : Configuration)
| TrackerReshare (c : Configuration)
| TrackerAddResharingResult (seqno rid : Z) (r : ResharingResult)
| TrackerCompact (idx : Z)
| RandomDraw (ms : Z)
| CleanupRetiredNodes
| ScheduleSubmitOrc (rid delay : Z).

(** The components around a node. Their answers may depend on everything the
    node has called so far (the trace), so nothing is assumed of them beyond
    what a theorem names. *)
Class AftEnv := {
  (** whether assertions are compiled in (no [NDEBUG]) *)
  env_asserts : bool;
  (** [NodeToNode::send_authenticated], [NodeToNode::have_channel] *)
  env_send : list Effect -> NodeId -> RaftMsg -> bool;
  env_have_channel : list Effect -> NodeId -> bool;
  (** [NodeToNode::recv_authenticated], for each message type: the message and
      the rest of the data, or a [DroppedMessageException] *)
  env_recv_append_entries : list Effect -> NodeId -> bytes -> option (AppendEntries * bytes);
  env_recv_append_entries_response :
    list Effect -> NodeId -> bytes -> option (AppendEntriesResponse * bytes);
  env_recv_request_vote : list Effect -> NodeId -> bytes -> option (RequestVote * bytes);
  env_recv_request_vote_response :
    list Effect -> NodeId -> bytes -> option (RequestVoteResponse * bytes);
  (** [LedgerProxy::get_entry] and [skip_entry]: [None] when they throw *)
  env_get_entry : bytes -> option (bytes * bytes);
  env_skip_entry : bytes -> option bytes;
  (** [Store::apply], and the [apply] of the wrapper it returns *)
  env_store_apply : list Effect -> bytes -> bool -> TxID -> option (list Effect -> Executed);
  (** [ResharingTracker] queries *)
  env_find_reconfiguration : list Effect -> Nodes -> option Z;
  env_have_resharing_result_for : list Effect -> Z -> Z -> bool;
  (** [distrib(rand)] *)
  env_random : list Effect -> Z;
  (** what reading [configurations.back().nodes] gives when the list is empty *)
  env_empty_back_nodes : Nodes;
}.

(** [starting_view_change], [Aft::append_entries_size_limit],
    [Aft::batch_window_size]. *)
Definition starting_view_change : Z := 2.
Definition append_entries_size_limit : Z := 20000.
Definition batch_window_size : Z := 100.
