(* ===== verification/Raft.v ===== *)
(** The consensus node: [aft::Aft] of src/consensus/aft/raft.h with the
    [aft::State] it shares (src/consensus/aft/impl/state.h).

    The object's fields are the record [Aft]; each member function is a
    computation [M A] on it, in the order of the source. Locks are omitted:
    every public function holds the node's lock for its whole body, so its
    computation is one atomic step. Log lines are omitted. Calls to the store,
    ledger, channels, resharing tracker and task queue are appended to [trace];
    their answers come from [AftEnv]. An iteration over a
    [std::map] or [std::unordered_map] goes through [map_to_list]. *)

From S2P Require Import Prelude Serialized Views RaftTypes.

(** [aft::State]. *)
Record State := MkState {
  my_node_id : NodeId;
  current_view : Z;
  last_idx : Z;
  commit_idx : Z;
  cft_watermark_idx : Z;
  view_history : list Z;
  new_view_idx : Z;
  requested_evidence_from : option NodeId;
  initial_recovery_primary : option (NodeId * Z)
}.
#[export] Instance eta_State : Settable State := fun r =>
  MkState (my_node_id r) (current_view r) (last_idx r) (commit_idx r)
    (cft_watermark_idx r) (view_history r) (new_view_idx r)
    (requested_evidence_from r) (initial_recovery_primary r).

(** The members of [aft::Aft]. [has_resharing_tracker] and [has_node_client]
    say whether the corresponding pointers are set; [trace] is what the node
    has called so far. *)
Record Aft := MkAft {
  consensus_type : ConsensusType;
  voted_for : option NodeId;
  leader_id : option NodeId;
  votes_for_me : gset NodeId;
  leadership_state : option LeadershipState;
  membership_state : MembershipState;
  retirement_phase : option RetirementPhase;
  timeout_elapsed : Z;
  election_index : Z;
  is_new_follower : bool;
  should_sign : bool;
  state : State;
  request_timeout : Z;
  election_timeout : Z;
  ticking : bool;
  configurations : list Configuration;
  nodes : gmap NodeId NodeState;
  learner_nodes : gmap NodeId Z;
  retired_nodes : gmap NodeId Z;
  reconfiguration_type : ReconfigurationType;
  require_identity_for_reconfig : bool;
  has_resharing_tracker : bool;
  orc_sets : gmap Z (gset NodeId);
  has_node_client : bool;
  retirement_idx : option Z;
  retirement_committable_idx : option Z;
  entry_size_not_limited : Z;
  entry_count : Z;
  entries_batch_size : Z;
  batch_window_sum : Z;
  committable_indices : list Z;
  public_only : bool;
  trace : list Effect
}.
#[export] Instance eta_Aft : Settable Aft := fun r =>
  MkAft (consensus_type r) (voted_for r) (leader_id r) (votes_for_me r)
    (leadership_state r) (membership_state r) (retirement_phase r)
    (timeout_elapsed r) (election_index r) (is_new_follower r) (should_sign r)
    (state r) (request_timeout r) (election_timeout r) (ticking r)
    (configurations r) (nodes r) (learner_nodes r) (retired_nodes r)
    (reconfiguration_type r) (require_identity_for_reconfig r)
    (has_resharing_tracker r) (orc_sets r) (has_node_client r) (retirement_idx r)
    (retirement_committable_idx r) (entry_size_not_limited r) (entry_count r)
    (entries_batch_size r) (batch_window_sum r) (committable_indices r)
    (public_only r) (trace r).

Abbreviation M := (ST Aft).

(** Assignment to a field of the shared [aft::State]. *)
Definition set_state {E} (p : State -> E) `{!Setter p} (v : E) (s : Aft) : Aft :=
  s <| state := (state s) <| p := v |> |>.
Definition assign_state {E} (p : State -> E) `{!Setter p} (v : E) : M unit :=
  modify (set_state p v).
Notation "'state->' p <~ v" := (assign_state p v) (at level 70, p at level 1) : record_scope.

Definition emit (e : Effect) : M unit :=
  modify (fun s => s <| trace := trace s ++ [e] |>).

(** Run an operation of the view history. *)
Definition on_view_history {A} (m : ST (list Z) A) : M A := fun s =>
  match m (view_history (state s)) with
  | (h, o) => (set_state view_history h s, o)
  end.

(** ** Queries *)

Definition is_leadership (l : LeadershipState) (s : Aft) : bool :=
  bool_decide (leadership_state s = Some l).
Definition is_primary (s : Aft) : bool := is_leadership Leader s.
Definition is_backup (s : Aft) : bool := is_leadership Follower s.
Definition is_learner (s : Aft) : bool := bool_decide (membership_state s = Learner).
Definition is_retired (s : Aft) : bool := bool_decide (membership_state s = Retired).
Definition is_retiring (s : Aft) : bool :=
  bool_decide (membership_state s = RetirementInitiated).

Definition last_committable_index (s : Aft) : Z :=
  match last (committable_indices s) with
  | None => commit_idx (state s)
  | Some i => i
  end.

Definition get_term_internal (s : Aft) (idx : Z) : Z :=
  if last_idx (state s) <? idx then VIEW_UNKNOWN
  else ViewHistory.view_at (view_history (state s)) idx.

Definition can_replicate_unsafe (s : Aft) : bool :=
  is_leadership Leader s && bool_decide (retirement_committable_idx s = None).

Definition get_commit_idx_unsafe (s : Aft) : Z :=
  match consensus_type s with CFT => commit_idx (state s) | BFT => 0 end.

Definition can_endorse_primary (s : Aft) : bool :=
  negb (is_retired s) && negb (is_learner s).

Definition get_quorum (s : Aft) (n : Z) : Z :=
  match consensus_type s with
  | CFT => n / 2 + 1
  | BFT => u64 (2 * n) / 3 + 1
  end.

Definition get_latest_configuration_unsafe (s : Aft) : Nodes :=
  from_option conf_nodes ∅ (last (configurations s)).

Definition is_self_in_latest_config (s : Aft) : bool :=
  match last (configurations s) with
  | None => false
  | Some c => bool_decide (is_Some (conf_nodes c !! my_node_id (state s)))
  end.

Definition get_commit_watermark_idx (s : Aft) : Z := cft_watermark_idx (state s).

Definition has {A} (m : gmap NodeId A) (id : NodeId) : bool := bool_decide (is_Some (m !! id)).

Definition map_size {A} (m : gmap NodeId A) : Z := Z.of_nat (size m).

Definition num_trusted (s : Aft) (c : Configuration) : Z :=
  Z.of_nat (length (filter (fun '(id, _) =>
    (has (nodes s) id && negb (has (learner_nodes s) id))
    || (bool_decide (id = my_node_id (state s)) && negb (is_learner s)))
    (map_to_list (conf_nodes c)))).

Definition num_retired (s : Aft) (from to : Configuration) : Z :=
  Z.of_nat (length (filter (fun '(id, _) =>
    negb (has (conf_nodes to) id) &&
    match retired_nodes s !! id with
    | Some i => i <=? commit_idx (state s)
    | None => false
    end) (map_to_list (conf_nodes from)))).

Definition num_required_retirements (from to : Configuration) : Z :=
  Z.of_nat (length (filter (fun '(id, _) => negb (has (conf_nodes to) id))
    (map_to_list (conf_nodes from)))).

(** The loop of [find_highest_possible_match]: each turn moves from the start
    of a view to the view before it, so one turn per recorded view is enough. *)
Fixpoint find_match_loop (fuel : nat) (views : list Z) (view probe_index : Z) : option Z :=
  let term_of_probe := ViewHistory.view_at views probe_index in
  if view <? term_of_probe then
    match fuel with
    | O => None
    | S fuel =>
        let probe_index := ViewHistory.start_of_view views term_of_probe in
        let probe_index := if 0 <? probe_index then probe_index - 1 else probe_index in
        find_match_loop fuel views view probe_index
    end
  else Some probe_index.

Definition find_highest_possible_match (tx_id : TxID) : M Z :=
  s ← get;
  let views := view_history (state s) in
  match find_match_loop (S (length views)) views (tx_term tx_id)
          (Z.min (tx_version tx_id) (last_idx (state s))) with
  | Some probe_index => mret probe_index
  | None => throw OutOfFuel
  end.

Section aft.
Context {env : AftEnv}.

(** [assert] aborts and [CCF_ASSERT] throws; both are compiled out by
    [NDEBUG]. *)
Definition assert (b : bool) : M unit :=
  if env_asserts && negb b then throw Aborted else skip.
Definition ccf_assert (b : bool) : M unit :=
  if env_asserts && negb b then throw (LogicError "assertion failed") else skip.

(** [channels->send_authenticated]. *)
Definition send_authenticated (to : NodeId) (msg : RaftMsg) : M bool :=
  s ← get;
  emit (SendAuthenticated to msg);;
  mret (env_send (trace s) to msg).

(** ** Timeouts and batches *)

Definition restart_election_timeout : M unit :=
  s ← get;
  let ms := env_random (trace s) in
  emit (RandomDraw ms);;
  timeout_elapsed <~ ms.

Definition start_ticking : M unit :=
  ticking <~ true;;
  timeout_elapsed <~ 0.

Definition start_ticking_if_necessary : M unit :=
  s ← get;
  if negb (ticking s) && is_self_in_latest_config s then start_ticking else skip.

Definition clear_orc_sets : M unit :=
  modify (fun s => s <| orc_sets := (fun _ => ∅) <$> orc_sets s |>).

Definition reset_last_ack_timeouts : M unit :=
  modify (fun s => s <| nodes := (fun n => n <| last_ack_timeout := 0 |>) <$> nodes s |>).

(** [batch_size - batch_avg] is computed on [size_t] and added to the [int]
    [batch_window_sum] through [size_t]. *)
Definition update_batch_size : M unit :=
  s ← get;
  let avg_entry_size :=
    if entry_count s =? 0 then append_entries_size_limit
    else entry_size_not_limited s / entry_count s in
  let batch_size :=
    if avg_entry_size =? 0 then append_entries_size_limit / 2
    else append_entries_size_limit / avg_entry_size in
  let batch_avg := batch_window_sum s ÷ batch_window_size in
  batch_window_sum <~ i32 (u64 (u64 (batch_window_sum s) + u64 (batch_size - u64 batch_avg)));;
  s ← get;
  entries_batch_size <~ Z.max (batch_window_sum s ÷ batch_window_size) 1.

(** ** Sending append entries *)

Definition send_append_entries_range (to : NodeId) (start_idx end_idx : Z) : M unit :=
  s ← get;
  let prev_idx := u64 (start_idx - 1) in
  if is_retired s && phase_gt (retirement_phase s) Signed && (end_idx <=? start_idx) then skip
  else
    let ae := {|
      ae_idx := end_idx;
      ae_prev_idx := prev_idx;
      ae_term := current_view (state s);
      ae_prev_term := get_term_internal s prev_idx;
      ae_leader_commit_idx := commit_idx (state s);
      ae_term_of_idx := get_term_internal s end_idx;
      ae_contains_new_view :=
        (prev_idx <? new_view_idx (state s)) && (new_view_idx (state s) <=? end_idx)
    |} in
    match nodes s !! to with
    | None => throw OutOfRange
    | Some _ =>
        ok ← send_authenticated to (MsgAppendEntries ae);
        if (ok : bool) then
          modify (fun s => s <| nodes := alter (fun n => n <| sent_idx := end_idx |>) to (nodes s) |>)
        else skip
    end.

Definition calculate_end_index (s : Aft) (start : Z) : Z :=
  let views := view_history (state s) in
  let term_of_ae := ViewHistory.view_at views start in
  let index_at_end_of_term := ViewHistory.end_of_view views term_of_ae in
  let max_idx :=
    if index_at_end_of_term =? NoVersion then last_idx (state s) else index_at_end_of_term in
  Z.min (u64 (start + entries_batch_size s)) max_idx.

Fixpoint send_append_entries_loop (fuel : nat) (to : NodeId) (start_idx : Z) : M unit :=
  match fuel with
  | O => throw OutOfFuel
  | S fuel =>
      s ← get;
      let end_idx := calculate_end_index s start_idx in
      send_append_entries_range to start_idx end_idx;;
      s ← get;
      let start_idx := Z.min (u64 (end_idx + 1)) (last_idx (state s)) in
      if end_idx =? last_idx (state s) then skip
      else send_append_entries_loop fuel to start_idx
  end.

(** One turn per index from [start_idx] to [last_idx] is enough: every turn but
    the last moves the start forward. *)
Definition send_append_entries (to : NodeId) (start_idx : Z) : M unit :=
  s ← get;
  send_append_entries_loop (S (Z.to_nat (last_idx (state s) - start_idx))) to start_idx.

Definition send_append_entries_to_all : M unit :=
  s ← get;
  foreach (map_to_list (nodes s)) (fun '(id, n) =>
    send_append_entries id (u64 (sent_idx n + 1))).

Definition send_append_entries_response (to : NodeId) (answer : AppendEntriesResponseType)
    (rejected : option TxID) : M unit :=
  (if bool_decide (answer = REQUIRE_EVIDENCE)
   then state->requested_evidence_from <~ Some to else skip);;
  s ← get;
  r ← match consensus_type s, answer, rejected with
      | CFT, FAIL, Some tx =>
          response_idx ← find_highest_possible_match tx;
          mret (get_term_internal s response_idx, response_idx)
      | _, _, _ => mret (current_view (state s), last_idx (state s))
      end;
  send_authenticated to (MsgAppendEntriesResponse {|
    aer_term := r.1; aer_last_log_idx := r.2; aer_success := answer |});;
  skip.

(** ** Membership *)

Definition become_retiring : M unit :=
  membership_state <~ RetirementInitiated.

Definition become_retired (idx : Z) (phase : RetirementPhase) : M unit :=
  s ← get;
  match phase with
  | Committed =>
      assert (is_retiring s);;
      assert (bool_decide (retirement_phase s = None))
  | Ordered =>
      ccf_assert (bool_decide (retirement_idx s = None));;
      retirement_idx <~ Some idx
  | Signed =>
      assert (bool_decide (is_Some (retirement_idx s)));;
      ccf_assert (from_option (fun r => r <=? idx) false (retirement_idx s));;
      retirement_committable_idx <~ Some idx
  | Completed =>
      leader_id <~ None;;
      leadership_state <~ None
  end;;
  membership_state <~ Retired;;
  retirement_phase <~ Some phase.

(** Nodes present in any active configuration; the first configuration that
    names a node gives its address. *)
Definition active_nodes (s : Aft) : Nodes :=
  foldl (fun acc c => acc ∪ conf_nodes c) ∅ (configurations s).

Definition create_and_remove_node_state : M unit :=
  s ← get;
  let active := active_nodes s in
  modify (fun s => s <| nodes := filter (fun '(id, _) => has active id) (nodes s) |>);;
  foreach (map_to_list active) (fun '(id, info) =>
    s ← get;
    if bool_decide (id = my_node_id (state s)) then skip
    else if has (nodes s) id then skip
    else
      (if env_have_channel (trace s) id then skip
       else emit (AssociateNodeAddress id (hostname info) (port info)));;
      let index := u64 (last_idx (state s) + 1) in
      modify (fun s => s <| nodes := <[id := MkNodeState info index 0 0]> (nodes s) |>);;
      s ← get;
      if is_leadership Leader s then send_append_entries id index else skip).

Definition add_learners (idx : Z) (ids : gset NodeId) : M unit :=
  foreach (elements ids) (fun id =>
    modify (fun s =>
      if has (learner_nodes s) id then s
      else s <| learner_nodes := <[id := idx]> (learner_nodes s) |>)).

Definition add_retired_nodes (idx : Z) (ids : gset NodeId) : M unit :=
  foreach (elements ids) (fun id =>
    modify (fun s =>
      if has (retired_nodes s) id then s
      else s <| retired_nodes := <[id := idx]> (retired_nodes s) |>)).

Definition promote_learners (conf : Nodes) (new_learner_nodes : gset NodeId) : M unit :=
  foreach (map_to_list conf) (fun '(nid, _) =>
    s ← get;
    (if has (nodes s) nid && has (learner_nodes s) nid
        && negb (bool_decide (nid ∈ new_learner_nodes))
     then modify (fun s => s <| learner_nodes := delete nid (learner_nodes s) |>)
     else skip);;
    (if is_learner s && bool_decide (nid = my_node_id (state s))
     then leadership_state <~ Some Follower;; membership_state <~ Active
     else skip)).

Definition add_configuration (idx : Z) (conf : Nodes)
    (new_learner_nodes new_retired_nodes : gset NodeId) : M unit :=
  s ← get;
  let me := my_node_id (state s) in
  let in_latest := from_option (fun c => has (conf_nodes c) me) false (last (configurations s)) in
  let have_configurations := negb (bool_decide (configurations s = [])) in
  match reconfiguration_type s with
  | ONE_TRANSACTION =>
      assert (bool_decide (new_learner_nodes = ∅));;
      (if have_configurations && in_latest && negb (has conf me)
       then become_retired idx Ordered else skip)
  | TWO_TRANSACTION =>
      (if have_configurations && negb in_latest && negb (has conf me)
          && (is_retiring s
              || (is_retired s && bool_decide (retirement_phase s = Some Committed)))
       then become_retired idx Ordered else skip);;
      add_learners idx new_learner_nodes;;
      add_retired_nodes idx new_retired_nodes;;
      (if have_configurations then promote_learners conf new_learner_nodes else skip);;
      modify (fun s =>
        match orc_sets s !! idx with
        | Some _ => s
        | None => s <| orc_sets := <[idx := ∅]> (orc_sets s) |>
        end)
  end;;
  s ← get;
  if bool_decide (conf = from_option conf_nodes env_empty_back_nodes (last (configurations s)))
  then skip
  else
    let new_config := MkConfiguration idx conf 0 idx in
    configurations <~ configurations s ++ [new_config];;
    (if bool_decide (reconfiguration_type s = TWO_TRANSACTION) && has_resharing_tracker s then
       emit (TrackerAddNetworkConfiguration new_config);;
       s ← get;
       if is_primary s then emit (TrackerReshare new_config) else skip
     else skip);;
    create_and_remove_node_state.

Definition add_resharing_result (seqno rid : Z) (result : ResharingResult) : M unit :=
  s ← get;
  if bool_decide (reconfiguration_type s = TWO_TRANSACTION) && require_identity_for_reconfig s then
    assert (has_resharing_tracker s);;
    emit (TrackerAddResharingResult seqno rid result)
  else skip.

(** [hook->call(this)]. *)
Definition call_hook (h : Hook) : M unit :=
  match h with
  | HookConfiguration version cfg_delta learners retired =>
      s ← get;
      let configuration :=
        foldl (fun (conf : Nodes) '(node_id, opt_ni) =>
          match opt_ni with
          | Some ni => if has conf node_id then conf else <[node_id := ni]> conf
          | None => delete node_id conf
          end) (get_latest_configuration_unsafe s) cfg_delta in
      match cfg_delta with
      | [] => skip
      | _ => add_configuration version configuration learners retired
      end
  | HookResharings version results =>
      foreach results (fun '(rid, res) => add_resharing_result version rid res)
  end.

(** ** Rollback and commit *)

Fixpoint pop_back_above (l : list Z) (idx : Z) : list Z :=
  match l with
  | [] => []
  | x :: l' =>
      match pop_back_above l' idx with
      | [] => if idx <? x then [] else [x]
      | l'' => x :: l''
      end
  end.

Fixpoint pop_configurations_above (l : list Configuration) (idx : Z) : list Configuration :=
  match l with
  | [] => []
  | c :: l' =>
      match pop_configurations_above l' idx with
      | [] => if idx <? conf_idx c then [] else [c]
      | l'' => c :: l''
      end
  end.

Definition rollback_retirement (idx : Z) : M unit :=
  s ← get;
  (if is_retired s && bool_decide (retirement_phase s = Some Signed) then
     assert (bool_decide (is_Some (retirement_committable_idx s)));;
     match retirement_committable_idx s with
     | None => throw BadOptionalAccess
     | Some r =>
         if idx <? r then
           retirement_committable_idx <~ None;;
           retirement_phase <~ Some Ordered
         else skip
     end
   else skip);;
  s ← get;
  if is_retired s && bool_decide (retirement_phase s = Some Ordered) then
    assert (bool_decide (is_Some (retirement_idx s)));;
    match retirement_idx s with
    | None => throw BadOptionalAccess
    | Some r =>
        if idx <? r then
          retirement_idx <~ None;;
          retirement_phase <~ None;;
          membership_state <~
            match reconfiguration_type s with
            | ONE_TRANSACTION => Active
            | TWO_TRANSACTION => RetirementInitiated
            end
        else skip
    end
  else skip.

Definition rollback_configurations (idx : Z) : M unit :=
  s ← get;
  let confs := pop_configurations_above (configurations s) idx in
  let changed := negb (length confs =? length (configurations s))%nat in
  configurations <~ confs;;
  match reconfiguration_type s with
  | TWO_TRANSACTION =>
      modify (fun s => s <| learner_nodes := filter (fun '(_, i) => i <= idx) (learner_nodes s) |>);;
      modify (fun s => s <| retired_nodes := filter (fun '(_, i) => i <= idx) (retired_nodes s) |>)
  | ONE_TRANSACTION => skip
  end;;
  if (changed : bool) then create_and_remove_node_state else skip.

Definition rollback (idx : Z) : M unit :=
  s ← get;
  if bool_decide (consensus_type s = CFT) && (idx <? commit_idx (state s)) then skip
  else
    emit (StoreRollback (MkTxID (get_term_internal s idx) idx) (current_view (state s)));;
    emit (LedgerTruncate idx);;
    state->last_idx <~ idx;;
    on_view_history (ViewHistory.rollback idx);;
    modify (fun s => s <| committable_indices := pop_back_above (committable_indices s) idx |>);;
    rollback_retirement idx;;
    rollback_configurations idx.

(** The configurations of [commit]: each turn drops the first configuration or
    stops, so one turn per configuration is enough. Returns [changed]. *)
Fixpoint commit_configurations (fuel : nat) (idx : Z) (changed : bool) : M bool :=
  match fuel with
  | O => throw OutOfFuel
  | S fuel =>
      s ← get;
      match configurations s with
      | conf :: ((next :: _) as rest) =>
          if idx <? conf_idx next then mret changed
          else
            assert (negb (require_identity_for_reconfig s) || has_resharing_tracker s);;
            if require_identity_for_reconfig s
               && negb (from_option (fun rr => env_have_resharing_result_for (trace s) rr idx)
                          false (env_find_reconfiguration (trace s) (conf_nodes next)))
            then mret changed
            else
              let me := my_node_id (state s) in
              match reconfiguration_type s with
              | ONE_TRANSACTION =>
                  configurations <~ rest;;
                  (if is_primary s then emit CleanupRetiredNodes else skip);;
                  commit_configurations fuel idx true
              | TWO_TRANSACTION =>
                  (if negb (is_retired s) && has (conf_nodes conf) me
                      && negb (has (conf_nodes next) me)
                   then if negb (is_retiring s) then become_retiring
                        else become_retired idx Committed
                   else skip);;
                  s ← get;
                  if (num_trusted s next =? map_size (conf_nodes next))
                     && (num_retired s conf next =? num_required_retirements conf next)
                  then
                    (if is_learner s && has (conf_nodes next) me
                     then leadership_state <~ Some Follower;; membership_state <~ Active
                     else skip);;
                    modify (fun s => s <| learner_nodes :=
                      filter (fun '(id, _) => negb (has (conf_nodes next) id)) (learner_nodes s) |>);;
                    modify (fun s => s <| retired_nodes :=
                      filter (fun '(id, _) =>
                        negb (has (conf_nodes conf) id && negb (has (conf_nodes next) id)))
                        (retired_nodes s) |>);;
                    s ← get;
                    (if is_primary s then emit CleanupRetiredNodes else skip);;
                    configurations <~ rest;;
                    commit_configurations fuel idx changed
                  else
                    (if has_node_client s && negb (is_learner s)
                        && (has (conf_nodes next) me
                            || (is_retiring s && negb (has (conf_nodes next) me)))
                     then emit (ScheduleSubmitOrc (rid next) (2 * request_timeout s))
                     else skip);;
                    mret changed
              end
      | _ => mret changed
      end
  end.

Definition commit (idx : Z) : M unit :=
  s ← get;
  if last_idx (state s) <? idx
  then throw (LogicError "Tried to commit past last_idx")
  else if idx <=? commit_idx (state s) then skip
  else
    state->commit_idx <~ idx;;
    (if is_retired s && bool_decide (retirement_phase s = Some Signed)
        && from_option (fun r => r <=? idx) false (retirement_committable_idx s)
     then become_retired idx Completed else skip);;
    emit (StoreCompact idx);;
    emit (LedgerCommit idx);;
    changed ← commit_configurations (S (length (configurations s))) idx false;
    s ← get;
    (if has_resharing_tracker s then emit (TrackerCompact idx) else skip);;
    if (changed : bool) then create_and_remove_node_state else skip.

(** The loop that pops every committable index up to [idx]: the highest one
    popped, if any, and the indices that remain. *)
Fixpoint pop_committable (l : list Z) (idx : Z) : option Z * list Z :=
  match l with
  | [] => (None, [])
  | x :: l' =>
      if x <=? idx then
        match pop_committable l' idx with
        | (None, r) => (Some x, r)
        | (Some h, r) => (Some h, r)
        end
      else (None, l)
  end.

Definition commit_if_possible (idx : Z) : M unit :=
  s ← get;
  if (commit_idx (state s) <? idx) && (get_term_internal s idx <=? current_view (state s)) then
    let '(highest, rest) := pop_committable (committable_indices s) idx in
    committable_indices <~ rest;;
    match highest, consensus_type s with
    | Some highest_committable, CFT => commit highest_committable
    | _, _ => skip
    end
  else skip.

(** The match indices of a configuration's nodes, or [None] when [nodes.at]
    throws. *)
Definition match_indices (s : Aft) (c : Configuration) : option (list Z) :=
  mapM (fun '(id, _) =>
    if bool_decide (id = my_node_id (state s)) then Some (last_idx (state s))
    else match_idx <$> nodes s !! id) (map_to_list (conf_nodes c)).

(** [match.at((match.size() - 1) / 2)] of the sorted match indices. *)
Definition confirmed_index (l : list Z) : option Z :=
  merge_sort Z.le l !! Z.to_nat (u64 (Z.of_nat (length l) - 1) / 2).

Fixpoint commit_watermark (s : Aft) (cs : list Configuration) (acc : Z) : option Z :=
  match cs with
  | [] => Some acc
  | c :: cs =>
      l ← match_indices s c;
      confirmed ← confirmed_index l;
      commit_watermark s cs (if confirmed <? acc then confirmed else acc)
  end.

Definition update_commit : M unit :=
  s ← get;
  match commit_watermark s (configurations s) u64_max with
  | None => throw OutOfRange
  | Some new_commit_cft_idx =>
      (if new_commit_cft_idx =? u64_max then skip
       else state->cft_watermark_idx <~ new_commit_cft_idx);;
      s ← get;
      if last_idx (state s) <? get_commit_watermark_idx s
      then throw (LogicError "Followers appear to have later match indices than leader")
      else commit_if_possible (get_commit_watermark_idx s)
  end.

(** ** Leadership *)

Definition become_follower : M unit :=
  leader_id <~ None;;
  restart_election_timeout;;
  clear_orc_sets;;
  reset_last_ack_timeouts;;
  s ← get;
  rollback (last_committable_index s);;
  s ← get;
  if can_endorse_primary s && negb (is_retiring s)
  then leadership_state <~ Some Follower else skip.

Definition become_aware_of_new_term (term : Z) : M unit :=
  state->current_view <~ term;;
  voted_for <~ None;;
  votes_for_me <~ ∅;;
  become_follower;;
  is_new_follower <~ true.

Definition become_leader : M unit :=
  s ← get;
  if is_retired s then skip
  else
    let election_idx := last_committable_index s in
    election_index <~ election_idx;;
    committable_indices <~ [];;
    (if 0 <? commit_idx (state s) then rollback election_idx
     else emit (StoreInitialiseTerm (current_view (state s))));;
    leadership_state <~ Some Leader;;
    leader_id <~ Some (my_node_id (state s));;
    should_sign <~ true;;
    timeout_elapsed <~ 0;;
    reset_last_ack_timeouts;;
    s ← get;
    if map_size (nodes s) =? 0 then commit (last_idx (state s))
    else
      let next := u64 (last_idx (state s) + 1) in
      foreach (map_to_list (nodes s)) (fun '(id, _) =>
        modify (fun s => s <| nodes :=
          alter (fun n => n <| match_idx := 0 |> <| sent_idx := u64 (next - 1) |>) id (nodes s) |>);;
        send_append_entries id next).

Definition add_vote_for_me (from : NodeId) : M unit :=
  s ← get;
  match reconfiguration_type s with
  | TWO_TRANSACTION =>
      match configurations s with
      | [] => throw UndefinedBehaviour
      | cfg :: _ =>
          if negb (has (conf_nodes cfg) from) then skip
          else
            votes_for_me <~ {[from]} ∪ votes_for_me s;;
            s ← get;
            if get_quorum s (map_size (conf_nodes cfg)) <=? Z.of_nat (size (votes_for_me s))
            then become_leader else skip
      end
  | ONE_TRANSACTION =>
      votes_for_me <~ {[from]} ∪ votes_for_me s;;
      s ← get;
      if get_quorum s (u64 (map_size (nodes s) + 1)) <=? Z.of_nat (size (votes_for_me s))
      then become_leader else skip
  end.

Definition send_request_vote (to : NodeId) : M unit :=
  s ← get;
  let last_committable_idx := last_committable_index s in
  ccf_assert (commit_idx (state s) <=? last_committable_idx);;
  send_authenticated to (MsgRequestVote {|
    rv_term := current_view (state s);
    rv_last_committable_idx := last_committable_idx;
    rv_term_of_last_committable_idx := get_term_internal s last_committable_idx |});;
  skip.

Definition become_candidate : M unit :=
  s ← get;
  leadership_state <~ Some Candidate;;
  leader_id <~ None;;
  clear_orc_sets;;
  voted_for <~ Some (my_node_id (state s));;
  votes_for_me <~ ∅;;
  state->current_view <~ u64 (current_view (state s) + 1);;
  restart_election_timeout;;
  reset_last_ack_timeouts;;
  add_vote_for_me (my_node_id (state s));;
  s ← get;
  match consensus_type s with
  | BFT => skip
  | CFT => foreach (map_to_list (nodes s)) (fun '(id, _) => send_request_vote id)
  end.

Definition send_request_vote_response (to : NodeId) (answer : bool) : M unit :=
  s ← get;
  send_authenticated to (MsgRequestVoteResponse {|
    rvr_term := current_view (state s); rvr_vote_granted := answer |});;
  skip.

(** ** Receiving append entries *)

(** The deserialisation loop: [None] when the batch was rejected and a failure
    response sent. Every entry read or skipped consumes data, so one turn per
    byte is enough. *)
Fixpoint deserialise_entries (fuel : nat) (from : NodeId) (r : AppendEntries) (i : Z)
    (data : bytes) (acc : list ((list Effect -> Executed) * Z))
    : M (option (list ((list Effect -> Executed) * Z))) :=
  if ae_idx r <? i then mret (Some acc)
  else
    match fuel with
    | O => throw OutOfFuel
    | S fuel =>
        s ← get;
        if i <=? last_idx (state s) then
          match env_skip_entry data with
          | None => throw (LogicError "Insufficient space")
          | Some data => deserialise_entries fuel from r (u64 (i + 1)) data acc
          end
        else
          match env_get_entry data with
          | None => send_append_entries_response from FAIL None;; mret None
          | Some (entry, data) =>
              match env_store_apply (trace s) entry (public_only s)
                      (MkTxID (ae_term_of_idx r) i) with
              | None => send_append_entries_response from FAIL None;; mret None
              | Some ds => deserialise_entries fuel from r (u64 (i + 1)) data (acc ++ [(ds, i)])
              end
          end
    end.

(** The body of the loop of [execute_append_entries_sync]: whether to go on. *)
Definition execute_entry (from : NodeId) (r : AppendEntries)
    (ds : list Effect -> Executed) (i : Z) : M bool :=
  s ← get;
  let ex := ds (trace s) in
  emit (StoreApplied i);;
  if bool_decide (ex_result ex = APPLY_FAIL) then
    emit (LedgerTruncate (u64 (i - 1)));;
    send_append_entries_response from FAIL None;;
    mret false
  else
    state->last_idx <~ i;;
    foreach (ex_hooks ex) call_hook;;
    let globally_committable := bool_decide (ex_result ex = PASS_SIGNATURE) in
    (if globally_committable then start_ticking_if_necessary else skip);;
    emit (LedgerPutEntry (ex_entry ex) globally_committable (ex_term ex) (ex_index ex));;
    match ex_result ex with
    | PASS_SIGNATURE =>
        s ← get;
        (if is_retired s && bool_decide (retirement_phase s = Some Ordered)
         then become_retired i Signed else skip);;
        modify (fun s => s <| committable_indices := committable_indices s ++ [i] |>);;
        (if ex_term ex =? 0 then skip
         else
           on_view_history
             (if ae_term_of_idx r =? ViewHistory.InvalidView
              then ViewHistory.update 1 (ae_term r)
              else ViewHistory.update (u64 (ae_prev_idx r + 1)) (ex_term ex));;
           commit_if_possible (ae_leader_commit_idx r))
    | PASS | PASS_SNAPSHOT_EVIDENCE | PASS_ENCRYPTED_PAST_LEDGER_SECRET => skip
    | _ => throw (LogicError "Unknown ApplyResult value")
    end;;
    mret true.

Definition execute_append_entries_finish (r : AppendEntries) (from : NodeId) : M unit :=
  commit_if_possible (ae_leader_commit_idx r);;
  s ← get;
  let lci := last_committable_index s in
  (if ae_term_of_idx r =? ViewHistory.InvalidView
   then on_view_history (ViewHistory.update 1 (ae_term r))
   else if lci <? ae_idx r
   then on_view_history (ViewHistory.update (u64 (lci + 1)) (ae_term_of_idx r))
   else skip);;
  send_append_entries_response from OK None.

Fixpoint execute_append_entries_sync (l : list ((list Effect -> Executed) * Z))
    (from : NodeId) (r : AppendEntries) : M unit :=
  match l with
  | [] => execute_append_entries_finish r from
  | (ds, i) :: l =>
      go_on ← execute_entry from r ds i;
      if (go_on : bool) then execute_append_entries_sync l from r else skip
  end.

(** The part of [recv_append_entries] after the checks of term, previous entry
    and retirement. *)
Definition append_entries_accepted (from : NodeId) (r : AppendEntries) (data : bytes) : M unit :=
  restart_election_timeout;;
  leader_id <~ Some from;;
  s ← get;
  if bool_decide (consensus_type s = CFT) && (ae_prev_idx r <? commit_idx (state s)) then skip
  else if last_idx (state s) <? ae_prev_idx r then skip
  else
    (if is_new_follower s then
       (if ae_prev_idx r <? last_idx (state s) then rollback (ae_prev_idx r) else skip);;
       is_new_follower <~ false
     else skip);;
    l ← deserialise_entries (S (length data)) from r (u64 (ae_prev_idx r + 1)) data [];
    match l with
    | None => skip
    | Some l => execute_append_entries_sync l from r
    end.

Definition recv_append_entries (from : NodeId) (r : AppendEntries) (data : bytes) : M unit :=
  s ← get;
  if ae_term r <? current_view (state s) then
    send_append_entries_response from FAIL None
  else
    (if (current_view (state s) <? ae_term r) || is_leadership Candidate s
     then become_aware_of_new_term (ae_term r) else skip);;
    s ← get;
    let prev_term := get_term_internal s (ae_prev_idx r) in
    if negb (prev_term =? ae_prev_term r) then
      if prev_term =? 0 then send_append_entries_response from FAIL None
      else send_append_entries_response from FAIL
             (Some (MkTxID (ae_prev_term r) (ae_prev_idx r)))
    else
      let retired := is_retired s && phase_ge (retirement_phase s) Completed in
      assert (negb retired || bool_decide (is_Some (retirement_committable_idx s)));;
      if retired && from_option (fun i => i <? ae_idx r) true (retirement_committable_idx s)
      then send_append_entries_response from FAIL None
      else append_entries_accepted from r data.

Definition recv_append_entries_response (from : NodeId) (r : AppendEntriesResponse) : M unit :=
  s ← get;
  if negb (is_leadership Leader s) then skip
  else match nodes s !! from with
  | None => skip
  | Some node =>
      modify (fun s => s <| nodes := alter (fun n => n <| last_ack_timeout := 0 |>) from (nodes s) |>);;
      if current_view (state s) <? aer_term r then become_aware_of_new_term (aer_term r)
      else if (negb (current_view (state s) =? aer_term r)
               || (aer_last_log_idx r <? match_idx node))
              && bool_decide (aer_success r = OK)
      then skip
      else
        new_match ←
          match aer_success r with
          | FAIL =>
              this_match ← find_highest_possible_match
                (MkTxID (aer_term r) (aer_last_log_idx r));
              mret (if match_idx node =? 0 then this_match
                    else Z.min (match_idx node) this_match)
          | _ => mret (Z.min (aer_last_log_idx r) (last_idx (state s)))
          end;
        modify (fun s => s <| nodes := alter (fun n => n <| match_idx := new_match |>) from (nodes s) |>);;
        if negb (bool_decide (aer_success r = OK)) then
          modify (fun s => s <| nodes := alter (fun n => n <| sent_idx := match_idx n |>) from (nodes s) |>)
        else update_commit
  end.

(** ** Votes *)

Definition recv_request_vote (from : NodeId) (r : RequestVote) : M unit :=
  s ← get;
  if rv_term r <? current_view (state s) then send_request_vote_response from false
  else
    (if current_view (state s) <? rv_term r then become_aware_of_new_term (rv_term r) else skip);;
    s ← get;
    if bool_decide (is_Some (leader_id s)) then send_request_vote_response from false
    else if from_option (fun v => negb (bool_decide (v = from))) false (voted_for s)
    then send_request_vote_response from false
    else
      let last_committable_idx := last_committable_index s in
      let term_of_last_committable_idx := get_term_internal s last_committable_idx in
      let answer :=
        (term_of_last_committable_idx <? rv_term_of_last_committable_idx r)
        || ((rv_term_of_last_committable_idx r =? term_of_last_committable_idx)
            && (last_committable_idx <=? rv_last_committable_idx r)) in
      (if answer then
         restart_election_timeout;;
         leader_id <~ None;;
         voted_for <~ Some from
       else skip);;
      send_request_vote_response from answer.

Definition recv_request_vote_response (from : NodeId) (r : RequestVoteResponse) : M unit :=
  s ← get;
  if negb (is_leadership Candidate s) then skip
  else if negb (has (nodes s) from) then skip
  else if current_view (state s) <? rvr_term r then become_aware_of_new_term (rvr_term r)
  else if negb (current_view (state s) =? rvr_term r) then skip
  else if negb (rvr_vote_granted r) then skip
  else add_vote_for_me from.

(** ** Entry points *)

(** The values of [RaftMsgType] that [recv_message] handles. *)
Definition raft_append_entries : Z := 0.
Definition raft_append_entries_response : Z := 1.
Definition raft_request_vote : Z := 3.
Definition raft_request_vote_response : Z := 4.

Definition recv_or_drop {A} (r : option (A * bytes)) (k : A -> bytes -> M unit) : M unit :=
  match r with
  | Some (a, rest) => k a rest
  | None => throw DroppedMessage
  end.

Definition recv_message (from : NodeId) (data : bytes) : M unit :=
  match snd (peek 8 data) with
  | Throw e => throw e
  | Ret type =>
      s ← get;
      catch
        (if type =? raft_append_entries then
           recv_or_drop (env_recv_append_entries (trace s) from data)
             (recv_append_entries from)
         else if type =? raft_append_entries_response then
           recv_or_drop (env_recv_append_entries_response (trace s) from data)
             (fun r _ => recv_append_entries_response from r)
         else if type =? raft_request_vote then
           recv_or_drop (env_recv_request_vote (trace s) from data)
             (fun r _ => recv_request_vote from r)
         else if type =? raft_request_vote_response then
           recv_or_drop (env_recv_request_vote_response (trace s) from data)
             (fun r _ => recv_request_vote_response from r)
         else skip)
        (fun _ => skip)
  end.

(** One turn of the loop of [replicate]: [false] when the function returns. *)
Definition replicate_entry (e : BatchEntry) : M bool :=
  s ← get;
  let index := be_index e in
  if negb (index =? u64 (last_idx (state s) + 1)) then mret false
  else match retirement_committable_idx s with
  | Some r => ccf_assert (r <? index);; mret false
  | None =>
      foreach (be_hooks e) call_hook;;
      (if be_globally_committable e then
         s ← get;
         (if is_retired s && bool_decide (retirement_phase s = Some Ordered)
          then become_retired index Signed else skip);;
         modify (fun s => s <| committable_indices := committable_indices s ++ [index] |>);;
         start_ticking_if_necessary
       else skip);;
      state->last_idx <~ index;;
      s ← get;
      emit (LedgerPutEntry (be_data e) (be_globally_committable e) (current_view (state s)) index);;
      entry_size_not_limited <~ u64 (entry_size_not_limited s + Z.of_nat (length (be_data e)));;
      entry_count <~ u64 (entry_count s + 1);;
      on_view_history (ViewHistory.update index (current_view (state s)));;
      s ← get;
      (if append_entries_size_limit <=? entry_size_not_limited s then
         update_batch_size;;
         entry_count <~ 0;;
         entry_size_not_limited <~ 0;;
         send_append_entries_to_all
       else skip);;
      mret true
  end.

Fixpoint replicate_entries (entries : list BatchEntry) : M bool :=
  match entries with
  | [] =>
      s ← get;
      (if map_size (nodes s) =? 0 then update_commit else skip);;
      mret true
  | e :: entries =>
      go_on ← replicate_entry e;
      if (go_on : bool) then replicate_entries entries else mret false
  end.

Definition replicate (entries : list BatchEntry) (term : Z) : M bool :=
  s ← get;
  if negb (is_leadership Leader s) then rollback (last_idx (state s));; mret false
  else if negb (term =? current_view (state s)) then mret false
  else replicate_entries entries.

Definition periodic (elapsed : Z) : M unit :=
  modify (fun s => s <| timeout_elapsed := timeout_elapsed s + elapsed |>);;
  s ← get;
  if is_leadership Leader s then
    (if request_timeout s <=? timeout_elapsed s then
       timeout_elapsed <~ 0;;
       update_batch_size;;
       send_append_entries_to_all
     else skip);;
    modify (fun s => s <| nodes :=
      (fun n => n <| last_ack_timeout := last_ack_timeout n + elapsed |>) <$> nodes s |>);;
    s ← get;
    let backup_ack_timeout_count :=
      map_size (filter (fun '(_, n) => election_timeout s <= last_ack_timeout n) (nodes s)) in
    if get_quorum s (map_size (nodes s)) <=? backup_ack_timeout_count
    then become_follower else skip
  else if bool_decide (consensus_type s = BFT) then skip
  else if can_endorse_primary s && ticking s && (election_timeout s <=? timeout_elapsed s)
  then become_candidate else skip.

Definition force_become_primary : M unit :=
  s ← get;
  if bool_decide (is_Some (leader_id s))
  then throw (LogicError "Can't force leadership if there is already a leader")
  else
    state->current_view <~ u64 (current_view (state s) + starting_view_change);;
    become_leader.

Definition force_become_primary_at (index term : Z) (terms : list Z) (commit_idx_ : Z) : M unit :=
  s ← get;
  if bool_decide (is_Some (leader_id s))
  then throw (LogicError "Can't force leadership if there is already a leader")
  else
    state->current_view <~ term;;
    state->last_idx <~ index;;
    state->commit_idx <~ commit_idx_;;
    on_view_history (ViewHistory.initialise terms);;
    on_view_history (ViewHistory.update index term);;
    state->current_view <~ u64 (term + starting_view_change);;
    become_leader.

Definition init_as_backup (index term : Z) (term_history : list Z)
    (recovery_start_index : Z) : M unit :=
  state->last_idx <~ index;;
  state->commit_idx <~ index;;
  on_view_history (ViewHistory.initialise term_history);;
  emit (LedgerInit index recovery_start_index);;
  become_aware_of_new_term term.

Record SignableTxIndices := MkSignableTxIndices {
  sti_term : Z;
  sti_version : Z;
  sti_previous_version : Z
}.

Definition get_signable_txid : M SignableTxIndices :=
  s ← get;
  should_sign <~ false;;
  mret {|
    sti_term := get_term_internal s (last_idx (state s));
    sti_version := last_idx (state s);
    sti_previous_version := Z.max (last_committable_index s) (election_index s)
  |}.

Inductive SignatureDisposition := CANT_REPLICATE | CAN_SIGN | SHOULD_SIGN.

Definition get_signature_disposition (s : Aft) : SignatureDisposition :=
  if can_replicate_unsafe s then if should_sign s then SHOULD_SIGN else CAN_SIGN
  else CANT_REPLICATE.

Definition view_change_in_progress (s : Aft) : bool :=
  match consensus_type s with BFT => false | CFT => is_leadership Candidate s end.

Definition get_committed_txid (s : Aft) : Z * Z :=
  let commit_idx := get_commit_idx_unsafe s in (get_term_internal s commit_idx, commit_idx).

Definition enable_all_domains : M unit := public_only <~ false.

Definition update_parameters (type : ReconfigurationType) : M unit :=
  s ← get;
  ccf_assert (negb (bool_decide (type = TWO_TRANSACTION)) || has_node_client s);;
  reconfiguration_type <~ type.

(** [kv::ConsensusDetails]; an acknowledgement is the pair of the acknowledged
    index and the time since it was received. *)
Record ConsensusDetails := MkConsensusDetails {
  cd_configs : list Configuration;
  cd_acks : gmap NodeId (Z * Z);
  cd_membership_state : MembershipState;
  cd_leadership_state : option LeadershipState;
  cd_retirement_phase : option RetirementPhase;
  cd_learners : option (gmap NodeId Z);
  cd_reconfiguration_type : option ReconfigurationType;
  cd_primary_id : option NodeId;
  cd_current_view : Z;
  cd_ticking : bool
}.

Definition get_details (s : Aft) : ConsensusDetails := {|
  cd_configs := configurations s;
  cd_acks := (fun v => (match_idx v, u64 (last_ack_timeout v))) <$> nodes s;
  cd_membership_state := membership_state s;
  cd_leadership_state := leadership_state s;
  cd_retirement_phase := if is_retired s then retirement_phase s else None;
  cd_learners :=
    match reconfiguration_type s with TWO_TRANSACTION => Some (learner_nodes s) | _ => None end;
  cd_reconfiguration_type := Some (reconfiguration_type s);
  cd_primary_id := leader_id s;
  cd_current_view := current_view (state s);
  cd_ticking := ticking s
|}.

Definition get_view_history (s : Aft) (idx : Z) : list Z :=
  ViewHistory.get_history_until (view_history (state s)) idx.

(** Not called anywhere. *)
Definition initialise_view_history (terms : list Z) : M unit :=
  on_view_history (ViewHistory.initialise terms).

Definition orc (rid_ : Z) (node_id : NodeId) : M (option Nodes) :=
  s ← get;
  match orc_sets s !! rid_ with
  | None => throw (LogicError "Missing ORC set for configuration")
  | Some set =>
      match list_find (fun c => rid c = rid_) (configurations s) with
      | None => mret None
      | Some (_, conf) =>
          if negb (has (conf_nodes conf) node_id) then mret None
          else
            let set := {[node_id]} ∪ set in
            orc_sets <~ <[rid_ := set]> (orc_sets s);;
            if get_quorum s (map_size (conf_nodes conf)) <=? Z.of_nat (size set)
            then mret (Some (conf_nodes conf)) else mret None
      end
  end.

(** The object the constructor builds; it throws instead when BFT consensus is
    given no resharing tracker. *)
Definition new_aft (type : ConsensusType) (me : NodeId) (request_timeout election_timeout : Z)
    (tracker node_client public_only : bool) (initial_membership_state : MembershipState)
    (reconfiguration_type : ReconfigurationType) : Aft :=
  let bft := bool_decide (type = BFT) in {|
  consensus_type := type;
  voted_for := None;
  leader_id := None;
  votes_for_me := ∅;
  leadership_state := None;
  membership_state := initial_membership_state;
  retirement_phase := None;
  timeout_elapsed := 0;
  election_index := 0;
  is_new_follower := false;
  should_sign := false;
  state := {|
    my_node_id := me;
    current_view := 0;
    last_idx := 0;
    commit_idx := 0;
    cft_watermark_idx := 0;
    view_history := if bft then [1; 1] else [];
    new_view_idx := 0;
    requested_evidence_from := None;
    initial_recovery_primary := None
  |};
  request_timeout := request_timeout;
  election_timeout := election_timeout;
  ticking := bft;
  configurations := [];
  nodes := ∅;
  learner_nodes := ∅;
  retired_nodes := ∅;
  reconfiguration_type := reconfiguration_type;
  require_identity_for_reconfig := bft;
  has_resharing_tracker := tracker;
  orc_sets := ∅;
  has_node_client := node_client;
  retirement_idx := None;
  retirement_committable_idx := None;
  entry_size_not_limited := 0;
  entry_count := 0;
  entries_batch_size := 20;
  batch_window_sum := 0;
  committable_indices := [];
  public_only := public_only;
  trace := []
|}.

Definition make_aft (type : ConsensusType) (me : NodeId) (request_timeout election_timeout : Z)
    (tracker node_client public_only : bool) (initial_membership_state : MembershipState)
    (reconfiguration_type : ReconfigurationType) : option Aft :=
  if bool_decide (type = BFT) && negb tracker then None
  else Some (new_aft type me request_timeout election_timeout tracker node_client public_only
    initial_membership_state reconfiguration_type).
End aft.

(** Symbolic execution of the statements of the node. *)
Ltac aft_step :=
  lazymatch goal with
  | |- wp (emit _ ≫= _) _ _ _ => apply wp_modify_bind; cbv beta
  | |- wp (assign_state _ _ ≫= _) _ _ _ => apply wp_modify_bind; cbv beta
  | |- wp (on_view_history _ ≫= _) _ _ _ => fail
  | |- wp (emit _) _ _ _ => apply wp_modify; cbv beta
  | |- wp (assign_state _ _) _ _ _ => apply wp_modify; cbv beta
  | _ => wp_step
  end.

Lemma wp_on_view_history_bind {A B} (m : ST (list Z) A) (f : A -> M B) Q E s :
  wp m (fun a h => wp (f a) Q E (set_state view_history h s))
       (fun e h => E e (set_state view_history h s)) (view_history (state s)) ->
  wp (on_view_history m ≫= f) Q E s.
Proof. unfold wp, mbind, ST_bind, on_view_history. by destruct (m _) as [h [a|e]]. Qed.

Lemma wp_on_view_history {A} (m : ST (list Z) A) (Q : A -> Aft -> Prop) E s :
  wp m (fun a h => Q a (set_state view_history h s))
       (fun e h => E e (set_state view_history h s)) (view_history (state s)) ->
  wp (on_view_history m) Q E s.
Proof. unfold wp, on_view_history. by destruct (m _) as [h [a|e]]. Qed.
