(* ===== verification/RaftWire.v ===== *)
(** The wire format of consensus messages.

    The structures of src/consensus/aft/raft_types.h are packed and sent as
    their object representation; [NodeToNode::recv_authenticated]
    (src/node/node_to_node.h) overlays the structure on the received bytes and
    hands them to the channel for verification.  The verification itself is a
    parameter: it sees the header and the data that follows, and returns the
    data left after its own authentication header, or fails. *)

From S2P Require Import Prelude Serialized Views RaftTypes Raft.

Definition bool_byte (b : bool) : Z := if b then 1 else 0.

Definition AppendEntriesResponseType_value (t : AppendEntriesResponseType) : Z :=
  match t with OK => 0 | FAIL => 1 | REQUIRE_EVIDENCE => 2 end.

(** The handler compares the byte with [OK] and [FAIL] only, so every other
    value behaves as [REQUIRE_EVIDENCE]. *)
Definition AppendEntriesResponseType_of (v : Z) : AppendEntriesResponseType :=
  if v =? 0 then OK else if v =? 1 then FAIL else REQUIRE_EVIDENCE.

(** ** Packed structures *)

(** Consecutive 64-bit fields. *)
Fixpoint words (l : list Z) : bytes :=
  match l with
  | [] => []
  | x :: l => le_encode 8 x ++ words l
  end.

Definition encode_AppendEntries (r : AppendEntries) : bytes :=
  words [raft_append_entries; ae_idx r; ae_prev_idx r; ae_term r; ae_prev_term r;
         ae_leader_commit_idx r; ae_term_of_idx r] ++ [bool_byte (ae_contains_new_view r)].

Definition encode_AppendEntriesResponse (r : AppendEntriesResponse) : bytes :=
  words [raft_append_entries_response; aer_term r; aer_last_log_idx r] ++
  [AppendEntriesResponseType_value (aer_success r)].

Definition encode_RequestVote (r : RequestVote) : bytes :=
  words [raft_request_vote; rv_term r; rv_last_committable_idx r;
         rv_term_of_last_committable_idx r].

Definition encode_RequestVoteResponse (r : RequestVoteResponse) : bytes :=
  words [raft_request_vote_response; rvr_term r] ++ [bool_byte (rvr_vote_granted r)].

Definition encode_RaftMsg (m : RaftMsg) : bytes :=
  match m with
  | MsgAppendEntries r => encode_AppendEntries r
  | MsgAppendEntriesResponse r => encode_AppendEntriesResponse r
  | MsgRequestVote r => encode_RequestVote r
  | MsgRequestVoteResponse r => encode_RequestVoteResponse r
  end.

Definition word (k : nat) (data : bytes) : Z := le_decode (take 8 (drop (8 * k) data)).
Definition byte_at (k : nat) (data : bytes) : Z := default 0 (data !! k).

Definition overlay_AppendEntries (data : bytes) : AppendEntries :=
  {| ae_idx := word 1 data; ae_prev_idx := word 2 data; ae_term := word 3 data;
     ae_prev_term := word 4 data; ae_leader_commit_idx := word 5 data;
     ae_term_of_idx := word 6 data;
     ae_contains_new_view := negb (byte_at 56 data =? 0) |}.

Definition overlay_AppendEntriesResponse (data : bytes) : AppendEntriesResponse :=
  {| aer_term := word 1 data; aer_last_log_idx := word 2 data;
     aer_success := AppendEntriesResponseType_of (byte_at 24 data) |}.

Definition overlay_RequestVote (data : bytes) : RequestVote :=
  {| rv_term := word 1 data; rv_last_committable_idx := word 2 data;
     rv_term_of_last_committable_idx := word 3 data |}.

Definition overlay_RequestVoteResponse (data : bytes) : RequestVoteResponse :=
  {| rvr_term := word 1 data; rvr_vote_granted := negb (byte_at 16 data =? 0) |}.

(** [recv_authenticated<T>]: [None] when it throws. *)
Definition recv_authenticated {T} (sizeof : nat) (overlay : bytes -> T)
    (verify : bytes -> bytes -> option bytes) (data : bytes) : option (T * bytes) :=
  if (length data <? sizeof)%nat then None
  else
    rest ← verify (take sizeof data) (drop sizeof data);
    Some (overlay (take sizeof data), rest).

(** ** Round trip *)

Lemma words_length l : length (words l) = (8 * length l)%nat.
Proof.
  induction l as [|x l IH]; [done|]. cbn [words length]. rewrite length_app, le_encode_length, IH. lia.
Qed.

Lemma word_words k l rest x :
  l !! k = Some x -> is_u64 x -> word k (words l ++ rest) = x.
Proof.
  unfold word. revert k. induction l as [|y l IH]; intros k Hk Hx; [done|].
  cbn [words]. rewrite <- app_assoc. destruct k as [|k]; cbn in Hk.
  - injection Hk as ->. rewrite drop_0, take_app_length' by by rewrite le_encode_length.
    by apply le_decode_encode.
  - replace (8 * S k)%nat with (length (le_encode 8 y) + 8 * k)%nat
      by (rewrite le_encode_length; lia).
    rewrite <- drop_drop, drop_app_length. by apply IH.
Qed.

Lemma byte_at_words k l b : k = (8 * length l)%nat -> byte_at k (words l ++ [b]) = b.
Proof.
  intros ->. unfold byte_at. by rewrite lookup_app_r, words_length, Nat.sub_diag
    by (rewrite words_length; lia).
Qed.

(** The fields of a message are 64-bit. *)
Definition msg_wf (m : RaftMsg) : Prop :=
  match m with
  | MsgAppendEntries r =>
      Forall is_u64 [ae_idx r; ae_prev_idx r; ae_term r; ae_prev_term r;
        ae_leader_commit_idx r; ae_term_of_idx r]
  | MsgAppendEntriesResponse r => Forall is_u64 [aer_term r; aer_last_log_idx r]
  | MsgRequestVote r =>
      Forall is_u64 [rv_term r; rv_last_committable_idx r; rv_term_of_last_committable_idx r]
  | MsgRequestVoteResponse r => is_u64 (rvr_term r)
  end.

(** The handler of each type of message; only append entries carry data. *)
Definition handle_RaftMsg {env : AftEnv} (from : NodeId) (m : RaftMsg) (data : bytes) : M unit :=
  match m with
  | MsgAppendEntries r => recv_append_entries from r data
  | MsgAppendEntriesResponse r => recv_append_entries_response from r
  | MsgRequestVote r => recv_request_vote from r
  | MsgRequestVoteResponse r => recv_request_vote_response from r
  end.

(** A node whose channels verify messages with [verify]. *)
Record wire_channels (env : AftEnv)
    (verify : list Effect -> NodeId -> bytes -> bytes -> option bytes) : Prop := {
  wire_append_entries tr from data : env_recv_append_entries tr from data =
    recv_authenticated 57 overlay_AppendEntries (verify tr from) data;
  wire_append_entries_response tr from data : env_recv_append_entries_response tr from data =
    recv_authenticated 25 overlay_AppendEntriesResponse (verify tr from) data;
  wire_request_vote tr from data : env_recv_request_vote tr from data =
    recv_authenticated 32 overlay_RequestVote (verify tr from) data;
  wire_request_vote_response tr from data : env_recv_request_vote_response tr from data =
    recv_authenticated 17 overlay_RequestVoteResponse (verify tr from) data
}.

Lemma peek_word type rest :
  is_u64 type -> snd (peek 8 (le_encode 8 type ++ rest)) = Ret type.
Proof.
  intros Ht. unfold peek, mbind, ST_bind, get. rewrite length_app, le_encode_length.
  destruct (Nat.ltb_spec (8 + length rest) 8); [lia|].
  rewrite take_app_length' by by rewrite le_encode_length. cbn [snd].
  by rewrite le_decode_encode.
Qed.

Lemma recv_authenticated_app {T} n (overlay : bytes -> T) verify hd tail :
  length hd = n ->
  recv_authenticated n overlay verify (hd ++ tail) =
  (rest ← verify hd tail; Some (overlay hd, rest)).
Proof.
  intros <-. unfold recv_authenticated. rewrite length_app, take_app_length, drop_app_length.
  destruct (Nat.ltb_spec (length hd + length tail) (length hd)); [lia|done].
Qed.

Lemma bool_byte_ne b : negb (bool_byte b =? 0) = b.
Proof. by destruct b. Qed.

(** Read the fields of an encoded message back. *)
Ltac read_fields :=
  repeat match goal with H : Forall _ (_ :: _) |- _ => apply Forall_cons in H as [? H] end;
  f_equal;
  first [ eapply word_words; [reflexivity|by auto]
        | rewrite byte_at_words by reflexivity; apply bool_byte_ne ].

Lemma overlay_encode_AppendEntries r :
  msg_wf (MsgAppendEntries r) -> overlay_AppendEntries (encode_AppendEntries r) = r.
Proof.
  intros Hm. destruct r as [a b c d e f g]. cbn in Hm. unfold overlay_AppendEntries, encode_AppendEntries.
  cbn [ae_idx ae_prev_idx ae_term ae_prev_term ae_leader_commit_idx ae_term_of_idx
    ae_contains_new_view]. read_fields.
Qed.

Lemma overlay_encode_AppendEntriesResponse r :
  msg_wf (MsgAppendEntriesResponse r) ->
  overlay_AppendEntriesResponse (encode_AppendEntriesResponse r) = r.
Proof.
  intros Hm. destruct r as [a b t]. cbn in Hm.
  unfold overlay_AppendEntriesResponse, encode_AppendEntriesResponse.
  cbn [aer_term aer_last_log_idx aer_success].
  rewrite byte_at_words by reflexivity.
  replace (AppendEntriesResponseType_of _) with t by (by destruct t). read_fields.
Qed.

Lemma overlay_encode_RequestVote r :
  msg_wf (MsgRequestVote r) -> overlay_RequestVote (encode_RequestVote r) = r.
Proof.
  intros Hm. destruct r as [a b c]. cbn in Hm. unfold overlay_RequestVote, encode_RequestVote.
  cbn [rv_term rv_last_committable_idx rv_term_of_last_committable_idx].
  rewrite <- (app_nil_r (words _)). read_fields.
Qed.

Lemma overlay_encode_RequestVoteResponse r :
  msg_wf (MsgRequestVoteResponse r) ->
  overlay_RequestVoteResponse (encode_RequestVoteResponse r) = r.
Proof.
  intros Hm. destruct r as [a b]. cbn in Hm.
  unfold overlay_RequestVoteResponse, encode_RequestVoteResponse.
  cbn [rvr_term rvr_vote_granted]. read_fields.
Qed.

(** A message is read back as it was written: receiving the bytes a node
    sends for a message, followed by an authentication header, runs the handler
    of the message's type on the same message and on the data after that header
    when the channel accepts the header, and does nothing when it does not. *)
Lemma message_wire env verify from m tail s :
  wire_channels env verify -> msg_wf m ->
  recv_message from (encode_RaftMsg m ++ tail) s =
  match verify (trace s) from (encode_RaftMsg m) tail with
  | Some payload => catch (handle_RaftMsg from m payload) (fun _ => skip) s
  | None => (s, Ret tt)
  end.
Proof.
  intros [W1 W2 W3 W4] Hm. unfold recv_message.
  assert (Hpeek : snd (peek 8 (encode_RaftMsg m ++ tail)) = Ret
    match m with
    | MsgAppendEntries _ => raft_append_entries
    | MsgAppendEntriesResponse _ => raft_append_entries_response
    | MsgRequestVote _ => raft_request_vote
    | MsgRequestVoteResponse _ => raft_request_vote_response
    end).
  { destruct m; cbn [encode_RaftMsg]; unfold encode_AppendEntries,
      encode_AppendEntriesResponse, encode_RequestVote, encode_RequestVoteResponse;
    cbn [words]; rewrite <- ?app_assoc; by rewrite peek_word. }
  rewrite Hpeek. clear Hpeek. unfold mbind, ST_bind, get.
  destruct m as [r|r|r|r]; cbn [Z.eqb raft_append_entries raft_append_entries_response
    raft_request_vote raft_request_vote_response encode_RaftMsg handle_RaftMsg Pos.eqb] in *.
  - rewrite W1, recv_authenticated_app, overlay_encode_AppendEntries by done.
    by destruct (verify _ _ _ _).
  - rewrite W2, recv_authenticated_app, overlay_encode_AppendEntriesResponse by done.
    by destruct (verify _ _ _ _).
  - rewrite W3, recv_authenticated_app, overlay_encode_RequestVote by done.
    by destruct (verify _ _ _ _).
  - rewrite W4, recv_authenticated_app, overlay_encode_RequestVoteResponse by done.
    by destruct (verify _ _ _ _).
Qed.

(** ** A simulated environment

    Concrete components to run nodes with: channels that deliver everything
    and use a one-byte authentication header, ledger entries that are framed by a
    one-byte size, a store for which an entry [kind :: term :: index :: _] is a
    signature when [kind] is one, and a constant random engine. *)

Definition sim_verify (header tail : bytes) : option bytes :=
  match tail with 42 :: payload => Some payload | _ => None end.

Definition sim_get_entry (data : bytes) : option (bytes * bytes) :=
  match data with
  | n :: data => if Z.of_nat (length data) <? n then None
                 else Some (take (Z.to_nat n) data, drop (Z.to_nat n) data)
  | [] => None
  end.

Definition sim_apply (entry : bytes) : Executed :=
  match entry with
  | kind :: term :: index :: _ =>
      MkExecuted (if kind =? 1 then PASS_SIGNATURE else PASS) [] entry term index
  | _ => MkExecuted APPLY_FAIL [] entry 0 0
  end.

Definition sim_env : AftEnv := {|
  env_asserts := true;
  env_send _ _ _ := true;
  env_have_channel _ _ := true;
  env_recv_append_entries _ _ := recv_authenticated 57 overlay_AppendEntries sim_verify;
  env_recv_append_entries_response _ _ :=
    recv_authenticated 25 overlay_AppendEntriesResponse sim_verify;
  env_recv_request_vote _ _ := recv_authenticated 32 overlay_RequestVote sim_verify;
  env_recv_request_vote_response _ _ :=
    recv_authenticated 17 overlay_RequestVoteResponse sim_verify;
  env_get_entry := sim_get_entry;
  env_skip_entry data := snd <$> sim_get_entry data;
  env_store_apply _ entry _ _ := Some (fun _ => sim_apply entry);
  env_find_reconfiguration _ _ := None;
  env_have_resharing_result_for _ _ _ := false;
  env_random _ := 0;
  env_empty_back_nodes := ∅
|}.

Lemma sim_wire_channels : wire_channels sim_env (fun _ _ => sim_verify).
Proof. by split. Qed.

Definition sim_node (me : NodeId) : Aft :=
  new_aft CFT me 10 100 false false false Active ONE_TRANSACTION.
