(* ===== verification/RaftLog.v ===== *)
(** The log of a consensus node.

    [log_of] abstracts a node to the four fields that describe its log: the
    last and the committed index, the indices eligible for commit and the view
    history.  [log_step] is the abstract specification of what may happen to
    them; every operation of [Raft] that runs from a well-formed log is shown to
    perform a sequence of these steps, whatever the components around it
    answer and whether it returns or throws. *)

From S2P Require Import Prelude Serialized Views RaftTypes Raft.

Record Log := MkLog {
  lg_last : Z;
  lg_commit : Z;
  lg_committable : list Z;
  lg_views : list Z
}.

Definition log_of (s : Aft) : Log :=
  MkLog (last_idx (state s)) (commit_idx (state s)) (committable_indices s)
    (view_history (state s)).

(** Strictly increasing lists. *)
Definition increasing (l : list Z) : Prop :=
  forall (i j : nat) x y, (i < j)%nat -> l !! i = Some x -> l !! j = Some y -> x < y.

(** A well-formed log: the committed index is within the log, the committable
    indices are increasing and lie after the committed index and within the
    log, and the recorded views start at increasing positive indices, within
    the log unless it is empty. *)
Record log_wf (l : Log) : Prop := {
  wf_commit : 0 <= lg_commit l <= lg_last l;
  wf_last : lg_last l <= u64_max;
  wf_committable_inc : increasing (lg_committable l);
  wf_committable_range : forall i, i ∈ lg_committable l -> lg_commit l < i <= lg_last l;
  wf_views_asc : ascending (lg_views l);
  wf_views_pos : all_ge (lg_views l) 1;
  wf_views_last : all_le (lg_views l) (Z.max 1 (lg_last l))
}.

(** What may happen to a log. *)
Inductive log_step : Log -> Log -> Prop :=
| log_append l :
    lg_last l < u64_max ->
    log_step l (MkLog (lg_last l + 1) (lg_commit l) (lg_committable l) (lg_views l))
| log_mark_committable l :
    lg_commit l < lg_last l -> (forall i, i ∈ lg_committable l -> i < lg_last l) ->
    log_step l (MkLog (lg_last l) (lg_commit l) (lg_committable l ++ [lg_last l]) (lg_views l))
| log_rollback l idx :
    lg_commit l <= idx <= lg_last l ->
    log_step l (MkLog idx (lg_commit l) (pop_back_above (lg_committable l) idx)
      (take (upper_bound (lg_views l) idx) (lg_views l)))
| log_commit l w idx rest :
    pop_committable (lg_committable l) w = (Some idx, rest) ->
    log_step l (MkLog (lg_last l) idx rest (lg_views l))
| log_commit_last l :
    lg_committable l = [] ->
    log_step l (MkLog (lg_last l) (lg_last l) [] (lg_views l))
| log_forget_committable l :
    log_step l (MkLog (lg_last l) (lg_commit l) [] (lg_views l))
| log_view l idx n :
    all_le (lg_views l) idx -> 1 <= idx <= Z.max 1 (lg_last l) ->
    log_step l (MkLog (lg_last l) (lg_commit l) (lg_committable l)
      (lg_views l ++ list_replicate n idx)).

(** ** Lists of committable indices *)

Lemma increasing_nil : increasing [].
Proof. by intros ????? ?. Qed.

Lemma increasing_cons x l : increasing (x :: l) <-> (forall y, y ∈ l -> x < y) /\ increasing l.
Proof.
  split.
  - intros H. split.
    + intros y [j Hj]%list_elem_of_lookup. by apply (H 0%nat (S j)); [lia|..].
    + intros i j a b ???. by apply (H (S i) (S j)); [lia|..].
  - intros [H1 H2] [|i] [|j] a b Hij Ha Hb; try lia; cbn in *.
    + injection Ha as ->. apply H1. by eapply list_elem_of_lookup_2.
    + by apply (H2 i j); [lia|..].
Qed.

Lemma increasing_snoc l x :
  increasing l -> (forall y, y ∈ l -> y < x) -> increasing (l ++ [x]).
Proof.
  induction l as [|y l IH]; cbn; intros Hl Hx.
  - apply increasing_cons. split; [by intros ? ?%elem_of_nil|apply increasing_nil].
  - apply increasing_cons in Hl as [Hy Hl]. apply increasing_cons. split.
    + intros z [Hz| ->%list_elem_of_singleton]%elem_of_app; [by apply Hy|].
      apply Hx. left.
    + apply IH; [done|]. intros z Hz. apply Hx. by right.
Qed.

Lemma pop_back_above_elem l idx x : x ∈ pop_back_above l idx -> x ∈ l.
Proof.
  induction l as [|y l IH]; cbn; [done|].
  destruct (pop_back_above l idx) as [|z l'].
  - destruct (idx <? y); intros H; [by apply elem_of_nil in H|].
    apply list_elem_of_singleton in H as ->. left.
  - intros [->|H]%elem_of_cons; [left|right; auto].
Qed.

Lemma pop_back_above_inc l idx : increasing l -> increasing (pop_back_above l idx).
Proof.
  induction l as [|y l IH]; cbn; [done|]. intros [Hy Hl]%increasing_cons.
  specialize (IH Hl). pose proof (pop_back_above_elem l idx) as Hin.
  destruct (pop_back_above l idx) as [|z l'].
  - destruct (idx <? y); [apply increasing_nil|].
    apply increasing_cons. split; [by intros ? ?%elem_of_nil|apply increasing_nil].
  - apply increasing_cons. split; [|done]. intros w Hw. auto.
Qed.

Lemma pop_back_above_le l idx x : increasing l -> x ∈ pop_back_above l idx -> x <= idx.
Proof.
  intros Hinc. revert x. induction l as [|y l IH]; cbn; [by intros ? ?%elem_of_nil|].
  apply increasing_cons in Hinc as [Hy Hl]. specialize (IH Hl).
  pose proof (pop_back_above_elem l idx) as Hin. intros x.
  destruct (pop_back_above l idx) as [|z l'].
  - destruct (idx <? y) eqn:E; intros H; [by apply elem_of_nil in H|].
    apply list_elem_of_singleton in H as ->. lia.
  - intros [->|H]%elem_of_cons; [|auto].
    pose proof (IH z ltac:(left)). specialize (Hy z (Hin z ltac:(left))). lia.
Qed.

(** Nothing at or below [idx] is dropped by a rollback to [idx]. *)
Lemma pop_back_above_keeps l idx x : x ∈ l -> x <= idx -> x ∈ pop_back_above l idx.
Proof.
  induction l as [|y l IH]; cbn; [done|].
  intros [->|H]%elem_of_cons Hle.
  - destruct (pop_back_above l idx); [|left]. destruct (Z.ltb_spec idx y); [lia|left].
  - specialize (IH H Hle). destruct (pop_back_above l idx); [by apply elem_of_nil in IH|].
    by right.
Qed.

Lemma pop_committable_spec l w idx rest :
  increasing l -> pop_committable l w = (Some idx, rest) ->
  idx ∈ l /\ idx <= w /\ increasing rest /\
  (forall x, x ∈ rest <-> x ∈ l /\ w < x) /\
  (forall x, x ∈ l -> x <= idx \/ x ∈ rest).
Proof.
  revert idx rest. induction l as [|x l IH]; cbn; intros idx rest Hinc H; [done|].
  apply increasing_cons in Hinc as [Hx Hinc].
  destruct (Z.leb_spec x w) as [Hle|Hgt]; [|done].
  destruct (pop_committable l w) as [[h|] r] eqn:E; injection H as <- <-.
  - destruct (IH h r Hinc eq_refl) as (H1 & H2 & H3 & H4 & H5).
    split; [by right|]. split; [done|]. split; [done|]. split.
    + intros y. rewrite H4, elem_of_cons. split; [tauto|]. intros [[->|?] ?]; [lia|done].
    + intros y [->|Hy]%elem_of_cons; [|auto]. left. specialize (Hx h H1). lia.
  - clear IH. assert (r = l) as ->.
    { destruct l as [|y l]; cbn in E; [by injection E as <-|].
      destruct (y <=? w); [by destruct (pop_committable l w) as [[]]|]. by injection E as <-. }
    assert (Hl : forall y, y ∈ l -> w < y).
    { destruct l as [|y l]; cbn in E; [by intros ? ?%elem_of_nil|].
      destruct (Z.leb_spec y w); [by destruct (pop_committable l w) as [[]]|].
      apply increasing_cons in Hinc as [Hy _].
      intros z [->|Hz]%elem_of_cons; [done|]. specialize (Hy z Hz). lia. }
    split; [left|]. split; [done|]. split; [done|]. split.
    + intros y. rewrite elem_of_cons. split; [auto|]. intros [[->|?] ?]; [lia|done].
    + intros y [->|Hy]%elem_of_cons; [left; lia|by right].
Qed.

Lemma pop_committable_none l w rest : pop_committable l w = (None, rest) -> rest = l.
Proof.
  destruct l as [|x l]; cbn; [by intros [= <-]|].
  destruct (x <=? w); [by destruct (pop_committable l w) as [[]]|]. by intros [= <-].
Qed.

(** ** Steps preserve well-formedness *)

Lemma all_ge_take l x n : all_ge l x -> all_ge (take n l) x.
Proof.
  intros H y [i [Hi _]%lookup_take_Some]%list_elem_of_lookup.
  apply H. by eapply list_elem_of_lookup_2.
Qed.

Lemma log_step_wf l l' : log_step l l' -> log_wf l -> log_wf l'.
Proof.
  intros Hstep [Hc Hl Hi Hr Ha Hp Hv].
  destruct Hstep as [l Hmax|l Hlt Hnew|l idx Hidx|l w idx rest Hpop|l Hnil|l|l idx n Hle Hidx];
    constructor; cbn; try done; try lia; try apply increasing_nil;
    try (by intros ? ?%elem_of_nil).
  - intros i Hin%Hr. lia.
  - eapply ViewHistory.all_le_mono; [|done]. lia.
  - by apply increasing_snoc.
  - intros i [Hin%Hr| ->%list_elem_of_singleton]%elem_of_app; lia.
  - by apply pop_back_above_inc.
  - intros i Hin. split; [|by eapply pop_back_above_le].
    apply pop_back_above_elem, Hr in Hin. lia.
  - by apply ascending_take.
  - by apply all_ge_take.
  - eapply ViewHistory.all_le_mono; [|apply upper_bound_take]. lia.
  - destruct (pop_committable_spec _ _ _ _ Hi Hpop) as (H1%Hr & _). lia.
  - by destruct (pop_committable_spec _ _ _ _ Hi Hpop) as (_ & _ & ? & _).
  - intros i Hin. destruct (pop_committable_spec _ _ _ _ Hi Hpop) as (_ & H2 & _ & H4 & _).
    apply H4 in Hin as [Hin%Hr ?]. lia.
  - by apply ViewHistory.ascending_update.
  - intros y [Hy|[-> _]%elem_of_replicate]%elem_of_app; [by apply Hp|lia].
  - apply ViewHistory.all_le_app. split; [done|]. apply ViewHistory.all_le_replicate; lia.
Qed.

Lemma log_steps_wf l l' : rtc log_step l l' -> log_wf l -> log_wf l'.
Proof. induction 1; eauto using log_step_wf. Qed.

(** A step never lowers the committed index. *)
Lemma log_step_commit l l' : log_step l l' -> log_wf l -> lg_commit l <= lg_commit l'.
Proof.
  intros Hstep [Hc Hl Hi Hr Ha Hp Hv].
  destruct Hstep as [l Hmax|l Hlt Hnew|l idx Hidx|l w idx rest Hpop|l Hnil|l|l idx n Hle Hidx]; cbn; try lia.
  destruct (pop_committable_spec _ _ _ _ Hi Hpop) as (H1%Hr & _). lia.
Qed.

(** ** Operations that leave the log alone *)

Definition keeps_log (s s' : Aft) : Prop :=
  log_of s' = log_of s /\ consensus_type s' = consensus_type s.

#[export] Instance keeps_log_preorder : PreOrder keeps_log.
Proof. split; [done|]. intros s1 s2 s3 [H1 H1'] [H2 H2']. split; congruence. Qed.

Section frame.
Context {env : AftEnv}.

Lemma emit_log e : respects keeps_log (emit e).
Proof. unfold emit. respects_auto. Qed.
#[local] Hint Resolve emit_log : respects.

Lemma assert_log b : respects keeps_log (assert b).
Proof. unfold assert. respects_auto. Qed.
Lemma ccf_assert_log b : respects keeps_log (ccf_assert b).
Proof. unfold ccf_assert. respects_auto. Qed.
Lemma send_authenticated_log to msg : respects keeps_log (send_authenticated to msg).
Proof. unfold send_authenticated. respects_auto. Qed.
Lemma restart_election_timeout_log : respects keeps_log restart_election_timeout.
Proof. unfold restart_election_timeout. respects_auto. Qed.
Lemma start_ticking_if_necessary_log : respects keeps_log start_ticking_if_necessary.
Proof. unfold start_ticking_if_necessary, start_ticking. respects_auto. Qed.
#[local] Hint Resolve assert_log ccf_assert_log send_authenticated_log
  restart_election_timeout_log start_ticking_if_necessary_log : respects.

Lemma clear_orc_sets_log : respects keeps_log clear_orc_sets.
Proof. unfold clear_orc_sets. respects_auto. Qed.
Lemma reset_last_ack_timeouts_log : respects keeps_log reset_last_ack_timeouts.
Proof. unfold reset_last_ack_timeouts. respects_auto. Qed.
Lemma update_batch_size_log : respects keeps_log update_batch_size.
Proof. unfold update_batch_size. respects_auto. Qed.
Lemma find_highest_possible_match_log tx : respects keeps_log (find_highest_possible_match tx).
Proof. unfold find_highest_possible_match. respects_auto. Qed.
#[local] Hint Resolve clear_orc_sets_log reset_last_ack_timeouts_log update_batch_size_log
  find_highest_possible_match_log : respects.

Lemma send_append_entries_range_log to i j :
  respects keeps_log (send_append_entries_range to i j).
Proof. unfold send_append_entries_range. respects_auto. Qed.
#[local] Hint Resolve send_append_entries_range_log : respects.

Lemma send_append_entries_loop_log fuel to i :
  respects keeps_log (send_append_entries_loop fuel to i).
Proof. revert i. induction fuel as [|fuel IH]; intros i; cbn [send_append_entries_loop]; respects_auto. Qed.
#[local] Hint Resolve send_append_entries_loop_log : respects.

Lemma send_append_entries_log to i : respects keeps_log (send_append_entries to i).
Proof. unfold send_append_entries. respects_auto. Qed.
#[local] Hint Resolve send_append_entries_log : respects.

Lemma send_append_entries_to_all_log : respects keeps_log send_append_entries_to_all.
Proof. unfold send_append_entries_to_all. respects_auto. Qed.
Lemma send_append_entries_response_log to a r :
  respects keeps_log (send_append_entries_response to a r).
Proof. unfold send_append_entries_response, assign_state. respects_auto. Qed.
Lemma become_retired_log idx phase : respects keeps_log (become_retired idx phase).
Proof. unfold become_retired. respects_auto. Qed.
Lemma create_and_remove_node_state_log : respects keeps_log create_and_remove_node_state.
Proof. unfold create_and_remove_node_state. respects_auto. Qed.
#[local] Hint Resolve send_append_entries_to_all_log send_append_entries_response_log
  become_retired_log create_and_remove_node_state_log : respects.

Lemma add_configuration_log idx conf l r : respects keeps_log (add_configuration idx conf l r).
Proof.
  unfold add_configuration, add_learners, add_retired_nodes, promote_learners.
  respects_auto.
Qed.
Lemma add_resharing_result_log q rid r : respects keeps_log (add_resharing_result q rid r).
Proof. unfold add_resharing_result. respects_auto. Qed.
#[local] Hint Resolve add_configuration_log add_resharing_result_log : respects.

Lemma call_hook_log h : respects keeps_log (call_hook h).
Proof. unfold call_hook. respects_auto. Qed.
Lemma rollback_retirement_log idx : respects keeps_log (rollback_retirement idx).
Proof. unfold rollback_retirement. respects_auto. Qed.
Lemma rollback_configurations_log idx : respects keeps_log (rollback_configurations idx).
Proof. unfold rollback_configurations. respects_auto. Qed.
Lemma commit_configurations_log fuel idx changed :
  respects keeps_log (commit_configurations fuel idx changed).
Proof.
  revert changed. induction fuel as [|fuel IH]; intros changed;
    cbn [commit_configurations]; unfold become_retiring; respects_auto.
Qed.
Lemma send_request_vote_log to : respects keeps_log (send_request_vote to).
Proof. unfold send_request_vote. respects_auto. Qed.
Lemma send_request_vote_response_log to b : respects keeps_log (send_request_vote_response to b).
Proof. unfold send_request_vote_response. respects_auto. Qed.
Lemma deserialise_entries_log fuel from r i data acc :
  respects keeps_log (deserialise_entries fuel from r i data acc).
Proof.
  revert i data acc. induction fuel as [|fuel IH]; intros i data acc;
    cbn [deserialise_entries]; respects_auto.
Qed.
End frame.

#[export] Hint Resolve
  emit_log assert_log ccf_assert_log send_authenticated_log restart_election_timeout_log
  start_ticking_if_necessary_log clear_orc_sets_log reset_last_ack_timeouts_log
  update_batch_size_log find_highest_possible_match_log send_append_entries_range_log
  send_append_entries_loop_log send_append_entries_log send_append_entries_to_all_log
  send_append_entries_response_log become_retired_log create_and_remove_node_state_log
  add_configuration_log add_resharing_result_log call_hook_log rollback_retirement_log
  rollback_configurations_log commit_configurations_log send_request_vote_log
  send_request_vote_response_log deserialise_entries_log : respects.

(** ** Operations that move the log

    [log_moves s s']: if [s] has a well-formed log and runs crash fault tolerant
    consensus, its log reaches that of [s'] by abstract steps. *)

Definition log_moves (s s' : Aft) : Prop :=
  consensus_type s = CFT -> log_wf (log_of s) ->
  consensus_type s' = CFT /\ rtc log_step (log_of s) (log_of s').

#[export] Instance log_moves_preorder : PreOrder log_moves.
Proof.
  split.
  - intros s Hc _. split; [done|apply rtc_refl].
  - intros s1 s2 s3 H1 H2 Hc Hwf. destruct (H1 Hc Hwf) as [Hc2 H12].
    destruct (H2 Hc2 ltac:(by eapply log_steps_wf)) as [Hc3 H23].
    split; [done|by etransitivity].
Qed.

Lemma keeps_log_moves s s' : keeps_log s s' -> log_moves s s'.
Proof. intros [H1 H2] Hc _. split; [congruence|]. rewrite H1. apply rtc_refl. Qed.

Lemma respects_keeps_moves {A} (m : M A) : respects keeps_log m -> respects log_moves m.
Proof. intros H s. apply keeps_log_moves, H. Qed.
#[export] Hint Resolve respects_keeps_moves : respects.

Lemma log_moves_wf s s' :
  log_moves s s' -> consensus_type s = CFT -> log_wf (log_of s) ->
  consensus_type s' = CFT /\ log_wf (log_of s').
Proof.
  intros H Hc Hwf. destruct (H Hc Hwf) as [Hc' Hs]. split; [done|]. by eapply log_steps_wf.
Qed.

(** Assignments to fields that are not part of the log. *)
Ltac log_leaf := intros; apply keeps_log_moves; repeat case_match; split; reflexivity.
Ltac moves_auto :=
  repeat first [ solve [ eauto with respects ] | respects_step | solve [ log_leaf ] ].

(** From [log_moves s s'] and what is known of [s], what is known of [s']. *)
Ltac log_wf_of H :=
  let Hc := fresh "Hcft" in let Hw := fresh "Hwf" in
  destruct (log_moves_wf _ _ H ltac:(done) ltac:(done)) as [Hc Hw].

(** Follow a chain of [keeps_log] back to the state it started from. *)
Ltac log_chase :=
  repeat match goal with
  | H : keeps_log _ _ |- _ => destruct H
  end;
  repeat match goal with
  | H : log_of ?x = _ |- context [log_of ?x] => rewrite H
  | H : consensus_type ?x = _ |- context [consensus_type ?x] => rewrite H
  end;
  first [done | repeat split; reflexivity].

Section moves.
Context {env : AftEnv}.

Lemma rollback_log idx s :
  let s' := fst (rollback idx s) in
  consensus_type s' = consensus_type s /\
  log_of s' =
    if bool_decide (consensus_type s = CFT) && (idx <? commit_idx (state s)) then log_of s
    else MkLog idx (commit_idx (state s)) (pop_back_above (committable_indices s) idx)
           (take (upper_bound (view_history (state s)) idx) (view_history (state s))).
Proof.
  cbv zeta. pattern (fst (rollback idx s)). apply wp_fst.
  unfold rollback. wp_step. wp_step; [done|].
  do 3 aft_step. apply wp_on_view_history_bind, wp_modify. aft_step.
  wp_call keeps_log as s1 H1; [wp_call keeps_log as s2 H2|]; log_chase.
Qed.

Lemma rollback_moves idx s : idx <= last_idx (state s) -> log_moves s (fst (rollback idx s)).
Proof.
  intros Hidx. destruct (rollback_log idx s) as [H1 H2]. intros Hc Hwf.
  split; [congruence|]. rewrite H2, Hc, bool_decide_eq_true_2 by done. cbn.
  destruct (Z.ltb_spec idx (commit_idx (state s))); [apply rtc_refl|].
  apply rtc_once, (log_rollback (log_of s)). cbn. lia.
Qed.

Lemma commit_log idx s :
  let s' := fst (commit idx s) in
  consensus_type s' = consensus_type s /\
  log_of s' =
    if (last_idx (state s) <? idx) || (idx <=? commit_idx (state s)) then log_of s
    else MkLog (last_idx (state s)) idx (committable_indices s) (view_history (state s)).
Proof.
  cbv zeta. pattern (fst (commit idx s)). apply wp_fst.
  unfold commit. wp_step. destruct (last_idx (state s) <? idx) eqn:E1; cbn [orb].
  { by apply wp_throw. }
  wp_step; [by apply wp_ret|]. aft_step.
  wp_call keeps_log as s1 H1; [|log_chase].
  do 2 aft_step. wp_call keeps_log as s2 H2; [|log_chase]. aft_step.
  wp_call keeps_log as s3 H3; [|log_chase].
  wp_call keeps_log as s4 H4; log_chase.
Qed.

Lemma commit_if_possible_moves idx : respects log_moves (commit_if_possible idx).
Proof.
  apply wp_respects. intros s. unfold commit_if_possible. wp_step. wp_step; [|by apply wp_ret].
  destruct (pop_committable (committable_indices s) idx) as [h rest] eqn:E. wp_step.
  destruct h as [h|]; [destruct (consensus_type s) eqn:Hc|].
  - apply (wp_fst (commit h)). destruct (commit_log h (s <| committable_indices := rest |>)) as [H1 H2].
    intros _ Hwf. split; [by rewrite H1|]. rewrite H2. cbn.
    destruct (pop_committable_spec _ _ _ _ (wf_committable_inc _ Hwf) E) as (Hin & _).
    apply (wf_committable_range _ Hwf) in Hin. cbn in Hin.
    destruct (Z.ltb_spec (last_idx (state s)) h), (Z.leb_spec h (commit_idx (state s))); try lia.
    apply rtc_once. by eapply (log_commit (log_of s)).
  - apply wp_ret. congruence.
  - apply wp_ret. intros Hc _. split; [done|]. apply pop_committable_none in E as ->. apply rtc_refl.
Qed.
#[local] Hint Resolve commit_if_possible_moves : respects.

Lemma update_commit_moves : respects log_moves update_commit.
Proof. unfold update_commit, assign_state. moves_auto. Qed.

Lemma last_committable_index_bounds s :
  log_wf (log_of s) ->
  commit_idx (state s) <= last_committable_index s <= last_idx (state s).
Proof.
  intros [Hc _ _ Hr _ _ _]. unfold last_committable_index. cbn in *.
  destruct (last (committable_indices s)) as [i|] eqn:E; [|lia].
  apply last_Some in E as [l E]. specialize (Hr i). rewrite E in Hr.
  specialize (Hr ltac:(apply elem_of_app; right; left)). lia.
Qed.

(** Rolling back to the last committable index. *)
Lemma rollback_committable_moves : respects log_moves (s ← get; rollback (last_committable_index s)).
Proof.
  intros s. cbn. intros Hc Hwf.
  apply rollback_moves; [|done..]. by apply last_committable_index_bounds.
Qed.

Lemma become_follower_moves : respects log_moves become_follower.
Proof.
  unfold become_follower. do 4 (apply respects_bind; [typeclasses eauto|moves_auto|intros _]).
  intros s. pose proof (rollback_committable_moves s) as H. revert H. cbn.
  unfold mbind, ST_bind, get. destruct (rollback _ s) as [s1 [[]|e]]; [|done].
  cbn. intros H. etransitivity; [exact H|]. destruct (_ && _); [|reflexivity].
  apply keeps_log_moves. done.
Qed.
#[local] Hint Resolve update_commit_moves become_follower_moves : respects.

Lemma become_aware_of_new_term_moves term : respects log_moves (become_aware_of_new_term term).
Proof. unfold become_aware_of_new_term, assign_state. moves_auto. Qed.
#[local] Hint Resolve become_aware_of_new_term_moves : respects.

(** A new leader forgets its committable indices and rolls back to the last of
    them; when it is alone it commits its whole log. *)
Lemma become_leader_moves : respects log_moves become_leader.
Proof.
  apply wp_respects. intros s. unfold become_leader. wp_step. wp_step; [by apply wp_ret|].
  do 2 aft_step.
  set (s1 := _ <| committable_indices := [] |>).
  assert (H1 : log_moves s s1).
  { intros Hc _. split; [done|]. apply rtc_once, (log_forget_committable (log_of s)). }
  apply wp_bind. eapply (wp_mono _ (fun _ s' => log_moves s s' /\ committable_indices s' = [])
    _ (fun _ s' => log_moves s s' /\ committable_indices s' = []));
    [| |by intros _ ? [? _]].
  { destruct (0 <? _); [|apply wp_modify; by split; [etransitivity; [exact H1|log_leaf]|]].
    apply wp_fst. destruct (rollback_log (last_committable_index s) s1) as [Hr1 Hr2].
    split.
    - intros Hc Hwf. apply (transitivity H1); [|done..].
      apply rollback_moves, (last_committable_index_bounds s Hwf).
    - apply (f_equal lg_committable) in Hr2. cbn in Hr2. rewrite Hr2. by destruct (_ && _). }
  intros _ s2 [H2 Hnil]. do 3 aft_step. wp_step. wp_call keeps_log as s3 H3.
  2: { etransitivity; [exact H2|]. apply keeps_log_moves. by etransitivity; [|exact H3]. }
  assert (H23 : keeps_log s2 s3) by (by etransitivity; [|exact H3]). clear H3.
  wp_step. wp_step.
  - apply wp_fst. destruct (commit_log (last_idx (state s3)) s3) as [Hc1 Hc2].
    etransitivity; [exact H2|]. etransitivity; [apply keeps_log_moves, H23|].
    intros Hc Hwf. split; [congruence|]. rewrite Hc2, Z.ltb_irrefl. cbn.
    destruct (_ <=? _); [apply rtc_refl|].
    assert (Hn : committable_indices s3 = []).
    { destruct H23 as [E _]. apply (f_equal lg_committable) in E. cbn in E. congruence. }
    rewrite Hn. apply rtc_once, (log_commit_last (log_of s3)). done.
  - wp_call keeps_log as s4 H4;
      (etransitivity; [exact H2|]; apply keeps_log_moves; by etransitivity).
Qed.
#[local] Hint Resolve become_leader_moves : respects.

Lemma add_vote_for_me_moves from : respects log_moves (add_vote_for_me from).
Proof. unfold add_vote_for_me. moves_auto. Qed.
#[local] Hint Resolve add_vote_for_me_moves : respects.

Lemma become_candidate_moves : respects log_moves become_candidate.
Proof. unfold become_candidate, assign_state. moves_auto. Qed.
#[local] Hint Resolve become_candidate_moves : respects.

Lemma periodic_moves elapsed : respects log_moves (periodic elapsed).
Proof. unfold periodic. moves_auto. Qed.

Lemma recv_request_vote_moves from r : respects log_moves (recv_request_vote from r).
Proof. unfold recv_request_vote. moves_auto. Qed.

Lemma recv_request_vote_response_moves from r : respects log_moves (recv_request_vote_response from r).
Proof. unfold recv_request_vote_response. moves_auto. Qed.

Lemma recv_append_entries_response_moves from r :
  respects log_moves (recv_append_entries_response from r).
Proof. unfold recv_append_entries_response. moves_auto. Qed.

(** ** Receiving append entries *)

Lemma view_update_moves idx view s :
  1 <= idx <= Z.max 1 (last_idx (state s)) ->
  log_moves s (fst (on_view_history (ViewHistory.update idx view) s)).
Proof.
  intros Hidx Hc Hwf. unfold on_view_history. rewrite ViewHistory.update_eq.
  destruct (from_option _ _ _) eqn:E; (split; [done|]); cbn; [apply rtc_refl|].
  apply rtc_once, (log_view (log_of s)); [|done]. cbn.
  destruct (last (view_history (state s))) as [b|] eqn:Hb; cbn in E.
  - eapply ViewHistory.all_le_mono; [|eapply ascending_last_all_le; [|exact Hb]]; [lia|].
    apply Hwf.
  - apply last_None in Hb as ->. by intros ? ?%elem_of_nil.
Qed.

Lemma commit_if_possible_last idx s :
  last_idx (state (fst (commit_if_possible idx s))) = last_idx (state s).
Proof.
  pattern (fst (commit_if_possible idx s)). apply wp_fst. unfold commit_if_possible.
  wp_step. wp_step; [|by apply wp_ret]. destruct (pop_committable _ _) as [h rest]. wp_step.
  destruct h as [h|]; [destruct (consensus_type s)|]; [|by apply wp_ret..].
  apply wp_fst. destruct (commit_log h (s <| committable_indices := rest |>)) as [_ H].
  apply (f_equal lg_last) in H. cbn in H. rewrite H. by destruct (_ || _).
Qed.

(** [l] holds the entries of consecutive indices starting at [n]. *)
Definition consecutive {A} (n : Z) (l : list (A * Z)) : Prop :=
  forall k x, l !! k = Some x -> snd x = n + Z.of_nat k /\ snd x <= u64_max.

Lemma consecutive_snoc {A} n (l : list (A * Z)) x :
  consecutive n l -> snd x = n + Z.of_nat (length l) -> snd x <= u64_max ->
  consecutive n (l ++ [x]).
Proof.
  intros Hl Hx Hmax k y [Hy|[Hk Hy]]%lookup_app_Some; [by apply Hl|].
  apply list_lookup_singleton_Some in Hy as [Hk' <-]. split; [|done]. rewrite Hx. lia.
Qed.

Lemma consecutive_cons {A} n (x : A * Z) l :
  consecutive n (x :: l) -> (snd x = n /\ n <= u64_max) /\ consecutive (n + 1) l.
Proof.
  intros H. split; [destruct (H 0%nat x eq_refl); lia|].
  intros k y Hy. destruct (H (S k) y Hy). lia.
Qed.

Lemma consecutive_nil {A} n : consecutive n ([] : list (A * Z)).
Proof. by intros ? ?. Qed.

(** What append entries message fields hold: 64-bit indices, the last of which
    is not the largest. *)
Definition ae_wf (r : AppendEntries) : Prop :=
  0 <= ae_prev_idx r <= u64_max /\ ae_idx r < u64_max.

(** The entries to execute follow the log and reach the end of the batch. *)
Lemma deserialise_entries_spec fuel from r i data acc s :
  ae_wf r -> consecutive (last_idx (state s) + 1) acc -> 0 <= i ->
  (acc = [] /\ i <= last_idx (state s) + 1) \/
    i = last_idx (state s) + 1 + Z.of_nat (length acc) ->
  wp (deserialise_entries fuel from r i data acc)
    (fun o s' => keeps_log s s' /\ forall l, o = Some l ->
       consecutive (last_idx (state s) + 1) l /\
       ae_idx r <= last_idx (state s) + Z.of_nat (length l))
    (fun _ s' => keeps_log s s') s.
Proof.
  intros [_ Hmax]. revert i data acc.
  induction fuel as [|fuel IH]; intros i data acc Hacc H0 Hi; cbn [deserialise_entries];
    (destruct (Z.ltb_spec (ae_idx r) i);
      [apply wp_ret; split; [done|]; intros l [= <-]; split; [done|];
       destruct Hi as [[-> ?]| ->]; cbn; lia|]).
  { apply wp_throw. done. }
  assert (Hu : u64 (i + 1) = i + 1) by u64_lia.
  wp_step. wp_step.
  - destruct (env_skip_entry data) as [data'|]; [|by apply wp_throw].
    rewrite Hu. apply IH; [done|lia|]. left.
    destruct Hi as [[-> ?]| ->]; [split; [done|lia]|lia].
  - destruct (env_get_entry data) as [[entry data']|];
      [destruct (env_store_apply _ _ _ _) as [ds|]|].
    + rewrite Hu. apply IH; [|lia|right].
      * apply consecutive_snoc; [done| |cbn; lia]. cbn.
        destruct Hi as [[-> ?]| ->]; cbn; lia.
      * rewrite length_app. cbn. destruct Hi as [[-> ?]| ->]; cbn; lia.
    + wp_call keeps_log as s1 H1; [by apply wp_ret|done].
    + wp_call keeps_log as s1 H1; [by apply wp_ret|done].
Qed.

Lemma on_view_history_last {A} (m : ST (list Z) A) s :
  last_idx (state (fst (on_view_history m s))) = last_idx (state s).
Proof. unfold on_view_history. by destruct (m _). Qed.

(** Run a computation that is known by the state it leaves. *)
Lemma wp_fst_bind {A B} (m : M A) (f : A -> M B) (P : Aft -> Prop) Q E s :
  P (fst (m s)) -> (forall a s', P s' -> wp (f a) Q E s') -> (forall e s', P s' -> E e s') ->
  wp (m ≫= f) Q E s.
Proof.
  intros HP HQ HE. apply wp_bind. eapply wp_mono; [by apply wp_fst, HP|auto..].
Qed.

(** The view recorded for a signature received in an append entries message,
    and the commit that follows it. *)
Lemma signature_view_moves r term s :
  ae_wf r -> ae_prev_idx r < last_idx (state s) -> last_idx (state s) <= u64_max ->
  wp (if term =? 0 then skip
      else on_view_history
             (if ae_term_of_idx r =? ViewHistory.InvalidView
              then ViewHistory.update 1 (ae_term r)
              else ViewHistory.update (u64 (ae_prev_idx r + 1)) term);;
           commit_if_possible (ae_leader_commit_idx r))
    (fun _ s' => log_moves s s' /\ last_idx (state s') = last_idx (state s))
    (fun _ s' => log_moves s s' /\ last_idx (state s') = last_idx (state s)) s.
Proof.
  intros [[Hp0 _] _] Hprev Hmax. destruct (term =? 0); [by apply wp_ret|].
  eapply (wp_fst_bind _ _ (fun s' => log_moves s s' /\ last_idx (state s') = last_idx (state s))).
  - split; [|apply on_view_history_last].
    destruct (_ =? _); apply view_update_moves; [lia|]. u64_lia.
  - intros _ s1 [H1 E1]. apply wp_fst. split.
    + etransitivity; [exact H1|]. apply commit_if_possible_moves.
    + by rewrite commit_if_possible_last.
  - done.
Qed.

(** Executing the entry that follows the log appends it. *)
Lemma execute_entry_spec from r ds i s :
  ae_wf r -> consensus_type s = CFT -> log_wf (log_of s) ->
  ae_prev_idx r <= last_idx (state s) -> i = last_idx (state s) + 1 -> i <= u64_max ->
  wp (execute_entry from r ds i)
    (fun b s' => log_moves s s' /\ (b = true -> last_idx (state s') = i))
    (fun _ s' => log_moves s s') s.
Proof.
  intros Hr Hcft Hwf Hprev Hi Hmax. unfold execute_entry. wp_step. aft_step.
  destruct (bool_decide _).
  { aft_step. wp_call keeps_log as s1 H1; [apply wp_ret|]; [split; [|done]|];
      (apply keeps_log_moves; by etransitivity; [|exact H1]). }
  aft_step. set (s1 := set_state last_idx i _).
  set (J := fun s' => log_moves s s' /\ last_idx (state s') = i /\
    committable_indices s' = committable_indices s /\ commit_idx (state s') = commit_idx (state s)).
  assert (H1 : J s1).
  { split; [|done]. intros _ _. split; [done|]. subst i.
    apply rtc_once, (log_append (log_of s)). cbn. lia. }
  assert (Hkeep : forall s2 s3, keeps_log s2 s3 -> J s2 -> J s3).
  { intros s2 s3 Hk (J1 & J2 & J3 & J4). split; [by etransitivity; [|apply keeps_log_moves]|].
    destruct Hk as [Hk _]. injection Hk as -> -> ->. done. }
  clearbody s1. wp_call keeps_log as s2 H2; apply Hkeep in H2; try done; [|by apply H2].
  wp_call keeps_log as s3 H3; apply Hkeep in H3; try done; [|by apply H3].
  wp_call keeps_log as s4 H4; apply Hkeep in H4; try done; [|by apply H4].
  assert (Hpush : forall s5, J s5 ->
    log_moves s (s5 <| committable_indices := committable_indices s5 ++ [i] |>)).
  { intros s5 (J1 & <- & J3 & J4). etransitivity; [exact J1|]. intros Hc _. split; [done|].
    apply rtc_once, (log_mark_committable (log_of s5)); cbn; rewrite ?J3, ?J4.
    - pose proof (wf_commit _ Hwf). cbn in *. lia.
    - intros x Hx%(wf_committable_range _ Hwf). cbn in *. lia. }
  destruct (ex_result _);
    try solve [repeat wp_step; first [apply H4 | split; [apply H4|intros _; apply H4]]].
  do 2 wp_step. wp_step. wp_call keeps_log as s5 H5; apply Hkeep in H5; try done; [|by apply H5].
  wp_step. wp_step. apply wp_bind. pose proof (Hpush _ H5) as H6. destruct H5 as (_ & H5 & _).
  eapply wp_mono; [apply (signature_view_moves r (ex_term (ds (trace s))))|..]; cbn.
  - done.
  - lia.
  - lia.
  - intros _ s' [Hm Hl]. split; [by etransitivity|congruence].
  - intros _ s' [Hm _]. by etransitivity.
Qed.

Lemma execute_append_entries_finish_moves r from s :
  consensus_type s = CFT -> log_wf (log_of s) -> ae_idx r <= last_idx (state s) ->
  log_moves s (fst (execute_append_entries_finish r from s)).
Proof.
  intros Hcft Hwf Hidx.
  pattern (fst (execute_append_entries_finish r from s)). apply wp_fst.
  unfold execute_append_entries_finish.
  eapply (wp_fst_bind _ _ (fun s' => log_moves s s' /\ last_idx (state s') = last_idx (state s)));
    [by split; [apply commit_if_possible_moves|apply commit_if_possible_last]| |by intros _ ? [? _]].
  intros _ s1 [H1 E1]. wp_step. log_wf_of H1.
  eapply (wp_fst_bind _ _ (log_moves s)); [|intros _ s2 H2|done].
  - etransitivity; [exact H1|].
    pose proof (last_committable_index_bounds s1 Hwf0). pose proof (wf_commit _ Hwf0).
    pose proof (wf_last _ Hwf0). cbn in *.
    destruct (_ =? _); [apply view_update_moves; lia|].
    destruct (Z.ltb_spec (last_committable_index s1) (ae_idx r)); [|reflexivity].
    apply view_update_moves. u64_lia.
  - wp_call keeps_log as s3 H3; (etransitivity; [exact H2|by apply keeps_log_moves]).
Qed.

Lemma execute_append_entries_sync_moves l from r s :
  ae_wf r -> consensus_type s = CFT -> log_wf (log_of s) ->
  ae_prev_idx r <= last_idx (state s) ->
  consecutive (last_idx (state s) + 1) l ->
  ae_idx r <= last_idx (state s) + Z.of_nat (length l) ->
  log_moves s (fst (execute_append_entries_sync l from r s)).
Proof.
  intros Hr. revert s. induction l as [|[ds i] l IH]; intros s Hcft Hwf Hprev Hl Hidx;
    cbn [execute_append_entries_sync].
  { cbn in Hidx. apply execute_append_entries_finish_moves; [done..|lia]. }
  apply consecutive_cons in Hl as [[Hi Hmax] Hl]. cbn in Hi.
  match goal with |- log_moves s (fst (?m s)) => pattern (fst (m s)) end.
  apply wp_fst, wp_bind. eapply wp_mono; [by apply execute_entry_spec; [..|lia]| |done].
  intros b s1 [H1 E1]. log_wf_of H1. destruct b; [|by apply wp_ret].
  specialize (E1 eq_refl). apply wp_fst. etransitivity; [exact H1|].
  rewrite <- Hi, <- E1 in Hl. cbn in Hidx. apply IH; [done..|lia|done|lia].
Qed.

(** A computation whose effect on the log is shown from a well-formed one. *)
Lemma wp_log_moves {A} (m : M A) s :
  (consensus_type s = CFT -> log_wf (log_of s) ->
     wp m (fun _ => log_moves s) (fun _ => log_moves s) s) ->
  log_moves s (fst (m s)).
Proof. intros H Hc Hwf. specialize (H Hc Hwf). apply wp_fst in H. by apply H. Qed.

Lemma deserialise_execute_moves from r data s :
  ae_wf r -> ae_prev_idx r <= last_idx (state s) ->
  log_moves s (fst ((l ← deserialise_entries (S (length data)) from r
      (u64 (ae_prev_idx r + 1)) data [];
    match l with
    | None => skip
    | Some l => execute_append_entries_sync l from r
    end) s)).
Proof.
  intros Hr Hprev. apply wp_log_moves. intros Hc Hwf. apply wp_bind.
  pose proof (wf_last _ Hwf) as Hmax. cbn in Hmax. pose proof (u64_range (ae_prev_idx r + 1)).
  eapply wp_mono; [apply deserialise_entries_spec| |].
  - done.
  - apply consecutive_nil.
  - lia.
  - left. split; [done|]. destruct Hr as [? _].
    destruct (decide (ae_prev_idx r = u64_max)) as [->|]; [|u64_lia].
    replace (u64 (u64_max + 1)) with 0 by done. unfold u64_max, u64_modulus. lia.
  - intros [l|] s1 [H1 Hl]; [|by apply wp_ret, keeps_log_moves].
    destruct (Hl l eq_refl) as [Hcons Hlen]. apply wp_fst.
    etransitivity; [by apply keeps_log_moves|].
    destruct (log_moves_wf _ _ (keeps_log_moves _ _ H1) Hc Hwf) as [Hc1 Hwf1].
    destruct H1 as [E _]. apply (f_equal lg_last) in E. cbn in E. rewrite <- E in *.
    by apply execute_append_entries_sync_moves.
  - intros _ s1 [H1 ?]. by apply keeps_log_moves.
Qed.

Lemma rollback_last idx s :
  last_idx (state (fst (rollback idx s))) = last_idx (state s) \/
  last_idx (state (fst (rollback idx s))) = idx.
Proof.
  destruct (rollback_log idx s) as [_ H]. apply (f_equal lg_last) in H. cbn in H. rewrite H.
  destruct (_ && _); auto.
Qed.

Lemma append_entries_accepted_moves from r data :
  ae_wf r -> respects log_moves (append_entries_accepted from r data).
Proof.
  intros Hr. apply wp_respects. intros s0. unfold append_entries_accepted.
  wp_call keeps_log as s1 H1; apply keeps_log_moves in H1; [|done]. do 2 wp_step.
  set (s2 := s1 <| leader_id := Some from |>).
  assert (H2 : log_moves s0 s2) by (etransitivity; [exact H1|by apply keeps_log_moves]).
  clearbody s2. clear H1 s1.
  wp_step; [by apply wp_ret|]. wp_step; [by apply wp_ret|].
  eapply (wp_fst_bind _ _ (fun s' => log_moves s2 s' /\ ae_prev_idx r <= last_idx (state s'))).
  - apply (wp_fst _ (fun s' => log_moves s2 s' /\ ae_prev_idx r <= last_idx (state s'))).
    wp_step; [|by apply wp_ret; split; [|lia]].
    eapply (wp_fst_bind _ _ (fun s' => log_moves s2 s' /\ ae_prev_idx r <= last_idx (state s'))).
    + destruct (Z.ltb_spec (ae_prev_idx r) (last_idx (state s2))); [|by split; [|cbn; lia]].
      split; [apply rollback_moves; lia|]. destruct (rollback_last (ae_prev_idx r) s2); lia.
    + intros _ s3 [H3 ?]. apply wp_modify. split; [|done].
      etransitivity; [exact H3|by apply keeps_log_moves].
    + done.
  - intros _ s3 [H3 Hp]. apply wp_fst. etransitivity; [exact H2|]. etransitivity; [exact H3|].
    by apply deserialise_execute_moves.
  - intros _ s3 [H3 _]. by etransitivity.
Qed.

Lemma recv_append_entries_moves from r data :
  ae_wf r -> respects log_moves (recv_append_entries from r data).
Proof.
  intros Hr. pose proof (append_entries_accepted_moves from r data Hr).
  unfold recv_append_entries. moves_auto.
Qed.
(** ** Replicating local entries *)

(** Bookkeeping after an entry is appended. *)
Lemma replicate_sent_log : respects keeps_log (
  s ← get;
  (if append_entries_size_limit <=? entry_size_not_limited s then
     update_batch_size;;
     entry_count <~ 0;;
     entry_size_not_limited <~ 0;;
     send_append_entries_to_all
   else skip);;
  mret true).
Proof. respects_auto. Qed.

(** The committable index is recorded before the entry is appended; together
    they append and mark. *)
Lemma replicate_append_moves index s s1 :
  index = last_idx (state s) + 1 -> index <= u64_max ->
  consensus_type s1 = consensus_type s ->
  log_of s1 = MkLog index (commit_idx (state s)) (committable_indices s) (view_history (state s)) \/
  log_of s1 = MkLog index (commit_idx (state s)) (committable_indices s ++ [index])
                (view_history (state s)) ->
  log_moves s s1.
Proof.
  intros -> Hmax Ht Hlog Hc Hwf. split; [congruence|].
  eapply rtc_l; [apply (log_append (log_of s)); cbn; lia|]. cbn.
  destruct Hlog as [->| ->]; [apply rtc_refl|].
  apply rtc_once, log_mark_committable; cbn.
  - pose proof (wf_commit _ Hwf). cbn in *. lia.
  - intros x Hx%(wf_committable_range _ Hwf). cbn in *. lia.
Qed.

Definition marked (s s' : Aft) (index : Z) : Prop :=
  consensus_type s' = consensus_type s /\
  (log_of s' = log_of s \/
   log_of s' = MkLog (last_idx (state s)) (commit_idx (state s))
     (committable_indices s ++ [index]) (view_history (state s))).

Lemma replicate_mark_spec e s :
  wp (if be_globally_committable e then
         s ← get;
         (if is_retired s && bool_decide (retirement_phase s = Some Ordered)
          then become_retired (be_index e) Signed else skip);;
         modify (fun s => s <| committable_indices := committable_indices s ++ [be_index e] |>);;
         start_ticking_if_necessary
       else skip)
     (fun _ s' => marked s s' (be_index e)) (fun _ s' => log_moves s s') s.
Proof.
  wp_step; [|by apply wp_ret; split; [|left]].
  wp_step. wp_call keeps_log as s1 H1; [|by apply keeps_log_moves].
  wp_step. unfold start_ticking_if_necessary, start_ticking.
  destruct H1 as [Hlog Ht]. injection Hlog as E1 E2 E3 E4.
  wp_step. wp_step; repeat wp_step; (split; [done|right]); cbn; unfold log_of; cbn; congruence.
Qed.

Lemma replicate_entry_moves e : be_index e <> 0 -> respects log_moves (replicate_entry e).
Proof.
  intros Hne s. apply wp_log_moves. intros Hc Hwf. unfold replicate_entry. wp_step.
  destruct (Z.eqb_spec (be_index e) (u64 (last_idx (state s) + 1))) as [Hi|];
    [|by apply wp_ret].
  pose proof (wf_last _ Hwf) as Hl. pose proof (wf_commit _ Hwf) as H0. cbn in Hl, H0.
  assert (Hmax : last_idx (state s) <> u64_max).
  { intros E. apply Hne. rewrite Hi, E. done. }
  rewrite u64_small in Hi by u64_lia. cbn [negb].
  destruct (retirement_committable_idx s).
  { wp_call keeps_log as s1 H1; [apply wp_ret|]; by apply keeps_log_moves. }
  wp_call keeps_log as s1 H1; [|by apply keeps_log_moves].
  destruct H1 as [Hlog Ht]. injection Hlog as E1 E2 E3 E4.
  apply wp_bind. eapply wp_mono; [apply replicate_mark_spec| |].
  2: { intros ? s2 H2. etransitivity; [|exact H2]. apply keeps_log_moves.
       split; [|done]. unfold log_of. congruence. }
  intros ? s2 [Ht2 H2]. aft_step. set (s3 := set_state last_idx _ s2).
  assert (H3 : log_moves s s3).
  { eapply (replicate_append_moves (be_index e)); [done|lia|by rewrite <- Ht, <- Ht2|].
    unfold log_of, s3 in *; cbn in *. destruct H2 as [H2|H2]; injection H2 as _ ? ? ?;
    [left|right]; congruence. }
  assert (E : last_idx (state s3) = be_index e) by done.
  clearbody s3. wp_step. do 3 aft_step.
  set (s4 := _ <| entry_count := _ |>).
  assert (H4 : log_moves s s4 /\ last_idx (state s4) = be_index e).
  { split; [|done]. etransitivity; [exact H3|by apply keeps_log_moves]. }
  clearbody s4.
  eapply (wp_fst_bind _ _ (log_moves s)); [|intros _ s5 H5|done].
  - etransitivity; [apply H4|]. apply view_update_moves. destruct H4 as [_ ->]. lia.
  - eapply (wp_call keeps_log); [apply replicate_sent_log|..];
      intros _ s6 H6; (etransitivity; [exact H5|by apply keeps_log_moves]).
Qed.

Lemma replicate_moves entries term :
  Forall (fun e => be_index e <> 0) entries -> respects log_moves (replicate entries term).
Proof.
  intros He. assert (Hes : respects log_moves (replicate_entries entries)).
  { induction He as [|e entries He _ IH]; cbn [replicate_entries]; [moves_auto|].
    pose proof (replicate_entry_moves e He). moves_auto. }
  intros s. apply wp_log_moves. intros Hc Hwf. unfold replicate. wp_step. wp_step.
  - eapply (wp_fst_bind _ _ (log_moves s)); [by apply rollback_moves| |done].
    intros _ s1 H1. by apply wp_ret.
  - wp_step; [by apply wp_ret|]. by apply respects_wp.
Qed.

(** ** Messages and the other entry points *)

Lemma recv_message_moves from data :
  (forall tr r rest, env_recv_append_entries tr from data = Some (r, rest) -> ae_wf r) ->
  respects log_moves (recv_message from data).
Proof.
  intros Hae. unfold recv_message, recv_or_drop.
  pose proof recv_append_entries_response_moves. pose proof recv_request_vote_moves.
  pose proof recv_request_vote_response_moves.
  destruct (snd (peek 8 data)); [|moves_auto].
  apply respects_bind; [typeclasses eauto|moves_auto|intros s].
  apply respects_catch; [typeclasses eauto| |moves_auto].
  destruct (_ =? _); [|moves_auto].
  destruct (env_recv_append_entries (trace s) from data) as [[r rest]|] eqn:E; [|moves_auto].
  by eapply recv_append_entries_moves, Hae.
Qed.
End moves.
