(* ===== verification/RaftNode.v ===== *)
(** Runs of a consensus node: its public operations as a type of inputs, the
    ways it is started, and what holds of its log throughout every run. *)

From S2P Require Import Prelude Serialized Views RaftTypes Raft RaftWire RaftLog.

(** The public operations of [Aft] that change its state. *)
Inductive Op :=
| OpRecvMessage (from : NodeId) (data : bytes)
| OpPeriodic (elapsed : Z)
| OpReplicate (entries : list BatchEntry) (term : Z)
| OpAddConfiguration (idx : Z) (conf : Nodes) (learners retired : gset NodeId)
| OpAddResharingResult (seqno rid : Z) (result : ResharingResult)
| OpOrc (rid : Z) (node_id : NodeId)
| OpForceBecomePrimary
| OpGetSignableTxid
| OpStartTicking
| OpResetLastAckTimeouts
| OpEnableAllDomains
| OpUpdateParameters (type : ReconfigurationType).

Section node.
Context {env : AftEnv}.

Definition perform (op : Op) (s : Aft) : Aft :=
  match op with
  | OpRecvMessage from data => fst (recv_message from data s)
  | OpPeriodic elapsed => fst (periodic elapsed s)
  | OpReplicate entries term => fst (replicate entries term s)
  | OpAddConfiguration idx conf learners retired =>
      fst (add_configuration idx conf learners retired s)
  | OpAddResharingResult seqno rid result => fst (add_resharing_result seqno rid result s)
  | OpOrc rid node_id => fst (orc rid node_id s)
  | OpForceBecomePrimary => fst (force_become_primary s)
  | OpGetSignableTxid => fst (get_signable_txid s)
  | OpStartTicking => fst (start_ticking s)
  | OpResetLastAckTimeouts => fst (reset_last_ack_timeouts s)
  | OpEnableAllDomains => fst (enable_all_domains s)
  | OpUpdateParameters type => fst (update_parameters type s)
  end.

Definition run (ops : list Op) (s : Aft) : Aft := foldl (flip perform) s ops.

(** What the callers of a node respect: append entries messages hold 64-bit
    indices below the largest one, and no transaction has sequence number 0. *)
Definition op_ok (op : Op) : Prop :=
  match op with
  | OpRecvMessage from data =>
      forall tr r rest, env_recv_append_entries tr from data = Some (r, rest) -> ae_wf r
  | OpReplicate entries _ => Forall (fun e => be_index e <> 0) entries
  | _ => True
  end.

(** How a CFT node starts: from scratch, from a snapshot or another node's
    history, or as the primary that recovers a service. *)
Inductive node_start : Aft -> Prop :=
| start_new me rt et tr nc po ms rc s :
    make_aft CFT me rt et tr nc po ms rc = Some s -> node_start s
| start_as_backup me rt et tr nc po ms rc s index term history recovery :
    make_aft CFT me rt et tr nc po ms rc = Some s ->
    0 <= index <= u64_max -> ascending history -> all_ge history 1 ->
    all_le history (Z.max 1 index) ->
    node_start (fst (init_as_backup index term history recovery s))
| start_as_primary me rt et tr nc po ms rc s index term terms commit :
    make_aft CFT me rt et tr nc po ms rc = Some s ->
    0 <= commit <= index -> 1 <= index <= u64_max -> ascending terms -> all_ge terms 1 ->
    all_le terms index ->
    node_start (fst (force_become_primary_at index term terms commit s)).

Lemma perform_moves op : op_ok op -> forall s, log_moves s (perform op s).
Proof.
  intros Hok s. destruct op; cbn [perform].
  - by apply recv_message_moves.
  - apply periodic_moves.
  - by apply replicate_moves.
  - apply respects_keeps_moves, add_configuration_log.
  - apply respects_keeps_moves, add_resharing_result_log.
  - apply respects_keeps_moves. unfold orc. respects_auto.
  - pose proof become_leader_moves.
    revert s. change (respects log_moves force_become_primary).
    unfold force_become_primary, assign_state. moves_auto.
  - apply respects_keeps_moves. unfold get_signable_txid. respects_auto.
  - apply respects_keeps_moves. unfold start_ticking. respects_auto.
  - apply respects_keeps_moves, reset_last_ack_timeouts_log.
  - apply respects_keeps_moves. unfold enable_all_domains. respects_auto.
  - apply respects_keeps_moves. unfold update_parameters. respects_auto.
Qed.

Lemma run_moves ops s : Forall op_ok ops -> log_moves s (run ops s).
Proof.
  intros Hops. revert s. induction Hops as [|op ops Hop _ IH]; intros s; cbn; [reflexivity|].
  etransitivity; [by apply perform_moves|apply IH].
Qed.

Lemma new_aft_wf me rt et tr nc po ms rc s :
  make_aft CFT me rt et tr nc po ms rc = Some s ->
  consensus_type s = CFT /\ log_wf (log_of s) /\ leader_id s = None /\
  committable_indices s = [].
Proof.
  unfold make_aft. cbn. intros [= <-]. split; [done|]. split; [|done].
  constructor; cbn; try done; try apply increasing_nil; try apply ascending_nil;
    by intros ? ?%elem_of_nil.
Qed.

Lemma wp_initialise_bind {B} terms (f : unit -> M B) Q E s :
  ascending terms -> wp (f tt) Q E (set_state view_history terms s) ->
  wp (on_view_history (ViewHistory.initialise terms) ≫= f) Q E s.
Proof.
  intros Ha H. apply wp_on_view_history_bind. unfold wp.
  by rewrite ViewHistory.initialise_ok.
Qed.

(** A log that is set up from outside. *)
Lemma started_wf index commit terms :
  0 <= commit <= index -> index <= u64_max -> ascending terms -> all_ge terms 1 ->
  all_le terms (Z.max 1 index) -> log_wf (MkLog index commit [] terms).
Proof.
  intros. constructor; cbn; try done; try apply increasing_nil; by intros ? ?%elem_of_nil.
Qed.

Lemma wp_moves_wf {A} (m : M A) s :
  respects log_moves m -> consensus_type s = CFT -> log_wf (log_of s) ->
  wp m (fun _ s => consensus_type s = CFT /\ log_wf (log_of s))
       (fun _ s => consensus_type s = CFT /\ log_wf (log_of s)) s.
Proof. intros Hm Hc Hwf. apply wp_fst. eapply log_moves_wf; [apply Hm|done..]. Qed.

Lemma node_start_wf s : node_start s -> consensus_type s = CFT /\ log_wf (log_of s).
Proof.
  intros [me rt et tr nc po ms rc s0 H|me rt et tr nc po ms rc s0 index term history ri H Hi Ha Hg Hl
    |me rt et tr nc po ms rc s0 index term terms commit H Hc Hi Ha Hg Hl].
  - by apply new_aft_wf in H as (Hcft & Hwf & _).
  - apply new_aft_wf in H as (Hcft & _ & _ & Hcm).
    apply (wp_fst _ (fun s => consensus_type s = CFT /\ log_wf (log_of s))).
    unfold init_as_backup. do 2 aft_step. apply wp_initialise_bind; [done|]. aft_step.
    apply wp_moves_wf; [apply become_aware_of_new_term_moves|done|].
    unfold log_of. cbn. rewrite Hcm. apply started_wf; [lia|lia|done..].
  - apply new_aft_wf in H as (Hcft & _ & Hl0 & Hcm).
    apply (wp_fst _ (fun s => consensus_type s = CFT /\ log_wf (log_of s))).
    unfold force_become_primary_at. wp_step. rewrite Hl0, bool_decide_false by (by intros []).
    do 3 aft_step. apply wp_initialise_bind; [done|].
    match goal with |- wp (on_view_history ?m ≫= _) _ _ ?x => set (s1 := x) end.
    assert (H1 : consensus_type s1 = CFT /\ log_wf (log_of s1) /\ last_idx (state s1) = index).
    { split; [done|]. split; [|done]. unfold log_of. cbn. rewrite Hcm.
      apply started_wf; [lia|lia|done|done|]. intros y Hy%Hl. lia. }
    clearbody s1. destruct H1 as (Hc1 & Hwf1 & E1).
    eapply (wp_fst_bind _ _ (log_moves s1)); [apply view_update_moves; lia| |].
    + intros _ s2 H2. log_wf_of H2. aft_step.
      by apply wp_moves_wf; [apply become_leader_moves|..].
    + intros _ s2 H2. log_wf_of H2. done.
Qed.
End node.

(** C3: the abstract log is implemented.  Whatever a CFT node is asked and
    whatever its store, ledger and channels answer, from the moment it is
    started its log stays well-formed (the committed index within the log, the
    committable indices strictly increasing between the two, the view history
    sorted within the log), and it evolves only by the steps of the
    specification: append, mark the last entry committable, commit a
    committable entry, roll back to no less than the committed index, record a
    view. *)
Theorem node_refines_log env s ops :
  node_start (env:=env) s -> Forall (op_ok (env:=env)) ops ->
  log_wf (log_of (run (env:=env) ops s)) /\
  rtc log_step (log_of s) (log_of (run (env:=env) ops s)).
Proof.
  intros [Hc Hwf]%node_start_wf Hops. pose proof (run_moves ops s Hops) as H.
  split; [by eapply log_moves_wf|by apply H].
Qed.

(** A single node that becomes primary, replicates three entries, the last of
    which is a signature, and commits them. *)
Definition solo_ops : list Op := [
  OpAddConfiguration 1 {["n0" := MkNodeInfo "h" "p"]} ∅ ∅;
  OpForceBecomePrimary;
  OpReplicate [MkBatchEntry 1 [0; 2; 1] false []; MkBatchEntry 2 [0; 2; 2] false [];
    MkBatchEntry 3 [1; 2; 3] true []] 2;
  OpPeriodic 20].

Lemma node_refines_log_witness :
  log_of (@run sim_env solo_ops (sim_node "n0")) = MkLog 3 3 [] [1; 1] /\
  log_wf (log_of (@run sim_env solo_ops (sim_node "n0"))).
Proof.
  split; [vm_compute; reflexivity|].
  apply (node_refines_log sim_env (sim_node "n0") solo_ops).
  - by eapply (start_new (env:=sim_env) "n0" 10 100 false false false Active ONE_TRANSACTION).
  - repeat constructor; done.
Defined.

Lemma log_steps_commit l l' : rtc log_step l l' -> log_wf l -> lg_commit l <= lg_commit l'.
Proof.
  induction 1 as [|l1 l2 l3 H _ IH]; intros Hwf; [lia|].
  pose proof (log_step_commit _ _ H Hwf). pose proof (IH (log_step_wf _ _ H Hwf)). lia.
Qed.

Lemma run_app {env : AftEnv} ops1 ops2 s : run (ops1 ++ ops2) s = run ops2 (run ops1 s).
Proof. apply foldl_app. Qed.

(** C2: commit is irrevocable.  What a node has committed after some operations
    is still committed, and still in its log, after any further operations. *)
Theorem commit_irrevocable env s ops1 ops2 :
  node_start (env:=env) s -> Forall (op_ok (env:=env)) (ops1 ++ ops2) ->
  commit_idx (state (run (env:=env) ops1 s))
    <= commit_idx (state (run (env:=env) (ops1 ++ ops2) s))
    <= last_idx (state (run (env:=env) (ops1 ++ ops2) s)).
Proof.
  intros [Hc Hwf]%node_start_wf [H1 H2]%Forall_app. rewrite run_app.
  pose proof (run_moves ops1 s H1) as M1. log_wf_of M1.
  pose proof (run_moves ops2 (run ops1 s) H2) as M2. log_wf_of M2.
  split; [|apply Hwf1].
  apply (log_steps_commit (log_of (run ops1 s)) (log_of (run ops2 (run ops1 s)))); [|done].
  by apply M2.
Qed.

Lemma commit_irrevocable_witness :
  commit_idx (state (@run sim_env solo_ops (sim_node "n0"))) = 3 /\
  3 <= commit_idx (state (@run sim_env (solo_ops ++ [OpPeriodic 200; OpPeriodic 200])
          (sim_node "n0"))).
Proof.
  split; [vm_compute; reflexivity|].
  refine (proj1 (commit_irrevocable sim_env (sim_node "n0") solo_ops
    [OpPeriodic 200; OpPeriodic 200] _ _)).
  - by eapply (start_new (env:=sim_env) "n0" 10 100 false false false Active ONE_TRANSACTION).
  - repeat constructor; done.
Defined.
