(* ===== verification/RaftCommit.v ===== *)
(** When a leader commits: the sorted match indices of [update_commit] against
    counting the nodes that have acknowledged an index. *)

From S2P Require Import Prelude Serialized Views RaftTypes Raft RaftWire RaftLog.

(** ** The confirmed index of a list of match indices *)

Lemma StronglySorted_ascending l : StronglySorted Z.le l -> ascending l.
Proof.
  induction 1 as [|x l _ IH Hx]; [apply ascending_nil|].
  intros [|i] [|j] a b Hij Ha Hb; cbn in *; try lia.
  - injection Ha as ->. injection Hb as ->. lia.
  - injection Ha as ->. rewrite Forall_lookup in Hx. by apply (Hx j).
  - by apply (IH i j); [lia|..].
Qed.

(** In an ascending list, the element at [k] decides how many elements are at
    least [y]. *)
Lemma ascending_count l k x y :
  ascending l -> l !! k = Some x ->
  y <= x <-> Z.of_nat (length l) - Z.of_nat k <= Z.of_nat (length (filter (fun z => y <= z) l)).
Proof.
  intros Hs Hx. pose proof (lookup_lt_Some _ _ _ Hx) as Hk. split; intros H.
  - assert (Hf : filter (fun z => y <= z) l =
      filter (fun z => y <= z) (take k l) ++ drop k l).
    { rewrite <- (filter_all (fun z => y <= z) (drop k l)), <- filter_app, take_drop; [done|].
      apply Forall_lookup. intros j z Hz. rewrite lookup_drop in Hz.
      pose proof (Hs k (k + j)%nat x z ltac:(lia) Hx Hz). lia. }
    rewrite Hf, length_app, length_drop. lia.
  - destruct (decide (y <= x)) as [|Hn]; [done|exfalso].
    assert (Hf : filter (fun z => y <= z) l = filter (fun z => y <= z) (drop (S k) l)).
    { rewrite <- (take_drop (S k) l) at 1. rewrite filter_app, (filter_none _ (take (S k) l)); [done|].
      apply Forall_lookup. intros j z [Hz ?]%lookup_take_Some.
      pose proof (Hs j k z x ltac:(lia) Hz Hx). lia. }
    pose proof (length_filter (fun z => y <= z) (drop (S k) l)) as Hle.
    rewrite <- Hf, length_drop in Hle. lia.
Qed.

(** The confirmed index is at least [y] exactly when more than half of the
    match indices are. *)
Lemma confirmed_index_spec l x y :
  Z.of_nat (length l) < u64_modulus -> confirmed_index l = Some x ->
  y <= x <-> Z.of_nat (length l) / 2 + 1 <= Z.of_nat (length (filter (fun z => y <= z) l)).
Proof.
  intros Hlen Hx. unfold confirmed_index in Hx.
  pose proof (StronglySorted_ascending _ (StronglySorted_merge_sort Z.le l)) as Hs.
  pose proof (merge_sort_Permutation Z.le l) as Hp.
  rewrite (ascending_count _ _ _ y Hs Hx).
  assert (Hf : length (filter (fun z => y <= z) (merge_sort Z.le l)) =
               length (filter (fun z => y <= z) l)) by (by rewrite Hp).
  rewrite Hf. apply lookup_lt_Some in Hx.
  rewrite (Permutation_length Hp) in *. rewrite u64_small in * by lia.
  pose proof (Z.div_mod (Z.of_nat (length l)) 2 ltac:(lia)).
  pose proof (Z.mod_pos_bound (Z.of_nat (length l)) 2 ltac:(lia)).
  pose proof (Z.div_mod (Z.of_nat (length l) - 1) 2 ltac:(lia)).
  pose proof (Z.mod_pos_bound (Z.of_nat (length l) - 1) 2 ltac:(lia)).
  lia.
Qed.

(** ** Acknowledgements *)

(** Node [id] is known to hold the log up to [idx]. *)
Definition acknowledges (s : Aft) (id : NodeId) (idx : Z) : bool :=
  if bool_decide (id = my_node_id (state s)) then idx <=? last_idx (state s)
  else from_option (fun n => idx <=? match_idx n) false (nodes s !! id).

Definition acknowledged_by (s : Aft) (c : Configuration) (idx : Z) : Nodes :=
  filter (fun '(id, _) => acknowledges s id idx) (conf_nodes c).

(** A quorum of every active configuration has acknowledged [idx]. *)
Definition majority_acknowledged (s : Aft) (idx : Z) : Prop :=
  forall c, c ∈ configurations s ->
    get_quorum s (map_size (conf_nodes c)) <= map_size (acknowledged_by s c idx).

Lemma map_to_list_filter {A} (P : NodeId * A -> Prop) `{!forall x, Decision (P x)} (m : gmap NodeId A) :
  map_to_list (filter P m) ≡ₚ filter P (map_to_list m).
Proof.
  apply NoDup_Permutation; [apply NoDup_map_to_list|apply NoDup_filter, NoDup_map_to_list|].
  intros [k v]. rewrite elem_of_map_to_list, map_lookup_filter_Some, list_elem_of_filter,
    elem_of_map_to_list. tauto.
Qed.

Lemma match_indices_count s c l idx :
  match_indices s c = Some l ->
  length l = size (conf_nodes c) /\
  length (filter (fun z => idx <= z) l) = size (acknowledged_by s c idx).
Proof.
  unfold match_indices, acknowledged_by. intros H. rewrite <- !length_map_to_list.
  rewrite map_to_list_filter. revert l H.
  induction (map_to_list (conf_nodes c)) as [|[id ni] rest IH]; intros l H; cbn in H.
  { by injection H as <-. }
  apply bind_Some in H as (x & Hx & H). apply bind_Some in H as (l' & Hl' & [= <-]).
  destruct (IH l' Hl') as [IH1 IH2]. split; [cbn; by rewrite IH1|].
  rewrite !filter_cons.
  assert (E : acknowledges s id idx = (idx <=? x)).
  { unfold acknowledges. destruct (bool_decide _); [by injection Hx as ->|].
    destruct (nodes s !! id) as [n|]; [|done]. cbn in *. by injection Hx as <-. }
  repeat case_decide; cbn in *; try (rewrite IH2; done);
    match goal with H : context [acknowledges s id idx] |- _ => rewrite E in H end;
    destruct (Z.leb_spec idx x); cbn in *; tauto || lia.
Qed.

Lemma commit_watermark_spec s cs acc w :
  commit_watermark s cs acc = Some w ->
  w <= acc /\
  forall idx, idx <= w <-> idx <= acc /\
    Forall (fun c => exists l x, match_indices s c = Some l /\ confirmed_index l = Some x /\ idx <= x) cs.
Proof.
  revert acc. induction cs as [|c cs IH]; intros acc H; cbn in H.
  { injection H as ->. split; [lia|]. intros idx. rewrite Forall_nil. tauto. }
  apply bind_Some in H as (l & Hl & H). apply bind_Some in H as (x & Hx & H).
  destruct (IH _ H) as [IH1 IH2].
  split; [destruct (Z.ltb_spec x acc); lia|]. intros idx. rewrite IH2, Forall_cons.
  split.
  - intros [H1 H2]. destruct (Z.ltb_spec x acc); (split; [lia|]); (split; [|done]);
      exists l, x; (split; [done|]); (split; [done|lia]).
  - intros (H1 & (l' & x' & El & Ex & Hle) & H2). split; [|done].
    assert (l' = l) as -> by congruence. assert (x' = x) as -> by congruence.
    destruct (Z.ltb_spec x acc); lia.
Qed.

Lemma commit_watermark_defined s cs acc w c :
  commit_watermark s cs acc = Some w -> c ∈ cs ->
  exists l x, match_indices s c = Some l /\ confirmed_index l = Some x.
Proof.
  revert acc. induction cs as [|c' cs IH]; intros acc H Hin; [by apply elem_of_nil in Hin|].
  cbn in H. apply bind_Some in H as (l & Hl & H). apply bind_Some in H as (x & Hx & H).
  apply elem_of_cons in Hin as [->|Hin]; [by exists l, x|by eapply IH].
Qed.

(** The watermark is at least [idx] exactly when a majority of every active
    configuration acknowledges [idx]. *)
Lemma commit_watermark_majority s w idx :
  consensus_type s = CFT ->
  Forall (fun c => map_size (conf_nodes c) < u64_modulus) (configurations s) ->
  commit_watermark s (configurations s) u64_max = Some w -> idx <= u64_max ->
  idx <= w <-> majority_acknowledged s idx.
Proof.
  intros Hc Hsize Hw Hidx. destruct (commit_watermark_spec _ _ _ _ Hw) as [_ Hspec].
  rewrite Hspec. rewrite Forall_forall in Hsize. unfold majority_acknowledged, get_quorum.
  rewrite Hc. clear Hspec. split.
  - intros [_ Hall] c Hin. rewrite Forall_forall in Hall.
    destruct (Hall c Hin) as (l & x & Hl & Hx & Hle).
    destruct (match_indices_count s c l idx Hl) as [E1 E2]. specialize (Hsize c Hin).
    unfold map_size in *. rewrite <- E1, <- E2 in *. by apply (confirmed_index_spec l x idx).
  - intros Hmaj. split; [done|]. apply Forall_forall. intros c Hin.
    destruct (commit_watermark_defined s (configurations s) u64_max w c Hw Hin) as (l & x & Hl & Hx).
    exists l, x. split; [done|]. split; [done|].
    destruct (match_indices_count s c l idx Hl) as [E1 E2]. specialize (Hsize c Hin).
    specialize (Hmaj c Hin). unfold map_size in *. rewrite <- E1, <- E2 in *.
    by apply (confirmed_index_spec l x idx).
Qed.

(** ** What [update_commit] commits *)

Section commit.
Context {env : AftEnv}.

Lemma pop_committable_some l w x :
  increasing l -> x ∈ l -> x <= w ->
  exists h rest, pop_committable l w = (Some h, rest) /\ x <= h.
Proof.
  intros Hinc Hx Hle. destruct (pop_committable l w) as [[h|] rest] eqn:E.
  - exists h, rest. split; [done|].
    destruct (pop_committable_spec _ _ _ _ Hinc E) as (_ & _ & _ & H4 & H5).
    destruct (H5 x Hx) as [|[_ ?]%H4]; [done|lia].
  - exfalso. destruct l as [|y l]; [by apply elem_of_nil in Hx|]. cbn in E.
    destruct (Z.leb_spec y w) as [|Hy]; [by destruct (pop_committable l w) as [[]]|].
    apply increasing_cons in Hinc as [Hall _].
    apply elem_of_cons in Hx as [->|Hx%Hall]; lia.
Qed.

(** The committed index after [commit_if_possible]. *)
Lemma commit_if_possible_commit idx s :
  consensus_type s = CFT -> log_wf (log_of s) ->
  commit_idx (state (fst (commit_if_possible idx s))) =
  if (commit_idx (state s) <? idx) && (get_term_internal s idx <=? current_view (state s))
  then default (commit_idx (state s)) (fst (pop_committable (committable_indices s) idx))
  else commit_idx (state s).
Proof.
  intros Hc Hwf. pattern (fst (commit_if_possible idx s)). apply wp_fst.
  unfold commit_if_possible. wp_step. wp_step; [|by apply wp_ret].
  destruct (pop_committable _ _) as [[h|] rest] eqn:E; wp_step; [|by apply wp_ret].
  rewrite Hc. apply wp_fst. destruct (commit_log h (s <| committable_indices := rest |>)) as [_ H].
  apply (f_equal lg_commit) in H. cbn in H. rewrite H.
  destruct (pop_committable_spec _ _ _ _ (wf_committable_inc _ Hwf) E) as (Hin & _).
  apply (wf_committable_range _ Hwf) in Hin. cbn in Hin.
  destruct (Z.ltb_spec (last_idx (state s)) h), (Z.leb_spec h (commit_idx (state s))); try lia.
  done.
Qed.

(** Every member of the active configurations is this node or one it tracks, so
    [nodes.at] does not throw. *)
Definition known_members (s : Aft) : Prop :=
  forall c, c ∈ configurations s -> conf_nodes c <> ∅ /\
    forall id, is_Some (conf_nodes c !! id) -> id = my_node_id (state s) \/ is_Some (nodes s !! id).

Lemma match_indices_known s c :
  (forall id, is_Some (conf_nodes c !! id) ->
     id = my_node_id (state s) \/ is_Some (nodes s !! id)) ->
  is_Some (match_indices s c).
Proof.
  intros H. apply mapM_is_Some, Forall_forall. intros [id ni] Hin%elem_of_map_to_list.
  change (is_Some (if bool_decide (id = my_node_id (state s)) then Some (last_idx (state s))
                   else match_idx <$> nodes s !! id)).
  destruct (decide (id = my_node_id (state s))) as [->|Hne].
  - by rewrite bool_decide_true.
  - rewrite bool_decide_false by done. by destruct (H id) as [|[n ->]].
Qed.

Lemma confirmed_index_some l :
  l <> [] -> Z.of_nat (length l) < u64_modulus -> is_Some (confirmed_index l).
Proof.
  intros Hl Hlen. apply lookup_lt_is_Some. rewrite merge_sort_Permutation.
  destruct l as [|x l]; [done|]. rewrite u64_small by (cbn in *; lia).
  pose proof (Z.div_mod (Z.of_nat (length (x :: l)) - 1) 2 ltac:(lia)).
  pose proof (Z.mod_pos_bound (Z.of_nat (length (x :: l)) - 1) 2 ltac:(lia)). cbn in *. lia.
Qed.

Lemma commit_watermark_known s cs acc :
  (forall c, c ∈ cs -> conf_nodes c <> ∅ /\ map_size (conf_nodes c) < u64_modulus /\
    forall id, is_Some (conf_nodes c !! id) ->
      id = my_node_id (state s) \/ is_Some (nodes s !! id)) ->
  is_Some (commit_watermark s cs acc).
Proof.
  revert acc. induction cs as [|c cs IH]; intros acc H; cbn; [done|].
  destruct (H c ltac:(left)) as (Hne & Hsize & Hk).
  destruct (match_indices_known s c Hk) as [l Hl]. rewrite Hl. cbn.
  destruct (match_indices_count s c l 0 Hl) as [E _]. unfold map_size in Hsize.
  destruct (confirmed_index_some l) as [x ->]; cbn.
  - intros ->. apply Hne, map_size_empty_inv. by rewrite <- E.
  - by rewrite E.
  - apply IH. intros c' Hc'. apply H. by right.
Qed.

(** A follower never acknowledges more than the leader's log, so neither does a
    majority. *)
Lemma majority_acknowledged_last s idx :
  consensus_type s = CFT -> configurations s <> [] ->
  (forall id n, nodes s !! id = Some n -> match_idx n <= last_idx (state s)) ->
  majority_acknowledged s idx -> idx <= last_idx (state s).
Proof.
  intros Hc Hne Hmatch Hmaj. destruct (configurations s) as [|c cs] eqn:E; [done|].
  specialize (Hmaj c). rewrite E in Hmaj. specialize (Hmaj ltac:(left)).
  unfold get_quorum, map_size in Hmaj. rewrite Hc in Hmaj.
  destruct (decide (idx <= last_idx (state s))) as [|Hn]; [done|exfalso].
  assert (Ha : acknowledged_by s c idx = ∅).
  { apply map_empty. intros id. apply map_lookup_filter_None. right. intros ni _.
    unfold acknowledges. case_bool_decide; [by apply Is_true_false, Z.leb_gt; lia|].
    destruct (nodes s !! id) as [n|] eqn:En; cbn; [|by intros []].
    specialize (Hmatch id n En). apply Is_true_false, Z.leb_gt. lia. }
  rewrite Ha, map_size_empty in Hmaj.
  match type of Hmaj with ?a / 2 + 1 <= _ =>
    pose proof (Z.div_pos a 2 ltac:(lia) ltac:(lia)); lia end.
Qed.
End commit.

(** C4: a leader commits only what a majority of every active configuration
    holds.  Whenever [update_commit] advances the committed index, the new one
    is a committable index (a signature appended since the node was elected, or
    received), and in every configuration at least a quorum of the nodes, the
    leader's own log included, are known to hold the log up to it. *)
Theorem commit_needs_majority env s :
  consensus_type s = CFT -> log_wf (log_of s) ->
  Forall (fun c => map_size (conf_nodes c) < u64_modulus) (configurations s) ->
  let commit' := commit_idx (state (fst (update_commit (env:=env) s))) in
  commit_idx (state s) < commit' ->
  commit' ∈ committable_indices s /\ majority_acknowledged s commit'.
Proof.
  intros Hc Hwf Hsize. cbv zeta. pattern (fst (update_commit s)). apply wp_fst.
  unfold update_commit. wp_step.
  destruct (commit_watermark s (configurations s) u64_max) as [w|] eqn:Hw; [|apply wp_throw; lia].
  set (s1 := if w =? u64_max then s else set_state cft_watermark_idx w s).
  apply wp_bind. eapply (wp_mono _ (fun _ s' => s' = s1) _ (fun _ _ => False)); [|intros _ ? ->|done].
  { unfold s1. by destruct (w =? u64_max). }
  assert (E1 : commit_idx (state s1) = commit_idx (state s) /\ consensus_type s1 = CFT /\
    log_of s1 = log_of s /\ committable_indices s1 = committable_indices s /\
    (w = u64_max \/ cft_watermark_idx (state s1) = w)).
  { unfold s1. destruct (Z.eqb_spec w u64_max); repeat split; auto. }
  clearbody s1. destruct E1 as (E1 & E2 & E3 & E4 & E5).
  wp_step. wp_step; [apply wp_throw; lia|]. apply wp_fst.
  rewrite commit_if_possible_commit by (rewrite ?E3; done). rewrite E1, E4.
  destruct (_ && _); [|lia].
  destruct (pop_committable _ _) as [[h|] rest] eqn:Hpop; cbn; [|lia]. intros Hlt.
  destruct (pop_committable_spec _ _ _ _ (wf_committable_inc _ Hwf) Hpop) as (Hin & Hle & _).
  split; [done|]. apply (wf_committable_range _ Hwf) in Hin. cbn in Hin.
  pose proof (wf_last _ Hwf) as Hl. cbn in Hl.
  apply (commit_watermark_majority s w h); [done..|lia|].
  unfold get_commit_watermark_idx in Hle. lia.
Qed.

(** C5: a leader commits everything a majority of every active configuration
    holds: after [update_commit], the committed index is at least every
    committable index that a quorum of each configuration is known to hold
    (for a leader that tracks the members of its configurations, whose followers
    have acknowledged no more than its log, and whose recorded views are no
    newer than its own). *)
Theorem majority_commits env s i :
  consensus_type s = CFT -> log_wf (log_of s) -> last_idx (state s) < u64_max ->
  configurations s <> [] -> known_members s ->
  Forall (fun c => map_size (conf_nodes c) < u64_modulus) (configurations s) ->
  (forall id n, nodes s !! id = Some n -> match_idx n <= last_idx (state s)) ->
  Z.of_nat (length (view_history (state s))) <= current_view (state s) ->
  i ∈ committable_indices s -> majority_acknowledged s i ->
  i <= commit_idx (state (fst (update_commit (env:=env) s))).
Proof.
  intros Hc Hwf Hlast Hne Hknown Hsize Hmatch Hviews Hin Hmaj.
  pose proof (wf_committable_range _ Hwf i Hin) as Hi. cbn in Hi.
  destruct (commit_watermark_known s (configurations s) u64_max) as [w Hw].
  { intros c Hcin. destruct (Hknown c Hcin). rewrite Forall_forall in Hsize. auto. }
  assert (Hiw : i <= w) by (apply (commit_watermark_majority s w i); [done..|lia|done]).
  assert (Hwl : w <= last_idx (state s)).
  { apply majority_acknowledged_last; [done..|].
    destruct (commit_watermark_spec _ _ _ _ Hw) as [? _].
    by apply (commit_watermark_majority s w w). }
  pattern (fst (update_commit s)). apply wp_fst. unfold update_commit. wp_step. rewrite Hw.
  destruct (Z.eqb_spec w u64_max); [lia|]. aft_step. wp_step.
  cbn -[commit_if_possible Z.ltb]. rewrite (proj2 (Z.ltb_ge (last_idx (state s)) w)) by lia.
  apply wp_fst. rewrite commit_if_possible_commit by done.
  change (committable_indices (set_state _ _ _)) with (committable_indices s).
  change (commit_idx (state (set_state _ _ _))) with (commit_idx (state s)).
  change (current_view (state (set_state _ _ _))) with (current_view (state s)).
  destruct (pop_committable_some _ w i (wf_committable_inc _ Hwf) Hin Hiw) as (h & rest & Hp & Hh).
  cbn in Hp. rewrite Hp. cbn [fst default from_option].
  assert (Hterm : get_term_internal (set_state cft_watermark_idx w s) w <= current_view (state s)).
  { unfold get_term_internal. cbn.
    pose proof (ViewHistory.view_at_bounds (view_history (state s)) w).
    destruct (_ <? _); [unfold VIEW_UNKNOWN; lia|lia]. }
  destruct (Z.ltb_spec (commit_idx (state s)) w); [|lia].
  apply Z.leb_le in Hterm. rewrite Hterm. done.
Qed.

(** A leader of three nodes whose log ends with a signature at 3, which one
    follower has acknowledged. *)
Definition committing_leader : Aft :=
  let conf := {["n0" := MkNodeInfo "h0" "p"; "n1" := MkNodeInfo "h1" "p";
                "n2" := MkNodeInfo "h2" "p"]} in
  (sim_node "n0") <| leadership_state := Some Leader |>
    <| configurations := [MkConfiguration 1 conf 0 1] |>
    <| nodes := {["n1" := MkNodeState (MkNodeInfo "h1" "p") 3 3 0;
                  "n2" := MkNodeState (MkNodeInfo "h2" "p") 3 0 0]} |>
    <| committable_indices := [1; 3] |>
    <| state := (state (sim_node "n0")) <| last_idx := 3 |> <| current_view := 2 |>
                  <| view_history := [1; 1] |> |>.

Lemma committing_leader_wf : log_wf (log_of committing_leader).
Proof.
  constructor; cbn; try done.
  - apply increasing_cons. split; [intros y ->%list_elem_of_singleton; lia|].
    apply increasing_cons. split; [by intros ? ?%elem_of_nil|apply increasing_nil].
  - intros i [->|[->|[]%elem_of_nil]%elem_of_cons]%elem_of_cons; lia.
  - intros [|[|i]] [|[|j]] x y; cbn; intros; simplify_eq; lia.
  - intros i [->|[->|[]%elem_of_nil]%elem_of_cons]%elem_of_cons; lia.
  - intros i [->|[->|[]%elem_of_nil]%elem_of_cons]%elem_of_cons; lia.
Qed.

Lemma committing_leader_sizes :
  Forall (fun c => map_size (conf_nodes c) < u64_modulus) (configurations committing_leader).
Proof. repeat constructor. Qed.

Lemma commit_needs_majority_witness :
  commit_idx (state (fst (update_commit (env:=sim_env) committing_leader))) = 3 /\
  majority_acknowledged committing_leader 3.
Proof.
  split; [vm_compute; reflexivity|].
  assert (E : commit_idx (state (fst (update_commit (env:=sim_env) committing_leader))) = 3)
    by (vm_compute; reflexivity).
  rewrite <- E.
  refine (proj2 (commit_needs_majority sim_env committing_leader eq_refl
    committing_leader_wf committing_leader_sizes _)).
  rewrite E. done.
Defined.

Lemma majority_commits_witness :
  3 <= commit_idx (state (fst (update_commit (env:=sim_env) committing_leader))).
Proof.
  apply (majority_commits sim_env committing_leader 3); try done.
  - apply committing_leader_wf.
  - intros c ->%list_elem_of_singleton. split; [done|]. intros id.
    intros [ni Hni]. cbn in Hni.
    apply lookup_insert_Some in Hni as [[<- _]|[_ Hni]]; [by left|right].
    apply lookup_insert_Some in Hni as [[<- _]|[_ Hni]]; [by eexists|].
    apply lookup_singleton_Some in Hni as [<- _]. by eexists.
  - apply committing_leader_sizes.
  - intros id n Hn. cbn in Hn. apply lookup_insert_Some in Hn as [[_ <-]|[_ Hn]]; [done|].
    by apply lookup_singleton_Some in Hn as [_ <-].
  - right. left.
  - intros c ->%list_elem_of_singleton. vm_compute. done.
Defined.

(** ** Quorums *)

Lemma size_intersection_union (A B : gset NodeId) :
  (size (A ∪ B) + size (A ∩ B) = size A + size B)%nat.
Proof.
  assert (H1 : size A = (size (A ∩ B) + size (A ∖ B))%nat).
  { rewrite <- size_union by set_solver. f_equal. apply set_eq. intros x.
    destruct (decide (x ∈ B)); set_solver. }
  assert (H2 : size (A ∪ B) = (size B + size (A ∖ B))%nat).
  { rewrite <- size_union by set_solver. f_equal. apply set_eq. intros x.
    destruct (decide (x ∈ B)); set_solver. }
  lia.
Qed.

(** Quorums overlap.  Any two sets of members of a configuration that reach
    [get_quorum] share a member; with BFT consensus they share more than a
    third of the members. *)
Theorem quorums_overlap s (members A B : gset NodeId) :
  Z.of_nat (size members) < 2 ^ 63 -> A ⊆ members -> B ⊆ members ->
  get_quorum s (Z.of_nat (size members)) <= Z.of_nat (size A) ->
  get_quorum s (Z.of_nat (size members)) <= Z.of_nat (size B) ->
  A ∩ B <> ∅ /\
  (consensus_type s = BFT -> Z.of_nat (size members) < 3 * Z.of_nat (size (A ∩ B))).
Proof.
  intros Hsize HA HB. unfold get_quorum.
  pose proof (subseteq_size (A ∪ B) members ltac:(set_solver)) as Hle.
  pose proof (size_intersection_union A B) as Hsum.
  set (n := Z.of_nat (size members)) in *.
  pose proof (Z.div_mod n 2 ltac:(lia)). pose proof (Z.mod_pos_bound n 2 ltac:(lia)).
  pose proof (Z.div_mod (2 * n) 3 ltac:(lia)). pose proof (Z.mod_pos_bound (2 * n) 3 ltac:(lia)).
  destruct (consensus_type s); rewrite ?(u64_small (2 * n)) by u64_lia;
    intros HqA HqB; (split; [|intros ?; try done; lia]); intros HE; rewrite HE, size_empty in Hsum; lia.
Qed.

Lemma quorums_overlap_witness :
  ({["n0"; "n1"]} : gset NodeId) ∩ {["n1"; "n2"]} <> ∅.
Proof.
  refine (proj1 (quorums_overlap (sim_node "n0") {["n0"; "n1"; "n2"]}
    {["n0"; "n1"]} {["n1"; "n2"]} _ _ _ _ _)); try (vm_compute; congruence); set_solver.
Defined.
