(* ===== verification/RaftSend.v ===== *)
(** What a leader sends: the ranges of [send_append_entries], the search for
    the latest index that can match a follower's log, and the size of
    batches. *)

From S2P Require Import Prelude Serialized Views RaftTypes Raft RaftWire RaftLog RaftCommit.

(** ** The boundaries of the view of an index *)

Lemma view_at_mono views i j : ascending views -> i <= j ->
  ViewHistory.view_at views i <= ViewHistory.view_at views j.
Proof.
  intros Hs Hij. rewrite !ViewHistory.view_at_eq.
  destruct (upper_bound views i) as [|n] eqn:E; [lia|].
  pose proof (upper_bound_le_length views i).
  destruct (lookup_lt_is_Some_2 views n) as [y Hy]; [lia|].
  assert (y <= i) by (apply (upper_bound_lookup views i n y Hs Hy); lia).
  enough (n < upper_bound views j)%nat by lia.
  apply (upper_bound_lookup views j n y Hs Hy). lia.
Qed.

(** The first index of the view of [i]. *)
Lemma start_of_view_at views i :
  ascending views -> all_ge views 1 -> 0 < ViewHistory.view_at views i ->
  let x := ViewHistory.start_of_view views (ViewHistory.view_at views i) in
  1 <= x <= i /\ ViewHistory.view_at views x = ViewHistory.view_at views i /\
  ViewHistory.view_at views (x - 1) < ViewHistory.view_at views i.
Proof.
  intros Hs Hge Hpos. set (v := ViewHistory.view_at views i) in *.
  pose proof (ViewHistory.view_at_bounds views i) as Hb. fold v in Hb.
  destruct (lookup_lt_is_Some_2 views (Z.to_nat (v - 1))) as [x Hx]; [lia|].
  assert (Hxi : x <= i) by (by apply (ViewHistory.view_at_lower views i x)).
  assert (Hst : ViewHistory.start_of_view views v = x).
  { unfold ViewHistory.start_of_view, ViewHistory.InvalidView, VIEW_UNKNOWN. rewrite Hx. cbn.
    destruct (Z.ltb_spec (Z.of_nat (length views)) v), (Z.eqb_spec v 0); try lia. cbn.
    destruct (views !! Z.to_nat v) as [y|] eqn:Hy; cbn.
    - pose proof (ViewHistory.view_at_upper views i y Hy).
      destruct (Z.eqb_spec y x); [lia|]. by destruct (_ <=? _).
    - apply lookup_ge_None in Hy.
      destruct (Z.leb_spec (v + 1) (Z.of_nat (length views))); [lia|done]. }
  cbv zeta. rewrite Hst. clear Hst.
  pose proof (Hge x (list_elem_of_lookup_2 _ _ _ Hx)).
  pose proof (view_at_mono views x i Hs Hxi) as H1. fold v in H1.
  rewrite !ViewHistory.view_at_eq in *.
  pose proof (proj2 (upper_bound_lookup views x _ x Hs Hx)) as H2.
  pose proof (proj1 (upper_bound_lookup views (x - 1) _ x Hs Hx)) as H3.
  split; [lia|]. split; [lia|].
  destruct (decide (Z.to_nat (v - 1) < upper_bound views (x - 1))%nat); [|lia].
  specialize (H3 ltac:(done)). lia.
Qed.

(** The last index of the view of [i], unless it is the latest view. *)
Lemma end_of_view_at views i :
  ascending views -> all_ge views 1 -> 0 < ViewHistory.view_at views i ->
  let e := ViewHistory.end_of_view views (ViewHistory.view_at views i) in
  (e = NoVersion /\ forall j, i <= j -> ViewHistory.view_at views j = ViewHistory.view_at views i) \/
  (i <= e /\ (e + 1) ∈ views /\
   forall j, i <= j <= e -> ViewHistory.view_at views j = ViewHistory.view_at views i).
Proof.
  intros Hs Hge Hpos. pose proof (start_of_view_at views i Hs Hge Hpos) as (Hst & _).
  set (v := ViewHistory.view_at views i) in *. unfold ViewHistory.end_of_view.
  pose proof (ViewHistory.view_at_bounds views i) as Hb. fold v in Hb.
  destruct (Z.eqb_spec (ViewHistory.start_of_view views v) NoVersion) as [E|_];
    [unfold NoVersion in E; lia|]. cbn.
  assert (Hup : forall j, i <= j -> (forall y, views !! Z.to_nat v = Some y -> j < y) ->
    ViewHistory.view_at views j = v).
  { intros j Hij Hj. pose proof (view_at_mono views i j Hs Hij).
    apply ViewHistory.view_at_unique; [done|lia| |done].
    intros y _ Hy. pose proof (ViewHistory.view_at_lower views i y Hpos Hy). lia. }
  destruct (views !! Z.to_nat v) as [y|] eqn:Hy.
  - right. pose proof (ViewHistory.view_at_upper views i y Hy).
    pose proof (lookup_lt_Some _ _ _ Hy).
    destruct (Z.leb_spec (Z.of_nat (length views)) v), (Z.eqb_spec v ViewHistory.InvalidView);
      unfold ViewHistory.InvalidView, VIEW_UNKNOWN in *; try lia. cbn.
    split; [lia|]. split; [replace (y - 1 + 1) with y by lia; by eapply list_elem_of_lookup_2|].
    intros j Hj. apply Hup; [lia|]. intros y' [= <-]. lia.
  - left. apply lookup_ge_None in Hy.
    destruct (Z.leb_spec (Z.of_nat (length views)) v); [|lia]. cbn. split; [done|].
    intros j Hj. by apply Hup.
Qed.

(** ** The highest possible match *)

Lemma find_match_loop_spec views T fuel probe :
  ascending views -> all_ge views 1 -> 0 <= T ->
  ViewHistory.view_at views probe <= Z.of_nat fuel ->
  exists p, find_match_loop fuel views T probe = Some p /\
    p <= probe /\ (0 <= probe -> 0 <= p) /\ ViewHistory.view_at views p <= T /\
    forall q, p < q <= probe -> T < ViewHistory.view_at views q.
Proof.
  intros Hs Hge HT. revert probe. induction fuel as [|fuel IH]; intros probe Hf;
    cbn [find_match_loop]; destruct (Z.ltb_spec T (ViewHistory.view_at views probe)) as [Hlt|Hle];
    try (lia || (exists probe; repeat split; (done || lia))).
  destruct (start_of_view_at views probe Hs Hge ltac:(lia)) as (Hx & Hvx & Hvx').
  set (x := ViewHistory.start_of_view views _) in *.
  destruct (Z.ltb_spec 0 x); [|lia].
  destruct (IH (x - 1) ltac:(lia)) as (p & Hp & Hle & H0 & Hv & Hq).
  exists p. split; [done|]. split; [lia|]. split; [intros; apply H0; lia|]. split; [done|].
  intros q Hpq. destruct (decide (q <= x - 1)); [apply Hq; lia|].
  pose proof (view_at_mono views x q Hs ltac:(lia)). lia.
Qed.

(** C7: [find_highest_possible_match] terminates, leaves the node alone and
    returns the highest index, no higher than the given one and than the end of
    the log, whose view does not exceed the given view. *)
Theorem highest_possible_match s view seqno :
  log_wf (log_of s) -> 0 <= view -> 0 <= seqno ->
  exists p, find_highest_possible_match (MkTxID view seqno) s = (s, Ret p) /\
    0 <= p <= Z.min seqno (last_idx (state s)) /\
    ViewHistory.view_at (view_history (state s)) p <= view /\
    forall q, p < q <= Z.min seqno (last_idx (state s)) ->
      view < ViewHistory.view_at (view_history (state s)) q.
Proof.
  intros Hwf Hview Hseqno. pose proof (wf_commit _ Hwf) as Hc. cbn in Hc.
  set (views := view_history (state s)).
  destruct (find_match_loop_spec views view (S (length views))
    (Z.min seqno (last_idx (state s)))) as (p & Hp & Hle & H0 & Hv & Hq).
  - apply (wf_views_asc _ Hwf).
  - apply (wf_views_pos _ Hwf).
  - done.
  - pose proof (ViewHistory.view_at_bounds views (Z.min seqno (last_idx (state s)))). lia.
  - exists p. split; [|split; [specialize (H0 ltac:(lia)); lia|split; done]].
    unfold find_highest_possible_match, mbind, ST_bind, get. cbn [tx_term tx_version].
    unfold views in Hp. by rewrite Hp.
Qed.

Lemma highest_possible_match_witness :
  exists p, find_highest_possible_match (MkTxID 1 5) committing_leader = (committing_leader, Ret p) /\
    0 <= p <= 3.
Proof.
  destruct (highest_possible_match committing_leader 1 5 committing_leader_wf
    ltac:(done) ltac:(done)) as (p & Hp & Hle & _).
  exists p. split; [exact Hp|]. exact Hle.
Defined.

(** ** The ranges sent to a follower *)

(** Consecutive ranges from [prev] (exclusive) to [last]. *)
Fixpoint tiles (prev : Z) (l : list AppendEntries) (last : Z) : Prop :=
  match l with
  | [] => prev = last
  | r :: l => ae_prev_idx r = prev /\ prev <= ae_idx r /\ tiles (ae_idx r) l last
  end.

(** A message of the leader [s] describes its range: the views of the entry
    before it and of all its entries, and what the leader has committed; it
    holds at most [entries_batch_size + 1] entries. *)
Definition describes (s : Aft) (r : AppendEntries) : Prop :=
  ae_idx r - ae_prev_idx r <= entries_batch_size s + 1 /\
  (forall q, ae_prev_idx r < q <= ae_idx r -> get_term_internal s q = ae_term_of_idx r) /\
  ae_prev_term r = get_term_internal s (ae_prev_idx r) /\
  ae_term r = current_view (state s) /\
  ae_leader_commit_idx r = commit_idx (state s).

(** What a retired node does not send: once its retirement is past being signed, ranges of at most one entry. *)
Definition withheld (s : Aft) (r : AppendEntries) : bool :=
  is_retired s && phase_gt (retirement_phase s) Signed && (ae_idx r <=? ae_prev_idx r + 1).

Definition sent_ranges (s : Aft) (l : list AppendEntries) : list AppendEntries := List.filter (fun r => negb (withheld s r)) l.

Section send.
Context {env : AftEnv}.

(** Only the trace and what was sent to [to] differ. *)
Definition sent_more (to : NodeId) (s s' : Aft) : Prop :=
  state s' = state s /\ entries_batch_size s' = entries_batch_size s /\
  membership_state s' = membership_state s /\ retirement_phase s' = retirement_phase s /\
  committable_indices s' = committable_indices s /\ is_Some (nodes s' !! to).

Lemma send_append_entries_range_spec to a b s :
  1 <= a <= u64_max -> is_Some (nodes s !! to) ->
  exists s' r, send_append_entries_range to a b s = (s', Ret tt) /\ sent_more to s s' /\
    trace s' = trace s ++ ((fun r => SendAuthenticated to (MsgAppendEntries r)) <$> sent_ranges s [r]) /\
    ae_idx r = b /\ ae_prev_idx r = a - 1 /\
    ae_term_of_idx r = get_term_internal s b /\
    ae_prev_term r = get_term_internal s (a - 1) /\
    ae_term r = current_view (state s) /\ ae_leader_commit_idx r = commit_idx (state s).
Proof.
  intros Ha [n Hn]. unfold send_append_entries_range, mbind at 1, ST_bind at 1, get at 1. rewrite u64_small by u64_lia.
  set (r := MkAppendEntries b (a - 1) _ _ _ _ _). cbv zeta.
  assert (withheld s r = is_retired s && phase_gt (retirement_phase s) Signed && (b <=? a)) as Hw.
  { unfold withheld. cbn [ae_idx ae_prev_idx r]. by replace (a - 1 + 1) with a by lia. }
  rewrite <- Hw. unfold sent_ranges. cbn [List.filter]. destruct (withheld s r) eqn:E; cbn [negb].
  { exists s, r. split; [done|]. split; [repeat split; by exists n|]. split; [rewrite E; symmetry; apply app_nil_r|done]. }
  rewrite Hn. unfold send_authenticated, emit, modify, mbind, ST_bind, get. cbn -[lookup alter u64 get_term_internal r].
  destruct (env_send _ _ _); eexists _, r; (split; [reflexivity|]); (split; [|by rewrite E]).
  - repeat split. cbn. rewrite lookup_alter_eq, Hn. by eexists.
  - repeat split. cbn. by eexists.
Qed.

(** The end of a range. *)
Lemma calculate_end_index_spec s start :
  log_wf (log_of s) -> 1 <= start <= last_idx (state s) + 1 ->
  0 <= entries_batch_size s -> last_idx (state s) + entries_batch_size s < u64_max ->
  (start <= last_idx (state s) -> 0 < ViewHistory.view_at (view_history (state s)) start) ->
  let e := calculate_end_index s start in
  start - 1 <= e <= last_idx (state s) /\ (start <= last_idx (state s) -> start <= e) /\
  e - (start - 1) <= entries_batch_size s + 1 /\
  forall q, start <= q <= e ->
    ViewHistory.view_at (view_history (state s)) q =
    ViewHistory.view_at (view_history (state s)) e.
Proof.
  intros Hwf Hstart Hb Hmax Hview. unfold calculate_end_index. cbv zeta.
  set (views := view_history (state s)) in *. set (last := last_idx (state s)) in *.
  rewrite u64_small by u64_lia.
  destruct (decide (0 < ViewHistory.view_at views start)) as [Hpos|Hzero].
  - destruct (end_of_view_at views start (wf_views_asc _ Hwf) (wf_views_pos _ Hwf) Hpos)
      as [[He Hv]|(He & Hin & Hv)]; set (e := ViewHistory.end_of_view _ _) in *.
    + rewrite He, Z.eqb_refl. split; [lia|]. split; [lia|]. split; [lia|].
      intros q Hq. rewrite (Hv q), (Hv (Z.min _ _)); [done|lia|lia].
    + pose proof (wf_views_last _ Hwf _ Hin) as Hl. cbn in Hl. fold last in Hl.
      destruct (Z.eqb_spec e NoVersion) as [E|_]; [unfold NoVersion in E; lia|].
      split; [lia|]. split; [lia|]. split; [lia|].
      intros q Hq. rewrite (Hv q), (Hv (Z.min _ _)); [done|lia|lia].
  - assert (Hs : start = last + 1) by (destruct (decide (start <= last)); [lia|lia]).
    pose proof (ViewHistory.view_at_bounds views start).
    replace (ViewHistory.view_at views start) with 0 by lia.
    assert (E : ViewHistory.end_of_view views 0 = NoVersion).
    { unfold ViewHistory.end_of_view, ViewHistory.start_of_view. by destruct (_ <? 0). }
    rewrite E, Z.eqb_refl. repeat split; lia.
Qed.

Lemma send_append_entries_loop_spec fuel to start s :
  log_wf (log_of s) -> is_Some (nodes s !! to) ->
  1 <= start <= last_idx (state s) + 1 ->
  0 <= entries_batch_size s -> last_idx (state s) + entries_batch_size s < u64_max ->
  (start <= last_idx (state s) -> 0 < ViewHistory.view_at (view_history (state s)) start) ->
  last_idx (state s) - start < Z.of_nat fuel -> (0 < fuel)%nat ->
  exists l s', send_append_entries_loop fuel to start s = (s', Ret tt) /\ sent_more to s s' /\
    trace s' = trace s ++ ((fun r => SendAuthenticated to (MsgAppendEntries r)) <$> sent_ranges s l) /\
    l <> [] /\ tiles (start - 1) l (last_idx (state s)) /\ Forall (describes s) l.
Proof.
  revert start s. induction fuel as [|fuel IH];
    intros start s Hwf Hto Hstart Hb Hmax Hview Hfuel Hpos; [lia|].
  destruct (calculate_end_index_spec s start Hwf Hstart Hb Hmax Hview) as (He & Hse & Hlen & Hv).
  cbn [send_append_entries_loop]. set (e := calculate_end_index s start) in *.
  destruct (send_append_entries_range_spec to start e s ltac:(lia) Hto)
    as (s1 & r & Hrun & Hmore & Htr & Hr1 & Hr2 & Hr3 & Hr4 & Hr5 & Hr6).
  pose proof (wf_last _ Hwf) as Hl. cbn in Hl.
  assert (Hd : describes s r).
  { split; [lia|]. split; [|rewrite Hr2; done]. intros q Hq. rewrite Hr3.
    unfold get_term_internal. destruct (Z.ltb_spec (last_idx (state s)) q); [lia|].
    destruct (Z.ltb_spec (last_idx (state s)) e); [lia|]. apply Hv. lia. }
  pose proof Hmore as (Hst & Hbs & Hms & Hph & Hci & Hto1).
  unfold mbind, ST_bind, get. fold e. rewrite Hrun. rewrite Hst.
  destruct (Z.eqb_spec e (last_idx (state s))) as [Elast|Hne].
  { exists [r], s1. split; [done|]. split; [done|]. split; [done|]. split; [done|].
    split; [cbn; lia|by constructor]. }
  rewrite (u64_small (e + 1)) by u64_lia. rewrite Z.min_l by lia.
  assert (Hlog : log_of s1 = log_of s) by (unfold log_of; by rewrite Hst, Hci).
  destruct (IH (e + 1) s1) as (l & s2 & Hrun2 & Hmore2 & Htr2 & Hne2 & Htiles & Hall);
    rewrite ?Hlog, ?Hst, ?Hbs; try done; try lia.
  { intros _. pose proof (view_at_mono (view_history (state s)) start (e + 1)
      (wf_views_asc _ Hwf) ltac:(lia)). lia. }
  exists (r :: l), s2. split; [done|]. split.
  { destruct Hmore2 as (? & ? & ? & ? & ? & ?). repeat split; congruence. }
  split.
  { rewrite Htr2, Htr, <- app_assoc. f_equal. rewrite <- fmap_app. f_equal. unfold sent_ranges, withheld, is_retired.
    rewrite Hms, Hph. symmetry. apply (List.filter_app _ [r]). }
   split; [done|]. split.
  - rewrite Hst in Htiles. cbn. rewrite Hr1. replace (e + 1 - 1) with e in Htiles by lia.
    split; [done|]. split; [lia|done].
  - constructor; [done|]. eapply Forall_impl; [exact Hall|].
    intros r'. unfold describes, get_term_internal. by rewrite Hst, Hbs.
Qed.
End send.

(** C6: [send_append_entries] to a node of the configuration terminates and covers a well-formed log whose indices do not
    overflow.  There are consecutive ranges, the first one starting at [start_idx] and the last one ending at the end of the
    log (a single empty range when there is nothing to send), each of entries of a single view, which it states, with the
    view of the entry before it, and of at most [entries_batch_size + 1] entries.  They are sent in order, but for those of
    at most one entry when the node is retired and its retirement is past being signed. *)
Theorem send_append_entries_covers env s to start :
  log_wf (log_of s) -> is_Some (nodes s !! to) ->
  1 <= start <= last_idx (state s) + 1 ->
  0 <= entries_batch_size s -> last_idx (state s) + entries_batch_size s < u64_max ->
  (start <= last_idx (state s) -> 0 < ViewHistory.view_at (view_history (state s)) start) ->
  exists l s', send_append_entries (env:=env) to start s = (s', Ret tt) /\
    state s' = state s /\
    trace s' = trace s ++ ((fun r => SendAuthenticated to (MsgAppendEntries r)) <$> sent_ranges s l) /\
    l <> [] /\ tiles (start - 1) l (last_idx (state s)) /\ Forall (describes s) l.
Proof.
  intros Hwf Hto Hstart Hb Hmax Hview.
  destruct (send_append_entries_loop_spec (S (Z.to_nat (last_idx (state s) - start))) to start s)
    as (l & s' & Hrun & (Hst & _) & H); try done; try lia.
  exists l, s'. done.
Qed.

Lemma send_append_entries_covers_witness :
  exists l s', send_append_entries (env:=sim_env) "n2" 1 committing_leader = (s', Ret tt) /\
    tiles 0 l 3.
Proof.
  destruct (send_append_entries_covers sim_env committing_leader "n2" 1)
    as (l & s' & Hrun & _ & _ & _ & Ht & _); try done.
  - apply committing_leader_wf.
  - exists l, s'. split; [exact Hrun|exact Ht].
Defined.

(** The bound of a range is reached: with a batch size of one, a leader
    whose log holds three entries of one view sends two of them in one
    message. *)
Theorem batch_holds_one_more :
  let s := committing_leader <| entries_batch_size := 1 |> in
  exists s' r, send_append_entries (env:=sim_env) "n2" 2 s = (s', Ret tt) /\
    SendAuthenticated "n2" (MsgAppendEntries r) ∈ trace s' /\
    ae_idx r - ae_prev_idx r = entries_batch_size s + 1.
Proof.
  eexists _, (MkAppendEntries 3 1 2 2 0 2 false). split; [vm_compute; reflexivity|].
  split; [left|reflexivity].
Qed.

(** ** The size of batches *)

(** The batch size suggested by the entries seen since the last update. *)
Definition suggested_batch_size (s : Aft) : Z :=
  let avg := if entry_count s =? 0 then append_entries_size_limit
             else entry_size_not_limited s / entry_count s in
  if avg =? 0 then append_entries_size_limit / 2 else append_entries_size_limit / avg.

Lemma suggested_batch_size_range s :
  0 <= entry_size_not_limited s -> 0 <= entry_count s ->
  0 <= suggested_batch_size s <= append_entries_size_limit.
Proof.
  intros H1 H2. unfold suggested_batch_size, append_entries_size_limit.
  set (avg := if entry_count s =? 0 then _ else _).
  assert (Ha : 0 <= avg).
  { unfold avg. destruct (Z.eqb_spec (entry_count s) 0); [lia|]. apply Z.div_pos; lia. }
  destruct (Z.eqb_spec avg 0); [change (20000 / 2) with 10000; lia|].
  split; [apply Z.div_pos; lia|]. apply Z.div_le_upper_bound; nia.
Qed.

(** The sliding average of batch sizes never overflows.  From a window sum
    between 0 and 100 times the size limit, [update_batch_size] moves the sum by
    exactly the suggested size less the average (although the source mixes
    [int] and [size_t]), keeps it in that range, and leaves a batch size
    between 1 and the size limit. *)
Theorem batch_size_bounds s :
  0 <= batch_window_sum s <= batch_window_size * append_entries_size_limit ->
  0 <= entry_size_not_limited s -> 0 <= entry_count s ->
  let s' := fst (update_batch_size s) in
  batch_window_sum s' =
    batch_window_sum s - batch_window_sum s / batch_window_size + suggested_batch_size s /\
  0 <= batch_window_sum s' <= batch_window_size * append_entries_size_limit /\
  entries_batch_size s' = Z.max (batch_window_sum s' / batch_window_size) 1 /\
  1 <= entries_batch_size s' <= append_entries_size_limit.
Proof.
  intros Hsum Hsize Hcount. pose proof (suggested_batch_size_range s Hsize Hcount) as Hb.
  cbv zeta. unfold update_batch_size, mbind, ST_bind, get, assign, modify.
  cbn [fst batch_window_sum entries_batch_size set update_field].
  fold (suggested_batch_size s). set (b := suggested_batch_size s) in *.
  unfold batch_window_size, append_entries_size_limit in *.
  set (w := batch_window_sum s) in *.
  rewrite (Z.quot_div_nonneg w 100) by lia.
  pose proof (Z.div_mod w 100 ltac:(lia)) as Hdm.
  pose proof (Z.mod_pos_bound w 100 ltac:(lia)) as Hm.
  set (q := w / 100) in *. assert (Hq : 0 <= q <= 20000) by lia.
  assert (E : i32 (u64 (u64 w + u64 (b - u64 q))) = w - q + b).
  { rewrite (u64_small w), (u64_small q) by u64_lia.
    unfold u64. rewrite Zplus_mod_idemp_r.
    replace (w + (b - q)) with (w - q + b) by lia. rewrite Z.mod_small by u64_lia.
    apply i32_small. lia. }
  rewrite E, Z.quot_div_nonneg by lia.
  split; [done|]. split; [lia|]. split; [done|]. split; [lia|].
  apply Z.max_lub; [apply Z.div_le_upper_bound; lia|lia].
Qed.

Lemma batch_size_bounds_witness :
  entries_batch_size (fst (update_batch_size
    (committing_leader <| entry_count := 10 |> <| entry_size_not_limited := 25000 |>
      <| batch_window_sum := 995 |>))) = 9 /\
  1 <= 9.
Proof.
  set (s := committing_leader <| entry_count := 10 |> <| entry_size_not_limited := 25000 |>
      <| batch_window_sum := 995 |>).
  assert (E : entries_batch_size (fst (update_batch_size s)) = 9) by (vm_compute; reflexivity).
  split; [exact E|].
  pose proof (batch_size_bounds s) as H. cbv zeta in H. rewrite E in H.
  apply H; vm_compute; try split; congruence.
Defined.
