(* ===== verification/RaftElection.v ===== *)
(** Elections: the part of a node that decides them, as an abstract machine
    that the consensus code implements while the configuration does not
    change. *)

From S2P Require Import Prelude Serialized Views RaftTypes Raft RaftWire RaftLog.

(** ** Ballots *)

(** The messages sent so far, in order. *)
Definition sent_of : list Effect -> list (NodeId * RaftMsg) :=
  omap (fun e => match e with SendAuthenticated to m => Some (to, m) | _ => None end).

Record Ballot := MkBallot {
  b_view : Z;
  b_leadership : option LeadershipState;
  b_voted : option NodeId;
  b_votes : gset NodeId;
  b_sent : list (NodeId * RaftMsg)
}.
#[export] Instance eta_Ballot : Settable Ballot := fun b =>
  MkBallot (b_view b) (b_leadership b) (b_voted b) (b_votes b) (b_sent b).

Definition ballot_of (s : Aft) : Ballot :=
  MkBallot (current_view (state s)) (leadership_state s) (voted_for s) (votes_for_me s)
    (sent_of (trace s)).

(** A vote granted in [term], and a message only a leader of [term] sends. *)
Definition is_grant (m : RaftMsg) : bool :=
  match m with MsgRequestVoteResponse r => rvr_vote_granted r | _ => false end.
Definition is_append (m : RaftMsg) : bool :=
  match m with MsgAppendEntries _ => true | _ => false end.

Definition grant (term : Z) : RaftMsg := MsgRequestVoteResponse (MkRequestVoteResponse term true).

(** What a node [me] may do in an election among [members], after it has heard
    requests for votes from [cands] and votes granted to it ([heard]). *)
Section machine.
Context (me : NodeId) (members : gset NodeId).
Context (cands : NodeId -> Prop) (heard : NodeId -> Z -> Prop).

Inductive ballot_step : Ballot -> Ballot -> Prop :=
| bs_send b to m :
    is_grant m = false -> is_append m = false -> 
    (forall r, m = MsgRequestVote r -> to <> me) ->
    ballot_step b (b <| b_sent := b_sent b ++ [(to, m)] |>)
| bs_append b to r :
    b_leadership b = Some Leader -> ae_term r = b_view b ->
    ballot_step b (b <| b_sent := b_sent b ++ [(to, MsgAppendEntries r)] |>)
| bs_new_term b term :
    b_view b < term ->
    ballot_step b (MkBallot term (Some Follower) None ∅ (b_sent b))
| bs_withdraw b :
    b_leadership b = Some Candidate ->
    ballot_step b (MkBallot (b_view b) (Some Follower) None ∅ (b_sent b))
| bs_step_down b :
    ballot_step b (b <| b_leadership := Some Follower |>)
| bs_choose b c :
    cands c -> (b_voted b = None \/ b_voted b = Some c) ->
    ballot_step b (b <| b_voted := Some c |>)
| bs_grant b c :
    cands c -> b_voted b = Some c ->
    ballot_step b (b <| b_sent := b_sent b ++ [(c, grant (b_view b))] |>)
| bs_stand b :
    ballot_step b (MkBallot (b_view b + 1) (Some Candidate) (Some me) ∅ (b_sent b))
| bs_count b v :
    b_leadership b = Some Candidate -> (v = me \/ v ∈ members /\ heard v (b_view b)) ->
    ballot_step b (b <| b_votes := {[v]} ∪ b_votes b |>)
| bs_lead b :
    b_leadership b = Some Candidate ->
    Z.of_nat (size members) / 2 + 1 <= Z.of_nat (size (b_votes b)) ->
    ballot_step b (b <| b_leadership := Some Leader |>).
End machine.

(** ** A node in a fixed configuration *)

(** The node [me] runs CFT consensus as an active member of its only
    configuration, which it has committed, and tracks the other members. *)
Record static (me : NodeId) (conf : Nodes) (s : Aft) : Prop := {
  st_me : my_node_id (state s) = me;
  st_cft : consensus_type s = CFT;
  st_1tx : reconfiguration_type s = ONE_TRANSACTION;
  st_active : membership_state s = Active;
  st_conf : exists c, configurations s = [c] /\ conf_nodes c = conf /\
              conf_idx c <= commit_idx (state s);
  st_nodes : dom (nodes s) = dom conf ∖ {[me]}
}.

Section frame.
Context {env : AftEnv} (me : NodeId) (conf : Nodes).

Definition keeps_ballot (s s' : Aft) : Prop :=
  (static me conf s -> static me conf s') /\ ballot_of s' = ballot_of s.

#[export] Instance keeps_ballot_preorder : PreOrder keeps_ballot.
Proof.
  split; [done|]. intros s1 s2 s3 [H1 H1'] [H2 H2']. split; [tauto|congruence].
Qed.

Definition is_send (e : Effect) : bool :=
  match e with SendAuthenticated _ _ => true | _ => false end.

Lemma sent_of_app tr e :
  sent_of (tr ++ [e]) =
  sent_of tr ++ match e with SendAuthenticated to m => [(to, m)] | _ => [] end.
Proof. unfold sent_of. rewrite omap_app. f_equal. by destruct e. Qed.

Lemma emit_ballot e : is_send e = false -> respects keeps_ballot (emit e).
Proof.
  intros He s. split; [by intros []|]. unfold ballot_of. cbn. f_equal.
  rewrite sent_of_app. destruct e; try done; by rewrite app_nil_r.
Qed.
#[local] Hint Resolve emit_ballot : respects.
#[local] Hint Extern 1 (is_send _ = false) => reflexivity : respects.

(** Assignments outside the ballot. *)
Ltac ballot_leaf :=
  intros; repeat case_match;
  (split; [intros [? ? ? ? ? Hn]; split; try done; cbn; rewrite ?dom_alter_L, ?dom_fmap_L; exact Hn
          |reflexivity]).
Ltac ballot_auto :=
  repeat first [ solve [ eauto with respects ] | respects_step | solve [ ballot_leaf ] ].

Lemma assert_ballot b : respects keeps_ballot (assert b).
Proof. unfold assert. ballot_auto. Qed.
Lemma ccf_assert_ballot b : respects keeps_ballot (ccf_assert b).
Proof. unfold ccf_assert. ballot_auto. Qed.
Lemma restart_election_timeout_ballot : respects keeps_ballot restart_election_timeout.
Proof. unfold restart_election_timeout. ballot_auto. Qed.
Lemma start_ticking_if_necessary_ballot : respects keeps_ballot start_ticking_if_necessary.
Proof. unfold start_ticking_if_necessary, start_ticking. ballot_auto. Qed.
Lemma clear_orc_sets_ballot : respects keeps_ballot clear_orc_sets.
Proof. unfold clear_orc_sets. ballot_auto. Qed.
Lemma reset_last_ack_timeouts_ballot : respects keeps_ballot reset_last_ack_timeouts.
Proof. unfold reset_last_ack_timeouts. ballot_auto. Qed.
Lemma update_batch_size_ballot : respects keeps_ballot update_batch_size.
Proof. unfold update_batch_size. ballot_auto. Qed.
Lemma find_highest_possible_match_ballot tx : respects keeps_ballot (find_highest_possible_match tx).
Proof. unfold find_highest_possible_match. ballot_auto. Qed.
Lemma on_view_history_ballot {A} (m : ST (list Z) A) : respects keeps_ballot (on_view_history m).
Proof. intros s. unfold on_view_history. destruct (m _). by split; [intros []|]. Qed.
#[local] Hint Resolve assert_ballot ccf_assert_ballot restart_election_timeout_ballot
  start_ticking_if_necessary_ballot clear_orc_sets_ballot reset_last_ack_timeouts_ballot
  update_batch_size_ballot find_highest_possible_match_ballot on_view_history_ballot : respects.

(** ** Rollback and commit do not take part in elections *)

Lemma not_retired s : static me conf s -> is_retired s = false.
Proof. intros H. unfold is_retired. by rewrite (st_active _ _ _ H). Qed.

Lemma rollback_retirement_static idx s :
  static me conf s -> rollback_retirement idx s = (s, Ret tt).
Proof.
  intros H. unfold rollback_retirement, mbind, ST_bind, get.
  rewrite (not_retired s H). cbn. by rewrite (not_retired s H).
Qed.

Lemma rollback_configurations_static idx s :
  static me conf s -> commit_idx (state s) <= idx ->
  wp (rollback_configurations idx) (fun _ => keeps_ballot s) (fun _ _ => False) s.
Proof.
  intros H Hidx. unfold rollback_configurations. wp_step.
  destruct (st_conf _ _ _ H) as (c & Hc & Hn & Hle). rewrite Hc. cbn [pop_configurations_above].
  destruct (Z.ltb_spec idx (conf_idx c)); [lia|]. cbn [length Nat.eqb negb].
  wp_step. rewrite (st_1tx _ _ _ H). wp_step. apply wp_ret.
  split; [|done]. intros _. destruct H. split; try done. by exists c.
Qed.

Lemma rollback_ballot idx s :
  static me conf s -> wp (rollback idx) (fun _ => keeps_ballot s) (fun _ _ => False) s.
Proof.
  intros H. unfold rollback. wp_step. wp_step; [by apply wp_ret|].
  rewrite (st_cft _ _ _ H), bool_decide_true in Heqb by done. apply Z.ltb_ge in Heqb.
  do 3 aft_step. apply wp_on_view_history_bind, wp_modify. aft_step.
  set (s1 := _ <| committable_indices := _ |>).
  assert (H1 : keeps_ballot s s1 /\ commit_idx (state s1) = commit_idx (state s)).
  { split; [|done]. split; [by intros []|]. unfold ballot_of, s1. cbn. f_equal.
    rewrite !sent_of_app. by rewrite !app_nil_r. }
  clearbody s1. destruct H1 as [H1 E1].
  apply wp_bind. unfold wp at 1. rewrite rollback_retirement_static by (by apply H1).
  eapply wp_mono; [apply rollback_configurations_static; [by apply H1|lia]| |done].
  intros ? s2 H2. by etransitivity.
Qed.

Lemma commit_ballot idx s :
  static me conf s ->
  wp (commit idx) (fun _ => keeps_ballot s) (fun _ => keeps_ballot s) s.
Proof.
  intros H. unfold commit. wp_step. wp_step; [by apply wp_throw|]. wp_step; [by apply wp_ret|].
  apply Z.leb_gt in Heqb0.
  aft_step. rewrite (not_retired s H). cbn [andb]. wp_step. do 2 aft_step.
  set (s1 := _ <| trace := _ |>).
  assert (H1 : keeps_ballot s s1 /\ configurations s1 = configurations s).
  { split; [|done]. split.
    - intros [? ? ? ? (c & Hc & Hn & Hle) ?]. split; try done. exists c. cbn. repeat split; try done. lia.
    - unfold ballot_of, s1. cbn. f_equal. rewrite !sent_of_app. by rewrite !app_nil_r. }
  clearbody s1. destruct H1 as [H1 E1].
  destruct (st_conf _ _ _ H) as (c & Hc & _). rewrite Hc. cbn [length commit_configurations].
  do 2 wp_step. rewrite E1, Hc. do 2 wp_step.
  destruct (has_resharing_tracker s1); [aft_step|wp_step]; apply wp_ret; [|done].
  etransitivity; [exact H1|]. by apply (emit_ballot (TrackerCompact idx)).
Qed.

Lemma commit_if_possible_ballot idx s :
  static me conf s ->
  wp (commit_if_possible idx) (fun _ => keeps_ballot s) (fun _ => keeps_ballot s) s.
Proof.
  intros H. unfold commit_if_possible. wp_step. wp_step; [|by apply wp_ret].
  destruct (pop_committable _ _) as [h rest]. wp_step.
  assert (H1 : keeps_ballot s (s <| committable_indices := rest |>)) by (by split; [intros []|]).
  destruct h as [h|]; [destruct (consensus_type s)|]; [|by apply wp_ret..].
  eapply wp_mono; [apply commit_ballot, H1, H|..]; intros ? s2 H2; by etransitivity.
Qed.

Lemma update_commit_ballot s :
  static me conf s -> wp update_commit (fun _ => keeps_ballot s) (fun _ => keeps_ballot s) s.
Proof.
  intros H. unfold update_commit. wp_step. destruct (commit_watermark _ _ _) as [w|]; [|done].
  apply wp_bind. eapply (wp_mono _ (fun _ => keeps_ballot s) _ (fun _ => keeps_ballot s));
    [|intros _ s1 H1|done].
  { destruct (_ =? _); [by apply wp_ret|]. apply wp_modify. by split; [intros []|]. }
  wp_step. wp_step; [by apply wp_throw|].
  eapply wp_mono; [apply commit_if_possible_ballot, H1, H|..]; intros ? s2 H2; by etransitivity.
Qed.
End frame.

#[export] Hint Resolve emit_ballot assert_ballot ccf_assert_ballot restart_election_timeout_ballot
  start_ticking_if_necessary_ballot clear_orc_sets_ballot reset_last_ack_timeouts_ballot
  update_batch_size_ballot find_highest_possible_match_ballot on_view_history_ballot : respects.
#[export] Hint Extern 1 (is_send _ = false) => reflexivity : respects.

(** ** Operations as steps of the machine *)

Section moves.
Context {env : AftEnv} (me : NodeId) (conf : Nodes).
Context (cands : NodeId -> Prop) (heard : NodeId -> Z -> Prop).

Abbreviation step := (ballot_step me (dom conf) cands heard).

Definition ballot_moves (s s' : Aft) : Prop :=
  static me conf s -> static me conf s' /\ rtc step (ballot_of s) (ballot_of s').

(** The same for what only a leader does. *)
Definition lead_moves (s s' : Aft) : Prop :=
  leadership_state s = Some Leader -> leadership_state s' = Some Leader /\ ballot_moves s s'.

#[local] Instance ballot_moves_preorder : PreOrder ballot_moves.
Proof.
  split; [intros s H; by split; [|apply rtc_refl]|].
  intros s1 s2 s3 H1 H2 H. destruct (H1 H) as [H' R1]. destruct (H2 H') as [H'' R2].
  split; [done|by etransitivity].
Qed.

#[local] Instance lead_moves_preorder : PreOrder lead_moves.
Proof.
  split; [by intros s|]. intros s1 s2 s3 H1 H2 H. destruct (H1 H) as [L1 B1].
  destruct (H2 L1) as [L2 B2]. split; [done|by etransitivity].
Qed.

Lemma keeps_ballot_moves s s' : keeps_ballot me conf s s' -> ballot_moves s s'.
Proof. intros [H1 H2] H. split; [auto|]. rewrite H2. apply rtc_refl. Qed.

Lemma keeps_ballot_lead s s' : keeps_ballot me conf s s' -> lead_moves s s'.
Proof.
  intros H HL. split; [|by apply keeps_ballot_moves].
  destruct H as [_ H]. apply (f_equal b_leadership) in H. cbn in H. congruence.
Qed.

Lemma respects_keeps_ballot {A} (m : M A) :
  respects (keeps_ballot me conf) m -> respects ballot_moves m.
Proof. intros H s. apply keeps_ballot_moves, H. Qed.
Lemma respects_keeps_lead {A} (m : M A) :
  respects (keeps_ballot me conf) m -> respects lead_moves m.
Proof. intros H s. apply keeps_ballot_lead, H. Qed.
#[local] Hint Resolve respects_keeps_ballot respects_keeps_lead : respects.

(** One step of the machine that touches nothing else. *)
Lemma ballot_moves_step s s' :
  (static me conf s -> static me conf s') -> step (ballot_of s) (ballot_of s') ->
  ballot_moves s s'.
Proof. intros H1 H2 H. split; [auto|by apply rtc_once]. Qed.

Lemma ballot_sent s to m :
  ballot_of (s <| trace := trace s ++ [SendAuthenticated to m] |>) =
  (ballot_of s) <| b_sent := sent_of (trace s) ++ [(to, m)] |>.
Proof. unfold ballot_of. cbn. by rewrite sent_of_app. Qed.

Lemma send_authenticated_moves to m :
  is_grant m = false -> is_append m = false -> (forall r, m = MsgRequestVote r -> to <> me) ->
  respects ballot_moves (send_authenticated to m).
Proof.
  intros H1 H2 H3 s. apply ballot_moves_step; [by intros []|]. cbn [send_authenticated].
  change (fst (send_authenticated to m s)) with (s <| trace := trace s ++ [SendAuthenticated to m] |>).
  rewrite ballot_sent. by apply (bs_send me (dom conf) cands heard (ballot_of s)).
Qed.

Lemma send_append_entries_range_lead to i j : respects lead_moves (send_append_entries_range to i j).
Proof.
  apply wp_respects. intros s. unfold send_append_entries_range. wp_step.
  wp_step; [by apply wp_ret|]. wp_step; [|by apply wp_throw].
  set (ae := MkAppendEntries _ _ _ _ _ _ _).
  unfold send_authenticated. do 3 wp_step. aft_step. wp_step.
  set (s1 := s <| trace := _ |>).
  assert (H1 : lead_moves s s1).
  { intros HL. split; [done|]. apply ballot_moves_step; [by intros []|].
    unfold s1. rewrite ballot_sent. by apply (bs_append me (dom conf) cands heard (ballot_of s)). }
  clearbody s1. destruct (env_send _ _ _); [|by apply wp_ret]. apply wp_modify.
  etransitivity; [exact H1|]. apply keeps_ballot_lead.
  split; [|done]. intros []. split; try done. cbn. by rewrite dom_alter_L.
Qed.
#[local] Hint Resolve send_append_entries_range_lead : respects.

Ltac ballot_leaf :=
  intros; repeat case_match;
  lazymatch goal with
  | |- lead_moves _ _ => apply keeps_ballot_lead
  | |- ballot_moves _ _ => apply keeps_ballot_moves
  end;
  (split; [intros [? ? ? ? ? Hn]; split; try done; cbn; rewrite ?dom_alter_L, ?dom_fmap_L; exact Hn
          |reflexivity]).
Ltac ballot_auto :=
  repeat first [ solve [ eauto with respects ] | respects_step | solve [ ballot_leaf ] ].

Lemma send_append_entries_loop_lead fuel to i :
  respects lead_moves (send_append_entries_loop fuel to i).
Proof.
  revert i. induction fuel as [|fuel IH]; intros i; cbn [send_append_entries_loop]; ballot_auto.
Qed.
#[local] Hint Resolve send_append_entries_loop_lead : respects.
Lemma send_append_entries_lead to i : respects lead_moves (send_append_entries to i).
Proof. unfold send_append_entries. ballot_auto. Qed.
#[local] Hint Resolve send_append_entries_lead : respects.
Lemma send_append_entries_to_all_lead : respects lead_moves send_append_entries_to_all.
Proof. unfold send_append_entries_to_all. ballot_auto. Qed.

Lemma send_response_moves to r :
  respects ballot_moves (send_authenticated to (MsgAppendEntriesResponse r)).
Proof. by apply send_authenticated_moves. Qed.
Lemma send_denial_moves to term :
  respects ballot_moves (send_authenticated to
    (MsgRequestVoteResponse (MkRequestVoteResponse term false))).
Proof. by apply send_authenticated_moves. Qed.
#[local] Hint Resolve send_response_moves send_denial_moves : respects.

Lemma send_append_entries_response_moves to a r :
  respects ballot_moves (send_append_entries_response to a r).
Proof. unfold send_append_entries_response, assign_state. ballot_auto. Qed.

Lemma send_request_vote_moves to : to <> me -> respects ballot_moves (send_request_vote to).
Proof.
  intros Hto. assert (forall r, respects ballot_moves (send_authenticated to (MsgRequestVote r)))
    by (intros r; by apply send_authenticated_moves).
  unfold send_request_vote. ballot_auto.
Qed.
#[local] Hint Resolve send_append_entries_response_moves : respects.

(** ** Changing role *)

Lemma wp_bind_keeps {A B} (m : M A) (f : A -> M B) (R : Aft -> Prop) Q E s :
  wp m (fun _ => R) E s -> (forall a s', R s' -> wp (f a) Q E s') -> wp (m ≫= f) Q E s.
Proof. intros H1 H2. apply wp_bind. eapply wp_mono; [exact H1|auto|auto]. Qed.

(** Stepping down: no exception escapes. *)
Lemma become_follower_ballots s :
  static me conf s ->
  wp become_follower
    (fun _ s' => static me conf s' /\ ballot_of s' = (ballot_of s) <| b_leadership := Some Follower |>)
    (fun _ _ => False) s.
Proof.
  intros H. unfold become_follower.
  wp_step. unfold restart_election_timeout. do 2 wp_step. wp_step. aft_step. wp_step.
  unfold clear_orc_sets, reset_last_ack_timeouts. do 3 wp_step.
  match goal with |- wp _ _ _ ?x => set (s1 := x) end.
  assert (H1 : keeps_ballot me conf s s1).
  { split; [intros []; split; try done; cbn; by rewrite dom_fmap_L|].
    unfold ballot_of, s1. cbn. by rewrite sent_of_app, app_nil_r. }
  clearbody s1. eapply wp_bind_keeps; [by apply rollback_ballot, H1|].
  intros _ s2 H2. assert (H12 : keeps_ballot me conf s s2) by (by etransitivity). clear H1 H2.
  destruct H12 as [Hst Hb]. specialize (Hst H). wp_step.
  unfold can_endorse_primary, is_learner, is_retiring.
  rewrite (not_retired me conf s2 Hst), (st_active _ _ _ Hst). apply wp_modify.
  split; [by destruct Hst|]. rewrite <- Hb. done.
Qed.

(** Adopting a newer term, or giving up on an election of the current one. *)
Lemma become_aware_of_new_term_ballots term s :
  static me conf s ->
  current_view (state s) < term \/
    (term = current_view (state s) /\ leadership_state s = Some Candidate) ->
  wp (become_aware_of_new_term term)
    (fun _ s' => static me conf s' /\
       ballot_of s' = MkBallot term (Some Follower) None ∅ (sent_of (trace s)) /\
       rtc step (ballot_of s) (ballot_of s'))
    (fun _ _ => False) s.
Proof.
  intros H Hterm. unfold become_aware_of_new_term. aft_step. do 2 wp_step.
  eapply wp_bind_keeps; [apply become_follower_ballots; by destruct H|].
  intros _ s1 [Hst Hb]. apply wp_modify. split; [by destruct Hst|].
  change (ballot_of (s1 <| is_new_follower := true |>)) with (ballot_of s1). rewrite Hb.
  split; [done|]. apply rtc_once.
  destruct Hterm as [Hlt|[-> Hcand]].
  - by apply (bs_new_term me (dom conf) cands heard (ballot_of s) term).
  - by apply (bs_withdraw me (dom conf) cands heard (ballot_of s)).
Qed.
(** ** Winning an election *)

Context (Hme : me ∈ dom conf) (Hsize : Z.of_nat (size (dom conf)) < u64_modulus).

Lemma cluster_size s :
  static me conf s -> u64 (map_size (nodes s) + 1) = Z.of_nat (size (dom conf)).
Proof.
  intros H. unfold map_size. rewrite <- size_dom, (st_nodes _ _ _ H).
  pose proof (subseteq_size {[me]} (dom conf) ltac:(by apply singleton_subseteq_l)) as Hle.
  rewrite size_difference, size_singleton in * by (by apply singleton_subseteq_l).
  rewrite u64_small; lia.
Qed.

(** From [s], reach a static state by steps of the machine, whether the
    computation returns or throws. *)
Abbreviation wp_moves m s := (wp m (fun _ => ballot_moves s) (fun _ => ballot_moves s) s).

Lemma wp_moves_respects {A} (m : M A) s : respects ballot_moves m -> wp_moves m s.
Proof. intros H. by apply respects_wp. Qed.

Lemma wp_moves_bind {A B} (m : M A) (f : A -> M B) s s1 :
  ballot_moves s s1 -> wp_moves m s1 ->
  (forall a s2, ballot_moves s s2 -> wp (f a) (fun _ => ballot_moves s) (fun _ => ballot_moves s) s2) ->
  wp (m ≫= f) (fun _ => ballot_moves s) (fun _ => ballot_moves s) s1.
Proof.
  intros H1 H2 H3. apply wp_bind. eapply wp_mono; [exact H2|..]; intros ? s2 Hs2.
  - apply H3. by etransitivity.
  - by etransitivity.
Qed.

Lemma wp_moves_trans {A} (m : M A) s s1 :
  ballot_moves s s1 -> wp_moves m s1 ->
  wp m (fun _ => ballot_moves s) (fun _ => ballot_moves s) s1.
Proof. intros H1 H2. eapply wp_mono; [exact H2|..]; intros ? s2 Hs2; by etransitivity. Qed.

(** Sending the first append entries of a new leader. *)
Lemma announce_lead (l : list (NodeId * NodeState)) next :
  respects lead_moves (foreach l (fun '(id, _) =>
    modify (fun s => s <| nodes :=
      alter (fun n => n <| match_idx := 0 |> <| sent_idx := u64 (next - 1) |>) id (nodes s) |>);;
    send_append_entries id next)).
Proof. ballot_auto. Qed.

Lemma become_leader_ballots s :
  static me conf s -> leadership_state s = Some Candidate ->
  Z.of_nat (size (dom conf)) / 2 + 1 <= Z.of_nat (size (votes_for_me s)) ->
  wp_moves become_leader s.
Proof.
  intros H Hcand Hq. unfold become_leader. wp_step. rewrite (not_retired me conf s H). do 2 wp_step.
  set (s1 := _ <| committable_indices := [] |>).
  assert (H1 : keeps_ballot me conf s s1) by (by split; [intros []|]). clearbody s1.
  eapply (wp_bind_keeps _ _ (keeps_ballot me conf s)).
  { destruct (0 <? _).
    - eapply wp_mono; [apply rollback_ballot, H1, H|..]; [intros ? s2 H2; by etransitivity|done].
    - apply wp_modify. etransitivity; [exact H1|].
      by apply (emit_ballot me conf (StoreInitialiseTerm (current_view (state s)))). }
  intros _ s2 H2. do 4 wp_step. unfold reset_last_ack_timeouts. do 2 wp_step.
  match goal with |- wp _ _ _ ?x => set (s3 := x) end.
  assert (H3 : ballot_moves s s3 /\ leadership_state s3 = Some Leader).
  { split; [|done]. destruct H2 as [Hst Hb]. apply ballot_moves_step.
    - intros _. destruct (Hst H). split; try done. cbn. by rewrite dom_fmap_L.
    - assert (E : ballot_of s3 = (ballot_of s) <| b_leadership := Some Leader |>)
        by (by rewrite <- Hb).
      rewrite E. by apply (bs_lead me (dom conf) cands heard (ballot_of s)). }
  clearbody s3. destruct H3 as [H3 HL]. eapply wp_moves_trans; [exact H3|].
  destruct (H3 H) as [Hst3 _]. destruct (_ =? _).
  - eapply wp_mono; [by apply commit_ballot|..]; intros ? s4 H4; by apply keeps_ballot_moves.
  - eapply wp_mono; [apply respects_wp, announce_lead|..]; intros ? s4 H4; by apply H4.
Qed.

Lemma add_vote_for_me_ballots from s :
  static me conf s -> leadership_state s = Some Candidate ->
  (from = me \/ from ∈ dom conf /\ heard from (current_view (state s))) ->
  wp_moves (add_vote_for_me from) s.
Proof.
  intros H Hcand Hfrom. unfold add_vote_for_me. wp_step. rewrite (st_1tx _ _ _ H). do 2 wp_step.
  set (s1 := s <| votes_for_me := _ |>).
  assert (H1 : ballot_moves s s1).
  { apply ballot_moves_step; [by intros []|].
    by apply (bs_count me (dom conf) cands heard (ballot_of s) from). }
  assert (E1 : leadership_state s1 = Some Candidate) by done. clearbody s1.
  eapply wp_moves_trans; [exact H1|]. destruct (H1 H) as [Hst1 _].
  rewrite (cluster_size s1 Hst1). unfold get_quorum. rewrite (st_cft _ _ _ Hst1).
  wp_step; [|by apply wp_ret]. apply become_leader_ballots; [done..|lia].
Qed.

Lemma become_candidate_ballots s :
  static me conf s -> 0 <= current_view (state s) < u64_max -> wp_moves become_candidate s.
Proof.
  intros H Hview. unfold become_candidate. wp_step. do 2 wp_step.
  unfold clear_orc_sets. do 3 wp_step. aft_step. unfold restart_election_timeout.
  do 3 wp_step. aft_step. wp_step. unfold reset_last_ack_timeouts. wp_step.
  rewrite (st_me _ _ _ H).
  match goal with |- wp _ _ _ ?x => set (s1 := x) end.
  assert (H1 : ballot_moves s s1 /\ leadership_state s1 = Some Candidate).
  { split; [|done]. apply ballot_moves_step.
    - intros []. split; try done. cbn. by rewrite dom_fmap_L.
    - assert (E : ballot_of s1 = MkBallot (current_view (state s) + 1) (Some Candidate) (Some me)
        ∅ (sent_of (trace s))).
      { unfold ballot_of, s1. cbn. rewrite sent_of_app, app_nil_r, u64_small by u64_lia. done. }
      rewrite E. apply (bs_stand me (dom conf) cands heard (ballot_of s)). }
  clearbody s1. destruct H1 as [H1 E1].
  eapply wp_moves_bind; [exact H1|apply add_vote_for_me_ballots; [by apply H1|done|by left]|].
  intros _ s2 H2. wp_step. eapply wp_moves_trans; [exact H2|].
  destruct (H2 H) as [Hst2 _]. rewrite (st_cft _ _ _ Hst2).
  apply wp_moves_respects, respects_foreach_in; [typeclasses eauto|].
  intros [id n] Hin. apply send_request_vote_moves.
  apply elem_of_map_to_list, elem_of_dom_2 in Hin. rewrite (st_nodes _ _ _ Hst2) in Hin.
  intros ->. by apply elem_of_difference in Hin as [_ []%not_elem_of_singleton].
Qed.
(** ** Handlers *)

#[local] Hint Resolve send_append_entries_to_all_lead : respects.

Lemma become_follower_steps s : static me conf s -> wp_moves become_follower s.
Proof.
  intros H. eapply wp_mono; [by apply become_follower_ballots| |done].
  intros _ s' [Hst Hb] _. split; [done|]. rewrite Hb.
  apply rtc_once, (bs_step_down me (dom conf) cands heard (ballot_of s)).
Qed.

Lemma periodic_ballots elapsed s :
  static me conf s -> 0 <= current_view (state s) < u64_max -> wp_moves (periodic elapsed) s.
Proof.
  intros H Hview. unfold periodic. do 2 wp_step.
  set (s1 := s <| timeout_elapsed := _ |>).
  assert (H1 : ballot_moves s s1) by (apply keeps_ballot_moves; by split; [intros []|]).
  assert (Hv1 : current_view (state s1) = current_view (state s)) by done. clearbody s1.
  wp_step.
  - apply bool_decide_eq_true in Heqb. eapply wp_moves_trans; [exact H1|].
    destruct (H1 H) as [Hst1 _].
    apply wp_bind. eapply (wp_mono _ (fun _ => lead_moves s1) _ (fun _ => lead_moves s1));
      [|intros _ s2 H2|intros _ s2 H2; by apply H2].
    { apply respects_wp. ballot_auto. }
    destruct (H2 Heqb) as [_ H2']. do 2 wp_step.
    match goal with |- context [set nodes ?v s2] => set (s3 := set nodes v s2) end.
    assert (H3 : ballot_moves s1 s3).
    { etransitivity; [exact H2'|]. apply keeps_ballot_moves. split; [|done].
      intros []. split; try done. cbn. by rewrite dom_fmap_L. }
    clearbody s3. wp_step; [|by apply wp_ret].
    eapply wp_moves_trans; [exact H3|]. apply become_follower_steps. by apply H3.
  - rewrite bool_decide_false by (destruct (H1 H) as [Hst1 _]; by rewrite (st_cft _ _ _ Hst1)).
    wp_step; [|by apply wp_ret].
    eapply wp_moves_trans; [exact H1|]. apply become_candidate_ballots; [by apply H1|lia].
Qed.

Lemma become_aware_steps term s :
  static me conf s ->
  current_view (state s) < term \/
    (term = current_view (state s) /\ leadership_state s = Some Candidate) ->
  wp_moves (become_aware_of_new_term term) s.
Proof.
  intros H Ht. eapply wp_mono; [by apply become_aware_of_new_term_ballots| |done].
  intros _ s' (Hst & _ & R) _. done.
Qed.

Lemma send_request_vote_response_denied from : respects ballot_moves (send_request_vote_response from false).
Proof. unfold send_request_vote_response. ballot_auto. Qed.

(** Granting a vote. *)
Lemma grant_moves from s :
  cands from -> (voted_for s = None \/ voted_for s = Some from) ->
  wp_moves ((restart_election_timeout;; leader_id <~ None;; voted_for <~ Some from);;
            send_request_vote_response from true) s.
Proof.
  intros Hc Hv. wp_step. unfold restart_election_timeout. do 3 wp_step. aft_step. wp_step.
  do 2 wp_step. wp_step. unfold send_request_vote_response, send_authenticated. do 4 wp_step.
  aft_step. do 2 wp_step.
  match goal with |- ballot_moves s ?x => set (s1 := x) end.
  set (s0 := s <| voted_for := Some from |>).
  apply (transitivity (y:=s0)).
  { apply ballot_moves_step; [by intros []|].
    by apply (bs_choose me (dom conf) cands heard (ballot_of s)). }
  apply ballot_moves_step; [by intros []|].
  assert (E : ballot_of s1 = (ballot_of s0) <| b_sent := b_sent (ballot_of s0) ++ [(from, grant (b_view (ballot_of s0)))] |>).
  { unfold ballot_of, s1, s0. cbn. by rewrite !sent_of_app, app_nil_r. }
  rewrite E. by apply (bs_grant me (dom conf) cands heard (ballot_of s0)).
Qed.

Lemma recv_request_vote_ballots from r s :
  static me conf s -> cands from -> wp_moves (recv_request_vote from r) s.
Proof.
  intros H Hc. unfold recv_request_vote. wp_step.
  pose proof (send_request_vote_response_denied from) as Hdeny.
  wp_step; [by apply wp_moves_respects|].
  eapply wp_moves_bind; [reflexivity| |].
  { wp_step; [apply become_aware_steps; [done|left; lia]|by apply wp_ret]. }
  intros _ s1 H1. wp_step. eapply wp_moves_trans; [exact H1|].
  wp_step; [by apply wp_moves_respects|].
  destruct (from_option _ false (voted_for s1)) eqn:Ev; [by apply wp_moves_respects|].
  assert (Hv : voted_for s1 = None \/ voted_for s1 = Some from).
  { destruct (voted_for s1) as [v|]; cbn in *; [right|by left].
    apply negb_false_iff, bool_decide_eq_true in Ev. congruence. }
  destruct (_ || _).
  - by apply grant_moves.
  - wp_step. by apply wp_moves_respects.
Qed.

Lemma recv_request_vote_response_ballots from r s :
  static me conf s -> (rvr_vote_granted r = true -> heard from (rvr_term r)) ->
  wp_moves (recv_request_vote_response from r) s.
Proof.
  intros H Hheard. unfold recv_request_vote_response, is_leadership. wp_step.
  case_bool_decide as Hcand; cbn [negb]; [|by apply wp_ret].
  unfold has. case_bool_decide as Hin; cbn [negb]; [|by apply wp_ret].
  wp_step; [apply become_aware_steps; [done|left; lia]|].
  destruct (Z.eqb_spec (current_view (state s)) (rvr_term r)) as [E|]; [|by apply wp_ret].
  cbn [negb]. destruct (rvr_vote_granted r) eqn:G; cbn [negb]; [|by apply wp_ret].
  apply add_vote_for_me_ballots; [done..|]. right. rewrite E. split; [|auto].
  apply elem_of_dom in Hin. rewrite (st_nodes _ _ _ H) in Hin. by apply elem_of_difference in Hin as [? _].
Qed.
(** Append entries, from a store that reports no configuration change. *)
Definition no_hooks (ds : list Effect -> Executed) : Prop := forall tr, ex_hooks (ds tr) = [].

Context (Hstore : forall tr entry po tx ds, env_store_apply tr entry po tx = Some ds -> no_hooks ds).

Lemma deserialise_entries_moves fuel from r i data acc s :
  Forall (fun x => no_hooks x.1) acc ->
  wp (deserialise_entries fuel from r i data acc)
    (fun o s' => ballot_moves s s' /\ forall l, o = Some l -> Forall (fun x => no_hooks x.1) l)
    (fun _ => ballot_moves s) s.
Proof.
  assert (Hfail : forall Q : option (list ((list Effect -> Executed) * Z)) -> Aft -> Prop,
    (forall s', ballot_moves s s' -> Q None s') ->
    wp (send_append_entries_response from FAIL None;; mret None) Q (fun _ => ballot_moves s) s).
  { intros Q HQ. eapply (wp_call_bind ballot_moves);
      [apply send_append_entries_response_moves|intros _ s' Hs'; apply HQ, Hs'|done]. }
  revert i data acc. induction fuel as [|fuel IH]; intros i data acc Hacc;
    cbn [deserialise_entries];
    (destruct (ae_idx r <? i); [apply wp_ret; split; [done|by intros l [= <-]]|]); [done|].
  wp_step. wp_step.
  - destruct (env_skip_entry data); [by apply IH|done].
  - destruct (env_get_entry data) as [[entry data']|]; [|by apply Hfail].
    destruct (env_store_apply _ _ _ _) as [ds|] eqn:E; [|by apply Hfail].
    apply IH, Forall_app. split; [done|]. apply Forall_singleton. by eapply Hstore.
Qed.

Lemma commit_if_possible_ballots idx s : static me conf s -> wp_moves (commit_if_possible idx) s.
Proof.
  intros H. eapply wp_mono; [by apply commit_if_possible_ballot|..];
    intros ? s' Hs'; by apply keeps_ballot_moves.
Qed.

Lemma execute_entry_moves from r ds i s :
  static me conf s -> no_hooks ds -> wp_moves (execute_entry from r ds i) s.
Proof.
  intros H Hds. unfold execute_entry. wp_step.
  eapply wp_moves_bind; [reflexivity|apply wp_moves_respects; ballot_auto|intros _ s1 H1].
  destruct (bool_decide _).
  { eapply wp_moves_trans; [exact H1|]. apply wp_moves_respects. ballot_auto. }
  rewrite Hds. cbn [foreach].
  eapply wp_moves_bind; [exact H1|apply wp_moves_respects; unfold assign_state; ballot_auto|].
  intros _ s2 H2. wp_step.
  eapply wp_moves_bind; [exact H2|apply wp_moves_respects; ballot_auto|intros _ s3 H3].
  eapply wp_moves_bind; [exact H3|apply wp_moves_respects; ballot_auto|intros _ s4 H4].
  eapply wp_moves_bind; [exact H4| |intros _ s5 H5; by apply wp_ret].
  destruct (H4 H) as [Hst4 _].
  destruct (ex_result _); try (by apply wp_ret); try (by apply wp_throw).
  wp_step. rewrite (not_retired me conf s4 Hst4). cbn [andb]. wp_step.
  eapply wp_moves_bind; [reflexivity|apply wp_moves_respects; ballot_auto|intros _ s5 H5].
  wp_step; [by apply wp_ret|].
  eapply wp_moves_bind; [exact H5|apply wp_moves_respects; ballot_auto|intros _ s6 H6].
  eapply wp_moves_trans; [exact H6|]. apply commit_if_possible_ballots. by apply H6.
Qed.

Lemma execute_append_entries_finish_ballots r from s :
  static me conf s -> wp_moves (execute_append_entries_finish r from) s.
Proof.
  intros H. unfold execute_append_entries_finish.
  eapply wp_moves_bind; [reflexivity|by apply commit_if_possible_ballots|intros _ s1 H1].
  wp_step. eapply wp_moves_trans; [exact H1|]. apply wp_moves_respects. ballot_auto.
Qed.

Lemma execute_append_entries_sync_ballots l from r s :
  static me conf s -> Forall (fun x => no_hooks x.1) l ->
  wp_moves (execute_append_entries_sync l from r) s.
Proof.
  intros H Hl. revert s H. induction Hl as [|[ds i] l Hds _ IH]; intros s H;
    cbn [execute_append_entries_sync]; [by apply execute_append_entries_finish_ballots|].
  eapply wp_moves_bind; [reflexivity|by apply execute_entry_moves|intros b s1 H1].
  destruct b; [|by apply wp_ret]. eapply wp_moves_trans; [exact H1|]. apply IH. by apply H1.
Qed.

Lemma rollback_ballots idx s : static me conf s -> wp_moves (rollback idx) s.
Proof.
  intros H. eapply wp_mono; [by apply rollback_ballot| |done].
  intros ? s' Hs'. by apply keeps_ballot_moves.
Qed.

Lemma append_entries_accepted_ballots from r data s :
  static me conf s -> wp_moves (append_entries_accepted from r data) s.
Proof.
  intros H. unfold append_entries_accepted.
  eapply wp_moves_bind; [reflexivity|apply wp_moves_respects; ballot_auto|intros _ s1 H1].
  eapply wp_moves_bind; [exact H1|apply wp_moves_respects; ballot_auto|intros _ s2 H2].
  wp_step. wp_step; [by apply wp_ret|]. wp_step; [by apply wp_ret|].
  eapply wp_moves_bind; [exact H2| |intros _ s3 H3].
  { wp_step; [|by apply wp_ret].
    eapply wp_moves_bind; [reflexivity| |intros _ s3 H3].
    - wp_step; [apply rollback_ballots; by apply H2|by apply wp_ret].
    - eapply wp_moves_trans; [exact H3|]. apply wp_moves_respects. ballot_auto. }
  eapply wp_moves_trans; [exact H3|]. apply wp_bind.
  eapply wp_mono; [by apply deserialise_entries_moves| |done].
  intros [l|] s4 [H4 Hl]; [|by apply wp_ret].
  eapply wp_moves_trans; [exact H4|]. apply execute_append_entries_sync_ballots; [|auto].
  apply H4. by apply H3.
Qed.

Lemma recv_append_entries_ballots from r data s :
  static me conf s -> wp_moves (recv_append_entries from r data) s.
Proof.
  intros H. unfold recv_append_entries. wp_step.
  wp_step; [apply wp_moves_respects; ballot_auto|]. apply Z.ltb_ge in Heqb.
  eapply wp_moves_bind; [reflexivity| |intros _ s1 H1].
  { wp_step; [|by apply wp_ret]. apply become_aware_steps; [done|].
    apply orb_true_iff in Heqb0 as [Hlt|Hc%bool_decide_eq_true]; [left; lia|].
    destruct (decide (current_view (state s) < ae_term r)); [by left|right]. split; [lia|done]. }
  wp_step. eapply wp_moves_trans; [exact H1|]. destruct (H1 H) as [Hst1 _].
  wp_step; [apply wp_moves_respects; ballot_auto|].
  eapply wp_moves_bind; [reflexivity|apply wp_moves_respects; ballot_auto|intros _ s2 H2].
  wp_step; (eapply wp_moves_trans; [exact H2|]).
  - apply wp_moves_respects. ballot_auto.
  - apply append_entries_accepted_ballots. by apply H2.
Qed.
Lemma update_commit_ballots s : static me conf s -> wp_moves update_commit s.
Proof.
  intros H. eapply wp_mono; [by apply update_commit_ballot|..];
    intros ? s' Hs'; by apply keeps_ballot_moves.
Qed.

Lemma recv_append_entries_response_ballots from r s :
  static me conf s -> wp_moves (recv_append_entries_response from r) s.
Proof.
  intros H. unfold recv_append_entries_response. wp_step. wp_step; [by apply wp_ret|].
  wp_step; [|by apply wp_ret]. wp_step.
  match goal with |- context [set nodes ?v s] => set (s1 := set nodes v s) end.
  assert (H1 : ballot_moves s s1 /\ current_view (state s1) = current_view (state s)).
  { split; [|done]. apply keeps_ballot_moves. split; [|done].
    intros []. split; try done. cbn. by rewrite dom_alter_L. }
  clearbody s1. destruct H1 as [H1 E1]. eapply wp_moves_trans; [exact H1|].
  wp_step; [apply become_aware_steps; [by apply H1|left; lia]|]. wp_step; [by apply wp_ret|].
  eapply wp_moves_bind; [reflexivity|apply wp_moves_respects; ballot_auto|intros m s2 H2].
  eapply wp_moves_bind; [exact H2|apply wp_moves_respects; ballot_auto|intros _ s3 H3].
  wp_step; (eapply wp_moves_trans; [exact H3|]).
  - apply wp_moves_respects. ballot_auto.
  - apply update_commit_ballots, H3, H1, H.
Qed.

(** Replicating local entries that change no configuration. *)
Lemma replicate_entry_ballots e s :
  static me conf s -> leadership_state s = Some Leader -> be_hooks e = [] ->
  wp (replicate_entry e)
    (fun _ s' => ballot_moves s s' /\ leadership_state s' = Some Leader) (fun _ => ballot_moves s) s.
Proof.
  intros H HL Hh. unfold replicate_entry. wp_step. wp_step; [by apply wp_ret|].
  eapply (wp_mono _ (fun _ => lead_moves s) _ (fun _ => lead_moves s));
    [|intros _ s' Hs'; by split; apply Hs'|intros _ s' Hs'; by apply Hs'].
  destruct (retirement_committable_idx s); [apply respects_wp; ballot_auto|].
  rewrite Hh. cbn [foreach]. wp_step.
  apply wp_bind. eapply (wp_mono _ (fun _ => keeps_ballot me conf s) _ (fun _ => keeps_ballot me conf s));
    [|intros _ s1 H1|intros _ s1 H1; by apply keeps_ballot_lead].
  { wp_step; [|by apply wp_ret]. wp_step. rewrite (not_retired me conf s H). cbn [andb]. wp_step.
    apply respects_wp. apply respects_bind; [typeclasses eauto| |intros _; auto with respects].
    apply respects_modify. intros s1. by split; [intros []|]. }
  apply keeps_ballot_lead in H1.
  eapply (wp_mono _ (fun _ => lead_moves s1) _ (fun _ => lead_moves s1));
    [|intros _ s2 H2; by etransitivity..].
  apply respects_wp. unfold assign_state. ballot_auto.
Qed.

Lemma replicate_ballots entries term s :
  static me conf s -> Forall (fun e => be_hooks e = []) entries ->
  wp_moves (replicate entries term) s.
Proof.
  intros H He. unfold replicate, is_leadership. wp_step.
  case_bool_decide as HL; cbn [negb].
  2: { eapply wp_moves_bind; [reflexivity|by apply rollback_ballots|intros _ s1 H1; by apply wp_ret]. }
  wp_step; [by apply wp_ret|]. clear Heqb. revert s H HL.
  induction He as [|e entries He _ IH]; intros s H HL; cbn [replicate_entries].
  - wp_step. eapply wp_moves_bind; [reflexivity| |intros _ s1 H1; by apply wp_ret].
    wp_step; [by apply update_commit_ballots|by apply wp_ret].
  - apply wp_bind. eapply wp_mono; [by apply replicate_entry_ballots| |done].
    intros b s1 [H1 HL1]. destruct b; [|by apply wp_ret].
    eapply wp_moves_trans; [exact H1|]. apply IH; [by apply H1|done].
Qed.

(** A message from [from], and what it says about elections. *)
Lemma handle_RaftMsg_moves from m data s :
  static me conf s ->
  (forall r, m = MsgRequestVote r -> cands from) ->
  (forall r, m = MsgRequestVoteResponse r -> rvr_vote_granted r = true -> heard from (rvr_term r)) ->
  wp_moves (handle_RaftMsg from m data) s.
Proof.
  intros H Hc Hh. destruct m as [r|r|r|r]; cbn.
  - by apply recv_append_entries_ballots.
  - by apply recv_append_entries_response_ballots.
  - apply recv_request_vote_ballots; [done|by eapply Hc].
  - apply recv_request_vote_response_ballots; [done|by apply Hh].
Qed.
End moves.
