(* ===== verification/RaftNetwork.v ===== *)
(** A cluster of consensus nodes and election safety.

    The state of the cluster is the state of its nodes: the messages in flight
    are those in their traces, and a message may be delivered at any time, any
    number of times, or never. *)

From stdpp Require Import functions.
From S2P Require Import Prelude Serialized Views RaftTypes Raft RaftWire RaftLog RaftCommit RaftElection.

(** ** Invariants of ballots *)

(** Node [n] has voted for itself in [term] and for nobody else. *)
Definition led_local (n : NodeId) (b : Ballot) (term : Z) : Prop :=
  term <= b_view b /\
  (term = b_view b -> b_voted b = Some n /\ b_leadership b <> Some Candidate) /\
  forall c, (c, grant term) ∉ b_sent b.

Record ballot_inv (n : NodeId) (b : Ballot) : Prop := {
  bi_grant : forall c term, (c, grant term) ∈ b_sent b ->
    term <= b_view b /\
    (term = b_view b -> b_voted b = Some c /\
       b_leadership b <> Some Candidate /\ b_leadership b <> Some Leader);
  bi_single : forall c c' term, (c, grant term) ∈ b_sent b -> (c', grant term) ∈ b_sent b -> c = c';
  bi_self : b_leadership b = Some Candidate \/ b_leadership b = Some Leader -> b_voted b = Some n;
  bi_append : forall to r, (to, MsgAppendEntries r) ∈ b_sent b -> led_local n b (ae_term r);
  bi_leader : b_leadership b = Some Leader -> led_local n b (b_view b);
  bi_request : forall to r, (to, MsgRequestVote r) ∈ b_sent b -> to <> n;
  bi_view : 0 <= b_view b
}.

(** Membership in a list that grew by one message. *)
Lemma sent_app_inv {A} (l : list A) x y : x ∈ l ++ [y] -> x ∈ l \/ x = y.
Proof. intros [H|H%list_elem_of_singleton]%elem_of_app; auto. Qed.

#[local] Instance grant_inj : Inj (=) (=) grant.
Proof. by intros t t' [= ->]. Qed.

Ltac sent_cases :=
  repeat match goal with
  | H : _ ∈ _ ++ [_] |- _ => apply sent_app_inv in H as [H|H]
  end;
  simplify_eq;
  try match goal with
  | H : grant _ = _ |- _ => unfold grant in H; discriminate H
  end.

Section local.
Context (n : NodeId) (members : gset NodeId) (cands : NodeId -> Prop) (heard : NodeId -> Z -> Prop).
Context (Hcands : forall c, cands c -> c <> n).

Lemma led_local_grow b t x :
  led_local n b t -> (forall c, x <> (c, grant t)) ->
  led_local n (b <| b_sent := b_sent b ++ [x] |>) t.
Proof.
  intros (H1 & H2 & H3) Hx. split; [done|]. split; [done|].
  intros c Hc. cbn in Hc. sent_cases; [by eapply H3|]. by eapply Hx.
Qed.

(** A message that is neither a vote nor an append entries. *)
Lemma ballot_inv_send b to m :
  ballot_inv n b -> is_grant m = false -> is_append m = false ->
  (forall r, m = MsgRequestVote r -> to <> n) ->
  ballot_inv n (b <| b_sent := b_sent b ++ [(to, m)] |>).
Proof.
  intros [I1 I2 I3 I4 I5 I6 I7] Hg Ha Hr.
  assert (Hng : forall t c, (to, m) <> (c, grant t)) by (intros t c [= _ ->]; done).
  split; cbn; try done.
  - intros c t H. sent_cases; auto.
  - intros c c' t H H'. sent_cases; by eapply I2.
  - intros to' r H. sent_cases. apply led_local_grow; [by eapply I4|apply Hng].
  - intros HL. apply led_local_grow; [auto|apply Hng].
  - intros to' r H. sent_cases; [by eapply I6|by eapply Hr].
Qed.

Lemma ballot_inv_append b to r :
  ballot_inv n b -> b_leadership b = Some Leader -> ae_term r = b_view b ->
  ballot_inv n (b <| b_sent := b_sent b ++ [(to, MsgAppendEntries r)] |>).
Proof.
  intros [I1 I2 I3 I4 I5 I6 I7] HL Ht. split; cbn; try done.
  - intros c t H. sent_cases. auto.
  - intros c c' t H H'. sent_cases. by eapply I2.
  - intros to' r' H. apply led_local_grow; [|done]. sent_cases; [by eapply I4|].
    rewrite Ht. auto.
  - intros _. apply led_local_grow; [auto|done].
  - intros to' r' H. sent_cases. by eapply I6.
Qed.

Lemma ballot_inv_grant b c :
  ballot_inv n b -> c <> n -> b_voted b = Some c ->
  ballot_inv n (b <| b_sent := b_sent b ++ [(c, grant (b_view b))] |>).
Proof.
  intros [I1 I2 I3 I4 I5 I6 I7] Hc Hv.
  assert (HnL : b_leadership b <> Some Candidate /\ b_leadership b <> Some Leader).
  { split; intros E; specialize (I3 ltac:(auto)); congruence. }
  assert (Hnled : ~ led_local n b (b_view b)).
  { intros (_ & H & _). destruct (H eq_refl). congruence. }
  split; cbn; try done.
  - intros c' t H. sent_cases; [auto|]. split; [lia|]. intros _. split; [done|]. apply HnL.
  - intros c1 c2 t H H'. sent_cases; [by eapply I2|..|done];
      match goal with H : (_, grant _) ∈ b_sent b |- _ => destruct (I1 _ _ H) as [_ H1] end;
      destruct (H1 eq_refl); congruence.
  - intros to r H. sent_cases. apply led_local_grow; [by eapply I4|].
    intros c' [= _ E]. apply Hnled. rewrite E. by eapply I4.
  - intros HL. by destruct HnL.
  - intros to r H. sent_cases. by eapply I6.
Qed.

(** Steps that send nothing and move to a newer term. *)
Lemma ballot_inv_newer b b' :
  ballot_inv n b -> b_sent b' = b_sent b -> b_view b < b_view b' ->
  (b_leadership b' = Some Candidate -> b_voted b' = Some n) -> b_leadership b' <> Some Leader ->
  ballot_inv n b'.
Proof.
  intros [I1 I2 I3 I4 I5 I6 I7] Hs Hv HC HL. split; rewrite ?Hs; try done.
  - intros c t H. destruct (I1 c t H). split; lia.
  - intros [H|H]; [auto|done].
  - intros to r H. destruct (I4 to r H) as (H1 & _ & H3). unfold led_local. rewrite Hs.
    split; [lia|]. split; [lia|done].
  - lia.
Qed.

(** Steps that send nothing and stay in the same term. *)
Lemma ballot_inv_same b b' :
  ballot_inv n b -> b_sent b' = b_sent b -> b_view b' = b_view b ->
  (forall c, (c, grant (b_view b)) ∈ b_sent b ->
     b_voted b' = Some c /\ b_leadership b' <> Some Candidate /\ b_leadership b' <> Some Leader) ->
  (led_local n b (b_view b) -> b_voted b' = Some n /\ b_leadership b' <> Some Candidate) ->
  (b_leadership b' = Some Candidate \/ b_leadership b' = Some Leader -> b_voted b' = Some n) ->
  (b_leadership b' = Some Leader -> forall c, (c, grant (b_view b)) ∉ b_sent b) ->
  ballot_inv n b'.
Proof.
  intros [I1 I2 I3 I4 I5 I6 I7] Hs Hv HG HLed HS HL. split; rewrite ?Hs, ?Hv; try done.
  - intros c t H. destruct (I1 c t H). split; [lia|]. intros ->. auto.
  - intros to r H. pose proof (I4 to r H) as Hled. destruct Hled as (H1 & H2 & H3).
    unfold led_local. rewrite Hs, Hv. split; [done|]. split; [|done].
    intros E. apply HLed. rewrite <- E. by split.
  - intros HL'. unfold led_local. rewrite Hs, Hv. split; [lia|]. split; [|auto].
    intros _. split; [auto|congruence].
Qed.

Lemma ballot_step_inv b b' :
  ballot_step n members cands heard b b' -> ballot_inv n b -> ballot_inv n b'.
Proof.
  intros Hstep Hinv. pose proof Hinv as [I1 I2 I3 I4 I5 I6 I7].
  assert (HnC : b_leadership b = Some Candidate -> forall c, (c, grant (b_view b)) ∉ b_sent b).
  { intros HC c Hc. destruct (I1 c _ Hc) as [_ H]. by destruct (H eq_refl) as (_ & [] & _). }
  destruct Hstep as [b to m Hg Ha Hr|b to r HL Ht|b t Ht|b HC|b|b c Hc Hv|b c Hc Hv|b|b v HC Hv|b HC Hq].
  - by apply ballot_inv_send.
  - by apply ballot_inv_append.
  - by eapply ballot_inv_newer.
  - eapply ballot_inv_same; [done..| | | |]; cbn; try done.
    + intros c Hc. by destruct (HnC HC c).
    + intros (_ & H & _). by destruct (H eq_refl).
    + by intros [].
  - eapply ballot_inv_same; [done..| | | |]; cbn; try done.
    + intros c Hc. destruct (I1 c _ Hc) as [_ H]. by destruct (H eq_refl).
    + intros (_ & H & _). by destruct (H eq_refl).
    + by intros [].
  - pose proof (Hcands c Hc) as Hcn. eapply ballot_inv_same; [done..| | | |]; cbn.
    + intros c' Hc'. destruct (I1 c' _ Hc') as [_ H]. destruct (H eq_refl) as [Hv' ?].
      split; [|done]. destruct Hv; congruence.
    + intros (_ & H & _). destruct (H eq_refl). destruct Hv; congruence.
    + intros H%I3. destruct Hv; congruence.
    + intros HL. specialize (I3 ltac:(auto)). destruct Hv; congruence.
  - apply ballot_inv_grant; auto.
  - eapply ballot_inv_newer; [done..| | |]; cbn; try done. lia.
  - eapply ballot_inv_same; [done..| | | |]; cbn; try done.
    + intros c Hc. by destruct (HnC HC c).
    + intros (_ & H & _). by apply H.
    + intros HL. congruence.
  - eapply ballot_inv_same; [done..| | | |]; cbn; try done.
    + intros c Hc. by destruct (HnC HC c).
    + intros (_ & H & _). by destruct (H eq_refl).
    + intros _. auto.
    + intros _. auto.
Qed.
End local.

(** ** Invariants of the cluster *)

Section cluster.
Context (conf : Nodes).

(** A quorum of the members has voted for [n] in [term]. *)
Definition backed (B : NodeId -> Ballot) (n : NodeId) (term : Z) : Prop :=
  exists Q : gset NodeId, Q ⊆ dom conf /\
    Z.of_nat (size (dom conf)) / 2 + 1 <= Z.of_nat (size Q) /\
    forall v, v ∈ Q -> v = n \/ (n, grant term) ∈ b_sent (B v).

Record cluster_inv (B : NodeId -> Ballot) : Prop := {
  ci_local : forall n, n ∈ dom conf -> ballot_inv n (B n);
  ci_append : forall n to r, n ∈ dom conf ->
    (to, MsgAppendEntries r) ∈ b_sent (B n) -> backed B n (ae_term r);
  ci_leader : forall n, n ∈ dom conf -> b_leadership (B n) = Some Leader ->
    backed B n (b_view (B n));
  ci_votes : forall n v, n ∈ dom conf -> v ∈ b_votes (B n) ->
    v ∈ dom conf /\ (v = n \/ (n, grant (b_view (B n))) ∈ b_sent (B v))
}.

Lemma ballot_step_sent n members cands heard b b' x :
  ballot_step n members cands heard b b' -> x ∈ b_sent b -> x ∈ b_sent b'.
Proof. intros [] ?; cbn; try done; apply elem_of_app; by left. Qed.

Lemma step_append_origin n members cands heard b b' to r :
  ballot_step n members cands heard b b' -> (to, MsgAppendEntries r) ∈ b_sent b' ->
  (to, MsgAppendEntries r) ∈ b_sent b \/ (b_leadership b = Some Leader /\ ae_term r = b_view b).
Proof.
  intros [] Hr; cbn in Hr; try (by left); sent_cases; auto.
Qed.

Lemma step_leader_origin n members cands heard b b' :
  ballot_step n members cands heard b b' -> b_leadership b' = Some Leader ->
  b_view b' = b_view b /\
  (b_leadership b = Some Leader \/ Z.of_nat (size members) / 2 + 1 <= Z.of_nat (size (b_votes b))).
Proof. intros [] HL; cbn in HL; try done; cbn; auto. Qed.

Lemma step_votes_origin n members cands heard b b' v :
  ballot_step n members cands heard b b' -> v ∈ b_votes b' ->
  (v ∈ b_votes b /\ b_view b' = b_view b) \/ v = n \/ (v ∈ members /\ heard v (b_view b')).
Proof.
  intros [] Hv; cbn in Hv; try (by left); try (by apply elem_of_empty in Hv).
  apply elem_of_union in Hv as [->%elem_of_singleton|Hv]; [right; done|by left].
Qed.

Lemma backed_mono B B' n term :
  (forall v x, x ∈ b_sent (B v) -> x ∈ b_sent (B' v)) -> backed B n term -> backed B' n term.
Proof.
  intros Hmono (Q & H1 & H2 & H3). exists Q. split; [done|]. split; [done|].
  intros v [->|Hv]%H3; auto.
Qed.

Section one_node.
Context (n : NodeId) (cands : NodeId -> Prop) (heard : NodeId -> Z -> Prop).
Context (Hn : n ∈ dom conf) (Hcands : forall c, cands c -> c <> n).

Lemma cluster_step B B' :
  cluster_inv B -> (forall v t, heard v t -> (n, grant t) ∈ b_sent (B v)) ->
  ballot_step n (dom conf) cands heard (B n) (B' n) -> (forall m, m <> n -> B' m = B m) ->
  cluster_inv B'.
Proof.
  intros [C1 C2 C3 C4] Hheard Hstep Hother.
  assert (Hmono : forall v x, x ∈ b_sent (B v) -> x ∈ b_sent (B' v)).
  { intros v x Hx. destruct (decide (v = n)) as [->|Hv]; [|by rewrite Hother].
    by eapply ballot_step_sent. }
  split.
  - intros m Hm. destruct (decide (m = n)) as [->|Hne]; [|rewrite Hother by done; auto].
    eapply ballot_step_inv; [exact Hcands|exact Hstep|auto].
  - intros m to r Hm Hr. apply (backed_mono B); [done|].
    destruct (decide (m = n)) as [->|Hne]; [|rewrite Hother in Hr by done; eauto].
    destruct (step_append_origin _ _ _ _ _ _ _ _ Hstep Hr) as [|[HL ->]]; eauto.
  - intros m Hm HL. apply (backed_mono B); [done|].
    destruct (decide (m = n)) as [->|Hne]; [|rewrite Hother in * by done; auto].
    destruct (step_leader_origin _ _ _ _ _ _ Hstep HL) as [-> [HL'|Hq]]; [auto|].
    exists (b_votes (B n)). split; [intros v Hv; by eapply C4|]. split; [done|].
    intros v Hv. by apply C4.
  - intros m v Hm Hv. destruct (decide (m = n)) as [->|Hne].
    + destruct (step_votes_origin _ _ _ _ _ _ _ Hstep Hv) as [[Hv' ->]|[->|[Hv' Hh]]].
      * destruct (C4 n v Hn Hv') as [? [|]]; auto.
      * auto.
      * split; [done|right]. apply Hmono. auto.
    + rewrite Hother in * by done. destruct (C4 m v Hm Hv) as [? [|]]; auto.
Qed.

Lemma cluster_steps B B' :
  cluster_inv B -> (forall v t, heard v t -> (n, grant t) ∈ b_sent (B v)) ->
  rtc (ballot_step n (dom conf) cands heard) (B n) (B' n) -> (forall m, m <> n -> B' m = B m) ->
  cluster_inv B'.
Proof.
  intros HB Hheard Hsteps. remember (B n) as b eqn:Eb. remember (B' n) as b' eqn:Eb'.
  revert B HB Hheard Eb. induction Hsteps as [b|b b1 b2 Hstep _ IH]; intros B HB Hheard Eb Hother.
  - assert (E : forall m, B' m = B m).
    { intros m. destruct (decide (m = n)) as [->|]; [congruence|auto]. }
    destruct HB as [C1 C2 C3 C4]. unfold backed in *.
    split; unfold backed; intros m; repeat (setoid_rewrite E); eauto.
  - set (B1 := <[n := b1]> B). assert (E1 : B1 n = b1) by apply fn_lookup_insert.
    assert (Eother : forall m, m <> n -> B1 m = B m) by (intros m Hm; by apply fn_lookup_insert_ne).
    apply (IH Eb' B1); [| |done|intros m Hm; rewrite Eother by done; auto].
    + eapply (cluster_step B); [done..| |done]. by rewrite E1, <- Eb.
    + intros v t Hh%Hheard. destruct (decide (v = n)) as [->|]; [|by rewrite Eother].
      rewrite E1. eapply ballot_step_sent; [exact Hstep|]. by rewrite Eb.
Qed.
End one_node.

(** At most one node leads a term. *)
Lemma backed_unique B a b term :
  cluster_inv B -> backed B a term -> backed B b term ->
  led_local a (B a) term -> led_local b (B b) term -> a = b.
Proof.
  intros HB (Qa & Ha1 & Ha2 & Ha3) (Qb & Hb1 & Hb2 & Hb3) (_ & _ & La) (_ & _ & Lb).
  pose proof (size_intersection_union Qa Qb) as Hsum.
  pose proof (subseteq_size (Qa ∪ Qb) (dom conf) ltac:(by apply union_subseteq)) as Hle.
  pose proof (Z.div_mod (Z.of_nat (size (dom conf))) 2 ltac:(lia)).
  pose proof (Z.mod_pos_bound (Z.of_nat (size (dom conf))) 2 ltac:(lia)).
  destruct (set_choose_or_empty (Qa ∩ Qb)) as [[v Hv]|HE].
  2: { apply leibniz_equiv in HE. rewrite HE, size_empty in Hsum. lia. }
  apply elem_of_intersection in Hv as [Hva Hvb].
  destruct (Ha3 v Hva) as [Ea|Ga], (Hb3 v Hvb) as [Eb|Gb]; [congruence|subst v|subst v|].
  - by destruct (La b).
  - by destruct (Lb a).
  - eapply (bi_single v (B v)); [apply HB; by apply Ha1|exact Ga|exact Gb].
Qed.
End cluster.

(** ** The cluster *)

Abbreviation System := (NodeId -> Aft).

Section network.
Context (envs : NodeId -> AftEnv) (conf : Nodes).

(** A node handles a message that another one has sent to it, its timer fires,
    or its store replicates a batch.  Terms stay below the largest 64-bit
    value, and the batches hold no reconfiguration. *)
Inductive net_step : System -> System -> Prop :=
| net_deliver sys n from m data :
    n ∈ dom conf -> from ∈ dom conf -> (n, m) ∈ sent_of (trace (sys from)) ->
    net_step sys (<[n := fst (catch (handle_RaftMsg (env:=envs n) from m data)
                               (fun _ => skip) (sys n))]> sys)
| net_periodic sys n elapsed :
    n ∈ dom conf -> current_view (state (sys n)) < u64_max ->
    net_step sys (<[n := fst (periodic (env:=envs n) elapsed (sys n))]> sys)
| net_replicate sys n entries term :
    n ∈ dom conf -> Forall (fun e => be_hooks e = []) entries ->
    net_step sys (<[n := fst (replicate (env:=envs n) entries term (sys n))]> sys).

(** Active members of one committed configuration that have not voted. *)
Definition cluster_init (sys : System) : Prop :=
  forall n, n ∈ dom conf -> static n conf (sys n) /\
    0 <= current_view (state (sys n)) /\ leadership_state (sys n) <> Some Leader /\
    leadership_state (sys n) <> Some Candidate /\ votes_for_me (sys n) = ∅ /\
    sent_of (trace (sys n)) = [].

(** Node [n] is the leader of [term], or has acted as such. *)
Definition leads (s : Aft) (term : Z) : Prop :=
  (leadership_state s = Some Leader /\ current_view (state s) = term) \/
  exists to r, SendAuthenticated to (MsgAppendEntries r) ∈ trace s /\ ae_term r = term.

Definition net_inv (sys : System) : Prop :=
  (forall n, n ∈ dom conf -> static n conf (sys n)) /\
  cluster_inv conf (fun n => ballot_of (sys n)).

Lemma cluster_init_inv sys : cluster_init sys -> net_inv sys.
Proof.
  intros H. split; [intros n Hn; by apply H|]. split.
  - intros n Hn. destruct (H n Hn) as (_ & H0 & HL & HC & _ & Hs).
    split; cbn; rewrite ?Hs; try done; try (by intros ? ? ?%elem_of_nil).
    + by intros ? ? ? ?%elem_of_nil.
    + by intros [].
  - intros n to r Hn Hr. cbn in Hr. destruct (H n Hn) as (_ & _ & _ & _ & _ & Hs).
    rewrite Hs in Hr. by apply elem_of_nil in Hr.
  - intros n Hn HL. cbn in HL. by destruct (H n Hn) as (_ & _ & [] & _).
  - intros n v Hn Hv. cbn in Hv. destruct (H n Hn) as (_ & _ & _ & _ & Hv' & _).
    rewrite Hv' in Hv. by apply elem_of_empty in Hv.
Qed.

Context (Hsize : Z.of_nat (size (dom conf)) < u64_modulus).
Context (Hstore : forall n tr entry po tx ds,
  @env_store_apply (envs n) tr entry po tx = Some ds -> no_hooks ds).

(** One operation of one node. *)
Lemma net_inv_node sys n cands heard (s' : Aft) :
  net_inv sys -> n ∈ dom conf -> (forall c, cands c -> c <> n) ->
  (forall v t, heard v t -> (n, grant t) ∈ sent_of (trace (sys v))) ->
  ballot_moves n conf cands heard (sys n) s' -> net_inv (<[n := s']> sys).
Proof.
  intros [Hst Hinv] Hn Hc Hh Hmoves. destruct (Hmoves (Hst n Hn)) as [Hst' Hsteps]. split.
  - intros m Hm. destruct (decide (m = n)) as [->|Hne].
    + by rewrite fn_lookup_insert.
    + rewrite fn_lookup_insert_ne by done. auto.
  - apply (cluster_steps conf n cands heard Hn Hc (fun m => ballot_of (sys m))).
    + done.
    + done.
    + cbn beta. by rewrite fn_lookup_insert.
    + intros m Hm. cbn beta. by rewrite fn_lookup_insert_ne.
Qed.

Lemma catch_skip_fst {S} (m : ST S unit) (s : S) : fst (catch m (fun _ => skip) s) = fst (m s).
Proof. unfold catch. destruct (m s) as [s' [a|e]]; [done|]. by destruct (catchable e). Qed.

Lemma net_step_inv sys sys' : net_step sys sys' -> net_inv sys -> net_inv sys'.
Proof.
  intros Hstep Hinv. pose proof Hinv as [Hst HB].
  destruct Hstep as [sys n from m data Hn Hfrom Hm|sys n elapsed Hn Hv|sys n entries term Hn He].
  - apply (net_inv_node sys n (fun c => c = from /\ exists r, m = MsgRequestVote r)
      (fun v t => v = from /\ m = grant t)); [done..| | |].
    + intros c (-> & r & ->) ->.
      by apply (bi_request n (ballot_of (sys n)) (ci_local _ _ HB n Hn) n r).
    + intros v t (-> & ->). done.
    + rewrite catch_skip_fst. apply (wp_fst _ (ballot_moves n conf _ _ (sys n))).
      apply handle_RaftMsg_moves; [by eauto..| |].
      * intros r ->. by eauto.
      * intros r -> Hg. split; [done|]. destruct r as [t g]. cbn in *. by subst g.
  - apply (net_inv_node sys n (fun _ => False) (fun _ _ => False)); [done..|].
    apply (wp_fst _ (ballot_moves n conf _ _ (sys n))).
    apply periodic_ballots; auto. split; [|done]. apply (bi_view n _ (ci_local _ _ HB n Hn)).
  - apply (net_inv_node sys n (fun _ => False) (fun _ _ => False)); [done..|].
    apply (wp_fst _ (ballot_moves n conf _ _ (sys n))). apply replicate_ballots; auto.
Qed.

Lemma reachable_inv sys0 sys : cluster_init sys0 -> rtc net_step sys0 sys -> net_inv sys.
Proof. intros H0 H. apply cluster_init_inv in H0. induction H; eauto using net_step_inv. Qed.

Lemma sent_of_elem tr to m : SendAuthenticated to m ∈ tr -> (to, m) ∈ sent_of tr.
Proof. intros H. apply list_elem_of_omap. by exists (SendAuthenticated to m). Qed.

Lemma leads_backed sys n term :
  net_inv sys -> n ∈ dom conf -> leads (sys n) term ->
  led_local n (ballot_of (sys n)) term /\ backed conf (fun m => ballot_of (sys m)) n term.
Proof.
  intros [_ HB] Hn [[HL <-]|(to & r & Hr%sent_of_elem & <-)].
  - split; [by apply (bi_leader n _ (ci_local _ _ HB n Hn))|by apply (ci_leader _ _ HB n Hn)].
  - split; [by apply (bi_append n _ (ci_local _ _ HB n Hn) to r)|].
    by apply (ci_append _ _ HB n to r Hn).
Qed.
End network.

(** C1: election safety.  In a cluster of any number of nodes with a fixed
    configuration, however messages are delayed, lost, duplicated or reordered
    and whatever the stores, ledgers and timers do, at most one node leads a
    term: two nodes that are leader of the same term, or have ever sent append
    entries for it, are the same node. *)
Theorem election_safety envs conf sys0 sys a b term :
  Z.of_nat (size (dom conf)) < u64_modulus ->
  (forall n tr entry po tx ds,
     @env_store_apply (envs n) tr entry po tx = Some ds -> no_hooks ds) ->
  cluster_init conf sys0 -> rtc (net_step envs conf) sys0 sys ->
  a ∈ dom conf -> b ∈ dom conf -> leads (sys a) term -> leads (sys b) term -> a = b.
Proof.
  intros Hsize Hstore H0 Hreach Ha Hb La Lb.
  pose proof (reachable_inv envs conf Hsize Hstore sys0 sys H0 Hreach) as Hinv.
  destruct (leads_backed conf sys a term Hinv Ha La).
  destruct (leads_backed conf sys b term Hinv Hb Lb).
  destruct Hinv as [_ HB]. by eapply (backed_unique conf).
Qed.

(** ** A run of three nodes *)

Definition sim_conf : Nodes :=
  {["n0" := MkNodeInfo "h0" "p"; "n1" := MkNodeInfo "h1" "p"; "n2" := MkNodeInfo "h2" "p"]}.

(** A node that has been told its configuration and ticks. *)
Definition sim_member (n : NodeId) : Aft :=
  fst (start_ticking (fst (add_configuration (env:=sim_env) 0 sim_conf ∅ ∅ (sim_node n)))).

Definition sim_periodic (n : NodeId) (elapsed : Z) (sys : System) : System :=
  <[n := fst (periodic (env:=sim_env) elapsed (sys n))]> sys.

Definition sim_deliver (n from : NodeId) (m : RaftMsg) (data : bytes) (sys : System) : System :=
  <[n := fst (catch (handle_RaftMsg (env:=sim_env) from m data) (fun _ => skip) (sys n))]> sys.

(** [n0] stands for election in term 1, [n1] votes for it, it becomes leader. *)
Definition sim_election : System :=
  sim_deliver "n0" "n1" (grant 1) []
    (sim_deliver "n1" "n0" (MsgRequestVote (MkRequestVote 1 0 0)) []
      (sim_periodic "n0" 200 sim_member)).

Lemma sim_conf_members n : n ∈ dom sim_conf -> n = "n0" \/ n = "n1" \/ n = "n2".
Proof.
  unfold sim_conf. rewrite !dom_insert_L, dom_singleton_L.
  intros [?%elem_of_singleton|[?%elem_of_singleton|?%elem_of_singleton]%elem_of_union]%elem_of_union;
    auto.
Qed.

Lemma sim_member_init : cluster_init sim_conf sim_member.
Proof.
  intros n [->|[->| ->]]%sim_conf_members; (split; [split; try (vm_compute; reflexivity)|]);
    try (eexists; split; [vm_compute; reflexivity|split; [reflexivity|done]]);
    repeat split; try (vm_compute; congruence).
Qed.

Lemma sim_election_reachable : rtc (net_step (fun _ => sim_env) sim_conf) sim_member sim_election.
Proof.
  eapply rtc_l; [apply (net_periodic _ _ sim_member "n0" 200); [by vm_compute|vm_compute; congruence]|].
  eapply rtc_l; [apply (net_deliver _ _ _ "n1" "n0" (MsgRequestVote (MkRequestVote 1 0 0)) [])|].
  - by vm_compute.
  - by vm_compute.
  - apply list_elem_of_lookup. exists 0%nat. vm_compute. reflexivity.
  - eapply rtc_l; [apply (net_deliver _ _ _ "n0" "n1" (grant 1) [])|apply rtc_refl].
    + by vm_compute.
    + by vm_compute.
    + apply list_elem_of_lookup. exists 0%nat. vm_compute. reflexivity.
Qed.

Lemma election_safety_witness :
  leads (sim_election "n0") 1 /\ (leads (sim_election "n1") 1 -> "n0" = "n1").
Proof.
  assert (H0 : leads (sim_election "n0") 1) by (left; split; vm_compute; reflexivity).
  split; [exact H0|]. intros H1.
  apply (election_safety (fun _ => sim_env) sim_conf sim_member sim_election "n0" "n1" 1).
  - vm_compute. reflexivity.
  - intros n tr entry po tx ds [= <-] tr'. cbn. unfold sim_apply. by repeat case_match.
  - exact sim_member_init.
  - exact sim_election_reachable.
  - by vm_compute.
  - by vm_compute.
  - exact H0.
  - exact H1.
Defined.
