(* ===== verification/RaftVotes.v ===== *)
(** When a node votes: the answer of [recv_request_vote] as a function of the
    node's state and of the candidate's log. *)

From S2P Require Import Prelude Serialized Views RaftTypes Raft RaftWire RaftLog RaftElection RaftNetwork.

(** The last committable entry of a node, as the pair the protocol compares. *)
Definition last_committable (s : Aft) : Z * Z :=
  (get_term_internal s (last_committable_index s), last_committable_index s).

(** The order of logs by the view, then the index, of their last committable
    entry. *)
Definition log_le (a b : Z * Z) : bool :=
  (a.1 <? b.1) || ((a.1 =? b.1) && (a.2 <=? b.2)).

Lemma pop_back_above_id l idx : (forall x, x ∈ l -> x <= idx) -> pop_back_above l idx = l.
Proof.
  induction l as [|x l IH]; intros H; cbn; [done|].
  rewrite IH by (intros y Hy; apply H; by right).
  destruct l; [|done]. destruct (Z.ltb_spec idx x); [|done]. specialize (H x ltac:(left)). lia.
Qed.

Lemma committable_le_last s x :
  log_wf (log_of s) -> x ∈ committable_indices s -> x <= last_committable_index s.
Proof.
  intros Hwf Hx. unfold last_committable_index.
  destruct (last (committable_indices s)) as [y|] eqn:E.
  - apply list_elem_of_lookup in Hx as [i Hi]. rewrite last_lookup in E.
    pose proof (lookup_lt_Some _ _ _ Hi). pose proof (lookup_lt_Some _ _ _ E).
    destruct (decide (i = pred (length (committable_indices s)))) as [->|Hne]; [simplify_eq; lia|].
    pose proof (wf_committable_inc _ Hwf i (pred (length (committable_indices s))) x y
      ltac:(cbn; lia) Hi E). lia.
  - apply last_None in E. rewrite E in Hx. by apply elem_of_nil in Hx.
Qed.

Section votes.
Context {env : AftEnv}.

(** Becoming follower drops the entries that are not committable, and nothing
    else of the log. *)
Definition uncommittable_dropped (s : Aft) : Log :=
  MkLog (last_committable_index s) (commit_idx (state s)) (committable_indices s)
    (take (upper_bound (view_history (state s)) (last_committable_index s))
       (view_history (state s))).

Lemma uncommittable_dropped_log s s' :
  log_of s' = log_of s -> uncommittable_dropped s' = uncommittable_dropped s.
Proof.
  intros E. injection E as _ E2 E3 E4. unfold uncommittable_dropped, last_committable_index.
  by rewrite E2, E3, E4.
Qed.

Lemma become_follower_log s :
  consensus_type s = CFT -> log_wf (log_of s) ->
  wp become_follower (fun _ s' => log_of s' = uncommittable_dropped s) (fun _ _ => True) s.
Proof.
  intros Hc Hwf. unfold become_follower. wp_step.
  wp_call keeps_log as s1 H1; [|done]. wp_call keeps_log as s2 H2; [|done].
  wp_call keeps_log as s3 H3; [|done]. wp_step.
  assert (H : keeps_log s s3) by (etransitivity; [|exact H3]; etransitivity; [exact H1|exact H2]).
  clear H1 H2 H3. destruct H as [E Et].
  eapply (wp_fst_bind _ _ (fun s' => log_of s' = uncommittable_dropped s)); [|intros _ s4 H4|done].
  - rewrite <- (uncommittable_dropped_log _ _ E).
    assert (Hwf3 : log_wf (log_of s3)) by (by rewrite E).
    destruct (rollback_log (last_committable_index s3) s3) as [_ ->].
    pose proof (last_committable_index_bounds s3 Hwf3).
    destruct (Z.ltb_spec (last_committable_index s3) (commit_idx (state s3))); [lia|].
    rewrite andb_false_r. unfold uncommittable_dropped. f_equal.
    apply pop_back_above_id. intros x Hx. by apply committable_le_last.
  - wp_step. wp_step; [by apply wp_modify|by apply wp_ret].
Qed.

Lemma become_aware_log term s :
  consensus_type s = CFT -> log_wf (log_of s) ->
  wp (become_aware_of_new_term term)
    (fun _ s' => log_of s' = uncommittable_dropped s) (fun _ _ => True) s.
Proof.
  intros Hc Hwf. unfold become_aware_of_new_term. aft_step. do 2 wp_step.
  match goal with |- wp _ _ _ ?x => set (s1 := x) end.
  assert (E : log_of s1 = log_of s /\ consensus_type s1 = CFT) by done. clearbody s1.
  destruct E as [E Et]. rewrite <- (uncommittable_dropped_log _ _ E).
  apply wp_bind. eapply wp_mono; [apply become_follower_log; [done|by rewrite E]| |done].
  intros ? s2 H2. by apply wp_modify.
Qed.

(** The last committable entry does not change. *)
Lemma uncommittable_dropped_last s s' :
  log_wf (log_of s) -> log_of s' = uncommittable_dropped s -> last_committable s' = last_committable s.
Proof.
  intros Hwf E. injection E as E1 E2 E3 E4. unfold last_committable.
  assert (El : last_committable_index s' = last_committable_index s).
  { unfold last_committable_index. by rewrite E2, E3. }
  rewrite El. f_equal. unfold get_term_internal. rewrite E1, E4.
  pose proof (last_committable_index_bounds s Hwf).
  rewrite Z.ltb_irrefl. destruct (Z.ltb_spec (last_idx (state s)) (last_committable_index s)); [lia|].
  rewrite ViewHistory.view_at_take by apply Hwf. by rewrite Z.min_id.
Qed.

(** A rollback does not touch the leader a node knows. *)
Definition keeps_leader (s s' : Aft) : Prop := leader_id s' = leader_id s.
#[local] Instance keeps_leader_preorder : PreOrder keeps_leader.
Proof. split; [done|]. unfold keeps_leader. intros s1 s2 s3. congruence. Qed.

Lemma emit_leader e : respects keeps_leader (emit e).
Proof. unfold emit. respects_auto. Qed.
#[local] Hint Resolve emit_leader : respects.
Lemma assert_leader b : respects keeps_leader (assert b).
Proof. unfold assert. respects_auto. Qed.
Lemma send_append_entries_range_leader to i j : respects keeps_leader (send_append_entries_range to i j).
Proof. unfold send_append_entries_range, send_authenticated. respects_auto. Qed.
#[local] Hint Resolve assert_leader send_append_entries_range_leader : respects.
Lemma send_append_entries_loop_leader fuel to i : respects keeps_leader (send_append_entries_loop fuel to i).
Proof. revert i. induction fuel as [|fuel IH]; intros i; cbn [send_append_entries_loop]; respects_auto. Qed.
#[local] Hint Resolve send_append_entries_loop_leader : respects.
Lemma create_and_remove_node_state_leader : respects keeps_leader create_and_remove_node_state.
Proof. unfold create_and_remove_node_state, send_append_entries. respects_auto. Qed.
#[local] Hint Resolve create_and_remove_node_state_leader : respects.
Lemma on_view_history_leader {A} (m : ST (list Z) A) : respects keeps_leader (on_view_history m).
Proof. intros s. unfold on_view_history. by destruct (m _). Qed.
#[local] Hint Resolve on_view_history_leader : respects.
Lemma rollback_leader idx : respects keeps_leader (rollback idx).
Proof.
  unfold rollback, rollback_retirement, rollback_configurations, assign_state. respects_auto.
Qed.
#[local] Hint Resolve rollback_leader : respects.

Lemma become_aware_leader term s :
  wp (become_aware_of_new_term term) (fun _ s' => leader_id s' = None) (fun _ s' => leader_id s' = None) s.
Proof.
  unfold become_aware_of_new_term, become_follower, restart_election_timeout, clear_orc_sets,
    reset_last_ack_timeouts. aft_step. do 3 wp_step. wp_step.
  eapply (wp_call keeps_leader); [|intros ? s' H; exact H|intros ? s' H; exact H].
  respects_auto.
Qed.
End votes.

(** The answer a node gives to a request for its vote. *)
Definition up_to_date (s : Aft) (r : RequestVote) : bool :=
  log_le (last_committable s) (rv_term_of_last_committable_idx r, rv_last_committable_idx r).

Definition free_to_vote (s : Aft) (from : NodeId) : bool :=
  bool_decide (leader_id s = None)
  && (bool_decide (voted_for s = None) || bool_decide (voted_for s = Some from)).

Definition grants (s : Aft) (from : NodeId) (r : RequestVote) : bool :=
  ((current_view (state s) <? rv_term r)
   || ((current_view (state s) =? rv_term r) && free_to_vote s from))
  && up_to_date s r.

(** What a node that answers [b] in its term leaves. *)
Definition answered (from : NodeId) (term : Z) (b : bool) (s : Aft) : Prop :=
  current_view (state s) = term /\
  last (trace s) = Some (SendAuthenticated from
    (MsgRequestVoteResponse (MkRequestVoteResponse term b))) /\
  (b = true -> voted_for s = Some from).

Section answer.
Context {env : AftEnv}.

Lemma send_request_vote_response_spec from b s :
  (b = true -> voted_for s = Some from) ->
  wp (send_request_vote_response from b) (fun _ => answered from (current_view (state s)) b)
    (fun _ _ => False) s.
Proof.
  intros Hb. unfold send_request_vote_response, send_authenticated. do 3 wp_step. aft_step.
  repeat wp_step. split; [done|]. split; [|done]. cbn. by rewrite last_snoc.
Qed.

(** The answer within the current term. *)
Lemma vote_in_term from r s :
  wp (s ← get;
    if bool_decide (is_Some (leader_id s)) then send_request_vote_response from false
    else if from_option (fun v => negb (bool_decide (v = from))) false (voted_for s)
    then send_request_vote_response from false
    else
      let last_committable_idx := last_committable_index s in
      let term_of_last_committable_idx := get_term_internal s last_committable_idx in
      let answer :=
        (term_of_last_committable_idx <? rv_term_of_last_committable_idx r)
        || ((rv_term_of_last_committable_idx r =? term_of_last_committable_idx)
            && (last_committable_idx <=? rv_last_committable_idx r)) in
      (if answer then
         restart_election_timeout;;
         leader_id <~ None;;
         voted_for <~ Some from
       else skip);;
      send_request_vote_response from answer)
    (fun _ => answered from (current_view (state s)) (free_to_vote s from && up_to_date s r))
    (fun _ _ => False) s.
Proof.
  wp_step. unfold free_to_vote.
  destruct (leader_id s) as [l|]; cbn -[log_le last_committable].
  { by apply send_request_vote_response_spec. }
  assert (Hfree : (bool_decide (voted_for s = None) || bool_decide (voted_for s = Some from)) =
    negb (from_option (fun v => negb (bool_decide (v = from))) false (voted_for s))).
  { destruct (voted_for s) as [v|]; cbn; [|done]. rewrite negb_involutive.
    repeat case_bool_decide; naive_solver. }
  rewrite Hfree.
  destruct (from_option _ _ _); cbn [negb andb]; [by apply send_request_vote_response_spec|].
  cbv zeta. rewrite (Z.eqb_sym (rv_term_of_last_committable_idx r)).
  change (_ || _) with (up_to_date s r) at 1 2. cbv zeta.
  destruct (up_to_date s r).
  - wp_step. unfold restart_election_timeout. do 3 wp_step. aft_step. do 4 wp_step.
    match goal with |- wp _ _ _ ?s1 => change (current_view (state s)) with (current_view (state s1)) end.
    by apply send_request_vote_response_spec.
  - wp_step. by apply send_request_vote_response_spec.
Qed.
End answer.

(** C21: a node votes exactly for a candidate of a newer term, or of its own
    term when it knows no leader of it and has not voted for anyone else,
    whose last committable entry is at least as recent as its own; it always
    answers, in the later of the two terms, and remembers the vote it gives. *)
Theorem vote_exactly env me conf s from r :
  static me conf s -> log_wf (log_of s) ->
  answered from (Z.max (current_view (state s)) (rv_term r)) (grants s from r)
    (fst (recv_request_vote (env:=env) from r s)).
Proof.
  intros Hst Hwf. apply wp_fst. unfold recv_request_vote, grants. wp_step.
  destruct (Z.ltb_spec (rv_term r) (current_view (state s))).
  { destruct (Z.ltb_spec (current_view (state s)) (rv_term r)),
      (Z.eqb_spec (current_view (state s)) (rv_term r)); try lia. cbn [orb andb].
    rewrite Z.max_l by lia.
    eapply wp_mono; [by apply send_request_vote_response_spec|done..]. }
  rewrite Z.max_r by lia.
  destruct (Z.ltb_spec (current_view (state s)) (rv_term r)) as [Hlt|Hge]; cbn [orb].
  - apply wp_bind. eapply wp_mono.
    { apply wp_and; [apply (become_aware_of_new_term_ballots me conf (fun _ => False) (fun _ _ => False));
        [done|by left]|].
      apply wp_and; [apply (become_aware_log (rv_term r) s); [apply Hst|done]|apply become_aware_leader]. }
    2: { by intros ? ? [[] _]. }
    intros ? s1 ((_ & Hb & _) & Hlog & Hleader).
    eapply wp_mono; [apply vote_in_term| |done]. intros ? s2.
    assert (E : free_to_vote s1 from && up_to_date s1 r = up_to_date s r).
    { unfold free_to_vote, up_to_date. injection Hb as _ _ Hv _.
      by rewrite Hleader, Hv, (uncommittable_dropped_last s s1). }
    rewrite E. injection Hb as -> _ _ _. done.
  - wp_step. assert (E : current_view (state s) = rv_term r) by lia.
    rewrite (proj2 (Z.eqb_eq _ _) E). cbn [andb].
    eapply wp_mono; [apply vote_in_term| |done]. intros ? s2. by rewrite E.
Qed.

Lemma sim_member_log_wf : log_wf (log_of (sim_member "n1")).
Proof.
  assert (E : log_of (sim_member "n1") = MkLog 0 0 [] []) by (vm_compute; reflexivity).
  rewrite E. clear E. constructor; cbn; try done; try apply increasing_nil; by intros ? ?%elem_of_nil.
Qed.

Lemma sim_member_static : static "n1" sim_conf (sim_member "n1").
Proof. apply sim_member_init. by vm_compute. Qed.

Lemma sim_member_grants : grants (sim_member "n1") "n0" (MkRequestVote 1 0 0) = true.
Proof. vm_compute. reflexivity. Qed.

Lemma sim_member_term : Z.max (current_view (state (sim_member "n1"))) 1 = 1.
Proof. vm_compute. reflexivity. Qed.

Lemma vote_exactly_witness :
  answered "n0" 1 true
    (fst (recv_request_vote (env:=sim_env) "n0" (MkRequestVote 1 0 0) (sim_member "n1"))).
Proof.
  pose proof (vote_exactly sim_env "n1" sim_conf (sim_member "n1") "n0" (MkRequestVote 1 0 0)
    sim_member_static sim_member_log_wf) as H.
  rewrite sim_member_grants in H. cbn [rv_term] in H. rewrite sim_member_term in H. exact H.
Defined.
