(* ===== verification/RaftScenarios.v ===== *)
(** What the consensus code does in situations its design has to exclude: a
    run of a small cluster, evaluated, and a leader that is being removed. *)

From stdpp Require Import functions.
From S2P Require Import Prelude Serialized Views RaftTypes Raft RaftWire RaftLog RaftNode RaftElection RaftNetwork RaftVotes.

(** ** Schedules *)

Inductive Event :=
| EPeriodic (n : NodeId) (elapsed : Z)
| EDeliver (n from : NodeId) (k : nat) (data : bytes)
| EReplicate (n : NodeId) (entries : list BatchEntry) (term : Z).

(** The [k]-th message that [from] has sent to [n]. *)
Definition nth_message (sys : System) (n from : NodeId) (k : nat) : option RaftMsg :=
  omap (fun '(to, m) => if bool_decide (to = n) then Some m else None)
    (sent_of (trace (sys from))) !! k.

Definition perform_event (conf : Nodes) (e : Event) (sys : System) : option System :=
  match e with
  | EPeriodic n elapsed =>
      if bool_decide (n ∈ dom conf) && (current_view (state (sys n)) <? u64_max)
      then Some (sim_periodic n elapsed sys) else None
  | EDeliver n from k data =>
      m ← nth_message sys n from k;
      if bool_decide (n ∈ dom conf) && bool_decide (from ∈ dom conf)
      then Some (sim_deliver n from m data sys) else None
  | EReplicate n entries term =>
      if bool_decide (n ∈ dom conf) && bool_decide (Forall (fun e => length (be_hooks e) = 0%nat) entries)
      then Some (<[n := fst (replicate (env:=sim_env) entries term (sys n))]> sys) else None
  end.

Fixpoint run_schedule (conf : Nodes) (es : list Event) (sys : System) : option System :=
  match es with
  | [] => Some sys
  | e :: es => sys' ← perform_event conf e sys; run_schedule conf es sys'
  end.

Lemma perform_event_step conf e sys sys' :
  perform_event conf e sys = Some sys' -> net_step (fun _ => sim_env) conf sys sys'.
Proof.
  destruct e as [n elapsed|n from k data|n entries term]; cbn; intros H.
  - destruct (bool_decide _ && _) eqn:E; [|done]. injection H as <-.
    apply andb_true_iff in E as [Hn%bool_decide_eq_true Hv%Z.ltb_lt].
    by apply net_periodic.
  - apply bind_Some in H as (m & Hm & H). destruct (bool_decide _ && _) eqn:E; [|done].
    injection H as <-.
    apply andb_true_iff in E as [Hn%bool_decide_eq_true Hf%bool_decide_eq_true].
    apply net_deliver; [done..|].
    apply list_elem_of_lookup_2, list_elem_of_omap in Hm as ([to m'] & Hin & Hto).
    case_bool_decide; [|done]. by simplify_eq.
  - destruct (bool_decide _ && _) eqn:E; [|done]. injection H as <-.
    apply andb_true_iff in E as [Hn%bool_decide_eq_true He%bool_decide_eq_true].
    apply net_replicate; [done|]. eapply Forall_impl; [exact He|].
    intros e Hlen. by apply nil_length_inv.
Qed.

Lemma run_schedule_reachable conf es sys sys' :
  run_schedule conf es sys = Some sys' -> rtc (net_step (fun _ => sim_env) conf) sys sys'.
Proof.
  revert sys. induction es as [|e es IH]; intros sys H; cbn in H.
  - injection H as ->. apply rtc_refl.
  - apply bind_Some in H as (sys1 & H1 & H2). eapply rtc_l; [by eapply perform_event_step|by apply IH].
Qed.

(** ** A committed entry is lost *)

(** [n0] leads term 1 and commits a signature at index 1, which [n1] has
    acknowledged. *)
Definition first_commit : list Event := [
  EPeriodic "n0" 200; EDeliver "n1" "n0" 0 []; EDeliver "n0" "n1" 0 [];
  EReplicate "n0" [MkBatchEntry 1 [1; 1; 1] true []] 1; EPeriodic "n0" 20;
  EDeliver "n1" "n0" 2 [3; 1; 1; 1]; EDeliver "n0" "n1" 1 []
].

(** [n1] is elected in term 2 and, before it signs anything, is asked by [n2],
    whose log is empty, for its vote in term 3.  [n2] wins, and commits another
    signature at index 1. *)
Definition second_commit : list Event := [
  EPeriodic "n1" 200; EDeliver "n2" "n1" 0 []; EDeliver "n1" "n2" 0 [];
  EPeriodic "n2" 200; EDeliver "n1" "n2" 1 []; EDeliver "n2" "n1" 2 [];
  EReplicate "n2" [MkBatchEntry 1 [1; 3; 1] true []] 3; EPeriodic "n2" 20;
  EDeliver "n1" "n2" 3 [3; 1; 3; 1]; EDeliver "n2" "n1" 3 []
].

(** The node has committed up to [idx], and its entry at [idx] is of [view]. *)
Definition committed_at (s : Aft) (idx view : Z) : bool :=
  (idx <=? commit_idx (state s)) && (get_term_internal s idx =? view).

(** C22: a leader that steps down before it has signed discards entries that
    may be committed.  [become_leader] clears the committable indices, so a
    leader that learns of a newer term rolls its log back to its own commit
    index and votes for candidates without the entries it had acknowledged:
    in a cluster of three nodes with a fixed configuration, two nodes commit
    different entries at the same index. *)
Theorem committed_entry_lost :
  exists sys1 sys2,
    rtc (net_step (fun _ => sim_env) sim_conf) sim_member sys1 /\
    rtc (net_step (fun _ => sim_env) sim_conf) sys1 sys2 /\
    committed_at (sys1 "n0") 1 1 = true /\ last_committable_index (sys1 "n1") = 1 /\
    committed_at (sys2 "n0") 1 1 = true /\ committed_at (sys2 "n2") 1 3 = true.
Proof.
  assert (H : from_option (fun sys1 =>
      committed_at (sys1 "n0") 1 1 && (last_committable_index (sys1 "n1") =? 1) &&
      from_option (fun sys2 => committed_at (sys2 "n0") 1 1 && committed_at (sys2 "n2") 1 3) false
        (run_schedule sim_conf second_commit sys1)) false
    (run_schedule sim_conf first_commit sim_member) = true) by (vm_compute; reflexivity).
  destruct (run_schedule sim_conf first_commit sim_member) as [sys1|] eqn:E1; [|done].
  cbn [from_option] in H.
  destruct (run_schedule sim_conf second_commit sys1) as [sys2|] eqn:E2; cbn [from_option] in H;
    [|by rewrite andb_false_r in H].
  apply andb_true_iff in H as [[H1 H2%Z.eqb_eq]%andb_true_iff [H3 H4]%andb_true_iff].
  exists sys1, sys2. split; [by eapply run_schedule_reachable|].
  split; [by eapply run_schedule_reachable|]. auto.
Qed.

(** ** A retiring leader stays leader in a term it has not won *)

Section retiring.
Context {env : AftEnv}.

(** A leader that has replicated and signed its removal, which is not committed. *)
Record removal_signed (s : Aft) : Prop := {
  rs_leader : leadership_state s = Some Leader;
  rs_retired : membership_state s = Retired;
  rs_phase : retirement_phase s = Some Signed;
  rs_committable : exists i, retirement_committable_idx s = Some i /\ i <= last_committable_index s;
  rs_configurations : Forall (fun c => conf_idx c <= last_committable_index s) (configurations s);
  rs_cft : consensus_type s = CFT;
  rs_log : log_wf (log_of s)
}.

(** The node keeps its role and its votes. *)
Definition keeps_role (s s' : Aft) : Prop :=
  leadership_state s' = leadership_state s /\ membership_state s' = membership_state s /\ retirement_phase s' = retirement_phase s /\
  votes_for_me s' = votes_for_me s /\ voted_for s' = voted_for s /\ current_view (state s') = current_view (state s).

Lemma pop_configurations_id l idx : Forall (fun c => conf_idx c <= idx) l -> pop_configurations_above l idx = l.
Proof.
  induction 1 as [|c l Hc _ IH]; [done|]. cbn. rewrite IH. destruct l; [|done]. by rewrite (proj2 (Z.ltb_ge _ _)).
Qed.

Lemma rollback_retirement_signed idx i s :
  membership_state s = Retired -> retirement_phase s = Some Signed -> retirement_committable_idx s = Some i -> i <= idx ->
  rollback_retirement idx s = (s, Ret tt).
Proof.
  intros Hm Hp Hi Hle. unfold rollback_retirement. rewrite (run_bind get _ s s s) by done. rewrite (run_bind _ _ s s tt).
  - rewrite (run_bind get _ s s s) by done. unfold is_retired. by rewrite Hm, Hp.
  - unfold is_retired. rewrite Hm, Hp, Hi. cbn. rewrite (proj2 (Z.ltb_ge _ _) Hle), !bool_decide_true by done.
    unfold mbind, ST_bind, assert. by rewrite andb_false_r.
Qed.

(** A rollback that leaves the signed removal leaves the node retired. *)
Lemma rollback_keeps_role idx i s :
  membership_state s = Retired -> retirement_phase s = Some Signed -> retirement_committable_idx s = Some i -> i <= idx ->
  Forall (fun c => conf_idx c <= idx) (configurations s) ->
  wp (rollback idx) (fun _ => keeps_role s) (fun _ _ => False) s.
Proof.
  intros Hm Hp Hi Hle Hc. unfold rollback. wp_step. wp_step; [by apply wp_ret|].
  do 3 aft_step. apply wp_on_view_history_bind, wp_modify. aft_step.
  match goal with |- wp _ _ _ ?x => set (s1 := x) end.
  apply wp_bind. unfold wp at 1. rewrite (rollback_retirement_signed idx i s1) by done. unfold rollback_configurations. wp_step.
  replace (configurations s1) with (configurations s) by done. rewrite (pop_configurations_id _ _ Hc), Nat.eqb_refl. cbn [negb]. cbv zeta.
  wp_step. destruct (reconfiguration_type s1); repeat aft_step; by unfold s1.
Qed.

Lemma become_aware_keeps_leading term s :
  removal_signed s ->
  wp (become_aware_of_new_term term) (fun _ s' => leadership_state s' = Some Leader /\ membership_state s' = Retired /\
    retirement_phase s' = Some Signed /\ votes_for_me s' = ∅ /\ voted_for s' = None /\ current_view (state s') = term) (fun _ _ => False) s.
Proof.
  intros [Hl Hm Hp (i & Hi & Hle) Hc _ _]. unfold become_aware_of_new_term, become_follower, restart_election_timeout, clear_orc_sets, reset_last_ack_timeouts.
  repeat aft_step. match goal with |- wp (rollback _ ≫= _) _ _ ?x => set (s1 := x) end.
  apply wp_bind. eapply wp_mono; [apply (rollback_keeps_role _ i s1); done| |done].
  intros ? s2 (El & Em & Ep & Ev & Ef & Et). assert (can_endorse_primary s2 = false) as Hr by (unfold can_endorse_primary, is_retired; rewrite Em; by rewrite (Hm : membership_state s1 = Retired)).
  aft_step. aft_step. rewrite Hr. cbn [andb]. repeat aft_step. cbn. rewrite El, Em, Ep, Ev, Ef, Et. done.
Qed.

(** Answering a request leaves the role of a node alone. *)
Definition keeps_leading (s s' : Aft) : Prop :=
  leadership_state s' = leadership_state s /\ membership_state s' = membership_state s /\ retirement_phase s' = retirement_phase s /\
  votes_for_me s' = votes_for_me s.

#[local] Instance keeps_leading_preorder : PreOrder keeps_leading.
Proof. split; [by intros s|]. unfold keeps_leading. intros s1 s2 s3. intuition congruence. Qed.

Lemma emit_leads e : respects keeps_leading (emit e).
Proof. unfold emit. respects_auto. Qed.
#[local] Hint Resolve emit_leads : respects.

(** C23: a leader whose removal is signed but not yet committed keeps its leadership when it becomes aware of a newer term. In
    any such state, on a request for its vote from a candidate of a newer term that is up to date, it votes for the candidate in
    that term, and is left as leader of that term without a vote: what it replicates from then on, to any node it knows
    and for any range of its log, it sends as append entries of the term in which it has voted for another. *)
Theorem retiring_leader_two_terms (s : Aft) (from : NodeId) (r : RequestVote) :
  removal_signed s -> current_view (state s) < rv_term r -> up_to_date s r = true ->
  exists s', recv_request_vote from r s = (s', Ret tt) /\
    leadership_state s' = Some Leader /\ current_view (state s') = rv_term r /\ votes_for_me s' = ∅ /\
    voted_for s' = Some from /\
    last (trace s') = Some (SendAuthenticated from (MsgRequestVoteResponse (MkRequestVoteResponse (rv_term r) true))) /\
    forall to start end_idx, is_Some (nodes s' !! to) ->
      exists s'' ae, send_append_entries_range to start end_idx s' = (s'', Ret tt) /\
        trace s'' = trace s' ++ [SendAuthenticated to (MsgAppendEntries ae)] /\ ae_term ae = rv_term r.
Proof.
  intros Hs Hterm Hup.
  assert (wp (recv_request_vote from r) (fun _ s' => answered from (rv_term r) true s' /\ leadership_state s' = Some Leader /\
    membership_state s' = Retired /\ retirement_phase s' = Some Signed /\ votes_for_me s' = ∅) (fun _ _ => False) s) as H.
  { unfold recv_request_vote. wp_step. rewrite (proj2 (Z.ltb_ge _ _)), (proj2 (Z.ltb_lt _ _)) by lia. apply wp_bind.
    eapply wp_mono; [apply wp_and; [by apply (become_aware_keeps_leading (rv_term r))|
      apply wp_and; [apply (become_aware_log (rv_term r) s); apply Hs|apply become_aware_leader]]| |by intros ? ? [[] _]].
    intros ? s1 ((El & Em & Ep & Ev & Ef & Et) & Hlog & Hleader).
    eapply wp_mono; [apply wp_and; [apply vote_in_term|apply (respects_wp keeps_leading)]| |by intros ? ? [[] _]].
    { unfold send_request_vote_response, send_authenticated, restart_election_timeout. respects_auto. }
    intros ? s2 [Ha (El' & Em' & Ep' & Ev')]. split; [|by rewrite El', Em', Ep', Ev'].
    assert (free_to_vote s1 from && up_to_date s1 r = true) as E.
    { unfold free_to_vote, up_to_date. rewrite Hleader, Ef, (uncommittable_dropped_last s s1); [exact Hup|apply Hs|done]. }
    by rewrite E, Et in Ha. }
  unfold wp in H. destruct (recv_request_vote from r s) as [s' [[]|]]; [|done]. destruct H as ((Et & Hlast & Hv) & El & Em & Ep & Ev).
  exists s'. split_and!; try done; [by apply Hv|]. intros to start end_idx [n Hn].
  unfold send_append_entries_range, mbind at 1, ST_bind at 1, get at 1. unfold is_retired, phase_gt. rewrite Em, Ep, bool_decide_true by done. cbn. rewrite Hn.
  set (ae := MkAppendEntries _ _ _ _ _ _ _). unfold send_authenticated, mbind, ST_bind, get, emit, modify, mret, ST_ret.
  destruct (env_send (trace s') to (MsgAppendEntries ae)); eexists _, ae; (split; [reflexivity|]); (split; [reflexivity|exact Et]).
Qed.
End retiring.

(** [n0] is primary, replicates and signs its removal from the configuration. *)
Definition retiring_leader_ops : list Op := [
  OpAddConfiguration 0 sim_conf ∅ ∅;
  OpForceBecomePrimary;
  OpReplicate [
    MkBatchEntry 1 [1; 2; 1] true [];
    MkBatchEntry 2 [0; 2; 2] false [HookConfiguration 2 [("n0", None)] ∅ ∅];
    MkBatchEntry 3 [1; 2; 3] true []] 2
].

Definition retiring_leader : Aft := run (env:=sim_env) retiring_leader_ops (sim_node "n0").

Lemma retiring_leader_log_wf : log_wf (log_of retiring_leader).
Proof.
  assert (log_of retiring_leader = MkLog 3 0 [1; 3] [1; 1]) as -> by (vm_compute; reflexivity). split; cbn; try lia.
  - unfold u64_max, u64_modulus. lia.
  - intros [|[|i]] [|[|j]] x y Hij Hi Hj; cbn in Hi, Hj; simplify_eq; lia.
  - intros i [->|[->|[]%not_elem_of_nil]%elem_of_cons]%elem_of_cons; lia.
  - intros [|[|i]] [|[|j]] x y Hij Hi Hj; cbn in Hi, Hj; simplify_eq; lia.
  - intros i [->|[->|[]%not_elem_of_nil]%elem_of_cons]%elem_of_cons; lia.
  - intros i [->|[->|[]%not_elem_of_nil]%elem_of_cons]%elem_of_cons; lia.
Qed.

Lemma retiring_leader_signed : removal_signed retiring_leader.
Proof.
  split; [vm_compute; reflexivity|vm_compute; reflexivity|vm_compute; reflexivity| | |vm_compute; reflexivity|exact retiring_leader_log_wf].
  - exists 3. split; [vm_compute; reflexivity|]. vm_compute. congruence.
  - assert (forallb (fun c => conf_idx c <=? last_committable_index retiring_leader) (configurations retiring_leader) = true) as H by (vm_compute; reflexivity).
    rewrite forallb_forall in H. apply Forall_forall. intros c Hc%list_elem_of_In. by apply Z.leb_le, H.
Qed.

(** Before the removal is committed it is asked by [n1] for its vote in term 5. *)
Lemma retiring_leader_two_terms_witness :
  exists s' s'' ae, recv_request_vote (env:=sim_env) "n1" (MkRequestVote 5 9 4) retiring_leader = (s', Ret tt) /\
    leadership_state s' = Some Leader /\ voted_for s' = Some "n1" /\
    send_append_entries_range (env:=sim_env) "n2" 1 3 s' = (s'', Ret tt) /\ ae_term ae = 5.
Proof.
  destruct (retiring_leader_two_terms (env:=sim_env) retiring_leader "n1" (MkRequestVote 5 9 4)) as (s' & E & Hl & _ & _ & Hv & _ & Hs).
  - exact retiring_leader_signed.
  - vm_compute. reflexivity.
  - vm_compute. reflexivity.
  - assert (option_map (fun _ => tt) (nodes (fst (recv_request_vote (env:=sim_env) "n1" (MkRequestVote 5 9 4) retiring_leader)) !! "n2") = Some tt) as Hn by (vm_compute; reflexivity).
    rewrite E in Hn. cbn [fst] in Hn. destruct (Hs "n2" 1 3) as (s'' & ae & Es & _ & Ht).
    + destruct (nodes s' !! "n2"); [by eexists|discriminate Hn].
    + exists s', s'', ae. exact (conj E (conj Hl (conj Hv (conj Es Ht)))).
Defined.
