(* ===== verification/RingBuffer.v ===== *)
(** The multiple-producer single-consumer ring buffer: src/ds/ring_buffer.h and
    the write path of src/ds/ring_buffer_types.h.

    The reader and the writers run concurrently on a shared memory area and
    three shared offsets.  Each of their functions is a program of type [Prog]: a
    tree of the shared accesses it makes, so that the accesses of different
    threads interleave in every order ([System], [sys_run]).  Accesses are
    sequentially consistent; a [compare_exchange_weak] may fail spuriously.  The
    retry loops carry fuel, and a program that runs out of it waits for ever:
    every finite run of the source is a run of the model with enough fuel. *)

From S2P Require Import Prelude Serialized.

(** ** [Const] *)

Definition pending_write_flag : Z := 2 ^ 31.
Definition length_mask : Z := 2 ^ 31 - 1.

Definition msg_max : Z := 2 ^ 32 - 2.
Definition msg_min : Z := 1.
Definition msg_none : Z := 0.
Definition msg_pad : Z := 2 ^ 32 - 1.

Definition is_power_of_2 (n : Z) : bool :=
  negb (n =? 0) && (Z.land n (u64 (u64 (Z.lnot n) + 1)) =? n).

(** The pointer is given by its address. *)
Definition is_aligned (address align : Z) : bool := address `mod` align =? 0.

Definition header_size : Z := 8.

Definition align_size (n : Z) : Z :=
  Z.land (u64 (n + (header_size - 1))) (u64 (Z.lnot (header_size - 1))).

Definition entry_size (n : Z) : Z := align_size (u64 (n + header_size)).

Definition max_size : Z := 2 ^ 31 - 1 - header_size.

Definition max_reservation_size (buffer_size : Z) : Z := buffer_size `div` 2.

(** [__builtin_clzll], for [n] other than [0]. *)
Definition clzll (n : Z) : Z := 63 - Z.log2 n.

Definition previous_power_of_2 (n : Z) : Z := Z.shiftl 1 (8 * 8 - 1 - clzll n).

(** [std::align]: the first address of the area aligned to [align] that leaves
    room for [size] bytes, and the space left from there. *)
Definition std_align (align size ptr space : Z) : option (Z * Z) :=
  let padding := (- ptr) `mod` align in
  if space <? size + padding then None else Some (ptr + padding, space - padding).

Definition find_acceptable_sub_buffer (data_ size_ : Z) : option (Z * Z) :=
  match std_align 8 8 data_ size_ with
  | None => None
  | Some (data, size) => Some (data, previous_power_of_2 size)
  end.

(** ** Headers *)

Definition message (header : Z) : Z := Z.shiftr header 32.
Definition msg_length (header : Z) : Z := Z.land header (2 ^ 32 - 1).

Definition make_header (m size : Z) (pending : bool) : Z :=
  Z.lor (Z.shiftl m 32)
    (Z.lor (Z.land size length_mask) (if pending then pending_write_flag else 0)).

(** ** Shared memory *)

(** [Offsets], and the bytes at [bd.data]. *)
Record Ring := MkRing {
  data : Z -> Z;
  head_cache : Z;
  tail : Z;
  head : Z
}.
#[export] Instance eta_Ring : Settable Ring := fun r =>
  MkRing (data r) (head_cache r) (tail r) (head r).

Definition empty_ring : Ring := MkRing (fun _ => 0) 0 0 0.

Definition store_bytes (d : Z -> Z) (index : Z) (bs : bytes) : Z -> Z := fun a =>
  if decide (index <= a < index + Z.of_nat (length bs)) then bs !!! Z.to_nat (a - index) else d a.

Definition load_bytes (d : Z -> Z) (index : Z) (n : nat) : bytes :=
  (fun j => d (index + Z.of_nat j)) <$> seq 0 n.

Inductive Loc := HeadCache | Tail | Head.

Definition load_loc (l : Loc) (r : Ring) : Z :=
  match l with HeadCache => head_cache r | Tail => tail r | Head => head r end.

Definition store_loc (l : Loc) (v : Z) (r : Ring) : Ring :=
  match l with
  | HeadCache => r <| head_cache := v |>
  | Tail => r <| tail := v |>
  | Head => r <| head := v |>
  end.

(** A program, by its next shared access and what follows it. [Handle m i n]
    calls the reader's handler with the [n] bytes at [bd.data + i]. *)
Inductive Prog (A : Type) : Type :=
| Done (a : A)
| Raise (e : exn)
| Spin
| Load (l : Loc) (k : Z -> Prog A)
| Store (l : Loc) (v : Z) (k : Prog A)
| CompareExchangeWeak (expected desired : Z) (k : bool -> Z -> Prog A)
| Read64 (index : Z) (k : Z -> Prog A)
| Write64 (index value : Z) (k : Prog A)
| Memcpy (index : Z) (bs : bytes) (k : Prog A)
| MemsetZero (index n : Z) (k : Prog A)
| Handle (m index n : Z) (k : Prog A).
Arguments Done {A} a.
Arguments Raise {A} e.
Arguments Spin {A}.
Arguments Load {A} l k.
Arguments Store {A} l v k.
Arguments CompareExchangeWeak {A} expected desired k.
Arguments Read64 {A} index k.
Arguments Write64 {A} index value k.
Arguments Memcpy {A} index bs k.
Arguments MemsetZero {A} index n k.
Arguments Handle {A} m index n k.

#[export] Instance Prog_ret : MRet Prog := fun A a => Done a.

#[export] Instance Prog_bind : MBind Prog := fun A B f =>
  fix bind p :=
  match p with
  | Done a => f a
  | Raise e => Raise e
  | Spin => Spin
  | Load l k => Load l (fun v => bind (k v))
  | Store l v k => Store l v (bind k)
  | CompareExchangeWeak e d k => CompareExchangeWeak e d (fun ok v => bind (k ok v))
  | Read64 i k => Read64 i (fun v => bind (k v))
  | Write64 i v k => Write64 i v (bind k)
  | Memcpy i bs k => Memcpy i bs (bind k)
  | MemsetZero i n k => MemsetZero i n (bind k)
  | Handle m i n k => Handle m i n (bind k)
  end.

Definition load (l : Loc) : Prog Z := Load l Done.
Definition store (l : Loc) (v : Z) : Prog unit := Store l v (Done tt).
Definition read64 (index : Z) : Prog Z := Read64 index Done.
Definition write64 (index value : Z) : Prog unit := Write64 index value (Done tt).

Section Buffer.

(** [bd.size]. *)
Context (size : Z).

Definition mask : Z := u64 (size - 1).

(** ** [Reader] *)

(** The checks of the constructor. *)
Definition new_Reader (address : Z) : outcome unit :=
  if negb (is_power_of_2 size) then Throw (LogicError "Buffer size must be a power of 2")
  else if negb (is_aligned address 8) then Throw (LogicError "Buffer must be 8-byte aligned")
  else Ret tt.

Fixpoint read_loop (fuel : nat) (limit hd_index block advance count : Z) : Prog (Z * Z) :=
  match fuel with
  | O => Spin
  | S fuel =>
      if negb ((advance <? block) && (count <? limit)) then mret (advance, count)
      else
        let msg_index := hd_index + advance in
        header ← read64 msg_index;
        let sz := msg_length header in
        if negb (Z.land sz pending_write_flag =? 0) then mret (advance, count)
        else
          let m := message header in
          if m =? msg_none then mret (advance, count)
          else if m =? msg_pad then
            read_loop fuel limit hd_index block (advance + sz) count
          else
            Handle m (msg_index + header_size) sz
              (read_loop fuel limit hd_index block (advance + entry_size sz) (count + 1))
  end.

Definition read (fuel : nat) (limit : Z) : Prog Z :=
  hd ← load Head;
  let hd_index := Z.land hd mask in
  let block := size - hd_index in
  '(advance, count) ← read_loop fuel limit hd_index block 0 0;
  if 0 <? advance then
    MemsetZero hd_index advance (store Head (u64 (hd + advance));; mret count)
  else mret count.

(** ** [Writer] *)

Definition rmax : Z := max_reservation_size size.

(** The index in the buffer and the identifier of a reservation. *)
Record Reservation := MkReservation { r_index : Z; r_identifier : Z }.

(** The exchange at the end of the loop, and what follows the loop; [retry] is
    the next iteration. *)
Definition reserve_exchange (retry : Z -> Z -> Z -> Z -> Prog (option Reservation))
    (sz hd tl padding tl_index : Z) : Prog (option Reservation) :=
  CompareExchangeWeak tl (u64 (tl + sz + padding)) (fun ok tl' =>
    if ok then
      if negb (padding =? 0) then
        write64 tl_index (make_header msg_pad padding false);;
        mret (Some (MkReservation 0 tl))
      else mret (Some (MkReservation tl_index tl))
    else retry hd tl' padding tl_index).

(** The choice between back-space and front-space. *)
Definition reserve_place (retry : Z -> Z -> Z -> Z -> Prog (option Reservation))
    (sz hd tl : Z) : Prog (option Reservation) :=
  let tl_index := Z.land tl mask in
  let block := size - tl_index in
  if block <? sz then
    let hd_index := Z.land hd mask in
    if hd_index <? sz then
      hd ← load Head;
      let hd_index := Z.land hd mask in
      if hd_index <? sz then mret None
      else store HeadCache hd;; reserve_exchange retry sz hd tl block tl_index
    else reserve_exchange retry sz hd tl block tl_index
  else reserve_exchange retry sz hd tl 0 tl_index.

Fixpoint reserve_loop (fuel : nat) (sz hd tl padding tl_index : Z) : Prog (option Reservation) :=
  match fuel with
  | O => Spin
  | S fuel =>
      let gap := u64 (tl - hd) in
      let avail := u64 (size - gap) in
      if (size <? gap) || (avail <? sz) then
        hd ← load Head;
        if tl <? hd then reserve_exchange (reserve_loop fuel sz) sz hd tl padding tl_index
        else
          let avail := u64 (size - u64 (tl - hd)) in
          if avail <? sz then mret None
          else store HeadCache hd;; reserve_place (reserve_loop fuel sz) sz hd tl
      else reserve_place (reserve_loop fuel sz) sz hd tl
  end.

Definition reserve (fuel : nat) (sz : Z) : Prog (option Reservation) :=
  hd ← load HeadCache;
  tl ← load Tail;
  reserve_loop fuel sz hd tl 0 0.

Fixpoint reserve_wait (fuel : nat) (sz : Z) : Prog Reservation :=
  match fuel with
  | O => Spin
  | S fuel' =>
      r ← reserve fuel sz;
      match r with Some r => mret r | None => reserve_wait fuel' sz end
  end.

Definition message_error : exn := LogicError "message_error".

(** Returns the marker; [r_identifier] is what is stored to [identifier]. *)
Definition prepare (fuel : nat) (m sz : Z) (wait : bool) : Prog (option (Z * Z)) :=
  if (m <? msg_min) || (msg_max <? m) then Raise message_error
  else if max_size <? sz then Raise message_error
  else
    let rsize := entry_size sz in
    if rmax <? rsize then Raise message_error
    else
      r ← reserve fuel rsize;
      r ← match r with
          | Some r => mret (Some r)
          | None => if wait then r ← reserve_wait fuel rsize; mret (Some r) else mret None
          end;
      match r with
      | None => mret None
      | Some r =>
          write64 (r_index r) (make_header m sz true);;
          mret (Some (r_index r + header_size, r_identifier r))
      end.

Definition finish (marker : option Z) : Prog unit :=
  match marker with
  | Some marker =>
      let index := marker - header_size in
      header ← read64 index;
      write64 index (make_header (message header) (msg_length header) false)
  | None => mret tt
  end.

Definition write_bytes (marker : option Z) (bs : bytes) : Prog (option Z) :=
  match marker with
  | None => mret None
  | Some index =>
      if (0 <? length bs)%nat then
        Memcpy index bs (mret (Some (index + Z.of_nat (length bs))))
      else mret (Some (index + Z.of_nat (length bs)))
  end.

(** ** [AbstractWriter::write_multiple] *)

Fixpoint write_sections (marker : option Z) (sections : list bytes) : Prog (option Z) :=
  match sections with
  | [] => mret marker
  | s :: sections => marker ← write_bytes marker s; write_sections marker sections
  end.

Definition total_size (sections : list bytes) : Z :=
  foldr (fun s n => Z.of_nat (length s) + n) 0 sections.

Definition write_multiple (fuel : nat) (m : Z) (wait : bool) (sections : list bytes) : Prog bool :=
  marker ← prepare fuel m (total_size sections) wait;
  match marker with
  | None => mret false
  | Some (initial_marker, _) =>
      next ← write_sections (Some initial_marker) sections;
      finish (Some initial_marker);;
      mret (bool_decide (is_Some next))
  end.

(** ** Concurrent runs *)

(** What a step makes visible: a reservation of so many bytes, or a message
    given to the handler. *)
Inductive RingEvent := EvReserve (n : Z) | EvDeliver (m : Z) (payload : bytes).

(** One shared access. [spurious] lets a [compare_exchange_weak] fail although
    it finds the value it expects. *)
Definition step_prog {A} (spurious : bool) (r : Ring) (p : Prog A) :
    Ring * Prog A * option RingEvent :=
  match p with
  | Done _ | Raise _ | Spin => (r, p, None)
  | Load l k => (r, k (load_loc l r), None)
  | Store l v k => (store_loc l v r, k, None)
  | CompareExchangeWeak expected desired k =>
      if (tail r =? expected) && negb spurious then
        (r <| tail := desired |>, k true expected, Some (EvReserve (u64 (desired - expected))))
      else (r, k false (tail r), None)
  | Read64 i k => (r, k (le_decode (load_bytes (data r) i 8)), None)
  | Write64 i v k => (r <| data := store_bytes (data r) i (le_encode 8 v) |>, k, None)
  | Memcpy i bs k => (r <| data := store_bytes (data r) i bs |>, k, None)
  | MemsetZero i n k =>
      (r <| data := store_bytes (data r) i (list_replicate (Z.to_nat n) 0) |>, k, None)
  | Handle m i n k => (r, k, Some (EvDeliver m (load_bytes (data r) i (Z.to_nat n))))
  end.

(** A writing thread: the message it was called with and what it has left to do. *)
Record Thread := MkThread { t_msg : Z; t_payload : bytes; t_prog : Prog bool }.

(** [reservations] lists the messages in the order in which their space was
    reserved, with the bytes reserved; [delivered] what the handler has been
    called with. *)
Record System := MkSystem {
  ring : Ring;
  writers : gmap nat Thread;
  reader : Prog Z;
  reservations : list (Z * (Z * bytes));
  delivered : list (Z * bytes)
}.
#[export] Instance eta_System : Settable System := fun r =>
  MkSystem (ring r) (writers r) (reader r) (reservations r) (delivered r).

Definition initial_system : System := MkSystem empty_ring ∅ (Done 0) [] [].

Definition finished {A} (p : Prog A) : bool :=
  match p with Done _ | Raise _ => true | _ => false end.

Inductive Choice :=
| StartWrite (t : nat) (fuel : nat) (m : Z) (wait : bool) (sections : list bytes)
| StepWriter (t : nat) (spurious : bool)
| StartRead (fuel : nat) (limit : Z)
| StepReader.

Definition reserved_by (th : Thread) (e : option RingEvent) : list (Z * (Z * bytes)) :=
  match e with Some (EvReserve n) => [(n, (t_msg th, t_payload th))] | _ => [] end.

Definition delivered_by (e : option RingEvent) : list (Z * bytes) :=
  match e with Some (EvDeliver m bs) => [(m, bs)] | _ => [] end.

(** A thread calls a function only when its previous call is over. *)
Definition sys_step (s : System) (c : Choice) : option System :=
  match c with
  | StartWrite t fuel m wait sections =>
      let th := MkThread m (concat sections) (write_multiple fuel m wait sections) in
      match writers s !! t with
      | Some th' => if finished (t_prog th') then Some (s <| writers := <[t := th]> (writers s) |>)
                    else None
      | None => Some (s <| writers := <[t := th]> (writers s) |>)
      end
  | StepWriter t spurious =>
      match writers s !! t with
      | Some th =>
          let '(r, p, e) := step_prog spurious (ring s) (t_prog th) in
          Some (MkSystem r (<[t := MkThread (t_msg th) (t_payload th) p]> (writers s)) (reader s)
            (reservations s ++ reserved_by th e) (delivered s ++ delivered_by e))
      | None => None
      end
  | StartRead fuel limit =>
      if finished (reader s) then Some (s <| reader := read fuel limit |>) else None
  | StepReader =>
      let '(r, p, e) := step_prog false (ring s) (reader s) in
      Some (MkSystem r (writers s) p (reservations s) (delivered s ++ delivered_by e))
  end.

Fixpoint sys_run (s : System) (cs : list Choice) : option System :=
  match cs with
  | [] => Some s
  | c :: cs => s' ← sys_step s c; sys_run s' cs
  end.

(** The bytes reserved over the life of the buffer. *)
Definition bytes_reserved (s : System) : Z := foldr (fun r n => fst r + n) 0 (reservations s).
End Buffer.
