(* ===== verification/RingInvariant.v ===== *)
(** The arithmetic of the ring buffer (sizes, headers, the acceptance of a memory area), its invariant, and the preservation
    of the invariant by every access of the reader and of the writers.

    Offsets only grow, so an offset [a] is an address that is never reused; the byte it stands for is at index [a mod size].
    The reserved part of the buffer, from [head] to [tail], is a chain of entries; each writer owns the entries it has
    reserved and not finished. *)

From S2P Require Import Prelude Serialized RingBuffer.

(** ** Bits *)

Lemma land_high_low a b n : 0 <= n -> 0 <= b < 2 ^ n -> Z.land (Z.shiftl a n) b = 0.
Proof.
  intros Hn Hb. apply Z.bits_inj'. intros i Hi. rewrite Z.land_spec, Z.bits_0.
  destruct (decide (i < n)).
  - by rewrite Z.shiftl_spec_low.
  - rewrite (proj1 (Z.bounded_iff_bits_nonneg n b Hn ltac:(lia))) by lia. apply andb_false_r.
Qed.

Lemma lor_high_low a b n : 0 <= n -> 0 <= b < 2 ^ n -> Z.lor (Z.shiftl a n) b = a * 2 ^ n + b.
Proof.
  intros Hn Hb. rewrite <- Z.add_nocarry_lor by by apply land_high_low.
  by rewrite Z.shiftl_mul_pow2.
Qed.

(** ** Headers *)

Lemma make_header_eq m n (b : bool) :
  0 <= n < 2 ^ 31 -> make_header m n b = m * 2 ^ 32 + ((if b then 2 ^ 31 else 0) + n).
Proof.
  intros Hn. unfold make_header, pending_write_flag, length_mask.
  change (2 ^ 31 - 1) with (Z.ones 31). rewrite Z.land_ones, Z.mod_small by lia.
  replace (Z.lor n (if b then 2 ^ 31 else 0)) with ((if b then 2 ^ 31 else 0) + n).
  - apply lor_high_low; destruct b; lia.
  - destruct b; [|by rewrite Z.lor_0_r].
    rewrite Z.lor_comm. change (2 ^ 31) with (Z.shiftl 1 31).
    rewrite lor_high_low by lia. done.
Qed.

Lemma message_make_header m n b :
  0 <= n < 2 ^ 31 -> message (make_header m n b) = m.
Proof.
  intros Hn. rewrite make_header_eq by done. unfold message.
  rewrite Z.shiftr_div_pow2, Z.div_add_l, Z.div_small; destruct b; lia.
Qed.

Lemma msg_length_make_header m n (b : bool) :
  0 <= n < 2 ^ 31 -> msg_length (make_header m n b) = (if b then 2 ^ 31 else 0) + n.
Proof.
  intros Hn. rewrite make_header_eq by done. unfold msg_length.
  change (2 ^ 32 - 1) with (Z.ones 32).
  rewrite Z.land_ones, Z.add_comm, Z.mod_add, Z.mod_small; destruct b; lia.
Qed.

Lemma land_pow2_eqb a k : 0 <= k -> (Z.land a (2 ^ k) =? 0) = negb (Z.testbit a k).
Proof.
  intros Hk. destruct (Z.testbit a k) eqn:E; cbn.
  - apply Z.eqb_neq. intros H. apply (f_equal (fun z => Z.testbit z k)) in H.
    by rewrite Z.land_spec, E, Z.pow2_bits_true, Z.bits_0 in H by done.
  - apply Z.eqb_eq, Z.bits_inj'. intros i Hi. rewrite Z.land_spec, Z.bits_0.
    destruct (decide (i = k)) as [->|]; [by rewrite E|].
    rewrite Z.pow2_bits_false by done. apply andb_false_r.
Qed.

Lemma pending_make_header m n b :
  0 <= n < 2 ^ 31 ->
  (Z.land (msg_length (make_header m n b)) pending_write_flag =? 0) = negb b.
Proof.
  intros Hn. rewrite msg_length_make_header by done. unfold pending_write_flag.
  rewrite land_pow2_eqb by lia. f_equal. destruct b.
  - apply Z.testbit_true; [lia|].
    replace (2 ^ 31 + n) with (n + 1 * 2 ^ 31) by lia. rewrite Z.div_add, Z.div_small by lia. done.
  - apply Z.testbit_false; [lia|]. rewrite Z.div_small by lia. done.
Qed.

Lemma make_header_range m n b :
  0 <= m < 2 ^ 32 -> 0 <= n < 2 ^ 31 -> 0 <= make_header m n b < 256 ^ 8.
Proof. intros Hm Hn. rewrite make_header_eq by done. destruct b; lia. Qed.

(** [finish] clears the pending bit and keeps the rest. *)
Lemma finish_header m n :
  0 <= n < 2 ^ 31 ->
  make_header (message (make_header m n true)) (msg_length (make_header m n true)) false =
  make_header m n false.
Proof.
  intros Hn. rewrite message_make_header, msg_length_make_header by done.
  rewrite (make_header_eq m n false) by done.
  unfold make_header, length_mask. change (2 ^ 31 - 1) with (Z.ones 31).
  rewrite Z.land_ones by lia. replace (2 ^ 31 + n) with (n + 1 * 2 ^ 31) by lia.
  rewrite Z.mod_add, Z.mod_small, Z.lor_0_r, lor_high_low by lia. lia.
Qed.

(** ** Sizes *)

Definition aligned (a : Z) : Prop := (8 | a).

Lemma align_size_eq n : 0 <= n <= u64_max - 7 -> align_size n = (n + 7) `div` 8 * 8.
Proof.
  intros Hn. unfold align_size, header_size, u64_max in *. rewrite u64_modulus_eq in *.
  rewrite (u64_small (n + _)) by (rewrite u64_modulus_eq; lia).
  replace (u64 (Z.lnot (8 - 1))) with (Z.ldiff (Z.ones 64) (Z.ones 3)) by reflexivity.
  rewrite Z.ldiff_land, Z.land_assoc, Z.land_ones, Z.mod_small, <- Z.ldiff_land by lia.
  rewrite Z.ldiff_ones_r, Z.shiftl_mul_pow2, Z.shiftr_div_pow2 by lia.
  replace (n + (8 - 1)) with (n + 7) by lia. done.
Qed.

Lemma entry_size_spec n :
  0 <= n <= u64_max - 15 ->
  aligned (entry_size n) /\ n + 8 <= entry_size n < n + 16.
Proof.
  intros Hn. unfold entry_size, header_size, u64_max in *. rewrite u64_modulus_eq in *.
  rewrite u64_small by (rewrite u64_modulus_eq; lia).
  rewrite align_size_eq by (unfold u64_max; rewrite u64_modulus_eq; lia).
  split; [apply Z.divide_factor_r|].
  pose proof (Z.div_mod (n + 8 + 7) 8). pose proof (Z.mod_pos_bound (n + 8 + 7) 8). lia.
Qed.

(** ** Accepted areas *)

Lemma land_opp_even q : Z.land (2 * q) (- (2 * q)) = 2 * Z.land q (- q).
Proof.
  replace (2 * q) with (Z.shiftl q 1) by (rewrite Z.shiftl_mul_pow2; lia).
  replace (- Z.shiftl q 1) with (Z.shiftl (- q) 1) by (rewrite !Z.shiftl_mul_pow2; lia).
  rewrite <- Z.shiftl_land, Z.shiftl_mul_pow2; lia.
Qed.

Lemma land_opp_odd q : Z.land (2 * q + 1) (- (2 * q + 1)) = 1.
Proof.
  replace (- (2 * q + 1)) with (Z.lnot (2 * q)) by (unfold Z.lnot; lia).
  apply Z.bits_inj'. intros i Hi. rewrite Z.land_spec, Z.lnot_spec by done.
  destruct (decide (i = 0)) as [->|].
  - by rewrite Z.testbit_odd_0, Z.testbit_even_0.
  - replace i with (Z.succ (i - 1)) by lia.
    rewrite Z.testbit_odd_succ, Z.testbit_even_succ by lia.
    change 1 with (2 * 0 + 1) at 3. rewrite Z.testbit_odd_succ, Z.bits_0 by lia.
    by destruct (Z.testbit q (i - 1)).
Qed.

Lemma land_opp_pow2 p : Z.land (Zpos p) (- Zpos p) = Zpos p <-> exists k, 0 <= k /\ Zpos p = 2 ^ k.
Proof.
  induction p as [p IH|p IH|].
  - rewrite Pos2Z.inj_xI, land_opp_odd. split; [lia|]. intros (k & Hk & E).
    destruct (decide (k = 0)) as [->|]; [lia|].
    replace k with (Z.succ (k - 1)) in E by lia. rewrite Z.pow_succ_r in E; lia.
  - rewrite Pos2Z.inj_xO, land_opp_even. split.
    + intros H. destruct IH as [[k [Hk E]] _]; [lia|]. exists (Z.succ k).
      rewrite Z.pow_succ_r by done. lia.
    + intros (k & Hk & E). destruct (decide (k = 0)) as [->|]; [lia|].
      replace k with (Z.succ (k - 1)) in E by lia. rewrite Z.pow_succ_r in E by lia.
      destruct IH as [_ IH]. rewrite IH; [done|]. exists (k - 1). lia.
  - split; [intros _; exists 0; done|done].
Qed.

Lemma is_power_of_2_spec n :
  is_u64 n -> is_power_of_2 n = true <-> exists k, 0 <= k < 64 /\ n = 2 ^ k.
Proof.
  unfold is_u64. intros Hn. unfold is_power_of_2.
  assert (forall k, 0 <= k -> 2 ^ k < u64_modulus -> k < 64) as Hk.
  { intros k Hk H. unfold u64_modulus in H. apply Z.pow_lt_mono_r_iff in H; lia. }
  destruct n as [|p|p]; [cbn|cbn [Z.eqb negb andb]|lia].
  - split; [done|]. intros (k & ? & ?). pose proof (Z.pow_pos_nonneg 2 k). lia.
  - rewrite Z.eqb_eq.
    replace (u64 (u64 (Z.lnot (Zpos p)) + 1)) with (u64 (- Zpos p)).
    2: { unfold u64, Z.lnot. rewrite Zplus_mod_idemp_l. f_equal. lia. }
    replace (Z.land (Zpos p) (u64 (- Zpos p))) with (Z.land (Zpos p) (- Zpos p)).
    2: { unfold u64, u64_modulus. rewrite <- Z.land_ones, (Z.land_comm (- _)), Z.land_assoc by lia.
         rewrite Z.land_ones, (Z.mod_small (Zpos p)) by (unfold u64_modulus in Hn; lia). done. }
    rewrite land_opp_pow2. split; intros (k & ? & E); exists k; (split; [|done]).
    + split; [lia|]. apply Hk; lia.
    + lia.
Qed.

Lemma previous_power_of_2_spec n :
  0 < n < u64_modulus ->
  exists k, 0 <= k < 64 /\ previous_power_of_2 n = 2 ^ k /\ 2 ^ k <= n < 2 ^ (k + 1).
Proof.
  intros Hn. exists (Z.log2 n). pose proof (Z.log2_nonneg n).
  pose proof (Z.log2_spec n ltac:(lia)) as [H1 H2].
  unfold previous_power_of_2, clzll.
  replace (8 * 8 - 1 - (63 - Z.log2 n)) with (Z.log2 n) by lia.
  rewrite Z.shiftl_mul_pow2, Z.mul_1_l by lia.
  split_and!; [lia| |done|done|done].
  apply Z.log2_lt_pow2; [lia|]. apply Hn.
Qed.

(** [find_acceptable_sub_buffer] fails exactly when the area has no room for
    eight aligned bytes.  Otherwise the area it returns lies inside the given
    one, takes more than half of what is left after at most seven bytes of
    alignment, and is accepted by the constructor of [Reader]. *)
Theorem sub_buffer_accepted (address size : Z) :
  0 <= address -> 0 <= size -> address + size < u64_modulus ->
  match find_acceptable_sub_buffer address size with
  | None => size < 8 + (- address) `mod` 8
  | Some (address', size') =>
      address <= address' <= address + 7 /\ 8 <= size' /\
      address' + size' <= address + size < address' + 2 * size' /\
      new_Reader size' address' = Ret tt
  end.
Proof.
  intros Ha Hs Hb. unfold find_acceptable_sub_buffer, std_align.
  pose proof (Z.mod_pos_bound (- address) 8 ltac:(lia)).
  destruct (Z.ltb_spec size (8 + (- address) `mod` 8)); [done|].
  destruct (previous_power_of_2_spec (size - (- address) `mod` 8)) as (k & Hk & -> & Hlo & Hhi);
    [lia|].
  rewrite Z.pow_add_r in Hhi by lia.
  assert (8 <= 2 ^ k).
  { change 8 with (2 ^ 3). apply Z.pow_le_mono_r; [lia|].
    destruct (decide (3 <= k)); [done|].
    assert (2 ^ k <= 2 ^ 2) by (apply Z.pow_le_mono_r; lia). lia. }
  split_and!; [lia..|]. unfold new_Reader.
  rewrite (proj2 (is_power_of_2_spec (2 ^ k) ltac:(unfold is_u64; lia)) ltac:(by exists k)).
  unfold is_aligned. cbn [negb].
  rewrite Zplus_mod_idemp_r. replace (address + - address) with 0 by lia. done.
Qed.

Lemma sub_buffer_accepted_witness :
  find_acceptable_sub_buffer 1003 1000 = Some (1008, 512) /\ new_Reader 512 1008 = Ret tt.
Proof.
  pose proof (sub_buffer_accepted 1003 1000 ltac:(lia) ltac:(lia) ltac:(reflexivity)) as H.
  split; [reflexivity|]. by apply H.
Defined.

(** ** Linear memory *)

Lemma load_bytes_length d i n : length (load_bytes d i n) = n.
Proof. unfold load_bytes. by rewrite length_fmap, length_seq. Qed.

Lemma load_bytes_lookup d i n j : (j < n)%nat -> load_bytes d i n !! j = Some (d (i + Z.of_nat j)).
Proof.
  intros Hj. unfold load_bytes. rewrite list_lookup_fmap, lookup_seq_lt by done. done.
Qed.

Lemma load_bytes_ext d d' i i' n :
  (forall j, 0 <= j < Z.of_nat n -> d (i + j) = d' (i' + j)) ->
  load_bytes d i n = load_bytes d' i' n.
Proof.
  intros H. apply list_eq_same_length with n; [by rewrite load_bytes_length..|].
  intros j x y Hj Hx Hy. rewrite load_bytes_lookup in Hx, Hy by done. simplify_eq.
  rewrite H by lia. done.
Qed.

Lemma load_bytes_eq d i (l : bytes) :
  (forall j, 0 <= j < Z.of_nat (length l) -> d (i + j) = l !!! Z.to_nat j) ->
  load_bytes d i (length l) = l.
Proof.
  intros H. apply list_eq_same_length with (length l); [by rewrite ?load_bytes_length..|].
  intros j x y Hj Hx Hy. rewrite load_bytes_lookup in Hx by done. simplify_eq.
  rewrite H, Nat2Z.id by lia. by apply list_lookup_total_correct.
Qed.

Lemma load_bytes_app d i n m :
  load_bytes d i (n + m) = load_bytes d i n ++ load_bytes d (i + Z.of_nat n) m.
Proof.
  unfold load_bytes. rewrite seq_app, fmap_app. f_equal.
  rewrite Nat.add_comm, <- (fmap_add_seq n 0 m), <- list_fmap_compose.
  apply list_fmap_ext. intros ? j _. cbn. f_equal. lia.
Qed.

Lemma store_bytes_other d i bs a :
  ~ i <= a < i + Z.of_nat (length bs) -> store_bytes d i bs a = d a.
Proof. intros H. unfold store_bytes. by rewrite decide_False. Qed.

Lemma load_store_same d i bs : load_bytes (store_bytes d i bs) i (length bs) = bs.
Proof.
  apply load_bytes_eq. intros j Hj. unfold store_bytes. rewrite decide_True by lia. f_equal. lia.
Qed.

Lemma load_store_other d i bs a n :
  a + Z.of_nat n <= i \/ i + Z.of_nat (length bs) <= a ->
  load_bytes (store_bytes d i bs) a n = load_bytes d a n.
Proof. intros H. apply load_bytes_ext. intros j Hj. apply store_bytes_other. lia. Qed.

(** The value of the eight bytes at an offset. *)
Definition header_at (c : Z -> Z) (a : Z) : Z := le_decode (load_bytes c a 8).

Lemma header_at_store c a v :
  0 <= v < 256 ^ 8 -> header_at (store_bytes c a (le_encode 8 v)) a = v.
Proof.
  intros Hv. unfold header_at.
  pose proof (load_store_same c a (le_encode 8 v)) as E. rewrite le_encode_length in E.
  rewrite E. by apply le_decode_encode.
Qed.

Lemma header_at_zero c a : (forall j, 0 <= j < 8 -> c (a + j) = 0) -> header_at c a = 0.
Proof.
  intros H. unfold header_at.
  rewrite (load_bytes_ext c (fun _ => 0) a a 8) by (intros; apply H; lia). done.
Qed.

(** ** Entries *)

Inductive Content := Padding | Message (m : Z) (payload : bytes).

(** Reserved by a writer and still zero; a message whose header is written,
    with the number of bytes copied so far; complete. *)
Inductive Phase := Reserved (t : nat) | Pending (t : nat) (n : nat) | Ready.

Record Entry := MkEntry { e_start : Z; e_len : Z; e_content : Content; e_phase : Phase }.

Definition e_end (e : Entry) : Z := e_start e + e_len e.

Definition owner (e : Entry) : option nat :=
  match e_phase e with Reserved t | Pending t _ => Some t | Ready => None end.

Definition e_message (e : Entry) : option (Z * bytes) :=
  match e_content e with Message m p => Some (m, p) | Padding => None end.

Definition messages (G : list Entry) : list (Z * bytes) := omap e_message G.

(** Entries follow each other from [h] to [t]. *)
Fixpoint chain (h : Z) (G : list Entry) (t : Z) : Prop :=
  match G with
  | [] => h = t
  | e :: G => e_start e = h /\ chain (e_end e) G t
  end.

Definition span (G : list Entry) : Z := foldr (fun e n => e_len e + n) 0 G.

Definition valid_message (m : Z) (p : bytes) : Prop :=
  msg_min <= m <= msg_max /\ Z.of_nat (length p) <= max_size.

(** The size of the entry of a message. *)
Definition msg_size (p : bytes) : Z := entry_size (Z.of_nat (length p)).

Lemma msg_size_spec m p :
  valid_message m p ->
  aligned (msg_size p) /\ Z.of_nat (length p) + 8 <= msg_size p < Z.of_nat (length p) + 16.
Proof.
  intros [_ Hp]. apply entry_size_spec.
  revert Hp. unfold max_size, header_size, u64_max. rewrite u64_modulus_eq. lia.
Qed.

Lemma valid_length m p : valid_message m p -> 0 <= Z.of_nat (length p) < 2 ^ 31.
Proof. intros [_ Hp]. revert Hp. unfold max_size, header_size. lia. Qed.

Lemma valid_header m p b :
  valid_message m p -> 0 <= make_header m (Z.of_nat (length p)) b < 256 ^ 8.
Proof.
  intros H. pose proof (valid_length _ _ H). destruct H as [Hm _].
  apply make_header_range; [|done]. revert Hm. unfold msg_min, msg_max. lia.
Qed.

Lemma chain_app h G1 G2 t : chain h (G1 ++ G2) t <-> chain h G1 (h + span G1) /\ chain (h + span G1) G2 t.
Proof.
  revert h. induction G1 as [|e G1 IH]; intros h; cbn [chain span foldr app].
  - rewrite Z.add_0_r. by split; [|intros []].
  - unfold e_end. rewrite IH. cbn [span]. fold (span G1). rewrite Z.add_assoc.
    by split; [intros [<- [? ?]]|intros [[<- ?] ?]].
Qed.

Lemma span_app G1 G2 : span (G1 ++ G2) = span G1 + span G2.
Proof. induction G1 as [|e G1 IH]; cbn; [done|]. fold (span (G1 ++ G2)) (span G1). lia. Qed.

Lemma chain_span h G t : chain h G t -> t = h + span G.
Proof.
  revert h. induction G as [|e G IH]; intros h; cbn; [lia|].
  intros [? H]. apply IH in H. unfold e_end in H. fold (span G). lia.
Qed.

Lemma messages_app G1 G2 : messages (G1 ++ G2) = messages G1 ++ messages G2.
Proof. apply omap_app. Qed.

Lemma span_nonneg G : Forall (fun e => 0 < e_len e) G -> 0 <= span G.
Proof. induction 1 as [|e G H _ IH]; cbn; [done|]. fold (span G). lia. Qed.

Lemma chain_elem h G t e :
  chain h G t -> Forall (fun e => 0 < e_len e) G -> e ∈ G -> h <= e_start e /\ e_end e <= t.
Proof.
  intros Hc Hpos He. apply list_elem_of_split in He as (A & B & ->).
  apply Forall_app in Hpos as [HA [He HB]%Forall_cons].
  apply chain_app in Hc as [_ [Hs Hc]]. apply chain_span in Hc.
  pose proof (span_nonneg _ HA). pose proof (span_nonneg _ HB). unfold e_end in *. lia.
Qed.

Lemma chain_replace h A e e' B t :
  e_start e' = e_start e -> e_len e' = e_len e ->
  chain h (A ++ e :: B) t -> chain h (A ++ e' :: B) t.
Proof.
  intros Hs Hl. rewrite !chain_app. cbn [chain]. unfold e_end. rewrite Hs, Hl. done.
Qed.

Section Invariant.
Context (size k : Z) (Hsize : size = 2 ^ k) (Hk : 3 <= k < 64).
#[local] Set Default Proof Using "Hsize Hk".

Lemma size_bounds : 8 <= size < u64_modulus.
Proof.
  subst size. unfold u64_modulus. split; [|apply Z.pow_lt_mono_r; lia].
  change 8 with (2 ^ 3). apply Z.pow_le_mono_r; lia.
Qed.

Lemma size_aligned : aligned size.
Proof.
  subst size. exists (2 ^ (k - 3)). change 8 with (2 ^ 3). rewrite <- Z.pow_add_r by lia. f_equal. lia.
Qed.

Lemma land_mask a : 0 <= a -> Z.land a (mask size) = a `mod` size.
Proof.
  intros Ha. pose proof size_bounds. unfold mask. rewrite u64_small by lia. subst size.
  replace (2 ^ k - 1) with (Z.ones k) by (rewrite Z.ones_equiv; lia). apply Z.land_ones. lia.
Qed.

Lemma index_bounds a : 0 <= a `mod` size < size.
Proof. pose proof size_bounds. apply Z.mod_pos_bound. lia. Qed.

Lemma index_aligned a : aligned a -> aligned (a `mod` size).
Proof.
  intros Ha. pose proof size_bounds. rewrite Z.mod_eq by lia.
  apply Z.divide_sub_r; [done|]. apply Z.divide_mul_l, size_aligned.
Qed.

Lemma index_add a j : 0 <= j -> a `mod` size + j < size -> (a + j) `mod` size = a `mod` size + j.
Proof.
  intros Hj H. pose proof (index_bounds a). pose proof size_bounds.
  rewrite <- Zplus_mod_idemp_l. apply Z.mod_small. lia.
Qed.

Lemma index_full a : (a + size) `mod` size = a `mod` size.
Proof. pose proof size_bounds. by rewrite <- (Z.mul_1_l size) at 1; rewrite Z.mod_add by lia. Qed.

(** Different offsets less than [size] apart have different indices. *)
Lemma index_inj h a b :
  h <= a < h + size -> h <= b < h + size -> a `mod` size = b `mod` size -> a = b.
Proof.
  intros Ha Hb E. pose proof size_bounds.
  pose proof (Z.div_mod a size ltac:(lia)). pose proof (Z.div_mod b size ltac:(lia)).
  assert (a `div` size = b `div` size); nia.
Qed.

(** *** The buffer by offsets *)

Definition cell (r : Ring) (a : Z) : Z := data r (a `mod` size).

Lemma load_cells r a n :
  a `mod` size + Z.of_nat n <= size ->
  load_bytes (data r) (a `mod` size) n = load_bytes (cell r) a n.
Proof.
  intros H. apply load_bytes_ext. intros j Hj. unfold cell. by rewrite index_add by lia.
Qed.

Lemma store_cells r h a0 bs a :
  a0 `mod` size + Z.of_nat (length bs) <= size ->
  h <= a0 -> a0 + Z.of_nat (length bs) <= h + size -> h <= a < h + size ->
  cell (r <| data := store_bytes (data r) (a0 `mod` size) bs |>) a = store_bytes (cell r) a0 bs a.
Proof.
  intros Hn Hlo Hhi Ha. unfold cell, set, update_field. cbn. unfold store_bytes.
  destruct (decide (a0 <= a < a0 + Z.of_nat (length bs))) as [Hin|Hout].
  - replace (a `mod` size) with (a0 `mod` size + (a - a0)).
    + rewrite decide_True by lia. f_equal. lia.
    + rewrite <- index_add by lia. f_equal. lia.
  - rewrite decide_False; [done|]. intros Hi. apply Hout.
    assert (a = a0 + (a `mod` size - a0 `mod` size)); [|lia].
    apply (index_inj h); [lia..|]. rewrite index_add by lia. lia.
Qed.

(** *** The invariant of the memory *)

Definition entry_ok (e : Entry) : Prop :=
  aligned (e_start e) /\ aligned (e_len e) /\ 0 < e_len e /\
  e_start e `mod` size + e_len e <= size /\
  match e_content e, e_phase e with
  | Padding, Pending _ _ => False
  | Padding, _ => e_len e < 2 ^ 31 /\ e_len e < size /\ e_start e `mod` size + e_len e = size
  | Message m p, Pending _ n => valid_message m p /\ e_len e = msg_size p /\ (n <= length p)%nat
  | Message m p, _ => valid_message m p /\ e_len e = msg_size p
  end.

Definition entry_mem (c : Z -> Z) (e : Entry) : Prop :=
  match e_phase e, e_content e with
  | Reserved _, _ => forall a, e_start e <= a < e_end e -> c a = 0
  | Pending _ n, Message m p =>
      header_at c (e_start e) = make_header m (Z.of_nat (length p)) true /\
      load_bytes c (e_start e + header_size) n = take n p
  | Pending _ _, Padding => False
  | Ready, Padding => header_at c (e_start e) = make_header msg_pad (e_len e) false
  | Ready, Message m p =>
      header_at c (e_start e) = make_header m (Z.of_nat (length p)) false /\
      load_bytes c (e_start e + header_size) (length p) = p
  end.

(** The entries [G1] have been read in the current call of [read]; their
    memory is cleared before [head] moves over them. *)
Record ring_ok (r : Ring) (zeroed : bool) (G1 G2 : list Entry) : Prop := {
  ok_chain : chain (head r) (G1 ++ G2) (tail r);
  ok_room : tail r <= head r + size;
  ok_bound : tail r < u64_modulus;
  ok_cache : 0 <= head_cache r <= head r;
  ok_aligned : aligned (head_cache r) /\ aligned (head r);
  ok_entries : Forall entry_ok (G1 ++ G2);
  ok_consumed : Forall (fun e => e_phase e = Ready) G1;
  ok_mem1 : if zeroed then forall a, head r <= a < head r + span G1 -> cell r a = 0
            else Forall (entry_mem (cell r)) G1;
  ok_mem2 : Forall (entry_mem (cell r)) G2;
  ok_free : forall a, tail r <= a < head r + size -> cell r a = 0
}.

Lemma entry_mem_frame c c' e :
  entry_ok e -> (forall a, e_start e <= a < e_end e -> c a = c' a) ->
  entry_mem c e -> entry_mem c' e.
Proof.
  intros (_ & [q Hq] & Hpos & _ & Hok) Hframe. unfold entry_mem, e_end in *.
  assert (header_at c (e_start e) = header_at c' (e_start e)) as Eh.
  { unfold header_at. f_equal. apply load_bytes_ext. intros. apply Hframe. lia. }
  destruct (e_phase e) as [t|t n|], (e_content e) as [|m p]; try done.
  - intros Hm a Ha. rewrite <- Hframe by done. auto.
  - intros Hm a Ha. rewrite <- Hframe by done. auto.
  - destruct Hok as (Hv & Hl & Hn). pose proof (msg_size_spec _ _ Hv).
    intros [H1 H2]. rewrite <- Eh. split; [done|]. rewrite <- H2.
    apply load_bytes_ext. intros j Hj. symmetry. unfold header_size. apply Hframe. lia.
  - by rewrite Eh.
  - destruct Hok as (Hv & Hl). pose proof (msg_size_spec _ _ Hv).
    intros [H1 H2]. rewrite <- Eh. split; [done|]. rewrite <- H2 at 2.
    apply load_bytes_ext. intros j Hj. symmetry. unfold header_size. apply Hframe. lia.
Qed.

Lemma entry_ok_pos G : Forall entry_ok G -> Forall (fun e => 0 < e_len e) G.
Proof. intros H. eapply Forall_impl; [exact H|]. unfold entry_ok. tauto. Qed.

Lemma span_aligned G : Forall entry_ok G -> aligned (span G).
Proof.
  induction 1 as [|e G He _ IH]; [apply Z.divide_0_r|]. apply Z.divide_add_r; [apply He|done].
Qed.

(** The entries around one entry do not overlap it. *)
Lemma chain_disjoint h A e B t :
  chain h (A ++ e :: B) t -> Forall entry_ok (A ++ e :: B) ->
  Forall (fun e' => h <= e_start e' /\ e_end e' <= e_start e) A /\
  Forall (fun e' => e_end e <= e_start e' /\ e_end e' <= t) B /\
  h <= e_start e /\ e_end e <= t.
Proof.
  intros Hc Hok%entry_ok_pos. pose proof Hok as [HA [He HB]%Forall_cons]%Forall_app.
  pose proof Hc as [HcA [Hs HcB]]%chain_app.
  split_and!.
  - apply Forall_forall. intros e' He'. rewrite Hs. by eapply chain_elem.
  - apply Forall_forall. intros e' He'. by eapply chain_elem.
  - apply (chain_elem h (A ++ e :: B) t e); [done..|]. apply elem_of_app. right. left.
  - apply (chain_elem h (A ++ e :: B) t e); [done..|]. apply elem_of_app. right. left.
Qed.

(** *** Accesses of the writers *)

Lemma ring_ok_head_cache r z G1 G2 v :
  ring_ok r z G1 G2 -> 0 <= v <= head r -> aligned v ->
  ring_ok (r <| head_cache := v |>) z G1 G2.
Proof. intros [] Hv Ha. by split; [..|tauto| | | | |]. Qed.

(** A successful exchange appends entries to the chain. *)
Lemma ring_ok_append r z G1 G2 es t' :
  ring_ok r z G1 G2 -> chain (tail r) es t' -> Forall entry_ok es ->
  Forall (fun e => exists t, e_phase e = Reserved t) es ->
  t' <= head r + size -> t' < u64_modulus ->
  ring_ok (r <| tail := t' |>) z G1 (G2 ++ es).
Proof.
  intros [Hc Hr Hb Hca Hal He Hco H1 H2 Hf] Hes Hok Hph Hroom Hb'.
  pose proof (chain_span _ _ _ Hes) as Ht.
  assert (forall e, e ∈ es -> tail r <= e_start e /\ e_end e <= t') as Hin.
  { intros e ?. eapply chain_elem; [done|by apply entry_ok_pos|done]. }
  assert (tail r <= t') as Hle.
  { destruct es as [|e es]; [cbn in Ht; lia|]. destruct (Hin e) as [? ?]; [left|].
    apply entry_ok_pos in Hok. inversion Hok. unfold e_end in *. lia. }
  split; cbn; try done.
  - rewrite app_assoc, chain_app. pose proof (chain_span _ _ _ Hc) as E. rewrite <- E. done.
  - rewrite app_assoc. by apply Forall_app.
  - apply Forall_app. split; [done|]. rewrite Forall_forall in Hph |- *. intros e Hel.
    destruct (Hph e Hel) as [t Ep], (Hin e Hel). unfold entry_mem. rewrite Ep.
    intros a Ha. apply (Hf a). lia.
  - intros a Ha. apply (Hf a). lia.
Qed.

(** A writer writes inside one entry and changes nothing else. *)
Lemma ring_ok_write r z G1 A e e' B a0 bs :
  ring_ok r z G1 (A ++ e :: B) ->
  e_start e' = e_start e -> e_len e' = e_len e -> entry_ok e' ->
  e_start e <= a0 -> a0 + Z.of_nat (length bs) <= e_end e ->
  entry_mem (store_bytes (cell r) a0 bs) e' ->
  ring_ok (r <| data := store_bytes (data r) (a0 `mod` size) bs |>) z G1 (A ++ e' :: B).
Proof.
  intros [Hc Hr Hb Hca Hal He Hco H1 H2 Hf] Hs Hl Hok Hlo Hhi Hm.
  pose proof (chain_span _ _ _ Hc) as Ht. rewrite app_assoc in Hc, He.
  destruct (chain_disjoint _ _ _ _ _ Hc He) as ([HG1 HA]%Forall_app & HB & Hh & Hte).
  assert (a0 `mod` size + Z.of_nat (length bs) <= size) as Hidx.
  { apply Forall_app in He as [_ [(_ & _ & _ & Hst & _) _]%Forall_cons].
    destruct (decide (length bs = 0%nat)) as [->|]; [pose proof (index_bounds a0); lia|].
    replace a0 with (e_start e + (a0 - e_start e)) by lia.
    unfold e_end in *. rewrite index_add by lia. lia. }
  set (r' := r <| data := _ |>).
  assert (forall a, head r <= a < head r + size -> cell r' a = store_bytes (cell r) a0 bs a) as Hcell
    by (intros a ?; apply (store_cells r (head r)); [done|lia..]).
  assert (forall e0, entry_ok e0 -> head r <= e_start e0 -> e_end e0 <= tail r ->
    (e_end e0 <= e_start e \/ e_end e <= e_start e0) ->
    entry_mem (cell r) e0 -> entry_mem (cell r') e0) as Hframe.
  { intros e0 Hok0 ?? Hd. apply entry_mem_frame; [done|]. intros a Ha.
    rewrite Hcell, store_bytes_other by lia. done. }
  assert (e_end e' = e_end e) as Ee by (unfold e_end; congruence).
  rewrite Forall_app in H2. destruct H2 as [H2A [H2e H2B]%Forall_cons].
  pose proof He as [[He1 HeA]%Forall_app [Hee HeB]%Forall_cons]%Forall_app.
  rewrite Forall_forall in HG1, HA, HB, He1, HeA, HeB, H2A, H2B.
  split; try done.
  - rewrite app_assoc. by eapply chain_replace.
  - rewrite app_assoc. apply Forall_app. split; [by apply Forall_app in He as [? _]|].
    by constructor; [|apply Forall_forall].
  - destruct z.
    + intros a Ha. change (head r') with (head r) in Ha.
      pose proof (span_nonneg _ (entry_ok_pos _ (proj2 (Forall_forall _ A) HeA))).
      apply chain_app in Hc as [_ [Hse _]]. rewrite span_app in Hse. unfold e_end in *.
      destruct Hee as (_ & _ & Hpos & _).
      rewrite Hcell, store_bytes_other by lia. by apply H1.
    + rewrite Forall_forall in H1 |- *. intros e0 He0. destruct (HG1 e0 He0).
      apply Hframe; [by apply He1|lia..|by apply H1].
  - apply Forall_app. split; [|constructor]; [apply Forall_forall; intros e0 He0| |
      apply Forall_forall; intros e0 He0].
    + destruct (HA e0 He0). apply Hframe; [by apply HeA|lia..|by apply H2A].
    + eapply entry_mem_frame; [done| |exact Hm]. intros a Ha. symmetry. apply Hcell. lia.
    + destruct (HB e0 He0). apply Hframe; [by apply HeB|lia..|by apply H2B].
  - intros a Ha. change (tail r') with (tail r) in Ha. change (head r') with (head r) in Ha.
    rewrite Hcell, store_bytes_other by lia. by apply Hf.
Qed.

(** *** Accesses of the reader *)

Lemma ring_ok_consume r G1 e G2 :
  ring_ok r false G1 (e :: G2) -> e_phase e = Ready -> ring_ok r false (G1 ++ [e]) G2.
Proof.
  intros [Hc Hr Hb Hca Hal He Hco H1 H2 Hf] Hp. apply Forall_cons in H2 as [H2e H2].
  split; rewrite <- ?app_assoc; try done; apply Forall_app; by split; [|constructor].
Qed.

(** The bytes of the entries read so far are contiguous in memory. *)
Lemma ring_ok_zero r G1 G2 :
  ring_ok r false G1 G2 -> head r `mod` size + span G1 <= size ->
  ring_ok (r <| data := store_bytes (data r) (head r `mod` size)
    (list_replicate (Z.to_nat (span G1)) 0) |>) true G1 G2.
Proof.
  intros [Hc Hr Hb Hca Hal He Hco H1 H2 Hf] Hidx.
  pose proof He as [He1 He2]%Forall_app. pose proof Hc as [Hc1 Hc2]%chain_app.
  pose proof (span_nonneg _ (entry_ok_pos _ He1)). pose proof (span_nonneg _ (entry_ok_pos _ He2)).
  pose proof (chain_span _ _ _ Hc2).
  set (bs := list_replicate _ _).
  assert (Z.of_nat (length bs) = span G1) as Hbs by (unfold bs; rewrite length_replicate; lia).
  set (r' := r <| data := _ |>).
  assert (forall a, head r <= a < head r + size ->
    cell r' a = store_bytes (cell r) (head r) bs a) as Hcell
    by (intros a ?; apply (store_cells r (head r)); lia).
  split; try done.
  - intros a Ha. change (head r') with (head r) in Ha. rewrite Hcell by lia.
    unfold store_bytes. rewrite decide_True by lia.
    unfold bs. rewrite lookup_total_replicate_2 by lia. done.
  - rewrite Forall_forall in H2, He2 |- *. intros e Hel.
    destruct (chain_elem _ _ _ e Hc2) as [? ?]; [by apply entry_ok_pos, Forall_forall|done|].
    eapply entry_mem_frame; [by apply He2| |by apply H2].
    intros a Ha. rewrite Hcell, store_bytes_other by lia. done.
  - intros a Ha. change (tail r') with (tail r) in Ha. change (head r') with (head r) in Ha.
    rewrite Hcell, store_bytes_other by lia. by apply Hf.
Qed.

Lemma ring_ok_release r G1 G2 :
  ring_ok r true G1 G2 -> ring_ok (r <| head := head r + span G1 |>) false [] G2.
Proof.
  intros [Hc Hr Hb Hca Hal He Hco H1 H2 Hf].
  pose proof He as [He1 He2]%Forall_app. pose proof Hc as [Hc1 Hc2]%chain_app.
  pose proof (span_nonneg _ (entry_ok_pos _ He1)).
  split; cbn; try done.
  - lia.
  - lia.
  - split; [apply Hal|]. apply Z.divide_add_r; [apply Hal|by apply span_aligned].
  - intros a Ha. destruct (decide (a < head r + size)); [apply (Hf a); lia|].
    rewrite <- (Z.sub_add size a). unfold cell. cbn. rewrite index_full. apply (H1 (a - size)). lia.
Qed.

(** What the reader finds at the next entry. *)
Definition next_header (G2 : list Entry) : Z :=
  match G2 with
  | [] => 0
  | e :: _ =>
      match e_phase e, e_content e with
      | Pending _ _, Message m p => make_header m (Z.of_nat (length p)) true
      | Ready, Padding => make_header msg_pad (e_len e) false
      | Ready, Message m p => make_header m (Z.of_nat (length p)) false
      | _, _ => 0
      end
  end.

Lemma ring_ok_next r G1 G2 :
  ring_ok r false G1 G2 -> head r `mod` size + span G1 < size ->
  le_decode (load_bytes (data r) (head r `mod` size + span G1) 8) = next_header G2 /\
  match G2 with [] => True | e :: _ => head r `mod` size + span G1 + e_len e <= size end.
Proof.
  intros Hok Hidx. pose proof Hok as [Hc Hr Hb Hca Hal He Hco H1 H2 Hf].
  pose proof He as [He1 He2]%Forall_app. pose proof Hc as [Hc1 Hc2]%chain_app.
  pose proof (span_nonneg _ (entry_ok_pos _ He1)).
  rewrite <- index_add by lia.
  assert (aligned ((head r + span G1) `mod` size)) as [q Hq].
  { apply index_aligned, Z.divide_add_r; [apply Hal|by apply span_aligned]. }
  destruct size_aligned as [q' Hq']. pose proof (index_bounds (head r + span G1)).
  rewrite load_cells by lia.
  fold (header_at (cell r) (head r + span G1)).
  destruct G2 as [|e G2]; cbn in Hc2.
  - split; [|done]. apply header_at_zero. intros j Hj. apply Hf.
    rewrite (index_add (head r)) in Hq by lia. pose proof (index_bounds (head r)). lia.
  - destruct Hc2 as [Hs Hc2]. rewrite <- Hs.
    apply Forall_cons in He2 as [Hee He2]. apply Forall_cons in H2 as [H2e H2].
    destruct Hee as (_ & [ql Hl] & Hpos & Hst & Hcont).
    split; [|by rewrite Hs in Hst |- *].
    revert H2e. unfold entry_mem, next_header.
    destruct (e_phase e), (e_content e); try done; try by intros [? _].
    + intros Hz. apply header_at_zero. intros. apply Hz. unfold e_end. lia.
    + intros Hz. apply header_at_zero. intros. apply Hz. unfold e_end. lia.
Qed.

(** The bytes of a message that is ready. *)
Lemma ready_payload r G1 e G2 m p :
  ring_ok r false G1 (e :: G2) -> e_phase e = Ready -> e_content e = Message m p ->
  head r `mod` size + span G1 + e_len e <= size ->
  load_bytes (data r) (head r `mod` size + span G1 + header_size) (length p) = p.
Proof.
  intros [Hc Hr Hb Hca Hal He Hco H1 H2 Hf] Ep Ec Hfit.
  apply Forall_cons in H2 as [Hm _]. unfold entry_mem in Hm. rewrite Ep, Ec in Hm.
  destruct Hm as [_ Hm]. rewrite <- Hm at 2. apply chain_app in Hc as [_ [Hstart _]].
  apply Forall_app in He as [He1 [(_ & _ & _ & _ & Hok) _]%Forall_cons].
  rewrite Ep, Ec in Hok. destruct Hok as [Hv Hl]. pose proof (msg_size_spec _ _ Hv).
  pose proof (span_nonneg _ (entry_ok_pos _ He1)). unfold header_size in *.
  apply load_bytes_ext. intros j Hj. unfold cell. f_equal. rewrite Hstart.
  rewrite <- !Z.add_assoc. symmetry. apply index_add; lia.
Qed.
End Invariant.
