(* ===== verification/RingSafety.v ===== *)
(** Safety of the ring buffer under every interleaving.

    [wsafe] and [rsafe] follow a program of a writer or of the reader access by
    access and say what each access relies on and what it leaves; they mention
    the other threads only through facts these cannot invalidate.  The programs
    of ring_buffer.h satisfy them, so every run keeps the invariant. *)

From S2P Require Import Prelude Serialized RingBuffer RingInvariant.

Section Safety.
Context (size k : Z) (Hsize : size = 2 ^ k) (Hk : 3 <= k < 64).
#[local] Set Default Proof Using "Hsize Hk".

(** ** Writers *)

(** What a writer has reserved and not finished. *)
Inductive Holds :=
| Nothing
| HoldsPadded (start pad : Z)
| HoldsReserved (start : Z)
| HoldsPending (start : Z) (n : nat)
| Complete.

Section Writer.
(** The message of the call. *)
Context (m : Z) (payload : bytes).

Definition held (t : nat) (L : Holds) : list Entry :=
  match L with
  | Nothing | Complete => []
  | HoldsPadded start pad =>
      [MkEntry start pad Padding (Reserved t);
       MkEntry (start + pad) (msg_size payload) (Message m payload) (Reserved t)]
  | HoldsReserved start => [MkEntry start (msg_size payload) (Message m payload) (Reserved t)]
  | HoldsPending start n => [MkEntry start (msg_size payload) (Message m payload) (Pending t n)]
  end.

Definition offset_ok (v : Z) : Prop := 0 <= v < u64_modulus /\ aligned v.

(** [lb] is a lower bound of [head]; a tail read as [v] shows that [head] has
    reached [v - size]. An exchange that succeeds finds the tail at
    the expected value and [head] at some [h] between [lb] and the tail. *)
Fixpoint wsafe {A} (p : Prog A) (lb : Z) (L : Holds) (Q : A -> Z -> Holds -> Prop) : Prop :=
  match p with
  | Done a => Q a lb L
  | Raise _ => L = Nothing
  | Spin => L = Nothing
  | Load Head k => forall v, lb <= v -> offset_ok v -> wsafe (k v) v L Q
  | Load HeadCache k => forall v, offset_ok v -> wsafe (k v) (Z.max lb v) L Q
  | Load Tail k => forall v, offset_ok v -> wsafe (k v) (Z.max lb (v - size)) L Q
  | Store HeadCache v k => v <= lb /\ offset_ok v /\ wsafe k lb L Q
  | Store _ _ _ => False
  | CompareExchangeWeak expected desired k =>
      L = Nothing /\ valid_message m payload /\
      (forall h, lb <= h <= expected -> aligned h -> expected <= h + size ->
        exists pad, 0 <= pad /\ desired = u64 (expected + pad + msg_size payload) /\
          expected + pad + msg_size payload <= h + size /\
          ((pad = 0 /\ expected `mod` size + msg_size payload <= size /\
            wsafe (k true expected) lb (HoldsReserved expected) Q) \/
           (0 < pad < 2 ^ 31 /\ pad = size - expected `mod` size /\
            wsafe (k true expected) lb (HoldsPadded expected pad) Q))) /\
      (forall v, offset_ok v -> wsafe (k false v) (Z.max lb (v - size)) Nothing Q)
  | Read64 i k =>
      match L with
      | HoldsPending start _ =>
          i = start `mod` size /\
          wsafe (k (make_header m (Z.of_nat (length payload)) true)) lb L Q
      | _ => False
      end
  | Write64 i v k =>
      match L with
      | HoldsPadded start pad =>
          i = start `mod` size /\ v = make_header msg_pad pad false /\
          wsafe k lb (HoldsReserved (start + pad)) Q
      | HoldsReserved start =>
          i = start `mod` size /\ v = make_header m (Z.of_nat (length payload)) true /\
          wsafe k lb (HoldsPending start 0) Q
      | HoldsPending start n =>
          i = start `mod` size /\ v = make_header m (Z.of_nat (length payload)) false /\
          n = length payload /\ wsafe k lb Complete Q
      | _ => False
      end
  | Memcpy i bs k =>
      match L with
      | HoldsPending start n =>
          i = start `mod` size + header_size + Z.of_nat n /\
          take (n + length bs) payload = take n payload ++ bs /\
          (n < n + length bs <= length payload)%nat /\
          wsafe k lb (HoldsPending start (n + length bs)) Q
      | _ => False
      end
  | MemsetZero _ _ _ | Handle _ _ _ _ => False
  end.

Lemma wsafe_mono {A} (p : Prog A) lb L Q Q' :
  (forall a lb L, Q a lb L -> Q' a lb L) -> wsafe p lb L Q -> wsafe p lb L Q'.
Proof.
  intros HQ. revert lb L.
  induction p as [a|e| |l k' IH|l v p IH|e d k' IH|i k' IH|i v p IH|i bs p IH|i n p IH|m' i n p IH];
    intros lb L; cbn [wsafe]; try done.
  - apply HQ.
  - destruct l; intros H v **; apply IH; auto.
  - destruct l; [|done..]. intros (? & ? & ?). auto.
  - intros (HL & Hv & Hs & Hf). split; [done|]. split; [done|]. split; [|auto].
    intros h ???. destruct (Hs h) as (pad & ? & ? & ? & [(? & ? & ?)|(? & ? & ?)]); [done..| |];
      exists pad; (do 3 (split; [done|])); [left|right]; auto.
  - destruct L; [done..| |done]. intros [? ?]. auto.
  - destruct L; try done; intros H; repeat destruct H as [? H]; auto.
  - destruct L; [done..| |done]. intros (? & ? & ? & ?). auto.
Qed.

Lemma wsafe_bind {A B} (p : Prog A) (f : A -> Prog B) lb L Q :
  wsafe p lb L (fun a lb L => wsafe (f a) lb L Q) -> wsafe (p ≫= f) lb L Q.
Proof.
  revert lb L.
  induction p as [a|e| |l k' IH|l v p IH|e d k' IH|i k' IH|i v p IH|i bs p IH|i n p IH|m' i n p IH];
    intros lb L; cbn [wsafe mbind Prog_bind]; try done.
  - destruct l; intros H v **; apply IH; auto.
  - destruct l; [|done..]. intros (? & ? & ?). split_and!; [done..|]. by apply IH.
  - intros (HL & Hv & Hs & Hf). split; [done|]. split; [done|].
    split; [|by intros; apply IH; auto].
    intros h ???. destruct (Hs h) as (pad & ? & ? & ? & [(? & ? & ?)|(? & ? & ?)]); [done..| |];
      exists pad; (do 3 (split; [done|])); [left|right];
      (do 2 (split; [done|])); by apply IH.
  - destruct L; [done..| |done]. intros [? ?]. split; [done|]. by apply IH.
  - destruct L; try done; intros H; repeat destruct H as [? H]; split_and!; try done; by apply IH.
  - destruct L; [done..| |done]. intros (? & ? & ? & ?). do 3 (split; [done|]). by apply IH.
Qed.

(** *** The functions of [Writer] *)

(** If the free bytes suffice but not those behind the tail, and the head is
    far enough in its lap, the padded reservation fits too. *)
Lemma front_space hd tl sz :
  hd <= tl -> tl + sz <= hd + size -> size - tl `mod` size < sz -> sz <= hd `mod` size ->
  tl + (size - tl `mod` size) + sz <= hd + size.
Proof.
  intros Hle Hfit Hback Hfront. pose proof (size_bounds size k Hsize Hk).
  pose proof (index_bounds size k Hsize Hk hd). pose proof (index_bounds size k Hsize Hk tl).
  pose proof (Z.div_mod hd size ltac:(lia)). pose proof (Z.div_mod tl size ltac:(lia)).
  destruct (Z.lt_trichotomy (hd `div` size) (tl `div` size)) as [|[|]]; nia.
Qed.

Definition reserved_post (r : option Reservation) (lb : Z) (L : Holds) : Prop :=
  match r with
  | None => L = Nothing
  | Some r => exists start, L = HoldsReserved start /\ r_index r = start `mod` size
  end.

Section Fitting.
Context (Hvalid : valid_message m payload) (Hfits : msg_size payload <= size).
#[local] Set Default Proof Using "Hsize Hk Hvalid Hfits".

(** An exchange is safe if, when it succeeds, the reservation fits. *)
Lemma reserve_exchange_safe retry hd tl padding lb :
  offset_ok tl -> 
  (forall h, lb <= h <= tl -> tl <= h + size ->
    tl + padding + msg_size payload <= h + size /\
    (padding = 0 /\ tl `mod` size + msg_size payload <= size \/
     padding = size - tl `mod` size /\ size - tl `mod` size < msg_size payload)) ->
  (forall tl', offset_ok tl' ->
    wsafe (retry hd tl' padding (tl `mod` size)) (Z.max lb (tl' - size)) Nothing reserved_post) ->
  wsafe (reserve_exchange retry (msg_size payload) hd tl padding (tl `mod` size)) lb Nothing
    reserved_post.
Proof.
  intros Htl Hs Hr. unfold reserve_exchange. cbn [wsafe].
  pose proof (msg_size_spec _ _ Hvalid) as [[qm Hqm] Hms].
  assert (Z.of_nat (length payload) <= 2 ^ 31 - 9) by apply Hvalid.
  split; [done|]. split; [done|]. split; [|done]. intros h Hh _ Hroom.
  destruct (Hs h Hh Hroom) as [Hfit [[-> Hb]|[-> Hb]]].
  - exists 0. split; [done|]. split; [f_equal; lia|]. split; [lia|]. left.
    split; [done|]. split; [done|]. cbn. by exists tl.
  - pose proof (index_bounds size k Hsize Hk tl) as Hi.
    exists (size - tl `mod` size). split; [lia|]. split; [f_equal; lia|]. split; [lia|]. right.
    split; [lia|]. split; [done|].
    rewrite (proj2 (Z.eqb_neq _ 0)) by lia. cbn.
    split_and!; [done..|]. eexists. split; [done|]. cbn.
    replace (tl + (size - tl `mod` size)) with ((tl `div` size + 1) * size).
    + by rewrite Z.mod_mul by (pose proof (size_bounds size k Hsize Hk); lia).
    + pose proof (Z.div_mod tl size). pose proof (size_bounds size k Hsize Hk). lia.
Qed.

Lemma reserve_place_safe retry hd tl lb :
  offset_ok tl -> 0 <= hd <= lb ->
  (hd <= tl -> tl + msg_size payload <= hd + size) ->
  (forall hd' tl' padding tl_index lb', 0 <= hd' <= lb' -> tl' - size <= lb' -> offset_ok tl' ->
    wsafe (retry hd' tl' padding tl_index) lb' Nothing reserved_post) ->
  wsafe (reserve_place size retry (msg_size payload) hd tl) lb Nothing reserved_post.
Proof.
  intros Htl Hhd Hfit Hr. unfold reserve_place. cbv zeta.
  rewrite !(land_mask size k Hsize Hk) by (unfold offset_ok in Htl; lia).
  destruct (Z.ltb_spec (size - tl `mod` size) (msg_size payload)) as [Hback|Hback].
  - destruct (Z.ltb_spec (hd `mod` size) (msg_size payload)) as [_|Hfront].
    + cbn [load mbind Prog_bind wsafe]. intros hd' Hlb Hhd'.
      rewrite (land_mask size k Hsize Hk) by (unfold offset_ok in Hhd'; lia).
      destruct (Z.ltb_spec (hd' `mod` size) (msg_size payload)) as [_|Hfront]; [done|].
      cbn [store mbind Prog_bind wsafe]. split; [lia|]. split; [done|].
      apply reserve_exchange_safe; [done| |].
      * intros h Hh Hroom. split; [|by right].
        pose proof (front_space hd' tl (msg_size payload)). lia.
      * intros tl' Htl'. apply Hr; [unfold offset_ok in Hhd'; lia|lia|done].
    + apply reserve_exchange_safe; [done| |].
      * intros h Hh Hroom. split; [|by right].
        pose proof (front_space hd tl (msg_size payload)). lia.
      * intros tl' Htl'. apply Hr; [lia..|done].
  - apply reserve_exchange_safe; [done| |].
    + intros h Hh Hroom. split; [lia|left; lia].
    + intros tl' Htl'. apply Hr; [lia..|done].
Qed.

Lemma reserve_loop_safe fuel hd tl padding tl_index lb :
  offset_ok tl -> 0 <= hd <= lb -> tl - size <= lb ->
  wsafe (reserve_loop size fuel (msg_size payload) hd tl padding tl_index) lb Nothing reserved_post.
Proof.
  revert hd tl padding tl_index lb.
  induction fuel as [|fuel IH]; intros hd tl padding tl_index lb Htl Hhd Hlb; [done|].
  cbn [reserve_loop]. cbv zeta. pose proof (size_bounds size k Hsize Hk).
  assert (forall hd', 0 <= hd' -> hd' <= tl ->
    (size <? u64 (tl - hd')) = false -> (u64 (size - u64 (tl - hd')) <? msg_size payload) = false ->
    tl + msg_size payload <= hd' + size) as Hfit.
  { intros hd' Hnn Hle. destruct Htl as [Htl _]. rewrite (u64_small (tl - hd')) by lia.
    intros Hgap. rewrite u64_small by lia. lia. }
  destruct ((_ <? _) || _) eqn:E.
  - cbn [load mbind Prog_bind wsafe]. intros hd' Hlb' Hhd'. pose proof Hhd' as [Hpos _].
    destruct (Z.ltb_spec tl hd') as [Hgt|Hle].
    + unfold reserve_exchange. cbn [wsafe]. split; [done|]. split; [done|]. split; [lia|].
      intros v Hv. apply IH; [done|lia..].
    + destruct (Z.ltb_spec (u64 (size - u64 (tl - hd'))) (msg_size payload)) as [|Hav]; [done|].
      cbn [store mbind Prog_bind wsafe]. split; [lia|]. split; [done|].
      apply reserve_place_safe; [done|lia| |by intros; apply IH].
      intros _. apply Hfit; [lia..| |by apply Z.ltb_ge].
      rewrite u64_small by (unfold offset_ok in Htl; lia). lia.
  - apply orb_false_iff in E as [E1 E2].
    apply reserve_place_safe; [done..| |by intros; apply IH].
    intros Hle. apply Hfit; [lia|done..].
Qed.

Lemma reserve_safe fuel lb :
  wsafe (reserve size fuel (msg_size payload)) lb Nothing reserved_post.
Proof.
  unfold reserve. cbn [load mbind Prog_bind wsafe]. intros hd [Hhd _] tl Htl.
  apply reserve_loop_safe; [done|lia..].
Qed.

Lemma reserve_wait_safe fuel lb :
  wsafe (reserve_wait size fuel (msg_size payload)) lb Nothing
    (fun r => reserved_post (Some r)).
Proof.
  revert lb. induction fuel as [|fuel IH]; intros lb; [done|]. cbn [reserve_wait].
  apply wsafe_bind. eapply wsafe_mono; [|apply reserve_safe].
  intros [r|] lb' L HL; [exact HL|]. cbn in HL. subst L. apply IH.
Qed.
End Fitting.

Lemma total_size_concat sections : total_size sections = Z.of_nat (length (concat sections)).
Proof.
  induction sections as [|s sections IH]; cbn; [done|]. rewrite length_app.
  fold (total_size sections). lia.
Qed.

Lemma prepare_safe fuel wait lb :
  wsafe (prepare size fuel m (Z.of_nat (length payload)) wait) lb Nothing (fun r _ L =>
    match r with
    | None => L = Nothing
    | Some (marker, _) => valid_message m payload /\ exists start,
        L = HoldsPending start 0 /\ marker = start `mod` size + header_size
    end).
Proof.
  unfold prepare. destruct ((m <? msg_min) || (msg_max <? m)) eqn:Em; [done|].
  destruct (Z.ltb_spec max_size (Z.of_nat (length payload))) as [|Hmax]; [done|].
  cbv zeta. fold (msg_size payload).
  destruct (Z.ltb_spec (rmax size) (msg_size payload)) as [|Hr]; [done|].
  assert (valid_message m payload) as Hvalid by (split; [lia|done]).
  assert (msg_size payload <= size) as Hfits.
  { pose proof (size_bounds size k Hsize Hk). revert Hr. unfold rmax, max_reservation_size.
    pose proof (Z.div_le_upper_bound size 2 size). lia. }
  apply wsafe_bind. eapply wsafe_mono; [|by apply reserve_safe].
  intros r lb' L HL. apply wsafe_bind. apply wsafe_mono with (Q := reserved_post).
  - intros [r'|] lb'' L' HL'; [|done]. destruct HL' as (start & -> & ->). cbn.
    split_and!; [done..|]. by exists start.
  - destruct r as [r|]; [done|]. destruct wait; [|done]. cbn in HL. subst L.
    apply wsafe_bind. eapply wsafe_mono; [|by apply reserve_wait_safe]. done.
Qed.

Lemma write_sections_safe sections start n marker lb :
  drop n payload = concat sections -> (n <= length payload)%nat ->
  marker = start `mod` size + header_size + Z.of_nat n ->
  wsafe (write_sections (Some marker) sections) lb (HoldsPending start n)
    (fun next _ L => is_Some next /\ L = HoldsPending start (length payload)).
Proof.
  revert n marker lb. induction sections as [|s sections IH]; intros n marker lb Hd Hn ->.
  - cbn. split; [done|]. cbn in Hd. f_equal. apply (f_equal length) in Hd.
    rewrite length_drop in Hd. cbn in Hd. lia.
  - cbn in Hd.
    assert (drop (n + length s) payload = concat sections) as Hd'
      by (by rewrite <- drop_drop, Hd, drop_app_length).
    assert (n + length s <= length payload)%nat as Hn'.
    { apply (f_equal length) in Hd. rewrite length_drop, length_app in Hd. lia. }
    cbn [write_sections]. unfold write_bytes. destruct (Nat.ltb_spec 0 (length s)); cbn.
    + split_and!; [done| |lia|done|].
      * rewrite <- (take_drop n payload) at 1. rewrite Hd, take_app_ge by (rewrite length_take; lia).
        f_equal. rewrite length_take, Nat.min_l by done.
        replace (n + length s - n)%nat with (length s) by lia. apply take_app_length.
      * apply IH; [done..|lia].
    + destruct s; [|cbn in *; lia]. cbn in *. apply IH; [done..|lia].
Qed.

(** A call that returns [true] has completed its message; one that returns
    [false] or throws has reserved nothing. *)
Definition write_post (b : bool) (lb : Z) (L : Holds) : Prop := L = if b then Complete else Nothing.

Lemma write_multiple_safe fuel wait sections lb :
  payload = concat sections ->
  wsafe (write_multiple size fuel m wait sections) lb Nothing write_post.
Proof.
  intros E. unfold write_multiple. rewrite total_size_concat, <- E.
  apply wsafe_bind. eapply wsafe_mono; [|apply prepare_safe].
  intros [[marker id]|] lb' L HL; [|done]. destruct HL as (Hvalid & start & -> & ->).
  apply wsafe_bind. eapply wsafe_mono; [|apply write_sections_safe; [done|lia..]].
  intros next lb'' L' [Hnext ->]. unfold finish. cbn. rewrite Z.add_simpl_r.
  split; [done|]. split; [done|]. split; [apply finish_header; by eapply valid_length|].
  split; [done|]. by rewrite bool_decide_true.
Qed.
End Writer.

(** ** The reader *)

(** How far the current call has read, the message it is about to hand over,
    and whether it has cleared what it read. *)
Record Reading := MkReading { rd_advance : Z; rd_next : option (Z * bytes); rd_zeroed : bool }.

Definition idle : Reading := MkReading 0 None false.

(** [hd] is the current head, which only the reader moves. *)
Fixpoint rsafe {A} (p : Prog A) (hd : Z) (R : Reading) (Q : A -> Z -> Reading -> Prop) : Prop :=
  match p with
  | Done a => Q a hd R
  | Raise _ => False
  | Spin => True
  | Load Head k => rsafe (k hd) hd R Q
  | Load _ _ => False
  | Store Head v k => rd_zeroed R = true /\ v = u64 (hd + rd_advance R) /\
      rsafe k (hd + rd_advance R) idle Q
  | Store _ _ _ => False
  | CompareExchangeWeak _ _ _ => False
  | Read64 i k =>
      let adv := rd_advance R in
      R = MkReading adv None false /\
      i = hd `mod` size + adv /\ hd `mod` size + adv < size /\
      rsafe (k 0) hd R Q /\
      (forall m p, valid_message m p ->
        rsafe (k (make_header m (Z.of_nat (length p)) true)) hd R Q) /\
      (forall l, 0 < l < 2 ^ 31 -> hd `mod` size + adv + l <= size ->
        rsafe (k (make_header msg_pad l false)) hd (MkReading (adv + l) None false) Q) /\
      (forall m p, valid_message m p -> hd `mod` size + adv + msg_size p <= size ->
        rsafe (k (make_header m (Z.of_nat (length p)) false)) hd
          (MkReading adv (Some (m, p)) false) Q)
  | Handle m i n k =>
      match rd_next R with
      | Some (m', p) => m = m' /\ i = hd `mod` size + rd_advance R + header_size /\
          n = Z.of_nat (length p) /\ hd `mod` size + rd_advance R + msg_size p <= size /\
          rd_zeroed R = false /\
          rsafe k hd (MkReading (rd_advance R + msg_size p) None false) Q
      | None => False
      end
  | MemsetZero i n k =>
      R = MkReading n None false /\ i = hd `mod` size /\ hd `mod` size + n <= size /\
      rsafe k hd (MkReading n None true) Q
  | Write64 _ _ _ | Memcpy _ _ _ => False
  end.

Lemma rsafe_mono {A} (p : Prog A) hd R Q Q' :
  (forall a hd R, Q a hd R -> Q' a hd R) -> rsafe p hd R Q -> rsafe p hd R Q'.
Proof.
  intros HQ. revert hd R.
  induction p as [a|e| |l k' IH|l v p IH|e d k' IH|i k' IH|i v p IH|i bs p IH|i n p IH|m' i n p IH];
    intros hd R; cbn [rsafe]; try done.
  - apply HQ.
  - destruct l; [done..|]. apply IH.
  - destruct l; [done..|]. intros (? & ? & ?). auto.
  - intros (? & ? & ? & ? & ? & ? & ?). split_and!; auto.
  - intros (? & ? & ? & ?). auto.
  - destruct (rd_next R) as [[? ?]|]; [|done]. intros (? & ? & ? & ? & ? & ?). split_and!; auto.
Qed.

Lemma rsafe_bind {A B} (p : Prog A) (f : A -> Prog B) hd R Q :
  rsafe p hd R (fun a hd R => rsafe (f a) hd R Q) -> rsafe (p ≫= f) hd R Q.
Proof.
  revert hd R.
  induction p as [a|e| |l k' IH|l v p IH|e d k' IH|i k' IH|i v p IH|i bs p IH|i n p IH|m' i n p IH];
    intros hd R; cbn [rsafe mbind Prog_bind]; try done.
  - destruct l; [done..|]. apply IH.
  - destruct l; [done..|]. intros (? & ? & ?). split_and!; [done..|]. by apply IH.
  - intros (? & ? & ? & ? & ? & ? & ?). split_and!; try done; intros; apply IH; auto.
  - intros (? & ? & ? & ?). split_and!; try done. by apply IH.
  - destruct (rd_next R) as [[? ?]|]; [|done]. intros (? & ? & ? & ? & ? & ?).
    split_and!; try done. by apply IH.
Qed.

Lemma read_loop_safe fuel limit hd adv count :
  0 <= adv -> hd `mod` size + adv <= size ->
  rsafe (read_loop fuel limit (hd `mod` size) (size - hd `mod` size) adv count) hd
    (MkReading adv None false)
    (fun '(adv', _) hd' R =>
      hd' = hd /\ R = MkReading adv' None false /\ 0 <= adv' /\ hd `mod` size + adv' <= size).
Proof.
  revert adv count. induction fuel as [|fuel IH]; intros adv count Hadv Hle; [done|].
  cbn [read_loop]. destruct ((adv <? _) && _) eqn:E; cbn [negb]; [|done].
  apply andb_true_iff in E as [E%Z.ltb_lt _].
  cbn [read64 mbind Prog_bind rsafe rd_advance]. cbv zeta. split_and!; [done..|lia|done| | |].
  - intros m p Hv. rewrite pending_make_header by by eapply valid_length. done.
  - intros l Hl Hfit.
    rewrite pending_make_header, message_make_header, msg_length_make_header by lia.
    cbn. by apply IH; lia.
  - intros m p Hv Hfit. pose proof (valid_length _ _ Hv). pose proof (msg_size_spec _ _ Hv).
    rewrite pending_make_header, message_make_header, msg_length_make_header by done.
    destruct Hv as [Hm _]. unfold msg_min, msg_max, msg_none, msg_pad in *.
    rewrite (proj2 (Z.eqb_neq m 0)), (proj2 (Z.eqb_neq m (2 ^ 32 - 1))) by lia.
    cbn. fold (msg_size p). split_and!; [done..|lia|lia|done|].
    by apply IH; lia.
Qed.

Definition read_post {A} (a : A) (hd : Z) (R : Reading) : Prop := R = idle.

Lemma read_safe fuel limit hd :
  offset_ok hd -> rsafe (read size fuel limit) hd idle read_post.
Proof.
  intros [Hhd _]. unfold read. cbn [load mbind Prog_bind rsafe].
  rewrite (land_mask size k Hsize Hk) by lia. pose proof (index_bounds size k Hsize Hk hd).
  apply (rsafe_bind (read_loop _ _ _ _ _ _)). 
  eapply rsafe_mono; [|apply read_loop_safe; lia].
  intros [adv count] hd' R (-> & -> & Hadv & Hle). cbn [fst].
  destruct (Z.ltb_spec 0 adv); cbn.
  - done.
  - by replace adv with 0 by lia.
Qed.
End Safety.
