(* ===== verification/RingSystem.v ===== *)
(** Runs of the ring buffer: messages are delivered once, unchanged and in the
    order of their reservations, and no thread touches the memory of another. *)

From S2P Require Import Prelude Serialized RingBuffer RingInvariant RingSafety.

#[local] Arguments le_encode : simpl never.
#[local] Arguments load_bytes : simpl never.

Section System.
Context (size k : Z) (Hsize : size = 2 ^ k) (Hk : 3 <= k < 64).
#[local] Set Default Proof Using "Hsize Hk".

Definition owned_by (t : nat) (e : Entry) : Prop := owner e = Some t.
#[local] Instance owned_by_dec t e : Decision (owned_by t e) := decide (owner e = Some t).

(** What the invariant says of one writing thread. *)
Definition thread_ok (r : Ring) (G2 : list Entry) (reserved : list (Z * bytes)) (t : nat)
    (th : Thread) : Prop :=
  exists lb L, lb <= head r /\ filter (owned_by t) G2 = held (t_msg th) (t_payload th) t L /\
    (L = Nothing \/ (t_msg th, t_payload th) ∈ reserved) /\
    wsafe size (t_msg th) (t_payload th) (t_prog th) lb L write_post.

(** [G1] has been read by the current call of [read], [G2] has not; [released]
    are the messages of earlier calls. *)
Record sys_inv (s : System) (G1 G2 : list Entry) (R : Reading) (released : list (Z * bytes)) :
    Prop := {
  inv_ring : ring_ok size (ring s) (rd_zeroed R) G1 G2;
  inv_writers : forall t th, writers s !! t = Some th ->
    thread_ok (ring s) G2 (snd <$> reservations s) t th;
  inv_owners : forall e t, e ∈ G2 -> owned_by t e -> is_Some (writers s !! t);
  inv_advance : span G1 = rd_advance R;
  inv_next : forall m p, rd_next R = Some (m, p) ->
    exists e G2', G2 = e :: G2' /\ e_content e = Message m p /\ e_phase e = Ready;
  inv_reader : rsafe size (reader s) (head (ring s)) R read_post;
  inv_reserved : snd <$> reservations s = released ++ messages (G1 ++ G2);
  inv_delivered : delivered s = released ++ messages G1;
  inv_tail : tail (ring s) = bytes_reserved s
}.

Definition sys_ok (s : System) : Prop := exists G1 G2 R released, sys_inv s G1 G2 R released.

(** ** Steps of writers *)

(** What a thread may do to the entries that have not been read. *)
Definition others_kept (t : nat) (G2 G2' : list Entry) : Prop :=
  (forall t', t' <> t -> filter (owned_by t') G2' = filter (owned_by t') G2) /\
  (forall e G, G2 = e :: G -> e_phase e = Ready -> exists G', G2' = e :: G').

Lemma sys_inv_writer s G1 G2 R released t th r' G2' p' more :
  sys_inv s G1 G2 R released -> writers s !! t = Some th ->
  ring_ok size r' (rd_zeroed R) G1 G2' -> head r' = head (ring s) ->
  thread_ok r' G2' (snd <$> (reservations s ++ more)) t (MkThread (t_msg th) (t_payload th) p') ->
  others_kept t G2 G2' ->
  messages G2' = messages G2 ++ (snd <$> more) ->
  tail r' = foldr (fun r n => fst r + n) 0 (reservations s ++ more) ->
  sys_inv (MkSystem r' (<[t := MkThread (t_msg th) (t_payload th) p']> (writers s)) (reader s)
    (reservations s ++ more) (delivered s)) G1 G2' R released.
Proof.
  intros [Hr Hw Ho Ha Hn Hrd Hres Hdel Ht] Hth Hr' Hhd Hok [Hoth Hfst] Hmsg Htl.
  split; cbn; try done.
  - intros t' th'. destruct (decide (t' = t)) as [->|Hne].
    + rewrite lookup_insert_eq. by intros [= <-].
    + rewrite lookup_insert_ne by done. intros Hth'.
      destruct (Hw t' th' Hth') as (lb & L & Hlb & Hf & Hin & Hs). exists lb, L.
      rewrite Hhd, Hoth by done. split; [done|]. split; [done|]. split; [|done].
      destruct Hin; [by left|right]. rewrite fmap_app. apply elem_of_app. by left.
  - intros e t' He Hown. destruct (decide (t' = t)) as [->|Hne]; [by rewrite lookup_insert_eq|].
    rewrite lookup_insert_ne by done.
    assert (e ∈ filter (owned_by t') G2') as Hin by (by apply list_elem_of_filter).
    rewrite Hoth in Hin by done. apply list_elem_of_filter in Hin as [_ Hin]. eauto.
  - intros m p Hnx. destruct (Hn m p Hnx) as (e & G & E & Hc & Hp).
    destruct (Hfst e G E Hp) as [G' ->]. by exists e, G'.
  - by rewrite Hhd.
  - rewrite fmap_app, Hres, !messages_app, Hmsg, !app_assoc. done.
Qed.

Lemma sys_inv_writer_local s G1 G2 R released t th r' p' :
  sys_inv s G1 G2 R released -> writers s !! t = Some th ->
  ring_ok size r' (rd_zeroed R) G1 G2 -> head r' = head (ring s) -> tail r' = tail (ring s) ->
  thread_ok r' G2 (snd <$> reservations s) t (MkThread (t_msg th) (t_payload th) p') ->
  sys_inv (MkSystem r' (<[t := MkThread (t_msg th) (t_payload th) p']> (writers s)) (reader s)
    (reservations s ++ []) (delivered s)) G1 G2 R released.
Proof.
  intros Hinv ? ? ? Htl ?. eapply sys_inv_writer; try done.
  - by rewrite app_nil_r.
  - split; [done|]. eauto.
  - by rewrite app_nil_r.
  - rewrite app_nil_r, Htl. apply Hinv.
Qed.

(** The thread's entry is replaced in place. *)
Lemma sys_inv_writer_replace s G1 A e e' B R released t th r' p' :
  sys_inv s G1 (A ++ e :: B) R released -> writers s !! t = Some th ->
  owned_by t e -> (owned_by t e' \/ owner e' = None) -> e_content e' = e_content e ->
  ring_ok size r' (rd_zeroed R) G1 (A ++ e' :: B) ->
  head r' = head (ring s) -> tail r' = tail (ring s) ->
  thread_ok r' (A ++ e' :: B) (snd <$> reservations s) t (MkThread (t_msg th) (t_payload th) p') ->
  sys_inv (MkSystem r' (<[t := MkThread (t_msg th) (t_payload th) p']> (writers s)) (reader s)
    (reservations s ++ []) (delivered s)) G1 (A ++ e' :: B) R released.
Proof.
  intros Hinv Hth Ho Ho' Hc Hr Hhd Htl Hok. eapply sys_inv_writer; try done.
  - by rewrite app_nil_r.
  - split.
    + intros t' Hne. unfold owned_by in *. rewrite !filter_app. f_equal.
      rewrite !filter_cons, !decide_False by (destruct Ho' as [Ho'|Ho']; congruence). done.
    + intros e0 G E Hp. destruct A as [|a A]; cbn in *; simplify_eq; [|eauto].
      unfold owned_by, owner in Ho. by rewrite Hp in Ho.
  - rewrite app_nil_r, !messages_app. unfold messages. cbn. unfold e_message. by rewrite Hc.
  - rewrite app_nil_r, Htl. apply Hinv.
Qed.

Lemma filter_split t G e l :
  filter (owned_by t) G = e :: l ->
  exists A B, G = A ++ e :: B /\ owned_by t e /\
    filter (owned_by t) A = [] /\ filter (owned_by t) B = l.
Proof.
  induction G as [|x G IH]; [done|]. rewrite filter_cons. destruct (decide (owned_by t x)).
  - intros [= -> <-]. by exists [], G.
  - intros (A & B & -> & ? & HA & ?)%IH. exists (x :: A), B.
    split_and!; try done. rewrite filter_cons, decide_False by done. done.
Qed.

(** The state after a step of thread [t] that leaves the ring [r] and has [p] to do. *)
Definition after_writer (s : System) (t : nat) (th : Thread) (r : Ring) (p : Prog bool)
    (more : list (Z * (Z * bytes))) : System :=
  MkSystem r (<[t := MkThread (t_msg th) (t_payload th) p]> (writers s)) (reader s)
    (reservations s ++ more) (delivered s).

Lemma unread_ok s G1 G2 R released :
  sys_inv s G1 G2 R released -> Forall (entry_ok size) G2.
Proof. intros [[_ _ _ _ _ He _ _ _ _] _ _ _ _ _ _ _ _]. by apply Forall_app in He as [_ He]. Qed.

Lemma held_ok s G1 G2 R released t e l :
  sys_inv s G1 G2 R released -> filter (owned_by t) G2 = e :: l -> entry_ok size e.
Proof.
  intros Hinv Hf. apply filter_split in Hf as (A & B & -> & _).
  eapply Forall_forall; [by eapply unread_ok|]. apply elem_of_app. right. left.
Qed.

(** A thread writes to the first entry it holds. *)
Lemma writer_writes s G1 G2 R released t th e e' l lb L a0 bs p' :
  sys_inv s G1 G2 R released -> writers s !! t = Some th ->
  filter (owned_by t) G2 = e :: l ->
  e_start e' = e_start e -> e_len e' = e_len e -> e_content e' = e_content e ->
  (entry_ok size e -> entry_mem (cell size (ring s)) e ->
    entry_ok size e' /\ e_start e <= a0 /\ a0 + Z.of_nat (length bs) <= e_end e /\
    entry_mem (store_bytes (cell size (ring s)) a0 bs) e') ->
  lb <= head (ring s) ->
  held (t_msg th) (t_payload th) t L = filter (owned_by t) [e'] ++ l ->
  (owned_by t e' \/ owner e' = None) ->
  (t_msg th, t_payload th) ∈ snd <$> reservations s ->
  wsafe size (t_msg th) (t_payload th) p' lb L write_post ->
  sys_ok (after_writer s t th
    ((ring s) <| data := store_bytes (data (ring s)) (a0 `mod` size) bs |>) p' []).
Proof.
  intros Hinv Hth Hf Hs Hl Hc Hm Hlb Hheld Ho' Hin Hsafe.
  apply filter_split in Hf as (A & B & -> & Ho & HA & HB).
  pose proof (inv_ring _ _ _ _ _ Hinv) as Hr.
  destruct Hm as (Hok & Hlo & Hhi & Hm).
  { eapply Forall_forall; [by eapply unread_ok|]. apply elem_of_app. right. left. }
  { eapply Forall_forall; [apply Hr|]. apply elem_of_app. right. left. }
  exists G1, (A ++ e' :: B), R, released.
  eapply sys_inv_writer_replace; try done.
  - by apply (ring_ok_write size k Hsize Hk _ _ _ _ e).
  - exists lb, L. split; [done|]. split; [|by split; [right|]]. cbn. rewrite Hheld.
    rewrite filter_app, HA. cbn [app]. rewrite !filter_cons, HB. by case_decide.
Qed.

Lemma step_write64_ok s G1 G2 R released t th lb L i v p' :
  sys_inv s G1 G2 R released -> writers s !! t = Some th -> lb <= head (ring s) ->
  filter (owned_by t) G2 = held (t_msg th) (t_payload th) t L ->
  L = Nothing \/ (t_msg th, t_payload th) ∈ snd <$> reservations s ->
  wsafe size (t_msg th) (t_payload th) (Write64 i v p') lb L write_post ->
  sys_ok (after_writer s t th ((ring s) <| data := store_bytes (data (ring s)) i (le_encode 8 v) |>) p' []).
Proof.
  intros Hinv Hth Hlb Hf [->|Hin] Hs; [done|].
  destruct L as [|start pad|start|start n|]; try done; cbn in Hs.
  - destruct Hs as (-> & -> & Hs).
    eapply (writer_writes _ _ _ _ _ _ _ _ (MkEntry start pad Padding Ready) _ _ _ start); try done; cbn.
    + intros ([q Hq] & Hal & Hpos & Hst & Hp) _. cbn in *. destruct Hal as [q' ->].
      split_and!; [split_and!; try done; [by exists q|by exists q']|lia|
        rewrite le_encode_length; unfold e_end; cbn; lia|].
      apply header_at_store, make_header_range; [unfold msg_pad|]; lia.
    + by rewrite decide_False.
    + by right.
  - destruct Hs as (-> & -> & Hs).
    eapply (writer_writes _ _ _ _ _ _ _ _
      (MkEntry start (msg_size (t_payload th)) (Message (t_msg th) (t_payload th)) (Pending t 0))
      _ _ _ start); try done; cbn.
    + intros (Hal & Hal' & Hpos & Hst & Hv & _) _. cbn in *. pose proof (msg_size_spec _ _ Hv).
      split; [exact (conj Hal (conj Hal' (conj Hpos (conj Hst (conj Hv (conj eq_refl (Nat.le_0_l _)))))))|].
      split; [lia|]. split; [rewrite le_encode_length; unfold e_end; cbn; lia|].
      split; [|done]. by apply header_at_store, valid_header.
    + by rewrite decide_True.
    + by left.
  - destruct Hs as (-> & -> & -> & Hs).
    eapply (writer_writes _ _ _ _ _ _ _ _
      (MkEntry start (msg_size (t_payload th)) (Message (t_msg th) (t_payload th)) Ready)
      _ _ _ start); try done; cbn.
    + intros (Hal & Hal' & Hpos & Hst & Hv & _) [_ Hm]. cbn in *. pose proof (msg_size_spec _ _ Hv).
      split; [exact (conj Hal (conj Hal' (conj Hpos (conj Hst (conj Hv eq_refl)))))|].
      split; [lia|]. split; [rewrite le_encode_length; unfold e_end; cbn; lia|].
      split; [by apply header_at_store, valid_header|].
      rewrite load_store_other by (rewrite le_encode_length; unfold header_size; lia).
      by rewrite Hm, firstn_all.
    + by rewrite decide_False.
    + by right.
Qed.

Lemma step_memcpy_ok s G1 G2 R released t th lb L i bs p' :
  sys_inv s G1 G2 R released -> writers s !! t = Some th -> lb <= head (ring s) ->
  filter (owned_by t) G2 = held (t_msg th) (t_payload th) t L ->
  L = Nothing \/ (t_msg th, t_payload th) ∈ snd <$> reservations s ->
  wsafe size (t_msg th) (t_payload th) (Memcpy i bs p') lb L write_post ->
  sys_ok (after_writer s t th ((ring s) <| data := store_bytes (data (ring s)) i bs |>) p' []).
Proof.
  intros Hinv Hth Hlb Hf [->|Hin] Hs; [done|].
  destruct L as [|start pad|start|start n|]; try done; cbn in Hs.
  destruct Hs as (-> & Htake & Hlen & Hs).
  replace (start `mod` size + header_size + Z.of_nat n)
    with ((start + (header_size + Z.of_nat n)) `mod` size).
  - eapply (writer_writes _ _ _ _ _ _ _ _ (MkEntry start (msg_size (t_payload th))
      (Message (t_msg th) (t_payload th)) (Pending t (n + length bs)))); try done; cbn.
    + intros (Hal & Hal' & Hpos & Hst & Hv & _) [Hh Hm]. cbn in *.
      pose proof (msg_size_spec _ _ Hv). unfold header_size in *.
      split; [exact (conj Hal (conj Hal' (conj Hpos (conj Hst (conj Hv (conj eq_refl (proj2 Hlen)))))))|].
      split; [lia|]. split; [unfold e_end; cbn; lia|].
      rewrite <- Hh, Htake, <- Hm. unfold entry_mem. cbn. split.
      * unfold header_at. f_equal. apply load_store_other. lia.
      * rewrite load_bytes_app. f_equal; [apply load_store_other; lia|].
        rewrite <- Z.add_assoc. apply load_store_same.
    + by rewrite decide_True.
    + by left.
  - pose proof (held_ok _ _ _ _ _ _ _ _ Hinv Hf) as (_ & _ & _ & Hst & Hv & _).
    cbn in *. pose proof (msg_size_spec _ _ Hv).
    rewrite (index_add size k Hsize Hk) by (unfold header_size; lia). lia.
Qed.

(** A successful exchange. *)
Lemma step_exchange_ok s G1 G2 R released t th L more r' p' lb :
  sys_inv s G1 G2 R released -> writers s !! t = Some th -> lb <= head (ring s) ->
  filter (owned_by t) G2 = [] ->
  r' = (ring s) <| tail := tail r' |> ->
  chain (tail (ring s)) (held (t_msg th) (t_payload th) t L) (tail r') ->
  Forall (entry_ok size) (held (t_msg th) (t_payload th) t L) ->
  Forall (fun e => e_phase e = Reserved t) (held (t_msg th) (t_payload th) t L) ->
  tail r' <= head (ring s) + size -> tail r' < u64_modulus ->
  messages (held (t_msg th) (t_payload th) t L) = snd <$> more ->
  (t_msg th, t_payload th) ∈ snd <$> more ->
  tail r' = foldr (fun r n => fst r + n) 0 (reservations s ++ more) ->
  wsafe size (t_msg th) (t_payload th) p' lb L write_post ->
  sys_ok (after_writer s t th r' p' more).
Proof.
  intros Hinv Hth Hlb Hf Er Hc He Hp Hroom Hb Hm Hin Ht Hs. set (es := held _ _ _ _) in *.
  exists G1, (G2 ++ es), R, released. eapply sys_inv_writer; try done.
  - rewrite Er. eapply (ring_ok_append size k Hsize Hk); try done; [apply Hinv|].
    eapply Forall_impl; [exact Hp|]. cbn. eauto.
  - by rewrite Er.
  - exists lb, L. rewrite Er. split; [done|].
    split; [|split; [right; rewrite fmap_app; apply elem_of_app; by right|done]]. cbn.
    rewrite filter_app, Hf. cbn [app]. fold es. apply filter_all.
    eapply Forall_impl; [exact Hp|]. intros e Ep. unfold owned_by, owner. by rewrite Ep.
  - split.
    + intros t' Hne. rewrite filter_app. rewrite (filter_none _ es), app_nil_r; [done|].
      eapply Forall_impl; [exact Hp|]. intros e Ep. unfold owned_by, owner. rewrite Ep. congruence.
    + intros e G ->. cbn. eauto.
  - by rewrite messages_app, Hm.
Qed.

Lemma bytes_reserved_snoc (l : list (Z * (Z * bytes))) x :
  foldr (fun r n => fst r + n) 0 (l ++ [x]) = foldr (fun r n => fst r + n) 0 l + fst x.
Proof. induction l as [|y l IH]; cbn; lia. Qed.

Lemma offsets_ok s G1 G2 R released :
  sys_inv s G1 G2 R released ->
  offset_ok (head_cache (ring s)) /\ offset_ok (tail (ring s)) /\ offset_ok (head (ring s)) /\
  head (ring s) <= tail (ring s) <= head (ring s) + size.
Proof.
  intros [[Hc Hr Hb Hca Hal He _ _ _ _] _ _ _ _ _ _ _ _].
  pose proof (chain_span _ _ _ Hc). pose proof (span_nonneg _ (entry_ok_pos size k Hsize Hk _ He)).
  assert (aligned (tail (ring s))).
  { rewrite H. apply Z.divide_add_r; [apply Hal|by eapply span_aligned]. }
  unfold offset_ok. split_and!; try tauto; lia.
Qed.

Lemma reserved_message_ok t a m p :
  aligned a -> valid_message m p -> a `mod` size + msg_size p <= size ->
  entry_ok size (MkEntry a (msg_size p) (Message m p) (Reserved t)).
Proof.
  intros Ha Hv Hst. pose proof (msg_size_spec _ _ Hv) as [? ?].
  unfold entry_ok. cbn. do 2 (split; [done|]). split; [lia|]. done.
Qed.

(** Padding fills the lap. *)
Lemma reserved_padding_ok t a pad :
  aligned a -> pad = size - a `mod` size -> pad < 2 ^ 31 -> pad < size ->
  entry_ok size (MkEntry a pad Padding (Reserved t)) /\ aligned (a + pad) /\ (a + pad) `mod` size = 0.
Proof.
  intros Ha Hpad Hlt Hlap. pose proof (index_bounds size k Hsize Hk a).
  assert (aligned pad) as Hp.
  { rewrite Hpad. apply Z.divide_sub_r; [by eapply size_aligned|by eapply index_aligned]. }
  split; [|split].
  - unfold entry_ok. cbn. do 2 (split; [done|]). split; lia.
  - by apply Z.divide_add_r.
  - replace (a + pad) with ((a `div` size + 1) * size); [apply Z.mod_mul; lia|].
    pose proof (Z.div_mod a size). lia.
Qed.

(** An exchange, whether it succeeds or not. *)
Lemma step_cas_ok s G1 G2 R released t th lb L expected desired f (sp : bool) :
  sys_inv s G1 G2 R released -> writers s !! t = Some th -> lb <= head (ring s) ->
  filter (owned_by t) G2 = held (t_msg th) (t_payload th) t L ->
  wsafe size (t_msg th) (t_payload th) (CompareExchangeWeak expected desired f) lb L write_post ->
  let '(r', p', ev) := step_prog sp (ring s) (CompareExchangeWeak expected desired f) in
  foldr (fun r n => fst r + n) 0 (reservations s ++ reserved_by th ev) < u64_modulus ->
  sys_ok (after_writer s t th r' p' (reserved_by th ev)).
Proof.
  intros Hinv Hth Hlb Hf (-> & Hv & Hyes & Hno). cbn [step_prog].
  destruct (offsets_ok _ _ _ _ _ Hinv) as (_ & Htl & Hhd & Hwin).
  destruct ((tail (ring s) =? expected) && negb sp) eqn:E; cbn [reserved_by].
  - apply andb_true_iff in E as [<-%Z.eqb_eq _]. rewrite bytes_reserved_snoc. cbn [fst].
    pose proof (inv_tail _ _ _ _ _ Hinv) as Ht. unfold bytes_reserved in Ht. rewrite <- Ht.
    destruct (Hyes (head (ring s))) as (pad & Hpad & -> & Hfit & Hcases); [lia|apply Hhd|lia|].
    clear Hyes Hno. pose proof (msg_size_spec _ _ Hv) as [Hal Hms].
    pose proof (size_bounds size k Hsize Hk). destruct Htl as [Htl Htal].
    set (n := pad + msg_size (t_payload th)) in *.
    replace (tail (ring s) + pad + msg_size (t_payload th)) with (tail (ring s) + n) in * by lia.
    replace (u64 (u64 (tail (ring s) + n) - tail (ring s))) with n.
    2: { unfold u64. rewrite Zminus_mod_idemp_l, Z.add_simpl_l. symmetry. apply Z.mod_small. lia. }
    intros Hb. rewrite u64_small by lia.
    destruct Hcases as [(-> & Hst & Hs)|(Hpad' & Epad & Hs)];
      (eapply step_exchange_ok; [exact Hinv|exact Hth|exact Hlb|exact Hf|..]; try exact Hs); cbn;
      try done; try (rewrite bytes_reserved_snoc, <- Ht; done); try by left;
      rewrite ?Z.add_0_l in *.
    + constructor; [|done]. by apply reserved_message_ok.
    + by repeat constructor.
    + unfold e_end. cbn. lia.
    + destruct (reserved_padding_ok t (tail (ring s)) pad) as (? & ? & E0); [done|done|lia|lia|].
      constructor; [done|]. constructor; [|done]. apply reserved_message_ok; [done..|]. lia.
    + by repeat constructor.
  - intros _. exists G1, G2, R, released.
    apply sys_inv_writer_local; try done; [apply Hinv|].
    exists (Z.max lb (tail (ring s) - size)), Nothing. split; [lia|].
    split; [done|]. split; [by left|]. by apply Hno.
Qed.

(** The header a writer reads back in [finish] is the one it wrote. *)
Lemma pending_header s G1 G2 R released t m p start n :
  sys_inv s G1 G2 R released -> filter (owned_by t) G2 = held m p t (HoldsPending start n) ->
  le_decode (load_bytes (data (ring s)) (start `mod` size) 8) =
  make_header m (Z.of_nat (length p)) true.
Proof.
  intros Hinv Hf. pose proof (held_ok _ _ _ _ _ _ _ _ Hinv Hf) as (_ & _ & _ & Hst & Hv & _).
  cbn in *. pose proof (msg_size_spec _ _ Hv).
  apply filter_split in Hf as (A & B & -> & _).
  pose proof (ok_mem2 _ _ _ _ _ (inv_ring _ _ _ _ _ Hinv)) as Hm.
  apply Forall_app in Hm as [_ [[Hh _] _]%Forall_cons].
  rewrite (load_cells size k Hsize Hk) by lia. exact Hh.
Qed.

(** Every step of a writer keeps the invariant. *)
Lemma step_writer_ok s G1 G2 R released t th sp :
  sys_inv s G1 G2 R released -> writers s !! t = Some th ->
  let '(r', p', ev) := step_prog sp (ring s) (t_prog th) in
  foldr (fun r n => fst r + n) 0 (reservations s ++ reserved_by th ev) < u64_modulus ->
  delivered_by ev = [] /\ sys_ok (after_writer s t th r' p' (reserved_by th ev)).
Proof.
  intros Hinv Hth. destruct (inv_writers _ _ _ _ _ Hinv t th Hth) as (lb & L & Hlb & Hf & Hin & Hs).
  destruct (offsets_ok _ _ _ _ _ Hinv) as (Hhc & Htl & Hhd & Hwin).
  pose proof (inv_ring _ _ _ _ _ Hinv) as Hr.
  assert (forall p' lb', lb' <= head (ring s) ->
    wsafe size (t_msg th) (t_payload th) p' lb' L write_post ->
    sys_ok (after_writer s t th (ring s) p' [])) as Hlocal.
  { intros p' lb' Hlb' Hs'. exists G1, G2, R, released. apply sys_inv_writer_local; try done.
    by exists lb', L. }
  destruct (t_prog th) as [b|e| |l f|l v p|e d f|i f|i v p|i bs p|i n p|m i n p] eqn:Ep;
    cbn [step_prog]; try done.
  - intros _. split; [done|]. eapply Hlocal; done.
  - intros _. split; [done|]. eapply Hlocal; done.
  - intros _. split; [done|]. eapply Hlocal; done.
  - intros _. split; [done|].
    destruct l; cbn in Hs |- *; (eapply Hlocal; [|by apply Hs]); [|lia|lia].
    destruct Hr as [_ _ _ ? _ _ _ _ _ _]. lia.
  - intros _. split; [done|]. destruct l; [|done..]. destruct Hs as (Hle & [Hv1 Hv2] & Hs).
    exists G1, G2, R, released. apply sys_inv_writer_local; try done.
    + apply (ring_ok_head_cache size k Hsize Hk); [done|lia|done].
    + by exists lb, L.
  - pose proof (step_cas_ok _ _ _ _ _ _ _ _ _ _ _ _ sp Hinv Hth Hlb Hf Hs) as H.
    cbn [step_prog] in H. destruct (_ && _); (split; [done|auto]).
  - intros _. split; [done|]. destruct L as [| | |start n|]; try done. destruct Hs as (-> & Hs).
    rewrite (pending_header _ _ _ _ _ _ _ _ _ _ Hinv Hf). by eapply Hlocal.
  - intros _. split; [done|]. by eapply step_write64_ok.
  - intros _. split; [done|]. by eapply step_memcpy_ok.
Qed.

(** ** Steps of the reader *)

Lemma thread_ok_reader r r' G2 G2' l t th :
  head r <= head r' -> filter (owned_by t) G2' = filter (owned_by t) G2 ->
  thread_ok r G2 l t th -> thread_ok r' G2' l t th.
Proof.
  intros Hle Hf (lb & L & Hlb & Hh & Hs). exists lb, L. rewrite Hf. split; [lia|done].
Qed.

(** The state after a step of the reader. *)
Lemma sys_inv_reader s G1 G2 R released r' p' G1' G2' R' released' more :
  sys_inv s G1 G2 R released ->
  ring_ok size r' (rd_zeroed R') G1' G2' ->
  head (ring s) <= head r' -> tail r' = tail (ring s) ->
  (forall t, filter (owned_by t) G2' = filter (owned_by t) G2) ->
  span G1' = rd_advance R' ->
  (forall m p, rd_next R' = Some (m, p) ->
    exists e G, G2' = e :: G /\ e_content e = Message m p /\ e_phase e = Ready) ->
  rsafe size p' (head r') R' read_post ->
  released' ++ messages (G1' ++ G2') = released ++ messages (G1 ++ G2) ->
  released' ++ messages G1' = (released ++ messages G1) ++ more ->
  sys_inv (MkSystem r' (writers s) p' (reservations s) (delivered s ++ more)) G1' G2' R' released'.
Proof.
  intros [Hr Hw Ho Ha Hn Hrd Hres Hdel Ht] Hr' Hhd Htl Hf Hsp Hnx Hs Hmsg Hmore.
  split; cbn; try done.
  - intros t th Hth. eapply thread_ok_reader; [done|by apply Hf|]. by apply Hw.
  - intros e t He Hown.
    assert (e ∈ filter (owned_by t) G2') as Hin by (by apply list_elem_of_filter).
    rewrite Hf in Hin. apply list_elem_of_filter in Hin as [_ Hin]. eauto.
  - by rewrite Hmsg.
  - by rewrite Hdel, Hmore.
  - by rewrite Htl.
Qed.

(** Reading moves an entry that is ready from [G2] to [G1]. *)
Lemma filter_ready t e G : e_phase e = Ready -> filter (owned_by t) (e :: G) = filter (owned_by t) G.
Proof. intros Hp. rewrite filter_cons_False; [done|]. unfold owned_by, owner. by rewrite Hp. Qed.

Lemma span_snoc G e : span (G ++ [e]) = span G + e_len e.
Proof. rewrite span_app. cbn. lia. Qed.

Lemma step_read64_ok s G1 G2 R released i f :
  sys_inv s G1 G2 R released -> rsafe size (Read64 i f) (head (ring s)) R read_post ->
  sys_ok (MkSystem (ring s) (writers s) (f (le_decode (load_bytes (data (ring s)) i 8)))
    (reservations s) (delivered s ++ [])).
Proof.
  intros Hinv (ER & -> & Hlt & Hnone & Hpend & Hpad & Hmsg).
  pose proof (inv_ring _ _ _ _ _ Hinv) as Hr. pose proof (inv_advance _ _ _ _ _ Hinv) as Ha.
  rewrite ER in Hr. cbn in Hr.
  destruct (ring_ok_next size k Hsize Hk (ring s) G1 G2) as [Hh Hfit]; [done|by rewrite Ha|].
  rewrite Ha in Hh, Hfit. rewrite Hh.
  assert (forall p', rsafe size p' (head (ring s)) R read_post ->
    sys_ok (MkSystem (ring s) (writers s) p' (reservations s) (delivered s ++ []))) as Hstay.
  { intros p' Hs. exists G1, G2, R, released.
    eapply sys_inv_reader; try done; [by rewrite ER|by rewrite ER|by rewrite app_nil_r]. }
  destruct G2 as [|e G2]; [by apply Hstay|]. cbn [next_header].
  pose proof (unread_ok _ _ _ _ _ Hinv) as [(_ & _ & Hpos & Hst & Hok) _]%Forall_cons.
  destruct (e_phase e) as [t|t n|] eqn:Ep; [by apply Hstay| |].
  - destruct (e_content e) as [|m p] eqn:Ec; [done|]. apply Hstay, Hpend, Hok.
  - destruct (e_content e) as [|m p] eqn:Ec.
    + exists (G1 ++ [e]), G2, (MkReading (rd_advance R + e_len e) None false), released.
      eapply sys_inv_reader; try done.
      * by apply ring_ok_consume with k.
      * intros t. by rewrite filter_ready.
      * by rewrite span_snoc, Ha.
      * destruct Hok as [Hok _]. by apply Hpad.
      * by rewrite <- app_assoc.
      * rewrite messages_app. unfold messages at 2. cbn. unfold e_message. rewrite Ec.
        by rewrite !app_nil_r.
    + destruct Hok as [Hv Hl].
      exists G1, (e :: G2), (MkReading (rd_advance R) (Some (m, p)) false), released.
      eapply sys_inv_reader; try done.
      * intros m' p' [= -> ->]. by exists e, G2.
      * apply Hmsg; [done|]. by rewrite <- Hl.
      * by rewrite app_nil_r.
Qed.

Lemma step_handle_ok s G1 G2 R released m i n p' :
  sys_inv s G1 G2 R released -> rsafe size (Handle m i n p') (head (ring s)) R read_post ->
  sys_ok (MkSystem (ring s) (writers s) p' (reservations s)
    (delivered s ++ [(m, load_bytes (data (ring s)) i (Z.to_nat n))])).
Proof.
  intros Hinv Hs. cbn in Hs. destruct (rd_next R) as [[m' p]|] eqn:En; [|done].
  destruct Hs as (-> & -> & -> & Hfit & Hz & Hs).
  destruct (inv_next _ _ _ _ _ Hinv m' p En) as (e & G & -> & Ec & Ep).
  pose proof (inv_ring _ _ _ _ _ Hinv) as Hr. rewrite Hz in Hr.
  pose proof (inv_advance _ _ _ _ _ Hinv) as Ha.
  pose proof (unread_ok _ _ _ _ _ Hinv) as [(_ & _ & Hpos & Hst & Hok) _]%Forall_cons.
  rewrite Ec, Ep in Hok. destruct Hok as [Hv Hl]. pose proof (msg_size_spec _ _ Hv).
  rewrite Nat2Z.id. rewrite <- Ha at 1.
  rewrite (ready_payload size k Hsize Hk _ _ e G m' p) by (try done; lia).
  exists (G1 ++ [e]), G, (MkReading (rd_advance R + msg_size p) None false), released.
  eapply sys_inv_reader; try done.
  - by apply ring_ok_consume with k.
  - intros t. by rewrite filter_ready.
  - rewrite span_snoc, Ha. cbn. lia.
  - by rewrite <- app_assoc.
  - rewrite messages_app, app_assoc. f_equal. unfold messages. cbn. unfold e_message. by rewrite Ec.
Qed.

(** Every step of the reader keeps the invariant. *)
Lemma step_reader_ok s G1 G2 R released :
  sys_inv s G1 G2 R released ->
  let '(r', p', ev) := step_prog false (ring s) (reader s) in
  sys_ok (MkSystem r' (writers s) p' (reservations s) (delivered s ++ delivered_by ev)).
Proof.
  intros Hinv. pose proof (inv_reader _ _ _ _ _ Hinv) as Hs.
  pose proof (inv_ring _ _ _ _ _ Hinv) as Hr. pose proof (inv_advance _ _ _ _ _ Hinv) as Ha.
  destruct (offsets_ok _ _ _ _ _ Hinv) as (_ & _ & Hhd & Hwin).
  assert (forall p', rsafe size p' (head (ring s)) R read_post ->
    sys_ok (MkSystem (ring s) (writers s) p' (reservations s) (delivered s ++ []))) as Hstay.
  { intros p' Hs'. exists G1, G2, R, released.
    eapply sys_inv_reader; try done; [by apply Hinv|by rewrite app_nil_r]. }
  destruct (reader s) as [b|e| |l f|l v p|e d f|i f|i v p|i bs p|i n p|m i n p] eqn:Ep;
    cbn [step_prog delivered_by]; try done; try by apply Hstay.
  - apply Hstay. by destruct l.
  - destruct l; [done..|]. destruct Hs as (Hz & -> & Hs). rewrite Hz in Hr.
    assert (0 <= span G1 /\ head (ring s) + span G1 <= tail (ring s)) as [Hnn Hle].
    { pose proof (ok_chain _ _ _ _ _ Hr) as [_ Hc]%chain_app. apply chain_span in Hc.
      pose proof (ok_entries _ _ _ _ _ Hr) as He. apply Forall_app in He as [He1 He2].
      pose proof (span_nonneg _ (entry_ok_pos size k Hsize Hk _ He1)).
      pose proof (span_nonneg _ (entry_ok_pos size k Hsize Hk _ He2)). lia. }
    rewrite <- Ha in Hs |- *.
    rewrite u64_small by (pose proof (ok_bound _ _ _ _ _ Hr); destruct Hhd; lia).
    exists [], G2, idle, (released ++ messages G1).
    eapply sys_inv_reader; try done; cbn.
    + by apply (ring_ok_release size k Hsize Hk).
    + lia.
    + by rewrite messages_app, app_assoc.
  - by eapply step_read64_ok.
  - destruct Hs as (ER & -> & Hle & Hs). rewrite ER in Hr, Ha. cbn in Hr, Ha. rewrite <- Ha in *.
    exists G1, G2, (MkReading (span G1) None true), released.
    eapply sys_inv_reader; try done; [|by rewrite app_nil_r].
    by apply (ring_ok_zero size k Hsize Hk).
  - by eapply step_handle_ok.
Qed.

(** ** Runs *)

Lemma initial_ok : sys_ok initial_system.
Proof.
  exists [], [], idle, []. pose proof (size_bounds size k Hsize Hk).
  assert (aligned 0) by apply Z.divide_0_r.
  split; cbn; try done; [split; cbn; try done; lia|].
  by intros e t ?%elem_of_nil.
Qed.

Lemma bytes_reserved_mono s s' c :
  sys_step size s c = Some s' -> bytes_reserved s <= bytes_reserved s'.
Proof.
  unfold bytes_reserved. destruct c as [t fuel m wait sections|t sp|fuel limit|]; cbn.
  - destruct (writers s !! t) as [th|]; [destruct (finished _)|]; by intros [= <-].
  - destruct (writers s !! t) as [th|]; [|done].
    destruct (t_prog th); cbn; try (intros [= <-]; cbn; by rewrite app_nil_r).
    destruct (_ && _); intros [= <-]; cbn; [|by rewrite app_nil_r].
    rewrite bytes_reserved_snoc. cbn.
    match goal with |- context [u64 ?z] => pose proof (u64_range z) end. lia.
  - destruct (finished _); [|done]. by intros [= <-].
  - destruct (step_prog _ _ _) as [[r p] e]. by intros [= <-].
Qed.

(** A new call starts where the previous call of the thread has left nothing. *)
Lemma start_write_ok s G1 G2 R released t fuel m wait sections :
  sys_inv s G1 G2 R released ->
  (forall th, writers s !! t = Some th -> finished (t_prog th) = true) ->
  sys_ok (s <| writers := <[t := MkThread m (concat sections)
    (write_multiple size fuel m wait sections)]> (writers s) |>).
Proof.
  intros Hinv Hfin. exists G1, G2, R, released.
  assert (filter (owned_by t) G2 = []) as Hnone.
  { destruct (writers s !! t) as [th|] eqn:Hth.
    - destruct (inv_writers _ _ _ _ _ Hinv t th Hth) as (lb & L & _ & Hf & _ & Hs). rewrite Hf.
      specialize (Hfin th eq_refl). destruct (t_prog th); try done; cbn in Hs.
      + unfold write_post in Hs. subst L. by destruct a.
      + by subst L.
    - apply filter_none, Forall_forall. intros e He Ho.
      destruct (inv_owners _ _ _ _ _ Hinv e t He Ho). congruence. }
  destruct Hinv as [Hr Hw Ho Ha Hn Hrd Hres Hdel Ht]. split; cbn; try done.
  - intros t' th'. destruct (decide (t' = t)) as [->|Hne].
    + rewrite lookup_insert_eq. intros [= <-]. exists 0, Nothing. cbn.
      split; [|split; [done|split; [by left|]]].
      * destruct Hr as [_ _ _ ? _ _ _ _ _ _]. lia.
      * by apply (write_multiple_safe size k Hsize Hk).
    + rewrite lookup_insert_ne by done. apply Hw.
  - intros e t' He Hown. rewrite lookup_insert_is_Some. destruct (decide (t = t')); eauto.
Qed.

Lemma sys_step_ok s s' c :
  sys_ok s -> sys_step size s c = Some s' -> bytes_reserved s' < u64_modulus -> sys_ok s'.
Proof.
  intros (G1 & G2 & R & released & Hinv). destruct c as [t fuel m wait sections|t sp|fuel limit|]; cbn.
  - intros H _.
    assert (forall th, writers s !! t = Some th -> finished (t_prog th) = true) as Hfin.
    { intros th Hth. rewrite Hth in H. by destruct (finished _). }
    assert (s' = s <| writers := <[t := MkThread m (concat sections)
      (write_multiple size fuel m wait sections)]> (writers s) |>) as ->.
    { destruct (writers s !! t) as [th|]; [rewrite Hfin in H by done|]; by simplify_eq. }
    by eapply start_write_ok.
  - destruct (writers s !! t) as [th|] eqn:Hth; [|done].
    pose proof (step_writer_ok _ _ _ _ _ t th sp Hinv Hth) as H.
    destruct (step_prog _ _ _) as [[r p] e]. intros [= <-]. unfold bytes_reserved. cbn.
    intros Hb. destruct (H Hb) as [-> Hok]. by rewrite app_nil_r.
  - destruct (finished (reader s)) eqn:Hfin; [|done]. intros [= <-] _.
    destruct (offsets_ok _ _ _ _ _ Hinv) as (_ & _ & Hhd & _).
    exists G1, G2, R, released. destruct Hinv as [Hr Hw Ho Ha Hn Hrd Hres Hdel Ht].
    assert (R = idle) as ->. { by destruct (reader s). }
    split; try done. cbn. by apply (read_safe size k Hsize Hk).
  - pose proof (step_reader_ok _ _ _ _ _ Hinv) as H.
    destruct (step_prog _ _ _) as [[r p] e]. by intros [= <-] _.
Qed.

Lemma bytes_reserved_run cs s s' :
  sys_run size s cs = Some s' -> bytes_reserved s <= bytes_reserved s'.
Proof.
  revert s. induction cs as [|c cs IH]; intros s; cbn; [by intros [= <-]|].
  destruct (sys_step size s c) as [s1|] eqn:E; [|done]. cbn. intros H%IH.
  apply bytes_reserved_mono in E. lia.
Qed.

Lemma sys_run_ok cs s s' :
  sys_ok s -> sys_run size s cs = Some s' -> bytes_reserved s' < u64_modulus -> sys_ok s'.
Proof.
  revert s. induction cs as [|c cs IH]; intros s Hok; cbn; [by intros [= <-]|].
  destruct (sys_step size s c) as [s1|] eqn:E; [|done]. cbn. intros Hrun Hb.
  apply (IH s1); [|done..]. eapply sys_step_ok; [done..|].
  apply bytes_reserved_run in Hrun. lia.
Qed.
End System.
