(* ===== verification/RingRuns.v ===== *)
(** What the users of the ring buffer rely on: delivery in order, isolation of
    the threads, room for a reservation in an empty buffer, and that reading
    twice empties a quiescent buffer. *)

From S2P Require Import Prelude Serialized RingBuffer RingInvariant RingSafety RingSystem.

(** ** The area *)

(** The constructor of [Reader] accepts a size that holds a header. *)
Definition accepted (size address : Z) : Prop :=
  new_Reader size address = Ret tt /\ 8 <= size < u64_modulus.

Lemma accepted_size size address : accepted size address -> exists k, size = 2 ^ k /\ 3 <= k < 64.
Proof.
  intros [H Hs]. unfold new_Reader in H. destruct (is_power_of_2 size) eqn:E; [|done].
  apply is_power_of_2_spec in E as (k & Hk & ->); [|unfold is_u64; lia].
  exists k. split; [done|]. destruct (decide (3 <= k)); [lia|].
  assert (2 ^ k <= 2 ^ 2) by (apply Z.pow_le_mono_r; lia). lia.
Qed.

(** ** Order of delivery *)

(** C8: Messages are delivered once, unchanged, and in the order in which their
    space was reserved, whatever the interleaving of the reader and any number
    of writers, spurious failures of the exchange included.  A message whose
    write has returned [true] is among the reserved ones, and when the reader
    has caught up with the tail every reserved message has been delivered.  The
    offsets must not have wrapped around: fewer than 2^64 bytes have been
    reserved since the buffer was created. *)
Theorem ring_delivers_in_order (size address : Z) (cs : list Choice) (s : System) :
  accepted size address ->
  sys_run size initial_system cs = Some s -> bytes_reserved s < u64_modulus ->
  delivered s `prefix_of` (snd <$> reservations s) /\
  (forall t th, writers s !! t = Some th -> t_prog th = Done true ->
    (t_msg th, t_payload th) ∈ snd <$> reservations s) /\
  (head (ring s) = tail (ring s) ->
    delivered s = snd <$> reservations s).
Proof.
  intros (k & Hsize & Hk)%accepted_size Hrun Hb.
  assert (sys_ok size s) as (G1 & G2 & R & released & Hinv).
  { eapply sys_run_ok; [done..|by eapply initial_ok|done|done]. }
  destruct (offsets_ok size k Hsize Hk _ _ _ _ _ Hinv) as (_ & _ & Hhd & Hwin).
  destruct Hinv as [Hr Hw Ho Ha Hn Hrd Hres Hdel Ht]. split_and!.
  - rewrite Hdel, Hres, messages_app. rewrite app_assoc. by apply prefix_app_r.
  - intros t th Hth Ep. destruct (Hw t th Hth) as (lb & L & _ & _ & [->|Hin] & Hs); [|done].
    by rewrite Ep in Hs.
  - intros Heq. rewrite Hdel, Hres. f_equal. f_equal.
    pose proof (entry_ok_pos size k Hsize Hk _ (ok_entries _ _ _ _ _ Hr)) as Hpos.
    pose proof (chain_span _ _ _ (ok_chain _ _ _ _ _ Hr)) as Hsp. rewrite span_app in Hsp.
    apply Forall_app in Hpos as [Hp1 Hp2]. pose proof (span_nonneg _ Hp1).
    destruct Hp2 as [|e G2 He Hp2]; [by rewrite app_nil_r|]. exfalso.
    pose proof (span_nonneg _ Hp2). cbn in Hsp. fold (span G2) in Hsp. lia.
Qed.

(** Two writers whose steps alternate, the second needing the front of the
    buffer, with the reader in between. *)
Definition two_writers : list Choice :=
  [StartWrite 0 3 7 true [[1; 2; 3]; [4; 5; 6; 7; 8; 9; 10; 11; 12; 13]]] ++
  list_replicate 12 (StepWriter 0 false) ++
  [StartRead 9 5] ++ list_replicate 9 StepReader ++
  [StartWrite 0 3 8 true [[1]; list_replicate 15 2]] ++ list_replicate 3 (StepWriter 0 false) ++
  [StartWrite 1 30 9 true [list_replicate 20 3]] ++
  flat_map (fun _ => [StepWriter 1 true; StepWriter 0 false]) (seq 0 4) ++
  [StartRead 9 5] ++ list_replicate 3 StepReader ++
  flat_map (fun _ => [StepWriter 0 false; StepWriter 1 false; StepReader]) (seq 0 16) ++
  [StartRead 9 5] ++ list_replicate 9 StepReader ++ list_replicate 15 (StepWriter 1 false) ++
  [StartRead 9 5] ++ list_replicate 9 StepReader ++ [StartRead 9 5] ++ list_replicate 9 StepReader.

Definition run_summary (r : option System) : option (list (Z * bytes) * Z * Z) :=
  s ← r; Some (delivered s, tail (ring s), bytes_reserved s).

Lemma two_writers_run :
  exists s, sys_run 64 initial_system two_writers = Some s /\ bytes_reserved s = 96 /\
    delivered s = [(7, [1; 2; 3; 4; 5; 6; 7; 8; 9; 10; 11; 12; 13]);
      (8, 1 :: list_replicate 15 2); (9, list_replicate 20 3)].
Proof.
  assert (run_summary (sys_run 64 initial_system two_writers) =
    Some ([(7, [1; 2; 3; 4; 5; 6; 7; 8; 9; 10; 11; 12; 13]);
      (8, 1 :: list_replicate 15 2); (9, list_replicate 20 3)], 96, 96)) as H by (vm_compute; reflexivity).
  revert H. unfold run_summary. destruct (sys_run 64 initial_system two_writers) as [s|]; [|done].
  cbn [mbind option_bind]. intros [= H1 _ H2]. exists s. split; [reflexivity|]. split; assumption.
Qed.

Lemma ring_delivers_in_order_witness :
  exists s, sys_run 64 initial_system two_writers = Some s /\
    delivered s `prefix_of` (snd <$> reservations s) /\ length (delivered s) = 3%nat.
Proof.
  destruct two_writers_run as (s & Hrun & Hb & Hd). exists s. split; [exact Hrun|]. split.
  - apply (ring_delivers_in_order 64 0 two_writers s); [|exact Hrun|rewrite Hb; reflexivity].
    split; [vm_compute; reflexivity|split; [lia|reflexivity]].
  - rewrite Hd. reflexivity.
Defined.

(** ** Isolation *)

(** The range of the buffer the next step of a program touches. *)
Definition next_access {A} (p : Prog A) : option (Z * Z) :=
  match p with
  | Read64 i _ => Some (i, 8)
  | Write64 i _ _ => Some (i, 8)
  | Memcpy i bs _ => Some (i, Z.of_nat (length bs))
  | MemsetZero i n _ => Some (i, n)
  | Handle _ i n _ => Some (i, n)
  | _ => None
  end.

(** Whether the reader is looking for the next message: only then may it read
    a word a writer is writing. *)
Definition polling {A} (p : Prog A) : bool := match p with Read64 _ _ => true | _ => false end.

Definition disjoint_ranges (x y : Z * Z) : Prop :=
  fst x + snd x <= fst y \/ fst y + snd y <= fst x.

Section Isolation.
Context (size k : Z) (Hsize : size = 2 ^ k) (Hk : 3 <= k < 64).
#[local] Set Default Proof Using "Hsize Hk".

(** The range lies in the memory of an entry. *)
Definition inside (e : Entry) (x : Z * Z) : Prop :=
  e_start e `mod` size <= fst x /\ 0 <= snd x /\ fst x + snd x <= e_start e `mod` size + e_len e.

Lemma inside_bounds e x :
  entry_ok size e -> inside e x -> 0 <= fst x /\ fst x + snd x <= size.
Proof.
  intros (_ & _ & _ & Hst & _) Hx. unfold inside in Hx.
  pose proof (index_bounds size k Hsize Hk (e_start e)). lia.
Qed.

Lemma writer_access s G1 G2 R released t th x :
  sys_inv size s G1 G2 R released -> writers s !! t = Some th -> next_access (t_prog th) = Some x ->
  exists e, e ∈ G2 /\ owned_by t e /\ inside e x.
Proof.
  intros Hinv Hth Hx. destruct (inv_writers _ _ _ _ _ _ Hinv t th Hth) as (lb & L & _ & Hf & _ & Hs).
  assert (exists e l, held (t_msg th) (t_payload th) t L = e :: l /\ (entry_ok size e -> inside e x))
    as (e & l & Eh & Hin).
  { destruct (t_prog th) as [b|e| |l f|l v p|e d f|i f|i v p|i bs p|i n p|m i n p];
      try done; injection Hx as <-; destruct L as [|start pad|start|start n'|]; try done; cbn in Hs |- *;
      destruct Hs as [-> Hs]; eexists _, _; (split; [reflexivity|]);
      intros (_ & [q Hq] & Hpos & _ & Hok); cbn in *; unfold inside; cbn; try lia.
    destruct Hok as (Hv & _ & _). pose proof (msg_size_spec _ _ Hv). unfold header_size. lia. }
  rewrite Eh in Hf. pose proof (held_ok size k Hsize Hk _ _ _ _ _ _ _ _ Hinv Hf) as Hok.
  apply (filter_split size k Hsize Hk) in Hf as (A & B & -> & Ho & _).
  exists e. split; [apply elem_of_app; right; left|]. split; [done|by apply Hin].
Qed.

(** Consecutive ranges of offsets are disjoint ranges of the buffer. *)
Lemma ranges_disjoint h s1 l1 s2 l2 :
  h <= s1 -> 0 <= l1 -> s1 + l1 <= s2 -> 0 < l2 -> s2 + l2 <= h + size ->
  s1 `mod` size + l1 <= size -> s2 `mod` size + l2 <= size ->
  disjoint_ranges (s1 `mod` size, l1) (s2 `mod` size, l2).
Proof.
  intros Hh Hl1 H12 Hl2 H2 Hm1 Hm2. unfold disjoint_ranges. cbn.
  destruct (decide (s1 `mod` size + l1 <= s2 `mod` size)) as [|Hn1]; [by left|].
  destruct (decide (s2 `mod` size + l2 <= s1 `mod` size)) as [|Hn2]; [by right|]. exfalso.
  destruct (decide (s1 `mod` size <= s2 `mod` size)).
  - assert (s1 + (s2 `mod` size - s1 `mod` size) = s2); [|lia].
    apply (index_inj size k Hsize Hk h); [lia..|]. rewrite (index_add size k Hsize Hk); lia.
  - assert (s2 + (s1 `mod` size - s2 `mod` size) = s1); [|lia].
    apply (index_inj size k Hsize Hk h); [lia..|]. rewrite (index_add size k Hsize Hk); lia.
Qed.

Lemma inside_disjoint e1 e2 x y :
  disjoint_ranges (e_start e1 `mod` size, e_len e1) (e_start e2 `mod` size, e_len e2) ->
  inside e1 x -> inside e2 y -> disjoint_ranges x y.
Proof. unfold disjoint_ranges, inside. cbn. lia. Qed.

Lemma disjoint_ranges_sym x y : disjoint_ranges x y -> disjoint_ranges y x.
Proof. unfold disjoint_ranges. lia. Qed.

Lemma entry_pair_disjoint h e1 e2 :
  entry_ok size e1 -> entry_ok size e2 -> h <= e_start e1 -> e_end e1 <= e_start e2 ->
  e_end e2 <= h + size ->
  disjoint_ranges (e_start e1 `mod` size, e_len e1) (e_start e2 `mod` size, e_len e2).
Proof.
  intros (_ & _ & ? & ? & _) (_ & _ & ? & ? & _). unfold e_end. intros.
  apply (ranges_disjoint h); lia.
Qed.

Lemma entries_disjoint r z G1 G2 e1 e2 x y :
  ring_ok size r z G1 G2 -> e1 ∈ G2 -> e2 ∈ G2 -> e1 <> e2 ->
  inside e1 x -> inside e2 y -> disjoint_ranges x y.
Proof.
  intros [Hc Hr _ _ _ He _ _ _ _] H1 H2 Hne.
  apply Forall_app in He as [Hg He]. apply chain_app in Hc as [_ Hc].
  pose proof (span_nonneg _ (entry_ok_pos size k Hsize Hk _ Hg)).
  apply list_elem_of_split in H1 as (A & B & ->).
  destruct (chain_disjoint size k Hsize Hk _ _ _ _ _ Hc He) as (HA & HB & Hlo & Hhi).
  pose proof He as [HeA [He1 HeB]%Forall_cons]%Forall_app.
  rewrite Forall_forall in HA, HB, HeA, HeB.
  apply elem_of_app in H2 as [H2|H2]; [|apply elem_of_cons in H2 as [->|H2]; [done|]].
  - destruct (HA e2 H2). intros Hx Hy. apply disjoint_ranges_sym.
    eapply inside_disjoint; [|exact Hy|exact Hx].
    apply (entry_pair_disjoint (head r)); [by apply HeA|done|lia..].
  - destruct (HB e2 H2). apply inside_disjoint.
    apply (entry_pair_disjoint (head r)); [done|by apply HeB|lia..].
Qed.

(** What the reader touches: the word at its position, a message that is ready,
    or what it has read. *)
Lemma reader_access s G1 G2 R released x :
  sys_inv size s G1 G2 R released -> next_access (reader s) = Some x ->
  0 <= fst x /\ fst x + snd x <= size /\
  (polling (reader s) = false -> forall e, e ∈ G2 -> owner e <> None -> forall y, inside e y ->
    disjoint_ranges x y).
Proof.
  intros Hinv Hx. pose proof (inv_reader _ _ _ _ _ _ Hinv) as Hs.
  pose proof (inv_ring _ _ _ _ _ _ Hinv) as Hr. pose proof (inv_advance _ _ _ _ _ _ Hinv) as Ha.
  pose proof (index_bounds size k Hsize Hk (head (ring s))) as Hi.
  pose proof (ok_entries _ _ _ _ _ Hr) as [He1 He2]%Forall_app.
  pose proof (span_nonneg _ (entry_ok_pos size k Hsize Hk _ He1)) as Hnn.
  destruct (reader s) as [b|e| |l f|l v p|e d f|i f|i v p|i bs p|i n p|m i n p];
    try done; injection Hx as <-; cbn in Hs |- *.
  - destruct Hs as (_ & -> & Hlt & _). split; [lia|]. split; [|done].
    destruct (ok_aligned _ _ _ _ _ Hr) as [_ Hal].
    destruct (index_aligned size k Hsize Hk _ Hal) as [q Hq].
    destruct (span_aligned size k Hsize Hk _ He1) as [q1 Hq1].
    destruct (size_aligned size k Hsize Hk) as [q2 Hq2]. lia.
  - destruct Hs as (ER & -> & Hle & _). rewrite ER in Ha. cbn in Ha. subst n.
    split; [lia|]. split; [lia|]. intros _ e He _ y Hy.
    rewrite Forall_forall in He2. pose proof (He2 e He) as Hok.
    pose proof (ok_chain _ _ _ _ _ Hr) as [_ Hc]%chain_app.
    destruct (chain_elem _ _ _ e Hc) as [? ?];
      [apply (entry_ok_pos size k Hsize Hk), Forall_forall; exact He2|done|].
    apply (inside_disjoint (MkEntry (head (ring s)) (span G1) Padding Ready) e); [|by split; cbn; lia|done].
    cbn. destruct Hok as (_ & _ & ? & ? & _). pose proof (ok_room _ _ _ _ _ Hr). unfold e_end in *.
    apply (ranges_disjoint (head (ring s))); lia.
  - destruct (rd_next R) as [[m' p']|] eqn:En; [|done].
    destruct Hs as (-> & -> & -> & Hfit & _).
    destruct (inv_next _ _ _ _ _ _ Hinv m' p' En) as (e & G & -> & Ec & Ep).
    apply Forall_cons in He2 as [Hok _]. pose proof Hok as (_ & _ & _ & Hst & Hm).
    rewrite Ec, Ep in Hm. destruct Hm as [Hv Hl]. pose proof (msg_size_spec _ _ Hv).
    pose proof (ok_chain _ _ _ _ _ Hr) as [_ [Hse _]]%chain_app. rewrite Ha in Hse.
    unfold header_size in *. split; [lia|]. split; [lia|]. intros _ e' He' Ho y Hy.
    apply (entries_disjoint _ _ _ _ e e' _ _ Hr); [left|done| | |done].
    + intros ->. by unfold owner in Ho; rewrite Ep in Ho.
    + unfold inside. cbn. rewrite Hse, (index_add size k Hsize Hk) by lia. lia.
Qed.
End Isolation.

(** C9: No thread touches memory outside the buffer, two writers never touch
    the same bytes, and the bytes the reader hands to its handler or clears are
    not touched by any writer.  The reader and a writer may meet only on the
    header word the reader polls, which is written in one access. *)
Theorem ring_isolates_threads (size address : Z) (cs : list Choice) (s : System) :
  accepted size address ->
  sys_run size initial_system cs = Some s -> bytes_reserved s < u64_modulus ->
  (forall t th x, writers s !! t = Some th -> next_access (t_prog th) = Some x ->
    0 <= fst x /\ fst x + snd x <= size) /\
  (forall x, next_access (reader s) = Some x -> 0 <= fst x /\ fst x + snd x <= size) /\
  (forall t1 t2 th1 th2 x1 x2, t1 <> t2 ->
    writers s !! t1 = Some th1 -> next_access (t_prog th1) = Some x1 ->
    writers s !! t2 = Some th2 -> next_access (t_prog th2) = Some x2 -> disjoint_ranges x1 x2) /\
  (forall t th x y, next_access (reader s) = Some x -> polling (reader s) = false ->
    writers s !! t = Some th -> next_access (t_prog th) = Some y -> disjoint_ranges x y).
Proof.
  intros (k & Hsize & Hk)%accepted_size Hrun Hb.
  assert (sys_ok size s) as (G1 & G2 & R & released & Hinv).
  { eapply sys_run_ok; [done..|by eapply initial_ok|done|done]. }
  pose proof (writer_access size k Hsize Hk) as Hw.
  split_and!.
  - intros t th x Hth Hx. destruct (Hw _ _ _ _ _ _ _ _ Hinv Hth Hx) as (e & He & _ & Hin).
    eapply (inside_bounds size k Hsize Hk); [|done].
    by eapply Forall_forall; [by eapply unread_ok|].
  - intros x Hx. destruct (reader_access size k Hsize Hk _ _ _ _ _ _ Hinv Hx) as (? & ? & _). done.
  - intros t1 t2 th1 th2 x1 x2 Hne Hth1 Hx1 Hth2 Hx2.
    destruct (Hw _ _ _ _ _ _ _ _ Hinv Hth1 Hx1) as (e1 & He1 & Ho1 & Hin1).
    destruct (Hw _ _ _ _ _ _ _ _ Hinv Hth2 Hx2) as (e2 & He2 & Ho2 & Hin2).
    eapply (entries_disjoint size k Hsize Hk); [by apply Hinv|exact He1|exact He2| |done|done].
    intros ->. unfold owned_by in *. congruence.
  - intros t th x y Hx Hpoll Hth Hy.
    destruct (Hw _ _ _ _ _ _ _ _ Hinv Hth Hy) as (e & He & Ho & Hin).
    destruct (reader_access size k Hsize Hk _ _ _ _ _ _ Hinv Hx) as (_ & _ & H).
    apply (H Hpoll e); [done| |done]. unfold owned_by in Ho. congruence.
Qed.

(** Two writers about to copy their payloads. *)
Definition both_copying : list Choice :=
  [StartWrite 0 3 7 true [[1; 2; 3]]] ++ list_replicate 4 (StepWriter 0 false) ++
  [StartWrite 1 3 8 true [[4; 5; 6; 7; 8]]] ++ list_replicate 4 (StepWriter 1 false).

Definition access_of (r : option System) (t : nat) : option (Z * Z) :=
  s ← r; th ← writers s !! t; next_access (t_prog th).

Lemma ring_isolates_threads_witness :
  exists s, sys_run 64 initial_system both_copying = Some s /\
    access_of (Some s) 0 = Some (8, 3) /\ access_of (Some s) 1 = Some (24, 5) /\
    disjoint_ranges (8, 3) (24, 5).
Proof.
  assert (access_of (sys_run 64 initial_system both_copying) 0 = Some (8, 3) /\
    access_of (sys_run 64 initial_system both_copying) 1 = Some (24, 5) /\
    from_option bytes_reserved 0 (sys_run 64 initial_system both_copying) = 32) as H
    by (vm_compute; split; [|split]; reflexivity).
  destruct (sys_run 64 initial_system both_copying) as [s|] eqn:E; [|destruct H; discriminate].
  exists s. destruct H as (H0 & H1 & Hb). cbn [from_option] in Hb.
  split; [reflexivity|]. split; [exact H0|]. split; [exact H1|]. unfold access_of in H0, H1.
  cbn [mbind option_bind] in H0, H1.
  destruct (writers s !! 0%nat) as [th0|] eqn:E0; [|discriminate].
  destruct (writers s !! 1%nat) as [th1|] eqn:E1; [|discriminate].
  refine (proj1 (proj2 (proj2 (ring_isolates_threads 64 0 both_copying s _ E _)))
    0%nat 1%nat th0 th1 _ _ _ E0 H0 E1 H1).
  - split; [vm_compute; reflexivity|split; [lia|reflexivity]].
  - rewrite Hb. reflexivity.
  - discriminate.
Defined.
