(* ===== verification/RingProgress.v ===== *)
(** Programs of the ring buffer run without interference: reservations in an
    empty buffer, and reading of a quiescent buffer. *)

From S2P Require Import Prelude Serialized RingBuffer RingInvariant RingSafety RingSystem RingRuns.

(** ** Running a program alone *)

(** The memory it leaves, the messages handed over, and its result if it
    returns. *)
Fixpoint eval {A} (p : Prog A) (r : Ring) : Ring * list (Z * bytes) * option A :=
  match p with
  | Done a => (r, [], Some a)
  | Raise _ | Spin => (r, [], None)
  | Load l k => eval (k (load_loc l r)) r
  | Store l v k => eval k (store_loc l v r)
  | CompareExchangeWeak e d k =>
      if tail r =? e then eval (k true e) (r <| tail := d |>) else eval (k false (tail r)) r
  | Read64 i k => eval (k (le_decode (load_bytes (data r) i 8))) r
  | Write64 i v k => eval k (r <| data := store_bytes (data r) i (le_encode 8 v) |>)
  | Memcpy i bs k => eval k (r <| data := store_bytes (data r) i bs |>)
  | MemsetZero i n k =>
      eval k (r <| data := store_bytes (data r) i (list_replicate (Z.to_nat n) 0) |>)
  | Handle m i n k =>
      let '(r', d, o) := eval k r in (r', (m, load_bytes (data r) i (Z.to_nat n)) :: d, o)
  end.

Lemma eval_bind {A B} (p : Prog A) (f : A -> Prog B) r :
  eval (p ≫= f) r =
  let '(r1, d1, o) := eval p r in
  match o with
  | Some a => let '(r2, d2, o2) := eval (f a) r1 in (r2, d1 ++ d2, o2)
  | None => (r1, d1, None)
  end.
Proof.
  revert r.
  induction p as [a|e| |l k' IH|l v p IH|e d k' IH|i k' IH|i v p IH|i bs p IH|i n p IH|m i n p IH];
    intros r; cbn [mbind Prog_bind eval]; try done; try apply IH.
  - by destruct (eval (f a) r) as [[r2 d2] o2].
  - destruct (tail r =? e); apply IH.
  - unfold mbind in IH. rewrite IH. destruct (eval p r) as [[r1 d1] [a|]]; [|done].
    by destruct (eval (f a) r1) as [[r2 d2] o2].
Qed.

(** It is what the steps of the reader do. *)
Lemma eval_reader_step (size : Z) s r1 p1 ev r' d a :
  step_prog false (ring s) (reader s) = (r1, p1, ev) ->
  (exists n, sys_run size (MkSystem r1 (writers s) p1 (reservations s) (delivered s ++ delivered_by ev))
      (list_replicate n StepReader) =
    Some (MkSystem r' (writers s) (Done a) (reservations s) ((delivered s ++ delivered_by ev) ++ d))) ->
  exists n, sys_run size s (list_replicate n StepReader) =
    Some (MkSystem r' (writers s) (Done a) (reservations s) (delivered s ++ delivered_by ev ++ d)).
Proof.
  intros Es [n Hn]. exists (S n). cbn [replicate sys_run sys_step]. rewrite Es.
  cbn [mbind option_bind]. by rewrite Hn, app_assoc.
Qed.

Lemma eval_reader (size : Z) (p : Prog Z) s r' d a :
  reader s = p -> eval p (ring s) = (r', d, Some a) ->
  exists n, sys_run size s (list_replicate n StepReader) =
    Some (MkSystem r' (writers s) (Done a) (reservations s) (delivered s ++ d)).
Proof.
  revert s d.
  induction p as [a'|e| |l k' IH|l v p IH|e d' k' IH|i k' IH|i v p IH|i bs p IH|i n p IH|m i n p IH];
    intros s d Ep He; cbn [eval] in He; try done.
  1: { exists 0%nat. destruct s. cbn in *. simplify_eq. by rewrite app_nil_r. }
  3: { destruct (tail (ring s) =? e) eqn:E;
       [eapply (eval_reader_step _ _ _ _ (Some (EvReserve _)))|eapply (eval_reader_step _ _ _ _ None)];
       try (rewrite Ep; cbn [step_prog]; rewrite E; reflexivity);
       (eapply (IH _ _ (MkSystem _ _ _ _ _)); [reflexivity|exact He]). }
  7: { destruct (eval p (ring s)) as [[r2 d2] o2] eqn:E. injection He as -> <- ->.
       eapply (eval_reader_step _ _ _ _ (Some (EvDeliver m _)) _ d2); [by rewrite Ep|].
       eapply (IH (MkSystem _ _ _ _ _)); [reflexivity|exact E]. }
  all: eapply (eval_reader_step _ _ _ _ None); [by rewrite Ep|];
    first [eapply (IH (MkSystem _ _ _ _ _)) | eapply (IH _ (MkSystem _ _ _ _ _))];
    [reflexivity|exact He].
Qed.

(** ** Reservations in an empty buffer *)

Section Empty.
Context (size k : Z) (Hsize : size = 2 ^ k) (Hk : 3 <= k < 64).
#[local] Set Default Proof Using "Hsize Hk".

Lemma exchange_alone retry r sz hd padding tl_index :
  exists r' res, eval (reserve_exchange retry sz hd (tail r) padding tl_index) r =
    (r', [], Some (Some res)) /\ tail r' = u64 (tail r + sz + padding).
Proof.
  unfold reserve_exchange. cbn [eval]. rewrite Z.eqb_refl.
  destruct (padding =? 0); cbn; by eexists _, _.
Qed.

Lemma place_alone retry r sz hd tl :
  0 <= tl -> tail r = tl -> head r = tl -> 0 <= hd -> sz <= rmax size ->
  exists r' res, eval (reserve_place size retry sz hd tl) r = (r', [], Some (Some res)) /\
    exists padding, tail r' = u64 (tl + sz + padding) /\
      (padding = 0 \/ padding = size - tl `mod` size /\ padding < sz).
Proof.
  intros Hpos <- He Hhd Hsz. unfold reserve_place. cbv zeta.
  rewrite !(land_mask size k Hsize Hk) by lia.
  pose proof (index_bounds size k Hsize Hk (tail r)) as Hi.
  assert (2 * rmax size <= size) as Hmax by (apply Z.mul_div_le; lia).
  assert (forall r1 hd padding, tail r1 = tail r ->
    (padding = 0 \/ padding = size - tail r `mod` size /\ padding < sz) ->
    exists r' res, eval (reserve_exchange retry sz hd (tail r) padding (tail r `mod` size)) r1 =
      (r', [], Some (Some res)) /\
    exists padding, tail r' = u64 (tail r + sz + padding) /\
      (padding = 0 \/ padding = size - tail r `mod` size /\ padding < sz)) as Hx.
  { intros r1 hd' padding Ht Hp.
    destruct (exchange_alone retry r1 sz hd' padding (tail r `mod` size)) as (r' & res & E & Et).
    rewrite Ht in E, Et. rewrite E. by eauto 10. }
  destruct (Z.ltb_spec (size - tail r `mod` size) sz); [|by apply Hx; [|left]].
  destruct (Z.ltb_spec (hd `mod` size) sz); [|by apply Hx; [|right]].
  cbn [load mbind Prog_bind eval load_loc]. rewrite He, (land_mask size k Hsize Hk) by lia.
  destruct (Z.ltb_spec (tail r `mod` size) sz); [lia|].
  cbn [store mbind Prog_bind eval store_loc]. by apply Hx; [|right].
Qed.

Lemma reserve_alone fuel r sz :
  0 <= head_cache r <= head r -> head r = tail r -> tail r < u64_modulus -> sz <= rmax size ->
  exists r' res, eval (reserve size (S fuel) sz) r = (r', [], Some (Some res)) /\
    exists padding, tail r' = u64 (tail r + sz + padding) /\
      (padding = 0 \/ padding = size - tail r `mod` size /\ padding < sz).
Proof.
  intros Hc He Hb Hsz. unfold reserve. cbn [load mbind Prog_bind eval load_loc reserve_loop].
  pose proof (size_bounds size k Hsize Hk).
  assert (2 * rmax size <= size) as Hmax by (apply Z.mul_div_le; lia).
  destruct (_ || _); [|apply place_alone; lia].
  cbn [load mbind Prog_bind eval load_loc]. rewrite He, Z.ltb_irrefl, Z.sub_diag.
  rewrite (u64_small 0), Z.sub_0_r, u64_small by lia.
  destruct (Z.ltb_spec size sz); [lia|]. cbn [store mbind Prog_bind eval store_loc].
  apply place_alone; [lia|done..|lia|done].
Qed.

Lemma place_fails retry r sz hd tl :
  0 <= tl -> 0 <= hd -> head r = tl -> size - tl `mod` size < sz ->
  hd `mod` size < sz -> tl `mod` size < sz ->
  eval (reserve_place size retry sz hd tl) r = (r, [], Some None).
Proof.
  intros Htl Hhd He Hb Hh Ht. unfold reserve_place. cbv zeta.
  rewrite !(land_mask size k Hsize Hk) by lia.
  destruct (Z.ltb_spec (size - tl `mod` size) sz); [|lia].
  destruct (Z.ltb_spec (hd `mod` size) sz); [|lia].
  cbn [load mbind Prog_bind eval load_loc]. rewrite He, (land_mask size k Hsize Hk) by lia.
  by destruct (Z.ltb_spec (tl `mod` size) sz); [|lia].
Qed.

Lemma reserve_fails fuel r sz :
  0 <= head_cache r <= head r -> head r = tail r -> tail r < u64_modulus ->
  tail r `mod` size < sz -> size - tail r `mod` size < sz -> sz <= size ->
  exists r', eval (reserve size (S fuel) sz) r = (r', [], Some None) /\ tail r' = tail r.
Proof.
  intros Hc He Hb Hfront Hback Hle. unfold reserve.
  cbn [load mbind Prog_bind eval load_loc reserve_loop].
  pose proof (size_bounds size k Hsize Hk).
  destruct (_ || _) eqn:E.
  - cbn [load mbind Prog_bind eval load_loc]. rewrite He, Z.ltb_irrefl, Z.sub_diag.
    rewrite (u64_small 0), Z.sub_0_r, u64_small by lia.
    destruct (Z.ltb_spec size sz); [lia|]. cbn [store mbind Prog_bind eval store_loc].
    rewrite place_fails by (cbn; lia). by eexists.
  - apply orb_false_iff in E as [E1 E2]. rewrite (u64_small (tail r - _)) in E1, E2 by lia.
    rewrite u64_small in E2 by lia.
    rewrite place_fails; [by eexists|lia|lia|done|lia| |lia].
    replace (head_cache r `mod` size) with (tail r `mod` size - (tail r - head_cache r)); [lia|].
    apply (Z.mod_unique_pos _ _ (tail r `div` size)).
    + pose proof (index_bounds size k Hsize Hk (tail r)). lia.
    + pose proof (Z.div_mod (tail r) size). lia.
Qed.
End Empty.

(** In an empty buffer a reservation of at most [max_reservation_size]
    bytes succeeds, wherever the tail is; the limit is tight: at the middle of
    the buffer a reservation of eight bytes more than half of it fails. *)
Theorem empty_buffer_accepts (size address : Z) (fuel : nat) (r : Ring) (sz : Z) :
  accepted size address ->
  0 <= head_cache r <= head r -> head r = tail r -> tail r < u64_modulus ->
  (sz <= max_reservation_size size ->
    exists r' res, eval (reserve size (S fuel) sz) r = (r', [], Some (Some res)) /\
    exists padding, tail r' = u64 (tail r + sz + padding) /\
      (padding = 0 \/ padding = size - tail r `mod` size /\ padding < sz)) /\
  (tail r `mod` size = max_reservation_size size -> max_reservation_size size + 8 <= size ->
    exists r', eval (reserve size (S fuel) (max_reservation_size size + 8)) r = (r', [], Some None) /\
      tail r' = tail r).
Proof.
  intros (k & Hsize & Hk)%accepted_size Hc He Hb. split; [by apply (reserve_alone size k Hsize Hk)|].
  intros Hmid H8. pose proof (size_bounds size k Hsize Hk).
  assert (size = 2 * max_reservation_size size) as Hhalf.
  { unfold max_reservation_size. subst size. replace k with (Z.succ (k - 1)) by lia.
    rewrite Z.pow_succ_r, Z.mul_comm, Z.div_mul by lia. lia. }
  apply (reserve_fails size k Hsize Hk); lia.
Qed.

Lemma empty_buffer_accepts_witness :
  exists r' res, eval (reserve 64 1 32) (MkRing (fun _ => 0) 40 40 40) = (r', [], Some (Some res)) /\
    exists padding, tail r' = u64 (40 + 32 + padding) /\
      (padding = 0 \/ padding = 64 - 40 `mod` 64 /\ padding < 32).
Proof.
  refine (proj1 (empty_buffer_accepts 64 0 0 (MkRing (fun _ => 0) 40 40 40) 32 _ _ _ _) _).
  - split; [vm_compute; reflexivity|split; [lia|reflexivity]].
  - cbn. lia.
  - reflexivity.
  - reflexivity.
  - vm_compute. discriminate.
Defined.

(** ** Reading a quiescent buffer *)

Section Drain.
Context (size k : Z) (Hsize : size = 2 ^ k) (Hk : 3 <= k < 64).
#[local] Set Default Proof Using "Hsize Hk".

Definition all_ready (G : list Entry) : Prop := Forall (fun e => e_phase e = Ready) G.

Lemma messages_ready e G m p :
  e_content e = Message m p -> messages (e :: G) = (m, p) :: messages G.
Proof. intros E. unfold messages. cbn. unfold e_message at 1. by rewrite E. Qed.

Lemma messages_padding e G : e_content e = Padding -> messages (e :: G) = messages G.
Proof. intros E. unfold messages. cbn. unfold e_message at 1. by rewrite E. Qed.

(** The loop reads up to the end of the lap, or until it has handed over as many messages as it may. *)
Lemma read_loop_alone G2 : forall G1 fuel limit count r,
  ring_ok size r false G1 G2 -> all_ready G2 -> (length G2 < fuel)%nat ->
  count <= limit -> head r `mod` size + span G1 <= size ->
  exists Gr Gs, let c := count + Z.of_nat (length (messages Gr)) in G2 = Gr ++ Gs /\
    eval (read_loop fuel limit (head r `mod` size) (size - head r `mod` size) (span G1) count) r =
      (r, messages Gr, Some (span (G1 ++ Gr), c)) /\
    ring_ok size r false (G1 ++ Gr) Gs /\ head r `mod` size + span (G1 ++ Gr) <= size /\ c <= limit /\
    (Gs = [] \/ head r `mod` size + span (G1 ++ Gr) = size \/ c = limit).
Proof.
  induction G2 as [|e G2 IH]; intros G1 fuel limit count r Hr Hready Hfuel Hlim Hle;
    (destruct fuel as [|fuel]; [cbn in Hfuel; lia|]); cbn [read_loop];
    destruct (Z.ltb_spec (span G1) (size - head r `mod` size)) as [Hlt|Hge]; cbn [andb negb].
  1: { exists [], []. rewrite (app_nil_r G1), Z.add_0_r. split; [done|].
       split; [|by split; [|split; [|split; [|left]]]].
       destruct (count <? limit); cbn [negb]; [|done].
       destruct (ring_ok_next size k Hsize Hk r G1 []) as [Hh _]; [done|lia|].
       cbn [read64 mbind Prog_bind eval]. rewrite Hh. done. }
  1: { exists [], []. rewrite (app_nil_r G1), Z.add_0_r. by split; [|split; [|split; [|split; [|split; [|left]]]]]. }
  2: { exists [], (e :: G2). rewrite (app_nil_r G1), Z.add_0_r. split; [done|]. split; [done|].
       split; [done|]. split; [done|]. split; [done|]. right. left. lia. }
  destruct (Z.ltb_spec count limit) as [Hmore|Hfull]; cbn [negb].
  2: { exists [], (e :: G2). rewrite (app_nil_r G1), Z.add_0_r. split; [done|]. split; [done|].
       split; [done|]. split; [done|]. split; [done|]. right. right. lia. }
  apply Forall_cons in Hready as [Ep Hready]. cbn [length] in Hfuel.
  destruct (ring_ok_next size k Hsize Hk r G1 (e :: G2)) as [Hh Hfit]; [done|lia|].
  cbn [read64 mbind Prog_bind eval]. rewrite Hh. cbn [next_header]. rewrite Ep.
  pose proof (ring_ok_consume size k Hsize Hk _ _ _ _ Hr Ep) as Hr'.
  pose proof (ok_entries _ _ _ _ _ Hr) as [_ [(_ & _ & Hpos & _ & Hok) _]%Forall_cons]%Forall_app.
  rewrite Ep in Hok.
  assert (forall G, (G1 ++ [e]) ++ G = G1 ++ e :: G) as Happ by (intros; by rewrite <- app_assoc).
  destruct (e_content e) as [|m p] eqn:Ec.
  - destruct Hok as [Hok _]. rewrite pending_make_header, message_make_header, msg_length_make_header by lia. cbn [negb].
    change (msg_pad =? msg_none) with false. rewrite Z.eqb_refl, Z.add_0_l.
    replace (span G1 + e_len e) with (span (G1 ++ [e])) by (rewrite (span_snoc size k Hsize Hk); lia).
    destruct (IH (G1 ++ [e]) fuel limit count r) as (Gr & Gs & -> & E & Hr'' & Hl & Hc & Hend);
      [done|done|lia|lia|rewrite (span_snoc size k Hsize Hk); lia|].
    exists (e :: Gr), Gs. rewrite Happ in *. rewrite messages_padding by done. done.
  - destruct Hok as [Hv Hl]. pose proof (valid_length _ _ Hv).
    rewrite pending_make_header, message_make_header, msg_length_make_header by done. cbn [negb].
    pose proof Hv as [Hm _]. unfold msg_min, msg_max, msg_none, msg_pad in *.
    rewrite (proj2 (Z.eqb_neq m 0)), (proj2 (Z.eqb_neq m (2 ^ 32 - 1))) by lia.
    cbn [eval]. rewrite Z.add_0_l, Nat2Z.id. fold (msg_size p). rewrite <- Hl.
    rewrite (ready_payload size k Hsize Hk r G1 e G2 m p) by (done || lia).
    replace (span G1 + e_len e) with (span (G1 ++ [e])) by (rewrite (span_snoc size k Hsize Hk); lia).
    destruct (IH (G1 ++ [e]) fuel limit (count + 1) r) as (Gr & Gs & -> & E & Hr'' & Hle' & Hc & Hend);
      [done|done|lia|lia|rewrite (span_snoc size k Hsize Hk); lia|].
    rewrite E. exists (e :: Gr), Gs. rewrite Happ in *. rewrite (messages_ready e Gr m p) by done. cbn [length].
    replace (count + Z.of_nat (S (length (messages Gr)))) with (count + 1 + Z.of_nat (length (messages Gr))) by lia. done.
Qed.

Lemma read_alone G2 fuel limit r :
  ring_ok size r false [] G2 -> all_ready G2 -> (length G2 < fuel)%nat -> 0 <= limit ->
  exists Gr Gs r', let c := Z.of_nat (length (messages Gr)) in
    G2 = Gr ++ Gs /\ eval (read size fuel limit) r = (r', messages Gr, Some c) /\
    ring_ok size r' false [] Gs /\ head r' = head r + span Gr /\ tail r' = tail r /\ c <= limit /\
    (Gs = [] \/ head r `mod` size + span Gr = size /\ head r' `mod` size = 0 \/ c = limit).
Proof.
  intros Hr Hready Hfuel Hlim.
  pose proof (index_bounds size k Hsize Hk (head r)) as Hi.
  destruct (read_loop_alone G2 [] fuel limit 0 r Hr Hready Hfuel) as
    (Gr & Gs & -> & E & Hr' & Hle & Hcl & Hend); [lia|cbn; lia|]. cbn [app] in *. change (span []) with 0 in E.
  rewrite Z.add_0_l in *. set (c := Z.of_nat (length (messages Gr))) in *.
  destruct Hr as [Hc _ Hb Hca Hal He _ _ _ _]. cbn [app] in Hc, He.
  pose proof (chain_span _ _ _ Hc) as Hsp. rewrite span_app in Hsp.
  pose proof (entry_ok_pos size k Hsize Hk _ He) as [Hp1 Hp2]%Forall_app.
  pose proof (span_nonneg _ Hp1). pose proof (span_nonneg _ Hp2).
  unfold read. cbn [load mbind Prog_bind eval load_loc].
  rewrite (land_mask size k Hsize Hk) by lia.
  exists Gr, Gs.
  assert (head r `mod` size + span Gr = size -> (head r + span Gr) `mod` size = 0) as Hlap.
  { intros Hl. rewrite <- Zplus_mod_idemp_l, Hl. apply Z.mod_same. lia. }
  destruct (Z.ltb_spec 0 (span Gr)) as [Hpos|Hzero].
  - eexists. split; [done|]. split.
    { etransitivity; [apply (eval_bind (read_loop _ _ _ _ _ _))|]. rewrite E.
      rewrite (proj2 (Z.ltb_lt _ _) Hpos). cbn - [span]. rewrite app_nil_r. reflexivity. }
    rewrite u64_small by lia.
    pose proof (ring_ok_zero size k Hsize Hk _ _ _ Hr' Hle) as Hz.
    apply (ring_ok_release size k Hsize Hk) in Hz. cbn in Hz.
    split; [exact Hz|]. cbn - [span]. split; [done|]. split; [done|]. split; [done|].
    destruct Hend as [|[Hend|]]; [by left|right; left; by split; [|apply Hlap]|by right; right].
  - destruct Gr as [|e Gr].
    2: { exfalso. inversion Hp1; subst. pose proof (span_nonneg Gr ltac:(done)).
         cbn in Hzero. fold (span Gr) in Hzero. lia. }
    exists r. split; [done|]. split.
    { etransitivity; [apply (eval_bind (read_loop _ _ _ _ _ _))|]. rewrite E. done. }
    cbn. split; [done|]. split; [lia|]. split; [done|]. split; [done|].
    destruct Hend as [|[Hend|]]; [by left|right; left|by right; right]. split; [done|].
    specialize (Hlap Hend). cbn in Hlap. by rewrite Z.add_0_r in Hlap.
Qed.

Lemma length_span G : Forall (entry_ok size) G -> 8 * Z.of_nat (length G) <= span G.
Proof.
  induction 1 as [|e G (_ & [q Hq] & Hpos & _) _ IH]; cbn [length span foldr]; [done|].
  fold (span G). lia.
Qed.

(** When no call is under way, every entry is ready and none has been read. *)
Lemma quiescent_ready s G1 G2 R released :
  sys_inv size s G1 G2 R released ->
  (forall t th, writers s !! t = Some th -> finished (t_prog th) = true) ->
  finished (reader s) = true ->
  all_ready G2 /\ ring_ok size (ring s) false [] G2 /\ delivered s = released /\
  snd <$> reservations s = released ++ messages G2.
Proof.
  intros [Hr Hw Ho Ha Hn Hrd Hres Hdel Ht] Hfw Hfr.
  assert (R = idle) as ->. { by destruct (reader s). }
  assert (G1 = []) as ->.
  { pose proof (ok_entries _ _ _ _ _ Hr) as [He _]%Forall_app. apply length_span in He.
    rewrite Ha in He. cbn in He. destruct G1; cbn in He; [done|lia]. }
  cbn in *. rewrite app_nil_r in Hdel. split_and!; [|done..].
  apply Forall_forall. intros e He.
  assert (forall t, owned_by t e -> False) as Hno.
  { intros t Hown. destruct (Ho e t He Hown) as [th Hth].
    destruct (Hw t th Hth) as (lb & L & _ & Hf & _ & Hs). specialize (Hfw t th Hth).
    assert (held (t_msg th) (t_payload th) t L = []) as E.
    { destruct (t_prog th); try done; cbn in Hs.
      - unfold write_post in Hs. subst L. by destruct a.
      - by subst L. }
    rewrite E in Hf. eapply filter_nil_not_elem_of; [exact Hf|exact Hown|done]. }
  unfold owned_by, owner in Hno. destruct (e_phase e) as [t|t n|]; [by destruct (Hno t)..|done].
Qed.

Lemma length_messages G : (length (messages G) <= length G)%nat.
Proof. unfold messages. induction G as [|e G IH]; cbn; [done|]. destruct (e_message e); cbn; lia. Qed.

(** One call of [read] on a quiescent buffer. *)
Lemma read_run s G2 fuel limit :
  finished (reader s) = true -> ring_ok size (ring s) false [] G2 -> all_ready G2 ->
  size < 8 * Z.of_nat fuel -> size <= 8 * limit ->
  exists n Gr Gs r' c, G2 = Gr ++ Gs /\
    sys_run size s (StartRead fuel limit :: list_replicate n StepReader) =
      Some (MkSystem r' (writers s) (Done c) (reservations s) (delivered s ++ messages Gr)) /\
    ring_ok size r' false [] Gs /\ head r' = head (ring s) + span Gr /\
    (Gs = [] \/ head (ring s) `mod` size + span Gr = size /\ head r' `mod` size = 0).
Proof.
  intros Hfr Hr Hready Hfuel Hlim.
  assert (8 * Z.of_nat (length G2) <= size) as Hlen.
  { pose proof (length_span _ (ok_entries _ _ _ _ _ Hr)).
    pose proof (chain_span _ _ _ (ok_chain _ _ _ _ _ Hr)).
    pose proof (ok_room _ _ _ _ _ Hr). cbn [app] in *. lia. }
  destruct (read_alone G2 fuel limit (ring s)) as (Gr & Gs & r' & -> & E & Hr' & Hh & _ & _ & Hend);
    [done|done|lia|lia|].
  destruct (eval_reader size (read size fuel limit) (s <| reader := read size fuel limit |>) r'
    (messages Gr) (Z.of_nat (length (messages Gr)))) as [n Hn]; [done|done|].
  exists n, Gr, Gs, r', (Z.of_nat (length (messages Gr))). split; [done|]. split; [|split; [done|split; [done|]]].
  - cbn [sys_run sys_step]. rewrite Hfr. exact Hn.
  - destruct Hend as [|[|Hend]]; [by left|by right|left]. pose proof (length_messages Gr). rewrite length_app in Hlen.
    destruct Gs; [done|]. cbn in Hlen. lia.
Qed.
End Drain.

Lemma sys_run_app size cs1 cs2 s :
  sys_run size s (cs1 ++ cs2) = s' ← sys_run size s cs1; sys_run size s' cs2.
Proof.
  revert s. induction cs1 as [|c cs1 IH]; intros s; [done|]. cbn.
  destruct (sys_step size s c) as [s1|]; [|done]. apply IH.
Qed.

(** When no writer is in the middle of a call, two calls of [read] with
    a large enough limit return and hand over every message that is still in
    the buffer, and leave it empty.  One call may not be enough: it stops at the end of
    the memory area.  A loop of [read] makes less than one iteration per eight
    bytes of the buffer. *)
Theorem reading_twice_drains (size address : Z) (cs : list Choice) (s : System)
    (fuel : nat) (limit : Z) :
  accepted size address ->
  sys_run size initial_system cs = Some s -> bytes_reserved s < u64_modulus ->
  (forall t th, writers s !! t = Some th -> finished (t_prog th) = true) ->
  finished (reader s) = true -> size < 8 * Z.of_nat fuel -> size <= 8 * limit ->
  exists n1 n2 s',
    sys_run size s ((StartRead fuel limit :: list_replicate n1 StepReader) ++
      StartRead fuel limit :: list_replicate n2 StepReader) = Some s' /\
    finished (reader s') = true /\ head (ring s') = tail (ring s') /\
    delivered s' = snd <$> reservations s.
Proof.
  intros (k & Hsize & Hk)%accepted_size Hrun Hb Hfw Hfr Hfuel Hlim.
  assert (sys_ok size s) as (G1 & G2 & R & released & Hinv).
  { eapply sys_run_ok; [done..|by eapply initial_ok|done|done]. }
  destruct (quiescent_ready size k Hsize Hk _ _ _ _ _ Hinv Hfw Hfr) as (Hready & Hr & Hdel & Hres).
  destruct (read_run size k Hsize Hk s G2 fuel limit) as
    (n1 & Gr & Gs & r1 & c1 & -> & E1 & Hr1 & Hh1 & Hend1); [done..|].
  apply Forall_app in Hready as [_ Hready].
  set (s1 := MkSystem r1 (writers s) (Done c1) (reservations s) (delivered s ++ messages Gr)) in *.
  destruct (read_run size k Hsize Hk s1 Gs fuel limit) as
    (n2 & Gr' & Gs' & r2 & c2 & -> & E2 & Hr2 & Hh2 & Hend2); [done..|].
  assert (Gs' = []) as ->.
  { destruct Hend1 as [[_ ?]%app_nil|[_ Hlap]]; [done|]. destruct Hend2 as [|[Hfull _]]; [done|].
    change (ring s1) with r1 in Hfull. rewrite Hlap in Hfull.
    pose proof (chain_span _ _ _ (ok_chain _ _ _ _ _ Hr1)) as Hsp. cbn [app] in Hsp.
    rewrite span_app in Hsp. pose proof (ok_room _ _ _ _ _ Hr1).
    pose proof (length_span size k Hsize Hk Gs') as Hlen.
    destruct Gs'; [done|]. cbn [length] in Hlen.
    pose proof (ok_entries _ _ _ _ _ Hr1) as He. cbn [app] in He.
    apply Forall_app in He as [_ He]. specialize (Hlen He). lia. }
  rewrite app_nil_r in *. eexists n1, n2, _. split.
  { rewrite sys_run_app, E1. exact E2. }
  cbn. split; [done|]. split.
  - pose proof (ok_chain _ _ _ _ _ Hr2) as Hc. exact Hc.
  - by rewrite Hdel, Hres, messages_app, app_assoc.
Qed.

(** Two messages are waiting, the second behind padding. *)
Definition wrapped_messages : list Choice :=
  [StartWrite 0 3 7 true [list_replicate 24 1]] ++ list_replicate 8 (StepWriter 0 false) ++
  [StartRead 9 8] ++ list_replicate 6 StepReader ++
  [StartWrite 0 3 8 true [[2]]] ++ list_replicate 8 (StepWriter 0 false) ++
  [StartWrite 1 3 9 true [list_replicate 17 3]] ++ list_replicate 12 (StepWriter 1 false).

Lemma wrapped_messages_run :
  exists s, sys_run 64 initial_system wrapped_messages = Some s /\
    (bytes_reserved s, snd <$> reservations s, finished (reader s)) =
      (96, [(7, list_replicate 24 1); (8, [2]); (9, list_replicate 17 3)], true) /\
    (forall t th, writers s !! t = Some th -> finished (t_prog th) = true).
Proof.
  assert (option_map (fun s => (bytes_reserved s, snd <$> reservations s, finished (reader s),
    forallb (fun x => finished (t_prog (snd x))) (map_to_list (writers s))))
    (sys_run 64 initial_system wrapped_messages) =
    Some (96, [(7, list_replicate 24 1); (8, [2]); (9, list_replicate 17 3)], true, true)) as H
    by (vm_compute; reflexivity).
  destruct (sys_run 64 initial_system wrapped_messages) as [s|]; [|discriminate].
  exists s. injection H as H1 H2 H3 H4. split; [reflexivity|].
  split; [rewrite H1, H2, H3; reflexivity|].
  intros t th Hth%elem_of_map_to_list. rewrite forallb_forall in H4.
  apply (H4 (t, th)). by apply list_elem_of_In.
Qed.

Lemma reading_twice_drains_witness :
  exists cs s, sys_run 64 initial_system cs = Some s /\
    delivered s = [(7, list_replicate 24 1); (8, [2]); (9, list_replicate 17 3)].
Proof.
  destruct wrapped_messages_run as (s & Hrun & Hsum & Hfin). injection Hsum as Hb Hres Hrd.
  destruct (reading_twice_drains 64 0 wrapped_messages s 9 8) as (n1 & n2 & s' & E & _ & _ & Hd).
  - split; [vm_compute; reflexivity|split; [lia|reflexivity]].
  - exact Hrun.
  - rewrite Hb. reflexivity.
  - exact Hfin.
  - exact Hrd.
  - lia.
  - lia.
  - eexists _, s'. split; [|rewrite Hd; exact Hres].
    etransitivity; [apply (sys_run_app 64 wrapped_messages)|]. rewrite Hrun. exact E.
Defined.
