(* ===== verification/SymmetricKey.v ===== *)
(** Authenticated encryption: include/ccf/crypto/symmetric_key.h and src/crypto/symmetric_key.cpp, with the headers that
    go with a cipher text.  What [KeyAesGcm] computes, which OpenSSL does, is the class [Aead]. *)

From S2P Require Import Prelude Serialized.

Class Aead := {
  (** Key, IV, plain text, additional data; cipher text and tag. *)
  aes_gcm_encrypt : bytes -> bytes -> bytes -> bytes -> bytes * bytes;
  (** Key, IV, tag, cipher text, additional data. *)
  aes_gcm_decrypt : bytes -> bytes -> bytes -> bytes -> bytes -> option bytes
}.

Definition GCM_SIZE_TAG : nat := 16.

Class AeadLaws (A : Aead) := {
  law_decrypt k iv plain aad :
    let '(cipher, tag) := aes_gcm_encrypt k iv plain aad in aes_gcm_decrypt k iv tag cipher aad = Some plain;
  law_cipher k iv plain aad : length (aes_gcm_encrypt k iv plain aad).1 = length plain;
  law_tag k iv plain aad : length (aes_gcm_encrypt k iv plain aad).2 = GCM_SIZE_TAG
}.

(** [make_key_aes_gcm]: the cipher is chosen by the size of the key, and uses as many bytes as it needs. *)
Definition make_key_aes_gcm (raw : bytes) : outcome bytes :=
  if (32 <=? length raw)%nat then Ret (take 32 raw)
  else if (24 <=? length raw)%nat then Ret (take 24 raw)
  else if (16 <=? length raw)%nat then Ret (take 16 raw)
  else Throw (LogicError "Need at least 128 bits").

(** [GcmHeader]; the size of [iv] is a parameter of [FixedSizeGcmHeader]. *)
Record GcmHdr := MkGcmHdr { tag : bytes; iv : bytes }.
#[export] Instance eta_GcmHdr : Settable GcmHdr := fun r => MkGcmHdr (tag r) (iv r).

Definition new_GcmHdr (iv_size : nat) : GcmHdr := MkGcmHdr (replicate GCM_SIZE_TAG 0) (replicate iv_size 0).

Definition gcm_serialised_size (iv_size : nat) : Z := Z.of_nat GCM_SIZE_TAG + Z.of_nat iv_size.

Definition hdr_serialise (h : GcmHdr) : bytes := tag h ++ iv h.

Definition gcm_deserialise (iv_size : nat) : Reader GcmHdr :=
  tag ← read_block (Z.of_nat GCM_SIZE_TAG);
  iv ← read_block (Z.of_nat iv_size);
  mret (MkGcmHdr tag iv).

(** [GcmCipher], whose header has an IV of twelve bytes. *)
Record GcmCipher := MkGcmCipher { gc_hdr : GcmHdr; gc_cipher : bytes }.

Definition STANDARD_IV_SIZE : nat := 12.

Definition gc_serialise (c : GcmCipher) : bytes := tag (gc_hdr c) ++ iv (gc_hdr c) ++ gc_cipher c.

Definition gc_deserialise : Reader GcmCipher :=
  hdr ← gcm_deserialise STANDARD_IV_SIZE;
  rest ← get;
  cipher ← read_block (Z.of_nat (length rest));
  mret (MkGcmCipher hdr cipher).

Lemma gcm_header_read n h rest :
  length (tag h) = GCM_SIZE_TAG -> length (iv h) = n -> gcm_deserialise n (hdr_serialise h ++ rest) = (rest, Ret h).
Proof.
  destruct h as [t v]. cbn [tag iv]. intros Ht Hv. unfold hdr_serialise. cbn [tag iv]. rewrite <- app_assoc. unfold gcm_deserialise.
  unfold mbind, ST_bind. rewrite (read_block_app _ t) by (by rewrite Ht). by rewrite (read_block_app _ v) by (by rewrite Hv).
Qed.

Lemma gc_round_trip c :
  length (tag (gc_hdr c)) = GCM_SIZE_TAG -> length (iv (gc_hdr c)) = STANDARD_IV_SIZE ->
  gc_deserialise (gc_serialise c) = ([], Ret c).
Proof.
  destruct c as [h x]. cbn [gc_hdr]. intros Ht Hv. unfold gc_serialise, gc_deserialise. cbn [gc_hdr gc_cipher]. rewrite app_assoc.
  unfold mbind at 1, ST_bind at 1. fold (hdr_serialise h). rewrite gcm_header_read by done. unfold mbind at 1, ST_bind at 1, get at 1.
  unfold mbind, ST_bind. rewrite <- (app_nil_r x) at 2. by rewrite (read_block_app _ x).
Qed.

(** A small cipher: the text itself, with a tag that is a polynomial of everything. *)
Definition digest (m : bytes) : Z := foldr (fun b acc => b + 257 * acc) (Z.of_nat (length m)) m.

Definition toy_tag (k iv plain aad : bytes) : bytes := list_replicate 15 0 ++ [digest (k ++ iv ++ plain ++ aad)].

#[export] Instance toy_aead : Aead := {|
  aes_gcm_encrypt k iv plain aad := (plain, toy_tag k iv plain aad);
  aes_gcm_decrypt k iv tag cipher aad := if bool_decide (tag = toy_tag k iv cipher aad) then Some cipher else None
|}.

#[export] Instance toy_aead_laws : AeadLaws toy_aead.
Proof. split; try done. intros k iv plain aad. cbn. by rewrite bool_decide_eq_true_2. Qed.
