(* ===== verification/ContiguousSets.v ===== *)
(** Sets of sequence numbers: include/ccf/ds/contiguous_set.h, for [T = uint64_t].

    A set is a vector of ranges, each a first value and a number of further values.  An iterator of the vector is an index,
    and what the source reads at or behind the end is undefined behaviour.  The searches of the standard library over the
    vector are [partition_point]; the search over the elements, which steps through the ranges, is written out. *)

From S2P Require Import Prelude.

Module ContiguousSet.

Abbreviation Range := (Z * Z)%type.
Abbreviation Ranges := (list Range).

(** The order of pairs. *)
Definition range_ltb (a b : Range) : bool := (a.1 <? b.1) || ((a.1 =? b.1) && (a.2 <? b.2)).

(** The number of elements in front of the first that fails [p]: what [std::lower_bound] finds. *)
Fixpoint partition_point {A} (p : A -> bool) (l : list A) : nat :=
  match l with
  | [] => 0
  | x :: l => if p x then S (partition_point p l) else 0
  end.

(** ** Iterators *)

Record ConstIterator := MkIterator { it : nat; offset : Z }.
#[export] Instance ConstIterator_eq_dec : EqDecision ConstIterator.
Proof. solve_decision. Defined.

Section Iterators.
Context (rs : Ranges).

Definition range_at (i : nat) : outcome Range := match rs !! i with Some r => Ret r | None => Throw UndefinedBehaviour end.

Definition begin : ConstIterator := MkIterator 0 0.
Definition end_ : ConstIterator := MkIterator (length rs) 0.

(** [operator*]. *)
Definition deref (i : ConstIterator) : outcome Z :=
  match range_at (it i) with Ret r => Ret (u64 (r.1 + offset i)) | Throw e => Throw e end.

(** [operator++] and [operator--]. *)
Definition incr (i : ConstIterator) : outcome ConstIterator :=
  match range_at (it i) with
  | Ret r => Ret (if r.2 <? u64 (offset i + 1) then MkIterator (S (it i)) 0 else MkIterator (it i) (u64 (offset i + 1)))
  | Throw e => Throw e
  end.

Definition decr (i : ConstIterator) : outcome ConstIterator :=
  if offset i =? 0 then
    match it i with
    | O => Throw UndefinedBehaviour
    | S j => match range_at j with Ret r => Ret (MkIterator j r.2) | Throw e => Throw e end
    end
  else Ret (MkIterator (it i) (offset i - 1)).

(** [operator+=], for a difference that is unsigned. *)
Fixpoint advance (fuel : nat) (n : Z) (i : ConstIterator) : outcome ConstIterator :=
  match fuel with
  | O => Throw OutOfFuel
  | S fuel =>
      match range_at (it i) with
      | Throw e => Throw e
      | Ret r =>
          if r.2 <? u64 (offset i + n) then advance fuel (u64 (n - u64 (r.2 - offset i + 1))) (MkIterator (S (it i)) 0)
          else Ret (MkIterator (it i) (u64 (offset i + n)))
      end
  end.

(** [operator-=]. *)
Fixpoint retreat (fuel : nat) (n : Z) (i : ConstIterator) : outcome ConstIterator :=
  match fuel with
  | O => Throw OutOfFuel
  | S fuel =>
      if offset i <? n then
        match it i with
        | O => Throw UndefinedBehaviour
        | S j =>
            match range_at j with
            | Throw e => Throw e
            | Ret r => retreat fuel (u64 (n - u64 (offset i + 1))) (MkIterator j r.2)
            end
        end
      else Ret (MkIterator (it i) (offset i - n))
  end.

(** The difference of two iterators, of which the first is in the later range: the ranges between them are passed from the
    back. *)
Definition distance_down (i other : ConstIterator) : outcome Z :=
  match range_at (it other) with
  | Throw e => Throw e
  | Ret r =>
      let between := reverse (take (it i - S (it other)) (drop (S (it other)) rs)) in
      let sum := foldl (fun acc r => u64 (acc + r.2 + 1)) (u64 (offset i + 1)) between in
      Ret (u64 (sum + u64 (r.2 - offset other)))
  end.

(** [operator-]. *)
Definition distance (i other : ConstIterator) : outcome Z :=
  if (it i =? it other)%nat then Ret (u64 (offset i - offset other))
  else if (it i <? it other)%nat then
    match distance_down other i with Ret d => Ret (u64 (- d)) | Throw e => Throw e end
  else distance_down i other.

(** [std::lower_bound] and [std::upper_bound] over the elements. *)
Fixpoint search_loop (fuel : nat) (before : Z -> bool) (first : ConstIterator) (len : Z) : outcome ConstIterator :=
  match fuel with
  | O => Throw OutOfFuel
  | S fuel =>
      if len =? 0 then Ret first
      else
        let half := len `div` 2 in
        match advance (S (length rs)) half first with
        | Throw e => Throw e
        | Ret m =>
            match deref m with
            | Throw e => Throw e
            | Ret x =>
                if before x then
                  match incr m with Ret first => search_loop fuel before first (len - (half + 1)) | Throw e => Throw e end
                else search_loop fuel before first half
            end
        end
  end.

Definition search (before : Z -> bool) : outcome ConstIterator :=
  match distance end_ begin with Ret len => search_loop 65 before begin len | Throw e => Throw e end.

Definition lower_bound (t : Z) : outcome ConstIterator := search (fun x => x <? t).
Definition upper_bound (t : Z) : outcome ConstIterator := search (fun x => negb (t <? x)).
End Iterators.

(** ** Construction *)

(** [std::is_sorted]. *)
Fixpoint is_sorted (l : list Z) : bool :=
  match l with
  | x :: (y :: _) as l => (x <=? y) && is_sorted l
  | _ => true
  end.

(** [std::adjacent_find]: the index of the first element that is not followed by its successor. *)
Fixpoint adjacent_find (l : list Z) : option nat :=
  match l with
  | x :: (y :: _) as l => if negb (u64 (x + 1) =? y) then Some O else S <$> adjacent_find l
  | _ => None
  end.

Fixpoint init_loop (fuel : nat) (l : list Z) : Ranges :=
  match fuel, l with
  | S fuel, b :: _ =>
      match adjacent_find l with
      | None => [(b, Z.of_nat (length l) - 1)]
      | Some next => (b, Z.of_nat next) :: init_loop fuel (drop (S next) l)
      end
  | _, _ => []
  end.

Definition init_from_iterators (l : list Z) : outcome Ranges :=
  if is_sorted l then Ret (init_loop (length l) l) else Throw (LogicError "Range must be sorted").

(** The overload for a part of another set. *)
Definition init_from_subrange (rs : Ranges) (b e : ConstIterator) : outcome Ranges :=
  match range_at rs (it b) with
  | Throw x => if (it b =? it e)%nat && negb (offset b <? offset e) then Ret [] else Throw x
  | Ret r =>
      if negb (it b =? it e)%nat then
        let front := (u64 (r.1 + offset b), u64 (r.2 - offset b)) :: take (it e - S (it b)) (drop (S (it b)) rs) in
        if negb (offset e =? 0) then
          match range_at rs (it e) with Ret r => Ret (front ++ [(r.1, offset e - 1)]) | Throw x => Throw x end
        else Ret front
      else if offset b <? offset e then Ret [(u64 (r.1 + offset b), offset e - offset b - 1)]
      else Ret []
  end.

Definition singleton_range (from additional : Z) : Ranges := [(from, additional)].

(** ** Operations *)

(** The accumulator of the sum is an [unsigned int]. *)
Definition size (rs : Ranges) : Z := foldl (fun n r => u32 (n + r.2 + 1)) 0 rs.

Definition empty (rs : Ranges) : bool := match rs with [] => true | _ => false end.

Definition maybe_merge_with_following (i : nat) (rs : Ranges) : Ranges :=
  match rs !! i, rs !! S i with
  | Some (first, second), Some (first', second') =>
      if u64 (first + second + 1) =? first' then delete (S i) (<[i := (first, u64 (second + 1 + second'))]> rs) else rs
  | _, _ => rs
  end.

(** [b] is the position [it.base()]: the reverse iterator points to the range in front of it. *)
Definition insert (t : Z) (rs : Ranges) : bool * Ranges :=
  let estimated_range := (u64 (t + 1), 0) in
  let b := (length rs - partition_point (range_ltb estimated_range) (reverse rs))%nat in
  let emplaced := (true, maybe_merge_with_following b (take b rs ++ (t, 0) :: drop b rs)) in
  match b with
  | O => emplaced
  | S i =>
      match rs !! i with
      | None => emplaced
      | Some (from, additional) =>
          if (from <=? t) && (t <=? u64 (from + additional)) then (false, rs)
          else if u64 (from + additional + 1) =? t then
            (true, maybe_merge_with_following i (<[i := (from, u64 (additional + 1))]> rs))
          else if u64 (t + 1) =? from then
            let rs := <[i := (t, u64 (additional + 1))]> rs in
            (true, match i with O => rs | S j => maybe_merge_with_following j rs end)
          else emplaced
      end
  end.

Definition erase (t : Z) (rs : Ranges) : bool * Ranges :=
  let i := partition_point (fun r => r.1 <? t) rs in
  let i := match i, rs !! i with
           | O, _ => i
           | S j, Some r => if negb (t =? r.1) then j else i
           | S j, None => j
           end in
  match rs !! i with
  | None => (false, rs)
  | Some (from, additional) =>
      if (from <=? t) && (t <=? u64 (from + additional)) then
        if from =? t then
          if additional =? 0 then (true, delete i rs)
          else (true, <[i := (u64 (from + 1), additional - 1)]> rs)
        else if t =? u64 (from + additional) then (true, <[i := (from, additional - 1)]> rs)
        else
          let before := u64 (t - from - 1) in
          let after := u64 (from + additional - t - 1) in
          (true, take i rs ++ (from, before) :: (u64 (t + 1), after) :: drop (S i) rs)
      else (false, rs)
  end.

(** The loop runs up to [from + additional], which may be the last number of the type: it does not end then. *)
Fixpoint extend_loop (fuel : nat) (n last : Z) (rs : Ranges) : outcome Ranges :=
  match fuel with
  | O => Throw OutOfFuel
  | S fuel => if n <=? last then extend_loop fuel (u64 (n + 1)) last (insert n rs).2 else Ret rs
  end.

Definition extend (from additional : Z) (rs : Ranges) : outcome Ranges :=
  extend_loop (S (S (Z.to_nat additional))) from (u64 (from + additional)) rs.

Definition find_internal (t : Z) (rs : Ranges) : nat :=
  let i := partition_point (fun r => range_ltb r (t, 0)) rs in
  let previous := match i with
                  | O => length rs
                  | S j => match rs !! j with
                           | Some (from, additional) => if t <=? u64 (from + additional) then j else length rs
                           | None => length rs
                           end
                  end in
  match rs !! i with
  | Some r => if r.1 =? t then i else previous
  | None => previous
  end.

Definition contains (t : Z) (rs : Ranges) : bool := negb (find_internal t rs =? length rs)%nat.

Definition find (t : Z) (rs : Ranges) : ConstIterator :=
  match rs !! find_internal t rs with
  | Some r => MkIterator (find_internal t rs) (u64 (t - r.1))
  | None => end_ rs
  end.

Definition front (rs : Ranges) : outcome Z := match rs with r :: _ => Ret r.1 | [] => Throw UndefinedBehaviour end.
Definition back (rs : Ranges) : outcome Z :=
  match last rs with Some r => Ret (u64 (r.1 + r.2)) | None => Throw UndefinedBehaviour end.

End ContiguousSet.
