(* ===== verification/ContiguousSetProps.v ===== *)
(** A [ContiguousSet] is a set: its ranges stay apart and ascending, the operations are those of sets, and sets with the
    same elements have the same ranges.  Arithmetic on its iterators is arithmetic on positions in the ascending list of
    the elements, and the binary searches that use it find the first element they should. *)

From S2P Require Import Prelude ContiguousSets.
Import ContiguousSet.

(** ** The invariant *)

Definition within (x : Z) (r : Range) : Prop := r.1 <= x <= r.1 + r.2.

Fixpoint mem (x : Z) (rs : Ranges) : Prop :=
  match rs with
  | [] => False
  | r :: rs => within x r \/ mem x rs
  end.

(** Ranges that start at [lo] or later, with a gap between any two; the last value of the type is not an element. *)
Fixpoint wf_from (lo : Z) (rs : Ranges) : Prop :=
  match rs with
  | [] => True
  | r :: rs => lo <= r.1 /\ 0 <= r.2 /\ r.1 + r.2 < u64_max /\ wf_from (r.1 + r.2 + 2) rs
  end.

Definition wf (rs : Ranges) : Prop := wf_from 0 rs.

(** Where a range may start behind [rs]. *)
Fixpoint next_start (lo : Z) (rs : Ranges) : Z :=
  match rs with
  | [] => lo
  | r :: rs => next_start (r.1 + r.2 + 2) rs
  end.

Lemma wf_app lo a b : wf_from lo (a ++ b) <-> wf_from lo a /\ wf_from (next_start lo a) b.
Proof. revert lo. induction a as [|r a IH]; intros lo; cbn; [tauto|]. rewrite IH. tauto. Qed.

Lemma next_start_app lo a b : next_start lo (a ++ b) = next_start (next_start lo a) b.
Proof. revert lo. induction a as [|r a IH]; intros lo; cbn; [done|]. apply IH. Qed.

Lemma mem_app x a b : mem x (a ++ b) <-> mem x a \/ mem x b.
Proof. induction a as [|r a IH]; cbn; [tauto|]. rewrite IH. tauto. Qed.

Lemma wf_from_raise lo lo' rs : wf_from lo rs -> (forall r, head rs = Some r -> lo' <= r.1) -> wf_from lo' rs.
Proof. destruct rs as [|r rs]; cbn; [done|]. intros [? Hr] Hh. specialize (Hh r eq_refl). tauto. Qed.

Lemma next_start_ge lo rs : wf_from lo rs -> lo <= next_start lo rs.
Proof.
  revert lo. induction rs as [|r rs IH]; intros lo; cbn; [lia|]. intros (? & ? & ? & H). specialize (IH _ H). lia.
Qed.

Lemma mem_bounds lo rs x : wf_from lo rs -> mem x rs -> lo <= x < u64_max /\ x + 2 <= next_start lo rs.
Proof.
  revert lo. induction rs as [|r rs IH]; intros lo; cbn; [done|]. intros (? & ? & ? & H) [Hx|Hx].
  - pose proof (next_start_ge _ _ H). unfold within in Hx. lia.
  - specialize (IH _ H Hx). lia.
Qed.

(** ** Searching the vector *)

Lemma partition_point_split {A} (p : A -> bool) l :
  exists pre post, l = pre ++ post /\ partition_point p l = length pre /\ Forall (fun r => p r = true) pre /\
    (forall r, head post = Some r -> p r = false).
Proof.
  induction l as [|x l (pre & post & -> & Hn & Hpre & Hpost)]; [by exists [], []|]. cbn. destruct (p x) eqn:E.
  - exists (x :: pre), post. rewrite Hn. split_and!; [done|done|by constructor|done].
  - exists [], (x :: pre ++ post). split_and!; [done|done|done|]. by intros r [= <-].
Qed.

Lemma partition_point_reverse {A} (p : A -> bool) l :
  exists pre post, l = pre ++ post /\ (length l - partition_point p (reverse l))%nat = length pre /\
    Forall (fun r => p r = true) post /\ (forall r, last pre = Some r -> p r = false).
Proof.
  destruct (partition_point_split p (reverse l)) as (pre & post & E & Hn & Hpre & Hpost). rewrite Hn.
  exists (reverse post), (reverse pre). apply (f_equal reverse) in E. rewrite reverse_involutive, reverse_app in E.
  split_and!; [done| |by apply Forall_reverse|].
  - rewrite E, length_app, !length_reverse. lia.
  - intros r. rewrite last_reverse. apply Hpost.
Qed.

(** ** Merging *)

(** What [maybe_merge_with_following] makes of a range and those behind it. *)
Definition merge_into (r : Range) (post : Ranges) : Ranges :=
  match post with
  | r' :: post' => if r.1 + r.2 + 1 =? r'.1 then (r.1, r.2 + 1 + r'.2) :: post' else r :: post
  | [] => [r]
  end.

Lemma merge_at lo pre r post i :
  i = length pre -> 0 <= r.1 -> 0 <= r.2 -> r.1 + r.2 < u64_max -> wf_from lo post -> 
  maybe_merge_with_following i (pre ++ r :: post) = pre ++ merge_into r post.
Proof.
  intros -> H1 H2 H3 Hp. unfold maybe_merge_with_following. rewrite list_lookup_middle by done. destruct r as [f a]. cbn [fst snd] in *.
  assert ((pre ++ (f, a) :: post) !! S (length pre) = head post) as ->.
  { rewrite lookup_app_r by lia. replace (S (length pre) - length pre)%nat with 1%nat by lia. by destruct post. }
  destruct post as [|[f' a'] post]; cbn [head]; [done|]. destruct Hp as (? & ? & ? & _). cbn [fst snd] in *.
  rewrite u64_small by u64_lia. cbn [merge_into fst snd]. destruct (Z.eqb_spec (f + a + 1) f') as [E|]; [|done].
  rewrite insert_app_r_alt, Nat.sub_diag by lia. cbn. rewrite u64_small by u64_lia.
  rewrite cons_middle, app_assoc. replace (S (length pre)) with (length (pre ++ [(f, a + 1 + a')])) by (rewrite length_app; cbn; lia).
  by rewrite delete_middle, <- app_assoc.
Qed.

Lemma merge_into_wf lo r post :
  lo <= r.1 -> 0 <= r.2 -> r.1 + r.2 < u64_max -> wf_from (r.1 + r.2 + 1) post -> wf_from lo (merge_into r post).
Proof.
  intros ? ? ? Hp. destruct post as [|r' post]; cbn in *; [done|]. destruct Hp as (? & ? & ? & Hp).
  destruct (Z.eqb_spec (r.1 + r.2 + 1) r'.1) as [E|]; cbn.
  - split_and!; [lia..|]. replace (r.1 + (r.2 + 1 + r'.2) + 2) with (r'.1 + r'.2 + 2) by lia. done.
  - split_and!; [lia..|]. done.
Qed.

Lemma merge_into_mem lo x r post :
  0 <= r.2 -> wf_from lo post -> mem x (merge_into r post) <-> within x r \/ mem x post.
Proof.
  intros ? Hp. destruct post as [|r' post]; cbn; [tauto|]. destruct Hp as (_ & ? & _).
  destruct (Z.eqb_spec (r.1 + r.2 + 1) r'.1) as [E|]; cbn; [|tauto]. cbn [mem app]. unfold within. cbn [fst snd]. intuition lia.
Qed.

(** A range that fits behind [pre] and may touch what follows. *)
Lemma place_spec lo pre r post :
  wf_from lo pre -> 0 <= lo -> next_start lo pre <= r.1 -> 0 <= r.2 -> r.1 + r.2 < u64_max -> wf_from (r.1 + r.2 + 1) post ->
  let rs := maybe_merge_with_following (length pre) (pre ++ r :: post) in
  wf_from lo rs /\ forall x, mem x rs <-> mem x pre \/ within x r \/ mem x post.
Proof.
  intros Hpre Hlo H1 H2 H3 Hpost rs. pose proof (next_start_ge _ _ Hpre). subst rs. erewrite merge_at by (eauto; lia). split.
  - rewrite wf_app. split; [done|]. by apply merge_into_wf.
  - intros x. rewrite mem_app, merge_into_mem by done. done.
Qed.

Lemma range_ltb_true a b : range_ltb a b = true <-> a.1 < b.1 \/ (a.1 = b.1 /\ a.2 < b.2).
Proof. unfold range_ltb. lia. Qed.

Lemma range_ltb_false a b : range_ltb a b = false <-> b.1 < a.1 \/ (a.1 = b.1 /\ b.2 <= a.2).
Proof. unfold range_ltb. lia. Qed.

(** The result of adding [t] to [rs]. *)
Definition inserted (t : Z) (rs : Ranges) (r : bool * Ranges) : Prop :=
  wf r.2 /\ (forall x, mem x r.2 <-> x = t \/ mem x rs) /\ (r.1 = true <-> ~ mem t rs).

Lemma emplace_inserted t pre post :
  wf_from 0 pre -> wf_from (t + 1) post -> 0 <= t < u64_max -> next_start 0 pre <= t -> ~ mem t pre ->
  inserted t (pre ++ post)
    (true, maybe_merge_with_following (length pre) (take (length pre) (pre ++ post) ++ (t, 0) :: drop (length pre) (pre ++ post))).
Proof.
  intros Hpre Hpost Ht Hs Hn. rewrite take_app_length, drop_app_length.
  destruct (place_spec 0 pre (t, 0) post) as [H1 H2]; cbn [fst snd]; try (done || lia).
  { by replace (t + 0 + 1) with (t + 1) by lia. }
  split; [done|]. split; cbn [fst snd].
  - intros x. rewrite H2, mem_app. cbn [mem app]. unfold within. cbn [fst snd]. intuition lia.
  - split; [intros _ [H|H%(mem_bounds _ _ _ Hpost)]%mem_app|]; [done|lia|done].
Qed.

Lemma insert_inserted t rs : wf rs -> 0 <= t < u64_max -> inserted t rs (insert t rs).
Proof.
  intros Hwf Ht. unfold insert. rewrite (u64_small (t + 1)) by u64_lia.
  destruct (partition_point_reverse (range_ltb (t + 1, 0)) rs) as (pre & post & -> & Hb & Hpost & Hpre). rewrite Hb. cbv zeta.
  set (emplaced := (true, _)). apply wf_app in Hwf as [Hwf1 Hwf2].
  assert (Hp : wf_from (t + 1) post).
  { eapply wf_from_raise; [done|]. intros r Hr. destruct post; [done|]. injection Hr as ->.
    apply Forall_cons in Hpost as [Hr%range_ltb_true _]. cbn in Hr. lia. }
  assert (Hout : ~ mem t post) by (intros H%(mem_bounds _ _ _ Hp); lia).
  destruct (last_split pre) as [->|(pre' & r & ->)]; [apply (emplace_inserted t [] post); cbn; auto; lia|].
  specialize (Hpre r). rewrite last_snoc in Hpre. specialize (Hpre eq_refl). apply range_ltb_false in Hpre. cbn in Hpre.
  pose proof Hwf1 as Hwf1'. apply wf_app in Hwf1' as [Hwf3 (Hr1 & Hr2 & Hr3 & _)]. pose proof (next_start_ge _ _ Hwf3).
  rewrite next_start_app in Hwf2. cbn in Hwf2.
  assert (Hend : forall x, mem x pre' -> x + 2 <= r.1) by (intros x Hx%(mem_bounds _ _ _ Hwf3); lia).
  replace (length (pre' ++ [r])) with (S (length pre')) at 1 by (rewrite length_app; cbn; lia).
  assert (Hrs : (pre' ++ [r]) ++ post = pre' ++ r :: post) by (by rewrite <- app_assoc). rewrite Hrs.
  rewrite list_lookup_middle by done. destruct r as [from additional]. cbn [fst snd app] in *.
  rewrite (u64_small (from + additional)), (u64_small (from + additional + 1)), (u64_small (additional + 1)) by u64_lia.
  destruct ((from <=? t) && (t <=? from + additional)) eqn:E1.
  { assert (mem t (pre' ++ (from, additional) :: post)) by (apply mem_app; right; left; unfold within; cbn; lia).
    split_and!; cbn [fst snd]; [apply wf_app; cbn; tauto| |split; done]. intros x. split; [tauto|]. by intros [->|]. }
  assert (Hnot : ~ mem t (pre' ++ (from, additional) :: post)).
  { rewrite mem_app. cbn. intros [H'%Hend|[H'|H']]; [lia|unfold within in H'; cbn in H'; lia|done]. }
  destruct (Z.eqb_spec (from + additional + 1) t) as [E2|E2].
  { rewrite list_insert_middle. destruct (place_spec 0 pre' (from, additional + 1) post) as [H1 H2]; cbn [fst snd]; try (done || lia).
    { eapply wf_from_raise; [exact Hp|]. intros r Hr. destruct post; [done|]. injection Hr as ->. destruct Hwf2. lia. }
    split; [done|]. split; [|done]. intros x. cbn [snd]. rewrite H2, mem_app. cbn [mem app]. unfold within. cbn [fst snd]. 
    assert (from <= x <= from + (additional + 1) <-> x = t \/ from <= x <= from + additional) as -> by lia. tauto. }
  destruct (Z.eqb_spec (t + 1) from) as [E3|E3].
  { rewrite list_insert_middle. assert (additional = 0) as -> by lia.
    destruct (last_split pre') as [->|(pre2 & q & ->)].
    - split; [split_and!; cbn [length snd app wf_from fst] in *; [lia..|]; by replace (t + (0 + 1) + 2) with (from + 0 + 2) by lia|]. split; [|done]. intros x. cbn [length snd app mem]. unfold within. cbn [fst snd].
      assert (t <= x <= t + (0 + 1) <-> x = t \/ from <= x <= from + 0) as -> by lia. tauto.
    - apply wf_app in Hwf3 as [Hwf4 (Hq1 & Hq2 & Hq3 & _)]. rewrite next_start_app in Hr1. cbn in Hr1.
      replace (length (pre2 ++ [q])) with (S (length pre2)) by (rewrite length_app; cbn; lia). rewrite <- !app_assoc. cbn [app].
      destruct (place_spec 0 pre2 q ((t, 0 + 1) :: post)) as [H1 H2]; cbn [fst snd wf_from]; try (done || lia).
      { split_and!; [lia..|]. eapply wf_from_raise; [exact Hp|]. intros r Hr. destruct post; [done|]. injection Hr as ->. destruct Hwf2. lia. }
      rewrite <- app_assoc in Hnot. split; [done|]. split; [|done]. intros x. cbn [snd]. rewrite H2, !mem_app. cbn [mem]. unfold within. cbn [fst snd].
      assert (t <= x <= t + (0 + 1) <-> x = t \/ from <= x <= from + 0) as -> by lia. tauto. }
  rewrite <- Hrs. apply emplace_inserted; [done|done|done| |].
  - rewrite next_start_app. cbn. lia.
  - rewrite <- Hrs, mem_app in Hnot. tauto.
Qed.

Lemma insert_spec t rs :
  wf rs -> 0 <= t < u64_max ->
  wf (insert t rs).2 /\ (forall x, mem x (insert t rs).2 <-> x = t \/ mem x rs) /\ ((insert t rs).1 = true <-> ~ mem t rs).
Proof. apply insert_inserted. Qed.

(** ** Erasing *)

(** The index [erase] looks at. *)
Definition erase_index (t : Z) (rs : Ranges) : nat :=
  let i := partition_point (fun r => r.1 <? t) rs in
  match i, rs !! i with
  | O, _ => i
  | S j, Some r => if negb (t =? r.1) then j else i
  | S j, None => j
  end.

Lemma erase_index_spec t lo rs :
  wf_from lo rs ->
  rs = [] \/ exists pre r post, rs = pre ++ r :: post /\ erase_index t rs = length pre /\ ~ mem t pre /\ ~ mem t post.
Proof.
  intros Hwf. unfold erase_index. destruct (partition_point_split (fun r => r.1 <? t) rs) as (pre & post & -> & -> & Hpre & Hpost).
  cbv zeta. apply wf_app in Hwf as [Hwf1 Hwf2].
  assert (Hlater : forall r post', post = r :: post' -> ~ mem t post').
  { intros r post' -> H. destruct Hwf2 as (_ & ? & ? & Hw). apply (mem_bounds _ _ _ Hw) in H. specialize (Hpost r eq_refl). cbn in Hpost. lia. }
  assert (Hhead : forall r post', post = r :: post' -> r.1 <> t -> ~ mem t post).
  { intros r post' E Hne. pose proof (Hlater _ _ E) as Hl. subst post. intros [Hm|Hm]; [|done]. specialize (Hpost r eq_refl). cbn in Hpost.
    unfold within in Hm. lia. }
  destruct (last_split pre) as [->|(pre' & q & ->)].
  - destruct post as [|r post]; [by left|]. right. exists [], r, post. split_and!; [done|done|by intros []|by apply (Hlater r)].
  - right. assert (length (pre' ++ [q]) = S (length pre')) as Hl by (rewrite length_app; cbn; lia). rewrite Hl. cbn iota.
    rewrite <- Hl, lookup_app_r, Nat.sub_diag, Hl by done. apply wf_app in Hwf1 as [Hwf3 (Hq1 & Hq2 & Hq3 & _)]. apply Forall_app in Hpre as [_ [Hq _]%Forall_cons]. cbn in Hq.
    assert (Hpre' : ~ mem t pre') by (intros H%(mem_bounds _ _ _ Hwf3); lia).
    destruct post as [|r post]; cbn.
    + exists pre', q, []. split_and!; [by rewrite app_nil_r|done|done|by intros []].
    + destruct (Z.eqb_spec t r.1) as [E|E]; cbn [negb].
      * exists (pre' ++ [q]), r, post. split_and!; [done|done| |by apply (Hlater r)].
        rewrite mem_app. intros [H|[H|[]]]; [done|]. unfold within in H. destruct Hwf2 as [Hr _]. rewrite next_start_app in Hr. cbn in Hr. lia.
      * exists pre', q, (r :: post). split_and!; [by rewrite <- app_assoc|done|done|]. by apply (Hhead r post).
Qed.

(** A range is replaced by ranges that cover it without [t]. *)
Lemma replace_erased t pre r post mid :
  wf (pre ++ r :: post) -> within t r -> ~ mem t pre -> ~ mem t post ->
  wf_from r.1 mid -> next_start r.1 mid <= r.1 + r.2 + 2 -> (forall x, mem x mid <-> x <> t /\ within x r) ->
  wf (pre ++ mid ++ post) /\ (forall x, mem x (pre ++ mid ++ post) <-> x <> t /\ mem x (pre ++ r :: post)).
Proof.
  intros Hwf Ht Hpre Hpost Hm Hs Hmem. apply wf_app in Hwf as [Hwf1 (? & ? & ? & Hwf2)]. split.
  - unfold wf. rewrite !wf_app. split_and!; [done| |].
    + eapply wf_from_raise; [done|]. intros q Hq. destruct mid; [done|]. injection Hq as ->. destruct Hm. lia.
    + eapply wf_from_raise; [done|]. intros q Hq. destruct post; [done|]. injection Hq as ->. destruct Hwf2.
      assert (next_start (next_start 0 pre) mid <= r.1 + r.2 + 2); [|lia]. destruct mid; cbn in *; lia.
  - intros x. rewrite !mem_app. cbn [mem]. rewrite Hmem. destruct (Z.eq_dec x t) as [->|]; tauto.
Qed.

Lemma erase_spec t rs :
  wf rs -> 0 <= t < u64_max ->
  wf (erase t rs).2 /\ (forall x, mem x (erase t rs).2 <-> x <> t /\ mem x rs) /\ ((erase t rs).1 = true <-> mem t rs).
Proof.
  intros Hwf Ht. unfold erase. fold (erase_index t rs). cbv zeta.
  destruct (erase_index_spec t 0 rs Hwf) as [->|(pre & r & post & -> & -> & Hpre & Hpost)].
  { rewrite lookup_nil. cbn. split_and!; [done|tauto|]. split; [done|by intros []]. }
  rewrite list_lookup_middle by done. pose proof Hwf as Hwf'. apply wf_app in Hwf' as [Hwf1 (Hr1 & Hr2 & Hr3 & Hwf2)].
  pose proof (next_start_ge _ _ Hwf1). destruct r as [from additional]. cbn [fst snd] in *.
  rewrite (u64_small (from + additional)) by u64_lia. destruct ((from <=? t) && (t <=? from + additional)) eqn:E1.
  2: { assert (~ mem t (pre ++ (from, additional) :: post)) as Hn.
       { rewrite mem_app. intros [|[Hw|]]; [done| |done]. unfold within in Hw. cbn in Hw. lia. }
       cbn [fst snd]. split_and!; [done| |done]. intros x. split; [|tauto]. intros Hx. split; [by intros ->|done]. }
  assert (within t (from, additional)) as Hin by (unfold within; cbn; lia).
  assert (mem t (pre ++ (from, additional) :: post)) as Hmem by (rewrite mem_app; cbn; tauto).
  assert (Hgo : forall mid, wf_from from mid -> next_start from mid <= from + additional + 2 ->
    (forall x, mem x mid <-> x <> t /\ within x (from, additional)) ->
    wf (pre ++ mid ++ post) /\ (forall x, mem x (pre ++ mid ++ post) <-> x <> t /\ mem x (pre ++ (from, additional) :: post)) /\
    (true = true <-> mem t (pre ++ (from, additional) :: post))).
  { intros mid H1 H2 H3. destruct (replace_erased t pre (from, additional) post mid) as [H4 H5]; done. }
  unfold within in Hgo. cbn [fst snd] in Hgo. destruct (Z.eqb_spec from t) as [E2|E2].
  - destruct (Z.eqb_spec additional 0) as [E3|E3]; cbn [fst snd].
    + rewrite delete_middle. apply (Hgo []); cbn; [done|lia|]. intros x. lia.
    + rewrite list_insert_middle, u64_small by u64_lia. apply (Hgo [(from + 1, additional - 1)]); cbn; [lia..|].
      intros x. unfold within. cbn. lia.
  - destruct (Z.eqb_spec t (from + additional)) as [E3|E3]; cbn [fst snd].
    + rewrite list_insert_middle. apply (Hgo [(from, additional - 1)]); cbn; [lia..|]. intros x. unfold within. cbn. lia.
    + assert (drop (S (length pre)) (pre ++ (from, additional) :: post) = post) as ->.
      { rewrite drop_app_ge by lia. by replace (S (length pre) - length pre)%nat with 1%nat by lia. }
      rewrite take_app_length, !u64_small by u64_lia. apply (Hgo [(from, t - from - 1); (t + 1, from + additional - t - 1)]); cbn; [lia..|].
      intros x. unfold within. cbn. lia.
Qed.

(** ** Looking up *)

Lemma find_internal_spec t rs :
  wf rs -> 0 <= t < u64_max ->
  match rs !! find_internal t rs with
  | Some r => within t r
  | None => find_internal t rs = length rs /\ ~ mem t rs
  end.
Proof.
  intros Hwf Ht. unfold find_internal. destruct (partition_point_split (fun r => range_ltb r (t, 0)) rs) as (pre & post & -> & -> & Hpre & Hpost).
  cbv zeta. apply wf_app in Hwf as [Hwf1 Hwf2]. rewrite (lookup_app_r pre post (length pre)), Nat.sub_diag by done.
  set (previous := match length pre with O => _ | S _ => _ end).
  assert (Hprev : ~ mem t post -> match (pre ++ post) !! previous with
                                  | Some r => within t r | None => previous = length (pre ++ post) /\ ~ mem t (pre ++ post) end).
  { intros Hn. subst previous. assert ((pre ++ post) !! length (pre ++ post) = None) as Hnone by (by apply lookup_ge_None).
    destruct (last_split pre) as [->|(pre' & q & ->)]; [cbn [length app] in *; by rewrite Hnone|]. rewrite <- app_assoc in *. cbn [app] in *.
    assert (length (pre' ++ [q]) = S (length pre')) as -> by (rewrite length_app; cbn; lia).
    assert ((pre' ++ q :: post) !! length pre' = Some q) as Hl by (by apply list_lookup_middle). rewrite Hl.
    apply wf_app in Hwf1 as [Hwf3 (Hq1 & Hq2 & Hq3 & _)]. pose proof (next_start_ge _ _ Hwf3). destruct q as [f a]. cbn [fst snd] in *.
    apply Forall_app in Hpre as [_ [Hq%range_ltb_true _]%Forall_cons]. cbn in Hq. rewrite u64_small by u64_lia.
    destruct (Z.leb_spec t (f + a)).
    - rewrite Hl. unfold within. cbn. lia.
    - rewrite Hnone. split; [done|]. rewrite mem_app. intros [Hm%(mem_bounds _ _ _ Hwf3)|[Hm|Hm]]; [lia| |done]. unfold within in Hm. cbn in Hm. lia. }
  destruct post as [|r post]; cbn [head lookup list_lookup]; [apply Hprev; by intros []|].
  specialize (Hpost r eq_refl). apply range_ltb_false in Hpost. cbn in Hpost. destruct Hwf2 as (_ & ? & ? & Hw).
  destruct (Z.eqb_spec r.1 t) as [E|E].
  - rewrite list_lookup_middle by done. unfold within. lia.
  - apply Hprev. intros [Hm|Hm]; [unfold within in Hm; lia|]. apply (mem_bounds _ _ _ Hw) in Hm. lia.
Qed.

Lemma lookup_mem rs i r x : rs !! i = Some r -> within x r -> mem x rs.
Proof. revert i. induction rs as [|q rs IH]; intros [|i]; cbn; [done..| |]; [intros [= ->]; tauto|]. intros H1 H2. right. by apply (IH i). Qed.

Lemma contains_spec t rs : wf rs -> 0 <= t < u64_max -> contains t rs = true <-> mem t rs.
Proof.
  intros Hwf Ht. pose proof (find_internal_spec t rs Hwf Ht) as H. unfold contains.
  destruct (rs !! find_internal t rs) as [r|] eqn:E.
  - pose proof (lookup_lt_Some _ _ _ E). destruct (Nat.eqb_spec (find_internal t rs) (length rs)); [lia|]. split; [|done].
    intros _. by apply (lookup_mem _ _ _ _ E).
  - destruct H as [-> H]. by rewrite Nat.eqb_refl.
Qed.

(** ** Equality *)

Lemma same_elements lo lo' a b : wf_from lo a -> wf_from lo' b -> (forall x, mem x a <-> mem x b) -> a = b.
Proof.
  revert lo lo' b. induction a as [|p a IH]; intros lo lo' [|q b] Ha Hb H; [done| | |].
  - destruct Hb as (? & ? & _). exfalso. apply (H q.1). left. unfold within. lia.
  - destruct Ha as (? & ? & _). exfalso. apply (H p.1). left. unfold within. lia.
  - destruct Ha as (? & ? & ? & Ha), Hb as (? & ? & ? & Hb).
    assert (Hin : forall x, mem x (p :: a) -> p.1 <= x) by (intros x [Hx|Hx%(mem_bounds _ _ _ Ha)]; [unfold within in Hx|]; lia).
    assert (Hin' : forall x, mem x (q :: b) -> q.1 <= x) by (intros x [Hx|Hx%(mem_bounds _ _ _ Hb)]; [unfold within in Hx|]; lia).
    assert (p.1 = q.1) as E1.
    { assert (mem p.1 (q :: b)) as Hx1%Hin' by (apply H; left; unfold within; lia).
      assert (mem q.1 (p :: a)) as Hx2%Hin by (apply H; left; unfold within; lia). lia. }
    assert (Hgap : ~ mem (p.1 + p.2 + 1) (p :: a)) by (intros [Hx|Hx%(mem_bounds _ _ _ Ha)]; [unfold within in Hx|]; lia).
    assert (Hgap' : ~ mem (q.1 + q.2 + 1) (q :: b)) by (intros [Hx|Hx%(mem_bounds _ _ _ Hb)]; [unfold within in Hx|]; lia).
    assert (p.2 = q.2) as E2.
    { destruct (Z.lt_trichotomy p.2 q.2) as [L|[|L]]; [|done|]; exfalso.
      - apply Hgap, H. left. unfold within. lia.
      - apply Hgap', H. left. unfold within. lia. }
    destruct p as [f n], q as [f' n']. cbn [fst snd] in *. subst f' n'. f_equal. eapply IH; [done|done|].
    intros x. specialize (H x). cbn [mem] in H. unfold within in H. cbn [fst snd] in H.
    split; intros Hx; [apply (mem_bounds _ _ _ Ha) in Hx as Hb1|apply (mem_bounds _ _ _ Hb) in Hx as Hb1]; destruct H as [Hx1 Hx2].
    + destruct Hx1; [by right|lia|done].
    + destruct Hx2; [by right|lia|done].
Qed.

(** ** Any sequence of operations *)

Inductive SetOp := OpInsert (t : Z) | OpErase (t : Z) | OpExtend (from additional : Z) | OpClear.

Definition run_op (op : SetOp) (rs : Ranges) : outcome (bool * Ranges) :=
  match op with
  | OpInsert t => Ret (insert t rs)
  | OpErase t => Ret (erase t rs)
  | OpExtend from additional => match extend from additional rs with Ret rs => Ret (true, rs) | Throw e => Throw e end
  | OpClear => Ret (true, [])
  end.

Fixpoint run_ops (ops : list SetOp) (rs : Ranges) : outcome (list bool * Ranges) :=
  match ops with
  | [] => Ret ([], rs)
  | op :: ops =>
      match run_op op rs with
      | Throw e => Throw e
      | Ret (b, rs) => match run_ops ops rs with Ret (bs, rs) => Ret (b :: bs, rs) | Throw e => Throw e end
      end
  end.

(** The same on sets, with what [insert] and [erase] return. *)
Definition spec_op (op : SetOp) (X : gset Z) : bool * gset Z :=
  match op with
  | OpInsert t => (bool_decide (t ∉ X), {[ t ]} ∪ X)
  | OpErase t => (bool_decide (t ∈ X), X ∖ {[ t ]})
  | OpExtend from additional => (true, list_to_set (seqZ from (additional + 1)) ∪ X)
  | OpClear => (true, ∅)
  end.

Fixpoint spec_ops (ops : list SetOp) (X : gset Z) : list bool * gset Z :=
  match ops with
  | [] => ([], X)
  | op :: ops => let '(b, X) := spec_op op X in let '(bs, X) := spec_ops ops X in (b :: bs, X)
  end.

(** Values below the last one of the type. *)
Definition op_in_range (op : SetOp) : bool :=
  match op with
  | OpInsert t | OpErase t => (0 <=? t) && (t <? u64_max)
  | OpExtend from additional => (0 <=? from) && (0 <=? additional) && (from + additional <? u64_max)
  | OpClear => true
  end.

Definition represents (rs : Ranges) (X : gset Z) : Prop := wf rs /\ forall x, mem x rs <-> x ∈ X.

Lemma represents_range rs X x : represents rs X -> x ∈ X -> 0 <= x < u64_max.
Proof. intros [Hwf H] Hx%H. by apply (mem_bounds 0 rs). Qed.

Lemma insert_represents t rs X :
  represents rs X -> 0 <= t < u64_max -> insert t rs = (bool_decide (t ∉ X), (insert t rs).2) /\ represents (insert t rs).2 ({[ t ]} ∪ X).
Proof.
  intros [Hwf HX] Ht. destruct (insert_spec t rs Hwf Ht) as (H1 & H2 & H3). split.
  - rewrite (surjective_pairing (insert t rs)) at 1. f_equal. apply eq_bool_prop_intro. rewrite bool_decide_spec, <- HX. split.
    + intros H%Is_true_eq_true. by apply H3.
    + intros H. by apply Is_true_eq_left, H3.
  - split; [done|]. intros x. by rewrite H2, HX, elem_of_union, elem_of_singleton.
Qed.

Lemma erase_represents t rs X :
  represents rs X -> 0 <= t < u64_max -> erase t rs = (bool_decide (t ∈ X), (erase t rs).2) /\ represents (erase t rs).2 (X ∖ {[ t ]}).
Proof.
  intros [Hwf HX] Ht. destruct (erase_spec t rs Hwf Ht) as (H1 & H2 & H3). split.
  - rewrite (surjective_pairing (erase t rs)) at 1. f_equal. apply eq_bool_prop_intro. rewrite bool_decide_spec, <- HX. split.
    + intros H%Is_true_eq_true. by apply H3.
    + intros H. by apply Is_true_eq_left, H3.
  - split; [done|]. intros x. rewrite H2, HX, elem_of_difference, elem_of_singleton. tauto.
Qed.

Lemma extend_loop_represents fuel n k rs X :
  represents rs X -> 0 <= n -> 0 <= k -> n + k <= u64_max -> (Z.to_nat k < fuel)%nat ->
  exists rs', extend_loop fuel n (n + k - 1) rs = Ret rs' /\ represents rs' (list_to_set (seqZ n k) ∪ X).
Proof.
  revert n k rs X. induction fuel as [|fuel IH]; intros n k rs X HX Hn Hk Hle Hf; [lia|]. cbn. destruct (Z.leb_spec n (n + k - 1)).
  - rewrite u64_small by u64_lia. destruct (insert_represents n rs X HX ltac:(lia)) as [_ HX'].
    destruct (IH (n + 1) (k - 1) _ _ HX') as (rs' & Hr & HX2); [lia..|]. exists rs'. split.
    + rewrite <- Hr. f_equal. lia.
    + rewrite seqZ_cons by lia. replace (Z.succ n) with (n + 1) by lia. replace (Z.pred k) with (k - 1) by lia.
      destruct HX2 as [? HX2]. split; [done|]. intros x. rewrite HX2, list_to_set_cons, !elem_of_union, elem_of_singleton. tauto.
  - exists rs. split; [done|]. assert (k = 0) as -> by lia. destruct HX as [? HX]. split; [done|]. intros x. rewrite HX, elem_of_union, elem_of_list_to_set, elem_of_seqZ. intuition lia.
Qed.

Lemma run_op_represents op rs X :
  represents rs X -> op_in_range op = true ->
  exists rs', run_op op rs = Ret ((spec_op op X).1, rs') /\ represents rs' (spec_op op X).2.
Proof.
  intros HX Hop. destruct op as [t|t|from additional|]; cbn [run_op spec_op fst snd op_in_range] in *.
  - destruct (insert_represents t rs X HX ltac:(lia)) as [E H]. exists (insert t rs).2. by rewrite <- E.
  - destruct (erase_represents t rs X HX ltac:(lia)) as [E H]. exists (erase t rs).2. by rewrite <- E.
  - unfold extend. rewrite u64_small by u64_lia.
    destruct (extend_loop_represents (S (S (Z.to_nat additional))) from (additional + 1) rs X HX) as (rs' & Hr & H); [lia..|].
    replace (from + (additional + 1) - 1) with (from + additional) in Hr by lia. exists rs'. by rewrite Hr.
  - exists []. split; [done|]. split; [done|]. intros x. clear. set_solver.
Qed.

Lemma run_ops_represents ops rs X :
  represents rs X -> forallb op_in_range ops = true ->
  exists rs', run_ops ops rs = Ret ((spec_ops ops X).1, rs') /\ represents rs' (spec_ops ops X).2.
Proof.
  revert rs X. induction ops as [|op ops IH]; intros rs X HX Hops; cbn; [by exists rs|].
  cbn in Hops. apply andb_true_iff in Hops as [Hop Hops]. destruct (run_op_represents op rs X HX Hop) as (rs1 & -> & HX1).
  destruct (spec_op op X) as [b X1]. cbn [fst snd] in *. destruct (IH rs1 X1 HX1 Hops) as (rs2 & -> & HX2).
  destruct (spec_ops ops X1) as [bs X2]. by exists rs2.
Qed.

Lemma represents_eq rs1 rs2 X1 X2 : represents rs1 X1 -> represents rs2 X2 -> rs1 = rs2 <-> X1 = X2.
Proof.
  intros [Hwf1 H1] [Hwf2 H2]. split.
  - intros ->. apply set_eq. intros x. by rewrite <- H1, <- H2.
  - intros ->. apply (same_elements 0 0); [done..|]. intros x. by rewrite H1, H2.
Qed.

(** C39: the vector of ranges is a set.  Any operations on values below the largest of the type do not fail, return whether
    they changed the set, and leave ranges that are in ascending order, disjoint and with a gap between any two, below the
    largest value, and [contains] that of the set they describe. Two histories give equal vectors, which is what [operator==]
    compares, exactly when they describe the same set. *)
Theorem contiguous_set_refines ops ops' :
  forallb op_in_range ops = true -> forallb op_in_range ops' = true ->
  exists rs rs', run_ops ops [] = Ret ((spec_ops ops ∅).1, rs) /\ run_ops ops' [] = Ret ((spec_ops ops' ∅).1, rs') /\
    wf rs /\ (forall t, 0 <= t < u64_max -> contains t rs = bool_decide (t ∈ (spec_ops ops ∅).2)) /\
    (rs = rs' <-> (spec_ops ops ∅).2 = (spec_ops ops' ∅).2).
Proof.
  intros Hops Hops'. assert (H0 : represents [] ∅) by (split; [done|]; intros x; clear; set_solver).
  destruct (run_ops_represents ops [] ∅ H0 Hops) as (rs & Hr & HX), (run_ops_represents ops' [] ∅ H0 Hops') as (rs' & Hr' & HX').
  exists rs, rs'. split_and!; [done|done|by apply HX| |by apply represents_eq].
  intros t Ht. apply eq_bool_prop_intro. destruct HX as [Hwf HX]. rewrite bool_decide_spec, <- HX, <- (contains_spec t rs Hwf Ht).
  split; [apply Is_true_eq_true|apply Is_true_eq_left].
Qed.

Lemma contiguous_set_refines_witness :
  let ops := [OpInsert 5; OpExtend 7 2; OpInsert 6; OpErase 8; OpInsert 6] in
  let ops' := [OpExtend 5 4; OpErase 8] in
  run_ops ops [] = Ret ([true; true; true; true; false], [(5, 2); (9, 0)]) /\
  run_ops ops' [] = Ret ([true; true], [(5, 2); (9, 0)]) /\
  (spec_ops ops ∅).2 = (spec_ops ops' ∅).2 /\ 7 ∈ (spec_ops ops ∅).2.
Proof.
  intros ops ops'. destruct (contiguous_set_refines ops ops') as (rs & rs' & H1 & H2 & _ & H3 & H4); [reflexivity..|].
  assert (run_ops ops [] = Ret ([true; true; true; true; false], [(5, 2); (9, 0)])) as E1 by reflexivity.
  assert (run_ops ops' [] = Ret ([true; true], [(5, 2); (9, 0)])) as E2 by reflexivity.
  split; [exact E1|]. split; [exact E2|]. rewrite E1 in H1. rewrite E2 in H2. injection H1 as <-. injection H2 as <-.
  split; [by apply H4|]. assert (contains 7 [(5, 2); (9, 0)] = true) as H5 by reflexivity.
  specialize (H3 7 ltac:(split; [done|reflexivity])). rewrite H5 in H3. symmetry in H3. exact (bool_decide_eq_true_1 _ H3).
Defined.

(** ** Positions *)

Definition elements_of (rs : Ranges) : list Z := rs ≫= fun r => seqZ r.1 (r.2 + 1).

(** The number of elements. *)
Fixpoint total (rs : Ranges) : Z := match rs with [] => 0 | r :: rs => r.2 + 1 + total rs end.

(** The position of an iterator. *)
Definition rank (rs : Ranges) (i : ConstIterator) : Z := total (take (it i) rs) + offset i.

(** An iterator to an element. *)
Definition inside (rs : Ranges) (i : ConstIterator) : Prop := exists r, rs !! it i = Some r /\ 0 <= offset i <= r.2.

Definition valid (rs : Ranges) (i : ConstIterator) : Prop := inside rs i \/ i = end_ rs.

Lemma total_app a b : total (a ++ b) = total a + total b.
Proof. induction a as [|r a IH]; cbn; lia. Qed.

Lemma ranges_nonneg lo rs : wf_from lo rs -> 0 <= total rs.
Proof. revert lo. induction rs as [|r rs IH]; intros lo; cbn; [done|]. intros (? & ? & ? & H). specialize (IH _ H). lia. Qed.

Lemma total_bound lo rs : wf_from lo rs -> lo <= u64_max -> total rs <= u64_max - lo.
Proof.
  revert lo. induction rs as [|r rs IH]; intros lo; cbn; [lia|]. intros (? & ? & ? & H) Hlo.
  destruct rs as [|q rs]; [cbn; lia|]. assert (r.1 + r.2 + 2 <= u64_max) by (destruct H as (? & ? & ? & _); lia). specialize (IH _ H ltac:(done)). lia.
Qed.

Lemma total_elements lo rs : wf_from lo rs -> Z.of_nat (length (elements_of rs)) = total rs.
Proof.
  revert lo. induction rs as [|r rs IH]; intros lo; cbn; [done|]. intros (? & ? & ? & H). specialize (IH _ H).
  unfold elements_of in *. cbn. rewrite length_app, length_seqZ. lia.
Qed.

(** The ranges in front of one. *)
Lemma total_take_S rs i r : rs !! i = Some r -> total (take (S i) rs) = total (take i rs) + r.2 + 1.
Proof. intros H. rewrite (take_S_r _ _ _ H), total_app. cbn. lia. Qed.

Lemma wf_take lo rs n : wf_from lo rs -> wf_from lo (take n rs).
Proof. intros H. rewrite <- (take_drop n rs), wf_app in H. tauto. Qed.

Lemma wf_drop lo rs n : wf_from lo rs -> wf_from (next_start lo (take n rs)) (drop n rs).
Proof. intros H. rewrite <- (take_drop n rs), wf_app in H. tauto. Qed.

Lemma wf_lookup lo rs i r : wf_from lo rs -> rs !! i = Some r -> lo <= r.1 /\ 0 <= r.2 /\ r.1 + r.2 < u64_max.
Proof.
  intros H Hr. pose proof (next_start_ge _ _ (wf_take _ _ i H)). apply (wf_drop _ _ i) in H. rewrite (drop_S _ _ _ Hr) in H.
  destruct H as (? & ? & ? & _). lia.
Qed.

Lemma inside_rank rs i : wf rs -> inside rs i -> 0 <= rank rs i < total rs.
Proof.
  intros Hwf (r & Hr & Ho). unfold rank. pose proof (ranges_nonneg _ _ (wf_take _ _ (it i) Hwf)).
  pose proof (total_app (take (S (it i)) rs) (drop (S (it i)) rs)) as E. rewrite take_drop, (total_take_S _ _ _ Hr) in E.
  pose proof (ranges_nonneg _ _ (wf_drop _ _ (S (it i)) Hwf)). lia.
Qed.

Lemma rank_begin rs o : rank rs (MkIterator 0 o) = o.
Proof. unfold rank. cbn [it offset]. by rewrite take_0. Qed.

Lemma end_rank rs : rank rs (end_ rs) = total rs.
Proof. unfold rank, end_. cbn. rewrite take_ge by done. lia. Qed.

Lemma valid_rank rs i : wf rs -> valid rs i -> 0 <= rank rs i <= total rs.
Proof. intros Hwf [H| ->]; [apply (inside_rank _ _ Hwf) in H; lia|]. rewrite end_rank. pose proof (ranges_nonneg _ _ Hwf). lia. Qed.

Lemma total_u64 rs : wf rs -> 0 <= total rs <= u64_max.
Proof. intros H. pose proof (ranges_nonneg _ _ H). pose proof (total_bound _ _ H ltac:(done)). lia. Qed.

(** An iterator at its position reads the element there. *)
Lemma elements_lookup lo rs i r o :
  wf_from lo rs -> rs !! i = Some r -> 0 <= o <= r.2 -> elements_of rs !! Z.to_nat (total (take i rs) + o) = Some (r.1 + o).
Proof.
  revert lo i. induction rs as [|q rs IH]; intros lo i Hwf Hr Ho; [done|]. destruct Hwf as (? & ? & ? & Hwf). unfold elements_of. cbn.
  destruct i as [|i]; cbn in Hr |- *.
  - injection Hr as ->. rewrite lookup_app_l by (rewrite length_seqZ; lia). rewrite lookup_seqZ. lia.
  - pose proof (ranges_nonneg _ _ (wf_take _ _ i Hwf)). rewrite lookup_app_r by (rewrite length_seqZ; lia).
    rewrite <- (IH _ i Hwf Hr Ho). unfold elements_of. f_equal. rewrite length_seqZ. lia.
Qed.

Lemma deref_spec rs i : wf rs -> inside rs i -> exists x, deref rs i = Ret x /\ elements_of rs !! Z.to_nat (rank rs i) = Some x.
Proof.
  intros Hwf (r & Hr & Ho). destruct (wf_lookup _ _ _ _ Hwf Hr) as (? & ? & ?). exists (r.1 + offset i). unfold deref, range_at. rewrite Hr.
  split; [by rewrite u64_small by u64_lia|]. by apply (elements_lookup 0).
Qed.

(** ** Steps *)

Lemma start_valid rs i : wf rs -> (i <= length rs)%nat -> valid rs (MkIterator i 0).
Proof.
  intros Hwf Hi. destruct (rs !! i) as [r|] eqn:E.
  - left. exists r. destruct (wf_lookup _ _ _ _ Hwf E) as (_ & ? & _). cbn. split; [done|lia].
  - right. apply lookup_ge_None in E. unfold end_. f_equal. lia.
Qed.

Lemma rank_next rs i r : rs !! it i = Some r -> rank rs (MkIterator (S (it i)) 0) = rank rs i + (r.2 - offset i + 1).
Proof. intros Hr. unfold rank. cbn [it offset]. rewrite (total_take_S _ _ _ Hr). lia. Qed.

Lemma incr_spec rs i : wf rs -> inside rs i -> exists j, incr rs i = Ret j /\ valid rs j /\ rank rs j = rank rs i + 1.
Proof.
  intros Hwf (r & Hr & Ho). destruct (wf_lookup _ _ _ _ Hwf Hr) as (? & ? & ?). unfold incr, range_at. rewrite Hr, u64_small by u64_lia.
  eexists. split; [done|]. destruct (Z.ltb_spec r.2 (offset i + 1)).
  - split; [apply start_valid; [done|]; apply lookup_lt_Some in Hr; lia|]. rewrite (rank_next _ _ _ Hr). lia.
  - split; [left; exists r; cbn; split; [done|lia]|]. unfold rank. cbn. lia.
Qed.

Lemma decr_spec rs i :
  wf rs -> valid rs i -> 0 < rank rs i -> exists j, decr rs i = Ret j /\ inside rs j /\ rank rs j = rank rs i - 1.
Proof.
  intros Hwf Hi Hr. unfold decr. destruct (Z.eqb_spec (offset i) 0) as [E|E].
  - destruct i as [[|k] o]; cbn [it offset] in *; [rewrite rank_begin in Hr; lia|]. subst o.
    assert (exists r, rs !! k = Some r) as (r & Hk).
    { apply lookup_lt_is_Some. destruct Hi as [(r & Hx & _)|[= Hx]]; cbn in *; [apply lookup_lt_Some in Hx; lia|lia]. }
    unfold range_at. rewrite Hk. destruct (wf_lookup _ _ _ _ Hwf Hk) as (_ & ? & _). eexists. split; [done|].
    split; [exists r; cbn; split; [done|lia]|]. unfold rank. cbn [it offset]. rewrite (total_take_S _ _ _ Hk). lia.
  - destruct Hi as [(r & Hx & Ho)| ->]; [|done]. eexists. split; [done|]. split; [exists r; cbn; split; [done|lia]|]. unfold rank. cbn. lia.
Qed.

Lemma advance_spec rs fuel n i :
  wf rs -> inside rs i -> 0 <= n -> rank rs i + n < total rs -> (length rs - it i < fuel)%nat ->
  exists j, advance rs fuel n i = Ret j /\ inside rs j /\ rank rs j = rank rs i + n.
Proof.
  intros Hwf. pose proof (total_u64 _ Hwf). revert n i. induction fuel as [|fuel IH]; intros n i Hi Hn Hlt Hf; [lia|]. cbn.
  pose proof (inside_rank _ _ Hwf Hi). destruct Hi as (r & Hr & Ho). unfold range_at. rewrite Hr. destruct (wf_lookup _ _ _ _ Hwf Hr) as (? & ? & ?).
  assert (offset i <= rank rs i) by (unfold rank; pose proof (ranges_nonneg _ _ (wf_take _ _ (it i) Hwf)); lia).
  rewrite u64_small by u64_lia. destruct (Z.ltb_spec r.2 (offset i + n)).
  - rewrite (u64_small (r.2 - _ + 1)), u64_small by u64_lia. pose proof (rank_next _ _ _ Hr) as Hnext. pose proof (lookup_lt_Some _ _ _ Hr).
    assert (inside rs (MkIterator (S (it i)) 0)) as Hin.
    { destruct (start_valid rs (S (it i)) Hwf ltac:(lia)) as [|E]; [done|]. exfalso. rewrite E, end_rank in Hnext. lia. }
    destruct (IH (n - (r.2 - offset i + 1)) _ Hin) as (j & Hj & Hin' & Hrank); [lia..| |cbn; lia|]; [rewrite Hnext; lia|].
    exists j. split; [done|]. split; [done|]. rewrite Hrank, Hnext. lia.
  - eexists. split; [done|]. split; [exists r; cbn; split; [done|lia]|]. unfold rank. cbn. lia.
Qed.

Lemma retreat_spec rs fuel n i :
  wf rs -> valid rs i -> 0 <= n <= rank rs i -> (it i < fuel)%nat ->
  exists j, retreat rs fuel n i = Ret j /\ valid rs j /\ rank rs j = rank rs i - n.
Proof.
  intros Hwf. pose proof (total_u64 _ Hwf). revert n i. induction fuel as [|fuel IH]; intros n i Hi Hn Hf; [lia|]. cbn.
  pose proof (valid_rank _ _ Hwf Hi). destruct (Z.ltb_spec (offset i) n).
  - destruct i as [[|k] o]; cbn [it offset] in *; [rewrite rank_begin in Hn; lia|].
    assert (exists r, rs !! k = Some r) as (r & Hk).
    { apply lookup_lt_is_Some. destruct Hi as [(r & Hx & _)|[= Hx]]; cbn in *; [apply lookup_lt_Some in Hx; lia|lia]. }
    assert (0 <= o) by (destruct Hi as [(q & _ & ?)|[= _ ->]]; cbn in *; lia).
    unfold range_at. rewrite Hk. destruct (wf_lookup _ _ _ _ Hwf Hk) as (? & ? & ?). rewrite (u64_small (o + 1)), u64_small by u64_lia.
    assert (rank rs (MkIterator k r.2) = rank rs (MkIterator (S k) o) - (o + 1)) as Hprev.
    { unfold rank. cbn [it offset]. rewrite (total_take_S _ _ _ Hk). lia. }
    destruct (IH (n - (o + 1)) (MkIterator k r.2)) as (j & Hj & Hin & Hrank); [left; exists r; cbn; split; [done|lia]|lia|cbn; lia|].
    exists j. split; [done|]. split; [done|]. lia.
  - eexists. split; [done|]. split.
    + destruct Hi as [(r & Hx & Ho)| ->]; [left; exists r; cbn; split; [done|lia]|right]. cbn in *. unfold end_. f_equal. lia.
    + unfold rank. cbn. lia.
Qed.

Lemma foldl_total a l : foldl (fun acc (r : Range) => u64 (acc + r.2 + 1)) (u64 a) l = u64 (a + total l).
Proof.
  revert a. induction l as [|r l IH]; intros a; cbn; [by rewrite Z.add_0_r|]. rewrite <- Z.add_assoc, u64_add_l, IH. f_equal. lia.
Qed.

Lemma total_reverse l : total (reverse l) = total l.
Proof. induction l as [|r l IH]; [done|]. rewrite reverse_cons, total_app, IH. cbn. lia. Qed.

Lemma distance_down_spec rs i other :
  (it other < it i <= length rs)%nat -> distance_down rs i other = Ret (u64 (rank rs i - rank rs other)).
Proof.
  intros Hlt. destruct (lookup_lt_is_Some_2 rs (it other)) as [r Hr]; [lia|]. unfold distance_down, range_at. rewrite Hr. f_equal.
  rewrite foldl_total, total_reverse. rewrite u64_add_l, u64_add_r. f_equal. unfold rank.
  assert (total (take (it i) rs) = total (take (S (it other)) rs) + total (take (it i - S (it other)) (drop (S (it other)) rs))) as ->.
  { rewrite <- total_app. f_equal. rewrite <- (take_drop (S (it other)) (take (it i) rs)). rewrite take_take, skipn_firstn_comm. f_equal. f_equal. lia. }
  rewrite (total_take_S _ _ _ Hr). lia.
Qed.

Lemma valid_it rs i : valid rs i -> (it i <= length rs)%nat.
Proof. intros [(r & Hr & _)| ->]; [apply lookup_lt_Some in Hr; lia|done]. Qed.

Lemma distance_spec rs i j : valid rs i -> valid rs j -> distance rs i j = Ret (u64 (rank rs i - rank rs j)).
Proof.
  intros Hi%valid_it Hj%valid_it. unfold distance. destruct (Nat.eqb_spec (it i) (it j)) as [E|E].
  - unfold rank. rewrite E. do 2 f_equal. lia.
  - destruct (Nat.ltb_spec (it i) (it j)).
    + rewrite distance_down_spec by lia. f_equal. unfold u64. rewrite <- Z.sub_0_l, Zminus_mod_idemp_r. f_equal. lia.
    + apply distance_down_spec. lia.
Qed.

(** ** The elements in order *)

Lemma elements_mem rs x : x ∈ elements_of rs <-> mem x rs.
Proof.
  induction rs as [|r rs IH]; unfold elements_of in *; cbn; [split; [by intros ?%not_elem_of_nil|done]|].
  rewrite elem_of_app, elem_of_seqZ, IH. unfold within. intuition lia.
Qed.

Lemma elements_ascending lo rs i j x y :
  wf_from lo rs -> elements_of rs !! i = Some x -> elements_of rs !! j = Some y -> (i < j)%nat -> x < y.
Proof.
  revert lo i j. induction rs as [|r rs IH]; intros lo i j Hwf; unfold elements_of; cbn; [done|]. destruct Hwf as (? & ? & ? & Hwf).
  rewrite !lookup_app_Some, !lookup_seqZ, !length_seqZ. intros [Hi|[Hi1 Hi2]] [Hj|[Hj1 Hj2]] Hlt; [lia| |lia|].
  - apply list_elem_of_lookup_2, elements_mem, (mem_bounds _ _ _ Hwf) in Hj2. lia.
  - eapply (IH _ _ _ Hwf Hi2 Hj2). lia.
Qed.

(** What a loop over the elements visits. *)
Fixpoint walk (rs : Ranges) (fuel : nat) (i : ConstIterator) : outcome (list Z) :=
  match fuel with
  | O => Throw OutOfFuel
  | S fuel =>
      if bool_decide (i = end_ rs) then Ret []
      else match deref rs i, incr rs i with
           | Ret x, Ret i => match walk rs fuel i with Ret l => Ret (x :: l) | Throw e => Throw e end
           | Throw e, _ | _, Throw e => Throw e
           end
  end.

Lemma walk_from rs fuel i :
  wf rs -> valid rs i -> (length (elements_of rs) - Z.to_nat (rank rs i) < fuel)%nat ->
  walk rs fuel i = Ret (drop (Z.to_nat (rank rs i)) (elements_of rs)).
Proof.
  intros Hwf. revert i. induction fuel as [|fuel IH]; intros i Hi Hf; [lia|]. cbn. pose proof (total_elements _ _ Hwf) as Ht.
  case_bool_decide as E.
  - subst i. rewrite end_rank. rewrite drop_ge; [done|lia].
  - destruct Hi as [Hi|]; [|done]. pose proof (inside_rank _ _ Hwf Hi). destruct (deref_spec _ _ Hwf Hi) as (x & -> & Hx).
    destruct (incr_spec _ _ Hwf Hi) as (j & -> & Hj & Hrank). rewrite IH; [|done|lia]. rewrite (drop_S _ _ _ Hx). do 3 f_equal. lia.
Qed.

Lemma walk_elements rs : wf rs -> walk rs (S (length (elements_of rs))) (begin) = Ret (elements_of rs).
Proof.
  intros Hwf. rewrite walk_from; [|done|apply start_valid; [done|lia]|].
  - unfold begin. by rewrite rank_begin.
  - lia.
Qed.

(** ** Searching the elements *)

Lemma partition_point_unique {A} (p : A -> bool) (l : list A) n :
  (n <= length l)%nat -> (forall i x, (i < n)%nat -> l !! i = Some x -> p x = true) -> (forall x, l !! n = Some x -> p x = false) ->
  partition_point p l = n.
Proof.
  revert n. induction l as [|y l IH]; intros [|n] Hn Hbefore Hat; cbn in *; [done|lia| |].
  - by rewrite (Hat y eq_refl).
  - rewrite (Hbefore 0%nat y ltac:(lia) eq_refl). f_equal. apply IH; [lia| |done]. intros i x Hi Hx. by apply (Hbefore (S i)); [lia|].
Qed.

Section Search.
Context (rs : Ranges) (Hwf : wf rs) (before : Z -> bool).
(** The elements that are not before the target are behind those that are. *)
Context (Hmono : forall x y, x < y -> before y = true -> before x = true).

Lemma search_loop_spec fuel first len :
  valid rs first -> 0 <= len < 2 ^ (Z.of_nat fuel - 1) -> rank rs first + len <= total rs ->
  (forall i x, (i < Z.to_nat (rank rs first))%nat -> elements_of rs !! i = Some x -> before x = true) ->
  (forall i x, (Z.to_nat (rank rs first + len) <= i)%nat -> elements_of rs !! i = Some x -> before x = false) ->
  exists j, search_loop rs fuel before first len = Ret j /\ valid rs j /\
    rank rs j = Z.of_nat (partition_point before (elements_of rs)).
Proof.
  revert first len. induction fuel as [|fuel IH]; intros first len Hv Hlen Hle Hlo Hhi; [cbn in Hlen; lia|].
  cbn [search_loop]. pose proof (valid_rank _ _ Hwf Hv) as Hr. pose proof (total_elements _ _ Hwf) as Ht. destruct (Z.eqb_spec len 0) as [->|Hne].
  { exists first. split; [done|]. split; [done|]. rewrite (partition_point_unique _ _ (Z.to_nat (rank rs first))); [lia|lia|done|].
    intros x Hx. apply (Hhi (Z.to_nat (rank rs first))); [lia|done]. }
  cbv zeta. pose proof (Z.div_mod len 2 ltac:(done)). pose proof (Z.mod_pos_bound len 2 ltac:(done)). set (half := len `div` 2) in *.
  assert (2 ^ (Z.of_nat (S fuel) - 1) = 2 * 2 ^ (Z.of_nat fuel - 1)) as Hpow.
  { rewrite <- Z.pow_succ_r; [f_equal; lia|]. destruct fuel; [cbn in Hlen; lia|lia]. }
  assert (inside rs first) as Hin by (destruct Hv as [|E]; [done|rewrite E, end_rank in Hle; lia]).
  destruct (advance_spec rs (S (length rs)) half first Hwf Hin) as (m & -> & Hm & Hmr); [lia..|].
  destruct (deref_spec _ _ Hwf Hm) as (x & -> & Hx). pose proof (inside_rank _ _ Hwf Hm). destruct (before x) eqn:Eb.
  - destruct (incr_spec _ _ Hwf Hm) as (f & -> & Hf & Hfr). apply IH; [done|lia|lia| |].
    + intros i y Hi Hy. destruct (decide (i = Z.to_nat (rank rs m))) as [->|]; [congruence|].
      apply (Hmono _ x); [|done]. apply (elements_ascending _ _ _ _ _ _ Hwf Hy Hx). lia.
    + intros i y Hi Hy. apply (Hhi i); [lia|done].
  - apply IH; [done|lia|lia|done|]. intros i y Hi Hy. destruct (decide (i = Z.to_nat (rank rs m))) as [->|]; [congruence|].
    apply not_true_is_false. intros Hb. assert (before x = true); [|congruence]. apply (Hmono _ y); [|done].
    apply (elements_ascending _ _ _ _ _ _ Hwf Hx Hy). lia.
Qed.

Lemma search_spec : exists j, search rs before = Ret j /\ valid rs j /\ rank rs j = Z.of_nat (partition_point before (elements_of rs)).
Proof.
  unfold search. pose proof (total_u64 _ Hwf). pose proof (total_elements _ _ Hwf) as Ht.
  rewrite distance_spec; [|by right|apply start_valid; [done|lia]].
  unfold begin. rewrite rank_begin, end_rank, u64_small by u64_lia. apply search_loop_spec.
  - apply start_valid; [done|lia].
  - change (2 ^ (Z.of_nat 65 - 1)) with (u64_max + 1). lia.
  - rewrite rank_begin. lia.
  - rewrite rank_begin. intros i x Hi. lia.
  - rewrite rank_begin. intros i x Hi Hx. apply lookup_lt_Some in Hx. lia.
Qed.
End Search.

Lemma search_splits rs before :
  wf rs -> (forall x y, x < y -> before y = true -> before x = true) ->
  exists j, search rs before = Ret j /\
    ((exists x, deref rs j = Ret x /\ mem x rs /\ before x = false /\ forall y, mem y rs -> before y = false -> x <= y) \/
     (j = end_ rs /\ forall y, mem y rs -> before y = true)).
Proof.
  intros Hwf Hmono. destruct (search_spec rs Hwf before Hmono) as (j & Hj & Hv & Hr). exists j. split; [done|].
  destruct (partition_point_split before (elements_of rs)) as (pre & post & E & Hn & Hpre & Hpost). rewrite Hn in Hr.
  assert (Hin : forall y, mem y rs -> before y = false -> y ∈ post).
  { intros y Hy%elements_mem Hb. rewrite E in Hy. apply elem_of_app in Hy as [Hy|]; [|done].
    rewrite Forall_forall in Hpre. rewrite Hpre in Hb by done. done. }
  pose proof (total_elements _ _ Hwf) as Ht. destruct Hv as [Hi| ->].
  - left. destruct (deref_spec _ _ Hwf Hi) as (x & Hd & Hx). exists x. split; [done|]. split; [by apply elements_mem, (list_elem_of_lookup_2 _ _ _ Hx)|].
    rewrite Hr, Nat2Z.id, E, lookup_app_r, Nat.sub_diag in Hx by done. destruct post as [|z post]; [done|]. injection Hx as ->.
    split; [by apply Hpost|]. intros y Hy Hb. apply (Hin y Hy), list_elem_of_lookup in Hb as [[|k] Hk]; [injection Hk as ->; lia|].
    apply Z.lt_le_incl. eapply (elements_ascending 0 rs (length pre) (length pre + S k)); [done| | |lia]; rewrite E.
    + rewrite lookup_app_r, Nat.sub_diag by done. done.
    + rewrite lookup_app_r by lia. by replace (length pre + S k - length pre)%nat with (S k) by lia.
  - right. split; [done|]. rewrite end_rank in Hr. rewrite E, length_app in Ht. assert (post = []) as -> by (apply nil_length_inv; lia).
    intros y Hy. destruct (before y) eqn:Eb; [done|]. by apply (Hin y Hy), not_elem_of_nil in Eb.
Qed.

(** The binary searches over the elements of a set, which step through its ranges, end and return an iterator to the
    smallest element that is not below, respectively above, the value, or the end when there is none. *)
Theorem searches_find rs t :
  wf rs ->
  (exists j, lower_bound rs t = Ret j /\
     ((exists x, deref rs j = Ret x /\ mem x rs /\ t <= x /\ forall y, mem y rs -> t <= y -> x <= y) \/
      (j = end_ rs /\ forall y, mem y rs -> y < t))) /\
  (exists j, upper_bound rs t = Ret j /\
     ((exists x, deref rs j = Ret x /\ mem x rs /\ t < x /\ forall y, mem y rs -> t < y -> x <= y) \/
      (j = end_ rs /\ forall y, mem y rs -> y <= t))).
Proof.
  intros Hwf. split.
  - destruct (search_splits rs (fun x => x <? t) Hwf) as (j & Hj & H); [intros; lia|]. exists j. split; [done|].
    destruct H as [(x & Hd & Hm & Hb & Hl)|[-> H]]; [left; exists x|right]; split_and!; [done..|lia| |done|].
    + intros y Hy Ht. apply Hl; [done|lia].
    + intros y Hy. specialize (H y Hy). lia.
  - destruct (search_splits rs (fun x => negb (t <? x)) Hwf) as (j & Hj & H); [intros; lia|]. exists j. split; [done|].
    destruct H as [(x & Hd & Hm & Hb & Hl)|[-> H]]; [left; exists x|right]; split_and!; [done..|lia| |done|].
    + intros y Hy Ht. apply Hl; [done|lia].
    + intros y Hy. specialize (H y Hy). lia.
Qed.

Lemma searches_find_witness :
  lower_bound [(5, 2); (9, 0); (20, 3)] 8 = Ret (MkIterator 1 0) /\ upper_bound [(5, 2); (9, 0); (20, 3)] 21 = Ret (MkIterator 2 2) /\
  (exists j, lower_bound [(5, 2); (9, 0); (20, 3)] 8 = Ret j /\ deref [(5, 2); (9, 0); (20, 3)] j = Ret 9).
Proof.
  split; [reflexivity|]. split; [reflexivity|].
  destruct (searches_find [(5, 2); (9, 0); (20, 3)] 8) as [(j & Hj & H) _]; [cbn; unfold u64_max; rewrite u64_modulus_eq; lia|].
  exists j. split; [exact Hj|]. destruct H as [(x & Hd & Hm & Hle & Hl)|[_ H]].
  - rewrite Hd. f_equal. pose proof (Hl 9 ltac:(cbn; unfold within; cbn; lia) ltac:(lia)). cbn in Hm. unfold within in Hm. cbn in Hm. lia.
  - specialize (H 9 ltac:(cbn; unfold within; cbn; lia)). lia.
Defined.

(** ** Construction *)

(** Ascending values from [lo] on. *)
Fixpoint strictly (lo : Z) (l : list Z) : Prop :=
  match l with
  | [] => True
  | x :: l => lo <= x < u64_max /\ strictly (x + 1) l
  end.

Lemma strictly_sorted lo l : strictly lo l -> is_sorted l = true.
Proof.
  revert lo. induction l as [|x [|y l] IH]; intros lo; [done..|]. intros [Hx H]. specialize (IH _ H). destruct H as [Hy _].
  change (is_sorted (x :: y :: l)) with ((x <=? y) && is_sorted (y :: l)). rewrite IH. lia.
Qed.

(** The first run of successors. *)
Lemma adjacent_find_spec lo x l :
  strictly lo (x :: l) -> 0 <= lo ->
  match adjacent_find (x :: l) with
  | None => x :: l = seqZ x (Z.of_nat (length (x :: l)))
  | Some k => (k < length l)%nat /\ take (S k) (x :: l) = seqZ x (Z.of_nat k + 1) /\ strictly (x + Z.of_nat k + 2) (drop (S k) (x :: l)) /\
      x + Z.of_nat k < u64_max
  end.
Proof.
  revert lo x. induction l as [|y l IH]; intros lo x [Hx H] Hlo; [done|].
  change (adjacent_find (x :: y :: l)) with (if negb (u64 (x + 1) =? y) then Some O else S <$> adjacent_find (y :: l)).
  rewrite u64_small by u64_lia. pose proof H as Hy. destruct Hy as [Hy Hl]. destruct (Z.eqb_spec (x + 1) y) as [E|E]; cbn [negb].
  - specialize (IH _ _ H ltac:(lia)). destruct (adjacent_find (y :: l)) as [k|]; cbn [fmap option_fmap option_map].
    + destruct IH as (Hk & Htake & Hs & Hm). cbn [take drop length] in *. split_and!; [lia| | |lia].
      * rewrite Htake, (seqZ_cons x) by lia. f_equal. f_equal; lia.
      * by replace (x + Z.of_nat (S k) + 2) with (y + Z.of_nat k + 2) by lia.
    + rewrite (seqZ_cons x) by (cbn; lia). f_equal. rewrite IH at 1. f_equal; [lia|]. cbn [length]. lia.
  - cbn [take drop length]. split_and!; [lia|done| |lia]. split; [lia|done].
Qed.

Lemma init_loop_spec fuel lo l :
  strictly lo l -> 0 <= lo -> (length l <= fuel)%nat -> wf_from lo (init_loop fuel l) /\ elements_of (init_loop fuel l) = l.
Proof.
  revert lo l. induction fuel as [|fuel IH]; intros lo [|x l] Hs Hlo Hf; cbn [init_loop]; [done|cbn in Hf; lia|done|].
  pose proof (adjacent_find_spec lo x l Hs Hlo) as H. destruct (adjacent_find (x :: l)) as [k|].
  - destruct H as (Hk & Htake & Hd & Hm). destruct Hs as [Hx _]. destruct (IH _ _ Hd) as [Hw He]; [lia|rewrite length_drop; cbn in *; lia|]. split.
    + cbn [wf_from fst snd]. split_and!; [lia..|done].
    + unfold elements_of in *. cbn [mbind list_bind fst snd]. rewrite He, <- Htake. apply take_drop.
  - assert (x + (Z.of_nat (length (x :: l)) - 1) < u64_max) as Hlast.
    { assert (Hall : forall lo l y, strictly lo l -> y ∈ l -> y < u64_max).
      { clear. intros lo l. revert lo. induction l as [|z l IH]; intros lo y Hs Hy; [by apply not_elem_of_nil in Hy|].
        destruct Hs as [Hz Hs]. apply elem_of_cons in Hy as [->|Hy]; [lia|by apply (IH (z + 1))]. }
      apply (Hall lo (x :: l)); [done|]. assert (Hin : x + (Z.of_nat (length (x :: l)) - 1) ∈ seqZ x (Z.of_nat (length (x :: l)))).
      { apply elem_of_seqZ. cbn [length]. lia. }
      by rewrite <- H in Hin. }
    destruct Hs as [Hx _]. split; [cbn [wf_from fst snd]; split_and!; [lia|cbn [length]; lia|lia|done]|].
    unfold elements_of. cbn [mbind list_bind fst snd]. rewrite app_nil_r. rewrite H at 2. f_equal. lia.
Qed.

(** A set from ascending values has them as its elements. *)
Lemma init_spec l : strictly 0 l -> exists rs, init_from_iterators l = Ret rs /\ wf rs /\ elements_of rs = l.
Proof.
  intros Hs. unfold init_from_iterators. rewrite (strictly_sorted _ _ Hs). eexists. split; [done|]. by apply init_loop_spec.
Qed.

(** [size] counts modulo [2 ^ 32]. *)
Lemma size_spec rs : size rs = u32 (total rs).
Proof.
  unfold size. enough (forall a, 0 <= a < 2 ^ 32 -> foldl (fun n (r : Range) => u32 (n + r.2 + 1)) a rs = u32 (a + total rs)) as H by (by rewrite H).
  induction rs as [|r rs IH]; intros a Ha; cbn; [rewrite Z.add_0_r; symmetry; by apply u32_small|].
  rewrite IH by (unfold u32; apply Z.mod_pos_bound; lia). unfold u32. rewrite Zplus_mod_idemp_l. f_equal. lia.
Qed.
