(* ===== verification/Channels.v ===== *)
(** Channels between two nodes: src/node/channels.h ([Channel]), with the key exchange context of
    src/crypto/key_exchange.h.

    A channel is an object of one enclave; its functions run one at a time.  What the cryptographic library computes is the
    class [ChannelCrypto]; a draw of entropy is numbered, and [draws] counts the draws so far.  The calls that leave the
    channel (signatures, keys, messages to the host) are kept in [trace].  The clock and the number of the thread that
    makes a call are fields the environment sets.  The code is that of a release build: [assert] checks nothing. *)

From S2P Require Import Prelude Serialized SymmetricKey.

(** ** The cryptographic library *)

Class ChannelCrypto := {
  KeyPair : Type;
  PublicKey : Type;
  Verifier : Type;
  (** [make_key_pair], on a draw of entropy, and [Entropy::random]. *)
  make_key_pair : nat -> KeyPair;
  random : nat -> nat -> bytes;
  public_key_raw : KeyPair -> bytes;
  key_from_raw_ec_point : bytes -> option PublicKey;
  public_raw : PublicKey -> bytes;
  derive_shared_secret : KeyPair -> PublicKey -> bytes;
  (** Signatures are randomised. *)
  sign : KeyPair -> nat -> bytes -> bytes;
  (** [make_verifier] throws on a certificate it cannot parse. *)
  make_verifier : bytes -> option Verifier;
  verify_certificate : Verifier -> bytes -> bool;
  verify_signature : Verifier -> bytes -> bytes -> bool;
  is_self_signed : Verifier -> bool;
  hkdf : nat -> bytes -> bytes -> bytes -> bytes;
  channel_aead :: Aead
}.

(** ** Nonces *)

(** [RecvNonce]: the thread in the low byte, a counter of 56 bits above it. *)
Record RecvNonce := MkRecvNonce { rn_tid : Z; rn_nonce : Z }.

Definition new_RecvNonce (nonce tid : Z) : RecvNonce := MkRecvNonce (tid `mod` 256) (nonce `mod` 2 ^ 56).

Definition RecvNonce_of (header : Z) : RecvNonce := MkRecvNonce (header `mod` 256) (header `div` 256).

Definition get_val (n : RecvNonce) : Z := rn_tid n + 256 * rn_nonce n.

Inductive ChannelStatus := INACTIVE | INITIATED | WAITING_FOR_FINAL | ESTABLISHED.
#[export] Instance ChannelStatus_eq_dec : EqDecision ChannelStatus.
Proof. solve_decision. Defined.

(** [GcmHdr] is the header with an IV the size of a [MsgNonce]. *)
Definition IV_SIZE : nat := 8.

Definition get_nonce (h : GcmHdr) : RecvNonce := RecvNonce_of (le_decode (iv h)).

Abbreviation hdr_serialised_size := (gcm_serialised_size IV_SIZE).
Abbreviation hdr_deserialise := (gcm_deserialise IV_SIZE).

Definition NodeMsgType : Type := Z.
Definition channel_msg : NodeMsgType := 0.
Definition consensus_msg : NodeMsgType := 1.
Definition forwarded_msg : NodeMsgType := 2.

Definition key_exchange_init : Z := 0.
Definition key_exchange_response : Z := 1.
Definition key_exchange_final : Z := 2.

Definition protocol_version : Z := 1.
Definition default_message_limit : Z := 23726566.
Definition salt_len : nat := 32.
Definition shared_key_size : nat := 32.
Definition main_thread : Z := 0.
Definition max_num_threads : nat := 24.

Record OutgoingMsg := MkOutgoingMsg { om_type : NodeMsgType; raw_aad : bytes; raw_plain : bytes }.

Record ChannelSeqno := MkChannelSeqno { main_thread_seqno : Z; tid_seqno : Z }.
#[export] Instance eta_ChannelSeqno : Settable ChannelSeqno :=
  fun r => MkChannelSeqno (main_thread_seqno r) (tid_seqno r).

(** What leaves a channel: a signature of the node key, new message keys, and the messages [node_outbound] (with their
    arguments) and [close_node_outbound] to the host. *)
Inductive ChannelEvent :=
| Signed (msg signature : bytes)
| NewKeys (recv send : bytes)
| Outbound (to : bytes) (type : NodeMsgType) (from payload : bytes)
| CloseOutbound (to : bytes).

Section Channel.
Context `{CC : ChannelCrypto}.

(** ** [KeyExchangeContext] *)

Record KeyExchangeContext := MkKex { own_key : option KeyPair; peer_key : option PublicKey }.
#[export] Instance eta_KeyExchangeContext : Settable KeyExchangeContext := fun r => MkKex (own_key r) (peer_key r).

(** The raw point with its size, as a byte, in front. *)
Definition key_share (raw : bytes) : bytes := Z.of_nat (length raw) `mod` 256 :: raw.

Definition get_own_key_share : ST KeyExchangeContext bytes :=
  c ← get;
  match own_key c with
  | None => throw (LogicError "missing node key")
  | Some k => mret (key_share (public_key_raw k))
  end.

Definition get_peer_key_share : ST KeyExchangeContext bytes :=
  c ← get;
  match peer_key c with
  | None => throw (LogicError "missing peer key")
  | Some k => mret (key_share (public_raw k))
  end.

Definition load_peer_key_share (ks : bytes) : ST KeyExchangeContext unit :=
  if (length ks =? 0)%nat then throw (LogicError "missing peer key share") else
  match key_from_raw_ec_point (drop 1 ks) with
  | None => throw (LogicError "could not parse peer key share")
  | Some pk => peer_key <~ Some pk
  end.

Definition compute_shared_secret : ST KeyExchangeContext bytes :=
  c ← get;
  match own_key c, peer_key c with
  | None, _ => throw (LogicError "missing own key")
  | _, None => throw (LogicError "missing peer key")
  | Some k, Some pk => own_key <~ None;; peer_key <~ None;; mret (derive_shared_secret k pk)
  end.

(** ** [Channel] *)

Record Channel := MkChannel {
  self : bytes;
  service_cert : bytes;
  node_kp : KeyPair;
  node_cert : bytes;
  peer_cv : option Verifier;
  peer_cert : bytes;
  peer_id : bytes;
  kex_ctx : KeyExchangeContext;
  status : ChannelStatus;
  last_initiation_time : Z;
  hkdf_salt : bytes;
  message_limit : Z;
  recv_key : option bytes;
  send_key : option bytes;
  send_nonce : Z;
  outgoing_msg : option OutgoingMsg;
  local_recv_nonce : list ChannelSeqno;
  min_gap_between_initiation_attempts : Z;
  enclave_time : Z;
  current_tid : Z;
  draws : nat;
  trace : list ChannelEvent
}.
#[export] Instance eta_Channel : Settable Channel := fun r => MkChannel (self r) (service_cert r) (node_kp r) (node_cert r)
  (peer_cv r) (peer_cert r) (peer_id r) (kex_ctx r) (status r) (last_initiation_time r) (hkdf_salt r) (message_limit r)
  (recv_key r) (send_key r) (send_nonce r) (outgoing_msg r) (local_recv_nonce r)
  (min_gap_between_initiation_attempts r) (enclave_time r) (current_tid r) (draws r) (trace r).

Abbreviation M := (ST Channel).

Definition emit (e : ChannelEvent) : M unit := modify (fun s => s <| trace := trace s ++ [e] |>).

(** The number of the next draw of entropy. *)
Definition draw : M nat := n ← gets draws; draws <~ S n;; mret n.

Definition node_sign (msg : bytes) : M bytes :=
  n ← draw;
  s ← get;
  emit (Signed msg (sign (node_kp s) n msg));;
  mret (sign (node_kp s) n msg).

Definition kex_reset : M unit :=
  n ← draw;
  kex_ctx <~ MkKex (Some (make_key_pair n)) None.

Definition new_salt : M unit := n ← draw; hkdf_salt <~ random n salt_len.

Definition node_outbound (type : NodeMsgType) (payload : bytes) : M unit :=
  s ← get; emit (Outbound (peer_id s) type (self s) payload).

(** The constructor; [e] is the first draw of entropy it may use. *)
Definition new_Channel (service_cert : bytes) (node_kp : KeyPair) (node_cert self peer_id : bytes)
    (message_limit min_gap now tid : Z) (e : nat) : Channel :=
  {| self := self; service_cert := service_cert; node_kp := node_kp; node_cert := node_cert; peer_cv := None;
     peer_cert := []; peer_id := peer_id; kex_ctx := MkKex (Some (make_key_pair e)) None; status := INACTIVE;
     last_initiation_time := 0; hkdf_salt := random (S e) salt_len; message_limit := message_limit; recv_key := None;
     send_key := None; send_nonce := 1; outgoing_msg := None;
     local_recv_nonce := list_replicate max_num_threads (MkChannelSeqno 0 0);
     min_gap_between_initiation_attempts := min_gap; enclave_time := now; current_tid := tid; draws := S (S e);
     trace := [] |}.

(** *** Writing the fields of messages *)

Definition append_msg_type (msg_type : Z) : bytes := le_encode 8 msg_type.
Definition append_protocol_version : bytes := le_encode 8 protocol_version.
Definition append_buffer (src : bytes) : bytes := le_encode 8 (Z.of_nat (length src)) ++ src.

Definition send_key_exchange_init : M unit :=
  s ← get;
  ks ← zoom kex_ctx get_own_key_share;
  signature ← node_sign ks;
  node_outbound channel_msg
    (append_msg_type key_exchange_init ++ append_protocol_version ++ append_buffer ks ++ append_buffer signature ++
     append_buffer (node_cert s) ++ append_buffer (hkdf_salt s)).

Definition send_key_exchange_response : M unit :=
  s ← get;
  own ← zoom kex_ctx get_own_key_share;
  peer ← zoom kex_ctx get_peer_key_share;
  signature ← node_sign (own ++ peer);
  node_outbound channel_msg
    (append_msg_type key_exchange_response ++ append_protocol_version ++ append_buffer own ++ append_buffer signature ++
     append_buffer (node_cert s)).

Definition send_key_exchange_final : M unit :=
  peer ← zoom kex_ctx get_peer_key_share;
  signature ← node_sign peer;
  node_outbound channel_msg (append_msg_type key_exchange_final ++ append_buffer signature).

(** *** Connecting *)

Definition initiate : M unit :=
  kex_reset;;
  peer_cert <~ [];;
  peer_cv <~ None;;
  new_salt;;
  status <~ INITIATED;;
  now ← gets enclave_time;
  last_initiation_time <~ now;;
  send_key_exchange_init.

Definition advance_connection_attempt : M unit :=
  s ← get;
  match status s with
  | INACTIVE => initiate
  | INITIATED =>
      if min_gap_between_initiation_attempts s <=? enclave_time s - last_initiation_time s then initiate else skip
  | _ => skip
  end.

Definition reset : M unit :=
  status <~ INACTIVE;;
  kex_reset;;
  peer_cert <~ [];;
  peer_cv <~ None;;
  recv_key <~ None;;
  send_key <~ None;;
  new_salt.

Definition close_channel : M unit :=
  peer ← gets peer_id;
  emit (CloseOutbound peer);;
  reset;;
  outgoing_msg <~ None.

(** [send] once the channel is established. *)
Definition send_established (type : NodeMsgType) (aad plain : bytes) : M bool :=
  s ← get;
  let nonce := new_RecvNonce (send_nonce s) (current_tid s) in
  send_nonce <~ u64 (send_nonce s + 1);;
  match send_key s with
  | None => throw UndefinedBehaviour
  | Some k =>
      let iv := le_encode IV_SIZE (get_val nonce) in
      let '(cipher, tag) := aes_gcm_encrypt k iv plain aad in
      node_outbound type (aad ++ hdr_serialise (MkGcmHdr tag iv) ++ cipher);;
      mret true
  end.

Definition send (type : NodeMsgType) (aad plain : bytes) : M bool :=
  s ← get;
  if bool_decide (status s = ESTABLISHED) then send_established type aad plain
  else
    advance_connection_attempt;;
    outgoing_msg <~ Some (MkOutgoingMsg type aad plain);;
    mret false.

Definition derive_key (shared_secret salt label : bytes) : bytes := hkdf shared_key_size shared_secret salt label.

(** The message that was kept until the channel is established. *)
Definition send_outgoing : M unit :=
  s ← get;
  match outgoing_msg s with
  | None => skip
  | Some m => send (om_type m) (raw_aad m) (raw_plain m);; outgoing_msg <~ None
  end.

Definition establish : M unit :=
  shared_secret ← zoom kex_ctx compute_shared_secret;
  s ← get;
  let recv := derive_key shared_secret (hkdf_salt s) (peer_id s ++ self s) in
  let snd := derive_key shared_secret (hkdf_salt s) (self s ++ peer_id s) in
  recv_key <~ Some recv;;
  send_key <~ Some snd;;
  emit (NewKeys recv snd);;
  send_nonce <~ 1;;
  local_recv_nonce <~ (fun _ => MkChannelSeqno 0 0) <$> local_recv_nonce s;;
  status <~ ESTABLISHED;;
  match make_verifier (node_cert s) with
  | None => throw (LogicError "could not parse certificate")
  | Some _ => send_outgoing
  end.

(** *** Key exchange messages *)

(** Continue with what a reader leaves of a message. *)
Definition reading {A} (r : Reader A) (data : bytes) : M (A * bytes) := fun s =>
  match r data with
  | (data', Ret a) => (s, Ret (a, data'))
  | (_, Throw e) => (s, Throw e)
  end.

Definition extract_span : Reader bytes :=
  data ← get;
  if (length data =? 0)%nat then mret []
  else
    sz ← read 8;
    data ← get;
    if Z.of_nat (length data) <? sz then mret [] else take_bytes (Z.to_nat sz).

Definition empty (b : bytes) : bool := (length b =? 0)%nat.

(** The certificate with its verifier, if the service endorses it. *)
Definition verify_peer_certificate (pc : bytes) : M (option Verifier) :=
  s ← get;
  if empty pc then mret None else
  match make_verifier pc with
  | None => throw (LogicError "could not parse certificate")
  | Some verifier => mret (if verify_certificate verifier (service_cert s) then Some verifier else None)
  end.

Definition verify_peer_signature (msg sig : bytes) (verifier : option Verifier) : bool :=
  match verifier with
  | None => false
  | Some v => verify_signature v msg sig
  end.

Definition recv_key_exchange_init (data : bytes) (they_have_priority : bool) : M bool :=
  '(peer_version, data) ← reading (read 8) data;
  if negb (peer_version =? protocol_version) then mret false else
  '(ks, data) ← reading extract_span data;
  if empty ks then mret false else
  '(sig, data) ← reading extract_span data;
  if empty sig then mret false else
  '(pc, data) ← reading extract_span data;
  if empty pc then mret false else
  '(salt, data) ← reading extract_span data;
  if empty salt then mret false else
  if negb (empty data) then mret false else
  verifier ← verify_peer_certificate pc;
  if bool_decide (verifier = None) then mret false else
  if negb (verify_peer_signature ks sig verifier) then mret false else
  s ← get;
  if bool_decide (status s = INITIATED) && negb they_have_priority then mret true
  else
    (if bool_decide (status s = ESTABLISHED) then kex_reset else skip);;
    peer_cert <~ pc;;
    peer_cv <~ verifier;;
    hkdf_salt <~ salt;;
    zoom kex_ctx (load_peer_key_share ks);;
    status <~ WAITING_FOR_FINAL;;
    send_key_exchange_response;;
    mret true.

Definition recv_key_exchange_response (data : bytes) : M bool :=
  s ← get;
  if negb (bool_decide (status s = INITIATED)) then mret false else
  '(peer_version, data) ← reading (read 8) data;
  if negb (peer_version =? protocol_version) then mret false else
  '(ks, data) ← reading extract_span data;
  if empty ks then mret false else
  '(sig, data) ← reading extract_span data;
  if empty sig then mret false else
  '(pc, data) ← reading extract_span data;
  if empty pc then mret false else
  if negb (empty data) then mret false else
  verifier ← verify_peer_certificate pc;
  if bool_decide (verifier = None) then mret false else
  oks ← zoom kex_ctx get_own_key_share;
  if negb (verify_peer_signature (ks ++ oks) sig verifier) then mret false
  else
    peer_cert <~ pc;;
    peer_cv <~ verifier;;
    zoom kex_ctx (load_peer_key_share ks);;
    send_key_exchange_final;;
    establish;;
    mret true.

Definition recv_key_exchange_final (data : bytes) : M bool :=
  s ← get;
  if negb (bool_decide (status s = WAITING_FOR_FINAL)) then mret false else
  '(sig, data) ← reading extract_span data;
  if empty sig then mret false else
  oks ← zoom kex_ctx get_own_key_share;
  if negb (verify_peer_signature oks sig (peer_cv s)) then mret false
  else establish;; mret true.

Definition recv_key_exchange_message (data : bytes) : M bool :=
  catch
    (s ← get;
     '(chmsg, data) ← reading (read 8) data;
     if chmsg =? key_exchange_init then recv_key_exchange_init data (key_ltb (self s) (peer_id s))
     else if chmsg =? key_exchange_response then recv_key_exchange_response data
     else if chmsg =? key_exchange_final then recv_key_exchange_final data
     else throw (LogicError "not recognised as a key exchange message"))
    (fun _ => mret false).

(** *** Messages *)

Definition seqno_for (main : bool) (n : ChannelSeqno) : Z := if main then main_thread_seqno n else tid_seqno n.
Definition set_seqno (main : bool) (v : Z) (n : ChannelSeqno) : ChannelSeqno :=
  if main then n <| main_thread_seqno := v |> else n <| tid_seqno := v |>.

(** The thread number comes from the header; an index outside the array is undefined. *)
Definition decrypt (header : GcmHdr) (aad cipher : bytes) : M (option bytes) :=
  s ← get;
  if negb (bool_decide (status s = ESTABLISHED)) then throw (LogicError "unexpected state") else
  let recv_nonce := get_nonce header in
  let tid := Z.to_nat (rn_tid recv_nonce) in
  let main := current_tid s =? main_thread in
  match local_recv_nonce s !! tid, recv_key s with
  | None, _ => throw UndefinedBehaviour
  | Some local, key =>
      if rn_nonce recv_nonce <=? seqno_for main local then mret None else
      match key with
      | None => throw UndefinedBehaviour
      | Some key =>
          let ret := aes_gcm_decrypt key (iv header) (tag header) cipher aad in
          match ret with
          | None => skip
          | Some _ =>
              local_recv_nonce <~ <[tid := set_seqno main (rn_nonce recv_nonce) local]> (local_recv_nonce s)
          end;;
          (if message_limit s <=? u64 (send_nonce s + rn_nonce recv_nonce) then reset;; initiate else skip);;
          mret ret
      end
  end.

Definition verify (header : GcmHdr) (aad : bytes) : M bool :=
  r ← decrypt header aad []; mret (bool_decide (r <> None)).

(** The data that is left when the message is accepted. *)
Definition recv_authenticated (aad data : bytes) : M (option bytes) :=
  s ← get;
  if negb (bool_decide (status s = ESTABLISHED)) then advance_connection_attempt;; mret None
  else
    '(hdr, data) ← reading hdr_deserialise data;
    ok ← verify hdr aad;
    mret (if (ok : bool) then Some data else None).

Definition recv_authenticated_with_load (data : bytes) : M (option bytes) :=
  s ← get;
  if negb (bool_decide (status s = ESTABLISHED)) then advance_connection_attempt;; mret None
  else
    '(_, data_) ← reading (skip_bytes (u64 (Z.of_nat (length data) - hdr_serialised_size))) data;
    '(hdr, _) ← reading hdr_deserialise data_;
    let payload := take (length data - Z.to_nat hdr_serialised_size) data in
    ok ← verify hdr payload;
    mret (if (ok : bool) then Some payload else None).

Definition recv_encrypted (aad data : bytes) : M (option bytes) :=
  s ← get;
  if negb (bool_decide (status s = ESTABLISHED)) then advance_connection_attempt;; mret None
  else
    '(hdr, data) ← reading hdr_deserialise data;
    decrypt hdr aad data.

End Channel.
