(* ===== verification/ChannelManager.v ===== *)
(** The channels of a node: src/node/node_to_node_channel_manager.h, with the templates of src/node/node_to_node.h over
    them.

    Channels refer to the certificates of the manager, so that a new certificate of the node is seen by all of them.  The
    manager owns the numbering of entropy and passes its clock and thread to the channel that runs. *)

From S2P Require Import Prelude Serialized SymmetricKey Channels.

Section ChannelManager.
Context `{CC : ChannelCrypto}.

Record ThisNode := MkThisNode {
  node_id : bytes;
  tn_service_cert : bytes;
  tn_node_kp : KeyPair;
  endorsed_node_cert : option bytes
}.
#[export] Instance eta_ThisNode : Settable ThisNode :=
  fun r => MkThisNode (node_id r) (tn_service_cert r) (tn_node_kp r) (endorsed_node_cert r).

Record ChannelManager := MkChannelManager {
  channels : gmap bytes Channel;
  this_node : option ThisNode;
  mgr_message_limit : Z;
  (** The messages [associate_node_address] to the host. *)
  addresses : list (bytes * bytes * bytes);
  mgr_min_gap : Z;
  mgr_time : Z;
  mgr_tid : Z;
  mgr_draws : nat
}.
#[export] Instance eta_ChannelManager : Settable ChannelManager := fun r => MkChannelManager (channels r) (this_node r)
  (mgr_message_limit r) (addresses r) (mgr_min_gap r) (mgr_time r) (mgr_tid r) (mgr_draws r).

Abbreviation M := (ST ChannelManager).

Definition new_ChannelManager (min_gap now tid : Z) (e : nat) : ChannelManager :=
  {| channels := ∅; this_node := None; mgr_message_limit := default_message_limit; addresses := [];
     mgr_min_gap := min_gap; mgr_time := now; mgr_tid := tid; mgr_draws := e |}.

(** [get_channel], which creates the channel of a peer it does not know. *)
Definition get_channel (peer_id : bytes) : M Channel :=
  m ← get;
  match channels m !! peer_id with
  | Some c => mret c
  | None =>
      match this_node m with
      | None => throw UndefinedBehaviour
      | Some n =>
          match endorsed_node_cert n with
          | None => throw BadOptionalAccess
          | Some cert =>
              let c := new_Channel (tn_service_cert n) (tn_node_kp n) cert (node_id n) peer_id (mgr_message_limit m)
                         (mgr_min_gap m) (mgr_time m) (mgr_tid m) (mgr_draws m) in
              channels <~ <[peer_id := c]> (channels m);;
              mgr_draws <~ draws c;;
              mret c
          end
      end
  end.

(** A call of a channel's function. *)
Definition on_channel {A} (peer_id : bytes) (f : ST Channel A) : M A :=
  c ← get_channel peer_id;
  m ← get;
  let '(c', o) := f (c <| enclave_time := mgr_time m |> <| current_tid := mgr_tid m |> <| draws := mgr_draws m |>) in
  channels <~ <[peer_id := c']> (channels m);;
  mgr_draws <~ draws c';;
  match o with Ret a => mret a | Throw e => throw e end.

(** Nodes with a self-signed certificate do not get channels. *)
Definition initialize (self_id service_cert : bytes) (node_kp : KeyPair) (node_cert : option bytes) : M unit :=
  match node_cert with
  | Some cert =>
      match make_verifier cert with
      | None => throw (LogicError "could not parse certificate")
      | Some v =>
          if is_self_signed v then skip
          else this_node <~ Some (MkThisNode self_id service_cert node_kp node_cert)
      end
  | None => this_node <~ Some (MkThisNode self_id service_cert node_kp node_cert)
  end.

Definition set_endorsed_node_cert (cert : bytes) : M unit :=
  m ← get;
  match this_node m with
  | None => throw UndefinedBehaviour
  | Some n =>
      this_node <~ Some (n <| endorsed_node_cert := Some cert |>);;
      channels <~ (fun c => c <| node_cert := cert |>) <$> channels m
  end.

Definition set_message_limit (limit : Z) : M unit := mgr_message_limit <~ limit.

Definition associate_node_address (peer_id hostname service : bytes) : M unit :=
  modify (fun m => m <| addresses := addresses m ++ [(peer_id, hostname, service)] |>).

Definition mgr_close_channel (peer_id : bytes) : M unit := on_channel peer_id close_channel.

Definition have_channel (peer_id : bytes) : M bool := gets (fun m => bool_decide (channels m !! peer_id <> None)).

Definition get_status (peer_id : bytes) : M ChannelStatus := c ← get_channel peer_id; mret (status c).

Definition send_authenticated (to : bytes) (type : NodeMsgType) (data : bytes) : M bool :=
  on_channel to (send type data []).

Definition send_encrypted (to : bytes) (type : NodeMsgType) (header data : bytes) : M bool :=
  on_channel to (send type header data).

Definition mgr_recv_authenticated (from header data : bytes) : M (option bytes) :=
  on_channel from (recv_authenticated header data).

Definition mgr_recv_authenticated_with_load (from data : bytes) : M (option bytes) :=
  on_channel from (recv_authenticated_with_load data).

Definition mgr_recv_encrypted (from header data : bytes) : M bytes :=
  plain ← on_channel from (recv_encrypted header data);
  match plain with
  | None => throw DroppedMessage
  | Some plain => mret plain
  end.

Definition recv_channel_message (from data : bytes) : M bool := on_channel from (recv_key_exchange_message data).

(** ** The templates over the type [T] of the header, given by its size: the header and the data behind it. *)

(** [std::span<const uint8_t> ts(data, sizeof(T))] is formed before the size is checked, and not used when it is too
    short. *)
Definition recv_authenticated_T (sizeof : nat) (from data : bytes) : M (bytes * bytes) :=
  if (length data <? sizeof)%nat then throw insufficient_space else
  r ← mgr_recv_authenticated from (take sizeof data) (drop sizeof data);
  match r with
  | None => throw DroppedMessage
  | Some rest => mret (take sizeof data, rest)
  end.

Definition recv_authenticated_with_load_T (sizeof : nat) (from data : bytes) : M (bytes * bytes) :=
  if (length data <? sizeof)%nat then throw insufficient_space else
  r ← mgr_recv_authenticated_with_load from data;
  match r with
  | None => throw DroppedMessage
  | Some payload =>
      if (length payload <? sizeof)%nat then throw insufficient_space
      else mret (take sizeof data, drop sizeof payload)
  end.

Definition recv_encrypted_T (sizeof : nat) (from data : bytes) : M (bytes * bytes) :=
  if (length data <? sizeof)%nat then throw insufficient_space else
  plain ← mgr_recv_encrypted from (take sizeof data) (drop sizeof data);
  mret (take sizeof data, plain).

End ChannelManager.
