(* ===== verification/ChannelProps.v ===== *)
(** What the cryptographic library promises, and what the functions of a channel do step by step: the key exchange between
    two nodes that follow it. *)

From S2P Require Import Prelude Serialized SymmetricKey Channels.

(** What the code relies on of the library: encoded public keys are read back, both sides derive the same secret,
    decryption undoes encryption, and sizes are as documented. *)
Class CryptoLaws (CC : ChannelCrypto) := {
  public_of : KeyPair -> PublicKey;
  law_point k : key_from_raw_ec_point (public_key_raw k) = Some (public_of k);
  law_point_raw p : key_from_raw_ec_point (public_raw p) = Some p;
  law_public_raw k : public_raw (public_of k) = public_key_raw k;
  law_shared k1 k2 : derive_shared_secret k1 (public_of k2) = derive_shared_secret k2 (public_of k1);
  channel_aead_laws :: AeadLaws channel_aead;
  law_random n l : length (random n l) = l;
  (** A raw point has one size; signatures are short and not empty. *)
  point_size : nat;
  law_own_size k : length (public_key_raw k) = point_size;
  law_peer_size p : length (public_raw p) = point_size;
  law_point_size : Z.of_nat point_size < 2 ^ 32;
  law_sign_size k n m : (0 < length (sign k n m))%nat /\ Z.of_nat (length (sign k n m)) < 2 ^ 32
}.

Section ChannelProps.
Context `{CC : ChannelCrypto} `{CL : !CryptoLaws CC}.

Definition short (b : bytes) : Prop := b <> [] /\ Z.of_nat (length b) < 2 ^ 64.

(** The service endorses [cert] as the certificate of [kp]. *)
Definition endorsed (service cert : bytes) (kp : KeyPair) : Prop :=
  short cert /\ exists v, make_verifier cert = Some v /\ verify_certificate v service = true /\
  forall n m, verify_signature v m (sign kp n m) = true.

(** ** Reading the fields of messages *)

Lemma reading_word v rest (s : Channel) : 0 <= v < 2 ^ 64 -> reading (read 8) (le_encode 8 v ++ rest) s = (s, Ret (v, rest)).
Proof. intros Hv. unfold reading. by rewrite read_app. Qed.

Lemma append_buffer_length b : length (append_buffer b) = (8 + length b)%nat.
Proof. unfold append_buffer. by rewrite length_app, le_encode_length. Qed.

Lemma extract_span_buffer b rest : Z.of_nat (length b) < 2 ^ 64 -> extract_span (append_buffer b ++ rest) = (rest, Ret b).
Proof.
  intros Hb. unfold extract_span, mbind at 1, ST_bind at 1, get at 1.
  rewrite length_app, append_buffer_length. destruct (Nat.eqb_spec (8 + length b + length rest) 0); [lia|].
  unfold append_buffer. rewrite <- app_assoc.
  unfold mbind at 1, ST_bind at 1. rewrite (read_app 8) by lia.
  unfold mbind, ST_bind, get. rewrite length_app.
  destruct (Z.ltb_spec (Z.of_nat (length b + length rest)) (Z.of_nat (length b))); [lia|].
  rewrite Nat2Z.id. apply take_bytes_app.
Qed.

Lemma reading_buffer b rest (s : Channel) :
  short b -> reading extract_span (append_buffer b ++ rest) s = (s, Ret (b, rest)).
Proof. intros [_ Hb]. unfold reading. by rewrite extract_span_buffer. Qed.

Lemma reading_buffer_last b (s : Channel) : short b -> reading extract_span (append_buffer b) s = (s, Ret (b, [])).
Proof. intros Hb. rewrite <- (app_nil_r (append_buffer b)). by apply reading_buffer. Qed.

Lemma short_empty b : short b -> empty b = false.
Proof. intros [Hb _]. by destruct b. Qed.

Lemma verify_peer_certificate_run service cert kp (s : Channel) :
  endorsed service cert kp -> service_cert s = service ->
  exists v, verify_peer_certificate cert s = (s, Ret (Some v)) /\ make_verifier cert = Some v /\
    forall n m, verify_signature v m (sign kp n m) = true.
Proof.
  intros (Hshort & v & Hv & Hcert & Hsig) Hs. exists v. split; [|done].
  unfold verify_peer_certificate, mbind, ST_bind, get. by rewrite short_empty, Hv, Hs, Hcert by done.
Qed.

(** ** Key shares *)

Definition share (k : KeyPair) : bytes := key_share (public_key_raw k).

Lemma share_length k : length (share k) = S point_size.
Proof. unfold share, key_share. cbn. by rewrite law_own_size. Qed.

Lemma share_short k : short (share k).
Proof. split; [done|]. rewrite share_length. pose proof law_point_size. lia. Qed.

Lemma load_share k c : load_peer_key_share (share k) c = (c <| peer_key := Some (public_of k) |>, Ret tt).
Proof. unfold load_peer_key_share. cbn. rewrite drop_0. by rewrite law_point. Qed.

Lemma own_share_run (s : Channel) k :
  own_key (kex_ctx s) = Some k -> zoom kex_ctx get_own_key_share s = (s, Ret (share k)).
Proof. destruct s. unfold zoom, get_own_key_share, mbind, ST_bind, get. cbn. by intros ->. Qed.

Lemma sign_short k n m : short (sign k n m).
Proof. destruct (law_sign_size k n m) as [? ?]. split; [|lia]. intros E. rewrite E in *. cbn in *. lia. Qed.

Lemma random_short n : short (random n salt_len).
Proof. split; [|by rewrite law_random]. intros E. apply (f_equal length) in E. by rewrite law_random in E. Qed.

(** ** Messages of the key exchange *)

Definition init_payload (ks sig cert salt : bytes) : bytes :=
  le_encode 8 key_exchange_init ++ le_encode 8 protocol_version ++ append_buffer ks ++ append_buffer sig ++
  append_buffer cert ++ append_buffer salt.

Definition response_payload (ks sig cert : bytes) : bytes :=
  le_encode 8 key_exchange_response ++ le_encode 8 protocol_version ++ append_buffer ks ++ append_buffer sig ++
  append_buffer cert.

Definition final_payload (sig : bytes) : bytes := le_encode 8 key_exchange_final ++ append_buffer sig.

(** ** The functions of the key exchange *)

Definition initiated (s : Channel) : Channel :=
  let k := make_key_pair (draws s) in
  let salt := random (S (draws s)) salt_len in
  let sig := sign (node_kp s) (S (S (draws s))) (share k) in
  s <| kex_ctx := MkKex (Some k) None |> <| peer_cert := [] |> <| peer_cv := None |> <| hkdf_salt := salt |>
    <| status := INITIATED |> <| last_initiation_time := enclave_time s |> <| draws := S (S (S (draws s))) |>
    <| trace := (trace s ++ [Signed (share k) sig]) ++
         [Outbound (peer_id s) channel_msg (self s) (init_payload (share k) sig (node_cert s) salt)] |>.

Lemma initiate_run s : initiate s = (initiated s, Ret tt).
Proof. reflexivity. Qed.

Definition responded (k : KeyPair) (pk : PublicKey) (s : Channel) : Channel :=
  let own := share k in
  let msg := own ++ key_share (public_raw pk) in
  let sig := sign (node_kp s) (draws s) msg in
  s <| draws := S (draws s) |>
    <| trace := (trace s ++ [Signed msg sig]) ++
         [Outbound (peer_id s) channel_msg (self s) (response_payload own sig (node_cert s))] |>.

Lemma send_response_run s k pk :
  kex_ctx s = MkKex (Some k) (Some pk) -> send_key_exchange_response s = (responded k pk s, Ret tt).
Proof.
  destruct s. intros Hk. cbn in Hk. subst. reflexivity.
Qed.

Definition finalised (pk : PublicKey) (s : Channel) : Channel :=
  let msg := key_share (public_raw pk) in
  let sig := sign (node_kp s) (draws s) msg in
  s <| draws := S (draws s) |>
    <| trace := (trace s ++ [Signed msg sig]) ++
         [Outbound (peer_id s) channel_msg (self s) (final_payload sig)] |>.

Lemma send_final_run s k pk :
  kex_ctx s = MkKex (Some k) (Some pk) -> send_key_exchange_final s = (finalised pk s, Ret tt).
Proof.
  destruct s. intros Hk. cbn in Hk. subst. reflexivity.
Qed.

(** What [send] does on an established channel. *)
Definition sent (type : NodeMsgType) (key aad plain : bytes) (s : Channel) : Channel :=
  let iv := le_encode IV_SIZE (get_val (new_RecvNonce (send_nonce s) (current_tid s))) in
  let ct := aes_gcm_encrypt key iv plain aad in
  s <| send_nonce := u64 (send_nonce s + 1) |>
    <| trace := trace s ++ [Outbound (peer_id s) type (self s) (aad ++ hdr_serialise (MkGcmHdr ct.2 iv) ++ ct.1)] |>.

Lemma send_run s type key aad plain :
  status s = ESTABLISHED -> send_key s = Some key -> send type aad plain s = (sent type key aad plain s, Ret true).
Proof.
  intros Hs Hk. unfold send, mbind at 1, ST_bind at 1, get at 1. rewrite bool_decide_eq_true_2 by done.
  unfold send_established, mbind, ST_bind, get, assign, modify. rewrite Hk. unfold sent.
  destruct (aes_gcm_encrypt _ _ _ _) as [cipher tag] eqn:E. reflexivity.
Qed.

(** Both keys of a session, from its secret and salt. *)
Definition keyed (secret : bytes) (s : Channel) : Channel :=
  s <| kex_ctx := MkKex None None |>
    <| recv_key := Some (derive_key secret (hkdf_salt s) (peer_id s ++ self s)) |>
    <| send_key := Some (derive_key secret (hkdf_salt s) (self s ++ peer_id s)) |>
    <| trace := trace s ++ [NewKeys (derive_key secret (hkdf_salt s) (peer_id s ++ self s))
                              (derive_key secret (hkdf_salt s) (self s ++ peer_id s))] |>
    <| send_nonce := 1 |> <| local_recv_nonce := (fun _ => MkChannelSeqno 0 0) <$> local_recv_nonce s |>
    <| status := ESTABLISHED |>.

(** The message that was waiting is sent first. *)
Definition flushed (s : Channel) : Channel :=
  match outgoing_msg s, send_key s with
  | Some m, Some key => (sent (om_type m) key (raw_aad m) (raw_plain m) s) <| outgoing_msg := None |>
  | _, _ => s
  end.

Lemma send_outgoing_run s key :
  status s = ESTABLISHED -> send_key s = Some key -> send_outgoing s = (flushed s, Ret tt).
Proof.
  intros Hs Hk. unfold send_outgoing, flushed, mbind at 1, ST_bind at 1, get. rewrite Hk.
  destruct (outgoing_msg s) as [m|]; [|done]. by rewrite (run_bind _ _ _ _ _ (send_run s _ _ _ _ Hs Hk)).
Qed.

Lemma establish_run s k pk v :
  kex_ctx s = MkKex (Some k) (Some pk) -> make_verifier (node_cert s) = Some v ->
  establish s = (flushed (keyed (derive_shared_secret k pk) s), Ret tt).
Proof.
  intros Hk Hv. rewrite <- (send_outgoing_run (keyed _ s) _ eq_refl eq_refl). unfold establish. generalize send_outgoing. intros tail.
  erewrite run_bind.
  2:{ apply run_zoom. unfold compute_shared_secret, mbind, ST_bind, get. rewrite Hk. reflexivity. }
  transitivity (match make_verifier (node_cert s) with
    | None => throw (LogicError "could not parse certificate")
    | Some _ => tail
    end (keyed (derive_shared_secret k pk) s)); [reflexivity|].
  by rewrite Hv.
Qed.

(** ** Receiving the messages of the key exchange *)

(** A channel that takes part in a new exchange: an established one makes a new key for it. *)
Definition rekeyed (s : Channel) : Channel :=
  if bool_decide (status s = ESTABLISHED)
  then s <| draws := S (draws s) |> <| kex_ctx := MkKex (Some (make_key_pair (draws s))) None |> else s.

Definition waiting (k : KeyPair) (pk : PublicKey) (v : Verifier) (cert salt : bytes) (s : Channel) : Channel :=
  s <| peer_cert := cert |> <| peer_cv := Some v |> <| hkdf_salt := salt |> <| kex_ctx := MkKex (Some k) (Some pk) |>
    <| status := WAITING_FOR_FINAL |>.

(** Which of two concurrent attempts a channel follows. *)
Definition yields (s : Channel) : Prop := status s = INITIATED -> key_ltb (self s) (peer_id s) = true.

Lemma recv_init_run s kp n k cert salt k' :
  endorsed (service_cert s) cert kp -> short salt -> yields s -> own_key (kex_ctx (rekeyed s)) = Some k' ->
  exists v, make_verifier cert = Some v /\ (forall n m, verify_signature v m (sign kp n m) = true) /\
    recv_key_exchange_message (init_payload (share k) (sign kp n (share k)) cert salt) s =
    (responded k' (public_of k) (waiting k' (public_of k) v cert salt (rekeyed s)), Ret true).
Proof.
  intros Hend Hsalt Hy Hown. destruct (verify_peer_certificate_run _ _ _ s Hend eq_refl) as (v & Hrun & Hv & Hsig).
  exists v. split; [done|]. split; [done|]. apply run_catch.
  unfold init_payload, mbind at 1, ST_bind at 1, get at 1.
  erewrite run_bind by (by apply reading_word). cbv beta iota. cbn [Z.eqb key_exchange_init].
  unfold recv_key_exchange_init.
  erewrite run_bind by (by apply reading_word). cbv beta iota. cbn [Z.eqb negb protocol_version Pos.eqb].
  erewrite run_bind by (by apply reading_buffer, share_short). cbv beta iota. rewrite short_empty by apply share_short.
  erewrite run_bind by (by apply reading_buffer, sign_short). cbv beta iota. rewrite short_empty by apply sign_short.
  erewrite run_bind by (apply reading_buffer, Hend). cbv beta iota. rewrite short_empty by apply Hend.
  erewrite run_bind by (by apply reading_buffer_last). cbv beta iota. rewrite short_empty by done.
  cbn [empty length Nat.eqb negb].
  erewrite run_bind by exact Hrun. cbv beta iota. rewrite bool_decide_eq_false_2 by done.
  unfold verify_peer_signature. rewrite Hsig. cbn [negb].
  unfold mbind at 1, ST_bind at 1, get at 1.
  assert (bool_decide (status s = INITIATED) && negb (key_ltb (self s) (peer_id s)) = false) as ->.
  { destruct (decide (status s = INITIATED)) as [Hi|Hi]; [rewrite (Hy Hi); by rewrite andb_false_r|].
    by rewrite bool_decide_eq_false_2. }
  assert (Hre : (if bool_decide (status s = ESTABLISHED) then kex_reset else skip) s = (rekeyed s, Ret tt)).
  { unfold rekeyed. by destruct (bool_decide _). }
  erewrite run_bind by exact Hre. cbv beta iota. clear Hre Hrun Hend Hy. generalize dependent (rekeyed s). clear s. intros s Hown.
  unfold mbind at 1, ST_bind at 1, assign at 1, modify at 1. unfold mbind at 1, ST_bind at 1, assign at 1, modify at 1.
  unfold mbind at 1, ST_bind at 1, assign at 1, modify at 1.
  erewrite run_bind by (apply run_zoom, load_share). cbv beta iota.
  unfold mbind at 1, ST_bind at 1, assign at 1, modify at 1.
  erewrite run_bind; [|apply (send_response_run _ k' (public_of k))].
  - destruct s as [? ? ? ? ? ? ? [? ?]]. cbn in Hown. subst. reflexivity.
  - destruct s as [? ? ? ? ? ? ? [? ?]]. cbn in Hown. subst. reflexivity.
Qed.

Lemma recv_response_run s kp n k cert k' v' :
  status s = INITIATED -> own_key (kex_ctx s) = Some k' -> endorsed (service_cert s) cert kp ->
  make_verifier (node_cert s) = Some v' ->
  exists v, make_verifier cert = Some v /\
    recv_key_exchange_message (response_payload (share k) (sign kp n (share k ++ share k')) cert) s =
    (flushed (keyed (derive_shared_secret k' (public_of k))
       (finalised (public_of k) (s <| peer_cert := cert |> <| peer_cv := Some v |>
          <| kex_ctx := MkKex (Some k') (Some (public_of k)) |>))), Ret true).
Proof.
  intros Hs Hown Hend Hv'. destruct (verify_peer_certificate_run _ _ _ s Hend eq_refl) as (v & Hrun & Hv & Hsig).
  exists v. split; [done|]. apply run_catch.
  unfold response_payload, mbind at 1, ST_bind at 1, get at 1.
  erewrite run_bind by (by apply reading_word). cbv beta iota. cbn [Z.eqb key_exchange_init key_exchange_response Pos.eqb].
  unfold recv_key_exchange_response, mbind at 1, ST_bind at 1, get at 1.
  rewrite bool_decide_eq_true_2 by done. cbn [negb].
  erewrite run_bind by (by apply reading_word). cbv beta iota. cbn [Z.eqb negb protocol_version Pos.eqb].
  erewrite run_bind by (by apply reading_buffer, share_short). cbv beta iota. rewrite short_empty by apply share_short.
  erewrite run_bind by (by apply reading_buffer, sign_short). cbv beta iota. rewrite short_empty by apply sign_short.
  erewrite run_bind by (apply reading_buffer_last, Hend). cbv beta iota. rewrite short_empty by apply Hend.
  cbn [empty length Nat.eqb negb].
  erewrite run_bind by exact Hrun. cbv beta iota. rewrite bool_decide_eq_false_2 by done.
  erewrite run_bind by (by apply own_share_run). cbv beta iota.
  unfold verify_peer_signature. rewrite Hsig. cbn [negb]. clear Hrun Hend Hs.
  unfold mbind at 1, ST_bind at 1, assign at 1, modify at 1. unfold mbind at 1, ST_bind at 1, assign at 1, modify at 1.
  erewrite run_bind by (apply run_zoom, load_share). cbv beta iota.
  set (s1 := _ <| kex_ctx := _ |>).
  assert (E : s1 = s <| peer_cert := cert |> <| peer_cv := Some v |> <| kex_ctx := MkKex (Some k') (Some (public_of k)) |>).
  { unfold s1. destruct s as [? ? ? ? ? ? ? [? ?]]. cbn in Hown. subst. reflexivity. }
  rewrite E. clear s1 E.
  erewrite run_bind by (by apply (send_final_run _ k')). cbv beta iota.
  erewrite run_bind; [|apply (establish_run _ k' (public_of k) v'); [reflexivity|exact Hv']]. reflexivity.
Qed.

Lemma recv_final_run s kp n k' pk v v' :
  status s = WAITING_FOR_FINAL -> kex_ctx s = MkKex (Some k') (Some pk) -> peer_cv s = Some v ->
  (forall n m, verify_signature v m (sign kp n m) = true) -> make_verifier (node_cert s) = Some v' ->
  recv_key_exchange_message (final_payload (sign kp n (share k'))) s =
  (flushed (keyed (derive_shared_secret k' pk) s), Ret true).
Proof.
  intros Hs Hk Hcv Hsig Hv'. apply run_catch. unfold final_payload, mbind at 1, ST_bind at 1, get at 1.
  erewrite run_bind by (by apply reading_word). cbv beta iota.
  cbn [Z.eqb key_exchange_init key_exchange_response key_exchange_final Pos.eqb].
  unfold recv_key_exchange_final, mbind at 1, ST_bind at 1, get at 1.
  rewrite bool_decide_eq_true_2 by done. cbn [negb].
  erewrite run_bind by (by apply reading_buffer_last, sign_short). cbv beta iota. rewrite short_empty by apply sign_short.
  erewrite run_bind by (apply (own_share_run s k'); by rewrite Hk). cbv beta iota.
  unfold verify_peer_signature. rewrite Hcv, Hsig. cbn [negb].
  by erewrite run_bind by (by apply (establish_run _ k' pk v')).
Qed.

End ChannelProps.
