(* ===== verification/ChannelHandshake.v ===== *)
(** Two channels that exchange keys with each other, and the messages between them. *)

From S2P Require Import Prelude Serialized SymmetricKey Channels ChannelProps.

Section Handshake.
Context `{CC : ChannelCrypto} `{CL : !CryptoLaws CC}.

(** Channels of two nodes of one service to each other. *)
Definition peers (a b : Channel) : Prop :=
  peer_id a = self b /\ peer_id b = self a /\
  endorsed (service_cert b) (node_cert a) (node_kp a) /\ endorsed (service_cert a) (node_cert b) (node_kp b).

(** Both ends of a session: what one sends with, the other receives with. *)
Definition crossed (a b : Channel) : Prop :=
  status a = ESTABLISHED /\ status b = ESTABLISHED /\
  (exists k, send_key a = Some k /\ recv_key b = Some k) /\ (exists k, send_key b = Some k /\ recv_key a = Some k).

(** What [send] puts behind the additional data. *)
Definition wire (key : bytes) (tid n : Z) (aad plain : bytes) : bytes :=
  let iv := le_encode IV_SIZE (get_val (new_RecvNonce n tid)) in
  let ct := aes_gcm_encrypt key iv plain aad in
  hdr_serialise (MkGcmHdr ct.2 iv) ++ ct.1.

(** ** Messages *)

Lemma nonce_round_trip n tid :
  0 <= n < 2 ^ 56 -> 0 <= tid < 256 ->
  RecvNonce_of (le_decode (le_encode IV_SIZE (get_val (new_RecvNonce n tid)))) = MkRecvNonce tid n.
Proof.
  intros Hn Ht. unfold new_RecvNonce, get_val. cbn [rn_tid rn_nonce]. rewrite !Z.mod_small by lia.
  rewrite le_decode_encode by (change (256 ^ Z.of_nat IV_SIZE) with (2 ^ 64); lia).
  unfold RecvNonce_of. f_equal.
  - rewrite (Z.mul_comm 256), Z.mod_add, Z.mod_small; lia.
  - rewrite (Z.mul_comm 256), Z.div_add, Z.div_small; lia.
Qed.

Lemma hdr_round_trip h rest (s : Channel) :
  length (tag h) = GCM_SIZE_TAG -> length (iv h) = IV_SIZE ->
  reading hdr_deserialise (hdr_serialise h ++ rest) s = (s, Ret (h, rest)).
Proof.
  intros Ht Hi. unfold reading. by rewrite gcm_header_read.
Qed.

(** What the receiver does with a message whose nonce has the value [n]. *)
Lemma decrypt_run b key tid n aad plain local :
  status b = ESTABLISHED -> recv_key b = Some key -> 0 <= n < 2 ^ 56 -> 0 <= tid < 256 ->
  local_recv_nonce b !! Z.to_nat tid = Some local ->
  u64 (send_nonce b + n) < message_limit b ->
  let iv := le_encode IV_SIZE (get_val (new_RecvNonce n tid)) in
  let ct := aes_gcm_encrypt key iv plain aad in
  let main := current_tid b =? main_thread in
  decrypt (MkGcmHdr ct.2 iv) aad ct.1 b =
  if n <=? seqno_for main local then (b, Ret None)
  else (b <| local_recv_nonce := <[Z.to_nat tid := set_seqno main n local]> (local_recv_nonce b) |>, Ret (Some plain)).
Proof.
  intros Hs Hk Hn Ht Hl Hlim iv ct main.
  assert (Hnonce : forall tg, get_nonce (MkGcmHdr tg iv) = MkRecvNonce tid n) by (intros; by apply nonce_round_trip).
  pose proof (law_decrypt key iv plain aad) as Hdec. fold ct in Hdec. clearbody iv ct. destruct ct as [cipher tag].
  unfold decrypt, mbind at 1, ST_bind at 1, get at 1. rewrite bool_decide_eq_true_2 by done. cbn [negb]. cbv zeta.
  rewrite Hnonce. cbn [rn_tid rn_nonce fst snd].
  rewrite Hl. fold main. destruct (n <=? seqno_for main local); [done|]. rewrite Hk. cbn [SymmetricKey.iv SymmetricKey.tag].
  rewrite Hdec. unfold mbind, ST_bind, assign, modify.
  destruct (Z.leb_spec (message_limit b) (u64 (send_nonce b + n))); [lia|]. reflexivity.
Qed.

(** The state of the receiver after it accepts a message. *)
Definition received (tid n : Z) (local : ChannelSeqno) (b : Channel) : Channel :=
  b <| local_recv_nonce := <[Z.to_nat tid := set_seqno (current_tid b =? main_thread) n local]> (local_recv_nonce b) |>.

Section receive.
Context (b : Channel) (key : bytes) (tid n : Z) (local : ChannelSeqno).
Context (Hs : status b = ESTABLISHED) (Hk : recv_key b = Some key) (Hn : 0 <= n < 2 ^ 56) (Ht : 0 <= tid < 256)
  (Hl : local_recv_nonce b !! Z.to_nat tid = Some local) (Hlim : u64 (send_nonce b + n) < message_limit b).

Let fresh := negb (n <=? seqno_for (current_tid b =? main_thread) local).

Lemma reading_wire aad plain :
  let ct := aes_gcm_encrypt key (le_encode IV_SIZE (get_val (new_RecvNonce n tid))) plain aad in
  reading hdr_deserialise (wire key tid n aad plain) b =
  (b, Ret (MkGcmHdr ct.2 (le_encode IV_SIZE (get_val (new_RecvNonce n tid))), ct.1)).
Proof. intros ct. apply hdr_round_trip; [apply law_tag|apply le_encode_length]. Qed.

Lemma recv_encrypted_run aad plain :
  recv_encrypted aad (wire key tid n aad plain) b =
  if fresh then (received tid n local b, Ret (Some plain)) else (b, Ret None).
Proof using All.
  unfold recv_encrypted, mbind at 1, ST_bind at 1, get at 1. rewrite bool_decide_eq_true_2 by done. cbn [negb].
  rewrite (run_bind _ _ _ _ _ (reading_wire aad plain)). cbv beta iota.
  rewrite (decrypt_run b key tid n aad plain local) by done. unfold fresh, received. by destruct (n <=? _).
Qed.

(** What follows the header is handed on without verification. *)
Lemma recv_authenticated_run aad rest :
  recv_authenticated aad (wire key tid n aad [] ++ rest) b =
  if fresh then (received tid n local b, Ret (Some rest)) else (b, Ret None).
Proof using All.
  unfold recv_authenticated, mbind at 1, ST_bind at 1, get at 1. rewrite bool_decide_eq_true_2 by done. cbn [negb].
  pose proof (law_cipher key (le_encode IV_SIZE (get_val (new_RecvNonce n tid))) [] aad) as Hc. apply nil_length_inv in Hc.
  unfold wire. rewrite Hc, app_nil_r.
  erewrite run_bind by (apply hdr_round_trip; [apply law_tag|apply le_encode_length]). cbv beta iota.
  unfold verify. pose proof (decrypt_run b key tid n aad [] local) as Hdec. cbv zeta in Hdec. rewrite Hc in Hdec.
  unfold mbind, ST_bind. rewrite Hdec by done. unfold fresh, received. by destruct (n <=? _).
Qed.
End receive.

(** ** Any deliveries of the messages of a session

    [receive_all] is what the receiver makes of messages in the order the network hands them over. *)

Fixpoint receive_all (inbox : list (bytes * bytes)) : ST Channel (list (option bytes)) :=
  match inbox with
  | [] => mret []
  | (aad, data) :: inbox => r ← recv_encrypted aad data; rs ← receive_all inbox; mret (r :: rs)
  end.

(** Of a sequence of numbered values, those whose number exceeds all before. *)
Fixpoint increasing_only (last : Z) (l : list (Z * bytes)) : list (option bytes) :=
  match l with
  | [] => []
  | (n, v) :: l => if last <? n then Some v :: increasing_only n l else None :: increasing_only last l
  end.

Definition send_all (type : NodeMsgType) (ms : list (bytes * bytes)) : ST Channel unit :=
  foreach ms (fun m => send type m.1 m.2;; skip).

Lemma send_all_run type key ms a :
  status a = ESTABLISHED -> send_key a = Some key -> 0 <= send_nonce a -> send_nonce a + Z.of_nat (length ms) <= 2 ^ 56 ->
  exists a', send_all type ms a = (a', Ret tt) /\
    trace a' = trace a ++ imap (fun i m => Outbound (peer_id a) type (self a)
                 (m.1 ++ wire key (current_tid a) (send_nonce a + Z.of_nat i) m.1 m.2)) ms.
Proof.
  revert a. induction ms as [|[aad plain] ms IH]; intros a Hs Hk H0 Hn; cbn [length] in Hn.
  { exists a. split; [done|]. by rewrite app_nil_r. }
  destruct (IH (sent type key aad plain a)) as (a' & Hrun & Htr); [done|done|cbn; u64_lia|cbn; u64_lia|].
  exists a'. split.
  { unfold send_all in *. cbn [foreach fst snd].
    erewrite run_bind; [exact Hrun|]. by rewrite (run_bind _ _ _ _ _ (send_run a type key aad plain Hs Hk)). }
  rewrite Htr. cbn [imap]. change (trace (sent type key aad plain a)) with
    (trace a ++ [Outbound (peer_id a) type (self a) (aad ++ wire key (current_tid a) (send_nonce a) aad plain)]).
  rewrite <- app_assoc. cbn [app fst snd]. rewrite Z.add_0_r. f_equal. f_equal. apply imap_ext. intros i m _. cbn [compose].
  change (send_nonce (sent type key aad plain a)) with (u64 (send_nonce a + 1)).
  replace (u64 (send_nonce a + 1) + Z.of_nat i) with (send_nonce a + Z.of_nat (S i)) by u64_lia. reflexivity.
Qed.

Lemma receive_all_run key tid (l : list (Z * (bytes * bytes))) b local :
  status b = ESTABLISHED -> recv_key b = Some key -> 0 <= tid < 256 -> local_recv_nonce b !! Z.to_nat tid = Some local ->
  Forall (fun m => 0 <= m.1 < 2 ^ 56 /\ u64 (send_nonce b + m.1) < message_limit b) l ->
  snd (receive_all ((fun m => (m.2.1, wire key tid m.1 m.2.1 m.2.2)) <$> l) b) =
  Ret (increasing_only (seqno_for (current_tid b =? main_thread) local) ((fun m => (m.1, m.2.2)) <$> l)).
Proof.
  revert b local. induction l as [|[n [aad plain]] l IH]; intros b local Hs Hk Ht Hl Hall; [done|].
  apply Forall_cons in Hall as [[Hn Hlim] Hall]. cbn [fst snd] in *.
  cbn [fmap list_fmap receive_all increasing_only fst snd].
  pose proof (recv_encrypted_run b key tid n local Hs Hk Hn Ht Hl Hlim aad plain) as Hrun.
  rewrite Z.ltb_antisym. destruct (n <=? _) eqn:E; cbn [negb] in *.
  - rewrite (run_bind _ _ _ _ _ Hrun). specialize (IH b local Hs Hk Ht Hl Hall).
    destruct (receive_all _ b) as [b' o] eqn:Er. cbn [snd] in IH. subst o.
    by rewrite (run_bind _ _ _ _ _ Er).
  - rewrite (run_bind _ _ _ _ _ Hrun).
    specialize (IH (received tid n local b) (set_seqno (current_tid b =? main_thread) n local) Hs Hk Ht).
    change (current_tid (received tid n local b)) with (current_tid b) in IH.
    replace (seqno_for _ (set_seqno _ n local)) with n in IH by (by destruct (current_tid b =? main_thread)).
    destruct (receive_all _ (received tid n local b)) as [b' o] eqn:Er. cbn [snd] in IH. rewrite IH in Er.
    + by rewrite (run_bind _ _ _ _ _ Er).
    + cbn. apply list_lookup_insert_eq. by eapply lookup_lt_Some.
    + done.
Qed.

Lemma increasing_only_sorted last (l : list (Z * bytes)) :
  StronglySorted Z.lt (last :: l.*1) -> increasing_only last l = Some <$> l.*2.
Proof.
  revert last. induction l as [|[n v] l IH]; intros last Hs; [done|].
  inversion Hs as [|? ? Hs' Hall]; subst. cbn in *. apply Forall_cons in Hall as [Hn _].
  destruct (Z.ltb_spec last n); [|lia]. f_equal. by apply IH.
Qed.

#[export] Instance ChannelSeqno_inhabited : Inhabited ChannelSeqno := populate (MkChannelSeqno 0 0).

(** The latest nonce accepted from thread [tid] of the sender. *)
Definition last_nonce (b : Channel) (tid : Z) : Z :=
  seqno_for (current_tid b =? main_thread) (local_recv_nonce b !!! Z.to_nat tid).

(** The inbox of a receiver to which the network hands the messages [picks] of those sent. *)
Definition inbox (ms : list (bytes * bytes)) (payloads : list bytes) (picks : list nat) : list (bytes * bytes) :=
  (fun i => let aad := (ms !!! i).1 in (aad, drop (length aad) (payloads !!! i))) <$> picks.

(** C19: the messages of a session, handed over by the network in any order, any number of times or not at all: a message is
    decrypted and returned if it was sent after all those returned before it, and refused otherwise.  In
    particular messages that arrive in the order they were sent are all returned, whichever others are lost.  The session is
    short of the message limit. *)
Theorem messages_received (a b : Channel) (type : NodeMsgType) (ms : list (bytes * bytes)) :
  crossed a b -> 0 < send_nonce a -> 0 <= send_nonce b -> 0 <= current_tid a < Z.of_nat max_num_threads ->
  length (local_recv_nonce b) = max_num_threads -> send_nonce a + Z.of_nat (length ms) <= 2 ^ 56 ->
  send_nonce b + send_nonce a + Z.of_nat (length ms) <= message_limit b -> message_limit b < u64_modulus ->
  exists a' payloads,
    send_all type ms a = (a', Ret tt) /\
    trace a' = trace a ++ (Outbound (peer_id a) type (self a) <$> payloads) /\ length payloads = length ms /\
    forall picks, Forall (fun i => (i < length ms)%nat) picks ->
      snd (receive_all (inbox ms payloads picks) b) =
        Ret (increasing_only (last_nonce b (current_tid a)) ((fun i => (send_nonce a + Z.of_nat i, (ms !!! i).2)) <$> picks)) /\
      (StronglySorted lt picks -> last_nonce b (current_tid a) < send_nonce a ->
       snd (receive_all (inbox ms payloads picks) b) = Ret ((fun i => Some (ms !!! i).2) <$> picks)).
Proof.
  intros (Ha & Hb & (key & Hka & Hkb) & _) Hna Hnb Htid Hlen Hn Hlim Hlim64.
  destruct (send_all_run type key ms a) as (a' & Hsend & Htr); [done|done|lia|done|].
  set (wires := imap (fun i m => m.1 ++ wire key (current_tid a) (send_nonce a + Z.of_nat i) m.1 m.2) ms).
  destruct (lookup_lt_is_Some_2 (local_recv_nonce b) (Z.to_nat (current_tid a))) as [local Hl].
  { rewrite Hlen. unfold max_num_threads in *. lia. }
  exists a', wires. unfold last_nonce. rewrite (list_lookup_total_correct _ _ _ Hl).
  split; [done|]. split; [unfold wires; rewrite Htr, fmap_imap; reflexivity|].
  split; [apply length_imap|]. intros picks Hpicks.
  assert (Hres : snd (receive_all (inbox ms wires picks) b) = Ret (increasing_only
    (seqno_for (current_tid b =? main_thread) local) ((fun i => (send_nonce a + Z.of_nat i, (ms !!! i).2)) <$> picks))).
  { pose proof (receive_all_run key (current_tid a)
      ((fun i => (send_nonce a + Z.of_nat i, ms !!! i)) <$> picks) b local Hb Hkb) as Hrun.
    rewrite <- !list_fmap_compose in Hrun. unfold compose in Hrun. cbn [fst snd] in Hrun.
    rewrite <- Hrun; [|unfold max_num_threads in *; lia|done|].
    - f_equal. f_equal. unfold inbox. apply list_fmap_ext. intros ? i Hi. cbv zeta.
      apply list_elem_of_lookup_2 in Hi. eapply Forall_forall in Hpicks; [|exact Hi].
      f_equal. apply lookup_lt_is_Some_2 in Hpicks as [m Hm].
      rewrite (list_lookup_total_correct wires i (m.1 ++ wire key (current_tid a) (send_nonce a + Z.of_nat i) m.1 m.2)).
      + rewrite (list_lookup_total_correct ms i m Hm). by rewrite drop_app_length.
      + unfold wires. by rewrite list_lookup_imap, Hm.
    - apply Forall_fmap. eapply Forall_impl; [exact Hpicks|]. cbn. intros i Hi. split; [lia|].
      rewrite u64_small; lia. }
  split; [done|]. intros Hsorted Hlast. rewrite Hres, increasing_only_sorted.
  - by rewrite <- !list_fmap_compose.
  - rewrite <- list_fmap_compose. unfold compose. cbn [fst]. constructor.
    + clear -Hsorted. induction Hsorted as [|i l _ IH Hall]; cbn; constructor; [done|].
      apply Forall_fmap. eapply Forall_impl; [exact Hall|]. cbn. lia.
    + apply Forall_fmap, Forall_forall. cbn. lia.
Qed.

(** ** The key exchange *)

Lemma flushed_fields s :
  status (flushed s) = status s /\ recv_key (flushed s) = recv_key s /\ send_key (flushed s) = send_key s /\
  local_recv_nonce (flushed s) = local_recv_nonce s /\ node_cert (flushed s) = node_cert s /\
  current_tid (flushed s) = current_tid s /\ message_limit (flushed s) = message_limit s.
Proof. unfold flushed. destruct (outgoing_msg s); [|done]. destruct (send_key s) eqn:E; [|done]. by rewrite <- E. Qed.

Lemma rekeyed_own b :
  (status b <> ESTABLISHED -> own_key (kex_ctx b) <> None) -> exists k, own_key (kex_ctx (rekeyed b)) = Some k.
Proof.
  intros Hown. unfold rekeyed. destruct (decide (status b = ESTABLISHED)) as [E|E].
  - rewrite bool_decide_eq_true_2 by done. by eexists.
  - rewrite bool_decide_eq_false_2 by done. destruct (own_key (kex_ctx b)) eqn:Ek; [eauto|by destruct (Hown E)].
Qed.

Lemma rekeyed_fields b :
  self (rekeyed b) = self b /\ peer_id (rekeyed b) = peer_id b /\ node_kp (rekeyed b) = node_kp b /\
  node_cert (rekeyed b) = node_cert b /\ local_recv_nonce (rekeyed b) = local_recv_nonce b /\
  message_limit (rekeyed b) = message_limit b /\ outgoing_msg (rekeyed b) = outgoing_msg b /\
  service_cert (rekeyed b) = service_cert b.
Proof. unfold rekeyed. by destruct (bool_decide _). Qed.

(** The bytes of the last message to the host. *)
Definition last_payload (s : Channel) : bytes :=
  match last (trace s) with Some (Outbound _ _ _ payload) => payload | _ => [] end.

Lemma trace_sent type key aad plain s :
  trace (sent type key aad plain s) =
  trace s ++ [Outbound (peer_id s) type (self s) (aad ++ wire key (current_tid s) (send_nonce s) aad plain)].
Proof. reflexivity. Qed.

Lemma trace_set_outgoing (s : Channel) m : trace (s <| outgoing_msg := m |>) = trace s.
Proof. reflexivity. Qed.

Lemma keyed_fields secret s :
  outgoing_msg (keyed secret s) = outgoing_msg s /\ self (keyed secret s) = self s /\ peer_id (keyed secret s) = peer_id s /\
  current_tid (keyed secret s) = current_tid s /\ send_nonce (keyed secret s) = 1 /\
  send_key (keyed secret s) = Some (derive_key secret (hkdf_salt s) (self s ++ peer_id s)) /\
  trace (keyed secret s) = trace s ++ [NewKeys (derive_key secret (hkdf_salt s) (peer_id s ++ self s))
                                         (derive_key secret (hkdf_salt s) (self s ++ peer_id s))].
Proof. done. Qed.

Lemma trace_flushed_keyed secret s m :
  outgoing_msg s = Some m ->
  let key := derive_key secret (hkdf_salt s) (self s ++ peer_id s) in
  trace (flushed (keyed secret s)) =
  (trace s ++ [NewKeys (derive_key secret (hkdf_salt s) (peer_id s ++ self s)) key]) ++
  [Outbound (peer_id s) (om_type m) (self s) (raw_aad m ++ wire key (current_tid s) 1 (raw_aad m) (raw_plain m))].
Proof.
  intros Hm key. destruct (keyed_fields secret s) as (E1 & E2 & E3 & E4 & E5 & E6 & E7). fold key in E6, E7.
  unfold flushed. rewrite E1, Hm, E6, trace_set_outgoing, trace_sent, E2, E3, E4, E5, E7. done.
Qed.

Lemma last_payload_snoc s l to type from payload :
  trace s = l ++ [Outbound to type from payload] -> last_payload s = payload.
Proof. intros E. unfold last_payload. by rewrite E, last_snoc. Qed.

(** The second half of the exchange, from the response on. *)
Lemma finish_exchange (a w : Channel) ka kb v va m :
  peers a w -> status a = INITIATED -> own_key (kex_ctx a) = Some ka -> make_verifier (node_cert a) = Some va ->
  outgoing_msg a = Some m ->
  kex_ctx w = MkKex (Some kb) (Some (public_of ka)) -> status w = WAITING_FOR_FINAL -> peer_cv w = Some v ->
  (forall n m, verify_signature v m (sign (node_kp a) n m) = true) -> hkdf_salt w = hkdf_salt a -> outgoing_msg w = None ->
  let b := responded kb (public_of ka) w in
  let secret := derive_shared_secret ka (public_of kb) in
  let key := derive_key secret (hkdf_salt a) (self a ++ peer_id a) in
  exists a' final,
    recv_key_exchange_message (last_payload b) a = (a', Ret true) /\
    Outbound (peer_id a) channel_msg (self a) final ∈ trace a' /\
    recv_key_exchange_message final b = (keyed secret b, Ret true) /\
    crossed a' (keyed secret b) /\ recv_key (keyed secret b) = Some key /\
    last_payload a' = raw_aad m ++ wire key (current_tid a) 1 (raw_aad m) (raw_plain m).
Proof.
  intros (Hpa & Hpb & Hea & Heb) Hsa Hka Hva Hm Hkw Hsw Hcv Hsig Hsalt Hout b secret key.
  assert (Hlast : last_payload b = response_payload (share kb) (sign (node_kp w) (draws w) (share kb ++ share ka)) (node_cert w)).
  { eapply last_payload_snoc. unfold b, responded. rewrite law_public_raw. reflexivity. }
  destruct (recv_response_run a (node_kp w) (draws w) kb (node_cert w) ka va) as (v' & _ & H2); [done..|].
  set (final := final_payload (sign (node_kp a) (draws a) (share kb))).
  remember (finalised _ _) as f eqn:Ef in H2.
  assert (Htr : trace f = (trace a ++ [Signed (share kb) (sign (node_kp a) (draws a) (share kb))]) ++
                          [Outbound (peer_id a) channel_msg (self a) final]).
  { rewrite Ef. unfold finalised, final. rewrite law_public_raw. reflexivity. }
  assert (Hf : self f = self a /\ peer_id f = peer_id a /\ hkdf_salt f = hkdf_salt a /\ current_tid f = current_tid a /\
               outgoing_msg f = outgoing_msg a) by (by rewrite Ef).
  destruct Hf as (F1 & F2 & F3 & F4 & F5). clear Ef. rewrite Hm in F5.
  pose proof (trace_flushed_keyed secret f m F5) as Hfl. cbv zeta in Hfl. rewrite F1, F2, F3, F4 in Hfl. fold key in Hfl.
  destruct (flushed_fields (keyed secret f)) as (E1 & E2 & E3 & _).
  fold secret in H2. set (a2 := flushed (keyed secret f)) in *. clearbody a2.
  exists a2, final. rewrite Hlast.
  assert (Hb : kex_ctx b = kex_ctx w /\ status b = status w /\ peer_cv b = peer_cv w /\ node_cert b = node_cert w /\
    outgoing_msg b = outgoing_msg w /\ self b = self w /\ peer_id b = peer_id w /\ hkdf_salt b = hkdf_salt w) by done.
  clearbody b. destruct Hb as (B1 & B2 & B3 & B4 & B5 & B6 & B7 & B8).
  assert (Hfinal : recv_key_exchange_message final b = (keyed secret b, Ret true)).
  { assert (exists vb, make_verifier (node_cert w) = Some vb) as [vb Hvb] by (destruct Heb as (_ & vb & ? & _); eauto).
    unfold final. rewrite (recv_final_run b (node_kp a) (draws a) kb (public_of ka) v vb) by congruence.
    unfold flushed. destruct (keyed_fields (derive_shared_secret kb (public_of ka)) b) as (-> & _).
    unfold secret. by rewrite B5, Hout, law_shared. }
  assert (Hkeys : recv_key (keyed secret b) = Some key /\
    send_key (keyed secret b) = Some (derive_key secret (hkdf_salt a) (peer_id a ++ self a))).
  { change (Some (derive_key secret (hkdf_salt b) (peer_id b ++ self b)) = Some key /\
      Some (derive_key secret (hkdf_salt b) (self b ++ peer_id b)) = Some (derive_key secret (hkdf_salt a) (peer_id a ++ self a))).
    by rewrite B6, B7, B8, Hsalt, Hpb, <- Hpa. }
  split; [exact H2|]. split; [|split; [exact Hfinal|split; [|split; [apply Hkeys|]]]].
  - rewrite Hfl, Htr, !elem_of_app. left. left. right. by left.
  - split; [by rewrite E1|]. split; [done|]. rewrite E2, E3. destruct Hkeys as [-> ->].
    cbn [keyed]. change (send_key (keyed secret f)) with (Some (derive_key secret (hkdf_salt f) (self f ++ peer_id f))).
    change (recv_key (keyed secret f)) with (Some (derive_key secret (hkdf_salt f) (peer_id f ++ self f))).
    rewrite F1, F2, F3. split; eauto.
  - eapply last_payload_snoc, Hfl.
Qed.

(** C18: a node that sends a message over a channel that is not in use, to a peer in any state but that of an
    attempt with priority over this one, starts a key exchange; when the three messages of the exchange are delivered,
    both ends are established with the same two keys, and the message that was waiting, delivered next, is returned
    by the peer as it was sent. *)
Theorem handshake_establishes (a b : Channel) (type : NodeMsgType) (aad plain : bytes) :
  peers a b -> status a = INACTIVE -> yields b -> (status b <> ESTABLISHED -> own_key (kex_ctx b) <> None) ->
  0 <= current_tid a < Z.of_nat max_num_threads -> length (local_recv_nonce b) = max_num_threads ->
  3 <= message_limit b -> message_limit b < u64_modulus -> outgoing_msg b = None ->
  exists a1 a2 b1 b2 b3 final,
    send type aad plain a = (a1, Ret false) /\
    recv_key_exchange_message (last_payload a1) b = (b1, Ret true) /\
    recv_key_exchange_message (last_payload b1) a1 = (a2, Ret true) /\
    Outbound (peer_id a) channel_msg (self a) final ∈ trace a2 /\
    recv_key_exchange_message final b1 = (b2, Ret true) /\
    crossed a2 b2 /\
    recv_encrypted aad (drop (length aad) (last_payload a2)) b2 = (b3, Ret (Some plain)).
Proof.
  intros (Hpa & Hpb & Hea & Heb) Hsa Hy Hown Htid Hlen Hlim Hlim64 Hout.
  assert (exists va, make_verifier (node_cert a) = Some va) as [va Hva] by (destruct Hea as (_ & v & ? & _); eauto).
  set (m := MkOutgoingMsg type aad plain). set (a1 := (initiated a) <| outgoing_msg := Some m |>).
  assert (H1 : send type aad plain a = (a1, Ret false)).
  { unfold send, advance_connection_attempt, mbind, ST_bind, get. rewrite bool_decide_eq_false_2 by (by rewrite Hsa).
    rewrite Hsa, initiate_run. reflexivity. }
  assert (Hl1 : last_payload a1 = init_payload (share (make_key_pair (draws a)))
    (sign (node_kp a) (S (S (draws a))) (share (make_key_pair (draws a)))) (node_cert a) (hkdf_salt a1)).
  { eapply last_payload_snoc. reflexivity. }
  assert (Ha1 : status a1 = INITIATED /\ own_key (kex_ctx a1) = Some (make_key_pair (draws a)) /\ outgoing_msg a1 = Some m /\
    self a1 = self a /\ peer_id a1 = peer_id a /\ node_cert a1 = node_cert a /\ node_kp a1 = node_kp a /\
    service_cert a1 = service_cert a /\ current_tid a1 = current_tid a /\ short (hkdf_salt a1)).
  { repeat (split; [reflexivity|]). apply random_short. }
  clearbody a1. destruct Ha1 as (A1 & A2 & A3 & A4 & A5 & A6 & A7 & A8 & A9 & A10).
  destruct (rekeyed_own b Hown) as [kb Hkb].
  destruct (recv_init_run b (node_kp a) (S (S (draws a))) (make_key_pair (draws a)) (node_cert a) (hkdf_salt a1) kb)
    as (v & Hv & Hsig & H2); [done..|].
  set (w := waiting _ _ _ _ _ _) in H2. destruct (rekeyed_fields b) as (R1 & R2 & R3 & R4 & R5 & R6 & R7 & R8).
  assert (Hw : kex_ctx w = MkKex (Some kb) (Some (public_of (make_key_pair (draws a)))) /\ status w = WAITING_FOR_FINAL /\
    peer_cv w = Some v /\ hkdf_salt w = hkdf_salt a1 /\ self w = self (rekeyed b) /\ peer_id w = peer_id (rekeyed b) /\
    node_kp w = node_kp (rekeyed b) /\ node_cert w = node_cert (rekeyed b) /\ service_cert w = service_cert (rekeyed b) /\
    outgoing_msg w = outgoing_msg (rekeyed b) /\ local_recv_nonce w = local_recv_nonce (rekeyed b) /\
    message_limit w = message_limit (rekeyed b)) by done.
  clearbody w. destruct Hw as (W1 & W2 & W3 & W4 & W5 & W6 & W7 & W8 & W9 & W10 & W11 & W12).
  destruct (finish_exchange a1 w (make_key_pair (draws a)) kb v va m) as (a2 & final & H3 & Hin & H4 & Hx & Hkey & Hlast);
    try congruence.
  { split; [congruence|]. split; [congruence|].
    rewrite W9, R8, A6, A7, A8, W8, R4, W7, R3. done. }
  set (r := responded _ _ w) in *. set (secret := derive_shared_secret _ _) in *.
  assert (Hr : local_recv_nonce (keyed secret r) = (fun _ => MkChannelSeqno 0 0) <$> local_recv_nonce w /\
    message_limit (keyed secret r) = message_limit w /\ send_nonce (keyed secret r) = 1) by done.
  clearbody r. destruct Hr as (K1 & K2 & K3). exists a1, a2, r. rewrite Hl1, <- A4, <- A5.
  do 2 eexists. exists final. split; [exact H1|]. split; [exact H2|]. split; [exact H3|].
  split; [exact Hin|]. split; [exact H4|]. split; [exact Hx|]. rewrite Hlast. cbn [raw_aad raw_plain m]. rewrite drop_app_length.
  rewrite (recv_encrypted_run (keyed secret r) _ (current_tid a1) 1 (MkChannelSeqno 0 0)); [|apply Hx|exact Hkey|lia| | |].
  - replace (seqno_for _ _) with 0 by (by destruct (current_tid (keyed secret r) =? main_thread)). reflexivity.
  - unfold max_num_threads in *. lia.
  - rewrite K1, list_lookup_fmap, W11, R5.
    destruct (lookup_lt_is_Some_2 (local_recv_nonce b) (Z.to_nat (current_tid a1))) as [x ->]; [|done].
    rewrite Hlen. unfold max_num_threads in *. lia.
  - rewrite K2, K3, W12, R6. change (u64 (1 + 1)) with 2. lia.
Qed.

End Handshake.
