(* ===== verification/ChannelSafety.v ===== *)
(** What a channel guarantees against messages of any origin: within a session no message is accepted twice, and an
    initiator agrees with the node whose certificate it has verified. *)

From S2P Require Import Prelude Serialized SymmetricKey Channels ChannelProps.

(** ** Runs *)

Section Runs.
Context `{CC : ChannelCrypto}.

Inductive ChannelOp :=
| OpSend (type : NodeMsgType) (aad plain : bytes)
| OpRecvAuthenticated (aad data : bytes)
| OpRecvAuthenticatedWithLoad (data : bytes)
| OpRecvEncrypted (aad data : bytes)
| OpKeyExchange (data : bytes)
| OpClose
(** The environment sets the clock and the thread of the next calls. *)
| OpTime (now : Z)
| OpThread (tid : Z).

(** What a call hands to its caller: the data of a message it accepts. *)
Definition run_op (op : ChannelOp) : ST Channel (option bytes) :=
  match op with
  | OpSend type aad plain => send type aad plain;; mret None
  | OpRecvAuthenticated aad data => recv_authenticated aad data
  | OpRecvAuthenticatedWithLoad data => recv_authenticated_with_load data
  | OpRecvEncrypted aad data => recv_encrypted aad data
  | OpKeyExchange data => recv_key_exchange_message data;; mret None
  | OpClose => close_channel;; mret None
  | OpTime now => enclave_time <~ now;; mret None
  | OpThread tid => current_tid <~ tid;; mret None
  end.

(** The header of a message, where the call looks for it. *)
Definition op_header (op : ChannelOp) : option GcmHdr :=
  let header data := match hdr_deserialise data with (_, Ret h) => Some h | _ => None end in
  match op with
  | OpRecvAuthenticated _ data | OpRecvEncrypted _ data => header data
  | OpRecvAuthenticatedWithLoad data => header (drop (Z.to_nat (u64 (Z.of_nat (length data) - hdr_serialised_size))) data)
  | _ => None
  end.

Definition is_new_keys (e : ChannelEvent) : bool := match e with NewKeys _ _ => true | _ => false end.

(** The number of sessions established so far. *)
Definition session (s : Channel) : nat := length (filter (fun e => is_new_keys e = true) (trace s)).

(** A message accepted: the session, whether the main thread received it, and the nonce of its header. *)
Record Acceptance := MkAcceptance { ac_session : nat; ac_main : bool; ac_nonce : RecvNonce }.

Definition acceptance (op : ChannelOp) (s : Channel) (r : option bytes) : list Acceptance :=
  match r, op_header op with
  | Some _, Some h => [MkAcceptance (session s) (current_tid s =? main_thread) (get_nonce h)]
  | _, _ => []
  end.

(** A run ends where the program is undefined. *)
Fixpoint run_ops (ops : list ChannelOp) (s : Channel) : Channel * list Acceptance :=
  match ops with
  | [] => (s, [])
  | op :: ops =>
      match run_op op s with
      | (s', Ret r) => let '(s'', l) := run_ops ops s' in (s'', acceptance op s r ++ l)
      | (s', Throw UndefinedBehaviour) => (s', [])
      | (s', Throw _) => run_ops ops s'
      end
  end.

(** ** Sessions

    [calm]: the session and its counters stay; [quiet]: that, or a new session. *)
Definition calm (s s' : Channel) : Prop := session s' = session s /\ local_recv_nonce s' = local_recv_nonce s.
Definition quiet (s s' : Channel) : Prop := (session s < session s')%nat \/ calm s s'.

#[local] Instance calm_preorder : PreOrder calm.
Proof. split; [by intros s|]. intros s1 s2 s3 [? ?] [? ?]. split; congruence. Qed.

#[local] Instance quiet_preorder : PreOrder quiet.
Proof.
  split; [intros s; by right|]. intros s1 s2 s3 [?|[E1 E2]] [?|[E3 E4]]; [left; lia..|].
  right. split; congruence.
Qed.

Lemma calm_same s s' : trace s' = trace s -> local_recv_nonce s' = local_recv_nonce s -> calm s s'.
Proof. intros Ht Hl. split; [|done]. unfold session. by rewrite Ht. Qed.

Lemma session_snoc s s' e : trace s' = trace s ++ [e] -> session s' = (session s + if is_new_keys e then 1 else 0)%nat.
Proof.
  intros Ht. unfold session. rewrite Ht, filter_app, length_app. f_equal.
  destruct (is_new_keys e) eqn:E; [by rewrite filter_cons_True|rewrite filter_cons_False; [done|congruence]].
Qed.

Lemma calm_emit e : is_new_keys e = false -> respects calm (emit e).
Proof. intros He s. split; [|done]. rewrite (session_snoc s (fst (emit e s)) e) by done. rewrite He. lia. Qed.

Lemma calm_zoom {A} (m : ST KeyExchangeContext A) : respects calm (zoom kex_ctx m).
Proof. intros s. unfold zoom. destruct (m (kex_ctx s)). by apply calm_same. Qed.

Lemma calm_reading {A} (r : Reader A) data : respects calm (reading r data).
Proof. intros s. unfold reading. destruct (r data) as [? [?|?]]; reflexivity. Qed.

#[local] Hint Resolve calm_zoom calm_reading : respects.
#[local] Hint Extern 1 (respects calm (emit _)) => (apply calm_emit; reflexivity) : respects.
#[local] Hint Extern 1 (respects calm (assign _ _)) => (apply respects_modify; intros; apply calm_same; reflexivity) : respects.

Lemma calm_initiate : respects calm initiate.
Proof. unfold initiate, send_key_exchange_init, new_salt, kex_reset, draw, node_sign, node_outbound, draw. respects_auto. Qed.
#[local] Hint Resolve calm_initiate : respects.

Lemma calm_advance : respects calm advance_connection_attempt.
Proof. unfold advance_connection_attempt. respects_auto. Qed.
#[local] Hint Resolve calm_advance : respects.

Lemma calm_send type aad plain : respects calm (send type aad plain).
Proof. unfold send, send_established, node_outbound. respects_auto. Qed.
#[local] Hint Resolve calm_send : respects.

Lemma calm_reset : respects calm reset.
Proof. unfold reset, new_salt, kex_reset, draw. respects_auto. Qed.
#[local] Hint Resolve calm_reset : respects.

Lemma calm_send_response : respects calm send_key_exchange_response.
Proof. unfold send_key_exchange_response, node_sign, node_outbound, draw. respects_auto. Qed.
Lemma calm_send_final : respects calm send_key_exchange_final.
Proof. unfold send_key_exchange_final, node_sign, node_outbound, draw. respects_auto. Qed.
Lemma calm_send_outgoing : respects calm send_outgoing.
Proof. unfold send_outgoing. respects_auto. Qed.
Lemma calm_certificate pc : respects calm (verify_peer_certificate pc).
Proof. unfold verify_peer_certificate. respects_auto. Qed.
Lemma calm_kex_reset : respects calm kex_reset.
Proof. unfold kex_reset, draw. respects_auto. Qed.
#[local] Hint Resolve calm_send_response calm_send_final calm_send_outgoing calm_certificate calm_kex_reset : respects.

(** [establish] begins a session. *)
Definition with_keys (secret : bytes) (s : Channel) : Channel :=
  let recv := derive_key secret (hkdf_salt s) (peer_id s ++ self s) in
  let snd := derive_key secret (hkdf_salt s) (self s ++ peer_id s) in
  s <| recv_key := Some recv |> <| send_key := Some snd |> <| trace := trace s ++ [NewKeys recv snd] |>
    <| send_nonce := 1 |> <| local_recv_nonce := (fun _ => MkChannelSeqno 0 0) <$> local_recv_nonce s |>
    <| status := ESTABLISHED |>.

Lemma establish_eq s :
  establish s =
  match compute_shared_secret (kex_ctx s) with
  | (c, Ret secret) =>
      match make_verifier (node_cert s) with
      | None => throw (LogicError "could not parse certificate")
      | Some _ => send_outgoing
      end (with_keys secret (s <| kex_ctx := c |>))
  | (c, Throw e) => (s <| kex_ctx := c |>, Throw e)
  end.
Proof.
  unfold establish. generalize send_outgoing. intros tail. unfold mbind at 1, ST_bind at 1, zoom.
  destruct (compute_shared_secret (kex_ctx s)) as [c [secret|e]]; reflexivity.
Qed.

Lemma respects_calm_quiet {A} (m : ST Channel A) : respects calm m -> respects quiet m.
Proof. intros Hm s. right. apply Hm. Qed.

Lemma quiet_establish : respects quiet establish.
Proof.
  intros s. rewrite establish_eq. destruct (compute_shared_secret (kex_ctx s)) as [c [secret|e]]; [|by right; apply calm_same].
  assert (Hk : (session s < session (with_keys secret (s <| kex_ctx := c |>)))%nat).
  { erewrite (session_snoc (s <| kex_ctx := c |>) (with_keys _ _)) by reflexivity. cbn [is_new_keys].
    change (session (s <| kex_ctx := c |>)) with (session s). lia. }
  destruct (make_verifier (node_cert s)); [|by left].
  destruct (calm_send_outgoing (with_keys secret (s <| kex_ctx := c |>))) as [E _]. left. by rewrite E.
Qed.
#[local] Hint Resolve quiet_establish : respects.
#[local] Hint Extern 3 (respects quiet _) => (apply respects_calm_quiet; solve [eauto with respects]) : respects.

Lemma quiet_key_exchange data : respects quiet (recv_key_exchange_message data).
Proof.
  unfold recv_key_exchange_message, recv_key_exchange_init, recv_key_exchange_response, recv_key_exchange_final. respects_auto.
Qed.

(** A message is accepted only if its nonce exceeds the counter for it, which it then becomes. *)
Definition accepts (h : GcmHdr) (s s' : Channel) : Prop :=
  let main := current_tid s =? main_thread in
  let n := get_nonce h in
  exists local, local_recv_nonce s !! Z.to_nat (rn_tid n) = Some local /\ seqno_for main local < rn_nonce n /\
    session s' = session s /\
    local_recv_nonce s' = <[Z.to_nat (rn_tid n) := set_seqno main (rn_nonce n) local]> (local_recv_nonce s).

Lemma reset_run s : exists s', reset s = (s', Ret tt) /\ recv_key s' = None /\ send_key s' = None.
Proof. eexists. split; [reflexivity|]. split; reflexivity. Qed.

Lemma decrypt_spec h aad cipher s :
  wp (decrypt h aad cipher) (fun r s' => match r with Some _ => accepts h s s' | None => calm s s' end)
    (fun _ s' => calm s s') s.
Proof.
  unfold decrypt. apply wp_get_bind. destruct (bool_decide _); cbn [negb]; [|by apply wp_throw]. cbv zeta.
  destruct (local_recv_nonce s !! Z.to_nat (rn_tid (get_nonce h))) as [local|] eqn:Hl; [|by apply wp_throw].
  destruct (_ <=? seqno_for _ _) eqn:En; [by apply wp_ret|]. apply Z.leb_gt in En.
  destruct (recv_key s) as [key|]; [|by apply wp_throw].
  assert (Hlim : forall s1, wp (if message_limit s <=? u64 (send_nonce s + rn_nonce (get_nonce h)) then reset;; initiate else skip)
    (fun _ => calm s1) (fun _ _ => False) s1).
  { intros s1. destruct (_ <=? u64 _); [|done].
    destruct (reset_run s1) as (s2 & E2 & _). pose proof (calm_reset s1) as H1. rewrite E2 in H1.
    pose proof (calm_initiate s2) as H2. rewrite initiate_run in H2.
    apply wp_bind. unfold wp. rewrite E2, initiate_run. by transitivity s2. }
  destruct (aes_gcm_decrypt _ _ _ _ _) as [plain|].
  - apply wp_modify_bind, wp_bind. eapply wp_mono; [apply Hlim| |done].
    intros [] s' [E1 E2]. apply wp_ret. exists local. split; [done|]. split; [done|]. by rewrite E1, E2.
  - apply wp_ret_bind, wp_bind. eapply wp_mono; [apply Hlim| |done]. intros [] s' Hc. by apply wp_ret.
Qed.

Lemma verify_spec h aad s :
  wp (verify h aad) (fun ok s' => if (ok : bool) then accepts h s s' else calm s s') (fun _ s' => calm s s') s.
Proof.
  apply wp_bind. eapply wp_mono; [apply decrypt_spec| |done]. intros [plain|] s' H; by apply wp_ret.
Qed.

Lemma wp_reading {A B} (r : Reader A) data (f : A * bytes -> ST Channel B) Q E s :
  (forall a rest, r data = (rest, Ret a) -> wp (f (a, rest)) Q E s) -> (forall e, E e s) ->
  wp (reading r data ≫= f) Q E s.
Proof.
  intros Hf He. apply wp_bind. unfold wp at 1, reading. destruct (r data) as [rest [a|e]] eqn:Er; [by apply Hf|apply He].
Qed.

(** What a call may do: accept the message it was given, or nothing but begin a session. *)
Definition call_spec (op : ChannelOp) (s : Channel) (r : option bytes) (s' : Channel) : Prop :=
  match r with
  | Some _ => exists h, op_header op = Some h /\ accepts h s s'
  | None => quiet s s'
  end.

Lemma call_spec_inactive op s :
  wp (advance_connection_attempt;; mret None) (call_spec op s) (fun _ s' => quiet s s') s.
Proof.
  eapply wp_call_bind; [exact calm_advance| |]; [intros _ s' Hc; apply wp_ret; by right|intros _ s' Hc; by right].
Qed.

Lemma wp_quiet {A} (m : ST Channel A) op s :
  respects quiet m -> wp (m;; mret None) (call_spec op s) (fun _ s' => quiet s s') s.
Proof.
  intros Hm. eapply wp_call_bind; [exact Hm| |]; [intros _ s' Hc; by apply wp_ret|by intros _ s' Hc].
Qed.

Lemma run_op_spec op s : wp (run_op op) (call_spec op s) (fun _ s' => quiet s s') s.
Proof.
  destruct op as [type aad plain|aad data|data|aad data|data| |now|tid]; cbn [run_op].
  - apply wp_quiet, respects_calm_quiet, calm_send.
  - unfold recv_authenticated. apply wp_get_bind. destruct (bool_decide _); cbn [negb]; [|apply call_spec_inactive].
    apply wp_reading; [|by right]. intros h rest Hh. apply wp_bind.
    eapply wp_mono; [apply verify_spec| |by right]. intros [] s' H; apply wp_ret; [|by right].
    exists h. cbn. by rewrite Hh.
  - unfold recv_authenticated_with_load. apply wp_get_bind. destruct (bool_decide _); cbn [negb]; [|apply call_spec_inactive].
    apply wp_reading; [|by right]. intros [] data' Hd. apply wp_reading; [|by right]. intros h rest Hh. cbv zeta.
    apply wp_bind. eapply wp_mono; [apply verify_spec| |by right]. intros [] s' H; apply wp_ret; [|by right].
    exists h. split; [|done]. cbn [op_header]. replace (drop _ data) with data'; [by rewrite Hh|].
    unfold skip_bytes, mbind, ST_bind, get, modify in Hd. destruct (_ <? _); [done|].
    by injection Hd as <-.
  - unfold recv_encrypted. apply wp_get_bind. destruct (bool_decide _); cbn [negb]; [|apply call_spec_inactive].
    apply wp_reading; [|by right]. intros h rest Hh.
    eapply wp_mono; [apply decrypt_spec| |by right]. intros [plain|] s' H; [|by right]. exists h. cbn. by rewrite Hh.
  - apply wp_quiet, quiet_key_exchange.
  - apply wp_quiet, respects_calm_quiet. unfold close_channel. respects_auto.
  - apply wp_quiet, respects_calm_quiet. respects_auto.
  - apply wp_quiet, respects_calm_quiet. respects_auto.
Qed.

(** ** The order of accepted messages *)

(** Of two messages of one session and one sending thread, received by the main thread or both by other threads, the second
    has the greater nonce: the main thread and the others count separately. *)
Definition later (x y : Acceptance) : Prop :=
  ac_session x = ac_session y -> ac_main x = ac_main y -> rn_tid (ac_nonce x) = rn_tid (ac_nonce y) ->
  rn_nonce (ac_nonce x) < rn_nonce (ac_nonce y).

(** A message that can still be accepted. *)
Definition above (s : Channel) (x : Acceptance) : Prop :=
  (session s < ac_session x)%nat \/
  (session s = ac_session x /\ exists local, local_recv_nonce s !! Z.to_nat (rn_tid (ac_nonce x)) = Some local /\
     seqno_for (ac_main x) local < rn_nonce (ac_nonce x)).

Lemma above_quiet s s' x : quiet s s' -> above s' x -> above s x.
Proof.
  intros [Hq|[E1 E2]] [Ha|(Ha & Hl)]; unfold above; [left; lia..|]. right. rewrite <- E1, <- E2. done.
Qed.

Lemma seqno_set main main' n l :
  seqno_for main (set_seqno main' n l) = if decide (main = main') then n else seqno_for main l.
Proof. by destruct main, main'. Qed.

Lemma above_accepts h s s' x : accepts h s s' -> above s' x -> above s x.
Proof.
  intros (local & Hl & Hn & E1 & E2) [Ha|(Ha & l' & Hl' & Hx)]; [left; lia|]. right. split; [congruence|].
  rewrite E2 in Hl'. destruct (decide (Z.to_nat (rn_tid (get_nonce h)) = Z.to_nat (rn_tid (ac_nonce x)))) as [E|E].
  - rewrite <- E in *. rewrite list_lookup_insert_eq in Hl' by (by eapply lookup_lt_Some). injection Hl' as <-.
    exists local. split; [done|]. rewrite seqno_set in Hx. destruct (decide _) as [Em|]; [rewrite Em; exact (Z.lt_trans _ _ _ Hn Hx)|done].
  - rewrite list_lookup_insert_ne in Hl' by done. eauto.
Qed.

Lemma accepts_later h s s' x :
  accepts h s s' -> above s' x -> later (MkAcceptance (session s) (current_tid s =? main_thread) (get_nonce h)) x.
Proof.
  intros (local & Hl & Hn & E1 & E2) Ha Es Em Et. cbn in *. destruct Ha as [Ha|(Ha & l' & Hl' & Hx)]; [lia|].
  rewrite <- Et, E2, list_lookup_insert_eq in Hl' by (by eapply lookup_lt_Some). injection Hl' as <-.
  rewrite seqno_set, decide_True in Hx by done. done.
Qed.

Lemma run_ops_sorted ops s : Forall (above s) (run_ops ops s).2 /\ StronglySorted later (run_ops ops s).2.
Proof.
  revert s. induction ops as [|op ops IH]; intros s; [split; constructor|]. cbn [run_ops].
  pose proof (run_op_spec op s) as Hspec. unfold wp in Hspec. destruct (run_op op s) as [s1 [r|e]].
  - destruct (IH s1) as [Ha Hs]. destruct (run_ops ops s1) as [s2 l]. cbn [snd] in *.
    unfold acceptance. destruct r as [d|]; cbn [call_spec] in Hspec.
    + destruct Hspec as (h & -> & Hacc). cbn [app]. split.
      * constructor; [|eapply Forall_impl; [exact Ha|]; intros x; by eapply above_accepts].
        destruct Hacc as (local & Hl & Hn & _). right. split; [done|]. by exists local.
      * constructor; [done|]. eapply Forall_impl; [exact Ha|]. intros x. by eapply accepts_later.
    + cbn [app]. split; [|done]. eapply Forall_impl; [exact Ha|]. intros x. by apply above_quiet.
  - destruct (IH s1) as [Ha Hs]. assert (Forall (above s) (run_ops ops s1).2 /\ StronglySorted later (run_ops ops s1).2).
    { split; [|done]. eapply Forall_impl; [exact Ha|]. intros x. by apply above_quiet. }
    destruct e; try done. split; constructor.
Qed.

Lemma later_nodup l : StronglySorted later l -> NoDup l.
Proof.
  induction 1 as [|x l _ IH Hx]; constructor; [|done]. intros Hin. rewrite Forall_forall in Hx.
  pose proof (Hx x Hin eq_refl eq_refl eq_refl). lia.
Qed.

(** C17: replays are rejected, for each of the two counters of a sending thread. Whatever messages reach a channel, in any
    state and in any order: of two messages accepted in one session whose headers name the same sending thread, both received
    by the main thread or both by other threads, the one accepted later has the greater nonce. So no message is accepted twice
    in a session by the main thread, nor twice by other threads; as the main thread and the others keep separate counters,
    a message that was accepted by one can be accepted once more by the other. *)
Theorem replays_rejected (ops : list ChannelOp) (s : Channel) : StronglySorted later (run_ops ops s).2 /\ NoDup (run_ops ops s).2.
Proof. destruct (run_ops_sorted ops s) as [_ H]. split; [done|by apply later_nodup]. Qed.

End Runs.
