(* ===== verification/ChannelAgreement.v ===== *)
(** Agreement of a key exchange under an attacker that owns the network: the signature of a response binds the answer of
    the peer to the attempt of the initiator. *)

From S2P Require Import Prelude Serialized SymmetricKey Channels ChannelProps ChannelHandshake ChannelSafety.

Section Agreement.
Context `{CC : ChannelCrypto} `{CL : !CryptoLaws CC}.

(** ** What a channel signs *)

(** Only messages of the length of one key share are signed. *)
Definition signs_shares (s s' : Channel) : Prop :=
  exists new, trace s' = trace s ++ new /\ forall m sig, Signed m sig ∈ new -> length m = S point_size.

#[local] Instance signs_shares_preorder : PreOrder signs_shares.
Proof.
  split.
  - intros s. exists []. rewrite app_nil_r. split; [done|]. by intros m sig ?%elem_of_nil.
  - intros s1 s2 s3 (n1 & E1 & H1) (n2 & E2 & H2). exists (n1 ++ n2). rewrite E2, E1, app_assoc. split; [done|].
    intros m sig [?|?]%elem_of_app; eauto.
Qed.

Lemma signs_same s s' : trace s' = trace s -> signs_shares s s'.
Proof. intros E. exists []. rewrite app_nil_r. split; [done|]. by intros m sig ?%elem_of_nil. Qed.

Definition is_signed (e : ChannelEvent) : bool := match e with Signed _ _ => true | _ => false end.

Lemma signs_emit e : is_signed e = false -> respects signs_shares (emit e).
Proof. intros He s. exists [e]. split; [done|]. intros m sig H%list_elem_of_singleton. by subst. Qed.

Lemma signs_zoom {A} (m : ST KeyExchangeContext A) : respects signs_shares (zoom kex_ctx m).
Proof. intros s. unfold zoom. destruct (m (kex_ctx s)). by apply signs_same. Qed.

Lemma signs_reading {A} (r : Reader A) data : respects signs_shares (reading r data).
Proof. intros s. unfold reading. destruct (r data) as [? [?|?]]; reflexivity. Qed.

Lemma signs_node_sign msg : length msg = S point_size -> respects signs_shares (node_sign msg).
Proof.
  intros Hm s. eexists. split; [reflexivity|]. intros m sig H%list_elem_of_singleton. by injection H as -> _.
Qed.

#[local] Hint Resolve signs_zoom signs_reading : respects.
#[local] Hint Extern 1 (respects signs_shares (emit _)) => (apply signs_emit; reflexivity) : respects.
#[local] Hint Extern 1 (respects signs_shares (assign _ _)) => (apply respects_modify; intros; apply signs_same; reflexivity) : respects.

(** Key shares that are read go on to be signed. *)
Lemma wp_own_share {B} (f : bytes -> ST Channel B) Q E s :
  (forall k, own_key (kex_ctx s) = Some k -> wp (f (share k)) Q E s) -> (forall e, E e s) ->
  wp (zoom kex_ctx get_own_key_share ≫= f) Q E s.
Proof.
  intros Hf He. apply wp_bind. unfold wp at 1. destruct (own_key (kex_ctx s)) as [k|] eqn:Ek.
  - rewrite (own_share_run s k Ek). by apply Hf.
  - unfold zoom, get_own_key_share, mbind, ST_bind, get. rewrite Ek. cbn. by destruct s.
Qed.

Lemma wp_peer_share {B} (f : bytes -> ST Channel B) Q E s :
  (forall p, peer_key (kex_ctx s) = Some p -> wp (f (key_share (public_raw p))) Q E s) -> (forall e, E e s) ->
  wp (zoom kex_ctx get_peer_key_share ≫= f) Q E s.
Proof.
  intros Hf He. apply wp_bind. unfold wp at 1, zoom, get_peer_key_share, mbind, ST_bind, get.
  destruct (peer_key (kex_ctx s)) as [p|] eqn:Ek; cbn; [|by destruct s].
  replace (s <| kex_ctx := kex_ctx s |>) with s by (by destruct s). by apply Hf.
Qed.

Lemma peer_share_length p : length (key_share (public_raw p)) = S point_size.
Proof. unfold key_share. cbn. by rewrite law_peer_size. Qed.

Lemma respects_of_wp {A} (R : Channel -> Channel -> Prop) (m : ST Channel A) :
  (forall s, wp m (fun _ => R s) (fun _ => R s) s) -> respects R m.
Proof. intros H s. apply (wp_fst m (R s) s), H. Qed.

Lemma wp_of_respects {A} (R : Channel -> Channel -> Prop) (m : ST Channel A) s :
  respects R m -> wp m (fun _ => R s) (fun _ => R s) s.
Proof. intros H. apply wp_fst, H. Qed.

Lemma signs_send_init : respects signs_shares send_key_exchange_init.
Proof.
  apply respects_of_wp. intros s. apply wp_get_bind. apply wp_own_share; [|intros _; reflexivity]. intros k _.
  apply wp_of_respects. unfold node_outbound.
  apply respects_bind; [apply _|apply signs_node_sign, share_length|]. intros sig. respects_auto.
Qed.

Lemma signs_send_final : respects signs_shares send_key_exchange_final.
Proof.
  apply respects_of_wp. intros s. apply wp_peer_share; [|intros _; reflexivity]. intros p _.
  apply wp_of_respects. unfold node_outbound.
  apply respects_bind; [apply _|apply signs_node_sign, peer_share_length|]. intros sig. respects_auto.
Qed.
#[local] Hint Resolve signs_send_init signs_send_final : respects.

Lemma signs_initiate : respects signs_shares initiate.
Proof. unfold initiate, kex_reset, new_salt, draw. respects_auto. Qed.
#[local] Hint Resolve signs_initiate : respects.

Lemma signs_advance : respects signs_shares advance_connection_attempt.
Proof. unfold advance_connection_attempt. respects_auto. Qed.
#[local] Hint Resolve signs_advance : respects.

Lemma signs_send type aad plain : respects signs_shares (send type aad plain).
Proof. unfold send, send_established, node_outbound. respects_auto. Qed.
#[local] Hint Resolve signs_send : respects.

Lemma signs_reset : respects signs_shares reset.
Proof. unfold reset, kex_reset, new_salt, draw. respects_auto. Qed.
Lemma signs_establish : respects signs_shares establish.
Proof. unfold establish, send_outgoing. respects_auto. Qed.
Lemma signs_certificate pc : respects signs_shares (verify_peer_certificate pc).
Proof. unfold verify_peer_certificate. respects_auto. Qed.
#[local] Hint Resolve signs_reset signs_establish signs_certificate : respects.

Lemma signs_decrypt h aad cipher : respects signs_shares (decrypt h aad cipher).
Proof. unfold decrypt. respects_auto. Qed.
#[local] Hint Resolve signs_decrypt : respects.

(** ** A response is signed by a channel that waits for the final message *)

Definition answered (s : Channel) (m : bytes) : Prop :=
  exists k p, m = share k ++ key_share (public_raw p) /\ status s = WAITING_FOR_FINAL /\ kex_ctx s = MkKex (Some k) (Some p).

Definition signs (s s' : Channel) : Prop :=
  exists new, trace s' = trace s ++ new /\ forall m sig, Signed m sig ∈ new -> length m = S point_size \/ answered s' m.

Lemma signs_shares_signs s s' : signs_shares s s' -> signs s s'.
Proof. intros (new & E & H). exists new. split; [done|]. intros m sig Hin. left. eauto. Qed.

Lemma signs_trans s s1 s2 : signs_shares s s1 -> signs s1 s2 -> signs s s2.
Proof.
  intros (n1 & E1 & H1) (n2 & E2 & H2). exists (n1 ++ n2). rewrite E2, E1, app_assoc. split; [done|].
  intros m sig [?|?]%elem_of_app; eauto.
Qed.

Lemma send_response_signs s :
  status s = WAITING_FOR_FINAL ->
  wp send_key_exchange_response (fun _ => signs s) (fun _ => signs s) s.
Proof.
  intros Hs. destruct (kex_ctx s) as [[k|] [p|]] eqn:Hk.
  2-4: apply wp_get_bind; apply wp_own_share; [intros ? Hk'|intros _; apply signs_shares_signs; reflexivity]; rewrite Hk in Hk'.
  3-4: done.
  2:{ apply wp_peer_share; [intros ? Hp'; by rewrite Hk in Hp'|intros _; apply signs_shares_signs; reflexivity]. }
  unfold wp. rewrite (send_response_run s k p Hk). eexists [_; _]. split; [unfold responded; by rewrite <- app_assoc|].
  intros m sig [H|H]%elem_of_cons; [|by apply list_elem_of_singleton in H].
  injection H as -> _. right. by exists k, p.
Qed.

Ltac early_return :=
  match goal with |- wp (if ?b then mret ?x else _) _ _ _ => destruct b; [apply wp_ret, signs_shares_signs; reflexivity|] end.

Ltac read_field :=
  apply wp_reading; [intros ? ? _; cbv beta iota|intros _; apply signs_shares_signs; reflexivity].

(** A step that signs shares only. *)
Lemma wp_signs_bind {A B} (m : ST Channel A) (f : A -> ST Channel B) s s1 :
  signs_shares s s1 -> respects signs_shares m ->
  (forall a s2, signs_shares s s2 -> wp (f a) (fun _ => signs s) (fun _ => signs s) s2) ->
  wp (m ≫= f) (fun _ => signs s) (fun _ => signs s) s1.
Proof.
  intros H1 Hm Hf. eapply wp_call_bind; [exact Hm| |].
  - intros a s2 H2. apply Hf. by transitivity s1.
  - intros e s2 H2. apply signs_shares_signs. by transitivity s1.
Qed.

Lemma recv_init_signs data prio s :
  wp (recv_key_exchange_init data prio) (fun _ => signs s) (fun _ => signs s) s.
Proof.
  unfold recv_key_exchange_init. read_field. early_return. do 4 (read_field; early_return). early_return.
  apply wp_signs_bind; [reflexivity|respects_auto|]. intros v s1 H1.
  destruct (bool_decide _); [by apply wp_ret, signs_shares_signs|].
  destruct (negb _); [by apply wp_ret, signs_shares_signs|]. apply wp_get_bind.
  destruct (_ && _); [by apply wp_ret, signs_shares_signs|]. unfold kex_reset, draw.
  apply wp_signs_bind; [done|respects_auto|]. intros _ s2 H2. apply wp_signs_bind; [done|respects_auto|]. intros _ s3 H3.
  apply wp_signs_bind; [done|respects_auto|]. intros _ s4 H4. apply wp_signs_bind; [done|respects_auto|]. intros _ s5 H5.
  apply wp_signs_bind; [done|respects_auto|]. intros _ s6 H6. apply wp_modify_bind.
  apply wp_bind. eapply wp_mono; [apply send_response_signs; reflexivity| |].
  - intros [] s7 H7. apply wp_ret. eapply signs_trans; [exact H6|]. exact H7.
  - intros e s7 H7. eapply signs_trans; [exact H6|]. exact H7.
Qed.

Lemma wp_catch {A} (m : ST Channel A) h Q (E : exn -> Channel -> Prop) s :
  wp m Q E s -> (forall e s', E e s' -> wp (h e) Q E s') -> wp (catch m h) Q E s.
Proof.
  unfold wp, catch. intros Hm Hh. destruct (m s) as [s' [a|e]]; [done|]. destruct (catchable e); [by apply Hh|done].
Qed.

Lemma key_exchange_signs data s : signs s (fst (recv_key_exchange_message data s)).
Proof.
  apply (wp_fst _ (signs s)). unfold recv_key_exchange_message. apply wp_catch; [|intros e s' H; by apply wp_ret].
  apply wp_get_bind. read_field.
  destruct (_ =? key_exchange_init); [apply recv_init_signs|].
  apply wp_fst, signs_shares_signs. cbv beta.
  match goal with |- signs_shares ?x (fst (?m ?x)) => cut (respects signs_shares m); [intros Hr; apply Hr|] end.
  unfold recv_key_exchange_response, recv_key_exchange_final. respects_auto.
Qed.

Lemma signs_close : respects signs_shares close_channel.
Proof.
  apply respects_bind; [apply _|apply respects_gets; apply _|]. intros peer.
  apply respects_bind; [apply _|by apply signs_emit|]. intros _. apply respects_bind; [apply _|apply signs_reset|]. respects_auto.
Qed.
#[local] Hint Resolve signs_close : respects.

Lemma run_op_signs op s : signs s (fst (run_op op s)).
Proof.
  destruct op as [type aad plain|aad data|data|aad data|data| |now|tid]; cbn [run_op].
  5:{ pose proof (key_exchange_signs data s) as H. unfold mbind, ST_bind.
      by destruct (recv_key_exchange_message data s) as [s' [a|e]]. }
  all: apply signs_shares_signs;
    match goal with |- signs_shares ?x (fst (?m ?x)) => cut (respects signs_shares m); [intros Hr; apply Hr|] end.
  all: unfold recv_authenticated, recv_authenticated_with_load, recv_encrypted, verify; respects_auto.
Qed.

(** ** Runs of a channel *)

Definition chan_step (s s' : Channel) : Prop := exists op, s' = fst (run_op op s).

(** What is signed in a run, if longer than a share, is signed by a channel that then waits for the final message. *)
Lemma run_signs s0 s m sig :
  rtc chan_step s0 s -> trace s0 = [] -> Signed m sig ∈ trace s -> length m <> S point_size ->
  exists s1, rtc chan_step s0 s1 /\ rtc chan_step s1 s /\ answered s1 m.
Proof.
  intros Hrun H0 Hin Hlen. revert s Hrun Hin. apply (rtc_ind_r (fun s => Signed m sig ∈ trace s ->
    exists s1, rtc chan_step s0 s1 /\ rtc chan_step s1 s /\ answered s1 m)); [by rewrite H0; intros ?%elem_of_nil|].
  intros s1 s2 Hrun [op ->] IH. destruct (run_op_signs op s1) as (new & -> & Hnew). intros [Hold|Hn]%elem_of_app.
  - destruct (IH Hold) as (s' & Ha & Hb & Hc). exists s'. split; [done|]. split; [|done]. eapply rtc_r; [done|by exists op].
  - destruct (Hnew m sig Hn) as [?|Hans]; [done|]. exists (fst (run_op op s1)). split; [|done].
    eapply rtc_r; [done|by exists op].
Qed.

(** ** What an accepted response shows *)

Lemma wp_certificate {B} pc (f : option Verifier -> ST Channel B) Q E s :
  (forall r, wp (f r) Q E s) -> (forall e, E e s) -> wp (verify_peer_certificate pc ≫= f) Q E s.
Proof.
  intros Hf He. apply wp_bind. unfold verify_peer_certificate. apply wp_get_bind.
  destruct (empty pc); [by apply wp_ret|]. destruct (make_verifier pc); [by apply wp_ret|by apply wp_throw].
Qed.

Lemma wp_load {B} ks (f : unit -> ST Channel B) Q E s :
  (forall pk, key_from_raw_ec_point (drop 1 ks) = Some pk ->
     wp (f tt) Q E (s <| kex_ctx := (kex_ctx s) <| peer_key := Some pk |> |>)) -> (forall e s', E e s') ->
  wp (zoom kex_ctx (load_peer_key_share ks) ≫= f) Q E s.
Proof.
  intros Hf He. apply wp_bind. unfold wp at 1, zoom, load_peer_key_share. destruct (length ks =? 0)%nat; [apply He|].
  destruct (key_from_raw_ec_point (drop 1 ks)) as [pk|] eqn:Hpk; [by apply Hf|apply He].
Qed.

Definition session_keys (ka : KeyPair) (pk : PublicKey) (s s' : Channel) : Prop :=
  let secret := derive_shared_secret ka pk in
  recv_key s' = Some (derive_key secret (hkdf_salt s) (peer_id s ++ self s)) /\
  send_key s' = Some (derive_key secret (hkdf_salt s) (self s ++ peer_id s)).

Definition response_facts (ka : KeyPair) (s s' : Channel) : Prop :=
  exists ks sig v pk, ks <> [] /\ peer_cv s' = Some v /\ verify_signature v (ks ++ share ka) sig = true /\
    key_from_raw_ec_point (drop 1 ks) = Some pk /\ session_keys ka pk s s'.

Lemma flushed_peer_cv s : peer_cv (flushed s) = peer_cv s.
Proof. unfold flushed. destruct (outgoing_msg s); [|done]. by destruct (send_key s). Qed.

Lemma establish_keys s ka pk :
  kex_ctx s = MkKex (Some ka) (Some pk) ->
  wp establish (fun _ s' => session_keys ka pk s s' /\ peer_cv s' = peer_cv s) (fun _ _ => True) s.
Proof.
  intros Hk. destruct (make_verifier (node_cert s)) as [v|] eqn:Hv.
  - unfold wp. rewrite (establish_run s ka pk v Hk Hv).
    destruct (flushed_fields (keyed (derive_shared_secret ka pk) s)) as (_ & E1 & E2 & _).
    unfold session_keys. rewrite E1, E2, flushed_peer_cv. done.
  - unfold wp. rewrite establish_eq, Hk. cbn [compute_shared_secret]. unfold compute_shared_secret, mbind, ST_bind, get. cbn.
    by rewrite Hv.
Qed.

Lemma recv_response_facts data s ka :
  own_key (kex_ctx s) = Some ka ->
  wp (recv_key_exchange_response data) (fun ok s' => ok = true -> response_facts ka s s') (fun _ _ => True) s.
Proof.
  intros Hka. unfold recv_key_exchange_response. apply wp_get_bind. destruct (negb _); [by apply wp_ret|].
  apply wp_reading; [|done]. intros version ? _. destruct (negb _); [by apply wp_ret|].
  apply wp_reading; [|done]. intros ks ? _. destruct (empty ks) eqn:Hks; [by apply wp_ret|].
  apply wp_reading; [|done]. intros sig ? _. destruct (empty sig); [by apply wp_ret|].
  apply wp_reading; [|done]. intros pc ? _. destruct (empty pc); [by apply wp_ret|]. destruct (negb _); [by apply wp_ret|].
  apply wp_certificate; [|done]. intros [v|]; [|by apply wp_ret]. rewrite bool_decide_eq_false_2 by done.
  apply wp_own_share; [|done]. intros k Hk. rewrite Hka in Hk. injection Hk as <-.
  destruct (verify_peer_signature _ _ _) eqn:Hv; [|by apply wp_ret]. cbn [negb verify_peer_signature] in *.
  apply wp_modify_bind, wp_modify_bind. apply wp_load; [|done]. intros pk Hpk.
  set (s1 := _ <| kex_ctx := _ |>).
  assert (E : kex_ctx s1 = MkKex (Some ka) (Some pk)).
  { unfold s1. destruct s as [? ? ? ? ? ? ? [? ?]]. cbn in *. by subst. }
  apply wp_bind. unfold wp at 1. rewrite (send_final_run s1 ka pk) by done.
  apply wp_bind. eapply wp_mono; [apply (establish_keys _ ka pk); exact E| |done].
  intros [] s' [Hkeys Hcv]. apply wp_ret. intros _. exists ks, sig, v, pk. split; [by intros ->|]. split; [exact Hcv|]. split; [done|]. split; [done|].
  exact Hkeys.
Qed.

Lemma wp_any {A B} (m : ST Channel A) (f : A -> ST Channel B) Q s :
  (forall a s', wp (f a) Q (fun _ _ => True) s') -> wp (m ≫= f) Q (fun _ _ => True) s.
Proof. intros Hf. apply wp_bind. unfold wp at 1. destruct (m s) as [s' [a|e]]; [apply Hf|done]. Qed.

Lemma recv_init_status data prio s :
  wp (recv_key_exchange_init data prio) (fun _ s' => status s' = WAITING_FOR_FINAL \/ status s' = status s) (fun _ _ => True) s.
Proof.
  unfold recv_key_exchange_init.
  apply wp_reading; [|done]. intros version ? _. destruct (negb _); [apply wp_ret; by right|].
  do 4 (apply wp_reading; [|done]; intros ? ? _; destruct (empty _); [apply wp_ret; by right|]).
  destruct (negb _); [apply wp_ret; by right|]. apply wp_certificate; [|done]. intros v.
  destruct (bool_decide _); [apply wp_ret; by right|]. destruct (negb _); [apply wp_ret; by right|].
  apply wp_get_bind. destruct (_ && _); [apply wp_ret; by right|].
  do 5 (apply wp_any; intros _ ?). apply wp_modify_bind.
  eapply (wp_call_bind (fun s s' => status s' = status s)); [|intros [] s1 E; apply wp_ret; by left|done].
  unfold send_key_exchange_response, node_sign, node_outbound, draw, emit.
  assert (PreOrder (fun s s' : Channel => status s' = status s)) by (split; [by intros ?|intros ? ? ? ? ?; congruence]).
  assert (forall A (m : ST KeyExchangeContext A), respects (fun s s' => status s' = status s) (zoom kex_ctx m)) as Hz.
  { intros A m s0. unfold zoom. by destruct (m (kex_ctx s0)). }
  respects_auto.
Qed.

(** Only a response makes an initiator's channel established. *)
Lemma initiated_establishes data s s' ka :
  status s = INITIATED -> own_key (kex_ctx s) = Some ka -> recv_key_exchange_message data s = (s', Ret true) ->
  status s' = ESTABLISHED -> response_facts ka s s'.
Proof.
  intros Hs Hka Hrun Hs'.
  assert (wp (recv_key_exchange_message data) (fun ok s' => ok = true -> status s' = ESTABLISHED -> response_facts ka s s')
    (fun _ _ => True) s) as H.
  2:{ unfold wp in H. rewrite Hrun in H. by apply H. }
  unfold recv_key_exchange_message. clear Hrun Hs'. apply wp_catch; [|intros; by apply wp_ret].
  apply wp_get_bind. apply wp_reading; [|done]. intros chmsg rest _.
  destruct (_ =? key_exchange_init); [|destruct (_ =? key_exchange_response); [|destruct (_ =? key_exchange_final)]].
  - eapply wp_mono; [apply (recv_init_status rest _ s)|intros ok s1 H _ Hs1; by destruct H; congruence|done].
  - eapply wp_mono; [apply (recv_response_facts rest s ka Hka)|intros ok s1 H Hok _; by apply H|done].
  - unfold recv_key_exchange_final. apply wp_get_bind. rewrite bool_decide_eq_false_2 by congruence. by apply wp_ret.
  - by apply wp_throw.
Qed.

(** C16: an attacker that reads, changes, replays, reorders and drops all messages cannot make an initiator share its
    Diffie-Hellman secret with anything but an exchange in which its peer answered this very attempt: if a response
    establishes the channel of an initiator, and whatever the verified certificate accepts was signed by some channel of the node
    it certifies, then one of that node's channels has waited for the final message of an exchange with exactly the
    initiator's key share, and both keys of the initiator are derived from the secret of this exchange, with the initiator's own
    salt and identifiers. The salt that the peer uses is not part of the claim: no signature covers it, so the keys of the
    two sides differ if it was changed on the way. *)
Theorem initiator_agreement (a a' : Channel) (data : bytes) (ka : KeyPair) (bs : list (Channel * Channel)) :
  status a = INITIATED -> own_key (kex_ctx a) = Some ka ->
  recv_key_exchange_message data a = (a', Ret true) -> status a' = ESTABLISHED ->
  Forall (fun b => trace b.1 = [] /\ rtc chan_step b.1 b.2) bs ->
  (forall v m sig, peer_cv a' = Some v -> verify_signature v m sig = true ->
     Exists (fun b => exists sig', Signed m sig' ∈ trace b.2) bs) ->
  Exists (fun b => exists b1 kb, rtc chan_step b.1 b1 /\ rtc chan_step b1 b.2 /\ status b1 = WAITING_FOR_FINAL /\
    kex_ctx b1 = MkKex (Some kb) (Some (public_of ka)) /\
    let secret := derive_shared_secret kb (public_of ka) in
    recv_key a' = Some (derive_key secret (hkdf_salt a) (peer_id a ++ self a)) /\
    send_key a' = Some (derive_key secret (hkdf_salt a) (self a ++ peer_id a))) bs.
Proof.
  intros Hs Hka Hrun Hs' Hbs Hunf.
  destruct (initiated_establishes data a a' ka Hs Hka Hrun Hs') as (ks & sig & v & pk & Hks & Hcv & Hsig & Hpk & Hr & Hsd).
  pose proof (Hunf v _ sig Hcv Hsig) as Hex. apply Exists_exists in Hex as ([b0 b] & Hin & sig' & Hsigned).
  rewrite Forall_forall in Hbs. destruct (Hbs _ Hin) as [H0 Hreach]. cbn [fst snd] in *.
  destruct (run_signs b0 b _ sig' Hreach H0 Hsigned) as (b1 & Hb1 & Hb2 & kb & p & Hm & Hwait & Hkex).
  { rewrite length_app, share_length. destruct ks; [done|cbn; lia]. }
  apply app_inj_2 in Hm as [-> Hp]; [|by rewrite share_length, peer_share_length].
  assert (p = public_of ka) as ->.
  { injection Hp as _ Hp. pose proof (law_point_raw p) as E. rewrite <- Hp, law_point in E. by injection E as <-. }
  change (drop 1 (share kb)) with (public_key_raw kb) in Hpk. rewrite law_point in Hpk. injection Hpk as <-.
  apply Exists_exists. exists (b0, b). split; [done|]. exists b1, kb. cbn [fst snd]. rewrite law_shared in Hr, Hsd. done.
Qed.

End Agreement.
