(* ===== verification/ChannelScenarios.v ===== *)
(** Where a channel does not recover or does not protect: a lost message of the key exchange, headers that are used before
    they are verified, and a salt that is not signed; and a small cryptographic library on which the theorems
    about channels are evaluated. *)

From S2P Require Import Prelude Serialized SymmetricKey Channels ChannelProps ChannelHandshake ChannelSafety ChannelAgreement.

(** ** A lost final message *)

Section Wedge.
Context `{CC : ChannelCrypto}.

(** The calls with which a node handles a message from the network. *)
Inductive delivers : NodeMsgType -> bytes -> ChannelOp -> Prop :=
| deliver_channel payload : delivers channel_msg payload (OpKeyExchange payload)
| deliver_authenticated type payload n :
    type <> channel_msg -> delivers type payload (OpRecvAuthenticated (take n payload) (drop n payload))
| deliver_with_load type payload : type <> channel_msg -> delivers type payload (OpRecvAuthenticatedWithLoad payload)
| deliver_encrypted type payload n :
    type <> channel_msg -> delivers type payload (OpRecvEncrypted (take n payload) (drop n payload)).

Definition local_op (op : ChannelOp) : Prop :=
  match op with
  | OpSend type _ _ => type <> channel_msg
  | OpTime _ | OpThread _ => True
  | _ => False
  end.

Definition handed (o : outcome (option bytes)) : option bytes := match o with Ret r => r | Throw _ => None end.

(** Two nodes and a network that delivers, in any order and any number of times, what they have sent after the first [na]
    and [nb] events; with each step, the message that is accepted. *)
Inductive net_step (na nb : nat) : Channel * Channel -> option bytes -> Channel * Channel -> Prop :=
| step_a a b op : local_op op -> net_step na nb (a, b) None (fst (run_op op a), b)
| step_b a b op : local_op op -> net_step na nb (a, b) None (a, fst (run_op op b))
| to_a a b to type from payload op :
    Outbound to type from payload ∈ drop nb (trace b) -> delivers type payload op ->
    net_step na nb (a, b) (handed (snd (run_op op a))) (fst (run_op op a), b)
| to_b a b to type from payload op :
    Outbound to type from payload ∈ drop na (trace a) -> delivers type payload op ->
    net_step na nb (a, b) (handed (snd (run_op op b))) (a, fst (run_op op b)).

Inductive net_run (na nb : nat) : Channel * Channel -> list (option bytes) -> Channel * Channel -> Prop :=
| run_nil p : net_run na nb p [] p
| run_step p r p1 rs p2 : net_step na nb p r p1 -> net_run na nb p1 rs p2 -> net_run na nb p (r :: rs) p2.

Lemma to_b_refused na nb a b to type from payload op :
  run_op op b = (b, Ret None) -> Outbound to type from payload ∈ drop na (trace a) -> delivers type payload op ->
  net_step na nb (a, b) None (a, b).
Proof. intros E Hin Hd. pose proof (to_b na nb a b to type from payload op Hin Hd) as H. by rewrite E in H. Qed.

(** One end established, the other waiting, and nothing of the exchange on its way. *)
Definition wedged (na nb : nat) (p : Channel * Channel) : Prop :=
  status p.1 = ESTABLISHED /\ (exists k, send_key p.1 = Some k) /\ status p.2 = WAITING_FOR_FINAL /\
  drop nb (trace p.2) = [] /\ Forall (fun e => exists to type from payload, e = Outbound to type from payload /\ type <> channel_msg) (drop na (trace p.1)).

Lemma waiting_idle op s :
  status s = WAITING_FOR_FINAL -> local_op op -> status (fst (run_op op s)) = WAITING_FOR_FINAL /\ trace (fst (run_op op s)) = trace s.
Proof.
  intros Hs Hop. destruct op; try done. cbn [run_op]. unfold send, advance_connection_attempt, mbind, ST_bind, get.
  rewrite bool_decide_eq_false_2 by congruence. by rewrite Hs.
Qed.

Lemma waiting_refuses type payload op s :
  status s = WAITING_FOR_FINAL -> type <> channel_msg -> delivers type payload op -> run_op op s = (s, Ret None).
Proof.
  intros Hs Ht Hd. inversion Hd; subst; try done; cbn [run_op];
    unfold recv_authenticated, recv_authenticated_with_load, recv_encrypted, advance_connection_attempt, mbind, ST_bind, get;
    rewrite bool_decide_eq_false_2 by congruence; cbn [negb]; by rewrite Hs.
Qed.

Lemma wedged_step na nb p r p' :
  (na <= length (trace p.1))%nat -> net_step na nb p r p' -> wedged na nb p ->
  wedged na nb p' /\ r = None /\ trace p'.2 = trace p.2 /\ (na <= length (trace p'.1))%nat.
Proof.
  intros Hna Hstep (Ha & [k Hk] & Hb & Hnb & Hall). destruct Hstep as [a b op Hop|a b op Hop|a b to type from payload op Hin Hd|a b to type from payload op Hin Hd]; cbn [fst snd] in *.
  - destruct op as [type aad plain| | | | | |now|tid]; try done.
    2-3: split; [|done]; split; [done|]; split; [by exists k|]; done.
    assert (E : fst (run_op (OpSend type aad plain) a) = sent type k aad plain a).
    { cbn [run_op]. by rewrite (run_bind _ _ _ _ _ (send_run a type k aad plain Ha Hk)). }
    rewrite E. split; [|split; [done|split; [done|]]].
    + split; [done|]. split; [by exists k|]. split; [done|]. split; [done|]. cbn [fst].
      rewrite trace_sent, drop_app_le by done. apply Forall_app. split; [done|]. apply Forall_singleton. eauto 10.
    + cbn [fst]. rewrite trace_sent, length_app. lia.
  - destruct (waiting_idle op b Hb Hop) as [E1 E2]. split; [|done].
    split; [done|]. split; [by exists k|]. split; [done|]. cbn [snd]. by rewrite E2.
  - rewrite Hnb in Hin. by apply elem_of_nil in Hin.
  - rewrite Forall_forall in Hall. destruct (Hall _ Hin) as (to' & type' & from' & payload' & E & Ht). injection E as <- <- <- <-.
    rewrite (waiting_refuses type payload op b Hb Ht Hd). cbn [fst snd handed]. split; [|done].
    split; [done|]. split; [by exists k|]. split; [done|]. split; [done|]. by apply Forall_forall.
Qed.

Lemma wedged_run na nb p rs p' :
  net_run na nb p rs p' -> wedged na nb p -> (na <= length (trace p.1))%nat ->
  wedged na nb p' /\ trace p'.2 = trace p.2 /\ Forall (fun r => r = None) rs.
Proof.
  induction 1 as [p|p r p1 rs p2 Hstep Hrun IH]; intros Hw Hna; [done|].
  destruct (wedged_step na nb p r p1 Hna Hstep Hw) as (Hw1 & -> & E & Hna1).
  destruct (IH Hw1 Hna1) as (H1 & H2 & H3). split; [done|]. split; [congruence|]. by constructor.
Qed.

(** C24: when the final message of a key exchange is lost, the channel is never used again: the initiator is established and
    sends its messages, the responder waits and refuses them, keeps its own, and sends nothing that would make
    either end start again, however long the nodes go on sending. *)
Theorem lost_final_wedges (a b a' b' : Channel) (k : bytes) (rs : list (option bytes)) :
  status a = ESTABLISHED -> send_key a = Some k -> status b = WAITING_FOR_FINAL ->
  net_run (length (trace a)) (length (trace b)) (a, b) rs (a', b') ->
  status a' = ESTABLISHED /\ status b' = WAITING_FOR_FINAL /\ trace b' = trace b /\ Forall (fun r => r = None) rs.
Proof.
  intros Ha Hk Hb Hrun.
  assert (Hw : wedged (length (trace a)) (length (trace b)) (a, b)).
  { split; [done|]. split; [by exists k|]. split; [done|]. cbn. rewrite !drop_all. by split. }
  destruct (wedged_run _ _ _ _ _ Hrun Hw) as (Hw' & Htr & Hrs); [cbn; lia|]. destruct Hw' as (? & _ & ? & _). done.
Qed.

(** ** Headers that are used before they are verified *)

(** C25: the header of a message is used before the message is verified, so that a forged message that fails
    verification ends the session or the program: a thread number outside the array of counters is undefined behaviour, and
    a large enough nonce makes the channel throw its keys away and start again. *)
Theorem forged_header (s : Channel) (h : GcmHdr) (aad cipher key : bytes) :
  status s = ESTABLISHED -> recv_key s = Some key -> length (local_recv_nonce s) = max_num_threads ->
  aes_gcm_decrypt key (iv h) (tag h) cipher aad = None ->
  (Z.of_nat max_num_threads <= rn_tid (get_nonce h) -> decrypt h aad cipher s = (s, Throw UndefinedBehaviour)) /\
  (forall local, local_recv_nonce s !! Z.to_nat (rn_tid (get_nonce h)) = Some local ->
   seqno_for (current_tid s =? main_thread) local < rn_nonce (get_nonce h) ->
   message_limit s <= u64 (send_nonce s + rn_nonce (get_nonce h)) ->
   exists s', decrypt h aad cipher s = (s', Ret None) /\ status s' = INITIATED /\ recv_key s' = None /\ send_key s' = None).
Proof.
  intros Hs Hk Hlen Hdec.
  split; [|intros local Hl Hn Hlim; destruct (reset_run s) as (s1 & E1 & E2 & E3); exists (initiated s1)];
    unfold decrypt, mbind at 1, ST_bind at 1, get at 1; rewrite bool_decide_eq_true_2 by done; cbn [negb]; cbv zeta.
  - intros Ht. rewrite (lookup_ge_None_2 (local_recv_nonce s)); [done|]. rewrite Hlen. lia.
  - rewrite Hl. destruct (Z.leb_spec (rn_nonce (get_nonce h)) (seqno_for (current_tid s =? main_thread) local)); [lia|].
    rewrite Hk, Hdec. unfold mbind at 1, ST_bind at 1, skip at 1.
    destruct (Z.leb_spec (message_limit s) (u64 (send_nonce s + rn_nonce (get_nonce h)))); [|lia].
    assert (Hr : (reset;; initiate) s = (initiated s1, Ret tt)) by (rewrite (run_bind _ _ _ _ _ E1); apply initiate_run).
    unfold mret at 1, ST_ret at 1. rewrite (run_bind _ _ _ _ _ Hr). split; [done|]. split; [done|].
    by split.
Qed.

End Wedge.

(** ** A small library

    Keys are numbers, a secret is their product; [knows] restricts the messages whose signatures are accepted. *)

Definition toy (knows : Z -> bytes -> bool) : ChannelCrypto := {|
  KeyPair := Z;
  PublicKey := Z;
  Verifier := Z;
  make_key_pair n := Z.of_nat n;
  random n l := list_replicate l (Z.of_nat n);
  public_key_raw k := [k];
  key_from_raw_ec_point l := match l with [x] => Some x | _ => None end;
  public_raw p := [p];
  derive_shared_secret k p := [k * p];
  sign k n m := [k; Z.of_nat n; digest m];
  make_verifier cert := head cert;
  verify_certificate _ _ := true;
  verify_signature v m sig :=
    knows v m && match sig with [k; _; d] => (k =? v) && (d =? digest m) | _ => false end;
  is_self_signed _ := false;
  hkdf _ secret salt label := secret ++ salt ++ label;
  channel_aead := toy_aead
|}.

Definition toy_laws (knows : Z -> bytes -> bool) : CryptoLaws (toy knows).
Proof.
  refine {| public_of := fun k : @KeyPair (toy knows) => k : @PublicKey (toy knows); point_size := 1 |}; try done.
  - intros k1 k2. cbn. by rewrite Z.mul_comm.
  - intros n l. apply length_replicate.
  - intros k n m. cbn. lia.
Defined.

Definition all_known : Z -> bytes -> bool := fun _ _ => true.

Section Two.
Context (knows : Z -> bytes -> bool).
Let CC := toy knows.
#[local] Existing Instance CC.

Definition node_a : Channel := new_Channel [0] 5 [5] [1] [2] 1000 0 0 0 10.
Definition node_b : Channel := new_Channel [0] 7 [7] [2] [1] 1000 0 0 0 50.

Definition send_from (c : Channel) : Channel := fst (send consensus_msg [9] [8; 8] c).
Definition hand (payload : bytes) (c : Channel) : Channel := fst (recv_key_exchange_message payload c).
End Two.

Lemma toy_peers : peers (CC := toy all_known) (node_a all_known) (node_b all_known).
Proof.
  split; [done|]. split; [done|]. split; (split; [done|]); eexists; (split; [reflexivity|]); (split; [reflexivity|]);
    intros n m; cbn; by rewrite !Z.eqb_refl.
Qed.

Lemma handshake_establishes_witness :
  exists a2 b2 b3 data, crossed (CC := toy all_known) a2 b2 /\
    recv_encrypted (CC := toy all_known) [9] data b2 = (b3, Ret (Some [8; 8])).
Proof.
  destruct (handshake_establishes (CC := toy all_known) (CL := toy_laws all_known) (node_a all_known) (node_b all_known)
    consensus_msg [9] [8; 8]) as (a1 & a2 & b1 & b2 & b3 & final & H1 & H2 & H3 & H4 & H5 & H6 & H7);
    [exact toy_peers|reflexivity|intros E; discriminate E|intros _ E; discriminate E|split; [discriminate|reflexivity]|reflexivity|discriminate|reflexivity|reflexivity|].
  exists a2, b2, b3. eexists. split; [exact H6|exact H7].
Defined.

Ltac evaluate := vm_compute; first [reflexivity|split; first [reflexivity|discriminate]|discriminate].

(** The states of an exchange: the initiator and the responder after each of its messages. *)
Definition payload_at (n : nat) (s : @Channel (toy all_known)) : bytes :=
  match trace s !! n with Some (Outbound _ _ _ payload) => payload | _ => [] end.

Definition a1 := send_from all_known (node_a all_known).
Definition b1 := hand all_known (payload_at 1 a1) (node_b all_known).
Definition a2 := hand all_known (payload_at 1 b1) a1.
Definition b2 := hand all_known (payload_at 3 a2) b1.

Lemma messages_received_witness :
  let ms := [([9], [1; 1]); ([9], [2]); ([], [3])] in
  exists a' payloads, send_all (CC := toy all_known) consensus_msg ms a2 = (a', Ret tt) /\
    snd (receive_all (CC := toy all_known) (inbox ms payloads [0; 2; 1; 2]%nat) b2) = Ret [Some [1; 1]; Some [3]; None; None].
Proof.
  intros ms.
  destruct (messages_received (CC := toy all_known) (CL := toy_laws all_known) a2 b2 consensus_msg ms)
    as (a' & payloads & H1 & H2 & H3 & H4).
  1:{ split; [vm_compute; reflexivity|]. split; [vm_compute; reflexivity|]. split; eexists; (split; vm_compute; reflexivity). }
  1,2,3,4,5,6,7: evaluate.
  exists a', payloads. split; [exact H1|]. destruct (H4 [0; 2; 1; 2]%nat) as [H5 _]; [repeat constructor|].
  rewrite H5. vm_compute. reflexivity.
Defined.

(** The initiator sends on, and its message reaches the responder that has not seen the final message. *)
#[local] Abbreviation a3 := (fst (run_op (CC := toy all_known) (OpSend consensus_msg [9] [4]) a2)).

Definition refused_op := OpRecvEncrypted (take 1 (payload_at 6 a3)) (drop 1 (payload_at 6 a3)).

Lemma refused_in : Outbound [2] consensus_msg [1] (payload_at 6 a3) ∈ drop (length (trace a2)) (trace a3).
Proof. vm_compute. left. Qed.

Lemma refused_run : run_op (CC := toy all_known) refused_op b1 = (b1, Ret None).
Proof. vm_compute. reflexivity. Qed.

Lemma wedged_example : net_run (CC := toy all_known) (length (trace a2)) (length (trace b1)) (a2, b1) [None; None] (a3, b1).
Proof.
  eapply run_step; [apply (step_a (CC := toy all_known) _ _ a2 b1 (OpSend consensus_msg [9] [4])); discriminate|].
  eapply run_step; [eapply (to_b_refused (CC := toy all_known)); [exact refused_run|exact refused_in|]|apply run_nil].
  apply deliver_encrypted. discriminate.
Qed.

Lemma lost_final_wedges_witness : status a3 = ESTABLISHED /\ status b1 = WAITING_FOR_FINAL.
Proof.
  assert (Ha : status a2 = ESTABLISHED) by (vm_compute; reflexivity).
  assert (Hk : exists k, send_key a2 = Some k) by (eexists; vm_compute; reflexivity).
  assert (Hb : status b1 = WAITING_FOR_FINAL) by (vm_compute; reflexivity).
  destruct Hk as [k Hk].
  destruct (lost_final_wedges (CC := toy all_known) a2 b1 _ b1 k _ Ha Hk Hb wedged_example) as (H1 & H2 & _).
  exact (conj H1 H2).
Defined.

Lemma forged_header_witness :
  let h := MkGcmHdr (list_replicate 16 0) [30; 1; 0; 0; 0; 0; 0; 0] in
  decrypt (CC := toy all_known) h [9] [] a2 = (a2, Throw UndefinedBehaviour).
Proof.
  intros h. destruct (forged_header (CC := toy all_known) a2 h [9] [] (default [] (recv_key a2))) as [H _];
    [vm_compute; reflexivity|vm_compute; reflexivity|vm_compute; reflexivity|vm_compute; reflexivity|].
  apply H. vm_compute. discriminate.
Defined.

(** A library whose certificates accept only what was signed in the exchange: the share of the initiator by itself, and
    both shares by the responder. *)
Definition exchange_known (v : Z) (m : bytes) : bool :=
  (v =? 5) && bool_decide (m = [1; 12]) || (v =? 7) && bool_decide (m = [1; 50; 1; 12]).

Definition last_of (s : @Channel (toy exchange_known)) : bytes :=
  match last (trace s) with Some (Outbound _ _ _ payload) => payload | _ => [] end.

Definition ia := send_from exchange_known (node_a exchange_known).
Definition ib := fst (run_op (CC := toy exchange_known) (OpKeyExchange (last_of ia)) (node_b exchange_known)).
Definition ia' := hand exchange_known (last_of ib) ia.

Lemma initiator_agreement_witness :
  Exists (fun b => exists b1 kb, status (CC := toy exchange_known) b1 = WAITING_FOR_FINAL /\
    kex_ctx b1 = @MkKex (toy exchange_known) (Some kb) (Some (12 : @PublicKey (toy exchange_known)))) [(node_b exchange_known, ib)].
Proof.
  pose proof (initiator_agreement (CC := toy exchange_known) (CL := toy_laws exchange_known) ia ia' (last_of ib) (12 : @KeyPair (toy exchange_known))
    [(node_b exchange_known, ib)]) as H.
  eapply Exists_impl; [apply H|].
  - vm_compute. reflexivity.
  - vm_compute. reflexivity.
  - vm_compute. reflexivity.
  - vm_compute. reflexivity.
  - apply Forall_singleton. split; [reflexivity|]. cbn [fst snd]. apply rtc_once. exists (OpKeyExchange (last_of ia)). reflexivity.
  - intros v m sig Hv Hsig. assert (v = 7) as -> by (vm_compute in Hv; congruence).
    cbn in Hsig. apply andb_prop in Hsig as [Hm _]. apply Exists_cons_hd. cbn [snd].
    assert (m = [1; 50; 1; 12]) as ->.
    { unfold exchange_known in Hm. cbn in Hm. by apply bool_decide_eq_true in Hm. }
    eexists. vm_compute. left.
  - intros [b0 b] (b1' & kb & _ & _ & Hs & Hk & _). exists b1', kb. split; [exact Hs|exact Hk].
Defined.

(** ** The salt is not signed *)

(** The first message of an exchange with another salt in it: the salt is the last field. *)
Definition change_salt (payload : bytes) : bytes := take (length payload - salt_len) payload ++ list_replicate salt_len 66.

Definition sb1 := hand all_known (change_salt (payload_at 1 a1)) (node_b all_known).
Definition sa2 := hand all_known (payload_at 1 sb1) a1.
Definition sb2 := hand all_known (payload_at 3 sa2) sb1.

(** The salt of a key exchange is not covered by a signature: when it is changed on the way, the exchange succeeds on
    both sides with different keys, and the message that was waiting is refused. *)
Theorem salt_not_signed :
  status sa2 = ESTABLISHED /\ status sb2 = ESTABLISHED /\ send_key sa2 <> recv_key sb2 /\ recv_key sa2 <> send_key sb2 /\
  snd (recv_encrypted (CC := toy all_known) [9] (drop 1 (payload_at 5 sa2)) sb2) = Ret None.
Proof. vm_compute. repeat split; discriminate. Qed.

(** ** Two counters *)

(** The initiator sends from thread [1], and the message reaches a worker of the responder and then its main thread. *)
#[local] Abbreviation a4 := (fst (run_op (CC := toy all_known) (OpSend consensus_msg [9] [4]) (a2 <| current_tid := 1 |>))).

Definition twice_op := OpRecvEncrypted (take 1 (payload_at 6 a4)) (drop 1 (payload_at 6 a4)).

(** The main thread and the others keep separate counters, so that each accepts the message. *)
Lemma accepted_by_both :
  snd (run_ops (CC := toy all_known) [OpThread 1; twice_op; twice_op; OpThread 0; twice_op; twice_op] b2) =
  [MkAcceptance (session b2) false (MkRecvNonce 1 2); MkAcceptance (session b2) true (MkRecvNonce 1 2)].
Proof. vm_compute. reflexivity. Qed.
