(* ===== verification/ChannelConsensus.v ===== *)
(** Consensus messages over channels: the bytes that one node's channel sends for a message of the consensus run its handler
    on the other node. *)

From S2P Require Import Prelude Serialized SymmetricKey Views RaftTypes Raft RaftWire Channels ChannelProps ChannelHandshake ChannelSafety ChannelScenarios.

Section Consensus.
Context `{CC : ChannelCrypto} `{CL : !CryptoLaws CC}.

(** The verification that a node's channel [b] does for the consensus. *)
Definition channel_verify (b : Channel) (header tail : bytes) : option bytes :=
  handed (snd (Channels.recv_authenticated header tail b)).

(** C20: a message that the consensus of one node sends over an established channel, with the ledger entries that the host
    appends to it, is handled by the consensus of the other node as the same message with the same entries. *)
Theorem consensus_message_delivered (a b : Channel) (env : AftEnv) (from : NodeId) (m : RaftMsg) (entries : bytes) (s : Aft) :
  crossed a b -> 0 < send_nonce a < 2 ^ 56 -> 0 <= send_nonce b -> 0 <= current_tid a < Z.of_nat max_num_threads ->
  length (local_recv_nonce b) = max_num_threads -> last_nonce b (current_tid a) < send_nonce a ->
  send_nonce b + send_nonce a < message_limit b -> message_limit b < u64_modulus ->
  wire_channels env (fun _ _ => channel_verify b) -> msg_wf m ->
  exists a' payload, send consensus_msg (encode_RaftMsg m) [] a = (a', Ret true) /\
    Channels.trace a' = Channels.trace a ++ [Outbound (peer_id a) consensus_msg (self a) payload] /\
    recv_message from (payload ++ entries) s = catch (handle_RaftMsg from m entries) (fun _ => skip) s.
Proof.
  intros (Ha & Hb & (key & Hka & Hkb) & _) Hna Hnb Htid Hlen Hlast Hlim Hlim64 Hw Hm.
  destruct (lookup_lt_is_Some_2 (local_recv_nonce b) (Z.to_nat (current_tid a))) as [local Hl].
  { rewrite Hlen. unfold max_num_threads in *. lia. }
  unfold last_nonce in Hlast. rewrite (list_lookup_total_correct _ _ _ Hl) in Hlast.
  eexists _, _. split; [by apply send_run|]. split; [apply trace_sent|].
  rewrite <- app_assoc, (message_wire env (fun _ _ => channel_verify b)) by done.
  unfold channel_verify. rewrite (recv_authenticated_run b key (current_tid a) (send_nonce a) local); try done.
  - destruct (Z.leb_spec (send_nonce a) (seqno_for (current_tid b =? main_thread) local)); [lia|]. done.
  - lia.
  - unfold max_num_threads in *. lia.
  - rewrite u64_small; lia.
Qed.

End Consensus.

(** The environment of [RaftWire.sim_env] with the channel of the responder of [ChannelScenarios]. *)
Definition channel_env : AftEnv :=
  let verify := channel_verify (CC := toy all_known) b2 in {|
  env_asserts := true;
  env_send _ _ _ := true;
  env_have_channel _ _ := true;
  env_recv_append_entries _ _ := RaftWire.recv_authenticated 57 overlay_AppendEntries verify;
  env_recv_append_entries_response _ _ := RaftWire.recv_authenticated 25 overlay_AppendEntriesResponse verify;
  env_recv_request_vote _ _ := RaftWire.recv_authenticated 32 overlay_RequestVote verify;
  env_recv_request_vote_response _ _ := RaftWire.recv_authenticated 17 overlay_RequestVoteResponse verify;
  env_get_entry := sim_get_entry;
  env_skip_entry data := snd <$> sim_get_entry data;
  env_store_apply _ entry _ _ := Some (fun _ => sim_apply entry);
  env_find_reconfiguration _ _ := None;
  env_have_resharing_result_for _ _ _ := false;
  env_random _ := 0;
  env_empty_back_nodes := ∅
|}.

(** A node that hears of a vote request with a newer term adopts the term. *)
Lemma consensus_message_delivered_witness :
  exists payload, current_view (state (fst (@recv_message channel_env "n1" payload (sim_node "n0")))) = 5.
Proof.
  destruct (consensus_message_delivered (CC := toy all_known) (CL := toy_laws all_known) a2 b2 channel_env "n1"
    (MsgRequestVote (MkRequestVote 5 0 0)) [] (sim_node "n0")) as (a' & payload & _ & _ & H).
  1:{ split; [vm_compute; reflexivity|]. split; [vm_compute; reflexivity|]. split; eexists; (split; vm_compute; reflexivity). }
  1-7: evaluate.
  1: by split.
  1: repeat constructor; done.
  exists (payload ++ []). rewrite H. vm_compute. reflexivity.
Defined.
