(* ===== verification/KvMap.v ===== *)
(** A map of the key-value store: src/kv/untyped_map.h, version_v.h and
    untyped_change_set.h.

    A map keeps the roll of its local commits, oldest first, each with the
    whole state at that version; transactions read one of these states through a
    change set and commit by appending to the roll.  A [State] (champ::Map or
    rb::Map) is a finite map.  [std::map] iterations whose result does not depend
    on the order run over [map_to_list]. *)

From S2P Require Import Prelude Serialized.

Abbreviation Key := bytes.
Abbreviation Value := bytes.

Definition NoVersion : Z := 0.

(** Conversion to [DeletableVersion]. *)
Definition i64 (z : Z) : Z := (z + 2 ^ 63) `mod` 2 ^ 64 - 2 ^ 63.

Definition is_deleted (version : Z) : bool := version <? 0.

Record VersionV := MkVersionV { version : Z; read_version : Z; value : Value }.

Abbreviation KvState := (gmap Key VersionV).

(** A write set: a value, or [None] for a removal. *)
Abbreviation Write := (gmap Key (option Value)).

(** ** Change sets *)

Record ChangeSet := MkChangeSet {
  cs_rollback_counter : Z;
  cs_state : KvState;
  cs_committed : KvState;
  cs_start_version : Z;
  cs_read_version : Z;
  cs_reads : gmap Key (Z * Z);
  cs_writes : Write
}.
#[export] Instance eta_ChangeSet : Settable ChangeSet := fun r =>
  MkChangeSet (cs_rollback_counter r) (cs_state r) (cs_committed r) (cs_start_version r)
    (cs_read_version r) (cs_reads r) (cs_writes r).

Definition new_change_set (rollbacks : Z) (current_state committed_state : KvState)
    (current_version : Z) : ChangeSet :=
  MkChangeSet rollbacks current_state committed_state current_version NoVersion ∅ ∅.

Definition is_empty {A} (w : gmap Key A) : bool := bool_decide (w = ∅).

Definition has_writes (cs : ChangeSet) : bool := negb (is_empty (cs_writes cs)).

(** ** The roll *)

Record LocalCommit := MkLocalCommit { lc_version : Z; lc_state : KvState; lc_writes : Write }.

(** [roll.commits], [roll.rollback_counter], the presence of the hooks, and
    [commit_deltas]. The list of recycled nodes has no effect on the contents. *)
Record Map := MkMap {
  commits : list LocalCommit;
  rollback_counter : Z;
  global_hook : bool;
  hook : bool;
  commit_deltas : list (Z * Write)
}.
#[export] Instance eta_Map : Settable Map := fun r =>
  MkMap (commits r) (rollback_counter r) (global_hook r) (hook r) (commit_deltas r).

Definition initial_commits : list LocalCommit := [MkLocalCommit 0 ∅ ∅].

Definition new_map : Map := MkMap initial_commits 0 false false [].

(** The last entry committed at or before a version: the search from the tail
    of [create_change_set] and [snapshot]. *)
Fixpoint find_commit (v : Z) (l : list LocalCommit) : option LocalCommit :=
  match l with
  | [] => None
  | c :: l =>
      match find_commit v l with
      | Some c' => Some c'
      | None => if lc_version c <=? v then Some c else None
      end
  end.

Definition create_change_set (m : Map) (v : Z) : option ChangeSet :=
  match head (commits m), find_commit v (commits m) with
  | Some h, Some c =>
      Some (new_change_set (rollback_counter m) (lc_state c) (lc_state h) (lc_version c))
  | _, _ => None
  end.

(** The state and version a snapshot at [v] holds. *)
Definition snapshot (m : Map) (v : Z) : option (Z * KvState) :=
  match find_commit v (commits m) with
  | Some c => Some (lc_version c, lc_state c)
  | None => c ← head (commits m); Some (lc_version c, lc_state c)
  end.

(** ** [HandleCommitter] *)

(** One iteration of the loop over the read set. *)
Definition read_valid (current : KvState) (track : bool) (r : Key * (Z * Z)) : bool :=
  let '(k, (v, rv)) := r in
  match current !! k with
  | None => v =? NoVersion
  | Some found =>
      negb (v =? NoVersion) && (v =? version found) && (negb track || (rv =? read_version found))
  end.

Definition prepare (m : Map) (cs : ChangeSet) (track : bool) : bool :=
  if is_empty (cs_writes cs) then true
  else if negb (cs_rollback_counter cs =? rollback_counter m) then false
  else
    match last (commits m) with
    | None => false
    | Some current =>
        if negb (cs_read_version cs =? NoVersion) && negb (cs_read_version cs =? lc_version current)
        then false
        else forallb (read_valid (lc_state current) track) (map_to_list (cs_reads cs))
    end.

(** One iteration of the loop over the write set: the new state, and whether
    it has changed. *)
Definition apply_write (v : Z) (acc : KvState * bool) (w : Key * option Value) : KvState * bool :=
  let '(st, changes) := acc in
  let '(k, o) := w in
  match o with
  | Some x => (<[k := MkVersionV (i64 v) v x]> st, true)
  | None =>
      match st !! k with
      | Some _ => (<[k := MkVersionV (- i64 v) v []]> st, true)
      | None => (st, changes)
      end
  end.

(** The read versions of the keys that were read. *)
Definition mark_read (v : Z) (st : KvState) (r : Key * (Z * Z)) : KvState :=
  match st !! fst r with
  | Some x => <[fst r := MkVersionV (version x) v (value x)]> st
  | None => st
  end.

(** Returns [commit_version]. *)
Definition commit (cs : ChangeSet) (v : Z) (track : bool) : ST Map Z :=
  if is_empty (cs_writes cs) && negb track then mret (cs_start_version cs)
  else
    m ← get;
    match last (commits m) with
    | None => throw UndefinedBehaviour
    | Some current =>
        let st := lc_state current in
        let st := if track then foldl (mark_read v) st (map_to_list (cs_reads cs)) else st in
        if track && is_empty (cs_writes cs) then
          commits <~ commits m ++ [MkLocalCommit (cs_start_version cs) st (cs_writes cs)];;
          mret (cs_start_version cs)
        else
          let '(st, changes) := foldl (apply_write v) (st, false) (map_to_list (cs_writes cs)) in
          (if (changes : bool) then commits <~ commits m ++ [MkLocalCommit v st (cs_writes cs)]
           else skip);;
          mret v
    end.

(** ** [SnapshotHandleCommitter] *)

Definition snapshot_writes (st : KvState) : Write :=
  (fun x => if is_deleted (version x) then None else Some (value x)) <$> st.

Definition commit_snapshot (st : KvState) (v : Z) : ST Map unit :=
  modify (fun m => m <| commits := [MkLocalCommit v st
      (if hook m || global_hook m then snapshot_writes st else ∅)] |>
    <| rollback_counter := u64 (rollback_counter m + 1) |>).

(** ** Compaction and rollback *)

(** [commit_deltas.emplace_back(r->version, std::move(r->writes))]. *)
Definition move_writes (c : LocalCommit) : LocalCommit := MkLocalCommit (lc_version c) (lc_state c) ∅.

Fixpoint compact_commits (has_hook : bool) (v : Z) (l : list LocalCommit) :
    list LocalCommit * list (Z * Write) :=
  match l with
  | r :: ((next :: _) as rest) =>
      if lc_version r =? v then
        if has_hook then (move_writes r :: rest, [(lc_version r, lc_writes r)]) else (l, [])
      else
        let moved := has_hook && negb (is_empty (lc_writes r)) in
        let delta := if moved then [(lc_version r, lc_writes r)] else [] in
        if v <? lc_version next then ((if moved then move_writes r else r) :: rest, delta)
        else let '(l', deltas) := compact_commits has_hook v rest in (l', delta ++ deltas)
  | [r] =>
      if has_hook && negb (is_empty (lc_writes r))
      then ([move_writes r], [(lc_version r, lc_writes r)]) else (l, [])
  | [] => ([], [])
  end.

Definition compact (v : Z) : ST Map unit :=
  modify (fun m =>
    let '(l, deltas) := compact_commits (global_hook m) v (commits m) in
    m <| commits := l |> <| commit_deltas := commit_deltas m ++ deltas |>).

(** Returns the calls of the global hook. *)
Definition post_compact : ST Map (list (Z * Write)) :=
  m ← get;
  commit_deltas <~ [];;
  mret (if global_hook m then commit_deltas m else []).

(** The loop from the tail, on the reversed roll; the oldest entry stays. *)
Fixpoint pop_tail_above (v : Z) (l : list LocalCommit) : list LocalCommit :=
  match l with
  | r :: ((_ :: _) as rest) => if lc_version r <=? v then l else pop_tail_above v rest
  | _ => l
  end.

Definition rollback_commits (v : Z) (l : list LocalCommit) : list LocalCommit :=
  reverse (pop_tail_above v (reverse l)).

Definition rollback (v : Z) : ST Map unit :=
  modify (fun m =>
    let l := rollback_commits v (commits m) in
    let advance := negb (length l =? length (commits m))%nat in
    m <| commits := l |>
      <| rollback_counter :=
           if advance then u64 (rollback_counter m + 1) else rollback_counter m |>).

Definition clear : ST Map unit :=
  modify (fun m => m <| commits := initial_commits |> <| rollback_counter := 0 |>).

(** [swap] exchanges the rolls of two maps. *)
Definition swap (m1 m2 : Map) : Map * Map :=
  (m1 <| commits := commits m2 |> <| rollback_counter := rollback_counter m2 |>,
   m2 <| commits := commits m1 |> <| rollback_counter := rollback_counter m1 |>).

(** [operator==], for maps of the same name. *)
Definition eqb_map (m1 m2 : Map) : bool :=
  match last (commits m1), last (commits m2) with
  | Some c1, Some c2 =>
      (lc_version c1 =? lc_version c2) &&
      forallb (fun '(k, x) =>
        match lc_state c2 !! k with
        | Some y => (version y =? version x) && bool_decide (value y = value x)
        | None => false
        end) (map_to_list (lc_state c1)) &&
      (size (lc_state c1) =? size (lc_state c2))%nat
  | _, _ => false
  end.

(** What [trigger_map_hook] passes to the hook, if it calls it. *)
Definition trigger_map_hook (m : Map) (v : Z) (writes : Write) : option (Z * Write) :=
  if hook m && negb (is_empty writes) then Some (v, writes) else None.
