(* ===== verification/KvRoll.v ===== *)
(** The roll of a map: commits, rollback, compaction and the validation of transactions; the roll as a history of states: its
    invariant, what rollback and compaction do to the states that can be read, and the delivery of write sets to the global
    hook. *)

From S2P Require Import Prelude Serialized KvMap.

(** The value a reader sees, which is none for a deleted key. *)
Definition live (st : KvState) (k : Key) : option Value :=
  match st !! k with
  | Some x => if is_deleted (version x) then None else Some (value x)
  | None => None
  end.

Lemma is_empty_true {A} (w : gmap Key A) : w = ∅ -> is_empty w = true.
Proof. apply bool_decide_eq_true_2. Qed.

Lemma is_empty_false {A} (w : gmap Key A) : w <> ∅ -> is_empty w = false.
Proof. apply bool_decide_eq_false_2. Qed.

(** ** Folds over the elements of a finite map *)

Lemma foldl_writes_lookup v (l : list (Key * option Value)) st b k :
  NoDup l.*1 ->
  fst (foldl (apply_write v) (st, b) l) !! k =
  match list_to_map (M:=Write) l !! k with
  | Some (Some x) => Some (MkVersionV (i64 v) v x)
  | Some None => match st !! k with Some _ => Some (MkVersionV (- i64 v) v []) | None => None end
  | None => st !! k
  end.
Proof.
  revert st b. induction l as [|[k' o] l IH]; intros st b Hnd; [done|].
  cbn [fmap list_fmap fst] in Hnd. apply NoDup_cons in Hnd as [Hnot Hnd].
  cbn [foldl apply_write list_to_map fst snd foldr uncurry].
  assert (list_to_map (M:=Write) l !! k' = None) as Hk' by (by apply not_elem_of_list_to_map_1).
  destruct o as [x|]; [|destruct (st !! k') as [y|] eqn:Ey].
  - rewrite IH by done. destruct (decide (k = k')) as [->|Hne].
    + by rewrite Hk', lookup_insert_eq, lookup_insert_eq.
    + by rewrite !lookup_insert_ne by done.
  - rewrite IH by done. destruct (decide (k = k')) as [->|Hne].
    + by rewrite Hk', lookup_insert_eq, lookup_insert_eq, Ey.
    + by rewrite !lookup_insert_ne by done.
  - rewrite IH by done. destruct (decide (k = k')) as [->|Hne].
    + by rewrite Hk', lookup_insert_eq, Ey.
    + by rewrite lookup_insert_ne by done.
Qed.

(** The state after the writes of a transaction. *)
Definition written (v : Z) (w : Write) (st : KvState) : KvState :=
  fst (foldl (apply_write v) (st, false) (map_to_list w)).

Lemma written_lookup v w st k :
  written v w st !! k =
  match w !! k with
  | Some (Some x) => Some (MkVersionV (i64 v) v x)
  | Some None => match st !! k with Some _ => Some (MkVersionV (- i64 v) v []) | None => None end
  | None => st !! k
  end.
Proof.
  unfold written. rewrite foldl_writes_lookup by apply NoDup_fst_map_to_list.
  by rewrite list_to_map_to_list.
Qed.

(** If no write is recorded as a change, the state is the same. *)
Lemma foldl_writes_unchanged v l st b :
  snd (foldl (apply_write v) (st, b) l) = false ->
  fst (foldl (apply_write v) (st, b) l) = st /\ Forall (fun '(k, o) => o = None /\ st !! k = None) l.
Proof.
  assert (forall l st, snd (foldl (apply_write v) (st, true) l) = true) as Htrue.
  { intros l'. induction l' as [|[k' o] l' IH]; intros st'; [done|]. cbn.
    destruct o; [apply IH|]. destruct (st' !! k'); apply IH. }
  revert st b. induction l as [|[k' o] l IH]; intros st b; [done|]. cbn.
  destruct o; [by rewrite Htrue|]. destruct (st !! k') eqn:E; [by rewrite Htrue|].
  intros [? ?]%IH. by split; [|constructor].
Qed.

Lemma i64_small v : 0 <= v < 2 ^ 63 -> i64 v = v.
Proof. intros H. unfold i64. rewrite Z.mod_small; lia. Qed.

Lemma live_written v w st k :
  0 < v < 2 ^ 63 ->
  live (written v w st) k = match w !! k with Some o => o | None => live st k end.
Proof.
  intros Hv. unfold live. rewrite written_lookup. destruct (w !! k) as [[x|]|]; [..|done].
  - unfold is_deleted. cbn [version value]. rewrite i64_small by lia.
    by destruct (Z.ltb_spec v 0); [lia|].
  - destruct (st !! k); [|done]. unfold is_deleted. cbn [version value].
    rewrite i64_small by lia. by destruct (Z.ltb_spec (- v) 0); [|lia].
Qed.

(** ** Commit *)

(** Whether committing the writes is recorded as a change: not if they only
    remove keys that are not there. *)
Definition changes_state (v : Z) (w : Write) (st : KvState) : bool :=
  snd (foldl (apply_write v) (st, false) (map_to_list w)).

Lemma unchanged_written v w st :
  changes_state v w st = false ->
  written v w st = st /\ forall k o, w !! k = Some o -> o = None /\ st !! k = None.
Proof.
  intros [Hst Hall]%foldl_writes_unchanged. split; [done|]. intros k o Hk.
  rewrite Forall_forall in Hall. apply (Hall (k, o)). by apply elem_of_map_to_list.
Qed.

Lemma commit_nothing m cs v :
  cs_writes cs = ∅ -> commit cs v false m = (m, Ret (cs_start_version cs)).
Proof. intros He. unfold commit. by rewrite is_empty_true. Qed.

(** [HandleCommitter::commit] without read tracking. *)
Lemma commit_eq m cs v c :
  last (commits m) = Some c -> cs_writes cs <> ∅ ->
  commit cs v false m =
  (if changes_state v (cs_writes cs) (lc_state c) then
     m <| commits := commits m ++
       [MkLocalCommit v (written v (cs_writes cs) (lc_state c)) (cs_writes cs)] |>
   else m, Ret v).
Proof.
  intros Hl He. unfold commit. rewrite is_empty_false by done.
  cbn [andb]. unfold mbind, ST_bind, get. cbn [andb]. rewrite Hl.
  unfold changes_state, written. by destruct (foldl _ _ _) as [st []].
Qed.

(** Committing a change set at version [v] gives a state in which every
    written key has its new value, every removed key has none, and all other
    keys are as before; the state is added to the roll under [v] unless every
    write removes a key that was never there.  A change set without writes
    changes nothing and reports the version it started from. *)
Theorem commit_effect (m : Map) (cs : ChangeSet) (v : Z) (c : LocalCommit) :
  last (commits m) = Some c -> 0 < v < 2 ^ 63 ->
  let '(m', r) := commit cs v false m in
  (cs_writes cs = ∅ -> m' = m /\ r = Ret (cs_start_version cs)) /\
  (cs_writes cs <> ∅ -> r = Ret v /\ exists c', last (commits m') = Some c' /\
    (forall k, live (lc_state c') k =
      match cs_writes cs !! k with Some o => o | None => live (lc_state c) k end) /\
    (commits m' = commits m ++ [MkLocalCommit v (lc_state c') (cs_writes cs)] \/
     m' = m /\ forall k o, cs_writes cs !! k = Some o -> o = None /\ lc_state c !! k = None)).
Proof.
  intros Hl Hv. destruct (decide (cs_writes cs = ∅)) as [He|He].
  { rewrite commit_nothing by done. split; [done|]. intros Hne. by destruct Hne. }
  rewrite (commit_eq m cs v c) by done. split; [done|]. intros _. split; [done|].
  destruct (changes_state _ _ _) eqn:E; cbn.
  - eexists. rewrite last_snoc. split; [done|]. cbn. split; [|by left].
    intros k. by apply live_written.
  - exists c. destruct (unchanged_written _ _ _ E) as [Hst Hall].
    split; [done|]. split; [|by right]. intros k. by rewrite <- (live_written v), Hst.
Qed.

Definition sample_map : Map :=
  MkMap [MkLocalCommit 0 ∅ ∅;
         MkLocalCommit 3 {[ [1] := MkVersionV 3 3 [10]; [2] := MkVersionV 3 3 [20] ]}
           {[ [1] := Some [10]; [2] := Some [20] ]}] 0 false false [].

Definition sample_changes : ChangeSet :=
  (new_change_set 0 ∅ ∅ 3) <| cs_writes := {[ [1] := None; [4] := Some [40] ]} |>.

Lemma commit_effect_witness :
  exists c', last (commits (fst (commit sample_changes 7 false sample_map))) = Some c' /\
    live (lc_state c') [1] = None /\ live (lc_state c') [2] = Some [20] /\
    live (lc_state c') [4] = Some [40].
Proof.
  pose proof (commit_effect sample_map sample_changes 7 _ eq_refl ltac:(lia)) as H.
  destruct (commit _ 7 false sample_map) as [m' r]. cbn [fst].
  destruct H as [_ H]. destruct H as [_ (c' & Hl & Hlive & _)]; [discriminate|].
  exists c'. split; [exact Hl|]. rewrite !Hlive. split; [|split]; reflexivity.
Defined.

(** ** The invariant *)

(** From one commit to a later one, every entry is kept or has a version in
    between. *)
Definition follows (c1 c2 : LocalCommit) : Prop :=
  lc_version c1 < lc_version c2 /\
  forall k, lc_state c2 !! k = lc_state c1 !! k \/
    exists x, lc_state c2 !! k = Some x /\ lc_version c1 < Z.abs (version x) <= lc_version c2.

#[export] Instance follows_trans : Transitive follows.
Proof.
  intros c1 c2 c3 [Hv1 H1] [Hv2 H2]. split; [lia|]. intros k.
  destruct (H2 k) as [->|(x & -> & ?)].
  - destruct (H1 k) as [->|(x & -> & ?)]; [by left|]. right. exists x. split; [done|lia].
  - right. exists x. split; [done|lia].
Qed.

Definition commit_ok (c : LocalCommit) : Prop :=
  0 <= lc_version c < 2 ^ 63 /\
  map_Forall (fun _ x => 1 <= Z.abs (version x) <= lc_version c) (lc_state c).

Definition roll_ok (l : list LocalCommit) : Prop :=
  l <> [] /\ StronglySorted follows l /\ Forall commit_ok l.

(** What the invariant depends on. *)
Definition core (c : LocalCommit) : Z * KvState := (lc_version c, lc_state c).

Lemma core_follows c1 c1' c2 c2' :
  core c1 = core c1' -> core c2 = core c2' -> follows c1 c2 -> follows c1' c2'.
Proof. destruct c1, c1', c2, c2'. unfold core. cbn. intros ??. simplify_eq. done. Qed.

Lemma core_commit_ok c c' : core c = core c' -> commit_ok c -> commit_ok c'.
Proof. destruct c, c'. unfold core. cbn. intros ?. simplify_eq. done. Qed.

Lemma core_Forall2 l l' : core <$> l = core <$> l' -> Forall2 (fun c c' => core c = core c') l l'.
Proof. by intros ?%list_eq_Forall2%Forall2_fmap_1. Qed.

Lemma roll_ok_core l l' : core <$> l = core <$> l' -> roll_ok l -> roll_ok l'.
Proof.
  intros Hc%core_Forall2 (Hne & Hs & Hok). split_and!.
  - intros ->. by inversion Hc; subst.
  - clear Hne Hok. induction Hc as [|c c' l l' Hcc Hc IH]; [constructor|].
    apply StronglySorted_cons in Hs as [Hall Hs]. apply StronglySorted_cons. split; [|auto].
    eapply Forall2_Forall_r; [done|]. eapply Forall_impl; [done|]. eauto using core_follows.
  - eapply Forall2_Forall_r; [done|]. eapply Forall_impl; [done|]. eauto using core_commit_ok.
Qed.

Lemma roll_ok_take n l : (0 < n)%nat -> roll_ok l -> roll_ok (take n l).
Proof.
  intros Hn (Hne & Hs & Hok). split_and!.
  - destruct l, n; try done; lia.
  - rewrite <- (take_drop n l) in Hs. by apply StronglySorted_app_1_l in Hs.
  - by apply Forall_take.
Qed.

Lemma roll_ok_drop n l : (n < length l)%nat -> roll_ok l -> roll_ok (drop n l).
Proof.
  intros Hn (Hne & Hs & Hok). split_and!.
  - intros E%(f_equal length). rewrite length_drop in E. cbn in E. lia.
  - rewrite <- (take_drop n l) in Hs. by apply StronglySorted_app_1_r in Hs.
  - by apply Forall_drop.
Qed.

(** Every commit of the roll leads up to its tail. *)
Lemma roll_ok_last l c d :
  roll_ok l -> last l = Some c -> d ∈ l -> d = c \/ follows d c.
Proof.
  intros (_ & Hs & _) (l' & ->)%last_Some. rewrite elem_of_app, list_elem_of_singleton.
  intros [Hd| ->]; [|by left]. right.
  eapply StronglySorted_app_1_elem_of; [done..|]. by apply list_elem_of_singleton.
Qed.

Lemma roll_ok_snoc l c c' :
  roll_ok l -> last l = Some c -> follows c c' -> commit_ok c' -> roll_ok (l ++ [c']).
Proof.
  intros Hl Hlast Hf Hok. pose proof Hl as (Hne & Hs & Hall). split_and!.
  - by intros [? ?]%app_nil.
  - apply StronglySorted_app_2; [|done|repeat constructor].
    intros d ? Hd ->%list_elem_of_singleton.
    destruct (roll_ok_last _ _ _ Hl Hlast Hd) as [->|?]; [done|]. by transitivity c.
  - by apply Forall_app_2; [|constructor].
Qed.

Lemma roll_ok_tail l c : roll_ok l -> last l = Some c -> commit_ok c.
Proof.
  intros (_ & _ & Hall) Hl. rewrite Forall_forall in Hall. apply Hall.
  apply last_Some in Hl as (l' & ->). apply elem_of_app. right. by apply list_elem_of_singleton.
Qed.

Lemma roll_ok_initial : roll_ok initial_commits.
Proof.
  split_and!; [done|repeat constructor|]. constructor; [|constructor].
  split; [cbn; lia|]. apply map_Forall_empty.
Qed.

(** ** Commit, rollback and compaction preserve it *)

(** The commit a write set makes. *)
Lemma written_follows v w c :
  lc_version c < v < 2 ^ 63 -> commit_ok c ->
  follows c (MkLocalCommit v (written v w (lc_state c)) w) /\
  commit_ok (MkLocalCommit v (written v w (lc_state c)) w).
Proof.
  intros Hv [Hc Hall]. unfold follows, commit_ok. cbn [lc_version lc_state]. split; [split; [lia|]|split; [lia|]].
  - intros k. rewrite written_lookup. destruct (w !! k) as [[x|]|]; [| |by left].
    + right. eexists. split; [done|]. cbn. rewrite i64_small; lia.
    + destruct (lc_state c !! k); [|by left]. right. eexists. split; [done|]. cbn.
      rewrite i64_small; lia.
  - intros k x. rewrite written_lookup. destruct (w !! k) as [[y|]|].
    + intros [= <-]. cbn. rewrite i64_small; lia.
    + destruct (lc_state c !! k); [|done]. intros [= <-]. cbn. rewrite i64_small; lia.
    + intros Hx%Hall. lia.
Qed.

Lemma commit_roll cs v m c :
  roll_ok (commits m) -> last (commits m) = Some c -> lc_version c < v < 2 ^ 63 ->
  roll_ok (commits (fst (commit cs v false m))).
Proof.
  intros Hm Hl Hv. destruct (decide (cs_writes cs = ∅)) as [He|He].
  { by rewrite commit_nothing. }
  rewrite (commit_eq m cs v c) by done. cbn [fst]. destruct (changes_state _ _ _); [|done].
  destruct (written_follows v (cs_writes cs) c); [done|by eapply roll_ok_tail|].
  cbn. by eapply roll_ok_snoc.
Qed.

(** ** Reading at a version *)

Abbreviation upto v := (fun c => lc_version c <= v).

Lemma find_commit_last v l : find_commit v l = last (filter (upto v) l).
Proof.
  induction l as [|c l IH]; [done|]. cbn [find_commit]. rewrite IH, filter_cons.
  destruct (Z.leb_spec (lc_version c) v).
  - rewrite decide_True, last_cons by done. by destruct (last _).
  - rewrite decide_False by lia. by destruct (last _).
Qed.

(** The state a transaction that reads at version [v] sees. *)
Definition state_at (v : Z) (l : list LocalCommit) : option (Z * KvState) := core <$> find_commit v l.

Lemma upto_mono u v l : u <= v -> Forall (upto u) l -> Forall (upto v) l.
Proof. intros Huv H. eapply Forall_impl; [exact H|]. cbn. intros c. lia. Qed.

Lemma above_mono u v l : u <= v -> Forall (fun c => v < lc_version c) l ->
  Forall (fun c => u < lc_version c) l.
Proof. intros Huv H. eapply Forall_impl; [exact H|]. cbn. intros c. lia. Qed.

Lemma roll_ok_cons c l : roll_ok (c :: l) -> Forall (fun d => lc_version c < lc_version d) l.
Proof.
  intros (_ & [Hall _]%StronglySorted_cons & _). eapply Forall_impl; [done|]. by intros d [? _].
Qed.

Lemma roll_ok_rest c l : l <> [] -> roll_ok (c :: l) -> roll_ok l.
Proof. intros Hne H. apply (roll_ok_drop 1) in H; [done|]. destruct l; [done|]. cbn. lia. Qed.

(** ** Rollback *)

Lemma pop_tail_above_cons v c d l :
  pop_tail_above v (c :: d :: l) =
  if lc_version c <=? v then c :: d :: l else pop_tail_above v (d :: l).
Proof. done. Qed.

Lemma pop_tail_above_drop v l :
  l <> [] -> exists n, pop_tail_above v l = drop n l /\ (n < length l)%nat.
Proof.
  induction l as [|c l IH]; [done|]. intros _. destruct l as [|d l].
  { exists 0%nat. cbn. split; [done|lia]. }
  rewrite pop_tail_above_cons. destruct (lc_version c <=? v).
  - exists 0%nat. split; [done|]. cbn. lia.
  - destruct IH as (n & Hn & ?); [done|]. exists (S n). split; [by rewrite Hn|]. cbn in *. lia.
Qed.

Lemma rollback_commits_take v l :
  l <> [] -> exists n, rollback_commits v l = take n l /\ (0 < n <= length l)%nat.
Proof.
  intros Hne. destruct (pop_tail_above_drop v (reverse l)) as (n & Hn & Hlen).
  { intros E. apply Hne. by rewrite <- (reverse_involutive l), E. }
  rewrite length_reverse in Hlen. exists (length l - n)%nat. split; [|lia].
  unfold rollback_commits. by rewrite Hn, reverse_drop, reverse_involutive, length_reverse.
Qed.

(** Newest first: the oldest commit stays whatever its version. *)
Lemma pop_tail_above_filter v l c :
  last l = Some c -> lc_version c <= v -> StronglySorted (flip follows) l ->
  pop_tail_above v l = filter (upto v) l.
Proof.
  induction l as [|d l IH]; [done|]. intros Hl Hc [Hall Hs]%StronglySorted_cons.
  rewrite filter_cons. destruct l as [|e l].
  { injection Hl as ->. by rewrite decide_True. }
  rewrite pop_tail_above_cons.
  destruct (Z.leb_spec (lc_version d) v).
  - rewrite decide_True by done. f_equal. symmetry. apply filter_all.
    eapply Forall_impl; [exact Hall|]. intros x [? _]. lia.
  - rewrite decide_False by lia. by apply IH.
Qed.

Lemma StronglySorted_reverse {A} (R : A -> A -> Prop) l :
  StronglySorted R l -> StronglySorted (flip R) (reverse l).
Proof.
  induction 1 as [|x l Hs IH Hall]; [constructor|]. rewrite reverse_cons.
  apply StronglySorted_app_2; [|done|repeat constructor].
  intros y z Hy ->%list_elem_of_singleton. rewrite elem_of_reverse in Hy.
  rewrite Forall_forall in Hall. by apply Hall.
Qed.

Lemma filter_reverse {A} (P : A -> Prop) `{!forall x, Decision (P x)} (l : list A) :
  filter P (reverse l) = reverse (filter P l).
Proof.
  induction l as [|x l IH]; [done|]. rewrite reverse_cons, filter_app, IH, !filter_cons, filter_nil.
  destruct (decide (P x)); [by rewrite reverse_cons|by rewrite app_nil_r].
Qed.

Lemma rollback_commits_filter v l c :
  roll_ok l -> head l = Some c -> lc_version c <= v ->
  rollback_commits v l = filter (upto v) l.
Proof.
  intros (_ & Hs & _) Hh Hc. unfold rollback_commits.
  rewrite (pop_tail_above_filter v _ c), filter_reverse, reverse_involutive; try done.
  - destruct l; [done|]. injection Hh as ->. by rewrite reverse_cons, last_snoc.
  - by apply StronglySorted_reverse.
Qed.

Lemma rollback_roll v m : roll_ok (commits m) -> roll_ok (commits (fst (rollback v m))).
Proof.
  intros Hm. cbn. destruct (rollback_commits_take v (commits m)) as (n & -> & ?); [apply Hm|].
  apply roll_ok_take; [lia|done].
Qed.

(** ** Compaction *)

Abbreviation above v := (fun c => v < lc_version c).

Lemma compact_commits_cons h v c d l :
  compact_commits h v (c :: d :: l) =
  if lc_version c =? v then
    if h then (move_writes c :: d :: l, [(lc_version c, lc_writes c)]) else (c :: d :: l, [])
  else
    let moved := h && negb (is_empty (lc_writes c)) in
    let delta := if moved then [(lc_version c, lc_writes c)] else [] in
    if v <? lc_version d then ((if moved then move_writes c else c) :: d :: l, delta)
    else let '(l', deltas) := compact_commits h v (d :: l) in (l', delta ++ deltas).
Proof. done. Qed.

Lemma compact_commits_drop h v l :
  l <> [] -> exists n, core <$> fst (compact_commits h v l) = core <$> drop n l /\ (n < length l)%nat.
Proof.
  induction l as [|c l IH]; [done|]. intros _. destruct l as [|d l].
  { exists 0%nat. split; [|cbn; lia]. cbn. by destruct (h && _). }
  rewrite compact_commits_cons. destruct (_ =? _).
  { exists 0%nat. split; [|cbn; lia]. by destruct h. }
  cbn zeta. destruct (_ <? _).
  { exists 0%nat. split; [|cbn; lia]. by destruct (h && _). }
  destruct IH as (n & Hn & Hlen); [done|]. exists (S n). split; [|cbn in *; lia].
  by destruct (compact_commits h v (d :: l)).
Qed.

Lemma compact_roll v m : roll_ok (commits m) -> roll_ok (commits (fst (compact v m))).
Proof.
  intros Hm. cbn. destruct (compact_commits_drop (global_hook m) v (commits m)) as (n & Hn & Hlen);
    [apply Hm|].
  destruct (compact_commits _ _ _) as [l deltas]. cbn in *.
  eapply roll_ok_core; [symmetry; exact Hn|]. by apply roll_ok_drop.
Qed.

(** What is left is the state at [v] and the later commits. *)
Lemma compact_commits_filter h v l c :
  roll_ok l -> head l = Some c -> lc_version c <= v ->
  exists d, find_commit v l = Some d /\
    core <$> fst (compact_commits h v l) = core d :: (core <$> filter (above v) l).
Proof.
  setoid_rewrite find_commit_last. revert c. induction l as [|c l IH]; [done|].
  intros c' Hok [= <-] Hc. rewrite filter_cons_True, filter_cons_False by lia.
  assert (forall m' : LocalCommit, Forall (above v) l -> core m' = core c ->
    exists d, last (c :: filter (upto v) l) = Some d /\
      core <$> m' :: l = core d :: (core <$> filter (above v) l)) as Hstop.
  { intros m' Hall E. exists c. rewrite filter_none, filter_all; [|done|].
    - split; [done|]. cbn. by rewrite E.
    - eapply Forall_impl; [exact Hall|]. intros d. cbn. lia. }
  pose proof (roll_ok_cons _ _ Hok) as Hlt.
  destruct l as [|d l].
  { cbn [compact_commits]. destruct (h && _); by apply Hstop. }
  rewrite compact_commits_cons. destruct (Z.eqb_spec (lc_version c) v) as [<-|Hne].
  { destruct h; by apply Hstop. }
  apply roll_ok_rest in Hok; [|done]. cbn zeta. destruct (Z.ltb_spec v (lc_version d)) as [Hd|Hd].
  - pose proof (roll_ok_cons _ _ Hok) as Hlt'.
    assert (Forall (above v) (d :: l)) as Hall.
    { constructor; [done|]. eapply Forall_impl; [exact Hlt'|]. intros e. cbn. lia. }
    destruct (h && _); by apply Hstop.
  - destruct (IH d Hok eq_refl Hd) as (e & He & Hcore). exists e.
    rewrite last_cons, He. split; [done|]. by destruct (compact_commits h v (d :: l)).
Qed.

(** A version before the roll: nothing is discarded. *)
Lemma compact_commits_before h v l c :
  roll_ok l -> head l = Some c -> v < lc_version c ->
  core <$> fst (compact_commits h v l) = core <$> l.
Proof.
  intros Hok Hh Hv. destruct l as [|? l]; [done|]. injection Hh as ->. destruct l as [|d l].
  { cbn. by destruct (h && _). }
  rewrite compact_commits_cons. assert (lc_version c < lc_version d) by exact (Forall_inv (roll_ok_cons _ _ Hok)).
  destruct (Z.eqb_spec (lc_version c) v); [lia|]. cbn zeta.
  destruct (Z.ltb_spec v (lc_version d)); [|lia]. by destruct (h && _).
Qed.

Lemma last_core l l' : core <$> l = core <$> l' -> core <$> last l = core <$> last l'.
Proof. intros E. by rewrite <- !fmap_last, E. Qed.

Lemma state_at_core v l l' : core <$> l = core <$> l' -> state_at v l = state_at v l'.
Proof.
  intros E%core_Forall2. unfold state_at. induction E as [|c c' l l' Hc E IH]; [done|].
  cbn [find_commit]. destruct (find_commit v l), (find_commit v l'); try done.
  assert (lc_version c = lc_version c') as -> by (by injection Hc).
  destruct (_ <=? _); [|done]. cbn. by rewrite Hc.
Qed.

(** ** What a map promises *)

(** The contents at every version, the version of the store, and the version
    before which nothing needs to be kept. *)
Record History := MkHistory {
  contents : Z -> Key -> option Value;
  current : Z;
  compacted : Z
}.

Inductive MapOp :=
| OpCommit (cs : ChangeSet) (v : Z)
| OpRollback (v : Z)
| OpCompact (v : Z)
| OpPostCompact.

Definition overwrite (w : Write) (f : Key -> option Value) (k : Key) : option Value :=
  match w !! k with Some o => o | None => f k end.

Definition history_step (h : History) (op : MapOp) : History :=
  match op with
  | OpCommit cs v =>
      MkHistory (fun u => if u <? v then contents h u
                          else overwrite (cs_writes cs) (contents h (current h))) v (compacted h)
  | OpRollback v => MkHistory (fun u => contents h (Z.min u v)) (Z.min (current h) v) (compacted h)
  | OpCompact v => MkHistory (contents h) (current h) v
  | OpPostCompact => h
  end.

(** The conditions under which the store calls a map: versions grow, nothing
    before the compacted version is rolled back, and only what has been
    committed is compacted. *)
Definition allowed (h : History) (op : MapOp) : bool :=
  match op with
  | OpCommit _ v => (current h <? v) && (v <? 2 ^ 63)
  | OpRollback v => compacted h <=? v
  | OpCompact v => (compacted h <=? v) && (v <=? current h)
  | OpPostCompact => true
  end.

Definition map_step (m : Map) (op : MapOp) : Map :=
  match op with
  | OpCommit cs v => fst (commit cs v false m)
  | OpRollback v => fst (rollback v m)
  | OpCompact v => fst (compact v m)
  | OpPostCompact => fst (post_compact m)
  end.

Fixpoint all_allowed (h : History) (ops : list MapOp) : bool :=
  match ops with
  | [] => true
  | op :: ops => allowed h op && all_allowed (history_step h op) ops
  end.

Definition initial_history : History := MkHistory (fun _ _ => None) 0 0.

(** The roll [l] holds the history [h]. *)
Record holds (l : list LocalCommit) (h : History) : Prop := {
  holds_roll : roll_ok l;
  holds_head : exists c rest, l = c :: rest /\ lc_version c <= compacted h /\
    Forall (above (compacted h)) rest;
  holds_tail : Forall (upto (current h)) l;
  holds_versions : 0 <= compacted h <= current h;
  holds_contents u : compacted h <= u ->
    exists c, find_commit u l = Some c /\ forall k, live (lc_state c) k = contents h u k
}.

Lemma holds_initial : holds initial_commits initial_history.
Proof.
  split.
  - apply roll_ok_initial.
  - eexists _, []. split_and!; [done|cbn; lia|constructor].
  - by repeat constructor.
  - cbn. lia.
  - intros u Hu. cbn in *. destruct (Z.leb_spec 0 u); [|lia]. by eexists.
Qed.

(** The tail is what is read at the version of the store. *)
Lemma find_commit_upto v l : Forall (upto v) l -> find_commit v l = last l.
Proof. intros H. by rewrite find_commit_last, filter_all. Qed.

Lemma holds_last l h :
  holds l h -> exists c, last l = Some c /\ lc_version c <= current h /\
    forall k, live (lc_state c) k = contents h (current h) k.
Proof.
  intros H. destruct (holds_contents _ _ H (current h)) as (c & Hc & Hk); [apply H|].
  rewrite find_commit_upto in Hc by apply H. exists c. split_and!; [done| |done].
  pose proof (holds_tail _ _ H) as Ht. rewrite Forall_forall in Ht. by apply Ht, last_Some_elem_of.
Qed.

(** After the version of the store the contents no longer change. *)
Lemma holds_after l h u k : holds l h -> current h <= u -> contents h u k = contents h (current h) k.
Proof.
  intros H Hu. pose proof (holds_versions _ _ H).
  destruct (holds_contents _ _ H u) as (c & Hc & Hk); [lia|].
  destruct (holds_last _ _ H) as (d & Hd & _ & Hkd). rewrite find_commit_upto in Hc.
  - rewrite <- Hk, <- Hkd. congruence.
  - eapply upto_mono; [|apply H]. lia.
Qed.

Lemma find_commit_snoc v l c :
  find_commit v (l ++ [c]) = if lc_version c <=? v then Some c else find_commit v l.
Proof.
  rewrite !find_commit_last, filter_app, filter_cons, filter_nil.
  destruct (Z.leb_spec (lc_version c) v).
  - by rewrite decide_True, last_snoc.
  - by rewrite decide_False, app_nil_r by lia.
Qed.

(** A commit that is not recorded does not change the contents. *)
Lemma holds_same l h w v :
  holds l h -> current h < v ->
  (forall k, overwrite w (contents h (current h)) k = contents h (current h) k) ->
  holds l (MkHistory (fun u => if u <? v then contents h u
                               else overwrite w (contents h (current h))) v (compacted h)).
Proof.
  intros H Hv Hw. pose proof (holds_versions _ _ H). split; cbn [contents current compacted].
  - apply H.
  - apply H.
  - eapply upto_mono; [|apply H]. lia.
  - lia.
  - intros u Hu. destruct (holds_contents _ _ H u Hu) as (c & Hc & Hk). exists c. split; [done|].
    intros k. rewrite Hk. destruct (Z.ltb_spec u v); [done|]. rewrite Hw. apply (holds_after _ _ _ _ H). lia.
Qed.

Lemma holds_snoc l h w v c c' :
  holds l h -> current h < v -> last l = Some c -> follows c c' -> commit_ok c' -> lc_version c' = v ->
  (forall k, live (lc_state c') k = overwrite w (contents h (current h)) k) ->
  holds (l ++ [c']) (MkHistory (fun u => if u <? v then contents h u
                               else overwrite w (contents h (current h))) v (compacted h)).
Proof.
  intros H Hv Hl Hf Hok Hc' Hw. pose proof (holds_versions _ _ H). split; cbn [contents current compacted].
  - eapply roll_ok_snoc; [apply H|done..].
  - destruct (holds_head _ _ H) as (d & rest & -> & ? & ?). exists d, (rest ++ [c']).
    split_and!; [done..|]. apply Forall_app_2; [done|]. constructor; [lia|constructor].
  - apply Forall_app_2; [|constructor; [lia|constructor]]. eapply upto_mono; [|apply H]. lia.
  - lia.
  - intros u Hu. rewrite find_commit_snoc, Hc'. destruct (Z.leb_spec v u), (Z.ltb_spec u v); try lia.
    + eauto.
    + by apply H.
Qed.

Lemma holds_commit m h cs v :
  holds (commits m) h -> allowed h (OpCommit cs v) = true ->
  holds (commits (map_step m (OpCommit cs v))) (history_step h (OpCommit cs v)).
Proof.
  intros H [Hv%Z.ltb_lt Hmax%Z.ltb_lt]%andb_prop. destruct (holds_last _ _ H) as (c & Hl & Hc & Hk).
  cbn [map_step history_step]. destruct (decide (cs_writes cs = ∅)) as [He|He].
  { rewrite commit_nothing, He by done. apply holds_same; [done..|]. intros k. unfold overwrite.
    by rewrite lookup_empty. }
  rewrite (commit_eq m cs v c) by done. cbn [fst].
  destruct (changes_state _ _ _) eqn:E.
  - destruct (written_follows v (cs_writes cs) c);
      [split; lia|eapply roll_ok_tail; [apply H|done]|].
    eapply holds_snoc; [done..|]. intros k. cbn. rewrite live_written, Hk; [done|].
    pose proof (holds_versions _ _ H). lia.
  - apply unchanged_written in E as [_ Hall]. apply holds_same; [done..|]. intros k. unfold overwrite.
    destruct (cs_writes cs !! k) eqn:Ew; [|done]. destruct (Hall _ _ Ew) as [-> Hnone].
    rewrite <- Hk. unfold live. by rewrite Hnone.
Qed.

Lemma filter_filter_min u v (l : list LocalCommit) :
  filter (upto u) (filter (upto v) l) = filter (upto (Z.min u v)) l.
Proof.
  rewrite list_filter_filter. apply list_filter_iff. intros c. cbn. lia.
Qed.

Lemma holds_rollback m h v :
  holds (commits m) h -> allowed h (OpRollback v) = true ->
  holds (commits (map_step m (OpRollback v))) (history_step h (OpRollback v)).
Proof.
  intros H Hv%Z.leb_le. pose proof (holds_versions _ _ H).
  destruct (holds_head _ _ H) as (c & rest & E & Hc & Hrest).
  assert (commits (map_step m (OpRollback v)) = filter (upto v) (commits m)) as Heq.
  { apply (rollback_commits_filter v _ c); [apply H|by rewrite E|lia]. }
  split; cbn [history_step contents current compacted].
  - apply rollback_roll, H.
  - rewrite Heq, E, filter_cons_True by lia. eexists _, _. split_and!; [done..|].
    eapply Forall_impl; [by apply Forall_filter_in|]. by intros d [_ ?].
  - rewrite Heq. eapply Forall_impl; [apply Forall_filter_in, (holds_tail _ _ H)|]. cbn. intros d. lia.
  - lia.
  - intros u Hu. rewrite Heq, find_commit_last, filter_filter_min, <- find_commit_last.
    apply H. lia.
Qed.

Lemma find_commit_none v l : Forall (above v) l -> find_commit v l = None.
Proof.
  intros Hl. rewrite find_commit_last, filter_none; [done|].
  eapply Forall_impl; [exact Hl|]. cbn. intros c. lia.
Qed.

Lemma find_commit_above u v l :
  roll_ok l -> v <= u ->
  find_commit u l =
  match find_commit u (filter (above v) l) with Some c => Some c | None => find_commit v l end.
Proof.
  intros Hok Huv. destruct Hok as (_ & Hs & _). induction Hs as [|c l Hs IH Hall]; [done|].
  assert (Forall (above (lc_version c)) l) as Hlt.
  { eapply Forall_impl; [exact Hall|]. by intros d [? _]. }
  cbn [find_commit]. rewrite IH. destruct (Z.leb_spec (lc_version c) v) as [Hc|Hc].
  - rewrite filter_cons_False by lia. destruct (find_commit u (filter (above v) l)); [done|].
    destruct (find_commit v l); [done|]. destruct (Z.leb_spec (lc_version c) u); [done|lia].
  - rewrite filter_cons_True by lia. cbn [find_commit].
    rewrite (find_commit_none v l) by (apply (above_mono _ (lc_version c)); [lia|done]).
    by destruct (find_commit u (filter (above v) l)), (lc_version c <=? u).
Qed.

Lemma Forall_core (P : Z -> Prop) l l' :
  core <$> l = core <$> l' -> Forall (fun c => P (lc_version c)) l ->
  Forall (fun c => P (lc_version c)) l'.
Proof.
  intros E%core_Forall2 H. eapply Forall2_Forall_r; [exact E|]. eapply Forall_impl; [exact H|].
  intros c Hc c' [= <- _]. done.
Qed.

(** The write sets play no role. *)
Lemma holds_core l l' h : core <$> l = core <$> l' -> holds l h -> holds l' h.
Proof.
  intros E H. split.
  - eapply roll_ok_core; [exact E|apply H].
  - destruct (holds_head _ _ H) as (c & rest & -> & Hc & Hrest). destruct l' as [|c' rest']; [done|].
    cbn in E. injection E as Hv _ Er. exists c', rest'. split_and!; [done|by rewrite <- Hv|].
    by apply (Forall_core _ _ _ Er) in Hrest.
  - apply (Forall_core (fun v => v <= current h) _ _ E), H.
  - apply H.
  - intros u Hu. destruct (holds_contents _ _ H u Hu) as (c & Hc & Hk).
    pose proof (state_at_core u _ _ E) as Hs. unfold state_at in Hs. rewrite Hc in Hs.
    destruct (find_commit u l') as [c'|]; [|done]. exists c'. split; [done|].
    cbn in Hs. injection Hs as _ <-. done.
Qed.

Lemma holds_compacted l h v d :
  holds l h -> allowed h (OpCompact v) = true -> find_commit v l = Some d ->
  roll_ok (d :: filter (above v) l) ->
  holds (d :: filter (above v) l) (history_step h (OpCompact v)).
Proof.
  intros H [Hv%Z.leb_le Hmax%Z.leb_le]%andb_prop Hd Hroll. pose proof (holds_versions _ _ H).
  assert (d ∈ l /\ lc_version d <= v) as [Hin Hdv].
  { rewrite find_commit_last in Hd. by apply last_Some_elem_of, list_elem_of_filter in Hd as [? ?]. }
  split; cbn [history_step contents current compacted].
  - done.
  - eexists _, _. split_and!; [done..|].
    eapply Forall_impl; [apply (Forall_filter_in _ _ _ (holds_tail _ _ H))|]. by intros e [? _].
  - constructor; [lia|]. eapply Forall_impl; [apply (Forall_filter_in _ _ _ (holds_tail _ _ H))|].
    by intros e [_ ?].
  - lia.
  - intros u Hu. destruct (holds_contents _ _ H u) as (c & Hc & Hk); [lia|]. exists c. split; [|done].
    rewrite <- Hc, (find_commit_above u v l), Hd by (done || apply H). cbn [find_commit].
    destruct (find_commit u (filter (above v) l)); [done|]. by destruct (Z.leb_spec (lc_version d) u); [|lia].
Qed.

Lemma holds_compact m h v :
  holds (commits m) h -> allowed h (OpCompact v) = true ->
  holds (commits (map_step m (OpCompact v))) (history_step h (OpCompact v)).
Proof.
  intros H Hal. pose proof Hal as [Hv%Z.leb_le Hmax%Z.leb_le]%andb_prop.
  destruct (holds_head _ _ H) as (c & rest & E & Hc & Hrest).
  destruct (compact_commits_filter (global_hook m) v (commits m) c) as (d & Hd & Hcore);
    [apply H|by rewrite E|lia|].
  pose proof (compact_roll v m (holds_roll _ _ H)) as Hroll.
  assert (core <$> commits (map_step m (OpCompact v)) = core <$> d :: filter (above v) (commits m)) as Heq.
  { cbn. by destruct (compact_commits _ _ _). }
  eapply holds_core; [symmetry; exact Heq|]. apply holds_compacted; [done..|].
  by eapply roll_ok_core.
Qed.

Lemma holds_step m h op :
  holds (commits m) h -> allowed h op = true -> holds (commits (map_step m op)) (history_step h op).
Proof.
  destruct op; [apply holds_commit|apply holds_rollback|apply holds_compact|done].
Qed.

Lemma holds_run ops m h :
  holds (commits m) h -> all_allowed h ops = true ->
  holds (commits (foldl map_step m ops)) (foldl history_step h ops).
Proof.
  revert m h. induction ops as [|op ops IH]; [done|]. intros m h H [Hop Hops]%andb_prop.
  apply IH; [|done]. by apply holds_step.
Qed.

(** A map is a history of contents.  After any sequence of commits,
    rollbacks and compactions that the store may make, a transaction at any
    version that is not compacted sees the contents the history has at that
    version: a commit changes it from its version on, a rollback to [v]
    makes every later version look like [v], and compaction changes nothing
    that can still be read.  The committed state it sees is the one
    at the compacted version. *)
Theorem map_refines_history (ops : list MapOp) (u : Z) :
  all_allowed initial_history ops = true ->
  let m := foldl map_step new_map ops in
  let h := foldl history_step initial_history ops in
  compacted h <= u ->
  exists cs, create_change_set m u = Some cs /\
    (forall k, live (cs_state cs) k = contents h u k) /\
    (forall k, live (cs_committed cs) k = contents h (compacted h) k).
Proof.
  intros Hops m h Hu. assert (holds (commits m) h) as H.
  { apply holds_run; [apply holds_initial|done]. }
  destruct (holds_contents _ _ H u Hu) as (c & Hc & Hk).
  destruct (holds_contents _ _ H (compacted h)) as (d & Hd & Hkd); [lia|].
  destruct (holds_head _ _ H) as (c0 & rest & E & Hc0 & Hrest).
  unfold create_change_set. rewrite Hc, E. eexists. split; [done|]. cbn. split; [done|].
  rewrite E in Hd. cbn [find_commit] in Hd. rewrite find_commit_none in Hd by done.
  destruct (Z.leb_spec (lc_version c0) (compacted h)); [|lia]. by injection Hd as ->.
Qed.

Lemma map_refines_history_witness :
  let w1 := (new_change_set 0 ∅ ∅ 0) <| cs_writes := {[ [1] := Some [10]; [2] := Some [20] ]} |> in
  let w2 := (new_change_set 0 ∅ ∅ 1) <| cs_writes := {[ [1] := None; [3] := Some [30] ]} |> in
  let ops := [OpCommit w1 1; OpCommit w2 2; OpCommit w1 4; OpCompact 1; OpRollback 3; OpCommit w1 4] in
  exists cs, create_change_set (foldl map_step new_map ops) 3 = Some cs /\
    live (cs_state cs) [1] = None /\ live (cs_state cs) [3] = Some [30] /\
    live (cs_committed cs) [1] = Some [10].
Proof.
  intros w1 w2 ops. destruct (map_refines_history ops 3) as (cs & Hcs & Hk & Hc);
    [vm_compute; reflexivity|vm_compute; discriminate|].
  exists cs. split; [exact Hcs|]. rewrite !Hk, Hc. split_and!; vm_compute; reflexivity.
Defined.
