(* ===== verification/KvHooks.v ===== *)
(** The global hook of a map: compaction passes every recorded write set to it
    once, in the order of the versions. *)

From S2P Require Import Prelude Serialized KvMap KvRoll.

Definition entry (c : LocalCommit) : Z * Write := (lc_version c, lc_writes c).

Definition nonempty_entries (c : LocalCommit) : list (Z * Write) :=
  if is_empty (lc_writes c) then [] else [entry c].

(** The calls of the hook in one operation. *)
Definition hook_calls (m : Map) (op : MapOp) : list (Z * Write) :=
  match op with
  | OpPostCompact => match snd (post_compact m) with Ret l => l | Throw _ => [] end
  | _ => []
  end.

Fixpoint all_hook_calls (m : Map) (ops : list MapOp) : list (Z * Write) :=
  match ops with
  | [] => []
  | op :: ops => hook_calls m op ++ all_hook_calls (map_step m op) ops
  end.

(** The write sets that have been recorded and not rolled back. *)
Definition log_step (m : Map) (log : list (Z * Write)) (op : MapOp) : list (Z * Write) :=
  match op with
  | OpCommit cs v =>
      if (length (commits (map_step m op)) =? length (commits m))%nat then log
      else log ++ [(v, cs_writes cs)]
  | OpRollback v => filter (fun e => fst e <= v) log
  | OpCompact _ | OpPostCompact => log
  end.

Fixpoint log_run (m : Map) (log : list (Z * Write)) (ops : list MapOp) : list (Z * Write) :=
  match ops with
  | [] => log
  | op :: ops => log_run (map_step m op) (log_step m log op) ops
  end.

(** Compaction moves forward, as the commit index does. *)
Definition advances (h : History) (op : MapOp) : bool :=
  match op with OpCompact v => compacted h <? v | _ => true end.

Fixpoint all_advance (h : History) (ops : list MapOp) : bool :=
  match ops with
  | [] => true
  | op :: ops => advances h op && all_advance (history_step h op) ops
  end.

(** ** One compaction *)

Lemma roll_ok_above v d l : roll_ok (d :: l) -> v < lc_version d -> Forall (above v) (d :: l).
Proof.
  intros Hok Hv. constructor; [done|]. eapply above_mono; [|by apply roll_ok_cons]. lia.
Qed.

Lemma split_above v l :
  Forall (above v) l -> filter (above v) l = l /\ filter (upto v) l = [].
Proof.
  intros H. split; [by apply filter_all|]. apply filter_none.
  eapply Forall_impl; [exact H|]. cbn. intros c. lia.
Qed.

Lemma compact_commits_hook v c rest :
  roll_ok (c :: rest) -> lc_version c <= v -> (lc_version c = v -> lc_writes c <> ∅) ->
  Forall (fun d => lc_writes d <> ∅) rest ->
  exists d, lc_writes d = ∅ /\
    compact_commits true v (c :: rest) =
    (d :: filter (above v) rest, nonempty_entries c ++ (entry <$> filter (upto v) rest)).
Proof.
  unfold nonempty_entries. revert c. induction rest as [|d rest IH]; intros c Hok Hc Hne Hall.
  { cbn -[is_empty]. destruct (is_empty (lc_writes c)) eqn:E.
    - exists c. by apply bool_decide_eq_true in E.
    - by exists (move_writes c). }
  rewrite compact_commits_cons. pose proof (roll_ok_cons _ _ Hok) as Hlt.
  apply Forall_cons in Hall as [Hd Hall]. destruct (Z.eqb_spec (lc_version c) v) as [<-|Hcv].
  { destruct (split_above _ _ Hlt) as [-> ->]. rewrite (is_empty_false (lc_writes c)) by auto.
    by exists (move_writes c). }
  cbn zeta. apply roll_ok_rest in Hok; [|done]. destruct (Z.ltb_spec v (lc_version d)) as [Hv|Hv].
  - destruct (split_above _ _ (roll_ok_above _ _ _ Hok Hv)) as [-> ->].
    destruct (is_empty (lc_writes c)) eqn:E.
    + exists c. by apply bool_decide_eq_true in E.
    + by exists (move_writes c).
  - destruct (IH d Hok Hv) as (e & He & Heq); [done..|]. rewrite Heq, (is_empty_false (lc_writes d)) by done.
    exists e. rewrite filter_cons_False, filter_cons_True by lia. split; [done|].
    by destruct (is_empty (lc_writes c)).
Qed.

(** ** The invariant *)

(** All recorded write sets have been passed on, are to be passed on, or are
    still in the roll, in this order. *)
Record delivers (m : Map) (h : History) (log calls : list (Z * Write)) : Prop := {
  delivers_holds : holds (commits m) h;
  delivers_hook : global_hook m = true;
  delivers_roll : exists c rest, commits m = c :: rest /\ lc_writes c = ∅ /\
    Forall (fun d => lc_writes d <> ∅) rest /\ log = calls ++ commit_deltas m ++ (entry <$> rest);
  delivers_done : Forall (fun e => fst e <= compacted h) (calls ++ commit_deltas m)
}.

Lemma delivers_rest m h log calls c rest :
  delivers m h log calls -> commits m = c :: rest -> Forall (above (compacted h)) rest.
Proof.
  intros H E. destruct (holds_head _ _ (delivers_holds _ _ _ _ H)) as (c' & rest' & E' & _ & ?).
  rewrite E in E'. by injection E' as -> ->.
Qed.

(** What has been passed on, or is about to be, is what has been compacted. *)
Lemma delivers_log m h log calls :
  delivers m h log calls -> calls ++ commit_deltas m = filter (fun e => fst e <= compacted h) log.
Proof.
  intros H. destruct (delivers_roll _ _ _ _ H) as (c & rest & E & _ & _ & ->).
  rewrite (assoc_L (++)), filter_app, filter_all by apply H.
  rewrite filter_none; [by rewrite app_nil_r|]. apply Forall_fmap.
  eapply Forall_impl; [by eapply delivers_rest|]. cbn. intros d. lia.
Qed.

(** A map whose hook is set from the start. *)
Definition hooked_map : Map := new_map <| global_hook := true |>.

Lemma delivers_initial :
  delivers hooked_map initial_history [] [].
Proof.
  split; [apply holds_initial|done| |constructor]. eexists _, []. by split_and!.
Qed.

Lemma delivers_commit m h log calls cs v :
  delivers m h log calls -> allowed h (OpCommit cs v) = true ->
  delivers (map_step m (OpCommit cs v)) (history_step h (OpCommit cs v))
    (log_step m log (OpCommit cs v)) calls.
Proof.
  intros H Hal. pose proof (holds_commit m h cs v (delivers_holds _ _ _ _ H) Hal) as Hh.
  destruct (holds_last _ _ (delivers_holds _ _ _ _ H)) as (c & Hl & _).
  destruct (delivers_roll _ _ _ _ H) as (c0 & rest & E & Hc0 & Hrest & Hlog).
  cbn [log_step]. cbn [map_step] in *.
  assert (fst (commit cs v false m) = m \/ cs_writes cs <> ∅ /\
    exists st, fst (commit cs v false m) = m <| commits := commits m ++ [MkLocalCommit v st (cs_writes cs)] |>)
    as [Heq|(Hne & st & Heq)].
  { destruct (decide (cs_writes cs = ∅)); [left; by rewrite commit_nothing|].
    rewrite (commit_eq m cs v c) by done. destruct (changes_state _ _ _); [right|by left]. eauto. }
  - rewrite Heq in *. rewrite Nat.eqb_refl. split; [done|apply H|apply H|apply H].
  - rewrite Heq in *. cbn [commits set]. destruct (Nat.eqb_spec
      (length (commits (m <| commits := commits m ++ [MkLocalCommit v st (cs_writes cs)] |>)))
      (length (commits m))) as [Hlen|_].
    { cbn in Hlen. rewrite length_app in Hlen. cbn in Hlen. lia. }
    split; [done|apply H| |apply H]. exists c0, (rest ++ [MkLocalCommit v st (cs_writes cs)]).
    cbn. rewrite E. split_and!; [done..| |].
    + apply Forall_app_2; [done|]. by constructor.
    + by rewrite fmap_app, Hlog, !(assoc_L (++)).
Qed.

Lemma entry_filter v (l : list LocalCommit) : filter (fun e => fst e <= v) (entry <$> l) = entry <$> filter (upto v) l.
Proof.
  induction l as [|c l IH]; [done|]. rewrite fmap_cons, !filter_cons, IH. cbn.
  by destruct (decide _).
Qed.

Lemma upto_above v l : StronglySorted follows l -> l = filter (upto v) l ++ filter (above v) l.
Proof.
  induction 1 as [|c l Hs IH Hall]; [done|]. destruct (decide (lc_version c <= v)).
  - rewrite filter_cons_True, filter_cons_False by lia. cbn. by rewrite <- IH.
  - destruct (split_above v (c :: l)) as [-> ->]; [|done]. constructor; [lia|].
    eapply Forall_impl; [exact Hall|]. intros d [? _]. lia.
Qed.

Lemma delivers_rollback m h log calls v :
  delivers m h log calls -> allowed h (OpRollback v) = true ->
  delivers (map_step m (OpRollback v)) (history_step h (OpRollback v))
    (log_step m log (OpRollback v)) calls.
Proof.
  intros H Hal. pose proof (holds_rollback m h v (delivers_holds _ _ _ _ H) Hal) as Hh.
  apply Z.leb_le in Hal. destruct (delivers_roll _ _ _ _ H) as (c & rest & E & Hc & Hrest & Hlog).
  destruct (holds_head _ _ (delivers_holds _ _ _ _ H)) as (c' & rest' & E' & Hv & _).
  rewrite E in E'. injection E' as <- <-. split; [done|apply H| |apply H].
  exists c, (filter (upto v) rest). cbn. rewrite (rollback_commits_filter v _ c);
    [|apply H|by rewrite E|lia].
  rewrite E, filter_cons_True by lia. split_and!; [done..| |].
  - eapply Forall_impl; [by apply Forall_filter_in|]. by intros d [_ ?].
  - rewrite Hlog, (assoc_L (++)), filter_app, filter_all, (assoc_L (++)).
    + f_equal. by rewrite entry_filter.
    + eapply Forall_impl; [apply H|]. cbn. intros e. lia.
Qed.

Lemma delivers_compact m h log calls v :
  delivers m h log calls -> allowed h (OpCompact v) = true -> advances h (OpCompact v) = true ->
  delivers (map_step m (OpCompact v)) (history_step h (OpCompact v))
    (log_step m log (OpCompact v)) calls.
Proof.
  intros H Hal Hadv%Z.ltb_lt. pose proof (holds_compact m h v (delivers_holds _ _ _ _ H) Hal) as Hh.
  destruct (delivers_roll _ _ _ _ H) as (c & rest & E & Hc & Hrest & Hlog).
  destruct (holds_head _ _ (delivers_holds _ _ _ _ H)) as (c' & rest' & E' & Hv & Hab).
  rewrite E in E'. injection E' as <- <-.
  destruct (compact_commits_hook v c rest) as (d & Hd & Heq); [rewrite <- E; apply H|lia..|done|].
  unfold nonempty_entries in Heq. rewrite is_empty_true in Heq by done.
  split; [done| | |]; cbn [map_step compact modify fst log_step history_step compacted];
    rewrite (delivers_hook _ _ _ _ H), E, Heq; cbn [global_hook commits commit_deltas set app].
  - apply H.
  - exists d, (filter (above v) rest). cbn. split_and!; [done..| |].
    + eapply Forall_impl; [exact (Forall_filter_in _ _ _ Hrest)|]. by intros e [_ ?].
    + rewrite Hlog, <- !(assoc_L (++)), <- fmap_app, <- upto_above; [done|].
      pose proof (holds_roll _ _ (delivers_holds _ _ _ _ H)) as (_ & Hs & _).
      rewrite E in Hs. by apply StronglySorted_cons in Hs as [_ ?].
  - cbn. rewrite (assoc_L (++)). apply Forall_app_2.
    + eapply Forall_impl; [apply H|]. cbn. intros e. lia.
    + apply Forall_fmap. eapply Forall_impl; [by apply Forall_filter_in|]. by intros e [? _].
Qed.

Lemma post_compact_eq m :
  post_compact m = (m <| commit_deltas := [] |>, Ret (if global_hook m then commit_deltas m else [])).
Proof. done. Qed.

Lemma delivers_post_compact m h log calls :
  delivers m h log calls ->
  delivers (map_step m OpPostCompact) h log (calls ++ hook_calls m OpPostCompact).
Proof.
  intros H. cbn [map_step hook_calls]. rewrite post_compact_eq, (delivers_hook _ _ _ _ H). cbn [fst snd].
  split; [apply H|apply H| |].
  - destruct (delivers_roll _ _ _ _ H) as (c & rest & E & Hc & Hrest & Hlog). exists c, rest. cbn.
    split_and!; [done..|]. by rewrite Hlog, (assoc_L (++)).
  - cbn. rewrite app_nil_r. apply H.
Qed.

Lemma delivers_step m h log calls op :
  delivers m h log calls -> allowed h op = true -> advances h op = true ->
  delivers (map_step m op) (history_step h op) (log_step m log op) (calls ++ hook_calls m op).
Proof.
  destruct op; intros; [..|by apply delivers_post_compact]; cbn [hook_calls]; rewrite app_nil_r.
  - by apply delivers_commit.
  - by apply delivers_rollback.
  - by apply delivers_compact.
Qed.

Lemma delivers_run ops m h log calls :
  delivers m h log calls -> all_allowed h ops = true -> all_advance h ops = true ->
  delivers (foldl map_step m ops) (foldl history_step h ops) (log_run m log ops)
    (calls ++ all_hook_calls m ops).
Proof.
  revert m h log calls. induction ops as [|op ops IH]; intros m h log calls H Hal Hadv.
  { cbn. by rewrite app_nil_r. }
  apply andb_prop in Hal as [? ?], Hadv as [? ?]. cbn. rewrite (assoc_L (++)).
  apply IH; [|done..]. by apply delivers_step.
Qed.

(** C37: The global hook of a map gets every recorded write set that has been
    compacted and not rolled back, once and in order of version: the calls
    made so far, together with those [post_compact] is about to make, are the
    prefix of the log up to the compacted version. This is for any sequence of
    commits at growing versions, rollbacks to versions that are not compacted
    away, and compactions up to what is committed, each of which goes further
    than the one before; compacting twice at one version may call the hook once
    more, with an empty write set. *)
Theorem hook_sees_committed_writes (ops : list MapOp) :
  all_allowed initial_history ops = true -> all_advance initial_history ops = true ->
  all_hook_calls hooked_map ops ++ commit_deltas (foldl map_step hooked_map ops) =
  filter (fun e => fst e <= compacted (foldl history_step initial_history ops))
    (log_run hooked_map [] ops).
Proof.
  intros Hal Hadv. pose proof (delivers_run ops _ _ _ _ delivers_initial Hal Hadv) as H.
  apply (delivers_log _ _ _ _ H).
Qed.

Definition sample_ops : list MapOp :=
  let w1 := (new_change_set 0 ∅ ∅ 0) <| cs_writes := {[ [1] := Some [10]; [2] := Some [20] ]} |> in
  let w2 := (new_change_set 0 ∅ ∅ 1) <| cs_writes := {[ [1] := None; [3] := Some [30] ]} |> in
  [OpCommit w1 1; OpCommit w2 2; OpCommit w1 4; OpCompact 2; OpPostCompact; OpRollback 3; OpCommit w2 4;
   OpCompact 4; OpPostCompact].

Lemma hook_sees_committed_writes_witness :
  fst <$> all_hook_calls hooked_map sample_ops = [1; 2; 4].
Proof.
  pose proof (hook_sees_committed_writes sample_ops ltac:(vm_compute; reflexivity)
    ltac:(vm_compute; reflexivity)) as H.
  replace (commit_deltas _) with (@nil (Z * Write)) in H by (vm_compute; reflexivity).
  rewrite app_nil_r in H. rewrite H. vm_compute. reflexivity.
Defined.

(** The write set of the oldest commit is moved away when it is passed on, so
    compacting twice at its version calls the hook with an empty write set. *)
Theorem compact_twice_delivers_nothing :
  let m := foldl map_step hooked_map
    [OpCommit sample_changes 1; OpCommit sample_changes 2; OpCompact 1; OpPostCompact; OpCompact 1] in
  commit_deltas m = [(1, ∅)].
Proof. vm_compute. reflexivity. Qed.
