(* ===== verification/KvHandle.v ===== *)
(** Handles over a map in a transaction: src/kv/untyped_map_handle.cpp.

    A handle records what the transaction reads and writes in its change set.
    The keys of a [std::map] are visited in lexicographic order; the order in
    which a state is visited is that of the persistent map ([state_order]). *)

From S2P Require Import Prelude Serialized KvMap.

Definition key_le {A} (p q : Key * A) : Prop := key_ltb (fst q) (fst p) = false.
#[export] Instance key_le_dec {A} (p q : Key * A) : Decision (key_le p q) := decide (_ = _).

(** The elements of a [std::map], in order. *)
Definition ordered {A} (m : gmap Key A) : list (Key * A) := merge_sort key_le (map_to_list m).

Lemma ordered_perm {A} (m : gmap Key A) : ordered m ≡ₚ map_to_list m.
Proof. apply merge_sort_Permutation. Qed.

Lemma ordered_NoDup {A} (m : gmap Key A) : NoDup (ordered m).*1.
Proof. rewrite ordered_perm. apply NoDup_fst_map_to_list. Qed.

Lemma elem_of_ordered {A} (m : gmap Key A) k x : (k, x) ∈ ordered m <-> m !! k = Some x.
Proof. rewrite ordered_perm. apply elem_of_map_to_list. Qed.

(** What the persistent map promises about iteration: every entry once. *)
Class StateOrder := {
  state_order : KvState -> list (Key * VersionV);
  state_order_perm st : state_order st ≡ₚ map_to_list st
}.

(** ** Reading and writing a key *)

(** [reads.insert]: an earlier record is kept. *)
Definition record_read (k : Key) (v rv : Z) : ST ChangeSet unit :=
  modify (fun cs =>
    match cs_reads cs !! k with
    | Some _ => cs
    | None => cs <| cs_reads := <[k := (v, rv)]> (cs_reads cs) |>
    end).

Definition read_key (k : Key) : ST ChangeSet (option Value) :=
  cs ← get;
  match cs_writes cs !! k with
  | Some o => mret o
  | None =>
      match cs_state cs !! k with
      | None => record_read k NoVersion NoVersion;; mret None
      | Some x =>
          record_read k (version x) (read_version x);;
          if is_deleted (version x) then mret None else mret (Some (value x))
      end
  end.

Definition handle_get (k : Key) : ST ChangeSet (option Value) := read_key k.

Definition handle_has (k : Key) : ST ChangeSet bool :=
  o ← read_key k; mret (match o with Some _ => true | None => false end).

Definition get_version_of_previous_write (k : Key) : ST ChangeSet (option Z) :=
  cs ← get;
  match cs_state cs !! k with
  | None => record_read k NoVersion NoVersion;; mret None
  | Some x =>
      record_read k (version x) (read_version x);;
      if is_deleted (version x) then mret None else mret (Some (u64 (version x)))
  end.

Definition get_globally_committed (k : Key) : ST ChangeSet (option Value) :=
  cs ← get;
  match cs_committed cs !! k with
  | None => mret None
  | Some x => if is_deleted (version x) then mret None else mret (Some (value x))
  end.

Definition handle_put (k : Key) (v : Value) : ST ChangeSet unit :=
  modify (fun cs => cs <| cs_writes := <[k := Some v]> (cs_writes cs) |>).

Definition handle_remove (k : Key) : ST ChangeSet bool :=
  cs ← get;
  let exists_in_state := bool_decide (is_Some (cs_state cs !! k)) in
  match cs_writes cs !! k with
  | Some _ =>
      (if negb exists_in_state then cs_writes <~ delete k (cs_writes cs)
       else cs_writes <~ <[k := None]> (cs_writes cs));;
      mret true
  | None =>
      if negb exists_in_state then mret false
      else cs_writes <~ <[k := None]> (cs_writes cs);; mret true
  end.

(** ** Iteration *)

Section iteration.
Context `{!StateOrder} {A : Type}.

(** A visitor has a state of its own, and may use the handle. *)
Definition Visitor : Type := Key -> Value -> ST (ChangeSet * A) bool.

Definition on_changes {B} (m : ST ChangeSet B) : ST (ChangeSet * A) B := fun '(cs, a) =>
  let '(cs', r) := m cs in ((cs', a), r).

(** The visit of the state: entries that are not overwritten, until the
    visitor returns [false]. *)
Fixpoint visit_state (w : Write) (f : Visitor) (l : list (Key * VersionV)) : ST (ChangeSet * A) bool :=
  match l with
  | [] => mret true
  | (k, x) :: l =>
      if bool_decide (w !! k = None) && negb (is_deleted (version x)) then
        should_continue ← f k (value x);
        if (should_continue : bool) then visit_state w f l else mret false
      else visit_state w f l
  end.

Fixpoint visit_writes (f : Visitor) (l : list (Key * option Value)) (should_continue : bool) :
    ST (ChangeSet * A) unit :=
  match l with
  | [] => skip
  | (k, o) :: l =>
      should_continue ← match o with Some v => f k v | None => mret should_continue end;
      if negb should_continue then skip else visit_writes f l should_continue
  end.

Definition foreach_state_and_writes (f : Visitor) (always_consider_writes : bool) :
    ST (ChangeSet * A) unit :=
  on_changes (modify (fun cs => cs <| cs_read_version := cs_start_version cs |>));;
  cs ← gets fst;
  let w := cs_writes cs in
  should_continue ← visit_state w f (state_order (cs_state cs));
  if always_consider_writes || should_continue then visit_writes f (ordered w) should_continue else skip.

Definition handle_foreach (f : Visitor) : ST (ChangeSet * A) unit := foreach_state_and_writes f false.
End iteration.

Arguments Visitor : clear implicits.

(** Run a loop whose visitor starts in state [a]. *)
Definition with_local {A} (a : A) (m : ST (ChangeSet * A) unit) : ST ChangeSet A := fun cs =>
  match m (cs, a) with
  | ((cs', a'), Ret _) => (cs', Ret a')
  | ((cs', _), Throw e) => (cs', Throw e)
  end.

Section loops.
Context `{!StateOrder}.

Definition handle_clear : ST ChangeSet unit :=
  with_local tt (handle_foreach (fun k _ => on_changes (handle_remove k);; mret true)).

Definition handle_size : ST ChangeSet Z :=
  with_local 0 (handle_foreach (fun _ _ => modify (fun '(cs, n) => (cs, u64 (n + 1)));; mret true)).

(** The calls of the user's visitor.  [continue_past_range_to] is true for CHAMP states and
    false for red-black trees. *)
Definition handle_range (continue_past_range_to : bool) (from to : Key) : ST ChangeSet (list (Key * Value)) :=
  if bool_decide (from = to) || key_ltb to from then mret []
  else
    res ← with_local ∅ (foreach_state_and_writes (fun k v =>
      if key_ltb k from then mret true
      else if bool_decide (k = to) || key_ltb to k then mret continue_past_range_to
      else modify (fun '(cs, res) => (cs, <[k := v]> res));; mret true) true);
    mret (ordered res).
End loops.
