(* ===== verification/KvHandleProps.v ===== *)
(** What a transaction sees through a handle: the snapshot it reads, overlaid
    with its own writes. *)

From S2P Require Import Prelude Serialized KvMap KvRoll KvHandle.

(** ** The view *)

Definition view_entry (w : option (option Value)) (x : option VersionV) : option Value :=
  match w with
  | Some o => o
  | None => match x with Some x => if is_deleted (version x) then None else Some (value x) | None => None end
  end.

(** The contents of the map as the transaction sees it. *)
Definition view (cs : ChangeSet) : gmap Key Value := merge view_entry (cs_writes cs) (cs_state cs).

Lemma view_lookup cs k : view cs !! k = overwrite (cs_writes cs) (live (cs_state cs)) k.
Proof.
  unfold view, overwrite, live. rewrite lookup_merge. unfold view_entry, diag_None.
  by destruct (cs_writes cs !! k), (cs_state cs !! k).
Qed.

(** ** Single keys *)

Lemma record_read_eq k v rv cs :
  record_read k v rv cs =
  (cs <| cs_reads := match cs_reads cs !! k with Some _ => cs_reads cs | None => <[k := (v, rv)]> (cs_reads cs) end |>,
   Ret tt).
Proof. unfold record_read, modify. destruct (cs_reads cs !! k); [by destruct cs|done]. Qed.

(** What reading a key records. *)
Definition read_record (k : Key) (cs : ChangeSet) : Z * Z :=
  match cs_state cs !! k with
  | Some x => (version x, read_version x)
  | None => (NoVersion, NoVersion)
  end.

Definition with_read (k : Key) (cs : ChangeSet) : ChangeSet :=
  cs <| cs_reads := match cs_reads cs !! k with
                    | Some _ => cs_reads cs
                    | None => <[k := read_record k cs]> (cs_reads cs)
                    end |>.

(** Only keys that the transaction has not written become dependencies. *)
Lemma read_key_eq k cs :
  read_key k cs =
  (match cs_writes cs !! k with Some _ => cs | None => with_read k cs end, Ret (view cs !! k)).
Proof.
  rewrite view_lookup. unfold read_key, overwrite, live, with_read, read_record, mbind, ST_bind, get.
  destruct (cs_writes cs !! k) as [o|]; [done|]. destruct (cs_state cs !! k) as [x|].
  - rewrite record_read_eq. by destruct (is_deleted (version x)).
  - by rewrite record_read_eq.
Qed.

Lemma view_with_read k cs : view (with_read k cs) = view cs.
Proof. done. Qed.

Lemma handle_put_view k v cs : view (fst (handle_put k v cs)) = <[k := v]> (view cs).
Proof.
  apply map_eq. intros k'. rewrite view_lookup. cbn. unfold overwrite.
  destruct (decide (k = k')) as [->|Hne].
  - by rewrite !lookup_insert_eq.
  - by rewrite !lookup_insert_ne, view_lookup by done.
Qed.

(** The key is in the write set or in the state, possibly as a tombstone. *)
Definition known (cs : ChangeSet) (k : Key) : bool :=
  bool_decide (is_Some (cs_writes cs !! k)) || bool_decide (is_Some (cs_state cs !! k)).

(** The write set after a removal: a key that is not in the state is
    forgotten. *)
Definition removed_writes (st : KvState) (w : Write) (k : Key) : Write :=
  if bool_decide (is_Some (st !! k)) then <[k := None]> w else delete k w.

Lemma handle_remove_eq k cs :
  handle_remove k cs =
  (cs <| cs_writes := removed_writes (cs_state cs) (cs_writes cs) k |>, Ret (known cs k)).
Proof.
  unfold handle_remove, removed_writes, known, mbind, ST_bind, get.
  destruct (cs_writes cs !! k) eqn:Ew, (cs_state cs !! k); try done. cbn. rewrite delete_id by done.
  by destruct cs.
Qed.

Lemma handle_remove_view k cs : view (fst (handle_remove k cs)) = delete k (view cs).
Proof.
  rewrite handle_remove_eq. apply map_eq. intros k'. cbn [fst]. rewrite view_lookup. cbn.
  unfold overwrite, live, removed_writes. destruct (decide (k = k')) as [->|Hne].
  - rewrite lookup_delete_eq. destruct (cs_state cs !! k') as [x|] eqn:Es; cbn.
    + by rewrite lookup_insert_eq.
    + by rewrite lookup_delete_eq.
  - rewrite lookup_delete_ne, view_lookup by done. unfold overwrite, live. destruct (bool_decide _).
    + by rewrite lookup_insert_ne.
    + by rewrite lookup_delete_ne.
Qed.

(** ** Iteration *)

Section iteration.
Context `{!StateOrder}.

Definition state_pair (w : Write) (p : Key * VersionV) : option (Key * Value) :=
  let '(k, x) := p in
  if bool_decide (w !! k = None) && negb (is_deleted (version x)) then Some (k, value x) else None.

Definition write_pair (p : Key * option Value) : option (Key * Value) :=
  let '(k, o) := p in v ← o; Some (k, v).

(** The entries an iteration visits, in order: they are fixed when it starts. *)
Definition visible (cs : ChangeSet) : list (Key * Value) :=
  omap (state_pair (cs_writes cs)) (state_order (cs_state cs)) ++ omap write_pair (ordered (cs_writes cs)).

Fixpoint visit_all {A} (f : Visitor A) (l : list (Key * Value)) : ST (ChangeSet * A) bool :=
  match l with
  | [] => mret true
  | (k, v) :: l => go ← f k v; if (go : bool) then visit_all f l else mret false
  end.

Lemma visit_state_all {A} w (f : Visitor A) l s : visit_state w f l s = visit_all f (omap (state_pair w) l) s.
Proof.
  revert s. induction l as [|[k x] l IH]; intros s; [done|]. cbn [visit_state omap list_omap state_pair].
  destruct (bool_decide _ && _); [|apply IH]. cbn [visit_all]. unfold mbind, ST_bind.
  destruct (f k (value x) s) as [s' [[]|e]]; [apply IH|done..].
Qed.

Lemma visit_writes_all {A} (f : Visitor A) l s :
  visit_writes f l true s = (visit_all f (omap write_pair l);; skip) s.
Proof.
  revert s. induction l as [|[k o] l IH]; intros s; [done|]. cbn [visit_writes omap list_omap write_pair].
  destruct o as [v|]; cbn [mbind option_bind].
  - cbn [visit_all]. unfold mbind, ST_bind. destruct (f k v s) as [s' [[]|e]]; [apply IH|done..].
  - rewrite <- IH. done.
Qed.

Lemma visit_all_app {A} (f : Visitor A) l1 l2 s :
  visit_all f (l1 ++ l2) s = (go ← visit_all f l1; if (go : bool) then visit_all f l2 else mret false) s.
Proof.
  revert s. induction l1 as [|[k v] l1 IH]; intros s; [done|]. cbn [app visit_all]. unfold mbind, ST_bind.
  destruct (f k v s) as [s' [[]|e]]; [|done..]. rewrite IH. done.
Qed.

Lemma foreach_visible {A} (f : Visitor A) cs (a : A) :
  handle_foreach f (cs, a) =
  (visit_all f (visible cs);; skip) (cs <| cs_read_version := cs_start_version cs |>, a).
Proof.
  unfold handle_foreach, foreach_state_and_writes, visible. unfold mbind, ST_bind, gets. cbn [on_changes modify fst].
  rewrite visit_all_app, visit_state_all. unfold mbind, ST_bind.
  destruct (visit_all f _ _) as [s' [[]|e]]; [|done..]. cbn [orb]. rewrite visit_writes_all. done.
Qed.

Lemma NoDup_omap_keys {B C} (g : Key * B -> option (Key * C)) (l : list (Key * B)) :
  (forall p q, g p = Some q -> q.1 = p.1) -> NoDup l.*1 -> NoDup (omap g l).*1.
Proof.
  intros Hg. induction l as [|p l IH]; [done|]. rewrite fmap_cons. intros [Hp Hnd]%NoDup_cons.
  cbn [omap list_omap]. destruct (g p) as [q|] eqn:E; [|by apply IH]. rewrite fmap_cons.
  apply NoDup_cons. split; [|by apply IH]. rewrite (Hg _ _ E).
  intros (q' & Hq' & (p' & Hin & Hp')%list_elem_of_omap)%list_elem_of_fmap. apply Hp.
  rewrite Hq', (Hg _ _ Hp'). by apply list_elem_of_fmap_2.
Qed.

Lemma state_pair_key w p q : state_pair w p = Some q -> q.1 = p.1.
Proof. destruct p as [k x]. cbn. destruct (_ && _); [|done]. by intros [= <-]. Qed.

Lemma write_pair_key p q : write_pair p = Some q -> q.1 = p.1.
Proof. destruct p as [k [v|]]; cbn; [|done]. by intros [= <-]. Qed.

Lemma elem_of_state_part w st k v :
  (k, v) ∈ omap (state_pair w) (state_order st) <-> w !! k = None /\ live st k = Some v.
Proof.
  rewrite list_elem_of_omap. setoid_rewrite state_order_perm. unfold live. split.
  - intros ([k' x] & Hin%elem_of_map_to_list & Hp). cbn in Hp.
    destruct (bool_decide_reflect (w !! k' = None)); [|done]. destruct (is_deleted (version x)) eqn:E; [done|].
    injection Hp as -> <-. by rewrite Hin, E.
  - intros [Hw Hl]. destruct (st !! k) as [x|] eqn:E; [|done].
    destruct (is_deleted (version x)) eqn:Ed; [done|]. injection Hl as <-. exists (k, x).
    split; [by apply elem_of_map_to_list|]. cbn. by rewrite bool_decide_true, Ed.
Qed.

Lemma elem_of_write_part (w : Write) k v : (k, v) ∈ omap write_pair (ordered w) <-> w !! k = Some (Some v).
Proof.
  rewrite list_elem_of_omap. setoid_rewrite ordered_perm. split.
  - intros ([k' [v'|]] & Hin%elem_of_map_to_list & Hp); [|done]. cbn in Hp. by injection Hp as -> ->.
  - intros Hw. exists (k, Some v). split; [by apply elem_of_map_to_list|done].
Qed.

(** Every visible entry once. *)
Lemma visible_perm cs : visible cs ≡ₚ map_to_list (view cs).
Proof.
  apply NoDup_Permutation.
  - apply (NoDup_fmap_1 fst). unfold visible. rewrite fmap_app. apply NoDup_app. split_and!.
    + apply NoDup_omap_keys; [apply state_pair_key|]. rewrite state_order_perm. apply NoDup_fst_map_to_list.
    + intros k ([k1 v1] & -> & [Hw _]%elem_of_state_part)%list_elem_of_fmap.
      intros ([k2 v2] & E & Hw2%elem_of_write_part)%list_elem_of_fmap. cbn in *. congruence.
    + apply NoDup_omap_keys; [apply write_pair_key|]. rewrite ordered_perm. apply NoDup_fst_map_to_list.
  - apply NoDup_map_to_list.
  - intros [k v]. rewrite elem_of_map_to_list, view_lookup. unfold visible, overwrite.
    rewrite elem_of_app, elem_of_state_part, elem_of_write_part.
    destruct (cs_writes cs !! k) as [o|]; split.
    + by intros [[? _]|[= ->]].
    + intros ->. by right.
    + by intros [[_ ?]|?].
    + intros ?. by left.
Qed.
End iteration.

(** ** The order of keys *)

Lemma key_ltb_irrefl a : key_ltb a a = false.
Proof. induction a as [|x a IH]; [done|]. cbn. by rewrite Z.ltb_irrefl. Qed.

Lemma key_ltb_trans a b c : key_ltb a b = true -> key_ltb b c = true -> key_ltb a c = true.
Proof.
  revert b c. induction a as [|x a IH]; intros [|y b] [|z c]; try done. cbn.
  destruct (Z.ltb_spec x y), (Z.ltb_spec y x), (Z.ltb_spec y z), (Z.ltb_spec z y),
    (Z.ltb_spec x z), (Z.ltb_spec z x); try lia; try done. apply IH.
Qed.

Lemma key_ltb_total a b : key_ltb a b = true \/ a = b \/ key_ltb b a = true.
Proof.
  revert b. induction a as [|x a IH]; intros [|y b]; [tauto|left; done|right; right; done|]. cbn.
  destruct (Z.ltb_spec x y), (Z.ltb_spec y x); try lia; [tauto..|].
  assert (x = y) as -> by lia. destruct (IH b) as [?|[->|?]]; tauto.
Qed.

Lemma key_ltb_asym a b : key_ltb a b = true -> key_ltb b a = false.
Proof.
  intros Hab. destruct (key_ltb b a) eqn:E; [|done].
  pose proof (key_ltb_trans _ _ _ Hab E) as Haa. by rewrite key_ltb_irrefl in Haa.
Qed.

Lemma key_not_lt_trans a b c : key_ltb b a = false -> key_ltb c b = false -> key_ltb c a = false.
Proof.
  intros Hba Hcb. destruct (key_ltb c a) eqn:Hca; [|done].
  destruct (key_ltb_total b c) as [Hbc|[->|Hbc]]; [|congruence..].
  pose proof (key_ltb_trans _ _ _ Hbc Hca). congruence.
Qed.

#[export] Instance key_le_trans {A} : Transitive (key_le (A:=A)).
Proof. intros p q r. unfold key_le. apply key_not_lt_trans. Qed.

#[export] Instance key_le_total {A} : Total (key_le (A:=A)).
Proof.
  intros p q. unfold key_le. destruct (key_ltb (fst q) (fst p)) eqn:E; [right|by left].
  by apply key_ltb_asym.
Qed.

(** The elements of a [std::map] come in increasing order of keys. *)
Lemma ordered_sorted {A} (m : gmap Key A) : StronglySorted key_le (ordered m).
Proof. apply StronglySorted_merge_sort; apply _. Qed.

(** ** Loops *)

Section loops.
Context `{!StateOrder}.

(** A visitor that keeps going and leaves the change set alone. *)
Definition pure_visitor {A} (f : Visitor A) (g : A -> Key * Value -> A) : Prop :=
  forall k v cs a, f k v (cs, a) = ((cs, g a (k, v)), Ret true).

Lemma visit_all_pure {A} (f : Visitor A) g l cs a :
  pure_visitor f g -> visit_all f l (cs, a) = ((cs, foldl g a l), Ret true).
Proof.
  intros Hf. revert a. induction l as [|[k v] l IH]; intros a; [done|]. cbn [visit_all foldl].
  unfold mbind, ST_bind. by rewrite Hf, IH.
Qed.

Lemma foreach_pure {A} (f : Visitor A) g always cs a :
  pure_visitor f g ->
  foreach_state_and_writes f always (cs, a) =
  ((cs <| cs_read_version := cs_start_version cs |>, foldl g a (visible cs)), Ret tt).
Proof.
  intros Hf. assert (foreach_state_and_writes f always (cs, a) = handle_foreach f (cs, a)) as ->.
  { unfold handle_foreach, foreach_state_and_writes, mbind, ST_bind, gets. cbn [on_changes modify fst].
    rewrite visit_state_all, (visit_all_pure f g) by done. by rewrite !orb_true_r. }
  rewrite foreach_visible. unfold mbind, ST_bind. by rewrite (visit_all_pure f g).
Qed.

Definition touched (cs : ChangeSet) : ChangeSet := cs <| cs_read_version := cs_start_version cs |>.

Lemma handle_size_eq cs : handle_size cs = (touched cs, Ret (u64 (Z.of_nat (size (view cs))))).
Proof.
  unfold handle_size, with_local, handle_foreach.
  rewrite (foreach_pure _ (fun n _ => u64 (n + 1))) by done. do 2 f_equal.
  rewrite <- (length_map_to_list (view cs)), <- visible_perm.
  assert (forall l n, foldl (fun n (_ : Key * Value) => u64 (n + 1)) (u64 n) l = u64 (n + Z.of_nat (length l))) as Hl.
  { intros l. induction l as [|p l IH]; intros n; cbn [foldl length]; [f_equal; lia|].
    rewrite u64_add_l, IH. f_equal. lia. }
  apply (Hl _ 0).
Qed.

Lemma foldl_delete_lookup (l : list (Key * Value)) (m : gmap Key Value) k :
  foldl (fun m p => delete p.1 m) m l !! k = if bool_decide (k ∈ l.*1) then None else m !! k.
Proof.
  revert m. induction l as [|[k' v] l IH]; intros m; [done|]. cbn [foldl fst]. rewrite IH.
  rewrite fmap_cons. cbn [fst]. destruct (decide (k = k')) as [->|Hne].
  - rewrite lookup_delete_eq, (bool_decide_true (k' ∈ k' :: _)) by (apply elem_of_cons; by left).
    by destruct (bool_decide _).
  - rewrite lookup_delete_ne by done. rewrite (bool_decide_ext (k ∈ k' :: l.*1) (k ∈ l.*1)); [done|].
    rewrite elem_of_cons. tauto.
Qed.

(** [clear] removes what is visible, one key after the other. *)
Definition cleared_writes (cs : ChangeSet) : Write :=
  foldl (fun w p => removed_writes (cs_state cs) w p.1) (cs_writes cs) (visible cs).

Lemma handle_clear_eq cs :
  handle_clear cs = ((touched cs) <| cs_writes := cleared_writes cs |>, Ret tt).
Proof.
  unfold handle_clear, with_local, cleared_writes. rewrite foreach_visible. unfold mbind at 1, ST_bind at 1.
  assert (forall l cs, visit_all (fun k (_ : Value) => on_changes (A:=unit) (handle_remove k);; mret true) l
      (cs, tt) = ((cs <| cs_writes := foldl (fun w p => removed_writes (cs_state cs) w p.1) (cs_writes cs) l |>,
      tt), Ret true)) as Hall.
  { intros l. induction l as [|[k v] l IH]; intros cs0; [by destruct cs0|]. cbn [visit_all].
    unfold mbind, ST_bind. cbn [on_changes]. rewrite handle_remove_eq.
    exact (IH (cs0 <| cs_writes := removed_writes (cs_state cs0) (cs_writes cs0) k |>)). }
  by rewrite Hall.
Qed.

Lemma foldl_removed_view (l : list (Key * Value)) cs :
  view (cs <| cs_writes := foldl (fun w p => removed_writes (cs_state cs) w p.1) (cs_writes cs) l |>) =
  foldl (fun m p => delete p.1 m) (view cs) l.
Proof.
  revert cs. induction l as [|[k v] l IH]; intros cs; [by destruct cs|]. cbn [foldl fst].
  rewrite <- handle_remove_view, <- IH, handle_remove_eq. done.
Qed.

Lemma handle_clear_view cs : view ((touched cs) <| cs_writes := cleared_writes cs |>) = ∅.
Proof.
  unfold cleared_writes. rewrite (foldl_removed_view (visible cs) (touched cs)). apply map_eq. intros k.
  rewrite foldl_delete_lookup, lookup_empty.
  destruct (bool_decide_reflect (k ∈ (visible cs).*1)) as [|Hno]; [done|]. rewrite visible_perm in Hno.
  change (view (touched cs)) with (view cs). destruct (view cs !! k) as [v|] eqn:E; [|done]. destruct Hno.
  apply list_elem_of_fmap. exists (k, v). split; [done|]. by apply elem_of_map_to_list.
Qed.

(** [from <= k < to]. *)
Definition in_range (from to k : Key) : bool :=
  negb (key_ltb k from) && negb (bool_decide (k = to) || key_ltb to k).

Definition range_view (from to : Key) (m : gmap Key Value) : gmap Key Value :=
  filter (fun p => in_range from to p.1 = true) m.

Lemma foldl_range_lookup (from to : Key) (l : list (Key * Value)) (m : gmap Key Value) (k : Key) :
  NoDup l.*1 -> (forall v, (k, v) ∈ l -> m !! k = None) ->
  foldl (fun m p => if in_range from to p.1 then <[p.1 := p.2]> m else m) m l !! k =
  match m !! k with Some v => Some v
  | None => if in_range from to k then list_to_map (M:=gmap Key Value) l !! k else None end.
Proof.
  revert m. induction l as [|[k' v'] l IH]; intros m Hnd Hm.
  { cbn. rewrite lookup_empty. by destruct (m !! k), (in_range from to k). }
  rewrite fmap_cons in Hnd. apply NoDup_cons in Hnd as [Hk' Hnd]. cbn [foldl fst snd].
  cbn [list_to_map foldr uncurry]. destruct (decide (k = k')) as [->|Hne].
  - rewrite IH; [|done|]. 2: { intros v Hv. destruct Hk'. apply list_elem_of_fmap. by exists (k', v). }
    rewrite (Hm v') by (apply elem_of_cons; by left). rewrite lookup_insert_eq.
    assert (list_to_map (M:=gmap Key Value) l !! k' = None) as -> by (by apply not_elem_of_list_to_map_1).
    destruct (in_range from to k'); [by rewrite lookup_insert_eq|].
    by rewrite (Hm v') by (apply elem_of_cons; by left).
  - rewrite lookup_insert_ne by done. rewrite IH; [|done|].
    + by destruct (in_range from to k'); [rewrite lookup_insert_ne|].
    + intros v Hv. assert (m !! k = None) by (apply (Hm v), elem_of_cons; by right).
      by destruct (in_range from to k'); [rewrite lookup_insert_ne|].
Qed.

Lemma list_to_map_visible cs : list_to_map (visible cs) = view cs.
Proof.
  rewrite <- (list_to_map_to_list (view cs)). apply list_to_map_proper; [|apply visible_perm].
  rewrite visible_perm. apply NoDup_fst_map_to_list.
Qed.

Lemma foldl_range_view (from to : Key) cs :
  foldl (fun m p => if in_range from to p.1 then <[p.1 := p.2]> m else m) ∅ (visible cs) =
  range_view from to (view cs).
Proof.
  apply map_eq. intros k. rewrite foldl_range_lookup, lookup_empty, list_to_map_visible.
  - unfold range_view. rewrite map_lookup_filter. destruct (view cs !! k) as [v|]; cbn;
      [|by destruct (in_range _ _ _)].
    destruct (in_range from to k) eqn:E; cbn.
    + by rewrite option_guard_True.
    + by rewrite option_guard_False.
  - rewrite visible_perm. apply NoDup_fst_map_to_list.
  - intros v _. apply lookup_empty.
Qed.

(** No key is in an empty range. *)
Lemma in_range_empty (from to k : Key) : from = to \/ key_ltb to from = true -> in_range from to k = false.
Proof.
  unfold in_range. intros Hr. destruct (key_ltb k from) eqn:E; [done|]. cbn. apply negb_false_iff, orb_true_iff.
  destruct (key_ltb_total k to) as [Hk|[->|Hk]]; [|left; by apply bool_decide_eq_true|by right].
  destruct Hr as [->|Hr]; [congruence|]. right. pose proof (key_ltb_trans _ _ _ Hk Hr). congruence.
Qed.

Lemma range_view_empty (from to : Key) m :
  bool_decide (from = to) || key_ltb to from = true -> range_view from to m = ∅.
Proof.
  intros Hr. apply map_eq. intros k. unfold range_view. rewrite lookup_empty.
  apply map_lookup_filter_None. right. intros v _. cbn. rewrite in_range_empty; [done|].
  apply orb_true_iff in Hr as [Hr%bool_decide_eq_true|Hr]; tauto.
Qed.

Lemma handle_range_eq (from to : Key) cs :
  handle_range true from to cs =
  (if bool_decide (from = to) || key_ltb to from then cs else touched cs,
   Ret (ordered (range_view from to (view cs)))).
Proof.
  unfold handle_range. destruct (bool_decide (from = to) || key_ltb to from) eqn:Hr.
  - by rewrite range_view_empty.
  - unfold mbind, ST_bind, with_local.
    rewrite (foreach_pure _ (fun m p => if in_range from to p.1 then <[p.1 := p.2]> m else m)).
    + by rewrite foldl_range_view.
    + intros k v cs' m. unfold in_range. cbn [fst snd]. destruct (key_ltb k from); [done|]. cbn [negb andb].
      by destruct (bool_decide (k = to) || key_ltb to k).
Qed.
End loops.

(** ** Refinement *)

Inductive HandleOp :=
| HGet (k : Key)
| HHas (k : Key)
| HPut (k : Key) (v : Value)
| HRemove (k : Key)
| HClear
| HSize
| HRange (from to : Key).

Inductive HandleResult :=
| RUnit
| RValue (o : option Value)
| RBool (b : bool)
| RSize (n : Z)
| REntries (l : list (Key * Value)).

(** The result of [remove] is left out: see [remove_known]. *)
Definition handle_op `{!StateOrder} (op : HandleOp) : ST ChangeSet HandleResult :=
  match op with
  | HGet k => o ← handle_get k; mret (RValue o)
  | HHas k => b ← handle_has k; mret (RBool b)
  | HPut k v => handle_put k v;; mret RUnit
  | HRemove k => handle_remove k;; mret RUnit
  | HClear => handle_clear;; mret RUnit
  | HSize => n ← handle_size; mret (RSize n)
  | HRange from to => l ← handle_range true from to; mret (REntries l)
  end.

(** The same on a finite map. *)
Definition map_op (m : gmap Key Value) (op : HandleOp) : gmap Key Value * HandleResult :=
  match op with
  | HGet k => (m, RValue (m !! k))
  | HHas k => (m, RBool (bool_decide (is_Some (m !! k))))
  | HPut k v => (<[k := v]> m, RUnit)
  | HRemove k => (delete k m, RUnit)
  | HClear => (∅, RUnit)
  | HSize => (m, RSize (u64 (Z.of_nat (size m))))
  | HRange from to => (m, REntries (ordered (range_view from to m)))
  end.

Fixpoint handle_run `{!StateOrder} (ops : list HandleOp) : ST ChangeSet (list HandleResult) :=
  match ops with
  | [] => mret []
  | op :: ops => r ← handle_op op; rs ← handle_run ops; mret (r :: rs)
  end.

Fixpoint map_run (m : gmap Key Value) (ops : list HandleOp) : gmap Key Value * list HandleResult :=
  match ops with
  | [] => (m, [])
  | op :: ops => let '(m, r) := map_op m op in let '(m, rs) := map_run m ops in (m, r :: rs)
  end.

Section refinement.
Context `{!StateOrder}.

Lemma handle_op_refines op cs :
  exists cs', handle_op op cs = (cs', Ret (snd (map_op (view cs) op))) /\ view cs' = fst (map_op (view cs) op).
Proof.
  destruct op as [k|k|k v|k| | |from to]; cbn [handle_op map_op fst snd]; unfold mbind, ST_bind.
  - unfold handle_get. rewrite read_key_eq. eexists. split; [done|]. by destruct (cs_writes cs !! k).
  - unfold handle_has, mbind, ST_bind. rewrite read_key_eq. eexists. split; [by destruct (view cs !! k)|].
    by destruct (cs_writes cs !! k).
  - eexists. split; [done|]. apply handle_put_view.
  - rewrite handle_remove_eq. eexists. split; [done|]. rewrite <- handle_remove_view. by rewrite handle_remove_eq.
  - rewrite handle_clear_eq. eexists. split; [done|]. apply handle_clear_view.
  - rewrite handle_size_eq. by eexists.
  - rewrite handle_range_eq. eexists. split; [done|]. by destruct (_ || _).
Qed.

(** Through a handle a transaction uses a plain map: every sequence of
    reads, writes, removals, sizes and range scans returns what it returns on
    the finite map of the snapshot, with the transaction's own writes
    visible. *)
Theorem handle_refines_map (ops : list HandleOp) (cs : ChangeSet) :
  let '(m, rs) := map_run (view cs) ops in
  exists cs', handle_run ops cs = (cs', Ret rs) /\ view cs' = m.
Proof.
  revert cs. induction ops as [|op ops IH]; intros cs; [by exists cs|]. cbn [map_run handle_run].
  destruct (handle_op_refines op cs) as (cs1 & Hop & Hv). destruct (map_op (view cs) op) as [m1 r].
  cbn [fst snd] in *. specialize (IH cs1). rewrite Hv in IH. destruct (map_run m1 ops) as [m rs].
  destruct IH as (cs' & Hrun & Hv'). exists cs'. unfold mbind, ST_bind. by rewrite Hop, Hrun.
Qed.
End refinement.

#[export] Instance map_order : StateOrder := { state_order := map_to_list; state_order_perm _ := Permutation_refl _ }.

(** [remove] returns true exactly for the keys the transaction has
    written, or removed, or that the state has an entry for.  As removed
    keys leave a tombstone in the state, this is not whether the key had a value, which
    is what its documentation says: removing a key twice, in one transaction or in two,
    returns true both times. *)
Theorem remove_known (cs : ChangeSet) (k : Key) :
  snd (handle_remove k cs) =
  Ret (bool_decide (is_Some (cs_writes cs !! k)) || bool_decide (is_Some (cs_state cs !! k))) /\
  (forall v, view cs !! k = Some v -> snd (handle_remove k cs) = Ret true) /\
  (let removed := new_change_set 0 {[ [1] := MkVersionV (-5) 5 [] ]} ∅ 5 in
   view removed !! [1] = None /\ snd (handle_remove [1] removed) = Ret true).
Proof.
  rewrite handle_remove_eq. cbn [snd]. split; [done|]. split; [|vm_compute; split; reflexivity].
  intros v. rewrite view_lookup. unfold overwrite, live, known.
  destruct (cs_writes cs !! k) as [o|], (cs_state cs !! k) as [x|]; done.
Qed.

(** With red-black trees, where the visit of the state stops at the end of
    the range, [range] misses the transaction's own writes if the first of
    them is a removal. *)
Theorem range_misses_writes :
  let cs := (new_change_set 0 {[ [1] := MkVersionV 3 3 [10]; [9] := MkVersionV 3 3 [90] ]} ∅ 3)
    <| cs_writes := {[ [1] := None; [2] := Some [20] ]} |> in
  ordered (range_view [0] [5] (view cs)) = [([2], [20])] /\
  snd (handle_range true [0] [5] cs) = Ret [([2], [20])] /\
  snd (handle_range false [0] [5] cs) = Ret [].
Proof. vm_compute. split_and!; reflexivity. Qed.
