(* ===== verification/KvValidation.v ===== *)
(** Validation of transactions: what [prepare] guarantees about the reads of a
    transaction over one map. *)

From S2P Require Import Prelude Serialized KvMap KvRoll KvHandle KvHandleProps.

(** ** How the tail of the roll evolves *)

(** The tail is still [c0], or a commit that came after it. *)
Definition descends (c0 : LocalCommit) (l : list LocalCommit) : Prop :=
  exists c, last l = Some c /\ (core c = core c0 \/ follows c0 c).

Lemma descends_refl l c0 : roll_ok l -> c0 ∈ l -> descends c0 l.
Proof.
  intros Hl Hin. destruct (last l) as [c|] eqn:E.
  - exists c. split; [done|]. destruct (roll_ok_last l c c0 Hl E Hin) as [->|?]; tauto.
  - apply last_None in E as ->. by apply elem_of_nil in Hin.
Qed.

Lemma descends_commit c0 m cs v c :
  roll_ok (commits m) -> last (commits m) = Some c -> lc_version c < v < 2 ^ 63 ->
  descends c0 (commits m) -> descends c0 (commits (fst (commit cs v false m))).
Proof.
  intros Hm Hl Hv (c' & Hc' & Hd). rewrite Hl in Hc'. injection Hc' as <-.
  destruct (decide (cs_writes cs = ∅)) as [He|He].
  { rewrite commit_nothing by done. by exists c. }
  rewrite (commit_eq m cs v c) by done. cbn [fst]. destruct (changes_state _ _ _); [|by exists c].
  destruct (written_follows v (cs_writes cs) c) as [Hf _]; [done|by eapply roll_ok_tail|].
  eexists. cbn. rewrite last_snoc. split; [done|]. right. destruct Hd as [Hd|Hd].
  - by eapply core_follows.
  - by etrans.
Qed.

Lemma last_drop {A} n (l : list A) : (n < length l)%nat -> last (drop n l) = last l.
Proof.
  intros Hn. rewrite !last_lookup, lookup_drop, length_drop. f_equal. lia.
Qed.

Lemma compact_commits_last h v l c :
  last l = Some c -> exists c', last (fst (compact_commits h v l)) = Some c' /\ core c' = core c.
Proof.
  intros Hl. destruct (compact_commits_drop h v l) as (n & Hn & Hlen); [by intros ->|].
  apply last_core in Hn. rewrite last_drop, Hl in Hn by lia. destruct (last (fst _)) as [c'|]; [|done].
  exists c'. cbn [fmap option_fmap option_map] in Hn. split; [done|congruence].
Qed.

Lemma descends_compact c0 m v :
  descends c0 (commits m) -> descends c0 (commits (fst (compact v m))).
Proof.
  intros (c & Hc & Hd). destruct (compact_commits_last (global_hook m) v _ _ Hc) as (c' & Hc' & Hcore).
  exists c'. split; [cbn; by destruct (compact_commits _ _ _)|]. destruct Hd as [Hd|Hd].
  - left. by rewrite Hcore.
  - right. eapply core_follows; [|by symmetry|exact Hd]. done.
Qed.

(** A rollback that does not count leaves the roll alone. *)
Lemma rollback_counts v m :
  roll_ok (commits m) ->
  (commits (fst (rollback v m)) = commits m /\
   rollback_counter (fst (rollback v m)) = rollback_counter m) \/
  rollback_counter (fst (rollback v m)) = u64 (rollback_counter m + 1).
Proof.
  intros [Hne _]. cbn. destruct (rollback_commits_take v (commits m) Hne) as (n & Hn & Hlen).
  rewrite Hn. destruct (Nat.eqb_spec (length (take n (commits m))) (length (commits m))) as [E|E]; [left|by right].
  split; [|done]. rewrite length_take in E. apply take_ge. lia.
Qed.

Lemma step_counter m op :
  roll_ok (commits m) ->
  rollback_counter (map_step m op) = rollback_counter m \/
  rollback_counter (map_step m op) = u64 (rollback_counter m + 1).
Proof.
  intros Hm. destruct op as [cs v|v|v|]; cbn [map_step].
  - left. unfold commit. destruct (is_empty _ && _); [done|]. unfold mbind, ST_bind, get.
    destruct (last (commits m)); [|done]. cbn. destruct (foldl _ _ _) as [st []]; done.
  - destruct (rollback_counts v m Hm) as [[_ ?]|?]; tauto.
  - left. cbn. by destruct (compact_commits _ _ _).
  - by left.
Qed.

(** While nothing of the roll is rolled back, the tail descends from what a
    transaction has read. *)
Lemma descends_step c0 m h op :
  holds (commits m) h -> allowed h op = true ->
  rollback_counter (map_step m op) = rollback_counter m ->
  rollback_counter m + 1 < 2 ^ 64 -> 0 <= rollback_counter m ->
  descends c0 (commits m) -> descends c0 (commits (map_step m op)).
Proof.
  intros H Hal Hcount Hmax Hpos Hd. destruct op as [cs v|v|v|]; cbn [map_step] in *.
  - apply andb_prop in Hal as [Hv%Z.ltb_lt Hm%Z.ltb_lt]. destruct (holds_last _ _ H) as (c & Hl & Hc & _).
    eapply descends_commit; [apply H|done|lia|done].
  - destruct (rollback_counts v m (holds_roll _ _ H)) as [[-> _]|E]; [done|].
    rewrite Hcount in E. rewrite u64_small in E by u64_lia. lia.
  - by apply descends_compact.
  - done.
Qed.

Lemma descends_run c0 ops m h :
  holds (commits m) h -> all_allowed h ops = true ->
  0 <= rollback_counter m -> rollback_counter m + Z.of_nat (length ops) < 2 ^ 64 ->
  rollback_counter m <= rollback_counter (foldl map_step m ops) /\
  (rollback_counter (foldl map_step m ops) = rollback_counter m ->
   descends c0 (commits m) -> descends c0 (commits (foldl map_step m ops))).
Proof.
  revert m h. induction ops as [|op ops IH]; intros m h H Hal Hpos Hmax; [cbn; split; [lia|done]|].
  apply andb_prop in Hal as [Hop Hops]. cbn [foldl length] in *.
  pose proof (holds_step m h op H Hop) as H'. destruct (step_counter m op (holds_roll _ _ H)) as [E|E].
  - destruct (IH (map_step m op) _ H' Hops) as [Hle Hd]; [lia..|]. split; [lia|]. intros Hc Hdesc. apply Hd; [lia|].
    eapply descends_step; [exact H|done..|lia|lia|done].
  - rewrite u64_small in E by u64_lia. destruct (IH (map_step m op) _ H' Hops) as [Hle _]; [lia..|].
    split; [lia|]. lia.
Qed.

(** ** What a change set records *)

(** [cs'] is [cs] after some operations: reads are only added, each with what
    the state says, and the whole map is read at its version. *)
Record extends (cs cs' : ChangeSet) : Prop := {
  ext_state : cs_state cs' = cs_state cs;
  ext_start : cs_start_version cs' = cs_start_version cs;
  ext_counter : cs_rollback_counter cs' = cs_rollback_counter cs;
  ext_reads k r : cs_reads cs !! k = Some r -> cs_reads cs' !! k = Some r;
  ext_new k r : cs_reads cs' !! k = Some r -> cs_reads cs !! k = Some r \/ r = read_record k cs;
  ext_whole : cs_read_version cs' = cs_read_version cs \/ cs_read_version cs' = cs_start_version cs
}.

#[export] Instance extends_preorder : PreOrder extends.
Proof.
  split.
  - intros cs. split; auto.
  - intros cs1 cs2 cs3 [S1 V1 C1 R1 N1 W1] [S2 V2 C2 R2 N2 W2]. split; [congruence..|auto| |].
    + intros k r [Hr|Hr]%N2; [by apply N1|]. right. rewrite Hr. unfold read_record. by rewrite S1.
    + destruct W2 as [->| ->]; [done|]. right. congruence.
Qed.

Lemma extends_writes cs w : extends cs (cs <| cs_writes := w |>).
Proof. split; auto. Qed.

Lemma extends_touched cs : extends cs (touched cs).
Proof. split; auto. Qed.

Lemma extends_read k cs : extends cs (with_read k cs).
Proof.
  split; try done; [..|by left].
  - intros k' r Hr. unfold with_read. cbn. destruct (cs_reads cs !! k) eqn:E; [done|].
    rewrite lookup_insert_ne; [done|]. intros ->. congruence.
  - intros k' r. unfold with_read. cbn. destruct (cs_reads cs !! k) eqn:E; [by left|].
    intros [[-> <-]|[_ ?]]%lookup_insert_Some; [by right|by left].
Qed.

Section replay.
Context {SO : StateOrder}.

Lemma handle_op_extends op cs : extends cs (fst (handle_op op cs)).
Proof.
  assert (forall k, extends cs (match cs_writes cs !! k with Some _ => cs | None => with_read k cs end)) as Hread.
  { intros k. destruct (cs_writes cs !! k); [reflexivity|apply extends_read]. }
  destruct op as [k|k|k v|k| | |from to]; cbn [handle_op]; unfold mbind, ST_bind.
  - unfold handle_get. rewrite read_key_eq. apply Hread.
  - unfold handle_has, mbind, ST_bind. rewrite read_key_eq. apply Hread.
  - apply extends_writes.
  - rewrite handle_remove_eq. apply extends_writes.
  - rewrite handle_clear_eq. etrans; [apply extends_touched|apply extends_writes].
  - rewrite handle_size_eq. apply extends_touched.
  - rewrite handle_range_eq. destruct (_ || _); [reflexivity|apply extends_touched].
Qed.

(** The dependencies that cover the operation: a removal needs to know whether the key
    is there, and iteration at version 0 leaves no trace. *)
Definition op_covered (op : HandleOp) (cs : ChangeSet) : bool :=
  match op with
  | HGet _ | HHas _ | HPut _ _ => true
  | HRemove k => bool_decide (is_Some (cs_reads cs !! k)) || negb (cs_read_version cs =? NoVersion)
  | HClear | HSize | HRange _ _ => negb (cs_start_version cs =? NoVersion)
  end.

(** Two states that agree on what a change set has read. *)
Definition agree (cs : ChangeSet) (st st' : KvState) : Prop :=
  (forall k, is_Some (cs_reads cs !! k) -> st !! k = st' !! k) /\
  (cs_read_version cs <> NoVersion -> st = st').

Definition whole_ok (cs : ChangeSet) : Prop :=
  cs_read_version cs = NoVersion \/ cs_read_version cs = cs_start_version cs.

Lemma whole_ok_extends cs cs' : extends cs cs' -> whole_ok cs -> whole_ok cs'.
Proof.
  intros [_ Hs _ _ _ [Hw|Hw]] [Hn|Hn]; unfold whole_ok; rewrite Hw, Hs; tauto.
Qed.

Lemma agree_extends cs cs' st st' : extends cs cs' -> whole_ok cs -> agree cs' st st' -> agree cs st st'.
Proof.
  intros [_ _ _ HR _ HW] Hok [Hk Hw]. split.
  - intros k [r Hr%HR]. apply Hk. by exists r.
  - intros Hne. apply Hw. destruct HW as [->| ->]; [done|]. destruct Hok; congruence.
Qed.

(** A key that is read looks the same in both states. *)
Lemma view_agree k cs cs2 :
  cs_writes cs2 = cs_writes cs ->
  agree (match cs_writes cs !! k with Some _ => cs | None => with_read k cs end) (cs_state cs) (cs_state cs2) ->
  view cs2 !! k = view cs !! k.
Proof.
  intros Hw [Hk _]. rewrite !view_lookup. unfold overwrite. rewrite Hw.
  destruct (cs_writes cs !! k); [done|]. unfold live. rewrite Hk; [done|].
  unfold with_read. cbn. destruct (cs_reads cs !! k) eqn:E; [by rewrite E|]. by rewrite lookup_insert_eq.
Qed.

(** The whole map looks the same in both states. *)
Lemma touched_agree cs cs2 :
  cs_writes cs2 = cs_writes cs -> cs_start_version cs <> NoVersion ->
  agree (touched cs) (cs_state cs) (cs_state cs2) ->
  view cs2 = view cs /\ cleared_writes cs2 = cleared_writes cs.
Proof.
  intros Hw Hs [_ Hwhole]. cbn in Hwhole. specialize (Hwhole Hs).
  unfold view, cleared_writes, visible. by rewrite Hw, <- Hwhole.
Qed.

Lemma op_replays op cs cs2 :
  cs_writes cs2 = cs_writes cs -> whole_ok cs -> op_covered op cs = true ->
  agree (fst (handle_op op cs)) (cs_state cs) (cs_state cs2) ->
  snd (handle_op op cs2) = snd (handle_op op cs) /\
  cs_writes (fst (handle_op op cs2)) = cs_writes (fst (handle_op op cs)).
Proof.
  intros Hw Hok Hcov Hag. destruct op as [k|k|k v|k| | |from to]; cbn [handle_op op_covered] in *;
    unfold mbind, ST_bind in *.
  - unfold handle_get in *. rewrite !read_key_eq in *. cbn in *. rewrite (view_agree k cs cs2) by done.
    split; [done|]. rewrite Hw. by destruct (cs_writes cs !! k).
  - unfold handle_has, mbind, ST_bind in *. rewrite !read_key_eq in *. cbn in *.
    rewrite (view_agree k cs cs2) by done. split; [done|]. rewrite Hw. by destruct (cs_writes cs !! k).
  - cbn. by rewrite Hw.
  - rewrite !handle_remove_eq in *. cbn in *. split; [done|]. rewrite Hw. unfold removed_writes.
    assert (cs_state cs !! k = cs_state cs2 !! k) as ->; [|done]. destruct Hag as [Hk Hwhole]. cbn in *.
    apply orb_true_iff in Hcov as [Hr%bool_decide_eq_true|Hr%negb_true_iff%Z.eqb_neq]; [by apply Hk|].
    by rewrite Hwhole.
  - rewrite !handle_clear_eq in *. apply negb_true_iff, Z.eqb_neq in Hcov. cbn in Hag |- *.
    destruct (touched_agree cs cs2 Hw Hcov) as [_ ->]; [|done]. split; [by apply Hag|]. intros _. by apply Hag.
  - rewrite !handle_size_eq in *. apply negb_true_iff, Z.eqb_neq in Hcov. cbn in Hag |- *.
    destruct (touched_agree cs cs2 Hw Hcov Hag) as [-> _]. by split.
  - rewrite !handle_range_eq in *. apply negb_true_iff, Z.eqb_neq in Hcov. cbn in Hag |- *.
    destruct (_ || _) eqn:Hr.
    + by rewrite !range_view_empty.
    + destruct (touched_agree cs cs2 Hw Hcov Hag) as [-> _]. by split.
Qed.

(** Every operation of the program is covered. *)
Fixpoint covered (ops : list HandleOp) (cs : ChangeSet) : bool :=
  match ops with
  | [] => true
  | op :: ops => op_covered op cs && covered ops (fst (handle_op op cs))
  end.

Lemma handle_op_returns op cs : exists r, snd (handle_op op cs) = Ret r.
Proof. destruct (handle_op_refines op cs) as (cs' & -> & _). by eexists. Qed.

Lemma handle_run_cons op ops cs r :
  snd (handle_op op cs) = Ret r ->
  handle_run (op :: ops) cs = (rs ← handle_run ops; mret (r :: rs)) (fst (handle_op op cs)).
Proof.
  intros Hr. cbn [handle_run]. unfold mbind at 1, ST_bind at 1. destruct (handle_op op cs) as [cs' o].
  cbn in Hr. by subst o.
Qed.

Lemma run_extends ops cs : extends cs (fst (handle_run ops cs)).
Proof.
  revert cs. induction ops as [|op ops IH]; intros cs; [reflexivity|].
  destruct (handle_op_returns op cs) as [r Hr]. rewrite (handle_run_cons _ _ _ r Hr). unfold mbind, ST_bind.
  specialize (IH (fst (handle_op op cs))). etrans; [apply (handle_op_extends op cs)|].
  by destruct (handle_run ops _) as [cs' [rs|e]].
Qed.

(** Run on a state that agrees on what was read, the program does the same. *)
Lemma run_replays ops cs cs2 :
  cs_writes cs2 = cs_writes cs -> whole_ok cs -> covered ops cs = true ->
  agree (fst (handle_run ops cs)) (cs_state cs) (cs_state cs2) ->
  snd (handle_run ops cs2) = snd (handle_run ops cs) /\
  cs_writes (fst (handle_run ops cs2)) = cs_writes (fst (handle_run ops cs)).
Proof.
  revert cs cs2. induction ops as [|op ops IH]; intros cs cs2 Hw Hok Hcov Hag; [done|].
  apply andb_prop in Hcov as [Hop Hops]. pose proof (handle_op_extends op cs) as Hext.
  pose proof (handle_op_extends op cs2) as Hext2.
  destruct (handle_op_returns op cs) as [r Hr]. rewrite (handle_run_cons _ _ _ r Hr) in *.
  pose proof (whole_ok_extends _ _ Hext Hok) as Hok'.
  pose proof (run_extends ops (fst (handle_op op cs))) as Hrun.
  assert (agree (fst (handle_run ops (fst (handle_op op cs)))) (cs_state cs) (cs_state cs2)) as Hag'.
  { unfold mbind, ST_bind in Hag. by destruct (handle_run ops _) as [cs' [rs|e]]. }
  destruct (op_replays op cs cs2 Hw Hok Hop) as [Hr2 Hw2]; [by eapply agree_extends|].
  rewrite Hr in Hr2. rewrite (handle_run_cons _ _ _ r Hr2).
  destruct (IH (fst (handle_op op cs)) (fst (handle_op op cs2)) Hw2 Hok' Hops) as [Hs Hws].
  { by rewrite (ext_state _ _ Hext), (ext_state _ _ Hext2). }
  unfold mbind, ST_bind. destruct (handle_run ops (fst (handle_op op cs))) as [cs' o],
    (handle_run ops (fst (handle_op op cs2))) as [cs2' o2]. cbn in *. subst o2. by destruct o.
Qed.

(** ** What [prepare] checks *)

(** The recorded reads say what the state holds. *)
Definition reads_ok (cs : ChangeSet) : Prop :=
  forall k r, cs_reads cs !! k = Some r -> r = read_record k cs.

Lemma reads_ok_extends cs cs' : extends cs cs' -> reads_ok cs -> reads_ok cs'.
Proof.
  intros [Hs _ _ _ Hn _] Hok k r [Hr%Hok| ->]%Hn; [rewrite Hr|]; unfold read_record; by rewrite Hs.
Qed.

(** A read that is found valid in a later commit found the entry that is there. *)
Lemma read_valid_same cs c0 c k r :
  cs_state cs = lc_state c0 -> commit_ok c0 -> core c = core c0 \/ follows c0 c ->
  r = read_record k cs -> read_valid (lc_state c) false (k, r) = true ->
  lc_state c0 !! k = lc_state c !! k.
Proof.
  intros Hs [_ Hok] Hd -> Hv. unfold read_valid, read_record in Hv. rewrite Hs in Hv.
  destruct Hd as [[= _ ->]|[_ Hf]]; [done|]. destruct (Hf k) as [->|(x & Hx & Hver)]; [done|].
  rewrite Hx in Hv. destruct (lc_state c0 !! k) as [y|] eqn:Ey.
  - apply Hok in Ey. destruct (Z.eqb_spec (version y) (version x)); [lia|].
    by rewrite andb_false_r in Hv.
  - done.
Qed.

Lemma prepare_agrees m cs c0 :
  cs_state cs = lc_state c0 -> cs_start_version cs = lc_version c0 -> commit_ok c0 ->
  reads_ok cs -> whole_ok cs ->
  cs_writes cs <> ∅ -> prepare m cs false = true ->
  (cs_rollback_counter cs = rollback_counter m -> descends c0 (commits m)) ->
  exists c, last (commits m) = Some c /\ agree cs (lc_state c0) (lc_state c).
Proof.
  intros Hs Hstart Hok Hreads Hwhole Hw Hp Hdesc. unfold prepare in Hp. rewrite is_empty_false in Hp by done.
  destruct (Z.eqb_spec (cs_rollback_counter cs) (rollback_counter m)) as [Hc|]; [|done].
  destruct (Hdesc Hc) as (c & Hl & Hd). rewrite Hl in Hp. exists c. split; [done|].
  cbn [negb] in Hp. destruct (_ && _) eqn:Eg; [done|]. rewrite forallb_forall in Hp. split.
  - intros k [r Hr]. eapply read_valid_same; [done..|by apply Hreads|].
    by apply Hp, list_elem_of_In, elem_of_map_to_list.
  - intros Hne. destruct Hwhole as [?|Hr]; [done|]. rewrite Hr, Hstart in *.
    destruct (Z.eqb_spec (lc_version c0) NoVersion) as [|_]; [done|].
    destruct (Z.eqb_spec (lc_version c0) (lc_version c)) as [E|]; [|done].
    destruct Hd as [[= _ ->]|[? _]]; [done|lia].
Qed.

(** ** Replaying a transaction *)

Lemma all_allowed_app h l1 l2 :
  all_allowed h (l1 ++ l2) = all_allowed h l1 && all_allowed (foldl history_step h l1) l2.
Proof. revert h. induction l1 as [|op l1 IH]; intros h; [done|]. cbn. by rewrite IH, andb_assoc. Qed.

(** The counter counts at most the operations. *)
Lemma counter_run ops m h :
  holds (commits m) h -> all_allowed h ops = true ->
  0 <= rollback_counter m -> rollback_counter m + Z.of_nat (length ops) < 2 ^ 64 ->
  0 <= rollback_counter (foldl map_step m ops) <= rollback_counter m + Z.of_nat (length ops).
Proof.
  revert m h. induction ops as [|op ops IH]; intros m h H Hal Hpos Hmax; [cbn; lia|].
  apply andb_prop in Hal as [Hop Hops]. cbn [foldl length] in *.
  pose proof (holds_step m h op H Hop) as H'. destruct (step_counter m op (holds_roll _ _ H)) as [E|E].
  - specialize (IH (map_step m op) _ H' Hops). lia.
  - rewrite u64_small in E by u64_lia. specialize (IH (map_step m op) _ H' Hops). lia.
Qed.

Lemma created_change_set m h u cs :
  holds (commits m) h -> create_change_set m u = Some cs ->
  exists c, c ∈ commits m /\ commit_ok c /\ cs_state cs = lc_state c /\ cs_start_version cs = lc_version c /\
    cs_rollback_counter cs = rollback_counter m /\ cs_reads cs = ∅ /\ cs_read_version cs = NoVersion /\
    cs_writes cs = ∅.
Proof.
  intros H. unfold create_change_set. destruct (head _); [|done]. rewrite find_commit_last.
  destruct (last _) as [c|] eqn:E; [|done]. intros [= <-]. apply last_Some_elem_of in E.
  apply list_elem_of_filter in E as [_ Hc]. exists c. split_and!; try done.
  destruct (holds_roll _ _ H) as (_ & _ & Hall). rewrite Forall_forall in Hall. by apply Hall.
Qed.

(** C29: Transactions over a map are serialisable, as far as the change set
    records what they depend on.  A program that ran on the map as it was at
    version [u], that has written something, and whose writes are found valid
    later, after any fewer than 2^64 commits, rollbacks and compactions at
    versions the store uses, would return the same results and write the same
    had it run on the map as it is then.  This is for programs that do not look
    at a map as a whole (size, clear, range) while it has never been written,
    and that remove a key only after they have read it or looked at the whole
    map: the code records no dependency for the others, and the theorem fails
    for them. *)
Theorem tx_replays (before after : list MapOp) (program : list HandleOp) (u : Z) (cs0 : ChangeSet) :
  let m0 := foldl map_step new_map before in
  let m1 := foldl map_step m0 after in
  let h1 := foldl history_step initial_history (before ++ after) in
  let cs := fst (handle_run program cs0) in
  all_allowed initial_history (before ++ after) = true ->
  Z.of_nat (length (before ++ after)) < 2 ^ 64 ->
  create_change_set m0 u = Some cs0 -> covered program cs0 = true ->
  cs_writes cs <> ∅ -> prepare m1 cs false = true ->
  exists cs1, create_change_set m1 (current h1) = Some cs1 /\
    snd (handle_run program cs1) = snd (handle_run program cs0) /\
    cs_writes (fst (handle_run program cs1)) = cs_writes cs.
Proof.
  intros m0 m1 h1 cs Hal Hlen Hcs0 Hcov Hw Hp.
  rewrite all_allowed_app in Hal. apply andb_prop in Hal as [Hb Ha]. rewrite length_app in Hlen.
  pose proof (holds_run before new_map initial_history holds_initial Hb) as H0.
  pose proof (holds_run after m0 _ H0 Ha) as H1. rewrite <- foldl_app in H1. fold m1 h1 in H1.
  pose proof (counter_run before new_map _ holds_initial Hb) as Hcount. cbn [rollback_counter new_map] in Hcount.
  fold m0 in Hcount, H0.
  destruct (created_change_set m0 _ u cs0 H0 Hcs0) as (c0 & Hin & Hok0 & Hst & Hstart & Hrc & Hr & Hrv & Hw0).
  pose proof (run_extends program cs0) as Hext. fold cs in Hext.
  assert (whole_ok cs0) as Hok by by left.
  destruct (prepare_agrees m1 cs c0) as (c & Hl & Hag).
  - by rewrite (ext_state _ _ Hext).
  - by rewrite (ext_start _ _ Hext).
  - done.
  - eapply reads_ok_extends; [done|]. intros k r. by rewrite Hr, lookup_empty.
  - by eapply whole_ok_extends.
  - done.
  - done.
  - rewrite (ext_counter _ _ Hext), Hrc. intros E.
    eapply (descends_run c0 after m0 _ H0 Ha); [lia|lia|by symmetry|]. by apply descends_refl; [apply H0|].
  - unfold create_change_set. rewrite find_commit_upto by apply H1. rewrite Hl.
    destruct (holds_head _ _ H1) as (d & rest & -> & _). cbn [head]. eexists. split; [done|].
    apply run_replays; [by rewrite Hw0|done..|]. by rewrite Hst.
Qed.
End replay.

Lemma tx_replays_witness :
  let w k x := (new_change_set 0 ∅ ∅ 0) <| cs_writes := {[ k := Some x ]} |> in
  let before := [OpCommit (w [1] [10]) 1] in
  let after := [OpCommit (w [2] [20]) 2; OpCompact 1] in
  let program := [HGet [1]; HPut [3] [30]; HHas [3]] in
  exists cs1, create_change_set (foldl map_step new_map (before ++ after)) 2 = Some cs1 /\
    snd (handle_run program cs1) = Ret [RValue (Some [10]); RUnit; RBool true].
Proof.
  intros w before after program.
  destruct (create_change_set (foldl map_step new_map before) 1) as [cs0|] eqn:E;
    [|vm_compute in E; discriminate].
  vm_compute in E. injection E as <-.
  edestruct (tx_replays before after program 1) as (cs1 & Hcs1 & Hres & _);
    [vm_compute; reflexivity|vm_compute; reflexivity|vm_compute; reflexivity|vm_compute; reflexivity| | |].
  - vm_compute. discriminate.
  - vm_compute. reflexivity.
  - exists cs1. split; [exact Hcs1|]. rewrite Hres. vm_compute. reflexivity.
Defined.

(** Running a program on the map at a version. *)
Definition run_at `{!StateOrder} (m : Map) (u : Z) (program : list HandleOp) :=
  cs ← create_change_set m u; Some (handle_run program cs).

(** Iteration over a map that is still at version 0 leaves no dependency: the
    transaction that found it empty is valid after another has filled it. *)
Theorem empty_iteration_unrecorded :
  let other := (new_change_set 0 ∅ ∅ 0) <| cs_writes := {[ [1] := Some [10] ]} |> in
  let m1 := map_step new_map (OpCommit other 1) in
  let program := [HSize; HPut [2] [20]] in
  (snd <$> run_at new_map 0 program) = Some (Ret [RSize 0; RUnit]) /\
  ((fun cs => prepare m1 cs false) ∘ fst <$> run_at new_map 0 program) = Some true /\
  (snd <$> run_at m1 1 program) = Some (Ret [RSize 1; RUnit]).
Proof. split_and!; vm_compute; reflexivity. Qed.

(** A removal of a key that was not there leaves no dependency and no write:
    the transaction is valid after another has put the key, which stays. *)
Theorem lost_removal :
  let other := (new_change_set 0 ∅ ∅ 0) <| cs_writes := {[ [1] := Some [10] ]} |> in
  let m1 := map_step new_map (OpCommit other 1) in
  let program := [HRemove [1]; HPut [2] [20]] in
  (cs_writes ∘ fst <$> run_at new_map 0 program) = Some {[ [2] := Some [20] ]} /\
  ((fun cs => prepare m1 cs false) ∘ fst <$> run_at new_map 0 program) = Some true /\
  (cs_writes ∘ fst <$> run_at m1 1 program) = Some {[ [1] := None; [2] := Some [20] ]}.
Proof. split_and!; vm_compute; reflexivity. Qed.
