(* ===== verification/KvSerialise.v ===== *)
(** Serialisation of transactions: src/kv/raw_serialise.h,
    src/kv/generic_serialise_wrapper.h, src/kv/serialised_entry_format.h, and
    [serialise_changes] and [deserialise_internal] of src/kv/untyped_map.h.

    The buffer of a [RawWriter] grows, so writing does not fail.  A [RawReader] is a
    pointer into a larger buffer with a size it is told: [rr_mem] holds the bytes from the pointer
    to the end of that buffer, and reading beyond them is undefined behaviour.  The
    encryptor is a parameter.  [CCF_ASSERT] checks nothing in a release build. *)

From S2P Require Import Prelude Serialized RaftTypes KvMap KvHandle.

Abbreviation Name := bytes.

Inductive SecurityDomain := PUBLIC | PRIVATE.
#[export] Instance SecurityDomain_eq_dec : EqDecision SecurityDomain.
Proof. solve_decision. Defined.

(** The bytes of a name. *)
Definition name_of (s : string) : Name :=
  (fun c => Z.of_nat (Ascii.nat_of_ascii c)) <$> String.list_ascii_of_string s.

Definition public_domain_prefix : Name := name_of "public:".

Definition starts_with (s prefix : bytes) : bool := bool_decide (take (length prefix) s = prefix).

Definition get_security_domain (name : Name) : SecurityDomain :=
  if starts_with name public_domain_prefix then PUBLIC else PRIVATE.

Inductive EntryType :=
| WriteSet | SnapshotEntry | WriteSetWithClaims | WriteSetWithCommitEvidence
| WriteSetWithCommitEvidenceAndClaims.
#[export] Instance EntryType_eq_dec : EqDecision EntryType.
Proof. solve_decision. Defined.

Definition EntryType_value (t : EntryType) : Z :=
  match t with
  | WriteSet => 0 | SnapshotEntry => 1 | WriteSetWithClaims => 2
  | WriteSetWithCommitEvidence => 3 | WriteSetWithCommitEvidenceAndClaims => 4
  end.

Definition EntryType_of (v : Z) : option EntryType :=
  match v with
  | 0 => Some WriteSet | 1 => Some SnapshotEntry | 2 => Some WriteSetWithClaims
  | 3 => Some WriteSetWithCommitEvidence | 4 => Some WriteSetWithCommitEvidenceAndClaims
  | _ => None
  end.

Definition has_claims (et : EntryType) : bool :=
  match et with WriteSetWithClaims | WriteSetWithCommitEvidenceAndClaims => true | _ => false end.

Definition has_commit_evidence (et : EntryType) : bool :=
  match et with WriteSetWithCommitEvidence | WriteSetWithCommitEvidenceAndClaims => true | _ => false end.

(** ** [RawWriter]: what [append] adds for each type *)

Definition append_u64 (v : Z) : bytes := le_encode 8 v.
Definition append_entry_type (t : EntryType) : bytes := le_encode 1 (EntryType_value t).
(** vectors of bytes and [SerialisedEntry] *)
Definition append_vector (entry : bytes) : bytes := append_u64 (Z.of_nat (length entry)) ++ entry.
Definition append_versions (entry : list Z) : bytes :=
  append_u64 (u64 (Z.of_nat (length entry) * 8)) ++ concat (append_u64 <$> entry).
Definition append_string (str : bytes) : bytes := append_u64 (Z.of_nat (length str)) ++ str.

(** ** [RawReader] *)

Record RawReader := MkRawReader { rr_mem : bytes; rr_size : Z; rr_offset : Z }.
#[export] Instance eta_RawReader : Settable RawReader := fun r =>
  MkRawReader (rr_mem r) (rr_size r) (rr_offset r).

Definition reader_init (mem : bytes) (size : Z) : RawReader := MkRawReader mem size 0.

(** The [n] bytes at the offset, which moves on. *)
Definition copy_bytes (n : Z) : ST RawReader bytes :=
  r ← get;
  if Z.of_nat (length (rr_mem r)) <? rr_offset r + n then throw UndefinedBehaviour
  else rr_offset <~ u64 (rr_offset r + n);; mret (take (Z.to_nat n) (drop (Z.to_nat (rr_offset r)) (rr_mem r))).

(** [read_entry<T>], for an unsigned integer of [n] bytes. *)
Definition read_entry (n : nat) : ST RawReader Z :=
  r ← get;
  let remainder := u64 (rr_size r - rr_offset r) in
  if remainder <? Z.of_nat n then throw insufficient_space
  else b ← copy_bytes (Z.of_nat n); mret (le_decode b).

(** [read_size_prefixed_entry] and the copy of the bytes it finds.  The remainder is that
    from before the size was read. *)
Definition read_prefixed : ST RawReader bytes :=
  r ← get;
  let remainder := u64 (rr_size r - rr_offset r) in
  entry_size ← read_entry 8;
  if remainder <? entry_size then throw (LogicError "Expected longer entry")
  else copy_bytes entry_size.

(** [read_next] for a [std::array] of [n] bytes has no check. *)
Definition read_array (n : Z) : ST RawReader bytes := copy_bytes n.

Definition read_entry_type : ST RawReader EntryType :=
  t ← read_entry 1;
  match EntryType_of t with Some t => mret t | None => throw (LogicError "Invalid EntryType") end.

Fixpoint split_versions (fuel : nat) (b : bytes) : list Z :=
  match fuel with
  | O => []
  | S fuel => le_decode (take 8 b) :: split_versions fuel (drop 8 b)
  end.

(** The vector has room for the whole elements only. *)
Definition read_versions : ST RawReader (list Z) :=
  b ← read_prefixed;
  if (length b mod 8 =? 0)%nat then mret (split_versions (length b / 8) b) else throw UndefinedBehaviour.

Definition is_eos (r : RawReader) : bool := rr_size r <=? rr_offset r.

(** ** The encryptor *)

Record Encryptor := MkEncryptor {
  header_length : nat;
  (** header and cipher, unless there is no key *)
  enc_encrypt : forall (plain additional_data : bytes) (tx_id : TxID) (t : EntryType) (historical_hint : bool),
    option (bytes * bytes);
  enc_decrypt : forall (cipher additional_data header : bytes) (version : Z) (historical_hint : bool),
    option bytes;
  enc_get_term : bytes -> Z
}.

(** What the source relies on: a header of fixed length that holds the term of an entry, a cipher as long as the text, and
    decryption with the same key.  [LedgerSecrets] shows it of the encryptor of a node. *)
Class EncryptorLaws (e : Encryptor) : Prop := {
  encrypted_lengths plain ad id t hint hdr cipher :
    enc_encrypt e plain ad id t hint = Some (hdr, cipher) ->
    length hdr = header_length e /\ length cipher = length plain;
  encrypted_decrypts plain ad id t hint hdr cipher :
    enc_encrypt e plain ad id t hint = Some (hdr, cipher) ->
    enc_decrypt e cipher ad hdr (tx_version id) hint = Some plain;
  encrypted_term plain ad id t hint hdr cipher :
    enc_encrypt e plain ad id t hint = Some (hdr, cipher) ->
    t <> SnapshotEntry -> 0 <= tx_term id < 2 ^ 31 -> enc_get_term e hdr = tx_term id
}.

Definition KvSerialiserException : exn := LogicError "KvSerialiserException".

(** ** [GenericSerialiseWrapper] *)

Record Serialiser := MkSerialiser {
  public_writer : bytes;
  private_writer : bytes;
  current_domain : SecurityDomain;
  ser_tx_id : TxID;
  ser_entry_type : EntryType;
  header_flags : Z;
  historical_hint : bool
}.
#[export] Instance eta_Serialiser : Settable Serialiser := fun r =>
  MkSerialiser (public_writer r) (private_writer r) (current_domain r) (ser_tx_id r) (ser_entry_type r)
    (header_flags r) (historical_hint r).

(** The header of an entry: format, flags, and 48 bits of size. *)
Definition entry_format_v1 : Z := 1.
Definition max_entry_size : Z := 2 ^ 48.
Definition entry_header (flags size : Z) : Z := entry_format_v1 + 2 ^ 8 * flags + 2 ^ 16 * (size `mod` max_entry_size).

Section serialiser.
Context (crypto_util : option Encryptor).

Definition serialise_internal (b : bytes) : ST Serialiser unit :=
  s ← get;
  match current_domain s with
  | PUBLIC => public_writer <~ public_writer s ++ b
  | PRIVATE => private_writer <~ private_writer s ++ b
  end.

(** The constructor.  The digests are arrays of 32 bytes. *)
Definition new_serialiser (tx_id : TxID) (t : EntryType) (flags : Z) (commit_evidence_digest claims_digest : bytes)
    (hint : bool) : Serialiser :=
  MkSerialiser
    (append_entry_type t ++ append_u64 (tx_version tx_id) ++
     (if has_claims t then claims_digest else []) ++
     (if has_commit_evidence t then commit_evidence_digest else []) ++ append_u64 0)
    [] PUBLIC tx_id t flags hint.

Definition start_map (name : Name) (domain : SecurityDomain) : ST Serialiser unit :=
  match domain, crypto_util with
  | PRIVATE, None => throw KvSerialiserException
  | _, _ => current_domain <~ domain;; serialise_internal (append_string name)
  end.

(** A vector that has been written to from its start, with zeroes after that. *)
Definition buffer_bytes (b : Buffer) : bytes := written b ++ replicate (Z.to_nat (remaining b)) 0.

(** [serialise_domains], into a buffer of the computed size. *)
Definition serialise_domains (s : Serialiser) (public private : bytes) : outcome bytes :=
  let size := Z.of_nat (length public) in
  match crypto_util with
  | None =>
      match (write 8 (entry_header (header_flags s) (u64 size));; write_block public)
              (MkBuffer [] (u64 (size + 8))) with
      | (b, Ret _) => Ret (buffer_bytes b)
      | (_, Throw e) => Throw e
      end
  | Some e =>
      let size := u64 (size + Z.of_nat (header_length e) + 8 + Z.of_nat (length private)) in
      match enc_encrypt e private public (ser_tx_id s) (ser_entry_type s) (historical_hint s) with
      | None => Throw KvSerialiserException
      | Some (serialised_hdr, encrypted_private_domain) =>
          match (write 8 (entry_header (header_flags s) size);;
                 write_block serialised_hdr;;
                 write 8 (Z.of_nat (length public));;
                 write_block public;;
                 write_block encrypted_private_domain) (MkBuffer [] (u64 (size + 8))) with
          | (b, Ret _) => Ret (buffer_bytes b)
          | (_, Throw e) => Throw e
          end
      end
  end.

Definition get_raw_data (s : Serialiser) : outcome bytes :=
  serialise_domains s (public_writer s) (private_writer s).

(** ** [GenericDeserialiseWrapper] *)

Record Deserialiser := MkDeserialiser {
  public_reader : RawReader;
  private_reader : RawReader;
  in_private : bool;
  de_entry_type : EntryType;
  de_claims_digest : option bytes;
  de_commit_evidence_digest : option bytes;
  de_version : Z;
  de_term : Z
}.
#[export] Instance eta_Deserialiser : Settable Deserialiser := fun r =>
  MkDeserialiser (public_reader r) (private_reader r) (in_private r) (de_entry_type r) (de_claims_digest r)
    (de_commit_evidence_digest r) (de_version r) (de_term r).

Local Abbreviation D := (ST Deserialiser).

(** The fields that [init] has not set; [term] is the caller's. *)
Definition new_deserialiser (term : Z) : Deserialiser :=
  MkDeserialiser (reader_init [] 0) (reader_init [] 0) false WriteSet None None 0 term.

Definition read_public_header : D unit :=
  t ← zoom public_reader read_entry_type;
  de_entry_type <~ t;;
  v ← zoom public_reader (read_entry 8);
  de_version <~ v;;
  (if has_claims t then d ← zoom public_reader (read_array 32); de_claims_digest <~ Some d else skip);;
  (if has_commit_evidence t
   then d ← zoom public_reader (read_array 32); de_commit_evidence_digest <~ Some d else skip);;
  zoom public_reader (read_entry 8);;
  skip.

(** Runs a reader of src/ds/serialized.h on local bytes. *)
Definition run_reader {A} (m : Reader A) (data : bytes) : D (A * bytes) :=
  match m data with (rest, Ret a) => mret (a, rest) | (_, Throw e) => throw e end.

(** Returns the version, or nothing when decryption fails. *)
Definition init (domain_restriction : option SecurityDomain) (hint : bool) (data : bytes) : D (option Z) :=
  '(header, data) ← run_reader (read 8) data;
  if negb (header `div` 2 ^ 16 =? Z.of_nat (length data))
  then throw (LogicError "Reported size in entry header does not match size of entry")
  else if negb (header `mod` 2 ^ 8 =? entry_format_v1) then throw (LogicError "Cannot deserialise entry format")
  else
    match crypto_util with
    | None =>
        public_reader <~ reader_init data (Z.of_nat (length data));;
        read_public_header;;
        d ← get; mret (Some (de_version d))
    | Some e =>
        let gcm_hdr := take (header_length e) data in
        '(_, data) ← run_reader (skip_bytes (Z.of_nat (header_length e))) data;
        '(public_domain_length, data) ← run_reader (read 8) data;
        public_reader <~ reader_init data public_domain_length;;
        read_public_header;;
        if bool_decide (domain_restriction = Some PUBLIC) then
          de_term <~ enc_get_term e gcm_hdr;;
          d ← get; mret (Some (de_version d))
        else
          '(_, cipher) ← run_reader (skip_bytes public_domain_length) data;
          d ← get;
          de_term <~ enc_get_term e gcm_hdr;;
          match enc_decrypt e cipher (take (Z.to_nat public_domain_length) data) gcm_hdr (de_version d) hint with
          | None => mret None
          | Some plain =>
              private_reader <~ reader_init plain (Z.of_nat (length plain));;
              mret (Some (de_version d))
          end
    end.

(** A read from [current_reader]. *)
Definition read_current {A} (m : ST RawReader A) : D A :=
  d ← get; if in_private d then zoom private_reader m else zoom public_reader m.

Definition current_eos (d : Deserialiser) : bool :=
  is_eos (if in_private d then private_reader d else public_reader d).

Definition next_map : D (option Name) :=
  d ← get;
  if current_eos d then
    if negb (in_private d) && negb (is_eos (private_reader d)) then
      in_private <~ true;;
      name ← read_current read_prefixed; mret (Some name)
    else mret None
  else name ← read_current read_prefixed; mret (Some name).

Definition at_end (d : Deserialiser) : bool := current_eos d && is_eos (public_reader d).

(** ** Change sets *)

Definition removals (w : list (Key * option Value)) : list Key :=
  omap (fun '(k, o) => match o with None => Some k | Some _ => None end) w.

Definition puts_of (w : list (Key * option Value)) : list (Key * Value) :=
  omap (fun '(k, o) => match o with Some v => Some (k, v) | None => None end) w.

Definition serialise_changes (name : Name) (domain : SecurityDomain) (cs : ChangeSet) (include_reads : bool) :
    ST Serialiser unit :=
  start_map name domain;;
  (if include_reads then
     serialise_internal (append_u64 (cs_read_version cs));;
     serialise_internal (append_u64 (Z.of_nat (size (cs_reads cs))));;
     foreach (ordered (cs_reads cs)) (fun r =>
       serialise_internal (append_vector (fst r));; serialise_internal (append_u64 (u64 (fst (snd r)))))
   else
     serialise_internal (append_u64 NoVersion);;
     serialise_internal (append_u64 0));;
  let writes := ordered (cs_writes cs) in
  serialise_internal (append_u64 (Z.of_nat (length (puts_of writes))));;
  foreach (puts_of writes) (fun w =>
    serialise_internal (append_vector (fst w));; serialise_internal (append_vector (snd w)));;
  serialise_internal (append_u64 (Z.of_nat (length (removals writes))));;
  foreach (removals writes) (fun k => serialise_internal (append_vector k)).

(** A loop [for (size_t i = 0; i < ctr; ++i)] over the current reader, as long as there can be
    an element left: each one takes at least 8 bytes. *)
Fixpoint read_many {A} (fuel : nat) (ctr : Z) (m : ST RawReader A) : D (list A) :=
  if ctr <=? 0 then mret []
  else
    match fuel with
    | O => throw OutOfFuel
    | S fuel =>
        x ← read_current m;
        rest ← read_many fuel (ctr - 1) m;
        mret (x :: rest)
    end.

Definition remaining_fuel (d : Deserialiser) : nat :=
  S (length (rr_mem (if in_private d then private_reader d else public_reader d))).

(** [deserialise_internal], on a change set created at the version of the transaction. *)
Definition deserialise_changes (cs : option ChangeSet) : D ChangeSet :=
  match cs with
  | None => throw (LogicError "Can't create change set")
  | Some cs =>
      d ← get;
      let fuel := remaining_fuel d in
      rv ← read_current (read_entry 8);
      let cs := if rv =? NoVersion then cs else cs <| cs_read_version := rv |> in
      ctr ← read_current (read_entry 8);
      reads ← read_many fuel ctr (k ← read_prefixed; v ← read_entry 8; mret (k, v));
      let cs := cs <| cs_reads := foldl (fun m r => <[fst r := (i64 (snd r), NoVersion)]> m) (cs_reads cs) reads |> in
      ctr ← read_current (read_entry 8);
      writes ← read_many fuel ctr (k ← read_prefixed; v ← read_prefixed; mret (k, v));
      let cs := cs <| cs_writes := foldl (fun m w => <[fst w := Some (snd w)]> m) (cs_writes cs) writes |> in
      ctr ← read_current (read_entry 8);
      removes ← read_many fuel ctr read_prefixed;
      mret (cs <| cs_writes := foldl (fun m k => <[k := None]> m) (cs_writes cs) removes |>)
  end.
End serialiser.
