(* ===== verification/KvStore.v ===== *)
(** The key-value store: src/kv/store.h and src/kv/apply_changes.h.

    Maps are shared objects: the store, and every transaction that has
    opened one, hold pointers to it.  The [heap] of the model holds the objects, and a
    [Loc] is a pointer.  A mutex is a flag; to lock a mutex that is held, or to unlock one
    that is not, is undefined behaviour.  The
    functions run one at a time, as the locks of the source ensure.

    A pending transaction is an object of an abstract class: [P] is the type of
    these objects and [call] their method.  The consensus, the history, the encryptor
    and the snapshotter that the store informs appear in [Services]; the calls made to them,
    and those of the global hooks, are recorded in [calls]. *)

From S2P Require Import Prelude Serialized RaftTypes KvMap KvHandle KvSerialise.

Abbreviation Loc := nat.

Inductive ReplicateType := ALL | NONE | SOME.

Inductive CommitResult := SUCCESS | FAIL_CONFLICT | FAIL_NO_REPLICATE.

(** A map with its name, its domain, whether it is replicated, and its mutex. *)
Record MapObject := MkMapObject {
  mo_name : Name;
  mo_domain : SecurityDomain;
  mo_replicated : bool;
  mo_map : Map;
  mo_locked : bool
}.
#[export] Instance eta_MapObject : Settable MapObject := fun r =>
  MkMapObject (mo_name r) (mo_domain r) (mo_replicated r) (mo_map r) (mo_locked r).

(** What a pending transaction gives to the store when its turn comes. *)
Record PendingTxInfo := MkPendingTxInfo {
  pt_success : CommitResult;
  pt_data : bytes;
  pt_claims_digest : bytes;
  pt_commit_evidence_digest : bytes;
  pt_hooks : list Hook
}.

(** Calls to the objects around the store. *)
Inductive Call :=
| SnapshotterCommit (v : Z) (generate_snapshot : bool)
| SnapshotterRollback (v : Z)
| HistoryCompact (v : Z)
| HistoryRollback (tx_id : TxID) (term_of_next_version : Z)
| HistorySetTerm (t : Z)
| HistoryInitFromSnapshot (hash_at_snapshot : bytes)
| HistoryAppendEntry (data commit_evidence_digest claims_digest : bytes)
| EncryptorRollback (v : Z)
| GlobalHookCalled (name : Name) (v : Z) (writes : Write).

(** [StoreState], and the other fields of [Store] that have a value. *)
Record Store (P : Type) := MkStore {
  heap : list MapObject;
  maps : gmap Name (Z * Loc);
  store_version : Z;
  last_new_map : Z;
  store_compacted : Z;
  term_of_next_version : Z;
  term_of_last_version : Z;
  last_replicated : Z;
  last_committable : Z;
  rollback_count : Z;
  pending_txs : gmap Z (P * bool);
  global_hooks : gset Name;
  map_hooks : gset Name;
  replicate_type : ReplicateType;
  replicated_tables : gset Name;
  flags : Z;
  calls : list Call
}.
Arguments MkStore {P}.
Arguments heap {P}.
Arguments maps {P}.
Arguments store_version {P}.
Arguments last_new_map {P}.
Arguments store_compacted {P}.
Arguments term_of_next_version {P}.
Arguments term_of_last_version {P}.
Arguments last_replicated {P}.
Arguments last_committable {P}.
Arguments rollback_count {P}.
Arguments pending_txs {P}.
Arguments global_hooks {P}.
Arguments map_hooks {P}.
Arguments replicate_type {P}.
Arguments replicated_tables {P}.
Arguments flags {P}.
Arguments calls {P}.
#[export] Instance eta_Store (P : Type) : Settable (Store P) := fun r =>
  MkStore (heap r) (maps r) (store_version r) (last_new_map r) (store_compacted r)
    (term_of_next_version r) (term_of_last_version r) (last_replicated r) (last_committable r)
    (rollback_count r) (pending_txs r) (global_hooks r) (map_hooks r) (replicate_type r)
    (replicated_tables r) (flags r) (calls r).

Definition new_store {P : Type} (rt : ReplicateType) (tables : gset Name) : Store P :=
  MkStore [] ∅ 0 NoVersion 0 0 0 0 0 0 ∅ ∅ ∅ rt tables 0 [].

(** A change set as [apply_changes] gets it: of a transaction, or of a snapshot. *)
Inductive AnyChangeSet :=
| Changes (cs : ChangeSet)
| SnapshotChanges (state : KvState) (version : Z).

Definition any_has_writes (c : AnyChangeSet) : bool :=
  match c with Changes cs => has_writes cs | SnapshotChanges _ _ => true end.

(** [MapChanges]: a pointer to the map, and the changes to make. *)
Abbreviation MapChanges := (Loc * AnyChangeSet)%type.

Section store.
Context {P : Type}.
Local Abbreviation M := (ST (Store P)).

Definition record_call (c : Call) : M unit := modify (fun s => s <| calls := calls s ++ [c] |>).

(** ** Map objects *)

Definition map_at (l : Loc) : M MapObject :=
  s ← get; match heap s !! l with Some o => mret o | None => throw UndefinedBehaviour end.

Definition put_map (l : Loc) (o : MapObject) : M unit :=
  modify (fun s => s <| heap := <[l := o]> (heap s) |>).

(** A member function of the map at [l]. *)
Definition on_map {A} (l : Loc) (m : ST Map A) : M A :=
  o ← map_at l;
  let '(m', r) := m (mo_map o) in
  put_map l (o <| mo_map := m' |>);;
  match r with Ret a => mret a | Throw e => throw e end.

Definition lock_map (l : Loc) : M unit :=
  o ← map_at l;
  if mo_locked o then throw UndefinedBehaviour else put_map l (o <| mo_locked := true |>).

Definition unlock_map (l : Loc) : M unit :=
  o ← map_at l;
  if mo_locked o then put_map l (o <| mo_locked := false |>) else throw UndefinedBehaviour.

Definition is_map_replicated (s : Store P) (name : Name) : bool :=
  match replicate_type s with
  | ALL => true
  | NONE => false
  | SOME => bool_decide (name ∈ replicated_tables s)
  end.

(** [std::make_shared<kv::untyped::Map>(this, name, get_security_domain(name), ...)]. *)
Definition make_map (name : Name) : M Loc :=
  s ← get;
  heap <~ heap s ++ [MkMapObject name (get_security_domain name) (is_map_replicated s name) new_map false];;
  mret (length (heap s)).

Definition get_map (s : Store P) (v : Z) (map_name : Name) : option Loc :=
  match maps s !! map_name with
  | Some (map_creation_version, map_ptr) =>
      if (map_creation_version <=? v) || (map_creation_version =? NoVersion) then Some map_ptr else None
  | None => None
  end.

Definition add_dynamic_map (v : Z) (map : Loc) : M unit :=
  o ← map_at map;
  let map_name := mo_name o in
  s ← get;
  match get_map s v map_name with
  | Some _ => throw (LogicError "Can't add dynamic map - already have a map")
  | None =>
      maps <~ <[map_name := (v, map)]> (maps s);;
      (if bool_decide (map_name ∈ global_hooks s) then on_map map (global_hook <~ true) else skip);;
      (if bool_decide (map_name ∈ map_hooks s) then on_map map (hook <~ true) else skip)
  end.

(** ** [apply_changes] *)

(** What the hook of a map does, when it is called: it returns a consensus hook or none, or it throws. *)
Context (call_map_hook : Name -> Z -> Write -> outcome (option Hook)).

(** [AbstractCommitter::prepare]: snapshots never conflict. *)
Definition committer_prepare (mc : MapChanges) (track : bool) : M bool :=
  o ← map_at (fst mc);
  mret (match snd mc with Changes cs => prepare (mo_map o) cs track | SnapshotChanges _ _ => true end).

Fixpoint all_prepared (views : list (Name * MapChanges)) (track : bool) : M bool :=
  match views with
  | [] => mret true
  | (_, mc) :: views =>
      ok ← committer_prepare mc track;
      if (ok : bool) then all_prepared views track else mret false
  end.

(** [AbstractCommitter::commit]; returns the version the committer remembers. *)
Definition committer_commit (mc : MapChanges) (v : Z) (track : bool) : M Z :=
  match snd mc with
  | Changes cs => on_map (fst mc) (commit cs v track)
  | SnapshotChanges st version => on_map (fst mc) (commit_snapshot st version);; mret version
  end.

Fixpoint commit_views (views : list (Name * MapChanges)) (v : Z) (track : bool) : M (list (MapChanges * Z)) :=
  match views with
  | [] => mret []
  | (_, mc) :: views =>
      commit_version ← committer_commit mc v track;
      rest ← commit_views views v track;
      mret ((mc, commit_version) :: rest)
  end.

(** [AbstractCommitter::post_commit]. *)
Definition committer_post_commit (mc : MapChanges) (commit_version : Z) : M (option Hook) :=
  o ← map_at (fst mc);
  let writes :=
    match snd mc with
    | Changes cs => cs_writes cs
    | SnapshotChanges _ _ => from_option lc_writes ∅ (head (commits (mo_map o)))
    end in
  match trigger_map_hook (mo_map o) commit_version writes with
  | Some (v, w) => of_outcome (call_map_hook (mo_name o) v w)
  | None => mret None
  end.

Fixpoint post_commit_views (views : list (MapChanges * Z)) : M (list Hook) :=
  match views with
  | [] => mret []
  | (mc, commit_version) :: views =>
      h ← committer_post_commit mc commit_version;
      hooks ← post_commit_views views;
      mret (match h with Some h => h :: hooks | None => hooks end)
  end.

(** Returns the version, if the changes were applied, and the hooks. *)
Definition apply_changes (changes : gmap Name MapChanges) (version_resolver_fn : bool -> M (Z * Z))
    (new_maps : gmap Name Loc) (new_maps_conflict_version : option Z) (track_read_versions : bool) :
    M (option Z * list Hook) :=
  let views := ordered changes in
  let has_writes := existsb (fun view => any_has_writes (snd (snd view))) views in
  let needs_lock (mc : MapChanges) := any_has_writes (snd mc) || track_read_versions in
  foreach views (fun view => if needs_lock (snd view) then lock_map (fst (snd view)) else skip);;
  prepared ← all_prepared views track_read_versions;
  s ← get;
  let current_v := from_option id (store_version s) new_maps_conflict_version in
  let ok := prepared && forallb (fun new => bool_decide (get_map s current_v (fst new) = None)) (ordered new_maps) in
  '(ok, version, hooks) ←
    (if ok && has_writes then
       '(version, _) ← version_resolver_fn (negb (is_empty new_maps));
       if track_read_versions then mret (false, version, [])
       else
         foreach (ordered new_maps) (fun new =>
           match changes !! fst new with
           | Some mc => if any_has_writes (snd mc) then add_dynamic_map version (snd new) else skip
           | None => skip
           end);;
         committed ← commit_views views version track_read_versions;
         hooks ← post_commit_views committed;
         mret (true, version, hooks)
     else mret (ok, NoVersion, []));
  foreach views (fun view => if needs_lock (snd view) then unlock_map (fst (snd view)) else skip);;
  mret (if (ok : bool) then Some version else None, hooks).

(** ** Versions *)

(** A version that is too large for a [DeletableVersion] becomes 0. *)
Definition next_version_unsafe : M Z :=
  s ← get;
  let version := u64 (store_version s + 1) in
  let version := if 2 ^ 63 - 1 <? version then 0 else version in
  store_version <~ version;;
  term_of_last_version <~ term_of_next_version s;;
  mret version.

Definition next_version (commit_new_map : bool) : M (Z * Z) :=
  v ← next_version_unsafe;
  s ← get;
  let previous_last_new_map := last_new_map s in
  (if commit_new_map then last_new_map <~ v else skip);;
  mret (v, previous_last_new_map).

Definition next_txid : M TxID :=
  next_version_unsafe;;
  s ← get; mret (MkTxID (term_of_next_version s) (store_version s)).

Definition current_txid (s : Store P) : TxID := MkTxID (term_of_last_version s) (store_version s).

Definition committable_gap (s : Store P) : Z := u64 (store_version s - last_committable s).

Definition commit_deserialised (changes : gmap Name MapChanges) (v term : Z) (new_maps : gmap Name Loc) :
    M (bool * list Hook) :=
  '(c, hooks) ← apply_changes changes (fun _ => mret (v, u64 (v - 1))) new_maps None false;
  match c with
  | None => mret (false, hooks)
  | Some _ =>
      store_version <~ v;;
      last_replicated <~ v;;
      term_of_last_version <~ term;;
      mret (true, hooks)
  end.

(** ** Flags *)

Definition LEDGER_CHUNK_AT_NEXT_SIGNATURE : Z := 1.
Definition SNAPSHOT_AT_NEXT_SIGNATURE : Z := 2.

Definition set_flag (f : Z) : M unit := modify (fun s => s <| flags := Z.lor (flags s) f |>).
Definition unset_flag (f : Z) : M unit := modify (fun s => s <| flags := Z.ldiff (flags s) f |>).
Definition flag_enabled (s : Store P) (f : Z) : bool := negb (Z.land (flags s) f =? 0).

(** ** The objects around the store *)

Record Consensus := MkConsensus {
  con_is_primary : bool;
  (** [type() == BFT && is_backup()], before and after [replicate] *)
  con_bft_backup : bool;
  con_bft_backup_after : bool;
  (** may call back into the store *)
  con_replicate : list BatchEntry -> Z -> M bool
}.

Record Services := MkServices {
  consensus : option Consensus;
  has_history : bool;
  has_encryptor : bool;
  has_snapshotter : bool;
  (** [snapshotter->record_committable] *)
  record_committable : Z -> bool
}.

Section services.
Context (services : Services).

Definition must_force_ledger_chunk (version : Z) : M bool :=
  s ← get;
  let r := flag_enabled s LEDGER_CHUNK_AT_NEXT_SIGNATURE || flag_enabled s SNAPSHOT_AT_NEXT_SIGNATURE in
  mret (if has_snapshotter services then r || record_committable services version else r).

(** ** Compaction and rollback *)

(** The pointers of the store, in the order of the names. *)
Definition map_locs (s : Store P) : list Loc := (fun e : Name * (Z * Loc) => snd (snd e)) <$> ordered (maps s).

Definition post_compact_map (l : Loc) : M unit :=
  o ← map_at l;
  deltas ← on_map l post_compact;
  foreach deltas (fun d => record_call (GlobalHookCalled (mo_name o) (fst d) (snd d))).

Definition store_compact (v : Z) : M unit :=
  (if has_snapshotter services then
     record_call (SnapshotterCommit v (from_option con_is_primary false (consensus services)))
   else skip);;
  s ← get;
  if store_version s <? v then skip
  else
    foreach (map_locs s) lock_map;;
    foreach (map_locs s) (fun l => on_map l (compact v));;
    foreach (map_locs s) unlock_map;;
    store_compacted <~ v;;
    (if has_history services then record_call (HistoryCompact v) else skip);;
    foreach (map_locs s) post_compact_map.

(** One turn of the loop that rolls the maps back. *)
Definition rollback_map (v : Z) (e : Name * (Z * Loc)) : M unit :=
  let '(name, (map_creation_version, map)) := e in
  on_map map (rollback v);;
  if v <? map_creation_version then
    unlock_map map;;
    modify (fun s => s <| maps := delete name (maps s) |>)
  else skip.

Definition store_rollback (tx_id : TxID) (term_of_next_version_ : Z) : M unit :=
  (if has_snapshotter services then record_call (SnapshotterRollback (tx_version tx_id)) else skip);;
  s ← get;
  if tx_version tx_id <? store_compacted s
  then throw (LogicError "Attempting rollback to a version earlier than commit version")
  else
    term_of_next_version <~ term_of_next_version_;;
    term_of_last_version <~ tx_term tx_id;;
    (if has_history services then record_call (HistoryRollback tx_id term_of_next_version_) else skip);;
    if store_version s <=? tx_version tx_id then skip
    else
      store_version <~ tx_version tx_id;;
      last_replicated <~ tx_version tx_id;;
      unset_flag LEDGER_CHUNK_AT_NEXT_SIGNATURE;;
      unset_flag SNAPSHOT_AT_NEXT_SIGNATURE;;
      modify (fun s => s <| rollback_count := u64 (rollback_count s + 1) |>);;
      pending_txs <~ ∅;;
      (if has_encryptor services then record_call (EncryptorRollback (tx_version tx_id)) else skip);;
      s ← get;
      foreach (map_locs s) lock_map;;
      foreach (ordered (maps s)) (rollback_map (tx_version tx_id));;
      s ← get;
      foreach (map_locs s) unlock_map.

Definition initialise_term (t : Z) : M unit :=
  s ← get;
  if negb (term_of_next_version s =? 0)
  then throw (LogicError "term_of_next_version is already initialised")
  else
    term_of_next_version <~ t;;
    if has_history services then record_call (HistorySetTerm t) else skip.

(** ** Handing transactions to the consensus *)

Context (call : P -> M PendingTxInfo).

(** The loop that collects the batch, from [last_replicated + offset] on; every turn erases a
    pending transaction. *)
Fixpoint batch_loop (fuel : nat) (offset : Z) : M (list BatchEntry) :=
  match fuel with
  | O => throw OutOfFuel
  | S fuel =>
      s ← get;
      let index := u64 (last_replicated s + offset) in
      match pending_txs s !! index with
      | None => mret []
      | Some (pending_tx, committable) =>
          info ← call pending_tx;
          (if has_history services then
             record_call (HistoryAppendEntry (pt_data info) (pt_commit_evidence_digest info) (pt_claims_digest info))
           else skip);;
          modify (fun s => s <| pending_txs := delete index (pending_txs s) |>);;
          rest ← batch_loop fuel (u64 (offset + 1));
          mret (MkBatchEntry index (pt_data info) committable (pt_hooks info) :: rest)
      end
  end.

Definition store_commit (txid : TxID) (pending_tx : P) (globally_committable : bool) : M CommitResult :=
  match consensus services with
  | None => mret SUCCESS
  | Some c =>
      s ← get;
      if negb (tx_term txid =? term_of_next_version s) && con_is_primary c then mret FAIL_NO_REPLICATE
      else
        (if globally_committable && (last_committable s <? tx_version txid)
         then last_committable <~ tx_version txid else skip);;
        pending_txs <~ (match pending_txs s !! tx_version txid with
                        | Some _ => pending_txs s
                        | None => <[tx_version txid := (pending_tx, globally_committable)]> (pending_txs s)
                        end);;
        s ← get;
        batch ← batch_loop (S (size (pending_txs s))) 1;
        s ← get;
        if (length batch =? 0)%nat then mret SUCCESS
        else
          let previous_rollback_count := rollback_count s in
          let previous_last_replicated := last_replicated s in
          let next_last_replicated := u64 (last_replicated s + Z.of_nat (length batch)) in
          (if con_bft_backup c then last_replicated <~ next_last_replicated else skip);;
          replicated ← con_replicate c batch (term_of_next_version s);
          if (replicated : bool) then
            s ← get;
            (if (last_replicated s =? previous_last_replicated) &&
                (previous_rollback_count =? rollback_count s) && negb (con_bft_backup_after c)
             then last_replicated <~ next_last_replicated else skip);;
            mret SUCCESS
          else mret FAIL_NO_REPLICATE
  end.
End services.

(** ** Hooks *)

Definition set_map_hook (map_name : Name) : M unit :=
  s ← get;
  map_hooks <~ {[ map_name ]} ∪ map_hooks s;;
  match maps s !! map_name with Some (_, l) => on_map l (hook <~ true) | None => skip end.

Definition unset_map_hook (map_name : Name) : M unit :=
  s ← get;
  map_hooks <~ map_hooks s ∖ {[ map_name ]};;
  match maps s !! map_name with Some (_, l) => on_map l (hook <~ false) | None => skip end.

Definition set_global_hook (map_name : Name) : M unit :=
  s ← get;
  global_hooks <~ {[ map_name ]} ∪ global_hooks s;;
  match maps s !! map_name with Some (_, l) => on_map l (global_hook <~ true) | None => skip end.

Definition unset_global_hook (map_name : Name) : M unit :=
  s ← get;
  global_hooks <~ global_hooks s ∖ {[ map_name ]};;
  match maps s !! map_name with Some (_, l) => on_map l (global_hook <~ false) | None => skip end.

(** ** Comparison *)

Definition eqb_store (s1 s2 : Store P) : bool :=
  (store_version s1 =? store_version s2) &&
  (size (maps s1) =? size (maps s2))%nat &&
  forallb (fun '(name, (v1, l1)) =>
    match maps s2 !! name with
    | None => false
    | Some (v2, l2) =>
        (v1 =? v2) &&
        match heap s1 !! l1, heap s2 !! l2 with
        | Some o1, Some o2 => bool_decide (mo_name o1 = mo_name o2) && eqb_map (mo_map o1) (mo_map o2)
        | _, _ => false
        end
    end) (ordered (maps s1)).

(** [StoreState::clear]. *)
Definition store_clear : M unit :=
  modify (fun s => s <| maps := ∅ |> <| pending_txs := ∅ |> <| store_version := 0 |>
    <| last_new_map := NoVersion |> <| store_compacted := 0 |> <| term_of_next_version := 0 |>
    <| term_of_last_version := 0 |> <| last_replicated := 0 |> <| last_committable := 0 |>
    <| rollback_count := 0 |>).
End store.

(** ** Recovery of private state *)

Record TwoStores (P : Type) := MkTwoStores { this_store : Store P; source_store : Store P }.
Arguments MkTwoStores {P}.
Arguments this_store {P}.
Arguments source_store {P}.
#[export] Instance eta_TwoStores (P : Type) : Settable (TwoStores P) := fun r => MkTwoStores (this_store r) (source_store r).

Section swap.
Context {P : Type}.
Local Abbreviation W := (ST (TwoStores P)).

(** The private maps of the source, which are locked. *)
Fixpoint lock_private_maps (es : list (Name * (Z * Loc))) : W (list (Name * Loc)) :=
  match es with
  | [] => mret []
  | (name, (_, map)) :: es =>
      o ← zoom source_store (map_at map);
      if bool_decide (mo_domain o = PRIVATE) then
        zoom source_store (lock_map map);;
        rest ← lock_private_maps es;
        mret ((name, map) :: rest)
      else lock_private_maps es
  end.

(** The map of this store that takes the state, which is made if it does not exist. *)
Definition find_or_make_private (name : Name) : ST (Store P) Loc :=
  s ← get;
  match maps s !! name with
  | None =>
      let map := length (heap s) in
      heap <~ heap s ++ [MkMapObject name PRIVATE (is_map_replicated s name) new_map false];;
      maps <~ <[name := (NoVersion, map)]> (maps s);;
      mret map
  | Some (_, map) =>
      o ← map_at map;
      if bool_decide (mo_domain o = PRIVATE) then mret map
      else throw (LogicError "Swap mismatch - map is private in source but not in target")
  end.

Fixpoint lock_own_maps (entries : list (Name * Loc)) : W (list (Loc * Loc)) :=
  match entries with
  | [] => mret []
  | (name, their_map) :: entries =>
      map ← zoom this_store (find_or_make_private name);
      zoom this_store (lock_map map);;
      rest ← lock_own_maps entries;
      mret ((map, their_map) :: rest)
  end.

Definition swap_maps (e : Loc * Loc) : W unit :=
  lhs ← zoom this_store (map_at (fst e));
  rhs ← zoom source_store (map_at (snd e));
  let '(m1, m2) := swap (mo_map lhs) (mo_map rhs) in
  zoom this_store (put_map (fst e) (lhs <| mo_map := m1 |>));;
  zoom source_store (put_map (snd e) (rhs <| mo_map := m2 |>)).

Definition swap_private_maps : W unit :=
  w ← get;
  if store_version (this_store w) <? store_version (source_store w)
  then throw (LogicError "Invalid call to swap_private_maps")
  else
    theirs ← lock_private_maps (ordered (maps (source_store w)));
    entries ← lock_own_maps theirs;
    foreach entries swap_maps;;
    foreach entries (fun e => zoom this_store (unlock_map (fst e));; zoom source_store (unlock_map (snd e))).
End swap.
