(* ===== verification/KvTx.v ===== *)
(** Transactions over the store: src/kv/tx.cpp, [get_handle_by_name] of
    include/ccf/tx.h, src/kv/committable_tx.h, and the application of a serialised
    transaction, src/kv/deserialise.h with [fill_maps] of src/kv/store.h.

    A transaction is an object beside the store ([World]).  The handles a
    transaction keeps refer to its change sets and have no state of their own. *)

From S2P Require Import Prelude Serialized RaftTypes KvMap KvHandle KvSerialise KvStore.

Record Tx := MkTx {
  all_changes : gmap Name (Loc * ChangeSet);
  read_txid : option TxID;
  commit_view : Z;
  created_maps : gmap Name Loc;
  committed : bool;
  success : bool;
  tx_commit_version : Z;
  tx_flags : Z;
  entry_flags : Z
}.
#[export] Instance eta_Tx : Settable Tx := fun r =>
  MkTx (all_changes r) (read_txid r) (commit_view r) (created_maps r) (committed r) (success r)
    (tx_commit_version r) (tx_flags r) (entry_flags r).

Definition VIEW_UNKNOWN : Z := 0.

Definition create_tx : Tx := MkTx ∅ None VIEW_UNKNOWN ∅ false false NoVersion 0 0.

(** A transaction and the store it runs on. *)
Record World (P : Type) := MkWorld { w_store : Store P; w_tx : Tx }.
Arguments MkWorld {P}.
Arguments w_store {P}.
Arguments w_tx {P}.
#[export] Instance eta_World (P : Type) : Settable (World P) := fun r => MkWorld (w_store r) (w_tx r).

(** [EntryFlags] and [CommittableTx::Flag]. *)
Definition FORCE_LEDGER_CHUNK_AFTER : Z := 1.
Definition FORCE_LEDGER_CHUNK_BEFORE : Z := 2.
Definition TX_LEDGER_CHUNK_AT_NEXT_SIGNATURE : Z := 1.
Definition TX_SNAPSHOT_AT_NEXT_SIGNATURE : Z := 2.
Definition LEDGER_CHUNK_BEFORE_THIS_TX : Z := 4.

(** The names of the tables that [apply] looks for. *)
Definition SIGNATURES : Name := name_of "public:ccf.internal.signatures".
Definition SERIALISED_MERKLE_TREE : Name := name_of "public:ccf.internal.tree".
Definition SNAPSHOT_EVIDENCE : Name := name_of "public:ccf.internal.snapshot_evidence".
Definition ENCRYPTED_PAST_LEDGER_SECRET : Name := name_of "public:ccf.internal.historical_encrypted_ledger_secret".

Section tx.
Context {P : Type}.
Local Abbreviation M := (ST (Store P)).
Local Abbreviation T := (ST (World P)).

(** ** Reading *)

Definition get_map_and_change_set_by_name (map_name : Name) : T (Loc * option ChangeSet) :=
  w ← get;
  (match read_txid (w_tx w) with
   | Some _ => skip
   | None =>
       zoom w_tx (read_txid <~ Some (current_txid (w_store w)));;
       zoom w_tx (commit_view <~ term_of_next_version (w_store w))
   end);;
  w ← get;
  let version := from_option tx_version 0 (read_txid (w_tx w)) in
  map ←
    match get_map (w_store w) version map_name with
    | Some map => mret map
    | None =>
        match created_maps (w_tx w) !! map_name with
        | Some _ => throw (LogicError "Created map without creating handle over it")
        | None =>
            new_map ← zoom w_store (make_map map_name);
            zoom w_tx (created_maps <~ <[map_name := new_map]> (created_maps (w_tx w)));;
            mret new_map
        end
    end;
  zoom w_store (lock_map map);;
  o ← zoom w_store (map_at map);
  zoom w_store (unlock_map map);;
  mret (map, create_change_set (mo_map o) version).

(** Makes sure that there is a change set for the map. *)
Definition get_handle_by_name (map_name : Name) : T unit :=
  w ← get;
  match all_changes (w_tx w) !! map_name with
  | Some _ => skip
  | None =>
      '(map, change_set) ← get_map_and_change_set_by_name map_name;
      match change_set with
      | None => throw CompactedVersionConflict
      | Some cs => zoom w_tx (modify (fun t => t <| all_changes := <[map_name := (map, cs)]> (all_changes t) |>))
      end
  end.

(** An operation through the handle of a map. *)
Definition with_handle {A} (map_name : Name) (m : ST ChangeSet A) : T A :=
  get_handle_by_name map_name;;
  w ← get;
  match all_changes (w_tx w) !! map_name with
  | None => throw UndefinedBehaviour
  | Some (map, cs) =>
      let '(cs', r) := m cs in
      zoom w_tx (all_changes <~ <[map_name := (map, cs')]> (all_changes (w_tx w)));;
      match r with Ret a => mret a | Throw e => throw e end
  end.

(** ** Committing *)

Context (call_map_hook : Name -> Z -> Write -> outcome (option Hook)) (services : @Services P) (call : P -> M PendingTxInfo)
  (MovePendingTx : PendingTxInfo -> P).
(** the encryptor, and the digest of the commit evidence it derives *)
Context (encryptor : option Encryptor) (commit_evidence_digest : TxID -> outcome bytes).

Definition tx_flag_enabled (t : Tx) (f : Z) : bool := negb (Z.land (tx_flags t) f =? 0).

Definition tx_changes (t : Tx) : gmap Name MapChanges := (fun mc => (fst mc, Changes (snd mc))) <$> all_changes t.

(** The maps of a domain, one after the other. *)
Fixpoint serialise_maps (domain : SecurityDomain) (changes : list (Name * (Loc * ChangeSet))) (s : Store P) :
    ST Serialiser unit :=
  match changes with
  | [] => skip
  | (_, (map, cs)) :: changes =>
      match heap s !! map with
      | None => throw UndefinedBehaviour
      | Some o =>
          (if bool_decide (mo_domain o = domain) && mo_replicated o && has_writes cs
           then serialise_changes encryptor (mo_name o) (mo_domain o) cs false else skip);;
          serialise_maps domain changes s
      end
  end.

(** The entry, and the digest of the evidence. *)
Definition tx_serialise (claims_digest : option bytes) : T (bytes * bytes) :=
  w ← get;
  let t := w_tx w in
  if negb (committed t) then throw (LogicError "Transaction not yet committed")
  else if negb (success t) then throw (LogicError "Transaction aborted")
  else match claims_digest with
  | None => throw (LogicError "Missing claims")
  | Some claims =>
      let changes := ordered (all_changes t) in
      if negb (existsb (fun c => has_writes (snd (snd c))) changes) then mret ([], [])
      else match encryptor with
      | None => throw KvSerialiserException
      | Some e =>
          let tx_id := MkTxID (commit_view t) (tx_commit_version t) in
          match commit_evidence_digest tx_id with
          | Throw e => throw e
          | Ret evidence =>
              (if tx_flag_enabled t LEDGER_CHUNK_BEFORE_THIS_TX
               then zoom w_tx (entry_flags <~ Z.lor (entry_flags t) FORCE_LEDGER_CHUNK_BEFORE) else skip);;
              w ← get;
              let s := new_serialiser tx_id WriteSetWithCommitEvidenceAndClaims (entry_flags (w_tx w)) evidence claims false in
              match (serialise_maps PUBLIC changes (w_store w);; serialise_maps PRIVATE changes (w_store w)) s with
              | (_, Throw e) => throw e
              | (s, Ret _) =>
                  match get_raw_data encryptor s with Ret data => mret (data, evidence) | Throw e => throw e end
              end
          end
      end
  end.

(** The rest of [commit], once the changes are applied. *)
Definition tx_commit_applied (claims : option bytes) (version : Z) (hooks : list Hook) : T CommitResult :=
  w ← get;
  let t := w_tx w in
  (if tx_flag_enabled t TX_LEDGER_CHUNK_AT_NEXT_SIGNATURE then
     zoom w_store (set_flag LEDGER_CHUNK_AT_NEXT_SIGNATURE);;
     zoom w_tx (modify (fun t => t <| tx_flags := Z.ldiff (tx_flags t) TX_LEDGER_CHUNK_AT_NEXT_SIGNATURE |>))
   else skip);;
  (if tx_flag_enabled t TX_SNAPSHOT_AT_NEXT_SIGNATURE then
     zoom w_store (set_flag SNAPSHOT_AT_NEXT_SIGNATURE);;
     zoom w_tx (modify (fun t => t <| tx_flags := Z.ldiff (tx_flags t) TX_SNAPSHOT_AT_NEXT_SIGNATURE |>))
   else skip);;
  if version =? NoVersion then mret SUCCESS
  else
    catch
      ('(data, evidence) ← tx_serialise claims;
       if (length data =? 0)%nat then mret SUCCESS
       else
         zoom w_store (store_commit services call (MkTxID (commit_view t) version)
           (MovePendingTx (MkPendingTxInfo SUCCESS data (from_option id [] claims) evidence hooks)) false))
      (fun _ => zoom w_tx (committed <~ false);; throw KvSerialiserException).

Definition tx_commit (claims : option bytes) (track_read_versions : bool) (resolver : bool -> M (Z * Z)) : T CommitResult :=
  w ← get;
  let t := w_tx w in
  if committed t then throw (LogicError "Transaction already committed")
  else if is_empty (all_changes t) then
    zoom w_tx (committed <~ true;; success <~ true);;
    mret SUCCESS
  else
    '(c, hooks) ← zoom w_store
      (apply_changes call_map_hook (tx_changes t) resolver (created_maps t) None track_read_versions);
    zoom w_tx (success <~ bool_decide (is_Some c));;
    match c with
    | None => mret FAIL_CONFLICT
    | Some version =>
        zoom w_tx (committed <~ true;; tx_commit_version <~ version);;
        tx_commit_applied claims version hooks
    end.

(** ** Reserved transactions, for signatures *)

Definition create_reserved_tx (s : Store P) (reserved : TxID) : Tx :=
  create_tx <| tx_commit_version := tx_version reserved |> <| commit_view := tx_term reserved |>
    <| read_txid := Some (MkTxID (term_of_last_version s) (u64 (tx_version reserved - 1))) |>.

(** 32 zero bytes. *)
Definition empty_claims : bytes := replicate 32 0.

Definition commit_reserved : T PendingTxInfo :=
  w ← get;
  let t := w_tx w in
  if committed t then throw (LogicError "Transaction already committed")
  else if is_empty (all_changes t) then throw (LogicError "Reserved transaction cannot be empty")
  else
    let version := tx_commit_version t in
    '(c, hooks) ← zoom w_store
      (apply_changes call_map_hook (tx_changes t) (fun _ => mret (version, u64 (version - 1))) (created_maps t)
        (Some version) false);
    zoom w_tx (success <~ bool_decide (is_Some c));;
    match c with
    | None => throw (LogicError "Failed to commit reserved transaction")
    | Some _ =>
        force ← zoom w_store (must_force_ledger_chunk services version);
        (if (force : bool)
         then zoom w_tx (modify (fun t => t <| entry_flags := Z.lor (entry_flags t) FORCE_LEDGER_CHUNK_AFTER |>))
         else skip);;
        zoom w_tx (committed <~ true);;
        '(data, evidence) ← tx_serialise (Some empty_claims);
        zoom w_store (unset_flag LEDGER_CHUNK_AT_NEXT_SIGNATURE);;
        mret (MkPendingTxInfo SUCCESS data empty_claims evidence hooks)
    end.

(** ** Applying a serialised transaction *)

Record Filled := MkFilled {
  fi_version : Z;
  fi_view : Z;
  fi_changes : gmap Name MapChanges;
  fi_new_maps : gmap Name Loc;
  fi_claims_digest : option bytes;
  fi_commit_evidence_digest : option bytes
}.

(** A step of the deserialiser. *)
Definition run_de {A} (m : ST Deserialiser A) (d : Deserialiser) : M (A * Deserialiser) :=
  match m d with (d', Ret a) => mret (a, d') | (_, Throw e) => throw e end.

(** The change set at [v] that [deserialise_internal] starts from. *)
Definition change_set_at (map : Loc) (v : Z) : M (option ChangeSet) :=
  lock_map map;;
  o ← map_at map;
  unlock_map map;;
  mret (create_change_set (mo_map o) v).

(** The loop over the maps; nothing when a map appears twice. Every map takes bytes of the entry. *)
Fixpoint fill_loop (fuel : nat) (v : Z) (d : Deserialiser) (changes : gmap Name MapChanges)
    (new_maps : gmap Name Loc) : M (option (gmap Name MapChanges * gmap Name Loc * Deserialiser)) :=
  match fuel with
  | O => throw OutOfFuel
  | S fuel =>
      '(r, d) ← run_de next_map d;
      match r with
      | None => mret (Some (changes, new_maps, d))
      | Some map_name =>
          s ← get;
          '(map, new_maps) ←
            match get_map s v map_name with
            | Some map => mret (map, new_maps)
            | None => map ← make_map map_name; mret (map, <[map_name := map]> new_maps)
            end;
          match changes !! map_name with
          | Some _ => mret None
          | None =>
              cs ← change_set_at map v;
              '(cs, d) ← run_de (deserialise_changes cs) d;
              fill_loop fuel v d (<[map_name := (map, Changes cs)]> changes) new_maps
          end
      end
  end.

(** Nothing is [false]; [view] is what the caller passed for it. *)
Definition fill_maps (strict_versions is_historical : bool) (data : bytes) (public_only : bool) (view : Z)
    (ignore_strict_versions : bool) : M (option Filled) :=
  '(v, d) ← run_de (init encryptor (if public_only then Some PUBLIC else None) is_historical data) (new_deserialiser view);
  match v with
  | None => mret None
  | Some v =>
      s ← get;
      store_rollback services (MkTxID (term_of_last_version s) (u64 (v - 1))) (term_of_next_version s);;
      s ← get;
      if strict_versions && negb ignore_strict_versions && negb (store_version s =? u64 (v - 1)) then mret None
      else
        filled ← fill_loop (S (length (rr_mem (public_reader d)) + length (rr_mem (private_reader d)))) v d ∅ ∅;
        match filled with
        | None => mret None
        | Some (changes, new_maps, d) =>
            if at_end d then
              mret (Some (MkFilled v (de_term d) changes new_maps (de_claims_digest d) (de_commit_evidence_digest d)))
            else mret None
        end
  end.

(** [history->verify], which also sets the term to that of the signature. *)
Context (history_verify : Store P -> Z -> bool * Z).


(** [CFTExecutionWrapper::apply], with what the wrapper then reports. *)
Definition execution_apply (strict_versions is_historical : bool) (data : bytes) (public_only : bool)
    (expected_txid : option TxID) (term : Z) : M Executed :=
  let report r hooks term index := MkExecuted r hooks data term index in
  filled ← fill_maps strict_versions is_historical data public_only term true;
  match filled with
  | None => mret (report APPLY_FAIL [] term 0)
  | Some f =>
      if from_option (fun id => negb (fi_view f =? tx_term id) || negb (fi_version f =? tx_version id)) false expected_txid
      then mret (report APPLY_FAIL [] (fi_view f) (fi_version f))
      else
        '(applied, hooks) ← commit_deserialised call_map_hook (fi_changes f) (fi_version f) (fi_view f) (fi_new_maps f);
        if negb (applied : bool) then mret (report APPLY_FAIL hooks (fi_view f) (fi_version f))
        else
          let has name := bool_decide (is_Some (fi_changes f !! name)) in
          if has SIGNATURES && ((2 <? size (fi_changes f))%nat || negb (has SERIALISED_MERKLE_TREE))
          then mret (report APPLY_FAIL hooks (fi_view f) (fi_version f))
          else
            s ← get;
            let '(verified, term) :=
              if has SIGNATURES && has_history services then history_verify s (fi_view f) else (true, fi_view f) in
            if negb verified then mret (report APPLY_FAIL hooks term (fi_version f))
            else
              let result := if has SIGNATURES then PASS_SIGNATURE else PASS in
              let result := if has SNAPSHOT_EVIDENCE then PASS_SNAPSHOT_EVIDENCE else result in
              let result := if has ENCRYPTED_PAST_LEDGER_SECRET then PASS_ENCRYPTED_PAST_LEDGER_SECRET else result in
              (if has_history services then
                 record_call (HistoryAppendEntry data (from_option id [] (fi_commit_evidence_digest f))
                   (from_option id [] (fi_claims_digest f)))
               else skip);;
              mret (report result hooks term (fi_version f))
  end.
End tx.
