(* ===== verification/LedgerSecrets.v ===== *)
(** Ledger secrets and the encryption of entries: src/node/ledger_secret.h, src/node/ledger_secrets.h, src/kv/encryptor.h and
    src/node/encryptor.h.

    The secrets are an ordered map from versions, a list of pairs with ascending keys; an iterator of the map is a key of it.
    [commit_secret] caches a function of the key and is not kept.  The functions that take a transaction read the table of
    encrypted secrets in it, so that they run on the world of [KvTx] as well. *)

From S2P Require Import Prelude Serialized SymmetricKey RaftTypes KvMap KvHandle KvSerialise KvStore KvTx.

Class Hmac := hmac_sha256 : bytes -> bytes -> bytes.

Record LedgerSecret := MkLedgerSecret {
  raw_key : bytes;
  key : bytes;
  previous_secret_stored_version : option Z
}.
#[export] Instance eta_LedgerSecret : Settable LedgerSecret := fun r => MkLedgerSecret (raw_key r) (key r) (previous_secret_stored_version r).
#[export] Instance LedgerSecret_eq_dec : EqDecision LedgerSecret.
Proof. solve_decision. Defined.

Definition new_LedgerSecret (raw : bytes) (previous : option Z) : outcome LedgerSecret :=
  match make_key_aes_gcm raw with Ret key => Ret (MkLedgerSecret raw key previous) | Throw e => Throw e end.

(** The size that is taken is that of the pointer to the label. *)
Definition commit_secret_label : bytes := take 8 (name_of "Commit Secret Label").

Definition get_commit_secret `{Hmac} (s : LedgerSecret) : bytes := hmac_sha256 (raw_key s) commit_secret_label.

Definition decrypt_previous_ledger_secret_raw `{Aead} (ledger_secret : LedgerSecret) (encrypted_previous_secret_raw : bytes) : outcome bytes :=
  match gc_deserialise encrypted_previous_secret_raw with
  | (_, Throw e) => Throw e
  | (_, Ret c) =>
      match aes_gcm_decrypt (key ledger_secret) (iv (gc_hdr c)) (tag (gc_hdr c)) (gc_cipher c) [] with
      | Some raw => Ret raw
      | None => Throw (LogicError "Decryption of previous ledger secret failed")
      end
  end.

(** ** [LedgerSecrets] *)

Definition VersionedLedgerSecret : Type := Z * LedgerSecret.
Abbreviation LedgerSecretsMap := (list (Z * LedgerSecret)).

(** [std::map::emplace], which leaves a key that is present. *)
Fixpoint emplace (k : Z) (v : LedgerSecret) (m : LedgerSecretsMap) : LedgerSecretsMap :=
  match m with
  | [] => [(k, v)]
  | (k', v') :: m' => if k <? k' then (k, v) :: m else if k =? k' then m else (k', v') :: emplace k v m'
  end.

(** [find]. *)
Definition find_secret (k : Z) (m : LedgerSecretsMap) : option VersionedLedgerSecret := List.find (fun e => e.1 =? k) m.

(** The entries up to [v]: those in front of [std::upper_bound]. *)
Fixpoint up_to_version (v : Z) (m : LedgerSecretsMap) : LedgerSecretsMap :=
  match m with
  | [] => []
  | e :: m => if v <? e.1 then [] else e :: up_to_version v m
  end.

Record LedgerSecrets := MkLedgerSecrets {
  ledger_secrets : LedgerSecretsMap;
  initial_latest_ledger_secret_version : Z;
  last_used_secret_it : option Z
}.
#[export] Instance eta_LedgerSecrets : Settable LedgerSecrets := fun r =>
  MkLedgerSecrets (ledger_secrets r) (initial_latest_ledger_secret_version r) (last_used_secret_it r).

Definition new_LedgerSecrets : LedgerSecrets := MkLedgerSecrets [] 0 None.

Definition LS : Type -> Type := ST LedgerSecrets.

(** The entry behind an iterator. *)
Definition next_secret (k : Z) (m : LedgerSecretsMap) : option VersionedLedgerSecret := List.find (fun e => k <? e.1) m.

Definition get_secret_for_version (version : Z) (historical_hint : bool) : LS (option LedgerSecret) :=
  s ← get;
  match ledger_secrets s with
  | [] => mret None
  | _ =>
      match last_used_secret_it s with
      | Some it =>
          if negb historical_hint then
            match next_secret it (ledger_secrets s) with
            | Some (k, secret) =>
                if k <=? version then last_used_secret_it <~ Some k;; mret (Some secret)
                else match find_secret it (ledger_secrets s) with Some e => mret (Some e.2) | None => throw UndefinedBehaviour end
            | None => match find_secret it (ledger_secrets s) with Some e => mret (Some e.2) | None => throw UndefinedBehaviour end
            end
          else mret (snd <$> last (up_to_version version (ledger_secrets s)))
      | None =>
          match last (up_to_version version (ledger_secrets s)) with
          | None => mret None
          | Some (k, secret) => (if negb historical_hint then last_used_secret_it <~ Some k else skip);; mret (Some secret)
          end
      end
  end.

Definition get_encryption_key_for (version : Z) (historical_hint : bool) : LS (option bytes) :=
  ls ← get_secret_for_version version historical_hint; mret (key <$> ls).

Definition get_secret_for (version : Z) (historical_hint : bool) : LS (option LedgerSecret) :=
  get_secret_for_version version historical_hint.

(** [secret] is the one [make_ledger_secret] draws. *)
Definition init (secret : LedgerSecret) (initial_version : Z) : LS unit :=
  modify (fun s => s <| ledger_secrets := emplace initial_version secret (ledger_secrets s) |>);;
  initial_latest_ledger_secret_version <~ initial_version.

Definition init_from_map (m : LedgerSecretsMap) : LS unit :=
  ledger_secrets <~ m;;
  match last m with
  | Some e => initial_latest_ledger_secret_version <~ e.1
  | None => throw UndefinedBehaviour
  end.

Definition adjust_previous_secret_stored_version (version : Z) : LS unit :=
  s ← get;
  match last (ledger_secrets s) with
  | None => throw (LogicError "There should be at least one ledger secret to adjust")
  | Some (k, secret) =>
      ledger_secrets <~ <[pred (length (ledger_secrets s)) := (k, secret <| previous_secret_stored_version := Some version |>)]> (ledger_secrets s)
  end.

Definition is_empty (s : LedgerSecrets) : bool := match ledger_secrets s with [] => true | _ => false end.

Definition get_first (s : LedgerSecrets) : outcome VersionedLedgerSecret :=
  match ledger_secrets s with
  | [] => Throw (LogicError "Could not retrieve first ledger secret: no secret set")
  | e :: _ => Ret e
  end.

Definition restore_historical (restored : LedgerSecretsMap) : LS unit :=
  s ← get;
  let late := match last restored, ledger_secrets s with Some r, e :: _ => e.1 <=? r.1 | _, _ => false end in
  if late then throw (LogicError "Last restored version is greater than first existing version")
  else ledger_secrets <~ foldl (fun m e => emplace e.1 e.2 m) (ledger_secrets s) restored.

Definition set_secret (version : Z) (secret : LedgerSecret) : LS unit :=
  modify (fun s => s <| ledger_secrets := emplace version secret (ledger_secrets s) |>).

(** The loop drops the latest secret while there is another one. *)
Fixpoint rollback_loop (fuel : nat) (version initial : Z) (m : LedgerSecretsMap) : LedgerSecretsMap :=
  match fuel with
  | O => m
  | S fuel =>
      if (length m <=? 1)%nat then m
      else match last m with
           | None => m
           | Some k =>
               if (k.1 <=? version) || (k.1 <=? initial) then m
               else rollback_loop fuel version initial (take (pred (length m)) m)
           end
  end.

Definition rollback (version : Z) : LS unit :=
  s ← get;
  match ledger_secrets s with
  | [] => skip
  | e :: _ =>
      if version <? e.1 then skip
      else
        ledger_secrets <~ rollback_loop (length (ledger_secrets s)) version (initial_latest_ledger_secret_version s) (ledger_secrets s);;
        last_used_secret_it <~ None
  end.

(** The accesses that depend on a transaction, without the read of the table. *)
Definition latest_secret : LS VersionedLedgerSecret :=
  s ← get;
  match last (ledger_secrets s) with
  | None => throw (LogicError "Could not retrieve latest ledger secret: no secret set")
  | Some e => mret e
  end.

Definition latest_and_penultimate : LS (VersionedLedgerSecret * option VersionedLedgerSecret) :=
  s ← get;
  let m := ledger_secrets s in
  match last m with
  | None => throw (LogicError "Could not retrieve latest ledger secret: no secret set")
  | Some latest => mret (latest, if (length m <? 2)%nat then None else m !! (length m - 2)%nat)
  end.

(** ** Values in the store *)

(** What the JSON library computes for the values of a table. *)
Class Json (A : Type) := {
  to_json : A -> bytes;
  (** nothing when it throws *)
  from_json : bytes -> option A
}.

(** The key of the only entry of a [ServiceValue]. *)
Definition unit_key : Key := replicate 8 0.

Section Values.
Context {P A : Type} `{Json A}.

Definition value_get (name : Name) : ST (World P) (option A) :=
  o ← with_handle name (handle_get unit_key);
  match o with
  | None => mret None
  | Some b => match from_json b with Some a => mret (Some a) | None => throw StdException end
  end.

Definition value_put (name : Name) (a : A) : ST (World P) unit := with_handle name (handle_put unit_key (to_json a)).

Definition value_version_of_previous_write (name : Name) : ST (World P) (option Z) :=
  with_handle name (get_version_of_previous_write unit_key).
End Values.

(** ** Accesses that depend on a transaction *)

Record EncryptedLedgerSecret := MkEncryptedLedgerSecret {
  els_version : option Z;
  encrypted_secret : bytes;
  els_previous_secret_stored_version : option Z
}.
Definition LedgerSecretsForNodes : Type := gmap bytes (list EncryptedLedgerSecret).

Definition ENCRYPTED_LEDGER_SECRETS : Name := name_of "public:ccf.internal.encrypted_ledger_secrets".

(** The secrets of a node and a transaction that uses them. *)
Record SecretsTx (P : Type) := MkSecretsTx { st_secrets : LedgerSecrets; st_world : World P }.
Arguments MkSecretsTx {P}.
Arguments st_secrets {P}.
Arguments st_world {P}.
#[export] Instance eta_SecretsTx P : Settable (SecretsTx P) := fun r => MkSecretsTx (st_secrets r) (st_world r).

Section WithTx.
Context {P : Type} `{Json LedgerSecretsForNodes}.
Abbreviation S := (ST (SecretsTx P)).

Definition take_dependency_on_secrets : S unit :=
  zoom st_world (value_get (A := LedgerSecretsForNodes) ENCRYPTED_LEDGER_SECRETS);; skip.

Definition get_latest : S VersionedLedgerSecret := take_dependency_on_secrets;; zoom st_secrets latest_secret.

Definition get_latest_and_penultimate : S (VersionedLedgerSecret * option VersionedLedgerSecret) :=
  take_dependency_on_secrets;; zoom st_secrets latest_and_penultimate.

Definition get_secrets (up_to : option Z) : S LedgerSecretsMap :=
  take_dependency_on_secrets;;
  s ← get;
  let m := ledger_secrets (st_secrets s) in
  match up_to with
  | None => mret m
  | Some v =>
      match find_secret v m with
      | None => throw (LogicError "No ledger secrets")
      | Some _ => mret (up_to_version v m)
      end
  end.
End WithTx.

(** ** [TxGcmHeader] *)

Definition IV_DELIMITER : nat := 8.

Definition set_iv_seq (seq : Z) : ST GcmHdr unit := modify (fun h => h <| iv := le_encode 8 seq ++ drop 8 (iv h) |>).

Definition set_iv_term (term : Z) : ST GcmHdr unit :=
  if 2 ^ 31 - 1 <? term then throw (LogicError "term should fit in 31 bits of IV")
  else modify (fun h => h <| iv := take IV_DELIMITER (iv h) ++ le_encode 4 term ++ drop (IV_DELIMITER + 4) (iv h) |>).

Definition header_term (h : GcmHdr) : Z := le_decode (take 4 (drop IV_DELIMITER (iv h))).

Definition set_iv_is_snapshot : ST GcmHdr unit :=
  modify (fun h => h <| iv := take (pred (length (iv h))) (iv h) ++ ((fun b => Z.lor b (2 ^ 7)) <$> drop (pred (length (iv h))) (iv h)) |>).

(** ** [TxEncryptor] over these *)

Section Encryptor.
Context `{Aead} `{Hmac}.

Definition set_iv (tx_id : TxID) (entry_type : EntryType) : ST GcmHdr unit :=
  set_iv_seq (tx_version tx_id);;
  set_iv_term (tx_term tx_id);;
  if bool_decide (entry_type = SnapshotEntry) then set_iv_is_snapshot else skip.

Definition get_header_length : nat := Z.to_nat (gcm_serialised_size STANDARD_IV_SIZE).

Definition get_term (data : bytes) : outcome Z :=
  match gcm_deserialise STANDARD_IV_SIZE data with (_, Ret h) => Ret (header_term h) | (_, Throw e) => Throw e end.

(** The serialised header and the cipher text, unless there is no key. *)
Definition encrypt (plain additional_data : bytes) (tx_id : TxID) (entry_type : EntryType) (historical_hint : bool) :
    LS (option (bytes * bytes)) :=
  match set_iv tx_id entry_type (new_GcmHdr STANDARD_IV_SIZE) with
  | (_, Throw e) => throw e
  | (hdr, Ret _) =>
      k ← get_encryption_key_for (tx_version tx_id) historical_hint;
      match k with
      | None => mret None
      | Some k =>
          let '(cipher, t) := aes_gcm_encrypt k (iv hdr) plain additional_data in
          mret (Some (hdr_serialise (hdr <| tag := t |>), cipher))
      end
  end.

(** The plain text, if there is a key and the tag is right, and the term of the header. *)
Definition decrypt (cipher additional_data serialised_header : bytes) (version : Z) (historical_hint : bool) : LS (option bytes * Z) :=
  match gcm_deserialise STANDARD_IV_SIZE serialised_header with
  | (_, Throw e) => throw e
  | (_, Ret hdr) =>
      k ← get_encryption_key_for version historical_hint;
      mret (match k with None => None | Some k => aes_gcm_decrypt k (iv hdr) (tag hdr) cipher additional_data end, header_term hdr)
  end.

(** [TxID::str]. *)
Definition txid_str (tx_id : TxID) : bytes := name_of (format_idx (tx_term tx_id)) ++ name_of "." ++ name_of (format_idx (tx_version tx_id)).

Definition get_commit_nonce (tx_id : TxID) (historical_hint : bool) : LS bytes :=
  secret ← get_secret_for (tx_version tx_id) historical_hint;
  match secret with
  | None => throw (LogicError "Failed to get encryption key")
  | Some secret => mret (hmac_sha256 (get_commit_secret secret) (txid_str tx_id))
  end.

Definition encryptor_rollback (version : Z) : LS unit := rollback version.
End Encryptor.
