(* ===== verification/LedgerSecretsProps.v ===== *)
(** Ledger secrets: the secret that is remembered is the one a search would find as long as versions are used in order; a
    node decrypts what another has encrypted with the same secrets; no two entries share an IV. *)

From S2P Require Import Prelude Serialized SymmetricKey RaftTypes KvMap KvHandle KvSerialise KvStore KvTx LedgerSecrets.

(** ** The secret for a version *)

Definition sorted_secrets (m : LedgerSecretsMap) : Prop := StronglySorted (fun a b => a.1 < b.1) m.

(** The reference: the entry with the highest version that is not above [v]. *)
Definition secret_at (v : Z) (m : LedgerSecretsMap) : option VersionedLedgerSecret := last (up_to_version v m).

Lemma up_to_version_spec v m :
  sorted_secrets m -> exists rest, m = up_to_version v m ++ rest /\ Forall (fun e => e.1 <= v) (up_to_version v m) /\ Forall (fun e => v < e.1) rest.
Proof.
  induction 1 as [|e m Hm (rest & E & H1 & H2) Hall]; cbn; [by exists []|]. destruct (Z.ltb_spec v e.1) as [Hv|Hv].
  - exists (e :: m). split_and!; [done|done|]. constructor; [done|]. eapply Forall_impl; [exact Hall|]. intros x Hx. cbn in Hx. lia.
  - exists rest. split_and!; [by rewrite E at 1|by constructor|done].
Qed.

Lemma sorted_app a b : sorted_secrets (a ++ b) -> sorted_secrets a /\ sorted_secrets b /\ forall x y, x ∈ a -> y ∈ b -> x.1 < y.1.
Proof.
  unfold sorted_secrets. induction a as [|e a IH]; cbn; intros H.
  - split_and!; [constructor|done|]. by intros x y Hx%not_elem_of_nil.
  - apply StronglySorted_inv in H as [H Hall]. destruct (IH H) as (H1 & H2 & H3). rewrite Forall_app in Hall. destruct Hall as [Ha Hb].
    split_and!; [by constructor|done|]. intros x y [->|Hx]%elem_of_cons Hy; [|by apply H3]. rewrite Forall_forall in Hb. by apply Hb.
Qed.

Lemma sorted_unique m x y : sorted_secrets m -> x ∈ m -> y ∈ m -> x.1 = y.1 -> x = y.
Proof.
  induction 1 as [|e m Hm IH Hall]; intros Hx Hy E; [by apply not_elem_of_nil in Hx|]. rewrite Forall_forall in Hall.
  apply elem_of_cons in Hx as [->|Hx]; apply elem_of_cons in Hy as [->|Hy]; [done| | |by apply IH].
  - specialize (Hall _ Hy). cbn in Hall. lia.
  - specialize (Hall _ Hx). cbn in Hall. lia.
Qed.

Lemma secret_at_Some v m e :
  sorted_secrets m -> secret_at v m = Some e <-> e ∈ m /\ e.1 <= v /\ forall x, x ∈ m -> x.1 <= v -> x.1 <= e.1.
Proof.
  intros Hm. destruct (up_to_version_spec v m Hm) as (rest & E & H1 & H2). unfold secret_at.
  rewrite Forall_forall in H1, H2. set (front := up_to_version v m) in *. clearbody front. subst m. split.
  - intros Hl. apply last_Some in Hl as [l' ->]. assert (e ∈ l' ++ [e]) as He by (apply elem_of_app; right; by apply list_elem_of_singleton).
    split; [by apply elem_of_app; left|]. split; [by apply H1|]. intros x [Hx|Hx]%elem_of_app Hv; [|specialize (H2 _ Hx); cbn in H2; lia].
    apply elem_of_app in Hx as [Hx| ->%list_elem_of_singleton]; [|done]. apply sorted_app in Hm as (Hm & _ & _). apply sorted_app in Hm as (_ & _ & Hm).
    apply Z.lt_le_incl, Hm; [done|by apply list_elem_of_singleton].
  - intros (Hin & Hv & Hmax). apply elem_of_app in Hin as [Hin|Hin]; [|specialize (H2 _ Hin); cbn in H2; lia].
    destruct (last front) as [e'|] eqn:El; [|apply last_None in El; subst front; by apply not_elem_of_nil in Hin].
    f_equal. assert (e' ∈ front) as Hin' by (by apply list_elem_of_lookup; exists (pred (length front)); rewrite <- last_lookup).
    pose proof Hm as Hm'. apply sorted_app in Hm' as (Hf & _ & _). apply (sorted_unique front); [done..|].
    apply Z.le_antisymm; [by apply Hmax; [apply elem_of_app; left|apply H1]|].
    apply last_Some in El as [l' ->]. apply elem_of_app in Hin as [Hx| ->%list_elem_of_singleton]; [|done].
    apply sorted_app in Hf as (_ & _ & Hf). apply Z.lt_le_incl, Hf; [done|by apply list_elem_of_singleton].
Qed.

Lemma secret_at_None v m : sorted_secrets m -> secret_at v m = None <-> forall x, x ∈ m -> v < x.1.
Proof.
  intros Hm. destruct (up_to_version_spec v m Hm) as (rest & E & H1 & H2). unfold secret_at. rewrite last_None.
  rewrite Forall_forall in H1, H2. split.
  - intros E' x Hx. rewrite E, E' in Hx. by apply H2.
  - intros H. destruct (up_to_version v m) as [|x l]; [done|]. specialize (H1 x ltac:(left)). specialize (H x ltac:(rewrite E; left)). lia.
Qed.

(** ** The map *)

Definition has_key (k : Z) (m : LedgerSecretsMap) : Prop := exists e, e ∈ m /\ e.1 = k.

Lemma emplace_elem k v m x :
  sorted_secrets m -> x ∈ emplace k v m <-> x ∈ m \/ (x = (k, v) /\ ~ has_key k m).
Proof.
  induction 1 as [|[k' v'] m Hm IH Hall]; cbn.
  - rewrite list_elem_of_singleton. split; [|by intros [?%not_elem_of_nil|[? _]]]. intros ->. right. split; [done|]. by intros (e & ?%not_elem_of_nil & _).
  - rewrite Forall_forall in Hall. cbn in Hall. destruct (Z.ltb_spec k k') as [Hlt|Hge].
    + rewrite !elem_of_cons. assert (~ has_key k ((k', v') :: m)); [|tauto]. intros (e & [->|He]%elem_of_cons & Hk); cbn in Hk; [lia|].
      specialize (Hall _ He). lia.
    + destruct (Z.eqb_spec k k') as [->|Hne].
      * split; [tauto|]. intros [|[_ Hn]]; [done|]. exfalso. apply Hn. exists (k', v'). split; [left|done].
      * rewrite !elem_of_cons, IH. assert (has_key k ((k', v') :: m) <-> has_key k m) as ->; [|tauto].
        split; intros (e & He & Hk); exists e; (split; [|done]); [|by right]. apply elem_of_cons in He as [->|]; [cbn in Hk; lia|done].
Qed.

Lemma emplace_sorted k v m : sorted_secrets m -> sorted_secrets (emplace k v m).
Proof.
  intros Hs. induction Hs as [|[k' v'] m Hm IH Hall]; cbn; [by repeat constructor|]. destruct (Z.ltb_spec k k') as [Hlt|Hge].
  - constructor; [by constructor|]. constructor; [done|]. eapply Forall_impl; [exact Hall|]. intros x Hx. cbn in *. lia.
  - destruct (Z.eqb_spec k k') as [->|Hne]; [by constructor|]. constructor; [done|]. apply Forall_forall. intros x Hx.
    apply (emplace_elem _ _ _ _ Hm) in Hx as [Hx|[-> _]]; [|cbn; lia]. rewrite Forall_forall in Hall. by apply Hall.
Qed.

Lemma up_to_sorted v m : sorted_secrets m -> sorted_secrets (up_to_version v m).
Proof. intros Hm. destruct (up_to_version_spec v m Hm) as (rest & E & _). rewrite E in Hm. by apply sorted_app in Hm as (? & _ & _). Qed.

Lemma find_first {A} (p : A -> bool) l x : List.find p l = Some x -> exists a b, l = a ++ x :: b /\ p x = true /\ Forall (fun y => p y = false) a.
Proof.
  induction l as [|y l IH]; cbn; [done|]. destruct (p y) eqn:E.
  - intros [= ->]. by exists [], l.
  - intros (a & b & -> & Hx & Ha)%IH. exists (y :: a), b. split_and!; [done|done|by constructor].
Qed.

Lemma find_secret_in k v m : sorted_secrets m -> (k, v) ∈ m -> find_secret k m = Some (k, v).
Proof.
  intros Hm Hin. unfold find_secret. destruct (List.find _ m) as [e|] eqn:E.
  - apply find_first in E as (a & b & -> & He%Z.eqb_eq & _). f_equal. apply (sorted_unique (a ++ e :: b)); [done| |done|done].
    apply elem_of_app. right. left.
  - eapply List.find_none in E; [|by apply list_elem_of_In]. cbn in E. lia.
Qed.

(** The entry behind an iterator is the one with the next key. *)
Lemma next_secret_spec k m :
  sorted_secrets m ->
  match next_secret k m with
  | Some e => e ∈ m /\ k < e.1 /\ forall x, x ∈ m -> k < x.1 -> e.1 <= x.1
  | None => forall x, x ∈ m -> x.1 <= k
  end.
Proof.
  intros Hm. unfold next_secret. destruct (List.find _ m) as [e|] eqn:E.
  - apply find_first in E as (a & b & -> & He%Z.ltb_lt & Ha). split_and!; [apply elem_of_app; right; left|done|].
    intros x [Hx|[->|Hx]%elem_of_cons]%elem_of_app Hk; [|done|].
    + rewrite Forall_forall in Ha. specialize (Ha _ Hx). cbn in Ha. lia.
    + apply sorted_app in Hm as (_ & Hm & _). apply StronglySorted_inv in Hm as [_ Hm]. rewrite Forall_forall in Hm. specialize (Hm _ Hx). cbn in Hm. lia.
  - intros x Hx. eapply List.find_none in E; [|by apply list_elem_of_In]. cbn in E. lia.
Qed.

(** ** The fast path *)

(** The secrets whose version lies behind [l] and not behind [v]. *)
Definition crossed (l v : Z) (m : LedgerSecretsMap) : list VersionedLedgerSecret := filter (fun e => l < e.1 <= v) m.

(** The remembered secret is that of the version used last. *)
Definition remembers (last_version : option Z) (s : LedgerSecrets) : Prop :=
  sorted_secrets (ledger_secrets s) /\
  match last_version with
  | None => last_used_secret_it s = None
  | Some l => exists e, secret_at l (ledger_secrets s) = Some e /\ last_used_secret_it s = Some e.1
  end.

Definition in_order (last_version : option Z) (v : Z) (m : LedgerSecretsMap) : Prop :=
  match last_version with
  | None => True
  | Some l => l <= v /\ (length (crossed l v m) <= 1)%nat
  end.

Lemma crossed_unique l v m x y : (length (crossed l v m) <= 1)%nat -> x ∈ m -> y ∈ m -> l < x.1 <= v -> l < y.1 <= v -> x = y.
Proof.
  intros Hlen Hx Hy Hxv Hyv. assert (x ∈ crossed l v m) as Hx' by (by apply list_elem_of_filter).
  assert (y ∈ crossed l v m) as Hy' by (by apply list_elem_of_filter).
  destruct (crossed l v m) as [|z [|? ?]]; cbn in Hlen; [by apply not_elem_of_nil in Hx'| |lia].
  apply list_elem_of_singleton in Hx' as ->. by apply list_elem_of_singleton in Hy' as ->.
Qed.

Lemma use_in_order v g s :
  remembers g s -> in_order g v (ledger_secrets s) ->
  exists s', get_secret_for_version v false s = (s', Ret (snd <$> secret_at v (ledger_secrets s))) /\
    ledger_secrets s' = ledger_secrets s /\ initial_latest_ledger_secret_version s' = initial_latest_ledger_secret_version s /\
    remembers (match secret_at v (ledger_secrets s) with Some _ => Some v | None => g end) s'.
Proof.
  intros [Hm Hg] Ho. unfold get_secret_for_version, mbind at 1, ST_bind at 1, get at 1. destruct s as [m i lu]. cbn [ledger_secrets last_used_secret_it initial_latest_ledger_secret_version] in *.
  destruct m as [|e0 m0] eqn:Em.
  { exists (MkLedgerSecrets [] i lu). split_and!; [done..|]. by split. }
  rewrite <- Em in *. clear Em e0 m0. destruct g as [l|]; cbn in Ho.
  2: { rewrite Hg. unfold secret_at. destruct (last (up_to_version v m)) as [[k sec]|] eqn:E; cbn.
       - eexists. split; [done|]. split; [done|]. split; [done|]. split; [done|]. exists (k, sec). by rewrite E || done.
       - eexists. split; [done|]. split; [done|]. split; [done|]. by split. }
  destruct Hg as (e & He & Hlu). destruct Ho as [Hlv Hc]. pose proof He as He'. apply secret_at_Some in He' as (Hin & Hel & Hmax); [|done].
  rewrite Hlu. cbn [negb]. pose proof (next_secret_spec e.1 m Hm) as Hnext.
  assert (Hstay : (forall x, x ∈ m -> x.1 <= v -> x.1 <= e.1) ->
    secret_at v m = Some e /\ find_secret e.1 m = Some e).
  { intros Hx. split; [apply secret_at_Some; [done|]; split_and!; [done|lia|done]|]. destruct e. by apply find_secret_in. }
  destruct (next_secret e.1 m) as [[k sec]|]; [destruct Hnext as (Hk & Hek & Hmin); cbn [fst] in *; destruct (Z.leb_spec k v) as [Hkv|Hkv]|].
  - assert (l < k) by (destruct (Z.le_gt_cases k l) as [Hkl|]; [specialize (Hmax _ Hk Hkl); cbn in Hmax; lia|lia]).
    assert (secret_at v m = Some (k, sec)) as Hs.
    { apply secret_at_Some; [done|]. split_and!; [done|done|]. intros x Hx Hxv. cbn. destruct (Z.le_gt_cases x.1 l) as [Hxl|Hxl].
      - specialize (Hmax _ Hx Hxl). lia.
      - rewrite (crossed_unique l v m x (k, sec)); [done|done|done|done|lia|cbn; lia]. }
    rewrite Hs. eexists. split; [done|]. split; [done|]. split; [done|]. split; [done|]. exists (k, sec). by split.
  - destruct Hstay as [Hs Hf]; [intros x Hx Hxv; destruct (Z.le_gt_cases x.1 e.1); [done|specialize (Hmin x Hx ltac:(lia)); lia]|].
    rewrite Hf, Hs. eexists. split; [done|]. split; [done|]. split; [done|]. split; [done|]. by exists e.
  - destruct Hstay as [Hs Hf]; [intros x Hx _; by apply Hnext|].
    rewrite Hf, Hs. eexists. split; [done|]. split; [done|]. split; [done|]. split; [done|]. by exists e.
Qed.

Lemma use_historical v s :
  get_secret_for_version v true s = (s, Ret (snd <$> secret_at v (ledger_secrets s))).
Proof.
  unfold get_secret_for_version, mbind at 1, ST_bind at 1, get at 1. unfold secret_at. destruct s as [m i lu].
  cbn [ledger_secrets last_used_secret_it]. destruct m as [|e m]; [done|]. destruct lu as [it|]; [done|].
  by destruct (last (up_to_version v (e :: m))) as [[k sec]|].
Qed.

(** ** Rolling back *)

Lemma rollback_loop_spec fuel version initial m e rest :
  sorted_secrets m -> m = e :: rest -> e.1 <= version -> (length m <= fuel)%nat ->
  rollback_loop fuel version initial m = up_to_version (Z.max version initial) m.
Proof.
  revert m rest. induction fuel as [|fuel IH]; intros m rest Hm E Hv Hf; [subst m; cbn in Hf; lia|]. cbn [rollback_loop].
  destruct (up_to_version_spec (Z.max version initial) m Hm) as (tail & Em & H1 & H2). rewrite Forall_forall in H1, H2.
  assert (Hdone : forall x, last m = Some x -> x.1 <= Z.max version initial -> m = up_to_version (Z.max version initial) m).
  { intros x Hx Hle. destruct (last_split tail) as [->|(tail' & y & ->)]; [by rewrite app_nil_r in Em|].
    rewrite Em, app_assoc, last_snoc in Hx. injection Hx as ->. specialize (H2 x ltac:(apply elem_of_app; right; by apply list_elem_of_singleton)). lia. }
  destruct (Nat.leb_spec (length m) 1) as [Hl|Hl].
  - apply (Hdone e); [|lia]. subst m. destruct rest; [done|cbn in Hl; lia].
  - destruct (last m) as [k|] eqn:Ek; [|by rewrite E in Ek; apply last_None in Ek].
    destruct ((k.1 <=? version) || (k.1 <=? initial)) eqn:Eb; [apply (Hdone k); [done|lia]|].
    destruct (last_split m) as [->|(m' & y & Em')]; [done|]. rewrite Em', last_snoc in Ek. injection Ek as ->.
    assert (take (pred (length m)) m = m') as -> by (rewrite Em', length_app; cbn; replace (pred (length m' + 1)) with (length m') by lia; apply take_app_length).
    destruct m' as [|e' m'']; [rewrite Em' in Hl; cbn in Hl; lia|]. assert (e' = e) as -> by (rewrite Em' in E; by injection E).
    rewrite Em' in Hm. apply sorted_app in Hm as (Hm' & _ & _). rewrite (IH (e :: m'') m'' Hm' eq_refl Hv).
    2: { rewrite Em', length_app in Hf. cbn in Hf. cbn. lia. }
    assert (forall w l, w < k.1 -> up_to_version w (l ++ [k]) = up_to_version w l) as Hup.
    { intros w l Hw. induction l as [|x l IHl]; cbn; [destruct (Z.ltb_spec w k.1); [done|lia]|]. destruct (w <? x.1); [done|]. by rewrite IHl. }
    rewrite Em'. symmetry. apply (Hup _ (e :: m'')). lia.
Qed.

(** ** Any order of uses, rekeys and rollbacks *)

Inductive SecretsOp :=
| Use (v : Z)
| UseHistorical (v : Z)
| AddSecret (v : Z) (secret : LedgerSecret)
| Undo (v : Z).

Definition run_secrets_op (op : SecretsOp) : LS (option LedgerSecret) :=
  match op with
  | Use v => get_secret_for v false
  | UseHistorical v => get_secret_for v true
  | AddSecret v secret => set_secret v secret;; mret None
  | Undo v => rollback v;; mret None
  end.

Fixpoint run_secrets (ops : list SecretsOp) : LS (list (option LedgerSecret)) :=
  match ops with
  | [] => mret []
  | op :: ops => r ← run_secrets_op op; rs ← run_secrets ops; mret (r :: rs)
  end.

(** The same without a memory of what was used: every use searches. *)
Definition search_op (initial : Z) (op : SecretsOp) (m : LedgerSecretsMap) : LedgerSecretsMap * option LedgerSecret :=
  match op with
  | Use v | UseHistorical v => (m, snd <$> secret_at v m)
  | AddSecret v secret => (emplace v secret m, None)
  | Undo v => (match m with [] => [] | e :: _ => if v <? e.1 then m else up_to_version (Z.max v initial) m end, None)
  end.

Fixpoint search_ops (initial : Z) (ops : list SecretsOp) (m : LedgerSecretsMap) : LedgerSecretsMap * list (option LedgerSecret) :=
  match ops with
  | [] => (m, [])
  | op :: ops => let '(m, r) := search_op initial op m in let '(m, rs) := search_ops initial ops m in (m, r :: rs)
  end.

(** The version used last, since secrets were rolled back. *)
Definition last_version (op : SecretsOp) (m : LedgerSecretsMap) (g : option Z) : option Z :=
  match op with
  | Use v => match secret_at v m with Some _ => Some v | None => g end
  | UseHistorical _ | AddSecret _ _ => g
  | Undo _ => match m with [] => g | _ => None end
  end.

(** What the store keeps to: versions are used in ascending order, without passing two secrets at once; a secret is for
    versions to come; secrets are not rolled back to before the first. *)
Definition allowed (op : SecretsOp) (m : LedgerSecretsMap) (g : option Z) : Prop :=
  match op with
  | Use v => in_order g v m
  | UseHistorical _ => True
  | AddSecret v _ => match g with Some l => l < v | None => True end
  | Undo v => match m with [] => True | e :: _ => e.1 <= v end
  end.

Fixpoint all_allowed (initial : Z) (ops : list SecretsOp) (m : LedgerSecretsMap) (g : option Z) : Prop :=
  match ops with
  | [] => True
  | op :: ops => allowed op m g /\ all_allowed initial ops (search_op initial op m).1 (last_version op m g)
  end.

Lemma run_op_search op s g :
  remembers g s -> allowed op (ledger_secrets s) g ->
  exists s', run_secrets_op op s = (s', Ret (search_op (initial_latest_ledger_secret_version s) op (ledger_secrets s)).2) /\
    ledger_secrets s' = (search_op (initial_latest_ledger_secret_version s) op (ledger_secrets s)).1 /\
    initial_latest_ledger_secret_version s' = initial_latest_ledger_secret_version s /\
    remembers (last_version op (ledger_secrets s) g) s'.
Proof.
  intros Hr Ha. destruct op as [v|v|v secret|v]; cbn [run_secrets_op search_op last_version fst snd].
  - by apply use_in_order.
  - exists s. split; [apply use_historical|]. done.
  - exists (s <| ledger_secrets := emplace v secret (ledger_secrets s) |>). split; [done|]. split; [done|]. split; [done|].
    destruct Hr as [Hm Hg]. split; [by apply emplace_sorted|]. destruct g as [l|]; [|done]. destruct Hg as (e & He & Hlu). exists e. split; [|done].
    cbn in Ha |- *. apply secret_at_Some in He as (Hin & Hl & Hmax); [|done]. apply secret_at_Some; [by apply emplace_sorted|].
    split_and!; [by apply emplace_elem; [|left]|done|]. intros x [Hx|[-> _]]%emplace_elem Hxl; [by apply Hmax|cbn in Hxl; lia|done].
  - destruct Hr as [Hm Hg]. unfold rollback, mbind, ST_bind, get. cbn in Ha. destruct s as [m i lu]. cbn [ledger_secrets initial_latest_ledger_secret_version] in *.
    destruct m as [|e m]; cbn [fst].
    + exists (MkLedgerSecrets [] i lu). split_and!; [done..|]. by split.
    + destruct (Z.ltb_spec v e.1) as [|_]; [lia|]. 
      assert (rollback_loop (S (length m)) v i (e :: m) = up_to_version (v `max` i) (e :: m)) as Hl by (by apply (rollback_loop_spec _ v i _ e m)).
      exists (MkLedgerSecrets (rollback_loop (S (length m)) v i (e :: m)) i None). split; [done|]. split; [exact Hl|]. split; [done|].
      split; [|done]. cbn [ledger_secrets]. rewrite Hl. by apply up_to_sorted.
Qed.

Lemma run_secrets_search ops s g :
  remembers g s -> all_allowed (initial_latest_ledger_secret_version s) ops (ledger_secrets s) g ->
  exists s', run_secrets ops s = (s', Ret (search_ops (initial_latest_ledger_secret_version s) ops (ledger_secrets s)).2) /\
    ledger_secrets s' = (search_ops (initial_latest_ledger_secret_version s) ops (ledger_secrets s)).1 /\
    exists g', remembers g' s'.
Proof.
  revert s g. induction ops as [|op ops IH]; intros s g Hr Ha; [exists s; split_and!; [done..|]; by exists g|].
  destruct Ha as [Ha Has]. destruct (run_op_search op s g Hr Ha) as (s1 & Hrun & Hm & Hi & Hr1). cbn [run_secrets search_ops].
  rewrite (run_bind _ _ _ _ _ Hrun). rewrite <- Hm, <- Hi in Has. destruct (IH s1 _ Hr1 Has) as (s2 & Hrun2 & Hm2 & Hg).
  rewrite (run_bind _ _ _ _ _ Hrun2). rewrite Hm, Hi in Hm2 |- *.
  destruct (search_op (initial_latest_ledger_secret_version s) op (ledger_secrets s)) as [m r]. cbn [fst snd] in *.
  destruct (search_ops (initial_latest_ledger_secret_version s) ops m) as [m' rs]. by exists s2.
Qed.

(** C35: the fast path finds the right secret.  For any sequence of uses of secrets, historical queries, new secrets and
    rollbacks, every use returns what a search of the whole map would, if four conditions hold: the versions used ascend,
    starting again after each rollback (historical queries are free); no use passes the versions of two secrets since the use
    before it; a new secret is for a version behind those used; and no rollback goes below the version of the first secret. *)
Theorem fast_path_exact ops secret initial_version :
  all_allowed initial_version ops [(initial_version, secret)] None ->
  snd (run_secrets ops (fst (init secret initial_version new_LedgerSecrets))) =
  Ret (search_ops initial_version ops [(initial_version, secret)]).2.
Proof.
  intros Ha. destruct (run_secrets_search ops (fst (init secret initial_version new_LedgerSecrets)) None) as (s' & -> & _ & _); [|exact Ha|done].
  split; [by repeat constructor|done].
Qed.

Definition key_a : LedgerSecret := MkLedgerSecret (replicate 32 1) (replicate 32 1) None.
Definition key_b : LedgerSecret := MkLedgerSecret (replicate 32 2) (replicate 32 2) (Some 9).

(** Across a rekey at 10, with a historical query, and back; what is allowed here is needed: with a second rekey between two
    uses the fast path returns the secret that is no longer in use. *)
Lemma fast_path_exact_witness :
  let ops := [Use 1; AddSecret 10 key_b; Use 9; Use 10; UseHistorical 3; Use 11; Undo 8; Use 9; AddSecret 10 key_b; Use 12] in
  all_allowed 1 ops [(1, key_a)] None /\
  snd (run_secrets ops (fst (init key_a 1 new_LedgerSecrets))) =
    Ret [Some key_a; None; Some key_a; Some key_b; Some key_a; Some key_b; None; Some key_a; None; Some key_b] /\
  snd (run_secrets [Use 1; AddSecret 10 key_b; AddSecret 20 key_a; Use 25] (fst (init key_a 1 new_LedgerSecrets))) =
    Ret [Some key_a; None; None; Some key_b].
Proof.
  intros ops. assert (all_allowed 1 ops [(1, key_a)] None) as Ha by (vm_compute; repeat split; (lia || discriminate)).
  split; [exact Ha|]. split; [|reflexivity]. rewrite (fast_path_exact ops key_a 1 Ha). reflexivity.
Defined.

(** ** Encryption *)

(** The flag of a snapshot is the highest bit of the four bytes of the term. *)
Definition snapshot_bit (t : EntryType) : Z := if bool_decide (t = SnapshotEntry) then 2 ^ 31 else 0.

Definition iv_of (id : TxID) (t : EntryType) : bytes := le_encode 8 (tx_version id) ++ le_encode 4 (tx_term id + snapshot_bit t).

Lemma lor_high_bit b : 0 <= b < 128 -> Z.lor b (2 ^ 7) = b + 128.
Proof.
  intros Hb. pose proof (Z.add_lor_land b (2 ^ 7)) as E. assert (Z.land b (2 ^ 7) = 0) as Hz; [|lia].
  apply Z.bits_inj'. intros n Hn. rewrite Z.land_spec, Z.bits_0, Z.pow2_bits_eqb by lia. destruct (Z.eqb_spec 7 n) as [<-|]; [|by rewrite andb_false_r].
  rewrite andb_true_r. destruct (Z.eq_dec b 0) as [->|]; [done|]. apply Z.bits_above_log2; [lia|]. apply Z.log2_lt_pow2; lia.
Qed.

Lemma le_encode_add n v k : le_encode (S n) (v + k * 256) = v `mod` 256 :: le_encode n (v `div` 256 + k).
Proof. cbn [le_encode]. by rewrite Z.mod_add, Z.div_add. Qed.

(** Setting the highest bit of four bytes. *)
Lemma le_encode_high t :
  0 <= t < 2 ^ 31 -> exists front b, le_encode 4 t = front ++ [b] /\ le_encode 4 (t + 2 ^ 31) = front ++ [Z.lor b (2 ^ 7)].
Proof.
  intros Ht. set (t3 := ((t `div` 256) `div` 256) `div` 256).
  assert (0 <= t3 < 128).
  { unfold t3. rewrite !Z.div_div by lia. split; [apply Z.div_pos; lia|]. apply Z.div_lt_upper_bound; lia. }
  exists [t `mod` 256; (t `div` 256) `mod` 256; ((t `div` 256) `div` 256) `mod` 256], t3. split.
  - cbn [le_encode app]. fold t3. by rewrite (Z.mod_small t3) by lia.
  - change (2 ^ 31) with (2 ^ 23 * 256). rewrite le_encode_add. change (2 ^ 23) with (2 ^ 15 * 256). rewrite le_encode_add.
    change (2 ^ 15) with (2 ^ 7 * 256). rewrite le_encode_add. cbn [le_encode app]. fold t3. by rewrite lor_high_bit, (Z.mod_small (t3 + 2 ^ 7)) by lia.
Qed.

Lemma mark_last a t :
  0 <= t < 2 ^ 31 ->
  let v := a ++ le_encode 4 t in
  take (pred (length v)) v ++ ((fun b => Z.lor b (2 ^ 7)) <$> drop (pred (length v)) v) = a ++ le_encode 4 (t + 2 ^ 31).
Proof.
  intros Ht v. subst v. destruct (le_encode_high t Ht) as (front & b & -> & ->). rewrite !app_assoc, length_app. cbn [length].
  replace (pred (length (a ++ front) + 1)) with (length (a ++ front)) by lia. by rewrite take_app_length, drop_app_length.
Qed.

Lemma set_iv_run id t :
  0 <= tx_term id < 2 ^ 31 -> set_iv id t (new_GcmHdr STANDARD_IV_SIZE) = (MkGcmHdr (replicate GCM_SIZE_TAG 0) (iv_of id t), Ret tt).
Proof.
  intros Ht. unfold set_iv, set_iv_seq, set_iv_term. destruct (Z.ltb_spec (2 ^ 31 - 1) (tx_term id)); [lia|].
  assert (forall a b : bytes, length a = 8%nat -> length b = 4%nat -> take IV_DELIMITER (a ++ b) = a /\ drop (IV_DELIMITER + 4) (a ++ b) = []) as Hsplit.
  { intros a b Ha Hb. unfold IV_DELIMITER. rewrite <- Ha at 1. split; [apply take_app_length|]. apply drop_ge. rewrite length_app. lia. }
  destruct (Hsplit (le_encode 8 (tx_version id)) (drop 8 (replicate 12 0))) as [E1 E2]; [apply le_encode_length|done|].
  unfold iv_of, snapshot_bit. unfold mbind, ST_bind, modify. unfold new_GcmHdr, set. cbn [tag iv eta_GcmHdr update_field eta_record].
  change STANDARD_IV_SIZE with 12%nat. rewrite E1, E2, app_nil_r.
  match goal with |- _ ?h = _ =>
    change h with (MkGcmHdr (replicate GCM_SIZE_TAG 0) (le_encode 8 (tx_version id) ++ le_encode 4 (tx_term id))) end.
  case_bool_decide as E; [|by rewrite Z.add_0_r]. unfold set_iv_is_snapshot, modify. f_equal.
  rewrite <- (mark_last (le_encode 8 (tx_version id)) (tx_term id) Ht). reflexivity.
Qed.

Lemma le_encode_inj n v w : 0 <= v < 256 ^ Z.of_nat n -> 0 <= w < 256 ^ Z.of_nat n -> le_encode n v = le_encode n w -> v = w.
Proof. intros Hv Hw E. rewrite <- (le_decode_encode n v Hv), E. by apply le_decode_encode. Qed.

Lemma snapshot_bit_cases t : (t = SnapshotEntry /\ snapshot_bit t = 2 ^ 31) \/ (t <> SnapshotEntry /\ snapshot_bit t = 0).
Proof. unfold snapshot_bit. case_bool_decide; [left|right]; done. Qed.

(** C33: IVs are not reused.  Entries of different transactions, and an entry and a snapshot of the same transaction, get
    different IVs, for all versions and for terms of at most 31 bits; a larger term is refused. *)
Theorem iv_unique id1 t1 id2 t2 h1 h2 :
  0 <= tx_version id1 < 2 ^ 64 -> 0 <= tx_version id2 < 2 ^ 64 -> 0 <= tx_term id1 -> 0 <= tx_term id2 ->
  set_iv id1 t1 (new_GcmHdr STANDARD_IV_SIZE) = (h1, Ret tt) -> set_iv id2 t2 (new_GcmHdr STANDARD_IV_SIZE) = (h2, Ret tt) ->
  iv h1 = iv h2 -> tx_version id1 = tx_version id2 /\ tx_term id1 = tx_term id2 /\ (t1 = SnapshotEntry <-> t2 = SnapshotEntry).
Proof.
  intros Hv1 Hv2 Ht1 Ht2 H1 H2 E.
  assert (Hterm : forall id t h, set_iv id t (new_GcmHdr STANDARD_IV_SIZE) = (h, Ret tt) -> tx_term id < 2 ^ 31).
  { intros id t h. unfold set_iv, set_iv_seq, set_iv_term. destruct (Z.ltb_spec (2 ^ 31 - 1) (tx_term id)); [done|lia]. }
  pose proof (Hterm _ _ _ H1). pose proof (Hterm _ _ _ H2). rewrite set_iv_run in H1, H2 by lia. injection H1 as <-. injection H2 as <-.
  cbn [iv] in E. unfold iv_of in E. apply app_inj_1 in E as [Ev Et]; [|by rewrite !le_encode_length].
  apply le_encode_inj in Ev; [|done|done]. split; [done|].
  destruct (snapshot_bit_cases t1) as [[Hs1 Hb1]|[Hs1 Hb1]], (snapshot_bit_cases t2) as [[Hs2 Hb2]|[Hs2 Hb2]]; rewrite Hb1, Hb2 in Et;
    apply le_encode_inj in Et; change (256 ^ Z.of_nat 4) with (2 ^ 32); (lia || (split; [lia|tauto])).
Qed.

Lemma iv_unique_witness :
  let write := set_iv (MkTxID 2 10) WriteSet (new_GcmHdr STANDARD_IV_SIZE) in
  let snapshot := set_iv (MkTxID 2 10) SnapshotEntry (new_GcmHdr STANDARD_IV_SIZE) in
  iv (fst write) = [10; 0; 0; 0; 0; 0; 0; 0; 2; 0; 0; 0] /\ iv (fst snapshot) = [10; 0; 0; 0; 0; 0; 0; 0; 2; 0; 0; 128] /\
  iv (fst write) <> iv (fst snapshot).
Proof.
  intros write snapshot. split; [reflexivity|]. split; [reflexivity|]. intros E.
  destruct (iv_unique (MkTxID 2 10) WriteSet (MkTxID 2 10) SnapshotEntry (fst write) (fst snapshot)) as (_ & _ & H); try (cbn; lia); try reflexivity; [exact E|].
  destruct H as [_ H]. specialize (H eq_refl). discriminate.
Defined.

Section Encryption.
Context `{A : Aead} `{AL : !AeadLaws A}.

(** A use that finds the key of the version. *)
Definition finds (v : Z) (hint : bool) (secret : LedgerSecret) (s : LedgerSecrets) : Prop :=
  exists s', get_secret_for_version v hint s = (s', Ret (Some secret)).

Lemma finds_key v hint secret s : finds v hint secret s -> exists s', get_encryption_key_for v hint s = (s', Ret (Some (key secret))).
Proof. intros [s' H]. exists s'. unfold get_encryption_key_for. by rewrite (run_bind _ _ _ _ _ H). Qed.

(** In order, or with the hint, the key is that of the last rekey. *)
Lemma finds_reference g v hint e s :
  remembers g s -> hint = true \/ in_order g v (ledger_secrets s) -> secret_at v (ledger_secrets s) = Some e -> finds v hint e.2 s.
Proof.
  intros Hr Ho He. destruct hint.
  - exists s. rewrite use_historical. by rewrite He.
  - destruct Ho as [|Ho]; [done|]. destruct (use_in_order v g s Hr Ho) as (s' & Hs & _). exists s'. by rewrite Hs, He.
Qed.

Lemma iv_of_length id t : length (iv_of id t) = STANDARD_IV_SIZE.
Proof. unfold iv_of. by rewrite length_app, !le_encode_length. Qed.

(** The header of an entry: the tag and the IV. *)
Definition entry_header_bytes (key : bytes) (id : TxID) (t : EntryType) (plain ad : bytes) : bytes :=
  (aes_gcm_encrypt key (iv_of id t) plain ad).2 ++ iv_of id t.

Lemma encrypt_run plain ad id t hint secret s :
  finds (tx_version id) hint secret s -> 0 <= tx_term id < 2 ^ 31 ->
  snd (encrypt plain ad id t hint s) =
  Ret (Some (entry_header_bytes (key secret) id t plain ad, (aes_gcm_encrypt (key secret) (iv_of id t) plain ad).1)).
Proof.
  intros Hf Ht. destruct (finds_key _ _ _ _ Hf) as [s' Hk]. unfold encrypt. rewrite set_iv_run by done. rewrite (run_bind _ _ _ _ _ Hk).
  cbn [iv]. unfold entry_header_bytes. by destruct (aes_gcm_encrypt _ _ _ _) as [cipher tg].
Qed.

Lemma header_read key id t plain ad :
  gcm_deserialise STANDARD_IV_SIZE (entry_header_bytes key id t plain ad) =
  ([], Ret (MkGcmHdr (aes_gcm_encrypt key (iv_of id t) plain ad).2 (iv_of id t))).
Proof.
  unfold entry_header_bytes. set (tg := (aes_gcm_encrypt _ _ _ _).2). assert (length tg = GCM_SIZE_TAG) as Htg by apply law_tag. clearbody tg.
  rewrite <- (app_nil_r (tg ++ iv_of id t)). apply (gcm_header_read _ (MkGcmHdr tg (iv_of id t))); [done|apply iv_of_length].
Qed.

Lemma header_term_iv tg id t : 0 <= tx_term id < 2 ^ 31 -> header_term (MkGcmHdr tg (iv_of id t)) = tx_term id + snapshot_bit t.
Proof.
  intros Ht. unfold header_term, iv_of. cbn [iv].
  assert (drop IV_DELIMITER (le_encode 8 (tx_version id) ++ le_encode 4 (tx_term id + snapshot_bit t)) = le_encode 4 (tx_term id + snapshot_bit t)) as ->.
  { apply drop_app_length'. by rewrite le_encode_length. }
  rewrite take_ge by (by rewrite le_encode_length). apply le_decode_encode. change (256 ^ Z.of_nat 4) with (2 ^ 32).
  destruct (snapshot_bit_cases t) as [[_ ->]|[_ ->]]; lia.
Qed.

Lemma entry_decrypt_run plain ad id t hint secret s :
  finds (tx_version id) hint secret s -> 0 <= tx_term id < 2 ^ 31 ->
  snd (decrypt (aes_gcm_encrypt (key secret) (iv_of id t) plain ad).1 ad (entry_header_bytes (key secret) id t plain ad)
    (tx_version id) hint s) = Ret (Some plain, tx_term id + snapshot_bit t).
Proof.
  intros Hf Ht. destruct (finds_key _ _ _ _ Hf) as [s' Hk]. unfold decrypt. rewrite header_read, (run_bind _ _ _ _ _ Hk).
  unfold mret, ST_ret. cbn [snd]. rewrite header_term_iv by done. cbn [iv tag].
  pose proof (law_decrypt (key secret) (iv_of id t) plain ad) as Hd. destruct (aes_gcm_encrypt _ _ _ _) as [cipher tg]. cbn [fst snd]. by rewrite Hd.
Qed.

(** C34: nodes with the same secret for a version read each other's entries.  Whatever each node used before, as long as it
    uses versions in order or gives the hint, encryption succeeds on the one and on the other decryption returns the plain
    text and the term of the entry; a snapshot is told from an entry by the highest bit of the term. *)
Theorem entries_decrypt g1 g2 s1 s2 h1 h2 plain ad id t k1 k2 secret :
  remembers g1 s1 -> remembers g2 s2 ->
  h1 = true \/ in_order g1 (tx_version id) (ledger_secrets s1) -> h2 = true \/ in_order g2 (tx_version id) (ledger_secrets s2) ->
  secret_at (tx_version id) (ledger_secrets s1) = Some (k1, secret) -> secret_at (tx_version id) (ledger_secrets s2) = Some (k2, secret) ->
  0 <= tx_term id < 2 ^ 31 ->
  exists header cipher, snd (encrypt plain ad id t h1 s1) = Ret (Some (header, cipher)) /\
    length header = get_header_length /\ length cipher = length plain /\
    snd (decrypt cipher ad header (tx_version id) h2 s2) = Ret (Some plain, tx_term id + if bool_decide (t = SnapshotEntry) then 2 ^ 31 else 0).
Proof.
  intros Hr1 Hr2 Ho1 Ho2 Hs1 Hs2 Ht. eexists _, _. split; [apply (encrypt_run _ _ _ _ _ secret); [by apply (finds_reference g1 _ _ _ _ Hr1 Ho1 Hs1)|done]|].
  split; [|split; [apply law_cipher|apply entry_decrypt_run; [by apply (finds_reference g2 _ _ _ _ Hr2 Ho2 Hs2)|done]]].
  unfold entry_header_bytes. by rewrite length_app, law_tag, iv_of_length.
Qed.

(** ** The interface of the serialiser *)

(** The encryptor of a node in one state of its secrets. *)
Definition node_encryptor (s : LedgerSecrets) : Encryptor := {|
  header_length := get_header_length;
  enc_encrypt plain ad id t hint := match snd (encrypt plain ad id t hint s) with Ret r => r | Throw _ => None end;
  enc_decrypt cipher ad header version hint := match snd (decrypt cipher ad header version hint s) with Ret r => fst r | Throw _ => None end;
  enc_get_term header := match get_term header with Ret t => t | Throw _ => 0 end
|}.

Lemma set_iv_length id t h : set_iv id t (new_GcmHdr STANDARD_IV_SIZE) = (h, Ret tt) -> length (iv h) = STANDARD_IV_SIZE /\ tx_term id < 2 ^ 31.
Proof.
  unfold set_iv, set_iv_seq, set_iv_term. destruct (Z.ltb_spec (2 ^ 31 - 1) (tx_term id)); [done|]. intros E. split; [|lia]. revert E.
  case_bool_decide; intros [= <-]; reflexivity.
Qed.

(** What encryption returns, for any term. *)
Lemma encrypt_inv plain ad id t hint s header cipher :
  snd (encrypt plain ad id t hint s) = Ret (Some (header, cipher)) ->
  exists secret h, finds (tx_version id) hint secret s /\ set_iv id t (new_GcmHdr STANDARD_IV_SIZE) = (h, Ret tt) /\
    header = (aes_gcm_encrypt (key secret) (iv h) plain ad).2 ++ iv h /\ cipher = (aes_gcm_encrypt (key secret) (iv h) plain ad).1.
Proof.
  unfold encrypt. destruct (set_iv id t _) as [h [[]|]] eqn:E; [|done]. unfold get_encryption_key_for, mbind, ST_bind.
  destruct (get_secret_for_version (tx_version id) hint s) as [s' [[secret|]|]] eqn:Es; [|done..]. cbn [fmap option_fmap option_map mret ST_ret].
  intros H. exists secret, h. split; [by exists s'|]. split; [done|]. destruct (aes_gcm_encrypt _ _ _ _) as [c tg]. injection H as <- <-. done.
Qed.

#[export] Instance node_encryptor_laws s : EncryptorLaws (node_encryptor s).
Proof.
  split; cbn [node_encryptor enc_encrypt enc_decrypt enc_get_term header_length]; intros plain ad id t hint header cipher H;
    destruct (snd (encrypt plain ad id t hint s)) as [r|] eqn:E; try done; subst r;
    apply encrypt_inv in E as (secret & h & Hf & Hiv & -> & ->); pose proof Hiv as [Hlen Hterm]%set_iv_length.
  - rewrite length_app, law_tag, Hlen. split; [done|apply law_cipher].
  - destruct (finds_key _ _ _ _ Hf) as [s' Hk]. unfold decrypt. pose proof (law_tag (key secret) (iv h) plain ad) as Htg.
    pose proof (law_decrypt (key secret) (iv h) plain ad) as Hd. destruct (aes_gcm_encrypt _ _ _ _) as [c tg]. cbn [fst snd] in *.
    rewrite <- (app_nil_r (tg ++ iv h)). rewrite (gcm_header_read _ (MkGcmHdr tg (iv h))) by done. rewrite (run_bind _ _ _ _ _ Hk). exact Hd.
  - intros Hne Ht. rewrite set_iv_run in Hiv by done. injection Hiv as <-. cbn [iv]. fold (entry_header_bytes (key secret) id t plain ad).
    unfold get_term. rewrite header_read, header_term_iv by done. destruct (snapshot_bit_cases t) as [[? _]|[_ ->]]; [done|lia].
Qed.
End Encryption.

(** The primary has used both secrets in order; the other node reads an old entry for a query. *)
Lemma entries_decrypt_witness :
  let s1 := fst (run_secrets [Use 1; AddSecret 10 key_b; Use 9] (fst (init key_a 1 new_LedgerSecrets))) in
  let s2 := fst (run_secrets [AddSecret 10 key_b; Use 30] (fst (init key_a 1 new_LedgerSecrets))) in
  exists header cipher, snd (encrypt [7; 8] [1] (MkTxID 3 10) WriteSet false s1) = Ret (Some (header, cipher)) /\
    snd (decrypt cipher [1] header 10 true s2) = Ret (Some [7; 8], 3).
Proof.
  intros s1 s2.
  destruct (entries_decrypt (Some 9) (Some 30) s1 s2 false true [7; 8] [1] (MkTxID 3 10) WriteSet 10 10 key_b) as (header & cipher & H1 & _ & _ & H2).
  - split; [repeat constructor|]. exists (1, key_a). split; reflexivity.
  - split; [repeat constructor|]. exists (10, key_b). split; reflexivity.
  - right. split; [cbn; lia|]. vm_compute. lia.
  - left. reflexivity.
  - reflexivity.
  - reflexivity.
  - cbn. lia.
  - exists header, cipher. split; [exact H1|exact H2].
Defined.
