(* ===== verification/ShareManager.v ===== *)
(** Recovery shares: src/node/share_manager.h, src/node/secret_share.h, src/node/secret_broadcast.h, what they use of
    src/service/genesis_gen.h, and the hooks of src/node/node_state.h that set and collect ledger secrets.

    The tables are those a transaction sees: a value is written in the transaction or was written at a version before it.  The
    libraries are the classes [Sss] (Shamir's scheme), [Rsa] and [Entropy], whose draws are numbered; memory that is read
    before it is set is an argument. *)

From S2P Require Import Prelude Serialized SymmetricKey RaftTypes KvMap KvHandle KvSerialise KvStore KvTx LedgerSecrets.

(** ** The libraries *)

Class Entropy := random_bytes : nat -> nat -> bytes.

Class Sss := {
  (** A draw, the secret, the number of shares and the threshold. *)
  sss_create_shares : nat -> bytes -> nat -> nat -> list bytes;
  sss_combine_shares : list bytes -> option bytes
}.

Class Rsa := {
  (** A public key in PEM, a draw and the text; nothing when it throws. *)
  rsa_oaep_wrap : bytes -> nat -> bytes -> option bytes;
  (** A private key. *)
  rsa_oaep_unwrap : bytes -> bytes -> option bytes
}.

Definition SECRET_TO_SPLIT_LENGTH : nat := 64.
Definition SHARE_LENGTH : nat := 113.
Definition MAX_NUMBER_SHARES : nat := 255.

(** ** Tables *)

Record Table (A : Type) := MkTable { tb_state : option (A * Z); tb_write : option A }.
Arguments MkTable {A}.
Arguments tb_state {A}.
Arguments tb_write {A}.

Definition table_get {A} (t : Table A) : option A := match tb_write t with Some a => Some a | None => fst <$> tb_state t end.
Definition table_put {A} (a : A) (t : Table A) : Table A := MkTable (tb_state t) (Some a).
Definition table_version {A} (t : Table A) : option Z := snd <$> tb_state t.
(** When the transaction commits at [v]. *)
Definition table_commit {A} (v : Z) (t : Table A) : Table A :=
  match tb_write t with Some a => MkTable (Some (a, v)) None | None => t end.

Abbreviation MemberId := bytes.

Record RecoverySharesInfo := MkSharesInfo {
  wrapped_latest_ledger_secret : bytes;
  encrypted_shares : gmap MemberId bytes;
  rsi_previous_secret_stored_version : option Z
}.

Record PreviousLedgerSecretInfo := MkPreviousInfo {
  pls_encrypted_data : bytes;
  pls_version : Z;
  pls_previous_secret_stored_version : option Z
}.

Record EncryptedLedgerSecretInfo := MkSecretInfo {
  previous_ledger_secret : option PreviousLedgerSecretInfo;
  next_version : option Z
}.
#[export] Instance eta_SecretInfo : Settable EncryptedLedgerSecretInfo := fun r => MkSecretInfo (previous_ledger_secret r) (next_version r).

Inductive NodeStatus := NodePending | TRUSTED | RETIRED | LEARNER | RETIRING.
#[export] Instance NodeStatus_eq_dec : EqDecision NodeStatus.
Proof. solve_decision. Defined.

(** What the functions below use of a node: its secrets, the tables, and the number of draws so far. *)
Record Network := MkNetwork {
  nt_secrets : LedgerSecrets;
  nt_shares : Table RecoverySharesInfo;
  nt_encrypted_ledger_secrets : Table EncryptedLedgerSecretInfo;
  nt_secrets_table : Table LedgerSecretsForNodes;
  nt_submitted : gmap MemberId bytes;
  (** the threshold *)
  nt_config : option Z;
  nt_member_active : gmap MemberId bool;
  nt_member_encryption_public_keys : gmap MemberId bytes;
  (** status and encryption key *)
  nt_nodes : gmap bytes (NodeStatus * bytes);
  nt_has_service : bool;
  nt_draws : nat
}.
#[export] Instance eta_Network : Settable Network := fun r =>
  MkNetwork (nt_secrets r) (nt_shares r) (nt_encrypted_ledger_secrets r) (nt_secrets_table r) (nt_submitted r) (nt_config r) (nt_member_active r)
    (nt_member_encryption_public_keys r) (nt_nodes r) (nt_has_service r) (nt_draws r).

Definition NM : Type -> Type := ST Network.

Definition lift_outcome {S A} (o : outcome A) : ST S A := fun s => (s, o).

Section Shares.
Context `{Aead} `{Entropy} `{Sss} `{Rsa}.

Definition next_draw : NM nat := n ← get; modify (fun n => n <| nt_draws := S (nt_draws n) |>);; mret (nt_draws n).

(** ** [SecretSharing] *)

Definition split (secret_to_split : bytes) (n k : nat) : NM (list bytes) :=
  if (n =? 0)%nat || (MAX_NUMBER_SHARES <? n)%nat then throw (LogicError "Share creation failed: n not in range")
  else if (k =? 0)%nat || (n <? k)%nat then throw (LogicError "Share creation failed: k not in 1-n range")
  else d ← next_draw; mret (sss_create_shares d secret_to_split n k).

Definition combine (shares : list bytes) (k : nat) : outcome bytes :=
  if (k =? 0)%nat || (length shares <? k)%nat then Throw (LogicError "Share combination failed: k not in 1-n range")
  else match sss_combine_shares (take k shares) with
       | None => Throw (LogicError "Share combination failed: shares may be corrupted")
       | Some secret => Ret secret
       end.

(** ** [LedgerSecretWrappingKey] *)

Record LedgerSecretWrappingKey := MkWrappingKey { wk_data : bytes; has_wrapped : bool }.

Definition KZ_KEY_SIZE : nat := 32.

(** The array is longer than the key: the rest of it is what was in memory. *)
Definition get_raw_data (uninitialised : bytes) (k : LedgerSecretWrappingKey) : bytes :=
  wk_data k ++ drop (length (wk_data k)) uninitialised.

Definition wrap (ledger_secret : LedgerSecret) : ST LedgerSecretWrappingKey bytes :=
  k ← get;
  if has_wrapped k then throw (LogicError "Ledger secret wrapping key has already wrapped once")
  else
    key ← lift_outcome (make_key_aes_gcm (wk_data k));
    let iv := iv (new_GcmHdr STANDARD_IV_SIZE) in
    let '(cipher, tag) := aes_gcm_encrypt key iv (raw_key ledger_secret) [] in
    modify (fun k => MkWrappingKey (wk_data k) true);;
    mret (gc_serialise (MkGcmCipher (MkGcmHdr tag iv) cipher)).

Definition unwrap (k : LedgerSecretWrappingKey) (wrapped : bytes) : outcome LedgerSecret :=
  match gc_deserialise wrapped, make_key_aes_gcm (wk_data k) with
  | (_, Throw e), _ | _, Throw e => Throw e
  | (_, Ret c), Ret key =>
      match aes_gcm_decrypt key (iv (gc_hdr c)) (tag (gc_hdr c)) (gc_cipher c) [] with
      | Some raw => new_LedgerSecret raw None
      | None => Throw (LogicError "Unwrapping latest ledger secret failed")
      end
  end.

(** ** [GenesisGenerator] *)

(** The members with an encryption key that are active, in the order of the table. *)
Definition get_active_recovery_members : NM (list (MemberId * bytes)) :=
  n ← get;
  let members := ordered (nt_member_encryption_public_keys n) in
  if forallb (fun m => bool_decide (is_Some (nt_member_active n !! m.1))) members then
    mret (List.filter (fun m => default false (nt_member_active n !! m.1)) members)
  else throw (LogicError "Recovery member has no member info").

Definition get_recovery_threshold : NM Z :=
  n ← get;
  match nt_config n with
  | None => throw (LogicError "Failed to get recovery threshold: No active configuration found")
  | Some k => mret k
  end.

Definition get_trusted_and_learner_nodes (self_to_exclude : option bytes) (n : Network) : list (bytes * bytes) :=
  (fun e : bytes * (NodeStatus * bytes) => (e.1, e.2.2)) <$>
    List.filter (fun e => (bool_decide (e.2.1 = TRUSTED) || bool_decide (e.2.1 = LEARNER)) && negb (bool_decide (self_to_exclude = Some e.1)))
      (ordered (nt_nodes n)).

(** ** [ShareManager] *)

(** One share for each member, in the order of the map. *)
Fixpoint wrap_shares (members : list (MemberId * bytes)) (shares : list bytes) : NM (gmap MemberId bytes) :=
  match members with
  | [] => mret ∅
  | (member_id, enc_pub_key) :: members =>
      match shares with
      | [] => throw UndefinedBehaviour
      | share :: shares =>
          d ← next_draw;
          match rsa_oaep_wrap enc_pub_key d share with
          | None => throw StdException
          | Some wrapped => rest ← wrap_shares members shares; mret (<[member_id := wrapped]> rest)
          end
      end
  end.

Definition compute_encrypted_shares (uninitialised : bytes) (ls_wrapping_key : LedgerSecretWrappingKey) : NM (gmap MemberId bytes) :=
  members ← get_active_recovery_members;
  recovery_threshold ← get_recovery_threshold;
  if (length members =? 0)%nat then throw (LogicError "There should be at least one active recovery member to issue recovery shares")
  else if recovery_threshold =? 0 then throw (LogicError "Recovery threshold should be set before recovery shares are computed")
  else
    shares ← split (get_raw_data uninitialised ls_wrapping_key) (length members) (Z.to_nat recovery_threshold);
    wrap_shares members shares.

Definition shuffle_shares_of (uninitialised : bytes) (latest_ledger_secret : LedgerSecret) : NM unit :=
  d ← next_draw;
  match wrap latest_ledger_secret (MkWrappingKey (random_bytes d KZ_KEY_SIZE) false) with
  | (_, Throw e) => throw e
  | (ls_wrapping_key, Ret wrapped_latest_ls) =>
      shares ← compute_encrypted_shares uninitialised ls_wrapping_key;
      modify (fun n => n <| nt_shares := table_put (MkSharesInfo wrapped_latest_ls shares
        (previous_secret_stored_version latest_ledger_secret)) (nt_shares n) |>)
  end.

(** A secret encrypted with another under a random IV. *)
Definition encrypt_with (key plain : bytes) : NM bytes :=
  d ← next_draw;
  let iv := random_bytes d STANDARD_IV_SIZE in
  let '(cipher, tag) := aes_gcm_encrypt key iv plain [] in
  mret (gc_serialise (MkGcmCipher (MkGcmHdr tag iv) cipher)).

Definition set_recovery_shares_info (uninitialised : bytes) (latest_ledger_secret : LedgerSecret)
    (previous_ledger_secret : option VersionedLedgerSecret) (latest_ls_version : option Z) : NM unit :=
  shuffle_shares_of uninitialised latest_ledger_secret;;
  match previous_ledger_secret with
  | Some (version_previous_secret, previous) =>
      encrypted_previous_secret ← encrypt_with (key latest_ledger_secret) (raw_key previous);
      modify (fun n => n <| nt_encrypted_ledger_secrets :=
        table_put (MkSecretInfo (Some (MkPreviousInfo encrypted_previous_secret version_previous_secret
          (table_version (nt_encrypted_ledger_secrets n)))) latest_ls_version) (nt_encrypted_ledger_secrets n) |>)
  | None =>
      modify (fun n => n <| nt_encrypted_ledger_secrets :=
        table_put (MkSecretInfo None latest_ls_version) (nt_encrypted_ledger_secrets n) |>)
  end.

Definition encrypt_submitted_share (submitted_share : bytes) (current_ledger_secret : LedgerSecret) : NM bytes :=
  encrypt_with (key current_ledger_secret) submitted_share.

(** The plain text is left empty when decryption fails. *)
Definition decrypt_submitted_share (encrypted_submitted_share : bytes) (current_ledger_secret : LedgerSecret) : outcome bytes :=
  match gc_deserialise encrypted_submitted_share with
  | (_, Throw e) => Throw e
  | (_, Ret c) => Ret (default [] (aes_gcm_decrypt (key current_ledger_secret) (iv (gc_hdr c)) (tag (gc_hdr c)) (gc_cipher c) []))
  end.

(** As many bytes as a share has are copied from the plain text. *)
Fixpoint collect_shares (submitted : list (MemberId * bytes)) : NM (list bytes) :=
  match submitted with
  | [] => mret []
  | (_, encrypted_share) :: submitted =>
      latest ← zoom nt_secrets latest_secret;
      decrypted_share ← lift_outcome (decrypt_submitted_share encrypted_share latest.2);
      if (length decrypted_share <? SHARE_LENGTH)%nat then throw UndefinedBehaviour
      else rest ← collect_shares submitted; mret (take SHARE_LENGTH decrypted_share :: rest)
  end.

Definition combine_from_encrypted_submitted_shares : NM LedgerSecretWrappingKey :=
  n ← get;
  shares ← collect_shares (ordered (nt_submitted n));
  match nt_config n with
  | None => throw UndefinedBehaviour
  | Some recovery_threshold =>
      if Z.of_nat (length shares) <? recovery_threshold then throw (LogicError "Error combining recovery shares: only some recovery shares were submitted")
      else secret ← lift_outcome (combine shares (length shares)); mret (MkWrappingKey secret false)
  end.

Definition issue_recovery_shares (uninitialised : bytes) : NM unit :=
  '(latest, penultimate) ← zoom nt_secrets latest_and_penultimate;
  set_recovery_shares_info uninitialised latest.2 penultimate (Some latest.1).

(** The overload for a new secret. *)
Definition issue_recovery_shares_for (uninitialised : bytes) (new_ledger_secret : LedgerSecret) : NM unit :=
  latest ← zoom nt_secrets latest_secret;
  set_recovery_shares_info uninitialised new_ledger_secret (Some latest) None.

Definition shuffle_recovery_shares (uninitialised : bytes) : NM unit :=
  latest ← zoom nt_secrets latest_secret;
  shuffle_shares_of uninitialised latest.2.

Definition get_encrypted_share (member_id : MemberId) : NM (option bytes) :=
  n ← get;
  match table_get (nt_shares n) with
  | None => throw (LogicError "Failed to retrieve current recovery shares info")
  | Some info => mret (encrypted_shares info !! member_id)
  end.

(** From the latest secret back to the first. *)
Fixpoint restore_loop (infos : list EncryptedLedgerSecretInfo) (latest_ls : LedgerSecret) (restored : LedgerSecretsMap) : outcome LedgerSecretsMap :=
  match infos with
  | [] => Ret restored
  | info :: infos =>
      match previous_ledger_secret info with
      | None => Ret restored
      | Some p =>
          match decrypt_previous_ledger_secret_raw latest_ls (pls_encrypted_data p) with
          | Throw e => Throw e
          | Ret raw =>
              match new_LedgerSecret raw (pls_previous_secret_stored_version p) with
              | Throw e => Throw e
              | Ret secret =>
                  let restored := emplace (pls_version p) secret restored in
                  restore_loop infos (from_option snd secret (find_secret (pls_version p) restored)) restored
              end
          end
      end
  end.

Definition restore_recovery_shares_info (recovery_ledger_secrets : list EncryptedLedgerSecretInfo) : NM LedgerSecretsMap :=
  n ← get;
  match last recovery_ledger_secrets, table_get (nt_shares n) with
  | None, _ => throw (LogicError "No recovery ledger secrets")
  | _, None => throw (LogicError "Failed to retrieve current recovery shares info")
  | Some back, Some recovery_shares_info =>
      wrapping_key ← combine_from_encrypted_submitted_shares;
      restored_ls ← lift_outcome (unwrap wrapping_key (wrapped_latest_ledger_secret recovery_shares_info));
      match next_version back with
      | None => throw (LogicError "Current ledger secret version should be set")
      | Some current_ledger_secret_version =>
          latest_ls ← lift_outcome (new_LedgerSecret (raw_key restored_ls) (table_version (nt_encrypted_ledger_secrets n)));
          lift_outcome (restore_loop (reverse recovery_ledger_secrets) latest_ls [(current_ledger_secret_version, latest_ls)])
      end
  end.

(** The number of shares submitted. *)
Definition submit_recovery_share (member_id : MemberId) (submitted_recovery_share : bytes) : NM Z :=
  n ← get;
  if negb (nt_has_service n) then throw (LogicError "Failed to get active service")
  else
    latest ← zoom nt_secrets latest_secret;
    share ← encrypt_submitted_share submitted_recovery_share latest.2;
    modify (fun n => n <| nt_submitted := <[member_id := share]> (nt_submitted n) |>);;
    n ← get;
    mret (Z.of_nat (base.size (nt_submitted n))).

Definition clear_submitted_recovery_shares : NM unit := modify (fun n => n <| nt_submitted := ∅ |>).

(** ** [LedgerSecretsBroadcast] *)

Fixpoint wrap_secrets (enc_pub_key : bytes) (secrets : list (option Z * LedgerSecret)) : NM (list EncryptedLedgerSecret) :=
  match secrets with
  | [] => mret []
  | (v, s) :: secrets =>
      d ← next_draw;
      match rsa_oaep_wrap enc_pub_key d (raw_key s) with
      | None => throw StdException
      | Some wrapped => rest ← wrap_secrets enc_pub_key secrets; mret (MkEncryptedLedgerSecret v wrapped (previous_secret_stored_version s) :: rest)
      end
  end.

Fixpoint secrets_for_nodes (nodes : list (bytes * bytes)) (secrets : list (option Z * LedgerSecret)) : NM LedgerSecretsForNodes :=
  match nodes with
  | [] => mret ∅
  | (nid, enc_pub_key) :: nodes =>
      l ← wrap_secrets enc_pub_key secrets; rest ← secrets_for_nodes nodes secrets; mret (<[nid := l]> rest)
  end.

Definition broadcast_some (self : bytes) (some_ledger_secrets : LedgerSecretsMap) : NM unit :=
  n ← get;
  for_nodes ← secrets_for_nodes (get_trusted_and_learner_nodes (Some self) n) ((fun e : VersionedLedgerSecret => (Some e.1, e.2)) <$> some_ledger_secrets);
  modify (fun n => n <| nt_secrets_table := table_put for_nodes (nt_secrets_table n) |>).

Definition broadcast_new (new_ledger_secret : LedgerSecret) : NM unit :=
  n ← get;
  for_nodes ← secrets_for_nodes (get_trusted_and_learner_nodes None n) [(None, new_ledger_secret)];
  modify (fun n => n <| nt_secrets_table := table_put for_nodes (nt_secrets_table n) |>).

Definition decrypt_broadcast (encryption_key cipher : bytes) : outcome bytes :=
  match rsa_oaep_unwrap encryption_key cipher with Some raw => Ret raw | None => Throw StdException end.

(** ** The node *)

(** [rekey_ledger] of a node that is part of a network; [service_open] is the status in the table of the service. *)
Definition rekey_ledger (uninitialised : bytes) (service_open : bool) : NM bool :=
  if negb service_open then mret false
  else
    d ← next_draw;
    new_ledger_secret ← lift_outcome (new_LedgerSecret (random_bytes d 32) None);
    issue_recovery_shares_for uninitialised new_ledger_secret;;
    broadcast_new new_ledger_secret;;
    mret true.

Definition initiate_private_recovery (self : bytes) (recovered_encrypted_ledger_secrets : list EncryptedLedgerSecretInfo) : NM LedgerSecretsMap :=
  recovered_ledger_secrets ← restore_recovery_shares_info recovered_encrypted_ledger_secrets;
  broadcast_some self recovered_ledger_secrets;;
  mret recovered_ledger_secrets.

Fixpoint apply_new_secrets (encryption_key : bytes) (hook_version : Z) (l : list EncryptedLedgerSecret) : LS unit :=
  match l with
  | [] => skip
  | e :: l =>
      plain ← lift_outcome (decrypt_broadcast encryption_key (encrypted_secret e));
      secret ← lift_outcome (new_LedgerSecret plain (Some hook_version));
      set_secret (u64 (hook_version + 1)) secret;;
      apply_new_secrets encryption_key hook_version l
  end.

(** The hook on the table of secrets: a secret that a rekey wrote at [hook_version] is used from the next version on. *)
Definition secrets_hook (self encryption_key : bytes) (part_of_network : bool) (hook_version : Z) (w : option LedgerSecretsForNodes) : LS unit :=
  if negb part_of_network then skip
  else match w with
       | None => throw (LogicError "Unexpected removal from table")
       | Some for_nodes => match for_nodes !! self with None => skip | Some l => apply_new_secrets encryption_key hook_version l end
       end.

Fixpoint read_restored (encryption_key : bytes) (l : list EncryptedLedgerSecret) (restored : LedgerSecretsMap) : outcome LedgerSecretsMap :=
  match l with
  | [] => Ret restored
  | e :: l =>
      match els_version e, decrypt_broadcast encryption_key (encrypted_secret e) with
      | None, _ => Throw (LogicError "Commit hook: no version for encrypted ledger secret")
      | _, Throw x => Throw x
      | Some v, Ret plain =>
          match new_LedgerSecret plain (els_previous_secret_stored_version e) with
          | Throw x => Throw x
          | Ret secret => read_restored encryption_key l (emplace v secret restored)
          end
      end
  end.

(** The global hook on that table, on a node of a public network: whether private recovery is to start. *)
Definition secrets_global_hook (self encryption_key : bytes) (part_of_public_network : bool) (w : option LedgerSecretsForNodes) : LS bool :=
  if negb part_of_public_network then mret false
  else match w with
       | None => throw (LogicError "Unexpected removal from table")
       | Some for_nodes =>
           match for_nodes !! self with
           | None => mret false
           | Some l =>
               restored ← lift_outcome (read_restored encryption_key l []);
               match restored with [] => mret false | _ => restore_historical restored;; mret true end
           end
       end.

(** The hook of [setup_recovery_hook], which collects what the table holds. *)
Definition recovery_hook (version : Z) (w : option EncryptedLedgerSecretInfo) : ST (list EncryptedLedgerSecretInfo) unit :=
  match w with
  | None => throw (LogicError "Unexpected removal from table")
  | Some info =>
      let info := match next_version info with Some _ => info | None => info <| next_version := Some (u64 (version + 1)) |> end in
      modify (fun l => l ++ [info])
  end.

(** The hook of [setup_one_off_secret_hook]. *)
Definition one_off_secret_hook (version : Z) (w : option EncryptedLedgerSecretInfo) : LS unit :=
  match w with
  | None => throw (LogicError "Unexpected removal from table")
  | Some _ => adjust_previous_secret_stored_version version
  end.
End Shares.
