(* ===== verification/ShareManagerProps.v ===== *)
(** Recovery shares keep the ledger secrets: whatever rekeys and reissues of shares a service has seen, enough of its members
    bring back all of its secrets. *)

From S2P Require Import Prelude Serialized SymmetricKey RaftTypes KvMap KvHandle KvSerialise KvStore KvTx LedgerSecrets LedgerSecretsProps ShareManager.

(** What the libraries promise. *)
Class SharesLaws `{Ae : Aead} `{En : Entropy} `{Ss : Sss} `{Rs : Rsa} := {
  shares_aead :: AeadLaws Ae;
  law_entropy d n : length (random_bytes d n) = n;
  law_number d s n k : length (sss_create_shares d s n k) = n;
  law_share_length d s n k x : x ∈ sss_create_shares d s n k -> length x = SHARE_LENGTH;
  (** Any shares, as many as the threshold or more, and in any order. *)
  law_combine d s n k (idxs : list nat) shares :
    length s = SECRET_TO_SPLIT_LENGTH -> (0 < k <= n)%nat -> (n <= MAX_NUMBER_SHARES)%nat -> NoDup idxs -> (k <= length idxs)%nat ->
    Forall2 (fun i x => sss_create_shares d s n k !! i = Some x) idxs shares -> sss_combine_shares shares = Some s;
  public_key_of : bytes -> bytes;
  law_rsa sk d x : exists c, rsa_oaep_wrap (public_key_of sk) d x = Some c /\ rsa_oaep_unwrap sk c = Some x
}.

Section Shares.
Context `{SL : SharesLaws}.

(** ** Encrypted values *)

Lemma zero_iv_length : length (iv (new_GcmHdr STANDARD_IV_SIZE)) = STANDARD_IV_SIZE.
Proof. reflexivity. Qed.

(** A text encrypted under an IV of the right length is read back. *)
Lemma gc_decrypts k iv plain :
  length iv = STANDARD_IV_SIZE ->
  let ct := aes_gcm_encrypt k iv plain [] in
  exists c, gc_deserialise (gc_serialise (MkGcmCipher (MkGcmHdr ct.2 iv) ct.1)) = ([], Ret c) /\
    aes_gcm_decrypt k (SymmetricKey.iv (gc_hdr c)) (tag (gc_hdr c)) (gc_cipher c) [] = Some plain.
Proof.
  intros Hiv ct. exists (MkGcmCipher (MkGcmHdr ct.2 iv) ct.1). split; [apply gc_round_trip; [apply law_tag|done]|].
  cbn [gc_hdr gc_cipher tag SymmetricKey.iv]. pose proof (law_decrypt k iv plain []) as Hd. fold ct in Hd. by destruct ct.
Qed.

Lemma encrypt_with_run k plain n :
  exists data, encrypt_with k plain n = (n <| nt_draws := S (nt_draws n) |>, Ret data) /\
    exists c, gc_deserialise data = ([], Ret c) /\ aes_gcm_decrypt k (iv (gc_hdr c)) (tag (gc_hdr c)) (gc_cipher c) [] = Some plain.
Proof.
  unfold encrypt_with, next_draw, mbind, ST_bind, get, modify, mret, ST_ret.
  pose proof (gc_decrypts k (random_bytes (nt_draws n) STANDARD_IV_SIZE) plain (law_entropy _ _)) as (c & Hc & Hd).
  destruct (aes_gcm_encrypt _ _ _ _) as [cipher tg]. cbn [fst snd] in *. eexists. split; [done|]. by exists c.
Qed.

(** A secret is what its constructor makes of its raw key. *)
Definition wf_secret (s : LedgerSecret) : Prop := new_LedgerSecret (raw_key s) (previous_secret_stored_version s) = Ret s.

Lemma wf_secret_renewed s v : wf_secret s -> new_LedgerSecret (raw_key s) v = Ret (s <| previous_secret_stored_version := v |>).
Proof.
  unfold wf_secret, new_LedgerSecret. destruct (make_key_aes_gcm (raw_key s)) as [k|]; [|done]. intros [= E]. f_equal.
  destruct s as [raw key p]. cbn in *. by injection E as ->.
Qed.

Lemma wf_renewed s v : wf_secret s -> wf_secret (s <| previous_secret_stored_version := v |>).
Proof. intros H. exact (wf_secret_renewed s v H). Qed.

Lemma new_secret_wf raw v s : new_LedgerSecret raw v = Ret s -> wf_secret s /\ raw_key s = raw /\ previous_secret_stored_version s = v.
Proof.
  unfold wf_secret, new_LedgerSecret. destruct (make_key_aes_gcm raw) as [k|] eqn:E; [|done]. intros [= <-]. cbn. by rewrite E.
Qed.

(** ** Issuing shares *)

(** [n'] is [n] but for the draws. *)
Definition only_draws (n n' : Network) : Prop := n' = n <| nt_draws := nt_draws n' |>.

Lemma only_draws_refl n : only_draws n n.
Proof. by destruct n. Qed.

Lemma only_draws_trans n1 n2 n3 : only_draws n1 n2 -> only_draws n2 n3 -> only_draws n1 n3.
Proof. unfold only_draws. intros H1 H2. rewrite H2, H1. done. Qed.

Lemma next_draw_only n : only_draws n (n <| nt_draws := S (nt_draws n) |>).
Proof. by destruct n. Qed.

Lemma wrap_shares_inv members shares n n' enc :
  wrap_shares members shares n = (n', Ret enc) -> NoDup members.*1 ->
  only_draws n n' /\ dom enc = list_to_set members.*1 /\
  forall i m pk, members !! i = Some (m, pk) -> exists share c d, shares !! i = Some share /\ enc !! m = Some c /\ rsa_oaep_wrap pk d share = Some c.
Proof.
  revert shares n n' enc. induction members as [|[m pk] members IH]; intros shares n n' enc H Hnd; cbn in H.
  { injection H as <- <-. split; [apply only_draws_refl|]. split; [done|]. by intros []. }
  destruct shares as [|share shares]; [done|]. unfold next_draw, mbind, ST_bind, get, modify, mret, ST_ret in H. cbn beta iota in H.
  destruct (rsa_oaep_wrap pk (nt_draws n) share) as [c|] eqn:Ec; [|done].
  destruct (wrap_shares members shares _) as [n1 [rest|]] eqn:Er; [|done]. injection H as <- <-. apply NoDup_cons in Hnd as [Hm Hnd].
  destruct (IH _ _ _ _ Er Hnd) as (Ho & Hdom & Hin). split; [eapply only_draws_trans; [apply next_draw_only|done]|]. split.
  - rewrite dom_insert_L, Hdom. done.
  - intros [|i] m' pk'; cbn.
    + intros [= <- <-]. exists share, c, (nt_draws n). by rewrite lookup_insert_eq.
    + intros Hi. destruct (Hin i m' pk' Hi) as (sh & c' & d & H1 & H2 & H3). exists sh, c', d. split; [done|]. split; [|done].
      rewrite lookup_insert_ne; [done|]. intros <-. apply Hm. apply list_elem_of_fmap. exists (m, pk'). split; [done|]. by apply list_elem_of_lookup_2 with i.
Qed.

Definition active_members (n : Network) : list (MemberId * bytes) :=
  List.filter (fun m => default false (nt_member_active n !! m.1)) (ordered (nt_member_encryption_public_keys n)).

Lemma list_filter_sublist {A} (p : A -> bool) l : sublist (List.filter p l) l.
Proof. induction l as [|x l IH]; cbn; [constructor|]. destruct (p x); by constructor. Qed.

Lemma active_members_NoDup n : NoDup (active_members n).*1.
Proof.
  unfold active_members. eapply (sublist_NoDup _ (ordered (nt_member_encryption_public_keys n)).*1).
  - apply ordered_NoDup.
  - apply fmap_sublist, list_filter_sublist.
Qed.

(** [info] holds shares for [members], of which [k] bring back [s]. *)
Definition shares_for (info : RecoverySharesInfo) (s : LedgerSecret) (k : nat) (members : list (MemberId * bytes)) : Prop :=
  exists d kz rest iv, length kz = KZ_KEY_SIZE /\ length (kz ++ rest) = SECRET_TO_SPLIT_LENGTH /\ length iv = STANDARD_IV_SIZE /\
    (let ct := aes_gcm_encrypt kz iv (raw_key s) [] in
     wrapped_latest_ledger_secret info = gc_serialise (MkGcmCipher (MkGcmHdr ct.2 iv) ct.1)) /\
    (0 < k <= length members)%nat /\ (length members <= MAX_NUMBER_SHARES)%nat /\ NoDup members.*1 /\
    forall i m pk, members !! i = Some (m, pk) -> exists share c d',
      sss_create_shares d (kz ++ rest) (length members) k !! i = Some share /\ encrypted_shares info !! m = Some c /\
      rsa_oaep_wrap pk d' share = Some c.

Lemma make_key_32 kz rest : length kz = 32%nat -> make_key_aes_gcm (kz ++ rest) = Ret kz.
Proof.
  intros H. unfold make_key_aes_gcm. rewrite length_app, H. cbn [Nat.leb Nat.add]. f_equal. rewrite <- H. apply take_app_length.
Qed.

Lemma wrap_run s kz :
  length kz = KZ_KEY_SIZE ->
  let iv := iv (new_GcmHdr STANDARD_IV_SIZE) in let ct := aes_gcm_encrypt kz iv (raw_key s) [] in
  wrap s (MkWrappingKey kz false) = (MkWrappingKey kz true, Ret (gc_serialise (MkGcmCipher (MkGcmHdr ct.2 iv) ct.1))).
Proof.
  intros Hk iv0 ct. unfold wrap, mbind at 1, ST_bind at 1, get at 1. cbn [has_wrapped wk_data]. pose proof (make_key_32 kz [] Hk) as Hm. rewrite app_nil_r in Hm.
  rewrite Hm. unfold lift_outcome, mbind at 1, ST_bind at 1. fold iv0. fold ct. by destruct ct.
Qed.

Lemma compute_inv u kz b n n' enc :
  compute_encrypted_shares u (MkWrappingKey kz b) n = (n', Ret enc) ->
  exists k d, nt_config n = Some (Z.of_nat k) /\ (0 < k <= length (active_members n))%nat /\ (length (active_members n) <= MAX_NUMBER_SHARES)%nat /\
    only_draws n n' /\
    forall i m pk, active_members n !! i = Some (m, pk) -> exists share c d',
      sss_create_shares d (kz ++ drop (length kz) u) (length (active_members n)) k !! i = Some share /\ enc !! m = Some c /\
      rsa_oaep_wrap pk d' share = Some c.
Proof.
  unfold compute_encrypted_shares, get_active_recovery_members, get_recovery_threshold, split, next_draw.
  unfold mbind at 1, ST_bind at 1. unfold mbind at 1, ST_bind at 1, get at 1. destruct (forallb _ _); [|done].
  fold (active_members n). unfold mret at 1, ST_ret at 1. unfold mbind at 1, ST_bind at 1. unfold mbind at 1, ST_bind at 1, get at 1.
  destruct (nt_config n) as [t|]; [|done]. unfold mret at 1, ST_ret at 1. destruct (Nat.eqb_spec (length (active_members n)) 0); [done|].
  destruct (Z.eqb_spec t 0); [done|]. unfold mbind at 1, ST_bind at 1. destruct (Nat.ltb_spec MAX_NUMBER_SHARES (length (active_members n))); [done|].
  destruct (Nat.eqb_spec (Z.to_nat t) 0); [done|]. destruct (Nat.ltb_spec (length (active_members n)) (Z.to_nat t)); [done|]. cbn [orb].
  intros Hrun. apply wrap_shares_inv in Hrun as (Ho & _ & Hin); [|apply active_members_NoDup].
  exists (Z.to_nat t), (nt_draws n). split_and!; [f_equal; lia|lia|lia|done|by eapply only_draws_trans; [apply next_draw_only|]|]. done.
Qed.

Lemma shuffle_inv u s n n' :
  length u = SECRET_TO_SPLIT_LENGTH -> shuffle_shares_of u s n = (n', Ret tt) ->
  exists info k, shares_for info s k (active_members n) /\ nt_config n = Some (Z.of_nat k) /\
    n' = n <| nt_shares := table_put info (nt_shares n) |> <| nt_draws := nt_draws n' |>.
Proof.
  intros Hu H. unfold shuffle_shares_of in H. unfold mbind at 1, ST_bind at 1, next_draw at 1 in H.
  unfold mbind at 1, ST_bind at 1, get at 1 in H. unfold mbind at 1, ST_bind at 1, modify at 1, mret at 1, ST_ret at 1 in H.
  set (kz := random_bytes (nt_draws n) KZ_KEY_SIZE) in H. assert (length kz = KZ_KEY_SIZE) as Hkz by apply law_entropy. clearbody kz.
  rewrite wrap_run in H by done. unfold mbind, ST_bind in H.
  destruct (compute_encrypted_shares _ _ _) as [n1 [enc|]] eqn:E; [|done]. apply compute_inv in E as (k & d & Hc & Hk & Hn & Ho & Hin).
  injection H as <-. refine (ex_intro _ _ (ex_intro _ k (conj _ (conj Hc _)))); [|rewrite Ho; destruct n; reflexivity].
  exists d, kz, (drop (length kz) u), (iv (new_GcmHdr STANDARD_IV_SIZE)). split_and!; [done| |done|reflexivity|apply Hk|apply Hk|exact Hn|apply active_members_NoDup|exact Hin].
    rewrite length_app, length_drop, Hkz, Hu. done.
Qed.

(** ** Submitting shares *)

Fixpoint submit_all (subs : list (MemberId * bytes)) : NM unit :=
  match subs with
  | [] => skip
  | (m, share) :: subs => submit_recovery_share m share;; submit_all subs
  end.

(** A node on which shares can be submitted, encrypted with [latest]. *)
Definition collecting (latest : VersionedLedgerSecret) (r : Network) : Prop :=
  nt_has_service r = true /\ last (ledger_secrets (nt_secrets r)) = Some latest.

Lemma zoom_latest latest n : last (ledger_secrets (nt_secrets n)) = Some latest -> zoom nt_secrets latest_secret n = (n, Ret latest).
Proof. intros H. rewrite (run_zoom _ _ _ (nt_secrets n) (Ret latest)); [by destruct n|]. unfold latest_secret, mbind, ST_bind, get. by rewrite H. Qed.

Lemma latest_run latest r : collecting latest r -> zoom nt_secrets latest_secret r = (r, Ret latest).
Proof. intros [_ H]. by apply zoom_latest. Qed.

Definition with_submitted (x : gmap MemberId bytes) (d : nat) (r : Network) : Network := r <| nt_submitted := x |> <| nt_draws := d |>.

Lemma submit_run latest m share r :
  collecting latest r ->
  exists c, submit_recovery_share m share r =
      (with_submitted (<[m := c]> (nt_submitted r)) (S (nt_draws r)) r, Ret (Z.of_nat (size (<[m := c]> (nt_submitted r))))) /\
    decrypt_submitted_share c latest.2 = Ret share.
Proof.
  intros Hc. unfold submit_recovery_share, mbind at 1, ST_bind at 1, get at 1. rewrite (proj1 Hc). cbn [negb].
  rewrite (run_bind _ _ _ _ _ (latest_run latest r Hc)). unfold encrypt_submitted_share.
  destruct (encrypt_with_run (key latest.2) share r) as (data & Hrun & c & Hd & Hdec). rewrite (run_bind _ _ _ _ _ Hrun).
  exists data. split; [by destruct r|]. unfold decrypt_submitted_share. by rewrite Hd, Hdec.
Qed.

Lemma submit_all_run latest subs r :
  collecting latest r -> NoDup subs.*1 ->
  exists x d, submit_all subs r = (with_submitted x d r, Ret tt) /\ dom x = dom (nt_submitted r) ∪ list_to_set subs.*1 /\
    (forall m, m ∉ subs.*1 -> x !! m = nt_submitted r !! m) /\
    forall m share, (m, share) ∈ subs -> exists c, x !! m = Some c /\ decrypt_submitted_share c latest.2 = Ret share.
Proof.
  revert r. induction subs as [|[m share] subs IH]; intros r Hc Hnd; cbn [submit_all].
  { exists (nt_submitted r), (nt_draws r). split; [by destruct r|]. split; [cbn; by rewrite union_empty_r_L|]. split; [done|]. by intros ? ? ?%not_elem_of_nil. }
  apply NoDup_cons in Hnd as [Hm Hnd]. destruct (submit_run latest m share r Hc) as (c & Hrun & Hdec). rewrite (run_bind _ _ _ _ _ Hrun).
  destruct (IH (with_submitted (<[m := c]> (nt_submitted r)) (S (nt_draws r)) r)) as (x & d & -> & Hdom & Hout & Hin); [done|done|].
  exists x, d. split; [by destruct r|]. split; [rewrite Hdom; cbn [nt_submitted with_submitted set fmap list_fmap list_to_set fst]|split].
  - cbn. by rewrite dom_insert_L, (union_comm_L {[ m ]}), union_assoc_L.
  - cbn. intros m' [Hne Hm']%not_elem_of_cons. rewrite Hout by done. cbn. by rewrite lookup_insert_ne.
  - intros m' share' [[= -> ->]|Hin']%elem_of_cons; [|by apply Hin]. exists c. split; [|done]. rewrite Hout by done. apply lookup_insert_eq.
Qed.

(** ** Combining them *)

Lemma Forall_choose {A B} (P : A -> B -> Prop) (l : list A) : Forall (fun a => exists b, P a b) l -> exists lb, Forall2 P l lb.
Proof.
  induction 1 as [|a l [b Hb] _ [lb IH]]; [exists []; constructor|]. exists (b :: lb). by constructor.
Qed.

Lemma collect_run latest l r :
  collecting latest r ->
  forall shares, Forall2 (fun e x => decrypt_submitted_share e.2 latest.2 = Ret x /\ length x = SHARE_LENGTH) l shares ->
  collect_shares l r = (r, Ret shares).
Proof.
  intros Hc. induction l as [|[m c] l IH]; intros shares Hall; inversion Hall as [|? x ? xs [Hd Hlen] Hrest]; subst; [done|].
  cbn [collect_shares]. rewrite (run_bind _ _ _ _ _ (latest_run latest r Hc)). unfold lift_outcome at 1, mbind at 1, ST_bind at 1. cbn [snd] in Hd. rewrite Hd.
  destruct (Nat.ltb_spec (length x) SHARE_LENGTH); [lia|]. rewrite (run_bind _ _ _ _ _ (IH xs Hrest)). by rewrite take_ge by lia.
Qed.

(** The shares that members submit are those that were made for them. *)
Definition genuine (d : nat) (s : bytes) (k : nat) (members : list (MemberId * bytes)) (e : MemberId * bytes) : Prop :=
  exists i pk, members !! i = Some (e.1, pk) /\ sss_create_shares d s (length members) k !! i = Some e.2.

Lemma genuine_combine d s k members (l : list (MemberId * bytes)) shares :
  length s = SECRET_TO_SPLIT_LENGTH -> (0 < k <= length members)%nat -> (length members <= MAX_NUMBER_SHARES)%nat -> (k <= length l)%nat ->
  NoDup l.*1 -> Forall2 (fun e x => genuine d s k members (e.1, x)) l shares -> sss_combine_shares shares = Some s.
Proof.
  intros Hs Hk Hn Hl Hnd Hall.
  assert (exists idxs, Forall2 (fun e i => exists pk, members !! i = Some (e.1, pk)) l idxs /\
    Forall2 (fun i x => sss_create_shares d s (length members) k !! i = Some x) idxs shares) as (idxs & Hidx & Hsh).
  { clear Hl Hnd. induction Hall as [|e x l shares (i & pk & Hi & Hx) _ (idxs & H1 & H2)]; [exists []; by split|].
    exists (i :: idxs). split; constructor; [by exists pk|done..]. }
  apply (law_combine d s (length members) k idxs); [done|done|done| |by rewrite <- (Forall2_length _ _ _ Hidx)|done].
  apply NoDup_alt. intros a b i Ha Hb. rewrite NoDup_alt in Hnd.
  destruct (Forall2_lookup_r _ _ _ _ _ Hidx Ha) as (ea & Hla & pka & Hma), (Forall2_lookup_r _ _ _ _ _ Hidx Hb) as (eb & Hlb & pkb & Hmb).
  apply (Hnd a b ea.1); rewrite list_lookup_fmap; [by rewrite Hla|]. rewrite Hlb. cbn. congruence.
Qed.

(** What a member with a private key finds in its encrypted share. *)
Definition opened_share (info : RecoverySharesInfo) (e : MemberId * bytes) : MemberId * bytes :=
  (e.1, default [] (encrypted_shares info !! e.1 ≫= rsa_oaep_unwrap e.2)).

Lemma opened_genuine d s k members info (e : MemberId * bytes) :
  (forall i m pk, members !! i = Some (m, pk) -> exists share c d', sss_create_shares d s (length members) k !! i = Some share /\
    encrypted_shares info !! m = Some c /\ rsa_oaep_wrap pk d' share = Some c) ->
  (e.1, public_key_of e.2) ∈ members -> genuine d s k members (opened_share info e).
Proof.
  intros Hsh [i Hi]%list_elem_of_lookup. destruct (Hsh _ _ _ Hi) as (share & c & d' & H1 & H2 & H3). exists i, (public_key_of e.2).
  split; [done|]. unfold opened_share. cbn [fst snd]. rewrite H2. cbn. destruct (law_rsa e.2 d' share) as (c' & Hw & Hu).
  rewrite H3 in Hw. injection Hw as <-. by rewrite Hu.
Qed.

Lemma genuine_length d s k members e : genuine d s k members e -> length e.2 = SHARE_LENGTH.
Proof. intros (i & pk & _ & Hx). apply (law_share_length d s (length members) k). by eapply list_elem_of_lookup_2. Qed.

Lemma shares_restore info s k members r latest (subs : list (MemberId * bytes)) t :
  shares_for info s k members -> collecting latest r -> nt_submitted r = ∅ -> nt_config r = Some t ->
  NoDup subs.*1 -> (forall e, e ∈ subs -> (e.1, public_key_of e.2) ∈ members) -> (k <= length subs)%nat -> t <= Z.of_nat (length subs) ->
  exists x d wk, submit_all (opened_share info <$> subs) r = (with_submitted x d r, Ret tt) /\
    combine_from_encrypted_submitted_shares (with_submitted x d r) = (with_submitted x d r, Ret wk) /\
    unwrap wk (wrapped_latest_ledger_secret info) = new_LedgerSecret (raw_key s) None.
Proof.
  intros (d & kz & rest & iv & Hkz & Hlen & Hiv & Hw & Hk & Hn & Hnd & Hsh) Hc Hempty Hcfg Hsubs Hmem Hks Hts.
  destruct (submit_all_run latest (opened_share info <$> subs) r Hc) as (x & dr & Hrun & Hdom & _ & Hin).
  { rewrite <- list_fmap_compose. exact Hsubs. }
  rewrite <- list_fmap_compose in Hdom. change (fst ∘ opened_share info) with (@fst MemberId bytes) in Hdom. rewrite Hempty, dom_empty_L, union_empty_l_L in Hdom.
  assert (Hl : length (ordered x) = length subs).
  { rewrite ordered_perm, length_map_to_list, <- size_dom, Hdom, size_list_to_set by done.
    apply length_fmap. }
  assert (Hord : Forall (fun e => exists sh, decrypt_submitted_share e.2 latest.2 = Ret sh /\ genuine d (kz ++ rest) k members (e.1, sh)) (ordered x)).
  { apply Forall_forall. intros [m c] Hmc%elem_of_ordered. assert (m ∈ dom x) as Hm by (by apply elem_of_dom_2 in Hmc). rewrite Hdom in Hm.
    apply elem_of_list_to_set, list_elem_of_fmap in Hm as ([m' sk] & -> & Hm). pose proof (opened_genuine d (kz ++ rest) k members info _ Hsh (Hmem _ Hm)) as Hg.
    destruct (Hin m' (opened_share info (m', sk)).2) as (c' & Hc' & Hd'); [by apply list_elem_of_fmap; exists (m', sk)|].
    cbn [fst] in Hmc. rewrite Hmc in Hc'. injection Hc' as <-. by eexists. }
  apply Forall_choose in Hord as [shares Hord].
  assert (Hcol : collect_shares (ordered x) (with_submitted x dr r) = (with_submitted x dr r, Ret shares)).
  { apply (collect_run latest); [by destruct Hc|]. eapply Forall2_impl; [exact Hord|]. intros e sh [He Hg]. split; [done|]. by apply genuine_length in Hg. }
  assert (Hcomb : sss_combine_shares shares = Some (kz ++ rest)).
  { apply (genuine_combine d (kz ++ rest) k members (ordered x)); [done|done|done|lia| |].
    - apply ordered_NoDup.
    - eapply Forall2_impl; [exact Hord|]. by intros e sh [_ Hg]. }
  pose proof (Forall2_length _ _ _ Hord) as Hls.
  exists x, dr, (MkWrappingKey (kz ++ rest) false). split; [done|]. split.
  - unfold combine_from_encrypted_submitted_shares, mbind at 1, ST_bind at 1, get at 1. cbn [nt_submitted with_submitted set].
    rewrite (run_bind _ _ _ _ _ Hcol). change (nt_config (with_submitted x dr r)) with (nt_config r). rewrite Hcfg.
    destruct (Z.ltb_spec (Z.of_nat (length shares)) t); [lia|]. unfold combine. destruct (Nat.eqb_spec (length shares) 0); [lia|].
    rewrite Nat.ltb_irrefl, take_ge, Hcomb by done. done.
  - rewrite Hw. destruct (gc_decrypts kz iv (raw_key s) Hiv) as (c & Hc1 & Hc2). unfold unwrap. cbn [wk_data].
    rewrite Hc1, make_key_32 by done. by rewrite Hc2.
Qed.

(** ** The secrets in the table *)

(** What each secret leaves in the table for its predecessor, the newest first. *)
Inductive chain : LedgerSecretsMap -> list EncryptedLedgerSecretInfo -> Prop :=
| chain_first v s info : previous_ledger_secret info = None -> chain [(v, s)] [info]
| chain_next v s v' s' l info infos data :
    chain ((v, s) :: l) infos -> v < v' -> wf_secret s ->
    previous_ledger_secret info = Some (MkPreviousInfo data v (previous_secret_stored_version s)) ->
    decrypt_previous_ledger_secret_raw s' data = Ret (raw_key s) -> chain ((v', s') :: (v, s) :: l) (info :: infos).

Lemma chain_below v s l infos : chain ((v, s) :: l) infos -> Forall (fun e => e.1 < v) l.
Proof.
  remember ((v, s) :: l) as m eqn:E. intros H. revert v s l E. induction H as [v0 s0 info _|v0 s0 v' s' l0 info infos data Hc IH Hlt]; intros v s l [= <- <- <-]; constructor.
  - done.
  - eapply Forall_impl; [by eapply IH|]. cbn. lia.
Qed.

Lemma emplace_front v s e m : v < e.1 -> emplace v s (e :: m) = (v, s) :: e :: m.
Proof. destruct e as [k x]. cbn. intros H. by destruct (Z.ltb_spec v k); [|lia]. Qed.

Lemma emplace_back v s m : Forall (fun e => e.1 < v) m -> emplace v s m = m ++ [(v, s)].
Proof.
  induction 1 as [|[k x] m Hk _ IH]; [done|]. cbn [emplace fst] in *. destruct (Z.ltb_spec v k); [lia|]. destruct (Z.eqb_spec v k); [lia|]. by rewrite IH.
Qed.

(** Going back from the latest secret brings back all of them. *)
Lemma restore_chain v s l infos rest :
  chain ((v, s) :: l) infos -> restore_loop infos s ((v, s) :: rest) = Ret (reverse l ++ (v, s) :: rest).
Proof.
  remember ((v, s) :: l) as m eqn:E. intros H. revert v s l rest E.
  induction H as [v0 s0 info Hnone|v0 s0 v' s' l0 info infos data Hc IH Hlt Hwf Hprev Hdec]; intros v s l rest [= <- <- <-]; cbn [restore_loop].
  { by rewrite Hnone. }
  rewrite Hprev. cbn [pls_encrypted_data pls_version pls_previous_secret_stored_version]. rewrite Hdec, Hwf, emplace_front by done.
  unfold find_secret. cbn [List.find fst]. rewrite Z.eqb_refl. cbn [from_option snd]. by rewrite (IH _ _ _ _ eq_refl), reverse_cons, <- app_assoc.
Qed.

(** ** A service *)

(** A transaction commits at [v]: the node sets a secret that was broadcast to it, and the table of secrets is in the ledger. *)
Definition commit_tx (self sk : bytes) (v : Z) (log : list (Z * EncryptedLedgerSecretInfo)) : NM (list (Z * EncryptedLedgerSecretInfo)) :=
  n ← get;
  match tb_write (nt_secrets_table n) with None => skip | Some w => zoom nt_secrets (secrets_hook self sk true v (Some w)) end;;
  modify (fun n => n <| nt_shares := table_commit v (nt_shares n) |> <| nt_encrypted_ledger_secrets := table_commit v (nt_encrypted_ledger_secrets n) |>
    <| nt_secrets_table := table_commit v (nt_secrets_table n) |>);;
  mret match tb_write (nt_encrypted_ledger_secrets n) with None => log | Some info => log ++ [(v, info)] end.

Definition no_writes (n : Network) : Prop :=
  tb_write (nt_shares n) = None /\ tb_write (nt_encrypted_ledger_secrets n) = None /\ tb_write (nt_secrets_table n) = None.

(** The last version, the node, what the ledger holds of the table of secrets, and the threshold and the members of the current
    shares. *)
Inductive service (self sk : bytes) : Z -> Network -> list (Z * EncryptedLedgerSecretInfo) -> nat -> list (MemberId * bytes) -> Prop :=
| service_opened u v v0 s n n1 n2 log k :
    no_writes n -> tb_state (nt_encrypted_ledger_secrets n) = None -> ledger_secrets (nt_secrets n) = [(v0, s)] -> wf_secret s ->
    0 <= v -> v0 <= v + 1 -> length u = SECRET_TO_SPLIT_LENGTH -> issue_recovery_shares u n = (n1, Ret tt) ->
    commit_tx self sk v [] n1 = (n2, Ret log) -> nt_config n = Some (Z.of_nat k) ->
    service self sk v n2 log k (active_members n)
| service_rekeyed u v v' n n1 n2 log log' k k' members :
    service self sk v n log k members -> v < v' < u64_max -> length u = SECRET_TO_SPLIT_LENGTH ->
    nt_nodes n !! self = Some (TRUSTED, public_key_of sk) -> rekey_ledger u true n = (n1, Ret true) ->
    commit_tx self sk v' log n1 = (n2, Ret log') -> nt_config n = Some (Z.of_nat k') ->
    service self sk v' n2 log' k' (active_members n)
| service_shuffled u v v' n n1 n2 log log' k k' members :
    service self sk v n log k members -> v < v' -> length u = SECRET_TO_SPLIT_LENGTH -> shuffle_recovery_shares u n = (n1, Ret tt) ->
    commit_tx self sk v' log n1 = (n2, Ret log') -> nt_config n = Some (Z.of_nat k') ->
    service self sk v' n2 log' k' (active_members n)
| service_governed v v' n log k members config active keys nodes :
    service self sk v n log k members -> v <= v' ->
    service self sk v' (n <| nt_config := config |> <| nt_member_active := active |> <| nt_member_encryption_public_keys := keys |> <| nt_nodes := nodes |>)
      log k members.

(** What a recovery collects from the ledger. *)
Fixpoint replay (log : list (Z * EncryptedLedgerSecretInfo)) : ST (list EncryptedLedgerSecretInfo) unit :=
  match log with
  | [] => skip
  | (v, info) :: log => recovery_hook v (Some info);; replay log
  end.

Definition collected (e : Z * EncryptedLedgerSecretInfo) : EncryptedLedgerSecretInfo :=
  match next_version e.2 with Some _ => e.2 | None => e.2 <| next_version := Some (u64 (e.1 + 1)) |> end.

Lemma replay_run log l : replay log l = (l ++ (collected <$> log), Ret tt).
Proof.
  revert l. induction log as [|[v info] log IH]; intros l; cbn [replay fmap list_fmap]; [by rewrite app_nil_r|].
  unfold recovery_hook, mbind, ST_bind, modify. rewrite IH. by rewrite <- app_assoc.
Qed.

(** The first secret, which has no predecessor, comes back with the version at which the table was first written. *)
Definition recorded (log : list (Z * EncryptedLedgerSecretInfo)) (m : LedgerSecretsMap) : LedgerSecretsMap :=
  match m, log with
  | (v, s) :: m, (w, _) :: _ => (v, s <| previous_secret_stored_version := Some w |>) :: m
  | _, _ => m
  end.

(** ** What is broadcast *)

(** [e] is the secret [x] for the node with the key [pk]. *)
Definition wrapped_for (pk : bytes) (x : option Z * LedgerSecret) (e : EncryptedLedgerSecret) : Prop :=
  els_version e = x.1 /\ els_previous_secret_stored_version e = previous_secret_stored_version x.2 /\
  exists d, rsa_oaep_wrap pk d (raw_key x.2) = Some (encrypted_secret e).

Lemma wrap_secrets_inv pk secrets n n' l : wrap_secrets pk secrets n = (n', Ret l) -> only_draws n n' /\ Forall2 (wrapped_for pk) secrets l.
Proof.
  revert n l. induction secrets as [|[v s] secrets IH]; intros n l H; cbn in H.
  { injection H as <- <-. split; [apply only_draws_refl|constructor]. }
  unfold next_draw, mbind, ST_bind, get, modify, mret, ST_ret in H. cbn beta iota in H.
  destruct (rsa_oaep_wrap pk (nt_draws n) (raw_key s)) as [c|] eqn:Ec; [|done].
  destruct (wrap_secrets pk secrets _) as [n1 [rest|]] eqn:Er; [|done]. injection H as <- <-. destruct (IH _ _ Er) as [Ho Hall].
  split; [eapply only_draws_trans; [apply next_draw_only|done]|]. constructor; [|done]. split_and!; [done|done|by exists (nt_draws n)].
Qed.

Lemma secrets_for_nodes_inv nodes secrets n n' f :
  secrets_for_nodes nodes secrets n = (n', Ret f) -> NoDup nodes.*1 ->
  only_draws n n' /\ forall nid pk, (nid, pk) ∈ nodes -> exists l, f !! nid = Some l /\ Forall2 (wrapped_for pk) secrets l.
Proof.
  revert n f. induction nodes as [|[nid pk] nodes IH]; intros n f H Hnd; cbn [secrets_for_nodes] in H.
  { injection H as <- <-. split; [apply only_draws_refl|]. by intros ? ? ?%not_elem_of_nil. }
  unfold mbind, ST_bind, mret, ST_ret in H. destruct (wrap_secrets pk secrets n) as [n1 [l|]] eqn:El; [|done].
  destruct (secrets_for_nodes nodes secrets n1) as [n2 [rest|]] eqn:Er; [|done]. injection H as <- <-. apply NoDup_cons in Hnd as [Hm Hnd].
  apply wrap_secrets_inv in El as [Ho1 Hl]. destruct (IH _ _ Er Hnd) as [Ho2 Hin]. split; [by eapply only_draws_trans|].
  intros nid' pk' [[= -> ->]|Hin']%elem_of_cons; [exists l; split; [apply lookup_insert_eq|done]|].
  destruct (Hin _ _ Hin') as (l' & H1 & H2). exists l'. split; [|done]. etrans; [apply lookup_insert_ne|done]. intros ->.
  apply Hm, list_elem_of_fmap. by exists (nid', pk').
Qed.

Lemma nodes_NoDup x n : NoDup (get_trusted_and_learner_nodes x n).*1.
Proof.
  unfold get_trusted_and_learner_nodes. rewrite <- list_fmap_compose. eapply (sublist_NoDup _ (ordered (nt_nodes n)).*1); [apply ordered_NoDup|].
  apply (fmap_sublist fst), list_filter_sublist.
Qed.

Lemma trusted_in x n nid pk : nt_nodes n !! nid = Some (TRUSTED, pk) -> x <> Some nid -> (nid, pk) ∈ get_trusted_and_learner_nodes x n.
Proof.
  intros Hn Hx. unfold get_trusted_and_learner_nodes. apply list_elem_of_fmap. exists (nid, (TRUSTED, pk)). split; [done|].
  apply list_elem_of_In, filter_In. split; [by apply list_elem_of_In, elem_of_ordered|].
  apply andb_true_intro. split; [done|]. cbn [fst]. by rewrite bool_decide_false.
Qed.

Lemma wrapped_opens sk x e : wrapped_for (public_key_of sk) x e -> decrypt_broadcast sk (encrypted_secret e) = Ret (raw_key x.2).
Proof.
  intros (_ & _ & d & Hd). destruct (law_rsa sk d (raw_key x.2)) as (c & Hw & Hu). rewrite Hd in Hw. injection Hw as <-. unfold decrypt_broadcast. by rewrite Hu.
Qed.

(** The hook on the node [self] sets the secret that a rekey broadcast at [v]. *)
Lemma hook_sets self sk v f e s ls :
  f !! self = Some [e] -> wrapped_for (public_key_of sk) (None, s) e -> wf_secret s ->
  secrets_hook self sk true v (Some f) ls =
    (ls <| ledger_secrets := emplace (u64 (v + 1)) (s <| previous_secret_stored_version := Some v |>) (ledger_secrets ls) |>, Ret tt).
Proof.
  intros Hf Hw Hs. unfold secrets_hook. cbn [negb]. rewrite Hf. cbn [apply_new_secrets]. rewrite (wrapped_opens _ _ _ Hw). 
  unfold lift_outcome, mbind, ST_bind. cbn [snd]. rewrite (wf_secret_renewed s (Some v) Hs). by destruct ls.
Qed.

(** ** The invariant *)

Definition put_info (si : RecoverySharesInfo) (ei : EncryptedLedgerSecretInfo) (n : Network) : Network :=
  n <| nt_shares := table_put si (nt_shares n) |> <| nt_encrypted_ledger_secrets := table_put ei (nt_encrypted_ledger_secrets n) |>.

(** [ei] keeps [previous] encrypted with [s]. *)
Definition keeps (w : option Z) (s : LedgerSecret) (previous : option VersionedLedgerSecret) (ei : EncryptedLedgerSecretInfo) : Prop :=
  match previous with
  | None => previous_ledger_secret ei = None
  | Some (v, p) => exists data, previous_ledger_secret ei = Some (MkPreviousInfo data v w) /\ decrypt_previous_ledger_secret_raw s data = Ret (raw_key p)
  end.

Lemma set_recovery_inv u s previous lv n n' :
  length u = SECRET_TO_SPLIT_LENGTH -> set_recovery_shares_info u s previous lv n = (n', Ret tt) ->
  exists si k ei, shares_for si s k (active_members n) /\ nt_config n = Some (Z.of_nat k) /\ only_draws (put_info si ei n) n' /\
    next_version ei = lv /\ keeps (table_version (nt_encrypted_ledger_secrets n)) s previous ei.
Proof.
  intros Hu H. unfold set_recovery_shares_info in H. unfold mbind at 1, ST_bind at 1 in H.
  destruct (shuffle_shares_of u s n) as [n1 [[]|]] eqn:E; [|done]. apply shuffle_inv in E as (si & k & Hsi & Hk & Hn1); [|done].
  exists si, k. destruct previous as [[v p]|].
  - unfold mbind at 1, ST_bind at 1 in H. destruct (encrypt_with_run (key s) (raw_key p) n1) as (data & Hrun & c & Hc & Hdec).
    rewrite Hrun in H. injection H as <-. exists (MkSecretInfo (Some (MkPreviousInfo data v (table_version (nt_encrypted_ledger_secrets n)))) lv).
    split; [done|]. split; [done|]. split; [rewrite Hn1; by destruct n|]. split; [done|].
    exists data. split; [done|]. unfold decrypt_previous_ledger_secret_raw. by rewrite Hc, Hdec.
  - injection H as <-. exists (MkSecretInfo None lv). split; [done|]. split; [done|]. split; [rewrite Hn1; by destruct n|]. done.
Qed.

Definition consistent (v : Z) (n : Network) (log : list (Z * EncryptedLedgerSecretInfo)) (k : nat) (members : list (MemberId * bytes)) : Prop :=
  exists vs s l w info si ws,
    reverse (recorded log (ledger_secrets (nt_secrets n))) = (vs, s) :: l /\
    chain ((vs, s) :: l) (reverse (collected <$> log)) /\ 0 <= v /\ vs <= v + 1 /\ wf_secret s /\
    last log = Some (w, info) /\ next_version (collected (w, info)) = Some vs /\ previous_secret_stored_version s = Some w /\
    nt_encrypted_ledger_secrets n = MkTable (Some (info, w)) None /\ nt_shares n = MkTable (Some (si, ws)) None /\
    shares_for si s k members /\ tb_write (nt_secrets_table n) = None.

Lemma recorded_last log m v s l :
  reverse (recorded log m) = (v, s) :: l ->
  exists p, last m = Some (v, s <| previous_secret_stored_version := p |>).
Proof.
  intros H. assert (last (recorded log m) = Some (v, s)) as Hl by (by rewrite <- head_reverse, H).
  destruct m as [|[v0 s0] m], log as [|[w i] log]; cbn [recorded] in Hl; try done; [exists (previous_secret_stored_version s); rewrite Hl; by destruct s|].
  destruct m as [|e m]; [|exists (previous_secret_stored_version s); cbn in *; rewrite Hl; by destruct s].
  injection Hl as <- <-. exists (previous_secret_stored_version s0). by destruct s0.
Qed.

Lemma recorded_snoc log m e x : m <> [] -> log <> [] -> recorded (log ++ [e]) (m ++ [x]) = recorded log m ++ [x].
Proof. by destruct m as [|[]], log as [|[]]. Qed.

Lemma recorded_versions log m (P : Z -> Prop) : Forall (fun e => P e.1) (recorded log m) <-> Forall (fun e => P e.1) m.
Proof. destruct m as [|[v s] m], log as [|[w ?] log]; cbn [recorded]; rewrite ?Forall_cons; done. Qed.

Lemma opened_consistent self sk u v v0 s n n1 n2 log k :
  no_writes n -> tb_state (nt_encrypted_ledger_secrets n) = None -> ledger_secrets (nt_secrets n) = [(v0, s)] -> wf_secret s -> 0 <= v ->
  v0 <= v + 1 -> length u = SECRET_TO_SPLIT_LENGTH -> issue_recovery_shares u n = (n1, Ret tt) -> commit_tx self sk v [] n1 = (n2, Ret log) ->
  nt_config n = Some (Z.of_nat k) -> consistent v n2 log k (active_members n).
Proof.
  intros (Hw1 & Hw2 & Hw3) Hst Hls Hwf Hv Hv0 Hu Hrun Hc Hk. unfold issue_recovery_shares in Hrun.
  rewrite (run_bind _ _ _ n ((v0, s), None)) in Hrun.
  2: { rewrite (run_zoom _ _ _ (nt_secrets n) (Ret ((v0, s), None))); [by destruct n|]. unfold latest_and_penultimate, mbind, ST_bind, get. by rewrite Hls. }
  apply set_recovery_inv in Hrun as (si & k' & ei & Hsi & Hk' & Ho & Hnext & Hprev); [|done]. rewrite Hk' in Hk. injection Hk as Hk. apply Nat2Z.inj in Hk as ->.
  rewrite Ho in Hc. unfold commit_tx, mbind, ST_bind, get, modify, mret, ST_ret in Hc. cbn in Hc. rewrite Hw3 in Hc. injection Hc as <- <-.
  exists v0, (s <| previous_secret_stored_version := Some v |>), [], v, ei, si, v. cbn. rewrite Hls. unfold collected. cbn [fst snd]. rewrite Hnext.
  split_and!; try done.
  - constructor. done.
  - by apply wf_renewed.
  - unfold table_commit. by rewrite Hw3.
Qed.

(** The run of a rekey: a new secret with its shares, its predecessor in the table, and the secret for the node itself. *)
Lemma rekey_inv self sk u live n n1 :
  last (ledger_secrets (nt_secrets n)) = Some live -> length u = SECRET_TO_SPLIT_LENGTH ->
  nt_nodes n !! self = Some (TRUSTED, public_key_of sk) -> rekey_ledger u true n = (n1, Ret true) ->
  exists s si k ei f e, wf_secret s /\ shares_for si s k (active_members n) /\ nt_config n = Some (Z.of_nat k) /\
    only_draws (put_info si ei n <| nt_secrets_table := table_put f (nt_secrets_table n) |>) n1 /\ next_version ei = None /\
    keeps (table_version (nt_encrypted_ledger_secrets n)) s (Some live) ei /\ f !! self = Some [e] /\ wrapped_for (public_key_of sk) (None, s) e.
Proof.
  intros Hlast Hu Hself H. unfold rekey_ledger, next_draw in H. cbn [negb] in H. unfold mbind at 1, ST_bind at 1 in H.
  unfold mbind at 1, ST_bind at 1, get at 1 in H. unfold mbind at 1, ST_bind at 1, modify at 1, mret at 1, ST_ret at 1 in H.
  unfold mbind at 1, ST_bind at 1, lift_outcome at 1 in H. destruct (new_LedgerSecret _ None) as [s|] eqn:Es; [|done].
  apply new_secret_wf in Es as (Hwf & _). unfold mbind at 1, ST_bind at 1 in H. set (n0 := n <| nt_draws := S (nt_draws n) |>) in H.
  destruct (issue_recovery_shares_for u s n0) as [n2 [[]|]] eqn:Ei; [|done]. unfold issue_recovery_shares_for in Ei.
  rewrite (run_bind _ _ _ _ _ (zoom_latest live n0 Hlast)) in Ei.
  apply set_recovery_inv in Ei as (si & k & ei & Hsi & Hk & Ho & Hnext & Hkeeps); [|done].
  unfold mbind at 1, ST_bind at 1, broadcast_new in H. unfold mbind at 1, ST_bind at 1, get at 1 in H. unfold mbind at 1, ST_bind at 1 in H.
  destruct (secrets_for_nodes _ _ n2) as [n3 [f|]] eqn:Ef; [|done]. injection H as <-. apply secrets_for_nodes_inv in Ef as [Ho' Hin]; [|apply nodes_NoDup].
  destruct (Hin self (public_key_of sk)) as (l & Hl & Hall).
  { apply trusted_in; [|done]. rewrite Ho. by destruct n. }
  inversion Hall as [|x e ? ? He Hnil]; subst. inversion Hnil; subst.
  exists s, si, k, ei, f, e. split_and!; try done. rewrite Ho', Ho. by destruct n.
Qed.

Lemma rekeyed_consistent self sk u v v' n n1 n2 log log' k k' members :
  consistent v n log k members -> v < v' < u64_max -> length u = SECRET_TO_SPLIT_LENGTH ->
  nt_nodes n !! self = Some (TRUSTED, public_key_of sk) -> rekey_ledger u true n = (n1, Ret true) ->
  commit_tx self sk v' log n1 = (n2, Ret log') -> nt_config n = Some (Z.of_nat k') -> consistent v' n2 log' k' (active_members n).
Proof.
  intros (vs & s & l & w & info & si & ws & Hrev & Hchain & Hv & Hvs & Hwf & Hlog & Hnv & Hpsv & Hei & Hshares & Hsi & Hst) Hv' Hu Hself Hrun Hc Hk'.
  destruct (recorded_last _ _ _ _ _ Hrev) as [p Hlast].
  destruct (rekey_inv self sk u _ n n1 Hlast Hu Hself Hrun) as (s' & si' & k0 & ei & f & e & Hwf' & Hsi' & Hk & Ho & Hnext & (data & Hprev & Hdec) & Hf & He).
  rewrite Hk in Hk'. injection Hk' as ->%Nat2Z.inj. rewrite Ho in Hc. unfold commit_tx in Hc. unfold mbind at 1, ST_bind at 1, get at 1 in Hc.
  cbn [tb_write table_put nt_secrets_table set put_info] in Hc.
  pose proof (hook_sets self sk v' f e s' (nt_secrets n) Hf He Hwf') as Hhook. rewrite u64_small in Hhook by u64_lia.
  rewrite emplace_back in Hhook.
  2: { apply (recorded_versions log _ (fun x => x < v' + 1)). rewrite <- Forall_reverse, Hrev. constructor; [cbn; lia|].
       eapply Forall_impl; [by eapply chain_below|]. cbn. lia. }
  unfold mbind, ST_bind in Hc. cbn in Hc.
  erewrite run_zoom in Hc by exact Hhook. injection Hc as <- <-.
  assert (ledger_secrets (nt_secrets n) <> []) as Hne by (by intros E; rewrite E in Hlast).
  assert (log <> []) as Hlne by (by intros E; rewrite E in Hlog).
  exists (v' + 1), (s' <| previous_secret_stored_version := Some v' |>), ((vs, s) :: l), v', ei, si', v'. cbn. rewrite recorded_snoc, reverse_snoc, Hrev by done.
  assert (previous_ledger_secret (collected (v', ei)) = previous_ledger_secret ei) as Hpe by (unfold collected; cbn [snd]; by rewrite Hnext).
  split_and!; try done.
  - rewrite fmap_app. change (collected <$> [(v', ei)]) with [collected (v', ei)]. rewrite reverse_snoc.
    apply (chain_next _ _ _ _ _ _ _ data); [done|lia|done| |exact Hdec]. by rewrite Hpe, Hprev, Hei, Hpsv.
  - lia.
  - by apply wf_renewed.
  - apply last_snoc.
  - unfold collected. cbn [snd fst]. rewrite Hnext. cbn. by rewrite u64_small by u64_lia.
Qed.

Lemma shuffled_consistent self sk u v v' n n1 n2 log log' k k' members :
  consistent v n log k members -> v < v' -> length u = SECRET_TO_SPLIT_LENGTH -> shuffle_recovery_shares u n = (n1, Ret tt) ->
  commit_tx self sk v' log n1 = (n2, Ret log') -> nt_config n = Some (Z.of_nat k') -> consistent v' n2 log' k' (active_members n).
Proof.
  intros (vs & s & l & w & info & si & ws & Hrev & Hchain & Hv & Hvs & Hwf & Hlog & Hnv & Hpsv & Hei & Hshares & Hsi & Hst) Hv' Hu Hrun Hc Hk'.
  destruct (recorded_last _ _ _ _ _ Hrev) as [p Hlast]. unfold shuffle_recovery_shares in Hrun. rewrite (run_bind _ _ _ _ _ (zoom_latest _ n Hlast)) in Hrun.
  apply shuffle_inv in Hrun as (si' & k0 & Hsi' & Hk & Hn1); [|done]. rewrite Hk in Hk'. injection Hk' as ->%Nat2Z.inj.
  rewrite Hn1 in Hc. unfold commit_tx, mbind, ST_bind, get, modify, mret, ST_ret in Hc. cbn in Hc. rewrite Hst, Hei in Hc. injection Hc as <- <-.
  exists vs, s, l, w, info, si', v'. cbn. split_and!; try done; try lia.
  - by unfold table_commit; rewrite Hei.
  - by unfold table_commit; rewrite Hst.
Qed.

Lemma service_consistent self sk v n log k members : service self sk v n log k members -> consistent v n log k members.
Proof.
  induction 1 as [| | |v v' n log k members config active keys nodes _ IH Hv'];
    [by eapply opened_consistent|by eapply rekeyed_consistent|by eapply shuffled_consistent|].
  destruct IH as (vs & s & l & w & info & si & ws & Hrev & Hchain & Hv & Hvs & Hrest). exists vs, s, l, w, info, si, ws. cbn. split_and!; try done; try lia; apply Hrest.
Qed.

(** A node that recovers the service: it has the public tables, secrets of its own, and no share yet. *)
Definition recovering (n r : Network) (latest : VersionedLedgerSecret) (threshold : Z) : Prop :=
  collecting latest r /\ nt_shares r = nt_shares n /\ nt_encrypted_ledger_secrets r = nt_encrypted_ledger_secrets n /\
  nt_submitted r = ∅ /\ nt_config r = Some threshold.

(** C32: whatever rekeys, reissues of shares and changes of members and threshold a service has seen, a node that recovers it from
    its public ledger gets all of its secrets back, each at its version, once as many of the members that hold the current shares
    have submitted theirs as the threshold was when the shares were issued. *)
Theorem rekeys_recoverable self sk v n log k members r latest threshold info (subs : list (MemberId * bytes)) :
  service self sk v n log k members -> recovering n r latest threshold -> table_get (nt_shares n) = Some info ->
  NoDup subs.*1 -> (forall e, e ∈ subs -> (e.1, public_key_of e.2) ∈ members) -> (k <= length subs)%nat -> threshold <= Z.of_nat (length subs) ->
  exists infos r', replay log [] = (infos, Ret tt) /\
    (submit_all (opened_share info <$> subs);; restore_recovery_shares_info infos) r = (r', Ret (recorded log (ledger_secrets (nt_secrets n)))).
Proof.
  intros (vs & s & l & w & ei & si & ws & Hrev & Hchain & Hv & Hvs & Hwf & Hlog & Hnv & Hpsv & Hei & Hshares & Hsi & _)%service_consistent
    (Hcol & Hrs & Hre & Hempty & Hcfg) Hinfo Hnd Hmem Hk Ht.
  rewrite Hshares in Hinfo. injection Hinfo as <-. exists (collected <$> log). rewrite replay_run. cbn [app].
  destruct (shares_restore si s k members r latest subs threshold) as (x & d & wk & Hsub & Hcomb & Hun); try done.
  rewrite (run_bind _ _ _ _ _ Hsub). exists (with_submitted x d r). split; [done|].
  unfold restore_recovery_shares_info. unfold mbind at 1, ST_bind at 1, get at 1. rewrite fmap_last, Hlog. cbn [fmap option_fmap option_map].
  change (nt_shares (with_submitted x d r)) with (nt_shares r). change (nt_encrypted_ledger_secrets (with_submitted x d r)) with (nt_encrypted_ledger_secrets r).
  rewrite Hrs, Hshares, Hre, Hei. cbn [table_get tb_write tb_state fmap option_fmap option_map fst]. rewrite (run_bind _ _ _ _ _ Hcomb), Hun, (wf_secret_renewed s None Hwf).
  unfold lift_outcome, mbind, ST_bind. rewrite Hnv. cbn [table_version tb_state fmap option_fmap option_map snd].
  change (raw_key (s <| previous_secret_stored_version := None |>)) with (raw_key s). rewrite <- Hpsv, Hwf.
  rewrite (restore_chain _ _ _ _ [] Hchain), <- reverse_cons, <- Hrev, reverse_involutive. done.
Qed.
End Shares.

(** ** A service with two members *)

Definition toy_entropy : Entropy := fun d n => repeat (Z.of_nat d) n.
Definition toy_sss : Sss := {|
  sss_create_shares _ s n _ := repeat (take SHARE_LENGTH (s ++ repeat 0 SHARE_LENGTH)) n;
  sss_combine_shares shares := take SECRET_TO_SPLIT_LENGTH <$> head shares
|}.
Definition toy_rsa : Rsa := {| rsa_oaep_wrap _ _ x := Some x; rsa_oaep_unwrap _ c := Some c |}.

#[local] Existing Instances toy_aead toy_aead_laws toy_entropy toy_sss toy_rsa.

Lemma toy_share_length s : length (take SHARE_LENGTH (s ++ repeat 0 SHARE_LENGTH)) = SHARE_LENGTH.
Proof. rewrite length_take, length_app, repeat_length. lia. Qed.

#[local] Program Instance toy_shares_laws : SharesLaws := {| public_key_of sk := sk |}.
Next Obligation. intros d n. apply repeat_length. Qed.
Next Obligation. intros d s n k. apply repeat_length. Qed.
Next Obligation. intros d s n k x H. apply list_elem_of_In, repeat_spec in H as ->. apply toy_share_length. Qed.
Next Obligation.
  intros d s n k idxs shares Hs Hk _ _ Hl Hall. cbn in *. destruct Hall as [|i x idxs shares Hx _]; cbn in *; [lia|]. 
  apply list_elem_of_lookup_2, list_elem_of_In, repeat_spec in Hx as ->. f_equal.
  rewrite take_take, take_app_le by (rewrite Hs; vm_compute; lia). by apply take_ge; rewrite Hs.
Qed.
Next Obligation. intros sk d x. by exists x. Qed.

Definition demo_secret : LedgerSecret := MkLedgerSecret (repeat 1 32) (repeat 1 32) None.
Definition demo_network : Network :=
  MkNetwork (MkLedgerSecrets [(1, demo_secret)] 1 None) (MkTable None None) (MkTable None None) (MkTable None None) ∅ (Some 2)
    {[ [1] := true; [2] := true; [3] := false ]} {[ [1] := [11]; [2] := [12]; [3] := [13] ]} {[ [8] := (TRUSTED, [80]); [9] := (RETIRED, [90]) ]} true 0.
Definition demo_memory : bytes := repeat 255 64.

Definition demo_opened : Network := (commit_tx [8] [80] 1 [] (issue_recovery_shares demo_memory demo_network).1).1.
Definition demo_rekeyed : Network := (commit_tx [8] [80] 5 [] (rekey_ledger demo_memory true demo_opened).1).1.
Definition demo_shuffled : Network := (commit_tx [8] [80] 7 [] (shuffle_recovery_shares demo_memory demo_rekeyed).1).1.
Definition demo_log : list (Z * EncryptedLedgerSecretInfo) :=
  match commit_tx [8] [80] 1 [] (issue_recovery_shares demo_memory demo_network).1 with
  | (_, Ret log) => match commit_tx [8] [80] 5 log (rekey_ledger demo_memory true demo_opened).1 with (_, Ret log) => log | _ => [] end
  | _ => []
  end.
Definition demo_members : list (MemberId * bytes) := [([1], [11]); ([2], [12])].

Lemma demo_service : service [8] [80] 7 demo_shuffled demo_log 2 demo_members.
Proof.
  replace demo_members with (active_members demo_rekeyed) by (vm_compute; reflexivity).
  apply (service_shuffled _ _ demo_memory 5 7 demo_rekeyed (shuffle_recovery_shares demo_memory demo_rekeyed).1 _ demo_log _ 2 2 (active_members demo_opened));
    [|lia|reflexivity|vm_compute; reflexivity..].
  apply (service_rekeyed _ _ demo_memory 1 5 demo_opened (rekey_ledger demo_memory true demo_opened).1 _ (take 1 demo_log) _ 2 2 (active_members demo_network));
    [|by vm_compute|reflexivity|vm_compute; reflexivity..].
  apply (service_opened _ _ demo_memory 1 1 demo_secret demo_network (issue_recovery_shares demo_memory demo_network).1 _ (take 1 demo_log) 2);
    [by vm_compute|reflexivity|reflexivity|vm_compute; reflexivity|lia|lia|reflexivity|vm_compute; reflexivity..].
Qed.

(** The recovering node has a fresh secret and has been given a retired service's tables; the threshold has been lowered since. *)
Definition demo_recovering : Network :=
  demo_shuffled <| nt_secrets := MkLedgerSecrets [(8, MkLedgerSecret (repeat 5 32) (repeat 5 32) None)] 8 None |> <| nt_config := Some 1 |>.

Lemma rekeys_recoverable_witness :
  exists infos r' info s0 s1, replay demo_log [] = (infos, Ret tt) /\
    (submit_all (opened_share info <$> demo_members);; restore_recovery_shares_info infos) demo_recovering = (r', Ret [(1, s0); (6, s1)]) /\
    raw_key s0 = repeat 1 32 /\ length (raw_key s1) = 32%nat /\
    previous_secret_stored_version s0 = Some 1 /\ previous_secret_stored_version s1 = Some 5.
Proof.
  destruct (table_get (nt_shares demo_shuffled)) as [info|] eqn:E; [|vm_compute in E; discriminate].
  destruct (rekeys_recoverable [8] [80] 7 demo_shuffled demo_log 2 demo_members demo_recovering
    (8, MkLedgerSecret (repeat 5 32) (repeat 5 32) None) 1 info demo_members demo_service) as (infos & r' & Hreplay & Hrun).
  - vm_compute. repeat split.
  - exact E.
  - apply (bool_decide_unpack _). vm_compute. exact I.
  - intros [m key] He. exact He.
  - vm_compute. lia.
  - vm_compute. discriminate.
  - exists infos, r', info, (demo_secret <| previous_secret_stored_version := Some 1 |>), (MkLedgerSecret (random_bytes 4 32) (random_bytes 4 32) (Some 5)).
    split; [exact Hreplay|]. split; [|repeat split]. etrans; [exact Hrun|]. f_equal; vm_compute; reflexivity.
Defined.
