(* ===== verification/KvStoreProps.v ===== *)
(** [apply_changes] is atomic: it applies all changes or none, and
    releases the locks it takes. *)

From S2P Require Import Prelude Serialized RaftTypes KvMap KvRoll KvHandle KvHandleProps KvSerialise KvStore.

Lemma forallb_ext_in {A} (f g : A -> bool) (l : list A) : (forall x, x ∈ l -> f x = g x) -> forallb f l = forallb g l.
Proof.
  induction l as [|x l IH]; intros H; [done|]. cbn. rewrite H by (by left). f_equal. apply IH. intros y Hy. apply H. by right.
Qed.

Lemma NoDup_fmap_inj_elem {A B} (f : A -> B) (l : list A) x y :
  NoDup (f <$> l) -> x ∈ l -> y ∈ l -> f x = f y -> x = y.
Proof.
  induction l as [|z l IH]; intros Hnd Hx Hy E; [by apply elem_of_nil in Hx|].
  cbn in Hnd. apply NoDup_cons in Hnd as [Hz Hnd]. apply elem_of_cons in Hx as [->|Hx], Hy as [->|Hy]; [done|..|by apply IH].
  - destruct Hz. rewrite E. by apply list_elem_of_fmap_2.
  - destruct Hz. rewrite <- E. by apply list_elem_of_fmap_2.
Qed.

(** ** Updates of several objects of the heap *)

Section heap.
Context {A : Type} (loc : A -> Loc).

(** Every element of [xs] changes the object it points to. *)
Fixpoint update_locs (g : A -> MapObject -> MapObject) (xs : list A) (h : list MapObject) : list MapObject :=
  match xs with [] => h | x :: xs => update_locs g xs (alter (g x) (loc x) h) end.

Lemma update_locs_out g xs h l : l ∉ loc <$> xs -> update_locs g xs h !! l = h !! l.
Proof.
  revert h. induction xs as [|x xs IH]; intros h Hl; [done|]. cbn in Hl. apply not_elem_of_cons in Hl as [Hne Hl].
  cbn [update_locs]. rewrite (IH _ Hl). by apply list_lookup_alter_ne.
Qed.

Lemma update_locs_in g xs h x :
  NoDup (loc <$> xs) -> x ∈ xs -> update_locs g xs h !! loc x = g x <$> h !! loc x.
Proof.
  revert h. induction xs as [|y xs IH]; intros h Hnd Hx; [by apply elem_of_nil in Hx|].
  cbn in Hnd. apply NoDup_cons in Hnd as [Hy Hnd]. cbn [update_locs]. apply elem_of_cons in Hx as [->|Hx].
  - rewrite (update_locs_out g xs _ (loc y)) by done. apply list_lookup_alter_eq.
  - rewrite (IH _ Hnd Hx), list_lookup_alter_ne; [done|]. intros E. apply Hy. rewrite E. by apply list_elem_of_fmap_2.
Qed.

Lemma update_locs_length g xs h : length (update_locs g xs h) = length h.
Proof. revert h. induction xs as [|x xs IH]; intros h; [done|]. cbn. rewrite IH. apply length_alter. Qed.

(** Two heaps that agree on the objects of [xs] and on all others. *)
Lemma update_locs_eq (xs : list A) (h1 h2 : list MapObject) :
  (forall x, x ∈ xs -> h1 !! loc x = h2 !! loc x) ->
  (forall l, l ∉ loc <$> xs -> h1 !! l = h2 !! l) -> h1 = h2.
Proof.
  intros Hin Hout. apply list_eq. intros l. destruct (decide (l ∈ loc <$> xs)) as [Hl|Hl]; [|by apply Hout].
  apply list_elem_of_fmap in Hl as (x & -> & Hx). by apply Hin.
Qed.

Lemma update_locs_compose g1 g2 xs h :
  NoDup (loc <$> xs) -> update_locs g2 xs (update_locs g1 xs h) = update_locs (fun x o => g2 x (g1 x o)) xs h.
Proof.
  intros Hnd. apply (update_locs_eq xs).
  - intros x Hx. rewrite !update_locs_in by done. by destruct (h !! loc x).
  - intros l Hl. by rewrite !update_locs_out.
Qed.

Lemma update_locs_id g xs h :
  NoDup (loc <$> xs) -> (forall x o, x ∈ xs -> h !! loc x = Some o -> g x o = o) -> update_locs g xs h = h.
Proof.
  intros Hnd Hg. apply (update_locs_eq xs).
  - intros x Hx. rewrite update_locs_in by done. destruct (h !! loc x) as [o|] eqn:E; [|done]. cbn. by rewrite (Hg x o).
  - intros l Hl. by apply update_locs_out.
Qed.

Lemma update_locs_commute {B} (loc' : B -> Loc) (g : A -> MapObject -> MapObject) (g' : B -> MapObject -> MapObject)
    xs (ys : list B) h :
  NoDup (loc <$> xs) -> (forall x y o, g x (g' y o) = g' y (g x o)) ->
  update_locs g xs (foldl (fun h y => alter (g' y) (loc' y) h) h ys) =
  foldl (fun h y => alter (g' y) (loc' y) h) (update_locs g xs h) ys.
Proof.
  intros Hnd Hg. revert h. induction ys as [|y ys IH]; intros h; [done|]. cbn [foldl]. rewrite IH. f_equal.
  apply (update_locs_eq xs).
  - intros x Hx. rewrite update_locs_in by done. destruct (decide (loc' y = loc x)) as [E|E].
    + rewrite E, !list_lookup_alter_eq, update_locs_in by done. destruct (h !! loc x); [|done]. cbn. by rewrite Hg.
    + rewrite !list_lookup_alter_ne by done. by rewrite update_locs_in.
  - intros l Hl. rewrite update_locs_out by done. destruct (decide (loc' y = l)) as [<-|E].
    + by rewrite !list_lookup_alter_eq, update_locs_out.
    + by rewrite !list_lookup_alter_ne, update_locs_out.
Qed.

Lemma update_locs_ext g1 g2 xs h :
  NoDup (loc <$> xs) -> (forall x o, x ∈ xs -> h !! loc x = Some o -> g1 x o = g2 x o) ->
  update_locs g1 xs h = update_locs g2 xs h.
Proof.
  intros Hnd Hg. apply (update_locs_eq xs).
  - intros x Hx. rewrite !update_locs_in by done. destruct (h !! loc x) as [o|] eqn:E; [|done]. cbn. by rewrite (Hg x o).
  - intros l Hl. by rewrite !update_locs_out.
Qed.

Lemma update_locs_foldl g xs h : update_locs g xs h = foldl (fun h x => alter (g x) (loc x) h) h xs.
Proof. revert h. induction xs as [|x xs IH]; intros h; [done|]. apply IH. Qed.
End heap.

Section store_props.
Context {P : Type} (call_map_hook : Name -> Z -> Write -> outcome (option Hook)).
Implicit Types (s : Store P).

Definition with_heap (h : list MapObject) (s : Store P) : Store P := s <| heap := h |>.

Lemma with_heap_heap s : with_heap (heap s) s = s.
Proof. by destruct s. Qed.

Lemma with_heap_twice h h' s : with_heap h (with_heap h' s) = with_heap h s.
Proof. done. Qed.

(** A loop of which every turn changes one object. *)
Lemma foreach_update {A} (loc : A -> Loc) (f : A -> ST (Store P) unit) (pre : A -> MapObject -> Prop)
    (g : A -> MapObject -> MapObject) xs s :
  (forall x o s, x ∈ xs -> heap s !! loc x = Some o -> pre x o ->
     f x s = (with_heap (alter (g x) (loc x) (heap s)) s, Ret tt)) ->
  NoDup (loc <$> xs) -> (forall x, x ∈ xs -> exists o, heap s !! loc x = Some o /\ pre x o) ->
  foreach xs f s = (with_heap (update_locs loc g xs (heap s)) s, Ret tt).
Proof.
  intros Hf. revert s. induction xs as [|x xs IH]; intros s Hnd Hpre; [cbn [foreach update_locs]; by rewrite with_heap_heap|].
  cbn in Hnd. apply NoDup_cons in Hnd as [Hx Hnd]. destruct (Hpre x) as (o & Ho & Hp); [by left|].
  cbn [foreach]. unfold mbind, ST_bind. rewrite (Hf x o) by (done || by left). rewrite IH.
  - done.
  - intros y o' s' Hy. apply Hf. by right.
  - done.
  - intros y Hy. destruct (Hpre y) as (o' & Ho' & Hp'); [by right|]. exists o'. split; [|done]. cbn.
    rewrite list_lookup_alter_ne; [done|]. intros E. apply Hx. rewrite E. by apply list_elem_of_fmap_2.
Qed.

Lemma foreach_filter {S A} (b : A -> bool) (f : A -> ST S unit) (xs : list A) (s : S) :
  foreach xs (fun x => if b x then f x else skip) s = foreach (filter (fun x => b x = true) xs) f s.
Proof.
  revert s. induction xs as [|x xs IH]; intros s; [done|]. cbn [foreach]. rewrite filter_cons.
  destruct (b x).
  - rewrite decide_True by done. cbn [foreach]. unfold mbind, ST_bind.
    destruct (f x s) as [s' [a|e]]; [apply IH|done].
  - rewrite decide_False by done. apply IH.
Qed.

Definition set_locked (b : bool) (o : MapObject) : MapObject := o <| mo_locked := b |>.

Lemma alter_insert (h : list MapObject) l o g : h !! l = Some o -> alter g l h = <[l := g o]> h.
Proof.
  intros Ho. apply list_eq. intros i. destruct (decide (l = i)) as [->|Hne].
  - rewrite list_lookup_alter_eq, list_lookup_insert_eq, Ho by (by eapply lookup_lt_Some). done.
  - by rewrite list_lookup_alter_ne, list_lookup_insert_ne.
Qed.

Lemma map_at_eq l o s : heap s !! l = Some o -> map_at l s = (s, Ret o).
Proof. intros Ho. unfold map_at, mbind, ST_bind, get. by rewrite Ho. Qed.

Lemma lock_map_eq l o s :
  heap s !! l = Some o -> mo_locked o = false ->
  lock_map l s = (with_heap (alter (set_locked true) l (heap s)) s, Ret tt).
Proof.
  intros Ho Hl. unfold lock_map, mbind, ST_bind. rewrite (map_at_eq l o) by done. rewrite Hl.
  by rewrite (alter_insert _ _ o).
Qed.

Lemma unlock_map_eq l o s :
  heap s !! l = Some o -> mo_locked o = true ->
  unlock_map l s = (with_heap (alter (set_locked false) l (heap s)) s, Ret tt).
Proof.
  intros Ho Hl. unfold unlock_map, mbind, ST_bind. rewrite (map_at_eq l o) by done. rewrite Hl.
  by rewrite (alter_insert _ _ o).
Qed.

(** A member function that returns. *)
Definition change_map (f : Map -> Map) (o : MapObject) : MapObject := o <| mo_map := f (mo_map o) |>.

Lemma on_map_eq {A} l o s (m : ST Map A) a :
  heap s !! l = Some o -> snd (m (mo_map o)) = Ret a ->
  on_map l m s = (with_heap (alter (change_map (fun x => fst (m x))) l (heap s)) s, Ret a).
Proof.
  intros Ho Hm. unfold on_map, mbind, ST_bind. rewrite (map_at_eq l o) by done. rewrite (alter_insert _ _ o) by done.
  unfold change_map. destruct (m (mo_map o)) as [m' r] eqn:E. cbn in Hm. by subst r.
Qed.

(** ** Locks *)

Lemma lock_all {A} (loc : A -> Loc) (xs : list A) s :
  NoDup (loc <$> xs) -> (forall x, x ∈ xs -> exists o, heap s !! loc x = Some o /\ mo_locked o = false) ->
  foreach xs (fun x => lock_map (loc x)) s =
  (with_heap (update_locs loc (fun _ => set_locked true) xs (heap s)) s, Ret tt).
Proof. apply (foreach_update loc _ (fun _ o => mo_locked o = false)). intros. by eapply lock_map_eq. Qed.

Lemma unlock_all {A} (loc : A -> Loc) (xs : list A) s :
  NoDup (loc <$> xs) -> (forall x, x ∈ xs -> exists o, heap s !! loc x = Some o /\ mo_locked o = true) ->
  foreach xs (fun x => unlock_map (loc x)) s =
  (with_heap (update_locs loc (fun _ => set_locked false) xs (heap s)) s, Ret tt).
Proof. apply (foreach_update loc _ (fun _ o => mo_locked o = true)). intros. by eapply unlock_map_eq. Qed.

(** ** Committers *)

Definition vloc (view : Name * MapChanges) : Loc := fst (snd view).
Definition vchanges (view : Name * MapChanges) : AnyChangeSet := snd (snd view).

(** The map after the changes, and the version the committer reports. *)
Definition committed_map (c : AnyChangeSet) (v : Z) (m : Map) : Map :=
  match c with
  | Changes cs => fst (commit cs v false m)
  | SnapshotChanges st version => fst (commit_snapshot st version m)
  end.

Definition committed_version (c : AnyChangeSet) (v : Z) : Z :=
  match c with
  | Changes cs => if is_empty (cs_writes cs) then cs_start_version cs else v
  | SnapshotChanges _ version => version
  end.

Definition live_object (o : MapObject) : Prop := mo_locked o = false /\ commits (mo_map o) <> [].

Lemma commit_returns cs v m :
  commits m <> [] -> snd (commit cs v false m) = Ret (committed_version (Changes cs) v).
Proof.
  intros Hm. cbn. destruct (decide (cs_writes cs = ∅)) as [He|He].
  - by rewrite commit_nothing, is_empty_true.
  - rewrite is_empty_false by done. apply last_is_Some in Hm as [c Hc]. by rewrite (commit_eq m cs v c).
Qed.

Lemma committer_commit_eq mc v o s :
  heap s !! fst mc = Some o -> commits (mo_map o) <> [] ->
  committer_commit mc v false s =
  (with_heap (alter (change_map (committed_map (snd mc) v)) (fst mc) (heap s)) s,
   Ret (committed_version (snd mc) v)).
Proof.
  intros Ho Hm. destruct mc as [l [cs|st ver]]; cbn [fst snd] in *.
  - apply (on_map_eq l o); [done|]. by apply commit_returns.
  - unfold committer_commit. cbn [snd fst]. unfold mbind, ST_bind. by rewrite (on_map_eq l o _ _ tt).
Qed.

Lemma commit_views_eq views v s :
  NoDup (vloc <$> views) ->
  (forall view, view ∈ views -> exists o, heap s !! vloc view = Some o /\ commits (mo_map o) <> []) ->
  commit_views views v false s =
  (with_heap (update_locs vloc (fun view => change_map (committed_map (vchanges view) v)) views (heap s)) s,
   Ret ((fun view => (snd view, committed_version (vchanges view) v)) <$> views)).
Proof.
  revert s. induction views as [|[n mc] views IH]; intros s Hnd Hpre; [cbn; by rewrite with_heap_heap|].
  cbn in Hnd. apply NoDup_cons in Hnd as [Hx Hnd]. destruct (Hpre (n, mc)) as (o & Ho & Hp); [by left|].
  cbn [commit_views]. unfold mbind, ST_bind. rewrite (committer_commit_eq mc v o) by done. rewrite IH; [done..|].
  intros y Hy. destruct (Hpre y) as (o' & Ho' & Hp'); [by right|]. exists o'. split; [|done]. cbn.
  rewrite list_lookup_alter_ne; [done|]. intros E. apply Hx. unfold vloc at 1. cbn. rewrite E.
  by apply (list_elem_of_fmap_2 vloc).
Qed.

(** Whether a committer finds no conflict. *)
Definition prepared_in (h : list MapObject) (track : bool) (view : Name * MapChanges) : bool :=
  match h !! vloc view, vchanges view with
  | Some o, Changes cs => prepare (mo_map o) cs track
  | _, _ => true
  end.

Lemma all_prepared_eq views track s :
  (forall view, view ∈ views -> is_Some (heap s !! vloc view)) ->
  all_prepared views track s = (s, Ret (forallb (prepared_in (heap s) track) views)).
Proof.
  induction views as [|[n [l c]] views IH]; intros Hpre; [done|]. cbn [all_prepared forallb].
  destruct (Hpre (n, (l, c))) as [o Ho]; [by left|]. unfold vloc in Ho. cbn in Ho.
  unfold mbind, ST_bind, committer_prepare. cbn [fst snd]. unfold mbind, ST_bind. rewrite (map_at_eq l o) by done.
  unfold prepared_in at 1, vloc, vchanges. cbn [fst snd]. rewrite Ho. unfold mret, ST_ret.
  destruct (match c with Changes _ => _ | _ => _ end) eqn:E.
  - rewrite IH; [by destruct c; rewrite ?E|]. intros view Hv. apply Hpre. by right.
  - by destruct c; rewrite ?E.
Qed.

(** The consensus hooks, from the maps after the commit. *)
Definition hook_of (h : list MapObject) (x : MapChanges * Z) : outcome (option Hook) :=
  match h !! fst (fst x) with
  | None => Ret None
  | Some o =>
      match trigger_map_hook (mo_map o) (snd x)
        (match snd (fst x) with
         | Changes cs => cs_writes cs
         | SnapshotChanges _ _ => from_option lc_writes ∅ (head (commits (mo_map o)))
         end) with
      | Some (v, w) => call_map_hook (mo_name o) v w
      | None => Ret None
      end
  end.

(** The hooks are called in order, up to the first that throws. *)
Fixpoint hooks_of (h : list MapObject) (xs : list (MapChanges * Z)) : outcome (list Hook) :=
  match xs with
  | [] => Ret []
  | x :: xs =>
      match hook_of h x, hooks_of h xs with
      | Throw e, _ | _, Throw e => Throw e
      | Ret None, Ret hooks => Ret hooks
      | Ret (Some hook), Ret hooks => Ret (hook :: hooks)
      end
  end.

Lemma hooks_of_throws h xs e : hooks_of h xs = Throw e -> exists name v w, call_map_hook name v w = Throw e.
Proof.
  induction xs as [|x xs IH]; [done|]. cbn. unfold hook_of. destruct (h !! _) as [o|]; [|by destruct (hooks_of h xs)].
  destruct (trigger_map_hook _ _ _) as [[v w]|]; [|by destruct (hooks_of h xs)].
  destruct (call_map_hook (mo_name o) v w) as [r|e'] eqn:E; [|intros [= <-]; eauto]. destruct (hooks_of h xs); [by destruct r|].
  intros H. apply IH. by destruct r.
Qed.

Lemma post_commit_views_eq xs s :
  (forall x, x ∈ xs -> is_Some (heap s !! fst (fst x))) ->
  post_commit_views call_map_hook xs s = (s, hooks_of (heap s) xs).
Proof.
  induction xs as [|[mc cv] xs IH]; intros Hpre; [done|]. cbn [post_commit_views].
  destruct (Hpre (mc, cv)) as [o Ho]; [by left|]. cbn in Ho.
  unfold mbind, ST_bind, committer_post_commit. unfold mbind at 1, ST_bind at 1. rewrite (map_at_eq _ o) by done.
  cbn [hooks_of]. unfold hook_of. cbn [fst snd]. rewrite Ho.
  assert (post_commit_views call_map_hook xs s = (s, hooks_of (heap s) xs)) as E by (apply IH; intros x Hx; apply Hpre; by right).
  destruct (trigger_map_hook _ _ _) as [[v w]|]; [unfold of_outcome; destruct (call_map_hook _ v w) as [r|]; [|done]|];
    unfold mret, ST_ret; cbn beta iota; rewrite E; [destruct r|]; by destruct (hooks_of (heap s) xs).
Qed.

(** ** New maps *)

(** A new map gets the hooks that are registered for its name. *)
Definition add_hooks (gh mh : gset Name) (o : MapObject) : MapObject :=
  change_map (fun m => m <| global_hook := global_hook m || bool_decide (mo_name o ∈ gh) |>
    <| hook := hook m || bool_decide (mo_name o ∈ mh) |>) o.

Definition with_maps (ms : gmap Name (Z * Loc)) (s : Store P) : Store P := s <| maps := ms |>.

Lemma set_hook_if (b : bool) l o s :
  heap s !! l = Some o ->
  (if b then on_map l (hook <~ true) else skip) s =
  (with_heap (<[l := change_map (fun m => m <| hook := hook m || b |>) o]> (heap s)) s, Ret tt).
Proof.
  intros Ho. destruct b.
  - rewrite (on_map_eq l o s _ tt Ho), (alter_insert _ _ o) by done. unfold change_map. by rewrite orb_true_r.
  - unfold change_map. rewrite orb_false_r. destruct o as [n d r [] lk]. rewrite list_insert_id by done. by destruct s.
Qed.

Lemma set_global_hook_if (b : bool) l o s :
  heap s !! l = Some o ->
  (if b then on_map l (global_hook <~ true) else skip) s =
  (with_heap (<[l := change_map (fun m => m <| global_hook := global_hook m || b |>) o]> (heap s)) s, Ret tt).
Proof.
  intros Ho. destruct b.
  - rewrite (on_map_eq l o s _ tt Ho), (alter_insert _ _ o) by done. unfold change_map. by rewrite orb_true_r.
  - unfold change_map. rewrite orb_false_r. destruct o as [n d r [] lk]. rewrite list_insert_id by done. by destruct s.
Qed.

Lemma add_dynamic_map_eq v l o s :
  heap s !! l = Some o -> get_map s v (mo_name o) = None ->
  add_dynamic_map v l s =
  (with_heap (alter (add_hooks (global_hooks s) (map_hooks s)) l (heap s))
     (with_maps (<[mo_name o := (v, l)]> (maps s)) s), Ret tt).
Proof.
  intros Ho Hget. unfold add_dynamic_map, mbind, ST_bind. rewrite (map_at_eq l o) by done. unfold get. rewrite Hget.
  unfold assign at 1, modify at 1. rewrite (set_global_hook_if _ l o) by done. rewrite (alter_insert _ _ o) by done.
  erewrite set_hook_if by (apply list_lookup_insert_eq; by eapply lookup_lt_Some).
  unfold with_heap at 1 2. cbn. by rewrite list_insert_insert_eq.
Qed.

(** The pointers of the new maps, with their creation version. *)
Definition added (v : Z) (news : list (Name * Loc)) (ms : gmap Name (Z * Loc)) : gmap Name (Z * Loc) :=
  foldl (fun ms new => <[fst new := (v, snd new)]> ms) ms news.

Definition with_hooks (gh mh : gset Name) (news : list (Name * Loc)) (h : list MapObject) : list MapObject :=
  foldl (fun h new => alter (add_hooks gh mh) (snd new) h) h news.

Lemma with_hooks_name gh mh news h l o :
  h !! l = Some o -> exists o', with_hooks gh mh news h !! l = Some o' /\ mo_name o' = mo_name o /\
    mo_locked o' = mo_locked o /\ commits (mo_map o') = commits (mo_map o).
Proof.
  revert h o. induction news as [|new news IH]; intros h o Ho; [by exists o|]. cbn [with_hooks foldl].
  destruct (decide (snd new = l)) as [E|E].
  - destruct (IH (alter (add_hooks gh mh) (snd new) h) (add_hooks gh mh o)) as (o' & ? & ? & ? & ?); [|by exists o'].
    by rewrite E, list_lookup_alter_eq, Ho.
  - apply IH. by rewrite list_lookup_alter_ne.
Qed.

Lemma add_news_eq v news s :
  NoDup news.*1 ->
  (forall new, new ∈ news -> exists o, heap s !! snd new = Some o /\ mo_name o = fst new) ->
  (forall new, new ∈ news -> get_map s v (fst new) = None) ->
  foreach news (fun new => add_dynamic_map v (snd new)) s =
  (with_heap (with_hooks (global_hooks s) (map_hooks s) news (heap s)) (with_maps (added v news (maps s)) s), Ret tt).
Proof.
  revert s. induction news as [|[n l] news IH]; intros s Hnd Hobj Hget; [by destruct s|].
  cbn in Hnd. apply NoDup_cons in Hnd as [Hn Hnd]. destruct (Hobj (n, l)) as (o & Ho & Hname); [by left|].
  cbn [fst snd] in *. subst n. cbn [foreach]. unfold mbind, ST_bind. cbn [snd].
  rewrite (add_dynamic_map_eq v l o) by (done || apply (Hget (mo_name o, l)); by left).
  rewrite IH; [done|done| |].
  - intros new Hnew. destruct (Hobj new) as (o' & Ho' & Hname'); [by right|]. cbn.
    destruct (decide (l = snd new)) as [E|E].
    + rewrite E, list_lookup_alter_eq, Ho'. by eexists.
    + rewrite list_lookup_alter_ne by done. by exists o'.
  - intros new Hnew. specialize (Hget new). unfold get_map in *. cbn. rewrite lookup_insert_ne; [apply Hget; by right|].
    intros E. apply Hn. rewrite E. by apply list_elem_of_fmap_2.
Qed.

(** ** [apply_changes] as a whole *)

(** What [apply_changes] is given: pointers to maps that exist, each map once and
    not locked, and new maps under their own names. *)
Record changes_ok (s : Store P) (changes : gmap Name MapChanges) (new_maps : gmap Name Loc) : Prop := {
  ok_distinct : NoDup (vloc <$> ordered changes);
  ok_live view : view ∈ ordered changes -> exists o, heap s !! vloc view = Some o /\ live_object o;
  ok_new new : new ∈ ordered new_maps -> exists o, heap s !! snd new = Some o /\ mo_name o = fst new
}.

Definition any_writes (changes : gmap Name MapChanges) : bool :=
  existsb (fun view => any_has_writes (vchanges view)) (ordered changes).

(** No committer finds a conflict, and no other transaction has created one of the maps. *)
Definition conflict_free (s : Store P) (changes : gmap Name MapChanges) (new_maps : gmap Name Loc)
    (conflict_version : option Z) (track : bool) : bool :=
  forallb (prepared_in (heap s) track) (ordered changes) &&
  forallb (fun new => bool_decide (get_map s (from_option id (store_version s) conflict_version) (fst new) = None))
    (ordered new_maps).

(** The new maps that become part of the store. *)
Definition kept_maps (changes : gmap Name MapChanges) (new_maps : gmap Name Loc) : list (Name * Loc) :=
  filter (fun new => from_option (fun mc => any_has_writes (snd mc)) false (changes !! fst new) = true) (ordered new_maps).

(** The heap after a commit at [v]. *)
Definition committed_heap (gh mh : gset Name) (changes : gmap Name MapChanges) (new_maps : gmap Name Loc) (v : Z)
    (h : list MapObject) : list MapObject :=
  update_locs vloc (fun view => change_map (committed_map (vchanges view) v)) (ordered changes)
    (with_hooks gh mh (kept_maps changes new_maps) h).

Definition committed_hooks (changes : gmap Name MapChanges) (v : Z) (h : list MapObject) : outcome (list Hook) :=
  hooks_of h ((fun view => (snd view, committed_version (vchanges view) v)) <$> ordered changes).

(** The resolver gives the version [v] and leaves the maps alone. *)
Definition resolves (resolver : bool -> ST (Store P) (Z * Z)) (b : bool) (s s1 : Store P) (v : Z) : Prop :=
  forall h, exists x, resolver b (with_heap h s) = (with_heap h s1, Ret (v, x)).

Definition lock_views (b track : bool) (views : list (Name * MapChanges)) (h : list MapObject) : list MapObject :=
  update_locs vloc (fun view o => if any_has_writes (vchanges view) || track then set_locked b o else o) views h.

Lemma lock_views_eq track views s :
  NoDup (vloc <$> views) ->
  (forall view, view ∈ views -> exists o, heap s !! vloc view = Some o /\ mo_locked o = false) ->
  foreach views (fun view => if any_has_writes (snd (snd view)) || track then lock_map (fst (snd view)) else skip) s =
  (with_heap (lock_views true track views (heap s)) s, Ret tt).
Proof.
  apply (foreach_update vloc _ (fun _ o => mo_locked o = false)). intros view o s' _ Ho Hl. unfold vchanges.
  destruct (_ || _); [by apply (lock_map_eq _ o)|]. unfold skip, mret, ST_ret.
  rewrite (alter_insert _ _ o), list_insert_id by done. by rewrite with_heap_heap.
Qed.

Lemma unlock_views_eq track views s :
  NoDup (vloc <$> views) ->
  (forall view, view ∈ views -> exists o, heap s !! vloc view = Some o /\
     (any_has_writes (vchanges view) || track = true -> mo_locked o = true)) ->
  foreach views (fun view => if any_has_writes (snd (snd view)) || track then unlock_map (fst (snd view)) else skip) s =
  (with_heap (lock_views false track views (heap s)) s, Ret tt).
Proof.
  apply (foreach_update vloc _ (fun view o => any_has_writes (vchanges view) || track = true -> mo_locked o = true)).
  intros view o s' _ Ho Hl. unfold vchanges in *. destruct (_ || _); [apply (unlock_map_eq _ o); [done|by apply Hl]|].
  unfold skip, mret, ST_ret. rewrite (alter_insert _ _ o), list_insert_id by done. by rewrite with_heap_heap.
Qed.

Lemma lock_views_lookup track views h view :
  NoDup (vloc <$> views) -> view ∈ views ->
  lock_views true track views h !! vloc view =
  (fun o => if any_has_writes (vchanges view) || track then set_locked true o else o) <$> h !! vloc view.
Proof. apply (update_locs_in vloc). Qed.

(** Locking and then unlocking changes nothing. *)
Lemma lock_unlock track views h :
  NoDup (vloc <$> views) ->
  (forall view, view ∈ views -> exists o, h !! vloc view = Some o /\ mo_locked o = false) ->
  lock_views false track views (lock_views true track views h) = h.
Proof.
  intros Hnd Hpre. unfold lock_views. rewrite update_locs_compose by done. apply update_locs_id; [done|].
  intros view o Hv Ho. destruct (Hpre view Hv) as (o' & Ho' & Hl). rewrite Ho in Ho'. injection Ho' as <-.
  destruct (_ || _); [|done]. destruct o. cbn in *. by subst.
Qed.

(** The same around a commit. *)
Lemma lock_commit_unlock gh mh changes new_maps v track h :
  NoDup (vloc <$> ordered changes) ->
  (forall view, view ∈ ordered changes -> exists o, h !! vloc view = Some o /\ mo_locked o = false) ->
  lock_views false track (ordered changes)
    (committed_heap gh mh changes new_maps v (lock_views true track (ordered changes) h)) =
  committed_heap gh mh changes new_maps v h.
Proof.
  intros Hnd Hpre. unfold committed_heap, lock_views, with_hooks.
  rewrite <- (update_locs_commute vloc snd _ (fun _ => add_hooks gh mh)); [|done|].
  2: { intros view new o. by destruct (_ || _). }
  rewrite !update_locs_compose by done. apply update_locs_ext; [done|]. intros view o Hv Ho.
  destruct (Hpre view Hv) as (o' & Ho' & Hl).
  destruct (with_hooks_name gh mh (kept_maps changes new_maps) _ _ _ Ho') as (o'' & Ho'' & _ & Hlk & _).
  unfold with_hooks in Ho''. rewrite Ho in Ho''. injection Ho'' as <-. rewrite <- Hlk in Hl.
  destruct (_ || _); [|done]. destruct o. cbn in *. by subst.
Qed.

Lemma foreach_ext {S A} (f g : A -> ST S unit) (xs : list A) (s : S) :
  (forall x (t : S), x ∈ xs -> f x t = g x t) -> foreach xs f s = foreach xs g s.
Proof.
  revert s. induction xs as [|x xs IH]; intros s H; [done|]. cbn [foreach]. unfold mbind, ST_bind.
  rewrite H by (by left). destruct (g x s) as [s' [a|e]]; [|done]. apply IH. intros y s'' Hy. apply H. by right.
Qed.

(** The commit itself. *)
Lemma commit_part changes new_maps h0 s1 v :
  NoDup (vloc <$> ordered changes) ->
  (forall view, view ∈ ordered changes -> exists o, h0 !! vloc view = Some o /\ commits (mo_map o) <> []) ->
  (forall new, new ∈ ordered new_maps -> exists o, h0 !! snd new = Some o /\ mo_name o = fst new) ->
  (forall new, new ∈ kept_maps changes new_maps -> get_map s1 v (fst new) = None) ->
  let h := committed_heap (global_hooks s1) (map_hooks s1) changes new_maps v h0 in
  (foreach (ordered new_maps) (fun new =>
     match changes !! fst new with
     | Some mc => if any_has_writes (snd mc) then add_dynamic_map v (snd new) else skip
     | None => skip
     end);;
   committed ← commit_views (ordered changes) v false;
   hooks ← post_commit_views call_map_hook committed;
   mret (true, v, hooks)) (with_heap h0 s1) =
  (with_heap h (with_maps (added v (kept_maps changes new_maps) (maps s1)) s1), 
    match committed_hooks changes v h with Ret hooks => Ret (true, v, hooks) | Throw e => Throw e end).
Proof.
  intros Hnd Hlive Hnew Hget h. unfold mbind at 1, ST_bind at 1.
  rewrite (foreach_ext _ (fun new => if from_option (fun mc : MapChanges => any_has_writes (snd mc)) false (changes !! fst new)
    then add_dynamic_map v (snd new) else skip)) by (intros new t _; by destruct (changes !! fst new)).
  rewrite foreach_filter. fold (kept_maps changes new_maps). rewrite add_news_eq.
  - cbn [heap with_heap global_hooks map_hooks maps]. unfold mbind at 1, ST_bind at 1.
    set (h1 := with_hooks _ _ _ _). assert (forall l o, h0 !! l = Some o -> exists o', h1 !! l = Some o' /\
      commits (mo_map o') = commits (mo_map o)) as H1.
    { intros l o Ho. destruct (with_hooks_name (global_hooks s1) (map_hooks s1) (kept_maps changes new_maps) _ _ _ Ho)
        as (o' & ? & _ & _ & ?). by exists o'. }
    rewrite commit_views_eq; [|done|].
    + unfold mbind at 1, ST_bind at 1. rewrite post_commit_views_eq; [unfold mret, ST_ret; unfold committed_hooks; cbn; by destruct (hooks_of _ _)|].
      intros x (view & -> & Hv)%list_elem_of_fmap. destruct (Hlive view Hv) as (o & Ho & _).
      destruct (H1 _ _ Ho) as (o' & Ho' & _). cbn. fold (vloc view). rewrite update_locs_in by done. cbn. rewrite Ho'. by eexists.
    + intros view Hv. destruct (Hlive view Hv) as (o & Ho & Hne). destruct (H1 _ _ Ho) as (o' & Ho' & Hc).
      exists o'. split; [done|]. by rewrite Hc.
  - unfold kept_maps. apply (sublist_NoDup _ (ordered new_maps).*1); [apply ordered_NoDup|].
    apply fmap_sublist, sublist_filter.
  - intros new [_ Hin]%list_elem_of_filter. by apply Hnew.
  - done.
Qed.

Section apply.
Context (s : Store P) (changes : gmap Name MapChanges) (new_maps : gmap Name Loc) (Hok : changes_ok s changes new_maps).
Context (resolver : bool -> ST (Store P) (Z * Z)) (conflict_version : option Z) (track : bool).

Local Abbreviation views := (ordered changes).
Local Abbreviation locked := (with_heap (lock_views true track views (heap s)) s).

Lemma ok_unlocked view : view ∈ views -> exists o, heap s !! vloc view = Some o /\ mo_locked o = false.
Proof. intros Hv. destruct (ok_live _ _ _ Hok view Hv) as (o & Ho & Hl & _). by exists o. Qed.

Lemma locked_lookup view : view ∈ views -> exists o b, heap s !! vloc view = Some o /\ live_object o /\
  heap locked !! vloc view = Some (set_locked b o) /\ (any_has_writes (vchanges view) || track = true -> b = true).
Proof.
  intros Hv. destruct (ok_live _ _ _ Hok view Hv) as (o & Ho & Hl & Hc). exists o, (any_has_writes (vchanges view) || track).
  cbn. rewrite lock_views_lookup, Ho by (done || apply (ok_distinct _ _ _ Hok)). cbn. split_and!; try done.
  destruct (_ || _); [done|]. destruct o. cbn in *. by subst.
Qed.

(** The checks see the same maps with and without the locks. *)
Lemma locked_prepared : forallb (prepared_in (heap locked) track) views = forallb (prepared_in (heap s) track) views.
Proof.
  apply forallb_ext_in. intros view Hv. unfold prepared_in.
  destruct (locked_lookup view Hv) as (o & b & Ho & _ & Hlk & _). by rewrite Ho, Hlk.
Qed.

Lemma unlock_locked s1 :
  foreach views (fun view => if any_has_writes (snd (snd view)) || track then unlock_map (fst (snd view)) else skip)
    (with_heap (lock_views true track views (heap s)) s1) = (with_heap (heap s) s1, Ret tt).
Proof.
  rewrite unlock_views_eq; [|apply Hok|].
  - cbn. rewrite lock_unlock; [done|apply Hok|]. apply ok_unlocked.
  - intros view Hv. destruct (locked_lookup view Hv) as (o & b & _ & _ & Hlk & Hb). exists (set_locked b o). by split.
Qed.

(** The part after the checks. *)
Definition decide_and_unlock (free : bool) : ST (Store P) (option Z * list Hook) :=
  '(ok, version, hooks) ←
    (if free && any_writes changes then
       '(version, _) ← resolver (negb (is_empty new_maps));
       if track then mret (false, version, [])
       else
         foreach (ordered new_maps) (fun new =>
           match changes !! fst new with
           | Some mc => if any_has_writes (snd mc) then add_dynamic_map version (snd new) else skip
           | None => skip
           end);;
         committed ← commit_views views version track;
         hooks ← post_commit_views call_map_hook committed;
         mret (true, version, hooks)
     else mret (free, NoVersion, []));
  foreach views (fun view => if any_has_writes (snd (snd view)) || track then unlock_map (fst (snd view)) else skip);;
  mret (if (ok : bool) then Some version else None, hooks).

Lemma apply_changes_checks :
  apply_changes call_map_hook changes resolver new_maps conflict_version track s =
  decide_and_unlock (conflict_free s changes new_maps conflict_version track) locked.
Proof.
  unfold apply_changes. unfold mbind at 1, ST_bind at 1.
  rewrite lock_views_eq by (apply Hok || apply ok_unlocked). unfold mbind at 1, ST_bind at 1.
  rewrite all_prepared_eq.
  - rewrite locked_prepared. done.
  - intros view Hv. destruct (locked_lookup view Hv) as (o & b & _ & _ & -> & _). by eexists.
Qed.

Lemma apply_changes_conflict :
  conflict_free s changes new_maps conflict_version track = false ->
  apply_changes call_map_hook changes resolver new_maps conflict_version track s = (s, Ret (None, [])).
Proof.
  intros Hc. rewrite apply_changes_checks, Hc. unfold decide_and_unlock. cbn [andb]. unfold mbind, ST_bind, mret, ST_ret.
  rewrite unlock_locked. by rewrite with_heap_heap.
Qed.

Lemma apply_changes_read_only :
  conflict_free s changes new_maps conflict_version track = true -> any_writes changes = false ->
  apply_changes call_map_hook changes resolver new_maps conflict_version track s = (s, Ret (Some NoVersion, [])).
Proof.
  intros Hc Hw. rewrite apply_changes_checks, Hc. unfold decide_and_unlock. rewrite Hw. cbn [andb]. unfold mbind, ST_bind, mret, ST_ret.
  rewrite unlock_locked. by rewrite with_heap_heap.
Qed.

Lemma apply_changes_tracked s1 v :
  conflict_free s changes new_maps conflict_version track = true -> any_writes changes = true -> track = true ->
  resolves resolver (negb (is_empty new_maps)) s s1 v ->
  apply_changes call_map_hook changes resolver new_maps conflict_version track s =
  (with_heap (heap s) s1, Ret (None, [])).
Proof.
  intros Hc Hw Ht Hres. rewrite apply_changes_checks, Hc. unfold decide_and_unlock. rewrite Hw. cbn [andb]. destruct (Hres (lock_views true track views (heap s))) as [x Hx].
  pose proof (unlock_locked s1) as Hu. unfold mbind, ST_bind, mret, ST_ret. rewrite Ht in Hu, Hx |- *.
  by rewrite Hx, Hu.
Qed.

Lemma locked_name l o : heap s !! l = Some o -> exists o', heap locked !! l = Some o' /\ mo_name o' = mo_name o.
Proof.
  intros Ho. destruct (decide (l ∈ vloc <$> views)) as [Hl|Hl].
  - apply list_elem_of_fmap in Hl as (view & -> & Hv). destruct (locked_lookup view Hv) as (o' & b & Ho' & _ & Hlk & _).
    exists (set_locked b o'). split; [done|]. rewrite Ho in Ho'. by injection Ho' as <-.
  - exists o. split; [|done]. cbn. unfold lock_views. by rewrite update_locs_out.
Qed.

Lemma unlock_committed gh mh v s1 :
  foreach views (fun view => if any_has_writes (snd (snd view)) || track then unlock_map (fst (snd view)) else skip)
    (with_heap (committed_heap gh mh changes new_maps v (lock_views true track views (heap s))) s1) =
  (with_heap (committed_heap gh mh changes new_maps v (heap s)) s1, Ret tt).
Proof.
  rewrite unlock_views_eq; [|apply Hok|].
  - cbn. rewrite lock_commit_unlock; [done|apply Hok|]. apply ok_unlocked.
  - intros view Hv. destruct (locked_lookup view Hv) as (o & b & _ & _ & Hlk & Hb).
    destruct (with_hooks_name gh mh (kept_maps changes new_maps) _ _ _ Hlk) as (o' & Ho' & _ & Hl & _).
    cbn. unfold committed_heap. rewrite update_locs_in by (done || apply Hok). cbn in Ho'. rewrite Ho'.
    eexists. split; [done|]. intros Hn. cbn. rewrite Hl. by apply Hb.
Qed.

(** A commit: the version comes from the resolver, the new maps that are written to become part of the store,
    every map gets its changes, and the hooks are called. The locks are released if they return. *)
Lemma apply_changes_applies s1 v :
  conflict_free s changes new_maps conflict_version track = true -> any_writes changes = true -> track = false ->
  resolves resolver (negb (is_empty new_maps)) s s1 v ->
  (forall new, new ∈ kept_maps changes new_maps -> get_map s1 v (fst new) = None) ->
  let h h0 := committed_heap (global_hooks s1) (map_hooks s1) changes new_maps v h0 in
  let s2 := with_maps (added v (kept_maps changes new_maps) (maps s1)) s1 in
  let hl := h (lock_views true track views (heap s)) in
  apply_changes call_map_hook changes resolver new_maps conflict_version track s =
  match committed_hooks changes v hl with
  | Ret hooks => (with_heap (h (heap s)) s2, Ret (Some v, hooks))
  | Throw e => (with_heap hl s2, Throw e)
  end.
Proof.
  intros Hc Hw Ht Hres Hget h s2 hl.
  rewrite apply_changes_checks, Hc. unfold decide_and_unlock. rewrite Hw. cbn [andb].
  destruct (Hres (lock_views true track views (heap s))) as [x Hx]. unfold mbind at 2, ST_bind at 2.
  unfold mbind at 1, ST_bind at 1. unfold mbind at 1, ST_bind at 1. rewrite Hx.
  pose proof unlock_committed as Hu. unfold hl. rewrite Ht in Hu |- *.
  rewrite commit_part; [|apply Hok|..|done].
  - unfold h. destruct (committed_hooks _ _ _); [|done]. unfold mbind, ST_bind. by rewrite Hu.
  - intros view Hv. destruct (locked_lookup view Hv) as (o & b & _ & [_ Hne] & Hlk & _). rewrite Ht in Hlk.
    exists (set_locked b o). by split.
  - intros new Hn. destruct (ok_new _ _ _ Hok new Hn) as (o & Ho & Hname).
    destruct (locked_name (snd new) o Ho) as (o' & Ho' & Hname'). rewrite Ht in Ho'. exists o'. split; [done|congruence].
Qed.
End apply.

(** The commits of a map and its count of rollbacks. *)
Definition roll (o : MapObject) : list LocalCommit * Z := (commits (mo_map o), rollback_counter (mo_map o)).

(** What is kept of an object whatever its hooks are. *)
Definition same_but_hooks (o o' : MapObject) : Prop :=
  mo_name o' = mo_name o /\ mo_domain o' = mo_domain o /\ mo_replicated o' = mo_replicated o /\
  mo_locked o' = mo_locked o /\ roll o' = roll o.

Lemma with_hooks_lookup gh mh news h l :
  match h !! l, with_hooks gh mh news h !! l with
  | Some o, Some o' => same_but_hooks o o'
  | None, None => True
  | _, _ => False
  end.
Proof.
  revert h. induction news as [|new news IH]; intros h.
  - cbn. destruct (h !! l); [|done]. by unfold same_but_hooks.
  - cbn [with_hooks foldl]. specialize (IH (alter (add_hooks gh mh) (snd new) h)).
    destruct (decide (snd new = l)) as [E|E].
    + rewrite E, list_lookup_alter_eq in IH. rewrite E. by destruct (h !! l).
    + by rewrite list_lookup_alter_ne in IH.
Qed.

(** The roll a change set leaves depends on the roll only. *)
Lemma committed_roll c v (m m' : Map) :
  commits m <> [] -> commits m' = commits m -> rollback_counter m' = rollback_counter m ->
  match c with
  | Changes _ => (commits (committed_map c v m'), rollback_counter (committed_map c v m')) =
      (commits (committed_map c v m), rollback_counter (committed_map c v m))
  | SnapshotChanges _ _ => True
  end.
Proof.
  intros Hne Hc Hr. destruct c as [cs|]; [|done]. cbn [committed_map].
  destruct (decide (cs_writes cs = ∅)) as [He|He]; [rewrite !commit_nothing by done; cbn [fst]; by rewrite Hc, Hr|].
  apply last_is_Some in Hne as [d Hd]. rewrite (commit_eq m cs v d), (commit_eq m' cs v d) by congruence.
  destruct (changes_state _ _ _); cbn; by rewrite Hc, Hr.
Qed.

(** The roll of the object at [l], after the changes that are made to it. *)
Definition roll_after (changes : gmap Name MapChanges) (v : Z) (l : Loc) (o : MapObject) : list LocalCommit * Z :=
  match list_find (fun view => vloc view = l) (ordered changes) with
  | Some (_, view) => roll (change_map (committed_map (vchanges view) v) o)
  | None => roll o
  end.

Definition no_snapshot (changes : gmap Name MapChanges) : bool :=
  forallb (fun view => match vchanges view with Changes _ => true | _ => false end) (ordered changes).

Lemma committed_heap_lookup gh mh changes new_maps v h l o :
  NoDup (vloc <$> ordered changes) -> no_snapshot changes = true ->
  h !! l = Some o -> commits (mo_map o) <> [] ->
  exists o', committed_heap gh mh changes new_maps v h !! l = Some o' /\ mo_name o' = mo_name o /\
    mo_domain o' = mo_domain o /\ mo_replicated o' = mo_replicated o /\ mo_locked o' = mo_locked o /\
    roll o' = roll_after changes v l o.
Proof.
  intros Hnd Hns Ho Hne. unfold committed_heap, roll_after.
  pose proof (with_hooks_lookup gh mh (kept_maps changes new_maps) h l) as Hh. rewrite Ho in Hh.
  destruct (with_hooks _ _ _ _ !! l) as [o1|] eqn:E1; [|done]. destruct Hh as (? & ? & ? & ? & Hroll).
  destruct (list_find _ _) as [[i view]|] eqn:Ef.
  - apply list_find_Some in Ef as (Hv%list_elem_of_lookup_2 & <- & _). rewrite update_locs_in, E1 by done.
    eexists. split; [done|]. split_and!; try done. unfold roll in Hroll. injection Hroll as Hc Hr.
    pose proof (committed_roll (vchanges view) v (mo_map o) (mo_map o1) Hne Hc Hr) as Hcr.
    unfold no_snapshot in Hns. rewrite forallb_forall in Hns. specialize (Hns view (proj1 (list_elem_of_In _ _) Hv)).
    by destruct (vchanges view).
  - apply list_find_None in Ef. exists o1. rewrite update_locs_out; [by split_and!|].
    intros (view & -> & Hv)%list_elem_of_fmap. rewrite Forall_forall in Ef. by apply (Ef view).
Qed.
End store_props.

(** Hooks that return. *)
Definition returning (map_hook : Name -> Z -> Write -> option Hook) : Name -> Z -> Write -> outcome (option Hook) :=
  fun name v w => Ret (map_hook name v w).

(** A commit with hooks that return. *)
Lemma apply_changes_commits {P : Type} map_hook (s : Store P) changes new_maps (Hok : changes_ok s changes new_maps)
    resolver conflict_version track s1 v :
  conflict_free s changes new_maps conflict_version track = true -> any_writes changes = true -> track = false ->
  resolves resolver (negb (is_empty new_maps)) s s1 v ->
  (forall new, new ∈ kept_maps changes new_maps -> get_map s1 v (fst new) = None) ->
  let h := committed_heap (global_hooks s1) (map_hooks s1) changes new_maps v (heap s) in
  exists hooks, apply_changes (returning map_hook) changes resolver new_maps conflict_version track s =
    (with_heap h (with_maps (added v (kept_maps changes new_maps) (maps s1)) s1), Ret (Some v, hooks)).
Proof.
  intros Hc Hw Ht Hres Hget h. rewrite (apply_changes_applies _ _ _ _ Hok _ _ _ s1 v) by done.
  destruct (committed_hooks _ _ _ _) as [hooks|e] eqn:E; [by exists hooks|].
  apply hooks_of_throws in E as (n & v' & w & E). discriminate E.
Qed.

(** Whether the changes write to the map at [l]. *)
Definition written_at (changes : gmap Name MapChanges) (l : Loc) : bool :=
  existsb (fun view => bool_decide (vloc view = l) && any_has_writes (vchanges view)) (ordered changes).

Lemma lock_views_at changes h l o :
  NoDup (vloc <$> ordered changes) -> h !! l = Some o ->
  exists o', lock_views true false (ordered changes) h !! l = Some o' /\ mo_name o' = mo_name o /\ mo_map o' = mo_map o /\
    mo_locked o' = mo_locked o || written_at changes l.
Proof.
  intros Hnd Ho. destruct (decide (l ∈ vloc <$> ordered changes)) as [Hl|Hl].
  - apply list_elem_of_fmap in Hl as (view & -> & Hv). rewrite lock_views_lookup, Ho by done. eexists. split; [done|].
    assert (written_at changes (vloc view) = any_has_writes (vchanges view)) as ->.
    { apply eq_true_iff_eq. unfold written_at. rewrite existsb_exists. split.
      - intros (view' & Hv'%list_elem_of_In & [E%bool_decide_eq_true Hw]%andb_prop).
        by rewrite (NoDup_fmap_inj_elem vloc (ordered changes) view view').
      - intros Hw. exists view. split; [by apply list_elem_of_In|]. by rewrite bool_decide_true. }
    rewrite orb_false_r. destruct (any_has_writes _); cbn; [by rewrite orb_true_r|by rewrite orb_false_r].
  - exists o. unfold lock_views. rewrite update_locs_out by done. split_and!; try done.
    assert (written_at changes l = false) as ->; [|by rewrite orb_false_r]. apply not_true_is_false. unfold written_at. rewrite existsb_exists.
    intros (view & Hv%list_elem_of_In & [E%bool_decide_eq_true _]%andb_prop). apply Hl. rewrite <- E. by apply list_elem_of_fmap_2.
Qed.

(** ** Compaction and rollback of all maps *)

Section all_maps.
Context {P : Type} (services : @Services P).
Implicit Types (s : Store P).

(** The maps of the store: a pointer each, to a live object of that name. *)
Definition maps_ok (s : Store P) : Prop :=
  forall n cv l, maps s !! n = Some (cv, l) -> exists o, heap s !! l = Some o /\ mo_name o = n /\ live_object o.

Definition eloc (e : Name * (Z * Loc)) : Loc := snd (snd e).

Lemma maps_distinct s : maps_ok s -> NoDup (eloc <$> ordered (maps s)).
Proof.
  intros Hok. apply NoDup_fmap_2_strong; [|apply (NoDup_fmap_1 fst), ordered_NoDup].
  intros [n1 [cv1 l1]] [n2 [cv2 l2]] H1 H2. unfold eloc. cbn. intros <-.
  apply elem_of_ordered in H1, H2. destruct (Hok _ _ _ H1) as (o1 & Ho1 & Hn1 & _).
  destruct (Hok _ _ _ H2) as (o2 & Ho2 & Hn2 & _). rewrite Ho1 in Ho2. injection Ho2 as <-.
  rewrite Hn1 in Hn2. subst n2. rewrite H1 in H2. congruence.
Qed.

Lemma maps_live s e : maps_ok s -> e ∈ ordered (maps s) -> exists o, heap s !! eloc e = Some o /\ live_object o.
Proof.
  intros Hok. destruct e as [n [cv l]]. intros He%elem_of_ordered. destruct (Hok _ _ _ He) as (o & Ho & _ & Hl).
  by exists o.
Qed.

Lemma map_locs_eq s : map_locs s = eloc <$> ordered (maps s).
Proof. done. Qed.

Lemma foreach_fmap {S A B} (g : A -> B) (f : B -> ST S unit) (xs : list A) (t : S) :
  foreach (g <$> xs) f t = foreach xs (fun x => f (g x)) t.
Proof.
  revert t. induction xs as [|x xs IH]; intros t; [done|]. cbn. unfold mbind, ST_bind.
  destruct (f (g x) t) as [t' [a|e]]; [apply IH|done].
Qed.

Definition with_calls (c : list Call) (s : Store P) : Store P := s <| calls := c |>.

Lemma foreach_calls {A} (f : A -> Call) (xs : list A) s :
  foreach xs (fun x => record_call (f x)) s = (with_calls (calls s ++ (f <$> xs)) s, Ret tt).
Proof.
  revert s. induction xs as [|x xs IH]; intros s.
  - cbn. rewrite app_nil_r. by destruct s.
  - cbn [foreach]. unfold mbind, ST_bind. cbn [record_call modify]. unfold record_call, modify. rewrite IH.
    cbn. by rewrite <- app_assoc.
Qed.

Lemma post_compact_all (xs : list (Name * (Z * Loc))) s :
  NoDup (eloc <$> xs) -> (forall e, e ∈ xs -> is_Some (heap s !! eloc e)) ->
  exists cs, foreach xs (fun e => post_compact_map (eloc e)) s =
    (with_calls cs (with_heap (update_locs eloc (fun _ => change_map (fun m => fst (post_compact m))) xs (heap s)) s), Ret tt).
Proof.
  revert s. induction xs as [|e xs IH]; intros s Hnd Hpre; [exists (calls s); by destruct s|].
  cbn in Hnd. apply NoDup_cons in Hnd as [Hx Hnd]. destruct (Hpre e) as [o Ho]; [by left|].
  cbn [foreach]. unfold mbind at 1, ST_bind at 1. unfold post_compact_map. unfold mbind at 1, ST_bind at 1.
  rewrite (map_at_eq _ o) by done. unfold mbind at 1, ST_bind at 1.
  erewrite (on_map_eq _ o) by done. rewrite (foreach_calls (fun d => GlobalHookCalled (mo_name o) (fst d) (snd d))).
  match goal with |- exists cs, foreach xs _ ?st = _ => destruct (IH st) as [cs Hcs] end; [done| |].
  - intros e' He'. cbn. destruct (Hpre e') as [o' Ho']; [by right|]. rewrite list_lookup_alter_ne; [by eexists|].
    intros E. apply Hx. rewrite E. by apply list_elem_of_fmap_2.
  - exists cs. unfold post_compact_map in Hcs. rewrite Hcs. done.
Qed.

Lemma maps_unlocked s e :
  maps_ok s -> e ∈ ordered (maps s) -> exists o, heap s !! eloc e = Some o /\ mo_locked o = false.
Proof. intros Hok He. destruct (maps_live s e Hok He) as (o & Ho & Hl & _). by exists o. Qed.

Lemma store_compact_eq v s :
  maps_ok s -> v <= store_version s ->
  exists cs, store_compact services v s =
    (with_calls cs (with_heap (update_locs eloc (fun _ => change_map (fun m => fst (post_compact (fst (compact v m)))))
       (ordered (maps s)) (heap s)) (s <| store_compacted := v |>)), Ret tt).
Proof.
  intros Hok Hv. pose proof (maps_distinct s Hok) as Hnd. unfold store_compact. unfold mbind at 1, ST_bind at 1.
  assert (exists c0, (if has_snapshotter services
    then record_call (SnapshotterCommit v (from_option con_is_primary false (consensus services))) else skip) s =
    (with_calls c0 s, Ret tt)) as [c0 ->].
  { destruct (has_snapshotter services); eexists; [done|]. instantiate (1 := calls s). by destruct s. }
  unfold mbind at 1, ST_bind at 1, get. cbn [store_version with_calls set].
  change (store_version (with_calls c0 s)) with (store_version s). destruct (Z.ltb_spec (store_version s) v); [lia|].
  change (map_locs (with_calls c0 s)) with (map_locs s). rewrite map_locs_eq.
  unfold mbind at 1, ST_bind at 1. rewrite foreach_fmap, (lock_all eloc) by (done || intros e He; by apply maps_unlocked).
  unfold mbind at 1, ST_bind at 1. rewrite foreach_fmap.
  rewrite (foreach_update eloc (fun e => on_map (eloc e) (compact v)) (fun _ _ => True)
    (fun _ => change_map (fun m => fst (compact v m)))).
  2: { intros e o t _ Ho _. by apply (on_map_eq _ o). }
  2: { done. }
  2: { intros e He. destruct (maps_live s e Hok He) as (o & Ho & _). cbn. rewrite update_locs_in, Ho by done. by eexists. }
  unfold mbind at 1, ST_bind at 1. rewrite foreach_fmap, (unlock_all eloc).
  2: { done. }
  2: { intros e He. destruct (maps_live s e Hok He) as (o & Ho & _). cbn.
       rewrite !update_locs_in by done. cbn. rewrite Ho. by eexists. }
  cbn [heap with_heap with_calls set]. unfold mbind at 1, ST_bind at 1, assign, modify.
  unfold mbind at 1, ST_bind at 1.
  match goal with |- exists cs, (let (_, _) := (if _ then _ else _) ?t in _) = _ =>
    assert (exists c1, (if has_history services then record_call (HistoryCompact v) else skip) t = (with_calls c1 t, Ret tt))
      as [c1 ->] end.
  { destruct (has_history services); eexists; [done|]. by instantiate (1 := c0). }
  rewrite foreach_fmap. match goal with |- exists cs, foreach _ _ ?t = _ => destruct (post_compact_all (ordered (maps s)) t) as [cs ->] end.
  - done.
  - intros e He. destruct (maps_live s e Hok He) as (o & Ho & _). cbn. rewrite !update_locs_in by done. cbn. rewrite Ho. by eexists.
  - exists cs. match goal with |- (with_calls _ (with_heap ?h _), _) = (with_calls _ (with_heap ?h' _), _) =>
      assert (h = h') as ->; [|done] end.
    cbn. rewrite !update_locs_compose by done. apply update_locs_ext; [done|]. intros e o He Ho.
    destruct (maps_unlocked s e Hok He) as (o' & Ho' & Hl). rewrite Ho in Ho'. injection Ho' as <-.
    destruct o. cbn in *. by subst.
Qed.

(** The maps that a rollback to [v] keeps. *)
Definition kept_by (v : Z) (ms : gmap Name (Z * Loc)) : gmap Name (Z * Loc) := filter (fun e => fst (snd e) <= v) ms.

Definition rolled_back (v : Z) (e : Name * (Z * Loc)) (o : MapObject) : MapObject :=
  change_map (fun m => fst (rollback v m)) (if v <? fst (snd e) then set_locked false o else o).

Lemma rollback_maps_eq v xs s :
  NoDup (eloc <$> xs) -> (forall e, e ∈ xs -> exists o, heap s !! eloc e = Some o /\ mo_locked o = true) ->
  foreach xs (rollback_map v) s =
  (with_maps (foldl (fun ms e => if v <? fst (snd e) then delete (fst e) ms else ms) (maps s) xs)
     (with_heap (update_locs eloc (rolled_back v) xs (heap s)) s), Ret tt).
Proof.
  revert s. induction xs as [|[n [cv l]] xs IH]; intros s Hnd Hpre; [by destruct s|].
  cbn in Hnd. apply NoDup_cons in Hnd as [Hx Hnd]. destruct (Hpre (n, (cv, l))) as (o & Ho & Hl); [by left|].
  unfold eloc in Ho. cbn in Ho. assert (l < length (heap s))%nat as Hlt by by eapply lookup_lt_Some.
  assert (rollback_map v (n, (cv, l)) s = (with_maps (if v <? cv then delete n (maps s) else maps s)
    (with_heap (<[l := rolled_back v (n, (cv, l)) o]> (heap s)) s), Ret tt)) as Hstep.
  { unfold rollback_map, mbind, ST_bind. erewrite (on_map_eq l o), (alter_insert _ _ o) by done.
    unfold rolled_back. cbn [fst snd]. destruct (v <? cv); [|done].
    rewrite (unlock_map_eq l (change_map (fun m => fst (rollback v m)) o)) by (done || by apply list_lookup_insert_eq).
    rewrite (alter_insert _ _ (change_map (fun m => fst (rollback v m)) o)) by by apply list_lookup_insert_eq.
    cbn. rewrite list_insert_insert_eq. done. }
  cbn [foreach]. unfold mbind, ST_bind. rewrite Hstep, IH; [|done|].
  - cbn [update_locs foldl fst snd]. change (eloc (n, (cv, l))) with l. by rewrite (alter_insert _ _ o).
  - intros e He. destruct (Hpre e) as (o' & Ho' & Hl'); [by right|]. exists o'. split; [|done]. cbn.
    rewrite list_lookup_insert_ne; [done|]. intros E. apply Hx. unfold eloc at 1. cbn. rewrite E. by apply list_elem_of_fmap_2.
Qed.

Lemma foldl_delete_kept (v : Z) (xs : list (Name * (Z * Loc))) (ms : gmap Name (Z * Loc)) (n : Name) :
  NoDup xs.*1 -> (forall n x, (n, x) ∈ xs -> ms !! n = Some x) ->
  foldl (fun ms e => if v <? fst (snd e) then delete (fst e) ms else ms) ms xs !! n =
  match ms !! n with
  | Some (cv, l) => if bool_decide ((n, (cv, l)) ∈ xs) && (v <? cv) then None else Some (cv, l)
  | None => None
  end.
Proof.
  revert ms. induction xs as [|[m [cv l]] xs IH]; intros ms Hnd Hin.
  - cbn. by destruct (ms !! n) as [[cv l]|].
  - cbn in Hnd. apply NoDup_cons in Hnd as [Hm Hnd]. cbn [foldl fst snd].
    assert (ms !! m = Some (cv, l)) as Hms by (apply Hin; by left).
    assert (forall x, (m, x) ∉ xs) as Hmx by (intros x Hx; apply Hm; by apply (list_elem_of_fmap_2 fst _ (m, x))).
    rewrite IH; [|done|].
    + destruct (decide (m = n)) as [<-|Hne].
      * rewrite Hms. rewrite (bool_decide_true ((m, (cv, l)) ∈ _)) by by left. cbn [andb].
        destruct (v <? cv) eqn:E.
        -- by rewrite lookup_delete_eq.
        -- rewrite Hms, bool_decide_false by done. done.
      * assert ((if v <? cv then delete m ms else ms) !! n = ms !! n) as ->.
        { destruct (v <? cv); [|done]. by apply lookup_delete_ne. }
        destruct (ms !! n) as [[cv' l']|]; [|done].
        rewrite (bool_decide_ext ((n, (cv', l')) ∈ xs) ((n, (cv', l')) ∈ (m, (cv, l)) :: xs)); [done|].
        rewrite elem_of_cons. split; [by right|]. intros [[= <- _ _]|?]; done.
    + intros n' x Hx. destruct (v <? cv); [|apply Hin; by right]. rewrite lookup_delete_ne; [apply Hin; by right|].
      intros <-. by apply (Hmx x).
Qed.

Lemma rollback_maps_kept (v : Z) (ms : gmap Name (Z * Loc)) :
  foldl (fun ms e => if v <? fst (snd e) then delete (fst e) ms else ms) ms (ordered ms) = kept_by v ms.
Proof.
  apply map_eq. intros n. rewrite foldl_delete_kept; [|apply ordered_NoDup|intros n' x; apply elem_of_ordered].
  unfold kept_by. rewrite map_lookup_filter. destruct (ms !! n) as [[cv l]|] eqn:E; [|done].
  rewrite bool_decide_true by by apply elem_of_ordered. cbn. destruct (Z.ltb_spec v cv).
  - by rewrite option_guard_False by (cbn; lia).
  - by rewrite option_guard_True by done.
Qed.

(** The loops of [rollback] over the maps. *)
Lemma rollback_loops v s :
  maps_ok s ->
  (s ← get;
   foreach (map_locs s) lock_map;;
   foreach (ordered (maps s)) (rollback_map v);;
   s ← get;
   foreach (map_locs s) unlock_map) s =
  (with_maps (kept_by v (maps s))
     (with_heap (update_locs eloc (fun _ => change_map (fun m => fst (rollback v m))) (ordered (maps s)) (heap s)) s), Ret tt).
Proof.
  intros Hok. pose proof (maps_distinct s Hok) as Hnd. unfold mbind at 1, ST_bind at 1, get. rewrite map_locs_eq.
  unfold mbind at 1, ST_bind at 1. rewrite foreach_fmap, (lock_all eloc) by (done || intros e He; by apply maps_unlocked).
  unfold mbind at 1, ST_bind at 1. rewrite rollback_maps_eq; [|done|].
  2: { intros e He. destruct (maps_live s e Hok He) as (o & Ho & _). cbn. rewrite update_locs_in, Ho by done. by eexists. }
  cbn [heap maps with_heap with_maps set]. unfold mbind at 1, ST_bind at 1. rewrite map_locs_eq.
  change (maps (with_heap _ s)) with (maps s). cbn [maps with_maps set]. rewrite rollback_maps_kept.
  rewrite foreach_fmap. cbn [with_maps maps set]. set (h := update_locs _ _ _ _).
  assert (forall e, e ∈ ordered (kept_by v (maps s)) -> e ∈ ordered (maps s) /\ fst (snd e) <= v) as Hsub.
  { intros [n x] He%elem_of_ordered. apply map_lookup_filter_Some in He as [He Hle]. by rewrite elem_of_ordered. }
  assert (NoDup (eloc <$> ordered (kept_by v (maps s)))) as Hnd'.
  { apply (maps_distinct (with_maps (kept_by v (maps s)) s)). intros n cv l Hn. apply map_lookup_filter_Some in Hn as [Hn _].
    by apply (Hok n cv l). }
  assert (forall e, e ∈ ordered (maps s) -> exists o, heap s !! eloc e = Some o /\ mo_locked o = false /\
    h !! eloc e = Some (rolled_back v e (set_locked true o))) as Hh.
  { intros e He. destruct (maps_unlocked s e Hok He) as (o & Ho & Hl). exists o. split_and!; [done..|]. unfold h. cbn.
    by rewrite !update_locs_in, Ho by done. }
  rewrite (unlock_all eloc); [|done|].
  2: { intros e [He Hle]%Hsub. destruct (Hh e He) as (o & _ & _ & Hho). eexists. split; [exact Hho|].
       unfold rolled_back. destruct (Z.ltb_spec v (fst (snd e))); [lia|done]. }
  match goal with |- (with_heap ?h1 _, _) = (with_maps _ (with_heap ?h2 _), _) => assert (h1 = h2) as ->; [|done] end.
  cbn. apply (update_locs_eq eloc (ordered (maps s))).
  - intros e He. destruct (Hh e He) as (o & Ho & Hl & Hho). rewrite (update_locs_in eloc _ (ordered (maps s))), Ho by done.
    destruct (Z.ltb_spec v (fst (snd e))) as [Hcv|Hcv].
    + rewrite update_locs_out, Hho.
      * unfold rolled_back. destruct (Z.ltb_spec v (fst (snd e))); [|lia]. destruct o. cbn in *. by subst.
      * intros (e' & Ee & [He' Hle]%Hsub)%list_elem_of_fmap. assert (e = e') as ->; [|lia].
        by eapply (NoDup_fmap_inj_elem eloc); [exact Hnd|..].
    + rewrite update_locs_in, Hho; [|done|].
      * unfold rolled_back. destruct (Z.ltb_spec v (fst (snd e))); [lia|]. destruct o. cbn in *. by subst.
      * destruct e as [n [cv l]]. apply elem_of_ordered. apply elem_of_ordered in He. apply map_lookup_filter_Some. by split.
  - intros l Hl. rewrite (update_locs_out eloc _ (ordered (maps s))) by done. rewrite update_locs_out.
    + unfold h. cbn. by rewrite !update_locs_out.
    + intros (e' & Ee & [He' _]%Hsub)%list_elem_of_fmap. apply Hl. rewrite Ee. by apply list_elem_of_fmap_2.
Qed.

(** A call that may be recorded. *)
Lemma record_if (b : bool) c s : exists cs, (if b then record_call c else skip) s = (with_calls cs s, Ret tt).
Proof. destruct b; eexists; [done|]. instantiate (1 := calls s). by destruct s. Qed.

(** What [rollback] does to the maps and the versions. *)
Definition rollback_result (tx_id : TxID) (s s' : Store P) : Prop :=
  let v := tx_version tx_id in
  store_compacted s' = store_compacted s /\
  if (store_compacted s <=? v) && (v <? store_version s) then
    store_version s' = v /\ last_replicated s' = v /\ pending_txs s' = ∅ /\
    rollback_count s' = u64 (rollback_count s + 1) /\
    maps s' = kept_by v (maps s) /\
    heap s' = update_locs eloc (fun _ => change_map (fun m => fst (rollback v m))) (ordered (maps s)) (heap s)
  else
    store_version s' = store_version s /\ last_replicated s' = last_replicated s /\ pending_txs s' = pending_txs s /\
    rollback_count s' = rollback_count s /\ maps s' = maps s /\ heap s' = heap s.

Lemma store_rollback_eq tx_id term s :
  maps_ok s -> exists s',
    store_rollback services tx_id term s =
      (s', if tx_version tx_id <? store_compacted s
           then Throw (LogicError "Attempting rollback to a version earlier than commit version") else Ret tt) /\
    rollback_result tx_id s s' /\ last_committable s' = last_committable s /\
    (store_compacted s <= tx_version tx_id ->
     term_of_next_version s' = term /\ term_of_last_version s' = tx_term tx_id).
Proof.
  intros Hok. unfold store_rollback, rollback_result. unfold mbind at 1, ST_bind at 1.
  destruct (record_if (has_snapshotter services) (SnapshotterRollback (tx_version tx_id)) s) as [c0 ->].
  unfold mbind at 1, ST_bind at 1, get. change (store_compacted (with_calls c0 s)) with (store_compacted s).
  change (store_version (with_calls c0 s)) with (store_version s).
  destruct (Z.ltb_spec (tx_version tx_id) (store_compacted s)) as [Hlt|Hlt];
    destruct (Z.leb_spec (store_compacted s) (tx_version tx_id)) as [Hle|Hle]; try lia.
  { eexists. split; [done|]. cbn. split_and!; try done. intros. lia. }
  do 3 (unfold mbind at 1, ST_bind at 1). cbn [assign modify].
  unfold assign, modify.
  match goal with |- exists s', (let (_, _) := (if ?b then record_call ?c else skip) ?t in _) = _ /\ _ =>
    destruct (record_if b c t) as [c1 ->] end.
  destruct (Z.leb_spec (store_version s) (tx_version tx_id)) as [Hv|Hv];
    destruct (Z.ltb_spec (tx_version tx_id) (store_version s)) as [Hv'|Hv']; try lia.
  { eexists. split; [done|]. cbn. by split_and!. }
  do 6 (unfold mbind at 1, ST_bind at 1). unfold unset_flag, modify.
  unfold mbind at 1, ST_bind at 1.
  match goal with |- exists s', (let (_, _) := (if ?b then record_call ?c else skip) ?t in _) = _ /\ _ =>
    destruct (record_if b c t) as [c2 ->] end.
  rewrite rollback_loops by (exact Hok). eexists. split; [done|]. cbn. by split_and!.
Qed.
End all_maps.

(** Every map has its changes, and is locked if it was or if [extra] says so; the new maps are in the store. *)
Definition applied {P : Type} (changes : gmap Name MapChanges) (new_maps : gmap Name Loc) (v : Z) (extra : Loc -> bool)
    (s s' : Store P) : Prop :=
  maps s' = added v (kept_maps changes new_maps) (maps s) /\
  forall l o, heap s !! l = Some o -> commits (mo_map o) <> [] ->
    exists o', heap s' !! l = Some o' /\ mo_name o' = mo_name o /\ mo_locked o' = mo_locked o || extra l /\
      roll o' = roll_after changes v l o.

(** C36: [apply_changes] is atomic, for the changes of transactions (not those of a snapshot).  If a committer finds a
    conflict, or another transaction has created one of the new maps, or read versions are tracked, the result is nothing and
    no map changes.  Otherwise every map has its changes, at the version the resolver gave, the maps that the
    transaction created and wrote to are in the store, and every lock is as it was.  The only exceptions are those of the
    hooks of the maps: if one throws, the changes have been applied all the same, and every map that the transaction
    writes to is left locked.  No map of the changes is locked before, the resolver gives a version and leaves the maps alone,
    and no map of the store is newer than the version at which new maps are looked for. *)
Theorem apply_changes_atomic {P : Type} (call_map_hook : Name -> Z -> Write -> outcome (option Hook)) (s s1 : Store P)
    (changes : gmap Name MapChanges) (new_maps : gmap Name Loc) (resolver : bool -> ST (Store P) (Z * Z))
    (conflict_version : option Z) (track : bool) (v : Z) :
  changes_ok s changes new_maps -> no_snapshot changes = true ->
  resolves resolver (negb (is_empty new_maps)) s s1 v -> maps s1 = maps s ->
  (forall name cv l, maps s !! name = Some (cv, l) -> cv <= from_option id (store_version s) conflict_version) ->
  let '(s', r) := apply_changes call_map_hook changes resolver new_maps conflict_version track s in
  let free := conflict_free s changes new_maps conflict_version track in
  match r with
  | Ret (None, hooks) =>
      (free = false \/ track && any_writes changes = true) /\ hooks = [] /\ heap s' = heap s /\ maps s' = maps s
  | Ret (Some w, hooks) =>
      free = true /\
      (any_writes changes = false -> w = NoVersion /\ hooks = [] /\ s' = s) /\
      (any_writes changes = true -> w = v /\ track = false /\ applied changes new_maps v (fun _ => false) s s')
  | Throw e =>
      free = true /\ any_writes changes = true /\ track = false /\ (exists name v' w, call_map_hook name v' w = Throw e) /\
      applied changes new_maps v (written_at changes) s s'
  end.
Proof.
  intros Hok Hns Hres Hmaps Hcv. destruct (conflict_free s changes new_maps conflict_version track) eqn:Hc.
  2: { rewrite apply_changes_conflict by done. by split_and!; [left|..]. }
  destruct (any_writes changes) eqn:Hw.
  2: { rewrite apply_changes_read_only by done. by split_and!. }
  destruct track eqn:Ht.
  { rewrite (apply_changes_tracked _ _ _ _ Hok _ _ _ s1 v) by done. by split_and!; [right|..]. }
  rewrite (apply_changes_applies _ _ _ _ Hok _ _ _ s1 v); [|done..|].
  2: { intros new [_ Hn]%list_elem_of_filter. apply andb_prop in Hc as [_ Hnew]. rewrite forallb_forall in Hnew.
    specialize (Hnew new (proj1 (list_elem_of_In _ _) Hn)). apply bool_decide_eq_true in Hnew.
    unfold get_map in *. rewrite Hmaps. destruct (maps s !! fst new) as [[cv l]|] eqn:E; [|done].
    pose proof (Hcv _ _ _ E). destruct (Z.leb_spec cv (from_option id (store_version s) conflict_version)); [done|lia]. }
  destruct (committed_hooks _ _ _ _) as [hooks|e] eqn:E.
  - split; [done|]. split; [done|]. intros _. split; [done|]. split; [done|]. split; [cbn; by rewrite Hmaps|].
    intros l o Ho Hne. destruct (committed_heap_lookup (global_hooks s1) (map_hooks s1) changes new_maps v (heap s) l o)
      as (o' & Ho' & Hn & _ & _ & Hl & Hr); [apply Hok|done..|]. exists o'. by rewrite orb_false_r.
  - split_and!; try done; [by eapply hooks_of_throws|]. split; [cbn; by rewrite Hmaps|]. intros l o Ho Hne.
    destruct (lock_views_at changes (heap s) l o) as (o1 & Ho1 & Hn1 & Hm1 & Hl1); [apply Hok|done|].
    destruct (committed_heap_lookup (global_hooks s1) (map_hooks s1) changes new_maps v (lock_views true false (ordered changes) (heap s)) l o1)
      as (o' & Ho' & Hn & _ & _ & Hl & Hr); [apply Hok|done|done|by rewrite Hm1|]. exists o'. split_and!; [done|congruence|congruence|].
    rewrite Hr. unfold roll_after, roll, change_map. cbn. by rewrite Hm1.
Qed.

(** A transaction that creates a map and writes one key to it. *)
Definition atomic_store : Store unit :=
  (new_store ALL ∅) <| heap := [MkMapObject (name_of "public:a") PUBLIC true new_map false] |>.

Definition atomic_changes : gmap Name MapChanges :=
  {[ name_of "public:a" := (0%nat, Changes ((new_change_set 0 ∅ ∅ 0) <| cs_writes := {[ [1] := Some [10] ]} |>)) ]}.

Definition atomic_maps : gmap Name Loc := {[ name_of "public:a" := 0%nat ]}.

Lemma apply_changes_atomic_witness :
  match apply_changes (fun _ _ _ => Ret None) atomic_changes (fun _ => mret (1, 0)) atomic_maps None false atomic_store with
  | (s', Ret (Some w, _)) => w = 1 /\ maps s' = added 1 (kept_maps atomic_changes atomic_maps) ∅
  | _ => False
  end /\ kept_maps atomic_changes atomic_maps = [(name_of "public:a", 0%nat)].
Proof.
  assert (changes_ok atomic_store atomic_changes atomic_maps) as Hok.
  { split.
    - change (NoDup [0%nat]). apply NoDup_singleton.
    - intros [n mc] Hv%elem_of_ordered. unfold atomic_changes in Hv. apply lookup_singleton_Some in Hv as [_ <-]. eexists. by split_and!.
    - intros [n l] Hv%elem_of_ordered. unfold atomic_maps in Hv. apply lookup_singleton_Some in Hv as [<- <-]. eexists. by split. }
  pose proof (apply_changes_atomic (fun _ _ _ => Ret None) atomic_store atomic_store atomic_changes atomic_maps (fun _ => mret (1, 0))
    None false 1 Hok eq_refl (fun h => ex_intro _ 0 eq_refl) eq_refl) as H.
  assert (any_writes atomic_changes = true) as Hw by (vm_compute; reflexivity).
  assert (snd (apply_changes (fun _ _ _ => Ret None) atomic_changes (fun _ => mret (1, 0)) atomic_maps None false atomic_store) =
    Ret (Some 1, [])) as Hr by (vm_compute; reflexivity).
  split; [|vm_compute; reflexivity].
  destruct (apply_changes _ _ _ _ _ _ _) as [s' r]. cbn [snd] in Hr. subst r.
  destruct H as (_ & _ & H); [intros name cv l Hl; cbn in Hl; by rewrite lookup_empty in Hl|].
  destruct (H Hw) as (Hone & _ & -> & _). split; [exact Hone|reflexivity].
Defined.

(** The same with a hook that throws, as that of the secrets table does when a value is removed. *)
Lemma throwing_hook_leaves_locked :
  let s := atomic_store <| map_hooks := {[ name_of "public:a" ]} |> in
  let '(s', r) := apply_changes (fun _ _ _ => Throw (LogicError "Unexpected removal")) atomic_changes (fun _ => mret (1, 0)) atomic_maps None false s in
  r = Throw (LogicError "Unexpected removal") /\ mo_locked <$> heap s' !! 0%nat = Some true /\ (fun o => length (commits (mo_map o))) <$> heap s' !! 0%nat = Some 2%nat.
Proof. vm_compute. split; [reflexivity|]. split; reflexivity. Qed.
