(* ===== verification/KvStoreHistory.v ===== *)
(** The store as a history of the contents of all its maps, with any number of transactions open at a
    time. *)

From S2P Require Import Prelude Serialized RaftTypes KvMap KvRoll KvHandle KvHandleProps KvValidation KvSerialise KvStore KvTx KvStoreProps.

(** ** The roll of a map that was created at a version *)

Lemma holds_ext l h h' :
  holds l h -> (forall u k, contents h' u k = contents h u k) -> current h' = current h -> compacted h' = compacted h ->
  holds l h'.
Proof.
  intros H Hk Hc Hd. split.
  - apply H.
  - rewrite Hd. apply H.
  - rewrite Hc. apply H.
  - rewrite Hc, Hd. apply H.
  - rewrite Hd. intros u Hu. destruct (holds_contents _ _ H u Hu) as (c & ? & E). exists c. split; [done|].
    intros k. by rewrite Hk, E.
Qed.

(** A new map holds nothing, whatever the version of the store. *)
Lemma holds_new v d : 0 <= d <= v -> holds initial_commits (MkHistory (fun _ _ => None) v d).
Proof.
  intros Hd. split; cbn [contents current compacted].
  - apply roll_ok_initial.
  - eexists _, []. split_and!; [done|cbn; lia|constructor].
  - repeat constructor. cbn. lia.
  - done.
  - intros u Hu. cbn. destruct (Z.leb_spec 0 u); [|lia]. by eexists.
Qed.

(** From version [cv] on, every state that can be read was written at [cv] or later. *)
Definition since (cv : Z) (l : list LocalCommit) (h : History) : Prop :=
  forall u, cv <= u -> compacted h <= u -> exists c, find_commit u l = Some c /\ cv <= lc_version c.

Lemma find_commit_core u l l' c :
  core <$> l = core <$> l' -> find_commit u l = Some c ->
  exists c', find_commit u l' = Some c' /\ core c' = core c.
Proof.
  intros E Hc. pose proof (state_at_core u _ _ E) as Hs. unfold state_at in Hs. rewrite Hc in Hs.
  destruct (find_commit u l') as [c'|]; [|done]. exists c'. split; [done|]. cbn in Hs. congruence.
Qed.

Lemma since_commit cv m h cs v :
  holds (commits m) h -> allowed h (OpCommit cs v) = true -> since cv (commits m) h -> cv <= current h ->
  since cv (commits (map_step m (OpCommit cs v))) (history_step h (OpCommit cs v)).
Proof.
  intros H [Hv%Z.ltb_lt _]%andb_prop Hs Hcv u Hu Hd. cbn [history_step compacted] in Hd.
  destruct (holds_last _ _ H) as (c & Hl & _). cbn [map_step].
  destruct (decide (cs_writes cs = ∅)) as [He|He]; [rewrite commit_nothing by done; by apply Hs|].
  rewrite (commit_eq m cs v c) by done. cbn [fst]. destruct (changes_state _ _ _); [|by apply Hs].
  cbn. rewrite find_commit_snoc. cbn. destruct (Z.leb_spec v u); [|by apply Hs]. eexists. split; [done|]. cbn. lia.
Qed.

Lemma since_rollback cv m h v :
  holds (commits m) h -> allowed h (OpRollback v) = true -> since cv (commits m) h -> cv <= v ->
  since cv (commits (map_step m (OpRollback v))) (history_step h (OpRollback v)).
Proof.
  intros H Hv%Z.leb_le Hs Hcv u Hu Hd. cbn [history_step compacted] in Hd.
  destruct (holds_head _ _ H) as (c & rest & E & Hc & Hrest). pose proof (holds_versions _ _ H).
  cbn [map_step fst rollback modify commits set]. unfold rollback, modify. cbn.
  rewrite (rollback_commits_filter v _ c) by (apply H || by rewrite E || lia).
  rewrite find_commit_last, filter_filter_min, <- find_commit_last. apply Hs; lia.
Qed.

Lemma since_compact cv m h v :
  holds (commits m) h -> allowed h (OpCompact v) = true -> since cv (commits m) h ->
  since cv (commits (map_step m (OpCompact v))) (history_step h (OpCompact v)).
Proof.
  intros H [Hv%Z.leb_le Hmax%Z.leb_le]%andb_prop Hs u Hu Hd. cbn [history_step compacted] in Hd.
  destruct (holds_head _ _ H) as (c & rest & E & Hc & Hrest).
  destruct (compact_commits_filter (global_hook m) v (commits m) c) as (d & Hfd & Hcore); [apply H|by rewrite E|lia|].
  assert (core <$> d :: filter (above v) (commits m) = core <$> commits (map_step m (OpCompact v))) as Heq.
  { cbn. by destruct (compact_commits _ _ _). }
  destruct (Hs u) as (c' & Hc' & Hle); [lia..|].
  assert (find_commit u (d :: filter (above v) (commits m)) = Some c') as Hd'.
  { rewrite (find_commit_above u v) in Hc' by (apply H || lia). cbn [find_commit].
    destruct (find_commit u (filter (above v) (commits m))); [done|]. rewrite Hfd in Hc'. injection Hc' as <-.
    rewrite find_commit_last in Hfd. apply last_Some_elem_of, list_elem_of_filter in Hfd as [Hdv _].
    destruct (Z.leb_spec (lc_version d) u); [done|lia]. }
  destruct (find_commit_core _ _ _ _ Heq Hd') as (c'' & Hc'' & Hcore''). exists c''. split; [done|].
  assert (lc_version c'' = lc_version c') as -> by (unfold core in Hcore''; congruence). done.
Qed.

(** The commit that creates the map. *)
Lemma since_created m h cs v :
  holds (commits m) h -> allowed h (OpCommit cs v) = true ->
  (exists k x, cs_writes cs !! k = Some (Some x)) ->
  since v (commits (map_step m (OpCommit cs v))) (history_step h (OpCommit cs v)).
Proof.
  intros H [Hv%Z.ltb_lt _]%andb_prop (k & x & Hk) u Hu _. destruct (holds_last _ _ H) as (c & Hl & _). cbn [map_step].
  assert (cs_writes cs <> ∅) by (intros E; by rewrite E, lookup_empty in Hk).
  rewrite (commit_eq m cs v c) by done. cbn [fst]. destruct (changes_state _ _ _) eqn:E.
  - cbn. rewrite find_commit_snoc. cbn. destruct (Z.leb_spec v u); [|lia]. eexists. split; [done|]. cbn. lia.
  - apply unchanged_written in E as [_ Hall]. destruct (Hall _ _ Hk) as [? _]. done.
Qed.

(** To roll back the creation counts as a rollback of the map. *)
Lemma rollback_creation cv m h v :
  holds (commits m) h -> allowed h (OpRollback v) = true -> since cv (commits m) h -> v < cv ->
  rollback_counter (fst (rollback v m)) = u64 (rollback_counter m + 1).
Proof.
  intros H Hv%Z.leb_le Hs Hcv. destruct (rollback_counts v m (holds_roll _ _ H)) as [[E _]|E]; [exfalso|done].
  destruct (holds_head _ _ H) as (c & rest & El & Hc & _).
  destruct (Hs (Z.max cv (current h))) as (d & Hd & Hdv); [lia|pose proof (holds_versions _ _ H); lia|].
  assert (commits (fst (rollback v m)) = filter (upto v) (commits m)) as Hf.
  { cbn. apply (rollback_commits_filter v _ c); [apply H|by rewrite El|lia]. }
  rewrite E in Hf. rewrite find_commit_last in Hd. apply last_Some_elem_of, list_elem_of_filter in Hd as [_ Hin].
  rewrite Hf in Hin. apply list_elem_of_filter in Hin as [Hle _]. lia.
Qed.

(** ** The system *)

(** A store and the transactions that are open. *)
Record System (P : Type) := MkSystem { sys_store : Store P; sys_txs : gmap nat Tx }.
Arguments MkSystem {P}.
Arguments sys_store {P}.
Arguments sys_txs {P}.

Inductive SysOp :=
| SysBegin (id : nat)
| SysUse (id : nat) (name : Name) (op : HandleOp)
| SysCommit (id : nat)
| SysRollback (tx_id : TxID) (term : Z)
| SysCompact (v : Z).

(** What a step did to the contents of the store. *)
Inductive Event :=
| Committed (v : Z) (writes : Name -> Write)
| RolledBack (v : Z)
| Compacted (v : Z)
| Nothing.

(** The contents of every map at every version. *)
Record Spec := MkSpec {
  sp_contents : Z -> Name -> Key -> option Value;
  sp_version : Z;
  sp_compacted : Z
}.

Definition initial_spec : Spec := MkSpec (fun _ _ _ => None) 0 0.

Definition spec_step (sp : Spec) (e : Event) : Spec :=
  match e with
  | Committed v writes =>
      MkSpec (fun u n => if u <? v then sp_contents sp u n else overwrite (writes n) (sp_contents sp (sp_version sp) n))
        v (sp_compacted sp)
  | RolledBack v => MkSpec (fun u => sp_contents sp (Z.min u v)) (Z.min (sp_version sp) v) (sp_compacted sp)
  | Compacted v => MkSpec (sp_contents sp) (sp_version sp) v
  | Nothing => sp
  end.

(** The history of one map. *)
Definition hist (sp : Spec) (n : Name) : History :=
  MkHistory (fun u => sp_contents sp u n) (sp_version sp) (sp_compacted sp).

(** The write set of a transaction, map by map. *)
Definition tx_writes (t : Tx) (n : Name) : Write :=
  from_option (fun mc : Loc * ChangeSet => cs_writes (snd mc)) ∅ (all_changes t !! n).

Section system.
Context {P : Type} {SO : StateOrder}.
Context (call_map_hook : Name -> Z -> Write -> outcome (option Hook)) (services : @Services P)
  (call : P -> ST (Store P) PendingTxInfo) (MovePendingTx : PendingTxInfo -> P)
  (encryptor : option Encryptor) (commit_evidence_digest : TxID -> outcome bytes) (claims : option bytes).

Definition commit_tx : ST (World P) CommitResult :=
  tx_commit call_map_hook services call MovePendingTx encryptor commit_evidence_digest claims false next_version.

Definition sys_step (y : System P) (op : SysOp) : System P * Event :=
  let s := sys_store y in
  match op with
  | SysBegin id => (MkSystem s (<[id := create_tx]> (sys_txs y)), Nothing)
  | SysUse id name op =>
      match sys_txs y !! id with
      | None => (y, Nothing)
      | Some t =>
          let w := fst (with_handle name (handle_op op) (MkWorld s t)) in
          (MkSystem (w_store w) (<[id := w_tx w]> (sys_txs y)), Nothing)
      end
  | SysCommit id =>
      match sys_txs y !! id with
      | None => (y, Nothing)
      | Some t =>
          let w := fst (commit_tx (MkWorld s t)) in
          (MkSystem (w_store w) (delete id (sys_txs y)),
           if success (w_tx w) && negb (tx_commit_version (w_tx w) =? NoVersion)
           then Committed (tx_commit_version (w_tx w)) (tx_writes t) else Nothing)
      end
  | SysRollback tx_id term =>
      let '(s', r) := store_rollback services tx_id term s in
      (MkSystem s' (sys_txs y),
       match r with
       | Ret _ => if tx_version tx_id <? store_version s then RolledBack (tx_version tx_id) else Nothing
       | Throw _ => Nothing
       end)
  | SysCompact v =>
      (MkSystem (fst (store_compact services v s)) (sys_txs y),
       if v <=? store_version s then Compacted v else Nothing)
  end.

(** The versions do not wrap around, and compaction does not go back. *)
Definition sys_allowed (y : System P) (op : SysOp) : bool :=
  match op with
  | SysCommit _ => store_version (sys_store y) + 1 <? 2 ^ 63
  | SysCompact v => store_compacted (sys_store y) <=? v
  | SysRollback tx_id _ => 0 <=? tx_version tx_id
  | _ => true
  end.

Fixpoint sys_run (y : System P) (ops : list SysOp) : System P * list Event :=
  match ops with
  | [] => (y, [])
  | op :: ops => let '(y1, e) := sys_step y op in let '(y2, es) := sys_run y1 ops in (y2, e :: es)
  end.

Fixpoint sys_all_allowed (y : System P) (ops : list SysOp) : bool :=
  match ops with
  | [] => true
  | op :: ops => sys_allowed y op && sys_all_allowed (fst (sys_step y op)) ops
  end.

(** ** What [commit] does to the maps *)

(** The part of a store that the history describes. *)
Definition store_core (s : Store P) := (heap s, maps s, store_version s, store_compacted s).

Definition same_store (s s' : Store P) : Prop := store_core s' = store_core s.

#[export] Instance same_store_preorder : PreOrder same_store.
Proof. split; [done|]. intros s1 s2 s3 H1 H2. unfold same_store in *. by rewrite H2. Qed.

(** Consensus and pending transactions do not touch the maps: what they call back is a step of its own. *)
Context (Hcall : forall p, respects same_store (call p)).
Context (Hreplicate : forall c batch view, consensus services = Some c -> respects same_store (con_replicate c batch view)).

Lemma record_call_same c : respects same_store (record_call c).
Proof. by apply respects_modify. Qed.
#[local] Hint Resolve record_call_same Hcall : respects.

Lemma batch_loop_same fuel offset : respects same_store (batch_loop services call fuel offset).
Proof.
  revert offset. induction fuel as [|fuel IH]; intros offset; cbn [batch_loop]; [apply respects_throw; apply _|].
  respects_auto.
Qed.
#[local] Hint Resolve batch_loop_same : respects.

Lemma store_commit_same txid p b : respects same_store (store_commit services call txid p b).
Proof.
  unfold store_commit. destruct (consensus services) as [c|] eqn:Ec; [|apply respects_ret; apply _].
  assert (forall batch view, respects same_store (con_replicate c batch view)) as Hr by (intros; by apply Hreplicate).
  respects_auto.
Qed.

(** What is kept of a transaction after its changes are applied. *)
Definition same_world (w w' : World P) : Prop :=
  same_store (w_store w) (w_store w') /\ success (w_tx w') = success (w_tx w) /\
  tx_commit_version (w_tx w') = tx_commit_version (w_tx w).

#[local] Instance same_world_preorder : PreOrder same_world.
Proof.
  split; [by intros w|]. intros w1 w2 w3 (H1 & H2 & H3) (H4 & H5 & H6). split_and!; [by etrans|congruence..].
Qed.

Lemma zoom_store_same {A} (m : ST (Store P) A) : respects same_store m -> respects same_world (zoom w_store m).
Proof. intros Hm w. specialize (Hm (w_store w)). unfold zoom. destruct (m (w_store w)) as [s' o]. by split_and!. Qed.

Lemma zoom_tx_same {A} (m : ST Tx A) :
  (forall t, success (fst (m t)) = success t /\ tx_commit_version (fst (m t)) = tx_commit_version t) ->
  respects same_world (zoom w_tx m).
Proof. intros Hm w. destruct (Hm (w_tx w)). unfold zoom. destruct (m (w_tx w)) as [t' o]. by split_and!. Qed.

Lemma tx_serialise_same c : respects same_world (tx_serialise encryptor commit_evidence_digest c).
Proof.
  unfold tx_serialise. respects_auto.
Qed.

Lemma set_flag_same f : respects same_store (set_flag (P:=P) f).
Proof. by apply respects_modify. Qed.
#[local] Hint Resolve tx_serialise_same store_commit_same zoom_store_same set_flag_same : respects.

Lemma tx_commit_applied_same c v hooks :
  respects same_world (tx_commit_applied services call MovePendingTx encryptor commit_evidence_digest c v hooks).
Proof. unfold tx_commit_applied. respects_auto. Qed.

Lemma commit_tx_eq s t hooks c s1 :
  committed t = false -> all_changes t <> ∅ ->
  apply_changes call_map_hook (tx_changes t) next_version (created_maps t) None false s = (s1, Ret (c, hooks)) ->
  commit_tx (MkWorld s t) =
  match c with
  | None => (MkWorld s1 (t <| success := false |>), Ret FAIL_CONFLICT)
  | Some v => tx_commit_applied services call MovePendingTx encryptor commit_evidence_digest claims v hooks
      (MkWorld s1 (t <| success := true |> <| committed := true |> <| tx_commit_version := v |>))
  end.
Proof.
  intros Ht Hne Happly. unfold commit_tx, tx_commit. unfold mbind at 1, ST_bind at 1, get. cbn [w_tx]. rewrite Ht.
  unfold is_empty. rewrite bool_decide_false by done. unfold mbind at 1, ST_bind at 1. unfold zoom at 1. cbn [w_store].
  rewrite Happly. by destruct c.
Qed.

(** The whole of [commit] does to the maps what [apply_changes] does. *)
Lemma commit_tx_spec s t hooks c s1 w :
  committed t = false -> all_changes t <> ∅ ->
  apply_changes call_map_hook (tx_changes t) next_version (created_maps t) None false s = (s1, Ret (c, hooks)) ->
  w = fst (commit_tx (MkWorld s t)) ->
  same_store s1 (w_store w) /\ success (w_tx w) = bool_decide (is_Some c) /\
  (forall v, c = Some v -> tx_commit_version (w_tx w) = v).
Proof.
  intros Ht Hne Happly ->. rewrite (commit_tx_eq s t hooks c s1) by done. destruct c as [v|]; [|by split_and!].
  match goal with |- context [tx_commit_applied _ _ _ _ _ _ _ _ ?st] =>
    destruct (tx_commit_applied_same claims v hooks st) as (H1 & H2 & H3) end.
  split_and!; [done|done|]. intros v' [= <-]. exact H3.
Qed.
End system.
