(* ===== verification/KvSystem.v ===== *)
(** The invariant of the store with its open transactions, and its preservation by every operation. *)

From S2P Require Import Prelude Serialized RaftTypes KvMap KvRoll KvHandle KvHandleProps KvValidation KvSerialise KvStore KvTx KvStoreProps KvStoreHistory.

(** ** The invariant *)

(** The map [n], created at [cv], holds what the specification says. *)
Record map_ok (sp : Spec) (n : Name) (cv : Z) (m : Map) : Prop := {
  map_created : 1 <= cv <= sp_version sp;
  map_holds : holds (commits m) (hist sp n);
  map_since : since cv (commits m) (hist sp n);
  map_before u k : u < cv -> sp_contents sp u n k = None
}.

(** An object is not locked and has a roll; [B] bounds its count of rollbacks. *)
Definition object_ok (B : Z) (o : MapObject) : Prop :=
  mo_locked o = false /\ roll_ok (commits (mo_map o)) /\ 0 <= rollback_counter (mo_map o) <= B.

Record store_ok {P : Type} (B : Z) (s : Store P) (sp : Spec) : Prop := {
  so_version : store_version s = sp_version sp;
  so_compacted : store_compacted s = sp_compacted sp;
  so_range : 0 <= sp_compacted sp <= sp_version sp;
  so_max : sp_version sp < 2 ^ 63;
  so_objects l o : heap s !! l = Some o -> object_ok B o;
  so_maps n cv l : maps s !! n = Some (cv, l) -> exists o, heap s !! l = Some o /\ mo_name o = n /\ map_ok sp n cv (mo_map o);
  so_absent n u k : maps s !! n = None -> sp_contents sp u n k = None
}.

(** Only keys of the state are removed. *)
Definition removes_known (cs : ChangeSet) : Prop :=
  forall k, cs_writes cs !! k = Some None -> is_Some (cs_state cs !! k).

(** The map is as it was made, and not part of the store. *)
Definition pristine {P : Type} (s : Store P) (l : Loc) (o : MapObject) : Prop :=
  roll o = (initial_commits, 0) /\ forall n cv, maps s !! n <> Some (cv, l).

(** A change set is over a map that the transaction has made, or over a map of the store, or over a map that
    has been rolled back since. *)
Definition change_ok {P : Type} (s : Store P) (t : Tx) (n : Name) (l : Loc) (cs : ChangeSet) : Prop :=
  exists o, heap s !! l = Some o /\ mo_name o = n /\
    0 <= cs_rollback_counter cs <= rollback_counter (mo_map o) /\
    match created_maps t !! n with
    | Some l' => l' = l /\ pristine s l o /\ cs_state cs = ∅ /\ removes_known cs
    | None => (exists cv, maps s !! n = Some (cv, l)) \/ cs_rollback_counter cs < rollback_counter (mo_map o)
    end.

Record tx_ok {P : Type} (s : Store P) (t : Tx) : Prop := {
  to_open : committed t = false;
  to_version : tx_commit_version t = NoVersion;
  to_read id : read_txid t = Some id -> 0 <= tx_version id;
  to_changes n l cs : all_changes t !! n = Some (l, cs) -> change_ok s t n l cs;
  to_created n l : created_maps t !! n = Some l -> exists cs, all_changes t !! n = Some (l, cs)
}.

Record sys_ok {P : Type} (B : Z) (y : System P) (sp : Spec) : Prop := {
  sy_store : store_ok B (sys_store y) sp;
  sy_txs id t : sys_txs y !! id = Some t -> tx_ok (sys_store y) t;
  sy_owner id1 id2 t1 t2 n1 n2 l :
    sys_txs y !! id1 = Some t1 -> sys_txs y !! id2 = Some t2 ->
    created_maps t1 !! n1 = Some l -> created_maps t2 !! n2 = Some l -> id1 = id2
}.

Section invariant.
Context {P : Type} {SO : StateOrder}.
Implicit Types (s : Store P) (sp : Spec).

Lemma store_maps_ok B s sp : store_ok B s sp -> maps_ok s.
Proof.
  intros H n cv l Hn. destruct (so_maps _ _ _ H n cv l Hn) as (o & Ho & Hname & Hm). exists o. split_and!; [done..|].
  destruct (so_objects _ _ _ H l o Ho) as (Hl & [Hne _] & _). done.
Qed.

Lemma initial_sys_ok rt tables : sys_ok 0 (MkSystem (new_store (P:=P) rt tables) ∅) initial_spec.
Proof.
  split.
  - split; try done.
  - intros id t. cbn. by rewrite lookup_empty.
  - intros id1 id2 t1 t2 n1 n2 l. cbn. by rewrite lookup_empty.
Qed.

(** ** Handles *)

Lemma removes_known_op op cs : removes_known cs -> removes_known (fst (handle_op op cs)).
Proof.
  intros Hk. assert (forall k w, (forall j, w !! j = Some None -> is_Some (cs_state cs !! j)) ->
    forall j, removed_writes (cs_state cs) w k !! j = Some None -> is_Some (cs_state cs !! j)) as Hrem.
  { intros k w Hw j. unfold removed_writes. destruct (bool_decide_reflect (is_Some (cs_state cs !! k))) as [Hs|Hs].
    - destruct (decide (k = j)) as [<-|Hne]; [done|]. rewrite lookup_insert_ne by done. apply Hw.
    - intros [_ Hj]%lookup_delete_Some. by apply Hw. }
  destruct op as [k|k|k v|k| | |from to]; cbn [handle_op]; unfold mbind, ST_bind.
  - unfold handle_get. rewrite read_key_eq. cbn. by destruct (cs_writes cs !! k).
  - unfold handle_has, mbind, ST_bind. rewrite read_key_eq. cbn. by destruct (cs_writes cs !! k).
  - intros j. cbn. intros [[_ ?]|[_ Hj]]%lookup_insert_Some; [done|by apply Hk].
  - rewrite handle_remove_eq. intros j. by apply Hrem.
  - rewrite handle_clear_eq. intros j. cbn. unfold cleared_writes. revert j.
    assert (forall l w, (forall j, w !! j = Some None -> is_Some (cs_state cs !! j)) ->
      forall j, foldl (fun w (p : Key * Value) => removed_writes (cs_state cs) w p.1) w l !! j = Some None ->
        is_Some (cs_state cs !! j)) as Hall; [|by apply Hall].
    intros l. induction l as [|p l IH]; intros w Hw j; [apply Hw|]. cbn. apply IH. by apply Hrem.
  - rewrite handle_size_eq. apply Hk.
  - rewrite handle_range_eq. by destruct (_ || _).
Qed.

(** The map object a transaction makes. *)
Definition new_object (s : Store P) (name : Name) : MapObject :=
  MkMapObject name (get_security_domain name) (is_map_replicated s name) new_map false.

(** A transaction that has fixed the version it reads at. *)
Definition reads_at (t t1 : Tx) (id : TxID) : Prop :=
  all_changes t1 = all_changes t /\ created_maps t1 = created_maps t /\ committed t1 = committed t /\
  tx_commit_version t1 = tx_commit_version t /\ read_txid t1 = Some id.

(** [create_change_set] takes the lock of the map and releases it. *)
Lemma lock_and_read {A} (w : World P) l o (k : MapObject -> ST (World P) A) :
  heap (w_store w) !! l = Some o -> mo_locked o = false ->
  (zoom w_store (lock_map l);; o ← zoom w_store (map_at l); zoom w_store (unlock_map l);; k o) w =
  k (set_locked true o) w.
Proof.
  intros Ho Hl. unfold mbind, ST_bind, zoom. rewrite (lock_map_eq l o) by done.
  rewrite (map_at_eq l (set_locked true o)).
  2: { cbn. by rewrite list_lookup_alter_eq, Ho. }
  rewrite (unlock_map_eq l (set_locked true o)); [|cbn; by rewrite list_lookup_alter_eq, Ho|done].
  unfold set. cbn. rewrite (alter_insert _ l (set_locked true o)) by (by rewrite list_lookup_alter_eq, Ho).
  rewrite (alter_insert _ l o) by done. rewrite list_insert_insert_eq.
  assert (set_locked false (set_locked true o) = o) as -> by (destruct o; cbn in *; by subst).
  rewrite list_insert_id by done. f_equal. by destruct w as [[] ?].
Qed.

Lemma get_handle_eq s t name :
  maps_ok s -> all_changes t !! name = None -> created_maps t !! name = None -> 0 <= store_version s ->
  (forall id, read_txid t = Some id -> 0 <= tx_version id) ->
  exists t1 id, reads_at t t1 id /\ id = from_option (fun id => id) (current_txid s) (read_txid t) /\
    match get_map s (tx_version id) name with
    | Some l => exists o, heap s !! l = Some o /\
        get_handle_by_name name (MkWorld s t) =
        match create_change_set (mo_map o) (tx_version id) with
        | Some cs => (MkWorld s (t1 <| all_changes := <[name := (l, cs)]> (all_changes t) |>), Ret tt)
        | None => (MkWorld s t1, Throw CompactedVersionConflict)
        end
    | None =>
        get_handle_by_name name (MkWorld s t) =
        (MkWorld (with_heap (heap s ++ [new_object s name]) s)
           (t1 <| created_maps := <[name := length (heap s)]> (created_maps t) |>
               <| all_changes := <[name := (length (heap s), new_change_set 0 ∅ ∅ 0)]> (all_changes t) |>), Ret tt)
    end.
Proof.
  intros Hok Hall Hcr Hver Hread. set (id := from_option (fun id => id) (current_txid s) (read_txid t)).
  assert (0 <= tx_version id) as Hid by (unfold id; destruct (read_txid t) eqn:E; [by apply Hread|done]).
  set (t1 := match read_txid t with Some _ => t | None => t <| read_txid := Some (current_txid s) |>
    <| commit_view := term_of_next_version s |> end).
  assert (reads_at t t1 id) as Ht1 by (unfold reads_at, t1, id; destruct (read_txid t) eqn:E; by split_and!).
  exists t1, id. split; [done|]. split; [done|]. destruct Ht1 as (Ha & Hc & _ & _ & Hr).
  assert (forall (k : unit -> ST (World P) (Loc * option ChangeSet)),
    ((match read_txid t with
      | Some _ => skip
      | None => zoom w_tx (read_txid <~ Some (current_txid s));; zoom w_tx (commit_view <~ term_of_next_version s)
      end) ≫= k) (MkWorld s t) = k tt (MkWorld s t1)) as Hfix by (intros k; unfold t1; by destruct (read_txid t)).
  destruct (get_map s (tx_version id) name) as [l|] eqn:Eg;
    unfold get_handle_by_name; unfold mbind at 1, ST_bind at 1, get; cbn [w_tx]; rewrite Hall;
    unfold mbind at 1, ST_bind at 1; unfold get_map_and_change_set_by_name;
    unfold mbind at 1, ST_bind at 1, get; cbn [w_tx w_store]; rewrite Hfix; unfold mbind at 1, ST_bind at 1;
    cbn [w_tx w_store]; rewrite Hr; cbn [from_option]; rewrite Eg.
  - assert (exists cv, maps s !! name = Some (cv, l)) as [cv Em].
    { unfold get_map in Eg. destruct (maps s !! name) as [[cv l']|]; [|done]. exists cv. destruct (_ || _); congruence. }
    destruct (Hok _ _ _ Em) as (o & Ho & _ & Hlk & _).
    exists o. split; [done|]. unfold mbind at 1, ST_bind at 1, mret at 1, ST_ret at 1. rewrite (lock_and_read (MkWorld s t1) l o) by done.
    cbn. destruct (create_change_set (mo_map o) (tx_version id)); [|done].
    unfold zoom, modify. cbn [w_tx]. by rewrite Ha.
  - rewrite Hc, Hcr. unfold mbind at 1, ST_bind at 1. unfold make_map.
    unfold mbind at 1, ST_bind at 1. unfold zoom at 1. unfold mbind at 1, ST_bind at 1, get. cbn [w_store w_tx].
    unfold mbind at 1, ST_bind at 1. cbn [assign modify]. unfold assign at 1, modify at 1. unfold mret at 1, ST_ret at 1.
    unfold mbind at 1, ST_bind at 1. unfold zoom at 1. unfold mret at 1, ST_ret at 1.
    fold (new_object s name). rewrite (lock_and_read _ (length (heap s)) (new_object s name)).
    2: { cbn. by rewrite lookup_app_r, Nat.sub_diag by done. }
    2: { done. }
    unfold mret, ST_ret, create_change_set. cbn. destruct (Z.leb_spec 0 (tx_version id)); [|lia].
    unfold zoom, modify. cbn. by rewrite Ha.
Qed.

Lemma with_handle_eq {A} name (m : ST ChangeSet A) (w w1 : World P) l cs :
  get_handle_by_name name w = (w1, Ret tt) -> all_changes (w_tx w1) !! name = Some (l, cs) ->
  fst (with_handle name m w) =
  MkWorld (w_store w1) ((w_tx w1) <| all_changes := <[name := (l, fst (m cs))]> (all_changes (w_tx w1)) |>).
Proof.
  intros Hg Hc. unfold with_handle, mbind, ST_bind, get. rewrite Hg, Hc. destruct (m cs) as [cs' [a|e]]; by destruct w1.
Qed.

(** The same change set, with other reads and writes. *)
Lemma change_ok_op s t n l cs op : change_ok s t n l cs -> change_ok s t n l (fst (handle_op op cs)).
Proof.
  intros (o & Ho & Hn & Hc & Hm). pose proof (handle_op_extends op cs) as Hext.
  exists o. split_and!; [done|done|rewrite (ext_counter _ _ Hext); lia..|].
  rewrite (ext_counter _ _ Hext), (ext_state _ _ Hext). destruct (created_maps t !! n); [|done].
  destruct Hm as (? & ? & ? & ?). split_and!; [done..|]. by apply removes_known_op.
Qed.

(** Other fields of the transaction play no role. *)
Lemma change_ok_tx s t t' n l cs :
  created_maps t' !! n = created_maps t !! n -> change_ok s t n l cs -> change_ok s t' n l cs.
Proof. intros E. unfold change_ok. by rewrite E. Qed.

Lemma tx_ok_use s t name l cs op :
  tx_ok s t -> all_changes t !! name = Some (l, cs) ->
  tx_ok s (t <| all_changes := <[name := (l, fst (handle_op op cs))]> (all_changes t) |>).
Proof.
  intros H Hc. split; try apply H; cbn.
  - intros n l' cs' [[<- [= <- <-]]|[_ Hn]]%lookup_insert_Some.
    + apply change_ok_op, H, Hc.
    + by apply H.
  - intros n l' Hn. destruct (to_created _ _ H n l' Hn) as [cs' Hcs'].
    destruct (decide (name = n)) as [<-|Hne].
    + rewrite lookup_insert_eq. exists (fst (handle_op op cs)). congruence.
    + rewrite lookup_insert_ne by done. by exists cs'.
Qed.

(** A new object at the end of the heap. *)
Definition extend (s : Store P) (o : MapObject) : Store P := with_heap (heap s ++ [o]) s.

Lemma extend_lookup s o l o' : heap s !! l = Some o' -> heap (extend s o) !! l = Some o'.
Proof. intros Hl. cbn. rewrite lookup_app_l; [done|]. by eapply lookup_lt_Some. Qed.

Lemma store_ok_extend B s sp o : store_ok B s sp -> object_ok B o -> store_ok B (extend s o) sp.
Proof.
  intros H Ho. split; try apply H.
  - intros l o'. cbn. intros [Hl|[_ Hl]]%lookup_app_Some; [by eapply H|].
    apply list_lookup_singleton_Some in Hl as [_ <-]. done.
  - intros n cv l Hn. destruct (so_maps _ _ _ H n cv l Hn) as (o' & Ho' & ?). exists o'. split; [|done].
    by apply extend_lookup.
Qed.

Lemma change_ok_extend s t o n l cs : change_ok s t n l cs -> change_ok (extend s o) t n l cs.
Proof. intros (o' & Ho' & H). exists o'. split; [by apply extend_lookup|]. done. Qed.

Lemma tx_ok_extend s t o : tx_ok s t -> tx_ok (extend s o) t.
Proof. intros H. split; try apply H. intros n l cs Hc. apply change_ok_extend. by apply H. Qed.

Lemma new_object_ok B s name : 0 <= B -> object_ok B (new_object s name).
Proof. intros HB. split_and!; [done|apply roll_ok_initial|done|done]. Qed.

(** A transaction that opens a map of the store. *)
Lemma tx_ok_open s t t1 id name l cv o cs :
  tx_ok s t -> reads_at t t1 id -> 0 <= tx_version id -> created_maps t !! name = None ->
  maps s !! name = Some (cv, l) -> heap s !! l = Some o -> mo_name o = name -> 0 <= rollback_counter (mo_map o) ->
  create_change_set (mo_map o) (tx_version id) = Some cs ->
  tx_ok s (t1 <| all_changes := <[name := (l, cs)]> (all_changes t) |>).
Proof.
  intros H (Ha & Hc & Hcm & Hv & Hr) Hid Hcr Hm Ho Hname Hcount Hcs. split; cbn.
  - rewrite Hcm. apply H.
  - rewrite Hv. apply H.
  - intros id' Hid'. rewrite Hr in Hid'. by injection Hid' as <-.
  - intros n l' cs' [[<- [= <- <-]]|[_ Hn]]%lookup_insert_Some.
    + unfold create_change_set in Hcs. destruct (head _); [|done].
      destruct (find_commit _ _); [|done]. injection Hcs as <-.
      exists o. cbn. rewrite Hc, Hcr. split_and!; [done|done|lia|lia|by left; exists cv].
    + eapply (change_ok_tx _ t); [cbn; by rewrite Hc|]. by apply H.
  - rewrite Hc. intros n l' Hn. destruct (decide (name = n)) as [<-|Hne]; [congruence|].
    rewrite lookup_insert_ne by done. by apply (to_created _ _ H).
Qed.

(** A transaction that makes a map. *)
Lemma tx_ok_make s t t1 id name :
  tx_ok s t -> reads_at t t1 id -> 0 <= tx_version id -> all_changes t !! name = None -> maps_ok s ->
  let l := length (heap s) in
  tx_ok (extend s (new_object s name))
    (t1 <| created_maps := <[name := l]> (created_maps t) |>
        <| all_changes := <[name := (l, new_change_set 0 ∅ ∅ 0)]> (all_changes t) |>).
Proof.
  intros H (Ha & Hc & Hcm & Hv & Hr) Hid Hall Hok l. split; cbn.
  - rewrite Hcm. apply H.
  - rewrite Hv. apply H.
  - intros id' Hid'. rewrite Hr in Hid'. by injection Hid' as <-.
  - intros n l' cs' [[<- [= <- <-]]|[Hne Hn]]%lookup_insert_Some.
    + exists (new_object s name). cbn. rewrite lookup_insert_eq, lookup_app_r, Nat.sub_diag by done.
      split_and!; try done. split; [done|]. intros n cv Hn. destruct (Hok _ _ _ Hn) as (o & Ho & _).
      apply lookup_lt_Some in Ho. lia.
    + apply (change_ok_tx _ t); [cbn; by rewrite lookup_insert_ne|]. apply change_ok_extend. by apply H.
  - intros n l' [[<- <-]|[Hne Hn]]%lookup_insert_Some.
    + rewrite lookup_insert_eq. by eexists.
    + rewrite lookup_insert_ne by done. by apply (to_created _ _ H).
Qed.

Lemma tx_ok_reads s t t1 id : tx_ok s t -> reads_at t t1 id -> 0 <= tx_version id -> tx_ok s t1.
Proof.
  intros H (Ha & Hc & Hcm & Hv & Hr) Hid. split.
  - rewrite Hcm. apply H.
  - rewrite Hv. apply H.
  - intros id' Hid'. rewrite Hr in Hid'. by injection Hid' as <-.
  - rewrite Ha. intros n l cs Hn. apply (change_ok_tx _ t); [by rewrite Hc|]. by apply H.
  - rewrite Hc, Ha. apply H.
Qed.

(** Using a map keeps the invariant; it adds at most one object, which the transaction owns. *)
Lemma use_ok B s sp t name op w :
  store_ok B s sp -> tx_ok s t -> 0 <= B -> w = fst (with_handle name (handle_op op) (MkWorld s t)) ->
  tx_ok (w_store w) (w_tx w) /\
  ((w_store w = s /\ created_maps (w_tx w) = created_maps t) \/
   (w_store w = extend s (new_object s name) /\ created_maps (w_tx w) = <[name := length (heap s)]> (created_maps t))).
Proof.
  intros Hs Ht HB ->. pose proof (store_maps_ok _ _ _ Hs) as Hok. pose proof (so_range _ _ _ Hs) as Hrange.
  destruct (all_changes t !! name) as [[l cs]|] eqn:Ec.
  { assert (get_handle_by_name name (MkWorld s t) = (MkWorld s t, Ret tt)) as Hg.
    { unfold get_handle_by_name, mbind, ST_bind, get. cbn [w_tx]. by rewrite Ec. }
    rewrite (with_handle_eq _ _ _ _ _ _ Hg Ec). cbn. split; [|by left]. by apply tx_ok_use. }
  assert (created_maps t !! name = None) as Hcr.
  { destruct (created_maps t !! name) as [l|] eqn:E; [|done]. destruct (to_created _ _ Ht name l E). congruence. }
  destruct (get_handle_eq s t name) as (t1 & id & Hr & Hid & Hg);
    [done|done|done|rewrite (so_version _ _ _ Hs); lia|apply Ht|].
  assert (0 <= tx_version id) as Hpos.
  { rewrite Hid. destruct (read_txid t) as [id'|] eqn:E; [by apply (to_read _ _ Ht)|]. cbn. rewrite (so_version _ _ _ Hs). lia. }
  destruct (get_map s (tx_version id) name) as [l|] eqn:Eg.
  - destruct Hg as (o & Ho & Hg). assert (exists cv, maps s !! name = Some (cv, l)) as [cv Em].
    { unfold get_map in Eg. destruct (maps s !! name) as [[cv l']|]; [|done]. exists cv. destruct (_ || _); congruence. }
    destruct (create_change_set (mo_map o) (tx_version id)) as [cs|] eqn:Ecs.
    + erewrite with_handle_eq; [|exact Hg|cbn; apply lookup_insert_eq]. cbn [w_store w_tx fst]. split.
      * apply (tx_ok_use s (t1 <| all_changes := <[name := (l, cs)]> (all_changes t) |>)); [|cbn; apply lookup_insert_eq].
        destruct (so_maps _ _ _ Hs name cv l Em) as (o' & Ho' & Hn' & _). rewrite Ho in Ho'. injection Ho' as <-.
        eapply (tx_ok_open s t t1 id name l cv o cs); try done. apply (so_objects _ _ _ Hs l o Ho).
      * left. split; [done|]. apply Hr.
    + unfold with_handle, mbind, ST_bind. rewrite Hg. cbn. split; [by eapply tx_ok_reads|]. left. split; [done|]. apply Hr.
  - erewrite with_handle_eq; [|exact Hg|cbn; apply lookup_insert_eq]. cbn [w_store w_tx fst]. split.
    + apply (tx_ok_use _ (t1 <| created_maps := <[name := length (heap s)]> (created_maps t) |>
        <| all_changes := <[name := (length (heap s), new_change_set 0 ∅ ∅ 0)]> (all_changes t) |>)); [|cbn; apply lookup_insert_eq].
      by eapply tx_ok_make.
    + by right.
Qed.

(** ** Changes of the store under the open transactions *)

(** Objects stay where they are; a map leaves the store only by a rollback of its object. *)
Record evolves (s s' : Store P) : Prop := {
  ev_objects l o : heap s !! l = Some o ->
    exists o', heap s' !! l = Some o' /\ mo_name o' = mo_name o /\ rollback_counter (mo_map o) <= rollback_counter (mo_map o');
  ev_maps n cv l o : maps s !! n = Some (cv, l) -> heap s !! l = Some o ->
    (exists cv', maps s' !! n = Some (cv', l)) \/
    exists o', heap s' !! l = Some o' /\ rollback_counter (mo_map o) < rollback_counter (mo_map o')
}.

(** An object that is not part of the store is not touched. *)
Definition leaves (s s' : Store P) (l : Loc) : Prop :=
  forall o, heap s !! l = Some o -> pristine s l o -> exists o', heap s' !! l = Some o' /\ pristine s' l o'.

Lemma change_ok_evolves s s' t n l cs :
  evolves s s' -> (created_maps t !! n = Some l -> leaves s s' l) -> change_ok s t n l cs -> change_ok s' t n l cs.
Proof.
  intros Hev Hl (o & Ho & Hn & Hc & Hm). destruct (ev_objects _ _ Hev l o Ho) as (o' & Ho' & Hn' & Hle).
  exists o'. split_and!; [done|congruence|lia|lia|]. destruct (created_maps t !! n) as [l'|].
  - destruct Hm as (-> & Hp & Hst). destruct (Hl eq_refl o Ho Hp) as (o2 & Ho2 & Hp2).
    rewrite Ho' in Ho2. injection Ho2 as <-. done.
  - destruct Hm as [[cv Hm]|Hlt]; [|right; lia]. destruct (ev_maps _ _ Hev n cv l o Hm Ho) as [?|(o2 & Ho2 & Hlt)]; [by left|].
    right. rewrite Ho' in Ho2. injection Ho2 as <-. lia.
Qed.

Lemma tx_ok_evolves s s' t :
  evolves s s' -> (forall n l, created_maps t !! n = Some l -> leaves s s' l) -> tx_ok s t -> tx_ok s' t.
Proof.
  intros Hev Hl H. split; try apply H. intros n l cs Hc. apply (change_ok_evolves s); [done| |by apply H].
  intros Hn. by apply (Hl n).
Qed.

(** An operation on all maps of the store leaves the other objects. *)
Lemma leaves_others s s' f l :
  heap s' = update_locs eloc (fun _ => change_map f) (ordered (maps s)) (heap s) -> maps s' ⊆ maps s -> leaves s s' l.
Proof.
  intros Hh Hm o Ho [Hroll Hout]. exists o. split.
  - rewrite Hh, update_locs_out; [done|]. intros ([n [cv l']] & -> & He%elem_of_ordered)%list_elem_of_fmap. by apply (Hout n cv).
  - split; [done|]. intros n cv Hn. apply (Hout n cv). by eapply lookup_weaken.
Qed.

(** The object at a location after such an operation. *)
Lemma all_maps_lookup s f l o :
  maps_ok s -> heap s !! l = Some o ->
  update_locs eloc (fun _ => change_map f) (ordered (maps s)) (heap s) !! l =
    Some (change_map f o) /\ (exists n cv, maps s !! n = Some (cv, l)) \/
  update_locs eloc (fun _ => change_map f) (ordered (maps s)) (heap s) !! l = Some o /\ (forall n cv, maps s !! n <> Some (cv, l)).
Proof.
  intros Hok Ho. destruct (decide (l ∈ eloc <$> ordered (maps s))) as [Hl|Hl].
  - left. apply list_elem_of_fmap in Hl as ([n [cv l']] & -> & He). rewrite update_locs_in, Ho by (done || by apply maps_distinct).
    split; [done|]. apply elem_of_ordered in He. by exists n, cv.
  - right. rewrite update_locs_out by done. split; [done|]. intros n cv Hn. apply Hl.
    apply list_elem_of_fmap. exists (n, (cv, l)). split; [done|]. by apply elem_of_ordered.
Qed.

(** ** Compaction *)

Lemma map_ok_compact sp n cv m v :
  map_ok sp n cv m -> sp_compacted sp <= v <= sp_version sp ->
  map_ok (spec_step sp (Compacted v)) n cv (map_step m (OpCompact v)).
Proof.
  intros [Hc Hh Hs Hb] Hv. assert (allowed (hist sp n) (OpCompact v) = true) as Ha.
  { cbn. apply andb_true_intro. split; apply Z.leb_le; lia. }
  split; [done|apply (holds_step m (hist sp n) _ Hh Ha)|apply (since_compact cv m (hist sp n) v Hh Ha Hs)|done].
Qed.

(** The objects a compaction leaves; [post_compact] keeps the roll. *)
Definition compacted_map (v : Z) (m : Map) : Map := fst (post_compact (fst (compact v m))).

Lemma compacted_map_roll v m :
  commits (compacted_map v m) = commits (map_step m (OpCompact v)) /\
  rollback_counter (compacted_map v m) = rollback_counter m.
Proof. unfold compacted_map, compact. cbn. by destruct (compact_commits _ _ _). Qed.

Lemma map_ok_roll sp n cv m m' : commits m' = commits m -> map_ok sp n cv m -> map_ok sp n cv m'.
Proof. intros E [? Hh Hs ?]. split; [done|by rewrite E..|done]. Qed.

Lemma compact_ok B s sp v s' cs :
  store_ok B s sp -> sp_compacted sp <= v <= sp_version sp ->
  s' = with_calls cs (with_heap (update_locs eloc (fun _ => change_map (compacted_map v)) (ordered (maps s)) (heap s))
         (s <| store_compacted := v |>)) ->
  store_ok B s' (spec_step sp (Compacted v)) /\ evolves s s' /\ forall l, leaves s s' l.
Proof.
  intros Hs Hv ->. pose proof (store_maps_ok _ _ _ Hs) as Hok. pose proof (all_maps_lookup s (compacted_map v)) as Hlk.
  set (h := update_locs _ _ _ _) in *.
  assert (forall l o, heap s !! l = Some o -> exists o', h !! l = Some o' /\ mo_name o' = mo_name o /\
    rollback_counter (mo_map o') = rollback_counter (mo_map o)) as Hobj.
  { intros l o Ho. destruct (Hlk l o Hok Ho) as [[-> _]|[-> _]]; [|by exists o].
    eexists. split_and!; [done..|]. apply compacted_map_roll. }
  assert (forall n cv l, maps s !! n = Some (cv, l) -> exists o, heap s !! l = Some o /\ mo_name o = n /\
    h !! l = Some (change_map (compacted_map v) o) /\
    map_ok (spec_step sp (Compacted v)) n cv (compacted_map v (mo_map o))) as Hmaps.
  { intros n cv l Hn. destruct (so_maps _ _ _ Hs n cv l Hn) as (o & Ho & Hname & Hm). exists o. split_and!; [done..| |].
    - destruct (Hlk l o Hok Ho) as [[E _]|[_ Hout]]; [done|]. by destruct (Hout n cv).
    - eapply map_ok_roll; [apply compacted_map_roll|]. by apply map_ok_compact. }
  split; [|split; [split|]].
  - split; try apply Hs; [done|pose proof (so_range _ _ _ Hs); cbn; lia| |].
    + intros l o'. change (heap (with_calls cs _)) with h. intros Ho'.
      assert (is_Some (heap s !! l)) as [o Ho].
      { apply lookup_lt_is_Some. apply lookup_lt_Some in Ho'. unfold h in Ho'. by rewrite update_locs_length in Ho'. }
      destruct (so_objects _ _ _ Hs l o Ho) as (Hl & Hr & Hc). destruct (Hlk l o Hok Ho) as [[E (n & cv & Hn)]|[E _]];
        rewrite Ho' in E; injection E as ->; [|done].
      destruct (Hmaps n cv l Hn) as (o2 & Ho2 & _ & _ & Hm). rewrite Ho in Ho2. injection Ho2 as <-.
      split_and!; [done|apply (map_holds _ _ _ _ Hm)|..]; cbn; rewrite (proj2 (compacted_map_roll v (mo_map o))); lia.
    + intros n cv l Hn. destruct (Hmaps n cv l Hn) as (o & _ & Hname & Hh & Hm). by exists (change_map (compacted_map v) o).
  - intros l o Ho. destruct (Hobj l o Ho) as (o' & Ho' & ? & E). exists o'. split_and!; [done..|]. lia.
  - intros n cv l o Hn _. left. by exists cv.
  - intros l. by apply (leaves_others s _ (compacted_map v)).
Qed.

(** ** Rollback *)

Lemma map_ok_rollback sp n cv m v :
  map_ok sp n cv m -> sp_compacted sp <= v <= sp_version sp ->
  holds (commits (fst (rollback v m))) (history_step (hist sp n) (OpRollback v)) /\
  (cv <= v -> map_ok (spec_step sp (RolledBack v)) n cv (fst (rollback v m))) /\
  (v < cv -> rollback_counter (fst (rollback v m)) = u64 (rollback_counter m + 1) /\
     forall u k, sp_contents sp (Z.min u v) n k = None).
Proof.
  intros [Hc Hh Hs Hb] Hv. assert (allowed (hist sp n) (OpRollback v) = true) as Ha by (apply Z.leb_le; cbn; lia).
  pose proof (holds_step m (hist sp n) _ Hh Ha) as Hstep. split_and!; [done|intros Hcv..].
  - split; [cbn; lia|done|by apply (since_rollback cv m (hist sp n) v Hh Ha Hs)|].
    intros u k Hu. cbn. apply Hb. lia.
  - split; [by apply (rollback_creation cv m (hist sp n) v)|]. intros u k. apply Hb. lia.
Qed.

Lemma rollback_counter_bound v m B :
  roll_ok (commits m) -> 0 <= rollback_counter m <= B -> B + 1 < 2 ^ 64 ->
  rollback_counter m <= rollback_counter (fst (rollback v m)) <= B + 1.
Proof.
  intros Hr Hc HB. destruct (rollback_counts v m Hr) as [[_ E]|E]; rewrite E; [lia|]. rewrite u64_small; u64_lia.
Qed.

Lemma object_ok_mono B B' o : B <= B' -> object_ok B o -> object_ok B' o.
Proof. intros HB (? & ? & ?). split_and!; [done..|lia|lia]. Qed.

Lemma rollback_store_ok B s sp v s' :
  store_ok B s sp -> B + 1 < 2 ^ 64 -> sp_compacted sp <= v < sp_version sp ->
  store_compacted s' = store_compacted s -> store_version s' = v -> maps s' = kept_by v (maps s) ->
  heap s' = update_locs eloc (fun _ => change_map (fun m => fst (rollback v m))) (ordered (maps s)) (heap s) ->
  store_ok (B + 1) s' (spec_step sp (RolledBack v)) /\ evolves s s' /\ forall l, leaves s s' l.
Proof.
  intros Hs HB Hv Hcomp Hver Hm Hh. pose proof (store_maps_ok _ _ _ Hs) as Hok.
  pose proof (all_maps_lookup s (fun m => fst (rollback v m))) as Hlk. rewrite <- Hh in Hlk.
  assert (forall n cv l, maps s !! n = Some (cv, l) -> exists o, heap s !! l = Some o /\ mo_name o = n /\
    heap s' !! l = Some (change_map (fun m => fst (rollback v m)) o) /\ map_ok sp n cv (mo_map o)) as Hmaps.
  { intros n cv l Hn. destruct (so_maps _ _ _ Hs n cv l Hn) as (o & Ho & Hname & Hok'). exists o. split_and!; [done..| |done].
    destruct (Hlk l o Hok Ho) as [[E _]|[_ Hout]]; [done|]. by destruct (Hout n cv). }
  assert (forall n cv l, maps s' !! n = Some (cv, l) <-> maps s !! n = Some (cv, l) /\ cv <= v) as Hkept.
  { intros n cv l. rewrite Hm. apply map_lookup_filter_Some. }
  assert (forall l o, heap s !! l = Some o -> exists o', heap s' !! l = Some o' /\ mo_name o' = mo_name o /\
    mo_locked o' = mo_locked o /\ rollback_counter (mo_map o) <= rollback_counter (mo_map o') <= B + 1 /\
    roll_ok (commits (mo_map o'))) as Hobj.
  { intros l o Ho. destruct (so_objects _ _ _ Hs l o Ho) as (Hl & Hr & Hc).
    destruct (Hlk l o Hok Ho) as [[E (n & cv & Hn)]|[E _]]; (eexists; split_and!; [exact E|done|done|..]); try lia; try done.
    - by apply (rollback_counter_bound v (mo_map o) B).
    - by apply (rollback_counter_bound v (mo_map o) B).
    - destruct (Hmaps n cv l Hn) as (o2 & Ho2 & _ & _ & Hmok). rewrite Ho in Ho2. injection Ho2 as <-.
      destruct (map_ok_rollback sp n cv (mo_map o) v Hmok) as [Hholds _]; [lia|]. apply Hholds. }
  split; [|split; [split|]].
  - pose proof (so_range _ _ _ Hs). pose proof (so_max _ _ _ Hs).
    split; cbn [spec_step sp_version sp_compacted sp_contents]; [lia|rewrite Hcomp; apply Hs|lia|lia|..].
    + intros l o' Ho'. assert (is_Some (heap s !! l)) as [o Ho].
      { apply lookup_lt_is_Some. apply lookup_lt_Some in Ho'. by rewrite Hh, update_locs_length in Ho'. }
      destruct (Hobj l o Ho) as (o2 & Ho2 & _ & Hl & Hc & Hr). rewrite Ho' in Ho2. injection Ho2 as <-.
      destruct (so_objects _ _ _ Hs l o Ho) as (Hl' & _ & Hc'). split_and!; [congruence|done|lia|lia].
    + intros n cv l [Hn Hcv]%Hkept. destruct (Hmaps n cv l Hn) as (o & Ho & Hname & Ho' & Hmok).
      eexists. split_and!; [exact Ho'|done|]. apply (map_ok_rollback sp n cv (mo_map o) v Hmok); [lia|done].
    + intros n u k Hn. destruct (maps s !! n) as [[cv l]|] eqn:E; [|by apply (so_absent _ _ _ Hs)].
      assert (v < cv) as Hcv.
      { destruct (Z.le_gt_cases cv v) as [Hle|]; [|lia]. assert (maps s' !! n = Some (cv, l)) by by apply Hkept. congruence. }
      destruct (Hmaps n cv l E) as (o & _ & _ & _ & Hmok).
      destruct (map_ok_rollback sp n cv (mo_map o) v Hmok) as (_ & _ & Hgone); [lia|]. by apply Hgone.
  - intros l o Ho. destruct (Hobj l o Ho) as (o' & Ho' & Hn' & _ & Hc & _). exists o'. split_and!; [done..|lia].
  - intros n cv l o Hn Ho. destruct (Z.le_gt_cases cv v) as [Hcv|Hcv]; [left; exists cv; by apply Hkept|right].
    destruct (Hmaps n cv l Hn) as (o2 & Ho2 & _ & Ho' & Hmok). rewrite Ho in Ho2. injection Ho2 as <-.
    eexists. split; [exact Ho'|]. destruct (map_ok_rollback sp n cv (mo_map o) v Hmok) as (_ & _ & Hgone); [lia|].
    destruct (Hgone ltac:(lia)) as [E _]. cbn. cbn in E. rewrite E. destruct (so_objects _ _ _ Hs l o Ho) as (_ & _ & Hc).
    rewrite u64_small; u64_lia.
  - intros l. apply (leaves_others s _ (fun m => fst (rollback v m))); [done|]. rewrite Hm. apply map_filter_subseteq.
Qed.

(** ** Commit *)

Lemma added_out (v : Z) (news : list (Name * Loc)) (ms : gmap Name (Z * Loc)) (n : Name) : n ∉ news.*1 -> added v news ms !! n = ms !! n.
Proof.
  revert ms. induction news as [|new news IH]; intros ms Hn; [done|]. cbn in Hn. apply not_elem_of_cons in Hn as [Hne Hn].
  cbn [added foldl]. unfold added in IH. rewrite IH by done. by apply lookup_insert_ne.
Qed.

Lemma added_in (v : Z) (news : list (Name * Loc)) (ms : gmap Name (Z * Loc)) (n : Name) (l : Loc) :
  NoDup news.*1 -> (n, l) ∈ news -> added v news ms !! n = Some (v, l).
Proof.
  revert ms. induction news as [|new news IH]; intros ms Hnd Hin; [by apply elem_of_nil in Hin|].
  cbn in Hnd. apply NoDup_cons in Hnd as [Hn Hnd]. apply elem_of_cons in Hin as [<-|Hin]; [|by apply IH].
  cbn [added foldl fst snd]. fold (added v news (<[n := (v, l)]> ms)). rewrite added_out by done. apply lookup_insert_eq.
Qed.

Lemma map_ok_commit sp n cv m cs v writes :
  map_ok sp n cv m -> sp_version sp < v < 2 ^ 63 -> writes n = cs_writes cs ->
  map_ok (spec_step sp (Committed v writes)) n cv (map_step m (OpCommit cs v)).
Proof.
  intros [Hc Hh Hs Hb] Hv Hw. assert (allowed (hist sp n) (OpCommit cs v) = true) as Ha.
  { cbn. apply andb_true_intro. split; apply Z.ltb_lt; lia. }
  assert (hist (spec_step sp (Committed v writes)) n = history_step (hist sp n) (OpCommit cs v)) as E.
  { unfold hist. cbn. by rewrite Hw. }
  split; [cbn; lia|rewrite E; by apply holds_step|rewrite E; apply since_commit; [done..|cbn; lia]|].
  intros u k Hu. cbn. destruct (Z.ltb_spec u v); [|lia]. by apply Hb.
Qed.

(** The commit that creates the map. *)
Lemma map_ok_created sp n m cs v writes :
  commits m = initial_commits -> (forall u k, sp_contents sp u n k = None) ->
  0 <= sp_compacted sp <= sp_version sp -> sp_version sp < v < 2 ^ 63 ->
  writes n = cs_writes cs -> (exists k x, cs_writes cs !! k = Some (Some x)) ->
  map_ok (spec_step sp (Committed v writes)) n v (map_step m (OpCommit cs v)).
Proof.
  intros Hm Hnone Hd Hv Hw Hput. assert (allowed (hist sp n) (OpCommit cs v) = true) as Ha.
  { cbn. apply andb_true_intro. split; apply Z.ltb_lt; lia. }
  assert (hist (spec_step sp (Committed v writes)) n = history_step (hist sp n) (OpCommit cs v)) as E.
  { unfold hist. cbn. by rewrite Hw. }
  assert (holds (commits m) (hist sp n)) as Hh.
  { rewrite Hm. eapply holds_ext; [by apply (holds_new (sp_version sp) (sp_compacted sp))|..|done|done]. intros. apply Hnone. }
  split; [cbn; lia|rewrite E; by apply holds_step|rewrite E; by apply since_created|].
  intros u k Hu. cbn. destruct (Z.ltb_spec u v); [|lia]. apply Hnone.
Qed.

Lemma map_commit_counter m cs v : rollback_counter (map_step m (OpCommit cs v)) = rollback_counter m.
Proof.
  cbn. unfold commit. destruct (is_empty _ && _); [done|]. unfold mbind, ST_bind, get.
  destruct (last (commits m)); [|done]. cbn. by destruct (foldl _ _ _) as [st []].
Qed.

(** A created map that is written to has a value. *)
Lemma created_put cs :
  removes_known cs -> cs_state cs = ∅ -> cs_writes cs <> ∅ -> exists k x, cs_writes cs !! k = Some (Some x).
Proof.
  intros Hr Hst [k [[x|] Hk]]%map_choose; [by exists k, x|]. destruct (Hr k Hk) as [e He].
  by rewrite Hst, lookup_empty in He.
Qed.

(** The transaction has been committed at [v]: what the changes leave. *)
Record commits_to (s : Store P) (t : Tx) (v : Z) (s' : Store P) : Prop := {
  ct_free : conflict_free s (tx_changes t) (created_maps t) None false = true;
  ct_length : length (heap s') = length (heap s);
  ct_version : store_version s' = v;
  ct_compacted : store_compacted s' = store_compacted s;
  ct_maps : maps s' = added v (kept_maps (tx_changes t) (created_maps t)) (maps s);
  ct_heap l o : heap s !! l = Some o -> exists o', heap s' !! l = Some o' /\ mo_name o' = mo_name o /\
    mo_locked o' = mo_locked o /\ roll o' = roll_after (tx_changes t) v l o /\
    mo_domain o' = mo_domain o /\ mo_replicated o' = mo_replicated o
}.

Section commit.
Context (B : Z) (s : Store P) (sp : Spec) (t : Tx) (Hs : store_ok B s sp) (Ht : tx_ok s t).

Lemma elem_of_tx_changes view :
  view ∈ ordered (tx_changes t) ->
  exists n l cs o, view = (n, (l, Changes cs)) /\ all_changes t !! n = Some (l, cs) /\ heap s !! l = Some o /\ mo_name o = n.
Proof.
  destruct view as [n mc]. intros Hv%elem_of_ordered. unfold tx_changes in Hv. rewrite lookup_fmap_Some in Hv.
  destruct Hv as ([l cs] & <- & Hn). destruct (to_changes _ _ Ht n l cs Hn) as (o & Ho & Hname & _). by exists n, l, cs, o.
Qed.

Lemma tx_changes_ok : changes_ok s (tx_changes t) (created_maps t).
Proof.
  split.
  - apply NoDup_fmap_2_strong; [|apply (NoDup_fmap_1 fst), ordered_NoDup]. intros v1 v2 H1 H2.
    destruct (elem_of_tx_changes v1 H1) as (n1 & l1 & cs1 & o1 & -> & Hn1 & Ho1 & Hm1).
    destruct (elem_of_tx_changes v2 H2) as (n2 & l2 & cs2 & o2 & -> & Hn2 & Ho2 & Hm2). unfold vloc. cbn. intros <-.
    rewrite Ho1 in Ho2. injection Ho2 as <-. rewrite Hm1 in Hm2. subst n2. congruence.
  - intros view Hv. destruct (elem_of_tx_changes view Hv) as (n & l & cs & o & -> & _ & Ho & _). exists o. split; [done|].
    destruct (so_objects _ _ _ Hs l o Ho) as (Hl & [Hne _] & _). done.
  - intros [n l] Hn%elem_of_ordered. destruct (to_created _ _ Ht n l Hn) as [cs Hc].
    destruct (to_changes _ _ Ht n l cs Hc) as (o & Ho & Hname & _). by exists o.
Qed.

Lemma tx_no_snapshot : no_snapshot (tx_changes t) = true.
Proof.
  apply forallb_forall. intros view Hv%list_elem_of_In. by destruct (elem_of_tx_changes view Hv) as (n & l & cs & o & -> & _).
Qed.

(** The roll of an object after the commit: only the change set under its own name can be about it. *)
Lemma roll_after_tx v l o :
  heap s !! l = Some o ->
  roll_after (tx_changes t) v l o =
  match all_changes t !! mo_name o with
  | Some (l', cs) => if decide (l' = l) then roll (change_map (fun m => map_step m (OpCommit cs v)) o) else roll o
  | None => roll o
  end.
Proof.
  intros Ho. unfold roll_after. destruct (list_find _ _) as [[i view]|] eqn:Ef.
  - apply list_find_Some in Ef as (Hv%list_elem_of_lookup_2 & Hl & _).
    destruct (elem_of_tx_changes view Hv) as (n & l' & cs & o' & -> & Hn & Ho' & Hname). unfold vloc in Hl. cbn in Hl. subst l'.
    rewrite Ho in Ho'. injection Ho' as <-. rewrite Hname, Hn. by rewrite decide_True.
  - apply list_find_None in Ef. destruct (all_changes t !! mo_name o) as [[l' cs]|] eqn:E; [|done].
    destruct (decide (l' = l)) as [->|]; [|done]. rewrite Forall_forall in Ef.
    destruct (Ef (mo_name o, (l, Changes cs))); [|done]. apply elem_of_ordered. unfold tx_changes. by rewrite lookup_fmap, E.
Qed.

Lemma elem_of_kept_maps n l :
  (n, l) ∈ kept_maps (tx_changes t) (created_maps t) <->
  created_maps t !! n = Some l /\ exists cs, all_changes t !! n = Some (l, cs) /\ cs_writes cs <> ∅.
Proof.
  unfold kept_maps. rewrite list_elem_of_filter, elem_of_ordered. cbn [fst]. unfold tx_changes. rewrite lookup_fmap. split.
  - intros [Hw Hn]. split; [done|]. destruct (to_created _ _ Ht n l Hn) as [cs Hc]. rewrite Hc in Hw. exists cs. split; [done|].
    intros E. cbn in Hw. unfold has_writes in Hw. by rewrite is_empty_true in Hw.
  - intros [Hn (cs & Hc & Hw)]. split; [|done]. rewrite Hc. cbn. unfold has_writes. by rewrite is_empty_false.
Qed.

(** Without a conflict, what is written is a map of the store or a new map, and a new map is not in the store. *)
Lemma written_map n l cs o :
  conflict_free s (tx_changes t) (created_maps t) None false = true -> all_changes t !! n = Some (l, cs) ->
  heap s !! l = Some o -> cs_writes cs <> ∅ ->
  created_maps t !! n = Some l /\ roll o = (initial_commits, 0) /\ (exists k x, cs_writes cs !! k = Some (Some x)) \/
  created_maps t !! n = None /\ exists cv, maps s !! n = Some (cv, l).
Proof.
  intros [Hprep _]%andb_prop Hc Ho Hw. destruct (to_changes _ _ Ht n l cs Hc) as (o' & Ho' & Hname & Hcount & Hm).
  rewrite Ho in Ho'. injection Ho' as <-. destruct (created_maps t !! n) as [l'|].
  - left. destruct Hm as (-> & [Hroll _] & Hst & Hr). split_and!; [done..|]. by apply created_put.
  - right. split; [done|]. destruct Hm as [?|Hlt]; [done|exfalso]. rewrite forallb_forall in Hprep.
    assert ((n, (l, Changes cs)) ∈ ordered (tx_changes t)) as Hin.
    { apply elem_of_ordered. unfold tx_changes. by rewrite lookup_fmap, Hc. }
    specialize (Hprep _ (proj1 (list_elem_of_In _ _) Hin)). unfold prepared_in, vloc, vchanges in Hprep. cbn in Hprep.
    rewrite Ho in Hprep. unfold prepare in Hprep. rewrite is_empty_false in Hprep by done.
    destruct (Z.eqb_spec (cs_rollback_counter cs) (rollback_counter (mo_map o))); [lia|done].
Qed.

Lemma created_absent n l :
  conflict_free s (tx_changes t) (created_maps t) None false = true -> created_maps t !! n = Some l -> maps s !! n = None.
Proof.
  intros [_ Hnew]%andb_prop Hn%elem_of_ordered. rewrite forallb_forall in Hnew.
  specialize (Hnew _ (proj1 (list_elem_of_In _ _) Hn)). apply bool_decide_eq_true in Hnew. cbn in Hnew. unfold get_map in Hnew.
  destruct (maps s !! n) as [[cv l']|] eqn:E; [|done]. destruct (so_maps _ _ _ Hs n cv l' E) as (o & _ & _ & Hm).
  pose proof (map_created _ _ _ _ Hm). rewrite (so_version _ _ _ Hs) in Hnew. destruct (Z.leb_spec cv (sp_version sp)); [done|lia].
Qed.

Context (s' : Store P) (v : Z) (Hv : sp_version sp < v < 2 ^ 63) (Hct : commits_to s t v s').

(** An object either has its roll, or the roll with the changes. *)
Lemma commit_object l o :
  heap s !! l = Some o ->
  exists o', heap s' !! l = Some o' /\ mo_name o' = mo_name o /\ mo_locked o' = mo_locked o /\
    rollback_counter (mo_map o') = rollback_counter (mo_map o) /\
    (commits (mo_map o') = commits (mo_map o) /\
       (forall cs, all_changes t !! mo_name o = Some (l, cs) -> cs_writes cs = ∅) \/
     exists cs, all_changes t !! mo_name o = Some (l, cs) /\ cs_writes cs <> ∅ /\
       commits (mo_map o') = commits (map_step (mo_map o) (OpCommit cs v))).
Proof.
  destruct Hct as [Hfree Hlen Hver Hcomp Hmaps Hheap]. intros Ho. destruct (Hheap l o Ho) as (o' & Ho' & Hn & Hl & Hr & _). exists o'. split_and!; [done..| |];
    rewrite (roll_after_tx v l o Ho) in Hr; destruct (all_changes t !! mo_name o) as [[l' cs]|] eqn:E;
    try destruct (decide (l' = l)) as [->|Hne]; unfold roll in Hr; injection Hr as Hc Hr; try done.
  - rewrite Hr. apply map_commit_counter.
  - destruct (decide (cs_writes cs = ∅)) as [He|He]; [left|right; by exists cs]. split; [|by intros ? [= <-]].
    rewrite Hc. cbn. by rewrite commit_nothing.
  - left. split; [done|]. intros ? [= ? _]. done.
  - by left.
Qed.

Lemma commit_maps n cv l :
  maps s' !! n = Some (cv, l) <->
  maps s !! n = Some (cv, l) \/ cv = v /\ (n, l) ∈ kept_maps (tx_changes t) (created_maps t).
Proof.
  destruct Hct as [Hfree Hlen Hver Hcomp Hmaps Hheap]. rewrite Hmaps. set (news := kept_maps _ _). assert (NoDup news.*1) as Hnd.
  { apply (sublist_NoDup _ (ordered (created_maps t)).*1); [apply ordered_NoDup|]. apply fmap_sublist, sublist_filter. }
  assert (forall l', (n, l') ∈ news -> maps s !! n = None) as Hnone.
  { intros l' [Hcr _]%elem_of_kept_maps. by eapply created_absent. }
  destruct (decide (n ∈ news.*1)) as [Hin|Hout].
  - apply list_elem_of_fmap in Hin as ([n' l'] & -> & Hin). cbn in *. rewrite (added_in v news _ n' l'), (Hnone l') by done.
    split; [intros [= <- <-]; by right|]. intros [?|[-> Hin']]; [done|].
    f_equal. f_equal. apply elem_of_kept_maps in Hin as [E1 _], Hin' as [E2 _]. congruence.
  - rewrite added_out by done. split; [by left|]. intros [?|[_ Hin]]; [done|]. destruct Hout. by apply (list_elem_of_fmap_2 fst _ (n, l)).
Qed.

Local Abbreviation sp' := (spec_step sp (Committed v (tx_writes t))).

Lemma commit_map_ok n cv l :
  maps s' !! n = Some (cv, l) -> exists o, heap s' !! l = Some o /\ mo_name o = n /\ map_ok sp' n cv (mo_map o).
Proof.
  destruct Hct as [Hfree Hlen Hver Hcomp Hmaps Hheap]. intros Hm. pose proof (so_range _ _ _ Hs) as Hrange. apply commit_maps in Hm as [Hm|[-> (Hcr & cs & Hc & Hw)%elem_of_kept_maps]].
  - destruct (so_maps _ _ _ Hs n cv l Hm) as (o & Ho & Hname & Hok).
    destruct (commit_object l o Ho) as (o' & Ho' & Hn' & _ & _ & Hcase). exists o'. split_and!; [done|congruence|].
    destruct Hcase as [[Hcs Hnone]|(cs & Hc & Hw & Hcs)].
    + apply (map_ok_roll _ _ _ (map_step (mo_map o) (OpCommit (new_change_set 0 ∅ ∅ 0) v))).
      { rewrite Hcs. cbn. by rewrite commit_nothing. }
      apply map_ok_commit; [done..|]. cbn. unfold tx_writes. destruct (all_changes t !! n) as [[l' cs]|] eqn:E; [|done]. cbn.
      destruct (decide (cs_writes cs = ∅)) as [|Hw]; [done|]. rewrite Hname in Hnone.
      destruct (to_changes _ _ Ht n l' cs E) as (o2 & Ho2 & _).
      destruct (written_map n l' cs o2 Hfree E Ho2 Hw) as [[Hcr _]|[_ [cv' Hm']]].
      * by rewrite (created_absent n l' Hfree Hcr) in Hm.
      * rewrite Hm in Hm'. injection Hm' as _ <-. by apply Hnone.
    + apply (map_ok_roll _ _ _ (map_step (mo_map o) (OpCommit cs v)) _ Hcs). apply map_ok_commit; [done..|].
      unfold tx_writes. rewrite Hname in Hc. by rewrite Hc.
  - destruct (to_changes _ _ Ht n l cs Hc) as (o & Ho & Hname & _ & Hm). rewrite Hcr in Hm. destruct Hm as (_ & [Hroll _] & Hst & Hr).
    destruct (commit_object l o Ho) as (o' & Ho' & Hn' & _ & _ & Hcase). exists o'. split_and!; [done|congruence|].
    rewrite Hname in Hcase. destruct Hcase as [[_ Hnone]|(cs' & Hc' & _ & Hcs)]; [by destruct Hw; apply Hnone|].
    rewrite Hc in Hc'. injection Hc' as <-. apply (map_ok_roll _ _ _ (map_step (mo_map o) (OpCommit cs v)) _ Hcs).
    apply map_ok_created; [by injection Hroll|..|done|done| |by apply created_put].
    + intros u k. apply (so_absent _ _ _ Hs). by eapply created_absent.
    + unfold tx_writes. by rewrite Hc.
Qed.

Lemma commit_store_ok : store_ok B s' sp'.
Proof.
  destruct Hct as [Hfree Hlen Hver Hcomp Hmaps Hheap]. pose proof (so_range _ _ _ Hs) as Hrange. split; cbn [spec_step sp_version sp_compacted sp_contents];
    [done|rewrite Hcomp; apply Hs|lia|lia| |apply commit_map_ok|].
  - intros l o' Ho'. assert (is_Some (heap s !! l)) as [o Ho].
    { apply lookup_lt_is_Some. apply lookup_lt_Some in Ho'. by rewrite Hlen in Ho'. }
    destruct (commit_object l o Ho) as (o2 & Ho2 & _ & Hl & Hr & Hcase). rewrite Ho' in Ho2. injection Ho2 as <-.
    destruct (so_objects _ _ _ Hs l o Ho) as (Hl' & Hroll & Hc). split_and!; [congruence| |lia|lia].
    destruct Hcase as [[-> _]|(cs & Hcs & Hw & _)]; [done|].
    assert (exists cv, maps s' !! mo_name o = Some (cv, l)) as [cv Hm].
    { destruct (written_map _ l cs o Hfree Hcs Ho Hw) as [[Hcr _]|[_ [cv Hm]]].
      - exists v. apply commit_maps. right. split; [done|]. apply elem_of_kept_maps. split; [done|]. by exists cs.
      - exists cv. apply commit_maps. by left. }
    destruct (commit_map_ok _ _ _ Hm) as (o2 & Ho2 & _ & Hok). rewrite Ho' in Ho2. injection Ho2 as <-. apply (map_holds _ _ _ _ Hok).
  - intros n u k Hn. assert (maps s !! n = None) as Hm.
    { destruct (maps s !! n) as [[cv l]|] eqn:E; [|done]. assert (maps s' !! n = Some (cv, l)) by (apply commit_maps; by left). congruence. }
    destruct (u <? v); [by apply (so_absent _ _ _ Hs)|]. assert (tx_writes t n = ∅) as ->.
    { unfold tx_writes. destruct (all_changes t !! n) as [[l cs]|] eqn:E; [|done]. cbn.
      destruct (decide (cs_writes cs = ∅)) as [|Hw]; [done|]. destruct (to_changes _ _ Ht n l cs E) as (o & Ho & _).
      destruct (written_map n l cs o Hfree E Ho Hw) as [[Hcr _]|[_ [cv Hm']]]; [|congruence].
      assert (maps s' !! n = Some (v, l)); [|congruence]. apply commit_maps. right. split; [done|].
      apply elem_of_kept_maps. split; [done|]. by exists cs. }
    unfold overwrite. rewrite lookup_empty. by apply (so_absent _ _ _ Hs).
Qed.

Lemma commit_evolves : evolves s s'.
Proof.
  split.
  - intros l o Ho. destruct (commit_object l o Ho) as (o' & Ho' & Hn & _ & Hc & _). exists o'. split_and!; [done..|lia].
  - intros n cv l o Hm _. left. exists cv. apply commit_maps. by left.
Qed.

Lemma commit_leaves l : (forall n, created_maps t !! n <> Some l) -> leaves s s' l.
Proof.
  destruct Hct as [Hfree Hlen Hver Hcomp Hmaps Hheap]. intros Hnot o Ho [Hroll Hout]. destruct (commit_object l o Ho) as (o' & Ho' & Hn & _ & Hc & Hcase). exists o'. split; [done|]. split.
  - unfold roll in *. destruct Hcase as [[-> _]|(cs & Hcs & Hw & _)]; [by rewrite Hc|].
    destruct (written_map _ l cs o Hfree Hcs Ho Hw) as [[Hcr _]|[_ [cv Hm]]]; [by destruct (Hnot _ Hcr)|by destruct (Hout _ _ Hm)].
  - intros n cv [Hm|[_ [Hcr _]%elem_of_kept_maps]]%commit_maps; [by apply (Hout n cv)|by apply (Hnot n)].
Qed.

(** The names of the maps of the store after the commit. *)
Lemma commit_names n : is_Some (maps s' !! n) <-> is_Some (maps s !! n) \/ tx_writes t n <> ∅.
Proof.
  split.
  - intros [[cv l] [Hm|[_ [_ (cs & Hc & Hw)]%elem_of_kept_maps]]%commit_maps]; [left; by eexists|right].
    unfold tx_writes. by rewrite Hc.
  - intros [[[cv l] Hm]|Hw]; [exists (cv, l); apply commit_maps; by left|].
    unfold tx_writes in Hw. destruct (all_changes t !! n) as [[l cs]|] eqn:E; [|done]. cbn in Hw.
    destruct (to_changes _ _ Ht n l cs E) as (o & Ho & _).
    destruct (written_map n l cs o (ct_free _ _ _ _ Hct) E Ho Hw) as [[Hcr _]|[_ [cv Hm]]].
    + exists (v, l). apply commit_maps. right. split; [done|]. apply elem_of_kept_maps. split; [done|]. by exists cs.
    + exists (cv, l). apply commit_maps. by left.
Qed.
End commit.
End invariant.
