(* ===== verification/KvRefinement.v ===== *)
(** The store with its open transactions refines the history of the contents of its maps. *)

From S2P Require Import Prelude Serialized RaftTypes KvMap KvRoll KvHandle KvHandleProps KvValidation KvSerialise KvStore KvTx KvStoreProps KvStoreHistory KvSystem.

Section refinement.
Context {P : Type} {SO : StateOrder}.
Context (map_hook : Name -> Z -> Write -> option Hook) (services : @Services P)
  (call : P -> ST (Store P) PendingTxInfo) (MovePendingTx : PendingTxInfo -> P)
  (encryptor : option Encryptor) (commit_evidence_digest : TxID -> outcome bytes) (claims : option bytes).
Context (Hcall : forall p, respects same_store (call p)).
Context (Hreplicate : forall c batch view, consensus services = Some c -> respects same_store (con_replicate c batch view)).
Implicit Types (s : Store P) (y : System P).

Local Abbreviation step := (sys_step (returning map_hook) services call MovePendingTx encryptor commit_evidence_digest claims).
Local Abbreviation run := (sys_run (returning map_hook) services call MovePendingTx encryptor commit_evidence_digest claims).
Local Abbreviation all_ok := (sys_all_allowed (returning map_hook) services call MovePendingTx encryptor commit_evidence_digest claims).
Local Abbreviation commit_t := (commit_tx (returning map_hook) services call MovePendingTx encryptor commit_evidence_digest claims).

(** ** The steps *)

Lemma store_ok_mono B B' s sp : B <= B' -> store_ok B s sp -> store_ok B' s sp.
Proof. intros HB H. split; try apply H. intros l o Ho. eapply object_ok_mono; [done|]. by apply (so_objects _ _ _ H l). Qed.

Lemma sys_ok_mono B B' y sp : B <= B' -> sys_ok B y sp -> sys_ok B' y sp.
Proof. intros HB H. split; [|apply H..]. eapply store_ok_mono; [done|]. apply H. Qed.

Lemma begin_preserves B y sp id :
  sys_ok B y sp -> sys_ok B (MkSystem (sys_store y) (<[id := create_tx]> (sys_txs y))) sp.
Proof.
  intros H. split; cbn.
  - apply H.
  - intros id' t [[<- <-]|[_ Ht]]%lookup_insert_Some; [|by apply (sy_txs _ _ _ H id')].
    split; try done; cbn; intros n l; by rewrite lookup_empty.
  - intros id1 id2 t1 t2 n1 n2 l [[<- <-]|[_ H1]]%lookup_insert_Some [[<- <-]|[_ H2]]%lookup_insert_Some; try done;
      [by cbn; rewrite lookup_empty..|]. by apply (sy_owner _ _ _ H id1 id2 t1 t2 n1 n2 l).
Qed.

Lemma use_preserves B y sp id name op t w :
  0 <= B -> sys_ok B y sp -> sys_txs y !! id = Some t -> w = fst (with_handle name (handle_op op) (MkWorld (sys_store y) t)) ->
  sys_ok B (MkSystem (w_store w) (<[id := w_tx w]> (sys_txs y))) sp.
Proof.
  intros HB H Ht Hw. destruct (use_ok B (sys_store y) sp t name op w) as [Hok Hcase];
    [apply H|by apply (sy_txs _ _ _ H id)|done|done|].
  assert (forall id' t' n l, sys_txs y !! id' = Some t' -> created_maps t' !! n = Some l -> (l < length (heap (sys_store y)))%nat) as Hold.
  { intros id' t' n l Ht' Hn. destruct (to_created _ _ (sy_txs _ _ _ H id' t' Ht') n l Hn) as [cs Hc].
    destruct (to_changes _ _ (sy_txs _ _ _ H id' t' Ht') n l cs Hc) as (o & Ho & _). by eapply lookup_lt_Some. }
  split; cbn.
  - destruct Hcase as [[-> _]|[-> _]]; [apply H|]. apply store_ok_extend; [apply H|]. by apply new_object_ok.
  - intros id' t' [[<- <-]|[_ Ht']]%lookup_insert_Some; [done|]. apply (sy_txs _ _ _ H) in Ht'.
    destruct Hcase as [[-> _]|[-> _]]; [done|]. by apply tx_ok_extend.
  - assert (forall n l, created_maps (w_tx w) !! n = Some l ->
      created_maps t !! n = Some l \/ l = length (heap (sys_store y))) as Hnew.
    { intros n l. destruct Hcase as [[_ ->]|[_ ->]]; [by left|]. intros [[_ <-]|[_ ?]]%lookup_insert_Some; [by right|by left]. }
    intros id1 id2 t1 t2 n1 n2 l [[<- <-]|[Hne1 H1]]%lookup_insert_Some [[<- <-]|[Hne2 H2]]%lookup_insert_Some Hn1 Hn2; try done.
    + destruct (Hnew _ _ Hn1) as [Hn| ->]; [by apply (sy_owner _ _ _ H id id2 t t2 n1 n2 l)|].
      pose proof (Hold _ _ _ _ H2 Hn2). lia.
    + destruct (Hnew _ _ Hn2) as [Hn| ->]; [by apply (sy_owner _ _ _ H id1 id t1 t n1 n2 l)|].
      pose proof (Hold _ _ _ _ H1 Hn1). lia.
    + by apply (sy_owner _ _ _ H id1 id2 t1 t2 n1 n2 l).
Qed.

(** A change of the store that the open transactions survive. *)
Lemma store_preserves B B' y sp sp' s' :
  sys_ok B y sp -> store_ok B' s' sp' -> evolves (sys_store y) s' -> (forall l, leaves (sys_store y) s' l) ->
  sys_ok B' (MkSystem s' (sys_txs y)) sp'.
Proof.
  intros H Hs Hev Hl. split; [done| |apply H]. cbn. intros id t Ht. eapply tx_ok_evolves; [done|done|]. by apply (sy_txs _ _ _ H id).
Qed.

(** The history and the invariant see the maps and the versions only. *)
Lemma store_ok_same B s s' sp : same_store s s' -> store_ok B s sp -> store_ok B s' sp.
Proof.
  intros [= Hh Hm Hv Hc] H. split; try apply H.
  - rewrite Hv. apply H.
  - rewrite Hc. apply H.
  - rewrite Hh. apply H.
  - rewrite Hh, Hm. apply H.
  - rewrite Hm. apply H.
Qed.

Lemma evolves_same s s' : same_store s s' -> evolves s s'.
Proof.
  intros [= Hh Hm Hv Hc]. split; rewrite Hh.
  - intros l o Ho. exists o. split_and!; [done..|lia].
  - rewrite Hm. intros n cv l o Hn _. left. by exists cv.
Qed.

Lemma leaves_same s s' l : same_store s s' -> leaves s s' l.
Proof. intros [= Hh Hm Hv Hc] o Ho [Hr Hout]. exists o. rewrite Hh. split; [done|]. split; [done|]. by rewrite Hm. Qed.

Lemma same_preserves B y sp s' : sys_ok B y sp -> same_store (sys_store y) s' -> sys_ok B (MkSystem s' (sys_txs y)) sp.
Proof.
  intros H Hsame. eapply store_preserves; [done|eapply store_ok_same; [done|apply H]|by apply evolves_same|].
  intros l. by apply leaves_same.
Qed.

Lemma compact_preserves B y sp v :
  sys_ok B y sp -> sys_allowed y (SysCompact v) = true ->
  sys_ok B (fst (step y (SysCompact v))) (spec_step sp (snd (step y (SysCompact v)))).
Proof.
  intros H Hv%Z.leb_le. pose proof (sy_store _ _ _ H) as Hs. rewrite (so_compacted _ _ _ Hs) in Hv. cbn [sys_step fst snd].
  rewrite (so_version _ _ _ Hs). destruct (Z.leb_spec v (sp_version sp)) as [Hle|Hgt].
  - destruct (store_compact_eq services v (sys_store y)) as [cs ->]; [by eapply store_maps_ok|by rewrite (so_version _ _ _ Hs)|].
    destruct (compact_ok B (sys_store y) sp v _ cs Hs ltac:(lia) eq_refl) as (Hs' & Hev & Hl). by eapply store_preserves.
  - apply (same_preserves _ _ _ _ H). unfold store_compact. unfold mbind at 1, ST_bind at 1.
    destruct (record_if (has_snapshotter services)
      (SnapshotterCommit v (from_option con_is_primary false (consensus services))) (sys_store y)) as [c0 ->].
    unfold mbind, ST_bind, get. change (store_version (with_calls c0 (sys_store y))) with (store_version (sys_store y)).
    rewrite (so_version _ _ _ Hs). destruct (Z.ltb_spec (sp_version sp) v); [done|lia].
Qed.

Lemma rollback_preserves B y sp id term :
  0 <= B -> B + 1 < 2 ^ 64 -> sys_ok B y sp ->
  sys_ok (B + 1) (fst (step y (SysRollback id term))) (spec_step sp (snd (step y (SysRollback id term)))).
Proof.
  intros HB HB' H. pose proof (sy_store _ _ _ H) as Hs. cbn [sys_step].
  destruct (store_rollback_eq services id term (sys_store y)) as (s' & -> & [Hc Hres] & _); [by eapply store_maps_ok|].
  cbn [fst snd]. assert (store_version s' = store_version (sys_store y) /\ maps s' = maps (sys_store y) /\
    heap s' = heap (sys_store y) -> sys_ok (B + 1) (MkSystem s' (sys_txs y)) sp) as Hsame.
  { intros (? & ? & ?). eapply sys_ok_mono; [|apply same_preserves; [done|]]; [lia|].
    unfold same_store, store_core. congruence. }
  pose proof (so_version _ _ _ Hs) as Hv. pose proof (so_compacted _ _ _ Hs) as Hd.
  destruct (Z.ltb_spec (tx_version id) (store_compacted (sys_store y))),
    (Z.leb_spec (store_compacted (sys_store y)) (tx_version id)), (Z.ltb_spec (tx_version id) (store_version (sys_store y)));
    try lia; cbn [andb] in Hres; try (apply Hsame; tauto).
  destruct Hres as (Hv' & _ & _ & _ & Hm & Hh).
  destruct (rollback_store_ok B (sys_store y) sp (tx_version id) s') as (Hs' & Hev & Hl); [done|done|lia|done..|].
  by eapply store_preserves.
Qed.

(** ** Commit *)

(** The store after [next_version]. *)
Definition versioned (s : Store P) (b : bool) : Store P :=
  let s1 := s <| store_version := store_version s + 1 |> <| term_of_last_version := term_of_next_version s |> in
  if b then s1 <| last_new_map := store_version s + 1 |> else s1.

Lemma next_version_resolves s b :
  0 <= store_version s -> store_version s + 1 < 2 ^ 63 -> resolves next_version b s (versioned s b) (store_version s + 1).
Proof.
  intros Hv Hmax h. unfold next_version, next_version_unsafe, mbind, ST_bind, get. cbn.
  rewrite u64_small by u64_lia. destruct (Z.ltb_spec (2 ^ 63 - 1) (store_version s + 1)); [lia|].
  eexists. by destruct b.
Qed.

Lemma committed_heap_length gh mh changes new_maps v h : length (committed_heap gh mh changes new_maps v h) = length h.
Proof.
  unfold committed_heap, with_hooks. rewrite update_locs_length. revert h.
  induction (kept_maps changes new_maps) as [|new news IH]; intros h; [done|]. cbn. by rewrite IH, length_alter.
Qed.

(** What the changes do: nothing, or one more version with all the writes. *)
Lemma apply_cases B s sp t :
  store_ok B s sp -> tx_ok s t -> sp_version sp + 1 < 2 ^ 63 ->
  exists s1 c hooks, apply_changes (returning map_hook) (tx_changes t) next_version (created_maps t) None false s = (s1, Ret (c, hooks)) /\
    (s1 = s /\ (c = None \/ c = Some NoVersion) \/
     any_writes (tx_changes t) = true /\ c = Some (sp_version sp + 1) /\ commits_to s t (sp_version sp + 1) s1).
Proof.
  intros Hs Ht Hmax. pose proof (so_range _ _ _ Hs) as Hrange. pose proof (so_version _ _ _ Hs) as Hv.
  pose proof (tx_changes_ok B s sp t Hs Ht) as Hok.
  destruct (conflict_free s (tx_changes t) (created_maps t) None false) eqn:Hfree.
  2: { exists s, None, []. split; [by apply apply_changes_conflict|]. left. split; [done|by left]. }
  destruct (any_writes (tx_changes t)) eqn:Hany.
  2: { exists s, (Some NoVersion), []. split; [by apply apply_changes_read_only|]. left. split; [done|by right]. }
  set (b := negb (is_empty (created_maps t))).
  destruct (apply_changes_commits map_hook s (tx_changes t) (created_maps t) Hok next_version None false (versioned s b)
    (store_version s + 1)) as [hooks Happly]; [done..|apply next_version_resolves; lia| |].
  { intros [n l] [Hcr _]%(elem_of_kept_maps s t Ht). unfold get_map.
    assert (maps (versioned s b) = maps s) as -> by by destruct b. cbn [fst]. by rewrite (created_absent B s sp t Hs n l). }
  rewrite Hv in Happly. eexists _, _, _. split; [exact Happly|]. right. split_and!; [done..|]. split.
  - done.
  - apply committed_heap_length.
  - cbn. destruct b; cbn; lia.
  - by destruct b.
  - cbn. by destruct b.
  - intros l o Ho. destruct (so_objects _ _ _ Hs l o Ho) as (_ & [Hne _] & _).
    destruct (committed_heap_lookup (global_hooks (versioned s b)) (map_hooks (versioned s b)) (tx_changes t) (created_maps t)
      (sp_version sp + 1) (heap s) l o) as (o' & Ho' & Hn & Hd & Hrp & Hl & Hr); [apply Hok|by eapply tx_no_snapshot|done|done|].
    by exists o'.
Qed.

Lemma commits_to_same s t v s1 s2 : commits_to s t v s1 -> same_store s1 s2 -> commits_to s t v s2.
Proof.
  intros [? Hl Hv Hc Hm Hh] [= Eh Em Ev Ec]. split; [done|by rewrite Eh|by rewrite Ev|by rewrite Ec|by rewrite Em|by rewrite Eh].
Qed.

(** The same of the whole of [commit]. *)
Lemma commit_cases B s sp t w :
  store_ok B s sp -> tx_ok s t -> sp_version sp + 1 < 2 ^ 63 -> w = fst (commit_t (MkWorld s t)) ->
  let done := success (w_tx w) && negb (tx_commit_version (w_tx w) =? NoVersion) in
  same_store s (w_store w) /\ done = false \/
  done = true /\ tx_commit_version (w_tx w) = sp_version sp + 1 /\ commits_to s t (sp_version sp + 1) (w_store w).
Proof.
  intros Hs Ht Hmax Hw. pose proof (to_open _ _ Ht) as Hopen. pose proof (so_range _ _ _ Hs) as Hrange.
  destruct (decide (all_changes t = ∅)) as [He|He].
  { left. subst w. unfold commit_tx, tx_commit, mbind, ST_bind, get. cbn [w_tx]. rewrite Hopen.
    unfold is_empty. rewrite bool_decide_true by done. cbn. by rewrite (to_version _ _ Ht). }
  destruct (apply_cases B s sp t Hs Ht Hmax) as (s1 & c & hooks & Happly & Hcase).
  destruct (commit_tx_spec (returning map_hook) services call MovePendingTx encryptor commit_evidence_digest claims Hcall Hreplicate
    s t hooks c s1 w Hopen He Happly Hw) as (Hsame & -> & Hver).
  destruct Hcase as [[-> [->| ->]]|(_ & -> & Hct)].
  - by left.
  - left. by rewrite (Hver _ eq_refl).
  - right. rewrite (Hver _ eq_refl). split_and!; [|done|by eapply commits_to_same].
    destruct (Z.eqb_spec (sp_version sp + 1) NoVersion) as [E|]; [unfold NoVersion in E; lia|done].
Qed.

(** The transaction ends, the others stay open. *)
Lemma end_tx B y sp id s' sp' :
  sys_ok B y sp -> store_ok B s' sp' -> evolves (sys_store y) s' ->
  (forall l, (forall t n, sys_txs y !! id = Some t -> created_maps t !! n <> Some l) -> leaves (sys_store y) s' l) ->
  sys_ok B (MkSystem s' (delete id (sys_txs y))) sp'.
Proof.
  intros H Hs Hev Hl. split; cbn; [done| |].
  - intros id' t' [Hne Ht']%lookup_delete_Some. eapply tx_ok_evolves; [done| |by apply (sy_txs _ _ _ H id')].
    intros n l Hn. apply Hl. intros t n' Ht Hn'. by destruct Hne; apply (sy_owner _ _ _ H id id' t t' n' n l).
  - intros id1 id2 t1 t2 n1 n2 l [_ H1]%lookup_delete_Some [_ H2]%lookup_delete_Some.
    by apply (sy_owner _ _ _ H id1 id2 t1 t2 n1 n2 l).
Qed.

Lemma commit_preserves B y sp id :
  sys_ok B y sp -> sys_allowed y (SysCommit id) = true ->
  sys_ok B (fst (step y (SysCommit id))) (spec_step sp (snd (step y (SysCommit id)))).
Proof.
  intros H Hmax%Z.ltb_lt. pose proof (sy_store _ _ _ H) as Hs. rewrite (so_version _ _ _ Hs) in Hmax. cbn [sys_step].
  destruct (sys_txs y !! id) as [t|] eqn:Et; [|done]. pose proof (sy_txs _ _ _ H id t Et) as Ht. cbn [fst snd].
  set (w := fst (commit_t (MkWorld (sys_store y) t))).
  destruct (commit_cases B (sys_store y) sp t w Hs Ht Hmax eq_refl) as
    [[Hsame ->]|(-> & -> & Hct)]; (eapply end_tx; [done|..]).
  - by eapply store_ok_same.
  - by apply evolves_same.
  - intros l _. by apply leaves_same.
  - apply (commit_store_ok B (sys_store y) sp t Hs Ht); [lia|done].
  - by apply (commit_evolves B (sys_store y) sp t Hs Ht _ (sp_version sp + 1)).
  - intros l Hl. apply (commit_leaves B (sys_store y) sp t Hs Ht _ (sp_version sp + 1)); [done|].
    intros n. by apply Hl.
Qed.

Lemma step_preserves B y sp op :
  0 <= B -> B + 1 < 2 ^ 64 -> sys_ok B y sp -> sys_allowed y op = true ->
  sys_ok (B + 1) (fst (step y op)) (spec_step sp (snd (step y op))).
Proof.
  intros HB HB' H Hop. destruct op as [id|id name op|id|id term|v].
  - eapply sys_ok_mono; [|by apply begin_preserves]. lia.
  - cbn. destruct (sys_txs y !! id) as [t|] eqn:Et; (eapply sys_ok_mono; [|done || by eapply use_preserves]); lia.
  - eapply sys_ok_mono; [|by apply commit_preserves]. lia.
  - by apply rollback_preserves.
  - eapply sys_ok_mono; [|by apply compact_preserves]. lia.
Qed.

Lemma run_preserves ops B y sp :
  0 <= B -> B + Z.of_nat (length ops) < 2 ^ 64 -> sys_ok B y sp -> all_ok y ops = true ->
  sys_ok (B + Z.of_nat (length ops)) (fst (run y ops)) (foldl spec_step sp (snd (run y ops))).
Proof.
  revert B y sp. induction ops as [|op ops IH]; intros B y sp HB HB' H Hall.
  - cbn. by rewrite Z.add_0_r.
  - cbn [sys_all_allowed] in Hall. apply andb_prop in Hall as [Hop Hall]. cbn [length] in *. cbn [sys_run].
    pose proof (step_preserves B y sp op HB ltac:(lia) H Hop) as H1. destruct (step y op) as [y1 e]. cbn [fst snd] in *.
    specialize (IH (B + 1) y1 (spec_step sp e) ltac:(lia) ltac:(lia) H1 Hall). destruct (run y1 ops) as [y2 es].
    cbn [fst snd foldl] in *. by replace (B + Z.of_nat (S (length ops))) with (B + 1 + Z.of_nat (length ops)) by lia.
Qed.

(** ** What a transaction reads *)

Lemma read_handle s t name k w1 l cs :
  get_handle_by_name name (MkWorld s t) = (w1, Ret tt) -> all_changes (w_tx w1) !! name = Some (l, cs) ->
  cs_writes cs = ∅ -> snd (with_handle name (handle_get k) (MkWorld s t)) = Ret (live (cs_state cs) k).
Proof.
  intros Hg Hc Hw. unfold with_handle, mbind, ST_bind, get. rewrite Hg, Hc. unfold handle_get. rewrite read_key_eq, Hw, lookup_empty.
  cbn. rewrite view_lookup, Hw. unfold overwrite. by rewrite lookup_empty.
Qed.

(** The first read of a transaction is what the specification has at the version that it reads at. *)
Lemma read_spec B s sp t name k :
  store_ok B s sp -> all_changes t = ∅ -> created_maps t = ∅ ->
  let id := from_option (fun id => id) (current_txid s) (read_txid t) in
  sp_compacted sp <= tx_version id ->
  snd (with_handle name (handle_get k) (MkWorld s t)) = Ret (sp_contents sp (tx_version id) name k).
Proof.
  intros Hs Ha Hc id Hid. pose proof (store_maps_ok _ _ _ Hs) as Hok. pose proof (so_range _ _ _ Hs).
  destruct (get_handle_eq s t name) as (t1 & id' & Hr & -> & Hg); [done|by rewrite Ha, lookup_empty|by rewrite Hc, lookup_empty| | |].
  - rewrite (so_version _ _ _ Hs). lia.
  - intros id1 Hid1. unfold id in Hid. rewrite Hid1 in Hid. cbn in Hid. lia.
  - fold id in Hg. destruct (get_map s (tx_version id) name) as [l|] eqn:Eg.
    + destruct Hg as (o & Ho & Hg). unfold get_map in Eg. destruct (maps s !! name) as [[cv l']|] eqn:Em; [|done].
      destruct (so_maps _ _ _ Hs name cv l' Em) as (o' & Ho' & Hname & Hm).
      assert (l' = l) as -> by (destruct (_ || _); congruence). rewrite Ho in Ho'. injection Ho' as <-.
      destruct (holds_contents _ _ (map_holds _ _ _ _ Hm) (tx_version id) Hid) as (c & Hf & Hk).
      destruct (holds_head _ _ (map_holds _ _ _ _ Hm)) as (c0 & rest & E0 & _).
      unfold create_change_set in Hg. rewrite Hf in Hg. rewrite E0 in Hg. cbn [head] in Hg.
      erewrite read_handle; [|exact Hg|cbn; apply lookup_insert_eq|done]. cbn. f_equal. apply Hk.
    + erewrite read_handle; [|exact Hg|cbn; apply lookup_insert_eq|done]. cbn. f_equal. unfold live. rewrite lookup_empty.
      unfold get_map in Eg. destruct (maps s !! name) as [[cv l]|] eqn:Em; [|symmetry; by apply (so_absent _ _ _ Hs)].
      destruct (so_maps _ _ _ Hs name cv l Em) as (o & _ & _ & Hm). symmetry. apply (map_before _ _ _ _ Hm).
      destruct (Z.leb_spec cv (tx_version id)); [done|lia].
Qed.
End refinement.

(** C30: The store is a history of the contents of all maps.  Transactions open maps, read, write, commit, and the store is
    rolled back and compacted, in any order and with any number of transactions open.  Each commit takes
    effect at once, at the next version, with all writes of the transaction in all its maps, or has no effect;
    a rollback to [v] makes the store what it was at [v], including which maps exist; compaction changes nothing that can be
    read.  Whatever transaction starts then reads, in every map, what the history has at the current version; a transaction
    that reads at an earlier version, not compacted, reads what the history has there.  Nothing stays locked.
    The hooks of maps are assumed to return, and consensus and the pending transactions not to change maps or versions. *)
Theorem store_refines_history {P : Type} {SO : StateOrder} (map_hook : Name -> Z -> Write -> option Hook)
    (services : @Services P) (call : P -> ST (Store P) PendingTxInfo) (MovePendingTx : PendingTxInfo -> P)
    (encryptor : option Encryptor) (commit_evidence_digest : TxID -> outcome bytes) (claims : option bytes)
    (rt : ReplicateType) (tables : gset Name) (ops : list SysOp) :
  (forall p, respects same_store (call p)) ->
  (forall c batch view, consensus services = Some c -> respects same_store (con_replicate c batch view)) ->
  Z.of_nat (length ops) < 2 ^ 64 ->
  let start := MkSystem (new_store rt tables) ∅ in
  sys_all_allowed (returning map_hook) services call MovePendingTx encryptor commit_evidence_digest claims start ops = true ->
  let '(y, events) := sys_run (returning map_hook) services call MovePendingTx encryptor commit_evidence_digest claims start ops in
  let s := sys_store y in
  let sp := foldl spec_step initial_spec events in
  store_version s = sp_version sp /\ store_compacted s = sp_compacted sp /\
  (forall l o, heap s !! l = Some o -> mo_locked o = false) /\
  (forall name k, snd (with_handle name (handle_get k) (MkWorld s create_tx)) = Ret (sp_contents sp (sp_version sp) name k)) /\
  (forall id name k, sp_compacted sp <= tx_version id ->
     snd (with_handle name (handle_get k) (MkWorld s (create_tx <| read_txid := Some id |>))) =
     Ret (sp_contents sp (tx_version id) name k)).
Proof.
  intros Hcall Hrep Hlen start Hall.
  pose proof (run_preserves map_hook services call MovePendingTx encryptor commit_evidence_digest claims Hcall Hrep ops 0 start
    initial_spec ltac:(lia) ltac:(lia) (initial_sys_ok rt tables) Hall) as H.
  destruct (sys_run _ _ _ _ _ _ _ start ops) as [y events]. cbn [fst snd] in H. pose proof (sy_store _ _ _ H) as Hs.
  pose proof (so_range _ _ _ Hs). split_and!.
  - apply Hs.
  - apply Hs.
  - intros l o Ho. apply (so_objects _ _ _ Hs l o Ho).
  - intros name k. rewrite <- (so_version _ _ _ Hs). apply (read_spec _ _ _ create_tx name k Hs); [done..|].
    cbn. rewrite (so_version _ _ _ Hs). lia.
  - intros id name k Hid. exact (read_spec _ _ _ (create_tx <| read_txid := Some id |>) name k Hs eq_refl eq_refl Hid).
Qed.

(** A node whose consensus accepts every batch. *)
Definition witness_services : @Services PendingTxInfo :=
  MkServices (Some (MkConsensus true false false (fun _ _ => mret true))) true false true (fun _ => false).

Definition witness_map : Name := name_of "public:a".

(** Transactions 1 and 2 both create the map, and 2 loses; 3 writes to it; the store is rolled back to before 3,
    and 4, which has read what 3 wrote, loses; 5 writes again, and the store is compacted. *)
Definition witness_run : list SysOp :=
  [ SysBegin 1; SysBegin 2; SysUse 1 witness_map (HPut [1] [10]); SysUse 2 witness_map (HPut [1] [20]);
    SysCommit 1; SysCommit 2; SysBegin 3; SysUse 3 witness_map (HPut [1] [30]); SysCommit 3;
    SysBegin 4; SysUse 4 witness_map (HGet [1]); SysRollback (MkTxID 0 1) 2; SysUse 4 witness_map (HPut [1] [40]);
    SysCommit 4; SysBegin 5; SysUse 5 witness_map (HPut [2] [50]); SysCommit 5; SysCompact 1 ].

Definition event_version (e : Event) : Z * Z :=
  match e with Committed v _ => (1, v) | RolledBack v => (2, v) | Compacted v => (3, v) | Nothing => (0, 0) end.

Definition witness_result : System PendingTxInfo * list Event :=
  sys_run (returning (fun _ _ _ => None)) witness_services mret id None (fun _ => Ret []) None (MkSystem (new_store ALL ∅) ∅) witness_run.

Lemma store_refines_history_witness :
  let '(y, events) := witness_result in
  let sp := foldl spec_step initial_spec events in
  filter (fun e => fst e <> 0) (event_version <$> events) = [(1, 1); (1, 2); (2, 1); (1, 2); (3, 1)] /\
  snd (with_handle witness_map (handle_get [1]) (MkWorld (sys_store y) create_tx)) =
    Ret (sp_contents sp (sp_version sp) witness_map [1]) /\
  sp_contents sp (sp_version sp) witness_map [1] = Some [10].
Proof.
  assert (filter (fun e => fst e <> 0) (event_version <$> snd witness_result) = [(1, 1); (1, 2); (2, 1); (1, 2); (3, 1)] /\
    let sp := foldl spec_step initial_spec (snd witness_result) in
    sp_contents sp (sp_version sp) witness_map [1] = Some [10]) as [H1 H2] by (split; vm_compute; reflexivity).
  pose proof (store_refines_history (fun _ _ _ => None) witness_services mret id None (fun _ => Ret []) None ALL ∅ witness_run) as H.
  cbv zeta in H. fold witness_result in H. specialize (H (fun p => respects_ret _ _)).
  assert (forall c batch view, consensus witness_services = Some c -> respects same_store (con_replicate c batch view)) as Hrep.
  { intros c batch view [= <-]. apply respects_ret. apply _. }
  specialize (H Hrep ltac:(vm_compute; reflexivity) ltac:(vm_compute; reflexivity)).
  destruct witness_result as [y events]. cbn [snd] in H1, H2. destruct H as (_ & _ & _ & Hread & _).
  split; [exact H1|]. split; [apply Hread|exact H2].
Defined.
