(* ===== verification/KvStoreSnapshot.v ===== *)
(** Snapshots of the store: src/kv/snapshot.h, [snapshot], [serialise_snapshot] and
    [deserialise_snapshot] of src/kv/store.h, and the snapshots of maps in src/kv/untyped_map.h.

    How the state of a map becomes bytes is the concern of [StateCodec]: src/ds/champ_map.h and
    src/ds/map_serializers.h, which have files of their own. *)

From S2P Require Import Prelude Serialized RaftTypes KvMap KvHandle KvSerialise KvStore KvTx.

(** [StateSnapshot::serialize] into a buffer of [get_serialized_size] bytes, and [map::deserialize_map]. *)
Class StateCodec := {
  state_serialize : KvState -> outcome bytes;
  state_deserialize : bytes -> outcome KvState
}.

(** [untyped::Map::Snapshot]. *)
Record MapSnapshot := MkMapSnapshot {
  ms_name : Name;
  ms_domain : SecurityDomain;
  ms_version : Z;
  ms_state : KvState
}.

Record StoreSnapshot := MkStoreSnapshot {
  ss_version : Z;
  ss_maps : list MapSnapshot;
  ss_hash_at_snapshot : option bytes;
  ss_view_history : option (list Z)
}.

Section snapshot.
Context {P : Type} {SC : StateCodec}.
Context (call_map_hook : Name -> Z -> Write -> outcome (option Hook)) (services : @Services P) (encryptor : option Encryptor).
(** [get_raw_leaf] and [init_from_snapshot] of the history, [get_view_history] of the consensus *)
Context (get_raw_leaf : Z -> bytes) (init_from_snapshot : bytes -> bool) (get_view_history : Z -> list Z).
Local Abbreviation M := (ST (Store P)).

Fixpoint snapshot_maps (v : Z) (locs : list Loc) : M (list MapSnapshot) :=
  match locs with
  | [] => mret []
  | l :: locs =>
      o ← map_at l;
      match snapshot (mo_map o) v with
      | None => throw UndefinedBehaviour
      | Some (version, st) =>
          rest ← snapshot_maps v locs;
          mret (MkMapSnapshot (mo_name o) (mo_domain o) version st :: rest)
      end
  end.

Definition store_snapshot (v : Z) : M StoreSnapshot :=
  s ← get;
  if v <? store_compacted s then throw (LogicError "Cannot snapshot at version earlier than last compacted version")
  else if store_version s <? v then throw (LogicError "Cannot snapshot at version later than current version")
  else
    foreach (map_locs s) lock_map;;
    snapshots ← snapshot_maps v (map_locs s);
    foreach (map_locs s) unlock_map;;
    mret (MkStoreSnapshot v snapshots
      (if has_history services then Some (get_raw_leaf v) else None)
      (match consensus services with Some _ => Some (get_view_history v) | None => None end)).

(** ** To bytes *)

Definition serialise_map_snapshot (m : MapSnapshot) : ST Serialiser unit :=
  start_map encryptor (ms_name m) (ms_domain m);;
  serialise_internal (append_u64 (ms_version m));;
  match state_serialize (ms_state m) with
  | Ret ret => serialise_internal (append_vector ret)
  | Throw e => throw e
  end.

Definition serialise_snapshot (snapshot : StoreSnapshot) : outcome bytes :=
  let s := new_serialiser (MkTxID 0 (ss_version snapshot)) SnapshotEntry 0 [] [] true in
  let in_domain domain := filter (fun m => ms_domain m = domain) (ss_maps snapshot) in
  match
    ((match ss_hash_at_snapshot snapshot with Some h => serialise_internal (append_vector h) | None => skip end);;
     (match ss_view_history snapshot with Some vs => serialise_internal (append_versions vs) | None => skip end);;
     foreach (in_domain PUBLIC) serialise_map_snapshot;;
     foreach (in_domain PRIVATE) serialise_map_snapshot) s
  with
  | (s, Ret _) => get_raw_data encryptor s
  | (_, Throw e) => Throw e
  end.

(** ** From bytes *)

(** The loop over the maps; nothing when a map appears twice. *)
Fixpoint snapshot_loop (fuel : nat) (d : Deserialiser) (changes : gmap Name MapChanges) (new_maps : gmap Name Loc) :
    M (option (gmap Name MapChanges * gmap Name Loc * Deserialiser)) :=
  match fuel with
  | O => throw OutOfFuel
  | S fuel =>
      '(r, d) ← run_de next_map d;
      match r with
      | None => mret (Some (changes, new_maps, d))
      | Some map_name =>
          s ← get;
          '(map, new_maps) ←
            match maps s !! map_name with
            | Some (_, map) => mret (map, new_maps)
            | None => map ← make_map map_name; mret (map, <[map_name := map]> new_maps)
            end;
          match changes !! map_name with
          | Some _ => mret None
          | None =>
              '(v, d) ← run_de (read_current (read_entry 8)) d;
              '(map_snapshot, d) ← run_de (read_current read_prefixed) d;
              match state_deserialize map_snapshot with
              | Throw e => throw e
              | Ret st => snapshot_loop fuel d (<[map_name := (map, SnapshotChanges st v)]> changes) new_maps
              end
          end
      end
  end.

(** Whether the result is [PASS], with the hooks and the view history. *)
Definition deserialise_snapshot (is_historical : bool) (data : bytes) (view_history public_only : bool) :
    M (bool * list Hook * option (list Z)) :=
  let failed hooks := mret (false, hooks, None) in
  '(v, d) ← run_de (init encryptor (if public_only then Some PUBLIC else None) is_historical data) (new_deserialiser 0);
  match v with
  | None => failed []
  | Some v =>
      s ← get;
      foreach (map_locs s) lock_map;;
      '(hash_at_snapshot, d) ← (if has_history services then run_de (read_current read_prefixed) d else mret ([], d));
      '(view_history_, d) ← (if view_history then run_de (read_current read_versions) d else mret ([], d));
      found ← snapshot_loop (S (length (rr_mem (public_reader d)) + length (rr_mem (private_reader d)))) d ∅ ∅;
      match found with
      | None => failed []
      | Some (changes, new_maps, d) =>
          foreach (map_locs s) unlock_map;;
          if negb (at_end d) then failed []
          else
            '(r, hooks) ← apply_changes call_map_hook changes (fun _ => mret (NoVersion, NoVersion)) new_maps None false;
            match r with
            | None => failed hooks
            | Some _ =>
                store_version <~ v;;
                last_replicated <~ v;;
                if has_history services then
                  record_call (HistoryInitFromSnapshot hash_at_snapshot);;
                  if init_from_snapshot hash_at_snapshot
                  then mret (true, hooks, if view_history then Some view_history_ else None)
                  else failed hooks
                else mret (true, hooks, if view_history then Some view_history_ else None)
            end
      end
  end.
End snapshot.
