(* ===== verification/KvSerialiseProps.v ===== *)
(** Reading an entry undoes writing it. *)

From S2P Require Import Prelude Serialized RaftTypes KvMap KvRoll KvHandle KvHandleProps KvSerialise.

(** ** The raw reader *)

(** A reader that has read [pre], and has [rest] to read, in a buffer that goes on with [tail]. *)
Definition rd (pre rest tail : bytes) : RawReader :=
  MkRawReader (pre ++ rest ++ tail) (Z.of_nat (length pre + length rest)) (Z.of_nat (length pre)).

(** [m] takes the bytes [bs], and returns [a]. *)
Definition reads {A} (m : ST RawReader A) (bs : bytes) (a : A) : Prop :=
  forall pre rest tail, Z.of_nat (length pre + length (bs ++ rest)) < 2 ^ 63 ->
    m (rd pre (bs ++ rest) tail) = (rd (pre ++ bs) rest tail, Ret a).

Lemma reads_pure {A} (a : A) : reads (mret a) [] a.
Proof. intros pre rest tail _. by rewrite app_nil_r. Qed.

Lemma reads_seq {A B} (m : ST RawReader A) (k : A -> ST RawReader B) b1 b2 a b :
  reads m b1 a -> reads (k a) b2 b -> reads (m ≫= k) (b1 ++ b2) b.
Proof.
  intros H1 H2 pre rest tail Hlen. rewrite <- app_assoc in *. unfold mbind, ST_bind. rewrite H1 by done.
  rewrite H2; [by rewrite <- app_assoc|]. rewrite !length_app in *. lia.
Qed.

Lemma reads_fmap {A B} (m : ST RawReader A) (f : A -> B) bs a :
  reads m bs a -> reads (x ← m; mret (f x)) bs (f a).
Proof. intros H. rewrite <- (app_nil_r bs). eapply reads_seq; [done|]. apply reads_pure. Qed.

Lemma copy_bytes_reads bs : reads (copy_bytes (Z.of_nat (length bs))) bs bs.
Proof.
  intros pre rest tail Hlen. unfold copy_bytes, mbind, ST_bind, get, rd. cbn. rewrite !length_app in *.
  match goal with |- context [?a <? ?b] => destruct (Z.ltb_spec a b) end; [lia|].
  unfold assign, modify, mret, ST_ret. cbn. rewrite u64_small by u64_lia.
  rewrite !Nat2Z.id, drop_app_length, <- app_assoc, take_app_length.
  unfold set. cbn. by rewrite <- app_assoc, <- Nat2Z.inj_add, Nat.add_assoc.
Qed.

Lemma read_entry_reads n v : 0 <= v < 256 ^ Z.of_nat n -> reads (read_entry n) (le_encode n v) v.
Proof.
  intros Hv pre rest tail Hlen. pose proof (le_encode_length n v) as Hn. unfold read_entry. unfold mbind at 1, ST_bind at 1, get.
  rewrite !length_app in Hlen. cbn [rr_size rr_offset rd]. rewrite u64_small by (rewrite length_app; u64_lia).
  match goal with |- context [?a <? ?b] => destruct (Z.ltb_spec a b) as [Hlt|Hlt] end; [rewrite length_app in Hlt; lia|].
  unfold mbind, ST_bind. rewrite <- Hn at 1. rewrite copy_bytes_reads by (rewrite length_app; lia).
  by rewrite le_decode_encode.
Qed.

Lemma read_u64_reads v : 0 <= v < 2 ^ 64 -> reads (read_entry 8) (append_u64 v) v.
Proof. intros Hv. by apply read_entry_reads. Qed.

Lemma read_prefixed_reads bs : reads read_prefixed (append_vector bs) bs.
Proof.
  intros pre rest tail Hlen. unfold read_prefixed. unfold mbind at 1, ST_bind at 1, get.
  assert (Z.of_nat (length (append_u64 (Z.of_nat (length bs)))) = 8) as H8 by (unfold append_u64; by rewrite le_encode_length).
  unfold append_vector in *. rewrite <- app_assoc in *. rewrite !length_app in Hlen.
  cbn [rr_size rr_offset rd]. rewrite u64_small by (rewrite !length_app; u64_lia).
  unfold mbind, ST_bind. rewrite read_u64_reads; [|lia|rewrite !length_app; lia].
  match goal with |- context [?a <? ?b] => destruct (Z.ltb_spec a b) as [Hlt|Hlt] end; [rewrite !length_app in Hlt; lia|].
  rewrite copy_bytes_reads; [by rewrite <- app_assoc|]. rewrite !length_app. lia.
Qed.

Lemma read_entry_type_reads t : reads read_entry_type (append_entry_type t) t.
Proof.
  unfold read_entry_type, append_entry_type. rewrite <- (app_nil_r (le_encode 1 (EntryType_value t))).
  eapply reads_seq; [apply read_entry_reads; by destruct t|]. destruct t; apply reads_pure.
Qed.

Lemma is_eos_rd pre rest tail : is_eos (rd pre rest tail) = bool_decide (rest = []).
Proof.
  unfold is_eos, rd. destruct rest as [|b rest]; cbn.
  - apply Z.leb_le. lia.
  - apply Z.leb_gt. lia.
Qed.

(** ** The current reader *)

Definition cur (d : Deserialiser) : RawReader := if in_private d then private_reader d else public_reader d.

Definition set_cur (r : RawReader) (d : Deserialiser) : Deserialiser :=
  if in_private d then d <| private_reader := r |> else d <| public_reader := r |>.

Lemma cur_set_cur r d : cur (set_cur r d) = r.
Proof. unfold cur, set_cur. by destruct d as [? ? []]. Qed.

Lemma set_cur_twice r r' d : set_cur r (set_cur r' d) = set_cur r d.
Proof. unfold set_cur. by destruct d as [? ? []]. Qed.

Definition dreads {A} (m : ST Deserialiser A) (bs : bytes) (a : A) : Prop :=
  forall d pre rest tail, Z.of_nat (length pre + length (bs ++ rest)) < 2 ^ 63 -> cur d = rd pre (bs ++ rest) tail ->
    m d = (set_cur (rd (pre ++ bs) rest tail) d, Ret a).

Lemma set_cur_same d : set_cur (cur d) d = d.
Proof. unfold cur, set_cur. by destruct d as [? ? []]. Qed.

Lemma dreads_ret {A} (a : A) : dreads (mret a) [] a.
Proof. intros d pre rest tail _ E. cbn in E. rewrite app_nil_r, <- E, set_cur_same. done. Qed.

Lemma dreads_bind {A B} (m : ST Deserialiser A) (k : A -> ST Deserialiser B) b1 b2 a b :
  dreads m b1 a -> dreads (k a) b2 b -> dreads (m ≫= k) (b1 ++ b2) b.
Proof.
  intros H1 H2 d pre rest tail Hlen E. rewrite <- app_assoc in *. unfold mbind, ST_bind. rewrite (H1 d pre (b2 ++ rest) tail) by done.
  rewrite (H2 _ (pre ++ b1) rest tail); [by rewrite set_cur_twice, <- app_assoc| |by apply cur_set_cur].
  rewrite !length_app in *. lia.
Qed.

Lemma read_current_dreads {A} (m : ST RawReader A) bs a : reads m bs a -> dreads (read_current m) bs a.
Proof.
  intros H d pre rest tail Hlen E. unfold read_current, mbind, ST_bind, get, cur, set_cur in *.
  destruct (in_private d); unfold zoom; rewrite E, H by done; done.
Qed.

Lemma read_many_dreads {A} (m : ST RawReader A) (enc : A -> bytes) (xs : list A) fuel :
  (forall x, reads m (enc x) x) -> (length xs <= fuel)%nat ->
  dreads (read_many fuel (Z.of_nat (length xs)) m) (concat (enc <$> xs)) xs.
Proof.
  intros Hm. revert fuel. induction xs as [|x xs IH]; intros fuel Hf.
  - cbn. destruct fuel; apply dreads_ret.
  - cbn in Hf. destruct fuel as [|fuel]; [lia|]. cbn [read_many length].
    destruct (Z.leb_spec (Z.of_nat (S (length xs))) 0); [lia|].
    replace (Z.of_nat (S (length xs)) - 1) with (Z.of_nat (length xs)) by lia.
    cbn [fmap list_fmap concat]. eapply dreads_bind; [by apply read_current_dreads|].
    rewrite <- (app_nil_r (concat _)). eapply dreads_bind; [apply IH; lia|]. apply dreads_ret.
Qed.

(** ** Change sets *)

Lemma foldl_insert_out {A B} (f : A -> Key) (g : A -> B) (xs : list A) (m : gmap Key B) k :
  k ∉ f <$> xs -> foldl (fun m x => <[f x := g x]> m) m xs !! k = m !! k.
Proof.
  revert m. induction xs as [|x xs IH]; intros m Hk; [done|]. cbn in Hk. apply not_elem_of_cons in Hk as [Hne Hk].
  cbn. rewrite IH by done. by apply lookup_insert_ne.
Qed.

Lemma foldl_insert_in {A B} (f : A -> Key) (g : A -> B) (xs : list A) (m : gmap Key B) x :
  NoDup (f <$> xs) -> x ∈ xs -> foldl (fun m x => <[f x := g x]> m) m xs !! f x = Some (g x).
Proof.
  revert m. induction xs as [|y xs IH]; intros m Hnd Hx; [by apply elem_of_nil in Hx|].
  cbn in Hnd. apply NoDup_cons in Hnd as [Hy Hnd]. apply elem_of_cons in Hx as [->|Hx]; [|by apply IH].
  cbn. rewrite foldl_insert_out by done. apply lookup_insert_eq.
Qed.

Lemma elem_of_puts_of (w : list (Key * option Value)) k v : (k, v) ∈ puts_of w <-> (k, Some v) ∈ w.
Proof.
  unfold puts_of. rewrite list_elem_of_omap. split.
  - intros ([k' [v'|]] & Hin & E); [|done]. by injection E as -> ->.
  - intros Hin. by exists (k, Some v).
Qed.

Lemma elem_of_removals (w : list (Key * option Value)) k : k ∈ removals w <-> (k, None) ∈ w.
Proof.
  unfold removals. rewrite list_elem_of_omap. split.
  - intros ([k' [v'|]] & Hin & E); [done|]. by injection E as ->.
  - intros Hin. by exists (k, None).
Qed.

Lemma puts_sublist (w : list (Key * option Value)) : (puts_of w).*1 `sublist_of` w.*1.
Proof. induction w as [|[k [v|]] w IH]; cbn; [done|by apply sublist_skip|by apply sublist_cons]. Qed.

Lemma removals_sublist (w : list (Key * option Value)) : removals w `sublist_of` w.*1.
Proof. induction w as [|[k [v|]] w IH]; cbn; [done|by apply sublist_cons|by apply sublist_skip]. Qed.

(** The two loops of [deserialise_internal] rebuild the write set. *)
Lemma rebuild_writes (w : Write) :
  foldl (fun m k => <[k := None]> m)
    (foldl (fun m w => <[fst w := Some (snd w)]> m) (∅ : Write) (puts_of (ordered w))) (removals (ordered w)) = w.
Proof.
  assert (NoDup (ordered w).*1) as Hnd by (unfold ordered; rewrite merge_sort_Permutation; apply NoDup_fst_map_to_list).
  assert (forall k x, (k, x) ∈ ordered w <-> w !! k = Some x) as Hin.
  { intros k x. rewrite ordered_perm. apply elem_of_map_to_list. }
  assert (NoDup (puts_of (ordered w)).*1) as Hp by (eapply sublist_NoDup; [exact Hnd|apply puts_sublist]).
  assert (NoDup ((fun k => k) <$> removals (ordered w))) as Hr.
  { rewrite list_fmap_id. eapply sublist_NoDup; [exact Hnd|apply removals_sublist]. }
  apply map_eq. intros k. destruct (w !! k) as [[v|]|] eqn:E.
  - rewrite (foldl_insert_out (fun k => k) (fun _ => None)).
    + apply (foldl_insert_in fst (fun w => Some (snd w)) _ ∅ (k, v)); [done|]. by apply elem_of_puts_of, Hin.
    + rewrite list_fmap_id. intros Hk%elem_of_removals%Hin. congruence.
  - apply (foldl_insert_in (fun k => k) (fun _ => None) _ _ k); [done|]. by apply elem_of_removals, Hin.
  - rewrite (foldl_insert_out (fun k => k) (fun _ => None)).
    + rewrite (foldl_insert_out fst (fun w => Some (snd w))); [apply lookup_empty|].
      intros ([k' v] & -> & Hk%elem_of_puts_of%Hin)%list_elem_of_fmap. cbn in E. congruence.
    + rewrite list_fmap_id. intros Hk%elem_of_removals%Hin. congruence.
Qed.

Definition put_bytes (w : Key * Value) : bytes := append_vector (fst w) ++ append_vector (snd w).

(** What [serialise_changes] writes after the name. *)
Definition writes_bytes (w : Write) : bytes :=
  append_u64 NoVersion ++ append_u64 0 ++
  append_u64 (Z.of_nat (length (puts_of (ordered w)))) ++ concat (put_bytes <$> puts_of (ordered w)) ++
  append_u64 (Z.of_nat (length (removals (ordered w)))) ++ concat (append_vector <$> removals (ordered w)).

Lemma append_u64_length v : length (append_u64 v) = 8%nat.
Proof. apply le_encode_length. Qed.

Lemma concat_length_ge {A} (f : A -> bytes) (xs : list A) :
  (forall x, 1 <= length (f x))%nat -> (length xs <= length (concat (f <$> xs)))%nat.
Proof. intros Hf. induction xs as [|x xs IH]; cbn; [lia|]. rewrite length_app. specialize (Hf x). lia. Qed.

Lemma append_vector_length b : (8 <= length (append_vector b))%nat.
Proof. unfold append_vector. rewrite length_app, append_u64_length. lia. Qed.

Lemma append_vector_length_1 b : (1 <= length (append_vector b))%nat.
Proof. pose proof (append_vector_length b). lia. Qed.

Lemma put_bytes_length w : (1 <= length (put_bytes w))%nat.
Proof. unfold put_bytes. rewrite length_app. pose proof (append_vector_length (fst w)). lia. Qed.

Lemma read_put_reads (w : Key * Value) : reads (k ← read_prefixed; v ← read_prefixed; mret (k, v)) (put_bytes w) w.
Proof.
  destruct w as [k v]. eapply reads_seq; [apply read_prefixed_reads|]. apply (reads_fmap _ (fun v => (k, v))), read_prefixed_reads.
Qed.

Lemma deserialise_changes_dreads cs w :
  cs_writes cs = ∅ -> cs_reads cs = ∅ ->
  dreads (deserialise_changes (Some cs)) (writes_bytes w) (cs <| cs_writes := w |>).
Proof.
  intros Hw Hr d pre rest tail Hlen E. unfold deserialise_changes. unfold mbind at 1, ST_bind at 1, get.
  set (np := length (puts_of (ordered w))). set (nr := length (removals (ordered w))).
  assert ((np <= remaining_fuel d)%nat /\ (nr <= remaining_fuel d)%nat /\ Z.of_nat np < 2 ^ 63 /\ Z.of_nat nr < 2 ^ 63) as (Hnp & Hnr & Hnp' & Hnr').
  { unfold remaining_fuel. fold (cur d). rewrite E. cbn [rr_mem rd]. unfold writes_bytes in *. rewrite !length_app in *.
    pose proof (concat_length_ge put_bytes (puts_of (ordered w)) put_bytes_length).
    pose proof (concat_length_ge append_vector (removals (ordered w)) append_vector_length_1).
    unfold np, nr. split_and!; lia. }
  generalize dependent (remaining_fuel d). intros fuel Hnp Hnr. revert d pre rest tail Hlen E.
  change (dreads (rv ← read_current (read_entry 8);
      let cs := if rv =? NoVersion then cs else cs <| cs_read_version := rv |> in
      ctr ← read_current (read_entry 8);
      reads ← read_many fuel ctr (k ← read_prefixed; v ← read_entry 8; mret (k, v));
      let cs := cs <| cs_reads := foldl (fun m r => <[fst r := (i64 (snd r), NoVersion)]> m) (cs_reads cs) reads |> in
      ctr ← read_current (read_entry 8);
      writes ← read_many fuel ctr (k ← read_prefixed; v ← read_prefixed; mret (k, v));
      let cs := cs <| cs_writes := foldl (fun m w => <[fst w := Some (snd w)]> m) (cs_writes cs) writes |> in
      ctr ← read_current (read_entry 8);
      removes ← read_many fuel ctr read_prefixed;
      mret (cs <| cs_writes := foldl (fun m k => <[k := None]> m) (cs_writes cs) removes |>))
    (writes_bytes w) (cs <| cs_writes := w |>)).
  unfold writes_bytes. eapply dreads_bind; [by apply read_current_dreads, read_u64_reads|]. cbn [NoVersion Z.eqb].
  eapply dreads_bind; [by apply read_current_dreads, read_u64_reads|].
  rewrite <- (app_nil_l (append_u64 (Z.of_nat (length (puts_of _))) ++ _)).
  eapply dreads_bind; [instantiate (1 := []); destruct fuel; apply dreads_ret|].
  eapply dreads_bind; [apply read_current_dreads, read_u64_reads; lia|].
  eapply dreads_bind; [by apply (read_many_dreads _ put_bytes); [apply read_put_reads|]|].
  eapply dreads_bind; [apply read_current_dreads, read_u64_reads; lia|].
  rewrite <- (app_nil_r (concat (append_vector <$> _))).
  eapply dreads_bind; [by apply (read_many_dreads _ append_vector); [apply read_prefixed_reads|]|].
  cbn. rewrite Hw. rewrite rebuild_writes. rewrite Hr. destruct cs. cbn in *. subst. apply dreads_ret.
Qed.

(** ** The serialiser *)

(** [s] after [b] has been written to the domain [dom]. *)
Definition emit (dom : SecurityDomain) (b : bytes) (s : Serialiser) : Serialiser :=
  match dom with
  | PUBLIC => s <| current_domain := PUBLIC |> <| public_writer := public_writer s ++ b |>
  | PRIVATE => s <| current_domain := PRIVATE |> <| private_writer := private_writer s ++ b |>
  end.

Lemma emit_emit dom b1 b2 s : emit dom b2 (emit dom b1 s) = emit dom (b1 ++ b2) s.
Proof. destruct dom, s; cbn; unfold set; cbn; by rewrite app_assoc. Qed.

Lemma emit_domain dom b s : current_domain (emit dom b s) = dom.
Proof. by destruct dom. Qed.

Definition emits (m : ST Serialiser unit) (b : bytes) : Prop :=
  forall s, m s = (emit (current_domain s) b s, Ret tt).

Lemma emits_internal b : emits (serialise_internal b) b.
Proof. intros s. unfold serialise_internal, mbind, ST_bind, get. destruct s as [? ? [] ? ? ? ?]; done. Qed.

Lemma emits_skip : emits skip [].
Proof. intros s. destruct s as [? ? [] ? ? ? ?]; cbn; unfold set; cbn; by rewrite app_nil_r. Qed.

Lemma emits_seq (m1 m2 : ST Serialiser unit) b1 b2 : emits m1 b1 -> emits m2 b2 -> emits (m1;; m2) (b1 ++ b2).
Proof. intros H1 H2 s. unfold mbind, ST_bind. by rewrite H1, H2, emit_domain, emit_emit. Qed.

Lemma emits_foreach {A} (f : A -> ST Serialiser unit) (g : A -> bytes) (xs : list A) :
  (forall x, emits (f x) (g x)) -> emits (foreach xs f) (concat (g <$> xs)).
Proof. intros Hf. induction xs as [|x xs IH]; [apply emits_skip|]. cbn. by apply emits_seq. Qed.

(** The bytes of a map in an entry. *)
Definition map_bytes (name : Name) (w : Write) : bytes := append_string name ++ writes_bytes w.

Lemma serialise_changes_eq enc name dom cs s :
  (dom = PRIVATE -> enc <> None) ->
  serialise_changes enc name dom cs false s = (emit dom (map_bytes name (cs_writes cs)) s, Ret tt).
Proof.
  intros Henc. unfold serialise_changes. unfold mbind at 1, ST_bind at 1.
  assert (start_map enc name dom s = (emit dom (append_string name) s, Ret tt)) as ->.
  { unfold start_map. destruct dom, enc; try done; [destruct s; done..|]. by destruct Henc. }
  enough (emits ((serialise_internal (append_u64 NoVersion);; serialise_internal (append_u64 0));;
    serialise_internal (append_u64 (Z.of_nat (length (puts_of (ordered (cs_writes cs))))));;
    foreach (puts_of (ordered (cs_writes cs))) (fun w =>
      serialise_internal (append_vector (fst w));; serialise_internal (append_vector (snd w)));;
    serialise_internal (append_u64 (Z.of_nat (length (removals (ordered (cs_writes cs))))));;
    foreach (removals (ordered (cs_writes cs))) (fun k => serialise_internal (append_vector k)))
    (writes_bytes (cs_writes cs))) as H.
  { unfold map_bytes. rewrite <- (emit_emit dom). rewrite <- (emit_domain dom (append_string name) s) at 2. apply H. }
  unfold writes_bytes. rewrite (app_assoc (append_u64 NoVersion)).
  repeat (apply emits_seq || apply emits_internal || apply emits_foreach || intros).
Qed.

(** ** The entry *)

Lemma write_all (ws : list bytes) b b' :
  foreach ws write_block b = (b', Ret tt) -> 0 <= remaining b ->
  Serialized.written b' = Serialized.written b ++ concat ws /\ remaining b' = remaining b - Z.of_nat (length (concat ws)) /\ 0 <= remaining b'.
Proof.
  revert b. induction ws as [|w ws IH]; intros b.
  - intros [= <-] Hb. cbn. rewrite app_nil_r. split_and!; [done|lia|done].
  - cbn [foreach]. unfold mbind, ST_bind. rewrite write_block_spec. destruct (Z.ltb_spec (remaining b) (Z.of_nat (length w))) as [|Hw]; [done|].
    intros H Hb. apply IH in H as (H1 & H2 & H3); cbn [Serialized.written remaining] in *; [|lia]. cbn [concat].
    rewrite length_app. split_and!; [by rewrite H1, app_assoc|lia|done].
Qed.

(** The bytes of an entry. *)
Definition entry_bytes (flags : Z) (hdr public cipher : bytes) : bytes :=
  le_encode 8 (entry_header flags (Z.of_nat (length hdr + 8 + length public + length cipher))) ++
  hdr ++ append_u64 (Z.of_nat (length public)) ++ public ++ cipher.

Lemma serialise_domains_inv e {EL : EncryptorLaws e} s public private data :
  serialise_domains (Some e) s public private = Ret data ->
  exists hdr cipher, enc_encrypt e private public (ser_tx_id s) (ser_entry_type s) (historical_hint s) = Some (hdr, cipher) /\
    length hdr = header_length e /\ length cipher = length private /\ data = entry_bytes (header_flags s) hdr public cipher.
Proof.
  unfold serialise_domains. destruct (enc_encrypt _ _ _ _ _ _) as [[hdr cipher]|] eqn:Ee; [|done].
  destruct (encrypted_lengths _ _ _ _ _ _ _ Ee) as [Hh Hc].
  set (total := Z.of_nat (length public) + Z.of_nat (header_length e) + 8 + Z.of_nat (length private)).
  set (header := entry_header (header_flags s) (u64 total)).
  assert (forall b, (write 8 header;; write_block hdr;; write 8 (Z.of_nat (length public));; write_block public;; write_block cipher) b =
    foreach [le_encode 8 header; hdr; append_u64 (Z.of_nat (length public)); public; cipher] write_block b) as Hfor.
  { intros b. unfold write, append_u64. cbn [foreach]. unfold mbind, ST_bind.
    destruct (write_block (le_encode 8 header) b) as [b1 [[]|]]; [|done].
    destruct (write_block hdr b1) as [b2 [[]|]]; [|done]. destruct (write_block _ b2) as [b3 [[]|]]; [|done].
    destruct (write_block public b3) as [b4 [[]|]]; [|done]. by destruct (write_block cipher b4) as [b5 [[]|]]. }
  rewrite Hfor. destruct (foreach _ write_block _) as [b [[]|]] eqn:Ew; [|done]. intros [= <-].
  apply write_all in Ew as (Hw & Hr & Hpos); [|cbn [remaining]; apply Z.mod_pos_bound; done]. cbn [Serialized.written remaining app] in Hw, Hr.
  assert (Z.of_nat (length (concat [le_encode 8 header; hdr; append_u64 (Z.of_nat (length public)); public; cipher])) = total + 8) as Hlen.
  { cbn [concat]. unfold append_u64. rewrite !length_app, !le_encode_length. cbn [length]. unfold total. lia. }
  rewrite Hlen in Hr. assert (0 <= total) by (unfold total; lia). rewrite u64_add_l in Hr.
  assert (total + 8 < 2 ^ 64) as Hsmall.
  { pose proof (u64_range (total + 8)). u64_lia. }
  rewrite (u64_small (total + 8)) in Hr by u64_lia.
  exists hdr, cipher. split_and!; [done..|]. unfold buffer_bytes. rewrite Hw. replace (remaining b) with 0 by lia. cbn [Z.to_nat replicate].
  rewrite app_nil_r. unfold entry_bytes, header. cbn [concat]. rewrite app_nil_r. unfold header.
  rewrite u64_small by u64_lia. f_equal. f_equal. f_equal. unfold total. lia.
Qed.

(** The start of the public domain of a transaction. *)
Definition public_head (v : Z) (claims evidence : bytes) : bytes :=
  append_entry_type WriteSetWithCommitEvidenceAndClaims ++ append_u64 v ++ claims ++ evidence ++ append_u64 0.

Lemma zoom_public_reads {A} (m : ST RawReader A) bs a d pre rest tail :
  reads m bs a -> Z.of_nat (length pre + length (bs ++ rest)) < 2 ^ 63 -> public_reader d = rd pre (bs ++ rest) tail ->
  zoom public_reader m d = (d <| public_reader := rd (pre ++ bs) rest tail |>, Ret a).
Proof. intros H Hlen E. unfold zoom. by rewrite E, H. Qed.

Lemma read_public_header_eq v claims evidence body tail d :
  0 <= v < 2 ^ 64 -> length claims = 32%nat -> length evidence = 32%nat -> Z.of_nat (length body) < 2 ^ 62 ->
  public_reader d = rd [] (public_head v claims evidence ++ body) tail ->
  read_public_header d =
  (d <| public_reader := rd (public_head v claims evidence) body tail |>
     <| de_entry_type := WriteSetWithCommitEvidenceAndClaims |> <| de_version := v |>
     <| de_claims_digest := Some claims |> <| de_commit_evidence_digest := Some evidence |>, Ret tt).
Proof.
  intros Hv Hc He Hb E. unfold read_public_header, public_head in *. rewrite <- !app_assoc in E.
  assert (forall b, length (append_u64 b) = 8%nat) as H8 by (intros; apply append_u64_length).
  assert (length (append_entry_type WriteSetWithCommitEvidenceAndClaims) = 1%nat) as H1 by apply le_encode_length.
  assert (reads (read_array 32) claims claims) as Rc by (unfold read_array; change 32 with (Z.of_nat 32); rewrite <- Hc; apply copy_bytes_reads).
  assert (reads (read_array 32) evidence evidence) as Re by (unfold read_array; change 32 with (Z.of_nat 32); rewrite <- He; apply copy_bytes_reads).
  set (ty := append_entry_type WriteSetWithCommitEvidenceAndClaims) in *. set (z := append_u64 0) in *. set (vb := append_u64 v) in *.
  assert (length vb = 8%nat) as Hvb by apply H8. assert (length z = 8%nat) as Hz by apply H8.
  unfold mbind at 1, ST_bind at 1.
  rewrite (zoom_public_reads _ ty _ d [] (vb ++ claims ++ evidence ++ z ++ body) tail (read_entry_type_reads _)
    ltac:(rewrite !length_app, Hvb, Hz, H1, Hc, He; cbn [length]; lia) E).
  unfold mbind at 1, ST_bind at 1, assign at 1, modify at 1. unfold mbind at 1, ST_bind at 1.
  rewrite (zoom_public_reads _ vb _ _ ([] ++ ty) (claims ++ evidence ++ z ++ body) tail (read_u64_reads v Hv)
    ltac:(rewrite !length_app, Hvb, Hz, H1, Hc, He; cbn [length]; lia)) by reflexivity.
  unfold mbind at 1, ST_bind at 1, assign at 1, modify at 1. cbn [has_claims has_commit_evidence].
  do 2 (unfold mbind at 1, ST_bind at 1).
  rewrite (zoom_public_reads _ claims _ _ (([] ++ ty) ++ vb) (evidence ++ z ++ body) tail Rc
    ltac:(rewrite !length_app, Hvb, Hz, H1, Hc, He; cbn [length]; lia)) by reflexivity.
  unfold assign at 1, modify at 1. do 2 (unfold mbind at 1, ST_bind at 1).
  rewrite (zoom_public_reads _ evidence _ _ ((([] ++ ty) ++ vb) ++ claims) (z ++ body) tail Re
    ltac:(rewrite !length_app, Hvb, Hz, H1, Hc, He; cbn [length]; lia)) by reflexivity.
  unfold assign at 1, modify at 1. unfold mbind at 1, ST_bind at 1.
  rewrite (zoom_public_reads _ z _ _ (((([] ++ ty) ++ vb) ++ claims) ++ evidence) body tail (read_u64_reads 0 ltac:(done))
    ltac:(rewrite !length_app, Hvb, Hz, H1, Hc, He; cbn [length]; lia)) by reflexivity.
  cbn [app]. rewrite <- !app_assoc. by destruct d.
Qed.

Lemma entry_header_fields flags size :
  0 <= flags < 256 -> 0 <= size < 2 ^ 48 ->
  0 <= entry_header flags size < 2 ^ 64 /\ entry_header flags size `mod` 2 ^ 8 = 1 /\ entry_header flags size `div` 2 ^ 16 = size.
Proof.
  intros Hf Hs. unfold entry_header, entry_format_v1, max_entry_size. rewrite (Z.mod_small size) by lia.
  assert (1 + 2 ^ 8 * flags + 2 ^ 16 * size = 1 + (flags + 2 ^ 8 * size) * 2 ^ 8) as E1 by lia.
  assert (1 + 2 ^ 8 * flags + 2 ^ 16 * size = (1 + 2 ^ 8 * flags) + size * 2 ^ 16) as E2 by lia.
  split_and!; [lia|lia|..].
  - rewrite E1, Z.mod_add by lia. done.
  - rewrite E2, Z.div_add, Z.div_small by lia. lia.
Qed.

(** What [init] finds in an entry: the head of the public domain is read, and the private domain is decrypted. *)
Definition opened (v term : Z) (claims evidence body private cipher : bytes) : Deserialiser :=
  MkDeserialiser (rd (public_head v claims evidence) body cipher) (rd [] private []) false
    WriteSetWithCommitEvidenceAndClaims (Some claims) (Some evidence) v term.

Lemma init_entry e {EL : EncryptorLaws e} flags id claims evidence body private hdr cipher hint term0 :
  let public := public_head (tx_version id) claims evidence ++ body in
  enc_encrypt e private public id WriteSetWithCommitEvidenceAndClaims hint = Some (hdr, cipher) ->
  0 <= tx_version id < 2 ^ 64 -> 0 <= tx_term id < 2 ^ 31 -> length claims = 32%nat -> length evidence = 32%nat ->
  0 <= flags < 256 -> Z.of_nat (length (entry_bytes flags hdr public cipher)) < 2 ^ 48 ->
  init (Some e) None hint (entry_bytes flags hdr public cipher) (new_deserialiser term0) =
  (opened (tx_version id) (tx_term id) claims evidence body private cipher, Ret (Some (tx_version id))).
Proof.
  intros public He Hv Ht Hc Hev Hf Hlen. destruct (encrypted_lengths _ _ _ _ _ _ _ He) as [Hh Hcl].
  unfold entry_bytes in *. set (size := Z.of_nat (length hdr + 8 + length public + length cipher)) in *.
  set (rest := hdr ++ append_u64 (Z.of_nat (length public)) ++ public ++ cipher) in *.
  assert (Z.of_nat (length rest) = size) as Hrest by (unfold rest, size; rewrite !length_app, append_u64_length; lia).
  rewrite length_app, le_encode_length in Hlen. destruct (entry_header_fields flags size) as (Hr & Hm & Hd); [done|lia|].
  unfold init. unfold mbind at 1, ST_bind at 1. unfold run_reader at 1. rewrite read_app by exact Hr.
  unfold mret at 1, ST_ret at 1. rewrite Hd, Hrest, Z.eqb_refl, Hm. cbn [negb entry_format_v1 Z.eqb Pos.eqb].
  unfold mbind at 1, ST_bind at 1. unfold run_reader at 1, skip_bytes at 1. unfold mbind at 1, ST_bind at 1, get at 1.
  destruct (Z.ltb_spec (Z.of_nat (length rest)) (Z.of_nat (header_length e))) as [|_]; [unfold size in *; lia|].
  unfold modify at 1, mret at 1, ST_ret at 1. rewrite Nat2Z.id.
  assert (drop (header_length e) rest = append_u64 (Z.of_nat (length public)) ++ public ++ cipher) as ->.
  { unfold rest. by rewrite <- Hh, drop_app_length. }
  assert (take (header_length e) rest = hdr) as -> by (unfold rest; by rewrite <- Hh, take_app_length).
  unfold mbind at 1, ST_bind at 1. unfold run_reader at 1. rewrite (read_app 8) by (unfold size in *; lia).
  unfold mret at 1, ST_ret at 1. unfold mbind at 1, ST_bind at 1, assign at 1, modify at 1.
  unfold mbind at 1, ST_bind at 1.
  rewrite (read_public_header_eq (tx_version id) claims evidence body cipher); [|done..| |reflexivity].
  2: { unfold size, public in *. rewrite !length_app in *. lia. }
  rewrite bool_decide_false by done.
  unfold mbind at 1, ST_bind at 1. unfold run_reader at 1, skip_bytes at 1. unfold mbind at 1, ST_bind at 1, get at 1.
  destruct (Z.ltb_spec (Z.of_nat (length (public ++ cipher))) (Z.of_nat (length public))) as [Hx|_]; [rewrite length_app in Hx; lia|].
  unfold modify at 1, mret at 1, ST_ret at 1. rewrite Nat2Z.id, drop_app_length, take_app_length.
  unfold mbind at 1, ST_bind at 1, get at 1. unfold mbind at 1, ST_bind at 1, assign at 1, modify at 1.
  match goal with |- context [enc_decrypt e cipher public hdr ?x hint] => change x with (tx_version id) end.
  rewrite (encrypted_decrypts _ _ _ _ _ _ _ He),  (encrypted_term _ _ _ _ _ _ _ He ltac:(done) Ht).
  unfold mbind, ST_bind, assign, modify, mret, ST_ret. unfold opened, reader_init, rd, set. cbn. by rewrite app_nil_r.
Qed.
