(* ===== verification/KvReplica.v ===== *)
(** Replication: applying the entry of a transaction to another store has the effect that the
    commit had on the store where the transaction ran. *)

From S2P Require Import Prelude Serialized RaftTypes KvMap KvRoll KvHandle KvHandleProps KvValidation KvSerialise KvStore KvTx KvStoreProps KvStoreHistory KvSystem KvRefinement KvSerialiseProps.

(** ** The entry of a transaction *)

(** The maps of a domain that a transaction writes to, with what it writes. *)
Definition written_in (dom : SecurityDomain) (changes : list (Name * (Loc * ChangeSet))) : list (Name * Write) :=
  omap (fun '(n, (_, cs)) =>
    if bool_decide (get_security_domain n = dom) && has_writes cs then Some (n, cs_writes cs) else None) changes.

Definition maps_bytes (nws : list (Name * Write)) : bytes := concat ((fun nw => map_bytes (fst nw) (snd nw)) <$> nws).

(** The objects have the domain of their name and are replicated. *)
Definition replicated {P : Type} (s : Store P) : Prop :=
  forall l o, heap s !! l = Some o -> mo_domain o = get_security_domain (mo_name o) /\ mo_replicated o = true.

Section leader.
Context {P : Type} (e : Encryptor) {EL : EncryptorLaws e}.
Implicit Types (s : Store P).

Lemma serialise_maps_eq dom changes s ser :
  replicated s -> (forall n l cs, (n, (l, cs)) ∈ changes -> exists o, heap s !! l = Some o /\ mo_name o = n) ->
  exists c, serialise_maps (Some e) dom changes s ser =
    ((emit dom (maps_bytes (written_in dom changes)) ser) <| current_domain := c |>, Ret tt).
Proof.
  intros Hrep. revert ser. induction changes as [|[n [l cs]] changes IH]; intros ser Hin.
  - exists (current_domain ser). destruct dom, ser; cbn; unfold set; cbn; by rewrite app_nil_r.
  - destruct (Hin n l cs) as (o & Ho & Hname); [by left|]. destruct (Hrep l o Ho) as [Hdom Hr].
    assert (forall n l cs, (n, (l, cs)) ∈ changes -> exists o, heap s !! l = Some o /\ mo_name o = n) as Hin'.
    { intros n' l' cs' H. apply (Hin n' l' cs'). by right. }
    cbn [serialise_maps]. rewrite Ho, Hdom, Hr, Hname, andb_true_r.
    unfold written_in. cbn [omap list_omap]. fold (written_in dom changes).
    destruct (bool_decide_reflect (get_security_domain n = dom)) as [<-|Hne]; cbn [andb].
    + destruct (has_writes cs).
      * unfold mbind, ST_bind. rewrite serialise_changes_eq by done.
        destruct (IH (emit (get_security_domain n) (map_bytes n (cs_writes cs)) ser) Hin') as [c ->].
        exists c. by rewrite emit_emit.
      * unfold mbind, ST_bind, skip, mret, ST_ret. apply (IH ser Hin').
    + unfold mbind, ST_bind, skip, mret, ST_ret. apply (IH ser Hin').
Qed.

Lemma lor_byte a b : 0 <= a < 256 -> 0 <= b < 256 -> 0 <= Z.lor a b < 256.
Proof.
  intros Ha Hb. assert (0 <= Z.lor a b) as Hpos by (apply Z.lor_nonneg; lia). split; [done|].
  destruct (Z.eq_dec (Z.lor a b) 0) as [->|Hne]; [lia|]. change 256 with (2 ^ 8). apply Z.log2_lt_pow2; [lia|].
  rewrite Z.log2_lor by lia. apply Z.max_lub_lt.
  - destruct (Z.eq_dec a 0) as [->|]; [done|]. apply Z.log2_lt_pow2; lia.
  - destruct (Z.eq_dec b 0) as [->|]; [done|]. apply Z.log2_lt_pow2; lia.
Qed.

(** The entry that [serialise] produces. *)
Lemma tx_serialise_inv evidence_of claims s t w data evidence :
  let changes := ordered (all_changes t) in
  let id := MkTxID (commit_view t) (tx_commit_version t) in
  let public := public_head (tx_version id) claims evidence ++ maps_bytes (written_in PUBLIC changes) in
  let private := maps_bytes (written_in PRIVATE changes) in
  replicated s -> (forall n l cs, all_changes t !! n = Some (l, cs) -> exists o, heap s !! l = Some o /\ mo_name o = n) ->
  existsb (fun c => has_writes (snd (snd c))) changes = true -> 0 <= entry_flags t < 256 ->
  tx_serialise (Some e) evidence_of (Some claims) (MkWorld s t) = (w, Ret (data, evidence)) ->
  exists flags hdr cipher, 0 <= flags < 256 /\
    enc_encrypt e private public id WriteSetWithCommitEvidenceAndClaims false = Some (hdr, cipher) /\
    data = entry_bytes flags hdr public cipher.
Proof.
  intros changes id public private Hrep Hobj Hany Hfl. unfold tx_serialise. unfold mbind at 1, ST_bind at 1, get at 1. cbn [w_tx].
  destruct (committed t); [|done]. destruct (success t); [|done]. cbn [negb]. fold changes. rewrite Hany. cbn [negb]. fold id.
  destruct (evidence_of id) as [ev|]; [|done].
  assert (forall n l cs, (n, (l, cs)) ∈ changes -> exists o, heap s !! l = Some o /\ mo_name o = n) as Hin.
  { intros n l cs H%elem_of_ordered. by apply (Hobj n l cs). }
  assert (exists fl, 0 <= fl < 256 /\ forall A (k : World P -> ST (World P) A),
    ((if tx_flag_enabled t LEDGER_CHUNK_BEFORE_THIS_TX
      then zoom w_tx (entry_flags <~ Z.lor (entry_flags t) FORCE_LEDGER_CHUNK_BEFORE) else skip);; w ← get; k w) (MkWorld s t) =
    k (MkWorld s (t <| entry_flags := fl |>)) (MkWorld s (t <| entry_flags := fl |>))) as (fl & Hfl' & Hk).
  { destruct (tx_flag_enabled t LEDGER_CHUNK_BEFORE_THIS_TX).
    - exists (Z.lor (entry_flags t) FORCE_LEDGER_CHUNK_BEFORE). split; [by apply lor_byte|done].
    - exists (entry_flags t). split; [done|]. intros A k. by destruct t. }
  rewrite Hk. cbn [w_tx w_store]. set (ser := new_serialiser _ _ _ _ _ _).
  unfold mbind at 1, ST_bind at 1. destruct (serialise_maps_eq PUBLIC changes s ser Hrep Hin) as [c1 ->].
  match goal with |- context [serialise_maps (Some e) PRIVATE changes s ?x] =>
    destruct (serialise_maps_eq PRIVATE changes s x Hrep Hin) as [c2 ->] end.
  unfold get_raw_data. destruct (serialise_domains _ _ _ _) as [data'|] eqn:Ed; [|done]. intros [= _ -> ->].
  apply serialise_domains_inv in Ed as (hdr & cipher & He & _ & _ & ->); [|done]. exists fl, hdr, cipher. split; [done|].
  split; [exact He|reflexivity].
Qed.
End leader.

(** ** Reading the maps of an entry *)

(** The deserialiser has [pub] and then [priv] to read. *)
Definition holds_maps (d : Deserialiser) (pub priv : list (Name * Write)) : Prop :=
  exists pre pre' tail,
    public_reader d = rd pre (maps_bytes pub) tail /\ private_reader d = rd pre' (maps_bytes priv) [] /\
    (in_private d = true -> pub = []) /\
    Z.of_nat (length pre + length (maps_bytes pub)) < 2 ^ 63 /\ Z.of_nat (length pre' + length (maps_bytes priv)) < 2 ^ 63.

Definition same_header (d d' : Deserialiser) : Prop :=
  de_term d' = de_term d /\ de_claims_digest d' = de_claims_digest d /\
  de_commit_evidence_digest d' = de_commit_evidence_digest d.

Lemma maps_bytes_cons n w nws : maps_bytes ((n, w) :: nws) = map_bytes n w ++ maps_bytes nws.
Proof. done. Qed.

Lemma maps_bytes_nil nws : bool_decide (maps_bytes nws = []) = bool_decide (nws = []).
Proof.
  apply bool_decide_ext. destruct nws as [|[n w] nws]; [done|]. split; [|done]. unfold maps_bytes, map_bytes. cbn.
  done.
Qed.

(** One map, from the reader that has it next. *)
Lemma read_map d pre n w rest tail :
  cur d = rd pre (map_bytes n w ++ rest) tail -> Z.of_nat (length pre + length (map_bytes n w ++ rest)) < 2 ^ 63 ->
  exists d1, read_current read_prefixed d = (d1, Ret n) /\
    forall cs, cs_writes cs = ∅ -> cs_reads cs = ∅ ->
      deserialise_changes (Some cs) d1 = (set_cur (rd (pre ++ map_bytes n w) rest tail) d, Ret (cs <| cs_writes := w |>)).
Proof.
  intros E Hlen. unfold map_bytes in *. rewrite <- app_assoc in *.
  exists (set_cur (rd (pre ++ append_string n) (writes_bytes w ++ rest) tail) d). split.
  - by apply (read_current_dreads _ _ _ (read_prefixed_reads n)).
  - intros cs Hw Hr. rewrite (deserialise_changes_dreads cs w Hw Hr _ (pre ++ append_string n) rest tail).
    + by rewrite set_cur_twice, <- app_assoc.
    + rewrite !length_app in *. lia.
    + apply cur_set_cur.
Qed.

Lemma next_map_eq d :
  next_map d =
  if current_eos d && (in_private d || is_eos (private_reader d)) then (d, Ret None)
  else (name ← read_current read_prefixed; mret (Some name)) (if current_eos d then d <| in_private := true |> else d).
Proof.
  unfold next_map. unfold mbind at 1, ST_bind at 1, get. destruct (current_eos d); [|done].
  by destruct (in_private d), (is_eos (private_reader d)).
Qed.

Lemma next_map_spec d pub priv :
  holds_maps d pub priv ->
  match pub ++ priv with
  | [] => next_map d = (d, Ret None) /\ at_end d = true
  | (n, w) :: nws => exists d1 pub2 priv2 d2, next_map d = (d1, Ret (Some n)) /\ pub2 ++ priv2 = nws /\
      holds_maps d2 pub2 priv2 /\ same_header d d2 /\
      forall cs, cs_writes cs = ∅ -> cs_reads cs = ∅ -> deserialise_changes (Some cs) d1 = (d2, Ret (cs <| cs_writes := w |>))
  end.
Proof.
  intros (pre & pre' & tail & Hpub & Hpriv & Hin & Hl & Hl').
  assert (is_eos (public_reader d) = bool_decide (pub = [])) as Eo by (rewrite Hpub, is_eos_rd; apply maps_bytes_nil).
  assert (is_eos (private_reader d) = bool_decide (priv = [])) as Eo' by (rewrite Hpriv, is_eos_rd; apply maps_bytes_nil).
  rewrite next_map_eq. unfold at_end, current_eos.
  destruct pub as [|[n w] pub]; cbn [app].
  - destruct priv as [|[n w] priv].
    + rewrite Eo, Eo'. destruct (in_private d); [by rewrite Eo'|by rewrite Eo].
    + assert (cur (d <| in_private := true |>) = rd pre' (map_bytes n w ++ maps_bytes priv) []) as Ec by done.
      destruct (read_map _ _ _ _ _ _ Ec Hl') as (d1 & Hr & Hd).
      exists d1, [], priv. eexists. split_and!; [|done| | |exact Hd].
      * destruct (in_private d) eqn:Ei.
        -- assert (d = d <| in_private := true |>) as Hsame by (destruct d; cbn in *; by subst).
           rewrite Eo', bool_decide_false by done. cbn [andb]. unfold mbind, ST_bind. rewrite <- Hsame in Hr. by rewrite Hr.
        -- rewrite Eo, Eo', bool_decide_true, bool_decide_false by done. cbn [andb orb]. unfold mbind, ST_bind. by rewrite Hr.
      * exists pre, (pre' ++ map_bytes n w), tail. split_and!; try done.
        rewrite maps_bytes_cons in Hl'. rewrite !length_app in *. lia.
      * done.
  - assert (in_private d = false) as Ei by (destruct (in_private d); [by specialize (Hin eq_refl)|done]).
    rewrite Ei, Eo, bool_decide_false by done. cbn [andb].
    assert (cur d = rd pre (map_bytes n w ++ maps_bytes pub) tail) as Ec by (unfold cur; by rewrite Ei).
    destruct (read_map _ _ _ _ _ _ Ec Hl) as (d1 & Hr & Hd).
    exists d1, pub, priv. eexists. split_and!; [|done| | |exact Hd].
    + unfold mbind, ST_bind. by rewrite Hr.
    + unfold set_cur. rewrite Ei. exists (pre ++ map_bytes n w), pre', tail. split_and!; try done; [intros E; exfalso; cbn in E; congruence|].
      rewrite maps_bytes_cons in Hl. rewrite !length_app in *. lia.
    + unfold set_cur. rewrite Ei. done.
Qed.

(** ** Filling the maps *)

Section replica.
Context {P : Type} {SO : StateOrder}.
Implicit Types (s : Store P) (sp : Spec).

(** A change set that depends on nothing. *)
Definition blind (s : Store P) (t : Tx) : Prop :=
  forall n l cs, all_changes t !! n = Some (l, cs) -> exists o, heap s !! l = Some o /\
    cs_rollback_counter cs = rollback_counter (mo_map o) /\ cs_reads cs = ∅ /\ cs_read_version cs = NoVersion.

Lemma blind_conflict_free B s sp t :
  store_ok B s sp -> tx_ok s t -> blind s t -> (forall n l, created_maps t !! n = Some l -> maps s !! n = None) ->
  conflict_free s (tx_changes t) (created_maps t) None false = true.
Proof.
  intros Hs Ht Hb Hnew. apply andb_true_intro. split; apply forallb_forall.
  - intros view Hv%list_elem_of_In. destruct (elem_of_tx_changes s t Ht view Hv) as (n & l & cs & o & -> & Hn & Ho & Hname).
    destruct (Hb n l cs Hn) as (o' & Ho' & Hc & Hr & Hrv). rewrite Ho in Ho'. injection Ho' as <-.
    unfold prepared_in, vloc, vchanges. cbn. rewrite Ho. unfold prepare. destruct (is_empty _); [done|].
    rewrite Hc, Z.eqb_refl, Hr, Hrv. cbn. destruct (so_objects _ _ _ Hs l o Ho) as (_ & [Hne _] & _).
    apply last_is_Some in Hne as [c ->]. done.
  - intros [n l] Hn%list_elem_of_In%elem_of_ordered. apply bool_decide_eq_true. cbn. unfold get_map. by rewrite (Hnew n l Hn).
Qed.

Lemma make_map_eq name s : make_map name s = (extend s (new_object s name), Ret (length (heap s))).
Proof. done. Qed.

Lemma change_set_at_eq l v s o :
  heap s !! l = Some o -> mo_locked o = false -> change_set_at l v s = (s, Ret (create_change_set (mo_map o) v)).
Proof.
  intros Ho Hl. unfold change_set_at, mbind, ST_bind. rewrite (lock_map_eq l o) by done.
  rewrite (map_at_eq l (set_locked true o)) by (cbn; by rewrite list_lookup_alter_eq, Ho).
  rewrite (unlock_map_eq l (set_locked true o)); [|cbn; by rewrite list_lookup_alter_eq, Ho|done].
  unfold mret, ST_ret. cbn. rewrite (alter_insert _ l (set_locked true o)) by (by rewrite list_lookup_alter_eq, Ho).
  rewrite (alter_insert _ l o), list_insert_insert_eq by done.
  assert (set_locked false (set_locked true o) = o) as -> by (destruct o; cbn in *; by subst).
  rewrite list_insert_id by done. unfold with_heap, set. by destruct s.
Qed.

Lemma tx_ok_writes s t n l cs w :
  tx_ok s (t <| all_changes := <[n := (l, cs)]> (all_changes t) |>) ->
  (is_Some (created_maps t !! n) -> forall k, w !! k <> Some None) ->
  tx_ok s (t <| all_changes := <[n := (l, cs <| cs_writes := w |>)]> (all_changes t) |>).
Proof.
  intros H Hw. split; try apply H; cbn.
  - intros n' l' cs' [[<- [= <- <-]]|[Hne Hn]]%lookup_insert_Some.
    + destruct (to_changes _ _ H n l cs) as (o & Ho & Hname & Hc & Hm); [cbn; apply lookup_insert_eq|].
      exists o. split_and!; [done|done|apply Hc|apply Hc|]. cbn in *. destruct (created_maps t !! n); [|done].
      destruct Hm as (-> & Hp & Hst & _). split_and!; [done..|]. intros k Hk. cbn in Hk. by destruct (Hw ltac:(by eexists) k).
    + apply (change_ok_tx _ (t <| all_changes := <[n := (l, cs)]> (all_changes t) |>)); [done|]. apply H. cbn. by rewrite lookup_insert_ne.
  - intros n' l' Hn'. destruct (to_created _ _ H n' l' Hn') as [cs' Hcs']. cbn in Hcs'.
    destruct (decide (n = n')) as [<-|Hne].
    + rewrite lookup_insert_eq in *. injection Hcs' as <- _. by eexists.
    + rewrite lookup_insert_ne in * by done. by exists cs'.
Qed.

Lemma tx_changes_insert t n l cs :
  tx_changes (t <| all_changes := <[n := (l, cs)]> (all_changes t) |>) = <[n := (l, Changes cs)]> (tx_changes t).
Proof. unfold tx_changes. cbn. by rewrite fmap_insert. Qed.

(** The transaction with the writes of one more map. *)
Definition replaying (v : Z) (B : Z) (s : Store P) (sp : Spec) (t : Tx) : Prop :=
  store_ok B s sp /\ tx_ok s t /\ blind s t /\ (forall n l, created_maps t !! n = Some l -> maps s !! n = None) /\
  exists id, read_txid t = Some id /\ tx_version id = v.

Lemma blind_insert s t n l cs o :
  blind s t -> heap s !! l = Some o -> cs_rollback_counter cs = rollback_counter (mo_map o) -> cs_reads cs = ∅ ->
  cs_read_version cs = NoVersion -> blind s (t <| all_changes := <[n := (l, cs)]> (all_changes t) |>).
Proof.
  intros Hb Ho ???. intros n' l' cs'. cbn. intros [[<- [= <- <-]]|[_ Hn]]%lookup_insert_Some; [by exists o|by apply (Hb n')].
Qed.

Lemma replay_map B s sp t n w :
  0 <= B -> replaying (sp_version sp + 1) B s sp t -> all_changes t !! n = None -> (maps s !! n = None -> forall k, w !! k <> Some None) ->
  exists s1 l cs new,
    (match get_map s (sp_version sp + 1) n with
     | Some map => mret (map, created_maps t)
     | None => map ← make_map n; mret (map, <[n := map]> (created_maps t))
     end) s = (s1, Ret (l, new)) /\
    change_set_at l (sp_version sp + 1) s1 = (s1, Ret (Some cs)) /\ cs_writes cs = ∅ /\ cs_reads cs = ∅ /\
    maps s1 = maps s /\ store_version s1 = store_version s /\ store_compacted s1 = store_compacted s /\
    replaying (sp_version sp + 1) B s1 sp
      (t <| created_maps := new |> <| all_changes := <[n := (l, cs <| cs_writes := w |>)]> (all_changes t) |>).
Proof.
  intros HB (Hs & Ht & Hb & Hnew & id & Hid & Hv) Hn Hw. pose proof (so_range _ _ _ Hs) as Hrange.
  assert (created_maps t !! n = None) as Hcr.
  { destruct (created_maps t !! n) as [l|] eqn:E; [|done]. destruct (to_created _ _ Ht n l E). congruence. }
  assert (reads_at t t id) as Hreads by by split_and!.
  destruct (get_map s (sp_version sp + 1) n) as [l|] eqn:Eg.
  - assert (exists cv, maps s !! n = Some (cv, l)) as [cv Em].
    { unfold get_map in Eg. destruct (maps s !! n) as [[cv l']|]; [|done]. exists cv. destruct (_ || _); congruence. }
    destruct (so_maps _ _ _ Hs n cv l Em) as (o & Ho & Hname & Hm). destruct (so_objects _ _ _ Hs l o Ho) as (Hlk & Hr & Hc).
    destruct (holds_contents _ _ (map_holds _ _ _ _ Hm) (sp_version sp + 1)) as (c & Hf & _); [cbn; lia|].
    destruct (holds_head _ _ (map_holds _ _ _ _ Hm)) as (c0 & rest & E0 & _).
    assert (exists cs, create_change_set (mo_map o) (sp_version sp + 1) = Some cs /\ cs_writes cs = ∅ /\ cs_reads cs = ∅ /\
      cs_rollback_counter cs = rollback_counter (mo_map o) /\ cs_read_version cs = NoVersion) as (cs & Hcs & Hcw & Hcr' & Hcc & Hcv).
    { unfold create_change_set. rewrite Hf, E0. eexists. by split_and!. }
    exists s, l, cs, (created_maps t). split; [done|]. split; [by rewrite (change_set_at_eq l _ s o), Hcs|].
    assert (forall x : Tx, set created_maps (created_maps x) x = x) as Et by by intros [].
    split_and!; try done. rewrite Et. split_and!; [done| | |done|by exists id].
    + refine (tx_ok_writes s t n l cs w _ _).
      * eapply (tx_ok_open s t t id n l cv o cs); try done; [lia|lia|by rewrite Hv].
      * rewrite Hcr. by intros [].
    + by apply (blind_insert s t n l _ o).
  - assert (maps s !! n = None) as Em.
    { unfold get_map in Eg. destruct (maps s !! n) as [[cv l']|] eqn:E; [|done]. destruct (so_maps _ _ _ Hs n cv l' E) as (o & _ & _ & Hm).
      pose proof (map_created _ _ _ _ Hm). destruct (Z.leb_spec cv (sp_version sp + 1)); [done|lia]. }
    exists (extend s (new_object s n)), (length (heap s)), (new_change_set 0 ∅ ∅ 0), (<[n := length (heap s)]> (created_maps t)).
    assert (heap (extend s (new_object s n)) !! length (heap s) = Some (new_object s n)) as Ho.
    { cbn. by rewrite lookup_app_r, Nat.sub_diag by done. }
    split; [done|]. split.
    { rewrite (change_set_at_eq _ _ _ (new_object s n)) by done. unfold create_change_set. cbn.
      destruct (Z.leb_spec 0 (sp_version sp + 1)); [done|lia]. }
    split_and!; try done. cbn. split_and!.
    + apply store_ok_extend; [done|]. by apply new_object_ok.
    + set (t0 := set created_maps _ t). change (all_changes t) with (all_changes t0). apply tx_ok_writes.
      * eapply (tx_ok_make s t t id n); try done; [lia|]. by eapply store_maps_ok.
      * intros _. by apply Hw.
    + set (t0 := set created_maps _ t). change (all_changes t) with (all_changes t0).
      apply (blind_insert _ t0 n _ _ (new_object s n)); try done.
      intros n' l' cs' Hc'. destruct (Hb n' l' cs' Hc') as (o' & Ho' & ?). exists o'. split; [|done]. by apply extend_lookup.
    + cbn. intros n' l' [[<- _]|[_ ?]]%lookup_insert_Some; [done|]. by apply (Hnew n' l').
    + by exists id.
Qed.

(** Everything but the objects. *)
Definition same_maps (s s' : Store P) : Prop :=
  maps s' = maps s /\ store_version s' = store_version s /\ store_compacted s' = store_compacted s.

Lemma fill_loop_spec B sp nws fuel d s t pub priv :
  0 <= B -> pub ++ priv = nws -> holds_maps d pub priv -> (length nws < fuel)%nat -> NoDup nws.*1 ->
  (forall n, n ∈ nws.*1 -> all_changes t !! n = None) ->
  (forall n w, (n, w) ∈ nws -> maps s !! n = None -> forall k, w !! k <> Some None) ->
  replaying (sp_version sp + 1) B s sp t ->
  exists s2 t2 d2,
    fill_loop fuel (sp_version sp + 1) d (tx_changes t) (created_maps t) s =
      (s2, Ret (Some (tx_changes t2, created_maps t2, d2))) /\
    at_end d2 = true /\ same_header d d2 /\ replaying (sp_version sp + 1) B s2 sp t2 /\ same_maps s s2 /\
    (forall n, n ∉ nws.*1 -> all_changes t2 !! n = all_changes t !! n) /\
    forall n, tx_writes t2 n = from_option id (tx_writes t n) ((list_to_map nws : gmap Name Write) !! n).
Proof.
  intros HB. revert fuel d s t pub priv. induction nws as [|[n w] nws IH]; intros fuel d s t pub priv Happ Hd Hf Hnd Hfresh Hput Hrep;
    (destruct fuel as [|fuel]; [cbn in Hf; lia|]); pose proof (next_map_spec d pub priv Hd) as Hnext; rewrite Happ in Hnext.
  - destruct Hnext as [Hn He]. exists s, t, d. split_and!; try done.
    cbn [fill_loop]. unfold mbind, ST_bind, run_de. by rewrite Hn.
  - destruct Hnext as (d1 & pub2 & priv2 & d2 & Hn & Happ2 & Hd2 & Hh & Hdes).
    cbn in Hnd. apply NoDup_cons in Hnd as [Hnn Hnd].
    assert (all_changes t !! n = None) as Hall by (apply Hfresh; left).
    destruct (replay_map B s sp t n w HB Hrep Hall) as (s1 & l & cs & new & Hget & Hcs & Hcw & Hcr & Hm & Hv & Hc & Hrep1).
    { apply (Hput n w). left. }
    set (t1 := set all_changes _ _) in Hrep1.
    assert (tx_changes t1 = <[n := (l, Changes (cs <| cs_writes := w |>))]> (tx_changes t)) as Htc.
    { unfold t1, tx_changes. cbn. by rewrite fmap_insert. }
    destruct (IH fuel d2 s1 t1 pub2 priv2) as (s2 & t2 & d3 & Hfill & Hend & Hh3 & Hrep2 & (Hm2 & Hv2 & Hc2) & Hout & Htw); try done.
    { cbn in Hf. lia. }
    { intros n' Hn'. unfold t1. cbn. rewrite lookup_insert_ne; [apply Hfresh; by right|]. by intros ->. }
    { intros n' w' Hn'. rewrite Hm. apply Hput. by right. }
    exists s2, t2, d3. split_and!; try done.
    + cbn [fill_loop]. unfold mbind at 1, ST_bind at 1. unfold run_de at 1. rewrite Hn. unfold mret at 1, ST_ret at 1.
      unfold mbind at 1, ST_bind at 1, get at 1. unfold mbind at 1, ST_bind at 1. rewrite Hget.
      assert (tx_changes t !! n = None) as -> by (unfold tx_changes; by rewrite lookup_fmap, Hall).
      unfold mbind at 1, ST_bind at 1. rewrite Hcs. unfold mbind at 1, ST_bind at 1. unfold run_de at 1. rewrite Hdes by done.
      unfold mret at 1, ST_ret at 1. rewrite <- Htc. exact Hfill.
    + destruct Hh as (? & ? & ?), Hh3 as (? & ? & ?). split_and!; congruence.
    + split_and!; congruence.
    + intros n' Hn'. cbn in Hn'. apply not_elem_of_cons in Hn' as [Hne Hn']. rewrite (Hout n' Hn'). unfold t1. cbn. by rewrite lookup_insert_ne.
    + intros n'. rewrite Htw. cbn. destruct (decide (n = n')) as [<-|Hne].
      * rewrite lookup_insert_eq, (not_elem_of_list_to_map_1 nws n) by done. cbn. unfold tx_writes, t1. cbn. by rewrite lookup_insert_eq.
      * rewrite lookup_insert_ne by done. unfold tx_writes, t1. cbn. by rewrite lookup_insert_ne.
Qed.

(** ** The maps of the entry *)

Lemma elem_of_written_in (dom : SecurityDomain) (changes : list (Name * (Loc * ChangeSet))) (n : Name) (w : Write) :
  (n, w) ∈ written_in dom changes <->
  get_security_domain n = dom /\ exists l cs, (n, (l, cs)) ∈ changes /\ w = cs_writes cs /\ w <> ∅.
Proof.
  unfold written_in. rewrite list_elem_of_omap. split.
  - intros ([n' [l cs]] & Hin & E). destruct (bool_decide_reflect (get_security_domain n' = dom)) as [Hd|]; [|done]. cbn in E.
    unfold has_writes in E. destruct (decide (cs_writes cs = ∅)) as [He|He].
    + by rewrite is_empty_true in E.
    + rewrite is_empty_false in E by done. injection E as -> <-. split; [done|]. by exists l, cs.
  - intros (Hd & l & cs & Hin & -> & Hw). exists (n, (l, cs)). split; [done|]. rewrite bool_decide_true by done. cbn.
    unfold has_writes. by rewrite is_empty_false.
Qed.

Lemma written_in_names (dom : SecurityDomain) (changes : list (Name * (Loc * ChangeSet))) : (written_in dom changes).*1 `sublist_of` changes.*1.
Proof.
  induction changes as [|[n [l cs]] changes IH]; [done|]. unfold written_in. cbn. fold (written_in dom changes).
  destruct (_ && _); cbn; [by apply sublist_skip|by apply sublist_cons].
Qed.

Definition written_maps (t : Tx) : list (Name * Write) :=
  written_in PUBLIC (ordered (all_changes t)) ++ written_in PRIVATE (ordered (all_changes t)).

Lemma written_maps_NoDup t : NoDup (written_maps t).*1.
Proof.
  unfold written_maps. rewrite fmap_app. apply NoDup_app. split_and!.
  - by apply (sublist_NoDup _ (ordered (all_changes t)).*1), written_in_names; apply ordered_NoDup.
  - intros n ([n1 w1] & -> & [H1 _]%elem_of_written_in)%list_elem_of_fmap ([n2 w2] & E & [H2 _]%elem_of_written_in)%list_elem_of_fmap.
    cbn in E. subst n2. congruence.
  - by apply (sublist_NoDup _ (ordered (all_changes t)).*1), written_in_names; apply ordered_NoDup.
Qed.

Lemma elem_of_written_maps (t : Tx) (n : Name) (w : Write) : (n, w) ∈ written_maps t <-> w = tx_writes t n /\ w <> ∅.
Proof.
  unfold written_maps. rewrite elem_of_app, !elem_of_written_in. unfold tx_writes. split.
  - intros [(_ & l & cs & Hin%elem_of_ordered & -> & Hw)|(_ & l & cs & Hin%elem_of_ordered & -> & Hw)]; by rewrite Hin.
  - intros [-> Hw]. destruct (all_changes t !! n) as [[l cs]|] eqn:E; [|done]. cbn in *.
    assert (exists l cs', (n, (l, cs')) ∈ ordered (all_changes t) /\ cs_writes cs = cs_writes cs' /\ cs_writes cs <> ∅) as Hex.
    { exists l, cs. split_and!; [by apply elem_of_ordered|done|done]. }
    destruct (get_security_domain n); [by left|by right].
Qed.

Lemma written_maps_lookup (t : Tx) (n : Name) :
  from_option id ∅ ((list_to_map (written_maps t) : gmap Name Write) !! n) = tx_writes t n.
Proof.
  pose proof (written_maps_NoDup t) as Hnd. destruct (list_to_map (written_maps t) !! n) as [w|] eqn:E; cbn.
  - apply elem_of_list_to_map_2, elem_of_written_maps in E as [-> _]. done.
  - destruct (decide (tx_writes t n = ∅)) as [->|Hw]; [done|]. assert ((n, tx_writes t n) ∈ written_maps t) as Hin by by apply elem_of_written_maps.
    apply (elem_of_list_to_map_1 (M := gmap Name)) in Hin; [|done]. congruence.
Qed.

(** ** Applying the entry *)

Context (map_hook : Name -> Z -> Write -> option Hook) (services : @Services P) (e : Encryptor) {EL : EncryptorLaws e}.

Lemma replica_commit B s sp t term :
  replaying (sp_version sp + 1) B s sp t -> sp_version sp + 1 < 2 ^ 63 -> any_writes (tx_changes t) = true ->
  exists s' hooks, commit_deserialised (returning map_hook) (tx_changes t) (sp_version sp + 1) term (created_maps t) s = (s', Ret (true, hooks)) /\
    commits_to s t (sp_version sp + 1) s'.
Proof.
  intros (Hs & Ht & Hb & Hnew & _) Hmax Hany. pose proof (tx_changes_ok B s sp t Hs Ht) as Hok.
  pose proof (blind_conflict_free B s sp t Hs Ht Hb Hnew) as Hfree. set (v := sp_version sp + 1) in *.
  destruct (apply_changes_commits map_hook s (tx_changes t) (created_maps t) Hok (fun _ => mret (v, u64 (v - 1))) None false s v)
    as [hooks Happly]; [done..| | |].
  { intros h. by eexists. }
  { intros [n l] [Hcr _]%(elem_of_kept_maps s t Ht). unfold get_map. cbn [fst]. by rewrite (Hnew n l Hcr). }
  eexists _, hooks. split.
  - unfold commit_deserialised. unfold mbind at 1, ST_bind at 1. rewrite Happly. reflexivity.
  - split; [done|apply committed_heap_length|done|done|done|].
    intros l o Ho. destruct (so_objects _ _ _ Hs l o Ho) as (_ & [Hne _] & _).
    destruct (committed_heap_lookup (global_hooks s) (map_hooks s) (tx_changes t) (created_maps t) v (heap s) l o)
      as (o' & Ho' & Hn & Hd & Hrp & Hl & Hr); [apply Hok|by eapply tx_no_snapshot|done|done|]. by exists o'.
Qed.

(** [fill_maps] rolls nothing back when the entry is the next one. *)
Lemma next_entry_rollback B s sp :
  store_ok B s sp -> exists s', same_store s s' /\
    store_rollback services (MkTxID (term_of_last_version s) (sp_version sp)) (term_of_next_version s) s = (s', Ret tt).
Proof.
  intros Hs. pose proof (so_range _ _ _ Hs) as Hrange.
  destruct (store_rollback_eq services (MkTxID (term_of_last_version s) (sp_version sp)) (term_of_next_version s) s)
    as (s' & Hroll & [Hc Hres] & _); [by eapply store_maps_ok|]. cbn in *.
  rewrite (so_compacted _ _ _ Hs), (so_version _ _ _ Hs) in *.
  destruct (Z.ltb_spec (sp_version sp) (sp_compacted sp)); [lia|]. rewrite Z.ltb_irrefl, andb_false_r in Hres.
  exists s'. split; [|done]. destruct Hres as (Hv & _ & _ & _ & Hm & Hh). unfold same_store, store_core.
  rewrite (so_compacted _ _ _ Hs), (so_version _ _ _ Hs). congruence.
Qed.

Lemma fill_maps_spec B s sp t claims evidence flags hdr cipher strict term0 ignore :
  let id := MkTxID (commit_view t) (sp_version sp + 1) in
  let public := public_head (tx_version id) claims evidence ++ maps_bytes (written_in PUBLIC (ordered (all_changes t))) in
  let private := maps_bytes (written_in PRIVATE (ordered (all_changes t))) in
  let data := entry_bytes flags hdr public cipher in
  0 <= B -> store_ok B s sp -> sp_version sp + 1 < 2 ^ 63 ->
  enc_encrypt e private public id WriteSetWithCommitEvidenceAndClaims false = Some (hdr, cipher) ->
  0 <= commit_view t < 2 ^ 31 -> length claims = 32%nat -> length evidence = 32%nat -> 0 <= flags < 256 ->
  Z.of_nat (length data) < 2 ^ 48 ->
  (forall n, maps s !! n = None -> forall k, tx_writes t n !! k <> Some None) ->
  exists s2 t2,
    fill_maps services (Some e) strict false data false term0 ignore s =
      (s2, Ret (Some (MkFilled (sp_version sp + 1) (commit_view t) (tx_changes t2) (created_maps t2) (Some claims) (Some evidence)))) /\
    replaying (sp_version sp + 1) B s2 sp t2 /\ maps s2 = maps s /\
    (forall n, tx_writes t n = ∅ -> all_changes t2 !! n = None) /\ forall n, tx_writes t2 n = tx_writes t n.
Proof.
  intros id public private data HB Hs Hmax He Hterm Hcl Hev Hf Hlen Hput. pose proof (so_range _ _ _ Hs) as Hrange.
  unfold fill_maps. unfold mbind at 1, ST_bind at 1. unfold run_de at 1.
  assert (init (Some e) None false data (new_deserialiser term0) =
    (opened (sp_version sp + 1) (commit_view t) claims evidence (maps_bytes (written_in PUBLIC (ordered (all_changes t)))) private cipher,
     Ret (Some (sp_version sp + 1)))) as -> by (apply (init_entry e flags id claims evidence); (done || cbn; lia)).
  unfold mret at 1, ST_ret at 1. cbn [tx_version id]. unfold mbind at 1, ST_bind at 1, get at 1. unfold mbind at 1, ST_bind at 1.
  rewrite (u64_small (sp_version sp + 1 - 1)) by u64_lia. replace (sp_version sp + 1 - 1) with (sp_version sp) by lia.
  destruct (next_entry_rollback B s sp Hs) as (s1 & Hsame & ->). pose proof (store_ok_same B s s1 sp Hsame Hs) as Hs1.
  unfold mbind at 1, ST_bind at 1, get at 1. rewrite (so_version _ _ _ Hs1), Z.eqb_refl, andb_false_r.
  assert (Z.of_nat (length (hdr ++ append_u64 (Z.of_nat (length public)) ++ public ++ cipher)) < 2 ^ 48) as Hlen'.
  { unfold data, entry_bytes in Hlen. rewrite length_app in Hlen. lia. }
  destruct (encrypted_lengths _ _ _ _ _ _ _ He) as [_ Hcl']. unfold public in Hlen'. rewrite !length_app in Hlen'.
  set (d := opened _ _ _ _ _ _ _). set (t0 := create_tx <| read_txid := Some id |>).
  assert (length (written_maps t) < S (length (rr_mem (public_reader d)) + length (rr_mem (private_reader d))))%nat as Hfuel.
  { unfold written_maps, d. cbn [public_reader private_reader opened rr_mem rd]. unfold private. rewrite !length_app.
    assert (forall nws : list (Name * Write), length nws <= length (maps_bytes nws))%nat as Hge.
    { intros nws. apply concat_length_ge. intros [n w]. unfold map_bytes. rewrite length_app. pose proof (append_vector_length n).
      unfold append_vector, append_string in *. cbn [fst snd]. lia. }
    pose proof (Hge (written_in PUBLIC (ordered (all_changes t)))). pose proof (Hge (written_in PRIVATE (ordered (all_changes t)))).
    cbn [length]. lia. }
  assert (store_core s1 = store_core s) as [= Hh1 Hm1 Hv1 Hc1] by exact Hsame.
  destruct (fill_loop_spec B sp (written_maps t) (S (length (rr_mem (public_reader d)) + length (rr_mem (private_reader d))))
    d s1 t0 _ _ HB eq_refl) as (s2 & t2 & d2 & Hfill & Hend & (Ht & Hc & Hev') & Hrep & (Hm2 & _) & Hout & Hw); try done.
  - eexists _, [], cipher. split_and!; [done|done|done|..].
    + change (tx_version id) with (sp_version sp + 1) in Hlen'. lia.
    + cbn [length]. fold private. rewrite <- Hcl'. lia.
  - apply written_maps_NoDup.
  - intros n w Hin. rewrite Hm1. intros Hn. apply elem_of_written_maps in Hin as [-> _]. by apply Hput.
  - split_and!; [done| |by intros n l cs|by intros n l|by exists id].
    split; try done. cbn. intros id' [= <-]. cbn. lia.
  - exists s2, t2. split_and!; [|done|congruence| |].
    + unfold mbind, ST_bind. unfold tx_changes in Hfill at 1. cbn in Hfill. rewrite fmap_empty in Hfill. cbn. cbn in Hfill. rewrite Hfill.
      rewrite Hend. unfold mret, ST_ret. rewrite Ht, Hc, Hev'. done.
    + intros n Hn. rewrite Hout; [done|]. intros ([n' w] & -> & [-> Hne]%elem_of_written_maps)%list_elem_of_fmap. done.
    + intros n. rewrite Hw. apply written_maps_lookup.
Qed.

Lemma store_ok_writes B s sp v w w' :
  (forall n, w n = w' n) -> store_ok B s (spec_step sp (Committed v w)) -> store_ok B s (spec_step sp (Committed v w')).
Proof.
  intros Hw H. split; try apply H.
  - intros n cv l Hn. destruct (so_maps _ _ _ H n cv l Hn) as (o & Ho & Hname & [Hc Hh Hs Hb]). exists o. split_and!; [done..|].
    assert (hist (spec_step sp (Committed v w)) n = hist (spec_step sp (Committed v w')) n) as E.
    { unfold hist. cbn. by rewrite Hw. }
    split; [done|by rewrite <- E..|]. intros u k Hu. specialize (Hb u k Hu). cbn in *. by rewrite <- Hw.
  - intros n u k Hn. pose proof (so_absent _ _ _ H n u k Hn) as Ha. cbn in *. by rewrite <- Hw.
Qed.

Lemma any_writes_of t n : tx_writes t n <> ∅ -> any_writes (tx_changes t) = true.
Proof.
  unfold tx_writes. destruct (all_changes t !! n) as [[l cs]|] eqn:E; [|done]. cbn. intros Hw.
  apply existsb_exists. exists (n, (l, Changes cs)). split.
  - apply list_elem_of_In, elem_of_ordered. unfold tx_changes. by rewrite lookup_fmap, E.
  - cbn. unfold has_writes. by rewrite is_empty_false.
Qed.

(** What is removed has been there: a new map has no removals. *)
Lemma no_removals_in_new_map s t n k :
  tx_ok s t -> conflict_free s (tx_changes t) (created_maps t) None false = true -> maps s !! n = None ->
  tx_writes t n !! k <> Some None.
Proof.
  intros Ht Hfree Hn. unfold tx_writes. destruct (all_changes t !! n) as [[l cs]|] eqn:E; cbn; [|by rewrite lookup_empty].
  intros Hk. destruct (to_changes _ _ Ht n l cs E) as (o & Ho & _ & _ & Hm).
  assert (cs_writes cs <> ∅) as Hw by (intros Hw; by rewrite Hw, lookup_empty in Hk).
  destruct (written_map s t Ht n l cs o Hfree E Ho Hw) as [[Hcr _]|[_ [cv Hm']]]; [|congruence].
  rewrite Hcr in Hm. destruct Hm as (_ & _ & Hst & Hrem). destruct (Hrem k Hk) as [x Hx]. by rewrite Hst, lookup_empty in Hx.
Qed.

Lemma execution_apply_spec B s sp t claims evidence flags hdr cipher strict term0 history_verify :
  let id := MkTxID (commit_view t) (sp_version sp + 1) in
  let public := public_head (tx_version id) claims evidence ++ maps_bytes (written_in PUBLIC (ordered (all_changes t))) in
  let private := maps_bytes (written_in PRIVATE (ordered (all_changes t))) in
  let data := entry_bytes flags hdr public cipher in
  0 <= B -> store_ok B s sp -> sp_version sp + 1 < 2 ^ 63 ->
  enc_encrypt e private public id WriteSetWithCommitEvidenceAndClaims false = Some (hdr, cipher) ->
  0 <= commit_view t < 2 ^ 31 -> length claims = 32%nat -> length evidence = 32%nat -> 0 <= flags < 256 ->
  Z.of_nat (length data) < 2 ^ 48 ->
  (forall n, maps s !! n = None -> forall k, tx_writes t n !! k <> Some None) ->
  tx_writes t SIGNATURES = ∅ -> (exists n, tx_writes t n <> ∅) ->
  exists s' x, execution_apply (returning map_hook) services (Some e) history_verify strict false data false (Some id) term0 s = (s', Ret x) /\
    ex_result x <> APPLY_FAIL /\ store_ok B s' (spec_step sp (Committed (sp_version sp + 1) (tx_writes t))) /\
    forall n, is_Some (maps s' !! n) <-> is_Some (maps s !! n) \/ tx_writes t n <> ∅.
Proof.
  intros id public private data HB Hs Hmax He Hterm Hcl Hev Hf Hlen Hput Hsig [n0 Hn0].
  destruct (fill_maps_spec B s sp t claims evidence flags hdr cipher strict term0 true)
    as (s2 & t2 & Hfill & Hrep & Hm2 & Hout & Hw); try done.
  destruct (replica_commit B s2 sp t2 (commit_view t) Hrep Hmax) as (s3 & hooks & Hcom & Hct).
  { apply (any_writes_of t2 n0). by rewrite Hw. }
  destruct Hrep as (Hs2 & Ht2 & _).
  assert (store_ok B s3 (spec_step sp (Committed (sp_version sp + 1) (tx_writes t)))) as Hs3.
  { apply (store_ok_writes B s3 sp _ (tx_writes t2) _ Hw). apply (commit_store_ok B s2 sp t2 Hs2 Ht2); [lia|done]. }
  assert (forall n, is_Some (maps s3 !! n) <-> is_Some (maps s !! n) \/ tx_writes t n <> ∅) as Hnames.
  { intros n. rewrite (commit_names B s2 sp t2 Hs2 Ht2 s3 _ Hct n), Hm2, Hw. done. }
  assert (tx_changes t2 !! SIGNATURES = None) as Hnosig by (unfold tx_changes; by rewrite lookup_fmap, Hout).
  unfold execution_apply. unfold mbind at 1, ST_bind at 1.
  subst data public private id. rewrite Hfill.
  cbn [from_option fi_view fi_version tx_term tx_version fi_changes fi_new_maps fi_claims_digest fi_commit_evidence_digest].
  rewrite !Z.eqb_refl. cbn [negb orb]. unfold mbind at 1, ST_bind at 1. rewrite Hcom. cbn [negb].
  rewrite Hnosig. rewrite (bool_decide_false (is_Some None)) by (by intros []). cbn [andb].
  unfold mbind at 1, ST_bind at 1, get at 1. cbn [negb].
  match goal with |- context [if has_history services then record_call ?c else skip] =>
    destruct (record_if (has_history services) c s3) as [cs Hcs] end.
  unfold mbind at 1, ST_bind at 1. rewrite Hcs. eexists _, _. split; [reflexivity|]. cbn [ex_result].
  split; [by repeat destruct (bool_decide _)|]. split; [|done]. by apply (store_ok_same B s3).
Qed.
End replica.

(** C31: Replication.  A leader and a replica have the same history and the same maps.  A transaction commits on the leader and is
    serialised; the replica applies the entry, with the transaction ID it expects.  The replica accepts
    it, and both have again the same history, which is the one before with all writes of the transaction at the next version,
    and the same maps.  The hooks of maps are assumed to return, and the encryptor to decrypt what it has encrypted; transactions with a signature are
    not covered, since their result depends on the verification. *)
Theorem replica_follows {P : Type} {SO : StateOrder} (map_hook : Name -> Z -> Write -> option Hook)
    (services : @Services P) (e : Encryptor) {EL : EncryptorLaws e} (history_verify : Store P -> Z -> bool * Z)
    (evidence_of : TxID -> outcome bytes) (Bl Bf : Z) (sl sl1 sf : Store P) (sp : Spec) (t : Tx) (w : World P)
    (claims data evidence : bytes) (hooks : list Hook) (strict : bool) (term0 : Z) :
  let id := MkTxID (commit_view t) (sp_version sp + 1) in
  let sp' := spec_step sp (Committed (sp_version sp + 1) (tx_writes t)) in
  store_ok Bl sl sp -> tx_ok sl t -> replicated sl -> store_ok Bf sf sp -> 0 <= Bf ->
  (forall n, is_Some (maps sl !! n) <-> is_Some (maps sf !! n)) ->
  sp_version sp + 1 < 2 ^ 63 -> 0 <= commit_view t < 2 ^ 31 -> 0 <= entry_flags t < 256 ->
  length claims = 32%nat -> length evidence = 32%nat -> tx_writes t SIGNATURES = ∅ ->
  apply_changes (returning map_hook) (tx_changes t) next_version (created_maps t) None false sl =
    (sl1, Ret (Some (sp_version sp + 1), hooks)) ->
  tx_serialise (Some e) evidence_of (Some claims)
    (MkWorld sl1 (t <| success := true |> <| committed := true |> <| tx_commit_version := sp_version sp + 1 |>)) =
    (w, Ret (data, evidence)) ->
  Z.of_nat (length data) < 2 ^ 48 ->
  exists sf' x,
    execution_apply (returning map_hook) services (Some e) history_verify strict false data false (Some id) term0 sf = (sf', Ret x) /\
    ex_result x <> APPLY_FAIL /\ store_ok Bl sl1 sp' /\ store_ok Bf sf' sp' /\
    (forall n, is_Some (maps sl1 !! n) <-> is_Some (maps sf' !! n)).
Proof.
  intros id sp' Hl Ht Hrep Hf HB Hnames Hmax Hview Hfl Hcl Hev Hsig Happly Hser Hlen. pose proof (so_range _ _ _ Hl) as Hrange.
  destruct (apply_cases map_hook Bl sl sp t Hl Ht Hmax) as (s1 & c & hooks' & Happly' & Hcase).
  rewrite Happly in Happly'. injection Happly' as <- <- _.
  destruct Hcase as [[_ [?|E]]|(_ & _ & Hct)]; [done|unfold NoVersion in E; injection E; lia|].
  assert (replicated sl1) as Hrep1.
  { intros l o' Ho'. assert (is_Some (heap sl !! l)) as [o Ho].
    { apply lookup_lt_is_Some. apply lookup_lt_Some in Ho'. by rewrite (ct_length _ _ _ _ Hct) in Ho'. }
    destruct (ct_heap _ _ _ _ Hct l o Ho) as (o2 & Ho2 & Hn & _ & _ & Hd & Hr). rewrite Ho' in Ho2. injection Ho2 as <-.
    rewrite Hn, Hd, Hr. by apply (Hrep l o). }
  assert (exists n, tx_writes t n <> ∅) as [n0 Hn0].
  { destruct (existsb (fun c => has_writes (snd (snd c))) (ordered (all_changes t))) eqn:Hany.
    - apply existsb_exists in Hany as ([n [l cs]] & Hin%list_elem_of_In%elem_of_ordered & Hw). exists n. unfold tx_writes. rewrite Hin. cbn.
      intros E. cbn in Hw. unfold has_writes in Hw. by rewrite is_empty_true in Hw.
    - exfalso. unfold tx_serialise in Hser. unfold mbind at 1, ST_bind at 1, get at 1 in Hser. cbn in Hser. rewrite Hany in Hser.
      cbn in Hser. injection Hser as _ _ <-. done. }
  apply (tx_serialise_inv e) in Hser as (flags & hdr & cipher & Hflags & He & ->); [|done|..|done].
  - destruct (execution_apply_spec map_hook services e Bf sf sp t claims evidence flags hdr cipher strict term0 history_verify)
      as (sf' & x & Hx & Hres & Hok & Hn'); try done.
    { intros n Hn k. apply (no_removals_in_new_map sl t n k Ht (ct_free _ _ _ _ Hct)).
      destruct (maps sl !! n) eqn:E; [|done]. destruct (proj1 (Hnames n) ltac:(by eexists)). congruence. }
    { by exists n0. }
    exists sf', x. split_and!; [done|done|apply (commit_store_ok Bl sl sp t Hl Ht); [lia|done]|done|].
    intros n. rewrite Hn', (commit_names Bl sl sp t Hl Ht sl1 _ Hct n). by rewrite Hnames.
  - intros n l cs Hn. cbn in Hn. destruct (to_changes _ _ Ht n l cs Hn) as (o & Ho & Hname & _).
    destruct (ct_heap _ _ _ _ Hct l o Ho) as (o' & Ho' & Hn' & _). exists o'. split; [done|congruence].
  - cbn. unfold tx_writes in Hn0. destruct (all_changes t !! n0) as [[l cs]|] eqn:E; [|done]. cbn in Hn0.
    apply existsb_exists. exists (n0, (l, cs)). split; [by apply list_elem_of_In, elem_of_ordered|]. cbn. unfold has_writes. by rewrite is_empty_false.
Qed.

(** A toy cipher: the text is reversed, and the header is the term. *)
Definition reversing : Encryptor :=
  MkEncryptor 1 (fun plain _ id _ _ => Some ([tx_term id], rev plain)) (fun cipher _ _ _ _ => Some (rev cipher)) (fun hdr => hd 0 hdr).

#[export] Instance reversing_laws : EncryptorLaws reversing.
Proof.
  split; cbn; intros plain ad id t hint hdr cipher [= <- <-]; [|by rewrite rev_involutive|done].
  by rewrite length_rev.
Qed.

(** A transaction that writes to a public and to a private map, both of which it creates. *)
Definition replica_world : World PendingTxInfo :=
  fst (with_handle (name_of "b") (handle_op (HPut [2] [20]))
    (fst (with_handle (name_of "public:a") (handle_op (HPut [1] [10])) (MkWorld (new_store ALL ∅) create_tx)))).

Definition leader_store : Store PendingTxInfo :=
  fst (apply_changes (returning (fun _ _ _ => None)) (tx_changes (w_tx replica_world)) next_version (created_maps (w_tx replica_world)) None false
    (w_store replica_world)).

Definition leader_entry : outcome (bytes * bytes) :=
  snd (tx_serialise (Some reversing) (fun _ => Ret (replicate 32 7)) (Some (replicate 32 9))
    (MkWorld leader_store ((w_tx replica_world) <| success := true |> <| committed := true |> <| tx_commit_version := 1 |>))).

Definition replica_store (data : bytes) : Store PendingTxInfo :=
  fst (execution_apply (returning (fun _ _ _ => None)) witness_services (Some reversing) (fun _ v => (true, v)) true false data false
    (Some (MkTxID 0 1)) 0 (new_store ALL ∅)).

Lemma use_store_ok {P : Type} B (w : World P) sp name op :
  store_ok B (w_store w) sp -> tx_ok (w_store w) (w_tx w) -> 0 <= B ->
  let w' := fst (with_handle name (handle_op op) w) in store_ok B (w_store w') sp /\ tx_ok (w_store w') (w_tx w').
Proof.
  destruct w as [s t]. intros Hs Ht HB w'. cbn [w_store w_tx] in Hs, Ht.
  destruct (use_ok B s sp t name op w' Hs Ht HB eq_refl) as [Htx Hcase].
  split; [|done]. destruct Hcase as [[-> _]|[-> _]]; [done|]. apply store_ok_extend; [done|]. by apply new_object_ok.
Qed.

Definition entry_data : bytes := match leader_entry with Ret (data, _) => data | Throw _ => [] end.

Lemma replica_world_ok :
  store_ok 0 (w_store replica_world) initial_spec /\ tx_ok (w_store replica_world) (w_tx replica_world) /\
  replicated (w_store replica_world).
Proof.
  pose proof (initial_sys_ok (P:=PendingTxInfo) ALL ∅) as [H0 _ _]. cbn [sys_store] in H0.
  destruct (use_store_ok 0 (MkWorld (new_store ALL ∅) create_tx) initial_spec (name_of "public:a") (HPut [1] [10]) H0) as [Hs1 Ht1];
    [by split|lia|].
  destruct (use_store_ok 0 _ initial_spec (name_of "b") (HPut [2] [20]) Hs1 Ht1 ltac:(lia)) as [Hs Ht]. fold replica_world in Hs, Ht.
  split; [exact Hs|]. split; [exact Ht|].
  intros l o Ho. destruct l as [|[|]]; vm_compute in Ho; [injection Ho as <-; by vm_compute..|done].
Qed.

Lemma replica_follows_witness :
  leader_entry = Ret (entry_data, replicate 32 7) /\
  (exists sp', store_ok 0 leader_store sp' /\ store_ok 0 (replica_store entry_data) sp' /\ sp_version sp' = 1 /\
    sp_contents sp' 1 (name_of "b") [2] = Some [20]) /\
  snd (with_handle (name_of "b") (handle_get [2]) (MkWorld (replica_store entry_data) create_tx)) = Ret (Some [20]).
Proof.
  split; [by vm_compute|]. split; [|by vm_compute]. destruct replica_world_ok as (Hs & Ht & Hrep).
  destruct (replica_follows (fun _ _ _ => None) witness_services reversing (fun _ v => (true, v)) (fun _ => Ret (replicate 32 7))
    0 0 (w_store replica_world) leader_store (new_store ALL ∅) initial_spec (w_tx replica_world)
    (MkWorld leader_store ((w_tx replica_world) <| success := true |> <| committed := true |> <| tx_commit_version := 1 |>))
    (replicate 32 9) entry_data (replicate 32 7) [] true 0 Hs Ht Hrep) as (sf' & x & Hx & _ & Hl & Hf & _).
  1: exact (sy_store _ _ _ (initial_sys_ok ALL ∅)).
  1: done.
  1: intros n; split; intros [? E]; vm_compute in E; by destruct n.
  1-5: done.
  1-4: by vm_compute.
  exists (spec_step initial_spec (Committed 1 (tx_writes (w_tx replica_world)))). split; [exact Hl|].
  split; [|split; vm_compute; reflexivity].
  assert (replica_store entry_data = sf') as ->; [|exact Hf]. exact (f_equal fst Hx).
Defined.
