(* ===== verification/ChampMap.v ===== *)
(** The persistent hash map behind a state of the key-value store:
    src/ds/champ_map.h, with the sizes of src/ds/map_serializers.h.

    A [SubNodes] is a vector of untyped pointers, first the entries whose
    positions are set in [data_map], then the nodes whose positions are set in
    [node_map].  [node_as] reinterprets a pointer, so a pointer of another
    type, or an index out of range, is undefined behaviour: the operations
    return [None] there.  The recursion runs over the levels below
    a node: a node with [r] levels below it is at [depth] [5 - r], and the nodes under
    the last level are [Collisions]. *)

From S2P Require Import Prelude.

Definition index_mask_bits : Z := 5.
Definition index_mask : Z := 2 ^ index_mask_bits - 1.
Definition hash_bits : Z := 32.
Definition collision_node_bits : Z := hash_bits `mod` index_mask_bits.
Definition collision_depth : Z := hash_bits / index_mask_bits.
Definition collision_bins : Z := 2 ^ collision_node_bits.

Definition mask (hash depth : Z) : Z := Z.land (Z.shiftr hash (depth * index_mask_bits)) index_mask.

(** ** [Bitmap]: 32 bits *)

Definition check (bits idx : Z) : bool := negb (Z.land bits (Z.shiftl 1 idx) =? 0).
Definition set_bit (bits idx : Z) : Z := Z.lor bits (Z.shiftl 1 idx).
Definition clear_bit (bits idx : Z) : Z := Z.ldiff bits (Z.shiftl 1 idx).

(** [__builtin_popcount]. *)
Definition pop (bits : Z) : Z := Z.of_nat (length (filter (fun i => Z.testbit bits i = true) (seqZ 0 32))).

(** ** Sizes *)

Definition get_padding (size : Z) : Z :=
  let padding := size `mod` 8 in
  if padding =? 0 then padding else 8 - padding.

Definition with_padding (size : Z) : Z := let t_size := u32 size in u32 (t_size + get_padding t_size).

Section champ.
Context {K V : Type} `{EqDecision K}.
(** [H()] and [map::get_size] at the two types. *)
Context (H : K -> Z) (get_size_k : K -> Z) (get_size_v : V -> Z).

Definition hash_of (k : K) : Z := u32 (H k).

Record Entry := MkEntry { key : K; value : V }.

Definition entry_getp (e : Entry) (k : K) : option V :=
  if decide (k = key e) then Some (value e) else None.

(** [get_size_with_padding] of the key and of the value. *)
Definition padded_size (e : Entry) : Z :=
  u64 (with_padding (get_size_k (key e)) + with_padding (get_size_v (value e))).

Definition plain_size (e : Entry) : Z := u64 (get_size_k (key e) + get_size_v (value e)).

(** ** Collisions *)

Record Collisions := MkCollisions { bins : list (list Entry) }.

Definition empty_collisions : Collisions := MkCollisions (replicate (Z.to_nat collision_bins) []).

Fixpoint bin_getp (bin : list Entry) (k : K) : option V :=
  match bin with
  | [] => None
  | e :: bin => if decide (k = key e) then Some (value e) else bin_getp bin k
  end.

Definition collisions_getp (c : Collisions) (hash : Z) (k : K) : option (option V) :=
  bin ← bins c !! Z.to_nat (mask hash collision_depth);
  Some (bin_getp bin k).

(** The size it returns is that of the new entry. *)
Fixpoint bin_put (bin : list Entry) (k : K) (v : V) : list Entry * Z :=
  match bin with
  | [] => ([MkEntry k v], 0)
  | e :: bin =>
      if decide (k = key e) then (MkEntry k v :: bin, plain_size (MkEntry k v))
      else let '(bin', r) := bin_put bin k v in (e :: bin', r)
  end.

Definition collisions_put_mut (c : Collisions) (hash : Z) (k : K) (v : V) : option (Collisions * Z) :=
  let idx := Z.to_nat (mask hash collision_depth) in
  bin ← bins c !! idx;
  let '(bin', r) := bin_put bin k v in
  Some (MkCollisions (<[idx := bin']> (bins c)), r).

Fixpoint bin_remove (bin : list Entry) (k : K) : list Entry * Z :=
  match bin with
  | [] => ([], 0)
  | e :: bin =>
      if decide (k = key e) then (bin, plain_size e)
      else let '(bin', r) := bin_remove bin k in (e :: bin', r)
  end.

Definition collisions_remove_mut (c : Collisions) (hash : Z) (k : K) : option (Collisions * Z) :=
  let idx := Z.to_nat (mask hash collision_depth) in
  bin ← bins c !! idx;
  let '(bin', r) := bin_remove bin k in
  Some (MkCollisions (<[idx := bin']> (bins c)), r).

(** [sub_node.bins[idx].push_back(entry)]. *)
Definition push_bin (c : Collisions) (idx : Z) (e : Entry) : option Collisions :=
  bin ← bins c !! Z.to_nat idx;
  Some (MkCollisions (<[Z.to_nat idx := bin ++ [e]]> (bins c))).

(** ** [SubNodes] *)

Inductive Node :=
| NEntry (e : Entry)
| NCollisions (c : Collisions)
| NSubNodes (s : SubNodes)
with SubNodes := MkSubNodes (nodes : list Node) (node_map data_map : Z).

Definition nodes (s : SubNodes) : list Node := let 'MkSubNodes ns _ _ := s in ns.
Definition node_map (s : SubNodes) : Z := let 'MkSubNodes _ nm _ := s in nm.
Definition data_map (s : SubNodes) : Z := let 'MkSubNodes _ _ dm := s in dm.

Definition empty_node : SubNodes := MkSubNodes [] 0 0.

Definition compressed_idx (nm dm idx : Z) : option Z :=
  if negb (check nm idx) && negb (check dm idx) then None
  else
    let m := Z.land (Z.lnot (Z.shiftl (2 ^ 32 - 1) idx)) (2 ^ 32 - 1) in
    if check dm idx then Some (pop (Z.land dm m)) else Some (pop dm + pop (Z.land nm m)).

Definition as_entry (s : SubNodes) (c_idx : Z) : option Entry :=
  match nodes s !! Z.to_nat c_idx with Some (NEntry e) => Some e | _ => None end.
Definition as_collisions (s : SubNodes) (c_idx : Z) : option Collisions :=
  match nodes s !! Z.to_nat c_idx with Some (NCollisions c) => Some c | _ => None end.
Definition as_sub_nodes (s : SubNodes) (c_idx : Z) : option SubNodes :=
  match nodes s !! Z.to_nat c_idx with Some (NSubNodes s) => Some s | _ => None end.

Definition depth_of (r : nat) : Z := collision_depth - 1 - Z.of_nat r.

Fixpoint getp (r : nat) (hash : Z) (k : K) (s : SubNodes) : option (option V) :=
  let idx := mask hash (depth_of r) in
  match compressed_idx (node_map s) (data_map s) idx with
  | None => Some None
  | Some c_idx =>
      if check (data_map s) idx then e ← as_entry s c_idx; Some (entry_getp e k)
      else
        match r with
        | O => c ← as_collisions s c_idx; collisions_getp c hash k
        | S r => sn ← as_sub_nodes s c_idx; getp r hash k sn
        end
  end.

(** [nodes.insert(nodes.begin() + c_idx, n)], undefined behind the end, and [nodes.erase(nodes.begin() + c_idx)], at the index of
    a node that has been read. *)
Definition insert_at (c_idx : Z) (n : Node) (ns : list Node) : option (list Node) :=
  if (length ns <? Z.to_nat c_idx)%nat then None else Some (take (Z.to_nat c_idx) ns ++ n :: drop (Z.to_nat c_idx) ns).
Definition erase_at (c_idx : Z) (ns : list Node) : list Node :=
  take (Z.to_nat c_idx) ns ++ drop (S (Z.to_nat c_idx)) ns.

(** The entry at [c_idx] becomes the node [n]. *)
Definition replace_entry (s : SubNodes) (idx c_idx : Z) (n : Node) : option SubNodes :=
  let ns := erase_at c_idx (nodes s) in
  let dm := clear_bit (data_map s) idx in
  let nm := set_bit (node_map s) idx in
  c_idx' ← compressed_idx nm dm idx;
  ns ← insert_at c_idx' n ns;
  Some (MkSubNodes ns nm dm).

Definition set_node (s : SubNodes) (c_idx : Z) (n : Node) : SubNodes :=
  MkSubNodes (<[Z.to_nat c_idx := n]> (nodes s)) (node_map s) (data_map s).

(** Returns the size of the entry it replaces, or 0. *)
Fixpoint put_mut (r : nat) (hash : Z) (k : K) (v : V) (s : SubNodes) : option (SubNodes * Z) :=
  let idx := mask hash (depth_of r) in
  match compressed_idx (node_map s) (data_map s) idx with
  | None =>
      let dm := set_bit (data_map s) idx in
      c_idx ← compressed_idx (node_map s) dm idx;
      ns ← insert_at c_idx (NEntry (MkEntry k v)) (nodes s);
      Some (MkSubNodes ns (node_map s) dm, 0)
  | Some c_idx =>
      if check (node_map s) idx then
        match r with
        | S r =>
            sn ← as_sub_nodes s c_idx;
            '(sn', insert) ← put_mut r hash k v sn;
            Some (set_node s c_idx (NSubNodes sn'), insert)
        | O =>
            c ← as_collisions s c_idx;
            '(c', insert) ← collisions_put_mut c hash k v;
            Some (set_node s c_idx (NCollisions c'), insert)
        end
      else
        entry0 ← as_entry s c_idx;
        if decide (k = key entry0) then
          Some (set_node s c_idx (NEntry (MkEntry k v)), padded_size entry0)
        else
          match r with
          | S r =>
              let idx0 := mask (hash_of (key entry0)) (depth_of r) in
              '(sub_node, _) ← put_mut r hash k v (MkSubNodes [NEntry entry0] 0 (set_bit 0 idx0));
              s' ← replace_entry s idx c_idx (NSubNodes sub_node);
              Some (s', 0)
          | O =>
              c ← push_bin empty_collisions (mask (hash_of (key entry0)) collision_depth) entry0;
              c ← push_bin c (mask hash collision_depth) (MkEntry k v);
              s' ← replace_entry s idx c_idx (NCollisions c);
              Some (s', 0)
          end
  end.

(** Returns the size of the entry it removes, or 0. *)
Fixpoint remove_mut (r : nat) (hash : Z) (k : K) (s : SubNodes) : option (SubNodes * Z) :=
  let idx := mask hash (depth_of r) in
  match compressed_idx (node_map s) (data_map s) idx with
  | None => Some (s, 0)
  | Some c_idx =>
      if check (data_map s) idx then
        e ← as_entry s c_idx;
        if decide (key e = k) then
          Some (MkSubNodes (erase_at c_idx (nodes s)) (node_map s) (clear_bit (data_map s) idx),
                padded_size e)
        else Some (s, 0)
      else
        match r with
        | O =>
            c ← as_collisions s c_idx;
            '(c', diff) ← collisions_remove_mut c hash k;
            Some (set_node s c_idx (NCollisions c'), diff)
        | S r =>
            sn ← as_sub_nodes s c_idx;
            '(sn', diff) ← remove_mut r hash k sn;
            Some (set_node s c_idx (NSubNodes sn'), diff)
        end
  end.

(** A loop over pointers with a visitor that may stop it: the visitor's state
    and whether the loop ran to its end. *)
Fixpoint visit_nodes {A} (g : A -> Node -> option (A * bool)) (l : list Node) (a : A) : option (A * bool) :=
  match l with
  | [] => Some (a, true)
  | n :: l => '(a, go) ← g a n; if (go : bool) then visit_nodes g l a else Some (a, false)
  end.

Fixpoint visit_entries {A} (f : A -> Entry -> A * bool) (l : list Entry) (a : A) : A * bool :=
  match l with
  | [] => (a, true)
  | e :: l => let '(a, go) := f a e in if go then visit_entries f l a else (a, false)
  end.

Fixpoint visit_bins {A} (f : A -> Entry -> A * bool) (l : list (list Entry)) (a : A) : A * bool :=
  match l with
  | [] => (a, true)
  | bin :: l => let '(a, go) := visit_entries f bin a in if go then visit_bins f l a else (a, false)
  end.

Fixpoint node_foreach {A} (r : nat) (f : A -> Entry -> A * bool) (a : A) (s : SubNodes) : option (A * bool) :=
  let entries := Z.to_nat (pop (data_map s)) in
  '(a, go) ← visit_nodes (fun a n => match n with NEntry e => Some (f a e) | _ => None end)
    (take entries (nodes s)) a;
  if (go : bool) then
    visit_nodes (fun a n =>
      match r, n with
      | O, NCollisions c => Some (visit_bins f (bins c) a)
      | S r, NSubNodes sn => node_foreach r f a sn
      | _, _ => None
      end) (drop entries (nodes s)) a
  else Some (a, false).

(** ** [Map] *)

Record Champ := MkChamp { root : SubNodes; map_size : Z; serialized_size : Z }.

Definition levels : nat := Z.to_nat (collision_depth - 1).

Definition champ_empty : Champ := MkChamp empty_node 0 0.

Definition champ_get (m : Champ) (k : K) : option (option V) := getp levels (hash_of k) k (root m).

Definition champ_put (m : Champ) (k : K) (v : V) : option Champ :=
  '(root', old) ← put_mut levels (hash_of k) k v (root m);
  let size' := if old =? 0 then u64 (map_size m + 1) else map_size m in
  let size_change := u64 (padded_size (MkEntry k v) - old) in
  Some (MkChamp root' size' (u64 (size_change + serialized_size m))).

Definition champ_remove (m : Champ) (k : K) : option Champ :=
  '(root', old) ← remove_mut levels (hash_of k) k (root m);
  let size' := if 0 <? old then u64 (map_size m - 1) else map_size m in
  Some (MkChamp root' size' (u64 (serialized_size m - old))).

Definition champ_foreach {A} (m : Champ) (f : A -> Entry -> A * bool) (a : A) : option (A * bool) :=
  node_foreach levels f a (root m).

End champ.
