(* ===== verification/ChampVector.v ===== *)
(** The compressed vector of a hash-map node: two bitmaps and a dense vector
    represent a partial array of 32 slots. *)

From S2P Require Import Prelude ChampMap.

(** ** Bits *)

Lemma check_testbit z i : 0 <= i -> check z i = Z.testbit z i.
Proof.
  intros Hi. unfold check. rewrite Z.shiftl_1_l. destruct (Z.testbit z i) eqn:E.
  - destruct (Z.eqb_spec (Z.land z (2 ^ i)) 0) as [H|]; [|done].
    apply (f_equal (fun x => Z.testbit x i)) in H.
    rewrite Z.land_spec, E, Z.pow2_bits_true, Z.bits_0 in H by done. done.
  - destruct (Z.eqb_spec (Z.land z (2 ^ i)) 0) as [|[]]; [done|].
    apply Z.bits_inj'. intros j Hj. rewrite Z.land_spec, Z.pow2_bits_eqb, Z.bits_0 by done.
    destruct (Z.eqb_spec i j) as [<-|]; [by rewrite E|by rewrite andb_false_r].
Qed.

Lemma set_bit_testbit z i j :
  0 <= i -> 0 <= j -> Z.testbit (set_bit z i) j = (i =? j) || Z.testbit z j.
Proof.
  intros Hi Hj. unfold set_bit. rewrite Z.shiftl_1_l, Z.lor_spec, Z.pow2_bits_eqb by done.
  by rewrite orb_comm.
Qed.

Lemma clear_bit_testbit z i j :
  0 <= i -> 0 <= j -> Z.testbit (clear_bit z i) j = negb (i =? j) && Z.testbit z j.
Proof.
  intros Hi Hj. unfold clear_bit. rewrite Z.shiftl_1_l, Z.ldiff_spec, Z.pow2_bits_eqb by done.
  by rewrite andb_comm.
Qed.

Lemma below_mask_testbit i j :
  0 <= i -> 0 <= j < 32 ->
  Z.testbit (Z.land (Z.lnot (Z.shiftl (2 ^ 32 - 1) i)) (2 ^ 32 - 1)) j = (j <? i).
Proof.
  intros Hi Hj. change (2 ^ 32 - 1) with (Z.ones 32).
  rewrite Z.land_spec, Z.lnot_spec, Z.shiftl_spec, Z.testbit_ones by lia.
  rewrite Z.testbit_ones_nonneg by lia.
  destruct (Z.leb_spec 0 j), (Z.ltb_spec j 32), (Z.ltb_spec j i); lia.
Qed.

Lemma seqZ_split i : 0 <= i < 32 -> seqZ 0 32 = seqZ 0 i ++ i :: seqZ (i + 1) (31 - i).
Proof.
  intros Hi. replace 32 with (i + (32 - i)) by lia. rewrite seqZ_app by lia. f_equal.
  rewrite seqZ_cons by lia. f_equal. f_equal; lia.
Qed.

Lemma length_filter_omap {A} (z : Z) (g : Z -> option A) (l : list Z) :
  Forall (fun j => Z.testbit z j = bool_decide (is_Some (g j))) l ->
  length (filter (fun j => Z.testbit z j = true) l) = length (omap g l).
Proof.
  induction 1 as [|j l Hj _ IH]; [done|]. cbn [omap list_omap]. destruct (g j) as [x|].
  - rewrite filter_cons_True by (by rewrite Hj). cbn [length]. by rewrite IH.
  - rewrite filter_cons_False by (by rewrite Hj). done.
Qed.

(** The number of set bits, if these are the positions below [i] where [g] is
    defined. *)
Lemma pop_omap {A} (z i : Z) (g : Z -> option A) :
  0 <= i <= 32 -> (forall j, 0 <= j < i -> Z.testbit z j = bool_decide (is_Some (g j))) ->
  (forall j, i <= j < 32 -> Z.testbit z j = false) ->
  pop z = Z.of_nat (length (omap g (seqZ 0 i))).
Proof.
  intros Hi Hlow Hhigh. unfold pop. f_equal.
  replace (seqZ 0 32) with (seqZ 0 i ++ seqZ i (32 - i)).
  - rewrite filter_app, length_app, (filter_none _ (seqZ i (32 - i))).
    + rewrite Nat.add_0_r. apply length_filter_omap, Forall_forall. intros j Hj%elem_of_seqZ.
      apply Hlow. lia.
    + apply Forall_forall. intros j Hj%elem_of_seqZ. rewrite Hhigh by lia. done.
  - pose proof (seqZ_app 0 i (32 - i) ltac:(lia) ltac:(lia)) as E. rewrite Z.add_0_l in E.
    rewrite <- E. f_equal. lia.
Qed.

Lemma omap_range_ext {A} (g g' : Z -> option A) a n :
  (forall j, a <= j < a + n -> g j = g' j) -> omap g (seqZ a n) = omap g' (seqZ a n).
Proof.
  intros H. assert (Forall (fun j => g j = g' j) (seqZ a n)) as Hall.
  { apply Forall_forall. intros j Hj%elem_of_seqZ. by apply H. }
  induction Hall as [|j l Hj _ IH]; [done|]. cbn. by rewrite Hj, IH.
Qed.

Definition slot_list {A} (o : option A) : list A := match o with Some x => [x] | None => [] end.

Lemma omap_split {A} (g : Z -> option A) i :
  0 <= i < 32 ->
  omap g (seqZ 0 32) = omap g (seqZ 0 i) ++ slot_list (g i) ++ omap g (seqZ (i + 1) (31 - i)).
Proof.
  intros Hi. rewrite (seqZ_split i), omap_app by done. cbn. by destruct (g i).
Qed.

(** ** Slots *)

Section vector.
Context {K V : Type}.
Implicit Types (f : Z -> option (@Node K V)) (n : @Node K V) (s : @SubNodes K V).

Definition is_data n : bool := match n with NEntry _ => true | _ => false end.

Definition data_at f (i : Z) : option Node :=
  match f i with Some n => if is_data n then Some n else None | None => None end.
Definition sub_at f (i : Z) : option Node :=
  match f i with Some n => if is_data n then None else Some n | None => None end.

(** The bitmaps tell which slots hold entries and which hold nodes. *)
Definition maps_ok f (nm dm : Z) : Prop :=
  forall i, 0 <= i < 32 ->
    Z.testbit dm i = bool_decide (is_Some (data_at f i)) /\
    Z.testbit nm i = bool_decide (is_Some (sub_at f i)).

Definition rep f s : Prop :=
  maps_ok f (node_map s) (data_map s) /\
  nodes s = omap (data_at f) (seqZ 0 32) ++ omap (sub_at f) (seqZ 0 32).

Definition upd f (i : Z) (o : option Node) (j : Z) : option Node := if decide (j = i) then o else f j.

Definition data_rank f (i : Z) : Z := Z.of_nat (length (omap (data_at f) (seqZ 0 i))).
Definition sub_rank f (i : Z) : Z := Z.of_nat (length (omap (sub_at f) (seqZ 0 i))).

Lemma maps_check f nm dm i :
  maps_ok f nm dm -> 0 <= i < 32 ->
  check dm i = bool_decide (is_Some (data_at f i)) /\ check nm i = bool_decide (is_Some (sub_at f i)).
Proof. intros H Hi. rewrite !check_testbit by lia. by apply H. Qed.

Lemma pop_below {A} (g : Z -> option A) z i :
  0 <= i <= 32 -> (forall j, 0 <= j < 32 -> Z.testbit z j = bool_decide (is_Some (g j))) ->
  pop (Z.land z (Z.land (Z.lnot (Z.shiftl (2 ^ 32 - 1) i)) (2 ^ 32 - 1))) =
  Z.of_nat (length (omap g (seqZ 0 i))).
Proof.
  intros Hi H. apply pop_omap; [done|..]; intros j Hj; rewrite Z.land_spec, below_mask_testbit, H by lia.
  - destruct (Z.ltb_spec j i); [|lia]. by rewrite andb_true_r.
  - destruct (Z.ltb_spec j i); [lia|]. by rewrite andb_false_r.
Qed.

Lemma data_at_data f i n : f i = Some n -> is_data n = true -> data_at f i = Some n.
Proof. unfold data_at. by intros -> ->. Qed.
Lemma data_at_sub f i n : f i = Some n -> is_data n = false -> data_at f i = None.
Proof. unfold data_at. by intros -> ->. Qed.
Lemma sub_at_data f i n : f i = Some n -> is_data n = true -> sub_at f i = None.
Proof. unfold sub_at. by intros -> ->. Qed.
Lemma sub_at_sub f i n : f i = Some n -> is_data n = false -> sub_at f i = Some n.
Proof. unfold sub_at. by intros -> ->. Qed.
Lemma data_at_none f i : f i = None -> data_at f i = None.
Proof. unfold data_at. by intros ->. Qed.
Lemma sub_at_none f i : f i = None -> sub_at f i = None.
Proof. unfold sub_at. by intros ->. Qed.

Lemma compressed_none f nm dm i :
  maps_ok f nm dm -> 0 <= i < 32 -> f i = None -> compressed_idx nm dm i = None.
Proof.
  intros H Hi Hf. destruct (maps_check _ _ _ _ H Hi) as [Hd Hs]. unfold compressed_idx.
  rewrite Hd, Hs. unfold data_at, sub_at. by rewrite Hf.
Qed.

Lemma compressed_data f nm dm i n :
  maps_ok f nm dm -> 0 <= i < 32 -> f i = Some n -> is_data n = true ->
  compressed_idx nm dm i = Some (data_rank f i).
Proof.
  intros H Hi Hf Hn. destruct (maps_check _ _ _ _ H Hi) as [Hd _]. unfold compressed_idx.
  rewrite (pop_below (data_at f)), Hd; [|lia|intros j Hj; apply (H j Hj)].
  rewrite (data_at_data f i n), bool_decide_true by done. cbn [negb]. by rewrite andb_false_r.
Qed.

Lemma compressed_sub f nm dm i n :
  maps_ok f nm dm -> 0 <= i < 32 -> f i = Some n -> is_data n = false ->
  compressed_idx nm dm i = Some (data_rank f 32 + sub_rank f i).
Proof.
  intros H Hi Hf Hn. destruct (maps_check _ _ _ _ H Hi) as [Hd Hs]. unfold compressed_idx.
  rewrite (pop_below (sub_at f) nm), Hd, Hs; [|lia|intros j Hj; apply (H j Hj)].
  rewrite (data_at_sub f i n), (sub_at_sub f i n) by done.
  rewrite bool_decide_true, bool_decide_false by (done || by intros [? ?]). cbn [negb andb]. do 2 f_equal.
  apply pop_omap; [lia| |lia]. intros j Hj. apply (H j Hj).
Qed.
(** ** Updates of one slot *)

Lemma upd_eq f i o : upd f i o i = o.
Proof. unfold upd. by rewrite decide_True. Qed.

Lemma upd_ne f i o j : j <> i -> upd f i o j = f j.
Proof. intros Hj. unfold upd. by rewrite decide_False. Qed.

Lemma data_at_ne f i o j : j <> i -> data_at (upd f i o) j = data_at f j.
Proof. intros Hj. unfold data_at. by rewrite upd_ne. Qed.

Lemma sub_at_ne f i o j : j <> i -> sub_at (upd f i o) j = sub_at f j.
Proof. intros Hj. unfold sub_at. by rewrite upd_ne. Qed.

(** The parts of the vector around slot [i]. *)
Definition data_below f i := omap (data_at f) (seqZ 0 i).
Definition data_above f i := omap (data_at f) (seqZ (i + 1) (31 - i)).
Definition sub_below f i := omap (sub_at f) (seqZ 0 i).
Definition sub_above f i := omap (sub_at f) (seqZ (i + 1) (31 - i)).

Lemma parts_upd f i o :
  data_below (upd f i o) i = data_below f i /\ data_above (upd f i o) i = data_above f i /\
  sub_below (upd f i o) i = sub_below f i /\ sub_above (upd f i o) i = sub_above f i.
Proof.
  split_and!; apply omap_range_ext; intros j Hj; (apply data_at_ne || apply sub_at_ne); lia.
Qed.

Lemma rep_parts f s i :
  rep f s -> 0 <= i < 32 ->
  nodes s = (data_below f i ++ slot_list (data_at f i) ++ data_above f i) ++
            (sub_below f i ++ slot_list (sub_at f i) ++ sub_above f i).
Proof. intros [_ ->] Hi. by rewrite !(omap_split _ i). Qed.

(** A vector with the parts of [f] around slot [i] and the bits of [f]
    elsewhere represents [f] with that slot updated. *)
Lemma rep_upd f i o nm dm nm' dm' ns :
  maps_ok f nm dm -> 0 <= i < 32 ->
  (forall j, 0 <= j < 32 -> j <> i -> Z.testbit dm' j = Z.testbit dm j /\ Z.testbit nm' j = Z.testbit nm j) ->
  Z.testbit dm' i = bool_decide (is_Some (data_at (upd f i o) i)) ->
  Z.testbit nm' i = bool_decide (is_Some (sub_at (upd f i o) i)) ->
  ns = (data_below f i ++ slot_list (data_at (upd f i o) i) ++ data_above f i) ++
       (sub_below f i ++ slot_list (sub_at (upd f i o) i) ++ sub_above f i) ->
  rep (upd f i o) (MkSubNodes ns nm' dm').
Proof.
  intros H Hi Hbits Hd Hs ->. split.
  - intros j Hj. cbn. destruct (decide (j = i)) as [->|Hne]; [done|].
    destruct (Hbits j Hj Hne) as [-> ->]. rewrite data_at_ne, sub_at_ne by done. by apply H.
  - cbn. destruct (parts_upd f i o) as (Hdb & Hda & Hsb & Hsa).
    rewrite !(omap_split _ i) by done. by rewrite <- Hdb, <- Hda, <- Hsb, <- Hsa.
Qed.

Lemma data_rank_length f i : Z.to_nat (data_rank f i) = length (data_below f i).
Proof. unfold data_rank, data_below. lia. Qed.

Lemma sub_rank_length f i :
  0 <= i < 32 ->
  Z.to_nat (data_rank f 32 + sub_rank f i) =
  length ((data_below f i ++ slot_list (data_at f i) ++ data_above f i) ++ sub_below f i).
Proof.
  intros Hi. unfold data_rank, sub_rank. rewrite (omap_split (data_at f) i) by done.
  rewrite (length_app (_ ++ _) (sub_below f i)). unfold data_below, data_above, sub_below. lia.
Qed.

Lemma data_rank_upd f i o : data_rank (upd f i o) i = data_rank f i.
Proof. destruct (parts_upd f i o) as (Hdb & _). unfold data_rank, data_below in *. by rewrite Hdb. Qed.

Lemma rep_lookup_data f s i n :
  rep f s -> 0 <= i < 32 -> f i = Some n -> is_data n = true ->
  nodes s !! Z.to_nat (data_rank f i) = Some n.
Proof.
  intros H Hi Hf Hn. rewrite (rep_parts f s i), data_rank_length by done.
  rewrite (data_at_data f i n) by done. rewrite <- !(assoc_L (++)). cbn [slot_list app].
  by rewrite list_lookup_middle.
Qed.

Lemma rep_lookup_sub f s i n :
  rep f s -> 0 <= i < 32 -> f i = Some n -> is_data n = false ->
  nodes s !! Z.to_nat (data_rank f 32 + sub_rank f i) = Some n.
Proof.
  intros H Hi Hf Hn. rewrite sub_rank_length, (rep_parts f s i) by done.
  rewrite (sub_at_sub f i n) by done. rewrite (assoc_L (++) _ (sub_below f i)). cbn [slot_list app].
  by rewrite list_lookup_middle.
Qed.

(** The node in a slot is exchanged for one of the same kind. *)
Lemma rep_set_data f s i n n' :
  rep f s -> 0 <= i < 32 -> f i = Some n -> is_data n = true -> is_data n' = true ->
  rep (upd f i (Some n')) (set_node s (data_rank f i) n').
Proof.
  intros H Hi Hf Hn Hn'. unfold set_node. pose proof (proj1 H i Hi) as [Hd Hs].
  eapply rep_upd; [apply H|done|done|..].
  - rewrite (data_at_data (upd _ _ _) i n') by (done || apply upd_eq). rewrite Hd.
    by rewrite (data_at_data f i n).
  - rewrite (sub_at_data (upd _ _ _) i n') by (done || apply upd_eq). rewrite Hs.
    by rewrite (sub_at_data f i n).
  - rewrite (rep_parts f s i), data_rank_length by done.
    rewrite (data_at_data (upd _ _ _) i n'), (data_at_data f i n) by (done || apply upd_eq).
    rewrite (sub_at_data (upd _ _ _) i n'), (sub_at_data f i n) by (done || apply upd_eq).
    rewrite <- !(assoc_L (++)). cbn [slot_list app]. by rewrite list_insert_middle.
Qed.

Lemma rep_set_sub f s i n n' :
  rep f s -> 0 <= i < 32 -> f i = Some n -> is_data n = false -> is_data n' = false ->
  rep (upd f i (Some n')) (set_node s (data_rank f 32 + sub_rank f i) n').
Proof.
  intros H Hi Hf Hn Hn'. unfold set_node. pose proof (proj1 H i Hi) as [Hd Hs].
  eapply rep_upd; [apply H|done|done|..].
  - rewrite (data_at_sub (upd _ _ _) i n') by (done || apply upd_eq). rewrite Hd.
    by rewrite (data_at_sub f i n).
  - rewrite (sub_at_sub (upd _ _ _) i n') by (done || apply upd_eq). rewrite Hs.
    by rewrite (sub_at_sub f i n).
  - rewrite sub_rank_length, (rep_parts f s i) by done.
    rewrite (data_at_sub (upd _ _ _) i n'), (data_at_sub f i n) by (done || apply upd_eq).
    rewrite (sub_at_sub (upd _ _ _) i n'), (sub_at_sub f i n) by (done || apply upd_eq).
    rewrite !(assoc_L (++) _ (sub_below f i)). cbn [slot_list app]. by rewrite list_insert_middle.
Qed.

Lemma insert_at_app c_idx n (l1 l2 : list Node) : Z.to_nat c_idx = length l1 -> insert_at c_idx n (l1 ++ l2) = Some (l1 ++ n :: l2).
Proof.
  intros E. unfold insert_at. rewrite E, length_app, (proj2 (Nat.ltb_ge _ _)), take_app_length, drop_app_length by lia. done.
Qed.

(** An entry is put into an empty slot. *)
Lemma rep_insert_data f s i n :
  rep f s -> 0 <= i < 32 -> f i = None -> is_data n = true ->
  compressed_idx (node_map s) (set_bit (data_map s) i) i = Some (data_rank f i) /\
  exists ns, insert_at (data_rank f i) n (nodes s) = Some ns /\
    rep (upd f i (Some n)) (MkSubNodes ns (node_map s) (set_bit (data_map s) i)).
Proof.
  intros H Hi Hf Hn. pose proof (proj1 H i Hi) as [Hd Hs].
  assert (exists ns, insert_at (data_rank f i) n (nodes s) = Some ns /\
    rep (upd f i (Some n)) (MkSubNodes ns (node_map s) (set_bit (data_map s) i))) as (ns & Hns & Hrep).
  { eexists. split; [rewrite (rep_parts f s i), <- !(assoc_L (++)) by done; apply insert_at_app, data_rank_length|]. eapply rep_upd; [apply H|done|..].
    - intros j Hj Hne. rewrite set_bit_testbit by lia. by destruct (Z.eqb_spec i j); [lia|].
    - rewrite set_bit_testbit, Z.eqb_refl by lia.
      by rewrite (data_at_data (upd _ _ _) i n) by (done || apply upd_eq).
    - rewrite (sub_at_data (upd _ _ _) i n) by (done || apply upd_eq). rewrite Hs.
      by rewrite (sub_at_none f i).
    - rewrite (data_at_data (upd _ _ _) i n), (data_at_none f i) by (done || apply upd_eq).
      rewrite (sub_at_data (upd _ _ _) i n), (sub_at_none f i) by (done || apply upd_eq).
      by rewrite <- !(assoc_L (++)). }
  split; [|by exists ns]. rewrite <- (data_rank_upd f i (Some n)).
  eapply compressed_data; [apply Hrep|done|apply upd_eq|done].
Qed.

(** An entry is erased. *)
Lemma rep_erase_data f s i n :
  rep f s -> 0 <= i < 32 -> f i = Some n -> is_data n = true ->
  rep (upd f i None) (MkSubNodes (erase_at (data_rank f i) (nodes s)) (node_map s)
    (clear_bit (data_map s) i)).
Proof.
  intros H Hi Hf Hn. pose proof (proj1 H i Hi) as [Hd Hs]. eapply rep_upd; [apply H|done|..].
  - intros j Hj Hne. rewrite clear_bit_testbit by lia. by destruct (Z.eqb_spec i j); [lia|].
  - rewrite clear_bit_testbit, Z.eqb_refl by lia. by rewrite (data_at_none (upd _ _ _)) by apply upd_eq.
  - rewrite (sub_at_none (upd _ _ _)) by apply upd_eq. rewrite Hs. by rewrite (sub_at_data f i n).
  - unfold erase_at. rewrite (rep_parts f s i), data_rank_length by done.
    rewrite (data_at_none (upd _ _ _)), (data_at_data f i n) by (done || apply upd_eq).
    rewrite (sub_at_none (upd _ _ _)), (sub_at_data f i n) by (done || apply upd_eq).
    rewrite <- !(assoc_L (++)), take_app_length. cbn [slot_list app]. f_equal.
    rewrite cons_middle, (assoc_L (++)), drop_app_length'; [done|]. rewrite length_app. cbn. lia.
Qed.

(** A node is put into an empty slot. *)
Lemma rep_insert_sub f s i n :
  rep f s -> 0 <= i < 32 -> f i = None -> is_data n = false ->
  compressed_idx (set_bit (node_map s) i) (data_map s) i = Some (data_rank f 32 + sub_rank f i) /\
  exists ns, insert_at (data_rank f 32 + sub_rank f i) n (nodes s) = Some ns /\
    rep (upd f i (Some n)) (MkSubNodes ns (set_bit (node_map s) i) (data_map s)).
Proof.
  intros H Hi Hf Hn. pose proof (proj1 H i Hi) as [Hd Hs].
  assert (exists ns, insert_at (data_rank f 32 + sub_rank f i) n (nodes s) = Some ns /\
    rep (upd f i (Some n)) (MkSubNodes ns (set_bit (node_map s) i) (data_map s))) as (ns & Hns & Hrep).
  { eexists. split; [rewrite (rep_parts f s i), (assoc_L (++) _ (sub_below f i)) by done; by apply insert_at_app, sub_rank_length|]. eapply rep_upd; [apply H|done|..].
    - intros j Hj Hne. rewrite set_bit_testbit by lia. by destruct (Z.eqb_spec i j); [lia|].
    - rewrite (data_at_sub (upd _ _ _) i n) by (done || apply upd_eq). rewrite Hd.
      by rewrite (data_at_none f i).
    - rewrite set_bit_testbit, Z.eqb_refl by lia.
      by rewrite (sub_at_sub (upd _ _ _) i n) by (done || apply upd_eq).
    - rewrite (data_at_sub (upd _ _ _) i n), (data_at_none f i) by (done || apply upd_eq).
      rewrite (sub_at_sub (upd _ _ _) i n), (sub_at_none f i) by (done || apply upd_eq).
      by rewrite !(assoc_L (++) _ (sub_below f i)). }
  split; [|by exists ns]. assert (data_rank (upd f i (Some n)) 32 = data_rank f 32 /\
    sub_rank (upd f i (Some n)) i = sub_rank f i) as [<- <-].
  { unfold data_rank, sub_rank. rewrite !(omap_split (data_at _) i) by done.
    destruct (parts_upd f i (Some n)) as (Hdb & Hda & Hsb & _).
    unfold data_below, data_above, sub_below in *. rewrite Hdb, Hda, Hsb.
    by rewrite (data_at_sub (upd _ _ _) i n), (data_at_none f i) by (done || apply upd_eq). }
  eapply compressed_sub; [apply Hrep|done|apply upd_eq|done].
Qed.

(** An entry gives way to a node. *)
Lemma rep_replace_entry f s i n n' :
  rep f s -> 0 <= i < 32 -> f i = Some n -> is_data n = true -> is_data n' = false ->
  exists s', replace_entry s i (data_rank f i) n' = Some s' /\
    rep (upd (upd f i None) i (Some n')) s'.
Proof.
  intros H Hi Hf Hn Hn'. pose proof (rep_erase_data f s i n H Hi Hf Hn) as He.
  destruct (rep_insert_sub _ _ i n' He Hi (upd_eq _ _ _) Hn') as (Hc & ns & Hns & Hr).
  cbn [node_map data_map nodes] in *. exists (MkSubNodes ns (set_bit (node_map s) i) (clear_bit (data_map s) i)). split; [|exact Hr].
  unfold replace_entry. cbv zeta. rewrite Hc. unfold mbind, option_bind. by rewrite Hns.
Qed.
End vector.
