(* ===== verification/ChampMapProps.v ===== *)
(** The persistent hash map is a finite map, whatever the hash function. *)

From S2P Require Import Prelude ChampMap ChampVector.

Lemma mask_range h d : 0 <= mask h d < 32.
Proof.
  unfold mask. change index_mask with (Z.ones 5). rewrite Z.land_ones by lia.
  apply Z.mod_pos_bound. lia.
Qed.

Section props.
Context {K V : Type} `{EqDecision K}.
Context (H : K -> Z) (get_size_k : K -> Z) (get_size_v : V -> Z).

Local Abbreviation hash_of := (hash_of H).
Local Abbreviation Entry := (@Entry K V).
Local Abbreviation Node := (@Node K V).
Local Abbreviation SubNodes := (@SubNodes K V).
Local Abbreviation Collisions := (@Collisions K V).
Local Abbreviation getp := (getp (K:=K) (V:=V)).
Local Abbreviation put_mut := (put_mut H get_size_k get_size_v).
Local Abbreviation remove_mut := (remove_mut get_size_k get_size_v).
Local Abbreviation plain_size := (plain_size get_size_k get_size_v).
Local Abbreviation padded_size := (padded_size get_size_k get_size_v).

Implicit Types (k : K) (v : V) (e : Entry) (n : Node) (s : SubNodes) (c : Collisions)
  (f : Z -> option Node).

Lemma collision_mask_range k : 0 <= mask (hash_of k) collision_depth < collision_bins.
Proof.
  unfold mask, hash_of, u32. change index_mask with (Z.ones 5). rewrite Z.land_ones by lia.
  change (collision_depth * index_mask_bits) with 30. change collision_bins with 4.
  rewrite Z.shiftr_div_pow2 by lia. pose proof (Z.mod_pos_bound (H k) (2 ^ 32) ltac:(lia)).
  assert (0 <= (H k) `mod` 2 ^ 32 / 2 ^ 30 < 4) as Hr.
  { split; [apply Z.div_pos; lia|apply Z.div_lt_upper_bound; lia]. }
  rewrite Z.mod_small; lia.
Qed.

(** ** The invariant *)

(** The entries under a node with [r] levels below it. *)
Fixpoint stored (r : nat) (s : SubNodes) (e : Entry) : Prop :=
  exists n, n ∈ nodes s /\
    match n with
    | NEntry e' => e = e'
    | NCollisions c => match r with O => exists bin, bin ∈ bins c /\ e ∈ bin | S _ => False end
    | NSubNodes sn => match r with S r => stored r sn e | O => False end
    end.

Definition content (r : nat) (n : Node) (e : Entry) : Prop :=
  match n with
  | NEntry e' => e = e'
  | NCollisions c => match r with O => exists bin, bin ∈ bins c /\ e ∈ bin | S _ => False end
  | NSubNodes sn => match r with S r => stored r sn e | O => False end
  end.

Definition collisions_wf (c : Collisions) : Prop :=
  length (bins c) = Z.to_nat collision_bins /\
  forall j bin, bins c !! j = Some bin ->
    NoDup (key <$> bin) /\ forall e, e ∈ bin -> Z.to_nat (mask (hash_of (key e)) collision_depth) = j.

(** Slot [i] holds what hashes to [i] at this depth. *)
Fixpoint wf (r : nat) (s : SubNodes) : Prop :=
  exists f, rep f s /\ forall i n, 0 <= i < 32 -> f i = Some n ->
    match n with
    | NEntry _ => True
    | NCollisions c => match r with O => collisions_wf c | S _ => False end
    | NSubNodes sn => match r with S r => wf r sn | O => False end
    end /\
    forall e, content r n e -> mask (hash_of (key e)) (depth_of r) = i.

Definition node_wf (r : nat) (n : Node) : Prop :=
  match n with
  | NEntry _ => True
  | NCollisions c => match r with O => collisions_wf c | S _ => False end
  | NSubNodes sn => match r with S r => wf r sn | O => False end
  end.

Definition slots_wf (r : nat) (f : Z -> option Node) : Prop :=
  forall i n, 0 <= i < 32 -> f i = Some n ->
    node_wf r n /\ forall e, content r n e -> mask (hash_of (key e)) (depth_of r) = i.

Lemma wf_slots r s : wf r s <-> exists f, rep f s /\ slots_wf r f.
Proof. by destruct r. Qed.

Lemma stored_content r s e : stored r s e <-> exists n, n ∈ nodes s /\ content r n e.
Proof. by destruct r. Qed.

Lemma rep_elem f s n : rep f s -> n ∈ nodes s <-> exists i, 0 <= i < 32 /\ f i = Some n.
Proof.
  intros [_ ->]. rewrite elem_of_app, !list_elem_of_omap. setoid_rewrite elem_of_seqZ.
  unfold data_at, sub_at. split.
  - intros [(i & Hi & Hn)|(i & Hi & Hn)]; exists i; (split; [lia|]); destruct (f i); [|done| |done];
      by destruct (is_data _); simplify_eq.
  - intros (i & Hi & Hf). destruct (is_data n) eqn:Hn; [left|right]; exists i;
      (split; [lia|]); rewrite Hf; by rewrite Hn.
Qed.

Definition slot_content (r : nat) f i e : Prop := exists n, f i = Some n /\ content r n e.

(** An entry is stored in the slot its key hashes to. *)
Lemma stored_slot r f s e :
  rep f s -> slots_wf r f ->
  stored r s e <-> slot_content r f (mask (hash_of (key e)) (depth_of r)) e.
Proof.
  intros Hrep Hwf. rewrite stored_content. split.
  - intros (n & Hn & Hc). apply (rep_elem f) in Hn as (i & Hi & Hf); [|done].
    destruct (Hwf i n Hi Hf) as [_ Hm]. rewrite (Hm e Hc). by exists n.
  - intros (n & Hf & Hc). exists n. split; [|done]. apply (rep_elem f); [done|].
    eexists. split; [apply mask_range|done].
Qed.

(** ** Collisions *)

Local Abbreviation bin_put := (bin_put get_size_k get_size_v).
Local Abbreviation bin_remove := (bin_remove get_size_k get_size_v).

(** [P'] holds what [P] holds, with [v] at [k]. *)
Definition puts (k : K) (v : V) (P P' : Entry -> Prop) : Prop :=
  forall e, P' e <-> if decide (key e = k) then value e = v else P e.

Definition removes (k : K) (P P' : Entry -> Prop) : Prop :=
  forall e, P' e <-> key e <> k /\ P e.

Definition has_key (k : K) (P : Entry -> Prop) : Prop := exists v, P (MkEntry k v).

Lemma puts_proper k v P Q P' Q' :
  (forall e, P e <-> Q e) -> (forall e, P' e <-> Q' e) -> puts k v P P' -> puts k v Q Q'.
Proof. intros H1 H2 Hp e. rewrite <- H2, (Hp e). case_decide; [done|apply H1]. Qed.

Lemma removes_proper k P Q P' Q' :
  (forall e, P e <-> Q e) -> (forall e, P' e <-> Q' e) -> removes k P P' -> removes k Q Q'.
Proof. intros H1 H2 Hp e. rewrite <- H2, (Hp e), H1. done. Qed.

Lemma key_elem k (bin : list Entry) : k ∈ key <$> bin <-> has_key k (fun e => e ∈ bin).
Proof.
  rewrite list_elem_of_fmap. split.
  - intros ([k' v'] & -> & Hin). by exists v'.
  - intros [v Hv]. by exists (MkEntry k v).
Qed.

Lemma bin_getp_spec (bin : list Entry) k v :
  NoDup (key <$> bin) -> bin_getp bin k = Some v <-> MkEntry k v ∈ bin.
Proof.
  induction bin as [|[k' v'] bin IH]; cbn.
  { intros _. rewrite elem_of_nil. done. }
  intros [Hk Hnd]%NoDup_cons. rewrite elem_of_cons. case_decide as Hkk; cbn in Hkk.
  - subst k'. split; [intros [= ->]; by left|]. intros [[= ->]|Hin]; [done|]. destruct Hk.
    apply key_elem. by exists v.
  - rewrite IH by done. split; [by right|]. intros [[= -> ->]|?]; done.
Qed.

Lemma bin_put_spec (bin : list Entry) k v :
  NoDup (key <$> bin) ->
  let '(bin', r) := bin_put bin k v in
  NoDup (key <$> bin') /\ puts k v (fun e => e ∈ bin) (fun e => e ∈ bin') /\
  (~ has_key k (fun e => e ∈ bin) -> r = 0) /\
  (has_key k (fun e => e ∈ bin) -> r = plain_size (MkEntry k v)).
Proof.
  induction bin as [|[k' v'] bin IH]; cbn.
  - intros _. split_and!.
    + apply NoDup_singleton.
    + intros [k2 v2]. cbn. rewrite list_elem_of_singleton. case_decide as Hk.
      * subst. split; [by intros [= ->]|by intros ->].
      * rewrite elem_of_nil. split; [|done]. intros [= -> ->]. done.
    + done.
    + intros [v' Hv]. by apply elem_of_nil in Hv.
  - intros [Hk Hnd]%NoDup_cons. case_decide as Hkk; cbn in Hkk.
    + subst k'. split_and!; [by constructor| |..].
      * intros [k2 v2]. cbn. rewrite !elem_of_cons. case_decide as Hk2.
        -- subst k2. split; [|intros ->; by left]. intros [[= ->]|Hin]; [done|]. destruct Hk.
           apply key_elem. by exists v2.
        -- rewrite !elem_of_cons. split; (intros [[= ? ?]|?]; [done|by right]).
      * intros Hno. destruct Hno. exists v'. apply elem_of_cons. by left.
      * done.
    + specialize (IH Hnd). destruct (bin_put bin k v) as [bin' r]. destruct IH as (Hnd' & Hput & Hno & Hyes).
      split_and!.
      * cbn. apply NoDup_cons. split; [|done]. rewrite key_elem. intros [v2 Hv2]. apply Hput in Hv2.
        cbn in Hv2. rewrite decide_False in Hv2 by done. apply Hk, key_elem. by exists v2.
      * intros [k2 v2]. cbn. rewrite !elem_of_cons, (Hput (MkEntry k2 v2)). cbn.
        case_decide as Hk2; [|by rewrite elem_of_cons]. subst k2. split; [|by right]. by intros [[= ? ?]|?].
      * intros Hn. apply Hno. intros [v2 Hv2]. apply Hn. exists v2. apply elem_of_cons. by right.
      * intros [v2 Hv2]. apply Hyes. apply elem_of_cons in Hv2 as [[= ? ?]|Hv2]; [done|]. by exists v2.
Qed.

Lemma bin_remove_spec (bin : list Entry) k :
  NoDup (key <$> bin) ->
  let '(bin', r) := bin_remove bin k in
  NoDup (key <$> bin') /\ removes k (fun e => e ∈ bin) (fun e => e ∈ bin') /\
  (~ has_key k (fun e => e ∈ bin) -> r = 0) /\
  (forall v, MkEntry k v ∈ bin -> r = plain_size (MkEntry k v)).
Proof.
  induction bin as [|[k' v'] bin IH]; cbn.
  - intros _. split_and!; [constructor| |done|].
    + intros e. rewrite elem_of_nil. tauto.
    + intros v Hv. by apply elem_of_nil in Hv.
  - intros [Hk Hnd]%NoDup_cons. case_decide as Hkk; cbn in Hkk.
    + subst k'. split_and!; [done| |..].
      * intros [k2 v2]. cbn. rewrite elem_of_cons. split.
        -- intros Hin. split; [|by right]. intros ->. apply Hk, key_elem. by exists v2.
        -- intros [? [[= ? ?]|?]]; done.
      * intros Hno. destruct Hno. exists v'. apply elem_of_cons. by left.
      * intros v [[= ->]|Hin]%elem_of_cons; [done|]. destruct Hk. apply key_elem. by exists v.
    + specialize (IH Hnd). destruct (bin_remove bin k) as [bin' r]. destruct IH as (Hnd' & Hrem & Hno & Hyes).
      split_and!.
      * cbn. apply NoDup_cons. split; [|done]. rewrite key_elem. intros [v2 [_ Hv2]%Hrem].
        apply Hk, key_elem. by exists v2.
      * intros [k2 v2]. cbn. rewrite !elem_of_cons, (Hrem (MkEntry k2 v2)). cbn.
        split; [|tauto]. intros [[= -> ->]|?]; [|tauto]. split; [|by left]. congruence.
      * intros Hn. apply Hno. intros [v2 Hv2]. apply Hn. exists v2. apply elem_of_cons. by right.
      * intros v [[= ? ?]|Hv2]%elem_of_cons; [done|]. by apply Hyes.
Qed.

Local Abbreviation bin_of k := (Z.to_nat (mask (hash_of k) collision_depth)).
Local Abbreviation in_bins c e := (exists bin, bin ∈ bins c /\ e ∈ bin).

Lemma collisions_bin c k :
  collisions_wf c -> exists bin, bins c !! bin_of k = Some bin /\ NoDup (key <$> bin).
Proof.
  intros [Hlen Hbins]. destruct (lookup_lt_is_Some_2 (bins c) (bin_of k)) as [bin Hb].
  { rewrite Hlen. pose proof (collision_mask_range k). lia. }
  exists bin. split; [done|]. by apply (Hbins _ _ Hb).
Qed.

Lemma in_bins_bin c e bin :
  collisions_wf c -> bins c !! bin_of (key e) = Some bin -> in_bins c e <-> e ∈ bin.
Proof.
  intros [_ Hbins] Hb. split.
  - intros (bin' & [j Hj]%list_elem_of_lookup & He). destruct (Hbins _ _ Hj) as [_ Hm].
    specialize (Hm e He). subst j. by simplify_eq.
  - intros He. exists bin. split; [|done]. by eapply list_elem_of_lookup_2.
Qed.

Lemma collisions_getp_spec c k :
  collisions_wf c -> exists o, collisions_getp c (hash_of k) k = Some o /\
    forall v, o = Some v <-> in_bins c (MkEntry k v).
Proof.
  intros Hc. destruct (collisions_bin c k Hc) as (bin & Hb & Hnd). unfold collisions_getp. rewrite Hb.
  eexists. split; [done|]. intros v. rewrite (in_bins_bin c (MkEntry k v) bin) by done.
  by apply bin_getp_spec.
Qed.

(** One bin is exchanged. *)
Lemma collisions_insert c k bin bin' :
  collisions_wf c -> bins c !! bin_of k = Some bin -> NoDup (key <$> bin') ->
  (forall e, e ∈ bin' -> e ∈ bin \/ key e = k) ->
  let c' := MkCollisions (<[bin_of k := bin']> (bins c)) in
  collisions_wf c' /\
  (forall e, bin_of (key e) = bin_of k -> in_bins c' e <-> e ∈ bin') /\
  (forall e, bin_of (key e) <> bin_of k -> in_bins c' e <-> in_bins c e).
Proof.
  intros Hc Hb Hnd Hin c'. pose proof (lookup_lt_Some _ _ _ Hb) as Hlt.
  assert (bins c' !! bin_of k = Some bin') as Hb' by (by apply list_lookup_insert_eq).
  assert (collisions_wf c') as Hc'.
  { split; [by cbn; rewrite length_insert; apply Hc|]. intros j b Hj.
    destruct (decide (j = bin_of k)) as [->|Hne].
    - rewrite Hb' in Hj. injection Hj as <-. split; [done|]. intros e He.
      destruct (Hin e He) as [He' | ->]; [|done]. by apply (proj2 Hc _ _ Hb).
    - cbn in Hj. rewrite list_lookup_insert_ne in Hj by done. by apply Hc. }
  split_and!; [done|..].
  - intros e He. apply in_bins_bin; [done|]. by rewrite He.
  - intros e He. destruct (collisions_bin c (key e) Hc) as (b & Hbe & _).
    rewrite (in_bins_bin c e b), (in_bins_bin c' e b); try done. cbn.
    by rewrite list_lookup_insert_ne.
Qed.

Lemma collisions_put_spec c k v :
  collisions_wf c ->
  exists c' r, collisions_put_mut get_size_k get_size_v c (hash_of k) k v = Some (c', r) /\
    collisions_wf c' /\ puts k v (fun e => in_bins c e) (fun e => in_bins c' e) /\
    (~ has_key k (fun e => in_bins c e) -> r = 0) /\
    (has_key k (fun e => in_bins c e) -> r = plain_size (MkEntry k v)).
Proof.
  intros Hc. destruct (collisions_bin c k Hc) as (bin & Hb & Hnd). unfold collisions_put_mut. rewrite Hb.
  cbn. pose proof (bin_put_spec bin k v Hnd) as Hspec. destruct (bin_put bin k v) as [bin' r].
  destruct Hspec as (Hnd' & Hput & Hno & Hyes). eexists _, r. split; [done|].
  destruct (collisions_insert c k bin bin') as (Hc' & Hsame & Hother); [done..| |].
  { intros e He. apply Hput in He. case_decide; [by right|by left]. }
  split; [done|]. assert (has_key k (fun e => in_bins c e) <-> has_key k (fun e => e ∈ bin)) as Hkey.
  { unfold has_key. by setoid_rewrite (in_bins_bin c (MkEntry k _) bin Hc Hb). }
  split; [|by rewrite Hkey]. intros e. destruct (decide (bin_of (key e) = bin_of k)) as [He|He].
  - rewrite Hsame, (Hput e) by done. case_decide; [done|]. symmetry. apply in_bins_bin; [done|].
    by rewrite He.
  - rewrite Hother by done. case_decide as Hk; [|done]. by rewrite Hk in He.
Qed.

Lemma collisions_remove_spec c k :
  collisions_wf c ->
  exists c' r, collisions_remove_mut get_size_k get_size_v c (hash_of k) k = Some (c', r) /\
    collisions_wf c' /\ removes k (fun e => in_bins c e) (fun e => in_bins c' e) /\
    (~ has_key k (fun e => in_bins c e) -> r = 0) /\
    (forall v, in_bins c (MkEntry k v) -> r = plain_size (MkEntry k v)).
Proof.
  intros Hc. destruct (collisions_bin c k Hc) as (bin & Hb & Hnd). unfold collisions_remove_mut. rewrite Hb.
  cbn. pose proof (bin_remove_spec bin k Hnd) as Hspec. destruct (bin_remove bin k) as [bin' r].
  destruct Hspec as (Hnd' & Hrem & Hno & Hyes). eexists _, r. split; [done|].
  destruct (collisions_insert c k bin bin') as (Hc' & Hsame & Hother); [done..| |].
  { intros e He. apply Hrem in He. left. apply He. }
  assert (forall v, in_bins c (MkEntry k v) <-> MkEntry k v ∈ bin) as Hkey.
  { intros v. by apply in_bins_bin. }
  split_and!; [done| |..].
  - intros e. destruct (decide (bin_of (key e) = bin_of k)) as [He|He].
    + rewrite Hsame, (Hrem e) by done. rewrite (in_bins_bin c e bin); [done..|by rewrite He].
    + rewrite Hother by done. split; [|tauto]. intros ?. split; [|done]. intros Hk. by rewrite Hk in He.
  - intros Hn. apply Hno. intros [v Hv]. apply Hn. exists v. by apply Hkey.
  - intros v Hv. by apply Hyes, Hkey.
Qed.

(** ** Slots *)

Definition slot_index f i n : Z := if is_data n then data_rank f i else data_rank f 32 + sub_rank f i.

Lemma compressed_slot f s i n :
  rep f s -> 0 <= i < 32 -> f i = Some n ->
  compressed_idx (node_map s) (data_map s) i = Some (slot_index f i n) /\
  nodes s !! Z.to_nat (slot_index f i n) = Some n /\
  check (data_map s) i = is_data n /\ check (node_map s) i = negb (is_data n).
Proof.
  intros Hrep Hi Hf. destruct (maps_check f _ _ i (proj1 Hrep) Hi) as [-> ->].
  unfold slot_index. destruct (is_data n) eqn:Hn.
  - rewrite (data_at_data f i n), (sub_at_data f i n) by done. split_and!; [|by apply rep_lookup_data|done..].
    eapply compressed_data; [apply Hrep|done..].
  - rewrite (data_at_sub f i n), (sub_at_sub f i n) by done. split_and!; [|by apply rep_lookup_sub|done..].
    eapply compressed_sub; [apply Hrep|done..].
Qed.

Lemma rep_set_slot f s i n n' :
  rep f s -> 0 <= i < 32 -> f i = Some n -> is_data n' = is_data n ->
  rep (upd f i (Some n')) (set_node s (slot_index f i n) n').
Proof.
  intros Hrep Hi Hf Hn. unfold slot_index. destruct (is_data n) eqn:E.
  - by eapply rep_set_data.
  - by eapply rep_set_sub.
Qed.

Lemma as_entry_slot s c_idx e : nodes s !! Z.to_nat c_idx = Some (NEntry e) -> as_entry s c_idx = Some e.
Proof. unfold as_entry. by intros ->. Qed.
Lemma as_collisions_slot s c_idx c :
  nodes s !! Z.to_nat c_idx = Some (NCollisions c) -> as_collisions s c_idx = Some c.
Proof. unfold as_collisions. by intros ->. Qed.
Lemma as_sub_nodes_slot s c_idx sn :
  nodes s !! Z.to_nat c_idx = Some (NSubNodes sn) -> as_sub_nodes s c_idx = Some sn.
Proof. unfold as_sub_nodes. by intros ->. Qed.

Lemma entry_content r e k v : content r (NEntry e) (MkEntry k v) <-> entry_getp e k = Some v.
Proof.
  unfold entry_getp. cbn. destruct e as [k' v']. cbn. case_decide as Hk.
  - subst. split; [by intros [= ->]|by intros [= ->]].
  - split; [|done]. intros [= -> ->]. done.
Qed.

(** ** Lookup *)

Definition gets_key (k : K) (P : Entry -> Prop) (res : option (option V)) : Prop :=
  exists o, res = Some o /\ forall v, o = Some v <-> P (MkEntry k v).

Lemma gets_key_proper k P Q res : (forall v, P (MkEntry k v) <-> Q (MkEntry k v)) ->
  gets_key k P res -> gets_key k Q res.
Proof. intros HPQ (o & -> & Ho). exists o. split; [done|]. intros v. by rewrite Ho, HPQ. Qed.

Definition child_getp (r : nat) (hash : Z) (k : K) (n : Node) : option (option V) :=
  match n, r with
  | NEntry e, _ => Some (entry_getp e k)
  | NCollisions c, O => collisions_getp c hash k
  | NSubNodes sn, S r => getp r hash k sn
  | _, _ => None
  end.

Lemma getp_slot r f s hash k :
  rep f s ->
  getp r hash k s =
  match f (mask hash (depth_of r)) with Some n => child_getp r hash k n | None => Some None end.
Proof.
  intros Hrep. pose proof (mask_range hash (depth_of r)) as Hi.
  destruct (f _) as [n|] eqn:Hf.
  - destruct (compressed_slot f s _ n Hrep Hi Hf) as (Hc & Hn & Hd & _).
    destruct r; cbn [getp]; rewrite Hc, Hd; unfold as_entry, as_collisions, as_sub_nodes; rewrite Hn;
      by destruct n.
  - destruct r; cbn [getp]; by rewrite (compressed_none f) by (apply Hrep || done).
Qed.

Lemma child_getp_spec r n k :
  (forall r' s, r = S r' -> wf r' s -> gets_key k (stored r' s) (getp r' (hash_of k) k s)) ->
  node_wf r n -> gets_key k (content r n) (child_getp r (hash_of k) k n).
Proof.
  intros IH Hn. destruct n as [e|c|sn].
  - exists (entry_getp e k). split; [done|]. intros v. by rewrite (entry_content r).
  - destruct r; [|done]. by apply collisions_getp_spec.
  - destruct r as [|r]; [done|]. by apply IH.
Qed.

Lemma getp_spec r s k : wf r s -> gets_key k (stored r s) (getp r (hash_of k) k s).
Proof.
  revert s. induction r as [r IH] using lt_wf_ind. intros s (f & Hrep & Hwf)%wf_slots.
  rewrite (getp_slot _ f) by done. set (i := mask (hash_of k) (depth_of r)).
  apply (gets_key_proper k (slot_content r f i)).
  { intros v. symmetry. by apply stored_slot. }
  unfold slot_content. destruct (f i) as [n|] eqn:Hf.
  - destruct (Hwf i n (mask_range _ _) Hf) as [Hn _].
    apply (gets_key_proper k (content r n)).
    { intros v. split; [eauto|]. by intros (n' & [= ->] & ?). }
    apply child_getp_spec; [|done]. intros r' s' -> Hs. apply IH; [lia|done].
  - exists None. split; [done|]. intros v. split; [done|]. by intros (? & ? & _).
Qed.

(** ** New nodes *)

Lemma empty_wf r : wf r empty_node /\ forall e, ~ stored r empty_node e.
Proof.
  split.
  - apply wf_slots. exists (fun _ => None). split; [|by intros i n].
    split; [|done]. intros i Hi. unfold empty_node, data_at, sub_at. cbn. by rewrite Z.bits_0.
  - intros e (n & Hn & _)%stored_content. by apply elem_of_nil in Hn.
Qed.

Lemma rep_empty : rep (fun _ => None) (empty_node (K:=K) (V:=V)).
Proof. split; [|done]. intros i Hi. unfold empty_node, data_at, sub_at. cbn. by rewrite Z.bits_0. Qed.

Lemma data_rank_none i : data_rank (fun _ => None : option Node) i = 0.
Proof.
  unfold data_rank. replace (omap _ _) with (@nil Node); [done|].
  induction (seqZ 0 i) as [|j l IH]; [done|]. cbn. exact IH.
Qed.

(** The node made for an entry that has to move down. *)
Lemma singleton_rep i e :
  0 <= i < 32 ->
  rep (upd (fun _ => None) i (Some (NEntry e))) (MkSubNodes [NEntry e] 0 (set_bit 0 i)).
Proof.
  intros Hi. destruct (rep_insert_data (fun _ => None) empty_node i (NEntry e) rep_empty Hi eq_refl eq_refl)
    as (_ & ns & Hns & Hr).
  rewrite data_rank_none in Hns. by injection Hns as <-.
Qed.

Lemma singleton_wf r e :
  let s := MkSubNodes [NEntry e] 0 (set_bit 0 (mask (hash_of (key e)) (depth_of r))) in
  wf r s /\ forall e', stored r s e' <-> e' = e.
Proof.
  intros s. split.
  - apply wf_slots. eexists. split; [apply singleton_rep, mask_range|]. intros i n Hi. unfold upd.
    case_decide as Hd; [|done]. intros [= <-]. split; [done|]. intros e' Hc. cbn in Hc. by subst.
  - intros e'. rewrite stored_content. split.
    + by intros (n & ->%list_elem_of_singleton & Hc).
    + intros ->. exists (NEntry e). split; [by apply list_elem_of_singleton|done].
Qed.

Lemma empty_collisions_wf :
  collisions_wf empty_collisions /\ forall e, ~ in_bins empty_collisions e.
Proof.
  assert (forall bin, bin ∈ bins (empty_collisions (K:=K) (V:=V)) -> bin = []) as Hb.
  { intros bin. cbn. apply elem_of_replicate_inv. }
  split; [split|].
  - apply length_replicate.
  - intros j bin ->%list_elem_of_lookup_2%Hb. split; [constructor|]. by intros e ?%elem_of_nil.
  - intros e (bin & ->%Hb & ?%elem_of_nil). done.
Qed.

Lemma push_bin_spec c e :
  collisions_wf c -> ~ has_key (key e) (fun e => in_bins c e) ->
  exists c', push_bin c (mask (hash_of (key e)) collision_depth) e = Some c' /\ collisions_wf c' /\
    forall e', in_bins c' e' <-> in_bins c e' \/ e' = e.
Proof.
  intros Hc Hk. destruct (collisions_bin c (key e) Hc) as (bin & Hb & Hnd). unfold push_bin. rewrite Hb. cbn.
  assert (key e ∉ key <$> bin) as Hnot.
  { intros [v Hv]%key_elem. apply Hk. exists v. by apply (in_bins_bin c _ bin). }
  destruct (collisions_insert c (key e) bin (bin ++ [e])) as (Hc' & Hsame & Hother); [done..| | |].
  - rewrite fmap_app. apply NoDup_app. split_and!; [done| |apply NoDup_singleton].
    intros k' Hk' ->%list_elem_of_singleton. done.
  - intros e' He'. apply elem_of_app in He' as [?|He']; [by left|]. right.
    by apply list_elem_of_singleton in He' as ->.
  - eexists. split_and!; [done..|]. intros e'. destruct (decide (bin_of (key e') = bin_of (key e))) as [He|He].
    + rewrite Hsame, elem_of_app, list_elem_of_singleton by done. rewrite (in_bins_bin c e' bin); [done..|].
      by rewrite He.
    + rewrite Hother by done. split; [by left|]. intros [?| ->]; done.
Qed.

(** ** Collision-free maps *)

(** No node of collisions below [s]. *)
Fixpoint flat (r : nat) (s : SubNodes) : Prop :=
  forall n, n ∈ nodes s ->
    match n with
    | NEntry _ => True
    | NCollisions _ => False
    | NSubNodes sn => match r with S r => flat r sn | O => False end
    end.

Definition node_flat (r : nat) n : Prop :=
  match n with
  | NEntry _ => True
  | NCollisions _ => False
  | NSubNodes sn => match r with S r => flat r sn | O => False end
  end.

Lemma flat_slots r f s : rep f s -> flat r s <-> forall i n, 0 <= i < 32 -> f i = Some n -> node_flat r n.
Proof.
  intros Hrep. assert (flat r s <-> forall n, n ∈ nodes s -> node_flat r n) as -> by (by destruct r).
  setoid_rewrite (rep_elem f s _ Hrep).
  split; [intros Hn i n Hi Hf; apply Hn; eauto|intros Hn n (i & Hi & Hf); eauto].
Qed.

(** The indices of two hashes differ at one of the levels from [r] down. *)
Definition separated (r : nat) (h1 h2 : Z) : Prop :=
  exists r', (r' <= r)%nat /\ mask h1 (depth_of r') <> mask h2 (depth_of r').

(** ** Insertion *)

(** What [put_mut] makes of the node in the slot. *)
Definition child_put (r : nat) (hash : Z) (k : K) (v : V) (n : Node) : option (Node * Z) :=
  match n, r with
  | NEntry e0, _ =>
      if decide (k = key e0) then Some (NEntry (MkEntry k v), padded_size e0)
      else
        match r with
        | S r =>
            '(sub_node, _) ← put_mut r hash k v
              (MkSubNodes [NEntry e0] 0 (set_bit 0 (mask (hash_of (key e0)) (depth_of r))));
            Some (NSubNodes sub_node, 0)
        | O =>
            c ← push_bin empty_collisions (mask (hash_of (key e0)) collision_depth) e0;
            c ← push_bin c (mask hash collision_depth) (MkEntry k v);
            Some (NCollisions c, 0)
        end
  | NCollisions c, O =>
      '(c', insert) ← collisions_put_mut get_size_k get_size_v c hash k v; Some (NCollisions c', insert)
  | NSubNodes sn, S r => '(sn', insert) ← put_mut r hash k v sn; Some (NSubNodes sn', insert)
  | _, _ => None
  end.

Lemma put_new r f s hash k v :
  rep f s -> f (mask hash (depth_of r)) = None ->
  exists s', put_mut r hash k v s = Some (s', 0) /\
    rep (upd f (mask hash (depth_of r)) (Some (NEntry (MkEntry k v)))) s'.
Proof.
  intros Hrep Hf. pose proof (mask_range hash (depth_of r)) as Hi.
  destruct (rep_insert_data f s _ (NEntry (MkEntry k v)) Hrep Hi Hf eq_refl) as (Hc & ns & Hns & Hr).
  destruct r; cbn [put_mut]; rewrite (compressed_none f) by (apply Hrep || done); rewrite Hc; unfold mbind, option_bind; rewrite Hns; eauto.
Qed.

(** The node the slot holds afterwards takes its place, or that of an entry. *)
Lemma put_shape r f s hash k v n :
  rep f s -> f (mask hash (depth_of r)) = Some n ->
  put_mut r hash k v s =
  '(n', old) ← child_put r hash k v n;
  let c_idx := slot_index f (mask hash (depth_of r)) n in
  if eqb (is_data n') (is_data n) then Some (set_node s c_idx n', old)
  else s' ← replace_entry s (mask hash (depth_of r)) c_idx n'; Some (s', old).
Proof.
  intros Hrep Hf. pose proof (mask_range hash (depth_of r)) as Hi.
  destruct (compressed_slot f s _ n Hrep Hi Hf) as (Hc & Hn & _ & Hs).
  destruct r; cbn [put_mut]; rewrite Hc, Hs; unfold as_entry, as_collisions, as_sub_nodes; rewrite Hn;
    destruct n as [e0|c|sn]; cbn -[push_bin collisions_put_mut]; try done.
  - case_decide; [done|]. destruct (push_bin _ _ _) as [c1|]; [|done]. cbn -[push_bin].
    by destruct (push_bin _ _ _).
  - by destruct (collisions_put_mut _ _ _ _ _ _) as [[]|].
  - case_decide; [done|]. by destruct (put_mut _ _ _ _ _) as [[]|].
  - by destruct (put_mut _ _ _ _ _) as [[]|].
Qed.

(** Nodes do not turn into entries. *)
Lemma child_put_kind r hash k v n n' old :
  child_put r hash k v n = Some (n', old) -> is_data n' = true -> is_data n = true.
Proof.
  destruct n as [e0|c|sn]; [done|..]; destruct r; try done; cbn -[collisions_put_mut].
  - destruct (collisions_put_mut _ _ _ _ _ _) as [[]|]; [|done]. by intros [= <- _].
  - destruct (put_mut _ _ _ _ _) as [[]|]; [|done]. by intros [= <- _].
Qed.

Lemma put_slot r f s hash k v n n' old :
  rep f s -> f (mask hash (depth_of r)) = Some n -> child_put r hash k v n = Some (n', old) ->
  exists s' f', put_mut r hash k v s = Some (s', old) /\ rep f' s' /\
    f' (mask hash (depth_of r)) = Some n' /\ forall j, j <> mask hash (depth_of r) -> f' j = f j.
Proof.
  intros Hrep Hf Hchild. pose proof (mask_range hash (depth_of r)) as Hi.
  rewrite (put_shape r f s _ _ _ n), Hchild by done. cbn.
  destruct (eqb (is_data n') (is_data n)) eqn:Hk.
  - apply eqb_prop in Hk. eexists _, _. split_and!; [done|by eapply rep_set_slot|apply upd_eq|].
    intros j Hj. by apply upd_ne.
  - pose proof (child_put_kind _ _ _ _ _ _ _ Hchild) as Hkind.
    destruct (is_data n') eqn:Hn', (is_data n) eqn:Hn; try done; [by discriminate Hkind|].
    destruct (rep_replace_entry f s _ n n' Hrep Hi Hf Hn Hn') as (s' & Hs' & Hrep').
    unfold slot_index. rewrite Hn, Hs'. cbn. eexists _, _. split_and!; [done..|apply upd_eq|].
    intros j Hj. by rewrite !upd_ne.
Qed.

(** The effect on a slot is the effect on the map. *)
Lemma puts_slot r f s f' s' k v n' :
  rep f s -> slots_wf r f -> rep f' s' ->
  f' (mask (hash_of k) (depth_of r)) = Some n' ->
  (forall j, j <> mask (hash_of k) (depth_of r) -> f' j = f j) -> node_wf r n' ->
  puts k v (slot_content r f (mask (hash_of k) (depth_of r))) (content r n') ->
  wf r s' /\ puts k v (stored r s) (stored r s').
Proof.
  intros Hrep Hwf Hrep' Hf' Hother Hn' Hput. set (i := mask (hash_of k) (depth_of r)) in *.
  assert (slots_wf r f') as Hwf'.
  { intros j n Hj Hfj. destruct (decide (j = i)) as [->|Hne].
    - rewrite Hf' in Hfj. injection Hfj as <-. split; [done|]. intros e He. apply Hput in He.
      case_decide as Hk; [by rewrite Hk|]. destruct He as (n & Hfn & Hc). by apply (Hwf i n).
    - rewrite Hother in Hfj by done. by apply Hwf. }
  split; [apply wf_slots; eauto|]. intros e.
  assert (puts k v (slot_content r f i) (slot_content r f' i)) as Hslot.
  { intros e'. rewrite <- (Hput e'). unfold slot_content. rewrite Hf'. split; [|eauto].
    by intros (n & [= ->] & ?). }
  rewrite (stored_slot r f' s') by done.
  destruct (decide (mask (hash_of (key e)) (depth_of r) = i)) as [He|He].
  - rewrite He, (Hslot e). case_decide; [done|]. rewrite (stored_slot r f s) by done. by rewrite He.
  - case_decide as Hk; [by rewrite Hk in He|]. rewrite (stored_slot r f s) by done.
    unfold slot_content. by rewrite Hother.
Qed.

(** [P] are the entries before, [P'] those after; [F] and [F'] say that there
    are no collisions, [sep] that an entry cannot collide with the new key.
    The size returned for an entry among collisions is not that of the old entry. *)
Record put_effect (k : K) (v : V) (sep P P' : Entry -> Prop) (F F' : Prop) (old : Z) : Prop := {
  put_puts : puts k v P P';
  put_fresh : ~ has_key k P -> old = 0;
  put_size v0 : P (MkEntry k v0) -> old = padded_size (MkEntry k v0) \/ old = plain_size (MkEntry k v);
  put_exact v0 : F -> P (MkEntry k v0) -> old = padded_size (MkEntry k v0);
  put_flat : F -> (forall e, P e -> key e <> k -> sep e) -> F'
}.

(** Two entries that go to the same slot, one level down. *)
Lemma put_effect_split k v sep (P' : Entry -> Prop) (F' : Prop) e0 r :
  k <> key e0 ->
  (forall e, P' e <-> e = e0 \/ e = MkEntry k v) ->
  (sep e0 -> F') ->
  put_effect k v sep (content r (NEntry e0)) P' (node_flat r (NEntry e0)) F' 0.
Proof.
  intros Hk HP' HF. split.
  - intros [k2 v2]. rewrite HP'. cbn. case_decide as Hk2.
    + subst k2. split; [|intros ->; by right]. intros [<-|[= ->]]; done.
    + split; [|by left]. intros [?|[= -> ->]]; done.
  - done.
  - intros v0 Hv0. cbn in Hv0. by subst e0.
  - intros v0 _ Hv0. cbn in Hv0. by subst e0.
  - intros _ Hsep. apply HF, Hsep; [done|]. by apply not_eq_sym.
Qed.

Definition sep_below (r : nat) (k : K) (e : Entry) : Prop :=
  exists r', (r' < r)%nat /\ mask (hash_of (key e)) (depth_of r') <> mask (hash_of k) (depth_of r').

Definition put_ok (r : nat) (s : SubNodes) (k : K) (v : V) : Prop :=
  exists s' old, put_mut r (hash_of k) k v s = Some (s', old) /\ wf r s' /\
    put_effect k v (sep_below (S r) k) (stored r s) (stored r s') (flat r s) (flat r s') old.

Lemma new_collisions_spec k v e0 :
  k <> key e0 ->
  exists c, (c ← push_bin empty_collisions (mask (hash_of (key e0)) collision_depth) e0;
             push_bin c (mask (hash_of k) collision_depth) (MkEntry k v)) = Some c /\
    collisions_wf c /\ forall e, in_bins c e <-> e = e0 \/ e = MkEntry k v.
Proof.
  intros Hk. destruct empty_collisions_wf as [Hwf He].
  destruct (push_bin_spec empty_collisions e0 Hwf) as (c1 & Hc1 & Hwf1 & Hin1).
  { intros [v0 Hv0]. by apply He in Hv0. }
  destruct (push_bin_spec c1 (MkEntry k v) Hwf1) as (c2 & Hc2 & Hwf2 & Hin2).
  { intros [v0 [Hv0|Hv0]%Hin1]; [by apply He in Hv0|]. by rewrite <- Hv0 in Hk. }
  rewrite Hc1. cbn -[push_bin]. exists c2. split_and!; [done..|]. intros e. rewrite Hin2, Hin1.
  split; [|tauto]. intros [[?%He|?]|?]; tauto.
Qed.

Lemma collisions_put_effect c k v :
  collisions_wf c ->
  exists c' old, collisions_put_mut get_size_k get_size_v c (hash_of k) k v = Some (c', old) /\
    collisions_wf c' /\
    put_effect k v (sep_below 0 k) (content 0 (NCollisions c)) (content 0 (NCollisions c')) False False old.
Proof.
  intros Hc. destruct (collisions_put_spec c k v Hc) as (c' & old & Hput & Hwf & Hputs & Hno & Hyes).
  exists c', old. split_and!; [done..|]. split; [done..| |done|done].
  intros v0 Hv0. right. apply Hyes. by exists v0.
Qed.

Lemma split_effect r k v e0 s' old :
  k <> key e0 ->
  put_effect k v (sep_below (S r) k)
    (stored r (MkSubNodes [NEntry e0] 0 (set_bit 0 (mask (hash_of (key e0)) (depth_of r)))))
    (stored r s') (flat r (MkSubNodes [NEntry e0] 0 (set_bit 0 (mask (hash_of (key e0)) (depth_of r)))))
    (flat r s') old ->
  put_effect k v (sep_below (S r) k) (content (S r) (NEntry e0)) (content (S r) (NSubNodes s'))
    (node_flat (S r) (NEntry e0)) (node_flat (S r) (NSubNodes s')) 0.
Proof.
  intros Hk Heff. destruct (singleton_wf r e0) as [_ Hst]. apply put_effect_split; [done|..].
  - intros [k2 v2]. cbn [content]. rewrite (put_puts _ _ _ _ _ _ _ _ Heff (MkEntry k2 v2)). cbn [key value].
    case_decide as Hk2.
    + subst k2. split; [intros ->; by right|]. by intros [<-|[= ->]].
    + rewrite Hst. split; [by left|]. by intros [?|[= -> ->]].
  - intros Hsep. cbn [node_flat]. apply (put_flat _ _ _ _ _ _ _ _ Heff).
    + assert (forall n, n ∈ [NEntry e0] -> node_flat r n) as Hf by (by intros n ->%list_elem_of_singleton).
      by destruct r.
    + by intros e ->%Hst _.
Qed.

Lemma child_put_spec r n k v :
  (forall r' s, r = S r' -> wf r' s -> put_ok r' s k v) -> node_wf r n ->
  exists n' old, child_put r (hash_of k) k v n = Some (n', old) /\ node_wf r n' /\
    put_effect k v (sep_below r k) (content r n) (content r n') (node_flat r n) (node_flat r n') old.
Proof.
  intros IH Hn. destruct n as [e0|c|sn].
  - cbn [child_put]. case_decide as Hk.
    { eexists _, _. split_and!; [done..|]. split; [|intros []; by exists (value e0); destruct e0; subst|..|done].
      - intros [k2 v2]. cbn. case_decide; subst.
        + split; [by intros [= ->]|by intros ->].
        + split; [by intros [= -> ->]|]. intros <-. done.
      - intros v0 <-. by left.
      - by intros v0 _ <-. }
    destruct r as [|r].
    + destruct (new_collisions_spec k v e0 Hk) as (c & Hc & Hwf & Hin).
      exists (NCollisions c), 0. split_and!; [|done|].
      * destruct (push_bin _ _ _) as [c1|]; [|done]. cbn -[push_bin] in *. by rewrite Hc.
      * apply put_effect_split; [done..|]. intros (r' & ? & _). lia.
    + destruct (singleton_wf r e0) as [Hwf _].
      destruct (IH r _ eq_refl Hwf) as (s' & old & Hput & Hwf' & Heff). rewrite Hput. cbn.
      eexists _, _. split_and!; [done..|]. by eapply split_effect.
  - destruct r; [|done]. destruct (collisions_put_effect c k v Hn) as (c' & old & Hput & Hwf & Heff).
    cbn [child_put]. rewrite Hput. cbn. by eexists _, _.
  - destruct r as [|r]; [done|]. destruct (IH r sn eq_refl Hn) as (s' & old & Hput & Hwf' & Heff).
    cbn [child_put]. rewrite Hput. cbn. by eexists _, _.
Qed.

(** Entries of other slots cannot collide. *)
Lemma sep_below_slot r k e :
  mask (hash_of (key e)) (depth_of r) = mask (hash_of k) (depth_of r) ->
  sep_below (S r) k e -> sep_below r k e.
Proof.
  intros Hm (r' & Hr & Hne). exists r'. split; [|done]. destruct (decide (r' = r)) as [->|]; [done|lia].
Qed.

Lemma slot_effect r f s f' s' k v n' old :
  rep f s -> slots_wf r f -> rep f' s' ->
  f' (mask (hash_of k) (depth_of r)) = Some n' ->
  (forall j, j <> mask (hash_of k) (depth_of r) -> f' j = f j) -> node_wf r n' ->
  put_effect k v (sep_below r k) (slot_content r f (mask (hash_of k) (depth_of r))) (content r n')
    (forall n, f (mask (hash_of k) (depth_of r)) = Some n -> node_flat r n) (node_flat r n') old ->
  wf r s' /\
  put_effect k v (sep_below (S r) k) (stored r s) (stored r s') (flat r s) (flat r s') old.
Proof.
  intros Hrep Hwf Hrep' Hf' Hother Hn' Heff.
  destruct (puts_slot r f s f' s' k v n' Hrep Hwf Hrep' Hf' Hother Hn' (put_puts _ _ _ _ _ _ _ _ Heff))
    as [Hwf' Hputs].
  set (i := mask (hash_of k) (depth_of r)) in *.
  assert (forall v0, stored r s (MkEntry k v0) <-> slot_content r f i (MkEntry k v0)) as Hkey.
  { intros v0. by apply (stored_slot r f s). }
  assert (flat r s -> forall n, f i = Some n -> node_flat r n) as Hflat.
  { rewrite (flat_slots r f s) by done. intros Hfl n. apply Hfl, mask_range. }
  split; [done|]. split; [done|..].
  - intros Hno. apply (put_fresh _ _ _ _ _ _ _ _ Heff). intros [v0 Hv0]. apply Hno. exists v0. by apply Hkey.
  - intros v0 Hv0. apply (put_size _ _ _ _ _ _ _ _ Heff). by apply Hkey.
  - intros v0 Hfl Hv0. apply (put_exact _ _ _ _ _ _ _ _ Heff); [by apply Hflat|by apply Hkey].
  - intros Hfl Hsep. pose proof (proj1 (flat_slots r f s Hrep) Hfl) as Hold.
    apply (flat_slots r f' s' Hrep'). intros j n Hj Hn. destruct (decide (j = i)) as [->|Hne].
    + rewrite Hf' in Hn. injection Hn as <-. apply (put_flat _ _ _ _ _ _ _ _ Heff); [by apply Hflat|].
      intros e (n & Hn & Hc) Hk. destruct (Hwf i n (mask_range _ _) Hn) as [_ Hm].
      apply sep_below_slot; [by apply Hm|]. apply Hsep; [|done].
      apply (stored_slot r f s); [done..|]. rewrite (Hm e Hc). by exists n.
    + rewrite Hother in Hn by done. by apply (Hold j).
Qed.

Lemma put_effect_proper k v sep P Q P' (F G : Prop) F' old :
  (forall e, P e <-> Q e) -> (G -> F) ->
  put_effect k v sep P P' F F' old -> put_effect k v sep Q P' G F' old.
Proof.
  intros HPQ HGF Heff. split.
  - by eapply puts_proper; [exact HPQ|reflexivity|apply Heff].
  - intros Hno. apply Heff. intros [v0 Hv0%HPQ]. apply Hno. by exists v0.
  - intros v0 Hv0%HPQ. by apply Heff.
  - intros v0 HG Hv0%HPQ. apply Heff; [by apply HGF|done].
  - intros HG Hsep. apply Heff; [by apply HGF|]. intros e He%HPQ. by apply Hsep.
Qed.

Lemma put_spec r s k v : wf r s -> put_ok r s k v.
Proof.
  revert s. induction r as [r IH] using lt_wf_ind. intros s (f & Hrep & Hwf)%wf_slots.
  set (i := mask (hash_of k) (depth_of r)). pose proof (mask_range (hash_of k) (depth_of r)) as Hi.
  destruct (f i) as [n|] eqn:Hf.
  - destruct (Hwf i n Hi Hf) as [Hn _].
    destruct (child_put_spec r n k v) as (n' & old & Hc & Hn' & Heff); [|done|].
    { intros r' s' -> Hs. apply IH; [lia|done]. }
    destruct (put_slot r f s _ k v n n' old Hrep Hf Hc) as (s' & f' & Hput & Hrep' & Hf' & Hother).
    exists s', old. split; [done|]. eapply slot_effect; [done..|].
    eapply put_effect_proper; [| |exact Heff].
    + intros e. unfold slot_content. fold i. rewrite Hf. split; [eauto|]. by intros (? & [= ->] & ?).
    + fold i. rewrite Hf. intros Hfl. by apply Hfl.
  - destruct (put_new r f s (hash_of k) k v Hrep Hf) as (s' & Hput & Hrep').
    exists s', 0. split; [done|]. eapply slot_effect; [done..|apply upd_eq| |done|].
    { intros j Hj. by apply upd_ne. }
    assert (forall e, ~ slot_content r f i e) as Hno.
    { intros e (n & Hn & _). by rewrite Hf in Hn. }
    split; [|done|by intros ? ?%Hno|by intros ? ? ?%Hno|done].
    intros [k2 v2]. cbn. case_decide; subst.
    + split; [by intros [= ->]|by intros ->].
    + split; [by intros [= -> ->]|]. by intros ?%Hno.
Qed.

(** ** Removal *)

Record remove_effect (k : K) (P P' : Entry -> Prop) (F F' : Prop) (old : Z) : Prop := {
  rem_removes : removes k P P';
  rem_fresh : ~ has_key k P -> old = 0;
  rem_size v0 : P (MkEntry k v0) -> old = padded_size (MkEntry k v0) \/ old = plain_size (MkEntry k v0);
  rem_exact v0 : F -> P (MkEntry k v0) -> old = padded_size (MkEntry k v0);
  rem_flat : F -> F'
}.

(** What [remove_mut] makes of the node in the slot. *)
Definition child_remove (r : nat) (hash : Z) (k : K) (n : Node) : option (option Node * Z) :=
  match n, r with
  | NEntry e, _ => Some (if decide (key e = k) then (None, padded_size e) else (Some (NEntry e), 0))
  | NCollisions c, O =>
      '(c', diff) ← collisions_remove_mut get_size_k get_size_v c hash k; Some (Some (NCollisions c'), diff)
  | NSubNodes sn, S r => '(sn', diff) ← remove_mut r hash k sn; Some (Some (NSubNodes sn'), diff)
  | _, _ => None
  end.

Lemma remove_slot r f s hash k n o old :
  rep f s -> f (mask hash (depth_of r)) = Some n -> child_remove r hash k n = Some (o, old) ->
  exists s' f', remove_mut r hash k s = Some (s', old) /\ rep f' s' /\
    f' (mask hash (depth_of r)) = o /\ forall j, j <> mask hash (depth_of r) -> f' j = f j.
Proof.
  intros Hrep Hf Hchild. pose proof (mask_range hash (depth_of r)) as Hi.
  destruct (compressed_slot f s _ n Hrep Hi Hf) as (Hc & Hn & Hd & _).
  assert (forall n', is_data n' = is_data n -> Some n' = o ->
    remove_mut r hash k s = Some (set_node s (slot_index f (mask hash (depth_of r)) n) n', old) ->
    exists s' f', remove_mut r hash k s = Some (s', old) /\ rep f' s' /\
      f' (mask hash (depth_of r)) = o /\ forall j, j <> mask hash (depth_of r) -> f' j = f j) as Hset.
  { intros n' Hk <- Hr. eexists _, _. split_and!; [exact Hr|by apply rep_set_slot|apply upd_eq|].
    intros j Hj. by apply upd_ne. }
  destruct n as [e|c|sn].
  - assert (remove_mut r hash k s =
      if decide (key e = k) then Some (MkSubNodes (erase_at (data_rank f (mask hash (depth_of r))) (nodes s))
        (node_map s) (clear_bit (data_map s) (mask hash (depth_of r))), padded_size e)
      else Some (s, 0)) as Hr.
    { destruct r; cbn [remove_mut]; rewrite Hc, Hd, (as_entry_slot _ _ _ Hn); done. }
    cbn in Hchild. rewrite Hr. case_decide; injection Hchild as <- <-.
    + eexists _, _. split_and!; [done|by eapply rep_erase_data|apply upd_eq|]. intros j Hj. by apply upd_ne.
    + by exists s, f.
  - destruct r; [|done]. cbn [child_remove] in Hchild.
    destruct (collisions_remove_mut _ _ _ _ _) as [[c' d]|] eqn:E; [|done]. injection Hchild as <- <-.
    apply (Hset (NCollisions c')); [done..|]. cbn [remove_mut].
    by rewrite Hc, Hd, (as_collisions_slot _ _ _ Hn); cbn -[collisions_remove_mut]; rewrite E.
  - destruct r as [|r]; [done|]. cbn [child_remove] in Hchild.
    destruct (remove_mut r _ _ _) as [[c' d]|] eqn:E; [|done]. injection Hchild as <- <-.
    apply (Hset (NSubNodes c')); [done..|]. cbn [remove_mut].
    by rewrite Hc, Hd, (as_sub_nodes_slot _ _ _ Hn); cbn; rewrite E.
Qed.

Definition remove_ok (r : nat) (s : SubNodes) (k : K) : Prop :=
  exists s' old, remove_mut r (hash_of k) k s = Some (s', old) /\ wf r s' /\
    remove_effect k (stored r s) (stored r s') (flat r s) (flat r s') old.

Definition option_content (r : nat) (o : option Node) (e : Entry) : Prop :=
  match o with Some n => content r n e | None => False end.

Lemma child_remove_spec r n k :
  (forall r' s, r = S r' -> wf r' s -> remove_ok r' s k) -> node_wf r n ->
  exists o old, child_remove r (hash_of k) k n = Some (o, old) /\ (forall n', o = Some n' -> node_wf r n') /\
    remove_effect k (content r n) (option_content r o) (node_flat r n)
      (forall n', o = Some n' -> node_flat r n') old.
Proof.
  intros IH Hn. destruct n as [e|c|sn]; cbn [child_remove].
  - eexists _, _. split; [by rewrite <- surjective_pairing|]. destruct e as [k' v']. cbn. case_decide; subst; cbn.
    + split; [done|]. split; [|intros Hno; destruct Hno; by exists v'|by intros v0 [= ->]; left|
        by intros v0 _ [= ->]|done].
      intros e. split; [done|]. by intros [? ->].
    + split; [by intros n' [= <-]|]. split; [|done|by intros v0 [= -> ->]|by intros v0 _ [= -> ->]|by intros _ n' [= <-]].
      intros e. split; [|by intros [_ ?]]. by intros ->.
  - destruct r; [|done]. destruct (collisions_remove_spec c k Hn) as (c' & old & Hr & Hwf & Hrem & Hno & Hyes).
    rewrite Hr. cbn. eexists _, _. split_and!; [done|by intros n' [= <-]|].
    split; [done|done| |done|done]. intros v0 Hv0. right. by apply Hyes.
  - destruct r as [|r]; [done|]. destruct (IH r sn eq_refl Hn) as (s' & old & Hr & Hwf & Heff).
    rewrite Hr. cbn. eexists _, _. split_and!; [done|by intros n' [= <-]|].
    destruct Heff. split; [done..|]. intros Hfl n' [= <-]. cbn. auto.
Qed.

Lemma remove_slot_effect r f s f' s' k o old :
  rep f s -> slots_wf r f -> rep f' s' ->
  f' (mask (hash_of k) (depth_of r)) = o ->
  (forall j, j <> mask (hash_of k) (depth_of r) -> f' j = f j) -> (forall n', o = Some n' -> node_wf r n') ->
  remove_effect k (slot_content r f (mask (hash_of k) (depth_of r))) (option_content r o)
    (forall n, f (mask (hash_of k) (depth_of r)) = Some n -> node_flat r n)
    (forall n', o = Some n' -> node_flat r n') old ->
  wf r s' /\ remove_effect k (stored r s) (stored r s') (flat r s) (flat r s') old.
Proof.
  intros Hrep Hwf Hrep' Hf' Hother Hn' Heff. set (i := mask (hash_of k) (depth_of r)) in *.
  assert (slots_wf r f') as Hwf'.
  { intros j n Hj Hfj. destruct (decide (j = i)) as [->|Hne].
    - rewrite Hf' in Hfj. split; [by apply Hn'|]. intros e He.
      assert (option_content r o e) as [_ (n0 & Hn0 & Hc)]%(rem_removes _ _ _ _ _ _ Heff) by (by rewrite Hfj).
      by apply (Hwf i n0).
    - rewrite Hother in Hfj by done. by apply Hwf. }
  assert (forall v0, stored r s (MkEntry k v0) <-> slot_content r f i (MkEntry k v0)) as Hkey.
  { intros v0. by apply (stored_slot r f s). }
  assert (flat r s -> forall n, f i = Some n -> node_flat r n) as Hflat.
  { rewrite (flat_slots r f s) by done. intros Hfl n. apply Hfl, mask_range. }
  split; [apply wf_slots; eauto|]. split.
  - intros e. rewrite (stored_slot r f' s'), (stored_slot r f s) by done. unfold slot_content at 1.
    destruct (decide (mask (hash_of (key e)) (depth_of r) = i)) as [He|He].
    + rewrite He, <- (rem_removes _ _ _ _ _ _ Heff e), Hf'. destruct o as [n|]; cbn.
      * split; [by intros (? & [= ->] & ?)|eauto].
      * split; [by intros (? & ? & _)|done].
    + rewrite Hother by done. split; [|by intros [_ ?]]. intros Hc. split; [|done]. intros Hk. by rewrite Hk in He.
  - intros Hno. apply (rem_fresh _ _ _ _ _ _ Heff). intros [v0 Hv0]. apply Hno. exists v0. by apply Hkey.
  - intros v0 Hv0. apply (rem_size _ _ _ _ _ _ Heff). by apply Hkey.
  - intros v0 Hfl Hv0. apply (rem_exact _ _ _ _ _ _ Heff); [by apply Hflat|by apply Hkey].
  - intros Hfl. pose proof (proj1 (flat_slots r f s Hrep) Hfl) as Hold.
    apply (flat_slots r f' s' Hrep'). intros j n Hj Hn. destruct (decide (j = i)) as [->|Hne].
    + apply (rem_flat _ _ _ _ _ _ Heff); [by apply Hflat|]. by rewrite <- Hf'.
    + rewrite Hother in Hn by done. by apply (Hold j).
Qed.

Lemma remove_spec r s k : wf r s -> remove_ok r s k.
Proof.
  revert s. induction r as [r IH] using lt_wf_ind. intros s (f & Hrep & Hwf)%wf_slots.
  set (i := mask (hash_of k) (depth_of r)). pose proof (mask_range (hash_of k) (depth_of r)) as Hi.
  destruct (f i) as [n|] eqn:Hf.
  - destruct (Hwf i n Hi Hf) as [Hn _].
    destruct (child_remove_spec r n k) as (o & old & Hc & Hn' & Heff); [|done|].
    { intros r' s' -> Hs. apply IH; [lia|done]. }
    destruct (remove_slot r f s _ k n o old Hrep Hf Hc) as (s' & f' & Hrem & Hrep' & Hf' & Hother).
    exists s', old. split; [done|]. eapply remove_slot_effect; [done..|].
    assert (forall e, content r n e <-> slot_content r f i e) as HPQ.
    { intros e. unfold slot_content. rewrite Hf. split; [eauto|]. by intros (? & [= ->] & ?). }
    destruct Heff as [Hr Hfr Hs Hx Hfl]. split.
    + by eapply removes_proper; [exact HPQ|reflexivity|].
    + intros Hno. apply Hfr. intros [v0 Hv0%HPQ]. apply Hno. by exists v0.
    + intros v0 Hv0%HPQ. by apply Hs.
    + intros v0 HG Hv0%HPQ. apply Hx; [by apply HG|done].
    + intros HG. apply Hfl. by apply HG.
  - exists s, 0. assert (remove_mut r (hash_of k) k s = Some (s, 0)) as Hrem.
    { destruct r; cbn [remove_mut]; by rewrite (compressed_none f) by (apply Hrep || done). }
    assert (~ has_key k (stored r s)) as Hno.
    { intros [v0 (n & Hn & _)%(stored_slot r f s)]; [|done..]. cbn in Hn. fold i in Hn. congruence. }
    split_and!; [done|apply wf_slots; eauto|]. split; [|done|..|done].
    + intros e. split; [|by intros [_ ?]]. intros He. split; [|done]. intros Hk. apply Hno.
      exists (value e). destruct e. cbn in *. by subst.
    + intros v0 Hv0. destruct Hno. by exists v0.
    + intros v0 _ Hv0. destruct Hno. by exists v0.
Qed.

(** ** Iteration *)

(** The entries in the order [foreach] visits them. *)
Fixpoint entries (r : nat) (s : SubNodes) : list Entry :=
  concat ((fun n =>
    match n with
    | NEntry e => [e]
    | NCollisions c => match r with O => concat (bins c) | S _ => [] end
    | NSubNodes sn => match r with S r => entries r sn | O => [] end
    end) <$> nodes s).

Definition node_entries (r : nat) (n : Node) : list Entry :=
  match n with
  | NEntry e => [e]
  | NCollisions c => match r with O => concat (bins c) | S _ => [] end
  | NSubNodes sn => match r with S r => entries r sn | O => [] end
  end.

Lemma entries_nodes r s : entries r s = concat (node_entries r <$> nodes s).
Proof. by destruct r. Qed.

Lemma elem_of_concat {A} (x : A) (ll : list (list A)) : x ∈ concat ll <-> exists l, l ∈ ll /\ x ∈ l.
Proof.
  induction ll as [|l ll IH]; cbn.
  - split; [by intros ?%elem_of_nil|]. by intros (l & ?%elem_of_nil & _).
  - rewrite elem_of_app, IH. split.
    + intros [?|(l' & ? & ?)]; [exists l|exists l']; (split; [|done]); apply elem_of_cons; tauto.
    + intros (l' & [-> | ?]%elem_of_cons & ?); [by left|]. right. by exists l'.
Qed.

Lemma entries_stored r s e : e ∈ entries r s <-> stored r s e.
Proof.
  revert s. induction r as [r IH] using lt_wf_ind. intros s.
  rewrite entries_nodes, stored_content, elem_of_concat. setoid_rewrite list_elem_of_fmap.
  assert (forall n, e ∈ node_entries r n <-> content r n e) as Hn.
  { intros [e'|c|sn]; cbn; [apply list_elem_of_singleton|..]; destruct r.
    - apply elem_of_concat.
    - by rewrite elem_of_nil.
    - by rewrite elem_of_nil.
    - apply IH. lia. }
  split.
  - intros (l & (n & -> & Hin) & He). exists n. split; [done|]. by apply Hn.
  - intros (n & Hin & He). exists (node_entries r n). split; [by exists n|by apply Hn].
Qed.

Lemma omap_data_sub f (l : list Z) : omap (data_at f) l ++ omap (sub_at f) l ≡ₚ omap f l.
Proof.
  induction l as [|i l IH]; [done|]. cbn. unfold data_at at 1, sub_at at 1.
  destruct (f i) as [n|]; [|done]. destruct (is_data n); cbn.
  - by rewrite IH.
  - by rewrite <- Permutation_middle, IH.
Qed.

(** Slots hold disjoint sets of keys. *)
Lemma slots_NoDup r f (l : list Z) :
  slots_wf r f -> (forall i, i ∈ l -> 0 <= i < 32) -> NoDup l ->
  (forall i n, i ∈ l -> f i = Some n -> NoDup (key <$> node_entries r n)) ->
  (forall n e, e ∈ node_entries r n -> content r n e) ->
  NoDup (key <$> concat (node_entries r <$> omap f l)).
Proof.
  intros Hwf Hrange Hnd Hnodes Hcont. induction l as [|i l IH]; [constructor|].
  apply NoDup_cons in Hnd as [Hi Hnd].
  assert (NoDup (key <$> concat (node_entries r <$> omap f l))) as Hl.
  { apply IH; [|done|]; intros; [apply Hrange|eapply Hnodes; [|done]]; apply elem_of_cons; tauto. }
  cbn [omap list_omap]. destruct (f i) as [n|] eqn:Hf; [|done].
  rewrite fmap_cons. cbn [concat]. rewrite fmap_app. apply NoDup_app. split_and!; [|..|done].
  { apply (Hnodes i); [|done]. apply elem_of_cons. tauto. }
  intros k (e1 & -> & He1)%list_elem_of_fmap (e2 & Heq & He2)%list_elem_of_fmap.
  apply elem_of_concat in He2 as (? & (n2 & -> & (j & Hj & Hfj)%list_elem_of_omap)%list_elem_of_fmap & He2).
  assert (0 <= i < 32) as Hir by (apply Hrange, elem_of_cons; tauto).
  assert (0 <= j < 32) as Hjr by (apply Hrange, elem_of_cons; tauto).
  destruct (Hwf i n Hir Hf) as [_ Hm1], (Hwf j n2 Hjr Hfj) as [_ Hm2].
  apply Hi. rewrite <- (Hm1 e1), Heq, (Hm2 e2); auto.
Qed.

Lemma bins_NoDup (bs : list (list Entry)) (j0 : nat) :
  (forall j bin, bs !! j = Some bin ->
    NoDup (key <$> bin) /\ forall e, e ∈ bin -> bin_of (key e) = (j0 + j)%nat) ->
  NoDup (key <$> concat bs).
Proof.
  revert j0. induction bs as [|bin bs IH]; intros j0 Hb; [constructor|]. cbn [concat].
  destruct (Hb 0%nat bin eq_refl) as [Hnd Hbin]. rewrite fmap_app. apply NoDup_app. split_and!; [done|..].
  - intros k (e1 & -> & He1)%list_elem_of_fmap (e2 & Heq & He2)%list_elem_of_fmap.
    apply elem_of_concat in He2 as (bin2 & [j Hj]%list_elem_of_lookup & He2).
    destruct (Hb (S j) bin2 Hj) as [_ Hbin2]. specialize (Hbin e1 He1). specialize (Hbin2 e2 He2).
    rewrite Heq in Hbin. lia.
  - apply (IH (S j0)). intros j bin2 Hj. destruct (Hb (S j) bin2 Hj) as [? Hm]. split; [done|].
    intros e He. rewrite (Hm e He). lia.
Qed.

Lemma concat_fmap_perm {A B} (g : A -> list B) (l1 l2 : list A) :
  l1 ≡ₚ l2 -> concat (g <$> l1) ≡ₚ concat (g <$> l2).
Proof.
  induction 1 as [|x l1 l2 _ IH|x y l|l1 l2 l3 _ IH1 _ IH2]; cbn.
  - done.
  - by f_equiv.
  - by rewrite !(assoc_L (++)), (Permutation_app_comm (g y)).
  - by etrans.
Qed.

Lemma entries_NoDup r s : wf r s -> NoDup (key <$> entries r s).
Proof.
  revert s. induction r as [r IH] using lt_wf_ind. intros s (f & Hrep & Hwf)%wf_slots.
  rewrite entries_nodes. pose proof Hrep as [_ Hnodes].
  assert (nodes s ≡ₚ omap f (seqZ 0 32)) as Hperm by (rewrite Hnodes; apply omap_data_sub).
  assert (forall n e, e ∈ node_entries r n -> content r n e) as Hcont.
  { intros [e'|c|sn] e; cbn; [by intros ->%list_elem_of_singleton|..]; destruct r.
    - apply elem_of_concat.
    - by intros ?%elem_of_nil.
    - by intros ?%elem_of_nil.
    - apply entries_stored. }
  rewrite (concat_fmap_perm (node_entries r) _ _ Hperm).
  apply slots_NoDup; [exact Hwf| |apply NoDup_seqZ| |exact Hcont].
  - intros i Hi%elem_of_seqZ. lia.
  - intros i n Hi%elem_of_seqZ Hf. destruct (Hwf i n) as [Hn _]; [lia|done|].
    destruct n as [e|c|sn]; cbn; [apply NoDup_singleton|..]; destruct r; try done.
    + apply (bins_NoDup _ 0). intros j bin Hj. by apply Hn.
    + apply IH; [lia|done].
Qed.

Lemma visit_entries_app {A} (g : A -> Entry -> A * bool) l1 l2 a :
  visit_entries g (l1 ++ l2) a =
  let '(a, go) := visit_entries g l1 a in if go then visit_entries g l2 a else (a, false).
Proof.
  revert a. induction l1 as [|e l1 IH]; intros a; cbn; [done|]. destruct (g a e) as [a' []]; [apply IH|done].
Qed.

Lemma visit_bins_entries {A} (g : A -> Entry -> A * bool) bs a :
  visit_bins g bs a = visit_entries g (concat bs) a.
Proof.
  revert a. induction bs as [|bin bs IH]; intros a; cbn; [done|]. rewrite visit_entries_app.
  destruct (visit_entries g bin a) as [a' []]; [apply IH|done].
Qed.

Lemma visit_nodes_entries {A} (g : A -> Entry -> A * bool) h r l a :
  (forall n a, n ∈ l -> h a n = Some (visit_entries g (node_entries r n) a)) ->
  visit_nodes h l a = Some (visit_entries g (concat (node_entries r <$> l)) a).
Proof.
  revert a. induction l as [|n l IH]; intros a Hl; [done|]. cbn [visit_nodes]. rewrite fmap_cons.
  cbn [concat]. rewrite Hl, visit_entries_app by (apply elem_of_cons; by left). cbn.
  destruct (visit_entries g _ a) as [a' []]; [|done]. apply IH. intros n' a'' Hin. apply Hl, elem_of_cons.
  by right.
Qed.

Lemma foreach_spec {A} r s (g : A -> Entry -> A * bool) a :
  wf r s -> node_foreach r g a s = Some (visit_entries g (entries r s) a).
Proof.
  revert s a. induction r as [r IH] using lt_wf_ind. intros s a (f & Hrep & Hwf)%wf_slots.
  pose proof Hrep as [Hmaps Hnodes].
  assert (pop (data_map s) = Z.of_nat (length (omap (data_at f) (seqZ 0 32)))) as Hpop.
  { apply pop_omap; [lia| |lia]. intros j Hj. apply (Hmaps j Hj). }
  assert (forall n, n ∈ omap (data_at f) (seqZ 0 32) -> is_data n = true) as Hdata.
  { intros n (i & _ & Hi)%list_elem_of_omap. unfold data_at in Hi. destruct (f i) as [n'|]; [|done].
    destruct (is_data n') eqn:E; [|done]. by injection Hi as ->. }
  assert (forall n, n ∈ omap (sub_at f) (seqZ 0 32) -> is_data n = false /\ node_wf r n) as Hsub.
  { intros n (i & Hin%elem_of_seqZ & Hi)%list_elem_of_omap. unfold sub_at in Hi.
    destruct (f i) as [n'|] eqn:Hf; [|done]. destruct (is_data n') eqn:E; [done|]. injection Hi as ->.
    split; [done|]. apply (Hwf i n); [lia|done]. }
  rewrite entries_nodes, Hnodes, fmap_app, concat_app, visit_entries_app.
  set (ds := omap (data_at f) (seqZ 0 32)) in *. set (ns := omap (sub_at f) (seqZ 0 32)) in *.
  clearbody ds ns.
  assert (forall n a, n ∈ ds -> match n with NEntry e => Some (g a e) | _ => None end =
    Some (visit_entries g (node_entries r n) a)) as Hd.
  { intros [e| |] a' Hn%Hdata; [|done..]. cbn. by destruct (g a' e) as [? []]. }
  assert (node_foreach r g a s =
    '(a, go) ← visit_nodes (fun a n => match n with NEntry e => Some (g a e) | _ => None end) ds a;
    if go : bool then
      visit_nodes (fun a n => match r, n with
        | O, NCollisions c => Some (visit_bins g (bins c) a)
        | S r, NSubNodes sn => node_foreach r g a sn
        | _, _ => None end) ns a
    else Some (a, false)) as ->.
  { destruct r; cbn [node_foreach]; by rewrite Hpop, Hnodes, Nat2Z.id, take_app_length, drop_app_length. }
  rewrite (visit_nodes_entries g _ r ds) by done. cbn.
  destruct (visit_entries g _ a) as [a' []]; [|done]. apply visit_nodes_entries.
  intros n a'' [Hk Hn]%Hsub. destruct n as [e|c|sn], r as [|r]; try done; cbn.
  - by rewrite visit_bins_entries.
  - apply IH; [lia|done].
Qed.
End props.
