(* ===== verification/ChampRefinement.v ===== *)
(** The persistent hash map implements a finite map: contents, iteration and
    the sizes it keeps. *)

From S2P Require Import Prelude ChampMap ChampVector ChampMapProps.

Section refinement.
Context {K V : Type} `{EqK : EqDecision K, CountK : !Countable K}.
Context (H : K -> Z) (get_size_k : K -> Z) (get_size_v : V -> Z).

Local Abbreviation Entry := (@Entry K V).
Local Abbreviation Champ := (@Champ K V).
Local Abbreviation stored := (stored (K:=K) (V:=V)).
Local Abbreviation wf := (wf (V:=V) H).
Local Abbreviation padded_size := (padded_size get_size_k get_size_v).
Local Abbreviation plain_size := (plain_size get_size_k get_size_v).
Local Abbreviation champ_put := (champ_put H get_size_k get_size_v).
Local Abbreviation champ_remove := (champ_remove H get_size_k get_size_v).

Inductive ChampOp := CPut (k : K) (v : V) | CRemove (k : K).

Definition champ_step (m : option Champ) (op : ChampOp) : option Champ :=
  m ← m; match op with CPut k v => champ_put m k v | CRemove k => champ_remove m k end.

Definition gmap_step (g : gmap K V) (op : ChampOp) : gmap K V :=
  match op with CPut k v => <[k := v]> g | CRemove k => delete k g end.

Definition represents (m : Champ) (g : gmap K V) : Prop :=
  wf levels (root m) /\ forall e, stored levels (root m) e <-> g !! key e = Some (value e).

Lemma represents_empty : represents champ_empty ∅.
Proof.
  destruct (empty_wf (V:=V) H levels) as [Hwf Hno]. split; [done|]. intros e. rewrite lookup_empty.
  split; [by intros ?%Hno|done].
Qed.

Lemma has_key_lookup m g k :
  represents m g -> has_key k (stored levels (root m)) <-> is_Some (g !! k).
Proof. intros [_ Hst]. unfold has_key. by setoid_rewrite Hst. Qed.

(** [put] and [remove], with the size the entry had before. *)
Lemma champ_put_spec m g k v :
  represents m g -> exists root' old,
    champ_put m k v = Some (MkChamp root' (if old =? 0 then u64 (map_size m + 1) else map_size m)
      (u64 (u64 (padded_size (MkEntry k v) - old) + serialized_size m))) /\
    represents (MkChamp root' 0 0) (<[k := v]> g) /\
    put_effect get_size_k get_size_v k v (sep_below H (S levels) k) (stored levels (root m))
      (stored levels root') (flat levels (root m)) (flat levels root') old.
Proof.
  intros [Hwf Hst].
  destruct (put_spec H get_size_k get_size_v levels (root m) k v Hwf) as (s' & old & Hput & Hwf' & Heff).
  exists s', old. split; [unfold ChampMap.champ_put; by rewrite Hput|]. split; [|done].
  split; [done|]. intros e. cbn. rewrite (put_puts _ _ _ _ _ _ _ _ _ _ Heff e). case_decide as Hk.
  - subst k. rewrite lookup_insert_eq. split; [by intros ->|by intros [= ->]].
  - rewrite lookup_insert_ne by done. apply Hst.
Qed.

Lemma champ_remove_spec m g k :
  represents m g -> exists root' old,
    champ_remove m k = Some (MkChamp root' (if 0 <? old then u64 (map_size m - 1) else map_size m)
      (u64 (serialized_size m - old))) /\
    represents (MkChamp root' 0 0) (delete k g) /\
    remove_effect get_size_k get_size_v k (stored levels (root m)) (stored levels root')
      (flat levels (root m)) (flat levels root') old.
Proof.
  intros [Hwf Hst].
  destruct (remove_spec H get_size_k get_size_v levels (root m) k Hwf) as (s' & old & Hrem & Hwf' & Heff).
  exists s', old. split; [unfold ChampMap.champ_remove; by rewrite Hrem|]. split; [|done].
  split; [done|]. intros e. cbn. rewrite (rem_removes _ _ _ _ _ _ _ _ Heff e).
  rewrite lookup_delete_Some, Hst. split; intros [? ?]; by split.
Qed.

Lemma champ_run_represents ops m g :
  represents m g -> exists m', foldl champ_step (Some m) ops = Some m' /\
    represents m' (foldl gmap_step g ops).
Proof.
  revert m g. induction ops as [|op ops IH]; intros m g Hm; [eauto|]. cbn [foldl]. destruct op as [k v|k].
  - destruct (champ_put_spec m g k v Hm) as (root' & old & Hput & Hr & _).
    cbn [champ_step mbind option_bind gmap_step]. rewrite Hput. by apply IH.
  - destruct (champ_remove_spec m g k Hm) as (root' & old & Hrem & Hr & _).
    cbn [champ_step mbind option_bind gmap_step]. rewrite Hrem. by apply IH.
Qed.

Definition pair_of (e : Entry) : K * V := (key e, value e).

Lemma represents_entries m g :
  represents m g -> pair_of <$> entries levels (root m) ≡ₚ map_to_list g.
Proof.
  intros [Hwf Hst]. pose proof (entries_NoDup H levels (root m) Hwf) as Hnd.
  apply NoDup_Permutation.
  - apply (NoDup_fmap_1 fst). by rewrite <- list_fmap_compose.
  - apply NoDup_map_to_list.
  - intros [k v]. rewrite elem_of_map_to_list, list_elem_of_fmap. setoid_rewrite entries_stored.
    split.
    + intros ([k' v'] & [= -> ->] & He%Hst). done.
    + intros Hg. exists (MkEntry k v). split; [done|]. by apply Hst.
Qed.

Lemma represents_get m g k : represents m g -> champ_get H m k = Some (g !! k).
Proof.
  intros [Hwf Hst]. destruct (getp_spec H levels (root m) k Hwf) as (o & Ho & Hv).
  unfold champ_get. rewrite Ho. f_equal. apply option_eq. intros v. rewrite Hv.
  apply (Hst (MkEntry k v)).
Qed.

(** C38: The persistent hash map behaves as a finite map, whatever the hash
    function: after any sequence of insertions and removals no pointer is
    read at the wrong type or out of range, every key is found with the value it
    has in the finite map, and [foreach] visits its entries, each once, stopping when
    the visitor says so. *)
Theorem champ_refines_map (ops : list ChampOp) :
  exists m, foldl champ_step (Some champ_empty) ops = Some m /\
    (forall k, champ_get H m k = Some (foldl gmap_step ∅ ops !! k)) /\
    exists l, pair_of <$> l ≡ₚ map_to_list (foldl gmap_step ∅ ops) /\
      forall A (f : A -> Entry -> A * bool) a, champ_foreach m f a = Some (visit_entries f l a).
Proof.
  destruct (champ_run_represents ops _ _ represents_empty) as (m & Hm & Hr). exists m. split; [done|].
  set (g := foldl gmap_step ∅ ops) in *. split.
  - intros k. by apply represents_get.
  - exists (entries levels (root m)). split; [by apply represents_entries|]. intros A f a.
    apply foreach_spec with H. apply Hr.
Qed.

(** ** Sizes *)

(** The bytes the entries take in a snapshot. *)
Definition total_size (g : gmap K V) : Z :=
  foldr Z.add 0 ((fun '(k, v) => padded_size (MkEntry k v)) <$> map_to_list g).

Lemma foldr_add_perm (l1 l2 : list Z) : l1 ≡ₚ l2 -> foldr Z.add 0 l1 = foldr Z.add 0 l2.
Proof. induction 1; cbn; lia. Qed.

Lemma total_nonneg g : 0 <= total_size g.
Proof.
  unfold total_size. generalize (map_to_list g). intros l. induction l as [|[k v] l IH]; [done|].
  rewrite fmap_cons. cbn [foldr]. unfold ChampMap.padded_size at 1.
  pose proof (u64_range (with_padding (get_size_k k) + with_padding (get_size_v v))).
  cbn [key value]. lia.
Qed.

Lemma total_insert g k v :
  g !! k = None -> total_size (<[k := v]> g) = padded_size (MkEntry k v) + total_size g.
Proof.
  intros Hk. unfold total_size.
  rewrite (foldr_add_perm _ ((fun '(k, v) => padded_size (MkEntry k v)) <$> (k, v) :: map_to_list g)).
  - done.
  - by rewrite map_to_list_insert.
Qed.

Lemma total_delete g k v :
  g !! k = Some v -> total_size g = padded_size (MkEntry k v) + total_size (delete k g).
Proof.
  intros Hk. rewrite <- total_insert by apply lookup_delete_eq. by rewrite insert_delete_id.
Qed.

Lemma total_overwrite g k v v0 :
  g !! k = Some v0 ->
  total_size (<[k := v]> g) = padded_size (MkEntry k v) - padded_size (MkEntry k v0) + total_size g.
Proof.
  intros Hk. rewrite <- insert_delete_eq, total_insert by apply lookup_delete_eq.
  rewrite (total_delete g k v0) by done. lia.
Qed.

(** Both sizes of an entry are positive, which holds below 4 GB. *)
Definition sized (k : K) (v : V) : Prop := 0 < plain_size (MkEntry k v) /\ 0 < padded_size (MkEntry k v).

Definition op_sized (op : ChampOp) : Prop := match op with CPut k v => sized k v | CRemove _ => True end.

Definition all_sized (g : gmap K V) : Prop := map_Forall sized g.

Lemma gmap_step_sized g op : all_sized g -> op_sized op -> all_sized (gmap_step g op).
Proof.
  intros Hg Hop. destruct op as [k v|k]; cbn in *.
  - by apply map_Forall_insert_2.
  - by apply map_Forall_delete.
Qed.

Definition op_key (op : ChampOp) : K := match op with CPut k _ | CRemove k => k end.

Lemma step_represents m g op :
  represents m g -> exists m', champ_step (Some m) op = Some m' /\ represents m' (gmap_step g op).
Proof. intros Hm. apply (champ_run_represents [op] m g Hm). Qed.

Lemma step_map_size m g op m' :
  represents m g -> all_sized g -> op_sized op -> map_size m = Z.of_nat (size g) ->
  Z.of_nat (size g) + 1 < 2 ^ 64 -> champ_step (Some m) op = Some m' ->
  map_size m' = Z.of_nat (size (gmap_step g op)).
Proof.
  intros Hm Hg Hop Hsize Hmax Hstep. destruct op as [k v|k]; cbn [champ_step mbind option_bind gmap_step] in *.
  - destruct (champ_put_spec m g k v Hm) as (root' & old & Hput & _ & Heff). rewrite Hput in Hstep.
    injection Hstep as <-. cbn. destruct (g !! k) as [v0|] eqn:Hk.
    + assert (0 < old) as Hold.
      { destruct (put_size _ _ _ _ _ _ _ _ _ _ Heff v0) as [-> | ->]; [by apply Hm| |apply Hop].
        by apply (Hg k v0). }
      destruct (Z.eqb_spec old 0); [lia|]. by rewrite map_size_insert_Some by eauto.
    + rewrite (put_fresh _ _ _ _ _ _ _ _ _ _ Heff).
      * rewrite map_size_insert_None, Hsize, Z.eqb_refl by done. rewrite u64_small by u64_lia. lia.
      * rewrite has_key_lookup by done. rewrite Hk. by intros [? ?].
  - destruct (champ_remove_spec m g k Hm) as (root' & old & Hrem & _ & Heff). rewrite Hrem in Hstep.
    injection Hstep as <-. cbn. destruct (g !! k) as [v0|] eqn:Hk.
    + assert (0 < old) as Hold.
      { destruct (rem_size _ _ _ _ _ _ _ _ Heff v0) as [-> | ->]; [by apply Hm| |]; by apply (Hg k v0). }
      destruct (Z.ltb_spec 0 old); [|lia]. assert (size (delete k g) = pred (size g)) as Hd by (apply map_size_delete_Some; by exists v0).
      assert (size g <> 0%nat) as Hne by (intros ->%map_size_empty_inv; by rewrite lookup_empty in Hk).
      rewrite Hd, Hsize. rewrite u64_small by u64_lia. lia.
    + rewrite (rem_fresh _ _ _ _ _ _ _ _ Heff).
      * cbn. by rewrite delete_id.
      * rewrite has_key_lookup by done. rewrite Hk. by intros [? ?].
Qed.

Lemma gmap_step_size g op : (size (gmap_step g op) <= S (size g))%nat.
Proof.
  destruct op as [k v|k]; cbn.
  - rewrite map_size_insert. destruct (g !! k); unfold id; lia.
  - rewrite map_size_delete. destruct (g !! k); unfold id; lia.
Qed.

Lemma run_map_size ops m g m' :
  represents m g -> all_sized g -> Forall op_sized ops -> map_size m = Z.of_nat (size g) ->
  Z.of_nat (size g) + Z.of_nat (length ops) < 2 ^ 64 -> foldl champ_step (Some m) ops = Some m' ->
  map_size m' = Z.of_nat (size (foldl gmap_step g ops)).
Proof.
  revert m g. induction ops as [|op ops IH]; intros m g Hm Hg Hops Hsize Hmax Hrun.
  { cbn in Hrun. by injection Hrun as <-. }
  apply Forall_cons in Hops as [Hop Hops]. cbn [length] in Hmax. cbn [foldl] in *.
  destruct (step_represents m g op Hm) as (m1 & Hm1 & Hr). rewrite Hm1 in Hrun.
  pose proof (gmap_step_size g op). apply (IH m1); try done.
  - by apply gmap_step_sized.
  - eapply step_map_size; try done. lia.
  - lia.
Qed.

(** The low 30 bits of two hashes differ. *)
Definition apart (k1 k2 : K) : Prop := hash_of H k1 `mod` 2 ^ 30 <> hash_of H k2 `mod` 2 ^ 30.

#[export] Instance apart_dec k1 k2 : Decision (apart k1 k2) := decide (~ (_ = _)).

Lemma mask_testbit h d j : 0 <= d -> 0 <= j < 5 -> Z.testbit (mask h d) j = Z.testbit h (d * 5 + j).
Proof.
  intros Hd Hj. unfold mask. change index_mask with (Z.ones 5). change index_mask_bits with 5.
  rewrite Z.land_spec, Z.shiftr_spec, Z.testbit_ones_nonneg by lia.
  destruct (Z.ltb_spec j 5); [|lia]. rewrite andb_true_r. f_equal. lia.
Qed.

Lemma masks_low_bits h1 h2 :
  (forall d, 0 <= d < 6 -> mask h1 d = mask h2 d) -> h1 `mod` 2 ^ 30 = h2 `mod` 2 ^ 30.
Proof.
  intros Hm. apply Z.bits_inj'. intros j Hj. destruct (Z.ltb_spec j 30).
  - rewrite !Z.mod_pow2_bits_low by lia. pose proof (Z.div_mod j 5 ltac:(lia)) as Hdm.
    pose proof (Z.mod_pos_bound j 5 ltac:(lia)). pose proof (Z.div_pos j 5 ltac:(lia) ltac:(lia)).
    assert (j / 5 < 6) by (apply Z.div_lt_upper_bound; lia).
    rewrite Hdm. replace (5 * (j / 5) + j `mod` 5) with (j / 5 * 5 + j `mod` 5) by lia.
    rewrite <- !mask_testbit by lia. by rewrite Hm by lia.
  - by rewrite !Z.mod_pow2_bits_high by lia.
Qed.

Lemma apart_separated (k : K) (e : Entry) : apart (key e) k -> sep_below H (S levels) k e.
Proof.
  intros Ha. destruct (decide (Exists (fun r => mask (hash_of H (key e)) (depth_of r) <>
    mask (hash_of H k) (depth_of r)) (seq 0 (S levels)))) as [Hex|Hno].
  - apply Exists_exists in Hex as (r & Hr%elem_of_seq & Hne). exists r. split; [lia|done].
  - destruct Ha. apply masks_low_bits. intros d Hd. apply dec_stable. intros Hne. apply Hno, Exists_exists.
    exists (Z.to_nat (5 - d)). split; [apply elem_of_seq; change (S levels) with 6%nat; lia|].
    unfold depth_of. change (collision_depth - 1) with 5. by replace (5 - Z.of_nat (Z.to_nat (5 - d))) with d by lia.
Qed.

(** The keys of the map and of the operation do not collide. *)
Definition op_apart (g : gmap K V) (op : ChampOp) : Prop :=
  forall k, is_Some (g !! k) -> k <> op_key op -> apart k (op_key op).

Lemma step_serialized_size m g op m' :
  represents m g -> flat levels (root m) -> serialized_size m = u64 (total_size g) -> op_apart g op ->
  champ_step (Some m) op = Some m' ->
  flat levels (root m') /\ serialized_size m' = u64 (total_size (gmap_step g op)).
Proof.
  intros Hm Hflat Hser Hap Hstep. destruct op as [k v|k]; cbn [champ_step mbind option_bind gmap_step] in *.
  - destruct (champ_put_spec m g k v Hm) as (root' & old & Hput & _ & Heff). rewrite Hput in Hstep.
    injection Hstep as <-. cbn. split.
    { apply (put_flat _ _ _ _ _ _ _ _ _ _ Heff Hflat). intros e He Hk. apply apart_separated, Hap; [|done].
      exists (value e). by apply Hm. }
    rewrite Hser, u64_add_l, u64_add_r. f_equal. destruct (g !! k) as [v0|] eqn:Hk.
    + rewrite (put_exact _ _ _ _ _ _ _ _ _ _ Heff v0 Hflat) by (by apply Hm).
      by rewrite (total_overwrite g k v v0).
    + rewrite (put_fresh _ _ _ _ _ _ _ _ _ _ Heff), total_insert by
        (done || rewrite has_key_lookup by done; rewrite Hk; by intros [? ?]). lia.
  - destruct (champ_remove_spec m g k Hm) as (root' & old & Hrem & _ & Heff). rewrite Hrem in Hstep.
    injection Hstep as <-. cbn. split; [by apply (rem_flat _ _ _ _ _ _ _ _ Heff)|].
    rewrite Hser, u64_sub_l. f_equal. destruct (g !! k) as [v0|] eqn:Hk.
    + rewrite (rem_exact _ _ _ _ _ _ _ _ Heff v0 Hflat), (total_delete g k v0) by (done || by apply Hm). lia.
    + rewrite (rem_fresh _ _ _ _ _ _ _ _ Heff), delete_id by
        (done || rewrite has_key_lookup by done; rewrite Hk; by intros [? ?]). lia.
Qed.

(** The keys of the operations do not collide. *)
Definition keys_apart (ks : list K) : Prop := forall k1 k2, k1 ∈ ks -> k2 ∈ ks -> k1 <> k2 -> apart k1 k2.

Lemma gmap_step_keys g op k : is_Some (gmap_step g op !! k) -> is_Some (g !! k) \/ k = op_key op.
Proof.
  destruct op as [k' v|k']; cbn.
  - rewrite lookup_insert_is_Some'. intros [->|?]; [by right|by left].
  - rewrite lookup_delete_is_Some. intros [_ ?]. by left.
Qed.

Lemma run_serialized_size ks ops m g m' :
  keys_apart ks -> (forall k, is_Some (g !! k) -> k ∈ ks) -> Forall (fun op => op_key op ∈ ks) ops ->
  represents m g -> flat levels (root m) -> serialized_size m = u64 (total_size g) ->
  foldl champ_step (Some m) ops = Some m' -> serialized_size m' = u64 (total_size (foldl gmap_step g ops)).
Proof.
  intros Hks. revert m g. induction ops as [|op ops IH]; intros m g Hg Hops Hm Hflat Hser Hrun.
  { cbn in Hrun. by injection Hrun as <-. }
  apply Forall_cons in Hops as [Hop Hops]. cbn [foldl] in *.
  destruct (step_represents m g op Hm) as (m1 & Hm1 & Hr). rewrite Hm1 in Hrun.
  destruct (step_serialized_size m g op m1) as [Hflat1 Hser1]; [done..| |done|].
  { intros k Hk Hne. apply Hks; [by apply Hg|done|done]. }
  apply (IH m1); try done. intros k [Hk| ->]%gmap_step_keys; [by apply Hg|done].
Qed.

(** The map knows its sizes: [size()] is the number of entries, and
    [get_serialized_size()] is the number of bytes its snapshot takes as long as no
    two keys agree in the low 30 bits of their hashes. *)
Theorem champ_sizes (ops : list ChampOp) (m : Champ) :
  Forall op_sized ops -> Z.of_nat (length ops) < 2 ^ 64 ->
  foldl champ_step (Some champ_empty) ops = Some m ->
  map_size m = Z.of_nat (size (foldl gmap_step ∅ ops)) /\
  (keys_apart (op_key <$> ops) -> serialized_size m = u64 (total_size (foldl gmap_step ∅ ops))).
Proof.
  intros Hops Hmax Hrun. split.
  - eapply run_map_size; [apply represents_empty|apply map_Forall_empty|done..].
  - intros Hks. eapply run_serialized_size; [done| | |apply represents_empty|..|done].
    + intros k. rewrite lookup_empty. by intros [? ?].
    + apply Forall_forall. intros op Hop. by apply list_elem_of_fmap_2.
    + intros n Hn. by apply elem_of_nil in Hn.
    + done.
Qed.
End refinement.

Lemma champ_sizes_witness :
  let ops := [CPut 1 10; CPut 33 20; CPut 1 30; CRemove 1; CPut 2 5] in
  exists m, foldl (champ_step (fun k : Z => k) (fun _ => 4) (fun _ : Z => 8)) (Some champ_empty) ops = Some m /\
    map_size m = 2 /\ serialized_size m = 32.
Proof.
  intros ops.
  destruct (foldl (champ_step (fun k : Z => k) (fun _ => 4) (fun _ : Z => 8)) (Some champ_empty) ops)
    as [m|] eqn:E; [|vm_compute in E; discriminate].
  exists m. split; [reflexivity|].
  destruct (champ_sizes (fun k : Z => k) (fun _ => 4) (fun _ : Z => 8) ops m) as [Hs Hser].
  - repeat constructor; vm_compute; intros; discriminate.
  - vm_compute. reflexivity.
  - exact E.
  - split; [rewrite Hs; vm_compute; reflexivity|]. rewrite Hser; [vm_compute; reflexivity|].
    intros k k' Hk Hk' Hne. change (op_key <$> ops) with [1; 33; 1; 1; 2] in *.
    rewrite !elem_of_cons, elem_of_nil in Hk, Hk'.
    destruct_or!; subst; try (destruct Hne; reflexivity); try contradiction; vm_compute; discriminate.
Defined.
