(* ===== verification/KvSnapshotProps.v ===== *)
(** Snapshots of a state: champ::Snapshot of src/ds/champ_map.h, the serialisers of src/ds/map_serializers.h and
    src/kv/untyped_change_set.h; a state read back from its snapshot has the same contents.

    [std::sort] is a parameter: it is not stable, so the order of entries with equal hashes is not determined.  [CCF_ASSERT]
    checks nothing in a release build. *)

From S2P Require Import Prelude Serialized KvMap ChampMap ChampVector ChampMapProps ChampRefinement.

Abbreviation state_entry := (@Entry Key VersionV).
Abbreviation State := (@Champ Key VersionV).

(** ** Keys and values *)

(** [get_size<SerialisedEntry>] and [get_size<VersionV>]. *)
Definition entry_size (k : Key) : Z := u64 (8 + Z.of_nat (length k)).
Definition versionv_size (x : VersionV) : Z := u64 (8 + 8 + Z.of_nat (length (KvMap.value x))).

(** [serialize<SerialisedEntry>]: returns the number of bytes written. *)
Definition serialize_entry (t : Key) : Writer Z :=
  let data_size := Z.of_nat (length t) in
  write 8 data_size;;
  write_block t;;
  mret (u64 (8 + data_size)).

(** [serialize<VersionV>]. *)
Definition serialize_versionv (t : VersionV) : Writer Z :=
  let data_size := u64 (8 + Z.of_nat (length (KvMap.value t))) in
  write 8 data_size;;
  write 8 (u64 (KvMap.version t));;
  write_block (KvMap.value t);;
  mret (u64 (8 + 8 + Z.of_nat (length (KvMap.value t)))).

Definition add_padding (data_size : Z) : Writer unit :=
  let padding_size := get_padding data_size in
  if negb (padding_size =? 0) then write_block (replicate (Z.to_nat padding_size) 0) else skip.

(** [ret.append(data, data + data_size)] reads [data_size] bytes unchecked. *)
Definition append_bytes (data_size : Z) : Reader bytes :=
  data ← get;
  if Z.of_nat (length data) <? data_size then throw UndefinedBehaviour
  else mret (take (Z.to_nat data_size) data).

Definition deserialize_entry : Reader Key :=
  data_size ← read 8;
  ret ← append_bytes data_size;
  skip_bytes data_size;;
  mret ret.

(** The read version is not stored: it is [NoVersion] in the result. *)
Definition deserialize_versionv : Reader VersionV :=
  data_size ← read 8;
  version ← read 8;
  let data_size := u64 (data_size - 8) in
  value ← append_bytes data_size;
  skip_bytes data_size;;
  mret (MkVersionV (i64 version) NoVersion value).

Section snapshot.
(** [H()] and [std::sort] with the comparison of the hashes. *)
Context (H : Key -> Z) (sort : list state_entry -> list state_entry).

Definition write_pair (e : state_entry) : Writer unit :=
  key_size ← serialize_entry (key e);
  add_padding (u32 key_size);;
  value_size ← serialize_versionv (value e);
  add_padding (u32 value_size).

(** The bytes an entry takes, as the first loop of [serialize] adds them up. *)
Definition pair_size (e : state_entry) : Z :=
  let ks := u32 (entry_size (key e)) in
  let vs := u32 (versionv_size (value e)) in
  u32 (u32 (ks + get_padding ks) + u32 (vs + get_padding vs)).

(** [Map::Snapshot::serialise] allocates [get_serialized_size()] bytes, zeroed,
    and [Snapshot::serialize] writes what [foreach] finds, with a bound of its
    own: writing more than what was allocated is undefined behaviour. *)
Definition serialize_state (m : State) : outcome bytes :=
  match champ_foreach m (fun '(es, size) e => ((es ++ [e], u64 (size + pair_size e)), true)) ([], 0) with
  | None => Throw UndefinedBehaviour
  | Some ((es, size), _) =>
      match foreach (sort es) write_pair (MkBuffer [] size) with
      | (b, Ret _) =>
          let extra := serialized_size m - Z.of_nat (length (written b)) in
          if extra <? 0 then Throw UndefinedBehaviour
          else Ret (written b ++ replicate (Z.to_nat extra) 0)
      | (_, Throw e) => Throw e
      end
  end.

(** One iteration of the loop of [deserialize_map]. *)
Definition read_pair : Reader (Key * VersionV) :=
  before ← get;
  key ← deserialize_entry;
  after ← get;
  skip_bytes (get_padding (u32 (Z.of_nat (length before) - Z.of_nat (length after))));;
  before ← get;
  value ← deserialize_versionv;
  after ← get;
  skip_bytes (get_padding (u32 (Z.of_nat (length before) - Z.of_nat (length after))));;
  mret (key, value).

(** [fuel] bounds the iterations, each of which reads at least 24 bytes. *)
Fixpoint deserialize_loop (fuel : nat) (map : State) : Reader State :=
  size ← gets length;
  match size, fuel with
  | O, _ => mret map
  | S _, O => throw UndefinedBehaviour
  | S _, S fuel =>
      '(k, v) ← read_pair;
      match champ_put H entry_size versionv_size map k v with
      | Some map => deserialize_loop fuel map
      | None => throw UndefinedBehaviour
      end
  end.

Definition deserialize_map (data : bytes) : outcome State :=
  snd (deserialize_loop (length data) champ_empty data).
End snapshot.

(** ** Writers and readers *)

(** [w] writes [out], if there is room, and returns [a]. *)
Definition emits {A} (w : Writer A) (a : A) (out : bytes) : Prop :=
  forall b, Z.of_nat (length out) <= remaining b ->
    w b = (MkBuffer (written b ++ out) (remaining b - Z.of_nat (length out)), Ret a).

(** [r] reads [out] as [a], whatever follows. *)
Definition reads {A} (r : Reader A) (out : bytes) (a : A) : Prop :=
  forall rest, r (out ++ rest) = (rest, Ret a).

Lemma emits_ret {A} (a : A) : emits (mret a) a [].
Proof.
  intros [wr re] _. cbn. unfold mret, ST_ret. by rewrite app_nil_r, Z.sub_0_r.
Qed.

Lemma emits_bind {A B} (w : Writer A) (f : A -> Writer B) a b out1 out2 :
  emits w a out1 -> emits (f a) b out2 -> emits (x ← w; f x) b (out1 ++ out2).
Proof.
  intros H1 H2 buf Hlen. rewrite length_app in Hlen. unfold mbind, ST_bind.
  rewrite H1 by lia. rewrite H2 by (cbn; lia). cbn. rewrite (assoc_L (++)), length_app. do 2 f_equal. lia.
Qed.

Lemma emits_block block : emits (write_block block) tt block.
Proof.
  intros b Hlen. rewrite write_block_spec. by destruct (Z.ltb_spec (remaining b) (Z.of_nat (length block))); [lia|].
Qed.

Lemma emits_write n v : emits (write n v) tt (le_encode n v).
Proof. apply emits_block. Qed.

Lemma reads_ret {A} (a : A) : reads (mret a) [] a.
Proof. done. Qed.

Lemma reads_bind {A B} (r : Reader A) (f : A -> Reader B) a b out1 out2 :
  reads r out1 a -> reads (f a) out2 b -> reads (x ← r; f x) (out1 ++ out2) b.
Proof. intros H1 H2 rest. unfold mbind, ST_bind. by rewrite <- (assoc_L (++)), H1, H2. Qed.

Lemma reads_read n v : 0 <= v < 256 ^ Z.of_nat n -> reads (read n) (le_encode n v) v.
Proof. intros Hv rest. by apply read_app. Qed.

Lemma skip_bytes_app block rest :
  skip_bytes (Z.of_nat (length block)) (block ++ rest) = (rest, Ret tt).
Proof.
  unfold skip_bytes, mbind, ST_bind, get, modify. rewrite length_app.
  destruct (Z.ltb_spec (Z.of_nat (length block + length rest)) (Z.of_nat (length block))); [lia|].
  by rewrite Nat2Z.id, drop_app_length.
Qed.

Lemma append_bytes_app block rest :
  append_bytes (Z.of_nat (length block)) (block ++ rest) = (block ++ rest, Ret block).
Proof.
  unfold append_bytes, mbind, ST_bind, get. rewrite length_app.
  destruct (Z.ltb_spec (Z.of_nat (length block + length rest)) (Z.of_nat (length block))); [lia|].
  by rewrite Nat2Z.id, take_app_length.
Qed.

(** Copying a block and skipping it. *)
Lemma reads_block {A} block (f : bytes -> A) :
  reads (ret ← append_bytes (Z.of_nat (length block)); skip_bytes (Z.of_nat (length block));; mret (f ret))
    block (f block).
Proof.
  intros rest. unfold mbind, ST_bind. by rewrite append_bytes_app, skip_bytes_app.
Qed.

(** ** Keys and values *)

Definition entry_bytes (k : Key) : bytes := le_encode 8 (Z.of_nat (length k)) ++ k.

Definition versionv_bytes (x : VersionV) : bytes :=
  le_encode 8 (8 + Z.of_nat (length (KvMap.value x))) ++ le_encode 8 (u64 (KvMap.version x)) ++ KvMap.value x.

Definition padding_bytes (n : Z) : bytes := replicate (Z.to_nat (get_padding n)) 0.

(** Sizes for which nothing wraps around. *)
Definition small (l : bytes) : Prop := Z.of_nat (length l) < 2 ^ 30.

Definition in_range (x : VersionV) : Prop := - 2 ^ 63 <= KvMap.version x < 2 ^ 63.

Lemma emits_entry k : small k -> emits (serialize_entry k) (8 + Z.of_nat (length k)) (entry_bytes k).
Proof.
  intros Hk. unfold small in Hk. unfold serialize_entry, entry_bytes. rewrite u64_small by u64_lia.
  eapply emits_bind; [apply emits_write|]. rewrite <- (app_nil_r k) at 3.
  eapply emits_bind; [apply emits_block|apply emits_ret].
Qed.

Lemma emits_versionv x :
  small (KvMap.value x) ->
  emits (serialize_versionv x) (16 + Z.of_nat (length (KvMap.value x))) (versionv_bytes x).
Proof.
  intros Hk. unfold small in Hk. unfold serialize_versionv, versionv_bytes.
  rewrite !(u64_small (8 + _)) by u64_lia. rewrite (u64_small (8 + 8 + _)) by u64_lia.
  eapply emits_bind; [apply emits_write|]. eapply emits_bind; [apply emits_write|].
  rewrite <- (app_nil_r (KvMap.value x)) at 3. eapply emits_bind; [apply emits_block|].
  apply emits_ret.
Qed.

Lemma emits_padding n : emits (add_padding n) tt (padding_bytes n).
Proof.
  unfold add_padding, padding_bytes. destruct (Z.eqb_spec (get_padding n) 0) as [->|_]; cbn.
  - apply emits_ret.
  - apply emits_block.
Qed.

Lemma reads_entry k : small k -> reads deserialize_entry (entry_bytes k) k.
Proof.
  intros Hk. unfold small in Hk. unfold deserialize_entry, entry_bytes.
  eapply reads_bind; [apply reads_read; lia|]. apply (reads_block k id).
Qed.

Definition clean (x : VersionV) : VersionV := MkVersionV (KvMap.version x) NoVersion (KvMap.value x).

Lemma i64_u64 v : - 2 ^ 63 <= v < 2 ^ 63 -> i64 (u64 v) = v.
Proof.
  intros Hv. unfold i64, u64, u64_modulus. rewrite Z.add_mod_idemp_l by lia. rewrite Z.mod_small; lia.
Qed.

Lemma reads_versionv x :
  small (KvMap.value x) -> in_range x -> reads deserialize_versionv (versionv_bytes x) (clean x).
Proof.
  intros Hk Hr. unfold small in Hk. unfold deserialize_versionv, versionv_bytes.
  eapply reads_bind; [apply reads_read; lia|].
  eapply reads_bind; [apply reads_read; pose proof (u64_range (KvMap.version x)); by unfold u64_modulus in *|].
  cbn zeta. rewrite (u64_small (8 + _ - 8)) by u64_lia.
  replace (8 + Z.of_nat (length (KvMap.value x)) - 8) with (Z.of_nat (length (KvMap.value x))) by lia.
  rewrite i64_u64 by done. apply (reads_block (KvMap.value x) (fun v => MkVersionV _ NoVersion v)).
Qed.

(** ** Pairs *)

Definition good (e : state_entry) : Prop :=
  small (key e) /\ small (KvMap.value (value e)) /\ in_range (value e).

Definition pair_bytes (e : state_entry) : bytes :=
  (entry_bytes (key e) ++ padding_bytes (8 + Z.of_nat (length (key e)))) ++
  versionv_bytes (value e) ++ padding_bytes (16 + Z.of_nat (length (KvMap.value (value e)))).

Lemma get_padding_range n : 0 <= get_padding n < 8.
Proof.
  unfold get_padding. pose proof (Z.mod_pos_bound n 8 ltac:(lia)).
  destruct (Z.eqb_spec (n `mod` 8) 0); lia.
Qed.

Lemma length_padding n : Z.of_nat (length (padding_bytes n)) = get_padding n.
Proof. unfold padding_bytes. rewrite length_replicate. pose proof (get_padding_range n). lia. Qed.

Lemma length_entry_bytes k : Z.of_nat (length (entry_bytes k)) = 8 + Z.of_nat (length k).
Proof. unfold entry_bytes. rewrite length_app, le_encode_length. lia. Qed.

Lemma length_versionv_bytes x :
  Z.of_nat (length (versionv_bytes x)) = 16 + Z.of_nat (length (KvMap.value x)).
Proof. unfold versionv_bytes. rewrite !length_app, !le_encode_length. lia. Qed.

Lemma length_pair_bytes e :
  Z.of_nat (length (pair_bytes e)) =
  8 + Z.of_nat (length (key e)) + get_padding (8 + Z.of_nat (length (key e))) +
  (16 + Z.of_nat (length (KvMap.value (value e))) +
   get_padding (16 + Z.of_nat (length (KvMap.value (value e))))).
Proof.
  unfold pair_bytes. rewrite !length_app, !Nat2Z.inj_add.
  rewrite length_entry_bytes, length_versionv_bytes, !length_padding. lia.
Qed.

(** The size the map keeps, the one [serialize] adds up and the bytes written agree. *)
Lemma pair_size_bytes e :
  good e -> pair_size e = Z.of_nat (length (pair_bytes e)) /\
    padded_size entry_size versionv_size e = Z.of_nat (length (pair_bytes e)).
Proof.
  intros (Hk & Hv & _). unfold small in *. rewrite length_pair_bytes. unfold pair_size, padded_size, with_padding.
  unfold entry_size, versionv_size.
  pose proof (get_padding_range (8 + Z.of_nat (length (key e)))).
  pose proof (get_padding_range (16 + Z.of_nat (length (KvMap.value (value e))))).
  rewrite !(u64_small (8 + _)) by u64_lia. replace (8 + 8) with 16 by done.
  rewrite !(u64_small (16 + _)) by u64_lia.
  rewrite !(u32_small (8 + Z.of_nat _)), !(u32_small (16 + Z.of_nat _)) by lia.
  rewrite !(u32_small (8 + Z.of_nat _ + _)), !(u32_small (16 + Z.of_nat _ + _)) by lia.
  split; [rewrite u32_small; lia|rewrite u64_small; u64_lia].
Qed.

Lemma emits_pair e : good e -> emits (write_pair e) tt (pair_bytes e).
Proof.
  intros (Hk & Hv & _). unfold write_pair, pair_bytes. rewrite <- (assoc_L (++)).
  eapply emits_bind; [by apply emits_entry|]. unfold small in *.
  rewrite u32_small by lia. eapply emits_bind; [apply emits_padding|].
  eapply emits_bind; [by apply emits_versionv|]. rewrite u32_small by lia. apply emits_padding.
Qed.

(** A value and the padding that follows it. *)
Lemma reads_padded {A B} (r : Reader A) (f : A -> Reader B) out n a b out2 :
  reads r out a -> Z.of_nat (length out) = n -> n < 2 ^ 32 -> reads (f a) out2 b ->
  reads (before ← get; x ← r; after ← get;
         skip_bytes (get_padding (u32 (Z.of_nat (length before) - Z.of_nat (length after))));; f x)
    ((out ++ padding_bytes n) ++ out2) b.
Proof.
  intros Hr Hlen Hn Hf rest. unfold mbind, ST_bind, get. rewrite <- !(assoc_L (++)).
  rewrite Hr. rewrite !length_app.
  replace (Z.of_nat _ - Z.of_nat _) with n by lia. rewrite u32_small by lia.
  rewrite <- (length_padding n), skip_bytes_app. apply Hf.
Qed.

Lemma reads_pair e : good e -> reads read_pair (pair_bytes e) (key e, clean (value e)).
Proof.
  intros (Hk & Hv & Hr). unfold read_pair, pair_bytes. unfold small in *.
  apply reads_padded with (a := key e); [by apply reads_entry|by rewrite length_entry_bytes|lia|].
  rewrite <- (app_nil_r (versionv_bytes _ ++ _)).
  apply reads_padded with (a := clean (value e)); [by apply reads_versionv|by rewrite length_versionv_bytes|lia|].
  apply reads_ret.
Qed.

(** ** The loops *)

Definition all_bytes (es : list state_entry) : bytes := concat (pair_bytes <$> es).

Lemma emits_pairs es : Forall good es -> emits (foreach es write_pair) tt (all_bytes es).
Proof.
  induction 1 as [|e es He _ IH]; [apply emits_ret|]. eapply emits_bind; [by apply emits_pair|done].
Qed.

Lemma collect_entries es es0 size :
  visit_entries (fun '(es, size) e => ((es ++ [e], u64 (size + pair_size e)), true)) es (es0, size) =
  ((es0 ++ es, foldl (fun size e => u64 (size + pair_size e)) size es), true).
Proof.
  revert es0 size. induction es as [|e es IH]; intros es0 size; cbn; [by rewrite app_nil_r|].
  by rewrite IH, <- (assoc_L (++)).
Qed.

Lemma sum_sizes es size :
  Forall good es -> 0 <= size -> size + Z.of_nat (length (all_bytes es)) < 2 ^ 64 ->
  foldl (fun size e => u64 (size + pair_size e)) size es = size + Z.of_nat (length (all_bytes es)).
Proof.
  intros Hes. revert size. induction Hes as [|e es He _ IH]; intros size Hs Hmax; [cbn; lia|].
  unfold all_bytes in *. rewrite fmap_cons in *. cbn [concat foldl] in *. rewrite length_app in *.
  rewrite (proj1 (pair_size_bytes e He)). rewrite u64_small by u64_lia. rewrite IH; lia.
Qed.

Section round_trip.
Context (H : Key -> Z) (sort : list state_entry -> list state_entry).

Implicit Types (es : list state_entry) (g : gmap Key VersionV).
Local Abbreviation champ_step := (champ_step H entry_size versionv_size).

Definition put_clean (e : state_entry) : ChampOp := CPut (key e) (clean (value e)).

Lemma pair_bytes_cons e : exists b out, pair_bytes e = b :: out.
Proof.
  destruct (pair_bytes e) as [|b out] eqn:E; [|eauto].
  apply (f_equal (fun l => Z.of_nat (length l))) in E. rewrite length_pair_bytes in E. cbn in E.
  pose proof (get_padding_range (8 + Z.of_nat (length (key e)))).
  pose proof (get_padding_range (16 + Z.of_nat (length (KvMap.value (value e))))). lia.
Qed.

Lemma loop_reads es fuel m m' :
  Forall good es -> (length es <= fuel)%nat -> foldl champ_step (Some m) (put_clean <$> es) = Some m' ->
  deserialize_loop H fuel m (all_bytes es) = ([], Ret m').
Proof.
  intros Hes. revert fuel m. induction Hes as [|e es He _ IH]; intros fuel m Hfuel Hrun.
  { injection Hrun as <-. by destruct fuel. }
  destruct fuel as [|fuel]; [cbn in Hfuel; lia|]. cbn [length] in Hfuel.
  rewrite fmap_cons in Hrun. cbn [foldl champ_step put_clean mbind option_bind] in Hrun.
  destruct (champ_put H entry_size versionv_size m (key e) (clean (value e))) as [m1|] eqn:Hput.
  - unfold all_bytes in *. rewrite fmap_cons. cbn [concat]. destruct (pair_bytes_cons e) as (b & out & Hb).
    pose proof (reads_pair e He (concat (pair_bytes <$> es))) as Hread. rewrite Hb in Hread |- *.
    cbn [deserialize_loop]. unfold mbind at 1, ST_bind at 1, gets. cbn [length app].
    unfold mbind, ST_bind. cbn [app] in Hread. rewrite Hread, Hput. apply IH; [lia|done].
  - exfalso. clear -Hrun. induction (put_clean <$> es); cbn in Hrun; [done|auto].
Qed.

Lemma fold_clean_lookup (es : list state_entry) (g0 : gmap Key VersionV) :
  NoDup (key <$> es) ->
  (forall e, e ∈ es -> foldl gmap_step g0 (put_clean <$> es) !! key e = Some (clean (value e))) /\
  (forall k, k ∉ key <$> es -> foldl gmap_step g0 (put_clean <$> es) !! k = g0 !! k).
Proof.
  revert g0. induction es as [|e es IH]; intros g0 Hnd.
  { split; [by intros ? ?%elem_of_nil|done]. }
  rewrite fmap_cons in Hnd. apply NoDup_cons in Hnd as [Hk Hnd]. rewrite fmap_cons. cbn [foldl put_clean gmap_step].
  destruct (IH (<[key e := clean (value e)]> g0) Hnd) as [Hin Hout]. split.
  - intros e' [-> | He']%elem_of_cons; [|by apply Hin]. rewrite Hout by done. apply lookup_insert_eq.
  - intros k Hk'. rewrite fmap_cons, elem_of_cons in Hk'. rewrite Hout by tauto.
    apply lookup_insert_ne. intros Hke. apply Hk'. by left.
Qed.

Lemma fold_clean_perm (es : list state_entry) (g : gmap Key VersionV) k :
  pair_of <$> es ≡ₚ map_to_list g ->
  foldl gmap_step ∅ (put_clean <$> es) !! k = clean <$> g !! k.
Proof.
  intros Hp. assert (NoDup (key <$> es)) as Hnd.
  { pose proof (NoDup_fst_map_to_list g) as Hg. rewrite <- Hp, <- list_fmap_compose in Hg. done. }
  destruct (fold_clean_lookup es ∅ Hnd) as [Hin Hout].
  assert (forall v, MkEntry k v ∈ es <-> g !! k = Some v) as Hes.
  { intros v. rewrite <- elem_of_map_to_list, <- Hp, list_elem_of_fmap. split.
    - intros He. by exists (MkEntry k v).
    - by intros ([k' v'] & [= -> ->] & ?). }
  destruct (g !! k) as [v|] eqn:Hk; cbn.
  - by apply (Hin (MkEntry k v)), Hes.
  - rewrite Hout; [by rewrite lookup_empty|]. intros ([k' v'] & -> & He)%list_elem_of_fmap.
    apply Hes in He. congruence.
Qed.

Lemma total_all_bytes (es : list state_entry) (g : gmap Key VersionV) :
  Forall good es -> pair_of <$> es ≡ₚ map_to_list g ->
  total_size entry_size versionv_size g = Z.of_nat (length (all_bytes es)).
Proof.
  intros Hes Hp. unfold total_size. rewrite (foldr_add_perm _ ((fun '(k, v) =>
    padded_size entry_size versionv_size (MkEntry k v)) <$> (pair_of <$> es))) by (by rewrite Hp).
  clear Hp. unfold all_bytes. induction Hes as [|e es He _ IH]; [done|].
  rewrite !fmap_cons. cbn [foldr concat]. rewrite IH, length_app. destruct e as [k v].
  cbn [pair_of key value]. rewrite (proj2 (pair_size_bytes _ He)). lia.
Qed.

Definition op_good (op : ChampOp) : Prop := match op with CPut k v => good (MkEntry k v) | CRemove _ => True end.

Lemma ops_good (ops : list (@ChampOp Key VersionV)) (g : gmap Key VersionV) :
  Forall op_good ops -> map_Forall (fun k v => good (MkEntry k v)) g ->
  map_Forall (fun k v => good (MkEntry k v)) (foldl gmap_step g ops).
Proof.
  intros Hops. revert g. induction Hops as [|op ops Hop _ IH]; intros g Hg; [done|]. cbn. apply IH.
  destruct op; cbn; [by apply map_Forall_insert_2|by apply map_Forall_delete].
Qed.

Lemma all_bytes_length es : (length es <= length (all_bytes es))%nat.
Proof.
  unfold all_bytes. induction es as [|e es IH]; [done|]. rewrite fmap_cons. cbn [concat length].
  rewrite length_app. destruct (pair_bytes_cons e) as (b & out & ->). cbn [length]. lia.
Qed.

(** Writing fills the buffer if it has the right size. *)
Lemma serialize_state_bytes m g :
  (forall l, sort l ≡ₚ l) -> represents H m g -> map_Forall (fun k v => good (MkEntry k v)) g ->
  total_size entry_size versionv_size g < 2 ^ 64 ->
  serialized_size m = total_size entry_size versionv_size g ->
  exists es, serialize_state sort m = Ret (all_bytes es) /\ Forall good es /\
    pair_of <$> es ≡ₚ map_to_list g.
Proof.
  intros Hsort Hrep Hg Hmax Hser. set (es := entries levels (root m)).
  pose proof (represents_entries H m g Hrep) as Hes. fold es in Hes.
  assert (pair_of <$> sort es ≡ₚ map_to_list g) as Hsorted by (by rewrite Hsort).
  assert (Forall good es) as Hgood.
  { apply Forall_forall. intros [k v] He. apply (Hg k v). apply elem_of_map_to_list. rewrite <- Hes.
    apply list_elem_of_fmap. by exists (MkEntry k v). }
  assert (Forall good (sort es)) as Hsgood by (by rewrite Hsort).
  pose proof (total_all_bytes es g Hgood Hes) as Htot.
  pose proof (total_all_bytes (sort es) g Hsgood Hsorted) as Hstot.
  exists (sort es). split; [|done]. unfold serialize_state, champ_foreach.
  rewrite (foreach_spec H) by apply Hrep. fold es.
  rewrite collect_entries, sum_sizes by (done || lia). cbn [app]. rewrite Z.add_0_l, <- Htot.
  rewrite (emits_pairs (sort es) Hsgood) by (cbn; lia). cbn [written].
  rewrite app_nil_l, Hser, Hstot, Z.sub_diag. cbn. by rewrite app_nil_r.
Qed.

(** C40: A snapshot of a state can be read back: if the keys do not collide,
    serialising the state fills exactly the buffer that was allocated for it, and
    the state read from it has the same keys, versions and values.  Read versions
    are not part of a snapshot. *)
Theorem snapshot_round_trip (ops : list ChampOp) (m : State) :
  (forall l, sort l ≡ₚ l) -> Forall op_good ops -> keys_apart H (op_key <$> ops) ->
  total_size entry_size versionv_size (foldl gmap_step ∅ ops) < 2 ^ 64 ->
  foldl champ_step (Some champ_empty) ops = Some m ->
  exists data m', serialize_state sort m = Ret data /\
    Z.of_nat (length data) = total_size entry_size versionv_size (foldl gmap_step ∅ ops) /\
    deserialize_map H data = Ret m' /\
    forall k, champ_get H m' k = Some (clean <$> foldl gmap_step ∅ ops !! k).
Proof.
  intros Hsort Hops Hap Hmax Hrun. set (g := foldl gmap_step ∅ ops) in *.
  destruct (champ_run_represents H entry_size versionv_size ops _ _ (represents_empty H)) as (m0 & Hm0 & Hrep).
  rewrite Hrun in Hm0. injection Hm0 as <-. fold g in Hrep.
  assert (serialized_size m = u64 (total_size entry_size versionv_size g)) as Hser.
  { eapply (run_serialized_size H _ _ (op_key <$> ops) ops champ_empty ∅);
      [done|by intros k [? ?]| |apply represents_empty|by intros n ?%elem_of_nil|done|done].
    apply Forall_forall. intros op Hop. by apply list_elem_of_fmap_2. }
  pose proof (total_nonneg entry_size versionv_size g).
  rewrite u64_small in Hser by u64_lia.
  destruct (serialize_state_bytes m g Hsort Hrep) as (es & Hdata & Hgood & Hes); [|done..|].
  { apply ops_good; [done|apply map_Forall_empty]. }
  destruct (champ_run_represents H entry_size versionv_size (put_clean <$> es) _ _ (represents_empty H))
    as (m' & Hm' & Hrep').
  exists (all_bytes es), m'. split_and!; [done|by rewrite (total_all_bytes es g)|..].
  - unfold deserialize_map. by rewrite (loop_reads es _ _ m') by (done || apply all_bytes_length).
  - intros k. rewrite (represents_get H m' _ k Hrep'). by rewrite (fold_clean_perm es g k Hes).
Qed.
End round_trip.

(** Sorting by hash. *)
Definition by_hash (H : Key -> Z) (e1 e2 : state_entry) : Prop := hash_of H (key e1) <= hash_of H (key e2).
#[export] Instance by_hash_dec H e1 e2 : Decision (by_hash H e1 e2) := decide (_ <= _).

(** A hash for examples: the low bytes of the key. *)
Definition low_bytes : Key -> Z := le_decode.

Definition sample_puts : list (@ChampOp Key VersionV) :=
  [CPut [1] (MkVersionV 3 3 [10; 11]); CPut [33] (MkVersionV 4 4 []); CPut [1] (MkVersionV 5 6 [12])].

Lemma snapshot_round_trip_witness :
  exists m data m', foldl (champ_step low_bytes entry_size versionv_size) (Some champ_empty) sample_puts = Some m /\
    serialize_state (merge_sort (by_hash low_bytes)) m = Ret data /\
    deserialize_map low_bytes data = Ret m' /\
    champ_get low_bytes m' [1] = Some (Some (MkVersionV 5 0 [12])).
Proof.
  destruct (foldl (champ_step low_bytes entry_size versionv_size) (Some champ_empty) sample_puts) as [m|] eqn:E;
    [|by vm_compute in E].
  destruct (snapshot_round_trip low_bytes (merge_sort (by_hash low_bytes)) sample_puts m) as (data & m' & Hs & _ & Hd & Hg).
  - intros l. apply merge_sort_Permutation.
  - repeat constructor; vm_compute; intros; discriminate.
  - assert (Forall (fun k1 => Forall (fun k2 => k1 = k2 \/ apart low_bytes k1 k2) (op_key <$> sample_puts))
      (op_key <$> sample_puts)) as Hall.
    { apply (bool_decide_eq_true_1 _). vm_compute. reflexivity. }
    intros k1 k2 H1 H2 Hne. rewrite Forall_forall in Hall. specialize (Hall k1 H1).
    rewrite Forall_forall in Hall. by destruct (Hall k2 H2).
  - vm_compute. reflexivity.
  - exact E.
  - exists m, data, m'. split; [reflexivity|]. split; [exact Hs|]. split; [exact Hd|]. rewrite Hg.
    vm_compute. reflexivity.
Defined.

(** Two keys whose hashes agree in the low 30 bits, and a longer value for the
    second. *)
Definition colliding_puts : list (@ChampOp Key VersionV) :=
  [CPut [0; 0; 0; 0] (MkVersionV 1 1 []); CPut [0; 0; 0; 64] (MkVersionV 1 1 []);
   CPut [0; 0; 0; 64] (MkVersionV 2 2 (replicate 100 7))].

Definition colliding_map : option State :=
  foldl (champ_step low_bytes entry_size versionv_size) (Some champ_empty) colliding_puts.

(** Among colliding keys [Collisions::put_mut] returns the size of the new
    entry, without padding, instead of that of the entry it replaces, so
    [get_serialized_size()] does not grow with the value: the state takes 168
    bytes, the map says 72, and taking a snapshot writes past the end of the
    buffer. *)
Theorem collision_overflows_snapshot :
  map_size <$> colliding_map = Some 2 /\
  total_size entry_size versionv_size (foldl gmap_step ∅ colliding_puts) = 168 /\
  serialized_size <$> colliding_map = Some 72 /\
  serialize_state (merge_sort (by_hash low_bytes)) <$> colliding_map = Some (Throw UndefinedBehaviour).
Proof. split_and!; vm_compute; reflexivity. Qed.
