(* ===== verification/Writers.v ===== *)
(** The writers that the host and the enclave put on top of the ring buffer: [AbstractWriter] of
    src/ds/ring_buffer_types.h, the queue of src/ds/non_blocking.h for writes that find the buffer full, and the
    fragmentation of src/ds/oversized.h for messages that do not fit one reservation.

    The host's writers are fragmenting writers over queueing ones over the ring buffer; those of the enclave are
    fragmenting writers over the ring buffer itself (src/host/main.cpp, src/enclave/main.cpp). *)

From S2P Require Import Prelude Serialized.

(** ** Message types *)

(** [ds::fnv_1a<uint32_t>]. *)
Definition fnv_offset_basis : Z := 0x811c9dc5.
Definition fnv_prime : Z := 16777619.

Fixpoint fnv_1a_from (hash : Z) (s : string) : Z :=
  match s with
  | EmptyString => hash
  | String c s => fnv_1a_from (u32 (Z.lxor hash (Z.of_nat (Ascii.nat_of_ascii c)) * fnv_prime)) s
  end.

Definition fnv_1a (s : string) : Z := fnv_1a_from fnv_offset_basis s.

Definition fragment : Z := fnv_1a "fragment".

(** ** [AbstractWriter] *)

(** [prepare] also returns what it has stored to its argument [identifier], if anything. *)
Class AbstractWriter (W : Type) := {
  aw_prepare : Z -> Z -> bool -> ST W (option Z * option Z);
  aw_finish : option Z -> ST W unit;
  aw_write_bytes : option Z -> bytes -> ST W (option Z);
  aw_get_max_message_size : W -> Z
}.

Section write.
Context {W : Type} `{!AbstractWriter W}.

Fixpoint aw_write_sections (marker : option Z) (sections : list bytes) : ST W (option Z) :=
  match sections with
  | [] => mret marker
  | s :: sections => next ← aw_write_bytes marker s; aw_write_sections next sections
  end.

Definition aw_write_multiple (m : Z) (wait : bool) (sections : list bytes) : ST W bool :=
  '(initial_marker, _) ← aw_prepare m (Z.of_nat (length (concat sections))) wait;
  match initial_marker with
  | None => mret false
  | Some _ =>
      next ← aw_write_sections initial_marker sections;
      aw_finish initial_marker;;
      mret (bool_decide (is_Some next))
  end.
End write.

(** ** [NonBlockingWriter] *)

(** [pm_data] is the address [buffer.data()]. *)
Record PendingMessage := MkPendingMessage {
  pm_m : Z;
  pm_marker : Z;
  pm_finished : bool;
  pm_data : Z;
  pm_buffer : bytes
}.
#[export] Instance eta_PendingMessage : Settable PendingMessage := fun r =>
  MkPendingMessage (pm_m r) (pm_marker r) (pm_finished r) (pm_data r) (pm_buffer r).

(** The state of a writer and of what it writes to. *)
Record NonBlockingWriter (W : Type) := MkNonBlockingWriter { nb_underlying : W; pending : list PendingMessage }.
Arguments MkNonBlockingWriter {W}.
Arguments nb_underlying {W}.
Arguments pending {W}.
#[export] Instance eta_NonBlockingWriter W : Settable (NonBlockingWriter W) := fun r =>
  MkNonBlockingWriter (nb_underlying r) (pending r).

(** Where [new] puts the buffer of a vector, given the buffers in use. *)
Class Allocator := allocate : list PendingMessage -> Z -> Z.

Section non_blocking.
Context {W : Type} `{!AbstractWriter W} `{!Allocator}.

Definition NB : Type -> Type := ST (NonBlockingWriter W).

Definition underlying {A} (c : ST W A) : NB A := zoom nb_underlying c.

(** [std::vector<uint8_t>(n).data()]: a vector without elements has no buffer. *)
Definition vector_data (used : list PendingMessage) (n : Z) : Z := if n =? 0 then 0 else allocate used n.

Definition buffer_size (it : PendingMessage) : Z := Z.of_nat (length (pm_buffer it)).

Definition enqueue (m total_size : Z) (identifier : option Z) : NB (option Z * option Z) :=
  w ← get;
  let address := vector_data (pending w) total_size in
  pending <~ pending w ++ [MkPendingMessage m address false address (replicate (Z.to_nat total_size) 0)];;
  mret (Some address, identifier).

Definition nb_prepare (m total_size : Z) (wait : bool) : NB (option Z * option Z) :=
  w ← get;
  match pending w with
  | [] =>
      '(marker, identifier) ← underlying (aw_prepare m total_size false);
      match marker with
      | Some _ => mret (marker, identifier)
      | None => enqueue m total_size identifier
      end
  | _ :: _ => enqueue m total_size None
  end.

(** The first message of the queue that the loops of [finish] and [write_bytes] stop at. *)
Definition find_pending (p : PendingMessage -> bool) (l : list PendingMessage) : option (nat * PendingMessage) :=
  list_find (fun it => p it = true) l.

Definition nb_finish (marker : option Z) : NB unit :=
  w ← get;
  match marker ≫= fun mk => find_pending (fun it => pm_data it =? mk) (pending w) with
  | Some (i, it) => pending <~ <[i := it <| pm_finished := true |>]> (pending w)
  | None => underlying (aw_finish marker)
  end.

(** [std::memcpy] into the buffer of a pending message. *)
Definition copy_into (off : nat) (bs buffer : bytes) : bytes := take off buffer ++ bs ++ drop (off + length bs) buffer.

Definition nb_write_bytes (marker : option Z) (bs : bytes) : NB (option Z) :=
  w ← get;
  match marker ≫= fun mk => find_pending (fun it => (pm_marker it =? mk) && negb (mk =? pm_data it + buffer_size it)) (pending w) with
  | Some (i, it) =>
      let dest := pm_marker it in
      if dest <? pm_data it then throw (LogicError "Invalid pending marker - writing before buffer")
      else if pm_data it + buffer_size it <? dest + Z.of_nat (length bs) then throw (LogicError "Invalid pending marker - write extends beyond buffer")
      else
        pending <~ <[i := it <| pm_buffer := copy_into (Z.to_nat (dest - pm_data it)) bs (pm_buffer it) |>
          <| pm_marker := dest + Z.of_nat (length bs) |>]> (pending w);;
        mret (Some (dest + Z.of_nat (length bs)))
  | None => underlying (aw_write_bytes marker bs)
  end.

(** The loop runs over the messages that are pending when it starts. *)
Fixpoint flush_loop (l : list PendingMessage) : NB unit :=
  match l with
  | [] => skip
  | next :: l =>
      if negb (pm_finished next) then skip
      else
        '(marker, _) ← underlying (aw_prepare (pm_m next) (buffer_size next) false);
        match marker with
        | None => skip
        | Some _ =>
            underlying (aw_write_bytes marker (pm_buffer next));;
            underlying (aw_finish marker);;
            pending <~ l;;
            flush_loop l
        end
  end.

Definition try_flush_pending : NB bool :=
  w ← get;
  flush_loop (pending w);;
  w ← get;
  mret (bool_decide (pending w = [])).
End non_blocking.

#[export] Instance nb_writer {W} `{!AbstractWriter W} `{!Allocator} : AbstractWriter (NonBlockingWriter W) := {
  aw_prepare := nb_prepare;
  aw_finish := nb_finish;
  aw_write_bytes := nb_write_bytes;
  aw_get_max_message_size w := aw_get_max_message_size (nb_underlying w)
}.

(** ** [NonBlockingWriterFactory] *)

(** The writers to one side: the buffer they share, the queues of those that are alive, and the [WriterSet]. *)
Record WriterSet (W : Type) := MkWriterSet { ws_shared : W; ws_alive : gmap nat (list PendingMessage); ws_writers : list nat }.
Arguments MkWriterSet {W}.
Arguments ws_shared {W}.
Arguments ws_alive {W}.
Arguments ws_writers {W}.
#[export] Instance eta_WriterSet W : Settable (WriterSet W) := fun r => MkWriterSet (ws_shared r) (ws_alive r) (ws_writers r).

Section factory.
Context {W : Type} `{!AbstractWriter W} `{!Allocator}.

(** An operation of one of the writers. *)
Definition on_writer {A} (i : nat) (c : ST (NonBlockingWriter W) A) : ST (WriterSet W) A := fun f =>
  match ws_alive f !! i with
  | None => (f, Throw UndefinedBehaviour)
  | Some queue =>
      match c (MkNonBlockingWriter (ws_shared f) queue) with
      | (w, o) => (f <| ws_shared := nb_underlying w |> <| ws_alive := <[i := pending w]> (ws_alive f) |>, o)
      end
  end.

Definition add_writer (i : nat) : ST (WriterSet W) unit :=
  f ← get;
  ws_alive <~ <[i := []]> (ws_alive f);;
  ws_writers <~ ws_writers f ++ [i].

Fixpoint flush_writers (l kept : list nat) (all_empty : bool) : ST (WriterSet W) bool :=
  match l with
  | [] => ws_writers <~ kept;; mret all_empty
  | i :: l =>
      f ← get;
      if bool_decide (is_Some (ws_alive f !! i)) then
        empty ← on_writer i try_flush_pending;
        flush_writers l (kept ++ [i]) (all_empty && empty)
      else flush_writers l kept all_empty
  end.

Definition flush_all : ST (WriterSet W) bool := f ← get; flush_writers (ws_writers f) [] true.
End factory.

(** ** [oversized::Writer] *)

Record FragmentProgress := MkFragmentProgress { fp_marker : option Z; fp_identifier : Z; fp_remainder : Z }.
#[export] Instance eta_FragmentProgress : Settable FragmentProgress := fun r =>
  MkFragmentProgress (fp_marker r) (fp_identifier r) (fp_remainder r).

Record OversizedWriter (W : Type) := MkOversizedWriter {
  ow_underlying : W;
  max_fragment_size : Z;
  max_total_size : Z;
  fragment_progress : option FragmentProgress
}.
Arguments MkOversizedWriter {W}.
Arguments ow_underlying {W}.
Arguments max_fragment_size {W}.
Arguments max_total_size {W}.
Arguments fragment_progress {W}.
#[export] Instance eta_OversizedWriter W : Settable (OversizedWriter W) := fun r =>
  MkOversizedWriter (ow_underlying r) (max_fragment_size r) (max_total_size r) (fragment_progress r).

(** [InitialFragmentHeader], packed. *)
Definition initial_header_size : Z := 20.
Definition initial_header (identifier contained total_size : Z) : bytes :=
  le_encode 8 identifier ++ le_encode 4 contained ++ le_encode 8 total_size.

(** [sizeof(id)]. *)
Definition id_size : Z := 8.

(** What the local variable [outer_id] holds before [prepare] stores to it. *)
Class Uninitialised := uninitialised : Z.

Section oversized.
Context {W : Type} `{!AbstractWriter W} `{!Uninitialised}.

Definition OW : Type -> Type := ST (OversizedWriter W).

Definition below {A} (c : ST W A) : OW A := zoom ow_underlying c.

Definition new_OversizedWriter (writer : W) (f t : Z) : outcome (OversizedWriter W) :=
  if t <=? f then Throw (LogicError "Fragment sizes must be smaller than total max")
  else if f <=? initial_header_size then Throw (LogicError "Fragment size must be large enough to contain the header for the initial fragment, and some additional payload data")
  else Ret (MkOversizedWriter writer f t None).

Definition ow_prepare (m total_size : Z) (wait : bool) : OW (option Z * option Z) :=
  w ← get;
  if bool_decide (is_Some (fragment_progress w)) then throw (LogicError "This Writer is already preparing a message")
  else if total_size <=? max_fragment_size w then below (aw_prepare m total_size wait)
  else if max_total_size w <? total_size then throw (LogicError "Requested a write of more bytes than the max allowed")
  else if negb wait then throw (LogicError "Requested write will be split into multiple fragments")
  else
    '(marker, identifier) ← below (aw_prepare fragment (max_fragment_size w) wait);
    match marker with
    | None => mret (None, None)
    | Some _ =>
        let outer_id := default uninitialised identifier in
        next ← below (aw_write_bytes marker (initial_header outer_id m total_size));
        fragment_progress <~ Some (MkFragmentProgress marker outer_id (max_fragment_size w - initial_header_size));;
        mret (next, Some outer_id)
    end.

Definition ow_finish (marker : option Z) : OW unit :=
  w ← get;
  match fragment_progress w with
  | Some p =>
      if negb (fp_remainder p =? 0) then throw (LogicError "Attempting to finish an oversized message before the entire requested payload has been written")
      else below (aw_finish (fp_marker p));; fragment_progress <~ None
  | None => below (aw_finish marker)
  end.

(** The loop of [write_bytes]: every turn writes one fragment. *)
Fixpoint fragment_loop (fuel : nat) (bs : bytes) (next : option Z) : OW (option Z) :=
  match bs, fuel with
  | [], _ => mret next
  | _, O => throw OutOfFuel
  | _, S fuel =>
      w ← get;
      match fragment_progress w with
      | None => throw UndefinedBehaviour
      | Some p =>
          let frag_size := Z.min (Z.of_nat (length bs) + id_size) (max_fragment_size w) in
          '(next, _) ← below (aw_prepare fragment frag_size true);
          match next with
          | None => throw (LogicError "Failed to create fragment for oversized message")
          | Some _ =>
              below (aw_finish (fp_marker p));;
              let write_size := frag_size - id_size in
              fragment_progress <~ Some (MkFragmentProgress next (fp_identifier p) write_size);;
              next ← below (aw_write_bytes next (le_encode 8 (fp_identifier p)));
              next ← below (aw_write_bytes next (take (Z.to_nat write_size) bs));
              modify (fun w => w <| fragment_progress := (fun p => p <| fp_remainder := fp_remainder p - write_size |>) <$> fragment_progress w |>);;
              fragment_loop fuel (drop (Z.to_nat write_size) bs) next
          end
      end
  end.

Definition ow_write_bytes (marker : option Z) (bs : bytes) : OW (option Z) :=
  match marker with
  | None => mret None
  | Some _ =>
      w ← get;
      match fragment_progress w with
      | None => below (aw_write_bytes marker bs)
      | Some p =>
          let write_size := Z.min (Z.of_nat (length bs)) (fp_remainder p) in
          next ← below (aw_write_bytes marker (take (Z.to_nat write_size) bs));
          fragment_progress <~ Some (p <| fp_remainder := fp_remainder p - write_size |>);;
          fragment_loop (length bs) (drop (Z.to_nat write_size) bs) next
      end
  end.
End oversized.

#[export] Instance ow_writer {W} `{!AbstractWriter W} `{!Uninitialised} : AbstractWriter (OversizedWriter W) := {
  aw_prepare := ow_prepare;
  aw_finish := ow_finish;
  aw_write_bytes := ow_write_bytes;
  aw_get_max_message_size := max_total_size
}.
