(* ===== verification/WritersProps.v ===== *)
(** What an [AbstractWriter] promises, and that the queueing and the fragmenting writer keep it or rely on it. *)

From S2P Require Import Prelude Serialized Writers.

#[local] Abbreviation len l := (Z.of_nat (length l)).

(** ** The contract *)

(** A message that a writer has reserved space for, until it is finished, and from then on. *)
Inductive Slot := Open (marker m size : Z) (written : bytes) | Sent (m : Z) (payload : bytes).

(** The messages of a writer, in the order of their reservations. Calls are made with the marker of an open message as
    far as it is written; it is finished with the marker that [prepare] has returned when it is written entirely. A call of [prepare] may be refused
    only if the caller does not want to wait. The markers are those of a range of their own. *)
Class WriterLaws (W : Type) `{!AbstractWriter W} := {
  slots : W -> list Slot;
  usable : W -> Prop;
  permitted : Z -> Prop;
  own_marker : Z -> Prop;
  permitted_pos n : permitted n -> 0 <= n;
  law_prepare w m n wait : usable w -> permitted n ->
    exists w' mk id, aw_prepare m n wait w = (w', Ret (mk, id)) /\ usable w' /\
      match mk with
      | None => wait = false /\ slots w' = slots w
      | Some a => slots w' = slots w ++ [Open a m n []]
      end;
  law_write w i a m n b bs : usable w -> slots w !! i = Some (Open a m n b) -> len b + len bs <= n ->
    exists w', aw_write_bytes (Some (a + len b)) bs w = (w', Ret (Some (a + len b + len bs))) /\ usable w' /\
      slots w' = <[i := Open a m n (b ++ bs)]> (slots w);
  law_write_nothing w a : usable w -> aw_write_bytes (Some a) [] w = (w, Ret (Some a));
  law_finish w i a m n b : usable w -> slots w !! i = Some (Open a m n b) -> len b = n ->
    exists w', aw_finish (Some a) w = (w', Ret tt) /\ usable w' /\ slots w' = <[i := Sent m b]> (slots w);
  law_marker w a m n b z : usable w -> Open a m n b ∈ slots w -> a <= z <= a + n -> own_marker z
}.

Section contract.
Context {W : Type} `{AW : !AbstractWriter W} `{WL : !WriterLaws W}.

Lemma write_sections_ok sections : forall (w : W) i a m n b,
  usable w -> slots w !! i = Some (Open a m n b) -> len b + len (concat sections) <= n ->
  exists w', aw_write_sections (Some (a + len b)) sections w = (w', Ret (Some (a + len b + len (concat sections)))) /\ usable w' /\
    slots w' = <[i := Open a m n (b ++ concat sections)]> (slots w).
Proof.
  induction sections as [|s sections IH]; intros w i a m n b Hu Hi Hn; cbn [concat aw_write_sections].
  - exists w. rewrite app_nil_r, Z.add_0_r, list_insert_id by done. done.
  - cbn [concat] in Hn. rewrite length_app in Hn. destruct (law_write w i a m n b s Hu Hi) as (w1 & E & Hu1 & Hs1); [lia|].
    unfold mbind, ST_bind. rewrite E. pose proof (lookup_lt_Some _ _ _ Hi) as Hlt.
    destruct (IH w1 i a m n (b ++ s)) as (w2 & E2 & Hu2 & Hs2); [done|rewrite Hs1; by apply list_lookup_insert_eq|rewrite length_app; lia|].
    exists w2. rewrite length_app in E2 |- *.
    replace (a + len b + len s) with (a + Z.of_nat (length b + length s)) by lia. rewrite E2.
    split; [do 3 f_equal; lia|]. split; [done|]. by rewrite Hs2, Hs1, list_insert_insert_eq, <- app_assoc.
Qed.

(** A message that is accepted is added to those sent. *)
Lemma write_multiple_ok (w : W) m wait sections :
  usable w -> permitted (len (concat sections)) ->
  exists w' ok, aw_write_multiple m wait sections w = (w', Ret ok) /\ usable w' /\
    if ok : bool then slots w' = slots w ++ [Sent m (concat sections)] else wait = false /\ slots w' = slots w.
Proof.
  intros Hu Hp. unfold aw_write_multiple. unfold mbind at 1, ST_bind at 1.
  destruct (law_prepare w m (len (concat sections)) wait Hu Hp) as (w1 & [a|] & id & E & Hu1 & Hs1); rewrite E; [|by exists w1, false].
  set (i := length (slots w)).
  assert (slots w1 !! i = Some (Open a m (len (concat sections)) [])) as Hi by (rewrite Hs1; by apply list_lookup_middle).
  destruct (write_sections_ok sections w1 i a m (len (concat sections)) [] Hu1 Hi) as (w2 & E2 & Hu2 & Hs2); [cbn; lia|].
  cbn [length app] in E2. rewrite Z.add_0_r in E2. unfold mbind at 1, ST_bind at 1. rewrite E2.
  pose proof (lookup_lt_Some _ _ _ Hi) as Hlt.
  destruct (law_finish w2 i a m (len (concat sections)) (concat sections)) as (w3 & E3 & Hu3 & Hs3); [done|rewrite Hs2; by apply list_lookup_insert_eq|done|].
  unfold mbind at 1, ST_bind at 1. rewrite E3. exists w3, true. split; [done|]. split; [done|].
  rewrite Hs3, Hs2, list_insert_insert_eq, Hs1. by rewrite insert_app_r_alt, Nat.sub_diag by done.
Qed.
End contract.

(** ** The queueing writer *)

Definition apart (it it' : PendingMessage) : Prop :=
  pm_data it + buffer_size it <= pm_data it' \/ pm_data it' + buffer_size it' <= pm_data it.

(** The heap gives out memory that is not in use, and is not exhausted. *)
Class AllocatorLaws (heap : Z -> Prop) `{!Allocator} := {
  allocate_heap used n z : 0 < n -> allocate used n <= z <= allocate used n + n -> heap z;
  allocate_apart used n it : 0 < n -> it ∈ used -> 0 < buffer_size it ->
    pm_data it + buffer_size it <= allocate used n \/ allocate used n + n <= pm_data it
}.

Definition slot_of (it : PendingMessage) : Slot :=
  if pm_finished it then Sent (pm_m it) (pm_buffer it)
  else Open (pm_data it) (pm_m it) (buffer_size it) (take (Z.to_nat (pm_marker it - pm_data it)) (pm_buffer it)).

Section non_blocking.
Context {W : Type} `{AW : !AbstractWriter W} `{WL : !WriterLaws W} `{HP : !Allocator} (heap : Z -> Prop) `{AL : !AllocatorLaws heap}.

(** Addresses in the heap are not markers of the buffer below. *)
Hypothesis heap_apart : forall z, heap z -> own_marker z -> False.

Record pending_ok (it : PendingMessage) : Prop := {
  po_size : 0 < buffer_size it;
  po_permitted : permitted (buffer_size it);
  po_data z : pm_data it <= z <= pm_data it + buffer_size it -> heap z;
  po_marker : pm_data it <= pm_marker it <= pm_data it + buffer_size it;
  po_finished : pm_finished it = true -> pm_marker it = pm_data it + buffer_size it
}.

Definition separate (l : list PendingMessage) : Prop := forall i j x y, l !! i = Some x -> l !! j = Some y -> i <> j -> apart x y.

Record queue_ok (l : list PendingMessage) : Prop := {
  qo_pending : Forall pending_ok l;
  qo_separate : separate l
}.

Definition nb_slots (w : NonBlockingWriter W) : list Slot := slots (nb_underlying w) ++ (slot_of <$> pending w).

Definition nb_usable (w : NonBlockingWriter W) : Prop := usable (nb_underlying w) /\ queue_ok (pending w).

Lemma queue_ok_tail it l : queue_ok (it :: l) -> queue_ok l.
Proof. intros [[_ H]%Forall_cons Hs]. split; [done|]. intros i j x y Hx Hy Hij. apply (Hs (S i) (S j)); [done..|lia]. Qed.

Lemma queue_ok_update l i it it' :
  queue_ok l -> l !! i = Some it -> pm_data it' = pm_data it -> buffer_size it' = buffer_size it -> pending_ok it' -> queue_ok (<[i := it']> l).
Proof.
  intros [Hp Hs] Hi Hd Hz Hok. split; [by apply Forall_insert|].
  assert (forall j x, <[i := it']> l !! j = Some x -> exists y, l !! j = Some y /\ pm_data x = pm_data y /\ buffer_size x = buffer_size y) as Hsame.
  { intros j x [(<- & <- & _)|[_ Hj]]%list_lookup_insert_Some; [by exists it|by exists x]. }
  intros j1 j2 x y (x' & Hx & Ex & Zx)%Hsame (y' & Hy & Ey & Zy)%Hsame Hne. unfold apart. rewrite Ex, Ey, Zx, Zy. by apply (Hs j1 j2).
Qed.

Lemma queue_ok_snoc l m n :
  queue_ok l -> 0 < n -> permitted n ->
  let a := vector_data l n in queue_ok (l ++ [MkPendingMessage m a false a (replicate (Z.to_nat n) 0)]).
Proof.
  intros [Hp Hs] Hn Hperm. cbv zeta. unfold vector_data. rewrite (proj2 (Z.eqb_neq n 0)) by lia.
  pose proof (fun z => allocate_heap l n z Hn) as Hb.
  set (it := MkPendingMessage _ _ _ _ _). assert (buffer_size it = n) as Hz by (unfold buffer_size, it; cbn; rewrite length_replicate; lia).
  split.
  - apply Forall_app. split; [done|]. apply Forall_singleton. split; rewrite ?Hz; subst it; cbn; try done; lia.
  - assert (forall i x, l !! i = Some x -> apart x it) as Hold.
    { intros i x Hi. unfold apart. rewrite Hz. assert (x ∈ l) as Hx by (by eapply list_elem_of_lookup_2).
      rewrite Forall_forall in Hp. destruct (Hp x Hx) as [Hpos _ _ _ _]. exact (allocate_apart l n x Hn Hx Hpos). }
    intros i j x y Hx Hy Hij. apply lookup_app_Some in Hx as [Hx|[Hx' [? ->]%list_lookup_singleton_Some]], Hy as [Hy|[Hy' [? ->]%list_lookup_singleton_Some]].
    + by apply (Hs i j).
    + by eapply Hold.
    + destruct (Hold _ _ Hy); [by right|by left].
    + exfalso. apply Hij. lia.
Qed.

Lemma slot_of_new l m n :
  0 <= n -> let a := vector_data l n in slot_of (MkPendingMessage m a false a (replicate (Z.to_nat n) 0)) = Open a m n [].
Proof. intros Hn. cbv zeta. unfold slot_of, buffer_size. cbn [pm_finished pm_data pm_marker pm_buffer pm_m]. rewrite Z.sub_diag, length_replicate. cbn. f_equal. lia. Qed.

Lemma enqueue_ok w m n id :
  nb_usable w -> 0 < n -> permitted n ->
  exists w' a, enqueue m n id w = (w', Ret (Some a, id)) /\ nb_usable w' /\ nb_slots w' = nb_slots w ++ [Open a m n []].
Proof.
  intros [Hu Hq] Hn Hp. set (a := vector_data (pending w) n).
  exists (w <| pending := pending w ++ [MkPendingMessage m a false a (replicate (Z.to_nat n) 0)] |>), a. split; [done|]. split; [split; [done|]; by apply queue_ok_snoc|].
  unfold nb_slots. cbn -[slot_of]. rewrite fmap_app, app_assoc. do 2 f_equal. cbn [fmap list_fmap]. f_equal. apply slot_of_new. lia.
Qed.

Lemma nb_prepare_ok w m n wait :
  nb_usable w -> 0 < n -> permitted n ->
  exists w' a id, nb_prepare m n wait w = (w', Ret (Some a, id)) /\ nb_usable w' /\ nb_slots w' = nb_slots w ++ [Open a m n []].
Proof.
  intros Hw Hn Hp. unfold nb_prepare. unfold mbind at 1, ST_bind at 1. cbn [get].
  destruct (pending w) as [|it l] eqn:E; [|destruct (enqueue_ok w m n None Hw Hn Hp) as (w' & a & ? & ? & ?); by exists w', a, None].
  destruct Hw as [Hu Hq]. unfold underlying, zoom. unfold mbind at 1, ST_bind at 1.
  destruct (law_prepare (nb_underlying w) m n false Hu Hp) as (u & mk & id & Ep & Hu' & Hs). rewrite Ep.
  assert (nb_usable (w <| nb_underlying := u |>)) as Hw' by (by split).
  destruct mk as [a|]; [exists (w <| nb_underlying := u |>), a, id|].
  - split; [done|]. split; [done|]. unfold nb_slots. cbn. rewrite E. cbn. by rewrite Hs, !app_nil_r.
  - destruct (enqueue_ok _ m n id Hw' Hn Hp) as (w' & a & E' & Hw'' & Hs'). exists w', a, id. rewrite E'.
    split; [done|]. split; [done|]. rewrite Hs'. unfold nb_slots. cbn. destruct Hs as [_ ->]. done.
Qed.

Lemma find_pending_at p l i it :
  l !! i = Some it -> p it = true -> (forall j y, l !! j = Some y -> p y = true -> j = i) -> find_pending p l = Some (i, it).
Proof. intros Hi Hp Hu. apply list_find_Some. split_and!; [done..|]. intros j y Hj Hlt Hy. specialize (Hu j y Hj Hy). lia. Qed.

Lemma find_pending_none p l : (forall y, y ∈ l -> p y = false) -> find_pending p l = None.
Proof. intros H. apply list_find_None, Forall_forall. intros y Hy. by rewrite (H y Hy). Qed.

Lemma pending_elem l i it : queue_ok l -> l !! i = Some it -> pending_ok it.
Proof. intros [Hp _] Hi. rewrite Forall_lookup in Hp. by eapply Hp. Qed.

Lemma pending_in l it : queue_ok l -> it ∈ l -> pending_ok it.
Proof. intros [Hp _] Hi. rewrite Forall_forall in Hp. by apply Hp. Qed.

(** A slot is one of the writer below, or one of the queue. *)
Lemma nb_slot_cases w i s :
  nb_slots w !! i = Some s ->
  slots (nb_underlying w) !! i = Some s \/
  exists j it, i = (length (slots (nb_underlying w)) + j)%nat /\ pending w !! j = Some it /\ slot_of it = s.
Proof.
  intros [Hi|[Hle Hi]]%lookup_app_Some; [by left|right]. apply list_lookup_fmap_Some in Hi as (it & -> & Hit).
  exists (i - length (slots (nb_underlying w)))%nat, it. split; [lia|done].
Qed.

Lemma slot_of_open it a m n b :
  slot_of it = Open a m n b ->
  pm_finished it = false /\ pm_data it = a /\ pm_m it = m /\ buffer_size it = n /\ b = take (Z.to_nat (pm_marker it - pm_data it)) (pm_buffer it).
Proof. unfold slot_of. destruct (pm_finished it); [done|]. by intros [= <- <- <- <-]. Qed.

Lemma written_length it : pending_ok it -> len (take (Z.to_nat (pm_marker it - pm_data it)) (pm_buffer it)) = pm_marker it - pm_data it.
Proof. intros [_ _ _ Hm _]. unfold buffer_size in Hm. rewrite length_take. lia. Qed.

(** A pending message is found by its first byte, or by the next byte to write. *)
Lemma same_buffer l i j x y z :
  queue_ok l -> l !! i = Some x -> l !! j = Some y -> pm_data x <= z < pm_data x + buffer_size x -> pm_data y <= z < pm_data y + buffer_size y -> j = i.
Proof. intros [_ Hs] Hx Hy Hzx Hzy. destruct (decide (i = j)) as [|Hne]; [done|]. destruct (Hs i j x y Hx Hy Hne); lia. Qed.

Lemma copy_nothing off buffer : copy_into off [] buffer = buffer.
Proof. unfold copy_into. cbn. by rewrite Nat.add_0_r, take_drop. Qed.

Lemma length_copy off bs buffer : (off + length bs <= length buffer)%nat -> length (copy_into off bs buffer) = length buffer.
Proof. intros H. unfold copy_into. rewrite !length_app, length_take, length_drop. lia. Qed.

Lemma take_copy off bs buffer : (off + length bs <= length buffer)%nat -> take (off + length bs) (copy_into off bs buffer) = take off buffer ++ bs.
Proof. intros H. unfold copy_into. rewrite app_assoc. apply take_app_length'. rewrite length_app, length_take. lia. Qed.

Lemma nb_write_nothing w a : nb_usable w -> nb_write_bytes (Some a) [] w = (w, Ret (Some a)).
Proof.
  intros [Hu Hq]. unfold nb_write_bytes. unfold mbind at 1, ST_bind at 1. cbn [get mbind option_bind].
  destruct (find_pending _ _) as [[i it]|] eqn:E.
  - apply list_find_Some in E as (Hi & [Hm%Z.eqb_eq He]%andb_prop & _).
    pose proof (pending_elem _ _ _ Hq Hi) as [_ _ _ Hb _].
    rewrite (proj2 (Z.ltb_ge _ _)) by lia. cbn [length]. rewrite Z.add_0_r, (proj2 (Z.ltb_ge _ _)) by lia.
    rewrite copy_nothing. unfold mbind, ST_bind, assign, modify. cbn.
    assert (MkPendingMessage (pm_m it) (pm_marker it) (pm_finished it) (pm_data it) (pm_buffer it) = it) as Hit by (by destruct it).
    unfold set, update_field; cbn. rewrite Hit, list_insert_id, Hm by done. by destruct w.
  - unfold underlying, zoom. rewrite law_write_nothing by done. by destruct w.
Qed.

Lemma nb_write_ok w i a m n b bs :
  nb_usable w -> nb_slots w !! i = Some (Open a m n b) -> len b + len bs <= n ->
  exists w', nb_write_bytes (Some (a + len b)) bs w = (w', Ret (Some (a + len b + len bs))) /\ nb_usable w' /\
    nb_slots w' = <[i := Open a m n (b ++ bs)]> (nb_slots w).
Proof.
  intros Hw Hi Hn. destruct (decide (bs = [])) as [->|Hne].
  { exists w. rewrite nb_write_nothing by done. cbn. rewrite Z.add_0_r, app_nil_r, list_insert_id by done. done. }
  assert (0 < len bs) as Hpos by (destruct bs; [done|cbn; lia]).
  destruct Hw as [Hu Hq]. pose proof (nb_slot_cases _ _ _ Hi) as [Hbelow|(j & it & -> & Hj & Hs)].
  - unfold nb_write_bytes. unfold mbind at 1, ST_bind at 1. cbn [get mbind option_bind].
    pose proof (fun z => law_marker _ _ _ _ _ z Hu (list_elem_of_lookup_2 _ _ _ Hbelow)) as Hown.
    rewrite find_pending_none.
    2: { intros y Hy. destruct (pending_in _ _ Hq Hy) as [_ _ Hd Hm _]. rewrite (proj2 (Z.eqb_neq _ _)); [done|]. intros Heq.
         apply (heap_apart (pm_marker y)); [by apply Hd|]. apply Hown. lia. }
    destruct (law_write _ _ _ _ _ _ bs Hu Hbelow Hn) as (u & E & Hu' & Hs'). unfold underlying, zoom. rewrite E.
    eexists. split; [reflexivity|]. split; [by split|]. unfold nb_slots. cbn. rewrite Hs'. by rewrite insert_app_l by (by eapply lookup_lt_Some).
  - apply slot_of_open in Hs as (Hf & <- & <- & <- & ->). pose proof (pending_elem _ _ _ Hq Hj) as Hok. pose proof Hok as [Hsz Hpm Hd Hm _].
    rewrite written_length in Hn |- * by done. replace (pm_data it + (pm_marker it - pm_data it)) with (pm_marker it) by lia.
    unfold nb_write_bytes. unfold mbind at 1, ST_bind at 1. cbn [get mbind option_bind].
    rewrite (find_pending_at _ _ j it Hj); cycle 1.
    { rewrite Z.eqb_refl, (proj2 (Z.eqb_neq _ _)) by lia. done. }
    { intros j' y Hy [Hmy%Z.eqb_eq He]%andb_prop. apply negb_true_iff, Z.eqb_neq in He. pose proof (pending_elem _ _ _ Hq Hy) as [_ _ _ Hmy' _].
      apply (same_buffer _ _ _ it y (pm_marker it) Hq Hj Hy); lia. }
    rewrite (proj2 (Z.ltb_ge _ _)), (proj2 (Z.ltb_ge _ _)) by lia.
    set (it' := it <| pm_buffer := _ |> <| pm_marker := _ |>).
    assert (Z.to_nat (pm_marker it - pm_data it) + length bs <= length (pm_buffer it))%nat as Hroom by (unfold buffer_size in *; lia).
    assert (buffer_size it' = buffer_size it) as Hz by (unfold buffer_size; cbn; by rewrite length_copy).
    eexists. split; [reflexivity|]. split.
    + split; [done|]. eapply queue_ok_update; [done|exact Hj|done|done|]. split; rewrite ?Hz; subst it'; cbn; try done; try lia. by rewrite Hf.
    + unfold nb_slots. cbn -[slot_of]. rewrite insert_app_r, list_fmap_insert. do 2 f_equal. unfold slot_of. cbn. rewrite Hf.
      fold it'. rewrite Hz. f_equal. replace (Z.to_nat (pm_marker it + len bs - pm_data it)) with (Z.to_nat (pm_marker it - pm_data it) + length bs)%nat by lia.
      by apply take_copy.
Qed.

Lemma nb_finish_ok w i a m n b :
  nb_usable w -> nb_slots w !! i = Some (Open a m n b) -> len b = n ->
  exists w', nb_finish (Some a) w = (w', Ret tt) /\ nb_usable w' /\ nb_slots w' = <[i := Sent m b]> (nb_slots w).
Proof.
  intros [Hu Hq] Hi Hn. unfold nb_finish. unfold mbind at 1, ST_bind at 1. cbn [get mbind option_bind].
  pose proof (nb_slot_cases _ _ _ Hi) as [Hbelow|(j & it & -> & Hj & Hs)].
  - pose proof (fun z => law_marker _ _ _ _ _ z Hu (list_elem_of_lookup_2 _ _ _ Hbelow)) as Hown.
    rewrite find_pending_none.
    2: { intros y Hy. destruct (pending_in _ _ Hq Hy) as [Hsz _ Hd Hm _]. apply Z.eqb_neq. intros Heq.
         apply (heap_apart (pm_data y)); [apply Hd; lia|]. apply Hown. lia. }
    destruct (law_finish _ _ _ _ _ _ Hu Hbelow Hn) as (u & E & Hu' & Hs'). unfold underlying, zoom. rewrite E.
    eexists. split; [reflexivity|]. split; [by split|]. unfold nb_slots. cbn. rewrite Hs'. by rewrite insert_app_l by (by eapply lookup_lt_Some).
  - apply slot_of_open in Hs as (Hf & <- & <- & Hz & ->). pose proof (pending_elem _ _ _ Hq Hj) as Hok. pose proof Hok as [Hsz Hpm Hd Hm _].
    rewrite written_length in Hn by done.
    rewrite (find_pending_at _ _ j it Hj); cycle 1.
    { apply Z.eqb_refl. }
    { intros j' y Hy He%Z.eqb_eq. pose proof (pending_elem _ _ _ Hq Hy) as [Hsy _ _ _ _]. apply (same_buffer _ _ _ it y (pm_data it) Hq Hj Hy); lia. }
    eexists. split; [reflexivity|]. split.
    + split; [done|]. eapply queue_ok_update; [done|exact Hj|done|done|]. split; cbn; try done. intros _. unfold buffer_size in *. cbn. lia.
    + unfold nb_slots. cbn -[slot_of]. rewrite insert_app_r, list_fmap_insert. do 2 f_equal. unfold slot_of. cbn. f_equal.
      rewrite take_ge; [done|]. unfold buffer_size in *. lia.
Qed.

(** Flushing hands messages of the queue to the writer below, in order, until one is refused there or not finished. *)
Lemma flush_loop_ok l : forall u : W,
  usable u -> queue_ok l ->
  exists u' l', flush_loop l (MkNonBlockingWriter u l) = (MkNonBlockingWriter u' l', Ret tt) /\
    nb_usable (MkNonBlockingWriter u' l') /\ nb_slots (MkNonBlockingWriter u' l') = nb_slots (MkNonBlockingWriter u l) /\
    (l' = [] \/ exists it rest, l' = it :: rest /\ (pm_finished it = false \/ exists u0 id, aw_prepare (pm_m it) (buffer_size it) false u0 = (u', Ret (None, id)))).
Proof.
  induction l as [|it l IH]; intros u Hu Hq; cbn [flush_loop].
  { exists u, []. split; [done|]. split; [done|]. by split; [|left]. }
  destruct (pm_finished it) eqn:Hf; cbn [negb].
  2: { exists u, (it :: l). split; [done|]. split; [done|]. split; [done|]. right. exists it, l. by split; [|left]. }
  pose proof (pending_elem _ 0 _ Hq eq_refl) as [Hsz Hpm _ _ _].
  unfold mbind at 1, ST_bind at 1. unfold underlying at 1, zoom at 1. cbn [nb_underlying].
  destruct (law_prepare u (pm_m it) (buffer_size it) false Hu Hpm) as (u1 & [a|] & id & E1 & Hu1 & Hs1); rewrite E1; unfold set, update_field; cbn.
  2: { exists u1, (it :: l). split; [done|]. split; [by split|]. split; [unfold nb_slots; cbn; by destruct Hs1 as [_ ->]|].
       right. exists it, l. split; [done|]. right. eauto. }
  set (i := length (slots u)). assert (slots u1 !! i = Some (Open a (pm_m it) (buffer_size it) [])) as Hi by (rewrite Hs1; by apply list_lookup_middle).
  destruct (law_write _ _ _ _ _ _ (pm_buffer it) Hu1 Hi) as (u2 & E2 & Hu2 & Hs2); [unfold buffer_size; cbn; lia|].
  cbn [length app] in E2, Hs2. rewrite Z.add_0_r in E2. unfold mbind at 1, ST_bind at 1. unfold underlying at 1, zoom at 1. cbn [nb_underlying]. rewrite E2.
  pose proof (lookup_lt_Some _ _ _ Hi) as Hlt.
  destruct (law_finish u2 i a (pm_m it) (buffer_size it) (pm_buffer it)) as (u3 & E3 & Hu3 & Hs3); [done|rewrite Hs2; by apply list_lookup_insert_eq|done|].
  unfold set, update_field; cbn. unfold mbind at 1, ST_bind at 1. unfold underlying at 1, zoom at 1. cbn [nb_underlying]. rewrite E3.
  unfold mbind at 1, ST_bind at 1. unfold set, update_field, assign, modify; cbn. unfold set, update_field; cbn.
  destruct (IH u3 Hu3 (queue_ok_tail _ _ Hq)) as (u' & l' & E' & Hw' & Hs' & Hend). rewrite E'. exists u', l'.
  split; [done|]. split; [done|]. split; [|done]. rewrite Hs'. unfold nb_slots. cbn -[slot_of].
  rewrite Hs3, Hs2, list_insert_insert_eq, Hs1, insert_app_r_alt, Nat.sub_diag by done. cbn. unfold slot_of at 2. rewrite Hf.
  by rewrite <- app_assoc.
Qed.

Lemma try_flush_ok w :
  nb_usable w ->
  exists w' done, try_flush_pending w = (w', Ret done) /\ nb_usable w' /\ nb_slots w' = nb_slots w /\ (done = true <-> pending w' = []).
Proof.
  destruct w as [u l]. intros [Hu Hq]. unfold try_flush_pending. cbn in Hu, Hq.
  destruct (flush_loop_ok l u Hu Hq) as (u' & l' & E & Hw' & Hs' & _).
  unfold mbind, ST_bind. cbn [get pending]. rewrite E. eexists _, _. split; [reflexivity|]. split; [done|]. split; [done|]. apply bool_decide_eq_true.
Qed.

#[export] Program Instance nb_laws : WriterLaws (NonBlockingWriter W) := {
  slots := nb_slots;
  usable := nb_usable;
  permitted n := 0 < n /\ permitted n;
  own_marker z := own_marker z \/ heap z
}.
Next Obligation. intros n [Hn _]. lia. Qed.
Next Obligation. intros w m n wait Hw [Hn Hp]. destruct (nb_prepare_ok w m n wait Hw Hn Hp) as (w' & a & id & E & ? & ?). by exists w', (Some a), id. Qed.
Next Obligation. apply nb_write_ok. Qed.
Next Obligation. apply nb_write_nothing. Qed.
Next Obligation. apply nb_finish_ok. Qed.
Next Obligation.
  intros w a m n b z [Hu Hq] Hin Hz. apply elem_of_app in Hin as [Hin|(it & Hs & Hin)%list_elem_of_fmap].
  - left. by eapply law_marker.
  - right. symmetry in Hs. apply slot_of_open in Hs as (_ & <- & _ & <- & _). by apply (po_data _ (pending_in _ _ Hq Hin)).
Qed.

(** What a client does with a queueing writer. *)
Inductive QueueOp := Write (m : Z) (wait : bool) (sections : list bytes) | Flush.

Definition queue_op (op : QueueOp) : ST (NonBlockingWriter W) bool :=
  match op with
  | Write m wait sections => aw_write_multiple m wait sections
  | Flush => try_flush_pending
  end.

Definition written_by (op : QueueOp) : list (Z * bytes) := match op with Write m _ sections => [(m, concat sections)] | Flush => [] end.

Definition op_permitted (op : QueueOp) : Prop :=
  match op with Write _ _ sections => concat sections <> [] /\ permitted (len (concat sections)) | Flush => True end.

Definition as_slot (x : Z * bytes) : Slot := Sent x.1 x.2.

Lemma queue_op_ok w op :
  nb_usable w -> op_permitted op ->
  exists w' b, queue_op op w = (w', Ret b) /\ nb_usable w' /\ nb_slots w' = nb_slots w ++ (as_slot <$> written_by op) /\
    match op with Write _ _ _ => b = true | Flush => b = true <-> pending w' = [] end.
Proof.
  intros Hw Hop. destruct op as [m wait sections|]; cbn [queue_op written_by].
  - destruct Hop as [Hne Hp].
    assert (0 < len (concat sections)) as Hpos by (destruct (concat sections); [done|cbn; lia]).
    destruct (write_multiple_ok w m wait sections) as (w' & ok & E & Hw' & Hs); [done|done|].
    assert (ok = true) as ->; [|by exists w', true].
    revert E. unfold aw_write_multiple. unfold mbind at 1, ST_bind at 1.
    change (aw_prepare m (len (concat sections)) wait) with (nb_prepare m (len (concat sections)) wait).
    destruct (nb_prepare_ok w m (len (concat sections)) wait Hw Hpos Hp) as (w1 & a & id & E1 & Hw1 & Hs1). rewrite E1. intros E.
    destruct ok; [done|]. destruct Hs as [_ Hs]. exfalso. revert E. unfold mbind at 1, ST_bind at 1.
    destruct (write_sections_ok sections w1 (length (nb_slots w)) a m (len (concat sections)) []) as (w2 & E2 & _); [done| |cbn; lia|].
    { change (slots w1) with (nb_slots w1). rewrite Hs1. by apply list_lookup_middle. }
    cbn [length] in E2. rewrite Z.add_0_r in E2. rewrite E2. unfold mbind, ST_bind. by destruct (aw_finish _ w2) as [? [|]].
  - destruct (try_flush_ok w Hw) as (w' & b & E & ? & ? & ?). exists w', b. cbn. rewrite app_nil_r. done.
Qed.

Fixpoint queue_run (ops : list QueueOp) : ST (NonBlockingWriter W) (list bool) :=
  match ops with
  | [] => mret []
  | op :: ops => b ← queue_op op; bs ← queue_run ops; mret (b :: bs)
  end.

(** C14: A queueing writer never refuses or holds up a message, and keeps the messages in order. Over any writer that keeps
    the contract, after any sequence of writes and flushes, what the writer below has been given, followed by the queue, is
    what was written, in order and unchanged, provided that no message is empty; every write reports success. *)
Theorem queue_keeps_order (w : NonBlockingWriter W) (ops : list QueueOp) :
  nb_usable w -> Forall op_permitted ops ->
  exists w' bs, queue_run ops w = (w', Ret bs) /\ nb_usable w' /\ Forall2 (fun op b => op <> Flush -> b = true) ops bs /\
    slots (nb_underlying w') ++ (slot_of <$> pending w') = (slots (nb_underlying w) ++ (slot_of <$> pending w)) ++ (as_slot <$> (ops ≫= written_by)).
Proof.
  revert w. induction ops as [|op ops IH]; intros w Hw Hops; cbn [queue_run].
  - exists w, []. cbn. rewrite app_nil_r. by split_and!.
  - apply Forall_cons in Hops as [Hop Hops]. destruct (queue_op_ok w op Hw Hop) as (w1 & b & E & Hw1 & Hs1 & Hb).
    destruct (IH w1 Hw1 Hops) as (w2 & bs & E2 & Hw2 & Hbs & Hs2).
    exists w2, (b :: bs). unfold mbind, ST_bind. rewrite E, E2. split; [done|]. split; [done|]. split.
    + constructor; [|done]. intros Hf. by destruct op.
    + rewrite Hs2. change (slots (nb_underlying w1) ++ (slot_of <$> pending w1)) with (nb_slots w1). rewrite Hs1, <- app_assoc. f_equal. rewrite bind_cons, fmap_app. done.
Qed.
End non_blocking.
