(* ===== verification/OversizedProps.v ===== *)
(** The fragmenting writer: what reaches the writer below when a message is written through it. *)

From S2P Require Import Prelude Serialized Writers WritersProps.

#[local] Abbreviation len l := (Z.of_nat (length l)).

(** ** How a message is split *)

Definition id_bytes (id : Z) : bytes := le_encode 8 id.

Definition fragment_of (id : Z) (c : bytes) : bytes := id_bytes id ++ c.

(** The messages that stand for one message of type [m], with the identifier used if it is split. *)
Inductive framed (f m : Z) (payload : bytes) : option Z -> list (Z * bytes) -> Prop :=
| framed_whole : len payload <= f -> framed f m payload None [(m, payload)]
| framed_split id c0 cs :
    0 <= id < 2 ^ 64 -> f < len payload -> payload = c0 ++ concat cs -> Forall (fun c => c <> []) cs -> len c0 = f - initial_header_size ->
    framed f m payload (Some id) ((fragment, initial_header id m (len payload) ++ c0) :: (pair fragment ∘ fragment_of id <$> cs)).

(** What the local variable for the identifier holds after the writer below has prepared a message is a [size_t]. *)
Class Identifies (W : Type) `{!AbstractWriter W} `{!WriterLaws W} `{!Uninitialised} :=
  law_identifier (w w' : W) m n wait mk id :
    usable w -> permitted n -> aw_prepare m n wait w = (w', Ret (mk, id)) -> 0 <= default uninitialised id < 2 ^ 64.

Section oversized.
Context {W : Type} `{AW : !AbstractWriter W} `{WL : !WriterLaws W} `{UN : !Uninitialised} `{ID : !Identifies W}.
Context (f t : Z) (f_header : initial_header_size < f) (f_permitted : forall n, 0 < n <= f -> permitted n).

(** The writer is in the middle of a message: [sent] fragments are finished, [cur] is what is written of the current one,
    which has room for [rem] more bytes; [next] is the marker to write at. *)
Record in_progress (w : OversizedWriter W) (P : list Slot) (id : Z) (sent : list bytes) (cur : bytes) (rem next : Z) : Prop := {
  ip_usable : usable (ow_underlying w);
  ip_sizes : max_fragment_size w = f /\ max_total_size w = t;
  ip_rem : 0 <= rem;
  ip_slot : exists a, slots (ow_underlying w) = P ++ (Sent fragment <$> sent) ++ [Open a fragment (len cur + rem) cur] /\
    fragment_progress w = Some (MkFragmentProgress (Some a) id rem) /\ next = a + len cur
}.

Lemma length_id id : length (id_bytes id) = 8%nat.
Proof. apply le_encode_length. Qed.

Lemma insert_last {A} (l : list A) x y : <[length l := y]> (l ++ [x]) = l ++ [y].
Proof. by rewrite insert_app_r_alt, Nat.sub_diag by done. Qed.

Lemma insert_last_but_one {A} (l : list A) x z y : <[length l := y]> (l ++ [x; z]) = l ++ [y; z].
Proof. by rewrite insert_app_r_alt, Nat.sub_diag by done. Qed.

(** One turn of the loop. *)
Lemma fragment_step w P id sent cur next bs :
  in_progress w P id sent cur 0 next -> bs <> [] ->
  let c := take (Z.to_nat (Z.min (len bs + id_size) f - id_size)) bs in
  exists w' next', (forall fuel, fragment_loop (S fuel) bs (Some next) w = fragment_loop fuel (drop (length c) bs) (Some next') w') /\
    in_progress w' P id (sent ++ [cur]) (fragment_of id c) 0 next' /\ c <> [].
Proof.
  intros [Hu [Hf Ht] _ (a & Hsl & Hp & ->)] Hne c. unfold initial_header_size, id_size in *.
  assert (0 < len bs) as Hpos by (destruct bs; [done|cbn; lia]).
  set (fs := Z.min (len bs + 8) f) in *. assert (len c = fs - 8) as Hc by (unfold c; rewrite length_take; lia).
  assert (permitted fs) as Hfs by (apply f_permitted; lia).
  destruct (law_prepare (ow_underlying w) fragment fs true Hu Hfs) as (u1 & [a1|] & id1 & E1 & Hu1 & Hs1); [|by destruct Hs1].
  rewrite Hsl in Hs1. rewrite !app_assoc in Hs1. rewrite Z.add_0_r in Hs1. rewrite <- (app_assoc _ [_] [_]) in Hs1. cbn [app] in Hs1.
  set (L := P ++ (Sent fragment <$> sent)) in *.
  destruct (law_finish u1 (length L) a fragment (len cur) cur) as (u2 & E2 & Hu2 & Hs2); [done|rewrite Hs1; by apply list_lookup_middle|done|].
  rewrite Hs1, insert_last_but_one in Hs2. rewrite (app_assoc L [_] [_] : L ++ [_; _] = _) in Hs2. set (L2 := L ++ [Sent fragment cur]) in *.
  destruct (law_write u2 (length L2) a1 fragment fs [] (id_bytes id)) as (u3 & E3 & Hu3 & Hs3); [done|rewrite Hs2; by apply list_lookup_middle|rewrite length_id; cbn; lia|].
  rewrite Hs2, insert_last in Hs3. cbn [app length] in E3, Hs3. rewrite length_id in E3. rewrite Z.add_0_r in E3.
  destruct (law_write u3 (length L2) a1 fragment fs (id_bytes id) c) as (u4 & E4 & Hu4 & Hs4); [done|rewrite Hs3; by apply list_lookup_middle|rewrite length_id; lia|].
  rewrite Hs3, insert_last in Hs4. rewrite length_id in E4.
  eexists (MkOversizedWriter u4 f t (Some (MkFragmentProgress (Some a1) id 0))), _.
  split; [|split].
  - intros fuel. destruct bs as [|b bs']; [done|]. cbn [fragment_loop].
    unfold mbind at 1, ST_bind at 1. cbn [get]. rewrite Hp, Hf. unfold id_size. fold fs.
    unfold mbind at 1, ST_bind at 1. unfold below at 1, zoom at 1. rewrite E1.
    unfold mbind at 1, ST_bind at 1. unfold below at 1, zoom at 1. cbn [ow_underlying set update_field fp_marker]. rewrite E2.
    unfold mbind at 1, ST_bind at 1. unfold assign at 1, modify at 1. cbn [fp_identifier].
    unfold mbind at 1, ST_bind at 1. unfold below at 1, zoom at 1. unfold set, update_field. cbn [ow_underlying]. fold (id_bytes id). rewrite E3.
    unfold mbind at 1, ST_bind at 1. unfold below at 1, zoom at 1. cbn [ow_underlying]. fold c. rewrite E4.
    unfold mbind at 1, ST_bind at 1. unfold modify at 1. unfold set, update_field. cbn. rewrite Hf, Ht, Z.sub_diag.
    replace (Z.to_nat (fs - 8)) with (length c) by lia. reflexivity.
  - split; [done|done|lia|]. exists a1. split_and!; [|done|unfold fragment_of; rewrite length_app, length_id; lia].
    cbn [ow_underlying]. rewrite Hs4. unfold L2, L, fragment_of. rewrite fmap_app, Z.add_0_r, length_app, length_id. cbn [fmap list_fmap]. rewrite <- !app_assoc. cbn [app ow_underlying].
    replace (Z.of_nat (8 + length c)) with fs by lia. done.
  - intros ->. cbn in Hc. lia.
Qed.

Lemma fragment_loop_ok fuel : forall w P id sent cur next bs,
  in_progress w P id sent cur 0 next -> (length bs <= fuel)%nat ->
  exists w' sent' cur' next' cs, fragment_loop fuel bs (Some next) w = (w', Ret (Some next')) /\
    in_progress w' P id sent' cur' 0 next' /\ sent' ++ [cur'] = sent ++ [cur] ++ (fragment_of id <$> cs) /\
    concat cs = bs /\ Forall (fun c => c <> []) cs.
Proof.
  induction fuel as [|fuel IH]; intros w P id sent cur next bs Hw Hl.
  all: destruct bs as [|b bs']; [exists w, sent, cur, next, []; by split_and!|].
  - cbn in Hl. lia.
  - set (bs := b :: bs') in *. destruct (fragment_step w P id sent cur next bs Hw ltac:(done)) as (w1 & next1 & E1 & Hw1 & Hc).
    set (c := take _ bs) in *. rewrite E1.
    assert (length c <= length bs)%nat as Hle by (unfold c; rewrite length_take; lia). assert (0 < length c)%nat by (by destruct c; [|cbn; lia]).
    destruct (IH w1 P id (sent ++ [cur]) (fragment_of id c) next1 (drop (length c) bs) Hw1) as (w' & sent' & cur' & next' & cs & E & Hw' & Hs & Hcs & Hne); [rewrite length_drop; lia|].
    exists w', sent', cur', next', (c :: cs). split; [done|]. split; [done|]. split; [rewrite Hs; cbn; by rewrite <- app_assoc|].
    split; [|by constructor]. cbn [concat]. rewrite Hcs. unfold c. rewrite length_take. 
    destruct (Nat.min_spec (Z.to_nat (Z.min (len bs + id_size) f - id_size)) (length bs)) as [[_ ->]|[Hge ->]]; [apply take_drop|].
    rewrite take_ge by done. by rewrite drop_all, app_nil_r.
Qed.

(** One section of the payload. *)
Lemma ow_write_bytes_ok w P id sent cur rem next bs :
  in_progress w P id sent cur rem next ->
  let k := Z.to_nat (Z.min (len bs) rem) in
  exists w' sent' cur' rem' next' cs, ow_write_bytes (Some next) bs w = (w', Ret (Some next')) /\
    in_progress w' P id sent' cur' rem' next' /\ sent' ++ [cur'] = sent ++ [cur ++ take k bs] ++ (fragment_of id <$> cs) /\
    concat cs = drop k bs /\ Forall (fun c => c <> []) cs /\ rem' = rem - Z.of_nat k.
Proof.
  intros Hip k. pose proof Hip as [Hu [Hf Ht] Hrem (a & Hsl & Hp & ->)].
  set (wz := Z.min (len bs) rem) in *. assert (length (take k bs) = k) as Hk by (rewrite length_take; lia).
  rewrite app_assoc in Hsl. set (L := P ++ (Sent fragment <$> sent)) in *.
  destruct (law_write (ow_underlying w) (length L) a fragment (len cur + rem) cur (take k bs)) as (u1 & E1 & Hu1 & Hs1); [done|rewrite Hsl; by apply list_lookup_middle|lia|].
  rewrite Hsl, insert_last in Hs1. set (w1 := MkOversizedWriter u1 f t (Some (MkFragmentProgress (Some a) id (rem - wz)))).
  assert (in_progress w1 P id sent (cur ++ take k bs) (rem - wz) (a + len (cur ++ take k bs))) as Hw1.
  { split; [done|done|lia|]. exists a. split; [|done]. cbn [ow_underlying w1]. rewrite Hs1. unfold L. rewrite <- app_assoc, length_app, Hk. do 4 f_equal. lia. }
  assert (ow_write_bytes (Some (a + len cur)) bs w = fragment_loop (length bs) (drop k bs) (Some (a + len (cur ++ take k bs))) w1) as ->.
  { unfold ow_write_bytes. unfold mbind at 1, ST_bind at 1. cbn [get]. rewrite Hp. cbn [fp_remainder]. fold wz. fold k.
    unfold mbind at 1, ST_bind at 1. unfold below at 1, zoom at 1. rewrite E1.
    unfold mbind at 1, ST_bind at 1. unfold assign, modify, set, update_field. cbn. rewrite Hf, Ht. fold w1.
    rewrite length_app, Hk. do 2 f_equal. lia. }
  destruct (decide (drop k bs = [])) as [E|Hne].
  - exists w1, sent, (cur ++ take k bs), (rem - wz), (a + len (cur ++ take k bs)), []. rewrite E. split; [by destruct (length bs)|]. split_and!; try done. lia.
  - assert (rem - wz = 0) as Hz. { assert (k < length bs)%nat by (apply Nat.nle_gt; intros ?; by rewrite drop_ge in Hne). lia. }
    rewrite Hz in Hw1. destruct (fragment_loop_ok (length bs) _ _ _ _ _ _ (drop k bs) Hw1) as (w' & sent' & cur' & next' & cs & E & Hw' & Hs & Hcs & Hn); [rewrite length_drop; lia|].
    exists w', sent', cur', 0, next', cs. split_and!; try done. lia.
Qed.

(** A split message of which [c0] is in the first fragment and [cs] in the others so far. *)
Definition split_at (w : OversizedWriter W) (P : list Slot) (id m total : Z) (c0 : bytes) (cs : list bytes) (rem next : Z) : Prop :=
  exists sent cur, in_progress w P id sent cur rem next /\ sent ++ [cur] = (initial_header id m total ++ c0) :: (fragment_of id <$> cs) /\
    Forall (fun c => c <> []) cs /\ len c0 + rem = f - initial_header_size /\ (cs <> [] -> rem = 0).

Lemma split_write w P id m total c0 cs rem next bs :
  split_at w P id m total c0 cs rem next ->
  exists w' c0' cs' rem' next', ow_write_bytes (Some next) bs w = (w', Ret (Some next')) /\ split_at w' P id m total c0' cs' rem' next' /\
    c0' ++ concat cs' = (c0 ++ concat cs) ++ bs.
Proof.
  intros (sent & cur & Hip & Hf & Hne & Hfirst & Hlater). pose proof (ip_rem _ _ _ _ _ _ _ Hip) as Hrem.
  destruct (ow_write_bytes_ok w P id sent cur rem next bs Hip) as (w' & sent' & cur' & rem' & next' & cs1 & E & Hw' & Hs & Hcs & Hne1 & Hr).
  set (k := Z.to_nat (Z.min (len bs) rem)) in *. destruct cs as [|c cs].
  - apply (app_inj_2 _ [] _ [_]) in Hf as [-> Hcur]; [|done]. assert (cur = initial_header id m total ++ c0) as -> by (injection Hcur; done).
    exists w', (c0 ++ take k bs), cs1, rem', next'. split; [done|]. split.
    + exists sent', cur'. split_and!; [done|by rewrite Hs, <- app_assoc|done| |].
      * rewrite length_app, length_take. lia.
      * intros Hcs1. assert (k < length bs)%nat; [|unfold k in *; lia]. apply Nat.nle_gt. intros ?. rewrite drop_ge in Hcs by done.
        destruct cs1 as [|c1 cs1]; [done|]. apply Forall_cons in Hne1 as [Hc1 _]. by apply app_nil in Hcs as [? _].
    + rewrite Hcs. cbn. by rewrite app_nil_r, <- app_assoc, take_drop.
  - assert (rem = 0) as -> by (by apply Hlater). assert (k = 0%nat) as Hk by (unfold k; lia). clearbody k. subst k.
    rewrite drop_0 in Hcs. rewrite take_0, app_nil_r in Hs.
    exists w', c0, ((c :: cs) ++ cs1), 0, next'. replace rem' with 0 in Hw' by lia. split; [done|]. split.
    + exists sent', cur'. split_and!; [done|rewrite Hs, app_assoc, Hf, fmap_app; done|by apply Forall_app|done|done].
    + by rewrite concat_app, Hcs, <- app_assoc.
Qed.

Lemma split_sections sections : forall w P id m total c0 cs rem next,
  split_at w P id m total c0 cs rem next ->
  exists w' c0' cs' rem' next', aw_write_sections (Some next) sections w = (w', Ret (Some next')) /\ split_at w' P id m total c0' cs' rem' next' /\
    c0' ++ concat cs' = (c0 ++ concat cs) ++ concat sections.
Proof.
  induction sections as [|s sections IH]; intros w P id m total c0 cs rem next Hw; cbn [aw_write_sections concat].
  - exists w, c0, cs, rem, next. rewrite app_nil_r. done.
  - destruct (split_write w P id m total c0 cs rem next s Hw) as (w1 & c1 & cs1 & rem1 & next1 & E1 & Hw1 & Hc1).
    destruct (IH w1 P id m total c1 cs1 rem1 next1 Hw1) as (w2 & c2 & cs2 & rem2 & next2 & E2 & Hw2 & Hc2).
    exists w2, c2, cs2, rem2, next2. unfold mbind, ST_bind. change (aw_write_bytes (Some next) s w) with (ow_write_bytes (Some next) s w). rewrite E1.
    split; [done|]. split; [done|]. by rewrite Hc2, Hc1, <- app_assoc.
Qed.

(** The writer between messages. *)
Record ready (w : OversizedWriter W) : Prop := {
  rd_usable : usable (ow_underlying w);
  rd_sizes : max_fragment_size w = f /\ max_total_size w = t;
  rd_idle : fragment_progress w = None
}.

(** The identifier of the first fragment, as the writer below gives it. *)
Definition prepared_id (w : OversizedWriter W) (id : Z) : Prop :=
  exists u mk oid, aw_prepare fragment f true (ow_underlying w) = (u, Ret (mk, oid)) /\ id = default uninitialised oid.

Lemma ow_prepare_split w m total :
  ready w -> f < total <= t ->
  exists w' id next, ow_prepare m total true w = (w', Ret (Some next, Some id)) /\ 0 <= id < 2 ^ 64 /\ prepared_id w id /\
    split_at w' (slots (ow_underlying w)) id m total [] [] (f - initial_header_size) next.
Proof.
  intros [Hu [Hf Ht] Hi] Htot. unfold ow_prepare. unfold mbind at 1, ST_bind at 1. cbn [get]. rewrite Hi, bool_decide_false by (by intros []).
  rewrite Hf, Ht, (proj2 (Z.leb_gt _ _)), (proj2 (Z.ltb_ge _ _)) by lia. cbn [negb]. unfold initial_header_size in *.
  assert (permitted f) as Hpf by (apply f_permitted; lia).
  destruct (law_prepare (ow_underlying w) fragment f true Hu Hpf) as (u1 & [a|] & oid & E1 & Hu1 & Hs1); [|by destruct Hs1].
  pose proof (law_identifier _ _ _ _ _ _ _ Hu Hpf E1) as Hid. set (id := default uninitialised oid) in *.
  unfold mbind at 1, ST_bind at 1. unfold below at 1, zoom at 1. rewrite E1. unfold set, update_field. fold id.
  set (h := initial_header id m total). assert (len h = 20) as Hh by (unfold h, initial_header; rewrite !length_app, !le_encode_length; done).
  destruct (law_write u1 (length (slots (ow_underlying w))) a fragment f [] h) as (u2 & E2 & Hu2 & Hs2); [done|rewrite Hs1; by apply list_lookup_middle|cbn; lia|].
  rewrite Hs1, insert_last in Hs2. cbn [length app] in E2, Hs2. rewrite Z.add_0_r in E2.
  unfold mbind at 1, ST_bind at 1. unfold below at 1, zoom at 1. cbn [ow_underlying]. rewrite E2.
  unfold mbind at 1, ST_bind at 1. unfold assign, modify, set, update_field. cbn -[h]. rewrite Hf, Ht.
  eexists _, id, _. split; [reflexivity|]. split; [done|]. split; [by exists u1, (Some a), oid|]. exists [], h. split.
  - split; [done|done|lia|]. exists a. cbn [ow_underlying fragment_progress fmap list_fmap app]. rewrite Hs2. split; [do 3 f_equal; lia|]. by split.
  - split; [by rewrite app_nil_r|]. split_and!; [done| |done]. unfold initial_header_size. cbn. lia.
Qed.

Lemma ow_finish_split w P id m total c0 cs next marker :
  split_at w P id m total c0 cs 0 next ->
  exists w', ow_finish marker w = (w', Ret tt) /\ ready w' /\
    slots (ow_underlying w') = P ++ (Sent fragment <$> ((initial_header id m total ++ c0) :: (fragment_of id <$> cs))).
Proof.
  intros (sent & cur & [Hu [Hf Ht] _ (a & Hsl & Hp & ->)] & Hfr & _). unfold ow_finish. unfold mbind at 1, ST_bind at 1. cbn [get]. rewrite Hp. cbn.
  rewrite app_assoc in Hsl. rewrite Z.add_0_r in Hsl. set (L := P ++ (Sent fragment <$> sent)) in *.
  destruct (law_finish (ow_underlying w) (length L) a fragment (len cur) cur) as (u1 & E1 & Hu1 & Hs1); [done|rewrite Hsl; by apply list_lookup_middle|done|].
  unfold mbind at 1, ST_bind at 1. unfold below, zoom. rewrite E1. eexists. split; [reflexivity|]. split; [by split|]. cbn.
  rewrite Hs1, Hsl, insert_last. unfold L. rewrite <- app_assoc. f_equal. change [Sent fragment cur] with (Sent fragment <$> [cur]).
  by rewrite <- fmap_app, Hfr.
Qed.

Lemma ow_sections_whole sections : forall (w : OversizedWriter W) i a m n b,
  ready w -> slots (ow_underlying w) !! i = Some (Open a m n b) -> len b + len (concat sections) <= n ->
  exists w', aw_write_sections (Some (a + len b)) sections w = (w', Ret (Some (a + len b + len (concat sections)))) /\ ready w' /\
    slots (ow_underlying w') = <[i := Open a m n (b ++ concat sections)]> (slots (ow_underlying w)).
Proof.
  induction sections as [|s sections IH]; intros w i a m n b Hr Hi Hn; cbn [concat aw_write_sections].
  - exists w. rewrite app_nil_r, Z.add_0_r, list_insert_id by done. done.
  - cbn [concat] in Hn. rewrite length_app in Hn. pose proof Hr as [Hu [Hf Ht] Hid].
    destruct (law_write (ow_underlying w) i a m n b s Hu Hi) as (u1 & E & Hu1 & Hs1); [lia|].
    unfold mbind at 1, ST_bind at 1. change (aw_write_bytes (Some (a + len b)) s w) with (ow_write_bytes (Some (a + len b)) s w).
    unfold ow_write_bytes. unfold mbind at 1, ST_bind at 1. cbn [get]. rewrite Hid. unfold below, zoom. rewrite E.
    pose proof (lookup_lt_Some _ _ _ Hi) as Hlt.
    destruct (IH (w <| ow_underlying := u1 |>) i a m n (b ++ s)) as (w2 & E2 & Hu2 & Hs2); [by split|cbn; rewrite Hs1; by apply list_lookup_insert_eq|rewrite length_app; lia|].
    exists w2. rewrite length_app in E2 |- *.
    replace (a + len b + len s) with (a + Z.of_nat (length b + length s)) by lia. rewrite E2.
    split; [do 3 f_equal; lia|]. split; [done|]. cbn in Hs2. by rewrite Hs2, Hs1, list_insert_insert_eq, <- app_assoc.
Qed.

(** A message that fits is handed on as it is. *)
Lemma ow_write_whole w m sections :
  ready w -> len (concat sections) <= f -> permitted (len (concat sections)) ->
  exists w', aw_write_multiple m true sections w = (w', Ret true) /\ ready w' /\
    slots (ow_underlying w') = slots (ow_underlying w) ++ [Sent m (concat sections)].
Proof.
  intros Hr Hle Hperm. pose proof Hr as [Hu [Hf Ht] Hi]. set (n := len (concat sections)) in *. set (i := length (slots (ow_underlying w))).
  unfold aw_write_multiple. fold n. unfold mbind at 1, ST_bind at 1. change (aw_prepare m n true w) with (ow_prepare m n true w).
  unfold ow_prepare. unfold mbind at 1, ST_bind at 1. cbn [get]. rewrite Hi, bool_decide_false by (by intros []). rewrite Hf, (proj2 (Z.leb_le n f)) by done.
  unfold below at 1, zoom at 1.
  destruct (law_prepare (ow_underlying w) m n true Hu) as (u1 & [a|] & id & E1 & Hu1 & Hs1); [done| |by destruct Hs1].
  rewrite E1. set (w1 := w <| ow_underlying := u1 |>). assert (ready w1) as Hr1 by (by split).
  destruct (ow_sections_whole sections w1 i a m n [] Hr1) as (w2 & E2 & Hr2 & Hs2); [cbn; rewrite Hs1; by apply list_lookup_middle|cbn; lia|].
  cbn [length app] in E2, Hs2. rewrite Z.add_0_r in E2. unfold mbind at 1, ST_bind at 1. rewrite E2.
  unfold mbind at 1, ST_bind at 1. change (aw_finish (Some a) w2) with (ow_finish (Some a) w2).
  pose proof Hr2 as [Hu2 [Hf2 Ht2] Hi2]. change (ow_underlying w1) with u1 in Hs2. rewrite Hs1 in Hs2. unfold i in Hs2. rewrite insert_last in Hs2.
  unfold ow_finish. unfold mbind at 1, ST_bind at 1. cbn [get]. rewrite Hi2.
  destruct (law_finish (ow_underlying w2) i a m n (concat sections)) as (u3 & E3 & Hu3 & Hs3); [done|rewrite Hs2; by apply list_lookup_middle|done|].
  unfold below, zoom. rewrite E3. eexists. split; [reflexivity|]. split; [by split|]. cbn. rewrite Hs3, Hs2. apply insert_last.
Qed.

Lemma ow_write_split w m sections :
  ready w -> f < len (concat sections) <= t ->
  exists w' id frs, aw_write_multiple m true sections w = (w', Ret true) /\ ready w' /\
    slots (ow_underlying w') = slots (ow_underlying w) ++ (as_slot <$> frs) /\ framed f m (concat sections) (Some id) frs /\ prepared_id w id.
Proof.
  intros Hr Hle. set (n := len (concat sections)) in *. unfold aw_write_multiple. fold n. unfold mbind at 1, ST_bind at 1.
  change (aw_prepare m n true w) with (ow_prepare m n true w).
  destruct (ow_prepare_split w m n Hr Hle) as (w1 & id & next1 & E1 & Hid & Hprep & Hw1). rewrite E1.
  destruct (split_sections sections w1 _ id m n [] [] _ next1 Hw1) as (w2 & c0 & cs & rem & next2 & E2 & Hw2 & Hpay). cbn [app concat] in Hpay.
  unfold mbind at 1, ST_bind at 1. rewrite E2.
  assert (cs <> [] /\ rem = 0) as [Hcs ->].
  { destruct Hw2 as (sent & cur & Hip & _ & _ & Hfirst & Hlater). destruct cs as [|c cs]; [|by auto].
    exfalso. pose proof (ip_rem _ _ _ _ _ _ _ Hip). cbn in Hpay. rewrite app_nil_r in Hpay. rewrite Hpay in Hfirst.
    unfold initial_header_size in *. lia. }
  pose proof Hw2 as (sent & cur & _ & _ & Hne & Hfirst & _).
  destruct (ow_finish_split w2 _ id m n c0 cs next2 (Some next1) Hw2) as (w3 & E3 & Hr3 & Hs3).
  unfold mbind at 1, ST_bind at 1. change (aw_finish (Some next1) w2) with (ow_finish (Some next1) w2). rewrite E3.
  eexists w3, id, _. split; [reflexivity|]. split; [done|]. split; cycle 1.
  - split; [|done]. apply (framed_split f m (concat sections) id c0 cs); [done|lia|done|done|lia].
  - rewrite Hs3. f_equal. cbn [fmap list_fmap]. f_equal. rewrite <- !list_fmap_compose. apply list_fmap_ext. intros; done.
Qed.

(** Payloads that can be written: what is not split is accepted below. *)
Definition accepts (payload : bytes) : Prop := len payload <= t /\ (len payload <= f -> permitted (len payload)).

(** A message written through the fragmenting writer reaches the writer below, over any writer that keeps the contract
    and accepts the message or its fragments: as it is if it fits a fragment, and otherwise in fragments that carry the identifier
    of the first, the first with the type and the size of the message, and whose contents are the message, cut in order. The
    writer reports success and is ready for the next message. *)
Lemma message_is_framed w m sections :
  ready w -> accepts (concat sections) ->
  exists w' id frs, aw_write_multiple m true sections w = (w', Ret true) /\ ready w' /\
    slots (ow_underlying w') = slots (ow_underlying w) ++ (as_slot <$> frs) /\ framed f m (concat sections) id frs.
Proof.
  intros Hr [Hle Hp]. destruct (Z.le_gt_cases (len (concat sections)) f) as [Hf|Hf].
  - destruct (ow_write_whole w m sections Hr Hf (Hp Hf)) as (w' & E & Hr' & Hs). exists w', None, [(m, concat sections)].
    split_and!; [done..|]. by constructor.
  - destruct (ow_write_split w m sections Hr) as (w' & id & frs & ? & ? & ? & ? & _); [done|]. by exists w', (Some id), frs.
Qed.

(** What one writer has written, message by message, with the identifiers used. *)
Inductive framed_stream : list (Z * bytes) -> list Z -> list (Z * bytes) -> Prop :=
| stream_nil : framed_stream [] [] []
| stream_cons m p id frs ms ids l :
    framed f m p id frs -> framed_stream ms ids l -> framed_stream ((m, p) :: ms) (option_list id ++ ids) (frs ++ l).

Definition write_messages (ms : list (Z * list bytes)) : ST (OversizedWriter W) unit :=
  foreach ms (fun x => aw_write_multiple x.1 true x.2;; skip).

Definition payload_of (x : Z * list bytes) : Z * bytes := (x.1, concat x.2).

Lemma messages_are_framed ms : forall w,
  ready w -> Forall (fun x => accepts (concat x.2)) ms ->
  exists w' ids l, write_messages ms w = (w', Ret tt) /\ ready w' /\
    slots (ow_underlying w') = slots (ow_underlying w) ++ (as_slot <$> l) /\ framed_stream (payload_of <$> ms) ids l.
Proof.
  induction ms as [|[m sections] ms IH]; intros w Hr Hms.
  - exists w, [], []. cbn. rewrite app_nil_r. split; [done|]. split; [done|]. split; [done|]. constructor.
  - apply Forall_cons in Hms as [Hm Hms]. destruct (message_is_framed w m sections Hr Hm) as (w1 & id & frs & E & Hr1 & Hs1 & Hf).
    destruct (IH w1 Hr1 Hms) as (w2 & ids & l & E2 & Hr2 & Hs2 & Hfs).
    exists w2, (option_list id ++ ids), (frs ++ l). unfold write_messages in *. cbn [foreach fst snd].
    split; [unfold mbind at 1, ST_bind at 1; unfold mbind at 1, ST_bind at 1; rewrite E; exact E2|]. split; [done|]. split; [by rewrite Hs2, Hs1, fmap_app, app_assoc|]. by constructor.
Qed.

Lemma framed_ids ms ids l : framed_stream ms ids l -> Forall (fun id => 0 <= id < 2 ^ 64) ids.
Proof. induction 1 as [|m p id frs ms ids l Hf _ IH]; [done|]. apply Forall_app. split; [|done]. destruct Hf; cbn; [done|by constructor]. Qed.
End oversized.

(** ** Fragments of a queueing writer *)

Section queued.
Context {W : Type} `{AW : !AbstractWriter W} `{WL : !WriterLaws W} `{UN : !Uninitialised} `{ID : !Identifies W}.
Context `{HP : !Allocator} (heap : Z -> Prop) `{AL : !AllocatorLaws heap} (heap_apart : forall z, heap z -> own_marker (W:=W) z -> False).
Context (uninitialised_range : 0 <= uninitialised < 2 ^ 64).

#[local] Instance queue_laws : WriterLaws (NonBlockingWriter W) := nb_laws heap heap_apart.

Lemma queue_identifies : Identifies (NonBlockingWriter W).
Proof.
  intros w w' m n wait mk id [Hu Hq] [Hn Hp]. cbn [aw_prepare nb_writer]. unfold nb_prepare. unfold mbind at 1, ST_bind at 1. cbn [get].
  destruct (pending w); [|by intros [= _ _ <-]]. unfold mbind at 1, ST_bind at 1. unfold underlying, zoom.
  destruct (law_prepare (nb_underlying w) m n false Hu Hp) as (u & mk' & id' & E & _). rewrite E.
  pose proof (law_identifier _ _ _ _ _ _ _ Hu Hp E) as Hid. destruct mk'; [by intros [= _ _ <-]|]. by intros [= _ _ <-].
Qed.

(** A message that is put behind others in the queue is given no identifier. *)
Lemma queued_id f (w : OversizedWriter (NonBlockingWriter W)) id :
  pending (ow_underlying w) <> [] -> prepared_id f w id -> id = uninitialised.
Proof.
  intros Hne (u & mk & oid & E & ->). revert E. cbn [aw_prepare nb_writer]. unfold nb_prepare. unfold mbind at 1, ST_bind at 1. cbn [get].
  destruct (pending (ow_underlying w)); [done|]. by intros [= _ _ <-].
Qed.
End queued.
