(* ===== verification/Messaging.v ===== *)
(** The reading side of the ring buffers: the dispatcher and the processor of src/ds/messaging.h, and the
    reconstruction of fragmented messages of src/ds/oversized.h. *)

From S2P Require Import Prelude Serialized RingBuffer Writers.

Record Counts := MkCounts { c_messages : Z; c_bytes : Z }.

(** [pm_received] of its bytes have been copied. *)
Record PartialMessage := MkPartialMessage { pa_m : Z; pa_total_size : Z; pa_data : bytes }.
#[export] Instance eta_PartialMessage : Settable PartialMessage := fun r => MkPartialMessage (pa_m r) (pa_total_size r) (pa_data r).

(** A handler is that of [FragmentReconstructor], or one of the rest of the process. *)
Inductive Handler (H : Type) := OnFragment | OnMessage (h : H).
Arguments OnFragment {H}.
Arguments OnMessage {H} h.

(** [Dispatcher], [BufferProcessor] and [FragmentReconstructor], with the state that other handlers act on. *)
Record Processor (H S : Type) := MkProcessor {
  handlers : gmap Z (Handler H);
  message_counts : gmap Z Counts;
  partial_messages : gmap Z PartialMessage;
  finished : bool;
  rest : S
}.
Arguments MkProcessor {H S}.
Arguments handlers {H S}.
Arguments message_counts {H S}.
Arguments partial_messages {H S}.
Arguments finished {H S}.
Arguments rest {H S}.
#[export] Instance eta_Processor H S : Settable (Processor H S) := fun r =>
  MkProcessor (handlers r) (message_counts r) (partial_messages r) (finished r) (rest r).

Definition no_handler : exn := LogicError "no_handler".
Definition already_handled : exn := LogicError "already_handled".

Section messaging.
Context {H S : Type} (handle : H -> bytes -> ST (Processor H S) unit).

Definition D : Type -> Type := ST (Processor H S).

(** ** [Dispatcher] *)

Definition set_message_handler (m : Z) (h : Handler H) : D unit :=
  d ← get;
  if bool_decide (is_Some (handlers d !! m)) then throw already_handled
  else handlers <~ <[m := h]> (handlers d).

Definition remove_message_handler (m : Z) : D unit :=
  d ← get;
  if bool_decide (is_Some (handlers d !! m)) then handlers <~ delete m (handlers d) else throw no_handler.

Definition has_handler (d : Processor H S) (m : Z) : bool := bool_decide (is_Some (handlers d !! m)).

Definition count_message (m size : Z) (d : Processor H S) : Processor H S :=
  let c := default (MkCounts 0 0) (message_counts d !! m) in
  d <| message_counts := <[m := MkCounts (u64 (c_messages c + 1)) (u64 (c_bytes c + size))]> (message_counts d) |>.

(** ** [FragmentReconstructor] *)

(** The arguments of a handler: what a reader takes from the front of the data, and the rest. *)
Definition take_front {A} (r : Reader A) (data : bytes) : D (A * bytes) := fun d =>
  match r data with (rest, Ret a) => (d, Ret (a, rest)) | (_, Throw e) => (d, Throw e) end.

(** The message a fragment belongs to, and the rest of the data: a new one if there is none with its identifier. *)
Definition find_partial (message_id : Z) (data : bytes) : D (PartialMessage * bytes) :=
  d ← get;
  match partial_messages d !! message_id with
  | Some p => mret (p, data)
  | None =>
      '(m, data) ← take_front (Serialized.read 4) data;
      '(total_size, data) ← take_front (Serialized.read 8) data;
      let p := MkPartialMessage m total_size [] in
      partial_messages <~ <[message_id := p]> (partial_messages d);;
      mret (p, data)
  end.

Definition received (p : PartialMessage) : Z := Z.of_nat (length (pa_data p)).

(** [dispatch_again] is [Dispatcher::dispatch]. *)
Definition on_fragment (dispatch_again : Z -> bytes -> D unit) (data : bytes) : D unit :=
  '(message_id, data) ← take_front (Serialized.read 8) data;
  '(p, data) ← find_partial message_id data;
  if pa_total_size p <? u64 (Z.of_nat (length data) + received p) then throw message_error
  else
    let p := p <| pa_data := pa_data p ++ data |> in
    d ← get;
    partial_messages <~ <[message_id := p]> (partial_messages d);;
    if received p =? pa_total_size p then
      dispatch_again (pa_m p) (pa_data p);;
      d ← get;
      partial_messages <~ delete message_id (partial_messages d)
    else skip.

(** A message may contain a fragment, and so on. *)
Fixpoint dispatch (fuel : nat) (m : Z) (data : bytes) : D unit :=
  match fuel with
  | O => throw OutOfFuel
  | Datatypes.S fuel =>
      d ← get;
      match handlers d !! m with
      | None => throw no_handler
      | Some h =>
          catch (match h with OnFragment => on_fragment (dispatch fuel) data | OnMessage h => handle h data end) (fun _ => throw StdException);;
          modify (count_message m (Z.of_nat (length data)))
      end
  end.

Definition retrieve_message_counts : D (gmap Z Counts) :=
  d ← get;
  message_counts <~ ∅;;
  mret (message_counts d).

Definition new_FragmentReconstructor : D unit := set_message_handler fragment OnFragment.

Definition delete_FragmentReconstructor : D unit :=
  remove_message_handler fragment;;
  partial_messages <~ ∅.

(** ** [BufferProcessor] *)

Definition set_finished (v : bool) : D unit := finished <~ v.

(** The reader's program, run with nobody else at the buffer; the handler is called as it goes. *)
Fixpoint run_reader {A} (on_message : Z -> bytes -> D unit) (p : Prog A) : ST (Ring * Processor H S) A := fun '(r, d) =>
  match p with
  | Done a => ((r, d), Ret a)
  | Raise e => ((r, d), Throw e)
  | Spin => ((r, d), Throw OutOfFuel)
  | Load l k => run_reader on_message (k (load_loc l r)) (r, d)
  | Store l v k => run_reader on_message k (store_loc l v r, d)
  | CompareExchangeWeak e v k =>
      if tail r =? e then run_reader on_message (k true e) (r <| tail := v |>, d) else run_reader on_message (k false (tail r)) (r, d)
  | Read64 i k => run_reader on_message (k (le_decode (load_bytes (RingBuffer.data r) i 8))) (r, d)
  | Write64 i v k => run_reader on_message k (r <| RingBuffer.data := store_bytes (RingBuffer.data r) i (le_encode 8 v) |>, d)
  | Memcpy i bs k => run_reader on_message k (r <| RingBuffer.data := store_bytes (RingBuffer.data r) i bs |>, d)
  | MemsetZero i n k => run_reader on_message k (r <| RingBuffer.data := store_bytes (RingBuffer.data r) i (list_replicate (Z.to_nat n) 0) |>, d)
  | Handle m i n k =>
      match on_message m (load_bytes (RingBuffer.data r) i (Z.to_nat n)) d with
      | (d', Ret _) => run_reader on_message k (r, d')
      | (d', Throw e) => ((r, d'), Throw e)
      end
  end.

Section processor.
(** The size of the buffer, and bounds for the turns of the loops. *)
Context (size : Z) (fuel : nat).

Definition read_one : ST (Ring * Processor H S) Z := run_reader (dispatch fuel) (RingBuffer.read size fuel 1).

Fixpoint read_n_loop (n : nat) (max_messages total_read previous_read : Z) : ST (Ring * Processor H S) Z :=
  match n with
  | O => throw OutOfFuel
  | Datatypes.S n =>
      '(_, d) ← get;
      if negb (negb (finished d) && (total_read <? max_messages)) then mret total_read
      else
        count ← read_one;
        let total_read := total_read + count in
        if (count =? 0) && (previous_read =? 0) then mret total_read
        else read_n_loop n max_messages total_read count
  end.

Definition read_n (max_messages : Z) : ST (Ring * Processor H S) Z := read_n_loop fuel max_messages 0 (2 ^ 64 - 1).

Fixpoint read_all_loop (n : nat) (total_read : Z) : ST (Ring * Processor H S) Z :=
  match n with
  | O => throw OutOfFuel
  | Datatypes.S n =>
      count ← read_n 1;
      if count =? 0 then mret (total_read + count) else read_all_loop n (total_read + count)
  end.

Definition read_all : ST (Ring * Processor H S) Z := read_all_loop fuel 0.

(** [idler] is the behaviour of the caller between turns. *)
Fixpoint run_loop (n : nat) (idler : Z -> ST (Ring * Processor H S) unit) (total_read consecutive_idles : Z) : ST (Ring * Processor H S) Z :=
  match n with
  | O => throw OutOfFuel
  | Datatypes.S n =>
      '(_, d) ← get;
      if finished d then mret total_read
      else
        num_read ← read_all;
        if num_read =? 0 then idler consecutive_idles;; run_loop n idler total_read (u64 (consecutive_idles + 1))
        else run_loop n idler (total_read + num_read) 0
  end.
End processor.
End messaging.
