(* ===== verification/MessagingProps.v ===== *)
(** What the reading side makes of the messages of several writers: fragments are put together again, and everything that
    is in a ring buffer is dispatched. *)

From S2P Require Import Prelude Serialized RingBuffer RingInvariant RingSafety RingSystem RingRuns RingProgress Writers WritersProps OversizedProps Messaging.

#[local] Abbreviation len l := (Z.of_nat (length l)).
#[local] Arguments le_encode : simpl never.

(** ** Interleavings *)

(** [l] takes the elements of the lists [ls] in some order that is that of each list. *)
Inductive shuffle {A} : list (list A) -> list A -> Prop :=
| shuffle_done ls : Forall (fun l => l = []) ls -> shuffle ls []
| shuffle_pick ls i x xs l : ls !! i = Some (x :: xs) -> shuffle (<[i := xs]> ls) l -> shuffle ls (x :: l).

Section reassembly.
Context {H S : Type} (handle : H -> bytes -> ST (Processor H S) unit) (act : H -> bytes -> S -> S) (f : Z).

(** The handlers of the process return, and change nothing of the dispatcher. *)
Hypothesis handle_acts : forall h data d, handle h data d = (d <| rest := act h data (rest d) |>, Ret tt).

Definition apply_message (hs : gmap Z (Handler H)) (s : S) (x : Z * bytes) : S :=
  match hs !! x.1 with Some (OnMessage h) => act h x.2 s | _ => s end.

Definition dispatch_all (fuel : nat) (l : list (Z * bytes)) : ST (Processor H S) unit := foreach l (fun x => dispatch handle fuel x.1 x.2).

(** Messages that can be written and that somebody handles. *)
Definition sendable (hs : gmap Z (Handler H)) (x : Z * bytes) : Prop :=
  0 <= x.1 < 2 ^ 32 /\ len x.2 < 2 ^ 64 /\ exists h, hs !! x.1 = Some (OnMessage h).

(** ** One stream *)

Record Stream := MkStream {
  st_frames : list (Z * bytes);
  st_messages : list (Z * bytes);
  st_ids : list Z;
  st_part : option (Z * PartialMessage)
}.

Inductive stream_ok : Stream -> Prop :=
| between ms ids l : framed_stream f ms ids l -> stream_ok (MkStream l ms ids None)
| within id m p got c cs ms ids l :
    p = got ++ concat (c :: cs) -> Forall (fun c => c <> []) (c :: cs) -> framed_stream f ms ids l ->
    stream_ok (MkStream ((pair fragment ∘ fragment_of id <$> c :: cs) ++ l) ((m, p) :: ms) (id :: ids) (Some (id, MkPartialMessage m (len p) got))).

(** The dispatcher knows of the stream what it has seen of it. *)
Definition knows (d : Processor H S) (st : Stream) : Prop :=
  match st_part st with
  | Some (id, p) => partial_messages d !! id = Some p
  | None => forall id, id ∈ st_ids st -> partial_messages d !! id = None
  end.

(** What dispatching a message of the stream does. *)
Inductive advances (hs : gmap Z (Handler H)) (d : Processor H S) (st : Stream) : Processor H S -> Stream -> Prop :=
| advance_delivers d' xs x ms ids :
    st_messages st = x :: ms -> rest d' = apply_message hs (rest d) x ->
    partial_messages d' = match st_part st with Some (id, _) => delete id (partial_messages d) | None => partial_messages d end ->
    ids `suffix_of` st_ids st -> (forall id p, st_part st = Some (id, p) -> st_ids st = id :: ids) ->
    advances hs d st d' (MkStream xs ms ids None)
| advance_collects d' xs id p :
    rest d' = rest d -> partial_messages d' = <[id := p]> (partial_messages d) -> id ∈ st_ids st ->
    (forall id' p', st_part st = Some (id', p') -> id' = id) -> (exists ids, st_ids st = id :: ids) ->
    advances hs d st d' (MkStream xs (st_messages st) (st_ids st) (Some (id, p))).

Lemma apply_same hs s x h : hs !! x.1 = Some (OnMessage h) -> apply_message hs s x = act h x.2 s.
Proof. unfold apply_message. by intros ->. Qed.

(** A message for the process. *)
Lemma dispatch_message fuel m p d h :
  handlers d !! m = Some (OnMessage h) ->
  exists d', dispatch handle (Datatypes.S fuel) m p d = (d', Ret tt) /\ handlers d' = handlers d /\ partial_messages d' = partial_messages d /\
    rest d' = apply_message (handlers d) (rest d) (m, p).
Proof.
  intros Hh. cbn [dispatch]. unfold mbind at 1, ST_bind at 1. cbn [get]. rewrite Hh. unfold mbind, ST_bind, catch. rewrite handle_acts.
  eexists. split; [reflexivity|]. cbn. by rewrite (apply_same _ _ (m, p) h).
Qed.

(** What is left of handling a fragment when its message is known. *)
Definition add_fragment (again : Z -> bytes -> ST (Processor H S) unit) (id : Z) (q : PartialMessage) (c : bytes) : ST (Processor H S) unit :=
  if pa_total_size q <? u64 (len c + received q) then throw message_error
  else
    let q := q <| pa_data := pa_data q ++ c |> in
    d ← get;
    partial_messages <~ <[id := q]> (partial_messages d);;
    if received q =? pa_total_size q then
      again (pa_m q) (pa_data q);;
      d ← get;
      partial_messages <~ delete id (partial_messages d)
    else skip.

Lemma add_last fuel id m got c d :
  sendable (handlers d) (m, got ++ c) ->
  exists d', add_fragment (dispatch handle (Datatypes.S fuel)) id (MkPartialMessage m (len (got ++ c)) got) c d = (d', Ret tt) /\ handlers d' = handlers d /\
    partial_messages d' = delete id (partial_messages d) /\ rest d' = apply_message (handlers d) (rest d) (m, got ++ c).
Proof.
  intros (Hm & Hl & h & Hh). cbn [fst snd] in *. unfold add_fragment, received. cbn [pa_data pa_total_size].
  rewrite length_app in Hl |- *. rewrite u64_small by (unfold u64_modulus; lia). rewrite (proj2 (Z.ltb_ge _ _)) by lia.
  unfold mbind at 1, ST_bind at 1. cbn [get]. unfold mbind at 1, ST_bind at 1, assign at 1, modify at 1.
  unfold set, update_field. cbn [pa_data pa_total_size pa_m]. rewrite length_app, Z.eqb_refl.
  set (d1 := MkProcessor _ _ _ _ _).
  destruct (dispatch_message fuel m (got ++ c) d1 h Hh) as (d2 & E & Hh2 & Hp2 & Hr2).
  unfold mbind at 1, ST_bind at 1. rewrite E. eexists. split; [reflexivity|]. cbn. rewrite Hh2, Hp2, Hr2. cbn. by rewrite delete_insert_eq.
Qed.

Lemma add_more again id m (total : Z) got c d :
  len got + len c < total -> total < 2 ^ 64 ->
  exists d', add_fragment again id (MkPartialMessage m total got) c d = (d', Ret tt) /\ handlers d' = handlers d /\
    partial_messages d' = <[id := MkPartialMessage m total (got ++ c)]> (partial_messages d) /\ rest d' = rest d.
Proof.
  intros Hlt Ht. unfold add_fragment, received. cbn [pa_data pa_total_size]. rewrite u64_small by (unfold u64_modulus; lia).
  rewrite (proj2 (Z.ltb_ge _ _)) by lia. unfold mbind, ST_bind. cbn [get]. unfold assign, modify, set, update_field. cbn. rewrite length_app.
  rewrite (proj2 (Z.eqb_neq _ _)) by lia. by eexists.
Qed.

Lemma on_fragment_known again id q c d :
  0 <= id < 2 ^ 64 -> partial_messages d !! id = Some q -> on_fragment again (fragment_of id c) d = add_fragment again id q c d.
Proof.
  intros Hid Hq. unfold on_fragment, fragment_of, id_bytes. unfold mbind at 1, ST_bind at 1. unfold take_front at 1. rewrite read_app by done.
  unfold mbind at 1, ST_bind at 1. unfold find_partial. unfold mbind at 1, ST_bind at 1. cbn [get]. by rewrite Hq.
Qed.

Lemma on_fragment_new again id m total c d :
  0 <= id < 2 ^ 64 -> 0 <= m < 2 ^ 32 -> 0 <= total < 2 ^ 64 -> partial_messages d !! id = None ->
  on_fragment again (initial_header id m total ++ c) d =
  add_fragment again id (MkPartialMessage m total []) c (d <| partial_messages := <[id := MkPartialMessage m total []]> (partial_messages d) |>).
Proof.
  intros Hid Hm Ht Hq. unfold on_fragment, initial_header. rewrite <- !app_assoc. unfold mbind at 1, ST_bind at 1. unfold take_front at 1. rewrite read_app by done.
  unfold mbind at 1, ST_bind at 1. unfold find_partial. unfold mbind at 1, ST_bind at 1. cbn [get]. rewrite Hq.
  unfold mbind at 1, ST_bind at 1. unfold take_front at 1. rewrite read_app by done.
  unfold mbind at 1, ST_bind at 1. unfold take_front at 1. rewrite read_app by done. done.
Qed.

(** A fragment that is handled without an exception. *)
Lemma dispatch_fragment fuel data d d' :
  handlers d !! fragment = Some OnFragment -> on_fragment (dispatch handle fuel) data d = (d', Ret tt) ->
  dispatch handle (Datatypes.S fuel) fragment data d = (count_message fragment (len data) d', Ret tt).
Proof. intros Hh E. cbn [dispatch]. unfold mbind at 1, ST_bind at 1. cbn [get]. rewrite Hh. unfold mbind, ST_bind, catch. by rewrite E. Qed.

Lemma concat_pos (cs : list bytes) : Forall (fun c => c <> []) cs -> cs <> [] -> 0 < len (concat cs).
Proof. intros Hne Hcs. destruct Hne as [|c cs Hc _]; [done|]. cbn. rewrite length_app. destruct c; [done|cbn; lia]. Qed.

(** Fragments with the identifier of a message that is being collected complete it, whoever has sent them. *)
Lemma collect_fragments fuel id m cs : forall got d,
  0 <= id < 2 ^ 64 -> handlers d !! fragment = Some OnFragment -> sendable (handlers d) (m, got ++ concat cs) ->
  Forall (fun c => c <> []) cs -> cs <> [] -> partial_messages d !! id = Some (MkPartialMessage m (len (got ++ concat cs)) got) ->
  exists d', dispatch_all (2 + fuel) (pair fragment ∘ fragment_of id <$> cs) d = (d', Ret tt) /\ handlers d' = handlers d /\
    partial_messages d' = delete id (partial_messages d) /\ rest d' = apply_message (handlers d) (rest d) (m, got ++ concat cs).
Proof.
  induction cs as [|c [|c' cs] IH]; [done| |]; intros got d Hid Hf Hs Hne _ Hq; unfold dispatch_all; cbn [fmap list_fmap foreach Nat.add compose fst snd].
  - cbn [concat] in *. rewrite app_nil_r in *. destruct (add_last fuel id m got c d Hs) as (d' & E & Hh & Hp & Hr).
    unfold mbind, ST_bind. erewrite dispatch_fragment; [|done|by erewrite on_fragment_known]. by eexists.
  - apply Forall_cons in Hne as [Hc Hne]. pose proof (concat_pos _ Hne ltac:(done)) as Hpos. pose proof Hs as (_ & Hl & _). cbn [fst snd] in Hl.
    change (concat (c :: c' :: cs)) with (c ++ concat (c' :: cs)) in *. rewrite (app_assoc got c) in *.
    destruct (add_more (dispatch handle (Datatypes.S fuel)) id m (len ((got ++ c) ++ concat (c' :: cs))) got c d) as (d1 & E & Hh & Hp & Hr); [rewrite !length_app; lia|done|].
    unfold mbind at 1, ST_bind at 1. erewrite dispatch_fragment; [|done|by erewrite on_fragment_known].
    destruct (IH (got ++ c) (count_message fragment (len (fragment_of id c)) d1)) as (d' & E' & Hh' & Hp' & Hr').
    1-6: cbn; rewrite ?Hh; try done. { rewrite Hp. apply lookup_insert_eq. }
    exists d'. split; [exact E'|]. rewrite Hh', Hp', Hr'. cbn. rewrite Hh, Hp, Hr. by rewrite delete_insert_eq.
Qed.

(** A first fragment followed by fragments with its identifier. *)
Lemma first_fragment_collects fuel id m c0 cs d :
  0 <= id < 2 ^ 64 -> handlers d !! fragment = Some OnFragment -> sendable (handlers d) (m, c0 ++ concat cs) ->
  Forall (fun c => c <> []) cs -> cs <> [] -> partial_messages d !! id = None ->
  exists d', dispatch_all (2 + fuel) ((fragment, initial_header id m (len (c0 ++ concat cs)) ++ c0) :: (pair fragment ∘ fragment_of id <$> cs)) d = (d', Ret tt) /\
    handlers d' = handlers d /\ partial_messages d' = partial_messages d /\ rest d' = apply_message (handlers d) (rest d) (m, c0 ++ concat cs).
Proof.
  intros Hid Hf Hs Hne Hcs Hq. pose proof (concat_pos _ Hne Hcs) as Hpos. pose proof Hs as (Hm & Hl & _). cbn [fst snd] in Hm, Hl.
  set (total := len (c0 ++ concat cs)) in *. assert (total = len c0 + len (concat cs)) as Ht by (unfold total; rewrite length_app; lia).
  set (d0 := d <| partial_messages := <[id := MkPartialMessage m total []]> (partial_messages d) |>).
  destruct (add_more (dispatch handle (Datatypes.S fuel)) id m total [] c0 d0) as (d1 & E & Hh & Hp & Hr); [cbn; lia|done|].
  unfold dispatch_all. cbn [foreach Nat.add fst snd]. unfold mbind at 1, ST_bind at 1.
  erewrite dispatch_fragment; [|done|rewrite on_fragment_new by (done || lia); exact E].
  destruct (collect_fragments fuel id m cs c0 (count_message fragment (len (initial_header id m total ++ c0)) d1)) as (d' & E' & Hh' & Hp' & Hr').
  1-6: cbn; rewrite ?Hh; try done. { rewrite Hp. apply lookup_insert_eq. }
  exists d'. split; [exact E'|]. rewrite Hh', Hp', Hr'. cbn. rewrite Hh, Hp, Hr. cbn. by rewrite insert_insert_eq, delete_insert_id.
Qed.

Lemma cons_eq {A} (x y : A) l l' : x :: l = y :: l' -> x = y /\ l = l'.
Proof. by intros [= -> ->]. Qed.

(** Dispatching the next message of a stream. *)
Lemma stream_step fuel d st x xs :
  stream_ok st -> st_frames st = x :: xs -> knows d st -> handlers d !! fragment = Some OnFragment ->
  Forall (sendable (handlers d)) (st_messages st) -> Forall (fun id => 0 <= id < 2 ^ 64) (st_ids st) ->
  exists d' st', dispatch handle (Datatypes.S (Datatypes.S fuel)) x.1 x.2 d = (d', Ret tt) /\ handlers d' = handlers d /\
    stream_ok st' /\ st_frames st' = xs /\ advances (handlers d) d st d' st'.
Proof.
  intros Hok Hx Hk Hf Hms Hids. destruct Hok as [ms ids l Hs|id m p got c cs ms ids l Hp Hne Hs]; cbn in Hx, Hk, Hms, Hids.
  - destruct Hs as [|m p oid frs ms ids l Hfr Hs]; [done|]. apply Forall_cons in Hms as [Hm Hms]. destruct Hm as (Hm & Hl & h & Hh); cbn in Hm, Hl, Hh.
    destruct Hfr as [Hle|id c0 cs _ Hlt Hp Hne]; cbn [app option_list] in *; apply cons_eq in Hx as [<- <-]; cbn [fst snd].
    + destruct (dispatch_message (Datatypes.S fuel) m p d h Hh) as (d' & E & Hh' & Hp' & Hr'). exists d', (MkStream l ms ids None).
      split; [done|]. split; [done|]. split; [by constructor|]. split; [done|]. by econstructor.
    + apply Forall_cons in Hids as [Hid Hids]. assert (partial_messages d !! id = None) as Hnone by (apply Hk; left).
      set (d1 := d <| partial_messages := <[id := MkPartialMessage m (len p) []]> (partial_messages d) |>).
      destruct cs as [|c cs].
      * cbn in Hp. rewrite app_nil_r in Hp. subst c0.
        destruct (add_last fuel id m [] p d1) as (d' & E & Hh' & Hp' & Hr'); [split; [done|split; [done|by exists h]]|].
        eexists _, (MkStream l ms ids None). split; [apply dispatch_fragment; [done|]; rewrite on_fragment_new by (done || lia); exact E|].
        split; [done|]. split; [by constructor|]. split; [done|]. econstructor; [done|done| |by exists [id]|done].
        cbn. rewrite Hp'. cbn. by rewrite delete_insert_id.
      * pose proof (concat_pos _ Hne ltac:(done)) as Hpos. assert (len p = len c0 + len (concat (c :: cs))) as Hlen by (rewrite Hp, length_app; lia).
        destruct (add_more (dispatch handle (Datatypes.S fuel)) id m (len p) [] c0 d1) as (d' & E & Hh' & Hp' & Hr'); [cbn [length]; lia|lia|].
        eexists _, (MkStream _ ((m, p) :: ms) (id :: ids) (Some (id, MkPartialMessage m (len p) c0))).
        split; [apply dispatch_fragment; [done|]; rewrite on_fragment_new by (done || lia); exact E|].
        split; [done|]. split; [by apply within|]. split; [done|].
        eapply (advance_collects _ _ (MkStream _ ((m, p) :: ms) (id :: ids) None)); [done| |left|done|by eexists]. cbn. rewrite Hp'. cbn. by rewrite insert_insert_eq.
  - apply cons_eq in Hx as [<- <-]. cbn [fst snd]. apply Forall_cons in Hms as [Hm Hms]. apply Forall_cons in Hids as [Hid Hids]. apply Forall_cons in Hne as [Hc Hne].
    destruct cs as [|c' cs].
    + cbn in Hp. rewrite app_nil_r in Hp. subst p. destruct (add_last fuel id m got c d) as (d' & E & Hh' & Hp' & Hr'); [done|].
      eexists _, (MkStream l ms ids None). split; [apply dispatch_fragment; [done|]; erewrite on_fragment_known by done; exact E|].
      split; [done|]. split; [by constructor|]. split; [done|]. econstructor; [done|done|done|by exists [id]|]. by intros ? ? [= -> _].
    + pose proof (concat_pos _ Hne ltac:(done)) as Hpos. destruct Hm as (_ & Hl & _). cbn in Hl.
      assert (len p = len got + len c + len (concat (c' :: cs))) as Hlen by (rewrite Hp; cbn [concat]; rewrite !length_app; lia).
      destruct (add_more (dispatch handle (Datatypes.S fuel)) id m (len p) got c d) as (d' & E & Hh' & Hp' & Hr'); [lia|lia|].
      eexists _, (MkStream _ ((m, p) :: ms) (id :: ids) (Some (id, MkPartialMessage m (len p) (got ++ c)))).
      split; [apply dispatch_fragment; [done|]; erewrite on_fragment_known by done; exact E|].
      split; [done|]. split; [apply within; [by rewrite Hp, <- app_assoc|done|done]|]. split; [done|].
      eapply (advance_collects _ _ (MkStream _ ((m, p) :: ms) (id :: ids) _)); [done|done|left|by intros ? ? [= -> _]|by eexists].
Qed.

(** ** All streams *)

Record streams_ok (d : Processor H S) (sts : list Stream) : Prop := {
  so_ok i st : sts !! i = Some st -> stream_ok st;
  so_sendable i st : sts !! i = Some st -> Forall (sendable (handlers d)) (st_messages st);
  so_ids i st : sts !! i = Some st -> Forall (fun id => 0 <= id < 2 ^ 64) (st_ids st) /\ NoDup (st_ids st);
  so_apart i j st st' id : sts !! i = Some st -> sts !! j = Some st' -> id ∈ st_ids st -> id ∈ st_ids st' -> i = j;
  so_parts id p : partial_messages d !! id = Some p <-> exists i st, sts !! i = Some st /\ st_part st = Some (id, p);
  so_fragment : handlers d !! fragment = Some OnFragment
}.

Lemma part_id st id p : stream_ok st -> st_part st = Some (id, p) -> id ∈ st_ids st.
Proof. intros [|]; cbn; [done|]. intros [= -> _]. left. Qed.

Lemma streams_know d sts i st : streams_ok d sts -> sts !! i = Some st -> knows d st.
Proof.
  intros [Hok _ _ Hap Hp _] Hi. unfold knows. destruct (st_part st) as [[id p]|] eqn:E; [apply Hp; by exists i, st|].
  intros id Hid. destruct (partial_messages d !! id) as [p|] eqn:Eq; [|done]. apply Hp in Eq as (j & st' & Hj & Hst').
  pose proof (part_id _ _ _ (Hok _ _ Hj) Hst') as Hid'. rewrite (Hap i j st st' id) in Hi by done. congruence.
Qed.

(** A stream is replaced by one that uses no other identifiers. *)
Lemma streams_update d d' sts i st st' :
  streams_ok d sts -> sts !! i = Some st -> stream_ok st' -> handlers d' = handlers d ->
  Forall (sendable (handlers d)) (st_messages st') -> st_ids st' `suffix_of` st_ids st ->
  (forall id p, partial_messages d' !! id = Some p <-> st_part st' = Some (id, p) \/ partial_messages d !! id = Some p /\ id ∉ st_ids st) ->
  streams_ok d' (<[i := st']> sts).
Proof.
  intros [Hok Hsd Hids Hap Hp Hf] Hi Hok' Hh Hms [pre Hsuf] Hparts.
  assert (forall id, id ∈ st_ids st' -> id ∈ st_ids st) as Hsub by (intros id ?; rewrite Hsuf; apply elem_of_app; by right).
  assert (forall j x, <[i := st']> sts !! j = Some x -> (j = i /\ x = st') \/ (j <> i /\ sts !! j = Some x)) as Hcase.
  { intros j x [(-> & <- & _)|[? ?]]%list_lookup_insert_Some; [by left|by right]. }
  assert (forall j x id, <[i := st']> sts !! j = Some x -> id ∈ st_ids x -> exists y, sts !! j = Some y /\ id ∈ st_ids y) as Hold.
  { intros j x id [[-> ->]|[_ Hj]]%Hcase Hid; [exists st; split; [done|by apply Hsub]|by exists x]. }
  split.
  - intros j x [[_ ->]|[_ ?]]%Hcase; [done|by eapply Hok].
  - intros j x Hj. rewrite Hh. destruct (Hcase j x Hj) as [[_ ->]|[_ ?]]; [done|by eapply Hsd].
  - intros j x [[-> ->]|[_ ?]]%Hcase; [|by eapply Hids]. destruct (Hids i st Hi) as [Hr Hn]. rewrite Hsuf in Hr, Hn.
    apply Forall_app in Hr as [_ Hr]. by apply NoDup_app in Hn as (_ & _ & Hn).
  - intros j1 j2 x y id H1 H2 Hx Hy. destruct (Hold _ _ _ H1 Hx) as (x' & ? & ?), (Hold _ _ _ H2 Hy) as (y' & ? & ?). by eapply Hap.
  - intros id p. rewrite Hparts. split.
    + intros [Hst|[(j & x & Hj & Hx)%Hp Hnid]].
      * exists i, st'. split; [|done]. apply list_lookup_insert_eq. by eapply lookup_lt_Some.
      * exists j, x. split; [|done]. assert (j <> i) as Hne by (intros ->; apply Hnid; rewrite Hj in Hi; injection Hi as ->; by eapply part_id; [eapply Hok|]).
        by rewrite list_lookup_insert_ne.
    + intros (j & x & Hj & Hx). destruct (Hcase j x Hj) as [[_ ->]|[Hne Hj']]; [by left|right].
      split; [apply Hp; by exists j, x|]. intros Hid. pose proof (part_id _ _ _ (Hok _ _ Hj') Hx). apply Hne. by eapply Hap.
  - by rewrite Hh.
Qed.

Lemma streams_advance d d' sts i st st' :
  streams_ok d sts -> sts !! i = Some st -> stream_ok st' -> handlers d' = handlers d -> advances (handlers d) d st d' st' ->
  streams_ok d' (<[i := st']> sts).
Proof.
  intros Hso Hi Hok' Hh Ha. pose proof Hso as [Hok Hsd Hids Hap Hp Hf]. pose proof (streams_know _ _ _ _ Hso Hi) as Hk. destruct (Hids _ _ Hi) as [_ Hnd].
  assert (forall id p, partial_messages d !! id = Some p -> id ∈ st_ids st -> st_part st = Some (id, p)) as Hmine.
  { intros id p (j & x & Hj & Hx)%Hp Hid. pose proof (part_id _ _ _ (Hok _ _ Hj) Hx). rewrite (Hap i j st x id) in Hi by done. congruence. }
  eapply streams_update; [exact Hso|exact Hi|done|done|..].
  - destruct Ha as [? ? ? ? ? Hms|]; cbn; [|by eapply Hsd]. pose proof (Hsd _ _ Hi) as Hall. rewrite Hms in Hall. by apply Forall_cons in Hall as [_ ?].
  - destruct Ha as [|]; cbn; done.
  - intros id p. destruct Ha as [? xs x ms ids Hms Hr Hpm Hsuf Hpart|? xs id0 p0 Hr Hpm Hin Hpart [ids Hids0]]; cbn [st_part]; rewrite Hpm.
    + split.
      * intros Hd. right. destruct (st_part st) as [[id1 p1]|] eqn:E.
        -- apply lookup_delete_Some in Hd as [Hne Hd]. split; [done|]. intros Hid. specialize (Hmine _ _ Hd Hid). congruence.
        -- split; [done|]. intros Hid. by specialize (Hmine _ _ Hd Hid).
      * intros [|[Hd Hnid]]; [done|]. destruct (st_part st) as [[id1 p1]|] eqn:E; [|done]. apply lookup_delete_Some. split; [|done].
        intros ->. apply Hnid. by eapply part_id; [eapply Hok|].
    + split.
      * intros [[-> ->]|[Hne Hd]]%lookup_insert_Some; [by left|right]. split; [done|]. intros Hid. specialize (Hmine _ _ Hd Hid). by apply Hpart in Hmine.
      * intros [[= -> ->]|[Hd Hnid]]; [by rewrite lookup_insert_eq|]. rewrite lookup_insert_ne; [done|]. by intros ->.
Qed.

Lemma framed_stream_nil ms ids : framed_stream f ms ids [] -> ms = [].
Proof. inversion 1 as [|m p id frs ms' ids' l Hfr Hs]; [done|]. by destruct Hfr. Qed.

Lemma finished_stream st : stream_ok st -> st_frames st = [] -> st_messages st = [] /\ st_part st = None.
Proof. intros [ms ids l Hs|]; cbn; [|done]. intros ->. by rewrite (framed_stream_nil _ _ Hs). Qed.

Lemma shuffle_dispatched fuel ls l : shuffle ls l -> forall sts d,
  ls = st_frames <$> sts -> streams_ok d sts ->
  exists d' dl, dispatch_all (Datatypes.S (Datatypes.S fuel)) l d = (d', Ret tt) /\ handlers d' = handlers d /\ partial_messages d' = ∅ /\
    shuffle (st_messages <$> sts) dl /\ rest d' = foldl (apply_message (handlers d)) (rest d) dl.
Proof.
  induction 1 as [ls Hall|ls i x xs l Hi _ IH]; intros sts d -> Hso.
  - assert (forall i st, sts !! i = Some st -> st_messages st = [] /\ st_part st = None) as Hdone.
    { intros i st Hi. apply finished_stream; [by eapply so_ok|]. rewrite Forall_fmap, Forall_lookup in Hall. by apply (Hall i). }
    exists d, []. split; [done|]. split; [done|]. split; [|split; [|done]].
    + apply map_eq. intros id. rewrite lookup_empty. destruct (partial_messages d !! id) as [p|] eqn:E; [|done].
      apply (so_parts _ _ Hso) in E as (i & st & Hi & Hst). destruct (Hdone _ _ Hi). congruence.
    + constructor. rewrite Forall_fmap, Forall_lookup. intros i st Hi. by apply (Hdone i st).
  - apply list_lookup_fmap_Some in Hi as (st & Hx & Hi). symmetry in Hx. pose proof (so_ids _ _ Hso _ _ Hi) as [Hr _].
    destruct (stream_step fuel d st x xs) as (d1 & st' & E & Hh & Hok' & Hxs & Ha);
      [by eapply so_ok|done|by eapply streams_know|by eapply so_fragment|by eapply so_sendable|done|].
    pose proof (streams_advance _ _ _ _ _ _ Hso Hi Hok' Hh Ha) as Hso'.
    destruct (IH (<[i := st']> sts) d1) as (d' & dl & E' & Hh' & Hp' & Hsh & Hr'); [by rewrite list_fmap_insert, Hxs|done|].
    unfold dispatch_all in *. cbn [foreach]. unfold mbind, ST_bind. rewrite E, E'.
    rewrite list_fmap_insert in Hsh. destruct Ha as [? xs' y ms ids Hms Hrest|? xs' id p Hrest]; cbn [st_messages st_frames] in *.
    + exists d', (y :: dl). split; [done|]. split; [congruence|]. split; [done|]. split.
      * eapply shuffle_pick; [|exact Hsh]. rewrite list_lookup_fmap, Hi. cbn. by rewrite Hms.
      * rewrite Hr', Hrest, Hh. done.
    + exists d', dl. split; [done|]. split; [congruence|]. split; [done|]. split; [|by rewrite Hr', Hrest, Hh].
      rewrite list_insert_id in Hsh; [done|]. by rewrite list_lookup_fmap, Hi.
Qed.
End reassembly.

(** ** From the writers to the handlers *)

Section delivery.
Context {W : Type} `{AW : !AbstractWriter W} `{WL : !WriterLaws W} `{UN : !Uninitialised} `{ID : !Identifies W}.
Context (f t : Z) (f_header : initial_header_size < f) (f_permitted : forall n, 0 < n <= f -> permitted n).
Context {H S : Type} (handle : H -> bytes -> ST (Processor H S) unit) (act : H -> bytes -> S -> S).
Hypothesis handle_acts : forall h data d, handle h data d = (d <| rest := act h data (rest d) |>, Ret tt).

(** What a writer has become, the identifiers it has used, and the messages it has given to the writer below. *)
Record Output := MkOutput { out_writer : OversizedWriter W; out_ids : list Z; out_frames : list (Z * bytes) }.

Definition writes_out (run : OversizedWriter W * list (Z * list bytes)) (out : Output) : Prop :=
  write_messages run.2 run.1 = (out_writer out, Ret tt) /\ ready f t (out_writer out) /\
  slots (ow_underlying (out_writer out)) = slots (ow_underlying run.1) ++ (as_slot <$> out_frames out) /\
  framed_stream f (payload_of <$> run.2) (out_ids out) (out_frames out).

Definition ids_of (outs : list Output) : list Z := mbind (M:=list) out_ids outs.
Definition frames_of (outs : list Output) : list (list (Z * bytes)) := out_frames <$> outs.
Definition messages_of (runs : list (OversizedWriter W * list (Z * list bytes))) : list (list (Z * bytes)) := (fun run => fmap (M:=list) payload_of run.2) <$> runs.

Lemma all_write_out runs :
  Forall (fun run => ready f t run.1 /\ Forall (fun x => accepts (W:=W) f t (concat x.2)) run.2) runs -> exists outs, Forall2 writes_out runs outs.
Proof.
  induction 1 as [|[w ms] runs [Hr Hms] _ [outs IH]]; [by exists []|].
  destruct (messages_are_framed f t f_header f_permitted ms w Hr Hms) as (w' & ids & l & ?). by exists (MkOutput w' ids l :: outs); constructor.
Qed.

Lemma NoDup_bind_disjoint {A B} (g : A -> list B) (l : list A) i j x y b :
  NoDup (l ≫= g) -> l !! i = Some x -> l !! j = Some y -> b ∈ g x -> b ∈ g y -> i = j.
Proof.
  revert i j. induction l as [|a l IH]; intros i j Hnd Hi Hj Hx Hy; [done|]. rewrite bind_cons in Hnd. apply NoDup_app in Hnd as (_ & Hdis & Hnd).
  assert (forall k z, l !! k = Some z -> b ∈ g z -> b ∈ l ≫= g) as Hin by (intros k z Hk Hb; apply list_elem_of_bind; exists z; split; [done|by eapply list_elem_of_lookup_2]).
  destruct i as [|i], j as [|j]; cbn in Hi, Hj; simplify_eq; [done| | |f_equal; by eapply IH]; exfalso; by eapply Hdis; [|eapply Hin].
Qed.

Lemma NoDup_bind_elem {A B} (g : A -> list B) (l : list A) x : NoDup (l ≫= g) -> x ∈ l -> NoDup (g x).
Proof.
  induction l as [|a l IH]; [by intros _ ?%not_elem_of_nil|]. rewrite bind_cons. intros (Ha & _ & Hnd)%NoDup_app [->|?]%elem_of_cons; [done|by apply IH].
Qed.

(** C13: Oversized messages arrive.  Several fragmenting writers write any messages up to the largest size that is accepted,
    other than fragments, over writers that keep the contract and take fragments and those of the messages that are not
    split (a queueing writer takes all but the empty ones).  The buffer delivers what they were given in any order that keeps
    the order of each writer.  If no two of the messages that are split have the same identifier, and the handlers return,
    then dispatching what was delivered has the effect of dispatching the original messages, each once and unchanged, in
    an order that keeps the order of each writer; no fragment is left behind. *)
Theorem oversized_messages_delivered (runs : list (OversizedWriter W * list (Z * list bytes))) (d : Processor H S) :
  Forall (fun run => ready f t run.1 /\ Forall (fun x => accepts (W:=W) f t (concat x.2) /\ sendable (handlers d) (payload_of x)) run.2) runs ->
  handlers d !! fragment = Some OnFragment -> partial_messages d = ∅ ->
  exists outs, Forall2 writes_out runs outs /\
    forall l fuel, NoDup (ids_of outs) -> shuffle (frames_of outs) l ->
    exists d' dl, dispatch_all handle (2 + fuel) l d = (d', Ret tt) /\ handlers d' = handlers d /\ partial_messages d' = ∅ /\
      shuffle (messages_of runs) dl /\ rest d' = foldl (apply_message act (handlers d)) (rest d) dl.
Proof.
  intros Hruns Hf Hp. destruct (all_write_out runs) as [outs Houts].
  { eapply Forall_impl; [exact Hruns|]. intros run [Hr Hms]. split; [done|]. eapply Forall_impl; [exact Hms|]. by intros x [? _]. }
  exists outs. split; [done|]. intros l fuel Hnd Hsh.
  set (sts := (fun '(run, out) => MkStream (out_frames out) (payload_of <$> run.2) (out_ids out) None) <$> zip runs outs).
  assert (forall i st, sts !! i = Some st -> exists run out, runs !! i = Some run /\ outs !! i = Some out /\ writes_out run out /\
    st = MkStream (out_frames out) (payload_of <$> run.2) (out_ids out) None) as Hsts.
  { intros i st Hi. apply list_lookup_fmap_Some in Hi as ([run out] & -> & Hi). apply lookup_zip_Some in Hi as [Hrun Hout].
    exists run, out. split_and!; try done. by eapply Forall2_lookup_lr. }
  pose proof (Forall2_length _ _ _ Houts) as Hlen.
  destruct (shuffle_dispatched handle act f handle_acts fuel _ _ Hsh sts d) as (d' & dl & E & Hh & Hpm & Hdl & Hr).
  - unfold sts, frames_of. rewrite <- list_fmap_compose. rewrite <- (snd_zip runs outs) at 1 by lia. rewrite <- list_fmap_compose. apply list_fmap_ext. by intros ? [? ?] _.
  - split; [..|done].
    + intros i st (run & out & _ & _ & (_ & _ & _ & Hfs) & ->)%Hsts. by constructor.
    + intros i st (run & out & Hrun & _ & _ & ->)%Hsts. cbn. rewrite Forall_lookup in Hruns. destruct (Hruns _ _ Hrun) as [_ Hms].
      rewrite Forall_fmap. eapply Forall_impl; [exact Hms|]. by intros x [_ ?].
    + intros i st (run & out & _ & Hout%list_elem_of_lookup_2 & (_ & _ & _ & Hfs) & ->)%Hsts. cbn. split; [by eapply framed_ids|by eapply NoDup_bind_elem].
    + intros i j st st' id (run & out & _ & Hout & _ & ->)%Hsts (run' & out' & _ & Hout' & _ & ->)%Hsts Hid Hid'. by eapply NoDup_bind_disjoint.
    + intros id p. rewrite Hp, lookup_empty. split; [done|]. intros (i & st & (run & out & _ & _ & _ & ->)%Hsts & ?). done.
  - exists d', dl. split_and!; try done. replace (messages_of runs) with (st_messages <$> sts); [done|].
    unfold sts, messages_of. rewrite <- list_fmap_compose. rewrite <- (fst_zip runs outs) at 2 by lia. rewrite <- list_fmap_compose. apply list_fmap_ext. by intros ? [? ?] _.
Qed.
End delivery.

(** ** Draining a ring buffer *)

Section drain.
Context (size k : Z) (Hsize : size = 2 ^ k) (Hk : 3 <= k < 64).
Context {H S : Type} (handle : H -> bytes -> ST (Processor H S) unit) (fuel : nat) (Hfuel : size < 8 * Z.of_nat fuel) (Hfuel3 : (3 <= fuel)%nat).
#[local] Set Default Proof Using "Hsize Hk Hfuel Hfuel3".

(** Running the reader is evaluating it, and handling what it hands over. *)
Lemma run_reader_eval {A} (p : Prog A) : forall r r' l a (d d' : Processor H S),
  eval p r = (r', l, Some a) -> dispatch_all handle fuel l d = (d', Ret tt) -> run_reader (dispatch handle fuel) p (r, d) = ((r', d'), Ret a).
Proof.
  induction p as [a'|e| |lc k' IH|lc v p IH|e v k' IH|i k' IH|i v p IH|i bs p IH|i n p IH|m i n p IH]; intros r r' l a d d' He Hd; cbn [eval] in He; cbn [run_reader];
    try done; try (by eapply IH).
  - injection He as -> <- ->. by injection Hd as ->.
  - destruct (tail r =? e); by eapply IH.
  - destruct (eval p r) as [[r2 l2] o2] eqn:E. injection He as -> <- ->. unfold dispatch_all in Hd. cbn [foreach fst snd] in Hd. unfold mbind, ST_bind in Hd.
    destruct (dispatch handle fuel m _ d) as [d1 [[]|]] eqn:E1; [|done]. by eapply IH.
Qed.

Definition quiet_ring (r : Ring) (G : list Entry) : Prop := ring_ok size r false [] G /\ all_ready G.

Lemma quiet_length r G : quiet_ring r G -> 8 * Z.of_nat (length G) <= size.
Proof.
  intros [Hr _]. pose proof (length_span size k Hsize Hk _ (ok_entries _ _ _ _ _ Hr)). pose proof (chain_span _ _ _ (ok_chain _ _ _ _ _ Hr)).
  pose proof (ok_room _ _ _ _ _ Hr). cbn [app] in *. lia.
Qed.

Lemma read_one_quiet r G d :
  quiet_ring r G ->
  exists Gr Gs r', G = Gr ++ Gs /\ quiet_ring r' Gs /\ tail r' = tail r /\ Z.of_nat (length (messages Gr)) <= 1 /\
    (Gs = [] \/ head r `mod` size + span Gr = size /\ head r' `mod` size = 0 \/ Z.of_nat (length (messages Gr)) = 1) /\
    forall d', dispatch_all handle fuel (messages Gr) d = (d', Ret tt) -> read_one handle size fuel (r, d) = ((r', d'), Ret (Z.of_nat (length (messages Gr)))).
Proof.
  intros Hq. pose proof (quiet_length _ _ Hq) as Hlen. destruct Hq as [Hr Hready].
  destruct (read_alone size k Hsize Hk G fuel 1 r Hr Hready) as (Gr & Gs & r' & -> & E & Hr' & _ & Ht & Hc & Hend); [lia|lia|].
  apply Forall_app in Hready as [_ Hready]. exists Gr, Gs, r'. split_and!; try done. intros d' Hd. by eapply run_reader_eval.
Qed.

(** At the start of a lap there is no padding. *)
Lemma lap_starts_with_message r e G : quiet_ring r (e :: G) -> head r `mod` size = 0 -> exists m p, e_content e = RingInvariant.Message m p.
Proof.
  intros [Hr _] H0. pose proof (ok_entries _ _ _ _ _ Hr) as [(_ & _ & _ & _ & Hok) _]%Forall_cons. destruct (ok_chain _ _ _ _ _ Hr) as [Hst _].
  destruct (e_content e) as [|m p]; [|by eauto]. exfalso. rewrite Hst, H0 in Hok. destruct (e_phase e); destruct Hok; lia.
Qed.

Lemma messages_none G : length (messages G) = 0%nat -> messages G = [].
Proof. by destruct (messages G). Qed.

Lemma read_n_turn n tot prev r d count r' d' :
  finished d = false -> tot < 1 -> read_one handle size fuel (r, d) = ((r', d'), Ret count) ->
  read_n_loop handle size fuel (Datatypes.S n) 1 tot prev (r, d) =
  (if (count =? 0) && (prev =? 0) then mret (tot + count) else read_n_loop handle size fuel n 1 (tot + count) count) (r', d').
Proof.
  intros Hf Htot E. cbn [read_n_loop]. unfold mbind at 1, ST_bind at 1. cbn [get]. rewrite Hf. cbn [negb andb].
  rewrite (proj2 (Z.ltb_lt tot 1)) by done. cbn [negb]. unfold mbind at 1, ST_bind at 1. by rewrite E.
Qed.

Lemma read_n_stop n tot prev r d : 1 <= tot -> read_n_loop handle size fuel (Datatypes.S n) 1 tot prev (r, d) = ((r, d), Ret tot).
Proof.
  intros Htot. cbn [read_n_loop]. unfold mbind at 1, ST_bind at 1. cbn [get]. rewrite (proj2 (Z.ltb_ge tot 1)) by done. by rewrite andb_false_r.
Qed.

Definition no_messages (d : Processor H S) : dispatch_all handle fuel [] d = (d, Ret tt) := eq_refl.

Lemma one_message x (d d' : Processor H S) : dispatch handle fuel x.1 x.2 d = (d', Ret tt) -> dispatch_all handle fuel [x] d = (d', Ret tt).
Proof. intros E. unfold dispatch_all. cbn [foreach]. unfold mbind, ST_bind. by rewrite E. Qed.

(** The second of two turns finds a message, if there is one. *)
Lemma read_after_lap r G d :
  quiet_ring r G -> G = [] \/ head r `mod` size = 0 ->
  match messages G with
  | [] => exists r', read_one handle size fuel (r, d) = ((r', d), Ret 0) /\ quiet_ring r' [] /\ tail r' = tail r
  | x :: xs => forall d', dispatch handle fuel x.1 x.2 d = (d', Ret tt) ->
      exists r' G', read_one handle size fuel (r, d) = ((r', d'), Ret 1) /\ quiet_ring r' G' /\ messages G' = xs /\ tail r' = tail r
  end.
Proof.
  intros Hq Hlap. destruct (read_one_quiet r G d Hq) as (Gr & Gs & r1 & HG & Hq1 & Ht1 & Hc & Hend & Hread).
  destruct G as [|e G].
  { symmetry in HG. apply app_nil in HG as [-> ->]. cbn. exists r1. split_and!; [by apply Hread|done|done]. }
  destruct Hlap as [|H0]; [done|]. destruct (lap_starts_with_message r e G Hq H0) as (m & p & He).
  destruct Gr as [|e' Gr]; [exfalso|].
  { cbn in HG. subst Gs. destruct Hend as [|[[Hl _]|Hl]]; cbn in *; [done|lia|lia]. }
  injection HG as <- ->. rewrite !(messages_ready size k Hsize Hk e _ m p He) in *. cbn [length] in Hc.
  rewrite messages_app. assert (messages Gr = []) as HGr by (apply messages_none; lia). rewrite HGr in *. cbn [app]. intros d' Hd.
  exists r1, Gs. split_and!; try done. by apply Hread, one_message.
Qed.

(** One message, if there is one. *)
Lemma read_n_one r G d :
  quiet_ring r G -> finished d = false ->
  match messages G with
  | [] => exists r', read_n handle size fuel 1 (r, d) = ((r', d), Ret 0) /\ quiet_ring r' [] /\ tail r' = tail r
  | x :: xs => forall d', dispatch handle fuel x.1 x.2 d = (d', Ret tt) ->
      exists r' G', read_n handle size fuel 1 (r, d) = ((r', d'), Ret 1) /\ quiet_ring r' G' /\ messages G' = xs /\ tail r' = tail r
  end.
Proof.
  intros Hq Hfin. destruct (read_one_quiet r G d Hq) as (Gr & Gs & r1 & -> & Hq1 & Ht1 & Hc & Hend & Hread). rewrite messages_app.
  set (n := (fuel - 3)%nat). assert (read_n handle size fuel 1 = read_n_loop handle size fuel (Datatypes.S (Datatypes.S (Datatypes.S n))) 1 0 (2 ^ 64 - 1)) as ->
    by (unfold read_n; f_equal; lia).
  destruct (messages Gr) as [|x [|]] eqn:EGr; [| |cbn in Hc; lia]; cbn [app].
  - specialize (Hread d (no_messages d)). cbn [length] in Hread. change (Z.of_nat 0) with 0 in Hread.
    pose proof (read_after_lap r1 Gs d Hq1) as Hlap. destruct (messages Gs) as [|x xs] eqn:EGs.
    + destruct Hlap as (r2 & E2 & Hq2 & Ht2); [by destruct Hend as [|[[_ ?]|]]; [left|right|]|].
      exists r2. erewrite read_n_turn; [|exact Hfin|lia|exact Hread]. change ((0 =? 0) && (2 ^ 64 - 1 =? 0)) with false. cbv iota. erewrite read_n_turn; [|exact Hfin|lia|exact E2].
      cbn. split_and!; try done. congruence.
    + intros d' Hd. destruct (fun H => Hlap H d' Hd) as (r2 & G2 & E2 & Hq2 & Hm2 & Ht2); [by destruct Hend as [|[[_ ?]|]]; [left|right|]|].
      exists r2, G2. erewrite read_n_turn; [|exact Hfin|lia|exact Hread]. change ((0 =? 0) && (2 ^ 64 - 1 =? 0)) with false. cbv iota. erewrite read_n_turn; [|exact Hfin|lia|exact E2].
      change ((1 =? 0) && (0 =? 0)) with false. cbv iota. rewrite read_n_stop by lia. split_and!; try done. congruence.
  - intros d' Hd. specialize (Hread d' (one_message _ _ _ Hd)). cbn [length] in Hread. exists r1, Gs.
    erewrite read_n_turn; [|exact Hfin|lia|exact Hread]. change ((Z.of_nat 1 =? 0) && (2 ^ 64 - 1 =? 0)) with false. cbv iota. by rewrite read_n_stop by lia.
Qed.

(** The handlers of a list of messages return, and none of them stops the processor. *)
Inductive handled : list (Z * bytes) -> Processor H S -> Processor H S -> Prop :=
| handled_nil d : finished d = false -> handled [] d d
| handled_cons x l d d1 d' : finished d = false -> dispatch handle fuel x.1 x.2 d = (d1, Ret tt) -> handled l d1 d' -> handled (x :: l) d d'.

Lemma handled_inv l d d' :
  handled l d d' -> finished d = false /\ match l with [] => d' = d | x :: l => exists d1, dispatch handle fuel x.1 x.2 d = (d1, Ret tt) /\ handled l d1 d' end.
Proof. destruct 1; eauto. Qed.

Lemma read_all_quiet n : forall r G d d' tot,
  quiet_ring r G -> handled (messages G) d d' -> (length (messages G) < n)%nat ->
  exists r', read_all_loop handle size fuel n tot (r, d) = ((r', d'), Ret (tot + len (messages G))) /\ quiet_ring r' [] /\ tail r' = tail r.
Proof.
  induction n as [|n IH]; intros r G d d' tot Hq Hh Hn; [lia|]. cbn [read_all_loop].
  apply handled_inv in Hh as [Hf Hh]. pose proof (read_n_one r G d Hq Hf) as Hone. destruct (messages G) as [|x l].
  - subst d'. destruct Hone as (r' & E & Hq' & Ht). exists r'. unfold mbind, ST_bind. rewrite E. by rewrite Z.eqb_refl.
  - destruct Hh as (d1 & Hd & Hl). destruct (Hone d1 Hd) as (r1 & G1 & E & Hq1 & Hm1 & Ht1). unfold mbind, ST_bind. rewrite E. change (1 =? 0) with false. cbv iota.
    destruct (IH r1 G1 d1 d' (tot + 1) Hq1) as (r' & E' & Hq' & Ht'); [by rewrite Hm1|rewrite Hm1; cbn in Hn; lia|].
    exists r'. rewrite E', Hm1. cbn [length]. split_and!; [do 2 f_equal; lia|done|congruence].
Qed.
End drain.

(** C15: [read_all] drains the buffer. When no writer is in the middle of a call, and the handlers of the messages that are in
    the buffer return and do not stop the processor, it returns, having dispatched exactly these messages, in the order of
    their reservations, and leaves the buffer empty. Two reads without a message in a row, at which it stops, are not seen
    before. *)
Theorem read_all_drains {H S : Type} (handle : H -> bytes -> ST (Processor H S) unit) (size address : Z) (cs : list Choice) (s : System)
    (fuel : nat) (d d' : Processor H S) :
  accepted size address -> sys_run size initial_system cs = Some s -> bytes_reserved s < u64_modulus ->
  (forall t th, writers s !! t = Some th -> RingBuffer.finished (t_prog th) = true) -> RingBuffer.finished (reader s) = true ->
  size < 8 * Z.of_nat fuel -> (3 <= fuel)%nat ->
  handled handle fuel (drop (length (delivered s)) (snd <$> reservations s)) d d' ->
  exists r', read_all handle size fuel (ring s, d) = ((r', d'), Ret (len (reservations s) - len (delivered s))) /\ head r' = tail r' /\ tail r' = tail (ring s).
Proof.
  intros (k & Hsize & Hk)%accepted_size Hrun Hb Hfw Hfr Hfuel Hfuel3 Hh.
  assert (sys_ok size s) as (G1 & G2 & R & released & Hinv) by (by eapply sys_run_ok; [done..|by eapply initial_ok|done|done]).
  destruct (quiescent_ready size k Hsize Hk _ _ _ _ _ Hinv Hfw Hfr) as (Hready & Hr & Hdel & Hres).
  rewrite Hres, Hdel, drop_app_length in Hh. pose proof (quiet_length size k Hsize Hk fuel Hfuel Hfuel3 (ring s) G2 ltac:(by split)) as Hlen.
  pose proof (length_messages size k Hsize Hk G2) as Hmsg.
  destruct (read_all_quiet size k Hsize Hk handle fuel Hfuel Hfuel3 fuel (ring s) G2 d d' 0) as (r' & E & [Hr' _] & Ht); [by split|done|lia|].
  exists r'. split; [|split; [|done]].
  - unfold read_all. rewrite E. do 2 f_equal. apply (f_equal length) in Hres. rewrite length_fmap, length_app in Hres. rewrite Hdel. lia.
  - exact (ok_chain _ _ _ _ _ Hr').
Qed.
