(* ===== verification/MessagingScenarios.v ===== *)
(** A writer that keeps the contract, on which the theorems about writers are shown to apply, and runs of the host's
    writers that lose what the contract promises. *)

From Stdlib Require Import String.
From S2P Require Import Prelude Serialized RingBuffer RingInvariant RingSafety RingSystem RingRuns RingProgress Writers WritersProps OversizedProps Messaging MessagingProps.

#[local] Abbreviation len l := (Z.of_nat (length l)).
#[local] Arguments le_encode : simpl never.

(** ** A writer with the contract *)

(** [port_room] says of the next calls that do not wait whether there is room. Markers are negative. *)
Record Port := MkPort { port_slots : list Slot; port_next : Z; port_room : list bool }.
#[export] Instance eta_Port : Settable Port := fun r => MkPort (port_slots r) (port_next r) (port_room r).

Definition next_of (s : Slot) : option Z := match s with Open a _ _ b => Some (a + len b) | Sent _ _ => None end.
Definition marker_of (s : Slot) : option Z := match s with Open a _ _ _ => Some a | Sent _ _ => None end.

Definition port_accept (m n : Z) : ST Port (option Z * option Z) :=
  w ← get;
  let a := port_next w - n - 1 in
  modify (fun w => w <| port_slots := port_slots w ++ [Open a m n []] |> <| port_next := a |>);;
  mret (Some a, Some (u64 (len (port_slots w)))).

Definition port_prepare (m n : Z) (wait : bool) : ST Port (option Z * option Z) :=
  w ← get;
  if wait then port_accept m n
  else
    match port_room w with
    | false :: room => port_room <~ room;; mret (None, None)
    | true :: room => port_room <~ room;; port_accept m n
    | [] => port_accept m n
    end.

Definition port_write (marker : option Z) (bs : bytes) : ST Port (option Z) :=
  w ← get;
  match marker, bs with
  | None, _ => mret None
  | Some z, [] => mret (Some z)
  | Some z, _ =>
      match list_find (fun s => next_of s = Some z) (port_slots w) with
      | Some (i, Open a m n b) =>
          if n <? len b + len bs then throw UndefinedBehaviour
          else port_slots <~ <[i := Open a m n (b ++ bs)]> (port_slots w);; mret (Some (z + len bs))
      | _ => throw UndefinedBehaviour
      end
  end.

Definition port_finish (marker : option Z) : ST Port unit :=
  w ← get;
  match marker with
  | None => skip
  | Some a =>
      match list_find (fun s => marker_of s = Some a) (port_slots w) with
      | Some (i, Open _ m n b) => if len b =? n then port_slots <~ <[i := Sent m b]> (port_slots w) else throw UndefinedBehaviour
      | _ => throw UndefinedBehaviour
      end
  end.

#[export] Instance port_writer : AbstractWriter Port := {
  aw_prepare := port_prepare;
  aw_finish := port_finish;
  aw_write_bytes := port_write;
  aw_get_max_message_size _ := 2 ^ 30
}.

Record port_ok (w : Port) : Prop := {
  pk_next : port_next w <= 0;
  pk_open i a m n b : port_slots w !! i = Some (Open a m n b) -> port_next w <= a /\ len b <= n /\ a + n < 0;
  pk_apart i j a m n b a' m' n' b' : port_slots w !! i = Some (Open a m n b) -> port_slots w !! j = Some (Open a' m' n' b') -> i <> j ->
    a + n < a' \/ a' + n' < a
}.

Lemma port_accept_ok w m n :
  port_ok w -> 0 <= n -> exists w' a, port_accept m n w = (w', Ret (Some a, Some (u64 (len (port_slots w))))) /\ port_ok w' /\ port_slots w' = port_slots w ++ [Open a m n []].
Proof.
  intros [Hn Ho Ha] Hpos. set (a := port_next w - n - 1). exists (w <| port_slots := port_slots w ++ [Open a m n []] |> <| port_next := a |>), a.
  split; [done|]. split; [|done]. subst a. split; cbn.
  - lia.
  - intros i a m' n' b [Hi|[_ [_ [= <- <- <- <-]]%list_lookup_singleton_Some]]%lookup_app_Some; [specialize (Ho _ _ _ _ _ Hi); lia|cbn; lia].
  - intros i j a m1 n1 b a' m2 n2 b' [Hi|[Hi' [Hi [= <- <- <- <-]]%list_lookup_singleton_Some]]%lookup_app_Some [Hj|[Hj' [Hj [= <- <- <- <-]]%list_lookup_singleton_Some]]%lookup_app_Some Hij.
    + by eapply Ha.
    + right. specialize (Ho _ _ _ _ _ Hi). lia.
    + left. specialize (Ho _ _ _ _ _ Hj). lia.
    + lia.
Qed.

Lemma port_update_ok w i a m n b s :
  port_ok w -> port_slots w !! i = Some (Open a m n b) -> match s with Open a' _ n' b' => a' = a /\ n' = n /\ len b' <= n | Sent _ _ => True end ->
  port_ok (w <| port_slots := <[i := s]> (port_slots w) |>).
Proof.
  intros [Hn Ho Ha] Hi Hs.
  assert (forall j a' m' n' b', <[i := s]> (port_slots w) !! j = Some (Open a' m' n' b') ->
    exists m0 b0, port_slots w !! j = Some (Open a' m0 n' b0) /\ len b' <= n') as Hold.
  { intros j a' m' n' b' [(<- & -> & _)|[_ Hj]]%list_lookup_insert_Some; [destruct Hs as (-> & -> & ?); by exists m, b|]. exists m', b'. split; [done|]. by destruct (Ho _ _ _ _ _ Hj) as (_ & ? & _). }
  split; cbn; [done| |].
  - intros j a' m' n' b' (m0 & b0 & Hj & Hb)%Hold. destruct (Ho _ _ _ _ _ Hj). lia.
  - intros j1 j2 a1 m1 n1 b1 a2 m2 n2 b2 (m1' & b1' & H1 & _)%Hold (m2' & b2' & H2 & _)%Hold. by eapply Ha.
Qed.

(** The message is found by any of its bytes. *)
Lemma port_find w i a m n b (p : Slot -> option Z) z :
  port_ok w -> port_slots w !! i = Some (Open a m n b) -> p (Open a m n b) = Some z -> (forall m' b', p (Sent m' b') = None) ->
  (forall a' m' n' b', p (Open a' m' n' b') = Some z -> len b' <= n' -> a' <= z <= a' + n') -> list_find (fun s => p s = Some z) (port_slots w) = Some (i, Open a m n b).
Proof.
  intros [Hn Ho Ha] Hi Hp Hsent Hin. apply list_find_Some. split; [done|]. split; [done|]. intros j y Hj Hlt Hy.
  destruct y as [a' m' n' b'|]; [|by rewrite Hsent in Hy]. destruct (Ho _ _ _ _ _ Hi) as (_ & Hb & _), (Ho _ _ _ _ _ Hj) as (_ & Hb' & _).
  specialize (Hin _ _ _ _ Hp Hb) as Hz. specialize (Hin _ _ _ _ Hy Hb') as Hz'. destruct (Ha i j a m n b a' m' n' b' Hi Hj ltac:(lia)); lia.
Qed.

#[export] Program Instance port_laws : WriterLaws Port := {
  slots := port_slots;
  usable := port_ok;
  permitted n := 0 <= n;
  own_marker z := z < 0
}.
Next Obligation. done. Qed.
Next Obligation.
  intros w m n wait Hw Hn. cbn [aw_prepare port_writer]. unfold port_prepare. unfold mbind at 1, ST_bind at 1. cbn [get].
  destruct (port_accept_ok w m n Hw Hn) as (w' & a & E & ? & ?).
  destruct wait; [by exists w', (Some a), (Some (u64 (len (port_slots w))))|].
  destruct (port_room w) as [|[] room]; [by exists w', (Some a), (Some (u64 (len (port_slots w))))| |].
  - destruct (port_accept_ok (w <| port_room := room |>) m n) as (w1 & a1 & E1 & ? & ?); [by destruct Hw; split|done|].
    exists w1, (Some a1), (Some (u64 (len (port_slots w)))). split; [exact E1|done].
  - exists (w <| port_room := room |>), None, None. split; [done|]. split; [by destruct Hw; split|done].
Qed.
Next Obligation.
  intros w i a m n b bs Hw Hi Hle. cbn [aw_write_bytes port_writer]. unfold port_write. unfold mbind at 1, ST_bind at 1. cbn [get].
  destruct bs as [|x bs]; [exists w; cbn; by rewrite Z.add_0_r, app_nil_r, list_insert_id|].
  erewrite (port_find w i a m n b next_of); [|done|done|done|done|intros a' m' n' b' [= <-] ?; lia].
  rewrite (proj2 (Z.ltb_ge _ _)) by done. eexists. split; [reflexivity|]. split; [|done].
  eapply port_update_ok; [done|done|]. rewrite length_app. split_and!; [done|done|lia].
Qed.
Next Obligation. done. Qed.
Next Obligation.
  intros w i a m n b Hw Hi Hlen. cbn [aw_finish port_writer]. unfold port_finish. unfold mbind at 1, ST_bind at 1. cbn [get].
  erewrite (port_find w i a m n b marker_of); [|done|done|done|done|intros a' m' n' b' [= <-] ?; lia].
  rewrite Hlen, Z.eqb_refl. eexists. split; [reflexivity|]. split; [|done]. by eapply port_update_ok.
Qed.
Next Obligation.
  intros w a m n b z [Hn Ho Ha] [i Hi]%list_elem_of_lookup Hz. destruct (Ho _ _ _ _ _ Hi). lia.
Qed.

#[export] Instance leftover : Uninitialised := 0.

#[export] Instance port_identifies : Identifies Port.
Proof.
  intros w w' m n wait a id Hw Hn. cbn [aw_prepare port_writer]. unfold port_prepare. unfold mbind at 1, ST_bind at 1. cbn [get].
  destruct wait; [|destruct (port_room w) as [|[] room]]; unfold port_accept, mbind, ST_bind; cbn; intros [= <- <- <-]; cbn; (apply u64_range || done).
Qed.

(** ** A heap *)

(** The address behind all buffers. *)
#[export] Instance bump : Allocator := fun used _ => 1 + foldr (fun it n => Z.max (pm_data it + buffer_size it) n) 0 used.

Lemma bump_behind (used : list PendingMessage) it : it ∈ used -> pm_data it + buffer_size it <= foldr (fun it n => Z.max (pm_data it + buffer_size it) n) 0 used.
Proof. induction used as [|x used IH]; [by intros ?%not_elem_of_nil|]. intros [->|Hin]%elem_of_cons; cbn; [|specialize (IH Hin)]; lia. Qed.

Lemma bump_pos (used : list PendingMessage) : 0 <= foldr (fun it n => Z.max (pm_data it + buffer_size it) n) 0 used.
Proof. induction used; cbn; lia. Qed.

#[export] Instance bump_laws : AllocatorLaws (fun z => 0 < z).
Proof.
  split.
  - intros used n z Hn Hz. unfold allocate, bump in Hz. pose proof (bump_pos used). lia.
  - intros used n it Hn Hin _. left. unfold allocate, bump. pose proof (bump_behind used it Hin). lia.
Qed.

(** Two messages wait for room, the second is written in two parts. *)
Lemma queue_keeps_order_witness :
  let w := MkNonBlockingWriter (MkPort [] 0 [false; true; false]) [] in
  let ops := [Write 7 true [[1; 2]]; Write 8 true [[3]; [4]]; Flush; Write 9 true [[5]]; Flush] in
  exists w' bs, queue_run ops w = (w', Ret bs) /\
    port_slots (nb_underlying w') ++ (slot_of <$> pending w') = [Sent 7 [1; 2]; Sent 8 [3; 4]; Sent 9 [5]].
Proof.
  intros w ops.
  assert (forall z, 0 < z -> own_marker (W:=Port) z -> False) as Hapart by (intros z Hz Hz'; change (z < 0) in Hz'; lia).
  destruct (queue_keeps_order (W:=Port) (fun z => 0 < z) Hapart w ops) as (w' & bs & E & _ & _ & Hs).
  - split; [|by split; [|intros ? ?]]. split; [done|by intros ?|by intros ?].
  - repeat constructor; try done; cbn; lia.
  - exists w', bs. split; [exact E|]. exact Hs.
Defined.

(** ** Messages in fragments *)

Definition port0 : Port := MkPort [] 0 [].

Definition small_writer : OversizedWriter Port := MkOversizedWriter port0 28 100 None.

(** The process keeps what its handlers are called with. *)
Definition keep (h : Z) (data : bytes) : ST (Processor Z (list (Z * bytes))) unit := modify (fun d => d <| rest := rest d ++ [(h, data)] |>).

Definition two_handlers : Processor Z (list (Z * bytes)) :=
  MkProcessor {[ fragment := OnFragment; 7 := OnMessage 7; 8 := OnMessage 8 ]} ∅ ∅ false [].

#[export] Instance as_slot_inj : Inj (=) (=) as_slot.
Proof. by intros [m p] [m' p'] [= -> ->]. Qed.

(** What the writers have done determines what they have sent. *)
Lemma frames_sent f t run out l :
  writes_out f t run out -> slots (ow_underlying (write_messages run.2 run.1).1) = slots (ow_underlying run.1) ++ (as_slot <$> l) -> out_frames out = l.
Proof. intros (E & _ & Hs & _) Hs'. rewrite E in Hs'. cbn [fst] in Hs'. rewrite Hs in Hs'. apply app_inv_head in Hs'. by apply (inj (fmap as_slot)) in Hs'. Qed.

Definition fill (n : nat) (b : Z) : bytes := list_replicate n b.

Definition long_message : list bytes := [fill 30 1; fill 18 2].

(** The fragments of a message, with identifier [0]. *)
Definition long_frames (m : Z) : list (Z * bytes) :=
  [(fragment, initial_header 0 m 48 ++ fill 8 1); (fragment, id_bytes 0 ++ fill 20 1); (fragment, id_bytes 0 ++ fill 2 1); (fragment, id_bytes 0 ++ fill 18 2)].

Lemma framed_small f m p id frs : framed f m p id frs -> len p <= f -> id = None.
Proof. destruct 1; [done|lia]. Qed.

Lemma small_ids f ms ids l : framed_stream f ms ids l -> Forall (fun x => len x.2 <= f) ms -> ids = [].
Proof. induction 1 as [|m p id frs ms ids l Hf _ IH]; [done|]. intros [Hp Hms]%Forall_cons. by rewrite (framed_small _ _ _ _ _ Hf Hp), IH. Qed.

Lemma one_id f x ids l : framed_stream f [x] ids l -> NoDup ids.
Proof. inversion 1 as [|m p id frs ms ids' l' Hf Hs]; subst. inversion Hs; subst. destruct id; cbn; [apply NoDup_singleton|constructor]. Qed.

(** One writer splits its message in four; the other writes two small ones. They arrive in turns. *)
Lemma oversized_messages_delivered_witness :
  exists outs dl, Forall2 (writes_out 28 100) [(small_writer, [(7, long_message)]); (small_writer, [(8, [[3]]); (8, [[4]])])] outs /\
    shuffle [[(7, concat long_message)]; [(8, [3]); (8, [4])]] dl /\
    exists l d', shuffle (frames_of outs) l /\ length l = 6%nat /\ dispatch_all keep 2 l two_handlers = (d', Ret tt) /\
      rest d' = foldl (apply_message (fun h data s => s ++ [(h, data)]) (handlers two_handlers)) [] dl.
Proof.
  destruct (oversized_messages_delivered (W:=Port) 28 100 ltac:(reflexivity) ltac:(intros n [Hn _]; apply Z.lt_le_incl, Hn) keep (fun h data s => s ++ [(h, data)])
    ltac:(intros h data d; reflexivity) [(small_writer, [(7, long_message)]); (small_writer, [(8, [[3]]); (8, [[4]])])] two_handlers) as (outs & Houts & Hall).
  - assert (forall p, len p < 2 ^ 64 -> sendable (handlers two_handlers) (7, p) /\ sendable (handlers two_handlers) (8, p)) as Hs.
    { intros p Hp. split; (split; [done|]; split; [done|]); [exists 7|exists 8]; vm_compute; reflexivity. }
    assert (ready 28 100 small_writer) as Hr by (split; [split; [done|by intros ?|by intros ?]|done|done]).
    apply Forall_cons; split; [split; [exact Hr|]|apply Forall_singleton; split; [exact Hr|]].
    + apply Forall_singleton. split; [split; vm_compute; congruence|]. by apply Hs.
    + apply Forall_cons; split; [|apply Forall_singleton]; (split; [split; vm_compute; congruence|]); by apply Hs.
  - vm_compute. reflexivity.
  - reflexivity.
  - apply Forall2_cons_inv_l in Houts as (o0 & outs' & H0 & Houts & ->). apply Forall2_cons_inv_l in Houts as (o1 & outs & H1 & Houts & ->).
    apply Forall2_nil_inv_l in Houts as ->.
    assert (out_frames o0 = long_frames 7) as F0 by (eapply frames_sent; [exact H0|vm_compute; reflexivity]).
    assert (out_frames o1 = [(8, [3]); (8, [4])]) as F1 by (eapply frames_sent; [exact H1|vm_compute; reflexivity]).
    assert (NoDup (ids_of [o0; o1])) as Hnd.
    { destruct H0 as (_ & _ & _ & Hf0), H1 as (_ & _ & _ & Hf1). unfold ids_of. cbn. rewrite (small_ids _ _ _ _ Hf1), !app_nil_r by (repeat constructor; vm_compute; congruence).
      exact (one_id _ _ _ _ Hf0). }
    set (l := [long_frames 7 !!! 0%nat; (8, [3]); long_frames 7 !!! 1%nat; (8, [4]); long_frames 7 !!! 2%nat; long_frames 7 !!! 3%nat]).
    assert (shuffle (frames_of [o0; o1]) l) as Hl.
    { unfold frames_of. cbn [fmap list_fmap]. rewrite F0, F1. unfold l. apply (shuffle_pick _ 0 _ (drop 1 (long_frames 7))); [reflexivity|].
      apply (shuffle_pick _ 1 _ [(8, [4])]); [reflexivity|]. apply (shuffle_pick _ 0 _ (drop 2 (long_frames 7))); [reflexivity|].
      apply (shuffle_pick _ 1 _ []); [reflexivity|]. apply (shuffle_pick _ 0 _ (drop 3 (long_frames 7))); [reflexivity|].
      apply (shuffle_pick _ 0 _ []); [reflexivity|]. constructor. repeat constructor. }
    destruct (Hall l 0%nat Hnd Hl) as (d' & dl & E & _ & _ & Hdl & Hr).
    exists [o0; o1], dl. split; [constructor; [exact H0|constructor; [exact H1|constructor]]|]. split; [exact Hdl|]. exists l, d'. split; [exact Hl|]. split; [reflexivity|]. split; [exact E|exact Hr].
Defined.

(** ** Draining *)

Definition three_handlers : Processor Z (list (Z * bytes)) :=
  MkProcessor {[ 7 := OnMessage 7; 8 := OnMessage 8; 9 := OnMessage 9 ]} ∅ ∅ false [].

Definition after_message (d : Processor Z (list (Z * bytes))) (x : Z * bytes) : Processor Z (list (Z * bytes)) := (dispatch keep 9 x.1 x.2 d).1.

(** The buffer of [wrapped_messages], with two messages left, the second behind padding. *)
Lemma read_all_drains_witness :
  exists s r' d', sys_run 64 initial_system wrapped_messages = Some s /\ read_all keep 64 9 (ring s, three_handlers) = ((r', d'), Ret 2) /\
    head r' = tail r' /\ rest d' = [(8, [2]); (9, fill 17 3)].
Proof.
  assert (option_map (fun s => (bytes_reserved s, snd <$> reservations s, delivered s, RingBuffer.finished (reader s),
    forallb (fun x => RingBuffer.finished (t_prog (snd x))) (map_to_list (writers s)))) (sys_run 64 initial_system wrapped_messages) =
    Some (96, [(7, fill 24 1); (8, [2]); (9, fill 17 3)], [(7, fill 24 1)], true, true)) as Hrun by (vm_compute; reflexivity).
  destruct (sys_run 64 initial_system wrapped_messages) as [s|] eqn:Es; [|discriminate]. injection Hrun as H1 H2 H3 H4 H5.
  set (d1 := after_message three_handlers (8, [2])). set (d2 := after_message d1 (9, fill 17 3)).
  destruct (read_all_drains keep 64 0 wrapped_messages s 9 three_handlers d2) as (r' & E & Hr & _).
  - split; [vm_compute; reflexivity|split; [lia|reflexivity]].
  - exact Es.
  - rewrite H1. reflexivity.
  - intros t th Hth%elem_of_map_to_list. rewrite forallb_forall in H5. apply (H5 (t, th)). by apply list_elem_of_In.
  - exact H4.
  - lia.
  - lia.
  - rewrite H2, H3. cbn [length drop]. apply (handled_cons _ _ _ _ _ d1); [reflexivity|vm_compute; reflexivity|].
    apply (handled_cons _ _ _ _ _ d2); [vm_compute; reflexivity|vm_compute; reflexivity|]. constructor. vm_compute. reflexivity.
  - exists s, r', d2. split; [reflexivity|]. split.
    + rewrite E. apply (f_equal length) in H2. rewrite length_fmap in H2. rewrite H2, H3. reflexivity.
    + split; [exact Hr|vm_compute; reflexivity].
Defined.

(** ** The host's writers *)

(** A message written by one of the host's writers: a fragmenting writer over a queueing one. *)
Definition host_write (i : nat) (m : Z) (sections : list bytes) : ST (WriterSet Port) bool :=
  on_writer i (fun nb => match aw_write_multiple m true sections (MkOversizedWriter nb 28 100 None) with (w, o) => (ow_underlying w, o) end).

(** Two writers have a message of 48 bytes while the buffer is full. Then there is room for one fragment of the first
    writer, for those of the second, and for the rest. *)
Definition crowded : ST (WriterSet Port) unit :=
  add_writer 0;; add_writer 1;;
  host_write 0 7 [fill 48 1];; host_write 1 8 [fill 48 2];;
  flush_all;; flush_all;; skip.

Definition sent_messages (l : list Slot) : list (Z * bytes) := omap (fun s => match s with Sent m p => Some (m, p) | Open _ _ _ _ => None end) l.

Lemma crowded_collides :
  exists w d, crowded (MkWriterSet (MkPort [] 0 [false; false; true; false; true; true; true]) ∅ []) = (w, Ret tt) /\
    dispatch_all keep 2 (sent_messages (port_slots (ws_shared w))) two_handlers = (d, Ret tt) /\
    rest d = [(7, fill 8 1 ++ le_encode 4 8 ++ le_encode 8 48 ++ fill 28 2)].
Proof. eexists _, _. split; [vm_compute; reflexivity|]. split; [vm_compute; reflexivity|]. vm_compute. reflexivity. Qed.

Section collision.
Context {W : Type} `{AW : !AbstractWriter W} `{WL : !WriterLaws W} `{UN : !Uninitialised} `{ID : !Identifies W}.
Context `{HP : !Allocator} (heap : Z -> Prop) `{AL : !AllocatorLaws heap} (heap_apart : forall z, heap z -> own_marker (W:=W) z -> False).
Context (uninitialised_range : 0 <= uninitialised < 2 ^ 64).
Context (f t : Z) (f_header : initial_header_size < f) (f_permitted : forall n, 0 < n <= f -> permitted (W:=W) n).
Context {H S : Type} (handle : H -> bytes -> ST (Processor H S) unit) (act : H -> bytes -> S -> S).
Hypothesis handle_acts : forall h data d, handle h data d = (d <| rest := act h data (rest d) |>, Ret tt).

#[local] Instance host_laws : WriterLaws (NonBlockingWriter W) := queue_laws heap heap_apart.
#[local] Instance host_identifies : Identifies (NonBlockingWriter W) := queue_identifies heap heap_apart uninitialised_range.

(** A fragmenting writer of the host, between messages, with messages waiting in the queue below it. *)
Definition held_up (w : OversizedWriter (NonBlockingWriter W)) : Prop := ready f t w /\ pending (ow_underlying w) <> [].

(** The message is written, and is queued as [frs]. *)
Definition queues (w : OversizedWriter (NonBlockingWriter W)) (m : Z) (sections : list bytes) (frs : list (Z * bytes)) : Prop :=
  exists w', aw_write_multiple m true sections w = (w', Ret true) /\ nb_slots (ow_underlying w') = nb_slots (ow_underlying w) ++ (as_slot <$> frs).

Lemma held_up_split w m sections :
  held_up w -> f < len (concat sections) <= t ->
  exists c0 cs, concat sections = c0 ++ concat cs /\ len c0 = f - initial_header_size /\ Forall (fun c => c <> []) cs /\ cs <> [] /\
    queues w m sections ((fragment, initial_header uninitialised m (len (concat sections)) ++ c0) :: (pair fragment ∘ fragment_of uninitialised <$> cs)).
Proof.
  intros [Hr Hq] Hn. assert (forall n, 0 < n <= f -> permitted (W:=NonBlockingWriter W) n) as Hperm by (intros n ?; split; [lia|by apply f_permitted]).
  destruct (ow_write_split (W:=NonBlockingWriter W) f t f_header Hperm w m sections Hr Hn) as (w' & id & frs & E & _ & Hs & Hf & Hid).
  apply queued_id in Hid as ->; [|done]. inversion Hf as [|? c0 cs _ _ Hp Hne Hc]; subst. exists c0, cs. split_and!; [done|done|done| |by exists w'].
  intros ->. rewrite Hp in Hn. cbn in Hn. rewrite app_nil_r in Hn. unfold initial_header_size in *. lia.
Qed.

(** C26: Oversized messages of two writers of the host can be mixed up. A queueing writer that puts a message behind others in its
    queue does not store an identifier for it, so that the fragmenting writer above uses what its local variable happens to
    hold. Take any two fragmenting writers with messages waiting in the queues below them, for which this value is the same, and
    two messages that are split, the first longer than the second by 8 bytes less than the size of a fragment. Both writes
    succeed, and queue fragments that all carry the same identifier. If the first fragment of the first message reaches the
    enclave and then those of the second, the handler for the type of the first is called with a message that nobody has sent: the
    beginning of the first message, the type and the size of the second, and the second. *)
Theorem host_fragments_collide (w1 w2 : OversizedWriter (NonBlockingWriter W)) m1 m2 sections1 sections2 (d : Processor H S) h :
  held_up w1 -> held_up w2 -> f < len (concat sections1) <= t -> f < len (concat sections2) <= t -> t < 2 ^ 64 ->
  len (concat sections1) = len (concat sections2) + f - 8 -> 0 <= m1 < 2 ^ 32 ->
  handlers d !! m1 = Some (OnMessage h) -> handlers d !! fragment = Some OnFragment -> partial_messages d !! uninitialised = None ->
  exists x1 l1 l2, queues w1 m1 sections1 (x1 :: l1) /\ queues w2 m2 sections2 l2 /\
    forall fuel, exists d', dispatch_all handle (2 + fuel) (x1 :: l2) d = (d', Ret tt) /\ partial_messages d' = partial_messages d /\
      rest d' = act h (take (Z.to_nat (f - initial_header_size)) (concat sections1) ++ le_encode 4 m2 ++ le_encode 8 (len (concat sections2)) ++ concat sections2) (rest d).
Proof.
  intros H1 H2 Hn1 Hn2 Ht Hlen Hm1 Hh Hf Hq.
  destruct (held_up_split w1 m1 sections1 H1 Hn1) as (c0 & cs & Hp1 & Hc0 & _ & _ & Hw1).
  destruct (held_up_split w2 m2 sections2 H2 Hn2) as (e0 & es & Hp2 & He0 & Hes & _ & Hw2).
  set (first := le_encode 4 m2 ++ le_encode 8 (len (concat sections2)) ++ e0). eexists _, _, _. split; [exact Hw1|]. split; [exact Hw2|]. intros fuel.
  assert (len first = 12 + len e0) as Hfirst by (unfold first; rewrite !length_app, !le_encode_length; lia).
  assert (len (c0 ++ concat (first :: es)) = len (concat sections1)) as Htotal.
  { cbn [concat]. rewrite Hlen, Hp2, !length_app in *. unfold initial_header_size in *. lia. }
  destruct (first_fragment_collects handle act handle_acts fuel uninitialised m1 c0 (first :: es) d) as (d' & E & _ & Hp' & Hr');
    [done|done| |constructor; [by intros E; rewrite E in Hfirst; cbn in Hfirst; lia|done]|done|done|].
  { split; [done|]. cbn [snd]. split; [lia|by exists h]. }
  exists d'. rewrite Htotal in E. split; [|split; [done|]].
  - exact E.
  - rewrite Hr'. unfold apply_message. cbn [fst snd]. rewrite Hh. f_equal. cbn [concat]. unfold first. rewrite <- !app_assoc, <- Hp2.
    rewrite Hp1 at 1. by rewrite take_app_le, take_ge by lia.
Qed.
End collision.

(** A writer of the host with a message waiting. *)
Definition waiting_writer : OversizedWriter (NonBlockingWriter Port) :=
  MkOversizedWriter (MkNonBlockingWriter port0 [MkPendingMessage 9 2 true 1 [5]]) 28 100 None.

(** Messages of 50 and of 30 bytes. *)
Lemma host_fragments_collide_witness :
  exists l d', dispatch_all keep 2 l two_handlers = (d', Ret tt) /\
    rest d' = [(7, fill 8 1 ++ le_encode 4 8 ++ le_encode 8 30 ++ fill 30 2)].
Proof.
  assert (forall z, 0 < z -> own_marker (W:=Port) z -> False) as Hapart by (intros z Hz Hz'; change (z < 0) in Hz'; lia).
  assert (held_up (fun z => 0 < z) Hapart 28 100 waiting_writer) as Hw.
  { split; [|done]. split; [|done|done]. split; [split; [done|by intros ?|by intros ?]|]. split.
    - apply Forall_singleton. split; cbn; try lia; done.
    - intros i j x y [-> _]%list_lookup_singleton_Some [-> _]%list_lookup_singleton_Some. done. }
  destruct (host_fragments_collide (W:=Port) (fun z => 0 < z) Hapart ltac:(done) 28 100 ltac:(reflexivity) ltac:(intros n [Hn _]; apply Z.lt_le_incl, Hn)
    keep (fun h data s => s ++ [(h, data)]) ltac:(intros h data d; reflexivity) waiting_writer waiting_writer 7 8 [fill 50 1] [fill 30 2] two_handlers 7)
    as (x1 & l1 & l2 & _ & _ & Hd); [exact Hw|exact Hw|done|done|done|done|done|vm_compute; reflexivity|vm_compute; reflexivity|done|].
  destruct (Hd 0%nat) as (d' & E & _ & Hr). exists (x1 :: l2), d'. split; [exact E|exact Hr].
Defined.

(** ** Messages without a payload *)

Section empty_messages.
Context {W : Type} `{AW : !AbstractWriter W} `{WL : !WriterLaws W} (permitted_0 : permitted 0).

(** [AdminMessage::tick], which the host writes periodically. *)
Definition tick : Z := fnv_1a "tick".
#[local] Opaque tick.

Inductive TickOp := Tick | FlushPending.

Definition tick_op (op : TickOp) : ST (NonBlockingWriter W) bool :=
  match op with Tick => aw_write_multiple tick true [] | FlushPending => try_flush_pending end.

(** The queue holds empty messages, and not all of them are finished. *)
Record backlog (w : NonBlockingWriter W) : Prop := {
  bl_usable : usable (nb_underlying w);
  bl_empty : Forall (fun it => pm_m it = tick /\ pm_data it = 0 /\ pm_buffer it = []) (pending w);
  bl_stuck : exists i it, pending w !! i = Some it /\ pm_finished it = false
}.

Lemma empty_pending m (w : NonBlockingWriter W) it rest :
  pending w = it :: rest -> pm_data it = 0 ->
  aw_write_multiple m true [] w = (w <| pending := it <| pm_finished := true |> :: rest ++ [MkPendingMessage m 0 false 0 []] |>, Ret true).
Proof.
  intros Hp H0. destruct w as [u l]. cbn in Hp. subst l.
  unfold aw_write_multiple. unfold mbind at 1, ST_bind at 1. change (aw_prepare m (len (concat [])) true) with (nb_prepare m 0 true).
  set (w := MkNonBlockingWriter u (it :: rest)). set (w1 := w <| pending := (it :: rest) ++ [MkPendingMessage m 0 false 0 []] |>).
  change (nb_prepare m 0 true w) with (w1, Ret (Some 0, None : option Z)). cbn [aw_write_sections]. unfold mbind at 1, ST_bind at 1. cbn [mret ST_ret].
  unfold mbind at 1, ST_bind at 1. change (aw_finish (Some 0) w1) with (nb_finish (Some 0) w1). unfold nb_finish. unfold mbind at 1, ST_bind at 1.
  cbn [get mbind option_bind]. unfold w1 at 1. cbn [pending]. unfold find_pending. cbn. rewrite H0. done.
Qed.

Lemma flush_backlog l : forall u : W,
  usable u -> Forall (fun it => pm_m it = tick /\ pm_data it = 0 /\ pm_buffer it = []) l -> (exists i it, l !! i = Some it /\ pm_finished it = false) ->
  exists u' l', flush_loop l (MkNonBlockingWriter u l) = (MkNonBlockingWriter u' l', Ret tt) /\ backlog (MkNonBlockingWriter u' l').
Proof using permitted_0.
  induction l as [|it l IH]; intros u Hu He (i & x & Hi & Hx); [done|]. cbn [flush_loop]. destruct (pm_finished it) eqn:Hf; cbn [negb].
  2: { exists u, (it :: l). split; [done|]. split; [done|done|]. by exists 0%nat, it. }
  pose proof He as [(Hm & H0 & Hb) He']%Forall_cons. unfold buffer_size. rewrite Hb. change (Z.of_nat (length [])) with 0.
  unfold mbind at 1, ST_bind at 1. unfold underlying at 1, zoom at 1. cbn [nb_underlying].
  destruct (law_prepare u (pm_m it) 0 false Hu permitted_0) as (u1 & [a|] & id & E1 & Hu1 & Hs1); rewrite E1; unfold set, update_field; cbn.
  2: { exists u1, (it :: l). split; [done|]. split; [done|done|]. by exists i, x. }
  unfold mbind at 1, ST_bind at 1. unfold underlying at 1, zoom at 1. cbn [nb_underlying]. rewrite law_write_nothing by done. unfold set, update_field; cbn.
  destruct (law_finish u1 (length (slots u)) a (pm_m it) 0 [] Hu1) as (u2 & E2 & Hu2 & Hs2); [rewrite Hs1; by apply list_lookup_middle|done|].
  unfold mbind at 1, ST_bind at 1. unfold underlying at 1, zoom at 1. cbn [nb_underlying]. rewrite E2. unfold mbind at 1, ST_bind at 1.
  unfold set, update_field, assign, modify; cbn. unfold set, update_field; cbn. apply IH; [done|done|].
  destruct i as [|i]; [cbn in Hi; congruence|]. by exists i, x.
Qed.

Lemma backlog_stays w op : backlog w -> exists w' b, tick_op op w = (w', Ret b) /\ backlog w' /\ (op = FlushPending -> b = false).
Proof using permitted_0.
  intros [Hu He Hs]. destruct op; cbn [tick_op].
  - destruct (pending w) as [|it rest] eqn:Hp; [by destruct Hs as (? & ? & ? & _)|]. pose proof He as [(Hm & H0 & Hb) He']%Forall_cons.
    rewrite (empty_pending tick w it rest Hp H0). eexists _, _. split; [reflexivity|]. split; [|done]. split; cbn; [done| |].
    + constructor; [done|]. apply Forall_app. split; [done|]. by repeat constructor.
    + exists (S (length rest)), (MkPendingMessage tick 0 false 0 []). split; [|done].
      exact (list_lookup_middle rest [] _ _ eq_refl).
  - destruct w as [u l]. cbn in Hu, He, Hs. destruct (flush_backlog l u Hu He Hs) as (u' & l' & E & Hb).
    unfold try_flush_pending, mbind, ST_bind. cbn [get pending]. rewrite E. eexists _, _. split; [reflexivity|]. split; [done|]. intros _.
    apply bool_decide_eq_false. intros Hl. destruct Hb as [_ _ (i & it & Hi & _)]. cbn in Hi, Hl. by rewrite Hl in Hi.
Qed.

Fixpoint tick_run (ops : list TickOp) : ST (NonBlockingWriter W) (list bool) :=
  match ops with
  | [] => mret []
  | op :: ops => b ← tick_op op; bs ← tick_run ops; mret (b :: bs)
  end.

Lemma backlog_run ops : forall w, backlog w ->
  exists w' bs, tick_run ops w = (w', Ret bs) /\ backlog w' /\ Forall2 (fun op b => op = FlushPending -> b = false) ops bs.
Proof using permitted_0.
  induction ops as [|op ops IH]; intros w Hw; cbn [tick_run]; [by exists w, []|].
  destruct (backlog_stays w op Hw) as (w1 & b & E1 & Hw1 & Hb). destruct (IH w1 Hw1) as (w2 & bs & E2 & Hw2 & Hbs).
  exists w2, (b :: bs). unfold mbind, ST_bind. rewrite E1, E2. split; [done|]. split; [done|]. by constructor.
Qed.

(** A message without a payload that finds the buffer full. *)
Lemma empty_refused m (w : NonBlockingWriter W) u id :
  pending w = [] -> aw_prepare m 0 false (nb_underlying w) = (u, Ret (None, id)) ->
  aw_write_multiple m true [] w = (MkNonBlockingWriter u [MkPendingMessage m 0 true 0 []], Ret true).
Proof.
  intros Hp E. destruct w as [u0 l]. cbn in Hp, E. subst l.
  unfold aw_write_multiple. unfold mbind at 1, ST_bind at 1. change (aw_prepare m (len (concat [])) true) with (nb_prepare m 0 true).
  unfold nb_prepare. unfold mbind at 1, ST_bind at 1. cbn [get pending]. unfold mbind at 1, ST_bind at 1. unfold underlying at 1, zoom at 1. cbn [nb_underlying]. rewrite E.
  done.
Qed.

(** A queue of empty messages never drains. Once two of the host's ticks have found the buffer full, flushing the writer
    reports for ever that messages are pending, whatever else is written and whatever room there is: the buffers of pending
    messages without a payload have the same address, so that [finish] marks the first of them again and never the last. *)
Theorem ticks_never_drain (w : NonBlockingWriter W) (u : W) (id : option Z) (ops : list TickOp) :
  usable (nb_underlying w) -> pending w = [] -> aw_prepare tick 0 false (nb_underlying w) = (u, Ret (None, id)) ->
  exists w' bs, tick_run (Tick :: Tick :: ops) w = (w', Ret (true :: true :: bs)) /\ pending w' <> [] /\
    Forall2 (fun op b => op = FlushPending -> b = false) ops bs.
Proof using permitted_0.
  intros Hu Hp E. cbn [tick_run tick_op].
  assert (usable u) as Hu1 by (destruct (law_prepare _ tick 0 false Hu permitted_0) as (u1 & mk & id1 & E1 & ? & _); congruence).
  set (w1 := MkNonBlockingWriter u [MkPendingMessage tick 0 true 0 []]). set (w2 := MkNonBlockingWriter u [MkPendingMessage tick 0 true 0 []; MkPendingMessage tick 0 false 0 []]).
  destruct (backlog_run ops w2) as (w' & bs & E' & Hb & Hbs).
  { split; [done|by repeat constructor|]. exists 1%nat, (MkPendingMessage tick 0 false 0 []). by split. }
  exists w', bs. unfold mbind, ST_bind. rewrite (empty_refused tick w u id Hp E). fold w1.
  rewrite (empty_pending tick w1 (MkPendingMessage tick 0 true 0 []) [] eq_refl eq_refl). change (set pending _ w1) with w2. rewrite E'.
  split; [done|]. split; [|done]. intros Hl. destruct Hb as [_ _ (i & it & Hi & _)]. by rewrite Hl in Hi.
Qed.
End empty_messages.

Lemma ticks_never_drain_witness :
  exists w' bs, tick_run [Tick; Tick; FlushPending; Tick; FlushPending] (MkNonBlockingWriter (MkPort [] 0 [false]) []) = (w', Ret (true :: true :: bs)) /\ pending w' <> [].
Proof.
  assert (permitted (W:=Port) 0) as H0 by (change (0 <= 0); lia).
  destruct (ticks_never_drain (W:=Port) H0 (MkNonBlockingWriter (MkPort [] 0 [false]) []) (MkPort [] 0 []) None [FlushPending; Tick; FlushPending]) as (w' & bs & E & Hp & _).
  - split; [done|by intros ?|by intros ?].
  - reflexivity.
  - reflexivity.
  - exists w', bs. split; [exact E|exact Hp].
Defined.

(** ** A fragment within itself *)

Definition self_fragment : PartialMessage := MkPartialMessage fragment 8 (id_bytes 0).

(** The message is dispatched when it is complete. *)
Lemma add_to_self again got c (d : Processor Z (list (Z * bytes))) :
  got ++ c = id_bytes 0 ->
  (forall d', handlers d' = handlers d -> partial_messages d' !! 0 = Some self_fragment -> (again fragment (id_bytes 0) d').2 = Throw OutOfFuel) ->
  (add_fragment again 0 (MkPartialMessage fragment 8 got) c d).2 = Throw OutOfFuel.
Proof.
  intros Hc Ha. assert (len c + len got = 8) as Hl by (apply (f_equal length) in Hc; rewrite length_app, length_id in Hc; lia).
  unfold add_fragment, received. cbn [pa_data pa_total_size]. rewrite Hl. change (8 <? u64 8) with false. cbv iota zeta.
  unfold set at 1, update_field at 1. cbn [pa_m pa_total_size pa_data]. rewrite Hc. fold self_fragment.
  change (set pa_data (id_bytes 0) (MkPartialMessage fragment 8 got)) with self_fragment.
  change (len (pa_data self_fragment)) with 8. rewrite Z.eqb_refl.
  unfold mbind at 1, ST_bind at 1. cbn [get]. unfold mbind at 1, ST_bind at 1. unfold assign at 1, modify at 1. unfold mbind at 1, ST_bind at 1.
  set (d1 := set partial_messages _ d). specialize (Ha d1 eq_refl (lookup_insert_eq _ _ _)). change (pa_m self_fragment) with fragment. change (pa_data self_fragment) with (id_bytes 0).
  destruct (again fragment (id_bytes 0) d1) as [d2 o]. cbn in Ha. by subst o.
Qed.

Lemma fragment_out_of_fuel fuel data (d : Processor Z (list (Z * bytes))) :
  handlers d !! fragment = Some OnFragment -> (on_fragment (dispatch keep fuel) data d).2 = Throw OutOfFuel -> (dispatch keep (S fuel) fragment data d).2 = Throw OutOfFuel.
Proof.
  intros Hh E. cbn [dispatch]. unfold mbind at 1, ST_bind at 1. cbn [get]. rewrite Hh. unfold mbind at 1, ST_bind at 1. unfold catch.
  destruct (on_fragment (dispatch keep fuel) data d) as [d1 o]. cbn in E. by subst o.
Qed.

Lemma again_and_again fuel : forall d : Processor Z (list (Z * bytes)),
  handlers d !! fragment = Some OnFragment -> partial_messages d !! 0 = Some self_fragment -> (dispatch keep fuel fragment (id_bytes 0) d).2 = Throw OutOfFuel.
Proof.
  induction fuel as [|fuel IH]; intros d Hh Hp; [done|]. apply fragment_out_of_fuel; [done|].
  pose proof (on_fragment_known (dispatch keep fuel) 0 self_fragment [] d ltac:(lia) Hp) as E. unfold fragment_of in E. rewrite app_nil_r in E. rewrite E.
  apply add_to_self; [apply app_nil_r|]. intros d' Hd'. apply IH. by rewrite Hd'.
Qed.

(** A message that claims to be a fragment of itself is dispatched again and again: dispatching does not return, whatever the
    depth of the recursion. *)
Lemma self_fragment_never_returns fuel :
  (dispatch keep fuel fragment (initial_header 0 fragment 8 ++ id_bytes 0) two_handlers).2 = Throw OutOfFuel.
Proof.
  destruct fuel as [|fuel]; [done|]. apply fragment_out_of_fuel; [vm_compute; reflexivity|].
  rewrite on_fragment_new; [|lia|vm_compute; split; congruence|lia|reflexivity].
  apply add_to_self; [done|]. intros d' Hd'. apply again_and_again. rewrite Hd'. vm_compute. reflexivity.
Qed.

(** ** Message types *)

(** The names given to [DEFINE_RINGBUFFER_MSG_TYPE]. *)
Definition message_names : list string := (
  [ "associate_node_address"; "node_inbound"; "node_outbound"; "close_node_outbound"; "ledger_get_range"; "ledger_entry_range"; "ledger_no_entry_range";
    "ledger_append"; "ledger_truncate"; "ledger_commit"; "ledger_init"; "ledger_open"; "snapshot"; "snapshot_commit"; "fragment"; "log_msg";
    "fatal_error_msg"; "stop"; "stopped"; "tick"; "work_stats"; "launch_host_process"; "tls_start"; "tls_connect"; "tls_inbound"; "tls_outbound";
    "tls_stop"; "tls_close"; "tls_closed"; "store"; "get"; "response"; "not_found"; "quic_start"; "quic_inbound"; "quic_outbound" ])%string.

(** The hashes of the names are distinct, and the ring buffer accepts them as types. *)
Lemma message_types_distinct : NoDup (fnv_1a <$> message_names) /\ Forall (fun m => msg_min <= m <= msg_max)%Z (fnv_1a <$> message_names).
Proof.
  split; [apply (bool_decide_unpack _); vm_compute; exact I|].
  apply Forall_forall. intros m Hm. assert (forallb (fun m => (msg_min <=? m)%Z && (m <=? msg_max)%Z) (fnv_1a <$> message_names) = true) as H by (vm_compute; reflexivity).
  rewrite forallb_forall in H. specialize (H m (proj1 (list_elem_of_In _ _) Hm)). apply andb_prop in H as [?%Z.leb_le ?%Z.leb_le]. done.
Qed.
