(* ===== verification/Serializer.v ===== *)
(** The payloads of ring buffer messages: src/ds/serializer.h.

    A message type declares the types of its fields; the values are turned into sections of memory that the writer puts
    one after the other, and the reader parses the whole message.  All fields but the last carry their length. *)

From S2P Require Import Prelude Serialized.

(** The types of fields: integers and enumerations of [n] bytes, byte vectors, byte ranges and strings. *)
Inductive SType := SInt (n : nat) | SBytes | SRange | SString.

(** A [ByteRange] field may be given as an array of ranges. *)
Inductive SValue := VInt (v : Z) | VBytes (b : bytes) | VRanges (bs : list bytes).

Definition section_size (b : bytes) : bytes := le_encode 8 (Z.of_nat (length b)).

(** The arguments a field accepts ([close_enough_at]). *)
Definition close_enough (t : SType) (v : SValue) : bool :=
  match t, v with
  | SInt _, VInt _ | SBytes, VBytes _ | SRange, VBytes _ | SString, VBytes _ | SRange, VRanges _ => true
  | _, _ => false
  end.

Definition serialize_value (t : SType) (v : SValue) : list bytes :=
  match t, v with
  | SInt n, VInt v => [le_encode n v]
  | _, VBytes b => [section_size b; b]
  | _, VRanges bs => bs
  | _, VInt _ => []
  end.

Definition serialize_value_final (t : SType) (v : SValue) : list bytes :=
  match t, v with
  | SBytes, VBytes b | SRange, VBytes b => [b]
  | _, _ => serialize_value t v
  end.

Fixpoint serialize (ts : list SType) (vs : list SValue) : list bytes :=
  match ts, vs with
  | [t], [v] => serialize_value_final t v
  | t :: ts, v :: vs => serialize_value t v ++ serialize ts vs
  | _, _ => []
  end.

Definition deserialize_value (t : SType) : Reader SValue :=
  match t with
  | SInt n => v ← read n; mret (VInt v)
  | SBytes => prefixed_size ← read 8; b ← read_block prefixed_size; mret (VBytes b)
  | SRange =>
      prefixed_size ← read 8;
      data ← get;
      skip_bytes prefixed_size;;
      mret (VBytes (take (Z.to_nat prefixed_size) data))
  | SString => b ← read_string; mret (VBytes b)
  end.

Definition deserialize_value_final (t : SType) : Reader SValue :=
  match t with
  | SRange | SBytes => data ← get; b ← read_block (Z.of_nat (length data)); mret (VBytes b)
  | _ => deserialize_value t
  end.

Fixpoint deserialize_impl (ts : list SType) : Reader (list SValue) :=
  match ts with
  | [] => mret []
  | [t] => v ← deserialize_value_final t; mret [v]
  | t :: ts => v ← deserialize_value t; vs ← deserialize_impl ts; mret (v :: vs)
  end.

(** [EmptySerializer::deserialize] rejects data where none is expected. *)
Definition deserialize (ts : list SType) (data : bytes) : outcome (list SValue) :=
  match ts with
  | [] => if (length data =? 0)%nat then Ret [] else Throw (LogicError "EmptySerializer asked to deserialize buffer")
  | _ => snd (deserialize_impl ts data)
  end.

(** ** Round trip *)

(** What the reader gives for a value: one range for an array of ranges. *)
Definition as_read (v : SValue) : SValue := match v with VRanges bs => VBytes (concat bs) | _ => v end.

(** Values of the types; an array of ranges only as the last field. *)
Definition fits (t : SType) (v : SValue) : Prop :=
  match t, v with
  | SInt n, VInt v => 0 <= v < 256 ^ Z.of_nat n
  | SBytes, VBytes b | SRange, VBytes b | SString, VBytes b => Z.of_nat (length b) < 2 ^ 64
  | _, _ => False
  end.

Definition fits_final (t : SType) (v : SValue) : Prop :=
  match t, v with
  | SRange, VRanges _ => True
  | _, _ => fits t v
  end.

Fixpoint all_fit (ts : list SType) (vs : list SValue) : Prop :=
  match ts, vs with
  | [], [] => True
  | [t], [v] => fits_final t v
  | t :: ts, v :: vs => fits t v /\ all_fit ts vs
  | _, _ => False
  end.

Lemma read_size (b rest : bytes) :
  Z.of_nat (length b) < 2 ^ 64 -> read 8 (section_size b ++ rest) = (rest, Ret (Z.of_nat (length b))).
Proof. intros H. unfold section_size. rewrite read_app; [done|]. change (256 ^ Z.of_nat 8) with (2 ^ 64). lia. Qed.

Lemma read_block_all (b : bytes) : (data ← get; read_block (Z.of_nat (length data))) b = ([], Ret b).
Proof. unfold mbind at 1, ST_bind at 1, get at 1. rewrite <- (app_nil_r b) at 2. by apply read_block_app. Qed.

Lemma value_round_trip t v rest :
  fits t v -> deserialize_value t (concat (serialize_value t v) ++ rest) = (rest, Ret v).
Proof.
  destruct t as [n| | |], v as [v|b|bs]; try done; cbn [fits serialize_value concat deserialize_value]; intros H; rewrite ?app_nil_r.
  - unfold mbind, ST_bind. by rewrite read_app.
  - unfold mbind, ST_bind. by rewrite <- app_assoc, read_size, read_block_app by done.
  - unfold mbind, ST_bind. rewrite <- app_assoc, read_size by done. unfold get at 1, skip_bytes, mbind, ST_bind, get, modify.
    rewrite length_app. destruct (Z.ltb_spec (Z.of_nat (length b + length rest)) (Z.of_nat (length b))); [lia|].
    by rewrite Nat2Z.id, drop_app_length, take_app_length.
  - unfold mbind at 1, ST_bind at 1, read_string. unfold mbind at 1, ST_bind at 1. rewrite <- app_assoc, read_size by done.
    unfold mbind, ST_bind, get. rewrite length_app.
    destruct (Z.ltb_spec (Z.of_nat (length b + length rest)) (Z.of_nat (length b))); [lia|].
    by rewrite Nat2Z.id, take_bytes_app.
Qed.

Lemma final_round_trip t v :
  fits_final t v -> snd (deserialize_value_final t (concat (serialize_value_final t v))) = Ret (as_read v).
Proof.
  assert (forall b : bytes, snd ((data ← get; b ← read_block (Z.of_nat (length data)); mret (VBytes b)) b) = Ret (VBytes b)) as Hall.
  { intros b. pose proof (read_block_all b) as H. unfold mbind, ST_bind, get in *. by rewrite H. }
  destruct t as [n| | |], v as [v|b|bs]; try done; cbn [fits_final serialize_value_final deserialize_value_final as_read]; intros H;
    cbn [serialize_value concat]; rewrite ?app_nil_r.
  1: pose proof (value_round_trip (SInt n) (VInt v) [] H) as Hv.
  5: pose proof (value_round_trip SString (VBytes b) [] H) as Hv.
  1, 5: rewrite app_nil_r in Hv; cbn [serialize_value concat] in Hv; rewrite ?app_nil_r in Hv; by rewrite Hv.
  all: apply Hall.
Qed.

Lemma deserialize_serialize ts vs :
  all_fit ts vs -> deserialize ts (concat (serialize ts vs)) = Ret (as_read <$> vs).
Proof.
  intros H. destruct ts as [|t ts]; [by destruct vs|]. unfold deserialize. revert t vs H.
  induction ts as [|t' ts IH]; intros t [|v vs] H; try done.
  - destruct vs; [|by destruct H]. cbn [all_fit serialize deserialize_impl] in *. pose proof (final_round_trip t v H) as Hv.
    unfold mbind, ST_bind. destruct (deserialize_value_final t _) as [? []]; cbn in *; by simplify_eq.
  - destruct H as [Hv Hvs]. destruct vs as [|v' vs]; [by destruct ts|]. specialize (IH t' (v' :: vs) Hvs).
    change (serialize (t :: t' :: ts) (v :: v' :: vs)) with (serialize_value t v ++ serialize (t' :: ts) (v' :: vs)).
    change (deserialize_impl (t :: t' :: ts)) with (v ← deserialize_value t; vs ← deserialize_impl (t' :: ts); mret (v :: vs)).
    rewrite concat_app. unfold mbind at 1, ST_bind at 1. rewrite value_round_trip by done.
    unfold mbind at 1, ST_bind at 1. destruct (deserialize_impl (t' :: ts) (concat _)) as [r [ws|e]]; [|done].
    injection IH as ->. cbn. by destruct t, v.
Qed.

(** Whatever the field types of a message, the reader gets the values that were written: integers in
    range, vectors, ranges and strings that carry their length, and a last field that takes the rest of the message. *)
Theorem payload_round_trip ts vs :
  all_fit ts vs -> deserialize ts (concat (serialize ts vs)) = Ret (as_read <$> vs).
Proof. apply deserialize_serialize. Qed.

Lemma payload_round_trip_witness :
  deserialize [SInt 8; SInt 1; SString; SBytes] (concat (serialize [SInt 8; SInt 1; SString; SBytes] [VInt 300; VInt 1; VBytes [7]; VBytes [1; 2]])) =
  Ret [VInt 300; VInt 1; VBytes [7]; VBytes [1; 2]].
Proof. apply (payload_round_trip [SInt 8; SInt 1; SString; SBytes]). cbn. lia. Defined.
