(* ===== verification/LedgerFile.v ===== *)
(** The files of the ledger on the host: src/host/ledger.h (file names and [LedgerFile]) over a model
    of the file system.

    A directory entry is a name that refers to an inode, so that a [FILE*] goes on referring to the same
    contents when its file is renamed or removed.  Every access of the source starts with a seek, so a stream has no
    position of its own; what is written is visible at once, and calls do not fail for want of space. *)

From Stdlib Require Import Ascii String.
From S2P Require Import Prelude Serialized.

(** * The file system *)

Abbreviation Inode := nat (only parsing).

Record Disk := MkDisk {
  directories : gset string;
  names : gmap (string * string) Inode;
  inodes : list bytes
}.
#[export] Instance eta_Disk : Settable Disk := fun r => MkDisk (directories r) (names r) (inodes r).

Definition contents (d : Disk) (i : Inode) : bytes := default [] (inodes d !! i).

Definition zeros (n : nat) : bytes := replicate n 0.

(** Writing beyond the end fills the gap with zeros; writing nothing changes nothing. *)
Definition overlay (off : nat) (data content : bytes) : bytes :=
  take off content ++ zeros (off - length content) ++ data ++ drop (off + length data) content.

Definition set_contents (i : Inode) (c : bytes) (d : Disk) : Disk := d <| inodes := <[i := c]> (inodes d) |>.

Definition write_at (i : Inode) (off : Z) (data : bytes) (d : Disk) : Disk :=
  if (length data =? 0)%nat then d else set_contents i (overlay (Z.to_nat off) data (contents d i)) d.

Definition ftruncate (i : Inode) (len : Z) (d : Disk) : Disk :=
  let c := contents d i in set_contents i (take (Z.to_nat len) c ++ zeros (Z.to_nat len - length c)) d.

(** [fread] of [size] bytes at [off] as one object. *)
Definition read_at (i : Inode) (off size : Z) (d : Disk) : option bytes :=
  let c := contents d i in
  if Z.of_nat (length c) <? off + size then None else Some (take (Z.to_nat size) (drop (Z.to_nat off) c)).

(** [fopen] with mode [w+b]: an existing file is emptied. *)
Definition fopen_new (dir name : string) (d : Disk) : Disk * option Inode :=
  if negb (bool_decide (dir ∈ directories d)) then (d, None)
  else match names d !! (dir, name) with
  | Some i => (set_contents i [] d, Some i)
  | None =>
      (d <| names := <[(dir, name) := length (inodes d)]> (names d) |> <| inodes := inodes d ++ [[]] |>, Some (length (inodes d)))
  end.

Definition fopen_existing (dir name : string) (d : Disk) : option Inode := names d !! (dir, name).

(** The names of a directory, in the order of their keys. *)
Definition listing (dir : string) (d : Disk) : list string :=
  omap (fun '(n, _) => if bool_decide (n.1 = dir) then Some n.2 else None) (map_to_list (names d)).

(** [directory_iterator] visits the files of a directory in an unspecified order. *)
Class DirOrder := {
  dir_order : list string -> list string;
  dir_order_perm l : Permutation (dir_order l) l
}.

Definition directory_iterator `{!DirOrder} (dir : string) (d : Disk) : list string := dir_order (listing dir d).

(** [files::rename], which replaces the target. *)
Definition rename_path (dir src dst : string) : ST Disk unit :=
  d ← get;
  match names d !! (dir, src) with
  | None => throw (LogicError "Could not rename file")
  | Some i => names <~ <[(dir, dst) := i]> (delete (dir, src) (names d))
  end.

(** [fs::remove]: whether there was a file. *)
Definition remove_path (dir name : string) : ST Disk bool :=
  d ← get;
  match names d !! (dir, name) with
  | None => mret false
  | Some _ => names <~ delete (dir, name) (names d);; mret true
  end.

(** * File names *)

Local Open Scope string_scope.
Local Open Scope list_scope.
Local Open Scope Z_scope.

Definition ledger_committed_suffix : string := "committed".
Definition ledger_recovery_file_suffix : string := "recovery".
Definition ledger_ignored_file_suffix : string := "ignored".
Definition ledger_start_idx_delimiter : Ascii.ascii := "_"%char.
Definition ledger_last_idx_delimiter : Ascii.ascii := "-"%char.
Definition file_name_prefix : string := "ledger".

(** What follows the first occurrence of a character: [find] and [substr]. *)
Fixpoint after (c : Ascii.ascii) (s : string) : option string :=
  match s with
  | EmptyString => None
  | String c' s => if bool_decide (c' = c) then Some s else after c s
  end.

Definition ends_with (s suffix : string) : bool :=
  (String.length suffix <=? String.length s)%nat &&
  String.eqb (substring (String.length s - String.length suffix) (String.length suffix) s) suffix.

Definition remove_suffix (s suffix : string) : string :=
  if ends_with s suffix then substring 0 (String.length s - String.length suffix) s else s.

(** [std::stol]: white space, a sign, and the digits up to the first character that is none. *)
Definition is_space (c : Ascii.ascii) : bool :=
  let n := Ascii.nat_of_ascii c in (n =? 32)%nat || ((9 <=? n)%nat && (n <=? 13)%nat).

Definition digit_value (c : Ascii.ascii) : option Z :=
  let n := Z.of_nat (Ascii.nat_of_ascii c) in if (48 <=? n) && (n <=? 57) then Some (n - 48) else None.

Fixpoint skip_spaces (s : string) : string :=
  match s with String c s' => if is_space c then skip_spaces s' else s | EmptyString => s end.

Fixpoint parse_digits (s : string) (acc : Z) : Z :=
  match s with
  | String c s => match digit_value c with Some v => parse_digits s (10 * acc + v) | None => acc end
  | EmptyString => acc
  end.

Definition stol (s : string) : outcome Z :=
  let s := skip_spaces s in
  let '(neg, s) :=
    match s with
    | String c s' => if bool_decide (c = "-"%char) then (true, s') else if bool_decide (c = "+"%char) then (false, s') else (false, s)
    | EmptyString => (false, s)
    end in
  match s with
  | String c _ =>
      match digit_value c with
      | None => Throw (LogicError "stol")
      | Some _ =>
          let v := if neg then - parse_digits s 0 else parse_digits s 0 in
          if (- 2 ^ 63 <=? v) && (v <? 2 ^ 63) then Ret (u64 v) else Throw OutOfRange
      end
  | EmptyString => Throw (LogicError "stol")
  end.

Definition get_start_idx_from_file_name (file_name : string) : outcome Z :=
  match after ledger_start_idx_delimiter file_name with
  | None => Throw (LogicError "Ledger file name does not contain a start seqno")
  | Some s => stol s
  end.

Definition get_last_idx_from_file_name (file_name : string) : outcome (option Z) :=
  match after ledger_last_idx_delimiter file_name with
  | None => Ret None
  | Some s => match stol s with Ret v => Ret (Some v) | Throw e => Throw e end
  end.

Definition is_ledger_file_name_committed (file_name : string) : bool := ends_with file_name ledger_committed_suffix.
Definition is_ledger_file_name_recovery (file_name : string) : bool := ends_with file_name ledger_recovery_file_suffix.
Definition is_ledger_file_name_ignored (file_name : string) : bool := ends_with file_name ledger_ignored_file_suffix.

Definition remove_recovery_suffix (file_name : string) : string :=
  remove_suffix file_name ("." +:+ ledger_recovery_file_suffix).

(** One turn of the loop over a directory: whether the name of the file covers [idx]. *)
Definition covers_idx (idx : Z) (allow_recovery_files : bool) (f_name : string) : bool :=
  if is_ledger_file_name_ignored f_name || (negb allow_recovery_files && is_ledger_file_name_recovery f_name) then false
  else match get_start_idx_from_file_name f_name, get_last_idx_from_file_name f_name with
  | Ret start_idx, Ret (Some last_idx) => (start_idx <=? idx) && (idx <=? last_idx)
  | _, _ => false
  end.

Definition get_file_name_with_idx `{!DirOrder} (dir : string) (idx : Z) (allow_recovery_files : bool) (d : Disk) : option string :=
  List.find (covers_idx idx allow_recovery_files) (directory_iterator dir d).

(** * A file of the ledger *)

Record LedgerFile := MkLedgerFile {
  lf_dir : string;
  file_name : string;
  file : Inode;
  start_idx : Z;
  total_len : Z;
  positions : list Z;
  completed : bool;
  lf_committed : bool;
  recovery : bool
}.
#[export] Instance eta_LedgerFile : Settable LedgerFile := fun r =>
  MkLedgerFile (lf_dir r) (file_name r) (file r) (start_idx r) (total_len r) (positions r) (completed r) (lf_committed r) (recovery r).

(** A file object and the disk. *)
Record FileWorld := MkFileWorld { fw_file : LedgerFile; fw_disk : Disk }.
#[export] Instance eta_FileWorld : Settable FileWorld := fun r => MkFileWorld (fw_file r) (fw_disk r).

Definition F : Type -> Type := ST FileWorld.

Definition positions_offset_header_size : Z := 8.
Definition serialised_entry_header_size : Z := 8.

(** [SerialisedEntryHeader]. *)
Definition entry_size_of (header : Z) : Z := header `div` 2 ^ 16.
Definition entry_flags_of (header : Z) : Z := (header `div` 2 ^ 8) `mod` 2 ^ 8.

(** The name of a new file. *)
Definition new_file_name (start : Z) (rec : bool) : string :=
  let name := file_name_prefix +:+ "_" +:+ format_idx start in
  if rec then name +:+ "." +:+ ledger_recovery_file_suffix else name.

(** The constructor for a new file. *)
Definition new_LedgerFile (dir : string) (start : Z) (rec : bool) : ST Disk LedgerFile :=
  d ← get;
  let name := new_file_name start rec in
  let '(d, file) := fopen_new dir name d in
  modify (fun _ => d);;
  match file with
  | None => throw (LogicError "Unable to open ledger file")
  | Some i => mret (MkLedgerFile dir name i start positions_offset_header_size [] false false rec)
  end.

(** The loop over the entries of a file that is not complete: [off] is where the stream is, [len] what follows. *)
Fixpoint recover_loop (fuel : nat) (c : bytes) (off len : Z) (f : LedgerFile) : outcome LedgerFile :=
  match fuel with
  | O => Throw OutOfFuel
  | S fuel =>
      if len <? serialised_entry_header_size then Ret f
      else
        let entry_size := entry_size_of (le_decode (take 8 (drop (Z.to_nat off) c))) in
        let len := len - serialised_entry_header_size in
        if len <? entry_size then Ret f
        else
          let f := f <| positions := positions f ++ [u32 (total_len f)] |>
                     <| total_len := u64 (total_len f + (serialised_entry_header_size + entry_size)) |> in
          recover_loop fuel c (off + serialised_entry_header_size + entry_size) (len - entry_size) f
  end.

(** The position table of a file that is complete. *)
Fixpoint read_table (n : nat) (data : bytes) : list Z :=
  match n with
  | O => []
  | S n => le_decode (take 4 data) :: read_table n (drop 4 data)
  end.

(** The constructor for an existing file. *)
Definition recover_LedgerFile (dir name : string) (d : Disk) : outcome LedgerFile :=
  match fopen_existing dir name d with
  | None => Throw (LogicError "Unable to open ledger file")
  | Some i =>
      match get_start_idx_from_file_name name with
      | Throw e => Throw e
      | Ret start =>
          let f := MkLedgerFile dir name i start 0 [] false (is_ledger_file_name_committed name) false in
          let c := contents d i in
          let total_file_size := Z.of_nat (length c) in
          match read_at i 0 positions_offset_header_size d with
          | None => Throw (LogicError "Failed to read positions offset from ledger file")
          | Some h =>
              let table_offset := le_decode h in
              if negb (table_offset =? 0) then
                if total_file_size <? table_offset then Throw (LogicError "Invalid table offset")
                else
                  let n := (total_file_size - table_offset) / 4 in
                  Ret (f <| total_len := table_offset |>
                         <| positions := read_table (Z.to_nat n) (drop (Z.to_nat table_offset) c) |>
                         <| completed := true |>)
              else
                recover_loop (S (length c)) c positions_offset_header_size (total_file_size - positions_offset_header_size)
                  (f <| total_len := positions_offset_header_size |>)
          end
      end
  end.

Definition get_last_idx (f : LedgerFile) : Z := u64 (start_idx f + Z.of_nat (length (positions f)) - 1).

Definition position_at (f : LedgerFile) (i : Z) : outcome Z :=
  match positions f !! Z.to_nat i with Some p => Ret p | None => Throw OutOfRange end.

Definition file_write_entry (data : bytes) (committable : bool) : F Z :=
  w ← get;
  let f := fw_file w in
  if (length data =? 0)%nat then throw (LogicError "Failed to write entry to ledger")
  else
    zoom fw_disk (modify (write_at (file f) (total_len f) data));;
    zoom fw_file (modify (fun f => f <| positions := positions f ++ [u32 (total_len f)] |>
                                     <| total_len := u64 (total_len f + Z.of_nat (length data)) |>));;
    w ← get; mret (get_last_idx (fw_file w)).

(** The loop that halves the range until it fits. *)
Fixpoint entries_size_loop (fuel : nat) (f : LedgerFile) (from to : Z) (max_size : option Z) : outcome (Z * Z) :=
  match fuel with
  | O => Throw OutOfFuel
  | S fuel =>
      match (if to =? get_last_idx f then Ret (total_len f) else position_at f (u64 (to - start_idx f + 1))),
            position_at f (u64 (from - start_idx f)) with
      | Ret position_to, Ret position_from =>
          let size := u64 (position_to - position_from) in
          if from_option (fun m => size <=? m) true max_size then Ret (size, to)
          else if from =? to then Ret (0, 0)
          else entries_size_loop fuel f from (from + (to - from) / 2) max_size
      | Throw e, _ => Throw e
      | _, Throw e => Throw e
      end
  end.

Definition entries_size (f : LedgerFile) (from to : Z) (max_size : option Z) : outcome (Z * Z) :=
  if (from <? start_idx f) || (to <? from) || (get_last_idx f <? to) then Ret (0, 0)
  else entries_size_loop 66 f from to max_size.

Definition file_read_entries (f : LedgerFile) (from to : Z) (max_size : option Z) (d : Disk) : outcome (option (bytes * Z)) :=
  if (from <? start_idx f) || (get_last_idx f <? to) || (to <? from) then Ret None
  else match entries_size f from to max_size with
  | Throw e => Throw e
  | Ret (size, to_) =>
      if size =? 0 then Ret None
      else match position_at f (u64 (from - start_idx f)) with
      | Throw e => Throw e
      | Ret p =>
          match read_at (file f) p size d with
          | None => Throw (LogicError "Failed to read entry range from file")
          | Some entries => Ret (Some (entries, to_))
          end
      end
  end.

(** Whether the file has been removed. *)
Definition file_truncate (idx : Z) : F bool :=
  w ← get;
  let f := fw_file w in
  if lf_committed f || (idx <? u64 (start_idx f - 1)) || (completed f && (get_last_idx f <=? idx)) then mret false
  else if idx =? u64 (start_idx f - 1) then
    removed ← zoom fw_disk (remove_path (lf_dir f) (file_name f));
    if (removed : bool) then mret true else throw (LogicError "Could not remove file")
  else
    zoom fw_disk (modify (write_at (file f) 0 (le_encode 8 0)));;
    zoom fw_file (completed <~ false);;
    (if idx =? get_last_idx f then skip
     else match position_at f (u64 (idx - start_idx f + 1)) with
     | Throw e => throw e
     | Ret p =>
         zoom fw_file (modify (fun f => f <| total_len := p |>
                                          <| positions := take (Z.to_nat (u64 (idx - start_idx f + 1))) (positions f) |>))
     end);;
    w ← get;
    zoom fw_disk (modify (ftruncate (file f) (total_len (fw_file w))));;
    mret false.

Definition table_bytes (ps : list Z) : bytes := concat (le_encode 4 <$> ps).

Definition complete : F unit :=
  w ← get;
  let f := fw_file w in
  if completed f then skip
  else
    zoom fw_disk (modify (write_at (file f) (total_len f) (table_bytes (positions f))));;
    zoom fw_disk (modify (write_at (file f) 0 (le_encode 8 (total_len f))));;
    zoom fw_file (completed <~ true).

(** A failure to rename is only logged. *)
Definition file_rename (new_name : string) : F bool :=
  w ← get;
  let f := fw_file w in
  catch (zoom fw_disk (rename_path (lf_dir f) (file_name f) new_name)) (fun _ => skip);;
  zoom fw_file (file_name <~ new_name);;
  mret true.

Definition file_open : F unit :=
  w ← get;
  _ ← file_rename (remove_recovery_suffix (file_name (fw_file w)));
  zoom fw_file (recovery <~ false).

Definition committed_file_name (start last : Z) (rec : bool) : string :=
  let name := file_name_prefix +:+ "_" +:+ format_idx start +:+ "-" +:+ format_idx last +:+ "." +:+ ledger_committed_suffix in
  if rec then name +:+ "." +:+ ledger_recovery_file_suffix else name.

Definition file_commit (idx : Z) : F bool :=
  w ← get;
  let f := fw_file w in
  if negb (completed f) || lf_committed f || negb (idx =? get_last_idx f) then mret false
  else
    renamed ← file_rename (committed_file_name (start_idx f) (get_last_idx f) (recovery f));
    if negb (renamed : bool) then mret false
    else
      zoom fw_file (lf_committed <~ true);;
      mret (negb (recovery f)).
