(* ===== verification/Ledger.v ===== *)
(** The ledger on the host: src/host/ledger.h ([Ledger]), and its handlers for the messages of the enclave.

    The files open for writing and those of the read cache are distinct objects, so both lists hold them by value.
    What is written to the ring buffer is kept in [sent]; jobs handed to the thread pool are
    kept in [jobs] until they are run and completed. *)

From Stdlib Require Import String.
From S2P Require Import Prelude Serialized Serializer LedgerFile.

(** [LedgerRequestPurpose]. *)
Inductive Purpose := Recovery | HistoricalQuery.
#[export] Instance purpose_eq_dec : EqDecision Purpose.
Proof. solve_decision. Defined.

(** [ledger_entry_range] or [ledger_no_entry_range]. *)
Record RangeResponse := MkRangeResponse {
  rr_from : Z;
  rr_to : Z;
  rr_purpose : Purpose;
  rr_entries : option bytes
}.

Record AsyncLedgerGet := MkAsyncLedgerGet {
  job_from : Z;
  job_to : Z;
  job_purpose : Purpose
}.

Record Ledger := MkLedger {
  ledger_dir : string;
  read_ledger_dirs : list string;
  files : list LedgerFile;
  max_read_cache_files : nat;
  files_read_cache : list LedgerFile;
  chunk_threshold : Z;
  last_idx : Z;
  committed_idx : Z;
  end_of_committed_files_idx : Z;
  require_new_file : bool;
  recovery_start_idx : option Z;
  sent : list RangeResponse;
  jobs : list AsyncLedgerGet
}.
#[export] Instance eta_Ledger : Settable Ledger := fun r =>
  MkLedger (ledger_dir r) (read_ledger_dirs r) (files r) (max_read_cache_files r) (files_read_cache r) (chunk_threshold r)
    (last_idx r) (committed_idx r) (end_of_committed_files_idx r) (require_new_file r) (recovery_start_idx r) (sent r) (jobs r).

Record LedgerWorld := MkLedgerWorld { lw_ledger : Ledger; lw_disk : Disk }.
#[export] Instance eta_LedgerWorld : Settable LedgerWorld := fun r => MkLedgerWorld (lw_ledger r) (lw_disk r).

Definition L : Type -> Type := ST LedgerWorld.

Definition ledger : L Ledger := gets lw_ledger.
Definition on_ledger (f : Ledger -> Ledger) : L unit := zoom lw_ledger (modify f).

(** Run a method of the file at a position of the list. *)
Definition on_file {A} (i : nat) (m : F A) : L A := fun w =>
  let l := lw_ledger w in
  match files l !! i with
  | None => (w, Throw UndefinedBehaviour)
  | Some f =>
      let '(fw, o) := m (MkFileWorld f (lw_disk w)) in
      (MkLedgerWorld (l <| files := <[i := fw_file fw]> (files l) |>) (fw_disk fw), o)
  end.

(** Lift an outcome. *)
Definition lift {S A} (o : outcome A) : ST S A := fun s => (s, o).

(** ** Finding files *)

(** [upper_bound] over a list that the predicate partitions: the first element that satisfies it. *)
Fixpoint first_index (p : LedgerFile -> bool) (l : list LedgerFile) : nat :=
  match l with
  | [] => 0
  | f :: l => if p f then 0 else S (first_index p l)
  end.

(** The position of the first file that ends at [idx] or later; the length of the list stands for the end. *)
Definition get_it_contains_idx (fs : list LedgerFile) (idx : Z) : nat :=
  if idx =? 0 then length fs else first_index (fun f => idx <=? get_last_idx f) fs.

Section ledger.
Context {DO : DirOrder}.

(** The directory and name of the file that covers an index: the main directory comes first. *)
Fixpoint find_in_dirs (dirs : list string) (idx : Z) (d : Disk) : option (string * string) :=
  match dirs with
  | [] => None
  | dir :: dirs =>
      match get_file_name_with_idx dir idx false d with
      | Some name => Some (dir, name)
      | None => find_in_dirs dirs idx d
      end
  end.

Definition find_file (l : Ledger) (idx : Z) (d : Disk) : option (string * string) :=
  match get_file_name_with_idx (ledger_dir l) idx true d with
  | Some name => Some (ledger_dir l, name)
  | None => find_in_dirs (read_ledger_dirs l) idx d
  end.

Definition get_file_from_cache (idx : Z) : L (option LedgerFile) :=
  if idx =? 0 then mret None
  else
    w ← get;
    let l := lw_ledger w in
    match List.find (fun f => (start_idx f <=? idx) && (idx <=? get_last_idx f)) (files_read_cache l) with
    | Some f => mret (Some f)
    | None =>
        match find_file l idx (lw_disk w) with
        | None => mret None
        | Some (dir, name) =>
            match recover_LedgerFile dir name (lw_disk w) with
            | Throw e => if catchable e then mret None else throw e
            | Ret f =>
                let cache := files_read_cache l ++ [f] in
                on_ledger (set files_read_cache
                  (if (max_read_cache_files l <? length cache)%nat then tail cache else cache));;
                mret (Some f)
            end
        end
    end.

Definition get_file_from_idx (idx : Z) (read_cache_only : bool) : L (option LedgerFile) :=
  if idx =? 0 then mret None
  else
    l ← ledger;
    match (if read_cache_only then None else List.find (fun f => start_idx f <=? idx) (rev (files l))) with
    | Some f => mret (Some f)
    | None => get_file_from_cache idx
    end.

(** ** Reading *)

(** Every turn but the last advances [idx]. *)
Fixpoint read_range_loop (fuel : nat) (idx to : Z) (read_cache_only : bool) (max_entries_size : option Z) (entries : bytes)
    : L (option bytes) :=
  match fuel with
  | O => throw OutOfFuel
  | S fuel =>
      if negb (idx <=? to) then mret (Some entries)
      else
        f ← get_file_from_idx idx read_cache_only;
        match f with
        | None => mret None
        | Some f =>
            let to_ := Z.min (get_last_idx f) to in
            let max_size := (fun m => u64 (m - Z.of_nat (length entries))) <$> max_entries_size in
            d ← gets lw_disk;
            v ← lift (file_read_entries f idx to_ max_size d);
            match v with
            | None => mret None
            | Some (e, to_read) =>
                if negb (to_read =? to_) then mret (Some (entries ++ e))
                else read_range_loop fuel (u64 (to_ + 1)) to read_cache_only max_entries_size (entries ++ e)
            end
        end
  end.

Definition read_entries_range (from to : Z) (read_cache_only strict : bool) (max_entries_size : option Z) : L (option bytes) :=
  if (from <=? 0) || (to <? from) then mret None
  else
    l ← ledger;
    if (last_idx l <? to) && strict then mret None
    else
      let to := if last_idx l <? to then last_idx l else to in
      read_range_loop (S (S (Z.to_nat (to - from)))) from to read_cache_only max_entries_size [].

Definition read_entry (idx : Z) : L (option bytes) := read_entries_range idx idx false true None.

Definition read_entries (from to : Z) (strict : bool) (max_entries_size : option Z) : L (option bytes) :=
  read_entries_range from to false strict max_entries_size.

(** ** Writing *)

Definition FORCE_LEDGER_CHUNK_AFTER : Z := 1.
Definition FORCE_LEDGER_CHUNK_BEFORE : Z := 2.

(** [get_latest_file], as a position. *)
Definition latest (l : Ledger) : nat := pred (length (files l)).

(** Complete the file being written; the next entry goes to a new one. *)
Definition complete_latest : L unit :=
  l ← ledger;
  on_file (latest l) complete;;
  on_ledger (set require_new_file true).

Definition complete_if (b : bool) : L unit := if b then complete_latest else skip.

(** Open a new file if one is required, and write the entry. *)
Definition append_entry (data : bytes) (committable : bool) : L Z :=
  l ← ledger;
  (if require_new_file l then
     let start := u64 (last_idx l + 1) in
     let is_recovery := from_option (fun r => r <? start) false (recovery_start_idx l) in
     f ← zoom lw_disk (new_LedgerFile (ledger_dir l) start is_recovery);
     on_ledger (fun l => l <| files := files l ++ [f] |> <| require_new_file := false |>)
   else skip);;
  l ← ledger;
  idx ← on_file (latest l) (file_write_entry data committable);
  on_ledger (set last_idx idx);;
  mret idx.

Definition write_entry (data : bytes) (committable : bool) : L Z :=
  header ← lift (snd (peek 8 data));
  let flags := entry_flags_of header in
  l ← ledger;
  complete_if (negb (Z.land flags FORCE_LEDGER_CHUNK_BEFORE =? 0) && negb (length (files l) =? 0)%nat);;
  let force_chunk_after := negb (Z.land flags FORCE_LEDGER_CHUNK_AFTER =? 0) in
  if force_chunk_after && negb committable then throw (LogicError "Ledger chunks cannot end in a non-committable transaction")
  else
    idx ← append_entry data committable;
    l ← ledger;
    complete_if (committable && (force_chunk_after || from_option (fun f => chunk_threshold l <=? total_len f) false (files l !! latest l)));;
    mret idx.

(** ** Truncating *)

Definition erase (i : nat) (l : Ledger) : Ledger := l <| files := delete i (files l) |>.

(** The loop over [n] files from position [i] on; the flag says whether this is the first turn. *)
Fixpoint truncate_loop (n i : nat) (is_first : bool) (idx : Z) : L unit :=
  match n with
  | O => skip
  | S n =>
      l ← ledger;
      let truncate_idx := if is_first then idx else from_option (fun f => u64 (start_idx f - 1)) 0 (files l !! i) in
      removed ← on_file i (file_truncate truncate_idx);
      if (removed : bool) then on_ledger (erase i);; truncate_loop n i false idx
      else on_ledger (set require_new_file false);; truncate_loop n (S i) false idx
  end.

(** A loop from one iterator to the one behind another is undefined when it leaves the list. *)
Definition in_range (f_from f_to : nat) (l : Ledger) : bool := ((f_to <? length (files l)) && (f_from <=? S f_to))%nat.

Definition truncate (idx : Z) : L unit :=
  l ← ledger;
  if (last_idx l <=? idx) || (idx <? committed_idx l) then skip
  else
    on_ledger (set require_new_file true);;
    let f_from := get_it_contains_idx (files l) (u64 (idx + 1)) in
    let f_to := get_it_contains_idx (files l) (last_idx l) in
    if negb (in_range f_from f_to l) then throw UndefinedBehaviour
    else
      truncate_loop (S f_to - f_from) f_from true idx;;
      on_ledger (set last_idx idx).

(** ** Committing *)

(** The loop over [n] files from position [i] on; the last of them is the one that holds [idx]. *)
Fixpoint commit_loop (n i : nat) (idx : Z) : L unit :=
  match n with
  | O => skip
  | S n =>
      l ← ledger;
      let last_idx_in_file := from_option get_last_idx 0 (files l !! i) in
      let is_to := (n =? 0)%nat in
      let commit_idx := if is_to then idx else last_idx_in_file in
      done ← on_file i (file_commit commit_idx);
      if (done : bool) && (negb is_to || (idx =? last_idx_in_file)) then
        on_ledger (set end_of_committed_files_idx last_idx_in_file);; on_ledger (erase i);; commit_loop n i idx
      else commit_loop n (S i) idx
  end.

Definition commit (idx : Z) : L unit :=
  l ← ledger;
  if (idx <=? committed_idx l) || (last_idx l <? idx) then skip
  else
    let f_from := get_it_contains_idx (files l) (if committed_idx l =? 0 then 1 else committed_idx l) in
    let f_to := get_it_contains_idx (files l) idx in
    if negb (in_range f_from f_to l) then throw UndefinedBehaviour
    else
      commit_loop (S f_to - f_from) f_from idx;;
      on_ledger (set committed_idx idx).

Definition is_in_committed_file (l : Ledger) (idx : Z) : bool := idx <=? end_of_committed_files_idx l.

(** ** Starting, and recovery *)

Definition ignore_ledger_file (name : string) : L unit :=
  if is_ledger_file_name_ignored name then skip
  else
    l ← ledger;
    zoom lw_disk (rename_path (ledger_dir l) name (name +:+ "." +:+ ledger_ignored_file_suffix)).

(** Files are ignored by renaming them; the condition evaluates the start index of committed files only. *)
Definition init (idx recovery_start : Z) : L unit :=
  w ← get;
  foreach (directory_iterator (ledger_dir (lw_ledger w)) (lw_disk w)) (fun name =>
    ignored ← (if negb (is_ledger_file_name_committed name) then mret true
               else start ← lift (get_start_idx_from_file_name name); mret (idx <? start));
    if (ignored : bool) then ignore_ledger_file name else skip);;
  on_ledger (fun l => l <| files := [] |> <| require_new_file := true |> <| last_idx := idx |> <| committed_idx := idx |>);;
  if 0 <? recovery_start then on_ledger (set recovery_start_idx (Some recovery_start)) else skip.

Fixpoint complete_recovery_loop (n i : nat) : L unit :=
  match n with
  | O => skip
  | S n =>
      l ← ledger;
      if from_option recovery false (files l !! i) then
        on_file i file_open;;
        if from_option lf_committed false (files l !! i) then on_ledger (erase i);; complete_recovery_loop n i
        else complete_recovery_loop n (S i)
      else complete_recovery_loop n (S i)
  end.

Definition complete_recovery : L unit :=
  l ← ledger;
  complete_recovery_loop (length (files l)) 0;;
  on_ledger (set recovery_start_idx None).

Definition set_recovery_start_idx (idx : Z) : L unit := on_ledger (set recovery_start_idx (Some idx)).

(** ** The constructor *)

Definition max_chunk_threshold_size : Z := 2 ^ 32 - 1.

(** One file of a read-only directory: the index up to which the ledger is known to be committed. *)
Definition visit_read_only (name : string) : L unit :=
  last_idx_ ← lift (get_last_idx_from_file_name name);
  match last_idx_ with
  | None => skip
  | Some i =>
      if negb (is_ledger_file_name_committed name) || is_ledger_file_name_ignored name then skip
      else on_ledger (fun l => if last_idx l <? i then l <| last_idx := i |> <| committed_idx := i |> <| end_of_committed_files_idx := i |> else l)
  end.

(** Cut a recovered file behind the last entry that could be read; nothing is left of a file without entries. *)
Definition truncate_recovered (f : LedgerFile) : L (option LedgerFile) := fun w =>
  match file_truncate (get_last_idx f) (MkFileWorld f (lw_disk w)) with
  | (fw, Ret removed) => (w <| lw_disk := fw_disk fw |>, Ret (if (removed : bool) then None else Some (fw_file fw)))
  | (fw, Throw e) => (w <| lw_disk := fw_disk fw |>, Throw e)
  end.

(** One file of the main directory. *)
Definition recover_main (name : string) : L unit :=
  if is_ledger_file_name_recovery name || is_ledger_file_name_ignored name then ignore_ledger_file name
  else
    w ← get;
    f ← catch (f ← lift (recover_LedgerFile (ledger_dir (lw_ledger w)) name (lw_disk w)); truncate_recovered f) (fun _ => mret None);
    match f with
    | None => skip
    | Some f => on_ledger (fun l => l <| files := files l ++ [f] |>)
    end.

(** [std::list::sort] by last index, which is stable. *)
Fixpoint insert_file (f : LedgerFile) (fs : list LedgerFile) : list LedgerFile :=
  match fs with
  | [] => [f]
  | g :: fs => if get_last_idx f <=? get_last_idx g then f :: g :: fs else g :: insert_file f fs
  end.

Definition sort_files (fs : list LedgerFile) : list LedgerFile := foldr insert_file [] fs.

(** Committed files are only read. *)
Definition drop_committed (l : Ledger) : Ledger :=
  let c := foldl (fun c f => if lf_committed f && (c.1 <? get_last_idx f) then (get_last_idx f, get_last_idx f) else c)
    (committed_idx l, end_of_committed_files_idx l) (files l) in
  l <| committed_idx := c.1 |> <| end_of_committed_files_idx := c.2 |> <| files := List.filter (fun f => negb (lf_committed f)) (files l) |>.

Definition new_Ledger : L unit :=
  w ← get;
  let l := lw_ledger w in
  if (chunk_threshold l =? 0) || (max_chunk_threshold_size <? chunk_threshold l) then throw (LogicError "Ledger chunk threshold")
  else
    foreach (read_ledger_dirs l) (fun dir =>
      d ← gets lw_disk;
      if negb (bool_decide (dir ∈ directories d)) then throw (LogicError "read-only ledger is not a directory")
      else foreach (directory_iterator dir d) visit_read_only);;
    d ← gets lw_disk;
    if bool_decide (ledger_dir l ∈ directories d) then
      foreach (directory_iterator (ledger_dir l) d) recover_main;;
      l ← ledger;
      if (length (files l) =? 0)%nat then on_ledger (set require_new_file true)
      else
        on_ledger (fun l => l <| files := sort_files (files l) |>);;
        l ← ledger;
        let main_ledger_dir_last_idx := from_option get_last_idx 0 (last (files l)) in
        (if last_idx l <? main_ledger_dir_last_idx then on_ledger (set last_idx main_ledger_dir_last_idx) else skip);;
        on_ledger drop_committed;;
        on_ledger (fun l => l <| require_new_file := from_option completed true (last (files l)) |>)
    else
      zoom lw_disk (modify (fun d => d <| directories := {[ ledger_dir l ]} ∪ directories d |>));;
      on_ledger (set require_new_file true).

(** A ledger object as the constructor starts with it. *)
Definition blank_Ledger (dir : string) (read_dirs : list string) (threshold : Z) (max_cache : nat) : Ledger :=
  MkLedger dir read_dirs [] max_cache [] threshold 0 0 0 false None [] [].

(** ** Requests of the enclave *)

Context (max_message_size : Z).

Definition write_ledger_get_range_response (from_idx to_idx : Z) (entries : option bytes) (purpose : Purpose) : L unit :=
  on_ledger (fun l => l <| sent := sent l ++ [MkRangeResponse from_idx to_idx purpose entries] |>).

Definition write_ledger_range_response_metadata_size : Z := 2048.

(** Read and answer: without asynchrony, and in the callback of a job. *)
Definition respond_range (from_idx to_idx : Z) (purpose : Purpose) : L unit :=
  let strict := negb (bool_decide (purpose = Recovery)) in
  let max_entries_size := u64 (max_message_size - write_ledger_range_response_metadata_size) in
  entries ← read_entries from_idx to_idx strict (Some max_entries_size);
  write_ledger_get_range_response from_idx to_idx entries purpose.

Definition handle_get_range (from_idx to_idx : Z) (purpose : Purpose) : L unit :=
  l ← ledger;
  if is_in_committed_file l to_idx
  then on_ledger (fun l => l <| jobs := jobs l ++ [MkAsyncLedgerGet from_idx to_idx purpose] |>)
  else respond_range from_idx to_idx purpose.

(** The work of a job: what it reads is kept by the job, but not used by its callback. *)
Definition on_ledger_get_async (job : AsyncLedgerGet) : L (option bytes) :=
  read_entries_range (job_from job) (job_to job) true true None.

Definition on_ledger_get_async_complete (i : nat) : L unit :=
  l ← ledger;
  match jobs l !! i with
  | None => skip
  | Some job =>
      respond_range (job_from job) (job_to job) (job_purpose job);;
      on_ledger (fun l => l <| jobs := delete i (jobs l) |>)
  end.

(** Run a reader on the arguments of a message. *)
Definition arguments {A} (r : Reader A) (data : bytes) : L (A * bytes) := lift (match r data with (rest, Ret a) => Ret (a, rest) | (_, Throw e) => Throw e end).

Inductive HostMessage := ledger_init | ledger_append | ledger_truncate | ledger_commit | ledger_open | ledger_get_range.

Definition purpose_of (v : Z) : Purpose := if v =? 0 then Recovery else HistoricalQuery.

(** The handlers, by message. *)
Definition handle_message (m : HostMessage) (data : bytes) : L unit :=
  match m with
  | ledger_init =>
      '(idx, data) ← arguments (read 8) data;
      '(recovery_start, _) ← arguments (read 8) data;
      init idx recovery_start
  | ledger_append =>
      '(committable, data) ← arguments (read 1) data;
      _ ← write_entry data (negb (committable =? 0)); skip
  | ledger_truncate =>
      '(idx, data) ← arguments (read 8) data;
      '(recovery_mode, _) ← arguments (read 1) data;
      truncate idx;;
      if negb (recovery_mode =? 0) then set_recovery_start_idx idx else skip
  | ledger_commit =>
      '(idx, _) ← arguments (read 8) data;
      commit idx
  | ledger_open => complete_recovery
  | ledger_get_range =>
      vs ← lift (deserialize [SInt 8; SInt 8; SInt 1] data);
      match vs with
      | [VInt from_idx; VInt to_idx; VInt purpose] => handle_get_range from_idx to_idx (purpose_of purpose)
      | _ => skip
      end
  end.
End ledger.
