(* ===== verification/LedgerNames.v ===== *)
(** The names of ledger files: what is written into a name is read back from it. *)

From Stdlib Require Import Ascii String.
From S2P Require Import Prelude Serialized LedgerFile.

Local Open Scope string_scope.
Local Open Scope list_scope.
Local Open Scope Z_scope.

#[local] Arguments String.append !_ _ / : simpl nomatch.

(** ** Suffixes *)

Lemma string_length_app (a b : string) : String.length (a +:+ b) = (String.length a + String.length b)%nat.
Proof. induction a as [|c a IH]; cbn; [done|]. by rewrite IH. Qed.

Lemma string_app_assoc (a b c : string) : (a +:+ b) +:+ c = a +:+ (b +:+ c).
Proof. induction a as [|x a IH]; cbn; [done|]. by rewrite IH. Qed.

Lemma string_app_nil (a : string) : a +:+ "" = a.
Proof. induction a as [|x a IH]; cbn; [done|]. by rewrite IH. Qed.

Lemma substring_all (b : string) : substring 0 (String.length b) b = b.
Proof. induction b as [|c b IH]; cbn; [done|]. by rewrite IH. Qed.

Lemma substring_suffix (a b : string) : substring (String.length a) (String.length b) (a +:+ b) = b.
Proof. induction a as [|c a IH]; cbn; [apply substring_all|done]. Qed.

Lemma substring_shift (a b : string) n m : substring (String.length a + n) m (a +:+ b) = substring n m b.
Proof. induction a as [|c a IH]; cbn; done. Qed.

Lemma substring_prefix (a b : string) : substring 0 (String.length a) (a +:+ b) = a.
Proof. induction a as [|c a IH]; cbn; [by destruct b|]. by rewrite IH. Qed.

Lemma ends_with_app (a suffix : string) : ends_with (a +:+ suffix) suffix = true.
Proof.
  unfold ends_with. rewrite string_length_app, Nat.add_sub, substring_suffix, String.eqb_refl.
  destruct (Nat.leb_spec (String.length suffix) (String.length a + String.length suffix)); [done|lia].
Qed.

(** Only the end matters. *)
Lemma ends_with_tail (a t suffix : string) :
  (String.length suffix <= String.length t)%nat -> ends_with (a +:+ t) suffix = ends_with t suffix.
Proof.
  intros H. unfold ends_with. rewrite string_length_app.
  destruct (Nat.leb_spec (String.length suffix) (String.length a + String.length t)); [|lia].
  destruct (Nat.leb_spec (String.length suffix) (String.length t)); [|lia]. cbn [andb].
  replace (String.length a + String.length t - String.length suffix)%nat
    with (String.length a + (String.length t - String.length suffix))%nat by lia. by rewrite substring_shift.
Qed.

Lemma remove_suffix_app (a suffix : string) : remove_suffix (a +:+ suffix) suffix = a.
Proof. unfold remove_suffix. rewrite ends_with_app, string_length_app, Nat.add_sub. apply substring_prefix. Qed.

(** ** Numbers *)

Fixpoint all_digits (s : string) : bool :=
  match s with EmptyString => true | String c s => match digit_value c with Some _ => all_digits s | None => false end end.

(** What follows a number. *)
Definition no_digit (s : string) : Prop := match s with EmptyString => True | String c _ => digit_value c = None end.

Lemma digit_value_digit (n : Z) : 0 <= n < 10 -> digit_value (digit n) = Some n.
Proof.
  intros H. unfold digit_value, digit. rewrite nat_ascii_embedding by lia.
  replace (Z.of_nat (48 + Z.to_nat n)) with (48 + n) by lia.
  destruct (Z.leb_spec 48 (48 + n)); [|lia]. destruct (Z.leb_spec (48 + n) 57); [|lia]. cbn. f_equal. lia.
Qed.

Lemma parse_digits_app (a b : string) acc : all_digits a = true -> parse_digits (a +:+ b) acc = parse_digits b (parse_digits a acc).
Proof.
  revert acc. induction a as [|c a IH]; intros acc H; cbn in *; [done|]. destruct (digit_value c); [|done]. by apply IH.
Qed.

Lemma parse_digits_stop (s : string) acc : no_digit s -> parse_digits s acc = acc.
Proof. destruct s as [|c s]; cbn; [done|]. by intros ->. Qed.

(** The digits of a number in front of others. *)
Lemma format_digits_spec fuel n acc :
  0 <= n < 10 ^ Z.of_nat fuel -> (0 < fuel)%nat ->
  exists s, format_digits fuel n acc = s +:+ acc /\ all_digits s = true /\ s <> EmptyString /\ parse_digits s 0 = n.
Proof.
  revert n acc. induction fuel as [|fuel IH]; intros n acc Hn Hf; [lia|]. cbn [format_digits].
  pose proof (Z.mod_pos_bound n 10 ltac:(lia)) as Hm. pose proof (digit_value_digit _ Hm) as Hd.
  destruct (Z.ltb_spec n 10) as [Hlt|Hge].
  - exists (String (digit (n `mod` 10)) ""). cbn [all_digits parse_digits]. rewrite Hd, Z.mod_small by lia. done.
  - rewrite Nat2Z.inj_succ, Z.pow_succ_r in Hn by lia.
    destruct (IH (n `div` 10) (String (digit (n `mod` 10)) acc)) as (s & Hs & Hall & Hne & Hv).
    { split; [apply Z.div_pos; lia|]. apply Z.div_lt_upper_bound; lia. }
    { destruct fuel; [|lia]. cbn in Hn. lia. }
    exists (s +:+ String (digit (n `mod` 10)) ""). split_and!.
    + rewrite Hs, string_app_assoc. done.
    + clear -Hall Hd. induction s as [|c s IH]; cbn [all_digits String.append] in *; [by rewrite Hd|].
      destruct (digit_value c); [by apply IH|done].
    + by destruct s.
    + rewrite parse_digits_app, Hv by done. cbn [parse_digits]. rewrite Hd. pose proof (Z.div_mod n 10). lia.
Qed.

Lemma format_idx_spec n :
  0 <= n < 2 ^ 63 -> all_digits (format_idx n) = true /\ format_idx n <> EmptyString /\ parse_digits (format_idx n) 0 = n.
Proof.
  intros Hn. destruct (format_digits_spec 20 n "") as (s & Hs & Hall & Hne & Hv); [|lia|].
  - change (10 ^ Z.of_nat 20) with 100000000000000000000. lia.
  - unfold format_idx. by rewrite Hs, string_app_nil.
Qed.

Lemma digit_not_special (c : ascii) v :
  digit_value c = Some v -> is_space c = false /\ c <> "-"%char /\ c <> "+"%char /\ c <> "_"%char.
Proof.
  unfold digit_value, is_space. destruct (Z.leb_spec 48 (Z.of_nat (nat_of_ascii c))) as [H1|]; [|done].
  destruct (Z.leb_spec (Z.of_nat (nat_of_ascii c)) 57) as [H2|]; [|done]. intros _. split_and!.
  - destruct (Nat.eqb_spec (nat_of_ascii c) 32); [lia|]. destruct (Nat.leb_spec (nat_of_ascii c) 13); [lia|]. by rewrite andb_false_r.
  - intros ->. by apply H1.
  - intros ->. by apply H1.
  - intros ->. by apply H2.
Qed.

Lemma stol_format n rest : 0 <= n < 2 ^ 63 -> no_digit rest -> stol (format_idx n +:+ rest) = Ret n.
Proof.
  intros Hn Hrest. destruct (format_idx_spec n Hn) as (Hall & Hne & Hv). unfold stol.
  destruct (format_idx n) as [|c s]; [done|]. cbn [String.append skip_spaces]. cbn [all_digits] in Hall.
  destruct (digit_value c) as [v|] eqn:Hc; [|done]. destruct (digit_not_special c v Hc) as (-> & Hm & Hp & _).
  rewrite !bool_decide_false by done. rewrite Hc.
  change (String c (s +:+ rest)) with (String c s +:+ rest). rewrite parse_digits_app, Hv by (cbn; by rewrite Hc).
  rewrite parse_digits_stop by done.
  destruct (Z.leb_spec (- 2 ^ 63) n); [|lia]. destruct (Z.ltb_spec n (2 ^ 63)); [|lia]. cbn. f_equal. apply u64_small. unfold u64_modulus. lia.
Qed.

Lemma after_digits c (s rest : string) :
  all_digits s = true -> digit_value c = None -> after c (s +:+ rest) = after c rest.
Proof.
  intros H Hc. induction s as [|x s IH]; [done|]. cbn in *. destruct (digit_value x) eqn:E; [|done].
  rewrite bool_decide_false by congruence. by apply IH.
Qed.

(** ** The last character *)

Fixpoint last_char (s : string) : option ascii :=
  match s with EmptyString => None | String c EmptyString => Some c | String _ s => last_char s end.

Lemma last_char_app (a b : string) : b <> EmptyString -> last_char (a +:+ b) = last_char b.
Proof. intros Hb. induction a as [|c a IH]; cbn; [done|]. destruct a, b; done. Qed.

Lemma substring_split (s : string) n m : (n + m = String.length s)%nat -> s = substring 0 n s +:+ substring n m s.
Proof.
  revert n m. induction s as [|c s IH]; intros n m H; cbn in H.
  - assert (n = 0 /\ m = 0)%nat as [-> ->] by lia. done.
  - destruct n as [|n]; cbn.
    + destruct m; [done|]. cbn. f_equal. rewrite <- (substring_all s) at 1. f_equal. lia.
    + f_equal. apply IH. lia.
Qed.

Lemma ends_with_last (s suffix : string) : ends_with s suffix = true -> suffix <> EmptyString -> last_char s = last_char suffix.
Proof.
  unfold ends_with. rewrite andb_true_iff, Nat.leb_le, String.eqb_eq. intros [Hle Heq] Hne.
  rewrite (substring_split s (String.length s - String.length suffix) (String.length suffix)) by lia. by rewrite Heq, last_char_app.
Qed.

Lemma digits_last (s : string) : all_digits s = true -> s <> EmptyString -> exists c v, last_char s = Some c /\ digit_value c = Some v.
Proof.
  intros H Hne. induction s as [|c s IH]; [done|]. cbn in H. destruct (digit_value c) as [v|] eqn:E; [|done].
  destruct s as [|c' s]; [by exists c, v|]. destruct (IH H) as (x & y & Hx & Hy); [done|]. exists x, y. done.
Qed.

(** A name that ends in a number has none of the suffixes. *)
Lemma number_no_suffix (a suffix : string) n :
  0 <= n < 2 ^ 63 -> (exists c, last_char suffix = Some c /\ digit_value c = None) -> ends_with (a +:+ format_idx n) suffix = false.
Proof.
  intros Hn (c & Hc & Hd). destruct (format_idx_spec n Hn) as (Hall & Hne & _). destruct (digits_last _ Hall Hne) as (x & v & Hx & Hv).
  destruct (ends_with (a +:+ format_idx n) suffix) eqn:E; [|done]. apply ends_with_last in E; [|by intros ->].
  rewrite last_char_app, Hx, Hc in E by done. congruence.
Qed.

(** ** New and committed files *)

#[local] Arguments format_idx : simpl never.

Definition recovery_suffix (rec : bool) : string := if rec then ".recovery" else "".

Lemma new_name_eq s r : new_file_name s r = "ledger_" +:+ (format_idx s +:+ recovery_suffix r).
Proof.
  unfold new_file_name, file_name_prefix. destruct r; cbn; [done|]. by rewrite string_app_nil.
Qed.

Lemma committed_name_eq s l r :
  committed_file_name s l r = "ledger_" +:+ (format_idx s +:+ ("-" +:+ (format_idx l +:+ (".committed" +:+ recovery_suffix r)))).
Proof. unfold committed_file_name, file_name_prefix. destruct r; cbn; [|done]. rewrite !string_app_assoc. cbn. by rewrite !string_app_assoc. Qed.

Lemma start_after_prefix (x : string) : after ledger_start_idx_delimiter ("ledger_" +:+ x) = Some x.
Proof. reflexivity. Qed.

Lemma last_after_prefix (x : string) : after ledger_last_idx_delimiter ("ledger_" +:+ x) = after ledger_last_idx_delimiter x.
Proof. reflexivity. Qed.

Lemma after_hyphen (x : string) : after ledger_last_idx_delimiter ("-" +:+ x) = Some x.
Proof. reflexivity. Qed.

Lemma recovery_no_digit r : no_digit (recovery_suffix r).
Proof. by destruct r. Qed.

Lemma new_name_start s r : 0 <= s < 2 ^ 63 -> get_start_idx_from_file_name (new_file_name s r) = Ret s.
Proof.
  intros H. rewrite new_name_eq. unfold get_start_idx_from_file_name. rewrite start_after_prefix.
  apply stol_format; [done|apply recovery_no_digit].
Qed.

Lemma new_name_last s r : 0 <= s < 2 ^ 63 -> get_last_idx_from_file_name (new_file_name s r) = Ret None.
Proof.
  intros H. rewrite new_name_eq. unfold get_last_idx_from_file_name. destruct (format_idx_spec s H) as (Hall & _ & _).
  rewrite last_after_prefix, after_digits by done. by destruct r.
Qed.

Lemma committed_name_start s l r : 0 <= s < 2 ^ 63 -> get_start_idx_from_file_name (committed_file_name s l r) = Ret s.
Proof. intros H. rewrite committed_name_eq. unfold get_start_idx_from_file_name. rewrite start_after_prefix. by apply stol_format. Qed.

Lemma committed_name_last s l r :
  0 <= s < 2 ^ 63 -> 0 <= l < 2 ^ 63 -> get_last_idx_from_file_name (committed_file_name s l r) = Ret (Some l).
Proof.
  intros Hs Hl. rewrite committed_name_eq. unfold get_last_idx_from_file_name. destruct (format_idx_spec s Hs) as (Hall & _ & _).
  rewrite last_after_prefix, after_digits, after_hyphen by done. by rewrite stol_format.
Qed.

Lemma new_name_flags s r : 0 <= s < 2 ^ 63 ->
  is_ledger_file_name_committed (new_file_name s r) = false /\ is_ledger_file_name_ignored (new_file_name s r) = false /\
  is_ledger_file_name_recovery (new_file_name s r) = r.
Proof.
  intros H. rewrite new_name_eq.
  unfold is_ledger_file_name_committed, is_ledger_file_name_ignored, is_ledger_file_name_recovery.
  destruct r; cbn [recovery_suffix].
  - rewrite <- string_app_assoc. rewrite !ends_with_tail by (cbn; lia). done.
  - rewrite string_app_nil.
    split_and!; (apply number_no_suffix; [done|]; eexists; split; [reflexivity|done]).
Qed.

Lemma committed_name_flags s l r :
  is_ledger_file_name_committed (committed_file_name s l r) = negb r /\ is_ledger_file_name_ignored (committed_file_name s l r) = false /\
  is_ledger_file_name_recovery (committed_file_name s l r) = r.
Proof.
  rewrite committed_name_eq.
  unfold is_ledger_file_name_committed, is_ledger_file_name_ignored, is_ledger_file_name_recovery.
  replace ("ledger_" +:+ (format_idx s +:+ ("-" +:+ (format_idx l +:+ (".committed" +:+ recovery_suffix r)))))
    with (("ledger_" +:+ (format_idx s +:+ ("-" +:+ format_idx l))) +:+ (".committed" +:+ recovery_suffix r)) by (by rewrite !string_app_assoc).
  rewrite !(ends_with_tail _ (".committed" +:+ recovery_suffix r)) by (destruct r; cbn; lia). by destruct r.
Qed.

Lemma new_name_open s : remove_recovery_suffix (new_file_name s true) = new_file_name s false.
Proof. rewrite !new_name_eq. cbn [recovery_suffix]. rewrite string_app_nil, <- string_app_assoc. apply remove_suffix_app. Qed.

Lemma committed_name_open s l : remove_recovery_suffix (committed_file_name s l true) = committed_file_name s l false.
Proof.
  rewrite !committed_name_eq. cbn [recovery_suffix]. rewrite string_app_nil.
  replace ("ledger_" +:+ (format_idx s +:+ ("-" +:+ (format_idx l +:+ (".committed" +:+ ".recovery")))))
    with (("ledger_" +:+ (format_idx s +:+ ("-" +:+ (format_idx l +:+ ".committed")))) +:+ ".recovery") by (by rewrite !string_app_assoc).
  apply remove_suffix_app.
Qed.
