(* ===== verification/LedgerFileProps.v ===== *)
(** What a ledger file holds, and that its operations keep it: a file with header, entries and position table
    is a list of entries that can be appended to, cut and read by index. *)

From Stdlib Require Import String.
From S2P Require Import Prelude Serialized LedgerFile.

Abbreviation len l := (Z.of_nat (length l)).

(** ** The disk *)

Lemma contents_set d i j c :
  (i < length (inodes d))%nat -> contents (set_contents i c d) j = if decide (i = j) then c else contents d j.
Proof.
  intros Hi. unfold contents, set_contents. cbn. destruct (decide (i = j)) as [->|H].
  - by rewrite list_lookup_insert_eq.
  - by rewrite list_lookup_insert_ne.
Qed.

Lemma length_set d i c : length (inodes (set_contents i c d)) = length (inodes d).
Proof. unfold set_contents. cbn. apply length_insert. Qed.

Lemma names_set d i c : names (set_contents i c d) = names d.
Proof. done. Qed.

Lemma set_set d i c c' : set_contents i c' (set_contents i c d) = set_contents i c' d.
Proof. unfold set_contents. destruct d as [dirs ns ins]. unfold set. cbn. by rewrite list_insert_insert_eq. Qed.

Lemma overlay_end (c data : bytes) : overlay (length c) data c = c ++ data.
Proof.
  unfold overlay. rewrite firstn_all, Nat.sub_diag, drop_ge by lia. cbn. by rewrite app_nil_r.
Qed.

Lemma overlay_start (h c : bytes) : overlay 0 h c = h ++ drop (length h) c.
Proof. done. Qed.

(** ** Offsets *)

Definition size_of (es : list bytes) : Z := len (concat es).

Lemma size_app es es' : size_of (es ++ es') = size_of es + size_of es'.
Proof. unfold size_of. rewrite concat_app, length_app. lia. Qed.

Lemma size_nonneg es : 0 <= size_of es.
Proof. unfold size_of. lia. Qed.

Fixpoint offsets (o : Z) (es : list bytes) : list Z :=
  match es with
  | [] => []
  | e :: es => o :: offsets (o + len e) es
  end.

Lemma length_offsets o es : length (offsets o es) = length es.
Proof. revert o. induction es as [|e es IH]; intros o; cbn; [done|]. by rewrite IH. Qed.

Lemma offsets_app o es es' : offsets o (es ++ es') = offsets o es ++ offsets (o + size_of es) es'.
Proof.
  revert o. induction es as [|e es IH]; intros o; cbn; [by rewrite Z.add_0_r|]. rewrite IH. do 3 f_equal.
  unfold size_of. cbn. rewrite length_app. lia.
Qed.

Lemma offsets_take o es n : offsets o (take n es) = take n (offsets o es).
Proof. revert o n. induction es as [|e es IH]; intros o [|n]; cbn; [done..|]. by rewrite IH. Qed.

Lemma offsets_lookup o es k : (k < length es)%nat -> offsets o es !! k = Some (o + size_of (take k es)).
Proof.
  revert o k. induction es as [|e es IH]; intros o [|k] Hk; cbn in *; [lia..|by rewrite Z.add_0_r|].
  rewrite IH by lia. f_equal. unfold size_of. cbn. rewrite length_app. lia.
Qed.

Lemma offsets_bounds o es p : p ∈ offsets o es -> o <= p <= o + size_of es.
Proof.
  revert o. induction es as [|e es IH]; intros o H; cbn in H; [by apply not_elem_of_nil in H|].
  assert (size_of (e :: es) = len e + size_of es) as -> by (unfold size_of; cbn; rewrite length_app; lia).
  apply elem_of_cons in H as [->|H]; [pose proof (size_nonneg es); lia|]. apply IH in H. lia.
Qed.

(** ** What a file holds *)

#[global] Arguments zeros : simpl never.
#[global] Arguments set_contents : simpl never.
#[global] Arguments le_encode : simpl never.

Definition nonempty (e : bytes) : Prop := e <> [].

(** The bytes of a file with the entries [es]. *)
Definition image (complete : bool) (es : list bytes) : bytes :=
  if complete then le_encode 8 (8 + size_of es) ++ concat es ++ table_bytes (offsets 8 es)
  else zeros 8 ++ concat es.

#[global] Arguments image : simpl never.

Record holds (d : Disk) (f : LedgerFile) (es : list bytes) : Prop := {
  h_inode : (file f < length (inodes d))%nat;
  h_positions : positions f = offsets 8 es;
  h_total : total_len f = 8 + size_of es;
  h_small : 8 + size_of es < 2 ^ 32;
  h_start : 1 <= start_idx f;
  h_last : start_idx f + len es < 2 ^ 63;
  h_nonempty : Forall nonempty es;
  h_contents : contents d (file f) = image (completed f) es \/ (es = [] /\ completed f = false /\ contents d (file f) = [])
}.

Lemma file_holds_last d f es : holds d f es -> get_last_idx f = start_idx f + len es - 1.
Proof.
  intros H. unfold get_last_idx. rewrite (h_positions _ _ _ H), length_offsets.
  pose proof (h_start _ _ _ H). pose proof (h_last _ _ _ H). apply u64_small. unfold u64_modulus. lia.
Qed.

Lemma holds_position d f es i :
  holds d f es -> start_idx f <= i < start_idx f + len es ->
  position_at f (u64 (i - start_idx f)) = Ret (8 + size_of (take (Z.to_nat (i - start_idx f)) es)).
Proof.
  intros H Hi. pose proof (h_start _ _ _ H). pose proof (h_last _ _ _ H). unfold position_at.
  rewrite u64_small by (unfold u64_modulus; lia). rewrite (h_positions _ _ _ H), offsets_lookup by lia. done.
Qed.

(** Another disk with the same contents. *)
Lemma holds_disk d d' f es :
  holds d f es -> contents d' (file f) = contents d (file f) -> (length (inodes d) <= length (inodes d'))%nat -> holds d' f es.
Proof. intros [] Hc Hl. split; try done; [lia|]. by rewrite Hc. Qed.

(** The part of the image where the entries are. *)
Lemma image_entries c es : exists h t, image c es = h ++ concat es ++ t /\ length h = 8%nat.
Proof.
  unfold image. destruct c; [exists (le_encode 8 (8 + size_of es)), (table_bytes (offsets 8 es))|exists (zeros 8), []]; [done|].
  by rewrite app_nil_r.
Qed.

(** ** Writing *)

(** The same file under the same name. *)
Definition kept (f f' : LedgerFile) : Prop :=
  file f' = file f /\ start_idx f' = start_idx f /\ lf_dir f' = lf_dir f /\ file_name f' = file_name f /\
  lf_committed f' = lf_committed f /\ recovery f' = recovery f.

Lemma write_entry_holds d f es data c :
  holds d f es -> completed f = false -> nonempty data -> 8 + size_of es + len data < 2 ^ 32 -> start_idx f + len es + 1 < 2 ^ 63 ->
  exists f', file_write_entry data c (MkFileWorld f d) =
    (MkFileWorld f' (set_contents (file f) (image false (es ++ [data])) d), Ret (start_idx f + len es)) /\
    holds (set_contents (file f) (image false (es ++ [data])) d) f' (es ++ [data]) /\
    completed f' = false /\ kept f f'.
Proof.
  intros H Hc Hne Hsmall Hidx. pose proof (h_inode _ _ _ H) as Hi. pose proof (h_total _ _ _ H) as Ht. pose proof (size_nonneg es) as Hs.
  assert (length data <> 0)%nat as Hlen by (destruct data; [done|cbn; lia]).
  assert (write_at (file f) (total_len f) data d = set_contents (file f) (image false (es ++ [data])) d) as Hw.
  { unfold write_at. destruct (Nat.eqb_spec (length data) 0); [done|]. f_equal. unfold image. rewrite concat_app. cbn [concat]. rewrite app_nil_r.
    destruct (h_contents _ _ _ H) as [Hcon|(-> & _ & Hcon)]; rewrite Hcon.
    - rewrite Hc. unfold image. replace (Z.to_nat (total_len f)) with (length (zeros 8 ++ concat es)).
      + rewrite overlay_end. by rewrite app_assoc.
      + rewrite Ht, length_app. unfold size_of, zeros. rewrite length_replicate. lia.
    - rewrite Ht. cbn. unfold overlay. cbn. by rewrite drop_nil, app_nil_r. }
  exists (f <| positions := offsets 8 (es ++ [data]) |> <| total_len := 8 + size_of (es ++ [data]) |>).
  assert (size_of (es ++ [data]) = size_of es + len data) as Hsz by (rewrite size_app; unfold size_of at 2; cbn; by rewrite app_nil_r).
  split.
  - unfold file_write_entry, mbind, ST_bind, get, zoom, modify, mret, ST_ret, set, update_field. destruct f as [dir name ino start total ps comp com rec]; cbn in *.
    destruct (Nat.eqb_spec (length data) 0); [done|]. cbn. rewrite Hw.
    rewrite (u32_small total) by lia. rewrite (u64_small (total + _)) by (unfold u64_modulus; lia).
    pose proof (h_positions _ _ _ H) as Hps. cbn in Hps. rewrite Hps. rewrite offsets_app, Hsz, Ht. unfold get_last_idx. cbn.
    rewrite length_app, length_offsets. cbn. rewrite u64_small by (pose proof (h_start _ _ _ H); cbn in *; unfold u64_modulus; lia).
    rewrite Z.add_assoc. f_equal. f_equal. lia.
  - split; [|done]. cbn.
    split; cbn.
    + by rewrite length_set.
    + done.
    + done.
    + lia.
    + apply H.
    + rewrite length_app. cbn. lia.
    + apply Forall_app. split; [apply H|by constructor].
    + left. rewrite contents_set, decide_True by done. by rewrite Hc.
Qed.

(** ** Completing *)

Lemma table_nonempty es : es <> [] -> length (table_bytes (offsets 8 es)) <> 0%nat.
Proof. destruct es as [|e es]; [done|]. intros _. unfold table_bytes. cbn. rewrite length_app, le_encode_length. lia. Qed.

Lemma complete_holds d f es :
  holds d f es -> es <> [] ->
  exists f' d', complete (MkFileWorld f d) = (MkFileWorld f' d', Ret tt) /\ holds d' f' es /\ completed f' = true /\ kept f f' /\
    (d' = d \/ d' = set_contents (file f) (image true es) d).
Proof.
  intros H Hne. destruct (completed f) eqn:Hc.
  { exists f, d. unfold complete, mbind, ST_bind, get. cbn. rewrite Hc. unfold kept. split_and!; try done. by left. }
  pose proof (h_inode _ _ _ H) as Hi. pose proof (h_total _ _ _ H) as Ht. pose proof (size_nonneg es) as Hs.
  exists (f <| completed := true |>), (set_contents (file f) (image true es) d).
  destruct (h_contents _ _ _ H) as [Hcon|(-> & _ & _)]; [|done]. rewrite Hc in Hcon.
  assert (write_at (file f) 0 (le_encode 8 (total_len f)) (write_at (file f) (total_len f) (table_bytes (positions f)) d) =
    set_contents (file f) (image true es) d) as Hw.
  { unfold write_at. rewrite (h_positions _ _ _ H), le_encode_length. cbn [Nat.eqb].
    destruct (Nat.eqb_spec (length (table_bytes (offsets 8 es))) 0) as [E|_]; [by apply table_nonempty in E|].
    rewrite contents_set, decide_True, set_set by done. f_equal. rewrite Hcon.
    replace (Z.to_nat (total_len f)) with (length (image false es)).
    - rewrite overlay_end, overlay_start, le_encode_length, Ht. unfold image. done.
    - rewrite Ht. unfold image, size_of, zeros. rewrite length_app, length_replicate. lia. }
  split_and!; [| |done|done|by right].
  - unfold complete, mbind, ST_bind, get, zoom, modify, assign, set, update_field. destruct f as [dir name ino start total ps comp com rec]; cbn in *.
    rewrite Hc. cbn. by rewrite Hw.
  - split; cbn; try apply H.
    + by rewrite length_set.
    + left. by rewrite contents_set, decide_True.
Qed.

(** ** Cutting *)

Lemma image_cut c es k :
  take (8 + Z.to_nat (size_of (take k es))) (zeros 8 ++ drop 8 (image c es)) = image false (take k es).
Proof.
  destruct (image_entries c es) as (h & t & -> & Hh). replace (drop 8 (h ++ concat es ++ t)) with (concat es ++ t) by (by rewrite <- Hh, drop_app_length). unfold image.
  rewrite <- (take_drop k es) at 2. rewrite concat_app, <- app_assoc.
  replace (8 + Z.to_nat (size_of (take k es)))%nat with (length (zeros 8 ++ concat (take k es))).
  - rewrite app_assoc. by rewrite take_app_length.
  - rewrite length_app. unfold zeros, size_of. rewrite length_replicate. lia.
Qed.

Lemma length_image c es : (8 + Z.to_nat (size_of es) <= length (image c es))%nat.
Proof. destruct (image_entries c es) as (h & t & -> & Hh). rewrite !length_app. unfold size_of. lia. Qed.

Lemma size_take_le es k : size_of (take k es) <= size_of es.
Proof. rewrite <- (take_drop k es) at 2. rewrite size_app. pose proof (size_nonneg (drop k es)). lia. Qed.

(** Cutting inside the file leaves the entries up to the index. *)
Lemma truncate_holds d f es idx :
  holds d f es -> lf_committed f = false -> start_idx f <= idx < start_idx f + len es - 1 ->
  let es' := take (Z.to_nat (idx - start_idx f + 1)) es in
  exists f', file_truncate idx (MkFileWorld f d) = (MkFileWorld f' (set_contents (file f) (image false es') d), Ret false) /\
    holds (set_contents (file f) (image false es') d) f' es' /\ completed f' = false /\ kept f f'.
Proof.
  intros H Hcom Hidx es'. pose proof (file_holds_last _ _ _ H) as Hlast. pose proof (h_start _ _ _ H) as Hst. pose proof (h_last _ _ _ H) as Hla.
  pose proof (h_inode _ _ _ H) as Hi. pose proof (size_nonneg es) as Hs.
  assert (position_at f (u64 (idx - start_idx f + 1)) = Ret (8 + size_of es')) as Hp.
  { replace (idx - start_idx f + 1) with (idx + 1 - start_idx f) by lia. rewrite (holds_position d f es) by (done || lia).
    unfold es'. by replace (idx + 1 - start_idx f) with (idx - start_idx f + 1) by lia. }
  assert (contents d (file f) = image (completed f) es) as Hcon by (destruct (h_contents _ _ _ H) as [?|(-> & _)]; [done|cbn in *; lia]).
  assert (ftruncate (file f) (8 + size_of es') (write_at (file f) 0 (le_encode 8 0) d) = set_contents (file f) (image false es') d) as Hw.
  { unfold ftruncate, write_at. rewrite le_encode_length. cbn [Nat.eqb]. rewrite contents_set, decide_True, set_set by done. f_equal.
    rewrite overlay_start, Hcon, le_encode_length. change (le_encode 8 0) with (zeros 8).
    replace (Z.to_nat (8 + size_of es')) with (8 + Z.to_nat (size_of es'))%nat by (pose proof (size_nonneg es'); lia).
    unfold es' at 1. rewrite image_cut. pose proof (length_image (completed f) es). pose proof (size_take_le es (Z.to_nat (idx - start_idx f + 1))).
    rewrite length_app, length_drop. unfold zeros. rewrite length_replicate.
    replace (8 + Z.to_nat (size_of es') - (8 + (length (image (completed f) es) - 8)))%nat with 0%nat by (unfold es'; lia).
    cbn. by rewrite app_nil_r. }
  exists (f <| completed := false |> <| total_len := 8 + size_of es' |> <| positions := offsets 8 es' |>). split.
  - unfold file_truncate. unfold mbind at 1, ST_bind at 1, get at 1. cbn [fw_file]. rewrite Hcom. cbn [orb].
    rewrite (u64_small (start_idx f - 1)) by (unfold u64_modulus; lia).
    destruct (Z.ltb_spec idx (start_idx f - 1)); [lia|]. rewrite Hlast.
    destruct (Z.leb_spec (start_idx f + len es - 1) idx); [lia|]. rewrite andb_false_r. cbn [orb].
    destruct (Z.eqb_spec idx (start_idx f - 1)); [lia|]. destruct (Z.eqb_spec idx (start_idx f + len es - 1)); [lia|]. rewrite Hp.
    unfold mbind, ST_bind, zoom, modify, assign, get, set, update_field. cbn.
    rewrite Hw, (u64_small (idx - start_idx f + 1)) by (unfold u64_modulus; lia).
    rewrite (h_positions _ _ _ H). unfold es'. by rewrite offsets_take.
  - split; [|done]. split; cbn.
    + by rewrite length_set.
    + done.
    + done.
    + pose proof (h_small _ _ _ H). pose proof (size_take_le es (Z.to_nat (idx - start_idx f + 1))). unfold es'. lia.
    + done.
    + unfold es'. rewrite length_take. lia.
    + apply Forall_take. apply H.
    + left. by rewrite contents_set, decide_True.
Qed.

(** Cutting before the first entry removes the file. *)
Lemma truncate_removes d f es :
  holds d f es -> lf_committed f = false -> es <> [] -> is_Some (names d !! (lf_dir f, file_name f)) ->
  file_truncate (start_idx f - 1) (MkFileWorld f d) = (MkFileWorld f (d <| names := delete (lf_dir f, file_name f) (names d) |>), Ret true).
Proof.
  intros H Hcom Hne [i Hn]. pose proof (file_holds_last _ _ _ H) as Hlast. pose proof (h_start _ _ _ H) as Hst. pose proof (h_last _ _ _ H) as Hla.
  unfold file_truncate. unfold mbind at 1, ST_bind at 1, get at 1. cbn [fw_file]. rewrite Hcom. cbn [orb].
  rewrite (u64_small (start_idx f - 1)) by (unfold u64_modulus; lia).
  destruct (Z.ltb_spec (start_idx f - 1) (start_idx f - 1)); [lia|]. rewrite Hlast.
  assert (0 < len es) by (destruct es; [done|cbn; lia]).
  destruct (Z.leb_spec (start_idx f + len es - 1) (start_idx f - 1)); [lia|]. rewrite andb_false_r. cbn [orb].
  rewrite Z.eqb_refl. unfold remove_path, mbind, ST_bind, zoom, get, assign, modify, mret, ST_ret, set, update_field. cbn. by rewrite Hn.
Qed.

(** ** Reading *)

Definition slice {A} (k n : nat) (l : list A) : list A := take n (drop k l).

Lemma size_slice es k n : size_of (take (k + n) es) = size_of (take k es) + size_of (slice k n es).
Proof. unfold slice. by rewrite <- take_take_drop, size_app. Qed.

Lemma read_image c es k n :
  take (Z.to_nat (size_of (slice k n es))) (drop (Z.to_nat (8 + size_of (take k es))) (image c es)) = concat (slice k n es).
Proof.
  destruct (image_entries c es) as (h & t & -> & Hh).
  assert (concat es = concat (take k es) ++ concat (slice k n es) ++ concat (drop (k + n) es)) as ->.
  { rewrite <- !concat_app, app_assoc. unfold slice. rewrite take_take_drop. by rewrite take_drop. }
  replace (Z.to_nat (8 + size_of (take k es))) with (length (h ++ concat (take k es))) by (rewrite length_app; unfold size_of; lia).
  rewrite <- !app_assoc. rewrite (app_assoc h), drop_app_length. unfold size_of. by rewrite Nat2Z.id, take_app_length.
Qed.

(** The entries [from .. to] of a file that starts at [start]. *)
Definition range (start from to : Z) (es : list bytes) : list bytes := slice (Z.to_nat (from - start)) (Z.to_nat (to - from + 1)) es.

Lemma positions_difference d f es from to :
  holds d f es -> start_idx f <= from <= to -> to < start_idx f + len es ->
  exists p, position_at f (u64 (from - start_idx f)) = Ret p /\ p = 8 + size_of (take (Z.to_nat (from - start_idx f)) es) /\
    (if to =? get_last_idx f then Ret (total_len f) else position_at f (u64 (to - start_idx f + 1))) =
    Ret (p + size_of (range (start_idx f) from to es)).
Proof.
  intros H Hft Hto. eexists. split; [apply (holds_position d f es); [done|lia]|]. split; [done|].
  unfold range. rewrite <- Z.add_assoc, <- size_slice. rewrite (file_holds_last _ _ _ H).
  replace (Z.to_nat (from - start_idx f) + Z.to_nat (to - from + 1))%nat with (Z.to_nat (to - start_idx f + 1)) by lia.
  destruct (Z.eqb_spec to (start_idx f + len es - 1)) as [->|Hne].
  - rewrite (h_total _ _ _ H), firstn_all2 by lia. done.
  - replace (to - start_idx f + 1) with (to + 1 - start_idx f) by lia. by rewrite (holds_position d f es) by (done || lia).
Qed.

Lemma size_range_le d f es from to : holds d f es -> size_of (range (start_idx f) from to es) < 2 ^ 32.
Proof.
  intros H. pose proof (h_small _ _ _ H). unfold range, slice. pose proof (size_take_le (drop (Z.to_nat (from - start_idx f)) es) (Z.to_nat (to - from + 1))).
  assert (size_of (drop (Z.to_nat (from - start_idx f)) es) <= size_of es); [|lia].
  rewrite <- (take_drop (Z.to_nat (from - start_idx f)) es) at 2. rewrite size_app. pose proof (size_nonneg (take (Z.to_nat (from - start_idx f)) es)). lia.
Qed.

(** The range that is read: all of it unless it is over the limit, then a prefix that fits, and nothing only when the first
    entry does not fit. *)
Definition selects (f : LedgerFile) (es : list bytes) (from to : Z) (max_size : option Z) (r : option Z) : Prop :=
  match r with
  | Some to' => from <= to' <= to /\ from_option (fun m => size_of (range (start_idx f) from to' es) <= m) True max_size /\
      (to' < to -> exists m, max_size = Some m /\ m < size_of (range (start_idx f) from to es))
  | None => exists m, max_size = Some m /\ m < size_of (range (start_idx f) from from es)
  end.

Lemma size_range_first s from mid to es : mid <= to -> size_of (range s from mid es) <= size_of (range s from to es).
Proof.
  intros H. unfold range, slice. replace (Z.to_nat (mid - from + 1)) with (Nat.min (Z.to_nat (mid - from + 1)) (Z.to_nat (to - from + 1))) by lia.
  rewrite <- take_take. apply size_take_le.
Qed.

(** What fits is read as a whole, and what does not fit from its first entry on is not read. *)
Lemma selects_whole f es from to m r :
  from <= to -> selects f es from to (Some m) r -> size_of (range (start_idx f) from to es) <= m -> r = Some to.
Proof.
  intros Hft Hsel Hm. destruct r as [to'|].
  - destruct Hsel as (Hto' & _ & Hover). destruct (decide (to' = to)) as [->|]; [done|]. destruct (Hover ltac:(lia)) as (m' & [= <-] & Hlt). lia.
  - destruct Hsel as (m' & [= <-] & Hlt). pose proof (size_range_first (start_idx f) from from to es ltac:(lia)). lia.
Qed.

Lemma selects_nothing f es from to m r : selects f es from to (Some m) r -> m < size_of (range (start_idx f) from from es) -> r = None.
Proof.
  intros Hsel Hm. destruct r as [to'|]; [|done]. destruct Hsel as (Hto' & Hfit & _). cbn in Hfit.
  pose proof (size_range_first (start_idx f) from from to' es ltac:(lia)). lia.
Qed.

Lemma entries_size_step fuel f from to max_size :
  entries_size_loop (S fuel) f from to max_size =
  match (if to =? get_last_idx f then Ret (total_len f) else position_at f (u64 (to - start_idx f + 1))),
        position_at f (u64 (from - start_idx f)) with
  | Ret position_to, Ret position_from =>
      if from_option (fun m => u64 (position_to - position_from) <=? m) true max_size then Ret (u64 (position_to - position_from), to)
      else if from =? to then Ret (0, 0)
      else entries_size_loop fuel f from (from + (to - from) / 2) max_size
  | Throw e, _ => Throw e
  | _, Throw e => Throw e
  end.
Proof. done. Qed.

Lemma entries_size_spec d f es fuel from to max_size :
  holds d f es -> start_idx f <= from <= to -> to < start_idx f + len es -> to - from < 2 ^ Z.of_nat fuel ->
  exists r, selects f es from to max_size r /\
    entries_size_loop (S fuel) f from to max_size = Ret (match r with Some to' => (size_of (range (start_idx f) from to' es), to') | None => (0, 0) end).
Proof.
  intros H. revert to. induction fuel as [|fuel IH]; intros to Hft Hto Hf.
  all: destruct (positions_difference d f es from to H Hft Hto) as (p & Hp & Hpv & Hq).
  all: rewrite entries_size_step, Hp, Hq.
  all: rewrite (u64_small (p + _ - p)) by (pose proof (size_range_le d f es from to H); pose proof (size_nonneg (range (start_idx f) from to es)); unfold u64_modulus; lia).
  all: rewrite Z.add_simpl_l.
  all: destruct (from_option (fun m => size_of (range (start_idx f) from to es) <=? m) true max_size) eqn:Hm.
  1, 3: (exists (Some to); split; [|done]; split; [lia|]; split; [destruct max_size as [m|]; cbn in *; [by apply Z.leb_le|done]|lia]).
  - change (2 ^ Z.of_nat 0) with 1 in Hf. assert (to = from) as -> by lia. rewrite Z.eqb_refl. exists None. split; [|done].
    destruct max_size as [m|]; cbn in *; [|done]. exists m. split; [done|]. by apply Z.leb_gt.
  - destruct (Z.eqb_spec from to) as [<-|Hne].
    + exists None. split; [|done]. destruct max_size as [m|]; cbn in *; [|done]. exists m. split; [done|]. by apply Z.leb_gt.
    + rewrite Nat2Z.inj_succ, Z.pow_succ_r in Hf by lia. pose proof (Z.div_mod (to - from) 2 ltac:(lia)). pose proof (Z.mod_pos_bound (to - from) 2 ltac:(lia)).
      destruct (IH (from + (to - from) / 2)) as (r & Hr & He); [lia..|]. exists r. split; [|exact He].
      destruct r as [to'|]; [|done]. destruct Hr as (? & Hr & _). split; [lia|]. split; [done|]. intros _.
      destruct max_size as [m|]; [|done]. exists m. split; [done|]. by apply Z.leb_gt.
Qed.

Lemma range_nonempty d f es from to :
  holds d f es -> start_idx f <= from <= to -> to < start_idx f + len es -> 0 < size_of (range (start_idx f) from to es).
Proof.
  intros H Hft Hto. unfold range, slice. destruct (drop (Z.to_nat (from - start_idx f)) es) as [|e es'] eqn:E.
  { apply (f_equal length) in E. rewrite length_drop in E. cbn in E. lia. }
  assert (nonempty e) as He.
  { pose proof (h_nonempty _ _ _ H) as Hall. rewrite <- (take_drop (Z.to_nat (from - start_idx f)) es), E in Hall.
    apply Forall_app in Hall as [_ Hall]. by inversion Hall. }
  destruct (Z.to_nat (to - from + 1)) as [|n] eqn:En; [lia|]. cbn. unfold size_of. cbn. rewrite length_app.
  destruct e; [done|]. cbn. lia.
Qed.

Lemma read_entries_holds d f es from to max_size :
  holds d f es -> start_idx f <= from <= to -> to < start_idx f + len es ->
  exists r, selects f es from to max_size r /\
    file_read_entries f from to max_size d = Ret ((fun to' => (concat (range (start_idx f) from to' es), to')) <$> r).
Proof.
  intros H Hft Hto. pose proof (h_start _ _ _ H). pose proof (h_last _ _ _ H).
  destruct (entries_size_spec d f es 65 from to max_size) as (r & Hr & He); [done..| |].
  { change (2 ^ Z.of_nat 65) with (2 ^ 65). lia. }
  exists r. split; [done|]. unfold file_read_entries, entries_size. rewrite (file_holds_last _ _ _ H).
  destruct (Z.ltb_spec from (start_idx f)); [lia|]. destruct (Z.ltb_spec (start_idx f + len es - 1) to); [lia|].
  destruct (Z.ltb_spec to from); [lia|]. cbn [orb]. rewrite He. destruct r as [to'|]; [|done]. cbn [option_map fmap option_fmap].
  destruct Hr as [Hto' _]. pose proof (range_nonempty d f es from to' H ltac:(lia) ltac:(lia)) as Hpos.
  destruct (Z.eqb_spec (size_of (range (start_idx f) from to' es)) 0); [lia|].
  rewrite (holds_position d f es) by (done || lia).
  assert (contents d (file f) = image (completed f) es) as Hcon by (destruct (h_contents _ _ _ H) as [?|(-> & _)]; [done|cbn in *; lia]).
  unfold read_at. rewrite Hcon. pose proof (length_image (completed f) es) as Hlen.
  assert (size_of (take (Z.to_nat (from - start_idx f)) es) + size_of (range (start_idx f) from to' es) <= size_of es) as Hle.
  { unfold range. rewrite <- size_slice. apply size_take_le. }
  pose proof (size_nonneg es). destruct (Z.ltb_spec (len (image (completed f) es)) (8 + size_of (take (Z.to_nat (from - start_idx f)) es) + size_of (range (start_idx f) from to' es))); [lia|].
  unfold range at 1 2. by rewrite read_image.
Qed.

(** ** Recovering *)

(** An entry whose header states its size. *)
Definition framed (e : bytes) : Prop := (8 <= length e)%nat /\ entry_size_of (le_decode (take 8 e)) = len e - 8.

(** The beginning of an entry that was not written to its end. *)
Definition torn (t : bytes) : Prop := (length t < 8)%nat \/ len t - 8 < entry_size_of (le_decode (take 8 t)).

Lemma torn_prefix e n : framed e -> (n < length e)%nat -> torn (take n e).
Proof.
  intros [H8 Hs] Hn. unfold torn. rewrite length_take. destruct (decide (n < 8)%nat); [left; lia|right].
  rewrite take_take, (Nat.min_l 8 n), Hs by lia. lia.
Qed.

Lemma torn_nil : torn [].
Proof. left. cbn. lia. Qed.

Lemma framed_nonempty e : framed e -> nonempty e.
Proof. intros [H _] ->. cbn in H. lia. Qed.

Lemma recover_loop_spec es : forall fuel pre t f,
  Forall framed es -> torn t -> (length es < fuel)%nat -> total_len f = len pre -> len pre + size_of es < 2 ^ 32 ->
  recover_loop fuel (pre ++ concat es ++ t) (len pre) (size_of es + len t) f =
  Ret (f <| positions := positions f ++ offsets (len pre) es |> <| total_len := len pre + size_of es |>).
Proof.
  induction es as [|e es IH]; intros [|fuel] pre t f Hfr Ht Hfuel Htot Hsmall; cbn [length] in Hfuel; try lia.
  - cbn [recover_loop]. change (size_of []) with 0 in *. rewrite Z.add_0_l, Z.add_0_r. change (concat [] ++ t) with t.
    assert (f = f <| positions := positions f ++ offsets (len pre) [] |> <| total_len := len pre |>) as Hf.
    { destruct f as [? ? ? ? total ps]; unfold set; cbn in *. subst total. by rewrite app_nil_r. }
    destruct (Z.ltb_spec (len t) serialised_entry_header_size) as [|H8]; [by rewrite <- Hf|]. unfold serialised_entry_header_size in *.
    rewrite Nat2Z.id, drop_app_length. destruct Ht as [Ht|Ht]; [lia|].
    destruct (Z.ltb_spec (len t - 8) (entry_size_of (le_decode (take 8 t)))); [by rewrite <- Hf|lia].
  - apply Forall_cons in Hfr as [He Hfr]. destruct He as [H8 Hsz].
    assert (size_of (e :: es) = len e + size_of es) as Hse by (unfold size_of; cbn; rewrite length_app; lia). rewrite Hse in *.
    pose proof (size_nonneg es). cbn [recover_loop]. unfold serialised_entry_header_size.
    destruct (Z.ltb_spec (len e + size_of es + len t) 8); [lia|]. rewrite Nat2Z.id, drop_app_length. cbn [concat].
    rewrite <- app_assoc, take_app_le, Hsz by lia.
    destruct (Z.ltb_spec (len e + size_of es + len t - 8) (len e - 8)); [lia|].
    replace (len e + size_of es + len t - 8 - (len e - 8)) with (size_of es + len t) by lia.
    replace (len pre + 8 + (len e - 8)) with (len (pre ++ e)) by (rewrite length_app; lia).
    replace (pre ++ e ++ concat es ++ t) with ((pre ++ e) ++ concat es ++ t) by (by rewrite <- app_assoc).
    rewrite IH; [|done..|lia| |rewrite length_app; lia].
    + cbn. rewrite Htot, (u32_small (len pre)) by lia. destruct f; unfold set, update_field; cbn. rewrite <- app_assoc, length_app. cbn.
      rewrite Nat2Z.inj_add. by rewrite Z.add_assoc.
    + cbn. rewrite u64_small by (unfold u64_modulus; lia). rewrite length_app, Htot. lia.
Qed.

Lemma read_table_bytes ps rest : Forall (fun p => 0 <= p < 2 ^ 32) ps -> read_table (length ps) (table_bytes ps ++ rest) = ps.
Proof.
  induction 1 as [|p ps Hp _ IH]; [done|]. unfold table_bytes in *. cbn [length read_table fmap list_fmap concat]. rewrite <- app_assoc.
  assert (take 4 (le_encode 4 p ++ concat (le_encode 4 <$> ps) ++ rest) = le_encode 4 p) as ->.
  { rewrite <- (le_encode_length 4 p) at 1. by rewrite take_app_length. }
  assert (drop 4 (le_encode 4 p ++ concat (le_encode 4 <$> ps) ++ rest) = concat (le_encode 4 <$> ps) ++ rest) as ->.
  { rewrite <- (le_encode_length 4 p) at 1. by rewrite drop_app_length. }
  rewrite IH, le_decode_encode; [done|]. change (256 ^ Z.of_nat 4) with (2 ^ 32). lia.
Qed.

Lemma length_table ps : length (table_bytes ps) = (4 * length ps)%nat.
Proof. unfold table_bytes. induction ps as [|p ps IH]; [done|]. cbn [fmap list_fmap concat]. rewrite length_app, IH, le_encode_length. cbn. lia. Qed.

Lemma read_header d i h c : contents d i = h ++ c -> length h = 8%nat -> read_at i 0 8 d = Some h.
Proof.
  intros Hc Hh. unfold read_at. rewrite Hc, length_app, Hh. destruct (Z.ltb_spec (Z.of_nat (8 + length c)) (0 + 8)); [lia|].
  change (Z.to_nat 0) with 0%nat. rewrite drop_0. replace (Z.to_nat 8) with (length h) by done. by rewrite take_app_length.
Qed.

(** A complete file is read back with its table. *)
Lemma recover_complete d dir name i s es :
  names d !! (dir, name) = Some i -> get_start_idx_from_file_name name = Ret s -> contents d i = image true es ->
  8 + size_of es < 2 ^ 32 -> 1 <= s -> s + len es < 2 ^ 63 -> Forall nonempty es ->
  exists f, recover_LedgerFile dir name d = Ret f /\ ((i < length (inodes d))%nat -> holds d f es) /\ completed f = true /\ file f = i /\ start_idx f = s /\
    lf_dir f = dir /\ file_name f = name /\ lf_committed f = is_ledger_file_name_committed name /\ recovery f = false.
Proof.
  intros Hn Hs Hc Hsmall H1 Hlast Hne. pose proof (size_nonneg es) as Hsz.
  exists (MkLedgerFile dir name i s (8 + size_of es) (offsets 8 es) true (is_ledger_file_name_committed name) false).
  split; [|split; [|done]].
  - unfold recover_LedgerFile, fopen_existing. rewrite Hn, Hs. unfold positions_offset_header_size.
    rewrite (read_header d i (le_encode 8 (8 + size_of es)) (concat es ++ table_bytes (offsets 8 es))); [|done|apply le_encode_length].
    rewrite le_decode_encode by (change (256 ^ Z.of_nat 8) with (2 ^ 64); lia). destruct (Z.eqb_spec (8 + size_of es) 0); [lia|]. cbn [negb].
    rewrite Hc. unfold image. rewrite !length_app, le_encode_length, length_table, length_offsets.
    replace (Z.of_nat (8 + (length (concat es) + 4 * length es))) with (8 + size_of es + 4 * len es) by (unfold size_of; lia).
    destruct (Z.ltb_spec (8 + size_of es + 4 * len es) (8 + size_of es)); [lia|].
    rewrite Z.add_simpl_l, Z.mul_comm, Z.div_mul, Nat2Z.id by lia.
    replace (Z.to_nat (8 + size_of es)) with (length (le_encode 8 (8 + size_of es) ++ concat es)) by (rewrite length_app, le_encode_length; unfold size_of; lia).
    rewrite app_assoc, drop_app_length. unfold set, update_field. cbn. rewrite <- (app_nil_r (table_bytes _)), <- (length_offsets 8 es), read_table_bytes; [done|].
    apply Forall_forall. intros p Hp%offsets_bounds. lia.
  - intros Hi. split; try done. by left.
Qed.

(** Of a file that is not complete, the entries that were written to their end are recovered; cutting removes what follows. *)
Lemma recover_incomplete d dir name i s es t :
  names d !! (dir, name) = Some i -> get_start_idx_from_file_name name = Ret s -> contents d i = image false es ++ t ->
  8 + size_of es < 2 ^ 32 -> Forall framed es -> torn t ->
  recover_LedgerFile dir name d =
    Ret (MkLedgerFile dir name i s (8 + size_of es) (offsets 8 es) false (is_ledger_file_name_committed name) false).
Proof.
  intros Hn Hs Hc Hsmall Hfr Ht. pose proof (size_nonneg es) as Hsz. unfold recover_LedgerFile, fopen_existing. rewrite Hn, Hs.
  assert (contents d i = zeros 8 ++ concat es ++ t) as Hc' by (rewrite Hc; unfold image; by rewrite <- app_assoc).
  unfold positions_offset_header_size. rewrite (read_header d i (zeros 8) (concat es ++ t)) by done.
  change (le_decode (zeros 8)) with 0. cbn [Z.eqb negb]. rewrite Hc'.
  pose proof (recover_loop_spec es (S (length (zeros 8 ++ concat es ++ t))) (zeros 8) t
    (MkLedgerFile dir name i s 8 [] false (is_ledger_file_name_committed name) false)) as Hloop.
  replace (len (zeros 8 ++ concat es ++ t) - 8) with (size_of es + len t)
    by (rewrite !length_app; unfold size_of, zeros; rewrite length_replicate; lia).
  change (len (zeros 8)) with 8 in Hloop. unfold set, update_field in *. cbn in *. rewrite Hloop; try done.
  assert (length es <= length (concat es))%nat; [|rewrite !length_app; lia].
  clear -Hfr. induction Hfr as [|e es [He _] _ IH]; cbn; [lia|]. rewrite length_app. lia.
Qed.
