(* ===== verification/LedgerInvariant.v ===== *)
(** The invariant of the ledger: its files hold a log of entries without gaps, and every committed file on disk agrees with
    it.  Reading from the ledger gives the entries asked for, from the files being written, the read cache or the
    directories. *)

From Stdlib Require Import String.
From S2P Require Import Prelude Serialized LedgerFile Ledger LedgerNames LedgerFileProps.

(** ** Files that hold consecutive parts of a log *)

Fixpoint chained (d : Disk) (s : Z) (fs : list LedgerFile) (es : list bytes) : Prop :=
  match fs with
  | [] => es = []
  | f :: fs => exists e1 e2, es = e1 ++ e2 /\ e1 <> [] /\ start_idx f = s /\ holds d f e1 /\ chained d (s + len e1) fs e2
  end.

Lemma chained_app d s fs1 fs2 es :
  chained d s (fs1 ++ fs2) es <-> exists e1 e2, es = e1 ++ e2 /\ chained d s fs1 e1 /\ chained d (s + len e1) fs2 e2.
Proof.
  revert s es. induction fs1 as [|f fs1 IH]; intros s es; cbn.
  - split; [intros H; exists [], es; by rewrite Z.add_0_r|]. intros (e1 & e2 & -> & -> & H). by rewrite Z.add_0_r in H.
  - split.
    + intros (e1 & e2 & -> & Hne & Hs & Hh & (e3 & e4 & -> & H3 & H4)%IH). exists (e1 ++ e3), e4.
      split; [by rewrite app_assoc|]. split; [by exists e1, e3|]. by rewrite length_app, Nat2Z.inj_add, Z.add_assoc.
    + intros (e1 & e2 & -> & (e3 & e4 & -> & Hne & Hs & Hh & H4) & H2). exists e3, (e4 ++ e2).
      split; [by rewrite app_assoc|]. split_and!; try done. apply IH. exists e4, e2. split; [done|]. split; [done|].
      by rewrite length_app, Nat2Z.inj_add, Z.add_assoc in H2.
Qed.

Lemma chained_frame d d' s fs es :
  chained d s fs es -> (forall f, f ∈ fs -> contents d' (file f) = contents d (file f)) -> (length (inodes d) <= length (inodes d'))%nat ->
  chained d' s fs es.
Proof.
  intros H Hc Hl. revert s es H. induction fs as [|f fs IH]; intros s es H; cbn in *; [done|].
  destruct H as (e1 & e2 & -> & Hne & Hs & Hh & H). exists e1, e2. split_and!; try done.
  - eapply holds_disk; [done| |done]. apply Hc. by left.
  - apply IH; [|done]. intros g Hg. apply Hc. by right.
Qed.

Lemma chained_elem d s fs es f :
  chained d s fs es -> f ∈ fs -> exists e1 ef e2, es = e1 ++ ef ++ e2 /\ ef <> [] /\ start_idx f = s + len e1 /\ holds d f ef.
Proof.
  revert s es. induction fs as [|g fs IH]; intros s es H Hf; [by apply not_elem_of_nil in Hf|]. destruct H as (e1 & e2 & -> & Hne & Hs & Hh & H).
  apply elem_of_cons in Hf as [->|Hf]; [exists [], e1, e2; cbn; split_and!; try done; lia|].
  destruct (IH _ _ H Hf) as (x & y & z & -> & Hy & Hst & Hhy). exists (e1 ++ x), y, z. rewrite length_app, Nat2Z.inj_add, <- app_assoc. split_and!; try done. lia.
Qed.

Lemma chained_bounds d s fs es f : chained d s fs es -> f ∈ fs -> s <= start_idx f /\ start_idx f <= get_last_idx f < s + len es.
Proof.
  intros H Hf. destruct (chained_elem _ _ _ _ _ H Hf) as (e1 & ef & e2 & -> & Hne & Hs & Hh). rewrite (file_holds_last _ _ _ Hh), !length_app, Hs.
  destruct ef; [done|]. cbn. lia.
Qed.

(** The file that holds an index. *)
Lemma chained_find d s fs es idx :
  chained d s fs es -> s <= idx < s + len es ->
  exists fs1 f fs2 e1 ef e2, fs = fs1 ++ f :: fs2 /\ es = e1 ++ ef ++ e2 /\ chained d s fs1 e1 /\ start_idx f = s + len e1 /\ holds d f ef /\ ef <> [] /\
    chained d (s + len e1 + len ef) fs2 e2 /\ start_idx f <= idx <= get_last_idx f.
Proof.
  revert s es. induction fs as [|f fs IH]; intros s es H Hidx; [cbn in H; subst; cbn in *; lia|]. destruct H as (e1 & e2 & -> & Hne & Hs & Hh & H).
  rewrite length_app, Nat2Z.inj_add in Hidx. destruct (decide (idx < s + len e1)).
  - exists [], f, fs, [], e1, e2. cbn. rewrite Z.add_0_r, (file_holds_last _ _ _ Hh), Hs. split_and!; try done; lia.
  - destruct (IH _ _ H) as (fs1 & g & fs2 & x & y & z & -> & -> & H1 & Hg & Hhg & Hy & H2 & Hi); [lia|].
    exists (f :: fs1), g, fs2, (e1 ++ x), y, z.
    assert (s + len (e1 ++ x) = s + len e1 + len x) as -> by (rewrite length_app; lia). rewrite <- app_assoc. split_and!; try done; try lia.
    cbn. by exists e1, x.
Qed.

Lemma first_index_app p fs1 f fs2 : Forall (fun g => p g = false) fs1 -> p f = true -> first_index p (fs1 ++ f :: fs2) = length fs1.
Proof. induction 1 as [|g fs1 Hg _ IH]; cbn; intros Hf; [by rewrite Hf|]. by rewrite Hg, IH. Qed.

Lemma get_it_chained d s fs1 f fs2 e1 idx :
  chained d s fs1 e1 -> start_idx f = s + len e1 -> start_idx f <= idx <= get_last_idx f -> 0 < s ->
  get_it_contains_idx (fs1 ++ f :: fs2) idx = length fs1.
Proof.
  intros H Hf Hi Hs. unfold get_it_contains_idx. destruct (Z.eqb_spec idx 0); [lia|]. apply first_index_app; [|apply Z.leb_le; lia].
  apply Forall_forall. intros g Hg. pose proof (chained_bounds _ _ _ _ _ H Hg). apply Z.leb_gt. lia.
Qed.

Lemma find_app {A} (p : A -> bool) l1 l2 : Forall (fun x => p x = false) l1 -> List.find p (l1 ++ l2) = List.find p l2.
Proof. induction 1 as [|x l1 Hx _ IH]; cbn; [done|]. by rewrite Hx. Qed.

Lemma find_none {A} (p : A -> bool) l : Forall (fun x => p x = false) l -> List.find p l = None.
Proof. intros H. rewrite <- (app_nil_r l), find_app; done. Qed.

Lemma find_start_chained d s fs1 f fs2 (e1 ef e2 : list bytes) idx :
  chained d (s + len e1 + len ef) fs2 e2 -> start_idx f = s + len e1 -> holds d f ef -> start_idx f <= idx <= get_last_idx f ->
  List.find (fun f => start_idx f <=? idx) (rev (fs1 ++ f :: fs2)) = Some f.
Proof.
  intros H2 Hf Hh Hi. rewrite rev_app_distr. cbn. rewrite <- app_assoc, find_app; cbn.
  - destruct (Z.leb_spec (start_idx f) idx); [done|lia].
  - apply Forall_forall. intros g Hg%list_elem_of_In%in_rev%list_elem_of_In. pose proof (chained_bounds _ _ _ _ _ H2 Hg).
    rewrite (file_holds_last _ _ _ Hh) in Hi. apply Z.leb_gt. lia.
Qed.

(** ** The log *)

(** The entries with an index above [lg_base], and the index up to which they are committed. *)
Record Log := MkLog { lg_base : Z; lg_entries : list bytes; lg_committed : Z }.
#[export] Instance eta_Log : Settable Log := fun r => MkLog (lg_base r) (lg_entries r) (lg_committed r).

Definition lg_last (lg : Log) : Z := lg_base lg + len (lg_entries lg).

Definition lg_lookup (lg : Log) (idx : Z) : option bytes :=
  if lg_base lg <? idx then lg_entries lg !! Z.to_nat (idx - lg_base lg - 1) else None.

(** Entries from index [s] on that are those of the log, where it has any. *)
Definition agrees (lg : Log) (s : Z) (es : list bytes) : Prop :=
  forall k e, es !! k = Some e -> lg_base lg < s + Z.of_nat k -> lg_lookup lg (s + Z.of_nat k) = Some e.

(** A complete chunk that is committed. *)
Definition chunk (lg : Log) (s : Z) (es : list bytes) : Prop :=
  1 <= s /\ s + len es - 1 <= lg_committed lg /\ lg_committed lg < 2 ^ 62 /\ 8 + size_of es < 2 ^ 32 /\ Forall nonempty es /\ agrees lg s es.

(** Every file whose name has a last index is such a chunk. *)
Definition dir_ok (d : Disk) (lg : Log) (dir : string) : Prop :=
  forall name i s l, names d !! (dir, name) = Some i -> is_ledger_file_name_ignored name = false ->
    get_start_idx_from_file_name name = Ret s -> get_last_idx_from_file_name name = Ret (Some l) ->
    (i < length (inodes d))%nat /\ exists es, contents d i = image true es /\ len es = l - s + 1 /\ chunk lg s es.

(** The name a file has. *)
Definition name_of_file (f : LedgerFile) : string :=
  if lf_committed f then committed_file_name (start_idx f) (get_last_idx f) (recovery f) else new_file_name (start_idx f) (recovery f).

(** Names refer to different files. *)
Definition one_name (d : Disk) : Prop := forall p q i, names d !! p = Some i -> names d !! q = Some i -> p = q.

(** The inode is not that of a file that is being written or could be created. *)
Definition frozen (d : Disk) (dir : string) (i : nat) : Prop :=
  forall s r, 0 <= s < 2 ^ 63 -> names d !! (dir, new_file_name s r) <> Some i.

Definition cached_ok (d : Disk) (dir : string) (lg : Log) (f : LedgerFile) : Prop :=
  exists es, holds d f es /\ completed f = true /\ chunk lg (start_idx f) es /\ frozen d dir (file f).

(** A file of the list, in the directory. *)
Definition file_ok (d : Disk) (dir : string) (lg : Log) (f : LedgerFile) : Prop :=
  lf_dir f = dir /\ file_name f = name_of_file f /\ names d !! (dir, file_name f) = Some (file f) /\
  (lf_committed f = true -> completed f = true /\ recovery f = true /\ get_last_idx f <= lg_committed lg).

(** Once files belong to a recovery, so do the later ones. *)
Fixpoint rising (bs : list bool) : Prop :=
  match bs with
  | [] => True
  | b :: bs => (b = true -> Forall (fun c => c = true) bs) /\ rising bs
  end.

Lemma rising_app a b : rising (a ++ b) -> rising a /\ rising b.
Proof.
  induction a as [|x a IH]; cbn; [done|]. intros [Hx [Ha Hb]%IH]. split; [|done]. split; [|done]. intros E. apply Hx, Forall_app in E as [E _]. done.
Qed.

Lemma rising_snoc a x : rising a -> (x = false -> Forall (fun c => c = false) a) -> rising (a ++ [x]).
Proof.
  induction a as [|y a IH]; cbn; [done|]. intros [Hy Ha] Hx. split.
  - intros ->. apply Forall_app. split; [by apply Hy|]. constructor; [|done]. destruct x; [done|]. specialize (Hx eq_refl). by inversion Hx.
  - apply IH; [done|]. intros E. specialize (Hx E). by inversion Hx.
Qed.

(** The names in the main directory: those of the files of the list, those of committed files in front of them, and ignored ones. *)
Definition tidy_name (fs : list LedgerFile) (name : string) : Prop :=
  is_ledger_file_name_ignored name = true \/ (exists f, f ∈ fs /\ file_name f = name) \/
  (exists s e, name = committed_file_name s e false /\ 1 <= s <= e /\ e < 2 ^ 62 /\ forall f, f ∈ fs -> e < start_idx f).

Lemma tidy_name_mono fs fs' name :
  (forall f, f ∈ fs -> file_name f = name -> exists f', f' ∈ fs' /\ file_name f' = name) -> (forall f', f' ∈ fs' -> exists f, f ∈ fs /\ start_idx f' = start_idx f) ->
  tidy_name fs name -> tidy_name fs' name.
Proof.
  intros Hn Hs [Hi|[(f & Hf & E)|(s & e & -> & Hse & He & Hlt)]]; [by left|right; left; by apply (Hn f)|right; right].
  exists s, e. split_and!; try done; try lia. intros f' (f & Hf & ->)%Hs. by apply Hlt.
Qed.

Record disk_ok (d : Disk) (l : Ledger) (lg : Log) : Prop := {
  lo_dir : ledger_dir l ∈ directories d;
  lo_read_dirs : ledger_dir l ∉ read_ledger_dirs l;
  lo_base : 0 <= lg_base lg <= lg_committed lg;
  lo_bound : lg_committed lg <= lg_last lg < 2 ^ 62;
  lo_names : one_name d;
  lo_inodes p i : names d !! p = Some i -> (i < length (inodes d))%nat;
  lo_files f : f ∈ files l -> file_ok d (ledger_dir l) lg f;
  lo_tidy name i : names d !! (ledger_dir l, name) = Some i -> tidy_name (files l) name;
  lo_rising : rising (recovery <$> files l);
  lo_complete f : f ∈ removelast (files l) -> completed f = true;
  lo_chain : exists closed opened, lg_entries lg = closed ++ opened /\ lg_base lg + len closed <= lg_committed lg /\
    chained d (lg_base lg + len closed + 1) (files l) opened /\
    forall idx, lg_base lg < idx <= lg_base lg + len closed ->
      exists name i, names d !! (ledger_dir l, name) = Some i /\ covers_idx idx true name = true;
  lo_dirs dir : dir = ledger_dir l \/ dir ∈ read_ledger_dirs l -> dir_ok d lg dir;
  lo_cache f : f ∈ files_read_cache l -> cached_ok d (ledger_dir l) lg f
}.

Definition ledger_ok (w : LedgerWorld) (lg : Log) : Prop :=
  disk_ok (lw_disk w) (lw_ledger w) lg /\
  last_idx (lw_ledger w) = lg_last lg /\
  committed_idx (lw_ledger w) = lg_committed lg /\
  require_new_file (lw_ledger w) = from_option completed true (last (files (lw_ledger w))) /\
  (forall f, f ∈ files (lw_ledger w) -> get_last_idx f < lg_committed lg -> lf_committed f = true) /\
  from_option (fun r => r <= lg_last lg) (forall f, f ∈ files (lw_ledger w) -> recovery f = false) (recovery_start_idx (lw_ledger w)).

(** ** Entries of the log *)

Definition lg_range (lg : Log) (from to : Z) : list bytes := slice (Z.to_nat (from - lg_base lg - 1)) (Z.to_nat (to - from + 1)) (lg_entries lg).

Lemma slice_lookup {A} k n (l : list A) i : slice k n l !! i = if decide (i < n)%nat then l !! (k + i)%nat else None.
Proof.
  unfold slice. destruct (decide (i < n)%nat); [by rewrite lookup_take_lt, lookup_drop|]. by rewrite lookup_take_ge by lia.
Qed.

Lemma agrees_range lg s es from to :
  agrees lg s es -> lg_base lg < from -> s <= from <= to -> to < s + len es -> range s from to es = lg_range lg from to.
Proof.
  intros Ha Hb Hft Hto. apply list_eq. intros i. unfold range, lg_range. rewrite !slice_lookup. destruct (decide (i < Z.to_nat (to - from + 1))%nat); [|done].
  destruct (lookup_lt_is_Some_2 es (Z.to_nat (from - s) + i)) as [e He]; [lia|]. rewrite He. symmetry.
  pose proof (Ha _ _ He ltac:(lia)) as Hl. unfold lg_lookup in Hl. destruct (Z.ltb_spec (lg_base lg) (s + Z.of_nat (Z.to_nat (from - s) + i))); [|done].
  rewrite <- Hl. f_equal. lia.
Qed.

Lemma lg_range_app lg from mid to :
  lg_base lg < from <= mid -> mid <= to + 1 -> lg_range lg from (mid - 1) ++ lg_range lg mid to = lg_range lg from to.
Proof.
  intros Hfm Hmt. unfold lg_range, slice.
  replace (Z.to_nat (mid - lg_base lg - 1)) with (Z.to_nat (from - lg_base lg - 1) + Z.to_nat (mid - 1 - from + 1))%nat by lia.
  rewrite <- drop_drop, take_take_drop. f_equal. lia.
Qed.

Lemma size_range_mono lg from mid to : lg_base lg < from <= mid + 1 -> mid <= to -> size_of (lg_range lg from mid) <= size_of (lg_range lg from to).
Proof.
  intros Hf Hm. rewrite <- (lg_range_app lg from (mid + 1) to) by lia. rewrite size_app. replace (mid + 1 - 1) with mid by lia.
  pose proof (size_nonneg (lg_range lg (mid + 1) to)). lia.
Qed.

Lemma lg_range_beyond lg from to : lg_base lg <= lg_last lg < from -> lg_range lg from to = [].
Proof. intros H. unfold lg_range, slice. rewrite drop_ge; [by rewrite take_nil|]. unfold lg_last in H. lia. Qed.

Lemma lg_range_empty lg from : lg_range lg from (from - 1) = [].
Proof. unfold lg_range, slice. replace (Z.to_nat (from - 1 - from + 1)) with 0%nat by lia. done. Qed.

Lemma chunk_mono lg lg' s es :
  chunk lg s es -> lg_base lg' = lg_base lg -> lg_committed lg <= lg_committed lg' < 2 ^ 62 ->
  (forall idx e, idx <= lg_committed lg -> lg_lookup lg idx = Some e -> lg_lookup lg' idx = Some e) -> chunk lg' s es.
Proof.
  intros (H1 & H2 & H3 & H4 & H5 & Ha) Hb Hc Hl. split_and!; try done; try lia.
  intros k e He Hk. rewrite Hb in Hk. apply Hl; [|by apply Ha]. pose proof (lookup_lt_Some _ _ _ He). lia.
Qed.

(** Files of the list agree with the log. *)
Lemma chained_agrees lg (closed opened e1 ef e2 : list bytes) d f :
  lg_entries lg = closed ++ opened -> opened = e1 ++ ef ++ e2 -> start_idx f = lg_base lg + len closed + 1 + len e1 -> holds d f ef ->
  agrees lg (start_idx f) ef.
Proof.
  intros He Ho Hs Hh k e Hk Hb. unfold lg_lookup. destruct (Z.ltb_spec (lg_base lg) (start_idx f + Z.of_nat k)); [|lia].
  rewrite He, Ho. replace (Z.to_nat (start_idx f + Z.of_nat k - lg_base lg - 1)) with (length closed + (length e1 + k))%nat by lia.
  rewrite lookup_app_r, Nat.add_comm, Nat.add_sub by lia. rewrite lookup_app_r, Nat.add_comm, Nat.add_sub by lia.
  rewrite lookup_app_l; [done|]. by apply lookup_lt_Some in Hk.
Qed.

Section reads.
Context {DO : DirOrder}.

(** Only the read cache changes. *)
Definition recached (w w' : LedgerWorld) : Prop :=
  exists c, w' = w <| lw_ledger := (lw_ledger w) <| files_read_cache := c |> |>.

Lemma recached_refl w : recached w w.
Proof. exists (files_read_cache (lw_ledger w)). by destruct w as [[] ?]. Qed.

Lemma recached_trans w1 w2 w3 : recached w1 w2 -> recached w2 w3 -> recached w1 w3.
Proof. intros [c1 ->] [c2 ->]. exists c2. by destruct w1 as [[] ?]. Qed.

Lemma recached_ok w lg c :
  ledger_ok w lg -> (forall f, f ∈ c -> cached_ok (lw_disk w) (ledger_dir (lw_ledger w)) lg f) ->
  ledger_ok (w <| lw_ledger := (lw_ledger w) <| files_read_cache := c |> |>) lg.
Proof. intros [[] H] Hc. split; [|done]. split; done. Qed.

(** A file from which the entry at an index can be read. *)
Definition serves (d : Disk) (lg : Log) (idx : Z) (f : LedgerFile) : Prop :=
  exists es, holds d f es /\ agrees lg (start_idx f) es /\ start_idx f <= idx <= get_last_idx f.

Lemma elem_of_listing dir name d : name ∈ listing dir d <-> is_Some (names d !! (dir, name)).
Proof.
  unfold listing. rewrite list_elem_of_omap. split.
  - intros ([[dir' name'] i] & Hin%elem_of_map_to_list & Hd). cbn in Hd. case_bool_decide; [|done]. simplify_eq. by exists i.
  - intros [i Hi]. exists ((dir, name), i). split; [by apply elem_of_map_to_list|]. cbn. by rewrite bool_decide_true.
Qed.

Lemma find_is_Some {A} (p : A -> bool) l x : x ∈ l -> p x = true -> exists y, List.find p l = Some y /\ y ∈ l /\ p y = true.
Proof.
  intros Hx Hp. destruct (List.find p l) as [y|] eqn:E.
  - apply List.find_some in E as [Hy Hpy]. exists y. split_and!; try done. by apply list_elem_of_In.
  - pose proof (List.find_none _ _ E x (proj1 (list_elem_of_In _ _) Hx)). congruence.
Qed.

Lemma find_Some_elem {A} (p : A -> bool) l y : List.find p l = Some y -> y ∈ l /\ p y = true.
Proof. intros E. apply List.find_some in E as [Hy Hpy]. split; [by apply list_elem_of_In|done]. Qed.

Lemma covers_inv idx b name :
  covers_idx idx b name = true ->
  is_ledger_file_name_ignored name = false /\ exists s l, get_start_idx_from_file_name name = Ret s /\ get_last_idx_from_file_name name = Ret (Some l) /\ s <= idx <= l.
Proof.
  unfold covers_idx. destruct (is_ledger_file_name_ignored name); [done|]. cbn [orb]. destruct (_ && _); [done|].
  destruct (get_start_idx_from_file_name name) as [s|]; [|done]. destruct (get_last_idx_from_file_name name) as [[l|]|]; [|done..].
  rewrite andb_true_iff, !Z.leb_le. intros [? ?]. split; [done|]. by exists s, l.
Qed.

(** A committed file opened for reading. *)
Lemma open_chunk w lg dir name i idx b :
  ledger_ok w lg -> (dir = ledger_dir (lw_ledger w) \/ dir ∈ read_ledger_dirs (lw_ledger w)) ->
  names (lw_disk w) !! (dir, name) = Some i -> covers_idx idx b name = true ->
  exists f, recover_LedgerFile dir name (lw_disk w) = Ret f /\ cached_ok (lw_disk w) (ledger_dir (lw_ledger w)) lg f /\ start_idx f <= idx <= get_last_idx f.
Proof.
  intros [Hok _] Hdir Hn (Hig & s & l & Hs & Hl & Hi)%covers_inv.
  destruct (lo_dirs _ _ _ Hok dir Hdir name i s l Hn Hig Hs Hl) as (Hino & es & Hc & Hlen & Hch). pose proof Hch as (H1 & H2 & H3 & H4 & H5 & _).
  destruct (recover_complete _ dir name i s es Hn Hs Hc) as (f & Hf & Hh & Hcomp & Hfi & Hst & _ & _); [done..|lia|done|].
  exists f. specialize (Hh Hino). split; [done|]. rewrite (file_holds_last _ _ _ Hh), Hst. split; [|lia].
  exists es. rewrite Hst. split_and!; try done. intros s' r Hs' Hn'. rewrite Hfi in Hn'.
  pose proof (lo_names _ _ _ Hok _ _ _ Hn Hn') as E. injection E as -> ->. by rewrite new_name_last in Hl.
Qed.

Lemma cached_serves d dir lg f idx : cached_ok d dir lg f -> start_idx f <= idx <= get_last_idx f -> serves d lg idx f.
Proof. intros (es & Hh & _ & (_ & _ & _ & _ & _ & Ha) & _) Hi. by exists es. Qed.

(** The file that the directories have for an index. *)
Lemma find_name_elem dir idx b d name :
  get_file_name_with_idx dir idx b d = Some name -> exists i, names d !! (dir, name) = Some i /\ covers_idx idx b name = true.
Proof.
  intros [Hin Hc]%find_Some_elem. unfold directory_iterator in Hin. rewrite dir_order_perm in Hin. apply elem_of_listing in Hin as [i Hi]. by exists i.
Qed.

Lemma find_file_elem l idx d dir name :
  find_file l idx d = Some (dir, name) ->
  (dir = ledger_dir l \/ dir ∈ read_ledger_dirs l) /\ exists i b, names d !! (dir, name) = Some i /\ covers_idx idx b name = true.
Proof.
  unfold find_file. destruct (get_file_name_with_idx (ledger_dir l) idx true d) as [n|] eqn:E.
  - intros [= <- <-]. apply find_name_elem in E as (i & Hi & Hc). split; [by left|]. by exists i, true.
  - intros Hf. assert (dir ∈ read_ledger_dirs l /\ exists i, names d !! (dir, name) = Some i /\ covers_idx idx false name = true) as (Hd & i & Hi & Hc).
    { induction (read_ledger_dirs l) as [|x dirs IH]; [done|]. cbn in Hf. destruct (get_file_name_with_idx x idx false d) as [n|] eqn:E'.
      - injection Hf as <- <-. split; [by left|]. by apply find_name_elem.
      - destruct (IH Hf) as [Hd H]. split; [by right|done]. }
    split; [by right|]. by exists i, false.
Qed.

Lemma find_file_covered l idx d name i :
  names d !! (ledger_dir l, name) = Some i -> covers_idx idx true name = true -> is_Some (find_file l idx d).
Proof.
  intros Hn Hcov. unfold find_file, get_file_name_with_idx, directory_iterator.
  destruct (find_is_Some (covers_idx idx true) (dir_order (listing (ledger_dir l) d)) name) as (name' & -> & _); [|done|by eexists].
  rewrite dir_order_perm. apply elem_of_listing. by exists i.
Qed.

(** Whatever the index, the cache gives a committed file that has it, or none where the directories have none. *)
Lemma get_file_from_cache_ok w lg idx :
  ledger_ok w lg -> idx <> 0 ->
  exists w' o, get_file_from_cache idx w = (w', Ret o) /\ recached w w' /\ ledger_ok w' lg /\
    match o with
    | Some f => cached_ok (lw_disk w) (ledger_dir (lw_ledger w)) lg f /\ start_idx f <= idx <= get_last_idx f
    | None => find_file (lw_ledger w) idx (lw_disk w) = None
    end.
Proof.
  intros Hok Hidx. unfold get_file_from_cache. destruct (Z.eqb_spec idx 0); [done|]. unfold mbind at 1, ST_bind at 1, get at 1.
  destruct (List.find _ (files_read_cache (lw_ledger w))) as [f|] eqn:Ef.
  { apply find_Some_elem in Ef as [Hf Hr]. rewrite andb_true_iff, !Z.leb_le in Hr. exists w, (Some f). split; [done|]. split; [apply recached_refl|].
    split; [done|]. split; [|done]. by apply (lo_cache _ _ _ (proj1 Hok)). }
  destruct (find_file (lw_ledger w) idx (lw_disk w)) as [[dir name]|] eqn:Eff; [|exists w, None; split_and!; try done; apply recached_refl].
  apply find_file_elem in Eff as (Hdir & i & b & Hn & Hc). destruct (open_chunk w lg dir name i idx b Hok Hdir Hn Hc) as (f & -> & Hcf & Hr).
  eexists _, (Some f). split; [reflexivity|]. split; [by eexists|]. split; [|done].
  apply (recached_ok w lg); [done|]. intros g Hg.
  assert (g ∈ files_read_cache (lw_ledger w) ++ [f]) as Hg'.
  { destruct (_ <? _)%nat; [|done]. destruct (files_read_cache (lw_ledger w) ++ [f]); [done|]. by right. }
  apply elem_of_app in Hg' as [Hg'| ->%list_elem_of_singleton]; [by apply (lo_cache _ _ _ (proj1 Hok))|done].
Qed.

Lemma get_file_from_cache_spec w lg idx :
  ledger_ok w lg -> lg_base lg < idx ->
  (exists name i, names (lw_disk w) !! (ledger_dir (lw_ledger w), name) = Some i /\ covers_idx idx true name = true) ->
  exists w' f, get_file_from_cache idx w = (w', Ret (Some f)) /\ recached w w' /\ ledger_ok w' lg /\ serves (lw_disk w) lg idx f.
Proof.
  intros Hok Hidx (name & i & Hn & Hcov). pose proof (lo_base _ _ _ (proj1 Hok)).
  destruct (get_file_from_cache_ok w lg idx Hok ltac:(lia)) as (w' & [f|] & Hrun & Hre & Hok' & Hf).
  - destruct Hf as [Hc Hr]. exists w', f. split_and!; try done. by eapply cached_serves.
  - destruct (find_file_covered _ _ _ _ _ Hn Hcov) as [x Hx]. congruence.
Qed.

Lemma get_file_from_idx_spec w lg idx :
  ledger_ok w lg -> lg_base lg < idx <= lg_last lg ->
  exists w' f, get_file_from_idx idx false w = (w', Ret (Some f)) /\ recached w w' /\ ledger_ok w' lg /\ serves (lw_disk w) lg idx f.
Proof.
  intros Hok Hidx. pose proof (lo_base _ _ _ (proj1 Hok)). unfold get_file_from_idx. destruct (Z.eqb_spec idx 0); [lia|].
  unfold mbind at 1, ST_bind at 1, ledger at 1, gets at 1.
  destruct (lo_chain _ _ _ (proj1 Hok)) as (closed & opened & He & Hcl & Hch & Hcov).
  unfold lg_last in Hidx. rewrite He, length_app in Hidx. destruct (decide (idx <= lg_base lg + len closed)) as [Hle|Hgt].
  - rewrite find_none; [|].
    + apply get_file_from_cache_spec; [done|lia|]. apply Hcov. lia.
    + apply Forall_forall. intros f Hf%list_elem_of_In%in_rev%list_elem_of_In. pose proof (chained_bounds _ _ _ _ _ Hch Hf). apply Z.leb_gt. lia.
  - destruct (chained_find _ _ _ _ idx Hch ltac:(lia)) as (fs1 & f & fs2 & e1 & ef & e2 & Hfs & Hop & H1 & Hst & Hh & Hne & H2 & Hi).
    rewrite Hfs. rewrite (find_start_chained (lw_disk w) (lg_base lg + len closed + 1) fs1 f fs2 e1 ef e2) by done.
    exists w, f. split; [done|]. split; [apply recached_refl|]. split; [done|]. exists ef. split; [done|]. split; [|done].
    by eapply chained_agrees.
Qed.

(** The entries from [from] to [to]; when they are over the limit, those up to some index, which fit, or nothing. *)
Definition reads_as (lg : Log) (from to : Z) (max_size : option Z) (r : option bytes) : Prop :=
  match r with
  | Some bs => exists to', from <= to' <= to /\ bs = concat (lg_range lg from to') /\ from_option (fun m => len bs <= m) True max_size /\
      (to' < to -> exists m, max_size = Some m /\ m < size_of (lg_range lg from to))
  | None => exists m idx, max_size = Some m /\ from <= idx <= to /\ m < size_of (lg_range lg from idx)
  end.

Lemma read_range_step fuel idx to cache_only max_size entries w :
  idx <= to ->
  read_range_loop (S fuel) idx to cache_only max_size entries w =
  (f ← get_file_from_idx idx cache_only;
   match f with
   | None => mret None
   | Some f =>
       let to_ := Z.min (get_last_idx f) to in
       d ← gets lw_disk;
       v ← lift (file_read_entries f idx to_ ((fun m => u64 (m - len entries)) <$> max_size) d);
       match v with
       | None => mret None
       | Some (e, to_read) =>
           if negb (to_read =? to_) then mret (Some (entries ++ e))
           else read_range_loop fuel (u64 (to_ + 1)) to cache_only max_size (entries ++ e)
       end
   end) w.
Proof. intros H. cbn [read_range_loop]. destruct (Z.leb_spec idx to); [done|lia]. Qed.

Lemma read_range_loop_spec fuel : forall w lg from idx to max_size entries,
  ledger_ok w lg -> lg_base lg < from <= idx -> from <= to <= lg_last lg -> idx <= to + 1 -> (Z.to_nat (to - idx + 1) < fuel)%nat ->
  entries = concat (lg_range lg from (idx - 1)) -> from_option (fun m => len entries <= m < 2 ^ 64) True max_size ->
  exists w' r, read_range_loop fuel idx to false max_size entries w = (w', Ret r) /\ recached w w' /\ ledger_ok w' lg /\ reads_as lg from to max_size r.
Proof.
  induction fuel as [|fuel IH]; intros w lg from idx to max_size entries Hok Hb Hto Hidx Hfuel Hent Hmax; [lia|].
  destruct (decide (to < idx)) as [Hgt|Hle].
  { exists w, (Some entries). cbn [read_range_loop]. destruct (Z.leb_spec idx to); [lia|]. split; [done|]. split; [apply recached_refl|]. split; [done|].
    exists to. split; [lia|]. replace (idx - 1) with to in Hent by lia. split; [done|]. split; [destruct max_size; cbn in *; [lia|done]|lia]. }
  rewrite read_range_step by lia. pose proof (lo_bound _ _ _ (proj1 Hok)) as Hbd.
  destruct (get_file_from_idx_spec w lg idx Hok ltac:(lia)) as (w1 & f & Hf & Hre & Hok1 & (es & Hh & Ha & Hi)).
  unfold mbind at 1, ST_bind at 1. rewrite Hf. cbv zeta. set (to_ := Z.min (get_last_idx f) to).
  assert (lw_disk w1 = lw_disk w) as Hd by (by destruct Hre as [c ->]).
  pose proof (file_holds_last _ _ _ Hh) as Hlast. pose proof (lo_base _ _ _ (proj1 Hok)) as Hbase.
  destruct (read_entries_holds _ f es idx to_ ((fun m => u64 (m - len entries)) <$> max_size) Hh) as (r & Hsel & Hread); [lia..|].
  unfold mbind at 1, ST_bind at 1, gets at 1. rewrite Hd. unfold mbind at 1, ST_bind at 1, lift at 1. rewrite Hread.
  assert (forall t, idx <= t <= to_ -> range (start_idx f) idx t es = lg_range lg idx t) as Hrg by (intros t Ht; apply agrees_range; (done || lia)).
  assert (forall t, idx <= t <= to_ -> concat (lg_range lg from t) = entries ++ concat (lg_range lg idx t)) as Hcat.
  { intros t Ht. rewrite Hent, <- concat_app. by rewrite lg_range_app by lia. }
  assert (forall t, size_of (lg_range lg idx t) = len (concat (lg_range lg idx t))) as Hsz by done.
  destruct r as [to'|]; cbn [fmap option_fmap option_map].
  - destruct Hsel as (Hto' & Hfit & Hover). rewrite Hrg by lia. rewrite <- Hcat by lia.
    assert (from_option (fun m => len (concat (lg_range lg from to')) <= m < 2 ^ 64) True max_size) as Hmax'.
    { destruct max_size as [m|]; cbn in *; [|done]. rewrite Hrg, Hsz in Hfit by lia. rewrite u64_small in Hfit by (unfold u64_modulus; lia).
      rewrite Hcat, length_app by lia. lia. }
    destruct (Z.eqb_spec to' to_) as [->|Hne]; cbn [negb].
    + rewrite u64_small by (unfold u64_modulus; lia).
      destruct (IH w1 lg from (to_ + 1) to max_size (concat (lg_range lg from to_))) as (w' & r & Hr & Hre' & Hok' & Has); try done; try lia.
      { f_equal. f_equal. lia. }
      exists w', r. split; [done|]. split; [by eapply recached_trans|done].
    + exists w1, (Some (concat (lg_range lg from to'))). split; [done|]. split; [done|]. split; [done|]. exists to'. split; [lia|]. split; [done|].
      split; [destruct max_size; cbn in *; [lia|done]|]. intros _. destruct (Hover ltac:(lia)) as (m' & Hm & Hlt). destruct max_size as [m|]; [|done].
      cbn in Hm, Hmax. injection Hm as <-. exists m. split; [done|]. rewrite u64_small in Hlt by (unfold u64_modulus; lia). rewrite Hrg, Hsz in Hlt by lia.
      pose proof (size_range_mono lg from to_ to ltac:(lia) ltac:(lia)) as Hmono. unfold size_of in Hmono |- *. rewrite (Hcat to_), length_app in Hmono by lia. lia.
  - exists w1, None. split; [done|]. split; [done|]. split; [done|]. destruct Hsel as (m' & Hm & Hlt). destruct max_size as [m|]; [|done].
    cbn in Hm, Hmax. injection Hm as <-. exists m, idx. split; [done|]. split; [lia|].
    rewrite u64_small in Hlt by (unfold u64_modulus; lia). rewrite Hrg, Hsz in Hlt by lia.
    unfold size_of. rewrite Hcat, length_app by lia. lia.
Qed.

(** Reading a range that is in the log, or, when not strict, its part that is. *)
Lemma read_entries_spec w lg from to strict max_size :
  ledger_ok w lg -> lg_base lg < from <= to -> from <= lg_last lg -> (strict = true -> to <= lg_last lg) ->
  from_option (fun m => 0 <= m < 2 ^ 64) True max_size ->
  exists w' r, read_entries from to strict max_size w = (w', Ret r) /\ recached w w' /\ ledger_ok w' lg /\
    reads_as lg from (Z.min to (lg_last lg)) max_size r.
Proof.
  intros Hok Hb Hf Hst Hmax. pose proof (lo_base _ _ _ (proj1 Hok)) as Hbase. pose proof Hok as (_ & Hlast & _). unfold read_entries, read_entries_range.
  destruct (Z.leb_spec from 0); [lia|]. destruct (Z.ltb_spec to from); [lia|]. cbn [orb].
  unfold mbind at 1, ST_bind at 1, ledger at 1, gets at 1. rewrite Hlast.
  assert ((lg_last lg <? to) && strict = false) as ->. { destruct strict; [|by rewrite andb_false_r]. specialize (Hst eq_refl). destruct (Z.ltb_spec (lg_last lg) to); [lia|done]. }
  assert ((if lg_last lg <? to then lg_last lg else to) = Z.min to (lg_last lg)) as ->. { destruct (Z.ltb_spec (lg_last lg) to); lia. }
  apply read_range_loop_spec; try done; try lia.
  by rewrite lg_range_empty.
Qed.

(** A range whose entries are in two files or more is not read in part when the first entry of the second file is over the
    limit. *)
Lemma read_entries_stops w w1 lg from to f m :
  ledger_ok w lg -> lg_base lg < from -> get_file_from_idx from false w = (w1, Ret (Some f)) -> get_last_idx f < Z.min to (lg_last lg) ->
  0 <= m < 2 ^ 64 -> size_of (lg_range lg from (get_last_idx f)) <= m < size_of (lg_range lg from (get_last_idx f + 1)) ->
  exists w', read_entries from to false (Some m) w = (w', Ret None).
Proof.
  intros Hok Hb Hf Hend Hm Hsize. pose proof (lo_base _ _ _ (proj1 Hok)) as Hbase. pose proof (lo_bound _ _ _ (proj1 Hok)) as Hbd. pose proof Hok as (_ & Hlast & _).
  assert (from <= lg_last lg) as Hfl.
  { destruct (decide (from <= lg_last lg)); [done|]. exfalso. rewrite (lg_range_beyond lg from), (lg_range_beyond lg from) in Hsize by lia. lia. }
  destruct (get_file_from_idx_spec w lg from Hok ltac:(lia)) as (w1' & f' & Hf' & Hre & Hok1 & (es & Hh & Ha & Hi)).
  rewrite Hf in Hf'. injection Hf' as <- <-. pose proof (file_holds_last _ _ _ Hh) as Hl. set (e := get_last_idx f) in *.
  unfold read_entries, read_entries_range. destruct (Z.leb_spec from 0); [lia|]. destruct (Z.ltb_spec to from); [lia|]. cbn [orb].
  unfold mbind at 1, ST_bind at 1, ledger at 1, gets at 1. rewrite Hlast, andb_false_r.
  assert ((if lg_last lg <? to then lg_last lg else to) = Z.min to (lg_last lg)) as ->. { destruct (Z.ltb_spec (lg_last lg) to); lia. }
  set (t := Z.min to (lg_last lg)) in *. rewrite read_range_step by lia. unfold mbind at 1, ST_bind at 1. rewrite Hf. cbv zeta. fold e. rewrite (Z.min_l e t) by lia.
  assert (lw_disk w1 = lw_disk w) as Hd by (by destruct Hre as [c ->]).
  destruct (read_entries_holds _ f es from e ((fun m => u64 (m - len (@nil Z))) <$> Some m) Hh) as (r & Hsel & Hread); [lia..|].
  unfold mbind at 1, ST_bind at 1, gets at 1. rewrite Hd. unfold mbind at 1, ST_bind at 1, lift at 1. rewrite Hread.
  assert (range (start_idx f) from e es = lg_range lg from e) as Hrg by (apply agrees_range; (done || lia)).
  assert (r = Some e) as ->. { eapply selects_whole; [|exact Hsel|]; [lia|]. rewrite Hrg, u64_small by (unfold u64_modulus; cbn; lia). cbn. lia. }
  cbn [fmap option_fmap option_map]. rewrite Z.eqb_refl. cbn [negb]. rewrite u64_small by (unfold u64_modulus; lia). rewrite read_range_step by lia. rewrite Hrg.
  destruct (get_file_from_idx_spec w1 lg (e + 1) Hok1 ltac:(lia)) as (w2 & g & Hg & Hre2 & Hok2 & (es2 & Hh2 & Ha2 & Hi2)).
  unfold mbind at 1, ST_bind at 1. rewrite Hg. cbv zeta. pose proof (file_holds_last _ _ _ Hh2) as Hl2. set (e2 := Z.min (get_last_idx g) t).
  assert (lw_disk w2 = lw_disk w1) as Hd2 by (by destruct Hre2 as [c ->]). cbn [app].
  destruct (read_entries_holds _ g es2 (e + 1) e2 ((fun m => u64 (m - len (concat (lg_range lg from e)))) <$> Some m) Hh2) as (r & Hsel2 & Hread2); [lia..|].
  unfold mbind at 1, ST_bind at 1, gets at 1. rewrite Hd2. unfold mbind at 1, ST_bind at 1, lift at 1. rewrite Hread2.
  assert (r = None) as ->; [|by exists w2]. eapply selects_nothing; [exact Hsel2|].
  assert (range (start_idx g) (e + 1) (e + 1) es2 = lg_range lg (e + 1) (e + 1)) as -> by (apply agrees_range; (done || lia)).
  pose proof (lg_range_app lg from (e + 1) (e + 1) ltac:(lia) ltac:(lia)) as Happ. replace (e + 1 - 1) with e in Happ by lia.
  rewrite <- Happ, size_app in Hsize. unfold size_of in *. rewrite u64_small by (unfold u64_modulus; lia). lia.
Qed.

(** A read in the thread pool uses the cache only; it leaves the ledger as it is. *)
Lemma read_range_loop_cached fuel : forall w lg idx to entries,
  ledger_ok w lg -> 1 <= idx -> to < 2 ^ 62 -> (Z.to_nat (to - idx + 1) < fuel)%nat ->
  exists w' r, read_range_loop fuel idx to true None entries w = (w', Ret r) /\ recached w w' /\ ledger_ok w' lg.
Proof.
  induction fuel as [|fuel IH]; intros w lg idx to entries Hok Hidx Hto Hfuel; [lia|]. destruct (decide (to < idx)) as [Hgt|Hle].
  { exists w, (Some entries). cbn [read_range_loop]. destruct (Z.leb_spec idx to); [lia|]. split; [done|]. split; [apply recached_refl|done]. }
  rewrite read_range_step by lia. unfold mbind at 1, ST_bind at 1, get_file_from_idx. destruct (Z.eqb_spec idx 0); [lia|]. unfold mbind at 1, ST_bind at 1, ledger at 1, gets at 1.
  destruct (get_file_from_cache_ok w lg idx Hok ltac:(lia)) as (w1 & [f|] & -> & Hre & Hok1 & Hf); [|by exists w1, None].
  destruct Hf as [(es & Hh & _) Hr]. pose proof (file_holds_last _ _ _ Hh) as Hlast. cbv zeta. set (to_ := Z.min (get_last_idx f) to).
  assert (lw_disk w1 = lw_disk w) as Hd by (by destruct Hre as [c ->]).
  destruct (read_entries_holds _ f es idx to_ ((fun m => u64 (m - len entries)) <$> None) Hh) as (r & Hsel & Hread); [lia..|].
  unfold mbind at 1, ST_bind at 1, gets at 1. rewrite Hd. unfold mbind at 1, ST_bind at 1, lift at 1. rewrite Hread.
  destruct r as [to'|]; cbn [fmap option_fmap option_map] in *; [|by exists w1, None]. destruct Hsel as (Hto' & _ & Hover).
  assert (to' = to_) as -> by (destruct (decide (to' < to_)) as [H|]; [by destruct (Hover H) as (? & ? & _)|lia]). rewrite Z.eqb_refl. cbn [negb].
  rewrite u64_small by (unfold u64_modulus; lia).
  match goal with |- context [read_range_loop fuel _ _ _ _ ?es'] => destruct (IH w1 lg (to_ + 1) to es' Hok1 ltac:(lia) Hto ltac:(lia)) as (w' & r & Hrun & Hre' & Hok') end.
  exists w', r. split; [done|]. split; [by eapply recached_trans|done].
Qed.

Lemma read_async_spec w lg job :
  ledger_ok w lg -> exists w' r, on_ledger_get_async job w = (w', Ret r) /\ recached w w' /\ ledger_ok w' lg.
Proof.
  intros Hok. unfold on_ledger_get_async, read_entries_range. destruct (Z.leb_spec (job_from job) 0); cbn [orb]; [exists w, None; split; [done|]; split; [apply recached_refl|done]|].
  destruct (Z.ltb_spec (job_to job) (job_from job)); [exists w, None; split; [done|]; split; [apply recached_refl|done]|].
  unfold mbind at 1, ST_bind at 1, ledger at 1, gets at 1. rewrite andb_true_r. pose proof Hok as (Hd & -> & _). pose proof (lo_bound _ _ _ Hd).
  destruct (Z.ltb_spec (lg_last lg) (job_to job)); [exists w, None; split; [done|]; split; [apply recached_refl|done]|].
  apply read_range_loop_cached; try done; lia.
Qed.
End reads.
