(* ===== verification/LedgerUpdates.v ===== *)
(** How changes of one file, of the list of files and of the directory keep the invariant of the ledger. *)

From Stdlib Require Import String.
From S2P Require Import Prelude Serialized LedgerFile Ledger LedgerNames LedgerFileProps LedgerInvariant.

Section updates.
Implicit Types (d : Disk) (l : Ledger) (lg : Log).

(** ** Names of files *)

Lemma file_bounds d l lg f : disk_ok d l lg -> f ∈ files l -> 1 <= start_idx f <= get_last_idx f /\ get_last_idx f <= lg_last lg.
Proof.
  intros Hok Hf. destruct (lo_chain _ _ _ Hok) as (closed & opened & He & _ & Hch & _). pose proof (chained_bounds _ _ _ _ _ Hch Hf).
  pose proof (lo_base _ _ _ Hok). unfold lg_last. rewrite He, length_app. lia.
Qed.

Lemma name_start f : 0 <= start_idx f < 2 ^ 63 -> get_start_idx_from_file_name (name_of_file f) = Ret (start_idx f).
Proof. intros H. unfold name_of_file. destruct (lf_committed f); [by apply committed_name_start|by apply new_name_start]. Qed.

Lemma same_inode d l lg f g : disk_ok d l lg -> f ∈ files l -> g ∈ files l -> file f = file g -> start_idx f = start_idx g.
Proof.
  intros Hok Hf Hg E. destruct (lo_files _ _ _ Hok f Hf) as (_ & Hnf & Hf' & _). destruct (lo_files _ _ _ Hok g Hg) as (_ & Hng & Hg' & _).
  rewrite E in Hf'. pose proof (lo_names _ _ _ Hok _ _ _ Hf' Hg') as En. injection En as En. rewrite Hnf, Hng in En.
  pose proof (file_bounds _ _ _ _ Hok Hf). pose proof (file_bounds _ _ _ _ Hok Hg). pose proof (lo_bound _ _ _ Hok).
  pose proof (name_start f ltac:(lia)) as Hsf. rewrite En, name_start in Hsf by lia. by injection Hsf.
Qed.

Lemma distinct_start d l lg fs1 f fs2 g :
  disk_ok d l lg -> files l = fs1 ++ f :: fs2 -> g ∈ fs1 \/ g ∈ fs2 -> start_idx g <> start_idx f.
Proof.
  intros Hok Hfs Hg E. destruct (lo_chain _ _ _ Hok) as (closed & opened & _ & _ & Hch & _). rewrite Hfs in Hch.
  apply chained_app in Hch as (e1 & e2 & -> & H1 & (ef & e3 & -> & Hne & Hst & Hh & H2)). destruct Hg as [Hg|Hg].
  - pose proof (chained_bounds _ _ _ _ _ H1 Hg). lia.
  - pose proof (chained_bounds _ _ _ _ _ H2 Hg). destruct ef; [done|]. cbn in *. lia.
Qed.

Lemma distinct_inode d l lg fs1 f fs2 g :
  disk_ok d l lg -> files l = fs1 ++ f :: fs2 -> g ∈ fs1 \/ g ∈ fs2 -> file g <> file f.
Proof.
  intros Hok Hfs Hg E. apply (distinct_start _ _ _ _ _ _ _ Hok Hfs Hg). apply (same_inode d l lg); try done.
  all: rewrite Hfs, elem_of_app, elem_of_cons; tauto.
Qed.

(** The name of a file being written has no last index. *)
Lemma written_name d l lg f : disk_ok d l lg -> f ∈ files l -> lf_committed f = false ->
  names d !! (ledger_dir l, new_file_name (start_idx f) (recovery f)) = Some (file f) /\ 0 <= start_idx f < 2 ^ 63.
Proof.
  intros Hok Hf Hc. destruct (lo_files _ _ _ Hok f Hf) as (_ & Hn & Hl & _). unfold name_of_file in Hn. rewrite Hc in Hn. rewrite <- Hn.
  split; [done|]. pose proof (file_bounds _ _ _ _ Hok Hf). pose proof (lo_bound _ _ _ Hok). lia.
Qed.

(** Committed files and those of the cache are others than the ones being written. *)
Lemma written_not_chunk d l lg f dir name i v :
  disk_ok d l lg -> f ∈ files l -> lf_committed f = false -> names d !! (dir, name) = Some i -> get_last_idx_from_file_name name = Ret (Some v) -> i <> file f.
Proof.
  intros Hok Hf Hc Hn Hl ->. destruct (written_name _ _ _ _ Hok Hf Hc) as [Hw Hr]. pose proof (lo_names _ _ _ Hok _ _ _ Hn Hw) as E.
  injection E as -> ->. by rewrite new_name_last in Hl.
Qed.

Lemma written_not_cached d l lg f g :
  disk_ok d l lg -> f ∈ files l -> lf_committed f = false -> cached_ok d (ledger_dir l) lg g -> file g <> file f.
Proof.
  intros Hok Hf Hc (_ & _ & _ & _ & Hfr) E. destruct (written_name _ _ _ _ Hok Hf Hc) as [Hw Hr]. rewrite <- E in Hw. by apply Hfr in Hw.
Qed.

(** ** Logs with the same committed entries *)

Record extends (lg lg' : Log) : Prop := {
  ex_base : lg_base lg' = lg_base lg;
  ex_committed : lg_committed lg <= lg_committed lg' <= lg_last lg';
  ex_bound : lg_last lg' < 2 ^ 62;
  ex_lookup idx e : idx <= lg_committed lg -> lg_lookup lg idx = Some e -> lg_lookup lg' idx = Some e
}.

Lemma extends_chunk lg lg' s es : extends lg lg' -> chunk lg s es -> chunk lg' s es.
Proof. intros [] H. apply (chunk_mono lg); try done. lia. Qed.

(** Contents that committed and cached files see are the same. *)
Lemma dir_ok_frame d d' lg lg' dir :
  dir_ok d lg dir -> extends lg lg' -> (length (inodes d) <= length (inodes d'))%nat ->
  (forall name i v, names d' !! (dir, name) = Some i -> get_last_idx_from_file_name name = Ret (Some v) ->
    names d !! (dir, name) = Some i /\ contents d' i = contents d i) ->
  dir_ok d' lg' dir.
Proof.
  intros H Hex Hl Hf name i s v Hn Hig Hs Hv. destruct (Hf _ _ _ Hn Hv) as [Hn' Hc]. destruct (H _ _ _ _ Hn' Hig Hs Hv) as (Hi & es & Hes & Hlen & Hch).
  split; [lia|]. exists es. rewrite Hc. split_and!; try done. by eapply extends_chunk.
Qed.

Lemma cached_frame d d' dir lg lg' f :
  cached_ok d dir lg f -> extends lg lg' -> contents d' (file f) = contents d (file f) -> (length (inodes d) <= length (inodes d'))%nat ->
  (forall s r, 0 <= s < 2 ^ 63 -> names d' !! (dir, new_file_name s r) = Some (file f) -> names d !! (dir, new_file_name s r) = Some (file f)) ->
  cached_ok d' dir lg' f.
Proof.
  intros (es & Hh & Hc & Hch & Hfr) Hex Hcon Hl Hn. exists es. split; [by eapply holds_disk|]. split; [done|]. split; [by eapply extends_chunk|].
  intros s r Hs Hn'. by apply (Hfr s r Hs), Hn.
Qed.

(** The covering names of the committed part. *)
Definition covered (d : Disk) (dir : string) (lg : Log) (closed : list bytes) : Prop :=
  forall idx, lg_base lg < idx <= lg_base lg + len closed -> exists name i, names d !! (dir, name) = Some i /\ covers_idx idx true name = true.

Lemma covered_frame d d' dir lg lg' closed :
  covered d dir lg closed -> lg_base lg' = lg_base lg ->
  (forall name i v, names d !! (dir, name) = Some i -> get_last_idx_from_file_name name = Ret (Some v) -> is_Some (names d' !! (dir, name))) ->
  covered d' dir lg' closed.
Proof.
  intros H Hb Hn idx Hi. rewrite Hb in Hi. destruct (H idx Hi) as (name & i & Hni & Hc). pose proof Hc as Hc'. unfold covers_idx in Hc'.
  destruct (_ || _); [done|]. destruct (get_start_idx_from_file_name name); [|done].
  destruct (get_last_idx_from_file_name name) as [[v|]|] eqn:Ev; [|done..]. destruct (Hn _ _ _ Hni Ev) as [j Hj]. by exists name, j.
Qed.

(** ** Changing the contents of the last file *)

Lemma disk_ok_update d l lg lg' fs1 f f' c closed e1 ef' :
  disk_ok d l lg -> files l = fs1 ++ [f] -> lf_committed f = false -> kept f f' ->
  lg_entries lg' = closed ++ e1 ++ ef' -> lg_base lg + len closed <= lg_committed lg -> extends lg lg' -> lg_committed lg' = lg_committed lg ->
  chained d (lg_base lg + len closed + 1) fs1 e1 -> start_idx f = lg_base lg + len closed + 1 + len e1 ->
  covered d (ledger_dir l) lg closed -> ef' <> [] ->
  holds (set_contents (file f) c d) f' ef' ->
  disk_ok (set_contents (file f) c d) (l <| files := fs1 ++ [f'] |>) lg'.
Proof.
  intros Hok Hfs Hc Hk He Hcl Hex Hcom H1 Hst Hcov Hne Hh. pose proof Hk as (Hfile & Hstart & Hdir & Hname & Hco & Hrec).
  assert (f ∈ files l) as Hf by (rewrite Hfs; set_solver).
  pose proof (lo_files _ _ _ Hok f Hf) as (Hfd & Hfn & Hfi & _). pose proof (lo_inodes _ _ _ Hok _ _ Hfi) as Hi.
  split; cbn.
  - apply Hok.
  - apply Hok.
  - rewrite (ex_base _ _ Hex), Hcom. apply Hok.
  - pose proof (ex_bound _ _ Hex). pose proof (ex_committed _ _ Hex). lia.
  - apply Hok.
  - rewrite length_set. apply Hok.
  - intros g [Hg|Hg]%elem_of_app.
    + assert (g ∈ files l) as Hgl by (rewrite Hfs; set_solver). destruct (lo_files _ _ _ Hok g Hgl) as (? & ? & ? & Hgc).
      split_and!; try done. intros Hg'. destruct (Hgc Hg') as (? & ? & ?). split_and!; try done. lia.
    + apply list_elem_of_singleton in Hg as ->. unfold file_ok, name_of_file. rewrite Hco, Hc, Hdir, Hname, Hfile. split_and!; try done.
      rewrite Hstart, Hrec. unfold name_of_file in Hfn. by rewrite Hc in Hfn.
  - intros name i Hn. apply (tidy_name_mono (files l)); [| |by apply (lo_tidy _ _ _ Hok _ i)]; rewrite Hfs.
    + intros g [Hg| ->%list_elem_of_singleton]%elem_of_app E; [exists g|exists f']; (split; [apply elem_of_app; set_solver|congruence]).
    + intros g [Hg| ->%list_elem_of_singleton]%elem_of_app; [exists g|exists f]; (split; [apply elem_of_app; set_solver|done]).
  - pose proof (lo_rising _ _ _ Hok) as Hr. rewrite Hfs, fmap_app in Hr. rewrite fmap_app. cbn in *. by rewrite Hrec.
  - intros g Hg. rewrite removelast_app, app_nil_r in Hg by done. apply (lo_complete _ _ _ Hok). by rewrite Hfs, removelast_app, app_nil_r by done.
  - exists closed, (e1 ++ ef'). rewrite (ex_base _ _ Hex), Hcom. split_and!; try done.
    + apply chained_app. exists e1, ef'. split; [done|]. split.
      * apply (chained_frame d); [done| |by rewrite length_set]. intros g Hg. rewrite contents_set by done. rewrite decide_False; [done|].
        intros E. by apply (distinct_inode _ _ _ fs1 f [] g Hok Hfs (or_introl Hg)).
      * cbn. exists ef', []. rewrite app_nil_r, Hstart. done.
  - intros dir Hd. apply (dir_ok_frame d _ lg); [by apply (lo_dirs _ _ _ Hok)|done|by rewrite length_set|].
    intros name i v Hn Hv. split; [done|]. rewrite contents_set by done. rewrite decide_False; [done|]. intros E.
    by apply (written_not_chunk _ _ _ f dir name i v Hok Hf Hc Hn Hv).
  - intros g Hg. apply (lo_cache _ _ _ Hok) in Hg. apply (cached_frame d _ _ lg); try done; [|by rewrite length_set].
    rewrite contents_set by done. rewrite decide_False; [done|]. intros E. by apply (written_not_cached _ _ _ f g Hok Hf Hc Hg).
Qed.

(** ** A new file *)

Lemma fresh_inode d l lg nm i q :
  disk_ok d l lg -> names d !! (ledger_dir l, nm) = Some i \/ (length (inodes d) <= i)%nat -> names d !! q = Some i -> q = (ledger_dir l, nm).
Proof.
  intros Hok [Hn|Hi] Hq; [by apply (lo_names _ _ _ Hok _ _ i)|]. apply (lo_inodes _ _ _ Hok) in Hq. lia.
Qed.

Lemma extends_app lg es : lg_last lg + len es < 2 ^ 62 -> lg_committed lg <= lg_last lg -> extends lg (lg <| lg_entries := lg_entries lg ++ es |>).
Proof.
  intros Hb Hc. split; cbn; unfold lg_last in *; cbn; rewrite ?length_app; try lia.
  intros idx e _. unfold lg_lookup. cbn. destruct (_ <? _); [|done]. intros H. by apply lookup_app_l_Some.
Qed.

(** Committed files are within the committed part of the log. *)
Lemma committed_last d l lg name s e i :
  disk_ok d l lg -> names d !! (ledger_dir l, name) = Some i -> name = committed_file_name s e false -> 1 <= s <= e -> e < 2 ^ 62 -> e <= lg_committed lg.
Proof.
  intros Hok Hn -> Hse He. destruct (lo_dirs _ _ _ Hok (ledger_dir l) (or_introl eq_refl) _ _ s e Hn) as (_ & es & _ & Hlen & (_ & Hle & _)).
  - apply committed_name_flags.
  - apply committed_name_start. lia.
  - apply committed_name_last; lia.
  - lia.
Qed.

Lemma disk_ok_new d d' l lg f data nm i :
  disk_ok d l lg -> (forall g, g ∈ files l -> completed g = true) -> (recovery f = false -> forall g, g ∈ files l -> recovery g = false) ->
  lg_last lg + 1 < 2 ^ 62 ->
  nm = new_file_name (lg_last lg + 1) (recovery f) -> names d !! (ledger_dir l, nm) = Some i \/ (length (inodes d) <= i)%nat ->
  directories d' = directories d -> names d' = <[(ledger_dir l, nm) := i]> (names d) -> (length (inodes d) <= length (inodes d'))%nat ->
  (forall j, j <> i -> contents d' j = contents d j) ->
  lf_dir f = ledger_dir l -> file_name f = nm -> file f = i -> start_idx f = lg_last lg + 1 -> lf_committed f = false ->
  holds d' f [data] ->
  disk_ok d' (l <| files := files l ++ [f] |>) (lg <| lg_entries := lg_entries lg ++ [data] |>).
Proof.
  intros Hok Hall Hrise Hb Hnm Hi Hdirs Hnames Hlen Hcon Hfd Hfn Hfi Hst Hco Hh.
  pose proof (lo_base _ _ _ Hok) as Hbase. pose proof (lo_bound _ _ _ Hok) as Hbound.
  pose proof (extends_app lg [data] ltac:(cbn; lia) ltac:(lia)) as Hex.
  assert (0 <= lg_last lg + 1 < 2 ^ 63) as Hr by lia.
  assert (forall q j, q <> (ledger_dir l, nm) -> names d' !! q = Some j -> names d !! q = Some j) as Hold.
  { intros q j Hq. rewrite Hnames. by rewrite lookup_insert_ne by done. }
  assert (forall q, names d' !! q = Some i -> q = (ledger_dir l, nm)) as Hqi.
  { intros q Hq. destruct (decide (q = (ledger_dir l, nm))) as [|Hne]; [done|]. apply Hold in Hq; [|done]. by apply (fresh_inode d l lg nm i). }
  assert (forall dir name v, get_last_idx_from_file_name name = Ret (Some v) -> (dir, name) <> (ledger_dir l, nm)) as Hlastne.
  { intros dir name v Hv [= -> ->]. rewrite Hnm, new_name_last in Hv; done. }
  assert (forall g, g ∈ files l -> file g <> i /\ (lf_dir g, file_name g) <> (ledger_dir l, nm)) as Hg.
  { intros g Hg. destruct (lo_files _ _ _ Hok g Hg) as (Hgd & Hgn & Hgi & _). pose proof (file_bounds _ _ _ _ Hok Hg).
    assert (file_name g <> nm) as Hne. { intros E. pose proof (name_start g ltac:(lia)) as Hs. rewrite <- Hgn, E, Hnm, new_name_start in Hs by lia. injection Hs. lia. }
    split; [|congruence]. intros E. rewrite E in Hgi. apply (fresh_inode d l lg nm i _ Hok Hi) in Hgi. congruence. }
  destruct (lo_chain _ _ _ Hok) as (closed & opened & He & Hcl & Hch & Hcov).
  split; cbn.
  - rewrite Hdirs. apply Hok.
  - apply Hok.
  - done.
  - unfold lg_last in *. cbn. rewrite length_app. cbn. lia.
  - intros p q j Hp Hq. destruct (decide (j = i)) as [->|Hne]; [by rewrite (Hqi _ Hp), (Hqi _ Hq)|].
    assert (forall p, names d' !! p = Some j -> names d !! p = Some j) as Hj.
    { intros p0 Hp0. apply Hold; [|done]. intros ->. rewrite Hnames, lookup_insert_eq in Hp0. congruence. }
    apply (lo_names _ _ _ Hok _ _ j); by apply Hj.
  - intros p j Hp. destruct (decide (p = (ledger_dir l, nm))) as [->|Hne].
    + rewrite Hnames, lookup_insert_eq in Hp. injection Hp as <-. rewrite <- Hfi. apply Hh.
    + apply Hold in Hp; [|done]. apply (lo_inodes _ _ _ Hok) in Hp. lia.
  - intros g [Hgl| ->%list_elem_of_singleton]%elem_of_app.
    + destruct (Hg g Hgl) as [Hgi Hgn]. destruct (lo_files _ _ _ Hok g Hgl) as (Hgd & ? & ? & ?). unfold file_ok. rewrite Hnames.
      rewrite lookup_insert_ne by (rewrite Hgd in Hgn; congruence). done.
    + unfold file_ok, name_of_file. rewrite Hco, Hfn, Hst, Hfi, Hnames, lookup_insert_eq. by rewrite <- Hnm.
  - intros name j Hn. destruct (decide (name = nm)) as [->|Hne]; [right; left; exists f; split; [apply elem_of_app; right; by left|done]|].
    apply Hold in Hn; [|congruence]. destruct (lo_tidy _ _ _ Hok name j Hn) as [Hi'|[(g & Hgl & E)|(s & e & E & Hse & He' & Hlt)]]; [by left| |].
    + right; left. exists g. split; [apply elem_of_app; by left|done].
    + right; right. exists s, e. split_and!; try done; try lia. intros g [Hgl| ->%list_elem_of_singleton]%elem_of_app; [by apply Hlt|].
      pose proof (committed_last _ _ _ _ s e j Hok Hn E Hse He'). lia.
  - rewrite fmap_app. apply rising_snoc; [apply Hok|]. intros E. apply Forall_fmap, Forall_forall. by apply Hrise.
  - intros g Hgl. rewrite removelast_app, app_nil_r in Hgl by done. by apply Hall.
  - exists closed, (opened ++ [data]). split; [by rewrite He, app_assoc|]. split; [done|]. split.
    + apply chained_app. exists opened, [data]. split; [done|]. split.
      * apply (chained_frame d); [done| |done]. intros g Hgl. apply Hcon. by apply Hg.
      * cbn. exists [data], []. split; [done|]. split; [done|]. split; [|done]. rewrite Hst. unfold lg_last. rewrite He, length_app. lia.
    + apply (covered_frame d d' (ledger_dir l) lg _ closed Hcov); [done|]. intros name j v Hn Hv. rewrite Hnames, lookup_insert_ne by (symmetry; by apply Hlastne with v). by exists j.
  - intros dir Hd. apply (dir_ok_frame d _ lg); [by apply (lo_dirs _ _ _ Hok)|done|done|].
    intros name j v Hn Hv. pose proof (Hlastne dir name v Hv) as Hne. pose proof (Hold _ _ Hne Hn) as Hn'. split; [done|]. apply Hcon.
    intros ->. by apply (fresh_inode d l lg nm i _ Hok Hi) in Hn'.
  - intros g Hgc. apply (lo_cache _ _ _ Hok) in Hgc. pose proof Hgc as (es & Hge & _ & _ & Hfr).
    assert (file g <> i) as Hgi. { intros E. destruct Hi as [Hn|Hi]; [|pose proof (h_inode _ _ _ Hge); lia]. rewrite Hnm, <- E in Hn. by apply Hfr in Hn. }
    apply (cached_frame d _ _ lg); try done; [by apply Hcon|]. intros s r Hs. rewrite Hnames. intros Hn. apply lookup_insert_Some in Hn as [[_ E]|[_ E]]; [congruence|done].
Qed.

(** ** Removing the last files *)

Definition remove_names (dir : string) (fs : list LedgerFile) (d : Disk) : Disk :=
  d <| names := foldl (fun m f => delete (dir, file_name f) m) (names d) fs |>.

Lemma remove_names_lookup dir fs d p i :
  names (remove_names dir fs d) !! p = Some i <-> names d !! p = Some i /\ forall f, f ∈ fs -> p <> (dir, file_name f).
Proof.
  unfold remove_names. cbn. generalize (names d) as m. induction fs as [|f fs IH]; intros m; cbn.
  - split; [intros H; split; [done|]; intros f Hf; by apply not_elem_of_nil in Hf|by intros [? _]].
  - rewrite IH, lookup_delete_Some. split.
    + intros [[Hne Hm] Hfs]. split; [done|]. intros g [->|Hg]%elem_of_cons; [congruence|by apply Hfs].
    + intros [Hm Hfs]. split; [split; [|done]|].
      * intros E. apply (Hfs f); [by left|done].
      * intros g Hg. apply Hfs. by right.
Qed.

Lemma extends_take lg es es' :
  lg_entries lg = es ++ es' -> lg_committed lg <= lg_base lg + len es -> lg_last lg < 2 ^ 62 -> extends lg (lg <| lg_entries := es |>).
Proof.
  intros He Hc Hl. unfold lg_last in Hl. rewrite He, length_app in Hl. split; cbn; unfold lg_last; cbn; try lia.
  intros idx e Hi. unfold lg_lookup. cbn. destruct (Z.ltb_spec (lg_base lg) idx); [|done]. rewrite He. intros Hk. rewrite lookup_app_l in Hk; [done|lia].
Qed.

Lemma disk_ok_drop d l lg fs1 fs2 closed e1 e2 :
  disk_ok d l lg -> files l = fs1 ++ fs2 -> (forall f, f ∈ fs2 -> lf_committed f = false) ->
  lg_entries lg = closed ++ e1 ++ e2 -> chained d (lg_base lg + len closed + 1) fs1 e1 -> covered d (ledger_dir l) lg closed ->
  lg_base lg + len closed <= lg_committed lg <= lg_base lg + len closed + len e1 ->
  disk_ok (remove_names (ledger_dir l) fs2 d) (l <| files := fs1 |>) (lg <| lg_entries := closed ++ e1 |>).
Proof.
  intros Hok Hfs H2 He H1 Hcov Hcom. pose proof (lo_base _ _ _ Hok) as Hbase. pose proof (lo_bound _ _ _ Hok) as Hbound.
  assert (extends lg (lg <| lg_entries := closed ++ e1 |>)) as Hex.
  { apply (extends_take lg (closed ++ e1) e2); [by rewrite He, app_assoc| |lia]. rewrite length_app. lia. }
  assert (forall f, f ∈ fs1 -> f ∈ files l) as Hin1 by (intros f Hf; rewrite Hfs; apply elem_of_app; by left).
  assert (forall f, f ∈ fs2 -> f ∈ files l) as Hin2 by (intros f Hf; rewrite Hfs; apply elem_of_app; by right).
  assert (forall dir name v f, get_last_idx_from_file_name name = Ret (Some v) -> f ∈ fs2 -> (dir, name) <> (ledger_dir l, file_name f)) as Hlast.
  { intros dir name v f Hv Hf [= -> ->]. destruct (written_name _ _ _ _ Hok (Hin2 f Hf) (H2 f Hf)) as [_ Hr].
    destruct (lo_files _ _ _ Hok f (Hin2 f Hf)) as (_ & Hn & _). unfold name_of_file in Hn. rewrite (H2 f Hf) in Hn. rewrite Hn, new_name_last in Hv; done. }
  assert (forall p i, names (remove_names (ledger_dir l) fs2 d) !! p = Some i -> names d !! p = Some i) as Hold.
  { intros p i Hp. by apply remove_names_lookup in Hp as [Hp _]. }
  split; cbn.
  - apply Hok.
  - apply Hok.
  - done.
  - pose proof (ex_committed _ _ Hex). pose proof (ex_bound _ _ Hex). cbn in *. lia.
  - intros p q i Hp%Hold Hq%Hold. by apply (lo_names _ _ _ Hok _ _ i).
  - intros p i Hp%Hold. by apply (lo_inodes _ _ _ Hok _ _ Hp).
  - intros g Hg. destruct (lo_files _ _ _ Hok g (Hin1 g Hg)) as (Hgd & Hgn & Hgi & Hgc). split; [done|]. split; [done|]. split; [|done].
    apply remove_names_lookup. split; [done|]. intros f Hf [= E]. pose proof (Hin1 g Hg) as Hgl. pose proof (Hin2 f Hf) as Hfl.
    destruct (lo_files _ _ _ Hok f Hfl) as (_ & _ & Hfi & _). rewrite <- E, Hgi in Hfi. injection Hfi as Hfi.
    apply list_elem_of_split in Hf as (x & y & ->). apply (distinct_inode d l lg (fs1 ++ x) f y g Hok); [by rewrite Hfs, app_assoc| |done].
    left. apply elem_of_app. by left.
  - intros name i Hn. pose proof Hn as Hn'. apply remove_names_lookup in Hn as [Hn Hne]. apply (tidy_name_mono (files l)); [| |by apply (lo_tidy _ _ _ Hok _ i)].
    + intros g Hg E. rewrite Hfs in Hg. apply elem_of_app in Hg as [Hg|Hg]; [by exists g|]. subst name. by destruct (Hne g Hg).
    + intros g Hg. exists g. split; [by apply Hin1|done].
  - pose proof (lo_rising _ _ _ Hok) as Hr. rewrite Hfs, fmap_app in Hr. by apply rising_app in Hr as [Hr _].
  - intros g Hg. apply (lo_complete _ _ _ Hok). rewrite Hfs. destruct fs2 as [|f2 fs2]; [by rewrite app_nil_r|].
    rewrite removelast_app by done. apply elem_of_app. left. clear -Hg. destruct fs1 as [|x fs1] using rev_ind; [done|].
    rewrite removelast_app, app_nil_r in Hg by done. apply elem_of_app. by left.
  - exists closed, e1. split; [done|]. split; [lia|]. split; [by apply (chained_frame d)|].
    change (covered (remove_names (ledger_dir l) fs2 d) (ledger_dir l) lg closed). apply (covered_frame d _ _ lg); [done..|]. intros name i v Hn Hv. exists i. apply remove_names_lookup.
    split; [done|]. intros f Hf. by apply Hlast with v.
  - intros dir Hd. apply (dir_ok_frame d _ lg); [by apply (lo_dirs _ _ _ Hok)|done|done|]. intros name i v Hn Hv. split; [by apply Hold|done].
  - intros g Hg. apply (lo_cache _ _ _ Hok) in Hg. apply (cached_frame d _ _ lg); try done. intros s r Hs Hn. by apply Hold.
Qed.

(** ** Renaming a file *)

Definition renamed (dir old new : string) (i : nat) (d : Disk) : Disk :=
  d <| names := <[(dir, new) := i]> (delete (dir, old) (names d)) |>.

Lemma renamed_lookup dir old new i d p j :
  names (renamed dir old new i d) !! p = Some j <->
  (p = (dir, new) /\ j = i) \/ (p <> (dir, new) /\ p <> (dir, old) /\ names d !! p = Some j).
Proof.
  unfold renamed. cbn. rewrite lookup_insert_Some, lookup_delete_Some. split.
  - intros [[<- <-]|(Hne & Hne' & H)]; [by left|right; split_and!; congruence].
  - intros [[-> ->]|(Hne & Hne' & H)]; [by left|right; split_and!; congruence].
Qed.

Lemma disk_ok_rename d l lg fs1 f fs2 new fs' :
  let d' := renamed (ledger_dir l) (file_name f) new (file f) d in
  disk_ok d l lg -> files l = fs1 ++ f :: fs2 -> get_start_idx_from_file_name new = Ret (start_idx f) ->
  (forall v, get_last_idx_from_file_name new = Ret (Some v) ->
    exists ef, contents d (file f) = image true ef /\ len ef = v - start_idx f + 1 /\ chunk lg (start_idx f) ef) ->
  (forall s r, 0 <= s < 2 ^ 63 -> new = new_file_name s r -> lf_committed f = false) ->
  (forall g, g ∈ fs' -> (g ∈ fs1 \/ g ∈ fs2) \/ (file_ok d' (ledger_dir l) lg g /\ start_idx g = start_idx f)) ->
  (forall g, g ∈ fs1 \/ g ∈ fs2 -> g ∈ fs') -> tidy_name fs' new ->
  rising (recovery <$> fs') -> (forall g, g ∈ removelast fs' -> completed g = true) ->
  (exists closed opened, lg_entries lg = closed ++ opened /\ lg_base lg + len closed <= lg_committed lg /\
    chained d (lg_base lg + len closed + 1) fs' opened /\ covered d' (ledger_dir l) lg closed) ->
  disk_ok d' (l <| files := fs' |>) lg.
Proof.
  intros d' Hok Hfs Hst Hchunk Hnew Hin Hback Htidy Hrise Hcomp Hchain.
  assert (f ∈ files l) as Hf by (rewrite Hfs, elem_of_app, elem_of_cons; tauto).
  pose proof (lo_files _ _ _ Hok f Hf) as (Hfd & Hfn & Hfi & _). pose proof (lo_inodes _ _ _ Hok _ _ Hfi) as Hi.
  pose proof (file_bounds _ _ _ _ Hok Hf) as Hfb. pose proof (lo_bound _ _ _ Hok) as Hbound.
  assert (extends lg lg) as Hex by (split; [done|lia|lia|done]).
  split; cbn.
  - apply Hok.
  - apply Hok.
  - apply Hok.
  - done.
  - intros p q i [[-> ->]|(Hp1 & Hp2 & Hp)]%renamed_lookup [[-> E]|(Hq1 & Hq2 & Hq)]%renamed_lookup; subst; try done.
    + by pose proof (lo_names _ _ _ Hok _ _ _ Hq Hfi).
    + by pose proof (lo_names _ _ _ Hok _ _ _ Hp Hfi).
    + by apply (lo_names _ _ _ Hok _ _ i).
  - intros p i [[-> ->]|(_ & _ & Hp)]%renamed_lookup; [done|]. by apply (lo_inodes _ _ _ Hok _ _ Hp).
  - intros g Hg. destruct (Hin g Hg) as [Hg'|[]]; [|done].
    assert (g ∈ files l) as Hgl by (rewrite Hfs, elem_of_app, elem_of_cons; tauto).
    destruct (lo_files _ _ _ Hok g Hgl) as (? & Hgn & Hgi & ?). split_and!; try done. apply renamed_lookup. right.
    pose proof (distinct_inode _ _ _ _ _ _ _ Hok Hfs Hg') as Hne. pose proof (file_bounds _ _ _ _ Hok Hgl).
    split_and!; [| |done].
    + intros [= E]. apply (distinct_start _ _ _ _ _ _ _ Hok Hfs Hg').
      pose proof (name_start g ltac:(lia)) as Hs. rewrite <- Hgn, E, Hst in Hs. by injection Hs.
    + intros [= E]. rewrite E, Hfi in Hgi. congruence.
  - intros name i [[[= ->] ->]|(_ & Hn2 & Hn)]%renamed_lookup; [done|]. apply (tidy_name_mono (files l)); [| |by apply (lo_tidy _ _ _ Hok _ i)]; rewrite Hfs.
    + intros g. rewrite elem_of_app, elem_of_cons. intros [Hg|[->|Hg]] E; [exists g; auto|by rewrite E in Hn2|exists g; auto].
    + intros g Hg. destruct (Hin g Hg) as [Hg'|[_ ->]]; [exists g|exists f]; rewrite elem_of_app, elem_of_cons; split; (tauto || done).
  - done.
  - done.
  - destruct Hchain as (closed & opened & He & Hc & Hch & Hcov). exists closed, opened. split_and!; try done. by apply (chained_frame d).
  - intros dir Hd name i s v Hn Hig Hs Hv. apply renamed_lookup in Hn as [[[= -> ->] ->]|(_ & _ & Hn)].
    + rewrite Hst in Hs. injection Hs as <-. split; [done|]. by apply Hchunk.
    + by apply (lo_dirs _ _ _ Hok dir Hd name i s v).
  - intros g Hg. apply (lo_cache _ _ _ Hok) in Hg. apply (cached_frame d _ _ lg); try done.
    intros s r Hs [[[= E] E']|(_ & _ & Hn)]%renamed_lookup; [|done]. exfalso.
    by apply (written_not_cached _ _ _ f g Hok Hf (Hnew s r Hs (eq_sym E)) Hg).
Qed.

Lemma covered_renamed d l lg f new closed :
  disk_ok d l lg -> f ∈ files l -> lf_committed f = false -> covered d (ledger_dir l) lg closed ->
  covered (renamed (ledger_dir l) (file_name f) new (file f) d) (ledger_dir l) lg closed.
Proof.
  intros Hok Hf Hc Hcov. apply (covered_frame d _ _ lg); [done..|]. intros name i v Hn Hv.
  destruct (decide (name = new)) as [->|Hne].
  - exists (file f). apply renamed_lookup. by left.
  - exists i. apply renamed_lookup. right. split_and!; [congruence| |done]. intros [= E].
    destruct (lo_files _ _ _ Hok f Hf) as (_ & Hfn & _). destruct (written_name _ _ _ _ Hok Hf Hc) as [_ Hr].
    unfold name_of_file in Hfn. rewrite Hc in Hfn. rewrite E, Hfn, new_name_last in Hv; done.
Qed.
End updates.
