(* ===== verification/LedgerWrites.v ===== *)
(** Appending to the ledger, truncating it, committing and completing a recovery keep the invariant. *)

From Stdlib Require Import String.
From S2P Require Import Prelude Serialized LedgerFile Ledger LedgerNames LedgerFileProps LedgerInvariant LedgerUpdates.

Section writes.
Implicit Types (w : LedgerWorld) (lg : Log).

(** ** Methods of files in the list *)

Lemma on_file_eq {A} (m : F A) w fs1 f fs2 f' d' o :
  files (lw_ledger w) = fs1 ++ f :: fs2 -> m (MkFileWorld f (lw_disk w)) = (MkFileWorld f' d', o) ->
  on_file (length fs1) m w = (MkLedgerWorld ((lw_ledger w) <| files := fs1 ++ f' :: fs2 |>) d', o).
Proof.
  intros Hfs Hm. unfold on_file. rewrite Hfs, list_lookup_middle by done. rewrite Hm. cbn [fw_file fw_disk].
  rewrite insert_app_r_alt, Nat.sub_diag by lia. done.
Qed.

Lemma latest_snoc (l : Ledger) fs f : files l = fs ++ [f] -> latest l = length fs.
Proof. intros H. unfold latest. rewrite H, length_app. cbn. lia. Qed.

Lemma files_snoc (l : Ledger) : files l <> [] -> exists fs f, files l = fs ++ [f].
Proof. intros H. destruct (files l) as [|f fs] using rev_ind; [done|]. by exists fs, f. Qed.

Lemma last_complete d l lg fs f : disk_ok d l lg -> files l = fs ++ [f] -> forall g, g ∈ fs -> completed g = true.
Proof. intros Hok Hfs g Hg. apply (lo_complete _ _ _ Hok). by rewrite Hfs, removelast_app, app_nil_r by done. Qed.

Lemma not_committed d l lg f : disk_ok d l lg -> f ∈ files l -> completed f = false -> lf_committed f = false.
Proof.
  intros Hok Hf Hc. destruct (lf_committed f) eqn:E; [|done]. destruct (lo_files _ _ _ Hok f Hf) as (_ & _ & _ & H). destruct (H E) as [H' _]. congruence.
Qed.

(** The end of the chain. *)
Lemma chain_snoc d l lg fs f :
  disk_ok d l lg -> files l = fs ++ [f] ->
  exists closed e1 ef, lg_entries lg = closed ++ e1 ++ ef /\ lg_base lg + len closed <= lg_committed lg /\
    chained d (lg_base lg + len closed + 1) fs e1 /\ start_idx f = lg_base lg + len closed + 1 + len e1 /\ holds d f ef /\ ef <> [] /\
    covered d (ledger_dir l) lg closed /\ get_last_idx f = lg_last lg.
Proof.
  intros Hok Hfs. destruct (lo_chain _ _ _ Hok) as (closed & opened & He & Hcl & Hch & Hcov). rewrite Hfs in Hch.
  apply chained_app in Hch as (e1 & e2 & -> & H1 & (ef & e3 & -> & Hne & Hst & Hh & ->)). rewrite app_nil_r in He.
  exists closed, e1, ef. split_and!; try done. rewrite (file_holds_last _ _ _ Hh), Hst. unfold lg_last. rewrite He, !length_app. lia.
Qed.

(** ** Completing the last file *)

Lemma extends_refl d l lg : disk_ok d l lg -> extends lg lg.
Proof. intros Hok. pose proof (lo_bound _ _ _ Hok). split; [done|lia|lia|done]. Qed.

Lemma complete_latest_ok w lg :
  ledger_ok w lg -> files (lw_ledger w) <> [] ->
  exists w', complete_latest w = (w', Ret tt) /\ ledger_ok w' lg /\ require_new_file (lw_ledger w') = true.
Proof.
  intros (Hok & Hlast & Hcom & Hreq & Hset & Hrec) Hne. destruct (files_snoc _ Hne) as (fs & f & Hfs).
  assert (f ∈ files (lw_ledger w)) as Hf by (rewrite Hfs, elem_of_app, elem_of_cons; tauto).
  destruct (chain_snoc _ _ _ _ _ Hok Hfs) as (closed & e1 & ef & He & Hcl & H1 & Hst & Hh & Hnef & Hcov & Hlf).
  destruct (complete_holds _ f ef Hh Hnef) as (f' & d' & Hc & Hh' & Hcf' & Hk & Hd').
  pose proof Hk as (Hk1 & Hk2 & Hk3 & Hk4 & Hk5 & Hk6).
  assert (get_last_idx f' = get_last_idx f) as Hl by (by rewrite (file_holds_last _ _ _ Hh'), (file_holds_last _ _ _ Hh), Hk2).
  exists (MkLedgerWorld ((lw_ledger w) <| files := fs ++ [f'] |> <| require_new_file := true |>) d').
  split. { unfold complete_latest, mbind, ST_bind, ledger, gets. rewrite (latest_snoc _ fs f Hfs). by rewrite (on_file_eq _ w fs f [] f' d' (Ret tt)). }
  assert (disk_ok d' ((lw_ledger w) <| files := fs ++ [f'] |>) lg) as Hok'.
  { destruct (completed f) eqn:Ec.
    - assert (f' = f /\ d' = lw_disk w) as [-> ->].
      { unfold complete, mbind, ST_bind, get in Hc. cbn in Hc. rewrite Ec in Hc. by injection Hc. }
      assert ((lw_ledger w) <| files := fs ++ [f] |> = lw_ledger w) as ->; [|done]. rewrite <- Hfs. by destruct (lw_ledger w).
    - assert (d' = set_contents (file f) (image true ef) (lw_disk w)) as ->.
      { destruct Hd' as [->|]; [|done]. exfalso. clear -Hh Hh' Hcf' Ec Hnef Hk1. destruct (h_contents _ _ _ Hh) as [E|(-> & _)]; [|done].
        destruct (h_contents _ _ _ Hh') as [E'|(-> & _)]; [|done]. rewrite Hk1, E, Ec, Hcf' in E'. unfold image in E'.
        apply (f_equal length) in E'. rewrite !length_app, le_encode_length in E'. unfold zeros in E'. rewrite length_replicate in E'.
        pose proof (table_nonempty ef Hnef). lia. }
      eapply (disk_ok_update _ _ lg lg fs f f' _ closed e1 ef); try done; [by apply (not_committed _ _ _ _ Hok Hf)|by eapply extends_refl]. }
  split; [|done]. split; [by destruct Hok'; split|]. cbn. split; [done|]. split; [done|]. split; [|split].
  - by rewrite last_snoc.
  - intros g [Hg| ->%list_elem_of_singleton]%elem_of_app; intros Hgl.
    + apply Hset; [rewrite Hfs; apply elem_of_app; by left|done].
    + rewrite Hk5. apply Hset; [done|]. by rewrite <- Hl.
  - destruct (recovery_start_idx (lw_ledger w)); [done|]. cbn in *. intros g [Hg| ->%list_elem_of_singleton]%elem_of_app.
    + apply Hrec. rewrite Hfs. apply elem_of_app. by left.
    + rewrite Hk6. by apply Hrec.
Qed.

(** ** Appending *)

Lemma fopen_new_spec d l lg nm :
  disk_ok d l lg -> exists d1 i, fopen_new (ledger_dir l) nm d = (d1, Some i) /\ directories d1 = directories d /\
    names d1 = <[(ledger_dir l, nm) := i]> (names d) /\ (length (inodes d) <= length (inodes d1))%nat /\ (i < length (inodes d1))%nat /\ contents d1 i = [] /\
    (forall j, j <> i -> contents d1 j = contents d j) /\ (names d !! (ledger_dir l, nm) = Some i \/ (length (inodes d) <= i)%nat).
Proof.
  intros Hok. unfold fopen_new. rewrite bool_decide_true by apply Hok. cbn [negb]. destruct (names d !! (ledger_dir l, nm)) as [i|] eqn:E.
  - pose proof (lo_inodes _ _ _ Hok _ _ E) as Hi. eexists _, i. split; [done|]. split; [done|]. split; [by rewrite names_set, insert_id|].
    rewrite length_set, contents_set, decide_True by done. split_and!; try done; [|by left]. intros j Hj. by rewrite contents_set, decide_False by done.
  - eexists _, (length (inodes d)). split; [done|]. cbn. rewrite length_app. cbn. split_and!; try done; try lia.
    + unfold contents. cbn. by rewrite lookup_app_r, Nat.sub_diag by lia.
    + intros j Hj. unfold contents. cbn. destruct (decide (j < length (inodes d))%nat); [by rewrite lookup_app_l by lia|].
      rewrite !lookup_ge_None_2; [done|lia|]. rewrite length_app. cbn. lia.
Qed.

(** Space for another entry in the chunk. *)
Definition room (w : LedgerWorld) (data : bytes) : Prop := from_option total_len 8 (last (files (lw_ledger w))) + len data < 2 ^ 32.

Definition lg_append (lg : Log) (data : bytes) : Log := lg <| lg_entries := lg_entries lg ++ [data] |>.

Lemma lg_append_last lg data : lg_last (lg_append lg data) = lg_last lg + 1.
Proof. unfold lg_last. cbn. rewrite length_app. cbn. lia. Qed.

Lemma append_new w lg data c :
  ledger_ok w lg -> require_new_file (lw_ledger w) = true -> nonempty data -> 8 + len data < 2 ^ 32 -> lg_last lg + 1 < 2 ^ 62 ->
  exists w', append_entry data c w = (w', Ret (lg_last lg + 1)) /\ ledger_ok w' (lg_append lg data) /\ require_new_file (lw_ledger w') = false.
Proof.
  intros (Hok & Hlast & Hcom & Hreq & Hset & Hrec) Hnew Hne Hroom Hb. pose proof (lo_base _ _ _ Hok) as Hbase. pose proof (lo_bound _ _ _ Hok) as Hbound.
  set (r := from_option (fun r => r <? lg_last lg + 1) false (recovery_start_idx (lw_ledger w))).
  destruct (fopen_new_spec _ _ _ (new_file_name (lg_last lg + 1) r) Hok) as (d1 & i & Hopen & Hd1 & Hn1 & Hl1 & Hi & Hci & Hcj & Hfresh).
  set (f0 := MkLedgerFile (ledger_dir (lw_ledger w)) (new_file_name (lg_last lg + 1) r) i (lg_last lg + 1) 8 [] false false r).
  assert (holds d1 f0 []) as Hh0. { split; cbn; try done; try lia. right. done. }
  destruct (write_entry_holds d1 f0 [] data c Hh0) as (f' & Hw & Hh' & Hc' & (Hk1 & Hk2 & Hk3 & Hk4 & Hk5 & Hk6)); [done..|change (size_of []) with 0; lia|cbn; lia|].
  set (d2 := set_contents (file f0) (image false [data]) d1) in *.
  exists (MkLedgerWorld ((lw_ledger w) <| files := files (lw_ledger w) ++ [f'] |> <| require_new_file := false |> <| last_idx := lg_last lg + 1 |>) d2).
  assert (forall g, g ∈ files (lw_ledger w) -> completed g = true) as Hall.
  { rewrite Hnew in Hreq. destruct (files (lw_ledger w)) as [|x fs] eqn:E using rev_ind; [intros g Hg; by apply not_elem_of_nil in Hg|].
    rewrite last_snoc in Hreq. cbn in Hreq. intros g [Hg| ->%list_elem_of_singleton]%elem_of_app; [|done]. by apply (last_complete _ _ _ _ _ Hok E). }
  split; [|split].
  - unfold append_entry. unfold mbind at 1, ST_bind at 1, ledger at 1, gets at 1. rewrite Hnew, Hlast, u64_small by (unfold u64_modulus; lia). fold r.
    unfold mbind at 1, ST_bind at 1, mbind at 1, ST_bind at 1, zoom at 1, new_LedgerFile, mbind at 1, ST_bind at 1, get at 1. rewrite Hopen.
    unfold mbind at 1, ST_bind at 1, modify at 1, mret at 1, ST_ret at 1, positions_offset_header_size. fold f0.
    unfold on_ledger at 1, zoom at 1, modify at 1. unfold mbind at 1, ST_bind at 1, ledger at 1, gets at 1. cbn [lw_ledger lw_disk].
    match goal with |- (_ ≫= _) ?w1 = _ => set (w1' := w1) end.
    assert (w1' = MkLedgerWorld ((lw_ledger w) <| files := files (lw_ledger w) ++ [f0] |> <| require_new_file := false |>) d1) as -> by (by destruct w as [[] ?]).
    unfold mbind at 1, ST_bind at 1. cbn [lw_ledger]. rewrite (latest_snoc _ (files (lw_ledger w)) f0) by done.
    erewrite (on_file_eq _ _ (files (lw_ledger w)) f0 [] f'); [|done|exact Hw]. cbn. destruct w as [[] ?]. cbn. by rewrite Z.add_0_r.
  - split; cbn.
    + assert (disk_ok d2 ((lw_ledger w) <| files := files (lw_ledger w) ++ [f'] |>) (lg_append lg data)) as Hok'; [|by destruct Hok'; split].
      assert (forall j, j <> i -> contents d2 j = contents (lw_disk w) j) as Hc2.
      { intros j Hj. unfold d2. rewrite contents_set by done. rewrite decide_False by done. by apply Hcj. }
      apply (disk_ok_new (lw_disk w) d2 _ lg f' data (new_file_name (lg_last lg + 1) r) i); try done.
      * rewrite Hk6. cbn. intros Hr. subst r. clear -Hr Hrec. destruct (recovery_start_idx (lw_ledger w)) as [x|]; cbn in *; [|done].
        apply Z.ltb_ge in Hr. lia.
      * by rewrite Hk6.
      * unfold d2. by rewrite length_set.
    + rewrite lg_append_last. split; [done|]. split; [done|]. split; [by rewrite last_snoc|]. split.
      * intros g [Hg| ->%list_elem_of_singleton]%elem_of_app Hgl; [by apply Hset|]. rewrite (file_holds_last _ _ _ Hh'), Hk2 in Hgl. cbn in Hgl. lia.
      * destruct (recovery_start_idx (lw_ledger w)) as [x|] eqn:Ex; cbn in *; [lia|]. intros g [Hg| ->%list_elem_of_singleton]%elem_of_app; [by apply Hrec|]. by rewrite Hk6.
  - done.
Qed.

Lemma append_old w lg data c :
  ledger_ok w lg -> require_new_file (lw_ledger w) = false -> nonempty data -> room w data -> lg_last lg + 1 < 2 ^ 62 ->
  exists w', append_entry data c w = (w', Ret (lg_last lg + 1)) /\ ledger_ok w' (lg_append lg data) /\ require_new_file (lw_ledger w') = false.
Proof.
  intros (Hok & Hlast & Hcom & Hreq & Hset & Hrec) Hold Hne Hroom Hb. pose proof (lo_base _ _ _ Hok) as Hbase. pose proof (lo_bound _ _ _ Hok) as Hbound.
  assert (files (lw_ledger w) <> []) as Hnil by (intros E; rewrite Hold, E in Hreq; done). destruct (files_snoc _ Hnil) as (fs & f & Hfs).
  unfold room in Hroom. rewrite Hold, Hfs, last_snoc in Hreq. rewrite Hfs, last_snoc in Hroom. cbn in Hreq, Hroom. symmetry in Hreq.
  assert (f ∈ files (lw_ledger w)) as Hf by (rewrite Hfs, elem_of_app, elem_of_cons; tauto).
  pose proof (not_committed _ _ _ _ Hok Hf Hreq) as Hnc.
  destruct (chain_snoc _ _ _ _ _ Hok Hfs) as (closed & e1 & ef & He & Hcl & H1 & Hst & Hh & Hnef & Hcov & Hlf).
  assert (start_idx f + len ef = lg_last lg + 1) as Hidx by (rewrite (file_holds_last _ _ _ Hh) in Hlf; lia).
  rewrite (h_total _ _ _ Hh) in Hroom. destruct (write_entry_holds _ f ef data c Hh Hreq Hne Hroom ltac:(lia)) as (f' & Hw & Hh' & Hc' & Hk).
  rewrite Hidx in Hw. pose proof Hk as (Hk1 & Hk2 & Hk3 & Hk4 & Hk5 & Hk6). set (d' := set_contents (file f) (image false (ef ++ [data])) (lw_disk w)) in *.
  exists (MkLedgerWorld ((lw_ledger w) <| files := fs ++ [f'] |> <| last_idx := lg_last lg + 1 |>) d').
  split; [|split; [|done]].
  - unfold append_entry, mbind, ST_bind, ledger, gets. rewrite Hold. unfold skip, mret, ST_ret. rewrite (latest_snoc _ fs f Hfs).
    erewrite (on_file_eq _ _ fs f [] f'); [|done|exact Hw]. by destruct w as [[] ?].
  - split; cbn.
    + assert (disk_ok d' ((lw_ledger w) <| files := fs ++ [f'] |>) (lg_append lg data)) as Hok'; [|by destruct Hok'; split].
      apply (disk_ok_update _ _ lg (lg_append lg data) fs f f' _ closed e1 (ef ++ [data])); try done.
      * cbn. by rewrite He, <- !app_assoc.
      * apply extends_app; cbn; lia.
      * by destruct ef.
    + rewrite lg_append_last. split; [done|]. split; [done|]. split; [by rewrite last_snoc, Hold|]. split.
      * intros g [Hg| ->%list_elem_of_singleton]%elem_of_app Hgl; [apply Hset; [rewrite Hfs; apply elem_of_app; by left|done]|].
        rewrite (file_holds_last _ _ _ Hh'), Hk2, length_app in Hgl. cbn in Hgl. lia.
      * destruct (recovery_start_idx (lw_ledger w)) as [x|] eqn:Ex; cbn in *; [lia|]. intros g [Hg| ->%list_elem_of_singleton]%elem_of_app.
        -- apply Hrec. rewrite Hfs. apply elem_of_app. by left.
        -- rewrite Hk6. by apply Hrec.
Qed.

Lemma room_8 w lg data : ledger_ok w lg -> room w data -> 8 + len data < 2 ^ 32.
Proof.
  intros [Hok _] Hroom. unfold room in Hroom. destruct (files (lw_ledger w)) as [|f fs] eqn:E using rev_ind; [done|]. clear IHfs. rewrite last_snoc in Hroom. cbn in Hroom.
  destruct (chain_snoc _ _ _ _ _ Hok E) as (_ & _ & ef & _ & _ & _ & _ & Hh & _). rewrite (h_total _ _ _ Hh) in Hroom. pose proof (size_nonneg ef). lia.
Qed.

Lemma append_ok w lg data c :
  ledger_ok w lg -> nonempty data -> room w data -> lg_last lg + 1 < 2 ^ 62 ->
  exists w', append_entry data c w = (w', Ret (lg_last lg + 1)) /\ ledger_ok w' (lg_append lg data) /\ require_new_file (lw_ledger w') = false.
Proof.
  intros Hok Hne Hroom Hb. destruct (require_new_file (lw_ledger w)) eqn:E; [|by apply append_old].
  apply append_new; try done. by eapply room_8.
Qed.

(** A chunk must not end in an entry that is not committable. *)
Definition refused (data : bytes) (committable : bool) : bool :=
  negb (Z.land (entry_flags_of (le_decode (take 8 data))) FORCE_LEDGER_CHUNK_AFTER =? 0) && negb committable.

Lemma write_entry_spec w lg data committable :
  ledger_ok w lg -> (8 <= length data)%nat -> room w data -> lg_last lg + 1 < 2 ^ 62 ->
  exists w', if refused data committable
    then write_entry data committable w = (w', Throw (LogicError "Ledger chunks cannot end in a non-committable transaction")) /\ ledger_ok w' lg
    else write_entry data committable w = (w', Ret (lg_last lg + 1)) /\ ledger_ok w' (lg_append lg data).
Proof.
  intros Hok Hlen Hroom Hb. assert (nonempty data) as Hne by (intros ->; cbn in Hlen; lia). pose proof (room_8 _ _ _ Hok Hroom) as H8.
  set (flags := entry_flags_of (le_decode (take 8 data))).
  assert (exists w1, complete_if (negb (Z.land flags FORCE_LEDGER_CHUNK_BEFORE =? 0) && negb (length (files (lw_ledger w)) =? 0)%nat) w =
    (w1, Ret tt) /\ ledger_ok w1 lg /\ exists w2, append_entry data committable w1 = (w2, Ret (lg_last lg + 1)) /\ ledger_ok w2 (lg_append lg data) /\
    require_new_file (lw_ledger w2) = false) as (w1 & Hw1 & Hok1 & w2 & Hw2 & Hok2 & Hr2).
  { unfold complete_if. destruct (_ && _) eqn:E.
    - apply andb_true_iff in E as [_ E%negb_true_iff%Nat.eqb_neq]. destruct (complete_latest_ok w lg Hok) as (w1 & Hc & Hok1 & Hr1); [by intros E'; rewrite E' in E|].
      exists w1. split; [done|]. split; [done|]. by apply append_new.
    - exists w. split; [done|]. split; [done|]. by apply append_ok. }
  assert (exists b, write_entry data committable w =
    (if refused data committable then throw (LogicError "Ledger chunks cannot end in a non-committable transaction")
     else idx ← append_entry data committable; l ← ledger; complete_if (b l);; mret idx) w1) as [b ->].
  { eexists (fun l => _). unfold write_entry. unfold mbind at 1, ST_bind at 1, lift at 1. assert (snd (peek 8 data) = Ret (le_decode (take 8 data))) as ->.
    { unfold peek, mbind, ST_bind, get. destruct (Nat.ltb_spec (length data) 8); [lia|done]. }
    cbv zeta. fold flags. unfold mbind at 1, ST_bind at 1, ledger at 1, gets at 1. unfold mbind at 1, ST_bind at 1. rewrite Hw1. reflexivity. }
  destruct (refused data committable); [by exists w1|].
  unfold mbind at 1, ST_bind at 1. rewrite Hw2. unfold mbind at 1, ST_bind at 1, ledger at 1, gets at 1. unfold mbind at 1, ST_bind at 1.
  unfold complete_if. destruct (b _); [|by exists w2].
  destruct (complete_latest_ok w2 _ Hok2) as (w3 & -> & Hok3 & _); [|by exists w3].
  intros E. destruct Hok2 as (_ & _ & _ & Hreq2 & _). by rewrite Hr2, E in Hreq2.
Qed.

(** ** Truncating *)

Lemma names_distinct d l lg : disk_ok d l lg -> NoDup (file_name <$> files l).
Proof.
  intros Hok. apply NoDup_alt. intros i j x Hi Hj. rewrite list_lookup_fmap_Some in Hi, Hj. destruct Hi as (f & -> & Hi). destruct Hj as (g & E & Hj).
  assert (forall i j f g, files l !! i = Some f -> files l !! j = Some g -> file_name f = file_name g -> (i < j)%nat -> False) as Hlt.
  { clear -Hok. intros i j f g Hi Hj E Hlt. pose proof (take_drop_middle _ _ _ Hi) as Hfs. symmetry in Hfs.
    assert (f ∈ files l /\ g ∈ files l) as [Hf Hg] by (split; by eapply list_elem_of_lookup_2).
    apply (distinct_inode d l lg _ _ _ g Hok Hfs).
    - right. apply (list_elem_of_lookup_2 _ (j - S i)). rewrite lookup_drop. by replace (S i + (j - S i))%nat with j by lia.
    - destruct (lo_files _ _ _ Hok f Hf) as (_ & _ & Hnf & _). destruct (lo_files _ _ _ Hok g Hg) as (_ & _ & Hng & _). rewrite E in Hnf. congruence. }
  destruct (decide (i = j)); [done|]. exfalso. destruct (decide (i < j)%nat); [by apply (Hlt i j f g)|]. apply (Hlt j i g f); try done. lia.
Qed.

(** The files behind the first one are removed. *)
Lemma truncate_rest fs2 : forall pre w s e2 idx,
  files (lw_ledger w) = pre ++ fs2 -> chained (lw_disk w) s fs2 e2 -> NoDup (file_name <$> fs2) ->
  (forall g, g ∈ fs2 -> lf_committed g = false /\ lf_dir g = ledger_dir (lw_ledger w) /\ is_Some (names (lw_disk w) !! (lf_dir g, file_name g))) ->
  truncate_loop (length fs2) (length pre) false idx w =
    (MkLedgerWorld ((lw_ledger w) <| files := pre |>) (remove_names (ledger_dir (lw_ledger w)) fs2 (lw_disk w)), Ret tt).
Proof.
  induction fs2 as [|g fs2 IH]; intros pre w s e2 idx Hfs Hch Hnd Hg; cbn [length truncate_loop].
  - rewrite app_nil_r in Hfs. rewrite <- Hfs. by destruct w as [[] []].
  - destruct Hch as (eg & e3 & -> & Hne & Hs & Hh & Hch). apply NoDup_cons in Hnd as [Hnin Hnd]. destruct (Hg g ltac:(by left)) as (Hgc & Hgd & Hgn).
    unfold mbind at 1, ST_bind at 1, ledger at 1, gets at 1. rewrite Hfs, list_lookup_middle by done. cbn [from_option].
    pose proof (h_start _ _ _ Hh). pose proof (h_last _ _ _ Hh). rewrite u64_small by (unfold u64_modulus; lia).
    pose proof (truncate_removes _ g eg Hh Hgc Hne Hgn) as Ht. unfold mbind at 1, ST_bind at 1. rewrite (on_file_eq _ w pre g fs2 _ _ _ Hfs Ht).
    unfold mbind at 1, ST_bind at 1, on_ledger at 1, zoom at 1, modify at 1.
    match goal with |- truncate_loop _ _ _ _ ?w1 = _ => set (w1' := w1) end.
    assert (w1' = MkLedgerWorld ((lw_ledger w) <| files := pre ++ fs2 |>) ((lw_disk w) <| names := delete (lf_dir g, file_name g) (names (lw_disk w)) |>)) as ->.
    { unfold w1', erase. cbn. rewrite delete_middle. by destruct w as [[] ?]. }
    rewrite (IH pre _ (s + len eg) e3 idx); cbn; [|done|by apply (chained_frame (lw_disk w))|done|].
    + rewrite Hgd. by destruct w as [[] []].
    + intros g' Hg'. destruct (Hg g' ltac:(by right)) as (? & Hgd' & Hn'). split_and!; try done. rewrite lookup_delete_ne; [done|].
      intros [= _ E]. apply Hnin. rewrite E. by apply list_elem_of_fmap_2.
Qed.

Definition lg_truncate (lg : Log) (idx : Z) : Log :=
  if (lg_last lg <=? idx) || (idx <? lg_committed lg) then lg else lg <| lg_entries := take (Z.to_nat (idx - lg_base lg)) (lg_entries lg) |>.

(** The file that an index behind the committed ones is to be cut from. *)
Definition cut_at d l lg (idx : Z) (fs1 : list LedgerFile) f (fs2 : list LedgerFile) (closed e1 ef e2 : list bytes) : Prop :=
  files l = fs1 ++ f :: fs2 /\ lg_entries lg = closed ++ e1 ++ ef ++ e2 /\ lg_base lg + len closed <= lg_committed lg /\
  covered d (ledger_dir l) lg closed /\ chained d (lg_base lg + len closed + 1) fs1 e1 /\ start_idx f = lg_base lg + len closed + 1 + len e1 /\ holds d f ef /\ ef <> [] /\
  chained d (start_idx f + len ef) fs2 e2 /\ start_idx f <= idx + 1 <= get_last_idx f /\
  get_it_contains_idx (files l) (idx + 1) = length fs1 /\ get_it_contains_idx (files l) (lg_last lg) = (length fs1 + length fs2)%nat /\
  (forall g, g ∈ f :: fs2 -> lf_committed g = false).

Lemma uncommitted_at d l lg idx :
  disk_ok d l lg -> lg_committed lg <= idx < lg_last lg -> exists fs1 f fs2 closed e1 ef e2, cut_at d l lg idx fs1 f fs2 closed e1 ef e2.
Proof.
  intros Hok Hidx. pose proof (lo_base _ _ _ Hok) as Hbase. destruct (lo_chain _ _ _ Hok) as (closed & opened & He & Hcl & Hch & Hcov).
  assert (lg_last lg = lg_base lg + len closed + len opened) as Hl by (unfold lg_last; rewrite He, length_app; lia).
  destruct (chained_find _ _ _ _ (idx + 1) Hch ltac:(lia)) as (fs1 & f & fs2 & e1 & ef & e2 & Hfs & -> & H1 & Hst & Hh & Hne & H2 & Hi).
  exists fs1, f, fs2, closed, e1, ef, e2. split_and!; try done; try lia.
  - by rewrite Hst.
  - rewrite Hfs. eapply get_it_chained; [done|done|done|lia].
  - destruct (files_snoc l) as (fs & x & Hx); [rewrite Hfs; by destruct fs1|].
    destruct (chain_snoc _ _ _ _ _ Hok Hx) as (closed' & e1' & ex & He' & _ & Hc' & Hsx & Hhx & Hnx & _ & Hlx).
    assert (length fs = length fs1 + length fs2)%nat as <-. { rewrite Hfs in Hx. apply (f_equal length) in Hx. rewrite !length_app in Hx. cbn in Hx. lia. }
    rewrite Hx. eapply get_it_chained; [done|done| |lia]. rewrite Hlx in *. rewrite (file_holds_last _ _ _ Hhx) in Hlx. destruct ex; [done|]. cbn in *. lia.
  - intros g Hg. destruct (lf_committed g) eqn:E; [|done]. assert (g ∈ files l) as Hgl by (rewrite Hfs; apply elem_of_app; by right).
    destruct (lo_files _ _ _ Hok g Hgl) as (_ & _ & _ & Hgc). destruct (Hgc E) as (_ & _ & Hle). apply elem_of_cons in Hg as [->|Hg]; [lia|].
    pose proof (chained_bounds _ _ _ _ _ H2 Hg). rewrite (file_holds_last _ _ _ Hh) in Hi. lia.
Qed.

Lemma truncate_first (fs1 : list LedgerFile) f n idx w :
  files (lw_ledger w) !! length fs1 = Some f -> u64 (start_idx f - 1) = idx ->
  truncate_loop (S n) (length fs1) true idx w = truncate_loop (S n) (length fs1) false idx w.
Proof. intros Hf <-. cbn [truncate_loop]. unfold mbind, ST_bind, ledger, gets. by rewrite Hf. Qed.

Lemma truncate_step w idx fs1 f fs2 f' d' :
  files (lw_ledger w) = fs1 ++ f :: fs2 -> file_truncate idx (MkFileWorld f (lw_disk w)) = (MkFileWorld f' d', Ret false) ->
  truncate_loop (S (length fs2)) (length fs1) true idx w =
  truncate_loop (length fs2) (length (fs1 ++ [f'])) false idx (MkLedgerWorld ((lw_ledger w) <| files := (fs1 ++ [f']) ++ fs2 |> <| require_new_file := false |>) d').
Proof.
  intros Hfs Ht. cbn [truncate_loop]. unfold mbind at 1, ST_bind at 1, ledger at 1, gets at 1. unfold mbind at 1, ST_bind at 1.
  rewrite (on_file_eq _ w fs1 f fs2 _ _ _ Hfs Ht). unfold mbind at 1, ST_bind at 1, on_ledger at 1, zoom at 1, modify at 1.
  rewrite length_app, Nat.add_comm, <- app_assoc. cbn. by destruct w as [[] ?].
Qed.

(** The effect of [truncate] on a log that reaches beyond the index. *)
Lemma truncate_eq w lg idx fs1 f fs2 :
  ledger_ok w lg -> lg_committed lg <= idx < lg_last lg -> files (lw_ledger w) = fs1 ++ f :: fs2 ->
  get_it_contains_idx (files (lw_ledger w)) (idx + 1) = length fs1 ->
  get_it_contains_idx (files (lw_ledger w)) (lg_last lg) = (length fs1 + length fs2)%nat ->
  truncate idx w =
    (truncate_loop (S (length fs2)) (length fs1) true idx;; on_ledger (set last_idx idx))
      (w <| lw_ledger := (lw_ledger w) <| require_new_file := true |> |>).
Proof.
  intros (Hok & Hlast & Hcom & _) Hidx Hfs Hfrom Hto. pose proof (lo_base _ _ _ Hok). pose proof (lo_bound _ _ _ Hok). unfold truncate.
  unfold mbind at 1, ST_bind at 1, ledger at 1, gets at 1. rewrite Hlast, Hcom. destruct (Z.leb_spec (lg_last lg) idx); [lia|].
  destruct (Z.ltb_spec idx (lg_committed lg)); [lia|]. cbn [orb]. rewrite u64_small by (unfold u64_modulus; lia). rewrite Hfrom, Hto.
  unfold mbind at 1, ST_bind at 1, on_ledger at 1, zoom at 1, modify at 1.
  assert (in_range (length fs1) (length fs1 + length fs2) (lw_ledger w) = true) as ->.
  { unfold in_range. rewrite Hfs, length_app. apply andb_true_iff. rewrite Nat.ltb_lt, Nat.leb_le. cbn [length]. lia. }
  cbn [negb]. by replace (S (length fs1 + length fs2) - length fs1)%nat with (S (length fs2)) by lia.
Qed.

(** The files from the cut on. *)
Lemma cut_files d l lg idx fs1 f fs2 closed e1 ef e2 :
  disk_ok d l lg -> cut_at d l lg idx fs1 f fs2 closed e1 ef e2 ->
  NoDup (file_name <$> f :: fs2) /\ (forall g, g ∈ f :: fs2 -> g ∈ files l) /\
  (forall g, g ∈ f :: fs2 -> lf_committed g = false /\ lf_dir g = ledger_dir l /\ is_Some (names d !! (lf_dir g, file_name g))).
Proof.
  intros Hok (Hfs & _ & _ & _ & _ & _ & _ & _ & _ & _ & _ & _ & Hnc). pose proof (names_distinct _ _ _ Hok) as Hnd. rewrite Hfs, fmap_app in Hnd. apply NoDup_app in Hnd as (_ & _ & Hnd).
  assert (forall g, g ∈ f :: fs2 -> g ∈ files l) as Hin by (intros g Hg; rewrite Hfs; apply elem_of_app; by right).
  split; [done|]. split; [done|]. intros g Hg. destruct (lo_files _ _ _ Hok g (Hin g Hg)) as (Hgd & _ & Hgi & _). rewrite Hgd. split_and!; [by apply Hnc|done|by eexists].
Qed.

(** A cut between two files. *)
Lemma truncate_whole w lg idx fs1 f fs2 closed e1 ef e2 :
  ledger_ok w lg -> from_option (fun r => r <= idx) True (recovery_start_idx (lw_ledger w)) -> lg_committed lg <= idx < lg_last lg ->
  cut_at (lw_disk w) (lw_ledger w) lg idx fs1 f fs2 closed e1 ef e2 -> idx + 1 = start_idx f ->
  exists w', truncate idx w = (w', Ret tt) /\ ledger_ok w' (lg <| lg_entries := take (Z.to_nat (idx - lg_base lg)) (lg_entries lg) |>).
Proof.
  intros Hall Hrecidx Hidx Hcut Hwhole. pose proof Hall as (Hok & Hlast & Hcom & Hreq & Hset & Hrec). destruct (cut_files _ _ _ _ _ _ _ _ _ _ _ Hok Hcut) as (Hnd & Hin & Hgood).
  destruct Hcut as (Hfs & He & Hcl & Hcov & H1 & Hst & Hh & Hne & H2 & Hi & Hfrom & Hto & Hnc). pose proof (h_start _ _ _ Hh) as Hsf. pose proof (h_last _ _ _ Hh) as Hlf.
  rewrite (truncate_eq w lg idx fs1 f fs2) by done. set (w0 := w <| lw_ledger := (lw_ledger w) <| require_new_file := true |> |>).
  unfold mbind, ST_bind. rewrite (truncate_first fs1 f); [|cbn; by rewrite Hfs, list_lookup_middle|rewrite u64_small; [lia|unfold u64_modulus; lia]].
  change (S (length fs2)) with (length (f :: fs2)).
  rewrite (truncate_rest (f :: fs2) fs1 w0 (start_idx f) (ef ++ e2) idx); [|done| |done|done].
  2: { cbn. by exists ef, e2. }
  eexists. split; [reflexivity|].
  assert (take (Z.to_nat (idx - lg_base lg)) (lg_entries lg) = closed ++ e1) as ->.
  { rewrite He, app_assoc. replace (Z.to_nat (idx - lg_base lg)) with (length (closed ++ e1)) by (rewrite length_app; lia). apply take_app_length. }
  assert (forall g, g ∈ fs1 -> g ∈ files (lw_ledger w)) as Hin1 by (intros g Hg; rewrite Hfs; apply elem_of_app; by left).
  split; cbn.
  - pose proof (disk_ok_drop _ _ lg fs1 (f :: fs2) closed e1 (ef ++ e2) Hok Hfs Hnc He H1 Hcov ltac:(lia)) as Hok'. by destruct Hok'; split.
  - unfold lg_last. cbn. rewrite length_app. split; [lia|]. split; [done|]. split; [|split].
    + destruct fs1 as [|x fs1] using rev_ind; [done|]. rewrite last_snoc. cbn. symmetry. apply (lo_complete _ _ _ Hok). rewrite Hfs, removelast_app by done.
      apply elem_of_app. left. apply elem_of_app. right. by left.
    + intros g Hg. by apply Hset, Hin1.
    + destruct (recovery_start_idx (lw_ledger w)); cbn in *; [lia|]. intros g Hg. by apply Hrec, Hin1.
Qed.

(** A cut within a file. *)
Lemma truncate_part w lg idx fs1 f fs2 closed e1 ef e2 :
  ledger_ok w lg -> from_option (fun r => r <= idx) True (recovery_start_idx (lw_ledger w)) -> lg_committed lg <= idx < lg_last lg ->
  cut_at (lw_disk w) (lw_ledger w) lg idx fs1 f fs2 closed e1 ef e2 -> idx + 1 <> start_idx f ->
  exists w', truncate idx w = (w', Ret tt) /\ ledger_ok w' (lg <| lg_entries := take (Z.to_nat (idx - lg_base lg)) (lg_entries lg) |>).
Proof.
  intros Hall Hrecidx Hidx Hcut Hpart. pose proof Hall as (Hok & Hlast & Hcom & Hreq & Hset & Hrec). destruct (cut_files _ _ _ _ _ _ _ _ _ _ _ Hok Hcut) as (Hnd & Hin & Hgood).
  destruct Hcut as (Hfs & He & Hcl & Hcov & H1 & Hst & Hh & Hne & H2 & Hi & Hfrom & Hto & Hnc). pose proof (h_start _ _ _ Hh) as Hsf. pose proof (h_last _ _ _ Hh) as Hlf.
  pose proof (file_holds_last _ _ _ Hh) as Hlastf.
  rewrite (truncate_eq w lg idx fs1 f fs2) by done. set (w0 := w <| lw_ledger := (lw_ledger w) <| require_new_file := true |> |>).
  destruct (truncate_holds _ f ef idx Hh (Hnc f ltac:(by left)) ltac:(lia)) as (f' & Ht & Hh' & Hc' & Hk). pose proof Hk as (Hk1 & Hk2 & Hk3 & Hk4 & Hk5 & Hk6).
  set (ef' := take (Z.to_nat (idx - start_idx f + 1)) ef) in *. set (d1 := set_contents (file f) (image false ef') (lw_disk w)) in *.
  assert (len ef' = idx - start_idx f + 1) as Hlen by (unfold ef'; rewrite length_take; lia).
  unfold mbind, ST_bind. rewrite (truncate_step w0 idx fs1 f fs2 f' d1) by done.
  rewrite (truncate_rest fs2 (fs1 ++ [f']) _ (start_idx f + len ef) e2 idx); [|done| |by inversion Hnd|]; cycle 1.
  { apply (chained_frame (lw_disk w)); [done| |unfold d1; cbn; by rewrite length_set]. intros g Hg. unfold d1. cbn. rewrite contents_set by apply Hh. rewrite decide_False; [done|].
    intros E. apply (distinct_inode _ _ _ fs1 f fs2 g Hok Hfs); [by right|done]. }
  { intros g Hg. apply Hgood. by right. }
  eexists. split; [reflexivity|].
  assert (take (Z.to_nat (idx - lg_base lg)) (lg_entries lg) = closed ++ e1 ++ ef') as ->.
  { rewrite He. assert (ef ++ e2 = ef' ++ drop (Z.to_nat (idx - start_idx f + 1)) ef ++ e2) as -> by (unfold ef'; by rewrite app_assoc, take_drop).
    replace (closed ++ e1 ++ ef' ++ drop (Z.to_nat (idx - start_idx f + 1)) ef ++ e2) with ((closed ++ e1 ++ ef') ++ drop (Z.to_nat (idx - start_idx f + 1)) ef ++ e2) by (by rewrite <- !app_assoc).
    replace (Z.to_nat (idx - lg_base lg)) with (length (closed ++ e1 ++ ef')) by (rewrite !length_app; lia). apply take_app_length. }
  set (lg' := lg <| lg_entries := closed ++ e1 ++ ef' |>).
  assert (disk_ok (remove_names (ledger_dir (lw_ledger w)) fs2 (lw_disk w)) ((lw_ledger w) <| files := fs1 ++ [f] |>) (lg <| lg_entries := closed ++ e1 ++ ef |>)) as Hok1.
  { apply (disk_ok_drop _ _ lg (fs1 ++ [f]) fs2 closed (e1 ++ ef) e2); try done.
    - by rewrite Hfs, <- app_assoc.
    - intros g Hg. apply Hnc. by right.
    - by rewrite He, <- app_assoc.
    - apply chained_app. exists e1, ef. split_and!; try done. cbn. exists ef, []. by rewrite app_nil_r.
    - rewrite length_app. lia. }
  assert (lg_last lg' = idx) as Hl'. { unfold lg', lg_last. cbn. rewrite !length_app. lia. }
  split; cbn.
  - assert (disk_ok (set_contents (file f) (image false ef') (remove_names (ledger_dir (lw_ledger w)) fs2 (lw_disk w)))
      ((lw_ledger w) <| files := fs1 ++ [f] |> <| files := fs1 ++ [f'] |>) lg') as Hok2; [|by destruct Hok2; split].
    apply (disk_ok_update _ _ _ lg' fs1 f f' _ closed e1 ef' Hok1); try done.
    + apply Hnc. by left.
    + replace lg' with (lg <| lg_entries := closed ++ e1 ++ ef |> <| lg_entries := closed ++ e1 ++ ef' |>) by done. apply (extends_take (lg <| lg_entries := closed ++ e1 ++ ef |>) (closed ++ e1 ++ ef') (drop (Z.to_nat (idx - start_idx f + 1)) ef)).
      * cbn. unfold ef'. by rewrite <- !app_assoc, take_drop.
      * cbn. rewrite !length_app. lia.
      * apply (lo_bound _ _ _ Hok1).
    + by apply (chained_frame (lw_disk w)).
    + apply (covered_frame (lw_disk w) _ _ lg); [done..|]. intros name i v Hn Hv. exists i. apply remove_names_lookup. split; [done|].
      intros g Hg [= E]. pose proof (written_not_chunk _ _ _ g _ _ i v Hok (Hin g ltac:(by right)) (Hnc g ltac:(by right)) Hn Hv) as Hng.
      apply Hng. destruct (lo_files _ _ _ Hok g (Hin g ltac:(by right))) as (_ & _ & Hgi & _). cbn in Hn. rewrite E in Hn. congruence.
    + intros E. rewrite E in Hlen. cbn in Hlen. lia.
    + apply (holds_disk d1); done.
  - split; [done|]. split; [done|]. split; [by rewrite last_snoc|]. split.
    + intros g [Hg| ->%list_elem_of_singleton]%elem_of_app Hgl; [apply Hset; [rewrite Hfs; apply elem_of_app; by left|done]|].
      rewrite (file_holds_last _ _ _ Hh'), Hk2 in Hgl. lia.
    + destruct (recovery_start_idx (lw_ledger w)); cbn in *; [lia|]. intros g [Hg| ->%list_elem_of_singleton]%elem_of_app.
      * apply Hrec. rewrite Hfs. apply elem_of_app. by left.
      * rewrite Hk6. by apply Hrec, Hin; left.
Qed.

Lemma truncate_spec w lg idx :
  ledger_ok w lg -> from_option (fun r => r <= idx) True (recovery_start_idx (lw_ledger w)) ->
  exists w', truncate idx w = (w', Ret tt) /\ ledger_ok w' (lg_truncate lg idx).
Proof.
  intros Hall Hrecidx. pose proof Hall as (Hok & Hlast & Hcom & _). unfold lg_truncate.
  destruct ((lg_last lg <=? idx) || (idx <? lg_committed lg)) eqn:E.
  { exists w. split; [|done]. unfold truncate, mbind, ST_bind, ledger, gets. by rewrite Hlast, Hcom, E. }
  apply orb_false_iff in E as [E1%Z.leb_gt E2%Z.ltb_ge].
  destruct (uncommitted_at _ _ _ idx Hok ltac:(lia)) as (fs1 & f & fs2 & closed & e1 & ef & e2 & Hcut).
  destruct (decide (idx + 1 = start_idx f)); [by eapply truncate_whole|by eapply truncate_part].
Qed.
End writes.
