(* ===== verification/LedgerCommits.v ===== *)
(** Committing entries of the ledger and completing a recovery keep the invariant. *)

From Stdlib Require Import String.
From S2P Require Import Prelude Serialized LedgerFile Ledger LedgerNames LedgerFileProps LedgerInvariant LedgerUpdates LedgerWrites.

Section commits.
Implicit Types (w : LedgerWorld) (d : Disk) (l : Ledger) (lg : Log) (f : LedgerFile).

(** ** Files under another name *)

Definition with_name (new : string) (c r : bool) f : LedgerFile := f <| file_name := new |> <| lf_committed := c |> <| recovery := r |>.

Lemma holds_with_name d new c r f es : holds d f es -> holds d (with_name new c r f) es.
Proof. intros []. by split. Qed.

Lemma rename_eq d f i new :
  names d !! (lf_dir f, file_name f) = Some i ->
  file_rename new (MkFileWorld f d) = (MkFileWorld (f <| file_name := new |>) (renamed (lf_dir f) (file_name f) new i d), Ret true).
Proof. intros H. unfold file_rename, mbind, ST_bind, get, catch, zoom, rename_path. cbn [fw_file fw_disk]. unfold mbind, ST_bind, get. cbn [fw_file fw_disk]. by rewrite H. Qed.

(** What the invariant says of one file of the list. *)
Lemma file_at d l lg fs1 f fs2 :
  disk_ok d l lg -> files l = fs1 ++ f :: fs2 ->
  exists closed e1 ef e2, lg_entries lg = closed ++ e1 ++ ef ++ e2 /\ lg_base lg + len closed <= lg_committed lg /\ covered d (ledger_dir l) lg closed /\
    chained d (lg_base lg + len closed + 1) fs1 e1 /\ start_idx f = lg_base lg + len closed + 1 + len e1 /\ holds d f ef /\ ef <> [] /\
    chained d (start_idx f + len ef) fs2 e2 /\ agrees lg (start_idx f) ef.
Proof.
  intros Hok Hfs. destruct (lo_chain _ _ _ Hok) as (closed & opened & He & Hcl & Hch & Hcov). rewrite Hfs in Hch.
  apply chained_app in Hch as (e1 & e0 & -> & H1 & (ef & e2 & -> & Hne & Hst & Hh & H2)). exists closed, e1, ef, e2.
  split_and!; try done; [by rewrite Hst|]. by eapply chained_agrees.
Qed.

(** A complete file whose entries are committed is a chunk. *)
Lemma file_chunk d l lg f ef :
  disk_ok d l lg -> f ∈ files l -> holds d f ef -> ef <> [] -> completed f = true -> get_last_idx f <= lg_committed lg -> agrees lg (start_idx f) ef ->
  contents d (file f) = image true ef /\ len ef = get_last_idx f - start_idx f + 1 /\ chunk lg (start_idx f) ef.
Proof.
  intros Hok Hf Hh Hne Hc Hl Ha. pose proof (file_holds_last _ _ _ Hh). pose proof (lo_bound _ _ _ Hok). rewrite <- Hc.
  destruct (h_contents _ _ _ Hh) as [Hcon|(? & _)]; [|done]. split; [done|]. split; [lia|]. split_and!; try lia; [apply Hh..|done].
Qed.

(** ** A file is renamed and stays in the list *)

Lemma replaced_complete (fs1 : list LedgerFile) f f' fs2 :
  (forall g, g ∈ removelast (fs1 ++ f :: fs2) -> completed g = true) -> (completed f = true -> completed f' = true) ->
  forall g, g ∈ removelast (fs1 ++ f' :: fs2) -> completed g = true.
Proof.
  intros H Hf g. rewrite removelast_app in H |- * by done. intros [Hg|Hg]%elem_of_app; [apply H, elem_of_app; by left|].
  destruct fs2 as [|x fs2]; [by apply not_elem_of_nil in Hg|]. change (g ∈ f' :: removelast (x :: fs2)) in Hg.
  apply elem_of_cons in Hg as [->|Hg]; [apply Hf|]; apply H, elem_of_app; right; change (removelast (f :: x :: fs2)) with (f :: removelast (x :: fs2)); [by left|by right].
Qed.

Lemma rename_kept d l lg fs1 f fs2 new c r :
  let f' := with_name new c r f in
  let d' := renamed (ledger_dir l) (file_name f) new (file f) d in
  disk_ok d l lg -> files l = fs1 ++ f :: fs2 -> lf_committed f = false -> new = name_of_file f' ->
  (c = true -> completed f = true /\ r = true /\ get_last_idx f <= lg_committed lg) ->
  rising (recovery <$> fs1 ++ f' :: fs2) ->
  disk_ok d' (l <| files := fs1 ++ f' :: fs2 |>) lg.
Proof.
  intros f' d' Hok Hfs Hc Hnew Hcom Hr. assert (f ∈ files l) as Hf by (rewrite Hfs, elem_of_app, elem_of_cons; tauto).
  destruct (file_at _ _ _ _ _ _ Hok Hfs) as (closed & e1 & ef & e2 & He & Hcl & Hcov & H1 & Hst & Hh & Hne & H2 & Ha).
  pose proof (file_bounds _ _ _ _ Hok Hf) as Hb. pose proof (lo_bound _ _ _ Hok) as Hbound.
  assert (get_last_idx f' = get_last_idx f) as Hlast by done.
  apply (disk_ok_rename d l lg fs1 f fs2 new (fs1 ++ f' :: fs2)); try done.
  - rewrite Hnew. by rewrite name_start by (cbn; lia).
  - intros v. rewrite Hnew. unfold name_of_file. change (lf_committed f') with c. destruct c.
    + destruct (Hcom eq_refl) as (Hfc & _ & Hle). rewrite committed_name_last by (rewrite ?Hlast; cbn; lia). rewrite Hlast. intros [= <-]. exists ef. by apply (file_chunk d l).
    + by rewrite new_name_last by (cbn; lia).
  - intros g. rewrite elem_of_app, elem_of_cons. intros [Hg|[->|Hg]]; [by left; left| |by left; right]. right.
    destruct (lo_files _ _ _ Hok f Hf) as (Hfd & _). split; [|done]. split_and!; [done|done| |done]. apply renamed_lookup. by left.
  - intros g. rewrite elem_of_app, elem_of_cons. tauto.
  - right; left. exists f'. split; [apply elem_of_app; right; by left|done].
  - intros g. apply (replaced_complete fs1 f f' fs2); [|done]. intros x Hx. apply (lo_complete _ _ _ Hok). by rewrite Hfs.
  - exists closed, (e1 ++ ef ++ e2). split_and!; try done; [|by apply covered_renamed]. apply chained_app. exists e1, (ef ++ e2). split_and!; try done.
    exists ef, e2. split_and!; try done; [by apply holds_with_name|by rewrite <- Hst].
Qed.

(** ** A file is renamed and leaves the list *)

Lemma committed_covers s v r i : 0 <= s < 2 ^ 63 -> 0 <= v < 2 ^ 63 -> s <= i <= v -> covers_idx i true (committed_file_name s v r) = true.
Proof.
  intros Hs Hv Hi. unfold covers_idx. destruct (committed_name_flags s v r) as (_ & -> & _). cbn.
  rewrite committed_name_start, committed_name_last by done. apply andb_true_iff. rewrite !Z.leb_le. lia.
Qed.

Lemma rename_closed d l lg f fs2 :
  let new := committed_file_name (start_idx f) (get_last_idx f) false in
  disk_ok d l lg -> files l = f :: fs2 -> completed f = true -> get_last_idx f <= lg_committed lg ->
  disk_ok (renamed (ledger_dir l) (file_name f) new (file f) d) (l <| files := fs2 |>) lg.
Proof.
  intros new Hok Hfs Hc Hle. assert (f ∈ files l) as Hf by (rewrite Hfs; by left).
  destruct (file_at _ _ _ [] _ _ Hok Hfs) as (closed & e1 & ef & e2 & He & Hcl & Hcov & -> & Hst & Hh & Hne & H2 & Ha). cbn in Hst.
  pose proof (file_bounds _ _ _ _ Hok Hf) as Hb. pose proof (lo_bound _ _ _ Hok) as Hbound. pose proof (file_holds_last _ _ _ Hh) as Hlf.
  apply (disk_ok_rename d l lg [] f fs2 new fs2); try done.
  - apply committed_name_start. lia.
  - intros v. unfold new. rewrite committed_name_last by lia. intros [= <-]. exists ef. by eapply file_chunk.
  - intros s r Hs E. pose proof (committed_name_flags (start_idx f) (get_last_idx f) false) as (Hfl & _). fold new in Hfl.
    rewrite E in Hfl. destruct (new_name_flags s r Hs) as (Hfl' & _). by rewrite Hfl' in Hfl.
  - intros g Hg. by left; right.
  - intros g [Hg|Hg]; [by apply not_elem_of_nil in Hg|done].
  - right; right. exists (start_idx f), (get_last_idx f). split_and!; try done; try lia. intros g Hg. pose proof (chained_bounds _ _ _ _ _ H2 Hg). lia.
  - pose proof (lo_rising _ _ _ Hok) as Hr. rewrite Hfs in Hr. by destruct Hr.
  - intros g Hg. apply (lo_complete _ _ _ Hok). rewrite Hfs. destruct fs2; [done|]. by right.
  - exists (closed ++ ef), e2. split_and!.
    + by rewrite He, <- app_assoc.
    + rewrite length_app. lia.
    + rewrite length_app. replace (lg_base lg + Z.of_nat (length closed + length ef) + 1) with (start_idx f + len ef) by lia. done.
    + intros i Hi. rewrite length_app in Hi. destruct (decide (i <= lg_base lg + len closed)) as [Hi'|Hi'].
      * destruct (Hcov i ltac:(lia)) as (name & j & Hn & Hco). destruct (decide (name = file_name f)) as [->|Hnf].
        -- exfalso. unfold covers_idx in Hco. destruct (lo_files _ _ _ Hok f Hf) as (_ & Hfn & _). rewrite Hfn, name_start in Hco by lia.
           destruct (_ || _); [done|]. destruct (get_last_idx_from_file_name _) as [[]|]; [|done..]. apply andb_true_iff in Hco as [Hco _]. apply Z.leb_le in Hco. lia.
        -- exists name, (if decide (name = new) then file f else j). split; [|done]. apply renamed_lookup.
           destruct (decide (name = new)) as [->|]; [by left|right]. split_and!; congruence.
      * exists new, (file f). split; [apply renamed_lookup; by left|]. apply committed_covers; lia.
Qed.

(** ** The loop of [commit] *)

(** What committing files leaves as it is. *)
Record committing w w' : Prop := {
  cm_last : last_idx (lw_ledger w') = last_idx (lw_ledger w);
  cm_new : require_new_file (lw_ledger w') = require_new_file (lw_ledger w);
  cm_start : recovery_start_idx (lw_ledger w') = recovery_start_idx (lw_ledger w);
  cm_recovery f' : f' ∈ files (lw_ledger w') -> exists f, f ∈ files (lw_ledger w) /\ recovery f' = recovery f;
  cm_complete : from_option completed true (last (files (lw_ledger w'))) = from_option completed true (last (files (lw_ledger w)))
}.

#[local] Instance committing_preorder : PreOrder committing.
Proof.
  split; [intros w; split; try done; intros f' Hf'; by exists f'|]. intros w w' w'' [] []. split; try congruence.
  intros f' (f & (g & Hg & E)%cm_recovery0 & ->)%cm_recovery1. by exists g.
Qed.

(** Recovery files that are committed come first. *)
Lemma committed_front d l lg fs1 f fs2 :
  disk_ok d l lg -> files l = fs1 ++ f :: fs2 -> (forall g, g ∈ fs1 -> lf_committed g = true) -> recovery f = false -> fs1 = [].
Proof.
  intros Hok Hfs Hpre Hr. destruct fs1 as [|g fs1]; [done|]. exfalso. assert (g ∈ files l) as Hg by (rewrite Hfs; by left).
  destruct (lo_files _ _ _ Hok g Hg) as (_ & _ & _ & Hc). destruct (Hc (Hpre g ltac:(by left))) as (_ & Hgr & _).
  pose proof (lo_rising _ _ _ Hok) as Hri. rewrite Hfs in Hri. destruct Hri as [Hri _]. specialize (Hri Hgr).
  rewrite Forall_fmap, Forall_forall in Hri. specialize (Hri f ltac:(apply elem_of_app; right; by left)). cbn in Hri. congruence.
Qed.

Lemma file_commit_eq w lg pre f post :
  disk_ok (lw_disk w) (lw_ledger w) lg -> files (lw_ledger w) = pre ++ f :: post -> completed f = true -> lf_committed f = false ->
  let new := committed_file_name (start_idx f) (get_last_idx f) (recovery f) in
  on_file (length pre) (file_commit (get_last_idx f)) w =
    (MkLedgerWorld ((lw_ledger w) <| files := pre ++ with_name new true (recovery f) f :: post |>) (renamed (ledger_dir (lw_ledger w)) (file_name f) new (file f) (lw_disk w)), Ret (negb (recovery f))).
Proof.
  intros Hok Hfs Hc Hco new. destruct (lo_files _ _ _ Hok f ltac:(rewrite Hfs, elem_of_app, elem_of_cons; tauto)) as (Hd & _ & Hn & _). rewrite <- Hd in Hn |- *.
  apply on_file_eq with f; [done|]. unfold file_commit. unfold mbind at 1, ST_bind at 1, get. cbn [fw_file fw_disk]. rewrite Hc, Hco, Z.eqb_refl. cbn [negb orb].
  unfold mbind at 1, ST_bind at 1. rewrite (rename_eq _ _ _ _ Hn). cbn. fold new. by destruct f.
Qed.

(** A file that is not committed by a turn of the loop. *)
Lemma file_commit_skip w pre f post idx :
  files (lw_ledger w) = pre ++ f :: post -> negb (completed f) || lf_committed f || negb (idx =? get_last_idx f) = true ->
  on_file (length pre) (file_commit idx) w = (w, Ret false).
Proof.
  intros Hfs H. erewrite (on_file_eq _ w pre f post) by (done || (unfold file_commit, mbind, ST_bind, get; cbn [fw_file]; by rewrite H)).
  rewrite <- Hfs. by destruct w as [[] ?].
Qed.

Lemma committing_rename w pre f post new c d' :
  files (lw_ledger w) = pre ++ f :: post -> committing w (MkLedgerWorld ((lw_ledger w) <| files := pre ++ with_name new c (recovery f) f :: post |>) d').
Proof.
  intros Hfs. split; cbn; try done.
  - intros f'. rewrite elem_of_app, elem_of_cons, Hfs. intros [Hf|[->|Hf]]; [exists f'|exists f|exists f']; rewrite elem_of_app, elem_of_cons; split; (tauto || done).
  - rewrite Hfs, !last_app, !last_cons. by destruct (last post).
Qed.

(** One turn. *)
Lemma commit_turn n w lg pre f post :
  let idx := lg_committed lg in
  disk_ok (lw_disk w) (lw_ledger w) lg -> files (lw_ledger w) = pre ++ f :: post -> (forall g, g ∈ pre -> lf_committed g = true) ->
  (if (n =? 0)%nat then idx <= get_last_idx f else completed f = true /\ get_last_idx f < idx) ->
  exists w' pre', commit_loop (S n) (length pre) idx w = commit_loop n (length pre') idx w' /\ disk_ok (lw_disk w') (lw_ledger w') lg /\ committing w w' /\
    files (lw_ledger w') = pre' ++ post /\ forall g, g ∈ pre' -> lf_committed g = true \/ (n = O /\ idx <= get_last_idx g).
Proof.
  intros idx Hok Hfs Hpre Hf. cbn [commit_loop]. unfold mbind at 1, ST_bind at 1, ledger at 1, gets at 1. rewrite Hfs, list_lookup_middle by done. cbn [from_option].
  set (ci := if (n =? 0)%nat then idx else get_last_idx f). destruct (negb (completed f) || lf_committed f || negb (ci =? get_last_idx f)) eqn:E.
  - unfold mbind at 1, ST_bind at 1. rewrite (file_commit_skip w pre f post ci Hfs E). cbn [andb]. exists w, (pre ++ [f]).
    split; [by rewrite length_app, Nat.add_comm|]. split; [done|]. split; [done|]. split; [by rewrite <- app_assoc|].
    intros g [Hg| ->%list_elem_of_singleton]%elem_of_app; [left; by apply Hpre|]. destruct (lf_committed f); [by left|right]. unfold ci in E.
    destruct (Nat.eqb_spec n 0); [done|]. destruct Hf as [Hf _]. by rewrite Hf, Z.eqb_refl in E.
  - apply orb_false_iff in E as [[Hc%negb_false_iff Hco]%orb_false_iff E]. apply negb_false_iff, Z.eqb_eq in E. rewrite E.
    assert (get_last_idx f <= lg_committed lg) as Hle. { unfold ci in E. destruct (n =? 0)%nat; [fold idx; lia|]. fold idx. lia. }
    unfold mbind at 1, ST_bind at 1. rewrite (file_commit_eq w lg pre f post Hok Hfs Hc Hco).
    set (new := committed_file_name (start_idx f) (get_last_idx f) (recovery f)). destruct (recovery f) eqn:Er; cbn [negb andb].
    + exists (MkLedgerWorld ((lw_ledger w) <| files := pre ++ with_name new true true f :: post |>) (renamed (ledger_dir (lw_ledger w)) (file_name f) new (file f) (lw_disk w))),
        (pre ++ [with_name new true true f]). split; [by rewrite length_app, Nat.add_comm|]. split; [|split; [rewrite <- Er; by apply committing_rename|split; [by rewrite <- app_assoc|]]].
      * apply rename_kept; try done. pose proof (lo_rising _ _ _ Hok) as Hr. rewrite Hfs, fmap_app in Hr. rewrite fmap_app. cbn in *. by rewrite <- Er.
      * intros g [Hg| ->%list_elem_of_singleton]%elem_of_app; left; [by apply Hpre|done].
    + pose proof (committed_front _ _ _ _ _ _ Hok Hfs Hpre Er) as ->. assert (negb (n =? 0)%nat || (idx =? get_last_idx f) = true) as ->.
      { unfold ci in E. destruct (n =? 0)%nat; [|done]. by apply Z.eqb_eq. }
      unfold mbind at 1, ST_bind at 1, on_ledger at 1, zoom at 1, modify at 1. unfold mbind at 1, ST_bind at 1, on_ledger at 1, zoom at 1, modify at 1.
      eexists _, []. split; [reflexivity|]. cbn. split; [|split; [|split; [done|]]].
      * pose proof (rename_closed _ _ _ f post Hok Hfs Hc Hle) as Hok'. fold new in Hok'. by destruct Hok'; split.
      * split; cbn; try done; [intros g Hg; exists g; rewrite Hfs; split; [by right|done]|]. rewrite Hfs. cbn. rewrite last_cons. destruct (last post); cbn; [done|by rewrite Hc].
      * intros g Hg. by apply not_elem_of_nil in Hg.
Qed.

Lemma commit_loop_spec mid : forall pre w lg f post,
  disk_ok (lw_disk w) (lw_ledger w) lg -> files (lw_ledger w) = pre ++ mid ++ f :: post -> (forall g, g ∈ pre -> lf_committed g = true) ->
  (forall g, g ∈ mid -> get_last_idx g < lg_committed lg) -> lg_committed lg <= get_last_idx f ->
  exists w' pre', commit_loop (S (length mid)) (length pre) (lg_committed lg) w = (w', Ret tt) /\ disk_ok (lw_disk w') (lw_ledger w') lg /\ committing w w' /\
    files (lw_ledger w') = pre' ++ post /\ forall g, g ∈ pre' -> lf_committed g = true \/ lg_committed lg <= get_last_idx g.
Proof.
  induction mid as [|x mid IH]; intros pre w lg f post Hok Hfs Hpre Hmid Hf; cbn [app length] in *.
  - destruct (commit_turn 0 w lg pre f post Hok Hfs Hpre Hf) as (w' & pre' & -> & Hok' & Hcm & Hfs' & Hpre'). exists w', pre'. split_and!; try done.
    intros g Hg. destruct (Hpre' g Hg) as [|[]]; tauto.
  - destruct (commit_turn (S (length mid)) w lg pre x (mid ++ f :: post) Hok Hfs Hpre) as (w1 & pre1 & -> & Hok1 & Hcm1 & Hfs1 & Hpre1).
    { split; [|apply Hmid; by left]. apply (lo_complete _ _ _ Hok). rewrite Hfs, removelast_app by done. apply elem_of_app. right. destruct mid; by left. }
    destruct (IH pre1 w1 lg f post Hok1 Hfs1) as (w' & pre' & -> & Hok' & Hcm & Hfs' & Hpre').
    + intros g Hg. by destruct (Hpre1 g Hg) as [|[]].
    + intros g Hg. apply Hmid. by right.
    + done.
    + exists w', pre'. split_and!; try done. by transitivity w1.
Qed.

(** ** [commit] *)

Definition lg_commit lg (idx : Z) : Log := if (idx <=? lg_committed lg) || (lg_last lg <? idx) then lg else lg <| lg_committed := idx |>.

Lemma disk_ok_commit d l lg idx : disk_ok d l lg -> lg_committed lg <= idx <= lg_last lg -> disk_ok d l (lg <| lg_committed := idx |>).
Proof.
  intros Hok Hi. pose proof (lo_base _ _ _ Hok) as Hb. pose proof (lo_bound _ _ _ Hok) as Hbound.
  assert (extends lg (lg <| lg_committed := idx |>)) as Hex by (split; cbn; try done; change (lg_last (lg <| lg_committed := idx |>)) with (lg_last lg); lia).
  destruct Hok. split; try done; cbn.
  - lia.
  - change (lg_last (lg <| lg_committed := idx |>)) with (lg_last lg). lia.
  - intros f Hf. destruct (lo_files f Hf) as (? & ? & ? & Hc). split_and!; try done. intros Hfc. destruct (Hc Hfc) as (? & ? & ?). split_and!; try done. cbn. lia.
  - destruct lo_chain as (closed & opened & He & Hcl & Hch & Hcov). exists closed, opened. split_and!; try done. lia.
  - intros dir Hd. by apply (dir_ok_frame d _ lg); auto.
  - intros f Hf. by apply (cached_frame d _ _ lg); auto.
Qed.

Lemma first_index_le p (fs1 : list LedgerFile) f fs2 : p f = true -> (first_index p (fs1 ++ f :: fs2) <= length fs1)%nat.
Proof. intros Hf. induction fs1 as [|g fs1 IH]; cbn; [by rewrite Hf|]. destruct (p g); lia. Qed.

Lemma first_index_take p (fs : list LedgerFile) g : g ∈ take (first_index p fs) fs -> p g = false.
Proof.
  induction fs as [|f fs IH]; cbn; [intros H; by apply not_elem_of_nil in H|]. destruct (p f) eqn:E; cbn; [intros H; by apply not_elem_of_nil in H|].
  by intros [->|H]%elem_of_cons; [|apply IH].
Qed.

(** The files between the ones that hold the old and the new index. *)
Lemma commit_range w lg idx :
  ledger_ok w lg -> lg_committed lg < idx <= lg_last lg ->
  let fs := files (lw_ledger w) in
  exists pre mid f post, fs = pre ++ mid ++ f :: post /\ get_it_contains_idx fs (if lg_committed lg =? 0 then 1 else lg_committed lg) = length pre /\
    get_it_contains_idx fs idx = (length pre + length mid)%nat /\ (forall g, g ∈ pre -> lf_committed g = true) /\
    (forall g, g ∈ mid -> get_last_idx g < idx) /\ idx <= get_last_idx f /\ (forall g, g ∈ post -> idx < get_last_idx g).
Proof.
  intros (Hok & Hlast & Hcom & _ & Hset & _) Hi fs. pose proof (lo_base _ _ _ Hok) as Hbase. destruct (lo_chain _ _ _ Hok) as (closed & opened & He & Hcl & Hch & _).
  assert (lg_last lg = lg_base lg + len closed + len opened) as Hl by (unfold lg_last; rewrite He, length_app; lia).
  destruct (chained_find _ _ _ _ idx Hch ltac:(lia)) as (fs1 & f & post & e1 & ef & e2 & Hfs & -> & H1 & Hst & Hh & Hne & H2 & Hif). fold fs in Hfs.
  set (from := if lg_committed lg =? 0 then 1 else lg_committed lg). assert (1 <= from <= idx) as Hfrom by (unfold from; destruct (Z.eqb_spec (lg_committed lg) 0); lia).
  set (p := fun f => from <=? get_last_idx f). assert (get_it_contains_idx fs from = first_index p fs) as Hget.
  { unfold get_it_contains_idx. destruct (Z.eqb_spec from 0); [lia|done]. }
  assert (first_index p fs <= length fs1)%nat as Hle by (rewrite Hfs; apply first_index_le, Z.leb_le; lia).
  assert (take (first_index p fs) fs = take (first_index p fs) fs1) as Htake by (by rewrite Hfs at 2; rewrite take_app_le).
  exists (take (first_index p fs) fs1), (drop (first_index p fs) fs1), f, post. rewrite length_take, length_drop, Nat.min_l by done. split_and!.
  - by rewrite app_assoc, take_drop.
  - done.
  - replace (first_index p fs + (length fs1 - first_index p fs))%nat with (length fs1) by lia. rewrite Hfs. eapply get_it_chained; [done|done|lia|lia].
  - rewrite <- Htake. intros g Hg. pose proof (first_index_take _ _ _ Hg) as Hp%Z.leb_gt. apply elem_of_take in Hg as (k & Hk & _). apply list_elem_of_lookup_2 in Hk.
    pose proof (file_bounds _ _ _ _ Hok Hk). apply Hset; [done|]. unfold from in Hp. destruct (lg_committed lg =? 0); lia.
  - intros g Hg. pose proof (chained_bounds _ _ _ _ g H1) as Hb. specialize (Hb ltac:(rewrite <- (take_drop (first_index p fs) fs1); apply elem_of_app; by right)). lia.
  - lia.
  - intros g Hg. pose proof (chained_bounds _ _ _ _ _ H2 Hg). rewrite (file_holds_last _ _ _ Hh) in Hif. lia.
Qed.

Lemma commit_spec w lg idx : ledger_ok w lg -> exists w', commit idx w = (w', Ret tt) /\ ledger_ok w' (lg_commit lg idx).
Proof.
  intros Hall. pose proof Hall as (Hok & Hlast & Hcom & Hreq & Hset & Hrec). unfold lg_commit, commit. unfold mbind at 1, ST_bind at 1, ledger, gets. rewrite Hlast, Hcom.
  destruct ((idx <=? lg_committed lg) || (lg_last lg <? idx)) eqn:E; [by exists w|]. apply orb_false_iff in E as [E1%Z.leb_gt E2%Z.ltb_ge].
  destruct (commit_range w lg idx Hall ltac:(lia)) as (pre & mid & f & post & Hfs & -> & -> & Hpre & Hmid & Hf & Hpost).
  assert (in_range (length pre) (length pre + length mid) (lw_ledger w) = true) as ->.
  { unfold in_range. rewrite Hfs, !length_app. apply andb_true_iff. rewrite Nat.ltb_lt, Nat.leb_le. cbn [length]. lia. }
  cbn [negb]. replace (S (length pre + length mid) - length pre)%nat with (S (length mid)) by lia.
  destruct (commit_loop_spec mid pre w _ f post (disk_ok_commit _ _ _ idx Hok ltac:(lia)) Hfs Hpre Hmid Hf) as (w' & pre' & Hrun & Hok' & Hcm & Hfs' & Hpre').
  change (lg_committed (lg <| lg_committed := idx |>)) with idx in Hrun. unfold mbind, ST_bind. rewrite Hrun. eexists. split; [reflexivity|]. destruct Hcm. split; cbn; [by destruct Hok'; split|].
  change (lg_last (lg <| lg_committed := idx |>)) with (lg_last lg). split_and!; try congruence.
  - intros g Hg Hlt. rewrite Hfs' in Hg. apply elem_of_app in Hg as [Hg|Hg]; [destruct (Hpre' g Hg) as [|Hge]; [done|cbn in Hge; lia]|]. specialize (Hpost g Hg). lia.
  - rewrite cm_start0. destruct (recovery_start_idx (lw_ledger w)); cbn in *; [done|]. intros g (x & Hx & ->)%cm_recovery0. by apply Hrec.
Qed.

(** ** Completing a recovery *)

(** What opening recovery files leaves as it is; committed ones leave the list. *)
Record opening w w' : Prop := {
  op_last : last_idx (lw_ledger w') = last_idx (lw_ledger w);
  op_committed : committed_idx (lw_ledger w') = committed_idx (lw_ledger w);
  op_new : require_new_file (lw_ledger w') = require_new_file (lw_ledger w);
  op_files f' : f' ∈ files (lw_ledger w') -> exists f, f ∈ files (lw_ledger w) /\ lf_committed f' = lf_committed f /\ get_last_idx f' = get_last_idx f;
  op_complete : from_option completed true (last (files (lw_ledger w'))) = from_option completed true (last (files (lw_ledger w)))
}.

#[local] Instance opening_preorder : PreOrder opening.
Proof.
  split; [intros w; split; try done; intros f' Hf'; by exists f'|]. intros w w' w'' [] []. split; try congruence.
  intros f' (f & (g & Hg & E & E')%op_files0 & -> & ->)%op_files1. by exists g.
Qed.

Definition pending f : bool := negb (lf_committed f).

Lemma file_open_eq w lg pre f post :
  disk_ok (lw_disk w) (lw_ledger w) lg -> files (lw_ledger w) = pre ++ f :: post -> recovery f = true ->
  let new := if lf_committed f then committed_file_name (start_idx f) (get_last_idx f) false else new_file_name (start_idx f) false in
  on_file (length pre) file_open w =
    (MkLedgerWorld ((lw_ledger w) <| files := pre ++ with_name new (lf_committed f) false f :: post |>) (renamed (ledger_dir (lw_ledger w)) (file_name f) new (file f) (lw_disk w)), Ret tt).
Proof.
  intros Hok Hfs Hr new. destruct (lo_files _ _ _ Hok f ltac:(rewrite Hfs, elem_of_app, elem_of_cons; tauto)) as (Hd & Hname & Hn & _). rewrite <- Hd in Hn |- *.
  assert (remove_recovery_suffix (file_name f) = new) as E.
  { rewrite Hname. unfold name_of_file, new. rewrite Hr. destruct (lf_committed f); [apply committed_name_open|apply new_name_open]. }
  apply on_file_eq with f; [done|]. unfold file_open. unfold mbind at 1, ST_bind at 1, get. cbn [fw_file fw_disk]. rewrite E.
  unfold mbind at 1, ST_bind at 1. rewrite (rename_eq _ _ _ _ Hn). cbn. by destruct f.
Qed.

Lemma opening_rename w pre f post new r d' :
  files (lw_ledger w) = pre ++ f :: post -> opening w (MkLedgerWorld ((lw_ledger w) <| files := pre ++ with_name new (lf_committed f) r f :: post |>) d').
Proof.
  intros Hfs. split; cbn; try done.
  - intros f'. rewrite elem_of_app, elem_of_cons, Hfs. intros [Hf|[->|Hf]]; [exists f'|exists f|exists f']; rewrite elem_of_app, elem_of_cons; split; (tauto || done).
  - rewrite Hfs, !last_app, !last_cons. by destruct (last post).
Qed.

Lemma rising_false (a b : list bool) : Forall (fun c => c = false) a -> rising b -> rising (a ++ b).
Proof. induction 1 as [|x a -> _ IH]; [done|]. intros Hb. split; [done|by apply IH]. Qed.

(** One turn of the loop, for a recovery file. *)
Lemma open_turn n w lg pre f post :
  disk_ok (lw_disk w) (lw_ledger w) lg -> files (lw_ledger w) = pre ++ f :: post -> recovery f = true ->
  (forall g, g ∈ pre -> recovery g = false) -> (lf_committed f = true -> pre = []) ->
  exists w' pre', complete_recovery_loop (S n) (length pre) w = complete_recovery_loop n (length pre') w' /\ disk_ok (lw_disk w') (lw_ledger w') lg /\ opening w w' /\
    files (lw_ledger w') = pre' ++ post /\ (forall g, g ∈ pre' -> recovery g = false) /\ (lf_committed f = true -> pre' = []).
Proof.
  intros Hok Hfs Hr Hpre Hfront. cbn [complete_recovery_loop]. unfold mbind at 1, ST_bind at 1, ledger at 1, gets at 1. rewrite Hfs, list_lookup_middle by done. cbn [from_option].
  rewrite Hr. unfold mbind at 1, ST_bind at 1. rewrite (file_open_eq w lg pre f post Hok Hfs Hr). destruct (lf_committed f) eqn:Hc.
  - rewrite (Hfront eq_refl) in *. unfold mbind at 1, ST_bind at 1, on_ledger at 1, zoom at 1, modify at 1. eexists _, []. split; [reflexivity|].
    destruct (lo_files _ _ _ Hok f ltac:(rewrite Hfs; by left)) as (_ & _ & _ & Hfc). destruct (Hfc Hc) as (Hcomp & _ & Hle).
    cbn. split; [|split; [|split_and!; try done; intros g Hg; by apply not_elem_of_nil in Hg]].
    + pose proof (rename_closed _ _ _ f post Hok Hfs Hcomp Hle) as Hok'. by destruct Hok'; split.
    + split; cbn; try done; [intros g Hg; exists g; rewrite Hfs; split; [by right|done]|]. rewrite Hfs. cbn. rewrite last_cons. destruct (last post); cbn; [done|by rewrite Hcomp].
  - set (f' := with_name (new_file_name (start_idx f) false) false false f). eexists _, (pre ++ [f']). split; [by rewrite length_app, Nat.add_comm|].
    split; [|split; [unfold f'; rewrite <- Hc at 2; by apply opening_rename|split; [by rewrite <- app_assoc|split; [|done]]]].
    + apply rename_kept; try done. rewrite fmap_app. pose proof (lo_rising _ _ _ Hok) as Hri. rewrite Hfs, fmap_app in Hri. apply rising_app in Hri as [_ [_ Hri]].
      apply rising_false; [apply Forall_fmap, Forall_forall; done|]. done.
    + intros g [Hg| ->%list_elem_of_singleton]%elem_of_app; [by apply Hpre|done].
Qed.

Lemma complete_recovery_loop_spec post : forall pre w lg,
  disk_ok (lw_disk w) (lw_ledger w) lg -> files (lw_ledger w) = pre ++ post -> (forall g, g ∈ pre -> recovery g = false) ->
  rising (pending <$> post) -> (pre <> [] -> forall g, g ∈ post -> lf_committed g = false) ->
  exists w', complete_recovery_loop (length post) (length pre) w = (w', Ret tt) /\ disk_ok (lw_disk w') (lw_ledger w') lg /\ opening w w' /\
    forall g, g ∈ files (lw_ledger w') -> recovery g = false.
Proof.
  induction post as [|f post IH]; intros pre w lg Hok Hfs Hpre Hri Hfront.
  { exists w. split_and!; try done. by rewrite Hfs, app_nil_r. }
  destruct Hri as [Hf Hri]. assert (pending f = true -> forall g, g ∈ post -> lf_committed g = false) as Hrest.
  { intros E g Hg. specialize (Hf E). rewrite Forall_fmap, Forall_forall in Hf. by apply negb_true_iff, Hf. }
  destruct (recovery f) eqn:Hr.
  - destruct (open_turn (length post) w lg pre f post Hok Hfs Hr Hpre) as (w1 & pre1 & Hrun & Hok1 & Hop1 & Hfs1 & Hpre1 & Hfront1).
    { intros Hc. destruct pre; [done|]. specialize (Hfront ltac:(done) f ltac:(by left)). congruence. }
    cbn [length]. rewrite Hrun. destruct (IH pre1 w1 lg Hok1 Hfs1 Hpre1 Hri) as (w' & Hrun' & Hok' & Hop' & Hall).
    { intros Hne. apply Hrest. unfold pending. destruct (lf_committed f); [by destruct Hne, Hfront1|done]. }
    exists w'. split_and!; try done. by transitivity w1.
  - destruct (IH (pre ++ [f]) w lg Hok) as (w' & Hrun' & Hok' & Hop' & Hall); try done.
    + by rewrite <- app_assoc.
    + intros g [Hg| ->%list_elem_of_singleton]%elem_of_app; [by apply Hpre|done].
    + intros _. apply Hrest. unfold pending. destruct (lf_committed f) eqn:E; [|done].
      destruct (lo_files _ _ _ Hok f ltac:(rewrite Hfs, elem_of_app, elem_of_cons; tauto)) as (_ & _ & _ & Hc). destruct (Hc E) as (_ & E' & _). congruence.
    + exists w'. split_and!; try done. cbn [length complete_recovery_loop]. unfold mbind at 1, ST_bind at 1, ledger at 1, gets at 1.
      rewrite Hfs, list_lookup_middle by done. cbn [from_option]. rewrite Hr. by rewrite length_app, Nat.add_comm in Hrun'.
Qed.

Lemma pending_rising d c fs : forall s es,
  chained d s fs es -> (forall f, f ∈ fs -> get_last_idx f < c -> lf_committed f = true) -> (forall f, f ∈ fs -> lf_committed f = true -> get_last_idx f <= c) ->
  rising (pending <$> fs).
Proof.
  induction fs as [|f fs IH]; intros s es Hch Hset Hle; [done|]. destruct Hch as (e1 & e2 & -> & Hne & Hs & Hh & Hch). split.
  - intros Hp. apply Forall_fmap, Forall_forall. intros g Hg. unfold pending in *. apply negb_true_iff in Hp. apply negb_true_iff. destruct (lf_committed g) eqn:E; [|done].
    pose proof (Hle g ltac:(by right) E). pose proof (chained_bounds _ _ _ _ _ Hch Hg). pose proof (file_holds_last _ _ _ Hh). assert (get_last_idx f < c) as Hc by lia.
    rewrite (Hset f ltac:(by left) Hc) in Hp. done.
  - apply (IH _ _ Hch); intros g Hg; [apply Hset|apply Hle]; by right.
Qed.

Lemma complete_recovery_spec w lg :
  ledger_ok w lg -> exists w', complete_recovery w = (w', Ret tt) /\ ledger_ok w' lg /\ recovery_start_idx (lw_ledger w') = None.
Proof.
  intros (Hok & Hlast & Hcom & Hreq & Hset & Hrec). unfold complete_recovery. unfold mbind at 1, ST_bind at 1, ledger, gets.
  destruct (lo_chain _ _ _ Hok) as (closed & opened & _ & _ & Hch & _).
  assert (rising (pending <$> files (lw_ledger w))) as Hri.
  { apply (pending_rising _ (lg_committed lg) _ _ _ Hch Hset). intros f Hf Hc. destruct (lo_files _ _ _ Hok f Hf) as (_ & _ & _ & H). by apply H. }
  destruct (complete_recovery_loop_spec (files (lw_ledger w)) [] w lg Hok) as (w' & Hrun & Hok' & [] & Hall); try done.
  { intros g Hg. by apply not_elem_of_nil in Hg. }
  unfold mbind, ST_bind. change 0%nat with (length (@nil LedgerFile)). rewrite Hrun. eexists. split; [reflexivity|]. split; [|done].
  split; cbn; [by destruct Hok'; split|]. split_and!; try congruence; [|done]. intros f (g & Hg & -> & ->)%op_files0 Hlt. by apply Hset.
Qed.

(** ** Starting to write recovery files *)

Lemma set_recovery_start_spec w lg idx :
  ledger_ok w lg -> idx <= lg_last lg -> exists w', set_recovery_start_idx idx w = (w', Ret tt) /\ ledger_ok w' lg.
Proof.
  intros (Hok & Hlast & Hcom & Hreq & Hset & Hrec) Hi. eexists. split; [reflexivity|]. split; cbn; [by destruct Hok; split|]. by split_and!.
Qed.
End commits.
