(* ===== verification/LedgerEnclave.v ===== *)
(** The side of the ledger inside the enclave: src/consensus/ledger_enclave.h ([LedgerEnclave]), the messages of
    src/consensus/ledger_enclave_types.h, and the requests of src/node/node_state.h for ranges of entries. *)

From S2P Require Import Prelude Serialized Serializer LedgerFile Ledger.

(** ** Entries *)

(** The entry is copied before its size is compared with the size of the data; a copy beyond the data is undefined. *)
Definition get_entry : Reader bytes :=
  header ← peek 8;
  let entry_size := serialised_entry_header_size + entry_size_of header in
  data ← get;
  if Z.of_nat (length data) <? entry_size then throw UndefinedBehaviour
  else
    skip_bytes entry_size;;
    mret (take (Z.to_nat entry_size) data).

Definition skip_entry : Reader unit :=
  header ← read 8;
  skip_bytes (entry_size_of header).

(** ** Messages to the host *)

Definition bool_value (b : bool) : Z := if b then 1 else 0.

Definition purpose_value (p : Purpose) : Z := match p with Recovery => 0 | HistoricalQuery => 1 end.

(** The declared types of the payloads. *)
Definition payload (m : HostMessage) : list SType :=
  match m with
  | ledger_init => [SInt 8; SInt 8]
  | ledger_append => [SInt 1; SBytes]
  | ledger_truncate => [SInt 8; SInt 1]
  | ledger_commit => [SInt 8]
  | ledger_open => []
  | ledger_get_range => [SInt 8; SInt 8; SInt 1]
  end.

(** [RINGBUFFER_WRITE_MESSAGE]: the sections are written one after the other. *)
Definition write_message (m : HostMessage) (vs : list SValue) : HostMessage * bytes := (m, concat (serialize (payload m) vs)).

Definition put_entry (entry : bytes) (globally_committable : bool) : HostMessage * bytes :=
  write_message ledger_append [VInt (bool_value globally_committable); VBytes entry].

Definition enclave_truncate (idx : Z) : HostMessage * bytes := write_message ledger_truncate [VInt idx; VInt (bool_value false)].

Definition enclave_commit (idx : Z) : HostMessage * bytes := write_message ledger_commit [VInt idx].

Definition enclave_init (idx recovery_start_idx : Z) : HostMessage * bytes := write_message ledger_init [VInt idx; VInt recovery_start_idx].

(** Of src/node/node_state.h. *)
Definition read_ledger_entries (from to : Z) : HostMessage * bytes :=
  write_message ledger_get_range [VInt from; VInt to; VInt (purpose_value Recovery)].

Definition node_ledger_truncate (idx : Z) (recovery_mode : bool) : HostMessage * bytes :=
  write_message ledger_truncate [VInt idx; VInt (bool_value recovery_mode)].

(** ** Reading entries back *)

Lemma take_bytes_prefix (n : nat) (data : bytes) : (n <= length data)%nat -> take_bytes n data = (drop n data, Ret (take n data)).
Proof. intros H. rewrite <- (take_drop n data) at 1. rewrite <- (length_take_le data n) at 1 by done. apply take_bytes_app. Qed.
