(* ===== verification/LedgerSystem.v ===== *)
(** The host ledger as a log: the requests of the enclave, as the messages that carry them, and the jobs of the thread
    pool, in any order, act on a log of entries. *)

From Stdlib Require Import String.
From S2P Require Import Prelude Serialized Serializer LedgerFile Ledger LedgerNames LedgerFileProps LedgerInvariant LedgerUpdates LedgerWrites LedgerCommits LedgerEnclave.

(** ** What requests leave as it is *)

(** Nothing is sent, and no job is queued. *)
Definition quiet (w w' : LedgerWorld) : Prop := sent (lw_ledger w') = sent (lw_ledger w) /\ jobs (lw_ledger w') = jobs (lw_ledger w).

#[export] Instance quiet_preorder : PreOrder quiet.
Proof. split; [done|]. intros w1 w2 w3 [] []. split; congruence. Qed.

Lemma quiet_on_ledger f : (forall l, sent (f l) = sent l /\ jobs (f l) = jobs l) -> respects quiet (on_ledger f).
Proof. intros H w. unfold on_ledger, zoom, modify. apply H. Qed.

Lemma quiet_on_file {A} i (m : F A) : respects quiet (on_file i m).
Proof. intros w. unfold on_file. destruct (files _ !! i); [|done]. destruct (m _). done. Qed.

Lemma quiet_disk {A} (m : ST Disk A) : respects quiet (zoom lw_disk m).
Proof. intros w. unfold zoom. by destruct (m _). Qed.

Lemma quiet_lift {A} (o : outcome A) : respects quiet (lift o).
Proof. done. Qed.

#[local] Hint Resolve quiet_on_file quiet_disk quiet_lift : respects.
#[local] Hint Extern 2 (respects quiet (on_ledger _)) => (apply quiet_on_ledger; intros; done) : respects.

Section system.
Context {DO : DirOrder}.

Lemma quiet_complete_if b : respects quiet (complete_if b).
Proof. unfold complete_if, complete_latest, ledger. destruct b; respects_auto. Qed.

#[local] Hint Resolve quiet_complete_if : respects.

Lemma quiet_write_entry data c : respects quiet (write_entry data c).
Proof. unfold write_entry, append_entry, ledger. respects_auto. Qed.

Lemma quiet_truncate idx : respects quiet (truncate idx).
Proof.
  assert (forall n i b, respects quiet (truncate_loop n i b idx)) as Hl.
  { induction n as [|n IH]; intros i b; cbn [truncate_loop]; unfold ledger; respects_auto. }
  unfold truncate, ledger. respects_auto.
Qed.

Lemma quiet_commit idx : respects quiet (commit idx).
Proof.
  assert (forall n i, respects quiet (commit_loop n i idx)) as Hl.
  { induction n as [|n IH]; intros i; cbn [commit_loop]; unfold ledger; respects_auto. }
  unfold commit, ledger. respects_auto.
Qed.

Lemma quiet_complete_recovery : respects quiet complete_recovery.
Proof.
  assert (forall n i, respects quiet (complete_recovery_loop n i)) as Hl.
  { induction n as [|n IH]; intros i; cbn [complete_recovery_loop]; unfold ledger; respects_auto. }
  unfold complete_recovery, ledger. respects_auto.
Qed.

(** Reading leaves the start of a recovery as it is. *)
Definition same_start (w w' : LedgerWorld) : Prop := recovery_start_idx (lw_ledger w') = recovery_start_idx (lw_ledger w).

#[local] Instance same_start_preorder : PreOrder same_start.
Proof. split; [done|]. intros w1 w2 w3 H1 H2. unfold same_start in *. congruence. Qed.

Lemma same_start_on_ledger f : (forall l, recovery_start_idx (f l) = recovery_start_idx l) -> respects same_start (on_ledger f).
Proof. intros H w. unfold on_ledger, zoom, modify. apply H. Qed.

Lemma same_start_lift {A} (o : outcome A) : respects same_start (lift o).
Proof. done. Qed.

#[local] Hint Resolve same_start_lift : respects.
#[local] Hint Extern 2 (respects same_start (on_ledger _)) => (apply same_start_on_ledger; intros; done) : respects.

Lemma same_start_read from to cached strict size : respects same_start (read_entries_range from to cached strict size).
Proof.
  assert (forall idx b, respects same_start (get_file_from_idx idx b)) as Hf.
  { intros idx b. unfold get_file_from_idx, get_file_from_cache, ledger. respects_auto. }
  assert (forall fuel idx to' entries, respects same_start (read_range_loop fuel idx to' cached size entries)) as Hl.
  { induction fuel as [|fuel IH]; intros idx to' entries; cbn [read_range_loop]; respects_auto. }
  unfold read_entries_range, ledger. respects_auto.
Qed.

#[local] Hint Resolve same_start_read : respects.

Lemma same_start_respond max from to p : respects same_start (respond_range max from to p).
Proof. unfold respond_range, read_entries, write_ledger_get_range_response. respects_auto. Qed.

#[local] Hint Resolve same_start_respond : respects.

(** ** Requests, and the messages that carry them *)

Inductive Request :=
| PutEntry (entry : bytes) (globally_committable : bool)
| TruncateAt (idx : Z) (recovery_mode : bool)
| CommitAt (idx : Z)
| OpenLedger
| GetRange (from to : Z) (purpose : Purpose).

Definition message (r : Request) : HostMessage * bytes :=
  match r with
  | PutEntry entry c => put_entry entry c
  | TruncateAt idx mode => node_ledger_truncate idx mode
  | CommitAt idx => enclave_commit idx
  | OpenLedger => write_message ledger_open []
  | GetRange from to purpose => write_message ledger_get_range [VInt from; VInt to; VInt (purpose_value purpose)]
  end.

Context (max_message_size : Z).
Hypothesis max_fits : write_ledger_range_response_metadata_size <= max_message_size < 2 ^ 64.

Definition receive (r : Request) : L unit := handle_message max_message_size (message r).1 (message r).2.

(** What the host does on a request. *)
Definition serve (r : Request) : L unit :=
  match r with
  | PutEntry entry c => _ ← write_entry entry c; skip
  | TruncateAt idx mode => truncate idx;; if mode then set_recovery_start_idx idx else skip
  | CommitAt idx => commit idx
  | OpenLedger => complete_recovery
  | GetRange from to purpose => handle_get_range max_message_size from to purpose
  end.

Definition wide (i : Z) : Prop := 0 <= i < 2 ^ 64.

Definition in_width (r : Request) : Prop :=
  match r with
  | TruncateAt idx _ | CommitAt idx => wide idx
  | GetRange from to _ => wide from /\ wide to
  | _ => True
  end.

Lemma arguments_read n v rest w : 0 <= v < 256 ^ Z.of_nat n -> arguments (read n) (le_encode n v ++ rest) w = (w, Ret (v, rest)).
Proof. intros H. unfold arguments, lift. by rewrite read_app. Qed.

Lemma bool_value_true b : negb (bool_value b =? 0) = b.
Proof. by destruct b. Qed.

Lemma bool_value_fits b : 0 <= bool_value b < 256 ^ Z.of_nat 1.
Proof. destruct b; cbn; lia. Qed.

Lemma receive_serve r w : in_width r -> receive r w = serve r w.
Proof.
  assert (256 ^ Z.of_nat 8 = 2 ^ 64) as E8 by done. intros Hw. unfold receive. destruct r as [entry c|idx mode|idx| |from to p]; cbn [in_width] in Hw; unfold wide in Hw.
  - unfold message, put_entry, write_message. cbn [fst snd payload serialize serialize_value serialize_value_final handle_message concat app]. rewrite app_nil_r.
    unfold mbind at 1, ST_bind at 1. rewrite arguments_read by apply bool_value_fits. by rewrite bool_value_true.
  - unfold message, node_ledger_truncate, write_message. cbn [fst snd payload serialize serialize_value serialize_value_final handle_message concat app]. rewrite app_nil_r.
    unfold mbind at 1, ST_bind at 1. rewrite arguments_read by lia. unfold mbind at 1, ST_bind at 1.
    rewrite <- (app_nil_r (le_encode 1 _)), arguments_read by apply bool_value_fits. by rewrite bool_value_true.
  - unfold message, enclave_commit, write_message. cbn [fst snd payload serialize serialize_value serialize_value_final handle_message concat].
    unfold mbind at 1, ST_bind at 1. by rewrite arguments_read by lia.
  - done.
  - unfold message, write_message. cbn [fst snd handle_message]. rewrite (deserialize_serialize (payload ledger_get_range)).
    + cbn [payload as_read fmap list_fmap serve]. by destruct p.
    + cbn. destruct p; cbn; lia.
Qed.

(** ** Answers *)

Definition max_entries : Z := max_message_size - write_ledger_range_response_metadata_size.

(** A strict request beyond the log has no answer; otherwise the entries asked for that the log has, as far as they fit. *)
Definition range_answer (lg : Log) (from to : Z) (purpose : Purpose) (r : option bytes) : Prop :=
  if (from <=? 0) || (to <? from) || ((lg_last lg <? to) && negb (bool_decide (purpose = Recovery))) then r = None
  else if lg_last lg <? from then r = Some []
  else reads_as lg from (Z.min to (lg_last lg)) (Some max_entries) r.

Definition answer (lg : Log) (from to : Z) (purpose : Purpose) (r : RangeResponse) : Prop :=
  rr_from r = from /\ rr_to r = to /\ rr_purpose r = purpose /\ range_answer lg from to purpose (rr_entries r).

Lemma respond_spec w lg from to purpose :
  ledger_ok w lg -> from <= 0 \/ lg_base lg < from ->
  exists w' r, respond_range max_message_size from to purpose w = (w', Ret tt) /\ ledger_ok w' lg /\ answer lg from to purpose r /\
    sent (lw_ledger w') = sent (lw_ledger w) ++ [r] /\ jobs (lw_ledger w') = jobs (lw_ledger w) /\
    snd (read_entries from to (negb (bool_decide (purpose = Recovery))) (Some max_entries) w) = Ret (rr_entries r).
Proof.
  intros Hok Hfrom. unfold write_ledger_range_response_metadata_size in max_fits. unfold respond_range.
  set (strict := negb (bool_decide (purpose = Recovery))). replace (u64 (max_message_size - write_ledger_range_response_metadata_size)) with max_entries
    by (symmetry; apply u64_small; unfold max_entries, write_ledger_range_response_metadata_size, u64_modulus; lia).
  assert (exists w1 e, read_entries from to strict (Some max_entries) w = (w1, Ret e) /\ recached w w1 /\ ledger_ok w1 lg /\ range_answer lg from to purpose e) as (w1 & e & Hr & [c ->] & Hok1 & Ha).
  { unfold range_answer. fold strict. pose proof Hok as (Hd & Hlast & _). pose proof (lo_base _ _ _ Hd). unfold read_entries.
    destruct ((from <=? 0) || (to <? from)) eqn:E; cbn [orb].
    { exists w, None. unfold read_entries_range. rewrite E. split; [done|]. split; [apply recached_refl|done]. }
    apply orb_false_iff in E as E'. destruct E' as [E1%Z.leb_gt E2%Z.ltb_ge]. destruct ((lg_last lg <? to) && strict) eqn:E3.
    { exists w, None. unfold read_entries_range. rewrite E. unfold mbind, ST_bind, ledger, gets. rewrite Hlast, E3. split; [done|]. split; [apply recached_refl|done]. }
    destruct (Z.ltb_spec (lg_last lg) from) as [Hlt|Hge].
    { exists w, (Some []). unfold read_entries_range. rewrite E. unfold mbind, ST_bind, ledger, gets. rewrite Hlast, E3. destruct (Z.ltb_spec (lg_last lg) to); [|lia].
      cbn [read_range_loop]. destruct (Z.leb_spec from (lg_last lg)); [lia|]. split; [done|]. split; [apply recached_refl|done]. }
    apply read_entries_spec; try done; [lia| |unfold max_entries, write_ledger_range_response_metadata_size; cbn; lia].
    intros Hs. rewrite Hs, andb_true_r in E3. by apply Z.ltb_ge in E3. }
  unfold mbind, ST_bind. rewrite Hr. eexists _, (MkRangeResponse from to purpose e). split; [reflexivity|].
  split; [|split; [by split_and!|split; [done|by split]]]. destruct Hok1 as [Hd' ?]. split; [by destruct Hd'; split|done].
Qed.

(** ** The log as a specification *)

Record Spec := MkSpec { sp_log : Log; sp_jobs : list AsyncLedgerGet; sp_sent : list RangeResponse }.
#[local] Instance eta_Spec : Settable Spec := fun r => MkSpec (sp_log r) (sp_jobs r) (sp_sent r).

Definition log_after (lg : Log) (r : Request) : Log :=
  match r with
  | PutEntry entry _ => lg_append lg entry
  | TruncateAt idx _ => lg_truncate lg idx
  | CommitAt idx => lg_commit lg idx
  | _ => lg
  end.

(** What happens at the host: a request arrives, the thread pool works on a job, or a job completes. *)
Inductive Event := Receive (r : Request) | Work (i : nat) | Finish (i : nat).

Definition host_step (e : Event) : L unit :=
  match e with
  | Receive r => receive r
  | Work i => l ← ledger; match jobs l !! i with Some job => _ ← on_ledger_get_async job; skip | None => skip end
  | Finish i => on_ledger_get_async_complete max_message_size i
  end.

Lemma same_start_step e : (if e is Receive r then if r is GetRange _ _ _ then True else False else True) -> respects same_start (host_step e).
Proof.
  destruct e as [[| | | |from to p]|i|i]; try done; intros _; cbn [host_step].
  - unfold receive, message, write_message, handle_message, handle_get_range, ledger. cbn [fst snd]. respects_auto.
  - unfold on_ledger_get_async, ledger. respects_auto.
  - unfold on_ledger_get_async_complete, ledger. respects_auto.
Qed.

(** A request for a range is answered at once or becomes a job; a job is answered from the log at its completion. *)
Inductive spec_step (s : Spec) : Event -> Spec -> Prop :=
| spec_request r : (if r is GetRange _ _ _ then False else True) -> spec_step s (Receive r) (s <| sp_log := log_after (sp_log s) r |>)
| spec_answer from to p a : answer (sp_log s) from to p a -> spec_step s (Receive (GetRange from to p)) (s <| sp_sent := sp_sent s ++ [a] |>)
| spec_queue from to p : spec_step s (Receive (GetRange from to p)) (s <| sp_jobs := sp_jobs s ++ [MkAsyncLedgerGet from to p] |>)
| spec_work i : spec_step s (Work i) s
| spec_none i : sp_jobs s !! i = None -> spec_step s (Finish i) s
| spec_finish i job a : sp_jobs s !! i = Some job -> answer (sp_log s) (job_from job) (job_to job) (job_purpose job) a ->
    spec_step s (Finish i) (s <| sp_jobs := delete i (sp_jobs s) |> <| sp_sent := sp_sent s ++ [a] |>).

Inductive spec_run (s : Spec) : list Event -> Spec -> Prop :=
| spec_nil : spec_run s [] s
| spec_cons e es s1 s2 : spec_step s e s1 -> spec_run s1 es s2 -> spec_run s (e :: es) s2.

(** An entry without a header, or one that would end a chunk although it is not committable: the handler throws. *)
Definition rejects (e : Event) : bool :=
  match e with
  | Receive (PutEntry entry c) => (length entry <? 8)%nat || refused entry c
  | _ => false
  end.

(** The events in front of the first such entry. *)
Fixpoint accepted (es : list Event) : list Event :=
  match es with
  | [] => []
  | e :: es => if rejects e then [] else e :: accepted es
  end.

(** When a request can be made: chunks stay below 4 GiB and indices below 2^62, a recovery starts in the log and is not rolled back beyond its start, and ranges start behind the base of the log. *)
Definition asked (base from : Z) : Prop := from <= 0 \/ base < from.

Definition enabled (base : Z) (w : LedgerWorld) (e : Event) : Prop :=
  match e with
  | Receive (PutEntry entry c) => room w entry /\ last_idx (lw_ledger w) + 1 < 2 ^ 62
  | Receive (TruncateAt idx mode) => wide idx /\ from_option (fun r => r <= idx) True (recovery_start_idx (lw_ledger w)) /\ (mode = true -> idx <= last_idx (lw_ledger w))
  | Receive (CommitAt idx) => wide idx
  | Receive (GetRange from to _) => wide from /\ wide to /\ asked base from
  | _ => True
  end.

Definition represents (base : Z) (w : LedgerWorld) (s : Spec) : Prop :=
  ledger_ok w (sp_log s) /\ lg_base (sp_log s) = base /\ jobs (lw_ledger w) = sp_jobs s /\ sent (lw_ledger w) = sp_sent s /\
  Forall (fun j => asked base (job_from j)) (sp_jobs s).

Fixpoint host_run (es : list Event) : L unit :=
  match es with
  | [] => skip
  | e :: es => host_step e;; host_run es
  end.

(** The conditions hold in the states of the run. *)
Fixpoint enabled_along (base : Z) (w : LedgerWorld) (es : list Event) : Prop :=
  match es with
  | [] => True
  | e :: es => enabled base w e /\ enabled_along base (host_step e w).1 es
  end.

(** ** The simulation *)

Lemma represents_log base w w' s lg :
  represents base w s -> quiet w w' -> ledger_ok w' lg -> lg_base lg = base -> represents base w' (s <| sp_log := lg |>).
Proof. intros (_ & _ & Hj & Hs & Hf) [Hq1 Hq2] Hok Hb. split; [done|]. split; [done|]. split; [by rewrite Hq2|]. by split; [rewrite Hq1|]. Qed.

Lemma quiet_run {A} (m : L A) w w' o : respects quiet m -> m w = (w', o) -> quiet w w'.
Proof. intros H E. specialize (H w). by rewrite E in H. Qed.

Lemma truncate_base lg idx : lg_base (lg_truncate lg idx) = lg_base lg.
Proof. unfold lg_truncate. by destruct (_ || _). Qed.

Lemma truncate_reaches lg idx : lg_base lg <= lg_committed lg -> idx <= lg_last lg -> idx <= lg_last (lg_truncate lg idx).
Proof.
  intros Hb Hi. unfold lg_truncate. destruct ((lg_last lg <=? idx) || (idx <? lg_committed lg)) eqn:E; [done|]. apply orb_false_iff in E as [E1%Z.leb_gt E2%Z.ltb_ge].
  unfold lg_last in *. cbn. rewrite length_take. lia.
Qed.

(** Requests that change the log. *)
Lemma serve_log base w s r :
  represents base w s -> enabled base w (Receive r) -> rejects (Receive r) = false -> (if r is GetRange _ _ _ then False else True) ->
  exists w', serve r w = (w', Ret tt) /\ represents base w' (s <| sp_log := log_after (sp_log s) r |>).
Proof.
  intros Hr He Hrej Hg. pose proof Hr as (Hok & Hb & _). pose proof Hok as (Hd & Hlast & _). pose proof (lo_base _ _ _ Hd) as Hbase.
  destruct r as [entry c|idx mode|idx| |]; cbn [enabled serve log_after rejects] in *; try done.
  - apply orb_false_iff in Hrej as [H8%Nat.ltb_ge Href]. destruct He as (Hroom & Hl). rewrite Hlast in Hl. destruct (write_entry_spec w (sp_log s) entry c Hok H8 Hroom Hl) as [w' Hw]. rewrite Href in Hw. destruct Hw as [Hw Hok'].
    exists w'. unfold mbind, ST_bind. rewrite Hw. split; [done|]. eapply represents_log; try done. by eapply quiet_run; [apply quiet_write_entry|].
  - destruct He as (_ & Hrs & Hm). destruct (truncate_spec w (sp_log s) idx Hok Hrs) as (w1 & Hw & Hok1). pose proof (quiet_run _ _ _ _ (quiet_truncate idx) Hw) as Hq.
    unfold mbind, ST_bind. rewrite Hw. destruct mode; [|exists w1; split; [done|]; eapply represents_log; try done; by rewrite truncate_base].
    destruct (set_recovery_start_spec w1 _ idx Hok1) as (w2 & Hw2 & Hok2). { apply truncate_reaches; [lia|]. rewrite <- Hlast. by apply Hm. }
    exists w2. split; [done|]. eapply represents_log; try done; [|by rewrite truncate_base]. transitivity w1; [done|]. unfold set_recovery_start_idx, on_ledger, zoom, modify in Hw2. by injection Hw2 as <-.
  - destruct (commit_spec w (sp_log s) idx Hok) as (w' & Hw & Hok'). exists w'. split; [done|]. eapply represents_log; try done; [by eapply quiet_run; [apply quiet_commit|]|].
    unfold lg_commit. by destruct (_ || _).
  - destruct (complete_recovery_spec w (sp_log s) Hok) as (w' & Hw & Hok' & _). exists w'. split; [done|]. eapply represents_log; try done. by eapply quiet_run; [apply quiet_complete_recovery|].
Qed.

Lemma host_step_refines base w s e :
  represents base w s -> enabled base w e -> rejects e = false -> exists w' s', host_step e w = (w', Ret tt) /\ spec_step s e s' /\ represents base w' s'.
Proof.
  intros Hr He Hrej. pose proof Hr as (Hok & Hb & Hj & Hs & Hf). destruct e as [r|i|i]; cbn [host_step].
  - rewrite receive_serve by (destruct r; cbn in *; tauto). destruct r as [entry c|idx mode|idx| |from to p].
    1-4: edestruct serve_log as (w' & Hw & Hr'); [done|done|done|done|eexists w', _; split; [exact Hw|]; split; [by apply spec_request|done]].
    cbn [serve enabled] in *. destruct He as (_ & _ & Ha). unfold handle_get_range, mbind, ST_bind, ledger, gets. destruct (is_in_committed_file _ _).
    + eexists _, _. split; [reflexivity|]. split; [by apply spec_queue|]. split; [destruct Hok as [Hd ?]; split; [by destruct Hd; split|done]|]. split; [done|]. cbn. split; [by rewrite Hj|].
      split; [done|]. apply Forall_app. by split; [|constructor].
    + destruct (respond_spec w (sp_log s) from to p Hok) as (w' & a & Hw & Hok' & Han & Hs' & Hj' & _); [by rewrite Hb|].
      exists w'. eexists. split; [exact Hw|]. split; [by apply spec_answer|]. split; [done|]. split; [done|]. cbn. by rewrite Hj', Hs', Hs.
  - unfold mbind at 1, ST_bind at 1, ledger, gets. destruct (jobs (lw_ledger w) !! i) as [job|]; [|exists w, s; split; [done|]; split; [constructor|done]].
    destruct (read_async_spec w (sp_log s) job Hok) as (w' & r & Hw & [c ->] & Hok'). unfold mbind, ST_bind. rewrite Hw. eexists _, s. split; [reflexivity|]. by split; [constructor|].
  - unfold on_ledger_get_async_complete. unfold mbind at 1, ST_bind at 1, ledger, gets. destruct (jobs (lw_ledger w) !! i) as [job|] eqn:E; rewrite Hj in E; [|exists w, s; split; [done|]; by split; [constructor|]].
    assert (asked base (job_from job)) as Ha by (by eapply Forall_lookup_1 in Hf).
    destruct (respond_spec w (sp_log s) (job_from job) (job_to job) (job_purpose job) Hok) as (w' & a & Hw & Hok' & Han & Hs' & Hj' & _); [by rewrite Hb|].
    unfold mbind, ST_bind. rewrite Hw. eexists _, _. split; [reflexivity|]. split; [by eapply spec_finish|]. split; [destruct Hok' as [Hd ?]; split; [by destruct Hd; split|done]|].
    split; [done|]. cbn. rewrite Hj', Hj, Hs', Hs. split_and!; try done. rewrite delete_take_drop. apply Forall_app. split; [by apply Forall_take|by apply Forall_drop].
Qed.

Lemma host_step_rejects base w s e :
  represents base w s -> enabled base w e -> rejects e = true -> exists w' x, host_step e w = (w', Throw x) /\ represents base w' s.
Proof.
  intros Hr He Hrej. pose proof Hr as (Hok & Hb & _). destruct e as [[entry c| | | |]| |]; try done. cbn [host_step rejects enabled] in *.
  rewrite receive_serve by done. cbn [serve].
  assert (exists w' x, write_entry entry c w = (w', Throw x) /\ ledger_ok w' (sp_log s)) as (w' & x & Hw & Hok').
  { destruct (Nat.ltb_spec (length entry) 8) as [Hlt|Hge].
    - unfold write_entry, mbind at 1, ST_bind at 1, lift at 1, peek, mbind, ST_bind, get. destruct (Nat.ltb_spec (length entry) 8); [|lia]. by eexists _, _.
    - cbn [orb] in Hrej. destruct He as [Hroom Hl]. rewrite (proj1 (proj2 Hok)) in Hl.
      destruct (write_entry_spec w (sp_log s) entry c Hok Hge Hroom Hl) as [w' Hw]. rewrite Hrej in Hw. by eexists _, _. }
  exists w', x. split; [by rewrite (run_bind_throw _ _ _ _ _ Hw)|]. destruct (quiet_run _ _ _ _ (quiet_write_entry entry c) Hw) as [Hq1 Hq2].
  destruct Hr as (_ & _ & Hj & Hs & Hf). split; [done|]. split; [done|]. by rewrite Hq1, Hq2.
Qed.

Lemma host_run_refines base w s es :
  represents base w s -> enabled_along base w es ->
  exists w' s' o, host_run es w = (w', o) /\ spec_run s (accepted es) s' /\ represents base w' s' /\
    (if existsb rejects es then exists x, o = Throw x else o = Ret tt).
Proof.
  revert w s. induction es as [|e es IH]; intros w s Hr He; cbn [host_run accepted existsb]; [exists w, s; eexists; split; [reflexivity|]; by split; [constructor|]|].
  destruct He as [He Hes]. destruct (rejects e) eqn:Erej; cbn [orb].
  { destruct (host_step_rejects base w s e Hr He Erej) as (w' & x & Hw & Hr'). exists w', s, (Throw x). rewrite (run_bind_throw _ _ _ _ _ Hw).
    split; [done|]. split; [constructor|]. split; [done|by exists x]. }
  destruct (host_step_refines base w s e Hr He Erej) as (w1 & s1 & Hw & Hs & Hr1). rewrite Hw in Hes.
  destruct (IH w1 s1 Hr1 Hes) as (w' & s' & o & Hw' & Hs' & Hr'). exists w', s', o. unfold mbind, ST_bind. rewrite Hw. split; [done|]. by split; [econstructor|].
Qed.

(** The log at the end of a run. *)
Definition log_events (lg : Log) (es : list Event) : Log := foldl (fun lg e => if e is Receive r then log_after lg r else lg) lg es.

Lemma spec_run_log s es s' : spec_run s es s' -> sp_log s' = log_events (sp_log s) es.
Proof.
  induction 1 as [|s e es s1 s2 Hs _ IH]; [done|]. rewrite IH. unfold log_events. cbn [foldl]. f_equal. by inversion Hs.
Qed.

(** C10: The host's ledger, once it has been opened or initialised, refines a log.  The enclave sends entries, truncations,
    commits, the end of a recovery and requests for ranges, as the messages its serializer writes, and the thread pool
    schedules the jobs in any order among them.  Chunks stay below 4 GiB, a recovery starts inside the log and is not
    truncated beyond its start, and ranges start behind the base of the log.  Then no operation fails, but for the first
    entry that has no header or would end a chunk without being committable, which is refused with an exception and leaves the
    log as it is.  The files, the directories and the read cache represent the log on which the requests have acted: entries
    appended, cut off behind an index, or committed.  A request for a range is answered from that log, at once or when its
    job completes: with all of its entries in order when they fit in a message, and otherwise with some of the first of
    them or with none. *)
Theorem ledger_refines_log base w s es :
  represents base w s -> enabled_along base w es ->
  exists w' s' o, host_run es w = (w', o) /\ spec_run s (accepted es) s' /\ represents base w' s' /\
    sp_log s' = log_events (sp_log s) (accepted es) /\ (if existsb rejects es then exists x, o = Throw x else o = Ret tt).
Proof.
  intros Hr He. destruct (host_run_refines base w s es Hr He) as (w' & s' & o & Hw & Hs & Hr' & Ho). exists w', s', o. split_and!; try done. by apply spec_run_log.
Qed.
End system.
