(* ===== verification/LedgerRestart.v ===== *)
(** Restarting the host: the constructor of the ledger on the directory that an earlier ledger left behind, whose last file
    may end in a torn entry. *)

From Stdlib Require Import String Sorted.
From stdpp Require Import sorting.
From S2P Require Import Prelude Serialized Serializer LedgerFile Ledger LedgerNames LedgerFileProps LedgerInvariant LedgerUpdates LedgerWrites LedgerCommits LedgerEnclave LedgerSystem.

(** ** Sorting by last index *)

Definition before (f g : LedgerFile) : Prop := get_last_idx f <= get_last_idx g.

Lemma insert_file_perm f fs : insert_file f fs ≡ₚ f :: fs.
Proof. induction fs as [|g fs IH]; cbn; [done|]. destruct (_ <=? _); [done|]. rewrite IH. by constructor. Qed.

Lemma sort_files_perm fs : sort_files fs ≡ₚ fs.
Proof. induction fs as [|f fs IH]; [done|]. cbn. rewrite insert_file_perm. by f_equiv. Qed.

Lemma insert_file_sorted f fs : StronglySorted before fs -> StronglySorted before (insert_file f fs).
Proof.
  induction 1 as [|g fs Hs IH Hg]; cbn; [repeat constructor|]. unfold before in *. destruct (Z.leb_spec (get_last_idx f) (get_last_idx g)) as [Hle|Hgt].
  - constructor; [by constructor|]. constructor; [done|]. eapply Forall_impl; [exact Hg|]. cbn. lia.
  - constructor; [done|]. rewrite insert_file_perm. constructor; [lia|done].
Qed.

Lemma sort_files_sorted fs : StronglySorted before (sort_files fs).
Proof. induction fs as [|f fs IH]; [constructor|]. by apply insert_file_sorted. Qed.

Lemma filter_sorted p fs : StronglySorted before fs -> StronglySorted before (List.filter p fs).
Proof.
  induction 1 as [|g fs Hs IH Hg]; cbn; [constructor|]. destruct (p g); [|done]. constructor; [done|].
  apply Forall_forall. intros x Hx%list_elem_of_In%List.filter_In. rewrite Forall_forall in Hg. apply Hg, list_elem_of_In, Hx.
Qed.

Lemma filter_perm (p : LedgerFile -> bool) fs fs' : fs ≡ₚ fs' -> List.filter p fs ≡ₚ List.filter p fs'.
Proof. induction 1 as [|x l l' _ IH|x y l|l1 l2 l3 _ IH1 _ IH2]; cbn; [done| | |by rewrite IH1]; [destruct (p x); [by f_equiv|done]|]. destruct (p x), (p y); done || constructor. Qed.

(** The last file of the sorted list has the greatest index. *)
Lemma sorted_last fs f m :
  StronglySorted before fs -> f ∈ fs -> get_last_idx f = m -> (forall g, g ∈ fs -> get_last_idx g <= m) -> from_option get_last_idx 0 (last fs) = m.
Proof.
  intros Hs Hf Hm Hle. destruct fs as [|x fs _] using rev_ind; [by apply not_elem_of_nil in Hf|]. rewrite last_snoc. cbn.
  assert (x ∈ fs ++ [x]) as Hx by (apply elem_of_app; right; by left). pose proof (Hle x Hx). apply elem_of_app in Hf as [Hf| ->%list_elem_of_singleton]; [|done].
  pose proof (StronglySorted_app_1_elem_of before fs [x] f x Hs Hf ltac:(by left)) as Hb. unfold before in Hb. lia.
Qed.

(** ** Committed files leave the list *)

Lemma drop_committed_idx fs c m :
  c <= m -> (forall f, f ∈ fs -> lf_committed f = true -> get_last_idx f <= m) -> (c = m \/ exists f, f ∈ fs /\ lf_committed f = true /\ get_last_idx f = m) ->
  foldl (fun c f => if lf_committed f && (c.1 <? get_last_idx f) then (get_last_idx f, get_last_idx f) else c) (c, c) fs = (m, m).
Proof.
  revert c. induction fs as [|f fs IH]; intros c Hc Hle Hex; cbn [foldl].
  - destruct Hex as [->|(f & Hf & _)]; [done|]. by apply not_elem_of_nil in Hf.
  - assert (forall g, g ∈ fs -> lf_committed g = true -> get_last_idx g <= m) as Hle' by (intros g Hg; apply Hle; by right).
    destruct (lf_committed f && _) eqn:E; cbn [fst] in *.
    + apply andb_true_iff in E as [Ec El%Z.ltb_lt]. apply IH; [by apply Hle; [left|]|done|]. destruct Hex as [->|(g & [->|Hg]%elem_of_cons & Hgc & Hgl)]; [|by left|right; by exists g].
      specialize (Hle f ltac:(by left) Ec). lia.
    + apply IH; [done|done|]. destruct Hex as [->|(g & [->|Hg]%elem_of_cons & Hgc & Hgl)]; [by left| |right; by exists g].
      rewrite Hgc in E. apply Z.ltb_ge in E. left. lia.
Qed.

(** ** The names of a directory *)

Lemma listing_NoDup dir d : NoDup (listing dir d).
Proof.
  unfold listing. pose proof (NoDup_fst_map_to_list (names d)) as Hnd. induction (map_to_list (names d)) as [|[[x name] i] ps IH]; cbn; [constructor|].
  cbn in Hnd. apply NoDup_cons in Hnd as [Hni Hnd]. case_bool_decide as E; [|by apply IH]. cbn in E. subst x. constructor; [|by apply IH].
  intros ([[y m] j] & Hin & Hy)%list_elem_of_omap. cbn in Hy. case_bool_decide as E; [|done]. cbn in E. injection Hy as ->. subst y. apply Hni. by apply (list_elem_of_fmap_2 fst) in Hin.
Qed.

Lemma iterator_NoDup `{!DirOrder} dir d : NoDup (directory_iterator dir d).
Proof. unfold directory_iterator. rewrite dir_order_perm. apply listing_NoDup. Qed.

Lemma elem_of_iterator `{!DirOrder} dir d name : name ∈ directory_iterator dir d <-> is_Some (names d !! (dir, name)).
Proof. unfold directory_iterator. rewrite dir_order_perm. apply elem_of_listing. Qed.

(** ** The disk after a crash *)

(** The first [n] entries of the log are on the disk: of a last file that is not complete, those up to [n] and part of another. *)
Definition survives (d : Disk) (l : Ledger) (lg : Log) (n : Z) (d' : Disk) : Prop :=
  directories d' = directories d /\ names d' = names d /\ length (inodes d') = length (inodes d) /\
  match last (files l) with
  | Some f =>
      if completed f then n = lg_last lg /\ forall i, contents d' i = contents d i
      else start_idx f - 1 <= n <= lg_last lg /\ (forall i, i <> file f -> contents d' i = contents d i) /\
        exists t, torn t /\ contents d' (file f) = image false (lg_range lg (start_idx f) n) ++ t
  | None => n = lg_last lg /\ forall i, contents d' i = contents d i
  end.

(** The files and the disk once the constructor has cut what is torn. *)
Definition cut_file (lg : Log) (n : Z) (f : LedgerFile) : LedgerFile :=
  let es := lg_range lg (start_idx f) n in f <| positions := offsets 8 es |> <| total_len := 8 + size_of es |>.

Definition survivors (l : Ledger) (lg : Log) (n : Z) : list LedgerFile :=
  match last (files l) with
  | Some f =>
      if completed f then files l
      else if n <? start_idx f then removelast (files l) else removelast (files l) ++ [cut_file lg n f]
  | None => files l
  end.

Definition cleaned (l : Ledger) (lg : Log) (n : Z) (d' : Disk) : Disk :=
  match last (files l) with
  | Some f =>
      if completed f then d'
      else if n <? start_idx f then remove_names (ledger_dir l) [f] d' else set_contents (file f) (image false (lg_range lg (start_idx f) n)) d'
  | None => d'
  end.

Definition torn_name (l : Ledger) : option string :=
  match last (files l) with
  | Some f => if completed f then None else Some (file_name f)
  | None => None
  end.

(** ** One file of the directory *)

Section visit.
Context {DO : DirOrder}.

Lemma recover_main_eq name w f f' D' removed :
  is_ledger_file_name_recovery name = false -> is_ledger_file_name_ignored name = false ->
  recover_LedgerFile (ledger_dir (lw_ledger w)) name (lw_disk w) = Ret f ->
  file_truncate (get_last_idx f) (MkFileWorld f (lw_disk w)) = (MkFileWorld f' D', Ret removed) ->
  recover_main name w = (MkLedgerWorld ((lw_ledger w) <| files := files (lw_ledger w) ++ (if removed then [] else [f']) |>) D', Ret tt).
Proof.
  intros Hr Hi Hf Ht. unfold recover_main. rewrite Hr, Hi. cbn [orb]. unfold mbind at 1, ST_bind at 1, get at 1. unfold mbind at 1, ST_bind at 1, catch.
  unfold mbind at 1, ST_bind at 1, lift. rewrite Hf. unfold truncate_recovered. rewrite Ht. destruct removed; [rewrite app_nil_r; by destruct w as [[] ?]|]. by destruct w as [[] ?].
Qed.

Lemma visit_ignored name w : is_ledger_file_name_ignored name = true -> recover_main name w = (w, Ret tt).
Proof. intros H. unfold recover_main, ignore_ledger_file. by rewrite H, orb_true_r. Qed.

(** A complete file is left as it is. *)
Lemma truncate_keeps d f es idx : holds d f es -> completed f = true -> get_last_idx f <= idx -> file_truncate idx (MkFileWorld f d) = (MkFileWorld f d, Ret false).
Proof.
  intros H Hc Hi. unfold file_truncate, mbind, ST_bind, get. cbn [fw_file]. rewrite Hc. destruct (Z.leb_spec (get_last_idx f) idx); [|lia].
  by rewrite orb_true_r.
Qed.

(** A file without entries is removed. *)
Lemma truncate_empty d f i :
  positions f = [] -> completed f = false -> lf_committed f = false -> 1 <= start_idx f < 2 ^ 63 -> names d !! (lf_dir f, file_name f) = Some i ->
  file_truncate (get_last_idx f) (MkFileWorld f d) = (MkFileWorld f (d <| names := delete (lf_dir f, file_name f) (names d) |>), Ret true).
Proof.
  intros Hp Hc Hco Hs Hn. assert (get_last_idx f = u64 (start_idx f - 1)) as -> by (unfold get_last_idx; rewrite Hp; f_equal; cbn; lia).
  unfold file_truncate. unfold mbind at 1, ST_bind at 1, get at 1. cbn [fw_file]. rewrite Hc, Hco, Z.ltb_irrefl. cbn [orb andb]. rewrite Z.eqb_refl.
  unfold remove_path, mbind, ST_bind, zoom, get, assign, modify, mret, ST_ret, set, update_field. cbn. by rewrite Hn.
Qed.

(** What follows the entries is cut off. *)
Lemma truncate_torn d f es t :
  holds (set_contents (file f) (image false es) d) f es -> es <> [] -> completed f = false -> lf_committed f = false -> contents d (file f) = image false es ++ t ->
  file_truncate (get_last_idx f) (MkFileWorld f d) = (MkFileWorld f (set_contents (file f) (image false es) d), Ret false).
Proof.
  intros Hh Hne Hc Hco Hcon. pose proof (file_holds_last _ _ _ Hh) as Hl. pose proof (h_start _ _ _ Hh). pose proof (h_last _ _ _ Hh). pose proof (h_inode _ _ _ Hh) as Hi. rewrite length_set in Hi.
  assert (0 < len es) by (destruct es; [done|cbn; lia]). assert (len (zeros 8 ++ concat es) = 8 + size_of es) as Hlen by (rewrite length_app; unfold size_of, zeros; rewrite length_replicate; lia).
  assert (ftruncate (file f) (8 + size_of es) (write_at (file f) 0 (le_encode 8 0) d) = set_contents (file f) (image false es) d) as Hw.
  { unfold ftruncate, write_at. rewrite le_encode_length. cbn [Nat.eqb]. rewrite contents_set, decide_True, set_set by done. f_equal.
    rewrite overlay_start, Hcon, le_encode_length. change (le_encode 8 0) with (zeros 8). unfold image. rewrite <- app_assoc.
    assert (drop 8 (zeros 8 ++ concat es ++ t) = concat es ++ t) as -> by done. rewrite app_assoc. rewrite length_app.
    replace (Z.to_nat (8 + size_of es)) with (length (zeros 8 ++ concat es)) by lia. rewrite take_app_length.
    replace (length (zeros 8 ++ concat es) - (length (zeros 8 ++ concat es) + length t))%nat with 0%nat by lia. cbn. by rewrite app_nil_r. }
  unfold file_truncate. unfold mbind at 1, ST_bind at 1, get at 1. cbn [fw_file]. rewrite Hc, Hco, Hl, (u64_small (start_idx f - 1)) by (unfold u64_modulus; lia).
  destruct (Z.ltb_spec (start_idx f + len es - 1) (start_idx f - 1)); [lia|]. cbn [orb andb]. destruct (Z.eqb_spec (start_idx f + len es - 1) (start_idx f - 1)); [lia|].
  rewrite Z.eqb_refl. unfold mbind, ST_bind, zoom, modify, assign, get, set, update_field, skip, mret, ST_ret. cbn. rewrite (h_total _ _ _ Hh), Hw. pose proof (h_total _ _ _ Hh) as Htot. destruct f; cbn in *. by rewrite Hc, Htot.
Qed.
End visit.

Section restart.
Context {DO : DirOrder} (d d' : Disk) (l : Ledger) (lg : Log) (n : Z).
Hypothesis Hok : disk_ok d l lg.
Hypothesis Hbase : lg_base lg = 0.
Hypothesis Hwritten : forall f, f ∈ files l -> recovery f = false.
Hypothesis Hreads : read_ledger_dirs l = [].
Hypothesis Hframed : Forall framed (lg_entries lg).
Hypothesis Hsurv : survives d l lg n d'.

#[local] Abbreviation dir := (ledger_dir l).

Lemma written_file f : f ∈ files l ->
  lf_committed f = false /\ file_name f = new_file_name (start_idx f) false /\ names d !! (dir, file_name f) = Some (file f) /\ lf_dir f = dir /\ 1 <= start_idx f < 2 ^ 63.
Proof.
  intros Hf. destruct (lo_files _ _ _ Hok f Hf) as (Hd & Hn & Hi & Hc). pose proof (file_bounds _ _ _ _ Hok Hf). pose proof (lo_bound _ _ _ Hok).
  assert (lf_committed f = false) as E. { destruct (lf_committed f); [|done]. destruct (Hc eq_refl) as (_ & E & _). by rewrite Hwritten in E. }
  unfold name_of_file in Hn. rewrite E, Hwritten in Hn by done. split_and!; try done; lia.
Qed.

Lemma written_flags f : f ∈ files l ->
  is_ledger_file_name_committed (file_name f) = false /\ is_ledger_file_name_ignored (file_name f) = false /\ is_ledger_file_name_recovery (file_name f) = false.
Proof. intros Hf. destruct (written_file f Hf) as (_ & -> & _ & _ & Hs). apply new_name_flags. lia. Qed.

(** The entries of a file, as a part of the log. *)
Lemma file_entries f : f ∈ files l -> exists ef, holds d f ef /\ ef <> [] /\ ef = lg_range lg (start_idx f) (get_last_idx f).
Proof.
  intros (fs1 & fs2 & Hfs)%list_elem_of_split. destruct (file_at _ _ _ _ _ _ Hok Hfs) as (closed & e1 & ef & e2 & He & _ & _ & _ & Hst & Hh & Hne & _ & Ha).
  exists ef. split; [done|]. split; [done|]. pose proof (file_holds_last _ _ _ Hh) as Hl. pose proof (h_start _ _ _ Hh). rewrite <- (agrees_range lg (start_idx f) ef (start_idx f)); try done; try lia.
  - unfold range, slice. rewrite Z.sub_diag. change (Z.to_nat 0) with 0%nat. rewrite drop_0, take_ge; [done|lia].
  - destruct ef; [done|]. cbn in Hl. lia.
Qed.

Definition intact (D : Disk) (name : string) : Prop := exists i, names D !! (dir, name) = Some i /\ names d !! (dir, name) = Some i /\ contents D i = contents d i /\ length (inodes D) = length (inodes d).

Lemma visit_file w f :
  ledger_dir (lw_ledger w) = dir -> f ∈ files l -> completed f = true -> intact (lw_disk w) (file_name f) ->
  recover_main (file_name f) w = (w <| lw_ledger := (lw_ledger w) <| files := files (lw_ledger w) ++ [f] |> |>, Ret tt).
Proof.
  intros Hd Hf Hc (i & Hn & Hn' & Hcon & Hlen). destruct (written_file f Hf) as (Hco & Hname & Hni & Hfd & Hs). rewrite Hni in Hn'. injection Hn' as <-.
  destruct (file_entries f Hf) as (ef & Hh & Hne & _). pose proof (h_last _ _ _ Hh).
  assert (contents d (file f) = image true ef) as Hcd by (rewrite <- Hc; destruct (h_contents _ _ _ Hh) as [|(-> & _)]; done).
  assert (get_start_idx_from_file_name (file_name f) = Ret (start_idx f)) as Hst by (rewrite Hname; apply new_name_start; lia).
  destruct (recover_complete (lw_disk w) dir (file_name f) (file f) (start_idx f) ef Hn Hst) as (g & Hg & Hhg & Hgc & Hgi & Hgs & Hgd & Hgn & Hgco & Hgr);
    [by rewrite Hcon|apply Hh|lia|done|apply Hh|]. destruct (written_flags f Hf) as (Hfc & Hfi & Hfr). specialize (Hhg ltac:(rewrite Hlen; apply Hh)).
  assert (g = f) as ->. { pose proof (h_positions _ _ _ Hhg) as Hp. rewrite <- (h_positions _ _ _ Hh) in Hp. pose proof (h_total _ _ _ Hhg) as Ht. rewrite <- (h_total _ _ _ Hh) in Ht.
    rewrite Hfc, <- Hco in Hgco. pose proof (Hwritten f Hf). destruct f, g; cbn in *; congruence. }
  rewrite (recover_main_eq _ w f f (lw_disk w) false); try done; [by rewrite Hd|]. by eapply truncate_keeps.
Qed.

Lemma visit_committed w s e :
  let name := committed_file_name s e false in
  ledger_dir (lw_ledger w) = dir -> 1 <= s <= e -> e < 2 ^ 62 -> intact (lw_disk w) name ->
  exists g, recover_main name w = (w <| lw_ledger := (lw_ledger w) <| files := files (lw_ledger w) ++ [g] |> |>, Ret tt) /\
    lf_committed g = true /\ file_name g = name /\ get_last_idx g = e.
Proof.
  intros name Hd Hse He (i & Hn & Hn' & Hcon & Hlen). destruct (committed_name_flags s e false) as (Hfc & Hfi & Hfr). fold name in Hfc, Hfi, Hfr.
  assert (get_start_idx_from_file_name name = Ret s) as Hst by (apply committed_name_start; lia).
  assert (get_last_idx_from_file_name name = Ret (Some e)) as Hla by (apply committed_name_last; lia).
  destruct (lo_dirs _ _ _ Hok dir (or_introl eq_refl) name i s e Hn' Hfi Hst Hla) as (Hi & es & Hc & Hles & (H1 & H2 & H3 & H4 & H5 & _)).
  destruct (recover_complete (lw_disk w) dir name i s es Hn Hst) as (g & Hg & Hhg & Hgc & Hgi & Hgs & Hgd & Hgn & Hgco & Hgr); [by rewrite Hcon|done|done|lia|done|].
  specialize (Hhg ltac:(lia)). exists g. rewrite (recover_main_eq name w g g (lw_disk w) false); try done; [|by rewrite Hd|by eapply truncate_keeps].
  split; [done|]. rewrite Hgco, (file_holds_last _ _ _ Hhg), Hgs. split_and!; try done. lia.
Qed.

(** ** The file that was being written *)

Lemma range_take s m m' : m <= m' -> lg_range lg s m = take (Z.to_nat (m - s + 1)) (lg_range lg s m').
Proof. intros H. unfold lg_range, slice. rewrite take_take. f_equal. lia. Qed.

Lemma range_framed s m : Forall framed (lg_range lg s m).
Proof. unfold lg_range, slice. by apply Forall_take, Forall_drop. Qed.

(** The last file, cut behind the entries that survive. *)
Lemma cut_holds f :
  last (files l) = Some f -> completed f = false -> start_idx f - 1 <= n <= lg_last lg ->
  let es := lg_range lg (start_idx f) n in
  len es = n - start_idx f + 1 /\ 8 + size_of es < 2 ^ 32 /\ forall D, length (inodes D) = length (inodes d) -> holds (set_contents (file f) (image false es) D) (cut_file lg n f) es.
Proof.
  intros Hlast Hc Hn es. assert (f ∈ files l) as Hf by (apply last_Some in Hlast as [fs ->]; apply elem_of_app; right; by left).
  apply last_Some in Hlast as [fs Hfs]. destruct (chain_snoc _ _ _ _ _ Hok Hfs) as (_ & _ & _ & _ & _ & _ & _ & _ & _ & _ & Hlf).
  destruct (file_entries f Hf) as (ef & Hh & Hne & Hef). pose proof (file_holds_last _ _ _ Hh) as Hl. rewrite Hlf in Hef, Hl.
  assert (es = take (Z.to_nat (n - start_idx f + 1)) ef) as Hes by (unfold es; rewrite Hef; apply range_take; lia).
  assert (len es = n - start_idx f + 1) as Hlen by (rewrite Hes, length_take; lia).
  assert (8 + size_of es < 2 ^ 32) as Hsz by (pose proof (h_small _ _ _ Hh); pose proof (size_take_le ef (Z.to_nat (n - start_idx f + 1))); rewrite Hes; lia).
  split; [done|]. split; [done|]. intros D HD. pose proof (h_start _ _ _ Hh). pose proof (h_last _ _ _ Hh). pose proof (h_inode _ _ _ Hh) as Hi. split; cbn; try done.
  - rewrite length_set. lia.
  - fold es. lia.
  - fold es. rewrite Hes. apply Forall_take, Hh.
  - left. rewrite Hc, contents_set, decide_True by (done || lia). done.
Qed.

Lemma visit_torn w f :
  ledger_dir (lw_ledger w) = dir -> lw_disk w = d' -> last (files l) = Some f -> completed f = false ->
  recover_main (file_name f) w = (MkLedgerWorld ((lw_ledger w) <| files := files (lw_ledger w) ++ (if n <? start_idx f then [] else [cut_file lg n f]) |>) (cleaned l lg n d'), Ret tt).
Proof.
  intros Hd HD Hlast Hc. destruct Hsurv as (_ & Hnames & Hinodes & Hs). unfold cleaned. rewrite Hlast, Hc in *. destruct Hs as (Hn & _ & t & Ht & Hcon).
  assert (f ∈ files l) as Hf by (apply last_Some in Hlast as [fs ->]; apply elem_of_app; right; by left). destruct (cut_holds f Hlast Hc Hn) as (Hlen & Hsz & Hh).
  destruct (written_file f Hf) as (Hco & Hname & Hni & Hfd & Hst). destruct (written_flags f Hf) as (Hfc & Hfi & Hfr). pose proof (Hwritten f Hf) as Hrec.
  set (es := lg_range lg (start_idx f) n) in *.
  assert (recover_LedgerFile (ledger_dir (lw_ledger w)) (file_name f) (lw_disk w) = Ret (cut_file lg n f)) as Hr.
  { rewrite Hd, HD, (recover_incomplete d' dir (file_name f) (file f) (start_idx f) es t); try done.
    - unfold cut_file. fold es. rewrite Hfc. f_equal. destruct f; unfold set, update_field; cbn in *. congruence.
    - by rewrite Hnames.
    - rewrite Hname. apply new_name_start. lia.
    - apply range_framed. }
  destruct (Z.ltb_spec n (start_idx f)) as [Hlt|Hge].
  - assert (es = []) as Hes by (apply nil_length_inv; lia). rewrite (recover_main_eq _ w (cut_file lg n f) (cut_file lg n f) (remove_names dir [f] d') true); try done. rewrite HD.
    rewrite (truncate_empty d' (cut_file lg n f) (file f)); try done; [|unfold cut_file; cbn; fold es; by rewrite Hes|cbn; by rewrite Hfd, Hnames]. cbn. by rewrite Hfd.
  - rewrite (recover_main_eq _ w (cut_file lg n f) (cut_file lg n f) (set_contents (file f) (image false es) d') false); try done. rewrite HD. apply (truncate_torn d' (cut_file lg n f) es t); try done; [by apply Hh|].
    intros E. rewrite E in Hlen. cbn in Hlen. lia.
Qed.

(** ** The whole directory *)

Inductive found (name : string) : option LedgerFile -> Prop :=
| found_ignored : is_ledger_file_name_ignored name = true -> found name None
| found_removed : torn_name l = Some name -> (forall f, f ∈ survivors l lg n -> file_name f <> name) -> found name None
| found_written f : f ∈ survivors l lg n -> file_name f = name -> found name (Some f)
| found_committed g s e : name = committed_file_name s e false -> 1 <= s <= e -> e < 2 ^ 62 -> (forall f, f ∈ files l -> e < start_idx f) ->
    lf_committed g = true -> file_name g = name -> get_last_idx g = e -> found name (Some g).

Lemma intact_other D name i :
  names d !! (dir, name) = Some i -> torn_name l <> Some name -> D = d' \/ D = cleaned l lg n d' -> intact D name.
Proof.
  intros Hn Htorn HD. destruct Hsurv as (_ & Hnames & Hinodes & Hs). exists i. unfold torn_name in Htorn. unfold cleaned in HD. destruct (last (files l)) as [f|] eqn:Hlast.
  2: { destruct Hs as [_ Hs]. destruct HD as [-> | ->]; split_and!; try done; by rewrite Hnames. }
  destruct (completed f) eqn:Hc; [destruct Hs as [_ Hs]; destruct HD as [-> | ->]; split_and!; try done; by rewrite Hnames|].
  assert (f ∈ files l) as Hf by (apply last_Some in Hlast as [fs ->]; apply elem_of_app; right; by left). destruct (written_file f Hf) as (_ & _ & Hni & _ & _).
  assert (i <> file f) as Hne. { intros ->. pose proof (lo_names _ _ _ Hok _ _ _ Hn Hni) as E. injection E as E. congruence. }
  pose proof (lo_inodes _ _ _ Hok _ _ Hni). destruct Hs as (_ & Hs & _). destruct HD as [-> |HD]; [split_and!; try done; [by rewrite Hnames|by apply Hs]|].
  destruct (n <? start_idx f); subst D; split_and!; try done.
  - apply remove_names_lookup. rewrite Hnames. split; [done|]. intros g ->%list_elem_of_singleton E. congruence.
  - by apply Hs.
  - by rewrite names_set, Hnames.
  - rewrite contents_set by (rewrite Hinodes; done). rewrite decide_False by done. by apply Hs.
  - by rewrite length_set.
Qed.

Lemma survivors_written f : f ∈ files l -> torn_name l <> Some (file_name f) -> completed f = true /\ f ∈ survivors l lg n.
Proof.
  intros Hf Ht. unfold torn_name in Ht. unfold survivors. destruct (last (files l)) as [x|] eqn:Hlast; [|apply last_None in Hlast; rewrite Hlast in Hf; by apply not_elem_of_nil in Hf].
  apply last_Some in Hlast as [fs Hfs]. pose proof (last_complete _ _ _ _ _ Hok Hfs) as Hall. rewrite Hfs, removelast_app, app_nil_r in * by done.
  apply elem_of_app in Hf as [Hf| ->%list_elem_of_singleton].
  - split; [by apply Hall|]. destruct (completed x); [by apply elem_of_app; left|]. destruct (_ <? _); [done|]. by apply elem_of_app; left.
  - destruct (completed x) eqn:Hc; [|done]. split; [done|]. apply elem_of_app. right. by left.
Qed.

Lemma survivors_torn f : last (files l) = Some f -> completed f = false -> if n <? start_idx f then forall g, g ∈ survivors l lg n -> file_name g <> file_name f else cut_file lg n f ∈ survivors l lg n.
Proof.
  intros Hlast Hc. unfold survivors. rewrite Hlast, Hc. apply last_Some in Hlast as [fs Hfs]. rewrite Hfs, removelast_app, app_nil_r by done. destruct (n <? start_idx f).
  - intros g Hg E. pose proof (names_distinct _ _ _ Hok) as Hnd. rewrite Hfs, fmap_app in Hnd. apply NoDup_app in Hnd as (_ & Hnd & _).
    apply (Hnd (file_name g)); [by apply list_elem_of_fmap_2|]. rewrite E. by left.
  - apply elem_of_app. right. by left.
Qed.

Lemma visit name w i :
  names d !! (dir, name) = Some i -> ledger_dir (lw_ledger w) = dir -> lw_disk w = d' \/ (lw_disk w = cleaned l lg n d' /\ torn_name l <> Some name) ->
  exists o, recover_main name w = (MkLedgerWorld ((lw_ledger w) <| files := files (lw_ledger w) ++ option_list o |>)
      (if decide (torn_name l = Some name) then cleaned l lg n d' else lw_disk w), Ret tt) /\ found name o.
Proof.
  intros Hn Hd HD. destruct (decide (torn_name l = Some name)) as [Ht|Ht].
  - destruct HD as [HD|[_ HD]]; [|done]. pose proof Ht as Ht'. unfold torn_name in Ht'. destruct (last (files l)) as [f|] eqn:Hlast; [|done]. destruct (completed f) eqn:Hc; [done|]. injection Ht' as <-.
    pose proof (survivors_torn f Hlast Hc) as Hsv. pose proof (visit_torn w f Hd HD Hlast Hc) as Hv. destruct (n <? start_idx f).
    + exists None. split; [exact Hv|]. by apply found_removed.
    + exists (Some (cut_file lg n f)). split; [exact Hv|]. by apply found_written.
  - assert (intact (lw_disk w) name) as Hin by (apply (intact_other _ _ i); tauto).
    destruct (lo_tidy _ _ _ Hok name i Hn) as [Hi|[(f & Hf & <-)|(s & e & -> & Hse & He & Hlt)]].
    + exists None. split; [rewrite visit_ignored by done; cbn; rewrite app_nil_r; by destruct w as [[] ?]|by apply found_ignored].
    + destruct (survivors_written f Hf Ht) as [Hc Hsv]. exists (Some f). split; [rewrite visit_file by done; by destruct w|by apply found_written].
    + destruct (visit_committed w s e Hd Hse He Hin) as (g & Hv & Hg & Hgn & Hge). exists (Some g). split; [rewrite Hv; by destruct w|by eapply found_committed].
Qed.

Lemma visit_all ns : forall w,
  NoDup ns -> (forall name, name ∈ ns -> is_Some (names d !! (dir, name))) -> ledger_dir (lw_ledger w) = dir ->
  lw_disk w = d' \/ (lw_disk w = cleaned l lg n d' /\ forall name, name ∈ ns -> torn_name l <> Some name) ->
  exists os D, foreach ns recover_main w = (MkLedgerWorld ((lw_ledger w) <| files := files (lw_ledger w) ++ omap id os |>) D, Ret tt) /\ Forall2 found ns os /\
    (D = cleaned l lg n d' \/ D = lw_disk w /\ forall name, name ∈ ns -> torn_name l <> Some name).
Proof.
  induction ns as [|name ns IH]; intros w Hnd Hin Hd HD; cbn [foreach].
  { exists [], (lw_disk w). split; [cbn; rewrite app_nil_r; by destruct w as [[] ?]|]. split; [done|]. right. split; [done|]. intros name Hn. by apply not_elem_of_nil in Hn. }
  apply NoDup_cons in Hnd as [Hni Hnd]. destruct (Hin name ltac:(by left)) as [i Hi]. destruct (visit name w i Hi Hd) as (o & Hv & Ho).
  { destruct HD as [HD|[HD Ht]]; [by left|right]. split; [done|]. apply Ht. by left. }
  unfold mbind, ST_bind. rewrite Hv. match type of Hv with _ = (?w1, _) => destruct (IH w1 Hnd) as (os & D & Hrun & Hos & HD') end.
  - intros x Hx. apply Hin. by right.
  - exact Hd.
  - cbn. destruct (decide (torn_name l = Some name)) as [Ht|Ht]; [right; split; [done|]|destruct HD as [HD|[HD Ht']]; [by left|right; split; [done|]]].
    + intros x Hx E. rewrite Ht in E. by injection E as ->.
    + intros x Hx. apply Ht'. by right.
  - rewrite Hrun. exists (o :: os), D. split; [|split; [by constructor|]].
    + cbn. rewrite <- app_assoc. by destruct o.
    + destruct HD' as [->|[-> Ht']]; [by left|]. cbn. destruct (decide (torn_name l = Some name)) as [Ht|Ht]; [by left|right]. split; [done|]. intros x [->|Hx]%elem_of_cons; [done|by apply Ht'].
Qed.

(** ** The disk that is left *)

(** The end of the committed files. *)
Definition end_of_committed : Z := from_option (fun f => start_idx f - 1) (lg_last lg) (head (files l)).

Lemma end_closed closed opened :
  lg_entries lg = closed ++ opened -> chained d (lg_base lg + len closed + 1) (files l) opened -> end_of_committed = len closed.
Proof.
  intros He Hch. unfold end_of_committed, lg_last. rewrite Hbase in *. destruct (files l) as [|f fs]; cbn in *.
  - rewrite He, Hch, app_nil_r. lia.
  - destruct Hch as (e1 & e2 & _ & _ & -> & _). lia.
Qed.

Lemma committed_end name s e i : names d !! (dir, name) = Some i -> name = committed_file_name s e false -> 1 <= s <= e -> e < 2 ^ 62 -> (forall f, f ∈ files l -> e < start_idx f) -> e <= end_of_committed.
Proof.
  intros Hn E Hse He Hlt. pose proof (committed_last _ _ _ _ _ _ _ Hok Hn E Hse He). pose proof (lo_bound _ _ _ Hok). unfold end_of_committed.
  destruct (files l) as [|f fs]; cbn; [lia|]. specialize (Hlt f ltac:(by left)). lia.
Qed.

(** Only what is in committed files is taken to be committed. *)
Lemma disk_ok_lower : disk_ok d (l <| files_read_cache := [] |>) (lg <| lg_committed := end_of_committed |>).
Proof.
  destruct (lo_chain _ _ _ Hok) as (closed & opened & He & Hcl & Hch & Hcov). pose proof (end_closed _ _ He Hch) as Hend. pose proof (lo_bound _ _ _ Hok) as Hbd.
  assert (lg_last (lg <| lg_committed := end_of_committed |>) = lg_last lg) as Hl by done.
  assert (len closed <= lg_last lg) as Hle by (unfold lg_last; rewrite He, length_app, Hbase; lia).
  split; cbn; try apply Hok.
  - lia.
  - rewrite Hl. lia.
  - intros f Hf. destruct (lo_files _ _ _ Hok f Hf) as (? & ? & ? & _). split_and!; try done. destruct (written_file f Hf) as (-> & _). done.
  - exists closed, opened. split_and!; try done. lia.
  - rewrite Hreads. intros x [->|Hx]; [|by apply not_elem_of_nil in Hx]. intros name i s e Hn Hig Hs Hla.
    destruct (lo_dirs _ _ _ Hok _ (or_introl eq_refl) name i s e Hn Hig Hs Hla) as (Hi & es & Hcon & Hlen & (Hc1 & Hc2 & Hc3 & Hc4 & Hc5 & Hc6)).
    split; [done|]. exists es. split; [done|]. split; [done|]. assert (e <= end_of_committed) as Hee; [|split_and!; try done; cbn; lia].
    destruct (lo_tidy _ _ _ Hok name i Hn) as [Hi'|[(f & Hf & <-)|(s' & e' & E & Hse & He' & Hlt)]]; [congruence| |].
    + destruct (written_file f Hf) as (_ & Hfn & _ & _ & Hst). rewrite Hfn, new_name_last in Hla; [done|lia].
    + pose proof (committed_end _ _ _ _ Hn E Hse He' Hlt). rewrite E, committed_name_last in Hla by lia. injection Hla as <-. done.
  - intros f Hf. by apply not_elem_of_nil in Hf.
Qed.

(** Inodes without a name do not matter. *)
Lemma disk_ok_contents d1 d2 l1 lg1 :
  disk_ok d1 l1 lg1 -> files_read_cache l1 = [] -> directories d2 = directories d1 -> names d2 = names d1 -> length (inodes d2) = length (inodes d1) ->
  (forall p i, names d1 !! p = Some i -> contents d2 i = contents d1 i) -> disk_ok d2 l1 lg1.
Proof.
  intros Hok1 Hcache Hdirs Hnames Hlen Hcon.
  assert (extends lg1 lg1) as Hex by (pose proof (lo_bound _ _ _ Hok1); split; [done|lia|lia|done]).
  split; try apply Hok1.
  - rewrite Hdirs. apply Hok1.
  - unfold one_name. rewrite Hnames. apply Hok1.
  - rewrite Hnames, Hlen. apply Hok1.
  - intros f Hf. unfold file_ok. rewrite Hnames. by apply Hok1.
  - rewrite Hnames. apply Hok1.
  - destruct (lo_chain _ _ _ Hok1) as (closed & opened & He & Hcl & Hch & Hcov). exists closed, opened. rewrite Hnames. split_and!; try done.
    apply (chained_frame d1); [done| |lia]. intros f Hf. apply (Hcon (ledger_dir l1, file_name f)). by apply (lo_files _ _ _ Hok1 f Hf).
  - intros x Hx. apply (dir_ok_frame d1 _ lg1); [by apply (lo_dirs _ _ _ Hok1)|done|lia|]. intros name i v Hn _. rewrite Hnames in Hn. split; [done|]. by apply (Hcon _ _ Hn).
  - rewrite Hcache. intros f Hf. by apply not_elem_of_nil in Hf.
Qed.

Lemma disk_ext d1 d2 : directories d2 = directories d1 -> names d2 = names d1 -> length (inodes d2) = length (inodes d1) -> (forall i, contents d2 i = contents d1 i) -> d2 = d1.
Proof.
  destruct d1 as [D1 N1 I1], d2 as [D2 N2 I2]. cbn. intros -> -> Hlen Hcon. f_equal. apply list_eq. intros i. specialize (Hcon i). unfold contents in Hcon. cbn in Hcon.
  destruct (decide (i < length I1)%nat) as [Hi|Hi]; [|by rewrite !lookup_ge_None_2 by lia].
  destruct (lookup_lt_is_Some_2 I1 i Hi) as [x Hx]. destruct (lookup_lt_is_Some_2 I2 i ltac:(lia)) as [y Hy]. rewrite Hx, Hy in *. cbn in Hcon. by subst.
Qed.

Definition restarted_log : Log := MkLog 0 (take (Z.to_nat n) (lg_entries lg)) end_of_committed.

Definition restarted_files (l0 : Ledger) : Ledger := l0 <| files_read_cache := [] |> <| files := survivors l lg n |>.

Lemma log_whole : n = lg_last lg -> restarted_log = lg <| lg_committed := end_of_committed |>.
Proof.
  intros E. unfold restarted_log. rewrite take_ge by (rewrite E; unfold lg_last; lia). unfold set, update_field. by rewrite Hbase.
Qed.

(** The cut of a last file that keeps some of its entries. *)
Lemma disk_ok_cut fs f :
  files l = fs ++ [f] -> completed f = false -> start_idx f <= n <= lg_last lg ->
  disk_ok (set_contents (file f) (image false (lg_range lg (start_idx f) n)) d) (l <| files_read_cache := [] |> <| files := fs ++ [cut_file lg n f] |>) restarted_log.
Proof.
  intros Hfs Hc Hn. pose proof disk_ok_lower as Hlow. assert (f ∈ files l) as Hf by (rewrite Hfs; apply elem_of_app; right; by left).
  destruct (chain_snoc _ _ _ fs f Hlow Hfs) as (closed & e1 & ef & He & Hcl & H1 & Hst & Hh & Hne & Hcov & Hlf). cbn in He, Hcl, H1, Hst, Hcov.
  assert (last (files l) = Some f) as Hlast by (by rewrite Hfs, last_snoc). destruct (cut_holds f Hlast Hc ltac:(lia)) as (Hlen & Hsz & Hcut).
  set (es := lg_range lg (start_idx f) n) in *. pose proof (file_holds_last _ _ _ Hh) as Hlh. rewrite Hlf in Hlh. change (lg_last (lg <| lg_committed := end_of_committed |>)) with (lg_last lg) in Hlh.
  assert (es = take (Z.to_nat (n - start_idx f + 1)) ef) as Hes.
  { destruct (file_entries f Hf) as (ef' & Hh' & _ & Hef). assert (ef' = ef) as ->.
    { pose proof (file_holds_last _ _ _ Hh') as Hl'. rewrite Hef. rewrite Hl'. unfold lg_range, slice. rewrite He, app_assoc, drop_app_length' by (rewrite length_app; lia).
      apply take_ge. pose proof (file_holds_last _ _ _ Hh). lia. }
    unfold es. rewrite Hef, (file_holds_last _ _ _ Hh). apply range_take. lia. }
  assert (restarted_log = lg <| lg_committed := end_of_committed |> <| lg_entries := closed ++ e1 ++ es |>) as Hlog.
  { unfold restarted_log. assert (take (Z.to_nat n) (lg_entries lg) = closed ++ e1 ++ es) as ->; [|unfold set, update_field; cbn; by rewrite Hbase].
    rewrite He, !app_assoc. rewrite <- (take_drop (Z.to_nat (n - start_idx f + 1)) ef), <- Hes, app_assoc.
    replace (Z.to_nat n) with (length ((closed ++ e1) ++ es)) by (rewrite !length_app; lia). apply take_app_length. }
  apply (disk_ok_update _ _ _ _ fs f (cut_file lg n f) _ closed e1 es Hlow); try done.
  - by apply written_file.
  - by rewrite Hlog.
  - rewrite Hlog. apply (extends_take _ (closed ++ e1 ++ es) (drop (Z.to_nat (n - start_idx f + 1)) ef)).
    + cbn. by rewrite Hes, <- !app_assoc, take_drop.
    + destruct (lo_chain _ _ _ Hok) as (c2 & o2 & He2 & _ & Hch2 & _). pose proof (end_closed _ _ He2 Hch2) as Hend. cbn. rewrite !length_app.
      rewrite Hend. pose proof (file_bounds _ _ _ _ Hok Hf). assert (end_of_committed <= start_idx f - 1); [|lia]. unfold end_of_committed. rewrite Hfs in *.
      destruct fs as [|g fs]; cbn in *; [lia|]. destruct H1 as (x & y & -> & _ & Hg & _). rewrite length_app in Hst. lia.
    + apply (lo_bound _ _ _ Hlow).
  - intros E. rewrite E in Hlen. cbn in Hlen. lia.
  - by apply Hcut.
Qed.

(** The cut of a last file of which nothing is left. *)
Lemma disk_ok_gone fs f :
  files l = fs ++ [f] -> n = start_idx f - 1 -> disk_ok (remove_names dir [f] d) (l <| files_read_cache := [] |> <| files := fs |>) restarted_log.
Proof.
  intros Hfs Hn. pose proof disk_ok_lower as Hlow. assert (f ∈ files l) as Hf by (rewrite Hfs; apply elem_of_app; right; by left).
  destruct (chain_snoc _ _ _ fs f Hlow Hfs) as (closed & e1 & ef & He & Hcl & H1 & Hst & Hh & Hne & Hcov & Hlf). cbn in He, Hcl, H1, Hst, Hcov.
  assert (restarted_log = lg <| lg_committed := end_of_committed |> <| lg_entries := closed ++ e1 |>) as ->.
  { unfold restarted_log. assert (take (Z.to_nat n) (lg_entries lg) = closed ++ e1) as ->; [|unfold set, update_field; cbn; by rewrite Hbase].
    rewrite He, app_assoc. replace (Z.to_nat n) with (length (closed ++ e1)) by (rewrite length_app; lia). apply take_app_length. }
  apply (disk_ok_drop _ _ _ fs [f] closed e1 ef Hlow); try done.
  - intros g ->%list_elem_of_singleton. by apply written_file.
  - split; [done|]. cbn. unfold end_of_committed. rewrite Hfs. destruct fs as [|g fs]; cbn in *; [lia|]. destruct H1 as (x & y & -> & _ & Hg & _). rewrite length_app. lia.
Qed.

Lemma disk_ok_cleaned : disk_ok (cleaned l lg n d') (restarted_files l) restarted_log.
Proof.
  destruct Hsurv as (Hdirs & Hnames & Hinodes & Hs). unfold cleaned, restarted_files, survivors. destruct (last (files l)) as [f|] eqn:Hlast.
  2: { destruct Hs as [Hn Hcon]. rewrite (disk_ext _ _ Hdirs Hnames Hinodes Hcon), log_whole by done. pose proof disk_ok_lower as []. by split. }
  destruct (completed f) eqn:Hc.
  { destruct Hs as [Hn Hcon]. rewrite (disk_ext _ _ Hdirs Hnames Hinodes Hcon), log_whole by done. pose proof disk_ok_lower as []. by split. }
  destruct Hs as (Hn & Hcon & _). apply last_Some in Hlast as [fs Hfs]. rewrite Hfs, removelast_app, app_nil_r by done.
  assert (f ∈ files l) as Hf by (rewrite Hfs; apply elem_of_app; right; by left). destruct (written_file f Hf) as (_ & _ & Hni & _ & _). pose proof (lo_inodes _ _ _ Hok _ _ Hni) as Hi.
  destruct (Z.ltb_spec n (start_idx f)) as [Hlt|Hge].
  - apply (disk_ok_contents (remove_names dir [f] d)); try done.
    + apply disk_ok_gone; [done|lia].
    + unfold remove_names. cbn. by rewrite Hnames.
    + intros p i Hp. apply remove_names_lookup in Hp as [Hp Hne]. apply Hcon. intros ->. apply (Hne f); [by left|]. apply (lo_names _ _ _ Hok _ _ _ Hp Hni).
  - replace (set_contents (file f) (image false (lg_range lg (start_idx f) n)) d') with (set_contents (file f) (image false (lg_range lg (start_idx f) n)) d); [apply disk_ok_cut; try done; lia|].
    apply disk_ext; try done; [by rewrite !length_set|]. intros i. rewrite !contents_set by lia. destruct (decide _); [done|]. symmetry. by apply Hcon.
Qed.

(** ** The list of files *)

Lemma survivors_from f :
  f ∈ survivors l lg n -> exists g, g ∈ files l /\ file_name f = file_name g /\ start_idx f = start_idx g /\ lf_committed f = false /\ recovery f = false.
Proof.
  assert (forall g, g ∈ files l -> exists h, h ∈ files l /\ file_name g = file_name h /\ start_idx g = start_idx h /\ lf_committed g = false /\ recovery g = false) as Hsame.
  { intros g Hg. exists g. split_and!; try done; [by apply written_file|by apply Hwritten]. }
  unfold survivors. destruct (last (files l)) as [x|] eqn:Hlast; [|apply Hsame]. destruct (completed x); [apply Hsame|].
  apply last_Some in Hlast as [fs Hfs]. rewrite Hfs in Hsame |- *. rewrite removelast_app, app_nil_r by done.
  assert (forall g, g ∈ fs -> g ∈ fs ++ [x]) as Hin by (intros g Hg; by apply elem_of_app; left).
  destruct (n <? start_idx x); [intros Hf; by apply Hsame, Hin|]. intros [Hf| ->%list_elem_of_singleton]%elem_of_app; [by apply Hsame, Hin|].
  destruct (Hsame x ltac:(apply elem_of_app; right; by left)) as (h & Hh & Hr). by exists h.
Qed.

Lemma survivors_names : NoDup (file_name <$> survivors l lg n).
Proof.
  pose proof (names_distinct _ _ _ Hok) as Hnd. unfold survivors. destruct (last (files l)) as [x|] eqn:Hlast; [|done]. destruct (completed x); [done|].
  apply last_Some in Hlast as [fs Hfs]. rewrite Hfs, removelast_app, app_nil_r by done. rewrite Hfs, fmap_app in Hnd. destruct (n <? start_idx x); [by apply NoDup_app in Hnd as [? _]|].
  by rewrite fmap_app.
Qed.

Lemma found_name name f : found name (Some f) -> file_name f = name.
Proof. by inversion 1. Qed.

Lemma found_NoDup ns os : NoDup ns -> Forall2 found ns os -> NoDup (omap id os).
Proof.
  intros Hnd H. induction H as [|name o ns os Ho H IH]; [constructor|]. apply NoDup_cons in Hnd as [Hni Hnd]. destruct o as [f|]; [|by apply IH]. cbn. constructor; [|by apply IH].
  intros ([g|] & Hg & [= ->])%list_elem_of_omap. apply Hni. apply list_elem_of_lookup in Hg as [k Hk]. destruct (Forall2_lookup_r _ _ _ _ _ H Hk) as (m & Hm & Hfm).
  apply found_name in Ho, Hfm. subst. by eapply list_elem_of_lookup_2.
Qed.

(** The files that were found are the survivors and committed ones. *)
Section files.
Context (ns : list string) (os : list (option LedgerFile)).
Hypothesis Hns : forall name, name ∈ ns <-> is_Some (names d !! (dir, name)).
Hypothesis Hnd : NoDup ns.
Hypothesis Hos : Forall2 found ns os.

Lemma found_elem f : f ∈ omap id os <-> exists name, name ∈ ns /\ found name (Some f) /\ Some f ∈ os.
Proof.
  split.
  - intros ([g|] & Hg & [= ->])%list_elem_of_omap. apply list_elem_of_lookup in Hg as [k Hk]. destruct (Forall2_lookup_r _ _ _ _ _ Hos Hk) as (m & Hm & Hfm).
    exists m. split_and!; [by eapply list_elem_of_lookup_2|done|by eapply list_elem_of_lookup_2].
  - intros (_ & _ & _ & H). apply list_elem_of_omap. by exists (Some f).
Qed.

Lemma found_at name : name ∈ ns -> exists o, found name o /\ o ∈ os.
Proof. intros [k Hk]%list_elem_of_lookup. destruct (Forall2_lookup_l _ _ _ _ _ Hos Hk) as (o & Ho & Hf). exists o. split; [done|]. by eapply list_elem_of_lookup_2. Qed.

Lemma found_survivor f : f ∈ omap id os /\ lf_committed f = false <-> f ∈ survivors l lg n.
Proof.
  split.
  - intros [(name & _ & Hf & _)%found_elem Hc]. inversion Hf; congruence.
  - intros Hf. destruct (survivors_from f Hf) as (g & Hg & Hfn & _ & Hc & _). split; [|done]. destruct (written_file g Hg) as (_ & Hgn & Hgi & _ & Hst). destruct (written_flags g Hg) as (Hfc & Hfi & _).
    destruct (found_at (file_name f)) as (o & Ho & Hin); [apply Hns; rewrite Hfn; by eexists|]. inversion Ho as [Hi|_ Hne|f' Hf' E|g' s e E Hse _ _ Hgc]; subst o.
    + congruence.
    + by destruct (Hne f Hf).
    + assert (f' = f) as ->; [|apply list_elem_of_omap; by exists (Some f)]. pose proof survivors_names as Hsn.
      apply list_elem_of_lookup in Hf as [i Hi], Hf' as [j Hj]. assert (i = j) as ->; [|congruence]. eapply NoDup_lookup; [exact Hsn| |].
      * rewrite list_lookup_fmap, Hi. done.
      * rewrite list_lookup_fmap, Hj. cbn. by rewrite E.
    + rewrite Hfn in E. rewrite E in Hfc. destruct (committed_name_flags s e false) as (Hfl & _). by rewrite Hfl in Hfc.
Qed.

Lemma found_committed_last f : f ∈ omap id os -> lf_committed f = true -> get_last_idx f <= end_of_committed.
Proof.
  intros (name & Hname & Hf & _)%found_elem Hc. inversion Hf as [| |f' Hf' E|g s e E Hse He Hlt Hgc Hgn Hge]; subst.
  - destruct (survivors_from f Hf') as (_ & _ & _ & _ & E' & _). congruence.
  - apply Hns in Hname as [i Hi]. by eapply committed_end.
Qed.

(** The last of the committed entries is in one of them. *)
Lemma found_end : end_of_committed = 0 \/ exists f, f ∈ omap id os /\ lf_committed f = true /\ get_last_idx f = end_of_committed.
Proof.
  destruct (lo_chain _ _ _ Hok) as (closed & opened & He & Hcl & Hch & Hcov). pose proof (end_closed _ _ He Hch) as Hend. destruct (decide (end_of_committed = 0)) as [|Hne]; [by left|right].
  destruct (Hcov end_of_committed ltac:(lia)) as (name & i & Hn & Hc). pose proof (covers_inv _ _ _ Hc) as (Hig & s & e & Hs & Hla & Hse).
  destruct (found_at name) as (o & Ho & Hin); [apply Hns; by eexists|]. inversion Ho as [Hi|Ht _|f Hf E|g s' e' E Hse' He' Hlt Hgc Hgn Hge]; subst o.
  - congruence.
  - unfold torn_name in Ht. destruct (last (files l)) as [x|] eqn:Hlast; [|done]. destruct (completed x); [done|]. injection Ht as <-.
    assert (x ∈ files l) as Hx by (apply last_Some in Hlast as [fs ->]; apply elem_of_app; right; by left). destruct (written_file x Hx) as (_ & Hxn & _ & _ & Hst). rewrite Hxn, new_name_last in Hla; [done|lia].
  - destruct (survivors_from f Hf) as (g & Hg & Hfn & _). destruct (written_file g Hg) as (_ & Hgn & _ & _ & Hst). rewrite <- E, Hfn, Hgn, new_name_last in Hla; [done|lia].
  - exists g. split; [apply list_elem_of_omap; by exists (Some g)|]. split; [done|]. rewrite E, committed_name_last in Hla by lia. injection Hla as <-.
    pose proof (committed_end _ _ _ _ Hn E Hse' He' Hlt). lia.
Qed.

Lemma restarted_last : lg_last restarted_log = n.
Proof.
  unfold lg_last. cbn. rewrite length_take. destruct Hsurv as (_ & _ & _ & Hs). unfold lg_last in Hs. rewrite Hbase in Hs. destruct (last (files l)) as [f|] eqn:Hlast; [|lia].
  destruct (completed f); [lia|]. destruct Hs as (Hn & _). assert (f ∈ files l) as Hf by (apply last_Some in Hlast as [fs ->]; apply elem_of_app; right; by left).
  destruct (written_file f Hf) as (_ & _ & _ & _ & Hst). lia.
Qed.

Lemma end_le : 0 <= end_of_committed <= n.
Proof. pose proof (lo_bound _ _ _ disk_ok_cleaned) as Hb. pose proof (lo_base _ _ _ disk_ok_cleaned) as Hb'. rewrite restarted_last in Hb. cbn in *. lia. Qed.

Lemma found_le f : f ∈ omap id os -> get_last_idx f <= n.
Proof.
  intros Hf. pose proof end_le. destruct (lf_committed f) eqn:Hc; [pose proof (found_committed_last f Hf Hc); lia|].
  assert (f ∈ survivors l lg n) as Hs by (by apply found_survivor). pose proof (file_bounds _ _ _ f disk_ok_cleaned Hs) as Hb. rewrite restarted_last in Hb. lia.
Qed.

Lemma found_last : n = 0 \/ exists f, f ∈ omap id os /\ get_last_idx f = n.
Proof.
  pose proof disk_ok_cleaned as Hcl. destruct (survivors l lg n) as [|x fs _] eqn:Es using rev_ind.
  - destruct (lo_chain _ _ _ Hcl) as (closed & opened & He & Hle & Hch & _). cbn in Hle, Hch. rewrite Es in Hch. cbn in Hch. subst opened.
    pose proof restarted_last as Hl. unfold lg_last in Hl. rewrite He, app_nil_r in Hl. cbn in Hl. pose proof end_le. destruct found_end as [H0|(f & Hf & _ & Hfl)]; [left; lia|].
    right. exists f. split; [done|]. lia.
  - right. destruct (chain_snoc _ _ _ fs x Hcl Es) as (_ & _ & _ & _ & _ & _ & _ & _ & _ & _ & Hlx). rewrite restarted_last in Hlx.
    exists x. split; [|done]. apply found_survivor. rewrite Es. apply elem_of_app. right. by left.
Qed.

(** Sorted, the files that are not committed are those of the log, in order. *)
Lemma chained_sorted D s fs es : chained D s fs es -> StronglySorted before fs /\ forall f g, f ∈ fs -> g ∈ fs -> get_last_idx f = get_last_idx g -> f = g.
Proof.
  revert s es. induction fs as [|x fs IH]; intros s es; [intros _; split; [constructor|intros f g Hf; by apply not_elem_of_nil in Hf]|].
  intros (e1 & e2 & -> & Hne & Hs & Hh & Hch). destruct (IH _ _ Hch) as [IH1 IH2]. pose proof (file_holds_last _ _ _ Hh) as Hl.
  assert (forall g, g ∈ fs -> get_last_idx x < get_last_idx g) as Hlt by (intros g Hg; pose proof (chained_bounds _ _ _ _ _ Hch Hg); lia). split.
  - constructor; [done|]. apply Forall_forall. intros g Hg. unfold before. specialize (Hlt g Hg). lia.
  - intros f g [->|Hf]%elem_of_cons [->|Hg]%elem_of_cons E; [done|specialize (Hlt g Hg); lia|specialize (Hlt f Hf); lia|by apply IH2].
Qed.

Lemma sorted_survivors : List.filter (fun f => negb (lf_committed f)) (sort_files (omap id os)) = survivors l lg n.
Proof.
  destruct (lo_chain _ _ _ disk_ok_cleaned) as (closed & opened & _ & _ & Hch & _). destruct (chained_sorted _ _ _ _ Hch) as [Hss Huniq]. cbn in Hss, Huniq.
  assert (forall f, f ∈ List.filter (fun f => negb (lf_committed f)) (sort_files (omap id os)) <-> f ∈ survivors l lg n) as Hel.
  { intros f. rewrite <- found_survivor, list_elem_of_In, List.filter_In, <- list_elem_of_In, sort_files_perm, negb_true_iff. done. }
  apply (StronglySorted_unique_strong before).
  - intros f g Hf%Hel Hg H1 H2. apply Huniq; try done. unfold before in *. lia.
  - apply filter_sorted, sort_files_sorted.
  - done.
  - apply NoDup_Permutation; [|by apply (NoDup_fmap_1 file_name), survivors_names|done].
    apply NoDup_ListNoDup, List.NoDup_filter, NoDup_ListNoDup. rewrite sort_files_perm. by apply (found_NoDup ns).
Qed.
End files.

(** ** The constructor *)

Lemma restarted_ok l1 :
  ledger_dir l1 = dir -> read_ledger_dirs l1 = [] -> files l1 = survivors l lg n -> files_read_cache l1 = [] -> last_idx l1 = n -> committed_idx l1 = end_of_committed ->
  require_new_file l1 = from_option completed true (last (survivors l lg n)) -> recovery_start_idx l1 = None -> jobs l1 = [] -> sent l1 = [] ->
  represents 0 (MkLedgerWorld l1 (cleaned l lg n d')) (MkSpec restarted_log [] []).
Proof.
  intros E1 E2 E3 E4 E5 E6 E7 E8 E9 E10. pose proof disk_ok_cleaned as Hdisk. split; [|by split_and!]. split; cbn.
  - destruct Hdisk. split; rewrite ?E1, ?E2, ?E3, ?E4; try done; [apply not_elem_of_nil|]. intros x [->|Hx]; [by apply lo_dirs; left|by apply not_elem_of_nil in Hx].
  - rewrite E3, E5, E6, E7, E8, restarted_last. split_and!; try done.
    + intros f Hf Hlt. destruct (survivors_from f Hf) as (g & Hg & _ & Hst & _). pose proof (file_bounds _ _ _ f Hdisk Hf). unfold end_of_committed in Hlt.
      destruct (files l) as [|x fs] eqn:Efs; [by apply not_elem_of_nil in Hg|]. cbn in Hlt. destruct (lo_chain _ _ _ Hok) as (closed & opened & _ & _ & Hch & _). rewrite Efs in Hch.
      pose proof (chained_bounds _ _ _ _ _ Hch Hg). destruct Hch as (e1 & e2 & _ & _ & Hx & _). lia.
    + intros f Hf. by destruct (survivors_from f Hf) as (_ & _ & _ & _ & _ & Hr).
Qed.

(** The steps behind the loop over the directory. *)
Definition settle_files : L unit :=
  l ← ledger;
  if (length (files l) =? 0)%nat then on_ledger (set require_new_file true)
  else
    on_ledger (fun l => l <| files := sort_files (files l) |>);;
    l ← ledger;
    let main_ledger_dir_last_idx := from_option get_last_idx 0 (last (files l)) in
    (if last_idx l <? main_ledger_dir_last_idx then on_ledger (set last_idx main_ledger_dir_last_idx) else skip);;
    on_ledger drop_committed;;
    on_ledger (fun l => l <| require_new_file := from_option completed true (last (files l)) |>).

Lemma settle_spec l1 D F :
  files l1 = F -> last_idx l1 = 0 -> committed_idx l1 = 0 -> end_of_committed_files_idx l1 = 0 -> 0 <= end_of_committed <= n ->
  List.filter (fun f => negb (lf_committed f)) (sort_files F) = survivors l lg n -> (forall f, f ∈ F -> get_last_idx f <= n) -> n = 0 \/ (exists f, f ∈ F /\ get_last_idx f = n) ->
  (forall f, f ∈ F -> lf_committed f = true -> get_last_idx f <= end_of_committed) ->
  end_of_committed = 0 \/ (exists f, f ∈ F /\ lf_committed f = true /\ get_last_idx f = end_of_committed) ->
  exists e, settle_files (MkLedgerWorld l1 D) =
    (MkLedgerWorld (l1 <| files := survivors l lg n |> <| last_idx := n |> <| committed_idx := end_of_committed |> <| end_of_committed_files_idx := e |>
      <| require_new_file := from_option completed true (last (survivors l lg n)) |>) D, Ret tt).
Proof.
  intros HF E1 E2 E3 Hend Hsort Hle Hfl Hcl Hfe. unfold settle_files. unfold mbind at 1, ST_bind at 1, ledger at 1, gets at 1. cbn [lw_ledger]. rewrite HF.
  destruct (length F =? 0)%nat eqn:E0.
  - apply Nat.eqb_eq, nil_length_inv in E0. subst F. rewrite E0 in *. cbn in Hsort. rewrite <- Hsort. destruct Hfl as [Hn0|(f & Hf & _)]; [|by apply not_elem_of_nil in Hf].
    exists 0. assert (end_of_committed = 0) as -> by lia. rewrite Hn0. unfold on_ledger, zoom, modify, set, update_field. cbn. rewrite E0, E1, E2, E3. done.
  - set (m := from_option get_last_idx 0 (last (sort_files F))). assert ((if 0 <? m then m else 0) = n) as Hm.
    { destruct Hfl as [->|(f & Hf & Hfn)].
      - assert (m <= 0); [|destruct (Z.ltb_spec 0 m); lia]. unfold m. destruct (last (sort_files F)) as [x|] eqn:Ex; [|done]. cbn. apply Hle. rewrite <- sort_files_perm.
        apply last_Some in Ex as [xs ->]. apply elem_of_app. right. by left.
      - assert (m = n) as ->; [|destruct (Z.ltb_spec 0 n); lia]. apply (sorted_last _ f); [apply sort_files_sorted|by rewrite sort_files_perm|done|]. intros g Hg. apply Hle. by rewrite <- sort_files_perm. }
    assert (foldl (fun c f => if lf_committed f && (c.1 <? get_last_idx f) then (get_last_idx f, get_last_idx f) else c) (0, 0) (sort_files F) = (end_of_committed, end_of_committed)) as Hdrop.
    { apply drop_committed_idx; [lia| |].
      - intros f Hf. apply Hcl. by rewrite <- sort_files_perm.
      - destruct Hfe as [|(f & Hf & ?)]; [by left|right]. exists f. by rewrite sort_files_perm. }
    exists end_of_committed. destruct l1. cbn in HF, E1, E2, E3. subst F. rewrite E1, E2, E3. clear E1 E2 E3. unfold mbind, ST_bind, on_ledger, zoom, modify, ledger, gets, drop_committed, skip, mret, ST_ret, set, update_field.
    cbn -[sort_files foldl List.filter]. fold m. destruct (0 <? m); cbn -[sort_files foldl List.filter]; rewrite Hdrop, Hsort; cbn; by rewrite Hm.
Qed.

(** The constructor recovers what is on the disk. *)
Lemma new_Ledger_ok threshold max_cache :
  0 < threshold <= max_chunk_threshold_size ->
  exists w', new_Ledger (MkLedgerWorld (blank_Ledger dir [] threshold max_cache) d') = (w', Ret tt) /\ represents 0 w' (MkSpec restarted_log [] []).
Proof.
  intros Hth. set (w0 := MkLedgerWorld (blank_Ledger dir [] threshold max_cache) d'). pose proof Hsurv as (Hdirs & Hnames & _).
  destruct (visit_all (directory_iterator dir d') w0) as (os & D & Hrun & Hos & HD); [apply iterator_NoDup|intros name Hn; apply elem_of_iterator in Hn; by rewrite Hnames in Hn|done|by left|].
  assert (forall name, name ∈ directory_iterator dir d' <-> is_Some (names d !! (dir, name))) as Hns by (intros name; rewrite elem_of_iterator; by rewrite Hnames).
  assert (D = cleaned l lg n d') as ->.
  { destruct HD as [|[-> Ht]]; [done|]. unfold cleaned. destruct (last (files l)) as [f|] eqn:Hlast; [|done]. destruct (completed f) eqn:Hc; [done|]. exfalso.
    apply (Ht (file_name f)); [|unfold torn_name; by rewrite Hlast, Hc]. assert (f ∈ files l) as Hf by (apply last_Some in Hlast as [fs ->]; apply elem_of_app; right; by left).
    destruct (written_file f Hf) as (_ & _ & Hni & _). apply Hns. by eexists. }
  match type of Hrun with _ = (MkLedgerWorld ?l1 _, _) => destruct (settle_spec l1 (cleaned l lg n d') (omap id os)) as [e Hset]; try done end.
  - apply end_le.
  - by eapply sorted_survivors; [|apply iterator_NoDup|].
  - by eapply found_le.
  - by eapply found_last.
  - by eapply found_committed_last.
  - by eapply found_end.
  - eexists. split.
    { unfold new_Ledger. unfold mbind at 1, ST_bind at 1, get at 1. cbn [lw_ledger w0 blank_Ledger chunk_threshold read_ledger_dirs foreach].
    destruct (Z.eqb_spec threshold 0); [lia|]. destruct (Z.ltb_spec max_chunk_threshold_size threshold); [lia|]. cbn [orb].
    unfold mbind at 1, ST_bind at 1, skip, mret, ST_ret. unfold mbind at 1, ST_bind at 1, gets at 1. cbn [lw_disk ledger_dir]. rewrite bool_decide_true by (change (dir ∈ directories d'); rewrite Hdirs; apply Hok).
    unfold mbind at 1, ST_bind at 1. change (ledger_dir (blank_Ledger dir [] threshold max_cache)) with dir. change (lw_disk w0) with d'. rewrite Hrun. exact Hset. }
    by apply restarted_ok.
Qed.
End restart.

(** ** The first start *)

Definition empty_log : Log := MkLog 0 [] 0.

(** A ledger whose directory does not exist yet. *)
Lemma fresh_Ledger_ok `{!DirOrder} dir d threshold max_cache :
  0 < threshold <= max_chunk_threshold_size -> dir ∉ directories d -> (forall name, names d !! (dir, name) = None) -> one_name d ->
  (forall p i, names d !! p = Some i -> (i < length (inodes d))%nat) ->
  exists w, new_Ledger (MkLedgerWorld (blank_Ledger dir [] threshold max_cache) d) = (w, Ret tt) /\ represents 0 w (MkSpec empty_log [] []).
Proof.
  intros Hth Hdir Hnames Hone Hinodes. eexists. split.
  - unfold new_Ledger. unfold mbind at 1, ST_bind at 1, get at 1. cbn [lw_ledger blank_Ledger chunk_threshold read_ledger_dirs foreach].
    destruct (Z.eqb_spec threshold 0); [lia|]. destruct (Z.ltb_spec max_chunk_threshold_size threshold); [lia|]. cbn [orb].
    unfold mbind at 1, ST_bind at 1, skip, mret, ST_ret. unfold mbind at 1, ST_bind at 1, gets at 1. cbn [lw_disk ledger_dir]. rewrite bool_decide_false by done.
    unfold mbind, ST_bind, zoom, modify, on_ledger. reflexivity.
  - split; [|done]. split; [|split_and!; try done; intros f Hf; by apply not_elem_of_nil in Hf]. split; cbn; try done.
    + apply elem_of_union. left. by apply elem_of_singleton.
    + apply not_elem_of_nil.
    + intros f Hf. by apply not_elem_of_nil in Hf.
    + intros name i Hn. by rewrite Hnames in Hn.
    + intros f Hf. by apply not_elem_of_nil in Hf.
    + exists [], []. split_and!; try done. intros idx. cbn. lia.
    + intros x [->|Hx]; [|by apply not_elem_of_nil in Hx]. intros name i s e Hn. cbn in Hn. by rewrite Hnames in Hn.
    + intros f Hf. by apply not_elem_of_nil in Hf.
Qed.

