(* ===== verification/NodeRecovery.v ===== *)
(** Reading the ledger back when a node recovers or verifies a snapshot: src/node/node_state.h ([start_ledger_recovery],
    [recover_public_ledger_entries], [recover_private_ledger_entries] and what ends them), and the handlers of
    src/enclave/enclave.h for the ranges of entries that the host sends.

    The store that entries are applied to is used through the interface [RecoveryStore]. Calls to other components of
    the node (snapshotter, ledger secrets, consensus, task queue, service tables) are recorded in order in [calls]. *)

From S2P Require Import Prelude Serialized RaftTypes Serializer LedgerFile Ledger LedgerEnclave.

(** [NodeStartupState]. *)
Inductive NodeStartupState :=
| uninitialized | initialized | pending | partOfPublicNetwork | partOfNetwork | readingPublicLedger | readingPrivateLedger | verifyingSnapshot.
#[export] Instance startup_eq_dec : EqDecision NodeStartupState.
Proof. solve_decision. Defined.

(** The latest signature in the store. *)
Record PrimarySignature := MkSignature { sig_view : Z; sig_seqno : Z; sig_commit_seqno : Z }.

(** What recovery uses of a store: entries are deserialised and applied, their hooks included. *)
Class RecoveryStore (St : Type) := {
  rs_deserialize : bool -> bytes -> St -> St * outcome ApplyResult;
  rs_compact : Z -> St -> St;
  rs_rollback : Z -> Z -> Z -> St -> St;
  rs_current_version : St -> Z;
  rs_signature : St -> option PrimarySignature;
  rs_has_service_config : St -> bool;
  rs_snapshot_evidence : St -> option bytes;
  rs_replicated_state_root : St -> bytes;
  rs_swap_private_maps : St -> St -> St;
  rs_sha256 : bytes -> bytes
}.

(** [StartupSnapshotInfo]. *)
Record StartupSnapshotInfo (St : Type) := MkSnapshotInfo {
  raw : bytes;
  seqno : Z;
  evidence_seqno : option Z;
  snapshot_store : St;
  has_evidence : bool;
  is_evidence_committed : bool
}.
Arguments MkSnapshotInfo {St}.
Arguments raw {St}.
Arguments seqno {St}.
Arguments evidence_seqno {St}.
Arguments snapshot_store {St}.
Arguments has_evidence {St}.
Arguments is_evidence_committed {St}.
#[export] Instance eta_SnapshotInfo St : Settable (StartupSnapshotInfo St) := fun r =>
  MkSnapshotInfo (raw r) (seqno r) (evidence_seqno r) (snapshot_store r) (has_evidence r) (is_evidence_committed r).

Definition is_snapshot_verified {St} (i : StartupSnapshotInfo St) : bool := has_evidence i && is_evidence_committed i.

Definition requires_ledger_verification {St} (i : StartupSnapshotInfo St) : bool := bool_decide (is_Some (evidence_seqno i)).

(** Calls to the other parts of the node. *)
Inductive NodeCall :=
| start_join_timer
| snapshotter_rollback (idx : Z)
| ledger_secrets_init (idx : Z)
| snapshotter_init_after_public_recovery
| set_snapshot_generation (b : bool)
| setup_consensus
| auto_refresh_jwt_keys
| force_become_primary (index view : Z) (view_history : list Z) (commit_idx : Z)
| boot_request_task (view : Z)
| enable_all_domains
| open_service_tx
| clear_recovered_secrets.

Record Node (St : Type) := MkNode {
  sm : NodeStartupState;
  tables : St;
  last_recovered_idx : Z;
  last_recovered_signed_idx : Z;
  view_history : list Z;
  startup_snapshot_info : option (StartupSnapshotInfo St);
  recovery_store : option St;
  recovery_v : Z;
  recovery_root : bytes;
  can_replicate : bool;
  to_host : list (HostMessage * bytes);
  calls : list NodeCall
}.
Arguments MkNode {St}.
Arguments sm {St}.
Arguments tables {St}.
Arguments last_recovered_idx {St}.
Arguments last_recovered_signed_idx {St}.
Arguments view_history {St}.
Arguments startup_snapshot_info {St}.
Arguments recovery_store {St}.
Arguments recovery_v {St}.
Arguments recovery_root {St}.
Arguments can_replicate {St}.
Arguments to_host {St}.
Arguments calls {St}.
#[export] Instance eta_Node St : Settable (Node St) := fun r =>
  MkNode (sm r) (tables r) (last_recovered_idx r) (last_recovered_signed_idx r) (view_history r) (startup_snapshot_info r) (recovery_store r)
    (recovery_v r) (recovery_root r) (can_replicate r) (to_host r) (calls r).

Section recovery.
Context {St : Type} {RS : RecoveryStore St}.

Definition N : Type -> Type := ST (Node St).

Definition recovery_batch_size : Z := 100.

Definition send (m : HostMessage * bytes) : N unit := modify (fun n => n <| to_host := to_host n ++ [m] |>).

Definition call (c : NodeCall) : N unit := modify (fun n => n <| calls := calls n ++ [c] |>).

(** [StateMachine::expect] and [advance]. *)
Definition expect (s : NodeStartupState) : N unit :=
  n ← get;
  if bool_decide (sm n = s) then skip else throw (LogicError "Unexpected state").

Definition advance (s : NodeStartupState) : N unit := sm <~ s.

Definition read_next : N unit :=
  n ← get;
  send (read_ledger_entries (u64 (last_recovered_idx n + 1)) (u64 (last_recovered_idx n + recovery_batch_size))).

Definition start_ledger_recovery : N unit :=
  n ← get;
  if negb (bool_decide (sm n = readingPublicLedger)) && negb (bool_decide (sm n = verifyingSnapshot)) then
    throw (LogicError "Node should be in another state to start reading ledger")
  else read_next.

(** ** The end of the public ledger *)

Definition verify_snapshot_end_unsafe : N unit :=
  n ← get;
  if negb (bool_decide (sm n = verifyingSnapshot)) then skip
  else match startup_snapshot_info n with
  | None => throw (LogicError "No known startup snapshot to finalise snapshot verification")
  | Some i =>
      if negb (is_snapshot_verified i) then
        (* the message that is logged takes the value of the evidence's index *)
        match evidence_seqno i with Some _ => skip | None => throw BadOptionalAccess end
      else
        send (node_ledger_truncate (seqno i) false);;
        advance pending;;
        call start_join_timer
  end.

(** For a consensus that is not byzantine; the configuration of the service is used without a check that there is one. *)
Definition recover_public_ledger_end_unsafe : N unit :=
  expect readingPublicLedger;;
  n ← get;
  match startup_snapshot_info n with
  | Some i =>
      match evidence_seqno i with
      | None => skip
      | Some e =>
          if negb (is_snapshot_verified i) then throw (LogicError "Snapshot evidence was not committed in ledger")
          else if last_recovered_signed_idx n <? e then throw (LogicError "Snapshot evidence would be rolled back")
          else skip
      end
  | None => skip
  end;;
  let last_recovered_term := Z.of_nat (length (view_history n)) in
  let new_term := u64 (last_recovered_term + starting_view_change) in
  let signed := last_recovered_signed_idx n in
  modify (fun n => n <| tables := rs_rollback last_recovered_term signed new_term (tables n) |>);;
  send (node_ledger_truncate signed true);;
  call (snapshotter_rollback signed);;
  call (ledger_secrets_init (u64 (signed + 1)));;
  call snapshotter_init_after_public_recovery;;
  call (set_snapshot_generation false);;
  n ← get;
  let ls := rs_signature (tables n) in
  let index := from_option sig_seqno 0 ls in
  let view := from_option sig_view 0 ls in
  if negb (rs_has_service_config (tables n)) then throw UndefinedBehaviour
  else
    call setup_consensus;;
    call auto_refresh_jwt_keys;;
    call (force_become_primary index view (view_history n) index);;
    call (boot_request_task new_term).

(** ** Public entries *)

(** The store in use: that of the node when it recovers, that of the snapshot when it is verified. *)
Definition public_store (n : Node St) : option St :=
  if bool_decide (sm n = readingPublicLedger) then Some (tables n)
  else if bool_decide (sm n = verifyingSnapshot) then snapshot_store <$> startup_snapshot_info n else None.

Definition set_public_store (st : St) (n : Node St) : Node St :=
  if bool_decide (sm n = readingPublicLedger) then n <| tables := st |>
  else n <| startup_snapshot_info := (fun i => i <| snapshot_store := st |>) <$> startup_snapshot_info n |>.

Definition on_store {A} (f : St -> St * outcome A) : N A := fun n =>
  match public_store n with
  | None => (n, Throw UndefinedBehaviour)
  | Some st => let '(st, o) := f st in (set_public_store st n, o)
  end.

(** One entry inside the [try] block; [None] when that ends the recovery. *)
Definition apply_public_entry (entry : bytes) : N (option ApplyResult) :=
  catch
    (r ← on_store (rs_deserialize true entry);
     if bool_decide (r = APPLY_FAIL) then recover_public_ledger_end_unsafe;; mret None
     else
       modify (fun n => n <| last_recovered_idx := u64 (last_recovered_idx n + 1) |>);;
       mret (Some r))
    (fun _ => recover_public_ledger_end_unsafe;; mret None).

(** The views up to that of a signature start behind the previous signature. *)
Definition extend_view_history (view : Z) (n : Node St) : Node St :=
  let view_start_idx := match view_history n with [] => 1 | _ => u64 (last_recovered_signed_idx n + 1) end in
  n <| view_history := view_history n ++ replicate (Z.to_nat view - length (view_history n)) view_start_idx |>.

Definition on_info (f : StartupSnapshotInfo St -> StartupSnapshotInfo St) : N unit :=
  modify (fun n => n <| startup_snapshot_info := f <$> startup_snapshot_info n |>).

Definition after_signature : N unit :=
  n ← get;
  on_store (fun st => (rs_compact (last_recovered_idx n) st, Ret tt));;
  last_sig ← on_store (fun st => (st, Ret (rs_signature st)));
  match last_sig with
  | None => throw (LogicError "Signature missing")
  | Some last_sig =>
      modify (extend_view_history (sig_view last_sig));;
      modify (fun n => n <| last_recovered_signed_idx := last_recovered_idx n |>);;
      on_info (fun i =>
        if has_evidence i && from_option (fun e => e <=? u64 (sig_commit_seqno last_sig)) false (evidence_seqno i)
        then i <| is_evidence_committed := true |> else i)
  end.

Definition after_evidence : N unit :=
  n ← get;
  match startup_snapshot_info n with
  | None => skip
  | Some i =>
      if from_option (fun e => last_recovered_idx n =? e) false (evidence_seqno i) then
        evidence ← on_store (fun st => (st, Ret (rs_snapshot_evidence st)));
        match evidence with
        | None => throw (LogicError "Invalid snapshot evidence")
        | Some hash =>
            if bool_decide (hash = rs_sha256 (raw i)) then on_info (set has_evidence true) else skip
        end
      else skip
  end.

(** The loop over the entries: whether all of them were applied. *)
Fixpoint public_loop (fuel : nat) (data : bytes) : N bool :=
  match data with
  | [] => mret true
  | _ =>
      match fuel with
      | O => throw OutOfFuel
      | S fuel =>
          match get_entry data with
          | (_, Throw e) => throw e
          | (data, Ret entry) =>
              r ← apply_public_entry entry;
              match r with
              | None => mret false
              | Some r =>
                  (if bool_decide (r = PASS_SIGNATURE) then after_signature
                   else if bool_decide (r = PASS_SNAPSHOT_EVIDENCE) then after_evidence else skip);;
                  public_loop fuel data
              end
          end
      end
  end.

Definition recover_public_ledger_entries (entries : bytes) : N unit :=
  n ← get;
  if negb (bool_decide (sm n = readingPublicLedger)) && negb (bool_decide (sm n = verifyingSnapshot)) then skip
  else if (length entries =? 0)%nat then
    if bool_decide (sm n = verifyingSnapshot) then verify_snapshot_end_unsafe else recover_public_ledger_end_unsafe
  else
    all ← public_loop (length entries) entries;
    if (all : bool) then read_next else skip.

(** ** Private entries *)

Definition on_recovery_store {A} (f : St -> St * outcome A) : N A := fun n =>
  match recovery_store n with
  | None => (n, Throw UndefinedBehaviour)
  | Some st => let '(st, o) := f st in (n <| recovery_store := Some st |>, o)
  end.

Definition recover_private_ledger_end_unsafe : N unit :=
  expect readingPrivateLedger;;
  n ← get;
  version ← on_recovery_store (fun st => (st, Ret (rs_current_version st)));
  if negb (recovery_v n =? version) then throw (LogicError "Private recovery did not reach public ledger seqno")
  else
    root ← on_recovery_store (fun st => (st, Ret (rs_replicated_state_root st)));
    if negb (bool_decide (root = recovery_root n)) then throw (LogicError "Root of public store does not match root of private store")
    else
      modify (fun n => match recovery_store n with
        | Some st => n <| tables := rs_swap_private_maps (tables n) st |> <| recovery_store := None |>
        | None => n
        end);;
      call enable_all_domains;;
      call (set_snapshot_generation true);;
      (if can_replicate n then call open_service_tx else skip);;
      call clear_recovered_secrets;;
      advance partOfNetwork.

Definition apply_private_entry (entry : bytes) : N (option ApplyResult) :=
  catch
    (r ← on_recovery_store (rs_deserialize false entry);
     if bool_decide (r = APPLY_FAIL) then
       n ← get;
       on_recovery_store (fun st => (rs_rollback 0 (last_recovered_idx n) 0 st, Ret tt));;
       recover_private_ledger_end_unsafe;;
       mret None
     else
       modify (fun n => n <| last_recovered_idx := u64 (last_recovered_idx n + 1) |>);;
       mret (Some r))
    (fun _ => recover_private_ledger_end_unsafe;; mret None).

Fixpoint private_loop (fuel : nat) (data : bytes) : N bool :=
  match data with
  | [] => mret true
  | _ =>
      match fuel with
      | O => throw OutOfFuel
      | S fuel =>
          match get_entry data with
          | (_, Throw e) => throw e
          | (data, Ret entry) =>
              r ← apply_private_entry entry;
              match r with
              | None => mret false
              | Some r =>
                  (if bool_decide (r = PASS_SIGNATURE) then
                     n ← get; on_recovery_store (fun st => (rs_compact (last_recovered_idx n) st, Ret tt))
                   else skip);;
                  private_loop fuel data
              end
          end
      end
  end.

Definition recover_private_ledger_entries (entries : bytes) : N unit :=
  n ← get;
  if negb (bool_decide (sm n = readingPrivateLedger)) then skip
  else if (length entries =? 0)%nat then recover_private_ledger_end_unsafe
  else
    all ← private_loop (length entries) entries;
    if (all : bool) then
      version ← on_recovery_store (fun st => (st, Ret (rs_current_version st)));
      n ← get;
      if version =? recovery_v n then recover_private_ledger_end_unsafe
      else send (read_ledger_entries (u64 (last_recovered_idx n + 1)) (Z.min (u64 (last_recovered_idx n + recovery_batch_size)) (recovery_v n)))
    else skip.

Definition recover_ledger_end : N unit :=
  n ← get;
  if bool_decide (sm n = readingPublicLedger) then recover_public_ledger_end_unsafe
  else if bool_decide (sm n = readingPrivateLedger) then recover_private_ledger_end_unsafe
  else skip.

(** ** Messages of the host *)

Inductive EnclaveMessage := ledger_entry_range | ledger_no_entry_range.

Definition enclave_payload (m : EnclaveMessage) : list SType :=
  match m with
  | ledger_entry_range => [SInt 8; SInt 8; SInt 1; SBytes]
  | ledger_no_entry_range => [SInt 8; SInt 8; SInt 1]
  end.

(** [write_ledger_get_range_response], as the message that is written. *)
Definition response_message (r : RangeResponse) : EnclaveMessage * bytes :=
  let fields := [VInt (rr_from r); VInt (rr_to r); VInt (purpose_value (rr_purpose r))] in
  match rr_entries r with
  | Some entries => (ledger_entry_range, concat (serialize (enclave_payload ledger_entry_range) (fields ++ [VBytes entries])))
  | None => (ledger_no_entry_range, concat (serialize (enclave_payload ledger_no_entry_range) fields))
  end.

(** The handlers; answers to historical queries go to another component. *)
Definition enclave_handle (m : EnclaveMessage) (data : bytes) : N unit :=
  vs ← lift (deserialize (enclave_payload m) data);
  match m, vs with
  | ledger_entry_range, [VInt _; VInt _; VInt purpose; VBytes body] =>
      if bool_decide (purpose_of purpose = Recovery) then
        n ← get;
        if bool_decide (sm n = readingPublicLedger) || bool_decide (sm n = verifyingSnapshot) then recover_public_ledger_entries body
        else if bool_decide (sm n = readingPrivateLedger) then recover_private_ledger_entries body
        else skip
      else skip
  | ledger_no_entry_range, [VInt _; VInt _; VInt purpose] =>
      if bool_decide (purpose_of purpose = Recovery) then
        n ← get;
        if bool_decide (sm n = verifyingSnapshot) then verify_snapshot_end_unsafe else recover_ledger_end
      else skip
  | _, _ => skip
  end.
End recovery.
