(* ===== verification/NodeRecoveryProps.v ===== *)
(** Public recovery of a node from the ledger of its host: entries are applied in order until one fails, and the ledger is cut
    behind the last signature.  The node and the host exchange messages; the host's part is proved with the log that its
    ledger refines. *)

From S2P Require Import Prelude Serialized RaftTypes Serializer LedgerFile Ledger LedgerFileProps LedgerInvariant LedgerWrites LedgerEnclave LedgerSystem LedgerRestart NodeRecovery.

(** ** Entries in a range *)

Lemma get_entry_framed e rest : framed e -> get_entry (e ++ rest) = (rest, Ret e).
Proof.
  intros [H8 Hs]. unfold get_entry. unfold mbind at 1, ST_bind at 1.
  assert (peek 8 (e ++ rest) = (e ++ rest, Ret (le_decode (take 8 e)))) as ->.
  { unfold peek, mbind, ST_bind, get. rewrite length_app. destruct (Nat.ltb_spec (length e + length rest) 8); [lia|]. by rewrite take_app_le. }
  rewrite Hs. unfold serialised_entry_header_size. replace (8 + (len e - 8)) with (len e) by lia. unfold mbind at 1, ST_bind at 1, get at 1. rewrite length_app.
  destruct (Z.ltb_spec (Z.of_nat (length e + length rest)) (len e)); [lia|]. unfold mbind, ST_bind, skip_bytes, get, modify. unfold mbind, ST_bind, get. rewrite length_app.
  destruct (Z.ltb_spec (Z.of_nat (length e + length rest)) (len e)); [lia|]. by rewrite Nat2Z.id, drop_app_length, take_app_length.
Qed.

Section props.
Context {St : Type} {RS : RecoveryStore St}.

(** ** Verifying a snapshot *)

Lemma public_end_refused (n : Node St) : sm n = verifyingSnapshot -> recover_public_ledger_end_unsafe n = (n, Throw (LogicError "Unexpected state")).
Proof.
  intros H. unfold recover_public_ledger_end_unsafe, expect. unfold mbind at 1, ST_bind at 1. unfold mbind at 1, ST_bind at 1, get at 1. by rewrite bool_decide_false by congruence.
Qed.

(** C28: A node that verifies its snapshot does not survive an entry that cannot be applied: instead of the end of the
    verification, the code runs the end of a recovery, which is not allowed in that state, and the exception escapes. An
    answer without entries, in contrast, ends the verification. *)
Theorem verification_failure_escapes (n : Node St) i e st o :
  sm n = verifyingSnapshot -> startup_snapshot_info n = Some i -> framed e -> rs_deserialize true e (snapshot_store i) = (st, o) ->
  match o with Ret r => r = APPLY_FAIL | Throw x => catchable x = true end ->
  snd (recover_public_ledger_entries e n) = Throw (LogicError "Unexpected state") /\
  (is_snapshot_verified i = true -> exists n', recover_public_ledger_entries [] n = (n', Ret tt) /\ sm n' = pending).
Proof.
  intros Hsm Hi He Hd Ho. pose proof He as [H8 _]. split.
  - unfold recover_public_ledger_entries. unfold mbind at 1, ST_bind at 1, get at 1. rewrite bool_decide_false, bool_decide_true by congruence. cbn [negb andb].
    destruct (Nat.eqb_spec (length e) 0); [lia|]. destruct e as [|b bs] eqn:Ee; [cbn in H8; lia|]. cbn [length public_loop]. rewrite <- Ee in *.
    rewrite <- (app_nil_r e), get_entry_framed by done. unfold mbind at 1, ST_bind at 1. unfold mbind at 1, ST_bind at 1. unfold apply_public_entry, catch. unfold mbind at 1, ST_bind at 1.
    unfold on_store, public_store. rewrite bool_decide_false, bool_decide_true, Hi by congruence. cbn [fmap option_fmap option_map]. rewrite Hd.
    assert (forall m, m = set_public_store st n -> sm m = verifyingSnapshot) as Hset by (intros m ->; unfold set_public_store; rewrite bool_decide_false by congruence; done).
    specialize (Hset _ eq_refl). pose proof (public_end_refused _ Hset) as Href. destruct o as [r|x].
    + rewrite Ho, bool_decide_true by done. unfold mbind, ST_bind. rewrite Href. cbn [catchable]. unfold mbind, ST_bind. by rewrite Href.
    + rewrite Ho. unfold mbind, ST_bind. by rewrite Href.
  - intros Hv. unfold recover_public_ledger_entries. unfold mbind at 1, ST_bind at 1, get at 1. rewrite bool_decide_false, bool_decide_true by congruence. cbn [negb andb length Nat.eqb].
    unfold verify_snapshot_end_unsafe. unfold mbind at 1, ST_bind at 1, get at 1. rewrite bool_decide_true, Hi, Hv by congruence. cbn [negb]. eexists. split; [reflexivity|]. done.
Qed.

(** ** What applying the entries of a log does *)

Record Progress := MkProgress { pg_store : St; pg_idx : Z; pg_signed : Z; pg_views : list Z }.

Definition views_to (pg : Progress) (view : Z) : list Z :=
  pg_views pg ++ replicate (Z.to_nat view - length (pg_views pg)) (match pg_views pg with [] => 1 | _ => pg_signed pg + 1 end).

(** An entry is applied, or it is the first that cannot be: then only the store may have changed. *)
Inductive Replayed := Applied (pg : Progress) | Failed (pg : Progress).

Definition reached (r : Replayed) : Progress := match r with Applied pg | Failed pg => pg end.

Definition replay_entry (pg : Progress) (entry : bytes) : Replayed :=
  match rs_deserialize true entry (pg_store pg) with
  | (st, Ret r) =>
      let idx := pg_idx pg + 1 in
      match r with
      | APPLY_FAIL => Failed (MkProgress st (pg_idx pg) (pg_signed pg) (pg_views pg))
      | PASS_SIGNATURE =>
          let st := rs_compact idx st in Applied (MkProgress st idx idx (views_to pg (from_option sig_view 0 (rs_signature st))))
      | _ => Applied (MkProgress st idx (pg_signed pg) (pg_views pg))
      end
  | (st, Throw _) => Failed (MkProgress st (pg_idx pg) (pg_signed pg) (pg_views pg))
  end.

Fixpoint replay (pg : Progress) (es : list bytes) : Replayed :=
  match es with
  | [] => Applied pg
  | e :: es => match replay_entry pg e with Applied pg => replay pg es | Failed pg => Failed pg end
  end.

(** The store throws exceptions that can be caught, and the entry of a signature puts it in the store. *)
Hypothesis failures_caught : forall e st st' x, rs_deserialize true e st = (st', Throw x) -> catchable x = true.
Hypothesis signature_stored : forall e st st' idx, rs_deserialize true e st = (st', Ret PASS_SIGNATURE) -> is_Some (rs_signature (rs_compact idx st')).

(** A node that recovers without a snapshot and has come that far. *)
Definition at_progress (n : Node St) (pg : Progress) : Prop :=
  sm n = readingPublicLedger /\ startup_snapshot_info n = None /\ tables n = pg_store pg /\ last_recovered_idx n = pg_idx pg /\
  last_recovered_signed_idx n = pg_signed pg /\ view_history n = pg_views pg.

Definition move_to (n : Node St) (pg : Progress) : Node St :=
  n <| tables := pg_store pg |> <| last_recovered_idx := pg_idx pg |> <| last_recovered_signed_idx := pg_signed pg |> <| view_history := pg_views pg |>.

Lemma move_at n pg pg' : at_progress n pg -> at_progress (move_to n pg') pg'.
Proof. by intros (H1 & H2 & _). Qed.

Lemma move_id n pg : at_progress n pg -> n = move_to n pg.
Proof. intros (_ & _ & H3 & H4 & H5 & H6). destruct n; cbn in *. by subst. Qed.

Lemma move_move n pg pg' : move_to (move_to n pg) pg' = move_to n pg'.
Proof. by destruct n. Qed.

Lemma replay_bounds pg e : 0 <= pg_signed pg <= pg_idx pg ->
  match replay_entry pg e with
  | Applied pg' => pg_idx pg' = pg_idx pg + 1 /\ 0 <= pg_signed pg' <= pg_idx pg'
  | Failed pg' => pg_idx pg' = pg_idx pg /\ pg_signed pg' = pg_signed pg
  end.
Proof. intros H. unfold replay_entry. destruct (rs_deserialize true e (pg_store pg)) as [st [r|]]; [destruct r; cbn; lia|cbn; lia]. Qed.

Lemma on_store_public {A} (f : St -> St * outcome A) (n : Node St) :
  sm n = readingPublicLedger -> on_store f n = let '(st, o) := f (tables n) in (n <| tables := st |>, o).
Proof. intros H. unfold on_store, public_store, set_public_store. rewrite bool_decide_true by done. done. Qed.

Lemma apply_public_ok n e st r :
  sm n = readingPublicLedger -> rs_deserialize true e (tables n) = (st, Ret r) -> r <> APPLY_FAIL ->
  apply_public_entry e n = (n <| tables := st |> <| last_recovered_idx := u64 (last_recovered_idx n + 1) |>, Ret (Some r)).
Proof.
  intros Hsm Hd Hr. unfold apply_public_entry, catch. unfold mbind at 1, ST_bind at 1. rewrite on_store_public, Hd by done. rewrite bool_decide_false by done. by destruct n.
Qed.

Lemma after_signature_ok n s :
  sm n = readingPublicLedger -> startup_snapshot_info n = None -> rs_signature (rs_compact (last_recovered_idx n) (tables n)) = Some s ->
  after_signature n = ((extend_view_history (sig_view s) n) <| tables := rs_compact (last_recovered_idx n) (tables n) |> <| last_recovered_signed_idx := last_recovered_idx n |>, Ret tt).
Proof.
  intros Hsm Hi Hs. unfold after_signature. unfold mbind at 1, ST_bind at 1, get at 1. unfold mbind at 1, ST_bind at 1. rewrite on_store_public by done.
  unfold mbind at 1, ST_bind at 1. rewrite on_store_public by done. cbn [tables set update_field].
  change (tables (n <| tables := rs_compact (last_recovered_idx n) (tables n) |>)) with (rs_compact (last_recovered_idx n) (tables n)). rewrite Hs.
  unfold mbind, ST_bind, modify, on_info, modify, extend_view_history. destruct n; cbn in *. by subst.
Qed.

(** What follows an entry that could be applied. *)
Definition follow_up (r : ApplyResult) : N unit :=
  if bool_decide (r = PASS_SIGNATURE) then after_signature else if bool_decide (r = PASS_SNAPSHOT_EVIDENCE) then after_evidence else skip.

Lemma public_entry n pg e pg' :
  at_progress n pg -> 0 <= pg_signed pg <= pg_idx pg -> pg_idx pg < 2 ^ 62 -> replay_entry pg e = Applied pg' ->
  exists r n1, apply_public_entry e n = (n1, Ret (Some r)) /\ follow_up r n1 = (move_to n pg', Ret tt).
Proof.
  intros (H1 & H2 & H3 & H4 & H5 & H6) Hs Hb Hr. unfold replay_entry in Hr.
  assert (u64 (pg_idx pg + 1) = pg_idx pg + 1) as Hu by (apply u64_small; unfold u64_modulus; lia).
  assert (u64 (pg_signed pg + 1) = pg_signed pg + 1) as Hu' by (apply u64_small; unfold u64_modulus; lia).
  destruct (rs_deserialize true e (pg_store pg)) as [st [r|]] eqn:Hd; [|done]. rewrite <- H3 in Hd. assert (r <> APPLY_FAIL) as Hf by (by intros ->).
  exists r. eexists. split; [by eapply apply_public_ok|]. rewrite H4, Hu. unfold follow_up.
  destruct (decide (r = PASS_SIGNATURE)) as [->|Hns].
  - rewrite bool_decide_true by done. destruct (signature_stored _ _ _ (pg_idx pg + 1) Hd) as [sg Hsig]. rewrite Hsig in Hr. injection Hr as <-.
    rewrite (after_signature_ok _ sg); try done. unfold extend_view_history, move_to, views_to. destruct n; cbn in *. subst. by rewrite Hu'.
  - rewrite bool_decide_false by done. assert (Applied pg' = Applied (MkProgress st (pg_idx pg + 1) (pg_signed pg) (pg_views pg))) as [= ->] by (rewrite <- Hr; by destruct r).
    unfold after_evidence. destruct n; cbn in *. subst. by case_bool_decide.
Qed.

(** ** The end of the recovery *)

Definition recovered_store (pg : Progress) : St := let t := len (pg_views pg) in rs_rollback t (pg_signed pg) (u64 (t + starting_view_change)) (pg_store pg).

(** The state of the node at the end: the store is back at the last signature, and the node becomes primary there. *)
Definition recovered (n n' : Node St) (pg : Progress) : Prop :=
  let ls := rs_signature (recovered_store pg) in
  tables n' = recovered_store pg /\ last_recovered_idx n' = pg_idx pg /\ last_recovered_signed_idx n' = pg_signed pg /\ view_history n' = pg_views pg /\
  calls n' = calls n ++ [ snapshotter_rollback (pg_signed pg); ledger_secrets_init (u64 (pg_signed pg + 1)); snapshotter_init_after_public_recovery; set_snapshot_generation false;
    setup_consensus; auto_refresh_jwt_keys; force_become_primary (from_option sig_seqno 0 ls) (from_option sig_view 0 ls) (pg_views pg) (from_option sig_seqno 0 ls);
    boot_request_task (u64 (len (pg_views pg) + starting_view_change)) ].

Definition add_call (c : NodeCall) (n : Node St) : Node St := n <| calls := calls n ++ [c] |>.

Lemma call_bind {A} c (m : N A) n : (call c;; m) n = m (add_call c n).
Proof. done. Qed.

Lemma public_end n pg :
  at_progress n pg -> rs_has_service_config (recovered_store pg) = true ->
  exists n', recover_public_ledger_end_unsafe n = (n', Ret tt) /\ recovered n n' pg /\ to_host n' = to_host n ++ [node_ledger_truncate (pg_signed pg) true].
Proof.
  intros (H1 & H2 & H3 & H4 & H5 & H6) Hc. unfold recover_public_ledger_end_unsafe, expect. unfold mbind at 1, ST_bind at 1. unfold mbind at 1, ST_bind at 1, get at 1.
  rewrite bool_decide_true by done. unfold skip at 1, mret at 1, ST_ret at 1. unfold mbind at 1, ST_bind at 1, get at 1. rewrite H2, H5, H6.
  unfold mbind at 1, ST_bind at 1, skip at 1, mret at 1, ST_ret at 1. unfold mbind at 1, ST_bind at 1, modify at 1. rewrite H3. fold (recovered_store pg).
  unfold mbind at 1, ST_bind at 1, send at 1, modify at 1. rewrite !call_bind. unfold mbind at 1, ST_bind at 1, get at 1.
  match goal with |- context [rs_signature (tables ?m)] => set (n1 := m) end. change (tables n1) with (recovered_store pg). rewrite Hc. cbn [negb]. rewrite !call_bind.
  eexists. split; [reflexivity|]. split; [|done]. change (view_history n1) with (view_history n). rewrite H6. unfold recovered.
  split; [done|]. split; [exact H4|]. split; [exact H5|]. split; [exact H6|]. cbn [calls add_call set update_field]. unfold n1, add_call. destruct n; cbn in *. by rewrite <- !app_assoc.
Qed.

(** An entry that cannot be applied ends the recovery. *)
Lemma public_entry_fails n pg e pg' :
  at_progress n pg -> replay_entry pg e = Failed pg' -> rs_has_service_config (recovered_store pg') = true ->
  exists n', apply_public_entry e n = (n', Ret None) /\ recovered n n' pg' /\ to_host n' = to_host n ++ [node_ledger_truncate (pg_signed pg') true].
Proof.
  intros Hat Hr Hc. pose proof Hat as (Hsm & Hinfo & Htab & Hidx & Hsig & Hv). unfold replay_entry in Hr.
  destruct (rs_deserialize true e (pg_store pg)) as [st o] eqn:Hd. rewrite <- Htab in Hd.
  assert (pg' = MkProgress st (pg_idx pg) (pg_signed pg) (pg_views pg) /\ (o = Ret APPLY_FAIL \/ exists x, o = Throw x /\ catchable x = true)) as [-> Ho].
  { destruct o as [[]|x]; try done; (split; [by injection Hr|]); [by left|right; exists x; split; [done|by eapply failures_caught]]. }
  destruct (public_end (n <| tables := st |>) (MkProgress st (pg_idx pg) (pg_signed pg) (pg_views pg))) as (n' & Hend & Hrec & Hto); [by split_and!|done|].
  exists n'. split; [|split; [exact Hrec|exact Hto]]. unfold apply_public_entry, catch. unfold mbind at 1, ST_bind at 1. rewrite on_store_public, Hd by done.
  destruct Ho as [->|(x & -> & Hx)].
  - rewrite bool_decide_true by done. unfold mbind, ST_bind. by rewrite Hend.
  - rewrite Hx. unfold mbind, ST_bind. by rewrite Hend.
Qed.

(** The entries of a message: all of them are applied, or the recovery ends at the first that fails. *)
Lemma public_loop_replay es : forall fuel n pg,
  Forall framed es -> (length (concat es) <= fuel)%nat -> at_progress n pg -> 0 <= pg_signed pg <= pg_idx pg -> pg_idx pg + len es < 2 ^ 62 ->
  match replay pg es with
  | Applied pg' => public_loop fuel (concat es) n = (move_to n pg', Ret true) /\ pg_idx pg' = pg_idx pg + len es /\ 0 <= pg_signed pg' <= pg_idx pg'
  | Failed pg' => rs_has_service_config (recovered_store pg') = true ->
      exists n', public_loop fuel (concat es) n = (n', Ret false) /\ recovered n n' pg' /\
        to_host n' = to_host n ++ [node_ledger_truncate (pg_signed pg') true] /\ 0 <= pg_signed pg' <= pg_idx pg' /\ pg_idx pg' < pg_idx pg + len es
  end.
Proof.
  induction es as [|e es IH]; intros fuel n pg Hfr Hfuel Hat Hs Hb; cbn [replay].
  - split; [|cbn; lia]. rewrite <- (move_id n pg) by done. by destruct fuel.
  - apply Forall_cons in Hfr as [He Hes]. pose proof He as [H8 _]. cbn [concat length] in *. rewrite length_app in Hfuel. destruct fuel as [|fuel]; [lia|].
    pose proof (replay_bounds pg e Hs) as Hbd.
    assert (public_loop (S fuel) (e ++ concat es) n = (r ← apply_public_entry e; match r with None => mret false | Some r => follow_up r;; public_loop fuel (concat es) end) n) as Hstep.
    { destruct (e ++ concat es) as [|b bs] eqn:Eb; [apply (f_equal length) in Eb; rewrite length_app in Eb; cbn in Eb; lia|]. cbn [public_loop]. by rewrite <- Eb, get_entry_framed. }
    destruct (replay_entry pg e) as [pg1|pg1] eqn:Hr1.
    + destruct (public_entry n pg e pg1 Hat Hs ltac:(lia) Hr1) as (r & n1 & Ha & Hf).
      specialize (IH fuel (move_to n pg1) pg1 Hes ltac:(lia) (move_at _ _ _ Hat) ltac:(lia) ltac:(lia)).
      rewrite Hstep, (run_bind _ _ _ _ _ Ha), (run_bind _ _ _ _ _ Hf). destruct (replay pg1 es) as [pg'|pg'].
      * destruct IH as (Hl & Hi & Hs'). rewrite move_move in Hl. split; [done|lia].
      * intros Hc. destruct (IH Hc) as (n' & Hl & Hrec & Hto & Hb1 & Hb2). exists n'. split_and!; try done; lia.
    + intros Hc. destruct (public_entry_fails n pg e pg1 Hat Hr1 Hc) as (n' & Ha & Hrec & Hto). exists n'. rewrite Hstep, (run_bind _ _ _ _ _ Ha). split_and!; try done; lia.
Qed.

(** ** The node and its host *)

Record RecoveryWorld := MkRecoveryWorld { rw_node : Node St; rw_host : LedgerWorld }.
#[export] Instance eta_RecoveryWorld : Settable RecoveryWorld := fun r => MkRecoveryWorld (rw_node r) (rw_host r).

Context {DO : DirOrder} (max_message_size : Z).

(** The host handles a message; if that made a job, the thread pool works on it and completes it. *)
Definition host_turn (m : HostMessage) (data : bytes) : L unit :=
  handle_message max_message_size m data;; host_step max_message_size (Work 0);; host_step max_message_size (Finish 0).

(** The next message of the node is handled by the host, and the answers of the host by the node. *)
Definition recovery_step : ST RecoveryWorld unit :=
  w ← get;
  match to_host (rw_node w) with
  | [] => skip
  | (m, data) :: rest =>
      zoom rw_node (to_host <~ rest);;
      zoom rw_host (host_turn m data);;
      w ← get;
      zoom rw_host (on_ledger (set sent []));;
      foreach (sent (lw_ledger (rw_host w))) (fun r => zoom rw_node (enclave_handle (response_message r).1 (response_message r).2))
  end.

Fixpoint recovery_run (fuel : nat) : ST RecoveryWorld unit :=
  match fuel with
  | O => throw OutOfFuel
  | S fuel =>
      w ← get;
      match to_host (rw_node w) with
      | [] => skip
      | _ => recovery_step;; recovery_run fuel
      end
  end.

(** From the first request on. *)
Definition recover_public (fuel : nat) : ST RecoveryWorld unit := zoom rw_node start_ledger_recovery;; recovery_run fuel.

Hypothesis max_fits : write_ledger_range_response_metadata_size <= max_message_size < 2 ^ 64.

(** A host that is at rest, with a log from the first entry on, and that is not told yet where a recovery starts. *)
Definition host_at (lw : LedgerWorld) (lg : Log) : Prop := represents 0 lw (MkSpec lg [] []) /\ recovery_start_idx (lw_ledger lw) = None.

Lemma host_events e : forall lw s, represents 0 lw s -> enabled 0 lw e -> rejects e = false ->
  exists lw' s', host_step max_message_size e lw = (lw', Ret tt) /\ spec_step max_message_size s e s' /\ represents 0 lw' s'.
Proof. intros lw s Hr He Hj. by apply host_step_refines. Qed.

(** The host answers a request for a range from its log. *)
Lemma host_get lw lg from to :
  host_at lw lg -> 0 < from < 2 ^ 64 -> 0 <= to < 2 ^ 64 ->
  exists lw' r, host_turn (read_ledger_entries from to).1 (read_ledger_entries from to).2 lw = (lw', Ret tt) /\
    represents 0 lw' (MkSpec lg [] [r]) /\ recovery_start_idx (lw_ledger lw') = None /\ answer max_message_size lg from to Recovery r.
Proof.
  intros [Hr Hs] Hf Ht. unfold host_turn. change (handle_message max_message_size (read_ledger_entries from to).1 (read_ledger_entries from to).2)
    with (host_step max_message_size (Receive (GetRange from to Recovery))).
  destruct (host_events (Receive (GetRange from to Recovery)) lw _ Hr) as (lw1 & s1 & H1 & Hs1 & Hr1); [cbn; unfold wide, asked; lia|done|].
  pose proof (same_start_step max_message_size (Receive (GetRange from to Recovery)) I lw) as Hst1. rewrite H1 in Hst1. rewrite (run_bind _ _ _ _ _ H1).
  destruct (host_events (Work 0) lw1 _ Hr1) as (lw2 & s2 & H2 & Hs2 & Hr2); [done|done|].
  pose proof (same_start_step max_message_size (Work 0) I lw1) as Hst2. rewrite H2 in Hst2. rewrite (run_bind _ _ _ _ _ H2).
  destruct (host_events (Finish 0) lw2 _ Hr2) as (lw3 & s3 & H3 & Hs3 & Hr3); [done|done|].
  pose proof (same_start_step max_message_size (Finish 0) I lw2) as Hst3. rewrite H3 in Hst3. rewrite H3.
  assert (exists r, s3 = MkSpec lg [] [r] /\ answer max_message_size lg from to Recovery r) as (r & -> & Ha).
  { inversion Hs2; subst. inversion Hs1; subst; try done; inversion Hs3; subst; try done; cbn in *; simplify_eq; by eexists. }
  exists lw3, r. split; [done|]. split; [done|]. split; [|done]. unfold same_start in *. cbn in *. congruence.
Qed.

Lemma host_cut lw lg idx :
  host_at lw lg -> 0 <= idx <= lg_last lg -> lg_last lg < 2 ^ 62 ->
  exists lw', host_turn (node_ledger_truncate idx true).1 (node_ledger_truncate idx true).2 lw = (lw', Ret tt) /\
    represents 0 lw' (MkSpec (lg_truncate lg idx) [] []).
Proof.
  intros [Hr Hs] Hi Hl. unfold host_turn. change (handle_message max_message_size (node_ledger_truncate idx true).1 (node_ledger_truncate idx true).2)
    with (host_step max_message_size (Receive (TruncateAt idx true))).
  destruct (host_events (Receive (TruncateAt idx true)) lw _ Hr) as (lw1 & s1 & H1 & Hs1 & Hr1).
  { cbn. rewrite Hs. unfold wide. split; [lia|]. split; [done|]. intros _. destruct Hr as ((_ & -> & _) & _). cbn. lia. }
  { done. }
  rewrite (run_bind _ _ _ _ _ H1).
  destruct (host_events (Work 0) lw1 _ Hr1) as (lw2 & s2 & H2 & Hs2 & Hr2); [done|done|]. rewrite (run_bind _ _ _ _ _ H2).
  destruct (host_events (Finish 0) lw2 _ Hr2) as (lw3 & s3 & H3 & Hs3 & Hr3); [done|done|]. exists lw3. split; [done|].
  inversion Hs2; subst. inversion Hs1; subst. inversion Hs3; subst; [done|]. cbn in *. by simplify_eq.
Qed.

Lemma host_taken lw lg r : represents 0 lw (MkSpec lg [] [r]) -> represents 0 (lw <| lw_ledger := (lw_ledger lw) <| sent := [] |> |>) (MkSpec lg [] []).
Proof. intros (Hok & Hb & Hj & _ & Hf). split; [destruct Hok as [Hd ?]; split; [by destruct Hd; split|done]|]. by split_and!. Qed.

Definition batches_fit (lg : Log) : Prop := forall from, size_of (lg_range lg from (from + recovery_batch_size - 1)) <= max_entries max_message_size.

Lemma response_handled r (n : Node St) :
  0 <= rr_from r < 2 ^ 64 -> 0 <= rr_to r < 2 ^ 64 -> rr_purpose r = Recovery -> from_option (fun b => len b < 2 ^ 64) True (rr_entries r) -> sm n = readingPublicLedger ->
  enclave_handle (response_message r).1 (response_message r).2 n =
    match rr_entries r with Some entries => recover_public_ledger_entries entries n | None => recover_ledger_end n end.
Proof.
  intros Hf Ht Hp Hlen Hsm. unfold response_message. rewrite Hp. destruct (rr_entries r) as [entries|]; cbn [fst snd]; unfold enclave_handle, mbind, ST_bind, lift.
  - rewrite deserialize_serialize by (cbn in *; lia). cbn [enclave_payload app as_read fmap list_fmap]. change (purpose_of (purpose_value Recovery)) with Recovery.
    rewrite bool_decide_true by done. unfold get. rewrite bool_decide_true by done. done.
  - rewrite deserialize_serialize by (cbn in *; lia). cbn [enclave_payload app as_read fmap list_fmap]. change (purpose_of (purpose_value Recovery)) with Recovery.
    rewrite bool_decide_true by done. unfold get. rewrite bool_decide_false by congruence. done.
Qed.

(** ** Rounds *)

Definition asking (n : Node St) (k : Z) : Node St := n <| to_host := [read_ledger_entries (k + 1) (k + recovery_batch_size)] |>.

Lemma replay_app pg es es' : replay pg (es ++ es') = match replay pg es with Applied pg => replay pg es' | Failed pg => Failed pg end.
Proof. revert pg. induction es as [|e es IH]; intros pg; [done|]. cbn. destruct (replay_entry pg e); [apply IH|done]. Qed.

Lemma foreach_node {A} (l : list A) (f : A -> N unit) : forall n lw n',
  foreach l f n = (n', Ret tt) -> foreach l (fun r => zoom rw_node (f r)) (MkRecoveryWorld n lw) = (MkRecoveryWorld n' lw, Ret tt).
Proof.
  induction l as [|x l IH]; intros n lw n' H; cbn [foreach] in *; [by injection H as <-|].
  unfold mbind at 1, ST_bind at 1 in H. destruct (f x n) as [n1 [[]|]] eqn:E; [|done].
  rewrite (run_bind _ _ _ _ _ (run_zoom rw_node _ (MkRecoveryWorld n lw) _ _ E)). by apply IH.
Qed.

(** A message of the node is handled by the host, and its answers by the node. *)
Lemma step_message n m data lw lw' n' :
  to_host n = [(m, data)] -> host_turn m data lw = (lw', Ret tt) ->
  foreach (sent (lw_ledger lw')) (fun r => enclave_handle (response_message r).1 (response_message r).2) (n <| to_host := [] |>) = (n', Ret tt) ->
  recovery_step (MkRecoveryWorld n lw) = (MkRecoveryWorld n' (lw' <| lw_ledger := (lw_ledger lw') <| sent := [] |> |>), Ret tt).
Proof.
  intros Hth Hhost Hn. unfold recovery_step. unfold mbind at 1, ST_bind at 1, get at 1. cbn [rw_node]. rewrite Hth.
  rewrite (run_bind _ _ _ (MkRecoveryWorld (n <| to_host := [] |>) lw) tt) by done.
  unfold mbind at 1, ST_bind at 1, zoom at 1. cbn [rw_host]. rewrite Hhost.
  unfold mbind at 1, ST_bind at 1, get at 1. by apply (foreach_node _ _ (n <| to_host := [] |>)).
Qed.

Lemma step_asking n lw lg k :
  to_host n = [] -> host_at lw lg -> 0 <= k < 2 ^ 62 ->
  exists lw' r, host_at lw' lg /\ answer max_message_size lg (k + 1) (k + recovery_batch_size) Recovery r /\
    forall n', enclave_handle (response_message r).1 (response_message r).2 n = (n', Ret tt) -> recovery_step (MkRecoveryWorld (asking n k) lw) = (MkRecoveryWorld n' lw', Ret tt).
Proof.
  intros Hth Hat Hk. unfold recovery_batch_size. destruct (host_get lw lg (k + 1) (k + 100) Hat) as (lw' & r & Hhost & Hr & Hs & Ha); [lia..|].
  exists (lw' <| lw_ledger := (lw_ledger lw') <| sent := [] |> |>), r. split; [split; [by eapply host_taken|done]|]. split; [done|]. intros n' Hn.
  eapply step_message; [reflexivity|exact Hhost|]. destruct Hr as (_ & _ & _ & -> & _). cbn [foreach sp_sent].
  assert ((asking n k) <| to_host := [] |> = n) as -> by (destruct n; cbn in *; by subst). by rewrite (run_bind _ _ _ _ _ Hn).
Qed.

Lemma step_cut n lw lg idx :
  to_host n = [node_ledger_truncate idx true] -> host_at lw lg -> 0 <= idx <= lg_last lg -> lg_last lg < 2 ^ 62 ->
  exists lw', recovery_step (MkRecoveryWorld n lw) = (MkRecoveryWorld (n <| to_host := [] |>) lw', Ret tt) /\ represents 0 lw' (MkSpec (lg_truncate lg idx) [] []).
Proof.
  intros Hth Hat Hi Hl. destruct (host_cut lw lg idx Hat Hi Hl) as (lw' & Hhost & Hr). exists (lw' <| lw_ledger := (lw_ledger lw') <| sent := [] |> |>). split.
  - eapply step_message; [exact Hth|exact Hhost|]. by destruct Hr as (_ & _ & _ & -> & _).
  - destruct Hr as (Hok & Hb & Hj & _ & Hf). split; [destruct Hok as [Hd ?]; split; [by destruct Hd; split|done]|]. by split_and!.
Qed.

Lemma range_drop lg k to : lg_base lg = 0 -> 0 <= k -> lg_range lg (k + 1) to = take (Z.to_nat (to - k)) (drop (Z.to_nat k) (lg_entries lg)).
Proof. intros Hb Hk. unfold lg_range, slice. rewrite Hb. f_equal; [lia|]. f_equal. lia. Qed.

(** The answer when entries are left and fit. *)
Lemma batch_answered lg k r :
  answer max_message_size lg (k + 1) (k + recovery_batch_size) Recovery r -> batches_fit lg -> lg_base lg = 0 -> 0 <= k < lg_last lg -> lg_last lg < 2 ^ 62 ->
  exists k', k < k' <= lg_last lg /\ rr_entries r = Some (concat (take (Z.to_nat (k' - k)) (drop (Z.to_nat k) (lg_entries lg)))) /\
    from_option (fun b => len b < 2 ^ 64) True (rr_entries r).
Proof.
  unfold recovery_batch_size. intros (_ & _ & _ & Ha) Hfit Hb Hk Hlast. unfold range_answer in Ha.
  destruct (Z.leb_spec (k + 1) 0); [lia|]. destruct (Z.ltb_spec (k + 100) (k + 1)); [lia|]. cbn [orb] in Ha. rewrite andb_false_r in Ha. destruct (Z.ltb_spec (lg_last lg) (k + 1)); [lia|].
  destruct (rr_entries r) as [bs|].
  - destruct Ha as (k' & Hk' & -> & Hsz & _). exists k'. split; [lia|]. rewrite range_drop in * by lia. split; [done|].
    cbn in *. unfold max_entries, write_ledger_range_response_metadata_size in *. lia.
  - destruct Ha as (m & idx & [= <-] & Hi & Hm). exfalso. pose proof (Hfit (k + 1)) as Hf. unfold recovery_batch_size in Hf.
    pose proof (size_range_mono lg (k + 1) idx (k + 1 + 100 - 1) ltac:(lia) ltac:(lia)). lia.
Qed.

(** Entries are left: some of them are applied and the next ones are asked for, or the recovery ends. *)
Lemma round_more n lw lg k pg :
  at_progress n pg -> to_host n = [] -> host_at lw lg -> Forall framed (lg_entries lg) -> lg_last lg + recovery_batch_size < 2 ^ 62 -> batches_fit lg ->
  pg_idx pg = k -> 0 <= pg_signed pg <= k -> k < lg_last lg ->
  exists k' lw', k < k' <= lg_last lg /\ host_at lw' lg /\
    match replay pg (take (Z.to_nat (k' - k)) (drop (Z.to_nat k) (lg_entries lg))) with
    | Applied pg' => pg_idx pg' = k' /\ 0 <= pg_signed pg' <= k' /\
        recovery_step (MkRecoveryWorld (asking n k) lw) = (MkRecoveryWorld (asking (move_to n pg') k') lw', Ret tt)
    | Failed pg' => rs_has_service_config (recovered_store pg') = true -> 0 <= pg_signed pg' <= lg_last lg /\
        exists n', recovery_step (MkRecoveryWorld (asking n k) lw) = (MkRecoveryWorld n' lw', Ret tt) /\ recovered n n' pg' /\ to_host n' = [node_ledger_truncate (pg_signed pg') true]
    end.
Proof.
  intros Hat Hth Hhost Hfr Hlast Hfit Hk Hs Hlt. assert (lg_base lg = 0) as Hb by (by destruct Hhost as ((_ & ? & _) & _)). assert (0 <= k) by lia.
  unfold recovery_batch_size in Hlast. destruct (step_asking n lw lg k Hth Hhost ltac:(lia)) as (lw' & r & Hhost' & Ha & Hstep).
  destruct (batch_answered lg k r Ha Hfit Hb ltac:(lia) ltac:(lia)) as (k' & Hk' & Hr & Hsz). exists k', lw'. split; [done|]. split; [done|].
  destruct Ha as (Hf & Ht & Hp & _). unfold recovery_batch_size in Ht. pose proof (response_handled r n ltac:(lia) ltac:(lia) Hp Hsz ltac:(by destruct Hat)) as Hh. rewrite Hr in Hh.
  set (es := take (Z.to_nat (k' - k)) (drop (Z.to_nat k) (lg_entries lg))) in *.
  assert (lg_last lg = len (lg_entries lg)) as Hll by (unfold lg_last; lia).
  assert (len es = k' - k) as Hlen by (unfold es; rewrite length_take, length_drop; lia).
  assert (Forall framed es) as Hfe by (by apply Forall_take, Forall_drop).
  pose proof (public_loop_replay es (length (concat es)) n pg Hfe ltac:(lia) Hat ltac:(lia) ltac:(lia)) as Hloop.
  assert (recover_public_ledger_entries (concat es) n = (all ← public_loop (length (concat es)) (concat es); if (all : bool) then read_next else skip) n) as Hrun.
  { unfold recover_public_ledger_entries. unfold mbind at 1, ST_bind at 1, get at 1. destruct Hat as (Hsm & _). rewrite bool_decide_true by done. cbn [negb andb].
    destruct (Nat.eqb_spec (length (concat es)) 0) as [E|]; [exfalso|done]. destruct es as [|e es']; [cbn in Hlen; lia|].
    apply Forall_cons in Hfe as [[H8 _] _]. cbn in E. rewrite length_app in E. lia. }
  rewrite Hrun in Hh. destruct (replay pg es) as [pg'|pg'].
  - destruct Hloop as (Hl & Hi & Hs'). split; [lia|]. split; [lia|]. apply Hstep. rewrite Hh, (run_bind _ _ _ _ _ Hl). unfold read_next, send, modify. unfold mbind, ST_bind, get.
    change (last_recovered_idx (move_to n pg')) with (pg_idx pg'). rewrite Hi, !u64_small by (unfold u64_modulus, recovery_batch_size; lia).
    replace (pg_idx pg + len es) with k' by lia. change (to_host (move_to n pg')) with (to_host n). by rewrite Hth.
  - intros Hc. destruct (Hloop Hc) as (n' & Hl & Hrec & Hto & Hb1 & Hb2). split; [lia|]. exists n'. split; [|split; [done|by rewrite Hto, Hth]].
    apply Hstep. by rewrite Hh, (run_bind _ _ _ _ _ Hl).
Qed.

(** No entries are left, or the host says so. *)
Lemma round_last n lw lw' lg k pg r :
  at_progress n pg -> to_host n = [] -> rs_has_service_config (recovered_store pg) = true ->
  answer max_message_size lg (k + 1) (k + recovery_batch_size) Recovery r -> 0 <= k < 2 ^ 62 -> rr_entries r = Some [] \/ rr_entries r = None ->
  (forall n', enclave_handle (response_message r).1 (response_message r).2 n = (n', Ret tt) -> recovery_step (MkRecoveryWorld (asking n k) lw) = (MkRecoveryWorld n' lw', Ret tt)) ->
  exists n', recovery_step (MkRecoveryWorld (asking n k) lw) = (MkRecoveryWorld n' lw', Ret tt) /\ recovered n n' pg /\ to_host n' = [node_ledger_truncate (pg_signed pg) true].
Proof.
  intros Hat Hth Hc (Hf & Ht & Hp & _) Hk Hr Hstep. unfold recovery_batch_size in Ht. destruct (public_end n pg Hat Hc) as (n' & Hn & Hrec & Hto).
  exists n'. split; [|split; [done|by rewrite Hto, Hth]]. apply Hstep. pose proof Hat as (Hsm & _).
  rewrite (response_handled r n); [|lia|lia|done|by destruct Hr as [-> | ->]|done]. destruct Hr as [-> | ->].
  - unfold recover_public_ledger_entries. unfold mbind at 1, ST_bind at 1, get at 1. rewrite bool_decide_true by done. cbn [negb andb length Nat.eqb].
    by rewrite bool_decide_false by congruence.
  - unfold recover_ledger_end. unfold mbind at 1, ST_bind at 1, get at 1. by rewrite bool_decide_true.
Qed.

Lemma run_step fuel w w' : to_host (rw_node w) <> [] -> recovery_step w = (w', Ret tt) -> recovery_run (S fuel) w = recovery_run fuel w'.
Proof.
  intros Hth Hw. cbn [recovery_run]. unfold mbind at 1, ST_bind at 1, get at 1. destruct (to_host (rw_node w)); [done|]. unfold mbind, ST_bind. by rewrite Hw.
Qed.

(** The end of a recovery at [pg]: the node is there, and the log of the host is cut. *)
Definition ended (n : Node St) (lg : Log) (pg : Progress) (w : RecoveryWorld) : Prop :=
  recovered n (rw_node w) pg /\ to_host (rw_node w) = [] /\ represents 0 (rw_host w) (MkSpec (lg_truncate lg (pg_signed pg)) [] []).

(** The last two messages. *)
Lemma run_end fuel w n n' lw lg pg :
  to_host (rw_node w) <> [] -> recovery_step w = (MkRecoveryWorld n' lw, Ret tt) -> recovered n n' pg -> to_host n' = [node_ledger_truncate (pg_signed pg) true] ->
  host_at lw lg -> 0 <= pg_signed pg <= lg_last lg -> lg_last lg < 2 ^ 62 ->
  exists w', recovery_run (S (S (S fuel))) w = (w', Ret tt) /\ ended n lg pg w'.
Proof.
  intros Hth Hw Hrec Hto Hhost Hs Hl. erewrite run_step; [|done|exact Hw]. destruct (step_cut n' lw lg (pg_signed pg) Hto Hhost Hs Hl) as (lw' & Hst & Hr).
  erewrite run_step; [|cbn; by rewrite Hto|exact Hst]. eexists. split; [reflexivity|]. split; [|by split]. by destruct Hrec as (? & ? & ? & ? & ?).
Qed.

Lemma run_last n lw lg pg fuel :
  at_progress n pg -> to_host n = [] -> host_at lw lg -> lg_last lg + recovery_batch_size < 2 ^ 62 -> 0 <= pg_signed pg <= pg_idx pg -> pg_idx pg = lg_last lg ->
  rs_has_service_config (recovered_store pg) = true ->
  exists w, recovery_run (S (S (S fuel))) (MkRecoveryWorld (asking n (lg_last lg)) lw) = (w, Ret tt) /\ ended n lg pg w.
Proof.
  intros Hat Hth Hhost Hlast Hs Hk Hc. unfold recovery_batch_size in Hlast. set (k := lg_last lg) in *.
  destruct (step_asking n lw lg k Hth Hhost ltac:(lia)) as (lw' & r & Hhost' & Ha & Hstep).
  destruct (round_last n lw lw' lg k pg r) as (n' & Hst & Hrec & Hto); try done; [lia| |].
  - left. destruct Ha as (_ & _ & _ & Ha). unfold range_answer, recovery_batch_size in Ha. fold k in Ha. destruct (Z.leb_spec (k + 1) 0); [lia|].
    destruct (Z.ltb_spec (k + 100) (k + 1)); [lia|]. rewrite andb_false_r in Ha. cbn [orb] in Ha. by destruct (Z.ltb_spec k (k + 1)); [|lia].
  - eapply run_end; try done; fold k; lia.
Qed.

(** From any point of the recovery on; every round but the last two applies an entry at least. *)
Lemma recovery_from m : forall n lw lg k pg fuel,
  lg_last lg - k <= Z.of_nat m -> (m + 3 <= fuel)%nat ->
  at_progress n pg -> to_host n = [] -> host_at lw lg -> Forall framed (lg_entries lg) -> lg_last lg + recovery_batch_size < 2 ^ 62 -> batches_fit lg ->
  pg_idx pg = k -> 0 <= pg_signed pg <= k -> k <= lg_last lg ->
  let pgf := reached (replay pg (drop (Z.to_nat k) (lg_entries lg))) in rs_has_service_config (recovered_store pgf) = true ->
  exists w, recovery_run fuel (MkRecoveryWorld (asking n k) lw) = (w, Ret tt) /\ ended n lg pgf w.
Proof.
  induction m as [|m IH]; intros n lw lg k pg fuel Hm Hfuel Hat Hth Hhost Hfr Hlast Hfit Hk Hs Hle pgf Hc;
    assert (lg_base lg = 0) as Hb by (by destruct Hhost as ((_ & ? & _) & _)); unfold recovery_batch_size in Hlast; destruct (decide (k = lg_last lg)) as [E|Hne]; try lia.
  1, 2: unfold pgf in *; rewrite (nil_length_inv (drop (Z.to_nat k) (lg_entries lg))) in * by (rewrite length_drop; unfold lg_last in E; lia);
    cbn [replay reached] in *; destruct fuel as [|[|[|fuel]]]; [lia..|]; rewrite E; apply run_last; (done || unfold recovery_batch_size; lia).
  destruct (round_more n lw lg k pg Hat Hth Hhost Hfr Hlast Hfit Hk Hs ltac:(lia)) as (k' & lw' & Hk' & Hhost' & Hround).
  assert (drop (Z.to_nat k) (lg_entries lg) = take (Z.to_nat (k' - k)) (drop (Z.to_nat k) (lg_entries lg)) ++ drop (Z.to_nat k') (lg_entries lg)) as Hsplit.
  { rewrite <- (take_drop (Z.to_nat (k' - k)) (drop (Z.to_nat k) (lg_entries lg))) at 1. f_equal. rewrite drop_drop. f_equal. lia. }
  destruct fuel as [|fuel]; [lia|]. revert Hround Hc. unfold pgf.
  assert (replay pg (drop (Z.to_nat k) (lg_entries lg)) = _) as -> by (rewrite Hsplit at 1; apply replay_app). destruct (replay pg (take (Z.to_nat (k' - k)) (drop (Z.to_nat k) (lg_entries lg)))) as [pg'|pg']; intros Hround Hc.
  - destruct Hround as (Hi & Hs' & Hst). erewrite run_step; [|done|exact Hst].
    destruct (IH (move_to n pg') lw' lg k' pg' fuel) as (w & Hrun & Hend); try done; try lia; [by eapply move_at|]. by exists w.
  - destruct (Hround Hc) as (Hb1 & n' & Hst & Hrec & Hto). destruct fuel as [|[|fuel]]; [lia..|]. eapply run_end; try done; lia.
Qed.


(** ** Recoveries that stop before the end of the ledger *)

(** The host has no answer for a range whose entries are in two files when the first entry of the second is over the limit. *)
Lemma host_refuses lw lw1 lg from to f :
  host_at lw lg -> 0 < from < 2 ^ 64 -> 0 <= to < 2 ^ 64 -> is_in_committed_file (lw_ledger lw) to = false ->
  get_file_from_idx from false lw = (lw1, Ret (Some f)) -> get_last_idx f < Z.min to (lg_last lg) ->
  size_of (lg_range lg from (get_last_idx f)) <= max_entries max_message_size < size_of (lg_range lg from (get_last_idx f + 1)) ->
  exists lw', host_turn (read_ledger_entries from to).1 (read_ledger_entries from to).2 lw = (lw', Ret tt) /\
    represents 0 lw' (MkSpec lg [] [MkRangeResponse from to Recovery None]) /\ recovery_start_idx (lw_ledger lw') = None.
Proof.
  intros Hat Hf Ht Hc Hfile Hend Hsize. destruct (host_get lw lg from to Hat Hf Ht) as (lw' & r & Hturn & Hr & Hs & _). exists lw'. split; [done|].
  enough (r = MkRangeResponse from to Recovery None) as -> by done. destruct Hat as ((Hok & Hb & Hj & Hsent & _) & _). cbn in Hok, Hj, Hsent, Hb.
  destruct (respond_spec max_message_size max_fits lw lg from to Recovery Hok ltac:(lia)) as (lw2 & r2 & Hresp & Hok2 & (Hf2 & Ht2 & Hp2 & _) & Hsent2 & Hjobs2 & Hread).
  unfold write_ledger_range_response_metadata_size in max_fits.
  destruct (read_entries_stops lw lw1 lg from to f (max_entries max_message_size) Hok ltac:(lia) Hfile Hend) as [lw3 Hstop];
    [unfold max_entries, write_ledger_range_response_metadata_size; lia|done|].
  assert (host_turn (read_ledger_entries from to).1 (read_ledger_entries from to).2 lw = (lw2, Ret tt)) as Hturn2.
  { unfold host_turn. change (handle_message max_message_size (read_ledger_entries from to).1 (read_ledger_entries from to).2) with (receive max_message_size (GetRange from to Recovery)).
    assert (receive max_message_size (GetRange from to Recovery) lw = (lw2, Ret tt)) as Hrec.
    { rewrite receive_serve by (cbn; unfold wide; lia). cbn [serve]. unfold handle_get_range, ledger, gets. unfold mbind at 1, ST_bind at 1. by rewrite Hc. }
    rewrite (run_bind _ _ _ _ _ Hrec). cbn [host_step]. unfold on_ledger_get_async_complete, ledger, gets, mbind, ST_bind. rewrite Hjobs2, Hj.
    change ([] !! 0%nat) with (@None AsyncLedgerGet). unfold skip, mret, ST_ret. by rewrite Hjobs2, Hj. }
  rewrite Hturn in Hturn2. injection Hturn2 as <-. destruct Hr as (_ & _ & _ & Hs' & _). cbn in Hs'. rewrite Hs', Hsent in Hsent2. injection Hsent2 as ->.
  rewrite bool_decide_true in Hread by done. cbn [negb] in Hread. rewrite Hstop in Hread. injection Hread as Hnone. destruct r2; cbn in *. by subst.
Qed.

(** C27: A recovery can stop in the middle of the ledger.  Let a node have recovered the first entries, and let the next ones end
    a file such that they fit in a message, but not together with the first entry of the next file, which the batch asked for
    contains too; that range reaches beyond the committed files.  However small the entries are one by one, the host answers
    that there is no such range.  The node takes this for the end of the ledger: it starts from the last signature it has
    seen, and makes the host cut off what is behind, although the log goes on. *)
Theorem recovery_stops_early n lw lw1 lg pg f fuel :
  at_progress n pg -> to_host n = [] -> host_at lw lg -> 0 <= pg_signed pg <= pg_idx pg -> lg_last lg + recovery_batch_size < 2 ^ 62 ->
  rs_has_service_config (recovered_store pg) = true -> is_in_committed_file (lw_ledger lw) (pg_idx pg + recovery_batch_size) = false ->
  get_file_from_idx (pg_idx pg + 1) false lw = (lw1, Ret (Some f)) -> get_last_idx f < Z.min (pg_idx pg + recovery_batch_size) (lg_last lg) ->
  size_of (lg_range lg (pg_idx pg + 1) (get_last_idx f)) <= max_entries max_message_size < size_of (lg_range lg (pg_idx pg + 1) (get_last_idx f + 1)) ->
  exists w, recovery_run (3 + fuel) (MkRecoveryWorld (asking n (pg_idx pg)) lw) = (w, Ret tt) /\ ended n lg pg w /\ pg_idx pg < lg_last lg.
Proof.
  intros Hat Hth Hhost Hs Hlast Hc Hcom Hfile Hend Hsize. set (k := pg_idx pg) in *. unfold recovery_batch_size in Hlast, Hcom, Hend.
  assert (k < lg_last lg) as Hk.
  { destruct Hhost as ((Hok & Hb & _) & _). cbn in Hok, Hb. pose proof (lo_base _ _ _ (proj1 Hok)). pose proof (lo_bound _ _ _ (proj1 Hok)).
    destruct (decide (k < lg_last lg)); [done|]. rewrite (lg_range_beyond lg (k + 1)), (lg_range_beyond lg (k + 1)) in Hsize by lia. lia. }
  destruct (host_refuses lw lw1 lg (k + 1) (k + 100) f Hhost) as (lw' & Hturn & Hr & Hst); try done; try lia.
  pose proof (host_taken _ _ _ Hr) as Hr'. set (lw2 := lw' <| lw_ledger := (lw_ledger lw') <| sent := [] |> |>) in *.
  destruct (round_last n lw lw2 lg k pg (MkRangeResponse (k + 1) (k + 100) Recovery None)) as (n' & Hstep & Hrec & Hto); try done; [|lia|by right| |].
  - destruct (host_get lw lg (k + 1) (k + 100) Hhost) as (lw3 & r & Hturn3 & Hr3 & _ & Ha); [lia..|]. rewrite Hturn in Hturn3. injection Hturn3 as <-.
    destruct Hr as (_ & _ & _ & Hs1 & _), Hr3 as (_ & _ & _ & Hs3 & _). cbn in Hs1, Hs3. rewrite Hs1 in Hs3. by injection Hs3 as ->.
  - intros n' Hn. eapply step_message; [reflexivity|exact Hturn|]. destruct Hr as (_ & _ & _ & -> & _). cbn [foreach sp_sent].
    assert ((asking n k) <| to_host := [] |> = n) as -> by (destruct n; cbn in *; by subst). by rewrite (run_bind _ _ _ _ _ Hn).
  - destruct (run_end fuel (MkRecoveryWorld (asking n k) lw) n n' lw2 lg pg) as (w & Hrun & Hended); try done; try lia. by exists w.
Qed.
End props.
