(* ===== verification/NodeScenarios.v ===== *)
(** Runs of the host ledger on concrete disks, and recoveries of nodes with a small store. *)

From Stdlib Require Import String.
From S2P Require Import Prelude Serialized RaftTypes Serializer LedgerFile Ledger LedgerNames LedgerFileProps LedgerInvariant LedgerUpdates LedgerWrites LedgerCommits LedgerEnclave LedgerSystem LedgerRestart NodeRecovery NodeRecoveryProps.

#[export] Instance in_order : DirOrder := {| dir_order l := l; dir_order_perm l := Permutation_refl l |}.

(** An entry with a header, and its flags. *)
Definition entry (flags : Z) (body : bytes) : bytes := le_encode 8 (Z.of_nat (length body) * 2 ^ 16 + flags * 2 ^ 8) ++ body.

Definition no_disk : Disk := MkDisk ∅ ∅ [].

Definition start (threshold : Z) : LedgerWorld := (new_Ledger (MkLedgerWorld (blank_Ledger "ledger" [] threshold 2) no_disk)).1.

Definition message_size : Z := 4096.

Lemma start_represents threshold : 0 < threshold <= max_chunk_threshold_size -> represents 0 (start threshold) (MkSpec empty_log [] []).
Proof.
  intros H. destruct (fresh_Ledger_ok "ledger" no_disk threshold 2 H) as (w & Hw & Hr); [set_solver|done|by intros p q i|by intros p i|].
  unfold start. by rewrite Hw.
Qed.

(** Chunks of one entry each; the first is committed, read in a job while the second is replaced. *)
Definition events : list Event :=
  [ Receive (PutEntry (entry 0 [1; 2]) true); Receive (PutEntry (entry 0 [3]) true); Receive (CommitAt 1);
    Receive (GetRange 1 1 HistoricalQuery); Work 0; Receive (TruncateAt 1 false); Receive (PutEntry (entry 0 [4; 5; 6]) false);
    Finish 0; Receive (GetRange 1 5 Recovery) ].

#[local] Instance enabled_dec base w e : Decision (enabled base w e).
Proof.
  destruct e as [[e c|idx mode|idx| |from to p]|i|i]; cbn [enabled]; unfold room, wide, asked; try apply _.
  destruct (recovery_start_idx (lw_ledger w)); cbn [from_option]; apply _.
Defined.

#[local] Instance enabled_along_dec max base es : forall w, Decision (enabled_along max base w es).
Proof. induction es as [|e es IH]; intros w; cbn [enabled_along]; apply _. Defined.

Lemma events_enabled : enabled_along message_size 0 (start 1) (events ++ [Receive (PutEntry [1] true); Receive (CommitAt 2)]).
Proof. apply (bool_decide_unpack _). vm_compute. exact I. Qed.

Lemma ledger_refines_log_witness :
  exists w' s' x, host_run message_size (events ++ [Receive (PutEntry [1] true); Receive (CommitAt 2)]) (start 1) = (w', Throw x) /\
    spec_run message_size (MkSpec empty_log [] []) events s' /\ represents 0 w' s' /\ sp_log s' = MkLog 0 [entry 0 [1; 2]; entry 0 [4; 5; 6]] 1.
Proof.
  destruct (ledger_refines_log message_size ltac:(vm_compute; split; congruence) 0 (start 1) (MkSpec empty_log [] [])
    (events ++ [Receive (PutEntry [1] true); Receive (CommitAt 2)])) as (w' & s' & o & Hrun & Hspec & Hrep & Hlog & [x ->]);
    [apply start_represents; vm_compute; split; congruence|exact events_enabled|].
  exists w', s', x. split; [exact Hrun|]. split; [exact Hspec|]. split; [exact Hrep|exact Hlog].
Defined.

(** A chunk is committed, and two more entries are written to a file that is not completed. *)
Definition writes : list Event :=
  [ Receive (PutEntry (entry 0 [1; 2]) true); Receive (CommitAt 1); Receive (PutEntry (entry 0 [3]) false); Receive (PutEntry (entry 0 [4; 5; 6]) false) ].

Definition running : LedgerWorld := (host_run message_size writes (start 1)).1.

Lemma running_represents : exists s, represents 0 running s /\ sp_log s = MkLog 0 [entry 0 [1; 2]; entry 0 [3]; entry 0 [4; 5; 6]] 1.
Proof.
  destruct (host_run_refines message_size ltac:(vm_compute; split; congruence) 0 (start 1) (MkSpec empty_log [] []) writes) as (w & s & o & Hw & Hs & Hr & _); [by apply start_represents|apply (bool_decide_unpack _); vm_compute; exact I|].
  exists s. split; [unfold running; rewrite Hw; exact Hr|]. rewrite (spec_run_log _ _ _ _ Hs). vm_compute. reflexivity.
Qed.

(** The machine stops before the last entry is on disk as a whole. *)
Definition stopped : Disk := set_contents 1 (image false [entry 0 [3]] ++ take 9 (entry 0 [4; 5; 6])) (lw_disk running).

Lemma running_facts : ledger_dir (lw_ledger running) = "ledger"%string /\ read_ledger_dirs (lw_ledger running) = [] /\ Forall (fun f => recovery f = false) (files (lw_ledger running)) /\
  (exists f, last (files (lw_ledger running)) = Some f /\ completed f = false /\ start_idx f = 2 /\ file f = 1%nat) /\ length (inodes (lw_disk running)) = 2%nat /\
  (forall x, from_option (fun f => start_idx f - 1) x (head (files (lw_ledger running))) = 1).
Proof. vm_compute. repeat split; repeat constructor. eexists. repeat split. Qed.

#[local] Opaque running.

Lemma stopped_survives lg : lg = MkLog 0 [entry 0 [1; 2]; entry 0 [3]; entry 0 [4; 5; 6]] 1 -> survives (lw_disk running) (lw_ledger running) lg 2 stopped.
Proof.
  intros ->. destruct running_facts as (_ & _ & _ & (f & Hlast & Hc & Hst & Hf) & Hlen & _). unfold survives. rewrite Hlast, Hc, Hst, Hf. split_and!; try reflexivity.
  - vm_compute. congruence.
  - vm_compute. congruence.
  - intros i Hi. unfold stopped. rewrite contents_set by lia. by rewrite decide_False.
  - exists (take 9 (entry 0 [4; 5; 6])). split; [apply torn_prefix; [split; [vm_compute; lia|vm_compute; reflexivity]|vm_compute; lia]|].
    unfold stopped. rewrite contents_set by lia. rewrite decide_True by done. reflexivity.
Qed.


(** A store that keeps the entries; those that end in 255 are signatures, in view 2, and those that end in 254 cannot be applied. *)
Definition kind_of (e : bytes) : ApplyResult := match last e with Some 255 => PASS_SIGNATURE | Some 254 => APPLY_FAIL | _ => PASS end.

#[local] Instance small_store : RecoveryStore (list bytes) := {|
  rs_deserialize _ e st := match kind_of e with APPLY_FAIL => (st, Ret APPLY_FAIL) | r => (st ++ [e], Ret r) end;
  rs_compact _ st := st;
  rs_rollback _ s _ st := take (Z.to_nat s) st;
  rs_current_version st := Z.of_nat (length st);
  rs_signature st := if (length st =? 0)%nat then None else Some (MkSignature 2 (Z.of_nat (length st)) 0);
  rs_has_service_config st := negb (length st =? 0)%nat;
  rs_snapshot_evidence _ := None;
  rs_replicated_state_root st := concat st;
  rs_swap_private_maps _ st := st;
  rs_sha256 b := b
|}.

Lemma small_failures : forall e st st' x, rs_deserialize true e st = (st', Throw x) -> catchable x = true.
Proof. intros e st st' x. cbn. by destruct (kind_of e). Qed.

Lemma small_signatures : forall e st st' (idx : Z), rs_deserialize true e st = (st', Ret PASS_SIGNATURE) -> is_Some (rs_signature (rs_compact idx st')).
Proof.
  intros e st st' idx. cbn. destruct (kind_of e); try done. intros [= <-]. rewrite length_app. cbn. destruct (Nat.eqb_spec (length st + 1) 0); [lia|by eexists].
Qed.

(** A host after a run from an empty directory. *)
Lemma host_at_run M es lg :
  write_ledger_range_response_metadata_size <= M < 2 ^ 64 -> enabled_along M 0 (start 1) es -> log_events empty_log (accepted es) = lg ->
  let lw := (host_run M es (start 1)).1 in jobs (lw_ledger lw) = [] -> sent (lw_ledger lw) = [] -> recovery_start_idx (lw_ledger lw) = None -> host_at lw lg.
Proof.
  intros HM He Hlg lw Hj Hs Hr. destruct (host_run_refines M HM 0 (start 1) (MkSpec empty_log [] []) es) as (w & s & o & Hw & Hspec & Hrep & _); [by apply start_represents|done|].
  unfold lw in *. rewrite Hw in *. cbn [fst] in *. split; [|done]. pose proof Hrep as (_ & _ & Hj' & Hs' & _). rewrite Hj in Hj'. rewrite Hs in Hs'.
  apply spec_run_log in Hspec. cbn [sp_log] in Hspec. rewrite Hlg in Hspec. destruct s; cbn in *. by subst.
Qed.

Definition recovering (st : list bytes) : Node (list bytes) := MkNode readingPublicLedger st 0 0 [] None None 0 [] true [] [].

(** The fourth entry cannot be applied. *)
Definition small_run : list Event :=
  [ Receive (PutEntry (entry 0 [1]) true); Receive (PutEntry (entry 0 [2; 255]) true); Receive (CommitAt 2); Receive (PutEntry (entry 0 [3]) true);
    Receive (PutEntry (entry 0 [254]) true); Receive (PutEntry (entry 0 [5; 255]) true) ].

Definition small_log : Log := MkLog 0 [entry 0 [1]; entry 0 [2; 255]; entry 0 [3]; entry 0 [254]; entry 0 [5; 255]] 2.


(** Two chunks; messages have room for any one of the entries, but not for two. *)
Definition two_chunks : list Event :=
  [ Receive (PutEntry (entry 0 [1; 255]) false); Receive (PutEntry (entry 0 [2; 2; 2; 2]) true); Receive (PutEntry (entry 0 [3; 3; 255]) true) ].

Definition narrow : Z := write_ledger_range_response_metadata_size + 16.

Definition chunked : LedgerWorld := (host_run narrow two_chunks (start 1)).1.

Definition halfway : Node (list bytes) := MkNode readingPublicLedger [entry 0 [1; 255]] 1 1 [1; 1] None None 0 [] true [] [].

(** The first answer brings the node to [halfway]; from there the recovery stops, and the second signature is cut off. *)
Lemma recovery_stops_early_witness :
  recovery_step narrow (MkRecoveryWorld (asking (recovering []) 0) chunked) = (MkRecoveryWorld (asking halfway 1) chunked, Ret tt) /\
  exists w, recovery_run narrow 3 (MkRecoveryWorld (asking halfway 1) chunked) = (w, Ret tt) /\
    ended halfway (MkLog 0 [entry 0 [1; 255]; entry 0 [2; 2; 2; 2]; entry 0 [3; 3; 255]] 0) (MkProgress [entry 0 [1; 255]] 1 1 [1; 1]) w /\ 1 < 3.
Proof.
  split; [vm_compute; reflexivity|].
  apply (recovery_stops_early narrow ltac:(vm_compute; split; congruence) halfway chunked chunked
    (MkLog 0 [entry 0 [1; 255]; entry 0 [2; 2; 2; 2]; entry 0 [3; 3; 255]] 0) (MkProgress [entry 0 [1; 255]] 1 1 [1; 1])
    (default (MkLedgerFile "" "" 0 0 0 [] false false false) (head (files (lw_ledger chunked)))) 0).
  - repeat split.
  - reflexivity.
  - apply (host_at_run narrow); [vm_compute; split; congruence|apply (bool_decide_unpack _); vm_compute; exact I|vm_compute; reflexivity..].
  - cbn. lia.
  - vm_compute. reflexivity.
  - reflexivity.
  - vm_compute. reflexivity.
  - vm_compute. reflexivity.
  - vm_compute. reflexivity.
  - vm_compute. split; congruence.
Defined.

Lemma verification_failure_escapes_witness :
  let i := MkSnapshotInfo [] 1 (Some 2) [] true true in
  let n := MkNode verifyingSnapshot [] 1 1 [1] (Some i) None 0 [] true [] [] in
  snd (recover_public_ledger_entries (entry 0 [254]) n) = Throw (LogicError "Unexpected state") /\
  (true = true -> exists n', recover_public_ledger_entries [] n = (n', Ret tt) /\ sm n' = pending).
Proof.
  intros i n. apply (verification_failure_escapes n i (entry 0 [254]) [] (Ret APPLY_FAIL)); try reflexivity. split; [vm_compute; lia|vm_compute; reflexivity].
Defined.
